(* ===== verification/_CoqProject ===== *)
-Q . S2P
Prelude.v
Span.v
Ir.v
Liveness.v
Paths.v
LivenessFacts.v
Drops.v
DropsErase.v
DropsFacts.v
DropsProps.v
Reuse.v
ReuseFacts.v
Bytecode.v
ObjectOps.v
Gc.v
GcPaint.v
GcTrial.v
GcFacts.v
GcTrace.v
GcComponents.v
GcProps.v
Types.v
TypesFacts.v
TypesProps.v
Doc.v
DocFacts.v
DocProps.v
Reactive.v
ReactiveFacts.v
ReactiveWf.v
ReactiveSteps.v
ReactiveChanges.v
ReactiveFresh.v
ReactiveProps.v
Regalloc.v
RegallocSets.v
RegallocLive.v
RegallocColor.v
RegallocRemap.v
RegallocMachine.v
RegallocCoalesce.v
RegallocSplice.v
RegallocHoist.v
RegallocRelease.v
RegallocProps.v
RegallocPipeline.v
Transparency.v
TransparencyFacts.v
RegistryLog.v
RegistryLogFacts.v
TransparencyProps.v
Words.v
Numbers.v
NumbersFacts.v
Shapes.v
Values.v
ValuesFacts.v
Packed.v
PackedLayout.v
PackedCodec.v
PackedProps.v
Orders.v
Hints.v
MapKeys.v
ValueOps.v
ValueOpsFacts.v
ValueOpsProps.v
ValueData.v
ValueEquality.v
MapKeysProps.v
Sets.v
SetsProps.v
Uri.v
Redirect.v
RedirectProps.v
Cookies.v
CookieProps.v
Signature.v
HttpClient.v
HttpClientProps.v
