(* ===== verification/Prelude.v ===== *)
(** * Noeta: a verification library

    Noeta is a language toolchain written in Rust (the crates under
    [src/crates/]): a parser and checker lower a program to an intermediate
    representation, passes annotate it with releases and in-place tokens, a virtual
    machine runs it over a reference-counted heap with a cycle collector, and tools
    (formatter, package manager, editors) work on the same sources.  This library
    models the decision-making cores of that toolchain and proves what they promise.

    ** The parts and their files

    - [Prelude]: boolean reflection tactics, list predicates with positions
      ([forallb2], [forallb2i]), predicate lifting for nested types.
    - [Span] ([noeta-span/src/lib.rs]): spans and their operations on [u32].
    - [Ir] ([noeta-ir/src/lib.rs], enums of [noeta-ast]): the instruction set, one
      constructor per variant.  Payloads the passes only carry (surface types, width
      sites, declarations) are the fields of the class [Payloads].
    - [Liveness] ([noeta-ir-passes/src/liveness.rs]): the backward analysis.  [Paths]
      gives the IR a trace semantics (reads, writes, releases, exits) and
      [LivenessFacts] proves the analysis sound for it.
    - [Drops] ([drops.rs]): where releases go.  [DropsErase], [DropsFacts] and
      [DropsProps] prove that the rewrite only adds releases, only of owned locals, and
      never before a later read where the analysis covers the [break]s and [continue]s
      of the body.
    - [Reuse] ([reuse.rs]): in-place tokens; [ReuseFacts] justifies each one.
      [ObjectOps] ([Op::MakeStruct] and [Op::MakeStructInPlace] of
      [noeta-vm/src/dispatch.rs]) says when construction in place agrees with fresh
      construction.
    - [Gc] ([noeta-gc/src/lib.rs], the header operations of
      [noeta-value/src/heap.rs]): trial deletion, the backup trace, both safepoint
      forms and the connected components.  [GcPaint] to [GcProps] prove soundness,
      completeness, termination and the partition; [heap_ok] is what trial deletion
      asks of a heap, [traceable] what a trace asks and leaves for the next one.
    - [Types] ([noeta-types/src/lib.rs], [noeta-ast/src/builtin_ty.rs]): the type
      lattice.  [TypesFacts] states the subtype rules declaratively ([Sub]) and
      [TypesProps] the properties of subtyping, unions, desugaring and names.
    - [Doc] ([noeta-fmt/src/doc.rs]): the pretty-printing algebra; [DocFacts] runs the
      renderer as a step relation and [DocProps] states what a layout preserves.
    - [Reactive] ([noeta-reactive/src/lib.rs]): signals, computeds and effects over a
      table of nodes.  [ReactiveFacts] computes what each operation does to the table,
      [ReactiveWf] and [ReactiveSteps] give the invariant and the operations as steps,
      among them the flush that gives up on its round and leaves effects flagged in no
      queue; [ReactiveChanges] shows that no change is lost, [ReactiveFresh] compares
      memoised reads with evaluation from scratch, [ReactiveProps] collects the theorems.
    - [Bytecode] ([noeta-bytecode/src/lib.rs]): the register instruction set, one
      constructor per [Op], jump visitors, prototypes and argument binding.
    - [Regalloc] ([noeta-compiler/src/regalloc.rs] and the end of [into_chunk] in
      [noeta-compiler/src/lib.rs]): constant hoisting, register coalescing and the release
      of stale global reads.  [RegallocSets] gives [BitSet] its set reading,
      [RegallocLive] proves the liveness analysis exact, [RegallocColor] the interference
      graph and the colouring, [RegallocRemap] the rewriting of registers and jumps.
      [RegallocMachine] is a machine that reads and writes the registers [op_facts]
      names, its instructions a parameter; [RegallocCoalesce] simulates coalesced code on
      it, [RegallocSplice] any rebuild that moves or inserts instructions, and
      [RegallocHoist] and [RegallocRelease] are its two uses.  [RegallocProps] states the
      passes' theorems and [RegallocPipeline] composes them.
    - [Transparency] ([noeta-pm/src/transparency.rs]): the hashes, the log record and the
      verifiers of inclusion and consistency proofs; SHA-256 is a parameter.
      [TransparencyFacts] gives a list of leaves its Merkle tree, root and honest proofs
      and proves the verifiers exact for them.  [RegistryLog] ([registry.rs], [graph.rs]
      and [advisory.rs] of [noeta-pm/src], [noeta-cli/src/cmd/pm.rs]) is what the client
      does with them: [enforce_transparency] at resolve time, the signed advisory feed
      and [watch_one_scope], against an [HttpIndex] of served answers and a parameter
      for Ed25519.  [RegistryLogFacts] inverts the checks, [TransparencyProps] states
      what they guarantee, with a concrete hash and registry for the witnesses.
    - [Words] and [Numbers] ([noeta-ext-abi/src/ring1.rs]): the erased 64-bit word, its
      masking and bit methods, and the conversions between integers and IEEE floats
      ([SpecFloat]).  [NumbersFacts] proves them exact on bits and on values.
    - [Shapes] ([noeta-object/src/lib.rs]): shapes, packed schemas with their offsets,
      the interner.  [Values] ([noeta-value/src/lib.rs], [heap.rs]): the NaN-boxed word,
      the heap of payloads and their readers; [ValuesFacts] inverts them.  An allocator
      and the foreign types of packages are classes.
    - [Packed] ([noeta-value/src/packed.rs]): lists of structs as one byte buffer, by
      rows or by columns.  [PackedLayout] proves the offsets disjoint, [PackedCodec]
      the cells inverse to each other, [PackedProps] that every operation on buffers is
      the operation on the list of elements.
    - [Orders]: the laws of a three-way comparison, shared by what is sorted.
      [Hints] ([render_hint.rs] of [noeta-ext-abi]): how a rendered value learns its
      width.  [MapKeys] ([map_key.rs] and the map operations of [noeta-value]): keys,
      their two orders, insertion, removal and listing; [MapKeysProps].
    - [ValueOps] ([noeta-value/src/ops.rs], the width lowering of
      [noeta-ir/src/lower.rs], [MaskWidth] of [noeta-vm/src/dispatch.rs]): every
      operator with its errors, equality and the orders of values.  [ValueOpsFacts]
      computes them on integers, [ValueOpsProps] at each fixed width.  [ValueData] says
      what a value in a heap means, instances, functions, foreign values and maps
      included, and [ValueEquality] that operators see only that.
    - [Sets] ([noeta-vm/src/values.rs] and [methods.rs], [noeta-value/src/lib.rs]): the
      canonical buffer of a set, its bisected updates in place, the set methods;
      [SetsProps].
    - [Uri] ([noeta-ext-abi/src/uri.rs]): the parts of a URL, origins and reference
      resolution, over the parts of Rust's [str] the code uses.  [Redirect]
      ([redirect.rs], [net.rs]): the request a response redirects to, and the chain of
      hops over a host's network, which is a parameter; [RedirectProps].
    - [Cookies] ([noeta-stdlib/src/cookie.rs], [cookie_jar.rs]): the cookie a server
      builds, the parser of received headers and their dates, the jar.  [CookieProps]
      gives a jar as a finite map and a header its round trip.  [Signature]
      ([signature.rs]): signature bases, signing and verifying, over a class for HMAC,
      SHA-256 and base64; its theorems follow in the same file.  [HttpClient]
      ([http_client.rs]): the configured client, its retries around redirect chains
      with cookies and signatures per hop, over a host that is a parameter;
      [HttpClientProps].

    ** How the parts meet

    [Drops.insert_drops] consumes [Liveness.analyze]; [DropsFacts] replays the paths
    of [Paths] with the inserted releases. [Reuse.thread_reuse] marks the statements
    that [ObjectOps.make_struct_in_place] executes, and the equivalence theorems of
    [ObjectOps] are what makes a token safe to set. [Ir] spans come from [Span], and
    so do the type parameters of [Types], whose identity is a declaration span. The
    register passes run in sequence over one [Bytecode] prototype, and
    [RegallocPipeline.finish_chunk_preserves_execution] chains their simulations.
    [ObjectOps] takes the reuse check of its instruction from [Bytecode].
    [RegistryLog] calls the verifiers of [Transparency], and its theorems on whole
    resolves rest on the exactness theorems of [TransparencyFacts]. [Values] stores
    the words of [Words], and the payloads of [Packed], [MapKeys] and [Sets] live in
    its heap. [Hints] takes the doors of rendering from [Bytecode]. [Sets] compares by
    [ValueOps.set_order] and combines through [ValueOps.apply_binary];
    [SetsProps.set_updates_in_place_agree] is what allows the token that [Reuse] puts
    on [s = s.add(x)]. [Redirect] decides with the origins and the resolution of
    [Uri]. [HttpClient.attempt] runs [Redirect.follow_redirects] over
    [HttpClient.hop], which applies [Cookies.header_for] and [Signature.sign_request]
    to one request and feeds the answer to [Cookies.store]; the theorems on clients
    rest on the confinement of [RedirectProps] and on jars filled from received
    headers.

    ** Groups of theorems

    Safety: no release before a later read, no token without a rebinding, no live
    object reclaimed, no unlogged release accepted (a hypothesis [collision_free]
    names the byte strings hashed on the way, and says that no two of them collide),
    heads of the log that one key signed and that only grow, no credential sent off
    the origin it was given for, no cookie to another site, no signature that covers
    less than it names. Liveness: a registry that serves an honest log is accepted.
    Functional: the trace collects exactly the unreachable objects, a union is the
    join of its members, a group that fits is printed on one line. Refinement and
    equivalence: the subtype walk decides the declarative rules, annotated programs
    erase to their source, layout changes white space only, a memoised read is an
    evaluation, the register passes preserve every run, a packed list in either layout
    is its list of elements, equality is equality of what values mean, a set updated
    in place is the set a copying update makes, dot segments go as RFC 3986 says.
    Termination: the loop fixpoints, the collector walks, the renderer, redirect
    chains. Bounds and round trips: fixed-width operators wrap or trap at their width,
    integers survive the value word, a client's request stays within its hops and
    retries, and cookies and signatures read back as they were written. Each theorem
    with a hypothesis is applied at a concrete input in an [Example] module of its
    file or next to it.

    ** Hypotheses

    Theorems that allocate assume of the allocator that it hands out fresh addresses
    ([malloc_fresh]) and fails only when at least [room] addresses are live;
    [LawfulExterns] asks of the foreign types that may be keys that their comparison
    is a total order and their equality agrees with it. Sets assume [orderable]
    elements: any two of them compare, and as equal exactly if they are equal.
    [RegallocRelease.globals_ok] asks of the machine that releasing a value some
    global owns is not seen and that a global gives a value up only to a store or a
    take, of the frame or of what it calls; [RegallocRelease.calm] asks of the code
    that nothing called between a read of a global and the take after it stores that
    global. [LivenessFacts.exits_covered] asks of a body that the analysis finds live,
    where a [break] or [continue] stands, what is live where it lands.
    [RedirectProps.stamps_origin] asks of a host that a response carries a URL of the
    origin that was asked, or none. [Signature.LawfulCrypto] asks that exactly the
    HMAC is accepted and that base64 decodes what it encodes.

    ** Fuel

    Recursion that follows a graph or a stack takes fuel and answers [None] without
    it, and a theorem says how much is enough: more than twice the number of objects
    for trial deletion and more than their number for the trace ([GcProps]), two extra
    rounds for the loop fixpoints ([LivenessFacts]), the sum of the sizes of two types
    for subtyping ([TypesFacts.subtype_unfold]), the size of the document for the
    renderer ([DocProps.render_total]). In [Reactive], disposal takes one level per
    node, a marking walk one round per node, and a flush two rounds more than
    [MAX_FLUSH_STEPS], all three enough by theorem. The liveness of [Regalloc] takes
    [flow_fuel] rounds, each but the last adding a register to a set ([RegallocLive]).
    The loop of [Transparency.largest_pow2_below] takes at most 63 rounds, or never
    ends and answers [None] ([TransparencyProps.verifiers_return_up_to_2_63]).
    Equality of values takes the depth of its left value ([ValueEquality]), a
    bisection the length of its buffer ([SetsProps]), and a redirect chain one more
    than its limit ([RedirectProps.follow_redirects_returns]), which is what
    [HttpClient.attempt] gives it.

    ** Where the code departs from its documentation

    [DropsExample.break_releases_too_early], [continue_releases_too_early],
    [ObjectOps.reassign_in_place_keeps_old] and [GcExample.live_candidate_freed] are
    concrete runs on which a pass or collector breaks its own promise; the theorems
    around them carry the hypothesis that excludes the case. So do
    [RegallocExample.a_store_in_a_call_leaves_the_last_reference] for the release of
    stale reads and [RegallocExample.jump_to_loop_top_skips_the_preheader] for
    constant hoisting, whose simulation assumes that loops are entered through their
    top, and [ReactiveExample.self_disposal_leaves_a_subscription] for the reactive
    graph. [ReactiveExample.reused_slot_runs_twice] and [overflow_strands_effects] are
    runs of that graph which its steps include and its invariant allows for.
    [TransparencyProps.monitor_accepts_a_rewritten_root] and
    [monitor_passes_over_failed_checks] are histories and proofs the monitor lets
    through. [ValueOpsProps.dyn_operand_leaves_the_width],
    [ValueEquality.maps_compare_by_the_text_of_keys],
    [SetsProps.empty_set_admits_what_copying_refuses],
    [SetsProps.removal_in_place_takes_another],
    [PackedProps.empty_packed_element_lost] and
    [RedirectProps.RedirectExample.credentials_follow_a_backslash] are runs of the
    value layer and of the URL arithmetic that break what the code promises.
    [SignatureExample.semicolon_in_a_key_id] and [hostile_created_is_fresh] are inputs
    the verifier mistakes. [parameters_are_reordered], [thirty_first_of_february],
    [default_path_is_not_told], [mixed_order_is_not_transitive], [hex_accepts_a_plus],
    [insert_drops_not_idempotent], [dyn_narrows_to_trait_objects],
    [mismatch_pair_hides_parameters] and [peek_of_a_stale_memo_subscribes] contradict
    a comment.

    ** Not modelled

    The parser, the checker's inference, the compiler's emission, the interpreter's
    dispatch loop and its string, list and text builtins (the machine of
    [RegallocMachine] leaves what an instruction computes open, and its world has no
    reference counts), the just-in-time backend (an external code generator), and
    everything that is chiefly file, network or protocol traffic.  Of the package
    manager, version resolution, manifests and stores are left out: they drive external
    solvers, parsers and tools.  Of the value layer: the text a value displays as (an
    argument of concatenation), copies between isolates, iterators, list updates in
    place, hashing, the JSON walk, and the releases of temporaries.  Reference counts
    appear in [Gc] and not in [ObjectOps], [ValueOps] or [Sets].  Sorting, bisection and
    hash maps of Rust's library are written out from its documentation; a float is its
    [SpecFloat] value.  Of HTTP, requests that stream or run in the background are left
    out.  The rendering of diagnostics is left out throughout. *)

From stdpp Require Export base tactics list gmap sets strings.
From stdpp Require Import options.

Declare Scope noeta_scope.
Delimit Scope noeta_scope with noeta.
Open Scope noeta_scope.

(** The set of source-variable names: Rust's [BTreeSet<String>] and
    [HashSet<String>] where only membership matters. *)
Abbreviation VarSet := (gset string).

Create HintDb noeta discriminated.

(** Split every boolean connective of the context and goal into propositions. *)
Ltac bool_to_prop :=
  repeat match goal with
  | H : _ && _ = true |- _ => apply andb_true_iff in H as [? ?]
  | H : _ || _ = true |- _ => apply orb_true_iff in H
  | H : _ || _ = false |- _ => apply orb_false_iff in H as [? ?]
  | H : negb _ = true |- _ => apply negb_true_iff in H
  | H : negb _ = false |- _ => apply negb_false_iff in H
  | H : bool_decide _ = true |- _ => apply bool_decide_eq_true in H
  | H : bool_decide _ = false |- _ => apply bool_decide_eq_false in H
  | |- _ && _ = true => apply andb_true_iff; split
  | |- negb _ = true => apply negb_true_iff
  | |- bool_decide _ = true => apply bool_decide_eq_true
  | |- bool_decide _ = false => apply bool_decide_eq_false
  end.

(** Case analysis on the scrutinee of every [match] in the goal. *)
Ltac case_goal := repeat (case_match; simplify_eq/=; try done).

(** Insert a name when it is there: [Option<String>] folded into a set. *)
Definition opt_set {A} `{Countable A} (o : option A) : gset A :=
  match o with Some x => {[ x ]} | None => ∅ end.

(** [Iterator::any] / [Iterator::all]. *)
Definition any {A} (f : A → bool) (l : list A) : bool := existsb f l.
Definition all {A} (f : A → bool) (l : list A) : bool := forallb f l.

(** [slice::last]. *)
Definition opt_last {A} (l : list A) : option A := last l.

(** Predicate lifting through the containers the IR nests its types in: with
    these registered, the induction schemes of nested types carry one hypothesis
    per nested element. *)
Scheme All for list.
Scheme All for option.
Scheme All for prod.

Lemma any_exists {A} (f : A → bool) l : any f l = true ↔ ∃ x, x ∈ l ∧ f x = true.
Proof. unfold any. rewrite existsb_exists. setoid_rewrite list_elem_of_In. done. Qed.

Lemma all_forall {A} (f : A → bool) l : all f l = true ↔ ∀ x, x ∈ l → f x = true.
Proof. unfold all. rewrite forallb_forall. setoid_rewrite list_elem_of_In. done. Qed.

Lemma map_eq_Forall {A B} (f g : A → B) l : Forall (λ x, f x = g x) l → map f l = map g l.
Proof. induction 1; simpl; congruence. Qed.

Lemma map_id_Forall {A} (f : A → A) l : Forall (λ x, f x = x) l → map f l = l.
Proof. induction 1; simpl; congruence. Qed.

Lemma list_all_Forall {A} (P : A → Prop) l : list_all A P l → Forall P l.
Proof. induction 1; constructor; auto. Qed.

Lemma option_all_Some {A} (P : A → Prop) x : option_all A P (Some x) → P x.
Proof. by inversion 1. Qed.

#[export] Hint Resolve list_all_Forall : noeta.
#[export] Hint Resolve map_eq_Forall map_id_Forall : noeta.

(** A [for] loop whose body may fail or run out of fuel. *)
Fixpoint fold_opt {A S} (f : A → S → option S) (l : list A) (s : S) : option S :=
  match l with
  | [] => Some s
  | a :: l => match f a s with Some s => fold_opt f l s | None => None end
  end.

(** [a.len() == b.len() && a.iter().zip(b).all(f)]. *)
Section Forallb2.
  Context {A B : Type} (f : A → B → bool).
Fixpoint forallb2 (l : list A) (k : list B) : bool :=
  match l, k with
  | [], [] => true
  | a :: l', b :: k' => f a b && forallb2 l' k'
  | _, _ => false
  end.

Lemma forallb2_Forall2 l k : forallb2 l k = true ↔ Forall2 (λ a b, f a b = true) l k.
Proof.
  revert k. induction l as [|a l IH]; intros [|b k]; simpl;
    rewrite ?Forall2_cons, ?andb_true_iff, ?IH; split; try done; intros H; inversion H.
Qed.
End Forallb2.

(** The same with the position: [a.iter().zip(b).enumerate().all(f)]. *)
Section Forallb2i.
  Context {A B : Type} (f : nat → A → B → bool).
Fixpoint forallb2i (i : nat) (l : list A) (k : list B) : bool :=
  match l, k with
  | [], [] => true
  | a :: l', b :: k' => f i a b && forallb2i (S i) l' k'
  | _, _ => false
  end.

Lemma forallb2i_lookup i l k :
  forallb2i i l k = true ↔
  length l = length k ∧ ∀ j a b, l !! j = Some a → k !! j = Some b → f (i + j) a b = true.
Proof.
  revert i k. induction l as [|a l IH]; intros i [|b k]; simpl;
    [by split; [split; [|intros j ??; rewrite lookup_nil]|]|by split; [|intros []]..|].
  rewrite andb_true_iff, IH. split.
  - intros (H1 & Hl & Hf). split; [by rewrite Hl|]. intros [|j] x y ??; simplify_eq/=.
    + by rewrite Nat.add_0_r.
    + rewrite Nat.add_succ_r. by apply (Hf j).
  - intros [Hl Hf]. split; [|split].
    + rewrite <-(Nat.add_0_r i). by apply (Hf 0%nat).
    + congruence.
    + intros j x y ??. rewrite Nat.add_succ_l, <-Nat.add_succ_r. by apply (Hf (S j)).
Qed.
End Forallb2i.
