(* ===== verification/Span.v ===== *)
(** Source spans and the offset-to-line/column map of [crates/noeta-span]. *)
From S2P Require Import Prelude.
From stdpp Require Import options.
Open Scope Z_scope.

(** [SourceId(pub u32)]. *)
Record SourceId := mkSourceId { source_id : Z }.

(** [Span { start: u32, end: u32, source: SourceId }]: a half-open byte range. *)
Record Span := mkSpan { start : Z; end_ : Z; source : SourceId }.

(** [SourceId::FIRST]. *)
Definition FIRST : SourceId := mkSourceId 0.

#[export] Instance SourceId_eq_dec : EqDecision SourceId.
Proof. solve_decision. Defined.
#[export] Instance SourceId_countable : Countable SourceId.
Proof. apply (inj_countable' source_id mkSourceId). by intros []. Defined.
#[export] Instance Span_eq_dec : EqDecision Span.
Proof. solve_decision. Defined.
#[export] Instance Span_countable : Countable Span.
Proof.
  apply (inj_countable' (λ s, (start s, end_ s, source s))
           (λ t, mkSpan t.1.1 t.1.2 t.2)). by intros [].
Defined.

(** [Span::new_in] (its [debug_assert] is a precondition, [wf_span]). *)
Definition new_in (src : SourceId) (s e : Z) : Span := mkSpan s e src.
Definition new (s e : Z) : Span := new_in FIRST s e.
Definition empty_at_in (src : SourceId) (offset : Z) : Span := mkSpan offset offset src.
Definition empty_at (offset : Z) : Span := empty_at_in FIRST offset.

(** [Span::len] on [u32]: the subtraction wraps when [end < start]. *)
Definition u32 (z : Z) : Z := z mod 2 ^ 32.
Definition len (s : Span) : Z := u32 (end_ s - start s).
Definition is_empty (s : Span) : bool := start s =? end_ s.

(** [Span::merge]: the smallest covering span, in [self]'s source. *)
Definition merge (s o : Span) : Span :=
  mkSpan (Z.min (start s) (start o)) (Z.max (end_ s) (end_ o)) (source s).

(** [Span::shifted]. *)
Definition shifted (s : Span) (by_ : Z) : Span :=
  mkSpan (u32 (start s + by_)) (u32 (end_ s + by_)) (source s).

Definition with_source (s : Span) (src : SourceId) : Span := mkSpan (start s) (end_ s) src.
