(* ===== verification/Ir.v ===== *)
(** The Core IR of [crates/noeta-ir]: the A-normal-form program both backends
    execute.  Every node type of the crate is here with its fields in source
    order; [Rc<T>] is [T].  Node payloads that belong to other crates and that
    no pass looks inside (render hints, type representations, declarations as
    the parser left them, ...) are the fields of the class [Payloads]. *)
From S2P Require Import Prelude Span.
From stdpp Require Import options.
Open Scope Z_scope.

(** Payload types carried through the IR unread. *)
Class Payloads := {
  RenderHint : Type;
  TypeRepr : Type;
  PackedLayout : Type;
  HintCase : Type;
  TypeRecipe : Type;
  TypeRef : Type;
  IntMethod : Type;
  F64 : Type;
  F32 : Type;
  TypeArgInfo : Type;
  TypeArgHints : Type;
  ElemWidth : Type;
  ClassDecl : Type;
  StructDecl : Type;
  EnumDecl : Type;
  (** [ClassDecl::name], rendered by [to_string]. *)
  class_decl_name : ClassDecl → string;
}.

(** Every payload a unit: the instance closed examples run with. *)
Definition unit_payloads : Payloads := {|
  RenderHint := unit; TypeRepr := unit; PackedLayout := unit; HintCase := unit;
  TypeRecipe := unit; TypeRef := unit; IntMethod := unit; F64 := unit; F32 := unit;
  TypeArgInfo := unit; TypeArgHints := unit; ElemWidth := unit;
  ClassDecl := string; StructDecl := unit; EnumDecl := unit;
  class_decl_name := λ s, s |}.

Inductive UnaryOp := Neg | Not | Spread.

Inductive BinaryOp :=
  | Add | Sub | Mul | Div | Rem | Concat
  | Eq | Ne | Identity | NotIdentity | Lt | Le | Gt | Ge
  | And | Or | BitAnd | BitOr | BitXor | Shl | Shr.

Inductive ReflectKind :=
  | AttributesOf | TypeOf | TypeName | FieldsOf | TraitsOf | FromBytes | RolesOf
  | ParamsOf | ReturnsOf | Invoke | FieldSpecsOf | VariantsOf | Construct.

Inductive ForPattern :=
  | FPSingle (name : string) (name_span : Span)
  | FPTuple (names : list (string * Span)) (span : Span).

Record UseName := mkUseName { use_name : string; use_span : Span; use_alias : option string }.

(** [Temp(pub u32)]. *)
Record Temp := mkTemp { temp_index : Z }.
#[export] Instance Temp_eq_dec : EqDecision Temp.
Proof. solve_decision. Defined.

Record TryDrop := mkTryDrop { td_name : string; td_relevant : bool }.
#[export] Instance TryDrop_eq_dec : EqDecision TryDrop.
Proof. solve_decision. Defined.

Section Ir.
Context {P : Payloads}.

Inductive Pattern :=
  | PWildcard (span : Span)
  | PBinding (name : string) (span : Span)
  | PInt (value : Z) (span : Span)
  | PStr (value : string) (span : Span)
  | PBool (value : bool) (span : Span)
  | PVariant (type_name : option string) (variant : string) (bindings : list Pattern) (span : Span)
  | PIsType (ty : TypeRef) (span : Span)
  | PTuple (elements : list Pattern) (span : Span).

Inductive Const :=
  | CUnit | CBool (b : bool) | CInt (i : Z) | CFloat (f : F64) | CF32 (f : F32) | CStr (s : string).

Inductive Atom :=
  | AConst (c : Const)
  | ATemp (t : Temp)
  | AVar (name : string) (span : Span).

Record ObjectFieldInit := mkFieldInit { fi_name : string; fi_name_span : Span; fi_value : Atom }.

Inductive InterpPart :=
  | Literal (s : string)
  | Hole (atom : Atom) (span : Span).

Inductive ReflectArgs :=
  | RANothing
  | RAOne (a : Atom)
  | RATwo (name arg : Atom)
  | RADispatch (recv : option Atom) (name args : Atom)
  | RABytes (blob : Atom) (layout : option PackedLayout) (validate : bool).

(** [Rvalue], [Stmt] and the blocks, functions and declarations they nest. *)
Inductive Rvalue :=
  | Use (a : Atom)
  | Unary (op : UnaryOp) (operand : Atom) (span : Span)
  | MaskWidth (operand : Atom) (signed : bool) (bits : Z) (span : Span)
  | Render (operand : Atom) (hint : RenderHint) (slots : list Atom) (span : Span)
  | JsonRender (operand : Atom) (hint : RenderHint) (slots : list Atom) (span : Span)
  | Binary (op : BinaryOp) (lhs rhs : Atom) (reuse : bool) (span : Span)
  | WideInt (op : BinaryOp) (lhs rhs : Atom) (signed : bool) (bits : Z) (span : Span)
  | WidthIntMethod (receiver : Atom) (method : IntMethod) (args : list Atom) (bits : Z) (span : Span)
  | Call (callee : Atom) (args type_args : list Atom) (supplied : option Z) (span : Span)
  | Method (receiver : Atom) (name : string) (name_span : Span) (args : list Atom) (reuse : bool)
      (reflect : option TypeRepr) (reflect_slot : option Atom) (type_args : list Atom)
      (supplied : option Z) (order : option RenderHint) (order_slots : list Atom)
      (push : option RenderHint) (push_slots : list Atom) (span : Span)
  | TraitMethod (receiver : Atom) (trait_name name : string) (args : list Atom) (span : Span)
  | Field (receiver : Atom) (name : string) (name_span span : Span)
  | MethodHandle (ty method : string) (associated : bool) (span : Span)
  | BoundHandle (recv : Atom) (method : string) (span : Span)
  | SetField (receiver : Atom) (name : string) (name_span : Span) (value : Atom) (reuse : bool)
      (span : Span)
  | Index (receiver index : Atom) (span : Span)
  | IndexField (receiver index : Atom) (field : string) (field_span span : Span)
  | List (items : list Atom) (reflect : option TypeRepr) (span : Span)
  | PackedListNew (layout : PackedLayout) (span : Span)
  | PackedListPush (lst value : Atom) (span : Span)
  | Tuple (items : list Atom) (span : Span)
  | TupleIndex (receiver : Atom) (index : Z) (span : Span)
  | Map (entries : list (Atom * Atom)) (reflect : option TypeRepr) (span : Span)
  | Range (start end_ : Atom) (inclusive : bool) (span : Span)
  | Object (type_name : string) (type_name_span : Span) (fields : list ObjectFieldInit)
      (spread : option (Atom * Span)) (reuse : bool) (reflect : option TypeRepr) (span : Span)
  | Interp (parts : list InterpPart) (span : Span)
  | Closure (func : Func) (span : Span)
  | Try (operand : Atom) (on_error : list TryDrop) (span : Span)
  | As (operand : Atom) (ty : TypeRef) (dynamic : option Atom) (span : Span)
  | TypeTest (operand : Atom) (ty : TypeRef) (dynamic : option Atom) (span : Span)
  | MakeGen (step : Atom) (span : Span)
  | MakeFuture (thunk : Atom) (span : Span)
  | RunFuture (future : Atom) (span : Span)
  | PollFuture (future : Atom) (span : Span)
  | Pending (span : Span)
  | Spawn (future : Atom) (span : Span)
  | RScopeBegin (span : Span)
  | ScopeReady (scope : Atom) (span : Span)
  | ScopeEndAt (scope : Atom) (span : Span)
  | SpawnIsolate (callee : Atom) (args : list Atom) (span : Span)
  | TypeArgName (operand : Atom) (index : Z) (type_name param : string) (span : Span)
  | SelfRenderSlot (operand : Atom) (index : Z) (span : Span)
  | ComposeTypeArg (slots : list Atom) (cases : list HintCase) (span : Span)
  | TypeSlotName (slot : Atom) (span : Span)
  | Reflect (which : ReflectKind) (args : ReflectArgs) (private_fields : bool) (span : Span)
  | MakeChannel (capacity : Atom) (span : Span)
  | TypedModuleCall (module func : string) (args : list Atom) (recipe : option TypeRecipe)
      (dynamic : option Atom) (span : Span)
  | TypedMethodCall (recv : Atom) (method : string) (args : list Atom) (recipe : option TypeRecipe)
      (dynamic : option Atom) (span : Span)
  | DecodeTyped (name text : Atom) (span : Span)
  | ModuleFn (module func : string) (span : Span)
  | NativeModule (module : string) (span : Span)

with Stmt :=
  | Let (dst : Temp) (rvalue : Rvalue) (span : Span)
  | Eval_ (rvalue : Rvalue) (span : Span)
  | Bind (mut_decl : bool) (name : string) (name_span : Span) (value : Atom) (field_assign : bool)
      (span : Span)
  | Echo (value : Atom) (span : Span)
  | Return (value : option Atom) (span : Span)
  | Break (span : Span)
  | Continue (span : Span)
  | ScopeBegin (span : Span)
  | ScopeEnd (span : Span)
  | If (cond : Atom) (then_block : Block) (else_block : option Block) (span : Span)
  | While (cond body : Block) (span : Span)
  | For (pattern : ForPattern) (iterable : Atom) (body : Block) (span : Span) (stream : bool)
      (order : option RenderHint) (order_slots : list Atom)
  | Match (scrutinee : Atom) (arms : list Arm) (dst : option Temp) (span : Span)
  | Logical (dst : option Temp) (op : BinaryOp) (left : Atom) (right : Block) (span : Span)
  | Coalesce (dst : option Temp) (value : Atom) (fallback : Block) (span : Span)
  | SDecl (decl : Decl)
  | Drop_ (t : Temp)
  | DropVar (name : string) (span : Span) (relevant : bool)

with Block := mkBlock (stmts : list Stmt) (tail : option Atom)

with Arm := mkArm (pattern : Pattern) (guard : option Guard) (body : Block) (span : Span)

with Guard := mkGuard (block : Block) (span : Span)

with Func := mkFunc (name : option string) (captures : option (list string))
    (params : list string) (hidden : Z) (defaults : list (option Thunk)) (body : Block)
    (temp_count : Z) (span : Span)

with Thunk := mkThunk (body : Block) (temp_count : Z)

with Decl :=
  | DFn (name : string) (func : Func) (span : Span)
  | DClass (class : ClassDef)
  | DEnum (en : EnumDef)
  | DStruct (strukt : StructDef)
  | DUse (path : list string) (names : list UseName) (span : Span)

with ClassDef := mkClassDef (decl : ClassDecl) (methods : list (string * Func))
    (field_defaults : list (string * Thunk)) (destructor : option Func) (span : Span)

with StructDef := mkStructDef (decl : StructDecl) (methods : list (string * Func))
    (field_defaults : list (string * Thunk)) (span : Span)

with EnumDef := mkEnumDef (decl : EnumDecl) (methods : list (string * Func)) (span : Span).

Record Program := mkProgram {
  top : Block;
  prog_temp_count : Z;
  type_args : list TypeArgInfo;
  type_arg_reprs : list (option TypeRepr);
  type_arg_hints : list TypeArgHints;
  elem_width_sites : list (Span * ElemWidth);
  prog_span : Span;
}.

Definition block_stmts (b : Block) : list Stmt := let 'mkBlock s _ := b in s.
Definition block_tail (b : Block) : option Atom := let 'mkBlock _ t := b in t.
Definition func_body (f : Func) : Block := let 'mkFunc _ _ _ _ _ b _ _ := f in b.
Definition func_params (f : Func) : list string := let 'mkFunc _ _ p _ _ _ _ _ := f in p.
Definition func_defaults (f : Func) : list (option Thunk) :=
  let 'mkFunc _ _ _ _ d _ _ _ := f in d.
Definition func_span (f : Func) : Span := let 'mkFunc _ _ _ _ _ _ _ s := f in s.
Definition thunk_body (t : Thunk) : Block := let 'mkThunk b _ := t in b.
Definition guard_block (g : Guard) : Block := let 'mkGuard b _ := g in b.
Definition arm_pattern (a : Arm) : Pattern := let 'mkArm p _ _ _ := a in p.
Definition arm_guard (a : Arm) : option Guard := let 'mkArm _ g _ _ := a in g.
Definition arm_body (a : Arm) : Block := let 'mkArm _ _ b _ := a in b.

(** The control-flow child blocks [Stmt::for_each_child_block] visits, in order. *)
Definition child_blocks (s : Stmt) : list Block :=
  match s with
  | If _ t e _ => t :: match e with Some b => [b] | None => [] end
  | While c b _ => [c; b]
  | For _ _ b _ _ _ _ => [b]
  | Match _ arms _ _ =>
      concat (map (λ a, match arm_guard a with Some g => [guard_block g] | None => [] end
                          ++ [arm_body a]) arms)
  | Logical _ _ _ r _ => [r]
  | Coalesce _ _ f _ => [f]
  | Let _ _ _ | Eval_ _ _ | Bind _ _ _ _ _ _ | Echo _ _ | Return _ _ | Break _ | Continue _
  | ScopeBegin _ | ScopeEnd _ | SDecl _ | Drop_ _ | DropVar _ _ _ => []
  end.

(** [ReflectArgs::for_each_atom], as the list of atoms visited. *)
Definition reflect_atoms (r : ReflectArgs) : list Atom :=
  match r with
  | RANothing => []
  | RAOne a | RABytes a _ _ => [a]
  | RATwo name arg => [name; arg]
  | RADispatch recv name args => option_list recv ++ [name; args]
  end.

(** Mutual induction over everything a block can nest. *)
Scheme Rvalue_mind := Induction for Rvalue Sort Prop
with Stmt_mind := Induction for Stmt Sort Prop
with Block_mind := Induction for Block Sort Prop
with Arm_mind := Induction for Arm Sort Prop
with Guard_mind := Induction for Guard Sort Prop
with Func_mind := Induction for Func Sort Prop
with Thunk_mind := Induction for Thunk Sort Prop
with Decl_mind := Induction for Decl Sort Prop
with ClassDef_mind := Induction for ClassDef Sort Prop
with StructDef_mind := Induction for StructDef Sort Prop
with EnumDef_mind := Induction for EnumDef Sort Prop.

Combined Scheme ir_mind from Rvalue_mind, Stmt_mind, Block_mind, Arm_mind, Guard_mind,
  Func_mind, Thunk_mind, Decl_mind, ClassDef_mind, StructDef_mind, EnumDef_mind.

(** Induction on control flow alone: the functions a block declares or closes
    over are leaves. *)
Lemma control_ind (Ps : Stmt → Prop) (Pb : Block → Prop) (Pa : Arm → Prop) :
  (∀ d r s, Ps (Let d r s)) → (∀ r s, Ps (Eval_ r s)) →
  (∀ m n ns v fa s, Ps (Bind m n ns v fa s)) → (∀ v s, Ps (Echo v s)) →
  (∀ v s, Ps (Return v s)) → (∀ s, Ps (Break s)) → (∀ s, Ps (Continue s)) →
  (∀ s, Ps (ScopeBegin s)) → (∀ s, Ps (ScopeEnd s)) →
  (∀ c t e s, Pb t → (∀ b, e = Some b → Pb b) → Ps (If c t e s)) →
  (∀ c b s, Pb c → Pb b → Ps (While c b s)) →
  (∀ p i b s st o os, Pb b → Ps (For p i b s st o os)) →
  (∀ sc arms d s, Forall Pa arms → Ps (Match sc arms d s)) →
  (∀ d o l r s, Pb r → Ps (Logical d o l r s)) →
  (∀ d v f s, Pb f → Ps (Coalesce d v f s)) →
  (∀ d, Ps (SDecl d)) → (∀ t, Ps (Drop_ t)) → (∀ n s r, Ps (DropVar n s r)) →
  (∀ stmts tail, Forall Ps stmts → Pb (mkBlock stmts tail)) →
  (∀ p g b s, (∀ gb gs, g = Some (mkGuard gb gs) → Pb gb) → Pb b → Pa (mkArm p g b s)) →
  (∀ s, Ps s) ∧ (∀ b, Pb b) ∧ (∀ a, Pa a).
Proof.
  intros.
  edestruct (ir_mind (λ _, True) Ps Pb Pa (λ g, Pb (guard_block g)) (λ _, True) (λ _, True)
    (λ _, True) (λ _, True) (λ _, True) (λ _, True)) as (_ & Hs & Hb & Ha & _);
    try (intros; exact I); try (intros; eauto; fail).
  - intros c t Ht e He sp. apply H8; [done|]. intros b ->. by inversion He.
  - intros sc arms Ha d sp. apply H11. by apply list_all_Forall.
  - intros stmts Hs tail. apply H17. by apply list_all_Forall.
  - intros p g Hg b Hb sp. apply H18; [|done]. intros gb gs ->. inversion Hg. done.
Qed.

End Ir.
