(* ===== verification/Liveness.v ===== *)
(** Last-use / liveness analysis over the Core IR:
    [crates/noeta-ir-passes/src/liveness.rs].

    The analysis is a backward dataflow over structured control flow; sets of
    names are [gset string].  The two [loop { .. }] fixpoints of [While] and
    [For] take fuel; [while_fix_converges] and [for_fix_converges] (file
    LivenessFacts) show that any positive fuel reaches the loop's exit test. *)
From S2P Require Import Prelude Span Ir.
From stdpp Require Import options.

(** [BlockLiveness] and [StmtLiveness]: annotations mirroring the blocks. *)
Inductive BlockLiveness :=
  mkBL (live_in live_out : VarSet) (bl_stmts : list StmtLiveness)
with StmtLiveness :=
  mkSL (dies_here : VarSet) (sub : list BlockLiveness).

Definition live_in (b : BlockLiveness) : VarSet := let 'mkBL i _ _ := b in i.
Definition live_out (b : BlockLiveness) : VarSet := let 'mkBL _ o _ := b in o.
Definition bl_stmts (b : BlockLiveness) : list StmtLiveness := let 'mkBL _ _ s := b in s.
Definition dies_here (s : StmtLiveness) : VarSet := let 'mkSL d _ := s in d.
Definition sub (s : StmtLiveness) : list BlockLiveness := let 'mkSL _ l := s in l.

Record ProgramLiveness := mkPL { pl_top : BlockLiveness }.

Section Liveness.
Context {P : Payloads}.

(** [use_atom] / [atom_uses]. *)
Definition use_atom (a : Atom) (live : VarSet) : VarSet :=
  match a with AVar name _ => {[ name ]} ∪ live | _ => live end.
Definition atom_uses (a : Atom) : VarSet := use_atom a ∅.

(** [deaths]: the uses that are not live afterwards. *)
Definition deaths (uses live_out : VarSet) : VarSet := uses ∖ live_out.

(** [for_each_rvalue_atom]: the operand atoms of an rvalue, in visiting order. *)
Definition rvalue_atoms (r : Rvalue) : list Atom :=
  match r with
  | Use a => [a]
  | Unary _ operand _ => [operand]
  | Binary _ lhs rhs _ _ => [lhs; rhs]
  | WideInt _ lhs rhs _ _ _ => [lhs; rhs]
  | WidthIntMethod receiver _ args _ _ => receiver :: args
  | Call callee args type_args _ _ => callee :: args ++ type_args
  | Method receiver _ _ args _ _ reflect_slot type_args _ _ order_slots _ push_slots _ =>
      receiver :: args ++ type_args ++ option_list reflect_slot ++ order_slots ++ push_slots
  | TraitMethod receiver _ _ args _ => receiver :: args
  | Field receiver _ _ _ => [receiver]
  | MethodHandle _ _ _ _ => []
  | BoundHandle recv _ _ => [recv]
  | SetField receiver _ _ value _ _ => [receiver; value]
  | Index receiver index _ | IndexField receiver index _ _ _ => [receiver; index]
  | List items _ _ | Tuple items _ => items
  | PackedListNew _ _ => []
  | PackedListPush lst value _ => [lst; value]
  | TupleIndex receiver _ _ => [receiver]
  | Map entries _ _ => concat (map (λ e, [e.1; e.2]) entries)
  | Range start end_ _ _ => [start; end_]
  | Object _ _ fields spread _ _ _ => option_list (fst <$> spread) ++ map fi_value fields
  | Interp parts _ =>
      concat (map (λ p, match p with Hole a _ => [a] | Literal _ => [] end) parts)
  | As operand _ dynamic _ | TypeTest operand _ dynamic _ => operand :: option_list dynamic
  | Try operand _ _ | TypeArgName operand _ _ _ _ | SelfRenderSlot operand _ _ => [operand]
  | MaskWidth operand _ _ _ => [operand]
  | Render operand _ slots _ | JsonRender operand _ slots _ => operand :: slots
  | ComposeTypeArg slots _ _ => slots
  | TypeSlotName slot _ => [slot]
  | Reflect _ args _ _ => reflect_atoms args
  | DecodeTyped name text _ => [name; text]
  | MakeGen step _ => [step]
  | MakeFuture thunk _ => [thunk]
  | RunFuture future _ => [future]
  | PollFuture future _ => [future]
  | Pending _ => []
  | Spawn future _ => [future]
  | RScopeBegin _ => []
  | ScopeReady scope _ | ScopeEndAt scope _ => [scope]
  | SpawnIsolate callee args _ => callee :: args
  | MakeChannel capacity _ => [capacity]
  | TypedModuleCall _ _ args _ dynamic _ => args ++ option_list dynamic
  | TypedMethodCall recv _ args _ dynamic _ => recv :: args ++ option_list dynamic
  | Closure _ _ | ModuleFn _ _ _ | NativeModule _ _ => []
  end.

(** [for_pattern_names]. *)
Definition for_pattern_names (p : ForPattern) : list string :=
  match p with
  | FPSingle name _ => [name]
  | FPTuple names _ => map fst names
  end.

(** [collect_pattern_names] / [pattern_names]. *)
Fixpoint collect_pattern_names (p : Pattern) (out : VarSet) : VarSet :=
  match p with
  | PBinding name _ => {[ name ]} ∪ out
  | PVariant _ _ bindings _ => foldl (λ out sub, collect_pattern_names sub out) out bindings
  | PTuple elements _ => foldl (λ out sub, collect_pattern_names sub out) out elements
  | PWildcard _ | PInt _ _ | PStr _ _ | PBool _ _ | PIsType _ _ => out
  end.
Definition pattern_names (p : Pattern) : VarSet := collect_pattern_names p ∅.

(** [collect_block_vars], [collect_stmt_vars], [collect_rvalue_vars]: every
    source-variable name a block mentions, nested functions included. *)
Fixpoint collect_block_vars (b : Block) (out : VarSet) : VarSet :=
  match b with
  | mkBlock stmts tail =>
      let out := foldl (λ out s, collect_stmt_vars s out) out stmts in
      match tail with Some t => use_atom t out | None => out end
  end
with collect_stmt_vars (s : Stmt) (out : VarSet) : VarSet :=
  match s with
  | Let _ rvalue _ | Eval_ rvalue _ => collect_rvalue_vars rvalue out
  | Bind _ name _ value _ _ => use_atom value ({[ name ]} ∪ out)
  | Echo value _ => use_atom value out
  | Return value _ => match value with Some v => use_atom v out | None => out end
  | If cond then_block else_block _ =>
      let out := collect_block_vars then_block (use_atom cond out) in
      match else_block with Some e => collect_block_vars e out | None => out end
  | While cond body _ => collect_block_vars body (collect_block_vars cond out)
  | For pattern iterable body _ _ _ order_slots =>
      let out := foldl (λ out n, {[ n ]} ∪ out) out (for_pattern_names pattern) in
      let out := use_atom iterable out in
      let out := foldl (λ out a, use_atom a out) out order_slots in
      collect_block_vars body out
  | Match scrutinee arms _ _ =>
      foldl (λ out a, collect_arm_vars a out) (use_atom scrutinee out) arms
  | Logical _ _ lft rgt _ => collect_block_vars rgt (use_atom lft out)
  | Coalesce _ value fallback _ => collect_block_vars fallback (use_atom value out)
  | SDecl (DFn name func _) => collect_func_vars func ({[ name ]} ∪ out)
  | SDecl _ | Break _ | Continue _ | ScopeBegin _ | ScopeEnd _ | Drop_ _ | DropVar _ _ _ => out
  end
with collect_arm_vars (a : Arm) (out : VarSet) : VarSet :=
  match a with
  | mkArm pattern guard body _ =>
      let out := pattern_names pattern ∪ out in
      let out := match guard with Some (mkGuard b _) => collect_block_vars b out | None => out end in
      collect_block_vars body out
  end
with collect_rvalue_vars (r : Rvalue) (out : VarSet) : VarSet :=
  match r with
  | Closure func _ => collect_func_vars func out
  | r => foldl (λ out a, use_atom a out) out (rvalue_atoms r)
  end
with collect_func_vars (f : Func) (out : VarSet) : VarSet :=
  match f with
  | mkFunc _ _ _ _ defaults body _ _ =>
      foldl (λ out d, match d with Some (mkThunk b _) => collect_block_vars b out | None => out end)
        (collect_block_vars body out) defaults
  end.

(** [func_referenced_vars] and [referenced_vars_in_block]. *)
Definition func_referenced_vars (f : Func) : VarSet := collect_func_vars f ∅.
Definition referenced_vars_in_block (b : Block) : VarSet := collect_block_vars b ∅.

(** [rvalue_uses]: a closure is taken to use every name its body mentions. *)
Definition rvalue_uses (r : Rvalue) : VarSet :=
  match r with
  | Closure func _ => func_referenced_vars func
  | r => foldl (λ s a, use_atom a s) ∅ (rvalue_atoms r)
  end.

(** The [While] fixpoint: [step top] analyzes the body against [top] and then
    the condition against what the body leaves live together with the loop's
    own [live_out]; the loop stops when the condition's [live_in] is [top]. *)
Fixpoint while_fix (fuel : nat) (step : VarSet → BlockLiveness * BlockLiveness) (top : VarSet) :
    BlockLiveness * BlockLiveness :=
  let '(cond_l, body_l) := step top in
  match fuel with
  | O => (cond_l, body_l)
  | S fuel =>
      if decide (live_in cond_l = top) then (cond_l, body_l)
      else while_fix fuel step (live_in cond_l)
  end.

(** The [For] fixpoint: [step top] is the body's liveness and the next [top];
    the loop answers the last body liveness and the fixpoint. *)
Fixpoint for_fix (fuel : nat) (step : VarSet → BlockLiveness * VarSet) (top : VarSet) :
    BlockLiveness * VarSet :=
  let '(body_l, next) := step top in
  match fuel with
  | O => (body_l, top)
  | S fuel => if decide (next = top) then (body_l, top) else for_fix fuel step next
  end.

(** Rounds granted to a loop fixpoint after the first: the transfer functions are
    gen/kill, so the second round already meets the exit test. *)
Definition loop_fuel : nat := 2.
#[global] Arguments while_fix : simpl never.
#[global] Arguments for_fix : simpl never.

(** One arm of [Match], walked in reverse: the state is the joined entry sets,
    the [fallthrough] set of later arms and the annotations so far. *)
Definition match_arm_step (pattern : Pattern) (body_l : BlockLiveness)
    (guard_l : option BlockLiveness) (joined fallthrough : VarSet)
    (subs : list BlockLiveness) : VarSet * VarSet * list BlockLiveness :=
  let bound := pattern_names pattern in
  let entry := match guard_l with Some g => live_in g | None => live_in body_l end in
  (joined ∪ (entry ∖ bound), fallthrough ∪ (entry ∖ bound),
   option_list guard_l ++ body_l :: subs).

(** [analyze_block] and [analyze_stmt]; the latter returns the statement's
    [live_in] with its annotation where the code updates [live] in place. *)
Fixpoint analyze_block (b : Block) (lo : VarSet) : BlockLiveness :=
  match b with
  | mkBlock stmts tail =>
      let live := match tail with Some t => use_atom t lo | None => lo end in
      let '(live, sls) :=
        foldr (λ s acc, let '(live, sls) := acc in
                        let '(live, sl) := analyze_stmt s live in
                        (live, sl :: sls)) (live, []) stmts in
      mkBL live lo sls
  end
with analyze_stmt (s : Stmt) (live : VarSet) : VarSet * StmtLiveness :=
  match s with
  | Let _ rvalue _ | Eval_ rvalue _ =>
      let sub := match rvalue with Closure func _ => [analyze_func func] | _ => [] end in
      let uses := rvalue_uses rvalue in
      (live ∪ uses, mkSL (deaths uses live) sub)
  | Bind _ name _ value _ _ =>
      let uses := atom_uses value in
      ((live ∖ {[ name ]}) ∪ uses, mkSL (deaths uses live) [])
  | Echo value _ =>
      let uses := atom_uses value in
      (live ∪ uses, mkSL (deaths uses live) [])
  | Return value _ =>
      let uses := match value with Some v => atom_uses v | None => ∅ end in
      (uses, mkSL (deaths uses live) [])
  | Break _ | Continue _ | ScopeBegin _ | ScopeEnd _ | Drop_ _ | DropVar _ _ _ =>
      (live, mkSL ∅ [])
  | If cond then_block else_block _ =>
      let then_l := analyze_block then_block live in
      let '(joined, sub) :=
        match else_block with
        | Some e => let else_l := analyze_block e live in
                    (live_in then_l ∪ live_in else_l, [then_l; else_l])
        | None => (live_in then_l ∪ live, [then_l])
        end in
      let cond_uses := atom_uses cond in
      (joined ∪ cond_uses, mkSL (deaths cond_uses joined) sub)
  | While cond body _ =>
      let step := λ top,
        let body_l := analyze_block body top in
        (analyze_block cond (live_in body_l ∪ live), body_l) in
      let '(cond_l, body_l) := while_fix loop_fuel step live in
      (live_in cond_l, mkSL ∅ [cond_l; body_l])
  | For pattern iterable body _ _ _ order_slots =>
      let bound := list_to_set (for_pattern_names pattern) in
      let step := λ top,
        let body_l := analyze_block body top in
        (body_l, (live_in body_l ∖ bound) ∪ live) in
      let '(body_l, top) := for_fix loop_fuel step live in
      let iter_uses := foldl (λ u a, u ∪ atom_uses a) (atom_uses iterable) order_slots in
      (top ∪ iter_uses, mkSL (deaths iter_uses top) [body_l])
  | Match scrutinee arms _ _ =>
      let '(joined, _, subs) :=
        foldr (λ a acc, let '(joined, fallthrough, subs) := acc in
                        analyze_arm a live joined fallthrough subs)
          (∅, live, []) arms in
      let scrut_uses := atom_uses scrutinee in
      (joined ∪ scrut_uses, mkSL (deaths scrut_uses joined) subs)
  | Logical _ _ lft rgt _ =>
      let right_l := analyze_block rgt live in
      let entry := live_in right_l ∪ live in
      let left_uses := atom_uses lft in
      (entry ∪ left_uses, mkSL (deaths left_uses entry) [right_l])
  | Coalesce _ value fallback _ =>
      let fb_l := analyze_block fallback live in
      let entry := live_in fb_l ∪ live in
      let value_uses := atom_uses value in
      (entry ∪ value_uses, mkSL (deaths value_uses entry) [fb_l])
  | SDecl (DFn name func _) =>
      let body_l := analyze_func func in
      let uses := func_referenced_vars func in
      ((live ∖ {[ name ]}) ∪ uses, mkSL (deaths uses live) [body_l])
  | SDecl _ => (live, mkSL ∅ [])
  end
with analyze_arm (a : Arm) (live joined fallthrough : VarSet) (subs : list BlockLiveness) :
    VarSet * VarSet * list BlockLiveness :=
  match a with
  | mkArm pattern guard body _ =>
      let body_l := analyze_block body live in
      let guard_l :=
        match guard with
        | Some (mkGuard g _) => Some (analyze_block g (live_in body_l ∪ fallthrough))
        | None => None
        end in
      match_arm_step pattern body_l guard_l joined fallthrough subs
  end
with analyze_func (f : Func) : BlockLiveness :=
  match f with mkFunc _ _ _ _ _ body _ _ => analyze_block body ∅ end.

(** [analyze]: the whole program, nothing live after its last statement. *)
Definition analyze (p : Program) : ProgramLiveness := mkPL (analyze_block (top p) ∅).

End Liveness.
