(* ===== verification/Paths.v ===== *)
(** Control-flow paths of the Core IR and the logic of dead variables.

    The specification side of the reference-counting passes: which slots a
    block may read, write and release, in what order, on every path control can
    take through it ([block_paths]), and a small Hoare logic over those paths
    whose assertions are sets of live names ([triple]).  Slots are keyed by
    source name, as the passes treat them.  The paths follow the structured
    control flow both backends execute; branch conditions, loop counts and
    pattern matches are taken nondeterministically, and any rvalue may end the
    frame with an error. *)
From S2P Require Import Prelude Span Ir Liveness.
From stdpp Require Import options.

(** What one step of a frame does to its named slots. *)
Inductive event :=
  | EReads (names : VarSet)
  | EWrite (name : string)
  | EDrop (name : string).

(** How control leaves a statement or block. *)
Inductive exit := XNormal | XBreak | XContinue | XReturn.
#[export] Instance exit_eq_dec : EqDecision exit.
Proof. solve_decision. Defined.

Abbreviation trace := (list event).
Abbreviation Paths := (trace → exit → Prop).

(** [dropped D es]: the released slots after [es], from [D]. *)
Definition dropped1 (D : VarSet) (e : event) : VarSet :=
  match e with
  | EReads _ => D
  | EWrite x => D ∖ {[ x ]}
  | EDrop x => {[ x ]} ∪ D
  end.
Definition dropped (D : VarSet) (es : trace) : VarSet := foldl dropped1 D es.

(** [safe D es]: no slot is read while it is released. *)
Fixpoint safe (D : VarSet) (es : trace) : Prop :=
  match es with
  | [] => True
  | e :: es =>
      match e with EReads u => u ## D | _ => True end ∧ safe (dropped1 D e) es
  end.

(** ** Path combinators *)
Definition pskip : Paths := λ es x, es = [] ∧ x = XNormal.
Definition pexit (e : exit) : Paths := λ es x, es = [] ∧ x = e.
Definition pevent (e : event) : Paths := λ es x, es = [e] ∧ x = XNormal.
Definition por (p q : Paths) : Paths := λ es x, p es x ∨ q es x.
Definition pseq (p q : Paths) : Paths := λ es x,
  (∃ es1 es2, es = es1 ++ es2 ∧ p es1 XNormal ∧ q es2 x) ∨ (x ≠ XNormal ∧ p es x).

(** The events of writing (releasing) several names in order. *)
Definition pwrites (xs : list string) : Paths := λ es x, es = map EWrite xs ∧ x = XNormal.
Definition pdrops (xs : list string) : Paths := λ es x, es = map EDrop xs ∧ x = XNormal.

(** Iterations of a loop: [head] decides to stop or go on ([cond] of a [While],
    the pattern writes of a [For]), [body] may break or continue. *)
Inductive loop_paths (stop head body : Paths) : Paths :=
  | loop_stop es : stop es XNormal → loop_paths stop head body es XNormal
  | loop_stop_exit es x : x ≠ XNormal → stop es x → loop_paths stop head body es x
  | loop_iter es1 es2 es3 x y :
      head es1 XNormal → body es2 y → y = XNormal ∨ y = XContinue →
      loop_paths stop head body es3 x →
      loop_paths stop head body (es1 ++ es2 ++ es3) x
  | loop_break es1 es2 :
      head es1 XNormal → body es2 XBreak → loop_paths stop head body (es1 ++ es2) XNormal
  | loop_return es1 es2 :
      head es1 XNormal → body es2 XReturn → loop_paths stop head body (es1 ++ es2) XReturn.

Section Paths.
Context {P : Payloads}.

(** An rvalue reads its operands, then yields a value or ends the frame; a
    failing [Try] first releases its [on_error] list. *)
Definition rvalue_paths (r : Rvalue) : Paths :=
  pseq (pevent (EReads (rvalue_uses r)))
    (por pskip
      (match r with
       | Try _ on_error _ => pseq (pdrops (map td_name on_error)) (pexit XReturn)
       | _ => pexit XReturn
       end)).

Definition atom_paths (a : Atom) : Paths := pevent (EReads (atom_uses a)).

(** One arm, given the paths of the arms after it. *)
Definition arm_paths_of (pattern : Pattern) (guard : option Paths) (body next : Paths) : Paths :=
  por next
    (pseq (pwrites (elements (pattern_names pattern)))
      (match guard with
       | None => body
       | Some g => pseq g (por body next)
       end)).

Fixpoint block_paths (b : Block) : Paths :=
  match b with
  | mkBlock stmts tail =>
      pseq (foldr (λ s rest, pseq (stmt_paths s) rest) pskip stmts)
        (match tail with Some a => atom_paths a | None => pskip end)
  end
with stmt_paths (s : Stmt) : Paths :=
  match s with
  | Let _ r _ | Eval_ r _ => rvalue_paths r
  | Bind _ name _ value _ _ => pseq (atom_paths value) (pevent (EWrite name))
  | Echo value _ => atom_paths value
  | Return value _ =>
      pseq (match value with Some v => atom_paths v | None => pskip end) (pexit XReturn)
  | Break _ => pexit XBreak
  | Continue _ => pexit XContinue
  | ScopeBegin _ | ScopeEnd _ | Drop_ _ => pskip
  | DropVar name _ _ => pevent (EDrop name)
  | If cond t e _ =>
      pseq (atom_paths cond)
        (por (block_paths t) (match e with Some e => block_paths e | None => pskip end))
  | While cond body _ => loop_paths (block_paths cond) (block_paths cond) (block_paths body)
  | For pattern iterable body _ _ _ order_slots =>
      pseq (pevent (EReads (foldl (λ u a, u ∪ atom_uses a) (atom_uses iterable) order_slots)))
        (loop_paths pskip (pwrites (for_pattern_names pattern)) (block_paths body))
  | Match scrutinee arms _ _ =>
      pseq (atom_paths scrutinee)
        (foldr (λ a next, arm_paths a next) (pexit XReturn) arms)
  | Logical _ _ lft rgt _ => pseq (atom_paths lft) (por pskip (block_paths rgt))
  | Coalesce _ value fallback _ => pseq (atom_paths value) (por pskip (block_paths fallback))
  | SDecl (DFn name func _) =>
      pseq (pevent (EReads (func_referenced_vars func))) (pevent (EWrite name))
  | SDecl _ => pskip
  end
with arm_paths (a : Arm) (next : Paths) : Paths :=
  match a with
  | mkArm pattern guard body _ =>
      arm_paths_of pattern
        (match guard with Some (mkGuard g _) => Some (block_paths g) | None => None end)
        (block_paths body) next
  end.

End Paths.

(** ** The logic of dead variables *)

(** What must not be released at each exit: nothing is needed once the frame
    returns. *)
Definition post (normal brk cont : VarSet) (x : exit) : VarSet :=
  match x with XNormal => normal | XBreak => brk | XContinue => cont | XReturn => ∅ end.

(** From any released set disjoint from [L], the paths never read a released
    slot and leave only releases disjoint from the exit's set. *)
Definition triple (L : VarSet) (p : Paths) (Q : exit → VarSet) : Prop :=
  ∀ D es x, D ## L → p es x → safe D es ∧ dropped D es ## Q x.

Lemma dropped_app D es1 es2 : dropped D (es1 ++ es2) = dropped (dropped D es1) es2.
Proof. apply foldl_app. Qed.

Lemma safe_app D es1 es2 : safe D (es1 ++ es2) ↔ safe D es1 ∧ safe (dropped D es1) es2.
Proof.
  revert D. induction es1 as [|e es1 IH]; intros D; simpl; [tauto|].
  rewrite IH. tauto.
Qed.

Lemma triple_mono L L' p Q Q' :
  L ⊆ L' → (∀ x, Q' x ⊆ Q x) → triple L p Q → triple L' p Q'.
Proof.
  intros HL HQ Hp D es x HD Hes. destruct (Hp D es x) as [? ?]; [set_solver|done|].
  split; [done|]. specialize (HQ x). set_solver.
Qed.

Lemma triple_skip L Q : Q XNormal ⊆ L → triple L pskip Q.
Proof. intros HQ D es x HD [-> ->]; simpl. split; [done|set_solver]. Qed.

Lemma triple_exit L Q e : Q e ⊆ L → triple L (pexit e) Q.
Proof. intros HQ D es x HD [-> ->]; simpl. split; [done|set_solver]. Qed.

Lemma triple_reads L Q u : u ⊆ L → Q XNormal ⊆ L → triple L (pevent (EReads u)) Q.
Proof. intros Hu HQ D es x HD [-> ->]; simpl. split; [set_solver|set_solver]. Qed.

Lemma triple_write L Q y : Q XNormal ∖ {[ y ]} ⊆ L → triple L (pevent (EWrite y)) Q.
Proof. intros HQ D es x HD [-> ->]; simpl. split; [done|set_solver]. Qed.

Lemma triple_drop L Q y : Q XNormal ⊆ L → y ∉ Q XNormal → triple L (pevent (EDrop y)) Q.
Proof. intros HQ Hy D es x HD [-> ->]; simpl. split; [done|set_solver]. Qed.

Lemma triple_or L p q Q : triple L p Q → triple L q Q → triple L (por p q) Q.
Proof. intros Hp Hq D es x HD [?|?]; eauto. Qed.

Lemma triple_seq L M p q Q :
  triple L p (λ x, match x with XNormal => M | _ => Q x end) → triple M q Q →
  triple L (pseq p q) Q.
Proof.
  intros Hp Hq D es x HD [(es1 & es2 & -> & H1 & H2)|[Hx H1]].
  - destruct (Hp _ _ _ HD H1) as [S1 D1]. destruct (Hq _ _ _ D1 H2) as [S2 D2].
    rewrite safe_app, dropped_app. done.
  - destruct (Hp _ _ _ HD H1) as [S1 D1]. destruct x; done.
Qed.

Lemma triple_writes L Q xs : Q XNormal ∖ list_to_set xs ⊆ L → triple L (pwrites xs) Q.
Proof.
  intros HQ D es x HD [-> ->].
  assert (∀ D, safe D (map EWrite xs) ∧ dropped D (map EWrite xs) = D ∖ list_to_set xs) as HS.
  { clear. induction xs as [|y xs IH]; intros D; simpl; [set_solver|].
    destruct (IH (D ∖ {[ y ]})) as [? ->]. split; [done|]. clear. set_solver. }
  destruct (HS D) as [? ->]. split; [done|set_solver].
Qed.

Lemma triple_drops L Q xs : Q XNormal ⊆ L → list_to_set xs ## Q XNormal → triple L (pdrops xs) Q.
Proof.
  intros HQ Hxs D es x HD [-> ->].
  assert (∀ D, safe D (map EDrop xs) ∧ dropped D (map EDrop xs) = list_to_set xs ∪ D) as HS.
  { clear. induction xs as [|y xs IH]; intros D; simpl; [set_solver|].
    destruct (IH ({[ y ]} ∪ D)) as [? ->]. split; [done|]. clear. set_solver. }
  destruct (HS D) as [? ->]. split; [done|set_solver].
Qed.

(** The loop rule: [I] holds at every test, [M] at every entry to the body. *)
Lemma triple_loop I M stop head body (Q : exit → VarSet) B C :
  triple I stop Q →
  triple I head (λ x, match x with XNormal => M | _ => ∅ end) →
  triple M body (post I B C) →
  Q XNormal ⊆ B → I ⊆ C → Q XReturn = ∅ →
  triple I (loop_paths stop head body) Q.
Proof.
  intros Hs Hh Hb HB HC HR D es x HD Hes. revert D HD.
  induction Hes as [es Hes|es x Hx Hes|es1 es2 es3 x y H1 H2 Hy H3 IH|es1 es2 H1 H2|es1 es2 H1 H2];
    intros D HD; try by apply Hs.
  - destruct (Hh _ _ _ HD H1) as [S1 D1]. destruct (Hb _ _ _ D1 H2) as [S2 D2].
    destruct (IH (dropped (dropped D es1) es2)) as [S3 D3].
    { destruct Hy as [-> | ->]; simpl in D2; set_solver. }
    rewrite !safe_app, !dropped_app. done.
  - destruct (Hh _ _ _ HD H1) as [S1 D1]. destruct (Hb _ _ _ D1 H2) as [S2 D2].
    rewrite safe_app, dropped_app. split; [done|]. simpl in D2. set_solver.
  - destruct (Hh _ _ _ HD H1) as [S1 D1]. destruct (Hb _ _ _ D1 H2) as [S2 D2].
    rewrite safe_app, dropped_app, HR. split; [done|]. set_solver.
Qed.

Lemma triple_ext L p q Q : (∀ es x, p es x ↔ q es x) → triple L p Q → triple L q Q.
Proof. intros E H D es x HD Hq. apply H; [done|by apply E]. Qed.

Lemma pseq_skip_l q es x : pseq pskip q es x ↔ q es x.
Proof.
  unfold pseq, pskip. split; [naive_solver|]. intros H. left. exists [], es. naive_solver.
Qed.

Lemma pseq_assoc p q r es x : pseq (pseq p q) r es x ↔ pseq p (pseq q r) es x.
Proof.
  unfold pseq. split.
  - intros [(e1 & e2 & -> & [(e3 & e4 & -> & H1 & H2)|[? H1]] & H3)|[Hx [(e3 & e4 & -> & H1 & H2)|[_ H1]]]];
      try done.
    + left. exists e3, (e4 ++ e2). rewrite app_assoc. eauto 8.
    + left. exists e3, e4. eauto 8.
    + by right.
  - intros [(e1 & e2 & -> & H1 & [(e3 & e4 & -> & H2 & H3)|[? H2]])|[Hx H1]].
    + left. exists (e1 ++ e3), e4. rewrite app_assoc. eauto 10.
    + right. eauto 10.
    + right. eauto.
Qed.

(** The assertion to prove of a statement followed by code that needs [M]. *)
Definition upto (M : VarSet) (Q : exit → VarSet) (x : exit) : VarSet :=
  match x with XNormal => M | _ => Q x end.

Lemma upto_post M N B C x : upto M (post N B C) x = post M B C x.
Proof. by destruct x. Qed.

(** [ok] holds of every statement at the set a backward pass reaches it with. *)
Fixpoint backward_ok {A} (step : A → VarSet → VarSet) (ok : A → VarSet → Prop)
    (stmts : list A) (L0 : VarSet) : Prop :=
  match stmts with
  | [] => True
  | s :: r => ok s (foldr step L0 r) ∧ backward_ok step ok r L0
  end.

(** Backward pass over a statement list. *)
Lemma triple_stmts {A} (paths : A → Paths) (step : A → VarSet → VarSet) (ok : A → VarSet → Prop)
    (stmts : list A) L0 (Q : exit → VarSet) q :
  triple L0 q Q →
  Forall (λ s, ∀ live, ok s live → triple (step s live) (paths s) (upto live Q)) stmts →
  backward_ok step ok stmts L0 →
  triple (foldr step L0 stmts)
    (pseq (foldr (λ s rest, pseq (paths s) rest) pskip stmts) q) Q.
Proof.
  intros Hq Hs Hok. induction Hs as [|s stmts Hs _ IH]; simpl in *.
  - eapply triple_ext; [intros; symmetry; apply pseq_skip_l|done].
  - destruct Hok as [Hok Hoks]. eapply triple_ext; [intros; symmetry; apply pseq_assoc|].
    eapply triple_seq; [by apply Hs|by apply IH].
Qed.

(** ** Rules for the statements of the IR *)

Lemma triple_reads_then u L p Q :
  triple L p Q → triple (L ∪ u) (pseq (pevent (EReads u)) p) Q.
Proof. intros Hp. eapply (triple_seq _ L); [apply triple_reads; set_solver|done]. Qed.

Lemma triple_choice La Lb p q Q :
  triple La p Q → triple Lb q Q → triple (La ∪ Lb) (por p q) Q.
Proof.
  intros Hp Hq. apply triple_or; (eapply triple_mono; [|done|done]); set_solver.
Qed.

Lemma triple_while t Lb lo pc pb B C :
  triple t pc (post (Lb ∪ lo) B C) → triple Lb pb (post t lo t) →
  triple t (loop_paths pc pc pb) (post lo B C).
Proof.
  intros Hc Hb. eapply (triple_loop _ Lb _ _ _ _ lo t); try done.
  - eapply triple_mono; [done| |done]. intros []; simpl; set_solver.
  - eapply triple_mono; [done| |done]. intros []; simpl; set_solver.
Qed.

Lemma triple_for t Lb lo names pb B C :
  Lb ∖ list_to_set names ∪ lo ⊆ t → triple Lb pb (post t lo t) →
  triple t (loop_paths pskip (pwrites names) pb) (post lo B C).
Proof.
  intros Ht Hb. eapply (triple_loop _ Lb _ _ _ _ lo t); try done.
  - apply triple_skip. simpl. set_solver.
  - apply triple_writes. set_solver.
Qed.

Lemma triple_arm {P : Payloads} pattern J Lb Lg pg pb next Q :
  triple J next Q → triple Lb pb Q →
  match pg with Some pg => triple Lg pg (upto (Lb ∪ J) Q) | None => Lg = Lb end →
  triple (J ∪ (Lg ∖ pattern_names pattern)) (arm_paths_of pattern pg pb next) Q.
Proof.
  intros HJ Hb Hg.
  apply triple_or; [eapply triple_mono; [|done|done]; set_solver|].
  eapply (triple_seq _ Lg); [apply triple_writes; rewrite list_to_set_elements_L; set_solver|].
  destruct pg as [pg|]; [|by rewrite Hg].
  eapply triple_seq; [exact Hg|].
  apply triple_or; (eapply triple_mono; [|done|done]); set_solver.
Qed.
