(* ===== verification/LivenessFacts.v ===== *)
(** Correctness of the liveness analysis of [Liveness]: the loop fixpoints
    converge, and on every control-flow path a name that is not live is never
    read before it is rebound. *)
From S2P Require Import Prelude Span Ir Liveness Paths.
From stdpp Require Import options.

(** A gen/kill transfer function on sets of names: it adds [G] and keeps the
    names [K] selects. *)
Definition gen_kill (f : VarSet → VarSet) : Prop :=
  ∃ (G : VarSet) (K : string → Prop), ∀ x n, n ∈ f x ↔ n ∈ G ∨ (n ∈ x ∧ K n).

Section Facts.
Context {P : Payloads}.

(** [break] / [continue] inside [b] that leave [b] itself (those of a nested
    loop do not). *)
Fixpoint has_exit (b : Block) : bool :=
  match b with mkBlock stmts _ => existsb stmt_has_exit stmts end
with stmt_has_exit (s : Stmt) : bool :=
  match s with
  | Break _ | Continue _ => true
  | If _ t e _ => has_exit t || match e with Some e => has_exit e | None => false end
  | While cond _ _ => has_exit cond
  | Match _ arms _ _ => existsb arm_has_exit arms
  | Logical _ _ _ r _ => has_exit r
  | Coalesce _ _ f _ => has_exit f
  | _ => false
  end
with arm_has_exit (a : Arm) : bool :=
  match a with
  | mkArm _ guard body _ =>
      match guard with Some (mkGuard g _) => has_exit g | None => false end || has_exit body
  end.

(** Every early exit finds its target's live names live where it leaves: [B]
    are the names live after the loop a [break] leaves, [C] those live at the
    test a [continue] returns to, [lo] the block's own [live_out]. *)
Fixpoint exits_covered (B C : VarSet) (b : Block) (lo : VarSet) : bool :=
  match b with
  | mkBlock stmts tail =>
      implb (has_exit b) (bool_decide (B ⊆ lo) && bool_decide (C ⊆ lo)) &&
      (foldr (λ s acc, (fst (analyze_stmt s acc.1), acc.2 && stmt_exits_covered B C s acc.1))
        (match tail with Some t => use_atom t lo | None => lo end, true) stmts).2
  end
with stmt_exits_covered (B C : VarSet) (s : Stmt) (live : VarSet) : bool :=
  match s with
  | Break _ => bool_decide (B ⊆ live)
  | Continue _ => bool_decide (C ⊆ live)
  | If _ t e _ =>
      exits_covered B C t live && match e with Some e => exits_covered B C e live | None => true end
  | While cond body _ =>
      let top := fst (analyze_stmt s live) in
      exit_free cond && exits_covered live top body top
  | For pattern iterable body _ _ _ _ =>
      match sub (analyze_stmt s live).2 with
      | [body_l] => exits_covered live (live_out body_l) body (live_out body_l)
      | _ => false
      end
  | Match _ arms _ _ => forallb (λ a, arm_exits_covered B C a live) arms
  | Logical _ _ _ r _ => exits_covered B C r live
  | Coalesce _ _ f _ => exits_covered B C f live
  | _ => true
  end
with arm_exits_covered (B C : VarSet) (a : Arm) (live : VarSet) : bool :=
  match a with
  | mkArm _ guard body _ =>
      match guard with Some (mkGuard g _) => exit_free g | None => true end &&
      exits_covered B C body live
  end
(** The condition of a loop and the guard of an arm hold no [break] or
    [continue] at all. *)
with exit_free (b : Block) : bool :=
  match b with mkBlock stmts _ => forallb stmt_exit_free stmts end
with stmt_exit_free (s : Stmt) : bool :=
  match s with
  | Break _ | Continue _ => false
  | If _ t e _ => exit_free t && match e with Some e => exit_free e | None => true end
  | While cond body _ => exit_free cond && exit_free body
  | For _ _ body _ _ _ _ => exit_free body
  | Match _ arms _ _ => forallb arm_exit_free arms
  | Logical _ _ _ r _ => exit_free r
  | Coalesce _ _ f _ => exit_free f
  | _ => true
  end
with arm_exit_free (a : Arm) : bool :=
  match a with
  | mkArm _ guard body _ =>
      match guard with Some (mkGuard g _) => exit_free g | None => true end && exit_free body
  end.

(** No release is present yet (the analysis runs before drops are inserted). *)
Fixpoint drop_free (b : Block) : bool :=
  match b with mkBlock stmts _ => forallb stmt_drop_free stmts end
with stmt_drop_free (s : Stmt) : bool :=
  match s with
  | DropVar _ _ _ => false
  | Let _ (Try _ (_ :: _) _) _ | Eval_ (Try _ (_ :: _) _) _ => false
  | If _ t e _ => drop_free t && match e with Some e => drop_free e | None => true end
  | While cond body _ => drop_free cond && drop_free body
  | For _ _ body _ _ _ _ => drop_free body
  | Match _ arms _ _ => forallb arm_drop_free arms
  | Logical _ _ _ r _ => drop_free r
  | Coalesce _ _ f _ => drop_free f
  | _ => true
  end
with arm_drop_free (a : Arm) : bool :=
  match a with
  | mkArm _ guard body _ =>
      match guard with Some (mkGuard g _) => drop_free g | None => true end && drop_free body
  end.

(** *** Gen/kill transfer *)

Lemma gk_ext f g : (∀ x, f x = g x) → gen_kill g → gen_kill f.
Proof. intros E (G & K & H). exists G, K. intros x n. by rewrite E. Qed.

Lemma gk_id : gen_kill (λ x, x).
Proof. exists ∅, (λ _, True). set_solver. Qed.

Lemma gk_const S : gen_kill (λ _, S).
Proof. exists S, (λ _, False). set_solver. Qed.

Lemma gk_union f g : gen_kill f → gen_kill g → gen_kill (λ x, f x ∪ g x).
Proof.
  intros (G & K & H) (G' & K' & H'). exists (G ∪ G'), (λ n, K n ∨ K' n).
  intros x n. rewrite elem_of_union, H, H', elem_of_union. tauto.
Qed.

Lemma gk_diff f S : gen_kill f → gen_kill (λ x, f x ∖ S).
Proof.
  intros (G & K & H). exists (G ∖ S), (λ n, K n ∧ n ∉ S).
  intros x n. rewrite !elem_of_difference, H. tauto.
Qed.

Lemma gk_comp f g : gen_kill f → gen_kill g → gen_kill (λ x, f (g x)).
Proof.
  intros (G & K & H) (G' & K' & H').
  exists (G ∪ f G'), (λ n, K n ∧ K' n).
  intros x n. rewrite elem_of_union, !H, H'. tauto.
Qed.

Lemma gk_mono f x y : gen_kill f → x ⊆ y → f x ⊆ f y.
Proof. intros (G & K & H) Hxy n. rewrite !H. set_solver. Qed.

(** Iterating a gen/kill step that keeps the loop's [live_out] reaches a fixed
    point on the second round. *)
Lemma gk_loop_fixed f (lo : VarSet) :
  gen_kill f → f lo ∪ lo = f (f lo ∪ lo) ∪ lo.
Proof. intros (G & K & H). apply set_eq. intros n. rewrite !elem_of_union, !H, !elem_of_union, !H. tauto. Qed.

#[local] Hint Resolve gk_id gk_const gk_union gk_diff : noeta.

(** The [while] fixpoint is its second round, and satisfies the exit test. *)
Lemma while_fix_converges (Cl Bl : VarSet → BlockLiveness) lo n :
  gen_kill (λ x, live_in (Cl x)) → gen_kill (λ x, live_in (Bl x)) →
  let t := live_in (Cl (live_in (Bl lo) ∪ lo)) in
  while_fix (S n) (λ top, (Cl (live_in (Bl top) ∪ lo), Bl top)) lo =
    (Cl (live_in (Bl t) ∪ lo), Bl t) ∧
  live_in (Cl (live_in (Bl t) ∪ lo)) = t.
Proof.
  intros (G & K & H) (G' & K' & H') t.
  assert (live_in (Cl (live_in (Bl t) ∪ lo)) = t) as Ht.
  { apply set_eq. intros m. unfold t at 2. rewrite !H, !elem_of_union, !H'.
    unfold t. rewrite H, elem_of_union, H'. tauto. }
  split; [|done]. cbv beta zeta delta [while_fix] iota. fold t while_fix.
  destruct (decide (t = lo)) as [E|E]; [rewrite E at 1; congruence|].
  destruct n; cbv beta zeta delta [while_fix] iota; fold while_fix; [done|].
  rewrite Ht. by rewrite decide_True.
Qed.

Lemma for_fix_converges (Bl : VarSet → BlockLiveness) S lo n :
  gen_kill (λ x, live_in (Bl x)) →
  let t := (live_in (Bl lo) ∖ S) ∪ lo in
  for_fix (Datatypes.S n) (λ top, (Bl top, (live_in (Bl top) ∖ S) ∪ lo)) lo =
    (Bl t, t) ∧
  (live_in (Bl t) ∖ S) ∪ lo = t.
Proof.
  intros HB t. pose proof (gk_loop_fixed (λ x, live_in (Bl x) ∖ S) lo (gk_diff _ S HB)) as Ht.
  fold t in Ht. split; [|done]. cbv beta zeta delta [for_fix] iota. fold t for_fix.
  destruct (decide (t = lo)) as [E|E]; [congruence|].
  destruct n; cbv beta zeta delta [for_fix] iota; fold for_fix; [done|].
  rewrite decide_True; [done|]. by symmetry.
Qed.

(** Every analysis function is gen/kill in its [live_out]. *)
Lemma analyze_gen_kill :
  (∀ s, gen_kill (λ lo, fst (analyze_stmt s lo))) ∧
  (∀ b, gen_kill (λ lo, live_in (analyze_block b lo))) ∧
  (∀ a J F S, gen_kill J → gen_kill F →
     gen_kill (λ x, (analyze_arm a x (J x) (F x) (S x)).1.1) ∧
     gen_kill (λ x, (analyze_arm a x (J x) (F x) (S x)).1.2)).
Proof.
  apply control_ind; simpl; try (intros; auto 6 with noeta; fail).
  - intros c t e sp Ht He. destruct e as [e|]; simpl; [specialize (He e eq_refl)|]; auto with noeta.
  - intros c b sp Hc Hb.
    eapply gk_ext; [intros lo; destruct (while_fix_converges _ _ lo 1 Hc Hb) as [E E'];
      change loop_fuel with 2%nat; rewrite E; exact E'|].
    apply (gk_comp (λ x, live_in (analyze_block c x))); auto with noeta.
  - intros p i b sp st o os Hb.
    eapply gk_ext; [intros lo;
      destruct (for_fix_converges _ (list_to_set (for_pattern_names p)) lo 1 Hb) as [E E'];
      change loop_fuel with 2%nat; rewrite E; reflexivity|]. simpl. auto with noeta.
  - intros sc arms d sp Ha.
    assert (∃ J F S, gen_kill J ∧ gen_kill F ∧
      ∀ lo, foldr (λ a acc, let '(joined, fallthrough, subs) := acc in
                     analyze_arm a lo joined fallthrough subs) (∅, lo, []) arms
            = (J lo, F lo, S lo)) as (J & F & S & HJ & HF & E).
    { induction Ha as [|a arms Ha _ (J & F & S & HJ & HF & E)].
      - exists (λ _, ∅), (λ x, x), (λ _, []). auto with noeta.
      - destruct (Ha J F S HJ HF) as [HJ' HF'].
        eexists _, _, (λ x, (analyze_arm a x (J x) (F x) (S x)).2).
        split_and!; [exact HJ'|exact HF'|]. intros lo. simpl. rewrite E.
        by destruct (analyze_arm _ _ _ _ _) as [[? ?] ?]. }
    eapply gk_ext; [intros lo; rewrite E; reflexivity|]. simpl. auto with noeta.
  - intros [n f sp|?|?|?|? ? ?]; simpl; auto with noeta.
  - intros stmts tail Hs.
    eapply gk_ext with (g := λ lo, (foldr (λ s acc, let '(live, sls) := acc in
       let '(live, sl) := analyze_stmt s live in (live, sl :: sls))
       (match tail with Some t => use_atom t lo | None => lo end, []) stmts).1).
    { intros lo. by destruct (foldr _ _ _). }
    induction Hs as [|s stmts Hs _ IH]; simpl.
    + destruct tail as [[]|]; simpl; auto with noeta.
    + eapply gk_ext; [|exact (gk_comp _ _ Hs IH)]. intros lo. simpl.
      destruct (foldr _ _ _); simpl. by destruct (analyze_stmt _ _).
  - intros p g b sp Hg Hb J F S HJ HF. unfold match_arm_step.
    destruct g as [[g gs]|]; simpl; [|auto with noeta].
    specialize (Hg _ _ eq_refl).
    assert (gen_kill (λ x, live_in (analyze_block g (live_in (analyze_block b x) ∪ F x)))).
    { apply (gk_comp (λ y, live_in (analyze_block g y))); auto with noeta. }
    auto with noeta.
Qed.

(** *** Exit-free blocks *)

Lemma exit_free_covered :
  (∀ s, stmt_exit_free s = true →
     stmt_has_exit s = false ∧ ∀ B C lo, stmt_exits_covered B C s lo = true) ∧
  (∀ b, exit_free b = true →
     has_exit b = false ∧ ∀ B C lo, exits_covered B C b lo = true) ∧
  (∀ a, arm_exit_free a = true →
     arm_has_exit a = false ∧ ∀ B C lo, arm_exits_covered B C a lo = true).
Proof.
  apply control_ind; try (intros; simpl in *; auto; done).
  - intros c t e sp Ht He H. simpl in *. bool_to_prop. destruct Ht as [-> Ht]; [done|].
    destruct e as [e|]; simpl; [destruct (He e eq_refl) as [-> He']; [done|]|];
      split; try done; intros; rewrite Ht; rewrite ?He'; done.
  - intros c b sp Hc Hb H. simpl in H. bool_to_prop. destruct Hc as [Hc _]; [done|].
    split; [done|]. intros B C lo. simpl. bool_to_prop; [done|]. by apply Hb.
  - intros p i b sp st o os Hb H. split; [done|]. intros B C lo. simpl.
    destruct (for_fix _ _ _). simpl. by apply Hb.
  - intros sc arms d sp Ha H. simpl in *. induction Ha as [|a arms Ha _ IH]; simpl in *; [done|].
    bool_to_prop. destruct Ha as [-> Ha]; [done|]. destruct IH as [-> IH]; [done|].
    split; [done|]. intros. by rewrite Ha, IH.
  - intros stmts tail Hs H. simpl in *.
    assert (existsb stmt_has_exit stmts = false) as E.
    { induction Hs as [|s stmts Hs _ IH]; simpl in *; [done|]. bool_to_prop.
      rewrite IH by done. by destruct Hs as [-> _]. }
    rewrite E. split; [done|]. intros B C lo. simpl. clear E.
    induction Hs as [|s stmts Hs _ IH]; simpl in *; [done|]. bool_to_prop; [by apply IH|].
    by apply Hs.
  - intros p g b sp Hg Hb H. simpl in *. bool_to_prop. destruct Hb as [-> Hb]; [done|].
    destruct g as [[g gs]|]; [destruct (Hg _ _ eq_refl) as [-> Hg']; [done|]|];
      simpl; split; try done; intros; rewrite Hb; simpl; rewrite ?andb_true_r; done.
Qed.

(** *** Soundness *)

#[local] Hint Resolve triple_reads triple_skip triple_exit triple_write : noeta.

Lemma triple_rvalue r L (Q : exit → VarSet) :
  rvalue_uses r ⊆ L → Q XNormal ⊆ L → Q XReturn = ∅ →
  match r with Try _ ds _ => ds = [] | _ => True end →
  triple L (rvalue_paths r) Q.
Proof.
  intros Hu HQ HR Hr. eapply (triple_seq _ L); [by apply triple_reads|].
  apply triple_or; [by apply triple_skip|].
  destruct r; try (apply triple_exit; rewrite HR; set_solver). subst.
  eapply (triple_seq _ L); [by apply triple_drops|]. apply triple_exit. set_solver.
Qed.

(** The statements of a block against the backward pass of [analyze_block]. *)
Definition live_before (s : Stmt) (live : VarSet) : VarSet := fst (analyze_stmt s live).
Definition live_tail (tail : option Atom) (lo : VarSet) : VarSet :=
  match tail with Some t => use_atom t lo | None => lo end.
Definition tail_paths (tail : option Atom) : Paths :=
  match tail with Some a => atom_paths a | None => pskip end.

Lemma live_in_block stmts tail lo :
  live_in (analyze_block (mkBlock stmts tail) lo) =
    foldr live_before (live_tail tail lo) stmts.
Proof.
  simpl. change (match tail with Some _ => _ | None => _ end) with (live_tail tail lo).
  induction stmts as [|s stmts IH]; simpl; [done|].
  rewrite <- IH. unfold live_before. destruct (foldr _ _ stmts) as [live sls].
  simpl. by destruct (analyze_stmt s live).
Qed.

Lemma live_out_block b lo : live_out (analyze_block b lo) = lo.
Proof. destruct b. simpl. by destruct (foldr _ _ _). Qed.

Lemma exits_covered_block B C stmts tail lo :
  exits_covered B C (mkBlock stmts tail) lo = true →
  backward_ok live_before (λ s live, stmt_exits_covered B C s live = true) stmts
    (live_tail tail lo) ∧
  (has_exit (mkBlock stmts tail) = true → B ⊆ lo ∧ C ⊆ lo).
Proof.
  simpl. intros H. apply andb_true_iff in H as [H1 H2]. split.
  - clear H1. change (match tail with Some _ => _ | None => _ end) with (live_tail tail lo) in H2.
    assert (∀ stmts, (foldr (λ s acc, (fst (analyze_stmt s acc.1),
       acc.2 && stmt_exits_covered B C s acc.1)) (live_tail tail lo, true) stmts).1
        = foldr live_before (live_tail tail lo) stmts) as E.
    { clear. intros stmts. induction stmts as [|s stmts IH]; simpl; [done|]. by rewrite IH. }
    induction stmts as [|s stmts IH]; simpl in *; [done|]. bool_to_prop.
    rewrite E in *. auto.
  - intros E. rewrite E in H1. simpl in H1. bool_to_prop. done.
Qed.

Lemma triple_tail tail lo B C : triple (live_tail tail lo) (tail_paths tail) (post lo B C).
Proof.
  destruct tail as [a|]; simpl; [|by apply triple_skip].
  apply triple_reads; destruct a; simpl; set_solver.
Qed.

Lemma use_atom_uses a L : use_atom a L = L ∪ atom_uses a.
Proof. destruct a; simpl; set_solver. Qed.

(** The results of analyzing a loop, in terms of its fixed point. *)
Lemma analyze_while c b sp live :
  ∃ t, analyze_stmt (While c b sp) live =
         (t, mkSL ∅ [analyze_block c (live_in (analyze_block b t) ∪ live); analyze_block b t]) ∧
       live_in (analyze_block c (live_in (analyze_block b t) ∪ live)) = t.
Proof.
  destruct (while_fix_converges (analyze_block c) (analyze_block b) live 1) as [E E'];
    [apply analyze_gen_kill..|].
  eexists. split; [|exact E']. simpl. change loop_fuel with 2%nat. rewrite E. by rewrite E'.
Qed.

Lemma analyze_for p i b sp st o os live :
  ∃ t, analyze_stmt (For p i b sp st o os) live =
         (t ∪ foldl (λ u a, u ∪ atom_uses a) (atom_uses i) os,
          mkSL (deaths (foldl (λ u a, u ∪ atom_uses a) (atom_uses i) os) t)
            [analyze_block b t]) ∧
       live_in (analyze_block b t) ∖ list_to_set (for_pattern_names p) ∪ live = t.
Proof.
  destruct (for_fix_converges (analyze_block b) (list_to_set (for_pattern_names p)) live 1)
    as [E E']; [apply analyze_gen_kill|].
  eexists. split; [|exact E']. simpl. change loop_fuel with 2%nat. by rewrite E.
Qed.

Lemma covered_while B C c b sp live :
  stmt_exits_covered B C (While c b sp) live =
    (let t := fst (analyze_stmt (While c b sp) live) in
     exit_free c && exits_covered live t b t).
Proof. done. Qed.

Lemma covered_for B C p i b sp st o os live :
  stmt_exits_covered B C (For p i b sp st o os) live =
    match sub (analyze_stmt (For p i b sp st o os) live).2 with
    | [body_l] => exits_covered live (live_out body_l) b (live_out body_l)
    | _ => false
    end.
Proof. done. Qed.

(** What soundness says of a statement, a block and an arm. *)
Definition sound_stmt (s : Stmt) : Prop := ∀ live B C,
  stmt_drop_free s = true → stmt_exits_covered B C s live = true →
  triple (live_before s live) (stmt_paths s) (post live B C).
Definition sound_block (b : Block) : Prop := ∀ lo B C,
  drop_free b = true → exits_covered B C b lo = true →
  triple (live_in (analyze_block b lo)) (block_paths b) (post lo B C).
Definition sound_arm (a : Arm) : Prop := ∀ live B C J F subs next,
  arm_drop_free a = true → arm_exits_covered B C a live = true →
  J ⊆ F → triple J next (post live B C) →
  let r := analyze_arm a live J F subs in
  r.1.1 ⊆ r.1.2 ∧ triple r.1.1 (arm_paths a next) (post live B C).

Lemma sound_while c b sp : sound_block c → sound_block b → sound_stmt (While c b sp).
Proof.
  intros Hc Hb live B C Hd H. rewrite covered_while in H. unfold live_before.
  destruct (analyze_while c b sp live) as (t & E & E'). rewrite E in H |- *. simpl in *.
  bool_to_prop. eapply triple_while; [|by apply Hb].
  rewrite <- E' at 1. apply Hc; [done|]. by apply exit_free_covered.
Qed.

Lemma sound_for p i b sp st o os : sound_block b → sound_stmt (For p i b sp st o os).
Proof.
  intros Hb live B C Hd H. rewrite covered_for in H. unfold live_before.
  destruct (analyze_for p i b sp st o os live) as (t & E & E'). rewrite E in H |- *.
  simpl in *. apply triple_reads_then.
  eapply (triple_for _ (live_in (analyze_block b t))); [by rewrite E'|].
  rewrite live_out_block in H. by apply Hb.
Qed.

Lemma sound_match sc arms d sp : Forall sound_arm arms → sound_stmt (Match sc arms d sp).
Proof.
  intros Ha live B C Hd H. unfold live_before. simpl in *.
  assert (let r := foldr (λ a acc, let '(joined, fallthrough, subs) := acc in
                   analyze_arm a live joined fallthrough subs) (∅, live, []) arms in
    r.1.1 ⊆ r.1.2 ∧
    triple r.1.1 (foldr (λ a next, arm_paths a next) (pexit XReturn) arms) (post live B C))
    as [_ HT].
  { induction Ha as [|a arms Ha _ IH]; simpl in *.
    - split; [set_solver|]. by apply triple_exit.
    - bool_to_prop. destruct IH as [HJF HT]; [done..|].
      destruct (foldr _ _ arms) as [[J F] S]. by apply Ha. }
  destruct (foldr _ _ arms) as [[J F] S]. simpl in *. by apply triple_reads_then.
Qed.

Lemma sound_arm_intro p g b sp :
  (∀ gb gs, g = Some (mkGuard gb gs) → sound_block gb) → sound_block b →
  sound_arm (mkArm p g b sp).
Proof.
  intros Hg Hb live B C J F subs next Hd H HJF HT. simpl in *. bool_to_prop.
  destruct g as [[g gs]|]; simpl in *; (split; [set_solver|]).
  - apply (triple_arm p J (live_in (analyze_block b live))); [done|by apply Hb|].
    eapply triple_mono; [done| |apply (Hg _ _ eq_refl (live_in (analyze_block b live) ∪ F) B C);
      [done|by apply exit_free_covered]].
    intros []; simpl; set_solver.
  - apply (triple_arm p J (live_in (analyze_block b live))); [done|by apply Hb|done].
Qed.

Lemma sound_block_intro stmts tail : Forall sound_stmt stmts → sound_block (mkBlock stmts tail).
Proof.
  intros Hs lo B C Hd H. apply exits_covered_block in H as [H _].
  rewrite live_in_block. simpl in *. unfold all in Hd.
  apply (triple_stmts _ _ (λ s live, stmt_exits_covered B C s live = true));
    [apply triple_tail| |done].
  rewrite Forall_forall in *. intros s Hin live Hok.
  rewrite forallb_forall in Hd. 
  eapply triple_mono; [done| |apply (Hs s Hin live B C); [|done]].
  - intros []; done.
  - apply Hd. by apply list_elem_of_In.
Qed.

Lemma analysis_sound : (∀ s, sound_stmt s) ∧ (∀ b, sound_block b) ∧ (∀ a, sound_arm a).
Proof.
  apply control_ind; auto using sound_while, sound_for, sound_match, sound_arm_intro,
    sound_block_intro; intros; intros live B C Hd Hex;
    unfold live_before, sound_block in *; simpl in *.
  - apply triple_rvalue; simpl; [set_solver..|done|]. destruct r; try done. by destruct on_error.
  - apply triple_rvalue; simpl; [set_solver..|done|]. destruct r; try done. by destruct on_error.
  - apply triple_reads_then, triple_write. set_solver.
  - apply triple_reads; set_solver.
  - eapply (triple_seq _ ∅); [|by apply triple_exit].
    destruct v; simpl; [apply triple_reads|apply triple_skip]; set_solver.
  - bool_to_prop. by apply triple_exit.
  - bool_to_prop. by apply triple_exit.
  - by apply triple_skip.
  - by apply triple_skip.
  - bool_to_prop. destruct e as [e|]; simpl; apply triple_reads_then, triple_choice; auto.
    by apply triple_skip.
  - apply triple_reads_then. rewrite (union_comm_L _ live).
    apply triple_choice; [by apply triple_skip|auto].
  - apply triple_reads_then. rewrite (union_comm_L _ live).
    apply triple_choice; [by apply triple_skip|auto].
  - destruct d as [n f sp|?|?|?|? ? ?]; simpl; try by apply triple_skip.
    apply triple_reads_then, triple_write. set_solver.
  - by apply triple_skip.
  - done.
Qed.

(** ** Properties *)

(** C27. Soundness of the analysis ("never too early"): take any names [D] that
    are not live on entry to a block.  On every control-flow path through the
    block none of them is read before it is bound again, and whatever of them is
    still unbound at the end is not live there: not in [lo] when control falls
    off the end, not in the loop's [B] ([C]) when it leaves by [break]
    ([continue]).  The block's early exits must be covered by the live sets
    where they leave ([exits_covered], decidable; true of every block without
    [break] and [continue]). *)
Theorem liveness_never_too_early (b : Block) (lo B C D : VarSet) (es : trace) (x : exit) :
  drop_free b = true → exits_covered B C b lo = true →
  D ## live_in (analyze_block b lo) → block_paths b es x →
  safe D es ∧ dropped D es ## post lo B C x.
Proof. intros Hd Hc HD Hp. by apply (proj1 (proj2 analysis_sound) b lo B C). Qed.

(** The [loop] fixpoints of [While] and [For] terminate: whatever positive
    fuel they are given, the analysis of a loop is the same and satisfies the
    code's exit test, [cond_l.live_in == top] for [While] with [top] the set the
    body was analyzed against, [next == top] for [For]. *)
Theorem loop_fixpoints_terminate (c b : Block) (pattern : ForPattern) (lo : VarSet) (n : nat) :
  (let '(cond_l, body_l) :=
     while_fix (S n) (λ top, (analyze_block c (live_in (analyze_block b top) ∪ lo),
                              analyze_block b top)) lo in
   live_in cond_l = live_out body_l ∧ live_out cond_l = live_in body_l ∪ lo) ∧
  (let bound := list_to_set (for_pattern_names pattern) in
   let '(body_l, top) :=
     for_fix (S n) (λ top, (analyze_block b top, live_in (analyze_block b top) ∖ bound ∪ lo)) lo in
   live_out body_l = top ∧ live_in body_l ∖ bound ∪ lo = top).
Proof.
  split.
  - destruct (while_fix_converges (analyze_block c) (analyze_block b) lo n) as [-> E];
      [apply analyze_gen_kill..|]. by rewrite !live_out_block.
  - destruct (for_fix_converges (analyze_block b) (list_to_set (for_pattern_names pattern)) lo n)
      as [E E']; [apply analyze_gen_kill|]. simpl. rewrite E. by rewrite live_out_block.
Qed.

(** More live after a block means more live before it. *)
Theorem liveness_monotone (b : Block) (lo lo' : VarSet) :
  lo ⊆ lo' → live_in (analyze_block b lo) ⊆ live_in (analyze_block b lo').
Proof. apply (gk_mono (λ x, live_in (analyze_block b x))), analyze_gen_kill. Qed.

End Facts.

(** ** Witnesses: a loop that counts in [n] and leaves by [break] *)
Module LivenessExample.
#[local] Existing Instance unit_payloads.
Definition sp0 : Span := new 0 0.
Definition var (x : string) : Atom := AVar x sp0.
Definition int (z : Z) : Atom := AConst (CInt z).
Definition set_ (x : string) (a : Atom) : Stmt := Bind false x sp0 a false sp0.

(** [mut n = 0; while p { if q { break } n = t }; echo n] *)
Definition counting : Block := mkBlock
  [set_ "n" (int 0);
   While (mkBlock [] (Some (var "p")))
     (mkBlock [Let (mkTemp 0) (Binary Add (var "n") (int 1) false sp0) sp0;
               set_ "n" (ATemp (mkTemp 0));
               If (var "q") (mkBlock [Break sp0] None) None sp0] None) sp0;
   Echo (var "n") sp0] None.

Lemma liveness_never_too_early_witness :
  let es := [EReads ∅; EWrite "n"; EReads {["p"]}; EReads {["n"]}] in
  block_paths counting es XReturn ∧ safe {["n"]} es.
Proof.
  intros es.
  assert (block_paths counting es XReturn) as Hp.
  { right; split; [done|]. left. exists [EReads ∅; EWrite "n"], [EReads {["p"]}; EReads {["n"]}].
    split; [done|]. split.
    - left. exists [EReads ∅], [EWrite "n"]. repeat split.
    - right; split; [done|]. apply (loop_return _ _ _ [EReads {["p"]}] [EReads {["n"]}]).
      + left. exists [], [EReads {["p"]}]. repeat split; vm_compute; done.
      + right; split; [done|]. right; split; [done|]. left.
        exists [EReads {["n"]}], []. split; [done|]. split; [|by right].
        split; [vm_compute; done|done]. }
  split; [exact Hp|].
  apply (liveness_never_too_early counting ∅ ∅ ∅ {["n"]} es XReturn);
    [vm_compute; reflexivity|vm_compute; reflexivity| |exact Hp].
  intros y Hy%elem_of_singleton Hin. subst y.
  assert (bool_decide ("n" ∈ live_in (analyze_block counting ∅)) = false) as Hn
    by (vm_compute; reflexivity).
  exact (bool_decide_eq_false_1 _ Hn Hin).
Defined.

Lemma liveness_monotone_witness :
  live_in (analyze_block counting ∅) ⊆ live_in (analyze_block counting {["z"]}).
Proof. apply (liveness_monotone counting ∅ {["z"]}). apply empty_subseteq. Defined.
End LivenessExample.
