(* ===== verification/Drops.v ===== *)
(** The drop-insertion pass: [crates/noeta-ir-passes/src/drops.rs].

    [scopes] is the pass's [Vec<ScopeFrame>], innermost frame first.  A block
    pushes one frame, changes only that frame and pops it, so the stack is an
    argument and the block's own frame is the state its statements thread. *)
From S2P Require Import Prelude Span Ir Liveness.
From stdpp Require Import options.

(** [Relevance]: the destructor-relevance oracle. *)
Record Relevance := mkRelevance {
  rel_locals : gset Span;
  rel_params : gset (Span * string);
}.

(** [DropSet = HashMap<String, bool>]. *)
Abbreviation DropSet := (gmap string bool).

(** [Cx]. *)
Record Cx := mkCx {
  globals : VarSet;
  relevance : option Relevance;
  enclosing : VarSet;
}.

(** [ScopeFrame]; [constructed] in construction order. *)
Record ScopeFrame := mkFrame {
  constructed : list (string * bool);
  frame_dropped : VarSet;
  frame_live_out : VarSet;
  is_loop_body : bool;
}.

(** [ExitKind]. *)
Inductive ExitKind := ExitFrame | ExitLoop.

(** One construction considered for release: skipped when moved out, already
    reclaimed in its frame, live at the frame's exit, or seen before. *)
Definition exit_drop_step (frame : ScopeFrame) (moved_out : VarSet)
    (acc : list (string * bool) * VarSet) (nr : string * bool) : list (string * bool) * VarSet :=
  let '(drops, seen) := acc in
  if decide (nr.1 ∈ moved_out ∨ nr.1 ∈ frame_dropped frame ∨ nr.1 ∈ frame_live_out frame
             ∨ nr.1 ∈ seen)
  then (drops, seen)
  else (drops ++ [nr], {[ nr.1 ]} ∪ seen).

(** The names of one frame an early exit releases, in reverse construction
    order, with the [seen] set threaded through. *)
Definition frame_exit_drops (frame : ScopeFrame) (moved_out seen : VarSet) :
    list (string * bool) * VarSet :=
  foldl (exit_drop_step frame moved_out) ([], seen) (reverse (constructed frame)).

(** [collect_exit_drops]: frames from the innermost outwards, stopping after the
    nearest loop body for a [break] / [continue].  [seen.insert] runs only when
    the three tests before it failed, as [||] short-circuits. *)
Fixpoint collect_exit_drops_from (scopes : list ScopeFrame) (kind : ExitKind)
    (moved_out : VarSet) (seen : VarSet) : list (string * bool) :=
  match scopes with
  | [] => []
  | frame :: outer =>
      let '(drops, seen) := frame_exit_drops frame moved_out seen in
      match kind, is_loop_body frame with
      | ExitLoop, true => drops
      | _, _ => drops ++ collect_exit_drops_from outer kind moved_out seen
      end
  end.
Definition collect_exit_drops (scopes : list ScopeFrame) (kind : ExitKind)
    (moved_out : VarSet) : list (string * bool) :=
  collect_exit_drops_from scopes kind moved_out ∅.

Section Drops.
Context {P : Payloads}.

(** [emit_exit_drops]: the statements pushed before the terminator. *)
Definition emit_exit_drops (scopes : list ScopeFrame) (kind : ExitKind) (moved_out : VarSet)
    (span : Span) : list Stmt :=
  map (λ nr, DropVar nr.1 span nr.2) (collect_exit_drops scopes kind moved_out).

(** [return_moved_out], [tail_vars]: the variable an atom position moves out. *)
Definition return_moved_out (value : option Atom) : VarSet :=
  match value with Some (AVar name _) => {[ name ]} | _ => ∅ end.
Definition tail_vars (b : Block) : VarSet :=
  match block_tail b with Some (AVar name _) => {[ name ]} | _ => ∅ end.

(** [is_straight_line]. *)
Definition is_straight_line (s : Stmt) : bool :=
  match s with Let _ _ _ | Eval_ _ _ | Bind _ _ _ _ _ _ | Echo _ _ => true | _ => false end.

(** [ends_with_terminator]. *)
Definition ends_with_terminator (b : Block) : bool :=
  match opt_last (block_stmts b) with
  | Some (Return _ _) | Some (Break _) | Some (Continue _) => true
  | _ => false
  end.

(** [stmt_span] and [block_exit_span]. *)
Definition stmt_span (s : Stmt) : Span :=
  match s with
  | Let _ _ span | Eval_ _ span | Bind _ _ _ _ _ span | Echo _ span => span
  | _ => new 0 0
  end.
Definition block_exit_span (b : Block) : Span :=
  match block_tail b with
  | Some (AVar _ span) => span
  | _ => from_option stmt_span (new 0 0) (opt_last (block_stmts b))
  end.

(** Names in ascending string order ([BTreeSet] iteration, [sort_unstable]). *)
Fixpoint insert_sorted (x : string) (l : list string) : list string :=
  match l with
  | [] => [x]
  | y :: r => if String.leb x y then x :: l else y :: insert_sorted x r
  end.
Definition sort_names (l : list string) : list string := foldr insert_sorted [] l.

(** [lifo_deaths]: the droppable names dying at a statement, descending. *)
Definition lifo_deaths (dies : VarSet) (droppable : DropSet) : list string :=
  reverse (sort_names
    (filter (λ n, is_Some (droppable !! n)) (elements dies))).

(** [Vec::dedup_by] of the pass: a [DropVar] equal in name to the statement kept
    just before it is removed. *)
Definition same_drop (kept s : Stmt) : bool :=
  match kept, s with
  | DropVar x _ _, DropVar y _ _ => bool_decide (x = y)
  | _, _ => false
  end.
Fixpoint dedup_from (kept : Stmt) (l : list Stmt) : list Stmt :=
  match l with
  | [] => [kept]
  | s :: r => if same_drop kept s then dedup_from kept r else kept :: dedup_from s r
  end.
Definition dedup_drops (l : list Stmt) : list Stmt :=
  match l with [] => [] | s :: r => dedup_from s r end.

(** Recording a construction in the block's own frame. *)
Definition record_construction (s : Stmt) (owned : DropSet) (frame : ScopeFrame) : ScopeFrame :=
  match s with
  | Bind _ name _ _ _ _ =>
      match owned !! name with
      | Some relevant =>
          if any (λ nr, bool_decide (nr.1 = name)) (constructed frame) then frame
          else mkFrame (constructed frame ++ [(name, relevant)]) (frame_dropped frame)
                 (frame_live_out frame) (is_loop_body frame)
      | None => frame
      end
  | _ => frame
  end.

(** Recording a last-use drop in the block's own frame. *)
Definition record_drop (name : string) (frame : ScopeFrame) : ScopeFrame :=
  mkFrame (constructed frame) ({[ name ]} ∪ frame_dropped frame)
    (frame_live_out frame) (is_loop_body frame).

(** The early-exit drops emitted before a terminator. *)
Definition exit_drops_before (s : Stmt) (scopes : list ScopeFrame) : list Stmt :=
  match s with
  | Return value span => emit_exit_drops scopes ExitFrame (return_moved_out value) span
  | Break span | Continue span => emit_exit_drops scopes ExitLoop ∅ span
  | _ => []
  end.

(** The last-use drops after a straight-line statement. *)
Definition last_use_names (s : Stmt) (dies : VarSet) (droppable : DropSet) : list string :=
  if is_straight_line s then lifo_deaths dies droppable else [].
Definition last_use_drops (s : Stmt) (dies : VarSet) (droppable : DropSet) : list Stmt :=
  map (λ name, DropVar name (stmt_span s) (default false (droppable !! name)))
    (last_use_names s dies droppable).

(** The scope-exit drops of a block control falls off the end of. *)
Definition scope_exit_drops (b : Block) (live : BlockLiveness) (frame : ScopeFrame)
    (owned : DropSet) : list Stmt :=
  if ends_with_terminator b then []
  else
    omap (λ nr : string * bool,
      if decide (nr.1 ∈ frame_dropped frame ∨ nr.1 ∈ tail_vars b ∨ nr.1 ∈ live_out live)
      then None
      else (λ relevant, DropVar nr.1 (block_exit_span b) relevant) <$> (owned !! nr.1))
      (reverse (constructed frame)).

(** ** The drop sets of a function *)

(** [count_binds_block] / [count_binds_stmt]: bind counts per name and the names
    patterns bind. *)
Definition bump (name : string) (counts : gmap string nat) : gmap string nat :=
  <[ name := S (default 0%nat (counts !! name)) ]> counts.

Fixpoint count_binds_block (b : Block) (acc : gmap string nat * VarSet) :
    gmap string nat * VarSet :=
  match b with mkBlock stmts _ => foldl (λ acc s, count_binds_stmt s acc) acc stmts end
with count_binds_stmt (s : Stmt) (acc : gmap string nat * VarSet) : gmap string nat * VarSet :=
  match s with
  | Bind _ name _ _ _ _ => (bump name acc.1, acc.2)
  | For pattern _ body _ _ _ _ =>
      count_binds_block body (acc.1, list_to_set (for_pattern_names pattern) ∪ acc.2)
  | Match _ arms _ _ =>
      foldl (λ acc a, count_binds_arm a acc)
        (acc.1, foldl (λ out a, collect_pattern_names (arm_pattern a) out) acc.2 arms) arms
  | SDecl (DFn name _ _) => (bump name acc.1, acc.2)
  | If _ t e _ =>
      let acc := count_binds_block t acc in
      match e with Some e => count_binds_block e acc | None => acc end
  | While cond body _ => count_binds_block body (count_binds_block cond acc)
  | Logical _ _ _ rgt _ => count_binds_block rgt acc
  | Coalesce _ _ fallback _ => count_binds_block fallback acc
  | _ => acc
  end
with count_binds_arm (a : Arm) (acc : gmap string nat * VarSet) : gmap string nat * VarSet :=
  match a with
  | mkArm _ guard body _ =>
      count_binds_block body
        (match guard with Some (mkGuard g _) => count_binds_block g acc | None => acc end)
  end.

(** [collect_func_vars]: names a nested function mentions in body or defaults. *)
Definition collect_func_captures (f : Func) (out : VarSet) : VarSet :=
  foldl (λ out d, match d with
                  | Some t => out ∪ referenced_vars_in_block (thunk_body t)
                  | None => out end)
    (out ∪ referenced_vars_in_block (func_body f)) (func_defaults f).

(** [collect_captured]. *)
Fixpoint collect_captured (b : Block) (out : VarSet) : VarSet :=
  match b with mkBlock stmts _ => foldl (λ out s, collect_captured_stmt s out) out stmts end
with collect_captured_stmt (s : Stmt) (out : VarSet) : VarSet :=
  match s with
  | Let _ (Closure f _) _ | Eval_ (Closure f _) _ => collect_func_captures f out
  | SDecl (DFn _ f _) => collect_func_captures f out
  | If _ t e _ =>
      let out := collect_captured t out in
      match e with Some e => collect_captured e out | None => out end
  | While cond body _ => collect_captured body (collect_captured cond out)
  | For _ _ body _ _ _ _ => collect_captured body out
  | Match _ arms _ _ => foldl (λ out a, collect_captured_arm a out) out arms
  | Logical _ _ _ rgt _ => collect_captured rgt out
  | Coalesce _ _ fallback _ => collect_captured fallback out
  | _ => out
  end
with collect_captured_arm (a : Arm) (out : VarSet) : VarSet :=
  match a with
  | mkArm _ guard body _ =>
      collect_captured body
        (match guard with Some (mkGuard g _) => collect_captured g out | None => out end)
  end.

(** The names excluded from both drop sets. *)
Definition excluded_names (f : Func) (enclosing : VarSet) : VarSet :=
  collect_captured (func_body f) (count_binds_block (func_body f) (∅, ∅)).2 ∪ enclosing.
Definition bind_counts (f : Func) : gmap string nat := (count_binds_block (func_body f) (∅, ∅)).1.

Definition eligible_params (f : Func) (globals excluded : VarSet) : VarSet :=
  filter (λ p, bind_counts f !! p = None ∧ p ∉ excluded ∧ p ∉ globals)
    (list_to_set (func_params f)).

(** [single_assignment_locals]. *)
Definition single_assignment_locals (f : Func) (globals enclosing : VarSet) : VarSet :=
  let excluded := excluded_names f enclosing in
  eligible_params f globals excluded ∪
  filter (λ name, bind_counts f !! name = Some 1%nat ∧ name ∉ excluded ∧ name ∉ globals
                  ∧ name ∉ func_params f)
    (dom (bind_counts f)).

(** [owned_locals]. *)
Definition owned_locals (f : Func) (globals enclosing : VarSet) : VarSet :=
  let excluded := excluded_names f enclosing in
  eligible_params f globals excluded ∪
  filter (λ name, name ∉ excluded ∧ name ∉ globals ∧ name ∉ func_params f)
    (dom (bind_counts f)).

(** [function_locals]. *)
Definition function_locals (f : Func) : VarSet :=
  let '(counts, names) := count_binds_block (func_body f) (∅, ∅) in
  names ∪ dom counts ∪ list_to_set (func_params f).

(** [collect_bind_spans]: the last [Bind] of a name wins, as [HashMap::insert]. *)
Fixpoint collect_bind_spans (b : Block) (out : gmap string Span) : gmap string Span :=
  match b with mkBlock stmts _ => foldl (λ out s, collect_bind_spans_stmt s out) out stmts end
with collect_bind_spans_stmt (s : Stmt) (out : gmap string Span) : gmap string Span :=
  match s with
  | Bind _ name name_span _ _ _ => <[ name := name_span ]> out
  | If _ t e _ =>
      let out := collect_bind_spans t out in
      match e with Some e => collect_bind_spans e out | None => out end
  | While cond body _ => collect_bind_spans body (collect_bind_spans cond out)
  | For _ _ body _ _ _ _ => collect_bind_spans body out
  | Match _ arms _ _ => foldl (λ out a, collect_bind_spans_arm a out) out arms
  | Logical _ _ _ rgt _ => collect_bind_spans rgt out
  | Coalesce _ _ fallback _ => collect_bind_spans fallback out
  | _ => out
  end
with collect_bind_spans_arm (a : Arm) (out : gmap string Span) : gmap string Span :=
  match a with
  | mkArm _ guard body _ =>
      collect_bind_spans body
        (match guard with Some (mkGuard g _) => collect_bind_spans g out | None => out end)
  end.

(** The relevance bit of one name. *)
Definition name_relevant (f : Func) (rel : option Relevance) (spans : gmap string Span)
    (name : string) : bool :=
  match rel with
  | None => true
  | Some r =>
      if decide (name ∈ func_params f) then bool_decide ((func_span f, name) ∈ rel_params r)
      else match spans !! name with
           | Some span => bool_decide (span ∈ rel_locals r)
           | None => true
           end
  end.

(** [relevance_map], [drop_set], [owned_set]. *)
Definition relevance_map (f : Func) (cx : Cx) (names : VarSet) : DropSet :=
  let spans := collect_bind_spans (func_body f) ∅ in
  set_to_map (λ n, (n, name_relevant f (relevance cx) spans n)) names.
Definition drop_set (f : Func) (cx : Cx) : DropSet :=
  relevance_map f cx (single_assignment_locals f (globals cx) (enclosing cx)).
Definition owned_set (f : Func) (cx : Cx) : DropSet :=
  relevance_map f cx (owned_locals f (globals cx) (enclosing cx)).

(** [top_level_names]. *)
Definition top_level_names (b : Block) : VarSet :=
  foldl (λ names s,
      match s with
      | Bind _ name _ _ _ _ => {[ name ]} ∪ names
      | SDecl (DFn name _ _) => {[ name ]} ∪ names
      | SDecl (DUse _ us _) => list_to_set (map use_name us) ∪ names
      | _ => names
      end) ∅ (block_stmts b).

(** ** The rewrite *)

(** [sl.sub[i]]; out of range is a panic the analysis rules out. *)
Definition sub_at (sl : StmtLiveness) (i : nat) : BlockLiveness :=
  nth i (sub sl) (mkBL ∅ ∅ []).

(** The state of a block's statement walk: output and own frame. *)
Definition finish_block (b : Block) (live : BlockLiveness) (owned : DropSet)
    (out : list Stmt) (frame : ScopeFrame) : Block :=
  mkBlock (dedup_drops out ++ scope_exit_drops b live frame owned) (block_tail b).

(** The statement loop of [rewrite_block], zipped with the annotations: the
    block's output and its own frame, given the statement rewriter. *)
Definition walk_stmts (rewrite : Stmt → StmtLiveness → list ScopeFrame → Stmt)
    (droppable owned : DropSet) (scopes : list ScopeFrame) :
    list Stmt → list StmtLiveness → list Stmt → ScopeFrame → list Stmt * ScopeFrame :=
  fix walk stmts sls out frame :=
    match stmts, sls with
    | s :: stmts, sl :: sls =>
        let frame := record_construction s owned frame in
        let out := out ++ exit_drops_before s (frame :: scopes)
                       ++ [rewrite s sl (frame :: scopes)]
                       ++ last_use_drops s (dies_here sl) droppable in
        let frame :=
          foldl (λ f n, record_drop n f) frame (last_use_names s (dies_here sl) droppable) in
        walk stmts sls out frame
    | _, _ => (out, frame)
    end.

(** The arm loop of a [Match], with the cursor over the annotations. *)
Definition walk_arms (rewrite : Arm → list BlockLiveness → Arm * list BlockLiveness) :
    list Arm → list BlockLiveness → list Arm * list BlockLiveness :=
  fix walk arms subs :=
    match arms with
    | [] => ([], subs)
    | a :: arms =>
        let '(a', subs) := rewrite a subs in
        let '(arms', subs) := walk arms subs in
        (a' :: arms', subs)
    end.

(** [rewrite_block], [rewrite_stmt], [rewrite_rvalue], [rewrite_func],
    [rewrite_decl]. *)
Fixpoint rewrite_block (b : Block) (live : BlockLiveness) (droppable owned : DropSet) (cx : Cx)
    (scopes : list ScopeFrame) (loop_body : bool) {struct b} : Block :=
  match b with
  | mkBlock stmts tail =>
      let frame := mkFrame [] ∅ (live_out live) loop_body in
      let '(out, frame) :=
        walk_stmts (λ s sl scopes, rewrite_stmt s sl droppable owned cx scopes)
          droppable owned scopes stmts (bl_stmts live) [] frame in
      finish_block b live owned out frame
  end
with rewrite_stmt (s : Stmt) (sl : StmtLiveness) (droppable owned : DropSet) (cx : Cx)
    (scopes : list ScopeFrame) {struct s} : Stmt :=
  match s with
  | Let dst rvalue span => Let dst (rewrite_rvalue rvalue scopes cx) span
  | Eval_ rvalue span => Eval_ (rewrite_rvalue rvalue scopes cx) span
  | If cond t e span =>
      If cond (rewrite_block t (sub_at sl 0) droppable owned cx scopes false)
        (match e with
         | Some e => Some (rewrite_block e (sub_at sl 1) droppable owned cx scopes false)
         | None => None
         end) span
  | While cond body span =>
      While (rewrite_block cond (sub_at sl 0) droppable owned cx scopes false)
        (rewrite_block body (sub_at sl 1) droppable owned cx scopes true) span
  | For pattern iterable body span stream order order_slots =>
      For pattern iterable (rewrite_block body (sub_at sl 0) droppable owned cx scopes true)
        span stream order order_slots
  | Match scrutinee arms dst span =>
      let '(new_arms, _) :=
        walk_arms (λ a subs, rewrite_arm a subs droppable owned cx scopes) arms (sub sl) in
      Match scrutinee new_arms dst span
  | Logical dst op lft rgt span =>
      Logical dst op lft (rewrite_block rgt (sub_at sl 0) droppable owned cx scopes false) span
  | Coalesce dst value fallback span =>
      Coalesce dst value (rewrite_block fallback (sub_at sl 0) droppable owned cx scopes false) span
  | SDecl decl => SDecl (rewrite_decl decl cx)
  | Bind _ _ _ _ _ _ | Echo _ _ | Return _ _ | Break _ | Continue _ | ScopeBegin _ | ScopeEnd _
  | Drop_ _ | DropVar _ _ _ => s
  end
with rewrite_arm (a : Arm) (subs : list BlockLiveness) (droppable owned : DropSet) (cx : Cx)
    (scopes : list ScopeFrame) {struct a} : Arm * list BlockLiveness :=
  match a with
  | mkArm pattern guard body span =>
      let '(guard, subs) :=
        match guard with
        | Some (mkGuard g gspan) =>
            (Some (mkGuard (rewrite_block g (nth 0 subs (mkBL ∅ ∅ [])) droppable owned cx scopes
                              false) gspan), tail subs)
        | None => (None, subs)
        end in
      (mkArm pattern guard
         (rewrite_block body (nth 0 subs (mkBL ∅ ∅ [])) droppable owned cx scopes false) span,
       tail subs)
  end
with rewrite_rvalue (r : Rvalue) (scopes : list ScopeFrame) (cx : Cx) {struct r} : Rvalue :=
  match r with
  | Closure func span => Closure (rewrite_func func cx) span
  | Try operand _ span =>
      let on_error := map (λ nr, mkTryDrop nr.1 nr.2)
        (collect_exit_drops scopes ExitFrame (return_moved_out (Some operand))) in
      Try operand on_error span
  | other => other
  end
with rewrite_func (f : Func) (cx : Cx) {struct f} : Func :=
  match f with
  | mkFunc name captures params hidden defaults body temp_count span =>
      let live := analyze_block body ∅ in
      let child := mkCx (globals cx) (relevance cx) (enclosing cx ∪ function_locals f) in
      mkFunc name captures params hidden defaults
        (rewrite_block body live (drop_set f cx) (owned_set f cx) child [] false)
        temp_count span
  end
with rewrite_decl (d : Decl) (cx : Cx) {struct d} : Decl :=
  match d with
  | DFn name func span => DFn name (rewrite_func func cx) span
  | DClass (mkClassDef decl methods field_defaults destructor span) =>
      DClass (mkClassDef decl (map (λ m, (m.1, rewrite_func m.2 cx)) methods) field_defaults
        (match destructor with Some f => Some (rewrite_func f cx) | None => None end) span)
  | DStruct (mkStructDef decl methods field_defaults span) =>
      DStruct (mkStructDef decl (map (λ m, (m.1, rewrite_func m.2 cx)) methods) field_defaults span)
  | DEnum (mkEnumDef decl methods span) =>
      DEnum (mkEnumDef decl (map (λ m, (m.1, rewrite_func m.2 cx)) methods) span)
  | DUse _ _ _ => d
  end.

(** [insert_drops]. *)
Definition insert_drops (program : Program) (rel : option Relevance) : Program :=
  let cx := mkCx (top_level_names (top program)) rel ∅ in
  let live := pl_top (analyze program) in
  mkProgram (rewrite_block (top program) live ∅ ∅ cx [] false)
    (prog_temp_count program) (type_args program) (type_arg_reprs program)
    (type_arg_hints program) (elem_width_sites program) (prog_span program).

End Drops.
