(* ===== verification/DropsErase.v ===== *)
(** Erasure for the drop-insertion pass: [insert_drops] adds releases and
    changes nothing else. *)
From S2P Require Import Prelude Span Ir Liveness Paths LivenessFacts Drops.
From stdpp Require Import options.

Section Erase.
Context {P : Payloads}.

(** A program without its releases: [DropVar] statements removed and the
    [on_error] list of every [Try] emptied, in nested functions too. *)
Definition is_drop (s : Stmt) : bool := match s with DropVar _ _ _ => true | _ => false end.

Fixpoint erase_block (b : Block) : Block :=
  match b with
  | mkBlock stmts tail =>
      mkBlock (foldr (λ s acc, if is_drop s then acc else erase_stmt s :: acc) [] stmts) tail
  end
with erase_stmt (s : Stmt) : Stmt :=
  match s with
  | Let dst r sp => Let dst (erase_rvalue r) sp
  | Eval_ r sp => Eval_ (erase_rvalue r) sp
  | If c t e sp =>
      If c (erase_block t) (match e with Some e => Some (erase_block e) | None => None end) sp
  | While c b sp => While (erase_block c) (erase_block b) sp
  | For p i b sp st o os => For p i (erase_block b) sp st o os
  | Match sc arms d sp => Match sc (map erase_arm arms) d sp
  | Logical d o l r sp => Logical d o l (erase_block r) sp
  | Coalesce d v f sp => Coalesce d v (erase_block f) sp
  | SDecl d => SDecl (erase_decl d)
  | s => s
  end
with erase_arm (a : Arm) : Arm :=
  match a with
  | mkArm p g b sp =>
      mkArm p (match g with
               | Some (mkGuard g gs) => Some (mkGuard (erase_block g) gs)
               | None => None
               end) (erase_block b) sp
  end
with erase_rvalue (r : Rvalue) : Rvalue :=
  match r with
  | Closure f sp => Closure (erase_func f) sp
  | Try operand _ sp => Try operand [] sp
  | r => r
  end
with erase_func (f : Func) : Func :=
  match f with
  | mkFunc n c p h d b t sp => mkFunc n c p h d (erase_block b) t sp
  end
with erase_decl (d : Decl) : Decl :=
  match d with
  | DFn n f sp => DFn n (erase_func f) sp
  | DClass (mkClassDef d ms fd ds sp) =>
      DClass (mkClassDef d (map (λ m, (m.1, erase_func m.2)) ms) fd
        (match ds with Some f => Some (erase_func f) | None => None end) sp)
  | DStruct (mkStructDef d ms fd sp) =>
      DStruct (mkStructDef d (map (λ m, (m.1, erase_func m.2)) ms) fd sp)
  | DEnum (mkEnumDef d ms sp) => DEnum (mkEnumDef d (map (λ m, (m.1, erase_func m.2)) ms) sp)
  | DUse _ _ _ => d
  end.

Definition erase_stmts (l : list Stmt) : list Stmt :=
  foldr (λ s acc, if is_drop s then acc else erase_stmt s :: acc) [] l.

Definition erase_program (p : Program) : Program :=
  mkProgram (erase_block (top p)) (prog_temp_count p) (type_args p) (type_arg_reprs p)
    (type_arg_hints p) (elem_width_sites p) (prog_span p).

Lemma erase_stmts_app l1 l2 : erase_stmts (l1 ++ l2) = erase_stmts l1 ++ erase_stmts l2.
Proof.
  induction l1 as [|s l1 IH]; simpl; [done|]. rewrite IH. by destruct (is_drop s).
Qed.

Lemma erase_stmts_cons s l :
  erase_stmts (s :: l) = (if is_drop s then [] else [erase_stmt s]) ++ erase_stmts l.
Proof. simpl. by destruct (is_drop s). Qed.

Lemma erase_stmts_drops l : Forall (λ s, is_drop s = true) l → erase_stmts l = [].
Proof. induction 1 as [|s l Hs _ IH]; simpl; [done|]. by rewrite Hs. Qed.

Lemma erase_dedup l : erase_stmts (dedup_drops l) = erase_stmts l.
Proof.
  destruct l as [|s l]; [done|]. simpl. revert s.
  induction l as [|s' l IH]; intros s; simpl; [done|].
  destruct (same_drop s s') eqn:E; [|by rewrite <- IH].
  rewrite IH. destruct s; try done. by destruct s'.
Qed.

Lemma exit_drops_are_drops s scopes : Forall (λ s, is_drop s = true) (exit_drops_before s scopes).
Proof. destruct s; simpl; try done; unfold emit_exit_drops; by apply Forall_fmap, Forall_true. Qed.

Lemma last_use_are_drops s dies d : Forall (λ s, is_drop s = true) (last_use_drops s dies d).
Proof. by apply Forall_fmap, Forall_true. Qed.

Lemma scope_exit_elem b live frame owned s :
  s ∈ scope_exit_drops b live frame owned →
  ∃ n r, s = DropVar n (block_exit_span b) r ∧ n ∉ live_out live ∧ n ∉ tail_vars b ∧
    owned !! n = Some r.
Proof.
  unfold scope_exit_drops. destruct (ends_with_terminator b); [set_solver|].
  intros (nr & _ & H)%list_elem_of_omap. case_decide; [done|].
  destruct (owned !! nr.1) as [r|] eqn:E; simplify_eq/=. naive_solver.
Qed.

Lemma scope_exit_are_drops b live frame owned :
  Forall (λ s, is_drop s = true) (scope_exit_drops b live frame owned).
Proof. apply Forall_forall. by intros s (n & r & -> & _)%scope_exit_elem. Qed.

(** The annotations [analyze_block] leaves on a statement list. *)
Fixpoint annot (stmts : list Stmt) (L0 : VarSet) : list StmtLiveness :=
  match stmts with
  | [] => []
  | s :: r => (analyze_stmt s (foldr live_before L0 r)).2 :: annot r L0
  end.

Lemma bl_stmts_block stmts tail lo :
  bl_stmts (analyze_block (mkBlock stmts tail) lo) = annot stmts (live_tail tail lo).
Proof.
  simpl. change (match tail with Some _ => _ | None => _ end) with (live_tail tail lo).
  assert (∀ stmts, foldr (λ s acc, let '(live, sls) := acc in
      let '(live, sl) := analyze_stmt s live in (live, sl :: sls)) (live_tail tail lo, []) stmts
    = (foldr live_before (live_tail tail lo) stmts, annot stmts (live_tail tail lo))) as ->.
  { induction stmts0 as [|s r IH]; simpl; [done|]. rewrite IH. unfold live_before.
    by destruct (analyze_stmt s _). }
  done.
Qed.

Lemma rewrite_block_eq stmts tail live droppable owned cx scopes lb :
  rewrite_block (mkBlock stmts tail) live droppable owned cx scopes lb =
    let '(out, frame) :=
      walk_stmts (λ s sl scopes, rewrite_stmt s sl droppable owned cx scopes)
        droppable owned scopes stmts (bl_stmts live) [] (mkFrame [] ∅ (live_out live) lb) in
    finish_block (mkBlock stmts tail) live owned out frame.
Proof. done. Qed.

(** *** The rewrite is the identity up to releases *)

Definition same_rvalue (r : Rvalue) : Prop := ∀ scopes cx,
  erase_rvalue (rewrite_rvalue r scopes cx) = erase_rvalue r.
Definition same_stmt (s : Stmt) : Prop := ∀ live droppable owned cx scopes,
  let s' := rewrite_stmt s (analyze_stmt s live).2 droppable owned cx scopes in
  is_drop s' = is_drop s ∧ erase_stmt s' = erase_stmt s.
Definition same_block (b : Block) : Prop := ∀ lo droppable owned cx scopes lb,
  erase_block (rewrite_block b (analyze_block b lo) droppable owned cx scopes lb) = erase_block b.
Definition same_arm (a : Arm) : Prop := ∀ live J F subs rest droppable owned cx scopes,
  let w := rewrite_arm a ((analyze_arm a live J F subs).2 ++ rest) droppable owned cx scopes in
  erase_arm w.1 = erase_arm a ∧ w.2 = subs ++ rest.
Definition same_func (f : Func) : Prop := ∀ cx, erase_func (rewrite_func f cx) = erase_func f.
Definition same_decl (d : Decl) : Prop := ∀ cx, erase_decl (rewrite_decl d cx) = erase_decl d.

Lemma same_walk stmts L0 droppable owned cx scopes out frame :
  Forall same_stmt stmts →
  erase_stmts (walk_stmts (λ s sl scopes, rewrite_stmt s sl droppable owned cx scopes)
    droppable owned scopes stmts (annot stmts L0) out frame).1
  = erase_stmts out ++ erase_stmts stmts.
Proof.
  intros Hs. revert out frame. induction Hs as [|s stmts Hs _ IH]; intros out frame; simpl.
  - by rewrite app_nil_r.
  - rewrite IH, !erase_stmts_app, !erase_stmts_cons.
    rewrite (erase_stmts_drops (exit_drops_before _ _)) by apply exit_drops_are_drops.
    rewrite (erase_stmts_drops (last_use_drops _ _ _)) by apply last_use_are_drops.
    match goal with |- context [is_drop (rewrite_stmt s (analyze_stmt s ?L).2 _ _ _ ?sc)] =>
      destruct (Hs L droppable owned cx sc) as [-> ->] end.
    rewrite app_nil_l, app_nil_r, <- app_assoc. by destruct (is_drop s).
Qed.

Lemma same_block_intro stmts tail : Forall same_stmt stmts → same_block (mkBlock stmts tail).
Proof.
  intros Hs lo droppable owned cx scopes lb.
  rewrite rewrite_block_eq, bl_stmts_block.
  pose proof (same_walk stmts (live_tail tail lo) droppable owned cx scopes []
    (mkFrame [] ∅ (live_out (analyze_block (mkBlock stmts tail) lo)) lb) Hs) as Hw.
  destruct (walk_stmts _ _ _ _ _ _ _ _) as [out frame]. simpl in Hw.
  unfold finish_block. cbn [erase_block block_tail]. f_equal.
  change (erase_stmts (dedup_drops out ++
    scope_exit_drops (mkBlock stmts tail) (analyze_block (mkBlock stmts tail) lo) frame owned)
    = erase_stmts stmts).
  rewrite erase_stmts_app, erase_dedup, Hw.
  rewrite (erase_stmts_drops (scope_exit_drops _ _ _ _)) by apply scope_exit_are_drops.
  by rewrite app_nil_r.
Qed.

Lemma same_arm_intro p g b sp :
  (∀ gb gs, g = Some (mkGuard gb gs) → same_block gb) → same_block b → same_arm (mkArm p g b sp).
Proof.
  intros Hg Hb live J F subs rest droppable owned cx scopes. simpl.
  destruct g as [[g gs]|]; simpl; rewrite Hb; [|done].
  by rewrite (Hg _ _ eq_refl).
Qed.

Lemma same_arms arms live droppable owned cx scopes rest :
  Forall same_arm arms →
  let r := foldr (λ a acc, let '(joined, fallthrough, subs) := acc in
                 analyze_arm a live joined fallthrough subs) (∅, live, []) arms in
  let w := walk_arms (λ a subs, rewrite_arm a subs droppable owned cx scopes) arms (r.2 ++ rest) in
  map erase_arm w.1 = map erase_arm arms ∧ w.2 = rest.
Proof.
  induction 1 as [|a arms Ha _ IH]; simpl in *; [done|].
  destruct IH as [IH1 IH2]. destruct (foldr _ _ arms) as [[J F] S]. simpl in *.
  destruct (walk_arms _ arms (S ++ rest)) as [arms' rest'] eqn:Ew. simpl in *. subst rest'.
  destruct (Ha live J F S rest droppable owned cx scopes) as [Ha1 Ha2].
  destruct (rewrite_arm _ _ _ _ _ _) as [a' subs']. simpl in *. subst subs'.
  rewrite Ew. simpl. by rewrite Ha1, IH1.
Qed.

Lemma same_methods (ms : list (string * Func)) cx :
  Forall (λ m, same_func m.2) ms →
  map (λ m, (m.1, erase_func m.2)) (map (λ m, (m.1, rewrite_func m.2 cx)) ms)
  = map (λ m, (m.1, erase_func m.2)) ms.
Proof. induction 1 as [|m ms Hm _ IH]; simpl; [done|]. by rewrite Hm, IH. Qed.

Lemma methods_all (ms : list (string * Func)) (Q : Func → Prop) :
  list_all _ (prod_all string (λ _, unit) Func Q) ms → Forall (λ m, Q m.2) ms.
Proof. induction 1 as [|m [] ms _ IH]; [constructor|by constructor]. Qed.

Lemma erase_rewrite :
  (∀ r, same_rvalue r) ∧ (∀ s, same_stmt s) ∧ (∀ b, same_block b) ∧ (∀ a, same_arm a) ∧
  (∀ f, same_func f) ∧ (∀ d, same_decl d).
Proof.
  cut ((∀ r, same_rvalue r) ∧ (∀ s, same_stmt s) ∧ (∀ b, same_block b) ∧ (∀ a, same_arm a) ∧
    (∀ g, same_block (guard_block g)) ∧ (∀ f, same_func f) ∧ (∀ t : Thunk, True) ∧
    (∀ d, same_decl d) ∧ (∀ c, same_decl (DClass c)) ∧ (∀ c, same_decl (DStruct c)) ∧
    (∀ c, same_decl (DEnum c))); [tauto|].
  apply ir_mind; try (intros; by intro); try (intros; done); simpl.
  - intros f Hf sp scopes cx. simpl. by rewrite Hf.
  - intros d r Hr sp live dr ow cx scopes. simpl. by rewrite Hr.
  - intros r Hr sp live dr ow cx scopes. simpl. by rewrite Hr.
  - intros c t Ht e He sp live dr ow cx scopes. simpl.
    destruct e as [e|]; simpl; unfold sub_at; simpl; rewrite Ht; [|done].
    apply option_all_Some in He. by rewrite He.
  - intros c Hc b Hb sp live dr ow cx scopes.
    destruct (analyze_while c b sp live) as (t & -> & _). simpl. unfold sub_at. simpl.
    by rewrite Hc, Hb.
  - intros p i b Hb sp st o os live dr ow cx scopes.
    destruct (analyze_for p i b sp st o os live) as (t & -> & _). simpl. unfold sub_at. simpl.
    by rewrite Hb.
  - intros sc arms Ha d sp live dr ow cx scopes. apply list_all_Forall in Ha.
    destruct (same_arms arms live dr ow cx scopes [] Ha) as [E _]. rewrite app_nil_r in E.
    simpl. destruct (foldr _ _ arms) as [[J F] S]. simpl in *.
    destruct (walk_arms _ arms S). simpl in *. by rewrite E.
  - intros d o l r Hr sp live dr ow cx scopes. simpl. unfold sub_at. simpl. by rewrite Hr.
  - intros d v f Hf sp live dr ow cx scopes. simpl. unfold sub_at. simpl. by rewrite Hf.
  - intros d Hd live dr ow cx scopes. simpl. by rewrite Hd.
  - intros stmts Hs tail. apply same_block_intro. by apply list_all_Forall.
  - intros p g Hg b Hb sp. apply same_arm_intro; [|done].
    intros gb gs ->. by apply option_all_Some in Hg.
  - intros n c p h d _ b Hb t sp cx. simpl. by rewrite Hb.
  - intros n f Hf sp cx. simpl. by rewrite Hf.
  - intros d ms Hms fd _ ds Hds sp cx. simpl.
    rewrite same_methods by by apply methods_all.
    destruct ds; [|done]. apply option_all_Some in Hds. by rewrite Hds.
  - intros d ms Hms fd _ sp cx. simpl. by rewrite same_methods by by apply methods_all.
  - intros d ms Hms sp cx. simpl. by rewrite same_methods by by apply methods_all.
Qed.

(** *** Releases are not uses *)

Lemma collect_erase_stmts stmts out :
  Forall (λ s, ∀ out, collect_stmt_vars (erase_stmt s) out = collect_stmt_vars s out) stmts →
  foldl (λ out s, collect_stmt_vars s out) out (erase_stmts stmts) =
    foldl (λ out s, collect_stmt_vars s out) out stmts.
Proof.
  intros Hs. revert out. induction Hs as [|s stmts Hs _ IH]; intros out; simpl; [done|].
  destruct s; simpl in *; rewrite ?IH; rewrite ?Hs; done.
Qed.

Lemma collect_erase :
  (∀ r out, collect_rvalue_vars (erase_rvalue r) out = collect_rvalue_vars r out) ∧
  (∀ b out, collect_block_vars (erase_block b) out = collect_block_vars b out) ∧
  (∀ f out, collect_func_vars (erase_func f) out = collect_func_vars f out).
Proof.
  cut ((∀ r out, collect_rvalue_vars (erase_rvalue r) out = collect_rvalue_vars r out) ∧
    (∀ s out, collect_stmt_vars (erase_stmt s) out = collect_stmt_vars s out) ∧
    (∀ b out, collect_block_vars (erase_block b) out = collect_block_vars b out) ∧
    (∀ a out, collect_arm_vars (erase_arm a) out = collect_arm_vars a out) ∧
    (∀ g out, collect_block_vars (erase_block (guard_block g)) out
              = collect_block_vars (guard_block g) out) ∧
    (∀ f out, collect_func_vars (erase_func f) out = collect_func_vars f out) ∧
    (∀ t : Thunk, True) ∧
    (∀ d out, collect_stmt_vars (SDecl (erase_decl d)) out = collect_stmt_vars (SDecl d) out) ∧
    (∀ c : ClassDef, True) ∧ (∀ c : StructDef, True) ∧ (∀ c : EnumDef, True)); [tauto|].
  apply ir_mind; try done; simpl; auto.
  - intros c t Ht e He sp out. rewrite Ht. destruct e as [e|]; [|done].
    apply option_all_Some in He. by rewrite He.
  - intros c Hc b Hb sp out. by rewrite Hc, Hb.
  - intros sc arms Ha d sp out. apply list_all_Forall in Ha. revert out.
    generalize (use_atom sc) as f. induction Ha as [|a arms Ha _ IH]; intros f out; simpl; [done|].
    rewrite Ha. apply (IH (λ o, collect_arm_vars a (f o))).
  - intros stmts Hs tail out.
    change (foldr (λ s acc, if is_drop s then acc else erase_stmt s :: acc) [] stmts)
      with (erase_stmts stmts).
    rewrite collect_erase_stmts; [done|]. by apply list_all_Forall.
  - intros p g Hg b Hb sp out. rewrite Hb. destruct g as [[g gs]|]; [|done].
    apply option_all_Some in Hg. simpl in Hg. by rewrite Hg.
  - intros n c p h d _ b Hb t sp out. by rewrite Hb.
  - by intros [].
  - by intros [].
  - by intros [].
Qed.

(** A rewritten closure mentions the names the original did. *)
Lemma rewrite_func_names f cx : func_referenced_vars (rewrite_func f cx) = func_referenced_vars f.
Proof.
  unfold func_referenced_vars. destruct collect_erase as (_ & _ & H).
  rewrite <- H, (proj1 (proj2 (proj2 (proj2 (proj2 erase_rewrite))))). apply H.
Qed.

Lemma rewrite_rvalue_uses r scopes cx : rvalue_uses (rewrite_rvalue r scopes cx) = rvalue_uses r.
Proof. destruct r; try done. apply rewrite_func_names. Qed.

End Erase.
