(* ===== verification/DropsFacts.v ===== *)
(** Correctness of the drop-insertion pass of [Drops]: on every path of a
    rewritten block no slot is read after it was released. *)
From S2P Require Import Prelude Span Ir Liveness Paths LivenessFacts Drops DropsErase.
From stdpp Require Import options.

(** Every frame out to the nearest loop body keeps [X] live at its exit. *)
Fixpoint frames_cover (X : VarSet) (scopes : list ScopeFrame) : Prop :=
  match scopes with
  | [] => True
  | f :: outer => X ⊆ frame_live_out f ∧ (is_loop_body f = false → frames_cover X outer)
  end.

(** Two traces that no released set tells apart. *)
Definition trace_sim (es es' : trace) : Prop :=
  ∀ D, (safe D es ↔ safe D es') ∧ dropped D es = dropped D es'.
Definition paths_sim (p q : Paths) : Prop := ∀ es x, p es x → ∃ es', q es' x ∧ trace_sim es es'.

Lemma trace_sim_app e1 e2 f1 f2 :
  trace_sim e1 f1 → trace_sim e2 f2 → trace_sim (e1 ++ e2) (f1 ++ f2).
Proof.
  intros H1 H2 D. rewrite !safe_app, !dropped_app. destruct (H1 D) as [-> ->].
  destruct (H2 (dropped D f1)) as [-> ->]. done.
Qed.

Lemma paths_sim_refl p : paths_sim p p.
Proof. intros es x H. exists es. by repeat split. Qed.

Lemma paths_sim_trans p q r : paths_sim p q → paths_sim q r → paths_sim p r.
Proof.
  intros H1 H2 es x (es' & (es'' & Hr & H'')%H2 & H')%H1. exists es''. split; [done|].
  intros D. destruct (H' D) as [-> ->]. apply H''.
Qed.

Lemma paths_sim_seq p p' q q' :
  paths_sim p p' → paths_sim q q' → paths_sim (pseq p q) (pseq p' q').
Proof.
  intros Hp Hq es x [(e1 & e2 & -> & (f1 & H1 & S1)%Hp & (f2 & H2 & S2)%Hq)|[Hx (f & H & S)%Hp]].
  - exists (f1 ++ f2). split; [left; eauto 8|by apply trace_sim_app].
  - exists f. split; [by right|done].
Qed.

Lemma triple_sim L p q Q : paths_sim p q → triple L q Q → triple L p Q.
Proof.
  intros S H D es x HD (es' & Hq & E)%S. destruct (E D) as [-> ->]. by apply H.
Qed.

Section Facts.
Context {P : Payloads}.

Definition stmts_paths (l : list Stmt) : Paths :=
  foldr (λ s rest, pseq (stmt_paths s) rest) pskip l.

Lemma stmts_paths_app l1 l2 es x :
  stmts_paths (l1 ++ l2) es x ↔ pseq (stmts_paths l1) (stmts_paths l2) es x.
Proof.
  revert es x. induction l1 as [|s l1 IH]; intros es x; simpl.
  - by rewrite pseq_skip_l.
  - rewrite pseq_assoc. unfold pseq at 1 3. setoid_rewrite IH. done.
Qed.

Lemma triple_stmts_app L M l1 l2 Q :
  triple L (stmts_paths l1) (upto M Q) → triple M (stmts_paths l2) Q →
  triple L (stmts_paths (l1 ++ l2)) Q.
Proof.
  intros H1 H2. eapply triple_ext; [intros; symmetry; apply stmts_paths_app|].
  by eapply triple_seq.
Qed.

Lemma triple_one L s Q : triple L (stmt_paths s) Q → triple L (stmts_paths [s]) Q.
Proof.
  intros H. simpl. eapply triple_seq; [eapply triple_mono; [done| |exact H]|apply triple_skip; done].
  intros []; done.
Qed.

(** Releasing names nothing needs. *)
Lemma triple_dropvars {A} L (Q : exit → VarSet) (l : list A) (nm : A → string) (mk : A → Stmt) :
  (∀ a, stmt_paths (mk a) = pevent (EDrop (nm a))) →
  Q XNormal ⊆ L → (∀ a, a ∈ l → nm a ∉ Q XNormal) →
  triple L (stmts_paths (map mk l)) Q.
Proof.
  intros Hmk HQ Hl. apply (triple_mono (Q XNormal) _ _ Q); [done|done|]. clear HQ.
  induction l as [|a l IH]; simpl; [by apply triple_skip|].
  rewrite Hmk. eapply (triple_seq _ (Q XNormal)); [|apply IH; set_solver].
  apply triple_drop; [done|]. apply Hl. set_solver.
Qed.

(** Removing a repeated release. *)
Lemma dedup_from_sim kept l : paths_sim (stmts_paths (dedup_from kept l)) (stmts_paths (kept :: l)).
Proof.
  revert kept. induction l as [|s l IH]; intros kept; simpl; [apply paths_sim_refl|].
  destruct (same_drop kept s) eqn:E.
  - eapply paths_sim_trans; [apply IH|]. destruct kept; try done. destruct s; try done.
    simpl in E. bool_to_prop. subst. intros es x Hes. simpl in *.
    destruct Hes as [(e1 & e2 & -> & [-> _] & H)|[? [_ ->]]]; [|done].
    exists (EDrop name0 :: EDrop name0 :: e2). split.
    + left. exists [EDrop name0], (EDrop name0 :: e2). repeat split.
      left. exists [EDrop name0], e2. repeat split. done.
    + intros D. simpl. replace ({[name0]} ∪ ({[name0]} ∪ D)) with ({[name0]} ∪ D) by set_solver.
      tauto.
  - apply paths_sim_seq; [apply paths_sim_refl|apply IH].
Qed.

Lemma triple_dedup L l Q : triple L (stmts_paths l) Q → triple L (stmts_paths (dedup_drops l)) Q.
Proof.
  intros H. destruct l as [|s l]; [done|]. eapply triple_sim; [apply dedup_from_sim|done].
Qed.

(** *** Which names the early-exit drops release *)

Lemma frame_exit_drops_spec frame mo seen nr :
  nr ∈ (frame_exit_drops frame mo seen).1 →
  nr.1 ∉ mo ∧ nr.1 ∉ frame_live_out frame ∧ nr ∈ constructed frame.
Proof.
  unfold frame_exit_drops. rewrite <- (elem_of_reverse nr (constructed frame)).
  assert (∀ l ds seen, (∀ nr, nr ∈ ds → nr.1 ∉ mo ∧ nr.1 ∉ frame_live_out frame) →
    nr ∈ (foldl (exit_drop_step frame mo) (ds, seen) l).1 →
    (nr.1 ∉ mo ∧ nr.1 ∉ frame_live_out frame) ∧ (nr ∈ ds ∨ nr ∈ l)) as H.
  { intros l. induction l as [|m l IH]; intros ds sn Hds Hin; simpl in *; [auto|].
    case_decide as Hm.
    - destruct (IH _ _ Hds Hin) as [? [?|?]]; split; auto; right; set_solver.
    - apply IH in Hin as [? [Hin|?]]; [split; [done|]; set_solver..|set_solver]. }
  intros Hin. apply H in Hin; set_solver.
Qed.

Lemma exit_drops_not_moved scopes kind mo nr :
  nr ∈ collect_exit_drops scopes kind mo → nr.1 ∉ mo.
Proof.
  unfold collect_exit_drops. generalize (∅ : VarSet).
  induction scopes as [|f outer IH]; intros seen Hin; simpl in *; [set_solver|].
  destruct (frame_exit_drops f mo seen) as [ds sn] eqn:E.
  assert (nr ∈ ds → nr.1 ∉ mo) as Hds.
  { intros H. apply (frame_exit_drops_spec f mo seen nr). by rewrite E. }
  destruct kind, (is_loop_body f); rewrite ?elem_of_app in Hin; naive_solver.
Qed.

Lemma loop_drops_cover X scopes mo nr :
  frames_cover X scopes → nr ∈ collect_exit_drops scopes ExitLoop mo → nr.1 ∉ X.
Proof.
  unfold collect_exit_drops. generalize (∅ : VarSet).
  induction scopes as [|f outer IH]; intros seen Hcov Hin; simpl in *; [set_solver|].
  destruct Hcov as [HX Hcov].
  destruct (frame_exit_drops f mo seen) as [ds sn] eqn:E.
  assert (nr ∈ ds → nr.1 ∉ X) as Hds.
  { intros H HnX. apply (frame_exit_drops_spec f mo seen nr); [by rewrite E|set_solver]. }
  destruct (is_loop_body f); [auto|]. rewrite elem_of_app in Hin.
  destruct Hin as [?|Hin]; [auto|]. apply (IH sn); auto.
Qed.

(** *** Which names the last-use drops release *)

Lemma insert_sorted_elem x y l : x ∈ insert_sorted y l ↔ x = y ∨ x ∈ l.
Proof.
  induction l as [|z l IH]; simpl; [set_solver|]. destruct (String.leb y z); set_solver.
Qed.

Lemma sort_names_elem x l : x ∈ sort_names l ↔ x ∈ l.
Proof.
  induction l as [|y l IH]; simpl; [done|]. rewrite insert_sorted_elem. set_solver.
Qed.

Lemma lifo_deaths_elem n dies droppable :
  n ∈ lifo_deaths dies droppable ↔ n ∈ dies ∧ is_Some (droppable !! n).
Proof.
  unfold lifo_deaths. rewrite elem_of_reverse, sort_names_elem, list_elem_of_filter.
  rewrite elem_of_elements. tauto.
Qed.

Lemma straight_line_deaths s live n :
  is_straight_line s = true → n ∈ dies_here (analyze_stmt s live).2 → n ∉ live.
Proof. destruct s; try done; simpl; unfold deaths; set_solver. Qed.

Lemma triple_last_use s live droppable Q :
  Q XNormal = live →
  triple live (stmts_paths (last_use_drops s (dies_here (analyze_stmt s live).2) droppable)) Q.
Proof.
  intros HQ. unfold last_use_drops, last_use_names.
  destruct (is_straight_line s) eqn:E; [|apply triple_skip; set_solver].
  eapply (triple_dropvars _ _ _ (λ n, n)); [done|set_solver|].
  intros n [Hn _]%lifo_deaths_elem. rewrite HQ. by eapply straight_line_deaths.
Qed.

(** *** Soundness of the rewrite *)

(** A statement with its early-exit drops, a block and an arm. *)
Definition rw_stmt (s : Stmt) : Prop := ∀ live B C droppable owned cx scopes,
  stmt_drop_free s = true → stmt_exits_covered B C s live = true →
  (stmt_has_exit s = true → frames_cover (B ∪ C) scopes) →
  triple (live_before s live)
    (stmts_paths (exit_drops_before s scopes ++
       [rewrite_stmt s (analyze_stmt s live).2 droppable owned cx scopes])) (post live B C).
Definition rw_block (b : Block) : Prop := ∀ lo B C droppable owned cx scopes lb,
  drop_free b = true → exits_covered B C b lo = true →
  (has_exit b = true → lb = false → frames_cover (B ∪ C) scopes) →
  triple (live_in (analyze_block b lo))
    (block_paths (rewrite_block b (analyze_block b lo) droppable owned cx scopes lb))
    (post lo B C).
Definition rw_arm (a : Arm) : Prop :=
  ∀ live B C J F subs rest next droppable owned cx scopes,
  arm_drop_free a = true → arm_exits_covered B C a live = true →
  (arm_has_exit a = true → frames_cover (B ∪ C) scopes) →
  J ⊆ F → triple J next (post live B C) →
  let r := analyze_arm a live J F subs in
  let a' := rewrite_arm a (r.2 ++ rest) droppable owned cx scopes in
  r.1.1 ⊆ r.1.2 ∧ a'.2 = subs ++ rest ∧
  triple r.1.1 (arm_paths a'.1 next) (post live B C).

Lemma record_construction_frame s owned frame :
  frame_live_out (record_construction s owned frame) = frame_live_out frame ∧
  is_loop_body (record_construction s owned frame) = is_loop_body frame.
Proof. destruct s; try done. simpl. repeat case_match; done. Qed.

Lemma record_drops_frame ns frame :
  frame_live_out (foldl (λ f n, record_drop n f) frame ns) = frame_live_out frame ∧
  is_loop_body (foldl (λ f n, record_drop n f) frame ns) = is_loop_body frame.
Proof. revert frame. induction ns as [|n ns IH]; intros frame; simpl; [done|]. apply (IH (record_drop n frame)). Qed.

Lemma rw_walk stmts L0 lo lb B C droppable owned cx scopes out frame :
  Forall rw_stmt stmts → forallb stmt_drop_free stmts = true →
  backward_ok live_before (λ s live, stmt_exits_covered B C s live = true) stmts L0 →
  frame_live_out frame = lo → is_loop_body frame = lb →
  (existsb stmt_has_exit stmts = true →
     B ∪ C ⊆ lo ∧ (lb = false → frames_cover (B ∪ C) scopes)) →
  ∃ l frame',
    walk_stmts (λ s sl scopes, rewrite_stmt s sl droppable owned cx scopes)
      droppable owned scopes stmts (annot stmts L0) out frame = (out ++ l, frame') ∧
    triple (foldr live_before L0 stmts) (stmts_paths l) (upto L0 (post lo B C)).
Proof.
  intros Hs. revert out frame.
  induction Hs as [|s stmts Hs _ IH]; intros out frame Hd Hok Hlo Hlb Hex; simpl in *.
  - exists [], frame. rewrite app_nil_r. split; [done|]. by apply triple_skip.
  - bool_to_prop. destruct Hok as [Hok Hoks].
    set (fr := record_construction s owned frame).
    destruct (record_construction_frame s owned frame) as [Hlo1 Hlb1]. fold fr in Hlo1, Hlb1.
    set (L := foldr live_before L0 stmts) in *. set (sl := (analyze_stmt s L).2).
    set (it := exit_drops_before s (fr :: scopes) ++
           [rewrite_stmt s sl droppable owned cx (fr :: scopes)]).
    destruct (record_drops_frame (last_use_names s (dies_here sl) droppable) fr) as [Hlo2 Hlb2].
    destruct (IH (out ++ it ++ last_use_drops s (dies_here sl) droppable)
       (foldl (λ f n, record_drop n f) fr (last_use_names s (dies_here sl) droppable)))
      as (l & frame' & Hw & Ht);
      [done|done|congruence|congruence|intros E; apply Hex; rewrite E; apply orb_true_r|].
    exists ((it ++ last_use_drops s (dies_here sl) droppable) ++ l), frame'. split.
    + unfold it in *. rewrite <- !app_assoc in *. simpl in *. exact Hw.
    + eapply triple_stmts_app; [|exact Ht]. eapply triple_stmts_app; [|by apply triple_last_use].
      eapply triple_mono; [done| |apply (Hs L B C droppable owned cx (fr :: scopes)); [done..|]].
      * intros []; done.
      * intros E. rewrite E in Hex. destruct Hex as [HX Hsc]; [done|]. simpl.
        rewrite Hlo1, Hlb1, Hlo, Hlb. done.
Qed.

Lemma drop_name_paths n sp r : stmt_paths (DropVar n sp r) = pevent (EDrop n).
Proof. done. Qed.

(** Statements that are all releases of names outside [L]. *)
Lemma triple_release_stmts L (Q : exit → VarSet) l :
  Q XNormal ⊆ L → (∀ s, s ∈ l → ∃ n sp r, s = DropVar n sp r ∧ n ∉ Q XNormal) →
  triple L (stmts_paths l) Q.
Proof.
  intros HQ Hl. apply (triple_mono (Q XNormal) _ _ Q); [done|done|]. clear HQ.
  induction l as [|s l IH]; simpl; [by apply triple_skip|].
  destruct (Hl s) as (n & sp & r & -> & Hn); [set_solver|].
  eapply (triple_seq _ (Q XNormal)); [by apply triple_drop|apply IH; set_solver].
Qed.

Lemma live_tail_vars b n lo :
  n ∉ lo → n ∉ tail_vars b → n ∉ live_tail (block_tail b) lo.
Proof. destruct b as [stmts [[]|]]; unfold tail_vars; simpl; set_solver. Qed.

Lemma block_paths_eq l t : block_paths (mkBlock l t) = pseq (stmts_paths l) (tail_paths t).
Proof. done. Qed.

Lemma rw_block_intro stmts tail : Forall rw_stmt stmts → rw_block (mkBlock stmts tail).
Proof.
  intros Hs lo B C droppable owned cx scopes lb Hd Hcov Hsc.
  destruct (exits_covered_block _ _ _ _ _ Hcov) as [Hok Hex].
  rewrite live_in_block. 
  destruct (rw_walk stmts (live_tail tail lo) lo lb B C droppable owned cx scopes []
              (mkFrame [] ∅ lo lb)) as (l & frame & Hw & Ht); try done.
  { intros E. split; [set_solver|]. intros. by apply Hsc. }
  assert (rewrite_block (mkBlock stmts tail) (analyze_block (mkBlock stmts tail) lo)
            droppable owned cx scopes lb
          = finish_block (mkBlock stmts tail) (analyze_block (mkBlock stmts tail) lo) owned l frame)
    as ->.
  { rewrite rewrite_block_eq, bl_stmts_block, live_out_block. by rewrite Hw. }
  unfold finish_block. rewrite block_paths_eq.
  eapply triple_seq; [|apply triple_tail].
  eapply (triple_stmts_app _ (live_tail tail lo)); [apply triple_dedup|].
  - eapply triple_mono; [done| |exact Ht]. intros []; done.
  - apply triple_release_stmts; [done|]. intros s (n & r & -> & Hn & Ht' & _)%scope_exit_elem.
    eexists _, _, _. split; [done|]. rewrite live_out_block in Hn.
    by apply (live_tail_vars (mkBlock stmts tail)).
Qed.

Lemma rw_while c b sp : rw_block c → rw_block b → rw_stmt (While c b sp).
Proof.
  intros Hc Hb live B C droppable owned cx scopes Hd H Hsc.
  rewrite covered_while in H. unfold live_before. apply triple_one.
  destruct (analyze_while c b sp live) as (t & E & E'). rewrite E in H |- *.
  clear E. simpl in *. bool_to_prop.
  destruct (proj1 (proj2 exit_free_covered) c) as [Hxc Hcov]; [done|].
  eapply triple_while; [|apply Hb; done]. unfold sub_at; simpl.
  rewrite <- E' at 1. apply Hc; [done|done|congruence].
Qed.

Lemma rw_for p i b sp st o os : rw_block b → rw_stmt (For p i b sp st o os).
Proof.
  intros Hb live B C droppable owned cx scopes Hd H Hsc.
  rewrite covered_for in H. unfold live_before. apply triple_one.
  destruct (analyze_for p i b sp st o os live) as (t & E & E'). rewrite E in H |- *.
  clear E. simpl in *. apply triple_reads_then.
  eapply (triple_for _ (live_in (analyze_block b t))); [by rewrite E'|].
  rewrite live_out_block in H. by apply Hb.
Qed.

Lemma rw_arm_intro p g b sp :
  (∀ gb gs, g = Some (mkGuard gb gs) → rw_block gb) → rw_block b → rw_arm (mkArm p g b sp).
Proof.
  intros Hg Hb live B C J F subs rest next droppable owned cx scopes Hd H Hsc HJF HT.
  simpl in *. bool_to_prop. destruct g as [[g gs]|]; simpl in *.
  - destruct (proj1 (proj2 exit_free_covered) g) as [Hxg Hcov]; [done|].
    rewrite Hxg in Hsc. simpl in Hsc. split_and!; [set_solver|done|].
    apply (triple_arm p J (live_in (analyze_block b live))); [done|apply Hb; by auto|].
    eapply triple_mono; [done| |apply (Hg _ _ eq_refl (live_in (analyze_block b live) ∪ F) B C);
      [done|done|intros; congruence]].
    intros []; simpl; set_solver.
  - split_and!; [set_solver|done|].
    apply (triple_arm p J (live_in (analyze_block b live))); [done|apply Hb; by auto|done].
Qed.

Lemma rw_match sc arms d sp : Forall rw_arm arms → rw_stmt (Match sc arms d sp).
Proof.
  intros Ha live B C droppable owned cx scopes Hd H Hsc. unfold live_before.
  apply triple_one. simpl in *.
  assert (∀ rest, let r := foldr (λ a acc, let '(joined, fallthrough, subs) := acc in
                   analyze_arm a live joined fallthrough subs) (∅, live, []) arms in
    let w := walk_arms (λ a subs, rewrite_arm a subs droppable owned cx scopes) arms (r.2 ++ rest) in
    r.1.1 ⊆ r.1.2 ∧ w.2 = rest ∧
    triple r.1.1 (foldr (λ a next, arm_paths a next) (pexit XReturn) w.1) (post live B C))
    as HT.
  { intros rest. induction Ha as [|a arms Ha _ IH]; simpl in *.
    - split_and!; [set_solver|done|by apply triple_exit].
    - bool_to_prop. destruct IH as (HJF & Hrest & HT);
        [done|done|intros E; apply Hsc; rewrite E; apply orb_true_r|].
      destruct (foldr _ _ arms) as [[J F] S]. simpl in *.
      destruct (walk_arms _ arms (S ++ rest)) as [arms' rest'] eqn:Ew. simpl in *. subst rest'.
      destruct (Ha live B C J F S rest (foldr (λ a next, arm_paths a next) (pexit XReturn) arms')
          droppable owned cx scopes) as (HJF' & Hsub & HT');
        [done|done|intros E; apply Hsc; by rewrite E|exact HJF|exact HT|].
      destruct (rewrite_arm _ _ _ _ _ _) as [a' subs']. simpl in *. subst subs'.
      rewrite Ew. simpl. done. }
  specialize (HT []). cbv zeta in HT. rewrite app_nil_r in HT.
  destruct (foldr _ _ arms) as [[J F] S]. simpl in *.
  destruct (walk_arms _ arms S) as [arms' ?]. simpl in *. destruct HT as (_ & _ & HT).
  by apply triple_reads_then.
Qed.

Lemma rw_terminator s (ns : list (string * bool)) span M Q L :
  M ⊆ L → (∀ nr, nr ∈ ns → nr.1 ∉ M) → triple M (stmt_paths s) Q →
  triple L (stmts_paths (map (λ nr, DropVar nr.1 span nr.2) ns ++ [s])) Q.
Proof.
  intros HM Hns Hs. eapply (triple_stmts_app _ M); [|by apply triple_one].
  by eapply (triple_dropvars _ _ _ fst).
Qed.

Lemma moved_out_uses v : 
  return_moved_out v = match v with Some a => atom_uses a | None => ∅ end.
Proof. destruct v as [[]|]; simpl; set_solver. Qed.

Lemma rw_rvalue r live scopes cx (Q : exit → VarSet) :
  Q XNormal = live → Q XReturn = ∅ →
  triple (live ∪ rvalue_uses r) (rvalue_paths (rewrite_rvalue r scopes cx)) Q.
Proof.
  intros HQ HR. unfold rvalue_paths. rewrite rewrite_rvalue_uses. apply triple_reads_then.
  apply triple_or; [apply triple_skip; by rewrite HQ|].
  destruct r; simpl; try (apply triple_exit; rewrite HR; set_solver).
  eapply (triple_seq _ ∅); [|by apply triple_exit; rewrite HR].
  apply triple_drops; simpl; set_solver.
Qed.

Lemma rw_sound : (∀ s, rw_stmt s) ∧ (∀ b, rw_block b) ∧ (∀ a, rw_arm a).
Proof.
  apply control_ind; auto using rw_while, rw_for, rw_match, rw_arm_intro, rw_block_intro;
    intros; intros live B C droppable owned cx scopes Hd Hex Hsc;
    unfold live_before, rw_block in *.
  - apply triple_one. by apply rw_rvalue.
  - apply triple_one. by apply rw_rvalue.
  - apply triple_one. simpl. apply triple_reads_then, triple_write. set_solver.
  - apply triple_one. simpl. apply triple_reads; set_solver.
  - apply (rw_terminator _ _ _ (return_moved_out v)).
    + simpl. by rewrite moved_out_uses.
    + intros nr. apply exit_drops_not_moved.
    + rewrite moved_out_uses. eapply (triple_seq _ ∅); [|by apply triple_exit].
      destruct v; simpl; [apply triple_reads|apply triple_skip]; set_solver.
  - simpl in *. bool_to_prop. apply (rw_terminator _ _ _ B); [done| |by apply triple_exit].
    intros nr Hin HB. eapply (loop_drops_cover (B ∪ C)); [by apply Hsc|done|set_solver].
  - simpl in *. bool_to_prop. apply (rw_terminator _ _ _ C); [done| |by apply triple_exit].
    intros nr Hin HB. eapply (loop_drops_cover (B ∪ C)); [by apply Hsc|done|set_solver].
  - apply triple_one. by apply triple_skip.
  - apply triple_one. by apply triple_skip.
  - apply triple_one. simpl in *. bool_to_prop. destruct e as [e|]; simpl; unfold sub_at; simpl;
      apply triple_reads_then, triple_choice.
    + apply H; [done|done|]. intros E _. apply Hsc. by rewrite E.
    + apply H0; [done..|]. intros E _. apply Hsc. rewrite E. apply orb_true_r.
    + apply H; [done|done|]. intros E _. apply Hsc. by rewrite E.
    + by apply triple_skip.
  - apply triple_one. simpl in *. unfold sub_at; simpl. apply triple_reads_then.
    rewrite (union_comm_L _ live). apply triple_choice; [by apply triple_skip|auto].
  - apply triple_one. simpl in *. unfold sub_at; simpl. apply triple_reads_then.
    rewrite (union_comm_L _ live). apply triple_choice; [by apply triple_skip|auto].
  - apply triple_one. destruct d as [n f sp|[]|[]|[]|? ? ?]; simpl; try by apply triple_skip.
    rewrite rewrite_func_names. apply triple_reads_then, triple_write. set_solver.
  - apply triple_one. by apply triple_skip.
  - done.
Qed.

End Facts.
