(* ===== verification/DropsProps.v ===== *)
(** What drop insertion guarantees: the properties of the pass, with the loops
    whose [break] or [continue] path the analysis does not account for. *)
From S2P Require Import Prelude Span Ir Liveness Paths LivenessFacts Drops DropsErase DropsFacts.
From stdpp Require Import options.

Section Props.
Context {P : Payloads}.

(** The names a block releases in its own frame: [DropVar] statements and the
    [on_error] lists of its [Try]s, those of nested functions apart. *)
Definition released_rvalue (r : Rvalue) : list string :=
  match r with Try _ on_error _ => map td_name on_error | _ => [] end.
Fixpoint released_block (b : Block) : list string :=
  match b with mkBlock stmts _ => concat (map released_stmt stmts) end
with released_stmt (s : Stmt) : list string :=
  match s with
  | DropVar n _ _ => [n]
  | Let _ r _ | Eval_ r _ => released_rvalue r
  | If _ t e _ => released_block t ++ match e with Some e => released_block e | None => [] end
  | While c b _ => released_block c ++ released_block b
  | For _ _ b _ _ _ _ => released_block b
  | Match _ arms _ _ => concat (map released_arm arms)
  | Logical _ _ _ r _ => released_block r
  | Coalesce _ _ f _ => released_block f
  | _ => []
  end
with released_arm (a : Arm) : list string :=
  match a with
  | mkArm _ g b _ =>
      match g with Some (mkGuard g _) => released_block g | None => [] end ++ released_block b
  end.

Definition released_stmts (l : list Stmt) : list string := concat (map released_stmt l).

(** [within O l]: every name of [l] is in [O]. *)
Definition within (O : VarSet) (l : list string) : Prop := Forall (.∈ O) l.

Definition frames_within (O : VarSet) (scopes : list ScopeFrame) : Prop :=
  Forall (λ f, Forall (λ nr, nr.1 ∈ O) (constructed f)) scopes.

Lemma released_stmts_app l1 l2 : released_stmts (l1 ++ l2) = released_stmts l1 ++ released_stmts l2.
Proof. unfold released_stmts. by rewrite map_app, concat_app. Qed.

Lemma released_stmts_cons s l : released_stmts (s :: l) = released_stmt s ++ released_stmts l.
Proof. done. Qed.

Lemma within_app O l1 l2 : within O (l1 ++ l2) ↔ within O l1 ∧ within O l2.
Proof. apply Forall_app. Qed.

Lemma within_dedup O l : within O (released_stmts l) → within O (released_stmts (dedup_drops l)).
Proof.
  destruct l as [|s l]; [done|]. simpl. revert s. induction l as [|s' l IH]; intros s; simpl; [done|].
  change (within O (released_stmts (s :: s' :: l)) →
    within O (released_stmts (if same_drop s s' then dedup_from s l else s :: dedup_from s' l))).
  unfold released_stmts in *. simpl in *. rewrite !within_app. intros (H1 & H2 & H3).
  destruct (same_drop s s'); [apply IH|simpl; rewrite within_app; split; [done|apply IH]];
    by rewrite within_app.
Qed.

Lemma exit_drops_within O scopes kind mo :
  frames_within O scopes → Forall (λ nr, nr.1 ∈ O) (collect_exit_drops scopes kind mo).
Proof.
  intros H. unfold collect_exit_drops. generalize (∅ : VarSet) as seen.
  induction H as [|f outer Hf _ IH]; intros seen; simpl; [constructor|].
  destruct (frame_exit_drops f mo seen) as [ds sn] eqn:E.
  assert (Forall (λ nr, nr.1 ∈ O) ds) as Hds.
  { apply Forall_forall. intros nr Hnr. rewrite Forall_forall in Hf. apply Hf.
    apply (frame_exit_drops_spec f mo seen). by rewrite E. }
  destruct kind, (is_loop_body f); try done; apply Forall_app; auto.
Qed.

Lemma released_dropvars {A} (l : list A) (nm : A → string) (mk : A → Stmt) :
  (∀ a, released_stmt (mk a) = [nm a]) → released_stmts (map mk l) = map nm l.
Proof. intros H. unfold released_stmts. induction l; simpl; [done|]. by rewrite H, IHl. Qed.

Lemma exit_stmts_within O s scopes :
  frames_within O scopes → within O (released_stmts (exit_drops_before s scopes)).
Proof.
  intros H. destruct s; simpl; try constructor; unfold emit_exit_drops;
    rewrite (released_dropvars _ fst) by done; apply Forall_fmap, exit_drops_within, H.
Qed.

Lemma last_use_within O s dies droppable :
  dom droppable ⊆ O → within O (released_stmts (last_use_drops s dies droppable)).
Proof.
  intros H. unfold last_use_drops. rewrite (released_dropvars _ (λ n, n)) by done.
  apply Forall_fmap, Forall_forall. intros n Hn. simpl. apply H, elem_of_dom.
  unfold last_use_names in Hn. destruct (is_straight_line s); [|set_solver].
  by apply lifo_deaths_elem in Hn as [_ ?].
Qed.

Lemma scope_exit_within O b live frame owned :
  dom owned ⊆ O → within O (released_stmts (scope_exit_drops b live frame owned)).
Proof.
  intros H. apply Forall_forall. intros n Hn.
  apply list_elem_of_In, in_concat in Hn as (l & Hl & Hn). apply in_map_iff in Hl as (s & <- & Hs).
  apply list_elem_of_In, scope_exit_elem in Hs as (m & r & -> & _ & _ & E).
  destruct Hn as [<-|[]]. apply H, elem_of_dom. by eexists.
Qed.

Lemma record_construction_within O s owned frame :
  dom owned ⊆ O → Forall (λ nr, nr.1 ∈ O) (constructed frame) →
  Forall (λ nr, nr.1 ∈ O) (constructed (record_construction s owned frame)).
Proof.
  intros HO Hf. destruct s; try done. simpl. destruct (owned !! name) as [r|] eqn:E; [|done].
  case_match; [done|]. apply Forall_app; split; [done|]. constructor; [|constructor].
  apply HO, elem_of_dom. by eexists.
Qed.

Lemma record_drops_constructed ns frame :
  constructed (foldl (λ f n, record_drop n f) frame ns) = constructed frame.
Proof. revert frame. induction ns as [|n ns IH]; intros f; simpl; [done|]. by rewrite IH. Qed.

(** *** The rewrite releases owned names only *)
Section Owned.
Context (O : VarSet).

Definition own_stmt (s : Stmt) : Prop := ∀ sl droppable owned cx scopes,
  stmt_drop_free s = true → dom droppable ⊆ O → dom owned ⊆ O → frames_within O scopes →
  within O (released_stmt (rewrite_stmt s sl droppable owned cx scopes)).
Definition own_block (b : Block) : Prop := ∀ live droppable owned cx scopes lb,
  drop_free b = true → dom droppable ⊆ O → dom owned ⊆ O → frames_within O scopes →
  within O (released_block (rewrite_block b live droppable owned cx scopes lb)).
Definition own_arm (a : Arm) : Prop := ∀ subs droppable owned cx scopes,
  arm_drop_free a = true → dom droppable ⊆ O → dom owned ⊆ O → frames_within O scopes →
  within O (released_arm (rewrite_arm a subs droppable owned cx scopes).1).

Lemma own_walk stmts sls droppable owned cx scopes out frame :
  Forall own_stmt stmts → forallb stmt_drop_free stmts = true →
  dom droppable ⊆ O → dom owned ⊆ O → frames_within O (frame :: scopes) →
  within O (released_stmts out) →
  within O (released_stmts
    (walk_stmts (λ s sl scopes, rewrite_stmt s sl droppable owned cx scopes)
       droppable owned scopes stmts sls out frame).1).
Proof.
  intros Hs. revert sls out frame. induction Hs as [|s stmts Hs _ IH];
    intros [|sl sls] out frame Hd HD HO Hsc Hout; simpl in *; try done.
  bool_to_prop. inversion_clear Hsc as [|? ? Hf Hsc'].
  assert (frames_within O (record_construction s owned frame :: scopes)) as Hr.
  { constructor; [by apply record_construction_within|done]. }
  apply IH; [done..| |].
  - constructor; [|done]. rewrite record_drops_constructed. by apply record_construction_within.
  - rewrite !released_stmts_app, !within_app. split; [done|].
    split; [by apply exit_stmts_within|].
    rewrite released_stmts_cons, within_app. split; [|by apply last_use_within]. by apply Hs.
Qed.

Lemma own_rvalue r scopes cx :
  frames_within O scopes → within O (released_rvalue (rewrite_rvalue r scopes cx)).
Proof.
  intros H. destruct r; try constructor. simpl. apply Forall_fmap, Forall_fmap.
  eapply Forall_impl; [by apply exit_drops_within|]. done.
Qed.

Lemma own_arms arms subs droppable owned cx scopes :
  Forall own_arm arms → forallb arm_drop_free arms = true →
  dom droppable ⊆ O → dom owned ⊆ O → frames_within O scopes →
  within O (concat (map released_arm
    (walk_arms (λ a subs, rewrite_arm a subs droppable owned cx scopes) arms subs).1)).
Proof.
  intros Ha. revert subs. induction Ha as [|a arms Ha _ IH]; intros subs Hd HD HO Hsc; simpl in *;
    [constructor|].
  bool_to_prop. specialize (Ha subs droppable owned cx scopes).
  destruct (rewrite_arm a subs droppable owned cx scopes) as [a' subs'].
  specialize (IH subs'). destruct (walk_arms _ arms subs') as [arms' subs'']. simpl in *.
  rewrite within_app. auto.
Qed.

Lemma own_sound : (∀ s, own_stmt s) ∧ (∀ b, own_block b) ∧ (∀ a, own_arm a).
Proof.
  apply control_ind; try (intros; intro; intros; by constructor).
  - intros d r sp ? ? ? ? ? ? ? ? ?. by apply own_rvalue.
  - intros r sp ? ? ? ? ? ? ? ? ?. by apply own_rvalue.
  - intros c t e sp Ht He sl dr ow cx sc Hd HD HO Hsc. simpl in *. bool_to_prop.
    rewrite within_app. split; [by apply Ht|]. destruct e; [by apply He|constructor].
  - intros c b sp Hc Hb sl dr ow cx sc Hd HD HO Hsc. simpl in *. bool_to_prop.
    rewrite within_app. auto.
  - intros p i b sp st o os Hb sl dr ow cx sc Hd HD HO Hsc. by apply Hb.
  - intros scr arms d sp Ha sl dr ow cx sc Hd HD HO Hsc. simpl in *.
    pose proof (own_arms arms (sub sl) dr ow cx sc Ha Hd HD HO Hsc) as H.
    by destruct (walk_arms _ arms (sub sl)).
  - intros d o l r sp Hr sl dr ow cx sc Hd HD HO Hsc. by apply Hr.
  - intros d v f sp Hf sl dr ow cx sc Hd HD HO Hsc. by apply Hf.
  - intros stmts tail Hs live dr ow cx sc lb Hd HD HO Hsc. rewrite rewrite_block_eq.
    pose proof (own_walk stmts (bl_stmts live) dr ow cx sc [] (mkFrame [] ∅ (live_out live) lb) Hs
      Hd HD HO) as H.
    destruct (walk_stmts _ _ _ _ _ _ _ _) as [out frame]. simpl in *.
    change (within O (released_stmts (dedup_drops out ++
      scope_exit_drops (mkBlock stmts tail) live frame ow))).
    rewrite released_stmts_app, within_app. split; [|by apply scope_exit_within].
    apply within_dedup, H; [by constructor|constructor].
  - intros p g b sp Hg Hb subs dr ow cx sc Hd HD HO Hsc. simpl in *. bool_to_prop.
    destruct g as [[g gs]|]; simpl.
    + rewrite within_app. split; [by eapply Hg|by apply Hb].
    + by apply Hb.
Qed.
End Owned.

Lemma dom_relevance_map f cx names : dom (relevance_map f cx names) = names.
Proof.
  unfold relevance_map. apply set_eq. intros n. rewrite elem_of_dom. split.
  - intros [v Hv]. apply lookup_set_to_map in Hv as (m & Hm & [= -> _]); done.
  - intros Hn. eexists. apply lookup_set_to_map; [done|]. by exists n.
Qed.

Lemma single_assignment_owned f g e : single_assignment_locals f g e ⊆ owned_locals f g e.
Proof.
  unfold single_assignment_locals, owned_locals. intros n. rewrite !elem_of_union, !elem_of_filter.
  tauto.
Qed.

(** Collecting captures only adds to the set it is given. *)
Definition adds (f : VarSet → VarSet) : Prop := ∀ out, f out = f ∅ ∪ out.

Lemma adds_id : adds (λ out, out).
Proof. intros out. set_solver. Qed.

Lemma adds_union S : adds (λ out, out ∪ S).
Proof. intros out. set_solver. Qed.

Lemma adds_comp f g : adds f → adds g → adds (λ out, g (f out)).
Proof. intros Hf Hg out. rewrite Hg, (Hg (f ∅)), Hf. set_solver. Qed.

Lemma adds_foldl {A} (f : A → VarSet → VarSet) l :
  Forall (λ a, adds (f a)) l → adds (λ out, foldl (λ out a, f a out) out l).
Proof.
  induction 1 as [|a l Ha _ IH]; simpl; [apply adds_id|].
  by apply (adds_comp (f a) (λ out, foldl (λ out a, f a out) out l)).
Qed.

Lemma adds_func_captures f : adds (collect_func_captures f).
Proof.
  unfold collect_func_captures. apply (adds_comp (λ out, out ∪ _) (λ out, foldl _ out _)).
  - apply adds_union.
  - apply (adds_foldl (λ d out, match d with Some t => _ | None => out end)).
    apply Forall_true. intros [t|]; [apply adds_union|apply adds_id].
Qed.

Lemma adds_captured :
  (∀ s, adds (collect_captured_stmt s)) ∧ (∀ b, adds (collect_captured b)) ∧
  (∀ a, adds (collect_captured_arm a)).
Proof.
  apply control_ind; try (intros; apply adds_id); simpl; try done.
  - intros d r s. destruct r; try apply adds_id. apply adds_func_captures.
  - intros r s. destruct r; try apply adds_id. apply adds_func_captures.
  - intros c t e s Ht He. destruct e as [e|]; [|done].
    apply (adds_comp (collect_captured t)); auto.
  - intros c b s Hc Hb. by apply (adds_comp (collect_captured c)).
  - intros sc arms d s. apply (adds_foldl collect_captured_arm).
  - intros d. destruct d; simpl; try apply adds_id. apply adds_func_captures.
  - intros stmts _. apply (adds_foldl collect_captured_stmt).
  - intros p g b s Hg Hb. destruct g as [[g gs]|]; [|done].
    apply (adds_comp (collect_captured g)); eauto.
Qed.

(** ** Properties *)

(** C2. Drop insertion is sound ("never too early"): on every control-flow path
    through the body [insert_drops] gives a function, including the paths that
    leave by [return], [break], [continue] or a failing [?], no variable is read
    after its slot was released and before it was bound again.  Two decidable
    conditions on the body, both computed: it holds no release yet ([drop_free], as
    the code the pass is given), and every [break] and every [continue] stands where
    the analysis takes the names its target needs for live ([exits_covered]: for a
    [break] those live after the loop, for a [continue] those live at the loop's next
    test or element; at the statement itself and at the end of each block between it
    and the loop).  A body without [break] and [continue] always meets the second; with
    either it can fail, since the analysis lets both fall through, and then the release
    does come too early. *)
Theorem drops_never_too_early (f : Func) (cx : Cx) (es : trace) (x : exit) :
  drop_free (func_body f) = true → exits_covered ∅ ∅ (func_body f) ∅ = true →
  block_paths (func_body (rewrite_func f cx)) es x → safe ∅ es.
Proof.
  destruct f as [n c p h d b t sp]. simpl. intros Hd Hcov Hp.
  refine (proj1 (proj1 (proj2 rw_sound) b ∅ ∅ ∅ (drop_set _ cx) (owned_set _ cx) _ [] false
    Hd Hcov _ ∅ es x _ Hp)); [done|set_solver].
Qed.

(** Drop insertion changes nothing but releases: erasing every [DropVar] and
    every [on_error] list, in nested functions too, the output program is the
    input program.  In particular no statement is lost, duplicated or reordered,
    which rests on the analysis annotating exactly the statements and child
    blocks the rewrite walks. *)
Theorem insert_drops_only_adds_releases (p : Program) (rel : option Relevance) :
  erase_program (insert_drops p rel) = erase_program p.
Proof.
  unfold erase_program, insert_drops. simpl. f_equal.
  apply (proj1 (proj2 (proj2 erase_rewrite))).
Qed.

(** Only owned slots are released: every name a rewritten body releases in
    its own frame is one of [owned_locals], hence not a module global, not a
    local of an enclosing function, not bound by a pattern of the body, not
    captured by a nested function, and it is a parameter or a name the body
    binds. *)
Theorem drops_only_owned (f : Func) (cx : Cx) (n : string) :
  drop_free (func_body f) = true →
  n ∈ released_block (func_body (rewrite_func f cx)) →
  n ∉ globals cx ∧ n ∉ enclosing cx ∧
  n ∉ (count_binds_block (func_body f) (∅, ∅)).2 ∧
  n ∉ collect_captured (func_body f) ∅ ∧
  (n ∈ func_params f ∨ is_Some (bind_counts f !! n)).
Proof.
  intros Hd Hn.
  assert (n ∈ owned_locals f (globals cx) (enclosing cx)) as Ho.
  { destruct f as [nm c p h d b t sp]. simpl in *. revert n Hn. apply Forall_forall.
    apply (proj1 (proj2 (own_sound (owned_locals _ (globals cx) (enclosing cx)))));
      [done| | |constructor]; unfold drop_set, owned_set; rewrite dom_relevance_map;
      [apply single_assignment_owned|done]. }
  unfold owned_locals, eligible_params, excluded_names in Ho.
  rewrite (proj1 (proj2 adds_captured)) in Ho. rewrite elem_of_union, !elem_of_filter in Ho.
  rewrite elem_of_list_to_set, elem_of_dom in Ho. set_solver.
Qed.
End Props.

(** Building a concrete path. *)
Lemma pseq_then (p q : Paths) es1 es2 x : p es1 XNormal → q es2 x → pseq p q (es1 ++ es2) x.
Proof. intros. left. by exists es1, es2. Qed.

Lemma pseq_exits (p q : Paths) es x : x ≠ XNormal → p es x → pseq p q es x.
Proof. intros. by right. Qed.

(** ** Concrete functions *)
Module DropsExample.
#[local] Existing Instance unit_payloads.
Definition sp0 : Span := new 0 0.
Definition var (x : string) : Atom := AVar x sp0.
Definition int (z : Z) : Atom := AConst (CInt z).
Definition set_ (x : string) (a : Atom) : Stmt := Bind false x sp0 a false sp0.
Definition no_globals : Cx := mkCx ∅ None ∅.
Definition fn (params : list string) (body : Block) : Func :=
  mkFunc (Some "f") None params 0 (map (λ _, None) params) body 2 sp0.

(** [fn f(p, q) { x = p; while q { echo x }; return x }] *)
Definition reader : Func := fn ["p"; "q"] (mkBlock
  [set_ "x" (var "p");
   While (mkBlock [] (Some (var "q"))) (mkBlock [Echo (var "x") sp0] None) sp0;
   Return (Some (var "x")) sp0] None).

Example reader_rewritten : func_body (rewrite_func reader no_globals) = mkBlock
  [set_ "x" (var "p"); DropVar "p" sp0 true;
   While (mkBlock [] (Some (var "q"))) (mkBlock [Echo (var "x") sp0] None) sp0;
   Return (Some (var "x")) sp0] None.
Proof. vm_compute. reflexivity. Qed.

Lemma drops_never_too_early_witness :
  safe ∅ [EReads {["p"]}; EWrite "x"; EDrop "p"; EReads {["q"]}; EReads {["x"]}].
Proof.
  apply (drops_never_too_early reader no_globals _ XReturn);
    [vm_compute; reflexivity|vm_compute; reflexivity|].
  rewrite reader_rewritten. apply pseq_exits; [done|].
  apply (pseq_then _ _ [EReads {["p"]}; EWrite "x"]).
  { by apply (pseq_then _ _ [EReads _] [EWrite _]). }
  apply (pseq_then _ _ [EDrop "p"]); [done|].
  apply (pseq_then _ _ [EReads {["q"]}]).
  { apply loop_stop. by apply (pseq_then _ _ [] [EReads _]). }
  apply pseq_exits; [done|]. by apply (pseq_then _ _ [EReads _] []).
Defined.

Lemma drops_only_owned_witness : "p" ∉ globals no_globals.
Proof.
  apply (drops_only_owned reader no_globals "p"); [vm_compute; reflexivity|].
  rewrite reader_rewritten. simpl. set_solver.
Defined.

(** [fn f(p, q) { mut n = 0; while p { if q { n = n + 1; break } n = 5 } echo n }]:
    [n] is assigned and the loop left with [break]. *)
Definition breaker : Func := fn ["p"; "q"] (mkBlock
  [Bind true "n" sp0 (int 0) true sp0;
   While (mkBlock [] (Some (var "p")))
     (mkBlock [If (var "q")
                 (mkBlock [Let (mkTemp 0) (Binary Add (var "n") (int 1) false sp0) sp0;
                           set_ "n" (ATemp (mkTemp 0)); Break sp0] None) None sp0;
               set_ "n" (int 5)] None) sp0;
   Echo (var "n") sp0] None).
Definition breaker_path : trace :=
  [EReads ∅; EWrite "n"; EReads {["p"]}; EReads {["q"]}; EReads {["n"]}; EReads ∅; EWrite "n";
   EDrop "n"; EReads {["n"]}].

Definition breaker_out : Block := mkBlock
  [Bind true "n" sp0 (int 0) true sp0;
   While (mkBlock [] (Some (var "p")))
     (mkBlock [If (var "q")
                 (mkBlock [Let (mkTemp 0) (Binary Add (var "n") (int 1) false sp0) sp0;
                           set_ "n" (ATemp (mkTemp 0)); DropVar "n" sp0 true; Break sp0] None)
                 None sp0;
               set_ "n" (int 5)] None) sp0;
   Echo (var "n") sp0; DropVar "n" sp0 true] None.

(** The condition on exits in [drops_never_too_early] is needed: the analysis gives
    [break] the live set of the statement after the [if], not of the loop's
    exit, so a function that assigns [n] and leaves its loop by [break] has [n]
    released before the [break] although it is read after the loop. *)
Theorem break_releases_too_early :
  drop_free (func_body breaker) = true ∧ exits_covered ∅ ∅ (func_body breaker) ∅ = false ∧
  ¬ (∀ es x, block_paths (func_body (rewrite_func breaker no_globals)) es x → safe ∅ es).
Proof.
  split; [vm_compute; reflexivity|]. split; [vm_compute; reflexivity|].
  replace (func_body (rewrite_func breaker no_globals)) with breaker_out
    by (vm_compute; reflexivity).
  intros H. specialize (H (breaker_path ++ [EDrop "n"]) XNormal).
  enough (block_paths breaker_out (breaker_path ++ [EDrop "n"]) XNormal) as Hp.
  { apply H in Hp. simpl in Hp. set_solver. }
  apply (pseq_then _ _ (breaker_path ++ [EDrop "n"]) []); [|done].
  apply (pseq_then _ _ [EReads ∅; EWrite "n"]).
  { by apply (pseq_then _ _ [EReads _] [EWrite _]). }
  apply (pseq_then _ _ [EReads _; EReads _; EReads _; EReads _; EWrite _; EDrop _]).
  - apply (loop_break _ _ _ [EReads _]); [by apply (pseq_then _ _ [] [EReads _])|].
    apply pseq_exits; [done|]. apply pseq_exits; [done|].
    apply (pseq_then _ _ [EReads _]); [done|]. left. apply pseq_exits; [done|].
    apply (pseq_then _ _ [EReads _]); [by apply (pseq_then _ _ [EReads _] []); [|left]|].
    apply (pseq_then _ _ [EReads _; EWrite _]);
      [by apply (pseq_then _ _ [EReads _] [EWrite _])|].
    apply (pseq_then _ _ [EDrop _]); [done|]. by apply pseq_exits.
  - apply (pseq_then _ _ [EReads _]); [done|]. by apply (pseq_then _ _ [EDrop _] []).
Qed.

(** [fn f(p, q) { mut n = 0; while p { if q { n = 7; continue } n = 5 } echo n }]:
    the same with [continue]. *)
Definition continuer : Func := fn ["p"; "q"] (mkBlock
  [Bind true "n" sp0 (int 0) true sp0;
   While (mkBlock [] (Some (var "p")))
     (mkBlock [If (var "q") (mkBlock [set_ "n" (int 7); Continue sp0] None) None sp0;
               set_ "n" (int 5)] None) sp0;
   Echo (var "n") sp0] None).

Definition continuer_out : Block := mkBlock
  [Bind true "n" sp0 (int 0) true sp0;
   While (mkBlock [] (Some (var "p")))
     (mkBlock [If (var "q") (mkBlock [set_ "n" (int 7); DropVar "n" sp0 true; Continue sp0] None)
                 None sp0;
               set_ "n" (int 5)] None) sp0;
   Echo (var "n") sp0; DropVar "n" sp0 true] None.

(** [n] is released before the [continue], on the ground that the statement after the [if]
    assigns it; when the test then fails it is read after the loop. *)
Theorem continue_releases_too_early :
  drop_free (func_body continuer) = true ∧ exits_covered ∅ ∅ (func_body continuer) ∅ = false ∧
  func_body (rewrite_func continuer no_globals) = continuer_out ∧
  ∃ es, block_paths continuer_out es XNormal ∧ ¬ safe ∅ es.
Proof.
  split; [vm_compute; reflexivity|]. split; [vm_compute; reflexivity|].
  split; [vm_compute; reflexivity|].
  exists ([EReads ∅; EWrite "n"; EReads {["p"]}; EReads {["q"]}; EReads ∅; EWrite "n"; EDrop "n";
           EReads {["p"]}; EReads {["n"]}; EDrop "n"]).
  split; [|simpl; set_solver].
  rewrite <-(app_nil_r (_ :: _)). apply pseq_then; [|done].
  apply (pseq_then _ _ [EReads ∅; EWrite "n"]); [by apply (pseq_then _ _ [EReads _] [EWrite _])|].
  apply (pseq_then _ _ [EReads _; EReads _; EReads _; EWrite _; EDrop _; EReads _]).
  - apply (loop_iter _ _ _ [EReads _] [EReads _; EReads _; EWrite _; EDrop _] [EReads _] XNormal XContinue);
      [by apply (pseq_then _ _ [] [EReads _])| |by right|].
    + apply pseq_exits; [done|]. apply pseq_exits; [done|].
      apply (pseq_then _ _ [EReads _]); [done|]. left. apply pseq_exits; [done|].
      apply (pseq_then _ _ [EReads _; EWrite _]);
        [by apply (pseq_then _ _ [EReads _] [EWrite _])|].
      apply (pseq_then _ _ [EDrop _]); [done|]. by apply pseq_exits.
    + apply loop_stop. by apply (pseq_then _ _ [] [EReads _]).
  - apply (pseq_then _ _ [EReads _]); [done|]. by apply (pseq_then _ _ [EDrop _] []).
Qed.

(** [fn f(p, q) { mut n = 0; while p { if q { break } if n { continue } echo n } echo n }]:
    a body with both exits that meets the condition. *)
Example covered_exits :
  exits_covered ∅ ∅ (mkBlock
    [Bind true "n" sp0 (int 0) true sp0;
     While (mkBlock [] (Some (var "p")))
       (mkBlock [If (var "q") (mkBlock [Break sp0] None) None sp0;
                 If (var "n") (mkBlock [Continue sp0] None) None sp0;
                 Echo (var "n") sp0] None) sp0;
     Echo (var "n") sp0] None) ∅ = true.
Proof. vm_compute. reflexivity. Qed.

(** Drop insertion is not idempotent: where two names die at one statement,
    a second run repeats both releases, the adjacent-duplicate filter seeing
    them apart. *)
Theorem insert_drops_not_idempotent :
  let f := fn ["p"] (mkBlock [set_ "x" (int 0);
             Let (mkTemp 0) (Binary Add (var "x") (var "p") false sp0) sp0;
             Return (Some (ATemp (mkTemp 0))) sp0] None) in
  released_block (func_body (rewrite_func f no_globals)) = ["x"; "p"] ∧
  released_block (func_body (rewrite_func (rewrite_func f no_globals) no_globals))
    = ["x"; "p"; "x"; "p"].
Proof. split; vm_compute; reflexivity. Qed.
End DropsExample.
