(* ===== verification/Reuse.v ===== *)
(** The reuse-analysis pass: [crates/noeta-ir-passes/src/reuse.rs].

    [mark_self_updates] walks the statement vector by index and changes only the
    statement at the index, looking ahead at later, still unmarked ones; here it
    is a recursion that has the current statement and the rest. *)
From S2P Require Import Prelude Span Ir.
From stdpp Require Import options.

Section Reuse.
Context {P : Payloads}.

(** [collect_own_destructors_into]: classes carrying a [destruct] block. *)
Fixpoint collect_own_destructors_into (b : Block) (out : VarSet) : VarSet :=
  match b with mkBlock stmts _ => foldl (λ out s, own_destructors_stmt s out) out stmts end
with own_destructors_stmt (s : Stmt) (out : VarSet) : VarSet :=
  match s with
  | SDecl (DClass (mkClassDef decl methods _ destructor _)) =>
      foldl (λ out m, own_destructors_func m.2 out)
        (match destructor with Some _ => {[ class_decl_name decl ]} ∪ out | None => out end)
        methods
  | SDecl (DFn _ func _) => own_destructors_func func out
  | If _ t e _ =>
      let out := collect_own_destructors_into t out in
      match e with Some e => collect_own_destructors_into e out | None => out end
  | While cond body _ => collect_own_destructors_into body (collect_own_destructors_into cond out)
  | For _ _ body _ _ _ _ => collect_own_destructors_into body out
  | Match _ arms _ _ => foldl (λ out a, own_destructors_arm a out) out arms
  | Logical _ _ _ rgt _ => collect_own_destructors_into rgt out
  | Coalesce _ _ fallback _ => collect_own_destructors_into fallback out
  | _ => out
  end
with own_destructors_arm (a : Arm) (out : VarSet) : VarSet :=
  match a with
  | mkArm _ guard body _ =>
      collect_own_destructors_into body
        (match guard with Some (mkGuard g _) => collect_own_destructors_into g out | None => out end)
  end
with own_destructors_func (f : Func) (out : VarSet) : VarSet :=
  match f with mkFunc _ _ _ _ _ body _ _ => collect_own_destructors_into body out end.

(** [collect_own_destructors]. *)
Definition collect_own_destructors (b : Block) : VarSet := collect_own_destructors_into b ∅.

(** [atom_is_var]. *)
Definition atom_is_var (a : Atom) (name : string) : bool :=
  match a with AVar n _ => bool_decide (n = name) | _ => false end.

(** [REUSE_METHODS]. *)
Definition REUSE_METHODS : list string := ["set"; "remove"; "add"].

(** The candidates: the temp assigned, the receiver and, for objects, the type. *)
Definition method_self_update_candidate (s : Stmt) : option (Temp * string) :=
  match s with
  | Let dst (Method (AVar name _) method _ args _ _ _ _ _ _ _ _ _ _) _ =>
      if negb (bool_decide (method ∈ REUSE_METHODS)) then None
      else if any (λ a, atom_is_var a name) args then None
      else Some (dst, name)
  | _ => None
  end.

Definition object_self_update_candidate (s : Stmt) : option (Temp * string * string) :=
  match s with
  | Let dst (Object type_name _ _ (Some (AVar name _, _)) _ _ _) _ => Some (dst, name, type_name)
  | _ => None
  end.

Definition concat_self_append_candidate (s : Stmt) : option (Temp * string) :=
  match s with
  | Let dst (Binary Concat (AVar name _) rhs _ _) _ =>
      if atom_is_var rhs name then None else Some (dst, name)
  | _ => None
  end.

Definition object_reassign_candidate (s : Stmt) : option (Temp * string) :=
  match s with
  | Let dst (Object type_name _ _ None _ _ _) _ => Some (dst, type_name)
  | _ => None
  end.

Definition setfield_self_update_candidate (s : Stmt) : option (Temp * string) :=
  match s with
  | Let dst (SetField (AVar name _) _ _ value _ _) _ =>
      if atom_is_var value name then None else Some (dst, name)
  | _ => None
  end.

(** [bind_target], [rebinds_temp], [rebinds_temp_after_drops]. *)
Definition bind_target (s : Stmt) (dst : Temp) : option string :=
  match s with
  | Bind _ name _ (ATemp t) _ _ => if decide (t = dst) then Some name else None
  | _ => None
  end.

Definition rebinds_temp (s : Stmt) (name : string) (dst : Temp) : bool :=
  match s with
  | Bind _ bname _ (ATemp t) _ _ => bool_decide (bname = name) && bool_decide (t = dst)
  | _ => false
  end.

Fixpoint rebinds_temp_after_drops (rest : list Stmt) (name : string) (dst : Temp) : bool :=
  match rest with
  | [] => false
  | DropVar _ _ _ :: rest => rebinds_temp_after_drops rest name dst
  | s :: _ => rebinds_temp s name dst
  end.

(** [inject_object_reassign_reuse] and the token setters. *)
Definition inject_object_reassign_reuse (s : Stmt) (target : string) : Stmt :=
  match s with
  | Let dst (Object tn tns fields _ _ reflect span) sp =>
      Let dst (Object tn tns fields (Some (AVar target span, span)) true reflect span) sp
  | _ => s
  end.

Definition set_object_reuse (s : Stmt) : Stmt :=
  match s with
  | Let dst (Object tn tns fields spread _ reflect span) sp =>
      Let dst (Object tn tns fields spread true reflect span) sp
  | _ => s
  end.

Definition set_binary_reuse (s : Stmt) : Stmt :=
  match s with
  | Let dst (Binary op lhs rhs _ span) sp => Let dst (Binary op lhs rhs true span) sp
  | _ => s
  end.

Definition set_method_reuse (s : Stmt) : Stmt :=
  match s with
  | Let dst (Method r n ns args _ rf rs ta su o os pu ps span) sp =>
      Let dst (Method r n ns args true rf rs ta su o os pu ps span) sp
  | _ => s
  end.

Definition set_setfield_reuse (s : Stmt) : Stmt :=
  match s with
  | Let dst (SetField r n ns value _ span) sp => Let dst (SetField r n ns value true span) sp
  | _ => s
  end.

(** A candidate whose temp is rebound to its receiver by the next statement
    that is not a drop. *)
Definition self_update (c : option (Temp * string)) (rest : list Stmt) : bool :=
  match c with Some (dst, name) => rebinds_temp_after_drops rest name dst | None => false end.

(** The body of the loop of [mark_self_updates]; [rest] is [stmts[i+1..]], and
    the whole chain is skipped at the last statement. *)
Definition mark_one (od bound : VarSet) (s : Stmt) (rest : list Stmt) : Stmt :=
  match rest with
  | [] => s
  | next :: _ =>
      match object_self_update_candidate s with
      | Some (dst, spread_name, type_name) =>
          if bool_decide (type_name ∉ od) && rebinds_temp_after_drops rest spread_name dst
          then set_object_reuse s else s
      | None =>
          if self_update (concat_self_append_candidate s) rest then set_binary_reuse s
          else if self_update (method_self_update_candidate s) rest then set_method_reuse s
          else if self_update (setfield_self_update_candidate s) rest then set_setfield_reuse s
          else
            match object_reassign_candidate s with
            | Some (dst, type_name) =>
                if decide (type_name ∉ od) then
                  match bind_target next dst with
                  | Some target =>
                      if decide (target ∈ bound) then inject_object_reassign_reuse s target else s
                  | None => s
                  end
                else s
            | None => s
            end
      end
  end.

Definition add_bound (s : Stmt) (bound : VarSet) : VarSet :=
  match s with Bind _ name _ _ _ _ => {[ name ]} ∪ bound | _ => bound end.

(** [mark_self_updates]. *)
Fixpoint mark_self_updates (od bound : VarSet) (stmts : list Stmt) : list Stmt :=
  match stmts with
  | [] => []
  | s :: rest => mark_one od bound s rest :: mark_self_updates od (add_bound s bound) rest
  end.

(** [rewrite_block] maps its statements with the running set of bound names. *)
Definition map_running (f : Stmt → VarSet → Stmt) : list Stmt → VarSet → list Stmt :=
  fix go stmts running :=
    match stmts with
    | [] => []
    | s :: rest => f s running :: go rest (add_bound s running)
    end.

Fixpoint rewrite_block (b : Block) (od outer_bound : VarSet) : Block :=
  match b with
  | mkBlock stmts tail =>
      mkBlock (mark_self_updates od outer_bound
                 (map_running (λ s running, rewrite_stmt s od running) stmts outer_bound)) tail
  end
with rewrite_stmt (s : Stmt) (od bound : VarSet) : Stmt :=
  match s with
  | Let dst rvalue span => Let dst (rewrite_rvalue rvalue od) span
  | Eval_ rvalue span => Eval_ (rewrite_rvalue rvalue od) span
  | If cond t e span =>
      If cond (rewrite_block t od bound)
        (match e with Some e => Some (rewrite_block e od bound) | None => None end) span
  | While cond body span => While (rewrite_block cond od bound) (rewrite_block body od bound) span
  | For pattern iterable body span stream order order_slots =>
      For pattern iterable (rewrite_block body od bound) span stream order order_slots
  | Match scrutinee arms dst span =>
      Match scrutinee (map (λ a, rewrite_arm a od bound) arms) dst span
  | Logical dst op lft rgt span => Logical dst op lft (rewrite_block rgt od bound) span
  | Coalesce dst value fallback span => Coalesce dst value (rewrite_block fallback od bound) span
  | SDecl decl => SDecl (rewrite_decl decl od)
  | Bind _ _ _ _ _ _ | Echo _ _ | Return _ _ | Break _ | Continue _ | ScopeBegin _ | ScopeEnd _
  | Drop_ _ | DropVar _ _ _ => s
  end
with rewrite_arm (a : Arm) (od bound : VarSet) : Arm :=
  match a with
  | mkArm pattern guard body span =>
      mkArm pattern
        (match guard with
         | Some (mkGuard g gspan) => Some (mkGuard (rewrite_block g od bound) gspan)
         | None => None
         end) (rewrite_block body od bound) span
  end
with rewrite_rvalue (r : Rvalue) (od : VarSet) : Rvalue :=
  match r with
  | Closure func span => Closure (rewrite_func func od) span
  | other => other
  end
with rewrite_func (f : Func) (od : VarSet) : Func :=
  match f with
  | mkFunc name captures params hidden defaults body temp_count span =>
      mkFunc name captures params hidden defaults (rewrite_block body od (list_to_set params))
        temp_count span
  end
with rewrite_decl (d : Decl) (od : VarSet) : Decl :=
  match d with
  | DFn name func span => DFn name (rewrite_func func od) span
  | DClass (mkClassDef decl methods field_defaults destructor span) =>
      DClass (mkClassDef decl (map (λ m, (m.1, rewrite_func m.2 od)) methods) field_defaults
        (match destructor with Some f => Some (rewrite_func f od) | None => None end) span)
  | DStruct (mkStructDef decl methods field_defaults span) =>
      DStruct (mkStructDef decl (map (λ m, (m.1, rewrite_func m.2 od)) methods) field_defaults span)
  | DEnum (mkEnumDef decl methods span) =>
      DEnum (mkEnumDef decl (map (λ m, (m.1, rewrite_func m.2 od)) methods) span)
  | DUse _ _ _ => d
  end.

(** [thread_reuse]. *)
Definition thread_reuse (program : Program) (ambient_own_destructors : VarSet) : Program :=
  let od := collect_own_destructors (top program) ∪ ambient_own_destructors in
  mkProgram (rewrite_block (top program) od ∅)
    (prog_temp_count program) (type_args program) (type_arg_reprs program)
    (type_arg_hints program) (elem_width_sites program) (prog_span program).

End Reuse.
