(* ===== verification/ReuseFacts.v ===== *)
(** What reuse threading guarantees: tokens land only on self-updates whose
    input dies there, never on a type with its own destructor, and nothing but
    tokens and injected spreads changes. *)
From S2P Require Import Prelude Span Ir Reuse.
From stdpp Require Import options.

Section Facts.
Context {P : Payloads}.

(** The reuse token of a statement. *)
Definition reused (s : Stmt) : bool :=
  match s with
  | Let _ (Object _ _ _ _ reuse _ _) _ => reuse
  | Let _ (Binary _ _ _ reuse _) _ => reuse
  | Let _ (Method _ _ _ _ reuse _ _ _ _ _ _ _ _ _) _ => reuse
  | Let _ (SetField _ _ _ _ reuse _) _ => reuse
  | _ => false
  end.

(** The variable whose storage a token lets the operation take over, with the
    temp it assigns and the operands read after the storage is taken. *)
Definition consumed (s : Stmt) : option (Temp * string * list Atom) :=
  match s with
  | Let dst (Object _ _ _ (Some (AVar x _, _)) _ _ _) _ => Some (dst, x, [])
  | Let dst (Binary Concat (AVar x _) rhs _ _) _ => Some (dst, x, [rhs])
  | Let dst (Method (AVar x _) _ _ args _ _ _ _ _ _ _ _ _ _) _ => Some (dst, x, args)
  | Let dst (SetField (AVar x _) _ _ value _ _) _ => Some (dst, x, [value])
  | _ => None
  end.

(** The type an object construction names. *)
Definition object_type (s : Stmt) : option string :=
  match s with Let _ (Object tn _ _ _ _ _ _) _ => Some tn | _ => None end.

(** The statement after the releases binds [x] to [%dst]. *)
Definition rebound (rest : list Stmt) (x : string) (dst : Temp) : Prop :=
  ∃ drops m sp fa span rest',
    rest = drops ++ Bind m x sp (ATemp dst) fa span :: rest' ∧
    Forall (λ s, ∃ n sp r, s = DropVar n sp r) drops.

(** The names bound by a list of statements. *)
Definition binds (l : list Stmt) (bound : VarSet) : VarSet :=
  foldl (λ b s, add_bound s b) bound l.

Lemma rebinds_spec rest x dst : rebinds_temp_after_drops rest x dst = true → rebound rest x dst.
Proof.
  induction rest as [|s rest IH]; simpl; [done|].
  destruct s; simpl; try done.
  - destruct value; try done. intros H. bool_to_prop. subst.
    by eexists [], _, _, _, _, _.
  - intros (ds & m & sp' & fa & sp & rest' & -> & Hd)%IH.
    eexists (DropVar name span relevant :: ds), m, sp', fa, sp, rest'. split; [done|].
    constructor; [by eexists _, _, _|done].
Qed.

(** Everything [mark_one] does: the statement itself, or a self-update. *)
Inductive marking (od bound : VarSet) (s : Stmt) (rest : list Stmt) : Stmt → Prop :=
  | mark_none : marking od bound s rest s
  | mark_object dst x tn :
      object_self_update_candidate s = Some (dst, x, tn) → tn ∉ od →
      rebinds_temp_after_drops rest x dst = true → marking od bound s rest (set_object_reuse s)
  | mark_concat : self_update (concat_self_append_candidate s) rest = true →
      marking od bound s rest (set_binary_reuse s)
  | mark_method : self_update (method_self_update_candidate s) rest = true →
      marking od bound s rest (set_method_reuse s)
  | mark_setfield : self_update (setfield_self_update_candidate s) rest = true →
      marking od bound s rest (set_setfield_reuse s)
  | mark_inject next rest' dst tn target :
      rest = next :: rest' → object_reassign_candidate s = Some (dst, tn) → tn ∉ od →
      bind_target next dst = Some target → target ∈ bound →
      marking od bound s rest (inject_object_reassign_reuse s target).

Lemma mark_one_spec od bound s rest : marking od bound s rest (mark_one od bound s rest).
Proof.
  unfold mark_one. destruct rest as [|next rest]; [constructor|].
  destruct (object_self_update_candidate s) as [[[dst x] tn]|] eqn:E.
  { destruct (bool_decide _ && _) eqn:H; bool_to_prop; [|constructor].
    by eapply mark_object. }
  repeat case_match; try constructor; try done. by eapply mark_inject.
Qed.

Definition is_closure (r : Rvalue) : bool := match r with Closure _ _ => true | _ => false end.

Lemma rewrite_no_closure r od : is_closure r = false → rewrite_rvalue r od = r.
Proof. by destruct r. Qed.

(** A marked statement assigns the same temp with the same source position, and
    only [Let]s are marked. *)
Lemma marking_let od bound s rest s' :
  marking od bound s rest s' →
  s' = s ∨ ∃ d r r' sp, s = Let d r sp ∧ s' = Let d r' sp ∧
    is_closure r' = false.
Proof.
  destruct 1 as [|dst x tn H _ _|H|H|H|next rest' dst tn target -> H _ _ _];
    [by left|destruct s; try done..]; destruct rvalue; try done; right; by eexists _, _, _, _.
Qed.

Lemma mark_one_let od bound s rest :
  let s' := mark_one od bound s rest in
  s' = s ∨ ∃ d r r' sp, s = Let d r sp ∧ s' = Let d r' sp ∧ is_closure r' = false.
Proof. eapply marking_let, mark_one_spec. Qed.

Lemma add_bound_mark od bound s rest b : add_bound (mark_one od bound s rest) b = add_bound s b.
Proof.
  destruct (mark_one_let od bound s rest) as [->|(d & r & r' & sp & -> & -> & _)]; done.
Qed.

Lemma mark_app od bound l1 l2 :
  ∃ l1', length l1' = length l1 ∧
    mark_self_updates od bound (l1 ++ l2) = l1' ++ mark_self_updates od (binds l1 bound) l2.
Proof.
  revert bound. induction l1 as [|s l1 IH]; intros bound; simpl; [by exists []|].
  destruct (IH (add_bound s bound)) as (l1' & Hl & E).
  exists (mark_one od bound s (l1 ++ l2) :: l1'). simpl. by rewrite Hl, E.
Qed.

Lemma mark_lookup od bound stmts i s :
  stmts !! i = Some s →
  mark_self_updates od bound stmts !! i
    = Some (mark_one od (binds (take i stmts) bound) s (drop (S i) stmts)).
Proof.
  intros H. rewrite <- (take_drop_middle stmts i s H) at 1.
  destruct (mark_app od bound (take i stmts) (s :: drop (S i) stmts)) as (l1' & Hl & ->).
  apply lookup_lt_Some in H. rewrite length_take_le in Hl by lia.
  rewrite lookup_app_r, Hl by lia. by rewrite Nat.sub_diag.
Qed.

Lemma no_mention x args : any (λ a, atom_is_var a x) args = false →
  Forall (λ a, ∀ sp, a ≠ AVar x sp) args.
Proof.
  intros H. apply Forall_forall. intros a Ha sp ->.
  enough (any (λ a, atom_is_var a x) args = true) by congruence.
  apply any_exists. exists (AVar x sp). split; [done|]. by apply bool_decide_eq_true.
Qed.

(** The induction hypothesis for the methods of a type. *)
Lemma methods_forall (ms : list (string * Func)) (Q : Func → Prop) :
  list_all _ (prod_all string (λ _, unit) Func Q) ms → Forall (λ m, Q m.2) ms.
Proof. induction 1 as [|m [] ms _ IH]; [constructor|by constructor]. Qed.

(** *** Rewriting twice *)

Definition idem_stmt (od : VarSet) (s : Stmt) : Prop := ∀ bound,
  rewrite_stmt (rewrite_stmt s od bound) od bound = rewrite_stmt s od bound ∧
  add_bound (rewrite_stmt s od bound) = add_bound s.
Definition idem_block (od : VarSet) (b : Block) : Prop := ∀ bound,
  rewrite_block (rewrite_block b od bound) od bound = rewrite_block b od bound.
Definition idem_arm (od : VarSet) (a : Arm) : Prop := ∀ bound,
  rewrite_arm (rewrite_arm a od bound) od bound = rewrite_arm a od bound.
Definition idem_func (od : VarSet) (f : Func) : Prop :=
  rewrite_func (rewrite_func f od) od = rewrite_func f od.
Definition idem_decl (od : VarSet) (d : Decl) : Prop :=
  rewrite_decl (rewrite_decl d od) od = rewrite_decl d od.

(** Marking again changes nothing: a marked candidate is the candidate its mark
    made it, and the lookahead sees binds and releases only. *)
Lemma rebinds_mark od bound rest x dst :
  rebinds_temp_after_drops (mark_self_updates od bound rest) x dst
  = rebinds_temp_after_drops rest x dst.
Proof.
  revert bound. induction rest as [|s rest IH]; intros bound; simpl; [done|].
  destruct (mark_one_let od bound s rest) as [->|(d & r & r' & sp & -> & -> & _)]; [|done].
  by destruct s.
Qed.

Lemma self_update_mark od bound c rest :
  self_update c (mark_self_updates od bound rest) = self_update c rest.
Proof. destruct c as [[dst x]|]; simpl; [apply rebinds_mark|done]. Qed.

Lemma bind_target_mark od bound s rest dst :
  bind_target (mark_one od bound s rest) dst = bind_target s dst.
Proof.
  by destruct (mark_one_let od bound s rest) as [->|(d & r & r' & sp & -> & -> & _)].
Qed.

(** The outcome of [mark_one] depends on the rest through the lookahead only. *)
Lemma mark_one_ext od bound s n1 r1 n2 r2 :
  (∀ x d, rebinds_temp_after_drops (n1 :: r1) x d = rebinds_temp_after_drops (n2 :: r2) x d) →
  (∀ d, bind_target n1 d = bind_target n2 d) →
  mark_one od bound s (n1 :: r1) = mark_one od bound s (n2 :: r2).
Proof.
  intros H1 H2. unfold mark_one, self_update.
  destruct (object_self_update_candidate s) as [[[d x] tn]|]; [by rewrite H1|].
  destruct (concat_self_append_candidate s) as [[]|], (method_self_update_candidate s) as [[]|],
    (setfield_self_update_candidate s) as [[]|], (object_reassign_candidate s) as [[]|];
    by rewrite ?H1, ?H2.
Qed.

Lemma mark_one_rest od bound bound' s rest :
  mark_one od bound s (mark_self_updates od bound' rest) = mark_one od bound s rest.
Proof.
  destruct rest as [|next rest]; [done|]. apply mark_one_ext; intros.
  - apply (rebinds_mark od bound' (next :: rest)).
  - apply bind_target_mark.
Qed.

Lemma mark_one_idem od bound s rest :
  mark_one od bound (mark_one od bound s rest) rest = mark_one od bound s rest.
Proof.
  destruct rest as [|next rest]; [done|]. destruct s; try done. destruct rvalue; try done;
    unfold mark_one, self_update; generalize (rebinds_temp_after_drops (next :: rest)) as look;
    generalize (bind_target next) as target; intros target look.
  - destruct op, lhs; try done. simpl. destruct (atom_is_var rhs name) eqn:E; [simpl; by rewrite E|].
    destruct (look name dst) eqn:El; simpl; by rewrite E, ?El.
  - destruct receiver; try done. simpl. destruct (negb _) eqn:En; [simpl; by rewrite En|].
    destruct (any _ _) eqn:E; [simpl; by rewrite En, E|].
    destruct (look _ dst) eqn:El; simpl; by rewrite En, E, ?El.
  - destruct receiver; try done. simpl. destruct (atom_is_var value _) eqn:E; [simpl; by rewrite E|].
    destruct (look _ dst) eqn:El; simpl; by rewrite E, ?El.
  - destruct spread as [[[] sps]|]; try done; simpl.
    + destruct (bool_decide _ && _) eqn:E; simpl; by rewrite E.
    + destruct (decide (type_name ∉ od)) as [Hod|Hod]; simpl; [|by destruct (decide _)].
      destruct (target dst) as [t|] eqn:Et; simpl; [|by rewrite decide_True, Et].
      destruct (decide (t ∈ bound)) as [Hb|Hb]; simpl.
      * by destruct (bool_decide _ && _).
      * by rewrite decide_True, Et, decide_False.
Qed.

Lemma mark_idem od bound l :
  mark_self_updates od bound (mark_self_updates od bound l) = mark_self_updates od bound l.
Proof.
  revert bound. induction l as [|s l IH]; intros bound; simpl; [done|].
  by rewrite add_bound_mark, IH, mark_one_rest, mark_one_idem.
Qed.

(** Rewriting the statements of a marked list changes nothing. *)
Lemma map_running_mark od (f : Stmt → VarSet → Stmt) l bound running :
  (∀ d r sp b, is_closure r = false → f (Let d r sp) b = Let d r sp) →
  map_running f l running = l →
  map_running f (mark_self_updates od bound l) running = mark_self_updates od bound l.
Proof.
  intros Hf. revert bound running. induction l as [|s l IH]; intros bound running; simpl; [done|].
  intros [= Hs Hl]. rewrite add_bound_mark, IH by done. f_equal.
  destruct (mark_one_let od bound s l) as [->|(d & r & r' & sp & -> & -> & Hr)]; auto.
Qed.

Lemma map_running_idem od l bound :
  Forall (idem_stmt od) l →
  let f := λ s running, rewrite_stmt s od running in
  map_running f (map_running f l bound) bound = map_running f l bound.
Proof.
  intros H. revert bound. induction H as [|s l Hs _ IH]; intros bound; simpl; [done|].
  destruct (Hs bound) as [-> ->]. by rewrite IH.
Qed.

Lemma idem_methods od (ms : list (string * Func)) :
  Forall (λ m, idem_func od m.2) ms →
  map (λ m, (m.1, rewrite_func m.2 od)) (map (λ m, (m.1, rewrite_func m.2 od)) ms)
  = map (λ m, (m.1, rewrite_func m.2 od)) ms.
Proof.
  intros H. rewrite map_map. apply map_eq_Forall. eapply Forall_impl; [exact H|].
  intros m Hm. simpl. by rewrite Hm.
Qed.

Lemma rewrite_idem od :
  (∀ r, rewrite_rvalue (rewrite_rvalue r od) od = rewrite_rvalue r od) ∧
  (∀ s, idem_stmt od s) ∧ (∀ b, idem_block od b) ∧ (∀ a, idem_arm od a) ∧
  (∀ f, idem_func od f) ∧ (∀ d, idem_decl od d).
Proof.
  cut ((∀ r, rewrite_rvalue (rewrite_rvalue r od) od = rewrite_rvalue r od) ∧
    (∀ s, idem_stmt od s) ∧ (∀ b, idem_block od b) ∧ (∀ a, idem_arm od a) ∧
    (∀ g, idem_block od (guard_block g)) ∧ (∀ f, idem_func od f) ∧ (∀ t : Thunk, True) ∧
    (∀ d, idem_decl od d) ∧ (∀ c, idem_decl od (DClass c)) ∧ (∀ c, idem_decl od (DStruct c)) ∧
    (∀ c, idem_decl od (DEnum c))); [tauto|].
  apply ir_mind; try (intros; by intro); try (intros; done).
  - intros f Hf sp. simpl. by rewrite Hf.
  - intros d r Hr sp bound. simpl. by rewrite Hr.
  - intros r Hr sp bound. simpl. by rewrite Hr.
  - intros c t Ht e He sp bound. simpl. rewrite Ht. destruct e as [e|]; [|done].
    apply option_all_Some in He. by rewrite He.
  - intros c Hc b Hb sp bound. simpl. by rewrite Hc, Hb.
  - intros p i b Hb sp st o os bound. simpl. by rewrite Hb.
  - intros sc arms Ha d sp bound. simpl. split; [|done]. f_equal. rewrite map_map.
    apply map_eq_Forall. apply list_all_Forall in Ha. eapply Forall_impl; [exact Ha|]. auto.
  - intros d o l r Hr sp bound. simpl. by rewrite Hr.
  - intros d v f Hf sp bound. simpl. by rewrite Hf.
  - intros d Hd bound. simpl. by rewrite Hd.
  - intros stmts Hs tail bound. simpl. f_equal. apply list_all_Forall in Hs.
    rewrite map_running_mark; [apply mark_idem| |by apply map_running_idem].
    intros d r sp b Hr. simpl. by rewrite rewrite_no_closure.
  - intros p g Hg b Hb sp bound. simpl. rewrite Hb. destruct g as [[g gs]|]; [|done].
    apply option_all_Some in Hg. simpl in Hg. by rewrite Hg.
  - intros n c p h d _ b Hb t sp. unfold idem_func. simpl. by rewrite Hb.
  - intros n f Hf sp. unfold idem_decl. simpl. by rewrite Hf.
  - intros d ms Hms fd _ ds Hds sp. unfold idem_decl. simpl.
    rewrite idem_methods by by apply methods_forall.
    destruct ds; [|done]. apply option_all_Some in Hds. by rewrite Hds.
  - intros d ms Hms fd _ sp. unfold idem_decl. simpl.
    by rewrite idem_methods by by apply methods_forall.
  - intros d ms Hms sp. unfold idem_decl. simpl. by rewrite idem_methods by by apply methods_forall.
Qed.

(** *** Rewriting keeps the declarations *)

Lemma destructors_mark od bound l out :
  foldl (λ out s, own_destructors_stmt s out) out (mark_self_updates od bound l)
  = foldl (λ out s, own_destructors_stmt s out) out l.
Proof.
  revert bound out. induction l as [|s l IH]; intros bound out; simpl; [done|]. rewrite IH.
  by destruct (mark_one_let od bound s l) as [->|(d & r & r' & sp & -> & -> & _)].
Qed.

Lemma destructors_running od l bound out :
  Forall (λ s, ∀ bound out,
    own_destructors_stmt (rewrite_stmt s od bound) out = own_destructors_stmt s out) l →
  foldl (λ out s, own_destructors_stmt s out) out
    (map_running (λ s running, rewrite_stmt s od running) l bound)
  = foldl (λ out s, own_destructors_stmt s out) out l.
Proof.
  intros H. revert bound out. induction H as [|s l Hs _ IH]; intros bound out; simpl; [done|].
  by rewrite IH, Hs.
Qed.

Lemma destructors_methods od (ms : list (string * Func)) out :
  Forall (λ m, ∀ out,
    own_destructors_func (rewrite_func m.2 od) out = own_destructors_func m.2 out) ms →
  foldl (λ out m, own_destructors_func m.2 out) out (map (λ m, (m.1, rewrite_func m.2 od)) ms)
  = foldl (λ out m, own_destructors_func m.2 out) out ms.
Proof.
  intros H. revert out. induction H as [|m ms Hm _ IH]; intros out; simpl; [done|].
  by rewrite Hm, IH.
Qed.

Lemma rewrite_destructors od b bound out :
  collect_own_destructors_into (rewrite_block b od bound) out = collect_own_destructors_into b out.
Proof.
  revert b bound out.
  cut ((∀ r : Rvalue, True) ∧
    (∀ s bound out, own_destructors_stmt (rewrite_stmt s od bound) out
                    = own_destructors_stmt s out) ∧
    (∀ b bound out, collect_own_destructors_into (rewrite_block b od bound) out
                    = collect_own_destructors_into b out) ∧
    (∀ a bound out, own_destructors_arm (rewrite_arm a od bound) out = own_destructors_arm a out) ∧
    (∀ g bound out, collect_own_destructors_into (rewrite_block (guard_block g) od bound) out
                    = collect_own_destructors_into (guard_block g) out) ∧
    (∀ f out, own_destructors_func (rewrite_func f od) out = own_destructors_func f out) ∧
    (∀ t : Thunk, True) ∧
    (∀ d out, own_destructors_stmt (SDecl (rewrite_decl d od)) out
              = own_destructors_stmt (SDecl d) out) ∧
    (∀ c out, own_destructors_stmt (SDecl (rewrite_decl (DClass c) od)) out
              = own_destructors_stmt (SDecl (DClass c)) out) ∧
    (∀ c : StructDef, True) ∧ (∀ c : EnumDef, True)); [tauto|].
  apply ir_mind; try done; try (intros; simpl; by auto).
  - intros c t Ht e He sp bound out. simpl. rewrite Ht. destruct e as [e|]; [|done].
    apply option_all_Some in He. by rewrite He.
  - intros c Hc b Hb sp bound out. simpl. by rewrite Hc, Hb.
  - intros sc arms Ha d sp bound out. simpl. apply list_all_Forall in Ha. revert out.
    induction Ha as [|a arms Ha _ IH]; intros out; simpl; [done|]. by rewrite Ha, IH.
  - intros stmts Hs tail bound out. simpl. rewrite destructors_mark. apply destructors_running.
    by apply list_all_Forall.
  - intros p g Hg b Hb sp bound out. simpl. rewrite Hb. destruct g as [[g gs]|]; [|done].
    apply option_all_Some in Hg. simpl in Hg. by rewrite Hg.
  - by intros [].
  - by intros [].
  - intros d ms Hms fd _ ds Hds sp out. simpl.
    rewrite destructors_methods; [by destruct ds|].
    by apply (methods_forall ms (λ f, ∀ out,
      own_destructors_func (rewrite_func f od) out = own_destructors_func f out)).
Qed.

(** *** Every statement of a program *)

(** The statements of a block and of everything nested in it, functions and
    methods included; the statement itself first. *)
Fixpoint nested_block (b : Block) : list Stmt :=
  match b with mkBlock stmts _ => concat (map nested_stmt stmts) end
with nested_stmt (s : Stmt) : list Stmt :=
  s :: match s with
       | Let _ r _ | Eval_ r _ => nested_rvalue r
       | If _ t e _ => nested_block t ++ match e with Some e => nested_block e | None => [] end
       | While c b _ => nested_block c ++ nested_block b
       | For _ _ b _ _ _ _ => nested_block b
       | Match _ arms _ _ => concat (map nested_arm arms)
       | Logical _ _ _ r _ => nested_block r
       | Coalesce _ _ f _ => nested_block f
       | SDecl d => nested_decl d
       | _ => []
       end
with nested_arm (a : Arm) : list Stmt :=
  match a with
  | mkArm _ g b _ =>
      match g with Some (mkGuard g _) => nested_block g | None => [] end ++ nested_block b
  end
with nested_rvalue (r : Rvalue) : list Stmt :=
  match r with Closure f _ => nested_func f | _ => [] end
with nested_func (f : Func) : list Stmt :=
  match f with mkFunc _ _ _ _ _ b _ _ => nested_block b end
with nested_decl (d : Decl) : list Stmt :=
  match d with
  | DFn _ f _ => nested_func f
  | DClass (mkClassDef _ ms _ ds _) =>
      concat (map (λ m, nested_func m.2) ms) ++ match ds with Some f => nested_func f | None => [] end
  | DStruct (mkStructDef _ ms _ _) | DEnum (mkEnumDef _ ms _) =>
      concat (map (λ m, nested_func m.2) ms)
  | DUse _ _ _ => []
  end.

(** No token on an object whose type has its own destructor. *)
Definition safe_token (od : VarSet) (s : Stmt) : Prop :=
  reused s = true → ∀ tn, object_type s = Some tn → tn ∉ od.

Definition unmarked (s : Stmt) : Prop := reused s = false.

Lemma mark_one_safe od bound s rest :
  safe_token od s → safe_token od (mark_one od bound s rest).
Proof.
  intros Hs. destruct (mark_one_spec od bound s rest)
    as [|dst x tn H Htn Hr|H|H|H|next rest' dst tn target Er H Htn Hb Hin]; [done|..];
    destruct s; try done; destruct rvalue; try done; intros _ tn' [= <-]; simpl in H.
  all: by destruct spread as [[[] ?]|]; simplify_eq.
Qed.

Lemma nested_mark od bound l :
  Forall (safe_token od) (concat (map nested_stmt l)) →
  Forall (safe_token od) (concat (map nested_stmt (mark_self_updates od bound l))).
Proof.
  revert bound. induction l as [|s l IH]; intros bound; simpl; [done|].
  rewrite !Forall_app. intros [Hs Hl]. split; [|by auto].
  assert (safe_token od s) as H by (by destruct s; inversion_clear Hs).
  pose proof (mark_one_safe od bound s l H) as Hm.
  destruct (mark_one_let od bound s l) as [->|(d & r & r' & sp & -> & E & Hr)]; [done|].
  rewrite E in *. constructor; [done|]. by destruct r'.
Qed.

Lemma nested_running od l bound :
  Forall (λ s, ∀ bound, Forall unmarked (nested_stmt s) →
                 Forall (safe_token od) (nested_stmt (rewrite_stmt s od bound))) l →
  Forall unmarked (concat (map nested_stmt l)) →
  Forall (safe_token od)
    (concat (map nested_stmt (map_running (λ s running, rewrite_stmt s od running) l bound))).
Proof.
  intros H. revert bound. induction H as [|s l Hs _ IH]; intros bound; simpl; [done|].
  rewrite !Forall_app. intros [? ?]. auto.
Qed.

Lemma nested_map {A} (f : A → list Stmt) (g : A → A) od (l : list A) :
  Forall (λ a, Forall unmarked (f a) → Forall (safe_token od) (f (g a))) l →
  Forall unmarked (concat (map f l)) → Forall (safe_token od) (concat (map f (map g l))).
Proof.
  induction 1 as [|a l Ha _ IH]; simpl; [done|]. rewrite !Forall_app. intros [? ?]. auto.
Qed.

Lemma nested_safe od b bound :
  Forall unmarked (nested_block b) → Forall (safe_token od) (nested_block (rewrite_block b od bound)).
Proof.
  revert b bound.
  cut ((∀ r, Forall unmarked (nested_rvalue r) →
             Forall (safe_token od) (nested_rvalue (rewrite_rvalue r od))) ∧
    (∀ s bound, Forall unmarked (nested_stmt s) →
                Forall (safe_token od) (nested_stmt (rewrite_stmt s od bound))) ∧
    (∀ b bound, Forall unmarked (nested_block b) →
                Forall (safe_token od) (nested_block (rewrite_block b od bound))) ∧
    (∀ a bound, Forall unmarked (nested_arm a) →
                Forall (safe_token od) (nested_arm (rewrite_arm a od bound))) ∧
    (∀ g bound, Forall unmarked (nested_block (guard_block g)) →
                Forall (safe_token od) (nested_block (rewrite_block (guard_block g) od bound))) ∧
    (∀ f, Forall unmarked (nested_func f) → Forall (safe_token od) (nested_func (rewrite_func f od))) ∧
    (∀ t : Thunk, True) ∧
    (∀ d, Forall unmarked (nested_decl d) → Forall (safe_token od) (nested_decl (rewrite_decl d od))) ∧
    (∀ c, Forall unmarked (nested_decl (DClass c)) →
          Forall (safe_token od) (nested_decl (rewrite_decl (DClass c) od))) ∧
    (∀ c, Forall unmarked (nested_decl (DStruct c)) →
          Forall (safe_token od) (nested_decl (rewrite_decl (DStruct c) od))) ∧
    (∀ c, Forall unmarked (nested_decl (DEnum c)) →
          Forall (safe_token od) (nested_decl (rewrite_decl (DEnum c) od)))); [tauto|].
  apply ir_mind; try done; try (intros; simpl in *; by auto).
  all: try solve [intros; simpl in *; rewrite ?Forall_cons, ?Forall_app in *; destruct_and?;
                  split_and?; auto; by intro].
  - intros d r Hr sp bound. simpl. rewrite !Forall_cons. intros [Hu Hn].
    split; [|auto].
    unfold safe_token, unmarked in *. destruct r; simpl in *; congruence.
  - intros c t Ht e He sp bound. simpl. rewrite !Forall_cons, !Forall_app.
    intros (_ & Hn & Hne). split; [by intro|]. split; [auto|].
    destruct e; [|done]. apply option_all_Some in He. auto.
  - intros sc arms Ha d sp bound. simpl. rewrite !Forall_cons. intros [_ Hn].
    split; [by intro|]. apply (nested_map nested_arm _ od); [|done].
    apply list_all_Forall in Ha. eapply Forall_impl; [exact Ha|]. auto.
  - intros stmts Hs tail bound Hn. simpl. apply nested_mark, nested_running; [|done].
    by apply list_all_Forall.
  - intros p g Hg b Hb sp bound. simpl. rewrite !Forall_app. intros [Hn Hnb].
    split; [|auto]. destruct g as [[g gs]|]; [|done]. apply option_all_Some in Hg. by apply Hg.
  - intros d ms Hms fd _ ds Hds sp. simpl. rewrite !Forall_app. intros [Hn Hnd]. split.
    + apply (nested_map (λ m, nested_func m.2)); [apply (methods_forall ms _ Hms)|done].
    + destruct ds; [|done]. apply option_all_Some in Hds. auto.
  - intros d ms Hms fd _ sp. simpl.
    apply (nested_map (λ m, nested_func m.2)), (methods_forall ms _ Hms).
  - intros d ms Hms sp. simpl.
    apply (nested_map (λ m, nested_func m.2)), (methods_forall ms _ Hms).
Qed.

(** *** Rewriting up to tokens *)

(** A block without its tokens: every reuse flag cleared, and the variable
    spread of an object construction removed. *)
Definition forget_rvalue1 (r : Rvalue) : Rvalue :=
  match r with
  | Object tn tns fields spread _ reflect sp =>
      Object tn tns fields (match spread with Some (AVar _ _, _) => None | o => o end) false reflect sp
  | Binary op l r _ sp => Binary op l r false sp
  | Method r n ns args _ rf rs ta su o os pu ps sp =>
      Method r n ns args false rf rs ta su o os pu ps sp
  | SetField r n ns v _ sp => SetField r n ns v false sp
  | r => r
  end.
Fixpoint forget_block (b : Block) : Block :=
  match b with mkBlock stmts tail => mkBlock (map forget_stmt stmts) tail end
with forget_stmt (s : Stmt) : Stmt :=
  match s with
  | Let d r sp => Let d (forget_rvalue r) sp
  | Eval_ r sp => Eval_ (forget_rvalue r) sp
  | If c t e sp =>
      If c (forget_block t) (match e with Some e => Some (forget_block e) | None => None end) sp
  | While c b sp => While (forget_block c) (forget_block b) sp
  | For p i b sp st o os => For p i (forget_block b) sp st o os
  | Match sc arms d sp => Match sc (map forget_arm arms) d sp
  | Logical d o l r sp => Logical d o l (forget_block r) sp
  | Coalesce d v f sp => Coalesce d v (forget_block f) sp
  | SDecl d => SDecl (forget_decl d)
  | s => s
  end
with forget_arm (a : Arm) : Arm :=
  match a with
  | mkArm p g b sp =>
      mkArm p (match g with Some (mkGuard g gs) => Some (mkGuard (forget_block g) gs) | None => None end)
        (forget_block b) sp
  end
with forget_rvalue (r : Rvalue) : Rvalue :=
  match r with Closure f sp => Closure (forget_func f) sp | r => forget_rvalue1 r end
with forget_func (f : Func) : Func :=
  match f with mkFunc n c p h d b t sp => mkFunc n c p h d (forget_block b) t sp end
with forget_decl (d : Decl) : Decl :=
  match d with
  | DFn n f sp => DFn n (forget_func f) sp
  | DClass (mkClassDef d ms fd ds sp) =>
      DClass (mkClassDef d (map (λ m, (m.1, forget_func m.2)) ms) fd
        (match ds with Some f => Some (forget_func f) | None => None end) sp)
  | DStruct (mkStructDef d ms fd sp) =>
      DStruct (mkStructDef d (map (λ m, (m.1, forget_func m.2)) ms) fd sp)
  | DEnum (mkEnumDef d ms sp) => DEnum (mkEnumDef d (map (λ m, (m.1, forget_func m.2)) ms) sp)
  | DUse _ _ _ => d
  end.

Lemma forget_mark_one od bound s rest : forget_stmt (mark_one od bound s rest) = forget_stmt s.
Proof.
  destruct (mark_one_spec od bound s rest)
    as [|dst x tn H Htn Hr|H|H|H|next rest' dst tn target Er H Htn Hb Hin]; [done|..];
    destruct s; try done; destruct rvalue; try done. simpl in H. by destruct spread.
Qed.

Lemma forget_mark od bound l :
  map forget_stmt (mark_self_updates od bound l) = map forget_stmt l.
Proof.
  revert bound. induction l as [|s l IH]; intros bound; simpl; [done|].
  by rewrite forget_mark_one, IH.
Qed.

Lemma forget_running od l bound :
  Forall (λ s, ∀ bound, forget_stmt (rewrite_stmt s od bound) = forget_stmt s) l →
  map forget_stmt (map_running (λ s running, rewrite_stmt s od running) l bound)
  = map forget_stmt l.
Proof.
  intros H. revert bound. induction H as [|s l Hs _ IH]; intros bound; simpl; [done|].
  by rewrite Hs, IH.
Qed.

Lemma forget_map {A} (f g : A → A) (l : list A) :
  Forall (λ a, f (g a) = f a) l → map f (map g l) = map f l.
Proof. intros H. rewrite map_map. by apply map_eq_Forall. Qed.

Lemma forget_methods od (ms : list (string * Func)) :
  Forall (λ m, forget_func (rewrite_func m.2 od) = forget_func m.2) ms →
  map (λ m, (m.1, forget_func m.2)) (map (λ m, (m.1, rewrite_func m.2 od)) ms)
  = map (λ m, (m.1, forget_func m.2)) ms.
Proof.
  intros H. apply (forget_map (λ m, (m.1, forget_func m.2))). eapply Forall_impl; [exact H|].
  intros m E. simpl. by rewrite E.
Qed.

Lemma forget_rewrite od b bound : forget_block (rewrite_block b od bound) = forget_block b.
Proof.
  revert b bound.
  cut ((∀ r, forget_rvalue (rewrite_rvalue r od) = forget_rvalue r) ∧
    (∀ s bound, forget_stmt (rewrite_stmt s od bound) = forget_stmt s) ∧
    (∀ b bound, forget_block (rewrite_block b od bound) = forget_block b) ∧
    (∀ a bound, forget_arm (rewrite_arm a od bound) = forget_arm a) ∧
    (∀ g bound, forget_block (rewrite_block (guard_block g) od bound) = forget_block (guard_block g)) ∧
    (∀ f, forget_func (rewrite_func f od) = forget_func f) ∧ (∀ t : Thunk, True) ∧
    (∀ d, forget_decl (rewrite_decl d od) = forget_decl d) ∧
    (∀ c, forget_decl (rewrite_decl (DClass c) od) = forget_decl (DClass c)) ∧
    (∀ c, forget_decl (rewrite_decl (DStruct c) od) = forget_decl (DStruct c)) ∧
    (∀ c, forget_decl (rewrite_decl (DEnum c) od) = forget_decl (DEnum c))); [tauto|].
  apply ir_mind; try done; try (intros; simpl; by f_equal; auto).
  - intros c t Ht e He sp bound. simpl. f_equal; [auto|]. destruct e; [|done].
    apply option_all_Some in He. by rewrite He.
  - intros sc arms Ha d sp bound. simpl. f_equal. apply (forget_map forget_arm).
    apply list_all_Forall in Ha. eapply Forall_impl; [exact Ha|]. auto.
  - intros stmts Hs tail bound. simpl. f_equal. rewrite forget_mark. apply forget_running.
    by apply list_all_Forall.
  - intros p g Hg b Hb sp bound. simpl. rewrite Hb. destruct g as [[g gs]|]; [|done].
    apply option_all_Some in Hg. simpl in Hg. by rewrite Hg.
  - intros d ms Hms fd _ ds Hds sp. simpl.
    rewrite (forget_methods od ms) by apply (methods_forall ms _ Hms).
    destruct ds; [|done]. apply option_all_Some in Hds. by rewrite Hds.
  - intros d ms Hms fd _ sp. simpl. by rewrite (forget_methods od ms) by apply (methods_forall ms _ Hms).
  - intros d ms Hms sp. simpl. by rewrite (forget_methods od ms) by apply (methods_forall ms _ Hms).
Qed.
(** ** Properties *)

(** C28. Every token is justified.  Where marking a statement list sets a token
    (or injects a spread) on a statement, that statement takes over the storage
    of a variable [x] which the next statement that is not a release rebinds to
    the very temp assigned; no operand read after the storage is taken mentions
    [x]; an object's type has no destructor of its own; and [x] was either
    already the spread base or is bound before this point. *)
Theorem reuse_tokens_justified (od bound : VarSet) (stmts : list Stmt) (i : nat) (s s' : Stmt) :
  stmts !! i = Some s → mark_self_updates od bound stmts !! i = Some s' → s' ≠ s →
  ∃ dst x operands,
    reused s' = true ∧ consumed s' = Some (dst, x, operands) ∧
    rebound (drop (S i) stmts) x dst ∧
    Forall (λ a, ∀ sp, a ≠ AVar x sp) operands ∧
    (∀ tn, object_type s = Some tn → tn ∉ od) ∧
    (consumed s = consumed s' ∨ x ∈ binds (take i stmts) bound).
Proof.
  intros Hs. rewrite (mark_lookup od bound stmts i s Hs). intros [= <-] Hne.
  destruct (mark_one_spec od (binds (take i stmts) bound) s (drop (S i) stmts))
    as [|dst x tn H Htn Hr|H|H|H|next rest' dst tn target Er H Htn Hb Hin]; [done|..];
    destruct s; try done; destruct rvalue; try done; simpl in H.
  - destruct spread as [[[] ?]|]; simplify_eq. eexists _, _, _. split_and!; [done..| | | |by left];
      [by apply rebinds_spec|done|by intros ? [= <-]].
  - destruct op, lhs; try done. destruct (atom_is_var rhs name) eqn:E; [done|]. simpl in H.
    eexists _, _, _. split_and!; [done|done| | | |by left]; [by apply rebinds_spec| |by intros ? [=]].
    apply no_mention. simpl. by rewrite E.
  - destruct receiver; try done. destruct (negb _); [done|].
    destruct (any _ args) eqn:E; [done|].
    eexists _, _, _. split_and!; [done..| | | |by left].
    + by apply rebinds_spec.
    + by apply no_mention.
    + by intros ? [=].
  - destruct receiver; try done. destruct (atom_is_var value _) eqn:E; [done|]. simpl in H.
    eexists _, _, _. split_and!; [done|done| | | |by left]; [by apply rebinds_spec| |by intros ? [=]].
    apply no_mention. simpl. by rewrite E.
  - destruct spread; simplify_eq. eexists _, _, _. split_and!; [done..| |done| |by right].
    + destruct next; try done. destruct value; try done. simpl in Hb. case_decide; simplify_eq.
      rewrite Er. eexists [], _, _, _, _, _. by split.
    + by intros ? [= <-].
Qed.

(** No token ever lands on a type with a destructor of its own: in the
    threaded program, functions and methods included, no object construction of
    such a type carries a reuse token, so no [destruct] of a displaced object is
    skipped. *)
Theorem no_reuse_of_destructor_types (p : Program) (ambient : VarSet) (s : Stmt) (tn : string) :
  Forall unmarked (nested_block (top p)) →
  s ∈ nested_block (top (thread_reuse p ambient)) → object_type s = Some tn →
  tn ∈ collect_own_destructors (top p) ∪ ambient → reused s = false.
Proof.
  intros Hu Hs Ht Htn. destruct (reused s) eqn:E; [|done]. exfalso.
  pose proof (nested_safe (collect_own_destructors (top p) ∪ ambient) _ ∅ Hu) as H.
  rewrite Forall_forall in H. by apply (H s Hs E tn Ht).
Qed.

(** Threading changes tokens only: with the reuse flags cleared and variable
    spreads removed, the threaded program is the input program. *)
Theorem thread_reuse_only_tokens (p : Program) (ambient : VarSet) :
  forget_block (top (thread_reuse p ambient)) = forget_block (top p) ∧
  prog_temp_count (thread_reuse p ambient) = prog_temp_count p ∧
  collect_own_destructors (top (thread_reuse p ambient)) = collect_own_destructors (top p).
Proof.
  split; [apply forget_rewrite|]. split; [done|]. apply rewrite_destructors.
Qed.

(** Threading is idempotent: a fragment that already carries tokens is left
    as it is. *)
Theorem thread_reuse_idempotent (p : Program) (ambient : VarSet) :
  thread_reuse (thread_reuse p ambient) ambient = thread_reuse p ambient.
Proof.
  unfold thread_reuse. simpl. unfold collect_own_destructors. rewrite rewrite_destructors.
  by rewrite (proj1 (proj2 (proj2 (rewrite_idem _)))).
Qed.
End Facts.

(** ** Concrete programs *)
Module ReuseExample.
#[local] Existing Instance unit_payloads.
Definition sp0 : Span := new 0 0.
Definition var (x : string) : Atom := AVar x sp0.
Definition int (z : Z) : Atom := AConst (CInt z).
Definition t0 : Temp := mkTemp 0.
Definition set_ (x : string) (a : Atom) : Stmt := Bind false x sp0 a false sp0.
Definition obj (tn : string) (spread : option (Atom * Span)) (reuse : bool) : Stmt :=
  Let t0 (Object tn sp0 [mkFieldInit "n" sp0 (int 1)] spread reuse None sp0) sp0.

(** [x = T { n: 1 }; x = T { ...x, n: 1 }; ys = ys ~ z], with a release in
    between. *)
Definition updates : list Stmt :=
  [obj "T" None false; set_ "x" (ATemp t0);
   obj "T" (Some (var "x", sp0)) false; DropVar "z" sp0 true; set_ "x" (ATemp t0)].

Lemma reuse_tokens_justified_witness :
  mark_self_updates ∅ ∅ updates !! 2%nat = Some (obj "T" (Some (var "x", sp0)) true) ∧
  ∃ dst x operands,
    consumed (obj "T" (Some (var "x", sp0)) true) = Some (dst, x, operands) ∧
    rebound (drop 3 updates) x dst.
Proof.
  assert (mark_self_updates ∅ ∅ updates !! 2%nat = Some (obj "T" (Some (var "x", sp0)) true)) as H
    by (vm_compute; reflexivity).
  split; [exact H|].
  destruct (reuse_tokens_justified ∅ ∅ updates 2 (obj "T" (Some (var "x", sp0)) false) _ eq_refl H)
    as (dst & x & ops & _ & Hc & Hr & _); [intros E; inversion E|].
  exists dst, x, ops. split; [exact Hc|exact Hr].
Defined.

(** A class with a destructor and a function updating one. *)
Definition guarded : Program := mkProgram (mkBlock
  [SDecl (DClass (mkClassDef ("R" : ClassDecl) [] [] (Some (mkFunc None None [] 0 [] (mkBlock [] None) 0 sp0)) sp0));
   SDecl (DFn "f" (mkFunc (Some "f") None ["x"] 0 []
     (mkBlock [obj "R" (Some (var "x", sp0)) false; set_ "x" (ATemp t0);
               obj "T" None false; set_ "x" (ATemp t0)] None) 1 sp0) sp0)] None)
  1 [] [] [] [] sp0.

Lemma no_reuse_of_destructor_types_witness : reused (obj "R" (Some (var "x", sp0)) false) = false.
Proof.
  apply (no_reuse_of_destructor_types guarded ∅ _ "R").
  - repeat constructor.
  - vm_compute. repeat constructor.
  - reflexivity.
  - vm_compute. reflexivity.
Defined.

(** The literal of a reassignment gets the old value as its spread whatever
    fields it names. *)
Example reassign_injected :
  mark_self_updates ∅ {["x"]} [obj "T" None false; set_ "x" (ATemp t0)]
  = [obj "T" (Some (var "x", sp0)) true; set_ "x" (ATemp t0)].
Proof. vm_compute. reflexivity. Qed.
End ReuseExample.
