(* ===== verification/Bytecode.v ===== *)
(** The register bytecode of [crates/noeta-bytecode]: the instruction set, one
    constructor per variant of [Op] with its fields in source order, the visitor of
    jump destinations, a compiled prototype ([Chunk]), and the rules that bind the
    arguments of a call to the registers of its callee.

    [Box<[T]>] and [Vec<T>] are [list T]; an unsigned integer is an [N], [as usize] is
    [as_usize] and the narrowing casts wrap at their width. *)
From S2P Require Import Prelude Span Ir.
From stdpp Require Import options.
Open Scope N_scope.

(** Payload types of other crates that the passes over the bytecode never read. *)
Class CodePayloads := {
  code_payloads :: Payloads;
  Diagnostic : Type;
  AttrValue : Type;
}.

(** Every payload a unit: the instance closed examples run with. *)
Definition unit_code_payloads : CodePayloads :=
  {| code_payloads := unit_payloads; Diagnostic := unit; AttrValue := unit |}.

(** The casts [x as usize], [x as u16] and [x as u32]. *)
Definition as_usize (x : N) : nat := N.to_nat x.
Definition as_u16 (x : nat) : N := N.of_nat x mod 2 ^ 16.
Definition as_u32 (x : nat) : N := N.of_nat x mod 2 ^ 32.

(** [type Reg = u16], [type JumpPc = u32], [NameId(pub u32)], [GlobalId(pub u32)]. *)
Abbreviation Reg := N (only parsing).
Abbreviation JumpPc := N (only parsing).
Record NameId := mkNameId { name_id : N }.
Record GlobalId := mkGlobalId { global_id : N }.
#[export] Instance GlobalId_eq_dec : EqDecision GlobalId.
Proof. solve_decision. Defined.

Inductive BoolSide := Left | Right.
Inductive ReuseCheck := Runtime | Static.
Inductive HintDoor := Display | Order | Json.

(** [CaptureFrom]. *)
Module CaptureFrom.
Inductive capture := Local (r : Reg) | Upvalue (index : N).
End CaptureFrom.

(** [Builtin] and its names. *)
Module Builtin.
Inductive builtin := Len | Map | Filter | Sum | Assert | MakeOk | MakeErr | MakeSome | Panic.

#[export] Instance builtin_eq_dec : EqDecision builtin.
Proof. solve_decision. Defined.

Definition name (b : builtin) : string :=
  match b with
  | Len => "len" | Map => "map" | Filter => "filter" | Sum => "sum" | Assert => "assert"
  | MakeOk => "Ok" | MakeErr => "Err" | MakeSome => "some" | Panic => "panic"
  end.

Definition from_name (n : string) : option builtin :=
  if decide (n = "len") then Some Len
  else if decide (n = "map") then Some Map
  else if decide (n = "filter") then Some Filter
  else if decide (n = "sum") then Some Sum
  else if decide (n = "assert") then Some Assert
  else if decide (n = "Ok") then Some MakeOk
  else if decide (n = "Err") then Some MakeErr
  else if decide (n = "some") then Some MakeSome
  else if decide (n = "panic") then Some Panic
  else None.
End Builtin.

(** [StrPart]. *)
Module StrPart.
Inductive part := Literal (k : N) | Hole (r : Reg).
End StrPart.

(** [SuppliedMask = Option<NonZeroU64>]: a non-zero word is a [positive]. *)
Definition SuppliedMask : Type := option positive.

(** [pack_supplied]: [None] is the failed [debug_assert]. *)
Definition pack_supplied (mask : option N) : option SuppliedMask :=
  match mask with
  | Some 0 => None
  | Some (N.pos p) => Some (Some p)
  | None => Some None
  end.

Definition supplied_of (mask : SuppliedMask) : option N := N.pos <$> mask.

(** [TypeArgs(Option<Box<TypeArgSlots>>)]: an empty list is the null pointer. *)
Module TypeArgs.
Record type_args := mkTypeArgs { slots : option (list Reg) }.
Definition NONE : type_args := mkTypeArgs None.
Definition new (regs : list Reg) : type_args :=
  match regs with [] => NONE | _ => mkTypeArgs (Some regs) end.
Definition regs (t : type_args) : list Reg := default [] (slots t).
(** [for r in t.regs_mut().iter_mut() { m(r) }]. *)
Definition regs_mut (m : Reg → option Reg) (t : type_args) : option type_args :=
  match slots t with
  | Some rs => rs ← mapM m rs; Some (mkTypeArgs (Some rs))
  | None => Some t
  end.
Definition is_empty (t : type_args) : bool := bool_decide (slots t = None).
Definition len (t : type_args) : nat := length (regs t).
End TypeArgs.

(** [Const], [NarrowTarget], [HintOperand]: they carry payloads. *)
Module Const.
Section Const.
Context {P : CodePayloads}.
Inductive const :=
  | Unit | Bool (b : bool) | Int (i : Z) | Float (f : F64) | F32 (f : F32) | Str (s : string)
  | NativeModule (module : string)
  | ModuleFn (module func : string)
  | MethodHandle (ty method : string) (associated : bool).
End Const.
End Const.

Module NarrowTarget.
Section NarrowTarget.
Context {P : CodePayloads}.
Inductive target :=
  | Int | Float | F32 | Bool | String | Bytes | Unit | List | Map | Set_ | Tuple | Fn | Dyn
  | Named (name : string)
  | DynTrait (name : string)
  | AnyOf (targets : list target)
  | AnyEnum | AnyStruct | AnyClass
  | Generic (head : target) (args : list TypeRepr).
End NarrowTarget.
End NarrowTarget.

Section HintOperand.
Context {P : CodePayloads}.

Record HintOperand := mkHintOperand { ho_hint : RenderHint; ho_slots : list Reg }.

(** [HintOperand::plain]. *)
Definition plain (hint : RenderHint) : HintOperand := mkHintOperand hint [].
End HintOperand.

(** [Op]. *)
Module Op.
Section Op.
Context {P : CodePayloads}.
Inductive op :=
  | LoadConst (dst : Reg) (k : N)
  | Move (dst src : Reg)
  | LoadGlobal (dst : Reg) (global : GlobalId) (span : Span)
  | StoreGlobal (global : GlobalId) (src : Reg)
  | TakeGlobal (dst : Reg) (global : GlobalId) (span : Span)
  | Drop (reg : Reg) (relevant : bool)
  | ConcatInPlace (dst lhs rhs : Reg) (span : Span)
  | MakeClosure (dst : Reg) (proto : N) (captures : list CaptureFrom.capture)
  | MakeCell (dst src : Reg)
  | CellGet (dst cell : Reg)
  | CellSet (cell src : Reg)
  | UpvalueGet (dst : Reg) (index : N)
  | UpvalueSet (index : N) (src : Reg)
  | LoadNativeFn (dst : Reg) (func : Builtin.builtin)
  | BindMethod (dst recv : Reg) (method : NameId)
  | MakeList (dst : Reg) (items : list Reg) (reflect : option N)
  | PackedListNew (dst : Reg) (schema : N)
  | PackedListPush (dst lst value : Reg) (span : Span)
  | MakeTuple (dst : Reg) (items : list Reg)
  | TupleIndex (dst receiver : Reg) (index : N) (span : Span)
  | MakeRange (dst start end_ : Reg) (inclusive : bool) (span : Span)
  | MakeMap (dst : Reg) (entries : list (Reg * Reg)) (reflect : option N)
  | RequireMapKey (reg : Reg) (span : Span)
  | IterSnapshot (dst src : Reg) (span : Span)
  | ListLen (dst src : Reg) (span : Span)
  | ListGet (dst lst index : Reg)
  | IterForNext (iter elem has : Reg) (span : Span)
  | CallBuiltin (dst : Reg) (builtin : Builtin.builtin) (args : list Reg) (span : Span)
  | CallMethod (dst recv : Reg) (method : NameId) (args : list Reg) (type_args : TypeArgs.type_args)
      (span : Span) (cache : N) (reuse consume_key : bool) (supplied : SuppliedMask)
  | Index (dst recv index : Reg) (span : Span)
  | IndexField (dst recv index : Reg) (field : NameId) (span : Span)
  | MakeStruct (dst : Reg) (shape : N) (named : list (N * Reg)) (spread : option Reg)
      (reflect : option N) (span : Span)
  | MakeStructInPlace (dst : Reg) (shape : N) (named : list (N * Reg)) (base : Reg)
      (check : ReuseCheck) (reflect : option N) (span : Span)
  | MakeOpaque (dst : Reg) (type_name : NameId) (keys : list (NameId * Reg))
      (spread : option Reg)
  | MakeEnum (dst : Reg) (shape : N) (args : list Reg) (reflect : option N)
  | EnumFromStr (dst arg : Reg) (enum_name : NameId) (cases : list
      (NameId * option AttrValue * N)) (some_shape none_shape : N) (panic : bool)
      (span : Span)
  | LoadField (dst obj : Reg) (field : NameId) (span : Span) (cache : N)
  | SetField (dst obj : Reg) (field : NameId) (value : Reg) (reuse : bool) (span : Span)
  | Panic (msg : Reg) (span : Span)
  | TryUnwrap (dst src : Reg) (on_error : list (Reg * bool)) (span : Span)
  | Coalesce (dst src : Reg) (fallback : JumpPc) (span : Span)
  | Narrow (dst src : Reg) (target : NarrowTarget.target) (dynamic : option Reg)
      (some_shape none_shape : N)
  | IsType (dst src : Reg) (target : NarrowTarget.target) (dynamic : option Reg)
  | MakeGen (dst src : Reg)
  | MakeFuture (dst src : Reg)
  | RunFuture (dst src : Reg) (span : Span)
  | PollFuture (dst src : Reg) (span : Span)
  | LoadPending (dst : Reg)
  | ScopeBegin
  | ScopeBeginValue (dst : Reg) (span : Span)
  | ScopeReady (dst src : Reg) (span : Span)
  | Spawn (dst src : Reg) (span : Span)
  | SpawnIsolate (dst callee : Reg) (args : list Reg) (span : Span)
  | ScopeEnd (span : Span)
  | ScopeEndAt (src : Reg) (span : Span)
  | MakeChannel (dst capacity : Reg) (span : Span)
  | AttributesOf (dst src : Reg)
  | RolesOf (dst : Reg) (src : option Reg)
  | ParamsOf (dst src : Reg)
  | ReturnsOf (dst src : Reg)
  | FieldSpecsOf (dst src : Reg)
  | VariantsOf (dst src : Reg)
  | Construct (dst name fields : Reg) (ok_shape err_shape : N) (span : Span)
  | Retag (reg : Reg) (repr : N)
  | RetagDynamic (reg slot : Reg)
  | TypeOf (dst src : Reg)
  | TypeArgName (dst src : Reg) (index : N) (names : string * string) (span : Span)
  | SelfRenderSlot (dst src : Reg) (index : N)
  | ComposeTypeArg (dst : Reg) (slots : list Reg) (cases : list HintCase)
  | TypeSlotName (dst src : Reg) (span : Span)
  | FieldsOf (dst src : Reg) (private_fields : bool)
  | TraitsOf (dst src : Reg)
  | FromBytes (dst src : Reg) (schema : N) (validate : bool) (span : Span)
  | TypeOfStatic (dst : Reg) (repr : TypeRepr)
  | TypeValue (dst : Reg) (name : NameId)
  | Invoke (dst : Reg) (recv : option Reg) (name args : Reg) (ok_shape err_shape : N)
      (span : Span)
  | TypedModuleCall (dst : Reg) (module func : NameId) (args : list Reg)
      (recipe : option TypeRecipe) (dynamic : option Reg) (span : Span)
  | TypedMethodCall (dst recv : Reg) (method : NameId) (args : list Reg)
      (recipe : option TypeRecipe) (dynamic : option Reg) (span : Span)
  | DecodeTyped (dst name text : Reg) (ok_shape err_shape : N) (span : Span)
  | TraitMethod (dst recv : Reg) (trait_name method : NameId) (args : list Reg)
      (span : Span)
  | MatchInt (src : Reg) (value : Z) (fail : JumpPc)
  | MatchStr (src : Reg) (value : NameId) (fail : JumpPc)
  | MatchBool (src : Reg) (value : bool) (fail : JumpPc)
  | MatchVariant (src : Reg) (type_name : option NameId) (variant : NameId) (arity : N)
      (fail : JumpPc)
  | MatchTuple (src : Reg) (arity : N) (fail : JumpPc)
  | ExtractField (dst src : Reg) (index : N)
  | MatchFail (src : Reg) (span : Span)
  | Call (dst callee : Reg) (args : list Reg) (type_args : TypeArgs.type_args) (span : Span)
      (supplied : SuppliedMask)
  | CallGlobal (dst : Reg) (global : GlobalId) (args : list Reg) (type_args : TypeArgs.type_args)
      (span : Span) (supplied : SuppliedMask)
  | Return (src : Reg)
  | Unary (op : UnaryOp) (dst src : Reg) (span : Span)
  | MaskWidth (dst src : Reg) (signed : bool) (bits : N)
  | WideInt (op : BinaryOp) (dst a b : Reg) (signed : bool) (bits : N) (span : Span)
  | WidthIntMethod (dst recv : Reg) (method : IntMethod) (arg : option Reg) (bits : N)
      (span : Span)
  | Binary (op : BinaryOp) (dst a b : Reg) (span : Span)
  | RequireBool (reg : Reg) (side : BoolSide) (op : BinaryOp) (span : Span)
  | RequireCondBool (reg : Reg) (span : Span)
  | Jump (target : JumpPc)
  | JumpIfTrue (reg : Reg) (target : JumpPc)
  | JumpIfFalse (reg : Reg) (target : JumpPc)
  | CondBranch (reg : Reg) (target : JumpPc) (span : Span)
  | Echo (reg : Reg)
  | Stringify (dst src : Reg) (span : Span) (hint : option HintOperand)
  | JsonStringify (dst src : Reg) (hint : HintOperand)
  | ResolveHint (span : Span) (door : HintDoor) (slots : list Reg)
  | BuildString (dst : Reg) (parts : list StrPart.part)
  | Raise (idx : N)
  | Halt.
End Op.
End Op.

Section Chunk.
Context {P : CodePayloads}.

(** [Op::for_each_jump_pc]: the destinations it hands to its callback, in order. *)
Definition for_each_jump_pc (op : Op.op) : list JumpPc :=
  match op with
  | Op.Jump target | Op.JumpIfTrue _ target | Op.JumpIfFalse _ target
  | Op.CondBranch _ target _ => [target]
  | Op.Coalesce _ _ fallback _ => [fallback]
  | Op.MatchInt _ _ fail | Op.MatchStr _ _ fail | Op.MatchBool _ _ fail
  | Op.MatchVariant _ _ _ _ fail | Op.MatchTuple _ _ fail => [fail]
  | _ => []
  end.

(** [Op::for_each_jump_pc_mut]: [f] rewrites a destination, or panics. *)
Definition for_each_jump_pc_mut (f : JumpPc → option JumpPc) (op : Op.op) : option Op.op :=
  match op with
  | Op.Jump target => target ← f target; Some (Op.Jump target)
  | Op.JumpIfTrue reg target => target ← f target; Some (Op.JumpIfTrue reg target)
  | Op.JumpIfFalse reg target => target ← f target; Some (Op.JumpIfFalse reg target)
  | Op.CondBranch reg target span => target ← f target; Some (Op.CondBranch reg target span)
  | Op.Coalesce dst src fallback span =>
      fallback ← f fallback; Some (Op.Coalesce dst src fallback span)
  | Op.MatchInt src value fail => fail ← f fail; Some (Op.MatchInt src value fail)
  | Op.MatchStr src value fail => fail ← f fail; Some (Op.MatchStr src value fail)
  | Op.MatchBool src value fail => fail ← f fail; Some (Op.MatchBool src value fail)
  | Op.MatchVariant src type_name variant arity fail =>
      fail ← f fail; Some (Op.MatchVariant src type_name variant arity fail)
  | Op.MatchTuple src arity fail => fail ← f fail; Some (Op.MatchTuple src arity fail)
  | op => Some op
  end.

(** [Op::has_jump_pc]. *)
Definition has_jump_pc (op : Op.op) : bool := any (λ _, true) (for_each_jump_pc op).

Record LocalDebug := mkLocalDebug { ld_name : string; ld_reg : Reg; ld_def_span : Span }.
Record LineEntry := mkLineEntry { le_pc : N; le_span : Span }.

Record Chunk := mkChunk {
  code : list Op.op;
  consts : list Const.const;
  diagnostics : list Diagnostic;
  num_params : N;
  hidden : N;
  hidden_base : N;
  num_registers : N;
  frame_locals : list Reg;
  defaults : list (N * N);
  chunk_name : option string;
  chunk_def_span : option Span;
  debug_locals : list LocalDebug;
  line_table : list LineEntry;
}.

Definition placeholder : Chunk := mkChunk [] [] [] 0 0 0 0 [] [] None None [] [].

(** [slice::partition_point]: the length of the prefix where [p] holds. *)
Fixpoint partition_point {A} (p : A → bool) (l : list A) : nat :=
  match l with
  | a :: l => if p a then S (partition_point p l) else 0
  | [] => 0
  end.

(** [Chunk::line_span]. *)
Definition line_span (c : Chunk) (pc : nat) : option Span :=
  let pc := as_u32 pc in
  match partition_point (λ e, le_pc e <=? pc) (line_table c) with
  | O => None
  | S idx => le_span <$> line_table c !! idx
  end.
End Chunk.

(** [is_param_filled]. *)
Definition is_param_filled (p n_args : nat) (supplied : option N) : bool :=
  match supplied with
  | None => Nat.ltb p n_args
  | Some mask => Nat.ltb p 64 && negb (N.land mask (N.shiftl 1 (N.of_nat p)) =? 0)
  end.

(** [u64::count_ones], [u64::trailing_zeros], [u64::wrapping_sub]. *)
Definition count_ones (w : N) : nat :=
  length (filter (λ b, N.testbit w (N.of_nat b) = true) (seq 0 64)).
Definition trailing_zeros (w : N) : nat :=
  default 64%nat (head (filter (λ b, N.testbit w (N.of_nat b) = true) (seq 0 64))).
Definition wrapping_sub64 (a b : N) : N := (a + 2 ^ 64 - b) mod 2 ^ 64.

(** [for _ in 0..i { remaining &= remaining.wrapping_sub(1) }]. *)
Fixpoint clear_lowest (i : nat) (remaining : N) : N :=
  match i with
  | O => remaining
  | S i => clear_lowest i (N.land remaining (wrapping_sub64 remaining 1))
  end.

(** [param_of_arg]: [None] is the failed [debug_assert]. *)
Definition param_of_arg (i : nat) (supplied : option N) : option nat :=
  match supplied with
  | None => Some i
  | Some mask =>
      if Nat.ltb i (count_ones mask) then Some (trailing_zeros (clear_lowest i mask)) else None
  end.

(** [reg_of_param]. *)
Definition reg_of_param (p hidden hidden_base : nat) : nat :=
  if Nat.ltb p hidden_base then p else (p + hidden)%nat.
