(* ===== verification/ObjectOps.v ===== *)
(** Object construction in the VM: [Op::MakeStruct] and [Op::MakeStructInPlace]
    of [crates/noeta-vm/src/dispatch.rs], on which the tokens of [Reuse] act.

    The slots computed, the errors and the choice between the in-place and the
    copying path are modelled; the [retain] / [release] calls around them are
    not.  Shapes are interned, so the pointer comparison of the code is equality.
    [run_thunk] is the VM running a field default: a value, or an abort. *)
From S2P Require Import Prelude Bytecode.
From stdpp Require Import options.

(** [Shape]: the name and the declared fields. *)
Record Shape := mkShape { shape_name : string; fields : list string }.
#[export] Instance Shape_eq_dec : EqDecision Shape.
Proof. solve_decision. Defined.

(** [Shape::slot_of]. *)
Fixpoint position (f : string) (l : list string) : option nat :=
  match l with
  | [] => None
  | g :: l => if decide (g = f) then Some 0%nat else S <$> position f l
  end.
Definition slot_of (shape : Shape) (f : string) : option nat := position f (fields shape).

Section Construct.
Context {Value Abort : Type}.

(** The payload of an object value; every other value has no fields. *)
Record Object := mkObject { object_shape : Shape; object_slots : list Value }.

(** [Value::field]. *)
Definition field (o : Object) (f : string) : option Value :=
  i ← slot_of (object_shape o) f; object_slots o !! i.

(** What construction ends with: an object, the missing-field error (E0009) with
    the fields it lists, an aborted default, or an out-of-range slot (a panic;
    the compiler resolves slots against the shape). *)
Inductive outcome :=
  | Built (o : Object)
  | MissingField (names : list string)
  | Aborted (a : Abort)
  | OutOfRange.

(** Overwriting slots in order: [slots[slot].replace(value)]. *)
Fixpoint replace_slots {A} (mk : Value → A) (named : list (nat * Value)) (slots : list A) :
    option (list A) :=
  match named with
  | [] => Some slots
  | (i, v) :: named =>
      if decide (i < length slots)%nat then replace_slots mk named (<[ i := mk v ]> slots) else None
  end.

(** The slots a spread base fills. *)
Definition spread_slots (shape : Shape) (base : option Object) : list (option Value) :=
  match base with
  | Some o => map (field o) (fields shape)
  | None => map (λ _, None) (fields shape)
  end.

(** The default of one slot left unset: its thunk, run; or its name, missing. *)
Fixpoint fill_defaults (default : string → option (Value + Abort)) (names : list string)
    (slots : list (option Value)) : (list string * list (option Value)) + Abort :=
  match names, slots with
  | f :: names, Some v :: slots =>
      match fill_defaults default names slots with
      | inl (missing, slots) => inl (missing, Some v :: slots)
      | inr a => inr a
      end
  | f :: names, None :: slots =>
      match default f with
      | Some (inl v) =>
          match fill_defaults default names slots with
          | inl (missing, slots) => inl (missing, Some v :: slots)
          | inr a => inr a
          end
      | Some (inr a) => inr a
      | None =>
          match fill_defaults default names slots with
          | inl (missing, slots) => inl (f :: missing, None :: slots)
          | inr a => inr a
          end
      end
  | _, _ => inl ([], [])
  end.

(** [Op::MakeStruct]. *)
Definition make_struct (default : string → option (Value + Abort)) (shape : Shape)
    (named : list (nat * Value)) (spread : option Object) : outcome :=
  match replace_slots Some named (spread_slots shape spread) with
  | None => OutOfRange
  | Some slots =>
      match fill_defaults default (fields shape) slots with
      | inr a => Aborted a
      | inl ([], slots) =>
          match mapM id slots with
          | Some slots => Built (mkObject shape slots)
          | None => OutOfRange
          end
      | inl (missing, _) => MissingField missing
      end
  end.

(** The fields whose slot is still unset. *)
Fixpoint missing_fields (names : list string) (slots : list (option Value)) : list string :=
  match names, slots with
  | f :: names, None :: slots => f :: missing_fields names slots
  | _ :: names, Some _ :: slots => missing_fields names slots
  | _, _ => []
  end.

(** [Op::MakeStructInPlace]: [base] is [None] for a value that is no object;
    [unique] is [is_uniquely_owned]. *)
Definition make_struct_in_place (shape : Shape) (named : list (nat * Value))
    (base : option Object) (check : ReuseCheck) (unique : bool) : outcome :=
  let same_shape := bool_decide (object_shape <$> base = Some shape) in
  let reuse := match check with Static => same_shape | Runtime => same_shape && unique end in
  match reuse, base with
  | true, Some o =>
      match replace_slots id named (object_slots o) with
      | Some slots => Built (mkObject (object_shape o) slots)
      | None => OutOfRange
      end
  | _, _ =>
      match replace_slots Some named (spread_slots shape base) with
      | None => OutOfRange
      | Some slots =>
          match missing_fields (fields shape) slots with
          | [] =>
              match mapM id slots with
              | Some slots => Built (mkObject shape slots)
              | None => OutOfRange
              end
          | missing => MissingField missing
          end
      end
  end.

(** A well-formed object: as many slots as its shape has fields. *)
Definition object_ok (o : Object) : Prop :=
  NoDup (fields (object_shape o)) ∧ length (object_slots o) = length (fields (object_shape o)).

(** *** Slots *)

Lemma position_lookup f l i : NoDup l → l !! i = Some f → position f l = Some i.
Proof.
  intros Hnd. revert i. induction Hnd as [|g l Hg _ IH]; intros [|i]; simpl; [done|done| |].
  - intros [= ->]. by rewrite decide_True.
  - intros Hi. rewrite decide_False; [by rewrite (IH i)|].
    intros E. subst g. apply Hg. by eapply list_elem_of_lookup_2.
Qed.

(** A base of the same shape provides exactly its own slots. *)
Lemma spread_same o : object_ok o → spread_slots (object_shape o) (Some o) = Some <$> object_slots o.
Proof.
  intros [Hnd Hlen]. simpl. apply list_eq. intros i. rewrite list_lookup_fmap.
  change (map ?f ?l) with (f <$> l). rewrite list_lookup_fmap.
  destruct (fields (object_shape o) !! i) as [f|] eqn:E.
  - simpl. unfold field, slot_of. rewrite (position_lookup f _ i) by done. simpl.
    apply lookup_lt_Some in E. rewrite <- Hlen in E.
    destruct (lookup_lt_is_Some_2 (object_slots o) i E) as [v ->]. done.
  - apply lookup_ge_None in E. rewrite <- Hlen in E. by apply lookup_ge_None in E as ->.
Qed.

Lemma replace_fmap named (slots : list Value) :
  replace_slots Some named (Some <$> slots) = fmap (M := list) Some <$> replace_slots id named slots.
Proof.
  revert slots. induction named as [|[i v] named IH]; intros slots; simpl; [done|].
  rewrite length_fmap. case_decide; [|done]. by rewrite <- IH, list_fmap_insert.
Qed.

Lemma replace_length {A} (mk : Value → A) named slots slots' :
  replace_slots mk named slots = Some slots' → length slots' = length slots.
Proof.
  revert slots. induction named as [|[i v] named IH]; intros slots; simpl; [by intros [= ->]|].
  case_decide; [|done]. intros ->%IH. apply length_insert.
Qed.

Lemma fill_full default names (slots : list Value) :
  length slots = length names →
  fill_defaults default names (Some <$> slots) = inl ([], Some <$> slots).
Proof.
  revert slots. induction names as [|f names IH]; intros [|v slots]; csimpl; try done.
  intros [= H]. by rewrite (IH slots H).
Qed.

Lemma missing_full names (slots : list Value) : missing_fields names (Some <$> slots) = [].
Proof. revert slots. induction names as [|f names IH]; intros [|v slots]; csimpl; auto. Qed.

Lemma mapM_full (slots : list Value) : mapM id (Some <$> slots) = Some slots.
Proof. apply mapM_Some, Forall2_fmap_l, Forall_Forall2_diag, Forall_true. done. Qed.

(** The value of a slot after every named one is written. *)
Lemma replace_other {A} (mk : Value → A) named slots slots' i :
  i ∉ named.*1 → replace_slots mk named slots = Some slots' → slots' !! i = slots !! i.
Proof.
  revert slots. induction named as [|[j v] named IH]; intros slots; csimpl; [by intros _ [= ->]|].
  intros Hi. case_decide; [|done]. intros E. rewrite (IH _) by (done || set_solver).
  apply list_lookup_insert_ne. set_solver.
Qed.

(** Two starting points that differ only where a name is written agree. *)
Lemma replace_agree {A} (mk : Value → A) named (s1 s2 s1' s2' : list A) :
  length s1 = length s2 → (∀ i, i ∉ named.*1 → s1 !! i = s2 !! i) →
  replace_slots mk named s1 = Some s1' → replace_slots mk named s2 = Some s2' → s1' = s2'.
Proof.
  revert s1 s2. induction named as [|[j v] named IH]; intros s1 s2 Hl Hs; csimpl in *.
  - intros [= ->] [= ->]. apply list_eq. intros i. apply Hs. set_solver.
  - do 2 (case_decide; [|done]). apply IH; [by rewrite !length_insert|].
    intros i Hi. destruct (decide (i = j)) as [->|Hij].
    + by rewrite !list_lookup_insert_eq.
    + rewrite !list_lookup_insert_ne by done. apply Hs. set_solver.
Qed.

Lemma replace_total {A B} (mk : Value → A) (mk' : Value → B) named s t s' :
  length s = length t → replace_slots mk named s = Some s' → is_Some (replace_slots mk' named t).
Proof.
  revert s t. induction named as [|[j v] named IH]; intros s t Hl; simpl; [eauto|].
  rewrite Hl. case_decide; [|done]. apply IH. by rewrite !length_insert.
Qed.

(** A slot left unset gets its default. *)
Lemma fill_lookup default names slots missing slots' i f d :
  names !! i = Some f → slots !! i = Some None → default f = Some (inl d) →
  fill_defaults default names slots = inl (missing, slots') → slots' !! i = Some (Some d).
Proof.
  revert slots missing slots' i. induction names as [|g names IH]; intros [|v slots] m s' [|i]; try done; simpl.
  - intros [= ->] [= ->] Hd. rewrite Hd. intros H. by repeat case_match; simplify_eq.
  - intros Hf Hs Hd H. repeat case_match; simplify_eq; simpl; eauto.
Qed.

(** ** Properties *)

(** A self-update may run in place.  For a base of the constructed shape the
    in-place operation, whether it takes the base over or copies it and whatever
    the uniqueness check says, ends exactly as the copying construction with the
    base as its spread does. *)
Theorem self_update_in_place default (o : Object) named check unique :
  object_ok o →
  make_struct_in_place (object_shape o) named (Some o) check unique
  = make_struct default (object_shape o) named (Some o).
Proof.
  intros Hok. unfold make_struct, make_struct_in_place.
  rewrite (spread_same o Hok), replace_fmap. destruct Hok as [_ Hlen].
  destruct (replace_slots id named (object_slots o)) as [slots|] eqn:E; simpl.
  2: by destruct (match check with Static => _ | Runtime => _ end).
  apply replace_length in E. rewrite (fill_full default), missing_full, mapM_full by congruence.
  by destruct (match check with Static => _ | Runtime => _ end).
Qed.

(** The rewriting of a whole-value reassignment [x = T { … }] into
    [x = T { ...x, … }] is right when the literal names every field: whatever
    the old value is, the in-place construction ends as the literal does. *)
Theorem reassign_in_place_full default shape named (o : Object) check unique :
  object_ok o → object_shape o = shape →
  (∀ i, (i < length (fields shape))%nat → i ∈ named.*1) →
  make_struct_in_place shape named (Some o) check unique = make_struct default shape named None.
Proof.
  intros Hok <- Hall. rewrite (self_update_in_place default) by done.
  unfold make_struct. rewrite (spread_same o Hok). destruct Hok as [Hnd Hlen].
  set (none := spread_slots (object_shape o) None).
  assert (length (Some <$> object_slots o) = length none) as Hl
    by (unfold none; simpl; by rewrite length_fmap, length_map).
  destruct (replace_slots Some named (Some <$> object_slots o)) as [s1|] eqn:E1.
  - destruct (replace_total Some Some named _ none _ Hl E1) as [s2 E2]. rewrite E2.
    assert (s1 = s2) as ->; [|done]. eapply (replace_agree Some named); [exact Hl| |done..].
    intros i Hi. destruct (decide (i < length (fields (object_shape o)))%nat) as [H|H];
      [by apply Hall in H|].
    rewrite !lookup_ge_None_2; [done|..]; rewrite <- ?Hl, ?length_fmap; lia.
  - destruct (replace_slots Some named none) as [s2|] eqn:E2; [|done].
    symmetry in Hl. destruct (replace_total Some Some named _ _ _ Hl E2). congruence.
Qed.

(** It is wrong when the literal leaves a field to its default.  If slot [i]
    is named by no initializer and its field has a default [d], the literal
    builds an object whose slot [i] is [d]; constructed in place of an object of
    the same shape, slot [i] keeps the old object's value. *)
Theorem reassign_in_place_keeps_old default shape named (o o1 o2 : Object) check unique i f d :
  object_ok o → object_shape o = shape → fields shape !! i = Some f → i ∉ named.*1 →
  default f = Some (inl d) →
  make_struct default shape named None = Built o1 →
  make_struct_in_place shape named (Some o) check unique = Built o2 →
  object_slots o1 !! i = Some d ∧ object_slots o2 !! i = object_slots o !! i.
Proof.
  intros Hok <- Hf Hi Hd. rewrite (self_update_in_place default) by done. unfold make_struct.
  rewrite (spread_same o Hok), replace_fmap. intros H1 H2. split.
  - destruct (replace_slots Some named _) as [s|] eqn:E in H1; [|done].
    apply (replace_other Some named _ _ i Hi) in E. simpl in E.
    change (map ?f ?l) with (f <$> l) in E. rewrite list_lookup_fmap, Hf in E. simpl in E.
    destruct (fill_defaults default (fields (object_shape o)) s) as [[[|] s']|] eqn:Ef; try done.
    destruct (mapM id s') as [s''|] eqn:Em; simplify_eq. simpl.
    apply (fill_lookup default _ _ _ _ i f d Hf E Hd) in Ef.
    apply mapM_Some in Em. destruct (Forall2_lookup_l _ _ _ _ _ Em Ef) as (y & -> & Hy). done.
  - destruct (replace_slots id named (object_slots o)) as [s|] eqn:E; [|done]. simpl in H2.
    destruct Hok as [_ Hlen]. rewrite (fill_full default), mapM_full in H2
      by (apply replace_length in E; congruence).
    simplify_eq. simpl. by eapply replace_other.
Qed.
End Construct.
Arguments outcome : clear implicits.

(** ** Witnesses: [struct T { a; b = 0 }] *)
Module ObjectExample.
Definition T : Shape := mkShape "T" ["a"; "b"].
Definition old : Object (Value := nat) := mkObject T [1; 9]%nat.
Definition default (f : string) : option (nat + Empty_set) :=
  if decide (f = "b") then Some (inl 0%nat) else None.

Lemma old_ok : object_ok old.
Proof. split; [|reflexivity]. apply (bool_decide_unpack _). vm_compute. exact I. Defined.

Lemma self_update_in_place_witness :
  make_struct_in_place T [(0, 2)]%nat (Some old) Runtime true
  = make_struct default T [(0, 2)]%nat (Some old).
Proof. apply (self_update_in_place default old). exact old_ok. Defined.

Lemma reassign_in_place_full_witness :
  make_struct_in_place T [(0, 2); (1, 3)]%nat (Some old) Runtime true
  = make_struct default T [(0, 2); (1, 3)]%nat None.
Proof.
  apply (reassign_in_place_full default T _ old); [exact old_ok|reflexivity|].
  intros [|[|i]] H; simpl in *; [constructor|repeat constructor|lia].
Defined.

(** [x = T { a: 1, b: 9 }; x = T { a: 2 }] leaves [x.b] at [9], not [0]. *)
Lemma reassign_in_place_keeps_old_witness :
  object_slots (mkObject T [2; 0]%nat) !! 1%nat = Some 0%nat ∧
  object_slots (mkObject T [2; 9]%nat) !! 1%nat = object_slots old !! 1%nat.
Proof.
  apply (reassign_in_place_keeps_old default T [(0, 2)]%nat old _ _ Runtime true 1%nat "b" 0%nat);
    [exact old_ok|reflexivity|reflexivity| |reflexivity|vm_compute; reflexivity
    |vm_compute; reflexivity].
  intros H%list_elem_of_singleton. discriminate.
Defined.
End ObjectExample.
