(* ===== verification/Gc.v ===== *)
(** The cycle collectors: [crates/noeta-gc/src/lib.rs], over the heap primitives
    of [crates/noeta-value/src/heap.rs].

    An object is named by its pointer word ([Value::bits]).  A collection never
    changes a payload, so what it reads of one, the pointer-valued children, the
    sharing flag and the allocation sequence, is a [Graph]; what it changes, the
    header, is the state [Headers].  Reference counts are [u32] and wrap, as
    [refcount += 1] and [refcount -= 1] do in a release build.  The recursive
    walks take fuel and return [None] without it; [GcProps] proves that more than
    twice the number of objects (trial deletion), or more than their number (the
    trace), is enough. *)
From S2P Require Import Prelude.
From stdpp Require Import options.
Open Scope Z_scope.

(** The [u32] count. *)
Definition wrap32 (z : Z) : Z := z mod 2 ^ 32.

(** [Color]. *)
Inductive Color := Black | Gray | White | Purple.
#[export] Instance Color_eq_dec : EqDecision Color.
Proof. solve_decision. Defined.

(** [Header]: the fields a collection reads and writes. *)
Record Header := mkHeader { refcount : Z; color : Color; buffered : bool }.

Abbreviation Id := positive.
Abbreviation Headers := (gmap Id Header).

(** [Value], as far as the collector looks: immediates or pointers. *)
Inductive Value := Immediate | Pointer (p : Id).

(** What the collector reads of the payloads: [Value::gc_children], [is_shared]
    and [gc_seq]. *)
Record Graph := mkGraph {
  gc_children : Id → list Id;
  is_shared : Id → bool;
  gc_seq : Id → Z;
}.

(** [Garbage]. *)
Record Garbage := mkGarbage {
  fresh : list Id;
  already_destructed : list Id;
  release_external : bool;
}.
Definition no_garbage : Garbage := mkGarbage [] [] false.

(** Header accessors: [gc_color], [gc_set_color], [refcount], [gc_rc_inc],
    [gc_rc_dec], [gc_buffered], [gc_set_buffered]. *)
Definition gc_color (σ : Headers) (v : Id) : Color := from_option color Black (σ !! v).
Definition rc (σ : Headers) (v : Id) : Z := from_option refcount 0 (σ !! v).
Definition gc_buffered (σ : Headers) (v : Id) : bool := from_option buffered false (σ !! v).
Definition gc_set_color (c : Color) (v : Id) (σ : Headers) : Headers :=
  alter (λ h, mkHeader (refcount h) c (buffered h)) v σ.
Definition gc_rc_inc (v : Id) (σ : Headers) : Headers :=
  alter (λ h, mkHeader (wrap32 (refcount h + 1)) (color h) (buffered h)) v σ.
Definition gc_rc_dec (v : Id) (σ : Headers) : Headers :=
  alter (λ h, mkHeader (wrap32 (refcount h - 1)) (color h) (buffered h)) v σ.
Definition gc_set_buffered (b : bool) (v : Id) (σ : Headers) : Headers :=
  alter (λ h, mkHeader (refcount h) (color h) b) v σ.

Section Collector.
Context (g : Graph).

(** [mark]. *)
Fixpoint mark (fuel : nat) (s : Id) (σ : Headers) : option Headers :=
  match fuel with
  | O => None
  | S fuel =>
      if is_shared g s || bool_decide (gc_color σ s = Gray) then Some σ
      else fold_opt (mark fuel) (gc_children g s) (gc_set_color Gray s σ)
  end.

Definition mark_value (fuel : nat) (v : Value) (σ : Headers) : option Headers :=
  match v with Immediate => Some σ | Pointer s => mark fuel s σ end.

(** [mark_gray]. *)
Fixpoint mark_gray (fuel : nat) (s : Id) (σ : Headers) : option Headers :=
  match fuel with
  | O => None
  | S fuel =>
      if decide (gc_color σ s = Gray) then Some σ
      else fold_opt (λ child σ,
             if is_shared g child then Some σ else mark_gray fuel child (gc_rc_dec child σ))
             (gc_children g s) (gc_set_color Gray s σ)
  end.

(** [scan_black]. *)
Fixpoint scan_black (fuel : nat) (s : Id) (σ : Headers) : option Headers :=
  match fuel with
  | O => None
  | S fuel =>
      fold_opt (λ child σ,
          if is_shared g child then Some σ
          else
            let σ := gc_rc_inc child σ in
            if decide (gc_color σ child = Black) then Some σ else scan_black fuel child σ)
        (gc_children g s) (gc_set_color Black s σ)
  end.

(** [scan]. *)
Fixpoint scan (fuel : nat) (s : Id) (σ : Headers) : option Headers :=
  match fuel with
  | O => None
  | S fuel' =>
      if decide (gc_color σ s ≠ Gray) then Some σ
      else if decide (rc σ s > 0) then scan_black fuel s σ
      else fold_opt (scan fuel') (gc_children g s) (gc_set_color White s σ)
  end.

(** [gather_white]. *)
Fixpoint gather_white (fuel : nat) (s : Id) (st : Headers * list Id) :
    option (Headers * list Id) :=
  match fuel with
  | O => None
  | S fuel =>
      if decide (gc_color st.1 s = White)
      then fold_opt (gather_white fuel) (gc_children g s)
             (gc_set_color Black s st.1, st.2 ++ [s])
      else Some st
  end.

(** [count_refcount_anomalies]: [in_edges] is the code's [HashMap<u64, u32>]. *)
Definition count_in_edges (garbage : list Id) : gmap Id Z :=
  let members : gset Id := list_to_set garbage in
  foldl (λ m obj,
      foldl (λ m child,
          if decide (child ∈ members)
          then <[ child := wrap32 (default 0 (m !! child) + 1) ]> m else m)
        m (gc_children g obj)) ∅ garbage.
Definition is_anomaly (σ : Headers) (in_edges : gmap Id Z) (obj : Id) : bool :=
  negb (bool_decide (rc σ obj = default 0 (in_edges !! obj))).
Definition count_refcount_anomalies (garbage : list Id) (σ : Headers) : nat :=
  match garbage with
  | [] => O
  | _ => length (List.filter (is_anomaly σ (count_in_edges garbage)) garbage)
  end.

(** The survivors of a trace are painted [Black] again. *)
Definition reset_survivors (live : list Id) (σ : Headers) : Headers :=
  foldl (λ σ v, if decide (gc_color σ v = Gray) then gc_set_color Black v σ else σ) σ live.

(** [collect_trace]: the garbage, the headers after, and the anomalies noted.
    [live] is the registry snapshot [live_objects]. *)
Definition collect_trace (fuel : nat) (live : list Id) (roots : list Value) (σ : Headers) :
    option (Garbage * Headers * nat) :=
  match fold_opt (mark_value fuel) roots σ with
  | None => None
  | Some σ =>
      let fresh := List.filter (λ v, negb (bool_decide (gc_color σ v = Gray))) live in
      let σ := reset_survivors live σ in
      Some (mkGarbage fresh [] true, σ, count_refcount_anomalies fresh σ)
  end.

(** The candidate loop of a trial deletion: unbuffer each candidate, trial-delete
    from the purple ones, keep the others as deferred. *)
Definition mark_candidate (fuel : nat) (s : Id) (st : Headers * list Id * list Id) :
    option (Headers * list Id * list Id) :=
  let '(σ, gray_roots, deferred) := st in
  let σ := gc_set_buffered false s σ in
  if decide (gc_color σ s = Purple)
  then match mark_gray fuel s σ with
       | Some σ => Some (σ, gray_roots ++ [s], deferred)
       | None => None
       end
  else Some (σ, gray_roots, deferred ++ [s]).

(** [filter(|v| seen.insert(v.bits()))]: the first occurrence of each, and the
    set of those seen. *)
Fixpoint dedup_seen (seen : gset Id) (l : list Id) : list Id * gset Id :=
  match l with
  | [] => ([], seen)
  | v :: l =>
      if decide (v ∈ seen) then dedup_seen seen l
      else let '(l, seen) := dedup_seen ({[ v ]} ∪ seen) l in (v :: l, seen)
  end.

(** Mark, scan and gather: the headers after, the white set and the deferred
    objects, each deduplicated. *)
Definition trial_delete (fuel : nat) (roots : list Id) (σ : Headers) :
    option (Headers * list Id * list Id) :=
  match fold_opt (mark_candidate fuel) roots (σ, [], []) with
  | None => None
  | Some (σ, gray_roots, deferred) =>
      match fold_opt (scan fuel) gray_roots σ with
      | None => None
      | Some σ =>
          match fold_opt (gather_white fuel) gray_roots (σ, []) with
          | None => None
          | Some (σ, white) =>
              let '(white, seen) := dedup_seen ∅ white in
              Some (σ, white, (dedup_seen seen deferred).1)
          end
      end
  end.

(** [collect_trial_deletion]; [roots] are the candidates taken. *)
Definition collect_trial_deletion (fuel : nat) (roots : list Id) (σ : Headers) :
    option (Garbage * Headers) :=
  match trial_delete fuel roots σ with
  | Some (σ, white, deferred) => Some (mkGarbage white deferred false, σ)
  | None => None
  end.

(** [weakly_connected_components]: the adjacency lists, both ways, by index. *)
Definition index_of (garbage : list Id) : gmap Id nat :=
  foldl (λ m iv, <[ iv.2 := iv.1 ]> m) ∅ (imap pair garbage).
Definition adjacency (garbage : list Id) : list (list nat) :=
  let index := index_of garbage in
  foldl (λ adj iv,
      foldl (λ adj child,
          match index !! child with
          | Some j =>
              if decide (j ≠ iv.1)
              then alter (λ l, l ++ [iv.1]) j (alter (λ l, l ++ [j]) iv.1 adj) else adj
          | None => adj
          end) adj (gc_children g iv.2))
    (replicate (length garbage) []) (imap pair garbage).

(** The flood fill from one start: [queue.pop()] takes the last element;
    [visited] is [component_of[_] != usize::MAX]. *)
Definition push_neighbours (adj : list nat) (queue : list nat) (visited : gset nat) :
    list nat * gset nat :=
  foldl (λ st j, if decide (j ∈ st.2) then st else (st.1 ++ [j], {[ j ]} ∪ st.2))
    (queue, visited) adj.
Fixpoint flood (adj : list (list nat)) (fuel : nat) (queue : list nat) (visited : gset nat)
    (members : list nat) : option (list nat * gset nat) :=
  match fuel with
  | O => None
  | S fuel =>
      match last queue with
      | None => Some (members, visited)
      | Some i =>
          let '(queue, visited) :=
            push_neighbours (default [] (adj !! i)) (removelast queue) visited in
          flood adj fuel queue visited (members ++ [i])
      end
  end.
Definition component_step (adj : list (list nat)) (fuel : nat) (start : nat)
    (st : list (list nat) * gset nat) : option (list (list nat) * gset nat) :=
  let '(components, visited) := st in
  if decide (start ∈ visited) then Some st
  else match flood adj fuel [start] ({[ start ]} ∪ visited) [] with
       | Some (members, visited) => Some (components ++ [members], visited)
       | None => None
       end.
Definition weakly_connected_components (fuel : nat) (garbage : list Id) :
    option (list (list Id)) :=
  match fold_opt (component_step (adjacency garbage) fuel) (seq 0 (length garbage)) ([], ∅) with
  | Some (components, _) => Some (map (λ c, omap (λ i, garbage !! i) c) components)
  | None => None
  end.

(** [sort_by_key(Reverse(gc_seq))], stable. *)
Fixpoint insert_by_seq (v : Id) (l : list Id) : list Id :=
  match l with
  | [] => [v]
  | w :: r => if decide (gc_seq g v >= gc_seq g w) then v :: l else w :: insert_by_seq v r
  end.
Definition sort_by_seq (l : list Id) : list Id := foldr insert_by_seq [] l.

(** [collect_trace_safepoint]. *)
Definition collect_trace_safepoint (fuel : nat) (live : list Id) (roots : list Value)
    (defer : Id → bool) (σ : Headers) : option (Garbage * Headers) :=
  match fold_opt (mark_value fuel) roots σ with
  | None => None
  | Some σ =>
      let garbage := List.filter (λ v, negb (bool_decide (gc_color σ v = Gray))) live in
      let σ := reset_survivors live σ in
      if bool_decide (garbage = []) || negb (bool_decide (count_refcount_anomalies garbage σ = O))
      then Some (no_garbage, σ)
      else
        match weakly_connected_components fuel garbage with
        | None => None
        | Some components =>
            let fresh := concat (List.filter (λ c, negb (any defer c)) components) in
            Some (mkGarbage (sort_by_seq fresh) [] true, σ)
        end
  end.

(** [possible_root] and [rebuffer_candidate], with the candidate buffer. *)
Definition possible_root (v : Id) (st : Headers * list Id) : Headers * list Id :=
  let '(σ, candidates) := st in
  if decide (gc_color σ v ≠ Purple)
  then let σ := gc_set_color Purple v σ in
       if gc_buffered σ v then (σ, candidates)
       else (gc_set_buffered true v σ, candidates ++ [v])
  else (σ, candidates).

(** Undoing the trial decrements of a deferred component and buffering it. *)
Definition restore_component (component : list Id) (st : Headers * list Id) :
    Headers * list Id :=
  let σ := foldl (λ σ m,
      foldl (λ σ child, if is_shared g child then σ else gc_rc_inc child σ) σ (gc_children g m))
    st.1 component in
  foldl (λ st m, possible_root m st) (σ, st.2) component.

(** [collect_trial_deletion_safepoint], with the candidate buffer after. *)
Definition collect_trial_deletion_safepoint (fuel : nat) (roots : list Id) (defer : Id → bool)
    (σ : Headers) : option (Garbage * Headers * list Id) :=
  match trial_delete fuel roots σ with
  | None => None
  | Some (σ, white, deferred) =>
      match weakly_connected_components fuel white with
      | None => None
      | Some components =>
          let '(fresh, σ, candidates) :=
            foldl (λ acc component,
                let '(fresh, σ, candidates) := acc in
                if any defer component
                then let '(σ, candidates) := restore_component component (σ, candidates) in
                     (fresh, σ, candidates)
                else (fresh ++ component, σ, candidates))
              ([], σ, []) components in
          Some (mkGarbage (sort_by_seq fresh) deferred false, σ, candidates)
      end
  end.

(** *** [CycleCollector] *)

(** [CycleCollector::add_candidate], with the collector's [roots]. *)
Definition add_candidate (v : Value) (st : Headers * list Id) : Headers * list Id :=
  match v with
  | Immediate => st
  | Pointer v =>
      let '(σ, roots) := st in
      let σ := gc_set_color Purple v σ in
      if gc_buffered σ v then (σ, roots) else (gc_set_buffered true v σ, roots ++ [v])
  end.

(** [CycleCollector::collect]: the objects freed and the headers before the
    frees. *)
Definition collect (fuel : nat) (roots : list Id) (σ : Headers) : option (list Id * Headers) :=
  match fold_opt (λ root σ, if decide (gc_color σ root = Purple) then mark_gray fuel root σ
                            else Some σ) roots σ with
  | None => None
  | Some σ =>
      match fold_opt (scan fuel) roots σ with
      | None => None
      | Some σ =>
          match fold_opt (gather_white fuel) roots (σ, []) with
          | None => None
          | Some (σ, garbage) =>
              Some (garbage, foldl (λ σ root, gc_set_buffered false root σ) σ roots)
          end
      end
  end.

End Collector.
