(* ===== verification/GcPaint.v ===== *)
(** The walks of the collectors as one: [mark], [mark_gray] and [scan_black] of
    [Gc] paint everything reachable with a color, counting each edge they follow
    into the reference counts by a fixed amount. *)
From S2P Require Import Prelude Gc.
From stdpp Require Import relations options.
Open Scope Z_scope.

(** Congruence of counts modulo the width. *)
Definition cong (a b : Z) : Prop := ∃ k, a = b + k * 2 ^ 32.

Lemma cong_refl a : cong a a.
Proof. exists 0. lia. Qed.

Lemma wrap_cong a : cong (wrap32 a) a.
Proof.
  exists (- (a / 2 ^ 32)). unfold wrap32. pose proof (Z.div_mod a (2 ^ 32)). lia.
Qed.

Lemma cong_eq a b : cong a b → 0 ≤ a < 2 ^ 32 → 0 ≤ b < 2 ^ 32 → a = b.
Proof. intros [k ->] Ha Hb. assert (k = 0) by lia. lia. Qed.

(** How often [v] is in [l]. *)
Definition occ (v : Id) (l : list Id) : Z := Z.of_nat (length (List.filter (λ c, bool_decide (c = v)) l)).

Lemma occ_cons v c l : occ v (c :: l) = (if decide (c = v) then 1 else 0) + occ v l.
Proof. unfold occ. simpl. case_decide; rewrite ?bool_decide_true, ?bool_decide_false by done; simpl; lia. Qed.

Lemma occ_nonneg v l : 0 ≤ occ v l.
Proof. unfold occ. lia. Qed.

Lemma occ_pos v l : v ∈ l → 1 ≤ occ v l.
Proof.
  induction l as [|c l IH]; intros H; [set_solver|].
  rewrite occ_cons. pose proof (occ_nonneg v l). case_decide as E; [lia|].
  apply elem_of_cons in H as [->|H]; [done|]. specialize (IH H). lia.
Qed.

Lemma occ_zero v l : v ∉ l → occ v l = 0.
Proof.
  induction l as [|c l IH]; [done|]. intros H. rewrite occ_cons, decide_False, IH; set_solver.
Qed.

(** Sums over sets of objects. *)
Definition total (f : Id → Z) (X : gset Id) : Z := foldr (λ u acc, f u + acc) 0 (elements X).

Lemma total_perm (f : Id → Z) l1 l2 : l1 ≡ₚ l2 →
  foldr (λ u acc, f u + acc) 0 l1 = foldr (λ u acc, f u + acc) 0 l2.
Proof. induction 1; simpl; lia. Qed.

Lemma total_app (f : Id → Z) l1 l2 : foldr (λ u acc, f u + acc) 0 (l1 ++ l2) =
  foldr (λ u acc, f u + acc) 0 l1 + foldr (λ u acc, f u + acc) 0 l2.
Proof. induction l1; simpl; lia. Qed.

Lemma total_empty f : total f ∅ = 0.
Proof. unfold total. by rewrite elements_empty. Qed.

Lemma total_union f X Y : X ## Y → total f (X ∪ Y) = total f X + total f Y.
Proof.
  intros H. unfold total. rewrite <- total_app. apply total_perm. by apply elements_disj_union.
Qed.

Lemma total_singleton f u : total f {[ u ]} = f u.
Proof. unfold total. rewrite elements_singleton. simpl. lia. Qed.

Lemma total_nonneg f X : (∀ u, 0 ≤ f u) → 0 ≤ total f X.
Proof. intros H. unfold total. induction (elements X) as [|u l IH]; simpl; [lia|]. specialize (H u). lia. Qed.

Lemma total_split f X Y : X ⊆ Y → total f Y = total f X + total f (Y ∖ X).
Proof.
  intros H. rewrite <- total_union by set_solver. f_equal. by apply union_difference_L.
Qed.

Lemma total_mono f X Y : (∀ u, 0 ≤ f u) → X ⊆ Y → total f X ≤ total f Y.
Proof. intros Hf H. rewrite (total_split f X Y) by done. pose proof (total_nonneg f (Y ∖ X) Hf). lia. Qed.

Lemma total_ge f X u : (∀ u, 0 ≤ f u) → u ∈ X → f u ≤ total f X.
Proof. intros Hf H. rewrite <- (total_singleton f u). apply total_mono; set_solver. Qed.

Lemma total_zero f X : (∀ u, u ∈ X → f u = 0) → total f X = 0.
Proof.
  intros H. unfold total. assert (Forall (λ u, f u = 0) (elements X)) as HF
    by (apply Forall_forall; set_solver).
  induction HF as [|u l Hu _ IH]; simpl; lia.
Qed.

Section Headers.
Context (g : Graph).

(** References counted: those to objects outside the shared regions. *)
Definition edge (u v : Id) : Prop := v ∈ gc_children g u ∧ is_shared g v = false.
Definition edges (X : gset Id) (v : Id) : Z := total (λ u, occ v (gc_children g u)) X.

Lemma edges_nonneg X v : 0 ≤ edges X v.
Proof. apply total_nonneg. intros. apply occ_nonneg. Qed.

Lemma edges_union X Y v : X ## Y → edges (X ∪ Y) v = edges X v + edges Y v.
Proof. apply total_union. Qed.

Lemma edges_pos X u v : u ∈ X → v ∈ gc_children g u → 1 ≤ edges X v.
Proof.
  intros Hu Hv. pose proof (occ_pos _ _ Hv).
  pose proof (total_ge (λ u, occ v (gc_children g u)) X u (λ u, occ_nonneg _ _) Hu).
  unfold edges. simpl in *. lia.
Qed.

(** Closed under the references counted. *)
Definition closed (X : gset Id) : Prop := ∀ u v, u ∈ X → edge u v → v ∈ X.

(** *** Headers *)
Lemma color_set c v σ w : v ∈ dom σ →
  gc_color (gc_set_color c v σ) w = if decide (w = v) then c else gc_color σ w.
Proof.
  intros [h Hh]%elem_of_dom. unfold gc_color, gc_set_color. case_decide as E.
  - subst. by rewrite lookup_alter, decide_True, Hh.
  - by rewrite lookup_alter_ne.
Qed.

Lemma rc_set c v σ w : rc (gc_set_color c v σ) w = rc σ w.
Proof.
  unfold rc, gc_set_color. destruct (decide (w = v)) as [->|].
  - rewrite lookup_alter, decide_True by done. by destruct (σ !! v).
  - by rewrite lookup_alter_ne.
Qed.

Lemma dom_set c v σ : dom (gc_set_color c v σ) = dom σ.
Proof. apply dom_alter_L. Qed.

(** The count of one object moved by [d]. *)
Definition rc_move (d : Z) (v : Id) (σ : Headers) : Headers :=
  alter (λ h, mkHeader (wrap32 (refcount h + d)) (color h) (buffered h)) v σ.

Lemma dom_move d v σ : dom (rc_move d v σ) = dom σ.
Proof. apply dom_alter_L. Qed.

Lemma color_move d v σ w : gc_color (rc_move d v σ) w = gc_color σ w.
Proof.
  unfold gc_color, rc_move. destruct (decide (w = v)) as [->|].
  - rewrite lookup_alter, decide_True by done. by destruct (σ !! v).
  - by rewrite lookup_alter_ne.
Qed.

Lemma rc_move_cong d v σ w : v ∈ dom σ →
  cong (rc (rc_move d v σ) w) (rc σ w + if decide (v = w) then d else 0).
Proof.
  intros [h Hh]%elem_of_dom. unfold rc, rc_move. case_decide as E.
  - subst. rewrite lookup_alter, decide_True, Hh by done. apply wrap_cong.
  - rewrite lookup_alter_ne by done. exists 0. lia.
Qed.

(** Counts within the width. *)
Definition in_range (σ : Headers) : Prop := ∀ v, 0 ≤ rc σ v < 2 ^ 32.

Lemma range_set c v σ : in_range σ → in_range (gc_set_color c v σ).
Proof. intros H w. by rewrite rc_set. Qed.

Lemma range_move d v σ : in_range σ → in_range (rc_move d v σ).
Proof.
  intros H w. specialize (H w). unfold rc, rc_move in *. destruct (decide (w = v)) as [->|].
  - rewrite lookup_alter, decide_True by done. destruct (σ !! v); simpl in *; [|lia].
    apply Z.mod_pos_bound. lia.
  - by rewrite lookup_alter_ne.
Qed.
End Headers.

(** What following one edge does: move the count of its target by [d]. *)
Record counting (d : Z) (step : Id → Headers → Headers) : Prop := {
  step_dom : ∀ v σ, dom (step v σ) = dom σ;
  step_color : ∀ v σ w, gc_color (step v σ) w = gc_color σ w;
  step_rc : ∀ v σ w, v ∈ dom σ → cong (rc (step v σ) w) (rc σ w + if decide (v = w) then d else 0);
  step_range : ∀ v σ, in_range σ → in_range (step v σ);
}.

Lemma counting_move d : counting d (rc_move d).
Proof. split; [apply dom_move|apply color_move|apply rc_move_cong|apply range_move]. Qed.

Lemma counting_none : counting 0 (λ _ σ, σ).
Proof. split; try done. intros v σ w _. exists 0. case_decide; lia. Qed.

Section Paint.
Context (g : Graph) (c : Color) (d : Z) (step : Id → Headers → Headers) (Hstep : counting d step).
Set Default Proof Using "All".
#[local] Abbreviation edge := (edge g).
#[local] Abbreviation edges := (edges g).
#[local] Abbreviation closed := (closed g).

(** *** The generic walk *)
Fixpoint paint (fuel : nat) (s : Id) (σ : Headers) : option Headers :=
  match fuel with
  | O => None
  | S fuel =>
      fold_opt (λ child σ,
          if is_shared g child then Some σ
          else let σ := step child σ in
               if decide (gc_color σ child = c) then Some σ else paint fuel child σ)
        (gc_children g s) (gc_set_color c s σ)
  end.

(** What a walk did: [K] are the objects it painted. *)
Record painted (l : list Id) (K : gset Id) (σ σ' : Headers) : Prop := {
  p_dom : dom σ' = dom σ;
  p_new : ∀ v, v ∈ K → v ∈ dom σ ∧ gc_color σ v ≠ c;
  p_color : ∀ v, gc_color σ' v = if decide (v ∈ K) then c else gc_color σ v;
  p_rc : ∀ v, is_shared g v = false → cong (rc σ' v) (rc σ v + d * (occ v l + edges K v));
  p_closed : ∀ u v, u ∈ K → edge u v → gc_color σ' v = c;
  p_list : ∀ v, v ∈ l → is_shared g v = false → gc_color σ' v = c;
  p_reach : ∀ u, u ∈ K → ∃ v, v ∈ l ∧ is_shared g v = false ∧ rtc edge v u;
}.

(** The postcondition of a walk from one object. *)
Definition visited (s : Id) (K : gset Id) (σ σ' : Headers) : Prop :=
  dom σ' = dom σ ∧ (∀ v, v ∈ K → v ∈ dom σ ∧ gc_color σ v ≠ c) ∧
  (∀ v, gc_color σ' v = if decide (v ∈ K) then c else gc_color σ v) ∧
  (∀ v, is_shared g v = false → cong (rc σ' v) (rc σ v + d * edges K v)) ∧
  (∀ u v, u ∈ K → edge u v → gc_color σ' v = c) ∧
  s ∈ K ∧ (∀ u, u ∈ K → rtc edge s u).

Lemma painted_nil σ : painted [] ∅ σ σ.
Proof.
  split; try set_solver. intros v _. exists 0. unfold edges. rewrite total_empty. unfold occ. simpl. lia.
Qed.

(** A shared child is skipped. *)
Lemma painted_shared child l K σ σ' :
  is_shared g child = true → painted l K σ σ' → painted (child :: l) K σ σ'.
Proof.
  intros Hs [P1 P2 P3 P4 P5 P6 P7]. split; try done.
  - intros v Hv. rewrite occ_cons, decide_False by (intros ->; congruence). by apply P4.
  - intros v [->|Hv]%elem_of_cons Hv'; [congruence|auto].
  - intros u Hu. destruct (P7 u Hu) as (v & Hv & ?). exists v. split; [by right|done].
Qed.

(** A child that is painted already: only its count moves. *)
Lemma painted_seen child l K σ σ' :
  child ∈ dom σ → is_shared g child = false → gc_color σ child = c →
  painted l K (step child σ) σ' → painted (child :: l) K σ σ'.
Proof.
  intros Hd Hs Hc [P1 P2 P3 P4 P5 P6 P7].
  rewrite (step_dom _ _ Hstep) in P1. split.
  - done.
  - intros v Hv. destruct (P2 v Hv) as [H1 H2]. by rewrite (step_dom _ _ Hstep), (step_color _ _ Hstep) in *.
  - intros v. rewrite P3. by rewrite (step_color _ _ Hstep).
  - intros v Hv. destruct (P4 v Hv) as [k ->]. destruct (step_rc _ _ Hstep child σ v Hd) as [k' ->].
    rewrite occ_cons. exists (k + k'). case_decide; lia.
  - done.
  - intros v [->|Hv]%elem_of_cons Hv'; [|auto]. rewrite P3, (step_color _ _ Hstep), Hc. by case_decide.
  - intros u Hu. destruct (P7 u Hu) as (v & Hv & ?). exists v. split; [by right|done].
Qed.

(** A child visited, then the rest of the list. *)
Lemma painted_visit child l K1 K2 σ σ1 σ2 :
  child ∈ dom σ → is_shared g child = false →
  visited child K1 (step child σ) σ1 → painted l K2 σ1 σ2 →
  painted (child :: l) (K1 ∪ K2) σ σ2.
Proof.
  intros Hd Hs (V1 & V2 & V3 & V4 & V5 & V6 & V7) [P1 P2 P3 P4 P5 P6 P7].
  rewrite (step_dom _ _ Hstep) in V1.
  assert (K1 ## K2) as Hdis.
  { intros v H1 H2. apply P2 in H2 as [_ H2]. rewrite V3, decide_True in H2 by done. done. }
  assert (∀ v, gc_color σ1 v = c → gc_color σ2 v = c) as Hmono.
  { intros v Hv. rewrite P3. by case_decide. }
  split.
  - congruence.
  - intros v [Hv|Hv]%elem_of_union.
    + destruct (V2 v Hv) as [H1 H2]. by rewrite (step_dom _ _ Hstep), (step_color _ _ Hstep) in *.
    + destruct (P2 v Hv) as [H1 H2]. rewrite V3 in H2. rewrite V1 in H1. split; [done|].
      rewrite decide_False in H2 by set_solver. by rewrite (step_color _ _ Hstep) in H2.
  - intros v. rewrite P3, V3, (step_color _ _ Hstep). repeat case_decide; set_solver.
  - intros v Hv. destruct (P4 v Hv) as [k ->]. destruct (V4 v Hv) as [k' ->].
    destruct (step_rc _ _ Hstep child σ v Hd) as [k'' ->].
    rewrite occ_cons, edges_union by done. exists (k + k' + k''). case_decide; lia.
  - intros u v [Hu|Hu]%elem_of_union He; [apply Hmono|]; eauto.
  - intros v [->|Hv]%elem_of_cons Hv'; [|auto]. apply Hmono. rewrite V3. by rewrite decide_True.
  - intros u [Hu|Hu]%elem_of_union.
    + exists child. split; [by left|]. eauto.
    + destruct (P7 u Hu) as (v & Hv & ?). exists v. split; [by right|done].
Qed.

(** The object itself, then its children. *)
Lemma visited_intro s K σ σ' :
  s ∈ dom σ → gc_color σ s ≠ c →
  painted (gc_children g s) K (gc_set_color c s σ) σ' → visited s ({[ s ]} ∪ K) σ σ'.
Proof.
  intros Hd Hc [P1 P2 P3 P4 P5 P6 P7]. rewrite dom_set in P1.
  assert (s ∉ K) as Hs.
  { intros H. apply P2 in H as [_ H]. rewrite color_set, decide_True in H; done. }
  split_and!.
  - done.
  - intros v [->%elem_of_singleton|Hv]%elem_of_union; [done|].
    destruct (P2 v Hv) as [H1 H2]. rewrite dom_set, color_set in * by done. split; [done|].
    case_decide; congruence.
  - intros v. rewrite P3, color_set by done. repeat case_decide; set_solver.
  - intros v Hv. destruct (P4 v Hv) as [k ->]. rewrite rc_set. exists k.
    rewrite edges_union by set_solver. unfold edges at 2. rewrite total_singleton. lia.
  - intros u v [->%elem_of_singleton|Hu]%elem_of_union He; [|eauto].
    destruct He. auto.
  - set_solver.
  - intros u [->%elem_of_singleton|Hu]%elem_of_union; [done|].
    destruct (P7 u Hu) as (v & Hv & Hv' & Hr). by apply rtc_l with v.
Qed.

(** Every walk that returns paints as promised. *)
Lemma paint_spec fuel s σ σ' :
  closed (dom σ) → s ∈ dom σ → gc_color σ s ≠ c → paint fuel s σ = Some σ' →
  ∃ K, visited s K σ σ'.
Proof.
  revert s σ σ'. induction fuel as [|fuel IH]; intros s σ σ' Hcl Hs Hc; simpl; [done|].
  set (body := λ child σ, if is_shared g child then Some σ else _).
  assert (∀ l σ σ', closed (dom σ) → (∀ v, v ∈ l → is_shared g v = false → v ∈ dom σ) →
            fold_opt body l σ = Some σ' → ∃ K, painted l K σ σ') as Hfold.
  { clear s σ σ' Hcl Hs Hc. induction l as [|child l IHl]; intros σ σ' Hcl Hl; simpl.
    - intros [= ->]. exists ∅. apply painted_nil.
    - unfold body at 1. destruct (is_shared g child) eqn:Es.
      + intros H. destruct (IHl _ _ Hcl ltac:(set_solver) H) as [K HK].
        exists K. by apply painted_shared.
      + assert (child ∈ dom σ) as Hch by (apply Hl; [left|done]).
        case_decide as Hcc.
        * intros H. apply IHl in H as [K HK]; [|by rewrite (step_dom _ _ Hstep)|rewrite (step_dom _ _ Hstep); set_solver].
          exists K. rewrite (step_color _ _ Hstep) in Hcc. by apply painted_seen.
        * destruct (paint fuel child (step child σ)) as [σ1|] eqn:E1; [|done].
          intros H. apply IH in E1 as [K1 HK1]; [|by rewrite (step_dom _ _ Hstep)..|done].
          pose proof HK1 as (D1 & _). rewrite (step_dom _ _ Hstep) in D1.
          apply IHl in H as [K2 HK2]; [|by rewrite D1|rewrite D1; set_solver].
          exists (K1 ∪ K2). by eapply painted_visit. }
  intros H. apply Hfold in H as [K HK]; [|by rewrite dom_set|].
  - exists ({[ s ]} ∪ K). by apply visited_intro.
  - intros v Hv Hv'. rewrite dom_set. by apply (Hcl s).
Qed.
(** The objects a walk may still paint. *)
Definition todo (σ : Headers) : gset Id := filter (λ v, gc_color σ v ≠ c) (dom σ).

Lemma visited_todo s K σ σ' : visited s K σ σ' → todo σ' ⊆ todo σ.
Proof.
  intros (V1 & _ & V3 & _) v. unfold todo. rewrite !elem_of_filter, V1, V3. case_decide; tauto.
Qed.

Lemma todo_step child σ : todo (step child σ) = todo σ.
Proof.
  unfold todo. apply set_eq. intros v.
  by rewrite !elem_of_filter, (step_dom _ _ Hstep), (step_color _ _ Hstep).
Qed.

Lemma todo_set s σ : s ∈ dom σ → todo (gc_set_color c s σ) = todo σ ∖ {[ s ]}.
Proof.
  intros Hs. unfold todo. apply set_eq. intros v.
  rewrite elem_of_difference, !elem_of_filter, dom_set, color_set, elem_of_singleton by done.
  case_decide; naive_solver.
Qed.

(** Fuel for every object still to paint is enough. *)
Lemma paint_total fuel s σ :
  closed (dom σ) → s ∈ dom σ → gc_color σ s ≠ c → (size (todo σ) ≤ fuel)%nat →
  is_Some (paint fuel s σ).
Proof.
  revert s σ. induction fuel as [|fuel IH]; intros s σ Hcl Hs Hc Hf.
  - exfalso. assert (s ∈ todo σ) as H by (by apply elem_of_filter).
    apply Nat.le_0_r, size_empty_inv in Hf. set_solver.
  - simpl. set (body := λ child σ, if is_shared g child then Some σ else _).
    assert (∀ l σ, closed (dom σ) → (∀ v, v ∈ l → is_shared g v = false → v ∈ dom σ) →
              (size (todo σ) ≤ fuel)%nat → is_Some (fold_opt body l σ)) as Hfold.
    { clear s σ Hcl Hs Hc Hf. induction l as [|child l IHl]; intros σ Hcl Hl Hf; simpl; [eauto|].
      unfold body at 1. destruct (is_shared g child) eqn:Es; [apply IHl; set_solver|].
      assert (child ∈ dom σ) as Hch by (apply Hl; [left|done]).
      case_decide as Hcc.
      - apply IHl; rewrite ?todo_step, ?(step_dom _ _ Hstep); [done|set_solver|done].
      - assert (closed (dom (step child σ))) as Hcl' by by rewrite (step_dom _ _ Hstep).
        assert (child ∈ dom (step child σ)) as Hch' by by rewrite (step_dom _ _ Hstep).
        destruct (IH child (step child σ)) as [σ1 E1]; [done..|by rewrite todo_step|].
        rewrite E1. destruct (paint_spec _ _ _ _ Hcl' Hch' Hcc E1) as [K HK].
        pose proof HK as (D1 & _). rewrite (step_dom _ _ Hstep) in D1.
        apply IHl; rewrite ?D1; [done|set_solver|].
        apply visited_todo in HK. rewrite todo_step in HK. apply subseteq_size in HK. lia. }
    apply Hfold.
    + by rewrite dom_set.
    + intros v Hv Hv'. rewrite dom_set. by apply (Hcl s).
    + assert (s ∈ todo σ) as Hin by (by apply elem_of_filter).
      rewrite todo_set, size_difference, size_singleton by (done || set_solver). lia.
Qed.

Lemma paint_range fuel s σ σ' : in_range σ → paint fuel s σ = Some σ' → in_range σ'.
Proof.
  revert s σ σ'. induction fuel as [|fuel IH]; intros s σ σ' Hr; simpl; [done|].
  apply (range_set c s) in Hr. revert Hr. generalize (gc_set_color c s σ). clear σ.
  induction (gc_children g s) as [|child l IHl]; intros σ Hr; simpl; [by intros [= ->]|].
  destruct (is_shared g child); [by apply IHl|].
  case_decide; [apply IHl; by apply Hstep|].
  destruct (paint fuel child (step child σ)) as [σ1|] eqn:E; [|done]. apply IHl.
  eapply IH; [|exact E]. by apply Hstep.
Qed.
End Paint.

(** *** The walks of the code *)

Lemma fold_opt_impl {A S} (f h : A → S → option S) l s s' :
  (∀ a s s', f a s = Some s' → h a s = Some s') → fold_opt f l s = Some s' →
  fold_opt h l s = Some s'.
Proof.
  intros H. revert s. induction l as [|a l IH]; intros s; simpl; [done|].
  destruct (f a s) as [s1|] eqn:E; [|done]. rewrite (H _ _ _ E). apply IH.
Qed.

Lemma fold_opt_ext {A S} (f h : A → S → option S) l s :
  (∀ a s, f a s = h a s) → fold_opt f l s = fold_opt h l s.
Proof.
  intros H. revert s. induction l as [|a l IH]; intros s; simpl; [done|]. rewrite H.
  by destruct (h a s).
Qed.

Section Walks.
Context (g : Graph).

Lemma mark_gray_paint fuel s σ σ' :
  gc_color σ s ≠ Gray → mark_gray g fuel s σ = Some σ' → paint g Gray (rc_move (-1)) fuel s σ = Some σ'.
Proof.
  revert s σ σ'. induction fuel as [|fuel IH]; intros s σ σ' Hc; simpl; [done|].
  rewrite decide_False by done. apply fold_opt_impl. intros child σ1 σ2.
  destruct (is_shared g child); [done|]. change (gc_rc_dec child σ1) with (rc_move (-1) child σ1).
  case_decide as E; [|by apply IH]. destruct fuel; simpl; [done|]. by rewrite decide_True.
Qed.

Lemma mark_gray_S fuel s σ :
  mark_gray g (S fuel) s σ =
    if decide (gc_color σ s = Gray) then Some σ
    else fold_opt (λ child σ,
           if is_shared g child then Some σ else mark_gray g fuel child (gc_rc_dec child σ))
           (gc_children g s) (gc_set_color Gray s σ).
Proof. done. Qed.

Lemma mark_S fuel s σ :
  mark g (S fuel) s σ =
    if is_shared g s || bool_decide (gc_color σ s = Gray) then Some σ
    else fold_opt (mark g fuel) (gc_children g s) (gc_set_color Gray s σ).
Proof. done. Qed.

Lemma paint_mark_gray fuel s σ σ' :
  gc_color σ s ≠ Gray → paint g Gray (rc_move (-1)) fuel s σ = Some σ' →
  mark_gray g (S fuel) s σ = Some σ'.
Proof.
  revert s σ σ'. induction fuel as [|fuel IH]; intros s σ σ' Hc; [done|]. 
  rewrite mark_gray_S, decide_False by done. cbn [paint].
  apply fold_opt_impl. intros child σ1 σ2. destruct (is_shared g child); [done|].
  change (gc_rc_dec child σ1) with (rc_move (-1) child σ1).
  case_decide as E; [|by apply IH]. rewrite mark_gray_S. by rewrite decide_True.
Qed.

Lemma scan_black_paint fuel s σ : scan_black g fuel s σ = paint g Black (rc_move 1) fuel s σ.
Proof.
  revert s σ. induction fuel as [|fuel IH]; intros s σ; simpl; [done|].
  apply fold_opt_ext. intros child σ1. destruct (is_shared g child); [done|].
  change (gc_rc_inc child σ1) with (rc_move 1 child σ1). by case_decide.
Qed.

Lemma mark_paint fuel s σ σ' :
  is_shared g s = false → gc_color σ s ≠ Gray → mark g fuel s σ = Some σ' →
  paint g Gray (λ _ σ, σ) fuel s σ = Some σ'.
Proof.
  revert s σ σ'. induction fuel as [|fuel IH]; intros s σ σ' Hs Hc; simpl; [done|].
  rewrite Hs, bool_decide_false by done. apply fold_opt_impl. intros child σ1 σ2.
  destruct (is_shared g child) eqn:E.
  - destruct fuel; simpl; [done|]. by rewrite E.
  - case_decide as Ec; [|by apply IH]. destruct fuel; simpl; [done|].
    by rewrite E, bool_decide_true.
Qed.

Lemma paint_mark fuel s σ σ' :
  is_shared g s = false → gc_color σ s ≠ Gray → paint g Gray (λ _ σ, σ) fuel s σ = Some σ' →
  mark g (S fuel) s σ = Some σ'.
Proof.
  revert s σ σ'. induction fuel as [|fuel IH]; intros s σ σ' Hs Hc; [done|].
  rewrite mark_S, Hs, bool_decide_false by done. cbn [paint].
  apply fold_opt_impl. intros child σ1 σ2. destruct (is_shared g child) eqn:E.
  - by rewrite mark_S, E.
  - case_decide as Ec; [|by apply IH]. by rewrite mark_S, E, bool_decide_true.
Qed.
End Walks.
