(* ===== verification/GcTrial.v ===== *)
(** Trial deletion: the invariants of its three phases. *)
From S2P Require Import Prelude Gc GcPaint.
From stdpp Require Import relations options.
Open Scope Z_scope.

(** A heap as a trial deletion finds it: references counted stay within it, no
    object is being collected, and every count covers the references to it.  (A
    trace leaves leaves gray; but a heap is collected by one mode or the other.) *)
Record heap_ok (g : Graph) (σ : Headers) : Prop := {
  ok_closed : closed g (dom σ);
  ok_range : in_range σ;
  ok_color : ∀ v, gc_color σ v = Black ∨ gc_color σ v = Purple;
  ok_counts : ∀ v, v ∈ dom σ → is_shared g v = false → edges g (dom σ) v ≤ rc σ v;
}.

Section Trial.
Context (g : Graph).

Lemma color_buffered b v σ w : gc_color (gc_set_buffered b v σ) w = gc_color σ w.
Proof.
  unfold gc_color, gc_set_buffered. destruct (decide (w = v)) as [->|].
  - rewrite lookup_alter, decide_True by done. by destruct (σ !! v).
  - by rewrite lookup_alter_ne.
Qed.

Lemma rc_buffered b v σ w : rc (gc_set_buffered b v σ) w = rc σ w.
Proof.
  unfold rc, gc_set_buffered. destruct (decide (w = v)) as [->|].
  - rewrite lookup_alter, decide_True by done. by destruct (σ !! v).
  - by rewrite lookup_alter_ne.
Qed.

Lemma dom_buffered b v σ : dom (gc_set_buffered b v σ) = dom σ.
Proof. apply dom_alter_L. Qed.

Context (σ0 : Headers) (Hok : heap_ok g σ0).

Definition roots_ok (roots : list Id) : Prop :=
  ∀ v, v ∈ roots → v ∈ dom σ0 ∧ is_shared g v = false.

(** *** Marking the candidates *)

(** [M] is what has been trial-deleted from the roots [gray]. *)
Record marked (M : gset Id) (gray : list Id) (σ : Headers) : Prop := {
  m_dom : dom σ = dom σ0;
  m_sub : ∀ v, v ∈ M → v ∈ dom σ0 ∧ is_shared g v = false;
  m_color : ∀ v, gc_color σ v = if decide (v ∈ M) then Gray else gc_color σ0 v;
  m_rc : ∀ v, is_shared g v = false → cong (rc σ v) (rc σ0 v - edges g M v);
  m_range : in_range σ;
  m_closed : closed g M;
  m_gray : ∀ v, v ∈ gray → v ∈ M;
  m_reach : ∀ v, v ∈ M → ∃ r, r ∈ gray ∧ rtc (edge g) r v;
}.

Lemma marked_init : marked ∅ [] σ0.
Proof using Hok.
  split; try done; try set_solver; try apply Hok.
  intros v _. exists 0. unfold edges. rewrite total_empty. lia.
Qed.

Lemma marked_buffered M gray b s σ : marked M gray σ → marked M gray (gc_set_buffered b s σ).
Proof.
  intros [? ? ? ? Hr ? ? ?]. split; try done.
  - by rewrite dom_buffered.
  - intros v. by rewrite color_buffered.
  - intros v. rewrite rc_buffered. auto.
  - intros v. rewrite rc_buffered. apply Hr.
Qed.

Lemma marked_visit M gray s σ σ' fuel :
  s ∈ dom σ0 → is_shared g s = false → gc_color σ s = Purple →
  marked M gray σ → mark_gray g fuel s σ = Some σ' →
  ∃ M', M ⊆ M' ∧ s ∈ M' ∧ marked M' (gray ++ [s]) σ'.
Proof using Hok.
  intros Hs Hsh Hp [M1 M2 M3 M4 M5 M6 M7 M8] H.
  apply mark_gray_paint in H; [|congruence].
  pose proof (paint_range _ _ _ _ (counting_move (-1)) _ _ _ _ M5 H) as Hr.
  apply (paint_spec _ _ _ _ (counting_move (-1))) in H as [K (V1 & V2 & V3 & V4 & V5 & V6 & V7)];
    [|rewrite M1; apply Hok|by rewrite M1|congruence].
  assert (M ## K) as Hdis.
  { intros v H1 H2. apply V2 in H2 as [_ H2]. rewrite M3, decide_True in H2; done. }
  assert (∀ v, gc_color σ' v = Gray → v ∈ M ∪ K) as Hgray.
  { intros v. rewrite V3, M3. rewrite elem_of_union. repeat case_decide; auto.
    destruct (ok_color _ _ Hok v); congruence. }
  assert (∀ u, u ∈ K → is_shared g u = false) as HK.
  { intros u Hu%V7. apply rtc_inv_r in Hu as [->|(y & _ & [_ Hy])]; done. }
  exists (M ∪ K). split; [by apply union_subseteq_l|].
  split; [by apply elem_of_union_r|]. split.
  - congruence.
  - intros v [Hv|Hv]%elem_of_union; [auto|]. split; [|auto]. rewrite <- M1. by apply V2.
  - intros v. rewrite V3, M3. repeat case_decide; rewrite elem_of_union in *; tauto.
  - intros v Hv. destruct (V4 v Hv) as [k ->]. destruct (M4 v Hv) as [k' ->].
    rewrite edges_union by done. exists (k + k'). lia.
  - done.
  - intros u v [Hu|Hu]%elem_of_union He; [apply elem_of_union_l; by apply (M6 u)|].
    apply Hgray. by apply (V5 u).
  - intros v. rewrite elem_of_app, list_elem_of_singleton. rewrite elem_of_union.
    intros [Hv| ->]; auto.
  - intros v [Hv|Hv]%elem_of_union.
    + destruct (M8 v Hv) as (r & ? & ?). exists r. rewrite elem_of_app. auto.
    + exists s. rewrite elem_of_app, list_elem_of_singleton. auto.
Qed.

(** The candidate loop. *)
Lemma mark_candidates fuel roots M gray deferred σ σ' gray' deferred' :
  roots_ok roots → marked M gray σ →
  fold_opt (mark_candidate g fuel) roots (σ, gray, deferred) = Some (σ', gray', deferred') →
  ∃ M', M ⊆ M' ∧ marked M' gray' σ' ∧
    (∀ v, v ∈ roots → gc_color σ0 v = Purple → v ∈ M') ∧
    (∀ v, v ∈ deferred' → v ∈ deferred ∨ v ∈ roots) ∧
    (∀ v, v ∈ gray' → v ∈ gray ∨ (v ∈ roots ∧ gc_color σ0 v = Purple)).
Proof using Hok.
  revert M gray deferred σ. induction roots as [|s roots IH]; intros M gray deferred σ Hroots HM; simpl.
  { intros [= -> -> ->]. exists M. split_and!; [done|done|set_solver..]. }
  destruct (Hroots s) as [Hs Hsh]; [set_solver|].
  assert (roots_ok roots) as Hroots' by (intros v Hv; apply Hroots; set_solver).
  apply (marked_buffered _ _ false s) in HM. pose proof HM as HM0. set (σ1 := gc_set_buffered false s σ) in *.
  case_decide as Hp.
  - destruct (mark_gray g fuel s σ1) as [σ2|] eqn:E; [|done]. intros H.
    destruct (marked_visit _ _ _ _ _ _ Hs Hsh Hp HM E) as (M2 & HM2 & Hs2 & Hm).
    destruct (IH _ _ _ _ Hroots' Hm H) as (M' & HM' & Hm' & Hp' & Hd & Hg).
    exists M'. split_and!; [by transitivity M2|done| | |].
    + intros v [->|Hv]%elem_of_cons ?; auto.
    + intros v Hv%Hd. rewrite elem_of_cons. tauto.
    + intros v Hv%Hg. rewrite elem_of_app, list_elem_of_singleton, elem_of_cons in *.
      destruct Hv as [[Hv| ->]|[Hv ?]]; [tauto| |tauto]. right. split; [tauto|].
      rewrite (m_color _ _ _ HM0) in Hp. by case_decide.
  - intros H. destruct (IH _ _ _ _ Hroots' HM H) as (M' & HM' & Hm' & Hp' & Hd & Hg).
    exists M'. split_and!; [done|done| | |].
    + intros v [->|Hv]%elem_of_cons Hpv; [|auto]. apply HM'.
      rewrite (m_color _ _ _ HM) in Hp. by case_decide.
    + intros v Hv%Hd. rewrite elem_of_app, list_elem_of_singleton, elem_of_cons in *. tauto.
    + intros v Hv%Hg. rewrite elem_of_cons. tauto.
Qed.

(** *** Scanning *)
Section Scan.
Context (M : gset Id) (HMsub : ∀ v, v ∈ M → v ∈ dom σ0 ∧ is_shared g v = false)
  (HMclosed : closed g M).
Set Default Proof Using "All".

(** Members not restored yet: their references are still taken off. *)
Definition pend (σ : Headers) : gset Id := filter (λ v, gc_color σ v ≠ Black) M.

Record scanning (σ : Headers) : Prop := {
  s_dom : dom σ = dom σ0;
  s_out : ∀ v, v ∉ M → gc_color σ v = gc_color σ0 v;
  s_in : ∀ v, v ∈ M → gc_color σ v ≠ Purple;
  s_rc : ∀ v, is_shared g v = false → cong (rc σ v) (rc σ0 v - edges g (pend σ) v);
  s_range : in_range σ;
  s_white : ∀ v, v ∈ M → gc_color σ v = White → rc σ v = 0;
  s_black : ∀ u v, u ∈ M → gc_color σ u = Black → edge g u v → gc_color σ v = Black;
}.

Lemma scanning_gray σ v : scanning σ → gc_color σ v = Gray → v ∈ M.
Proof.
  intros Hs Hv. destruct (decide (v ∈ M)); [done|]. rewrite (s_out _ Hs) in Hv by done.
  destruct (ok_color _ _ Hok v); congruence.
Qed.

Lemma scanning_white σ v : scanning σ → gc_color σ v = White → v ∈ M.
Proof.
  intros Hs Hv. destruct (decide (v ∈ M)); [done|]. rewrite (s_out _ Hs) in Hv by done.
  destruct (ok_color _ _ Hok v); congruence.
Qed.

Lemma scanning_init gray σ : marked M gray σ → scanning σ.
Proof.
  intros [M1 M2 M3 M4 M5 M6 M7 M8].
  assert (pend σ = M) as Hp.
  { apply set_eq. intros v. unfold pend. rewrite elem_of_filter, M3. case_decide; naive_solver. }
  split; try done.
  - intros v Hv. by rewrite M3, decide_False.
  - intros v Hv. by rewrite M3, decide_True.
  - by rewrite Hp.
  - intros v Hv. by rewrite M3, decide_True.
  - intros u v Hu. by rewrite M3, decide_True.
Qed.

(** An object whose references are all accounted for turns white. *)
Lemma scanning_turn_white s σ :
  scanning σ → gc_color σ s = Gray → ¬ rc σ s > 0 → scanning (gc_set_color White s σ).
Proof.
  intros Hs Hg Hrc. pose proof (scanning_gray σ s Hs Hg) as HM.
  assert (s ∈ dom σ) as Hd by (rewrite (s_dom _ Hs); by apply HMsub).
  assert (pend (gc_set_color White s σ) = pend σ) as Hp.
  { apply set_eq. intros v. unfold pend. rewrite !elem_of_filter, color_set by done.
    case_decide as E; [subst; rewrite Hg|]; naive_solver. }
  destruct Hs as [S1 S2 S3 S4 S5 S6 S7]. split.
  - by rewrite dom_set.
  - intros v Hv. rewrite color_set, decide_False by (done || congruence). auto.
  - intros v Hv. rewrite color_set by done. case_decide; [done|auto].
  - intros v Hv. rewrite rc_set, Hp. auto.
  - by apply range_set.
  - intros v Hv. rewrite color_set, rc_set by done. case_decide as E; [|auto].
    subst. specialize (S5 s). lia.
  - intros u v Hu. rewrite !color_set by done. case_decide as E; [done|]. intros Hb He.
    case_decide as E'; [|eauto]. subst. specialize (S7 u s Hu Hb He). congruence.
Qed.

(** Restoring everything reachable from an object that is still counted. *)
Lemma scanning_restore s K σ σ' :
  scanning σ → in_range σ' → gc_color σ s = Gray → visited g Black 1 s K σ σ' → scanning σ'.
Proof.
  intros Hs Hr Hg (V1 & V2 & V3 & V4 & V5 & V6 & V7).
  pose proof (scanning_gray σ s Hs Hg) as HM.
  assert (∀ u v, u ∈ M → rtc (edge g) u v → v ∈ M) as Hreach.
  { intros u v Hu. induction 1; [done|eauto]. }
  assert (K ⊆ M) as HKM by (intros u Hu; eauto).
  assert (pend σ = pend σ' ∪ K ∧ pend σ' ## K) as [Hp Hdis].
  { split.
    - apply set_eq. intros v. unfold pend. rewrite elem_of_union, !elem_of_filter, V3.
      case_decide as E; [|tauto]. specialize (V2 v E) as [_ ?]. specialize (HKM v E). tauto.
    - intros v. unfold pend. rewrite elem_of_filter, V3. intros [Hv _] HvK.
      by rewrite decide_True in Hv. }
  destruct Hs as [S1 S2 S3 S4 S5 S6 S7]. split.
  - congruence.
  - intros v Hv. rewrite V3, decide_False; auto.
  - intros v Hv. rewrite V3. case_decide; auto.
  - intros v Hv. destruct (V4 v Hv) as [k ->], (S4 v Hv) as [k' ->].
    rewrite Hp, edges_union by done. exists (k + k'). lia.
  - done.
  - intros v Hv. rewrite V3. case_decide as E; [done|]. intros Hw.
    rewrite <- (S6 v Hv Hw). apply cong_eq; [|apply Hr|apply S5].
    destruct (HMsub v Hv) as [_ Hsh]. destruct (V4 v Hsh) as [k ->].
    replace (edges g K v) with 0; [exists k; lia|]. symmetry. apply total_zero.
    intros u Hu. apply occ_zero. intros Hc. assert (gc_color σ' v = Black) as Hb by (by apply (V5 u)).
    rewrite V3, decide_False in Hb by done. congruence.
  - intros u v Hu. rewrite V3. case_decide as E; intros Hb He; [by apply (V5 u)|].
    rewrite V3. case_decide; [done|]. by apply (S7 u).
Qed.

(** [X]: members referenced only from [X]. *)
Context (X : gset Id) (HX : ∀ x, x ∈ X → x ∈ M ∧ rc σ0 x = edges g X x).

Definition spared (σ : Headers) : Prop := ∀ x, x ∈ X → gc_color σ x ≠ Black.

Lemma X_pred u v : u ∈ dom σ0 → edge g u v → v ∈ X → u ∈ X.
Proof.
  intros Hu [He Hsh] Hv. destruct (decide (u ∈ X)) as [|Hn]; [done|]. exfalso.
  destruct (HX v Hv) as [HM Hrc]. destruct (HMsub v HM) as [Hd _].
  pose proof (ok_counts _ _ Hok v Hd Hsh) as Hc.
  assert (X ∪ {[ u ]} ⊆ dom σ0) as Hsub.
  { intros w [Hw|Hw]%elem_of_union; [|by apply elem_of_singleton in Hw as ->].
    by apply HMsub, HX. }
  pose proof (total_mono (λ u, occ v (gc_children g u)) _ _ (λ u, occ_nonneg _ _) Hsub) as Hm.
  change (edges g (X ∪ {[ u ]}) v ≤ edges g (dom σ0) v) in Hm.
  rewrite edges_union in Hm by set_solver. unfold edges at 2 in Hm. rewrite total_singleton in Hm.
  pose proof (occ_pos _ _ He). lia.
Qed.

Lemma spared_restore s K σ σ' :
  scanning σ → spared σ → s ∈ M → rc σ s > 0 → visited g Black 1 s K σ σ' → spared σ'.
Proof.
  intros Hs Hsp HM Hrc (V1 & V2 & V3 & V4 & V5 & V6 & V7) x Hx.
  assert (s ∉ X) as HsX.
  { intros HsX. destruct (HX s HsX) as [_ E]. destruct (HMsub s HM) as [Hd Hsh].
    assert (X ⊆ pend σ) as H1.
    { intros y Hy. apply elem_of_filter. split; [by apply Hsp|by apply HX]. }
    assert (pend σ ⊆ dom σ0) as H2.
    { intros y [_ Hy]%elem_of_filter. by apply HMsub. }
    pose proof (total_mono (λ u, occ s (gc_children g u)) _ _ (λ u, occ_nonneg _ _) H1) as L1.
    pose proof (total_mono (λ u, occ s (gc_children g u)) _ _ (λ u, occ_nonneg _ _) H2) as L2.
    pose proof (ok_counts _ _ Hok s Hd Hsh). unfold edges in *.
    enough (rc σ s = 0) by lia. apply cong_eq; [|apply Hs|lia].
    destruct (s_rc _ Hs s Hsh) as [k ->]. unfold edges. exists k. lia. }
  rewrite V3. case_decide as E; [|by apply Hsp]. exfalso. apply V7 in E.
  assert (∀ u v, rtc (edge g) u v → u ∈ M → v ∈ X → u ∈ X) as Hback.
  { intros u v. induction 1 as [|u w v Huw _ IH]; [done|]. intros Hu Hv.
    apply (X_pred u w); [by apply HMsub|done|]. apply IH; [|done]. by apply (HMclosed u). }
  by apply HsX, (Hback s x).
Qed.

(** What one scan promises. *)
Definition scanned (s : Id) (σ σ' : Headers) : Prop :=
  scanning σ' ∧ spared σ' ∧ gc_color σ' s ≠ Gray ∧
  (∀ v, gc_color σ v ≠ Gray → gc_color σ' v ≠ Gray) ∧
  (∀ u, gc_color σ u ≠ White → gc_color σ' u = White →
     ∀ v, edge g u v → gc_color σ' v ≠ Gray).

(** The same of a list of objects. *)
Definition scanned_list (l : list Id) (σ σ' : Headers) : Prop :=
  scanning σ' ∧ spared σ' ∧ (∀ v, v ∈ l → gc_color σ' v ≠ Gray) ∧
  (∀ v, gc_color σ v ≠ Gray → gc_color σ' v ≠ Gray) ∧
  (∀ u, gc_color σ u ≠ White → gc_color σ' u = White →
     ∀ v, edge g u v → gc_color σ' v ≠ Gray).

Lemma scan_list fuel l σ σ' :
  (∀ s σ σ', scanning σ → spared σ → scan g fuel s σ = Some σ' → scanned s σ σ') →
  scanning σ → spared σ → fold_opt (scan g fuel) l σ = Some σ' → scanned_list l σ σ'.
Proof.
  intros IH. revert σ. induction l as [|s l IHl]; intros σ Hs Hsp; simpl.
  { intros [= ->]. split_and!; try done. set_solver. }
  destruct (scan g fuel s σ) as [σ1|] eqn:E; [|done]. intros H.
  destruct (IH _ _ _ Hs Hsp E) as (A1 & A2 & A3 & A4 & A5).
  destruct (IHl _ A1 A2 H) as (B1 & B2 & B3 & B4 & B5).
  split_and!; [done|done| |auto|].
  - intros v [->|Hv]%elem_of_cons; auto.
  - intros u Hu Hw v He. destruct (decide (gc_color σ1 u = White)); [|by apply (B5 u)].
    apply B4. by apply (A5 u).
Qed.

Lemma scan_spec fuel s σ σ' :
  scanning σ → spared σ → scan g fuel s σ = Some σ' → scanned s σ σ'.
Proof.
  revert s σ σ'. induction fuel as [|fuel IH]; intros s σ σ' Hs Hsp; [done|].
  cbn [scan]. case_decide as Hg; [intros [= ->]; by split_and!|].
  assert (gc_color σ s = Gray) as Hgr by (by destruct (gc_color σ s)). clear Hg.
  pose proof (scanning_gray σ s Hs Hgr) as HM. case_decide as Hrc; intros H.
  - rewrite scan_black_paint in H.
    pose proof (paint_range _ _ _ _ (counting_move 1) _ _ _ _ (s_range _ Hs) H) as Hr.
    apply (paint_spec _ _ _ _ (counting_move 1)) in H as [K HK];
      [|rewrite (s_dom _ Hs); apply Hok|rewrite (s_dom _ Hs); by apply HMsub|congruence].
    split_and!; [by eapply scanning_restore|by eapply spared_restore|..];
      destruct HK as (V1 & V2 & V3 & V4 & V5 & V6 & V7).
    + by rewrite V3, decide_True.
    + intros v Hv. rewrite V3. by case_decide.
    + intros u Hu Hw. rewrite V3 in Hw. by case_decide.
  - assert (s ∈ dom σ) as Hd by (rewrite (s_dom _ Hs); by apply HMsub).
    apply scan_list in H as (A1 & A2 & A3 & A4 & A5);
      [|done|by apply scanning_turn_white|].
    2: { intros x Hx. rewrite color_set by done. case_decide; [done|by apply Hsp]. }
    assert (gc_color σ' s ≠ Gray) as Hs' by (apply A4; by rewrite color_set, decide_True).
    split_and!; try done.
    + intros v Hv. apply A4. rewrite color_set by done. by case_decide.
    + intros u Hu Hw v [He Hsh]. destruct (decide (u = s)) as [->|Hne]; [by apply A3|].
      apply (A5 u); [|done|done]. by rewrite color_set, decide_False.
Qed.
End Scan.
End Trial.
