(* ===== verification/GcFacts.v ===== *)
(** What the collectors guarantee: trial deletion hands back exactly the
    objects nothing outside them refers to, and the trace exactly the objects
    no root reaches. *)
From S2P Require Import Prelude Gc GcPaint GcTrial.
From stdpp Require Import relations options.
Open Scope Z_scope.

Section Gather.
Context (g : Graph).

(** Gathering the white objects reachable through white ones. *)
Record gathered (l : list Id) (σ σ' : Headers) : Prop := {
  g_rc : ∀ v, rc σ' v = rc σ v;
  g_dom : dom σ' = dom σ;
  g_white : ∀ v, v ∈ l → gc_color σ v = White;
  g_color : ∀ v, gc_color σ' v = if decide (v ∈ l) then Black else gc_color σ v;
  g_nodup : NoDup l;
  g_next : ∀ u v, u ∈ l → v ∈ gc_children g u → gc_color σ' v ≠ White;
}.

Lemma gathered_nil σ : gathered [] σ σ.
Proof. split; try done; try set_solver. constructor. Qed.

Lemma gathered_app l1 l2 σ σ1 σ2 : gathered l1 σ σ1 → gathered l2 σ1 σ2 → gathered (l1 ++ l2) σ σ2.
Proof.
  intros [A1 A2 A3 A4 A5 A6] [B1 B2 B3 B4 B5 B6].
  assert (∀ v, v ∈ l1 → v ∉ l2) as Hdis.
  { intros v H1 H2%B3. rewrite A4, decide_True in H2; done. }
  split.
  - intros v. congruence.
  - congruence.
  - intros v [Hv|Hv]%elem_of_app; [auto|]. specialize (B3 v Hv). rewrite A4 in B3.
    by case_decide.
  - intros v. rewrite B4, A4. repeat case_decide; rewrite elem_of_app in *; tauto.
  - apply NoDup_app. auto.
  - intros u v [Hu|Hu]%elem_of_app Hv; [|eauto]. rewrite B4. case_decide; [done|eauto].
Qed.

Lemma gather_white_spec fuel s st st' :
  gather_white g fuel s st = Some st' →
  ∃ l, st'.2 = st.2 ++ l ∧ gathered l st.1 st'.1 ∧ gc_color st'.1 s ≠ White.
Proof.
  revert s st st'. induction fuel as [|fuel IH]; intros s st st'; simpl; [done|].
  case_decide as Hw.
  2: { intros [= ->]. exists []. rewrite app_nil_r. split_and!; [done|apply gathered_nil|done]. }
  assert (∀ cs st st', fold_opt (gather_white g fuel) cs st = Some st' →
    ∃ l, st'.2 = st.2 ++ l ∧ gathered l st.1 st'.1 ∧ (∀ c, c ∈ cs → gc_color st'.1 c ≠ White))
    as Hfold.
  { clear s st st' Hw. induction cs as [|c cs IHc]; intros st st'; simpl.
    - intros [= ->]. exists []. rewrite app_nil_r. split_and!; [done|apply gathered_nil|set_solver].
    - destruct (gather_white g fuel c st) as [st1|] eqn:E; [|done]. intros H.
      destruct (IH _ _ _ E) as (l1 & E1 & G1 & N1). destruct (IHc _ _ H) as (l2 & E2 & G2 & N2).
      exists (l1 ++ l2). split_and!; [by rewrite E2, E1, app_assoc|by eapply gathered_app|].
      intros c' [->|Hc]%elem_of_cons; [|auto]. rewrite (g_color _ _ _ G2). by case_decide. }
  intros (l & E & G & N)%Hfold. simpl in *.
  assert (s ∈ dom st.1) as Hd.
  { unfold gc_color in Hw. destruct (st.1 !! s) eqn:Es; [|done]. by apply elem_of_dom_2 in Es. }
  exists (s :: l). split; [by rewrite E, <- app_assoc|].
  destruct G as [A1 A2 A3 A4 A5 A6].
  assert (s ∉ l) as Hsl.
  { intros H%A3. rewrite color_set, decide_True in H; done. }
  split.
  - split.
    + intros v. by rewrite A1, rc_set.
    + by rewrite A2, dom_set.
    + intros v [->|Hv]%elem_of_cons; [done|]. specialize (A3 v Hv).
      rewrite color_set in A3 by done. by case_decide.
    + intros v. rewrite A4, color_set by done. repeat case_decide; set_solver.
    + by constructor.
    + intros u v [->|Hu]%elem_of_cons Hv; [auto|eauto].
  - rewrite A4, color_set, (decide_True (P := s = s)) by done. by case_decide.
Qed.

Lemma gather_all fuel cs st st' :
  fold_opt (gather_white g fuel) cs st = Some st' →
  ∃ l, st'.2 = st.2 ++ l ∧ gathered l st.1 st'.1 ∧ (∀ c, c ∈ cs → gc_color st'.1 c ≠ White).
Proof.
  revert st. induction cs as [|c cs IHc]; intros st; simpl.
  - intros [= ->]. exists []. rewrite app_nil_r. split_and!; [done|apply gathered_nil|set_solver].
  - destruct (gather_white g fuel c st) as [st1|] eqn:E; [|done]. intros H.
    destruct (gather_white_spec _ _ _ _ E) as (l1 & E1 & G1 & N1).
    destruct (IHc _ H) as (l2 & E2 & G2 & N2).
    exists (l1 ++ l2). split_and!; [by rewrite E2, E1, app_assoc|by eapply gathered_app|].
    intros c' [->|Hc]%elem_of_cons; [|auto]. rewrite (g_color _ _ _ G2). by case_decide.
Qed.

Lemma dedup_nodup l seen :
  NoDup l → (∀ v, v ∈ l → v ∉ seen) → dedup_seen seen l = (l, seen ∪ list_to_set l).
Proof.
  intros Hl. revert seen. induction Hl as [|v l Hv _ IH]; intros seen Hs; simpl.
  - f_equal. set_solver.
  - rewrite decide_False by (apply Hs; left). rewrite IH.
    + f_equal. set_solver.
    + intros w Hw. rewrite not_elem_of_union, not_elem_of_singleton.
      split; [by intros ->|apply Hs; by right].
Qed.

Lemma dedup_elem seen l v : v ∈ (dedup_seen seen l).1 ↔ v ∈ l ∧ v ∉ seen.
Proof.
  revert seen. induction l as [|w l IH]; intros seen; simpl; [set_solver|].
  case_decide as H.
  - rewrite IH, elem_of_cons. naive_solver.
  - specialize (IH ({[ w ]} ∪ seen)). destruct (dedup_seen _ l) as [l' s']. simpl in *.
    rewrite !elem_of_cons, IH, not_elem_of_union, not_elem_of_singleton. 
    destruct (decide (v = w)) as [->|]; tauto.
Qed.

(** *** The three phases together *)

Lemma closed_reach (M : gset Id) u v : closed g M → u ∈ M → rtc (edge g) u v → v ∈ M.
Proof. intros Hc Hu H. revert Hu. induction H as [|x y z Hxy _ IH]; [done|]. intros Hx. by apply IH, (Hc x). Qed.

(** After the scan every marked object is white or restored, whatever
    externally unreferenced set [X] one looks at. *)
Lemma scan_phase fuel σ M gray σ1 σ2 X :
  heap_ok g σ → marked g σ M gray σ1 → fold_opt (scan g fuel) gray σ1 = Some σ2 →
  (∀ x, x ∈ X → x ∈ M ∧ rc σ x = edges g X x) →
  scanning g σ M σ2 ∧ spared X σ2 ∧ (∀ v, v ∈ M → gc_color σ2 v ≠ Gray).
Proof.
  intros Hok HM H HX. pose proof HM as [M1 M2 M3 M4 M5 M6 M7 M8].
  assert (scanning g σ M σ1) as Hs by (by eapply scanning_init).
  assert (spared X σ1) as Hsp.
  { intros x Hx. rewrite M3, decide_True; [done|by apply HX]. }
  apply (scan_list g σ Hok M M2 M6 X HX) in H as (A1 & A2 & A3 & A4 & A5); [| |done|done].
  2: { intros s τ τ'. by apply scan_spec. }
  split_and!; [done|done|]. intros v Hv. destruct (M8 v Hv) as (r & Hr & Hrv).
  assert (r ∈ M) as HrM by auto. assert (gc_color σ2 r ≠ Gray) as Hrg by auto.
  clear Hv Hr. induction Hrv as [|x y z Hxy _ IH]; [done|].
  apply IH; [by apply (M6 x)|]. destruct (decide (gc_color σ2 x = White)) as [Hw|Hw].
  - apply (A5 x); [by rewrite M3, decide_True|done|done].
  - assert (gc_color σ2 x = Black) as Hb.
    { pose proof (s_in _ _ _ _ A1 x HrM). by destruct (gc_color σ2 x). }
    rewrite (s_black _ _ _ _ A1 x y); done.
Qed.

(** What is gathered is the white set. *)
Lemma gather_phase fuel σ M gray σ1 σ2 σ3 wh :
  heap_ok g σ → marked g σ M gray σ1 → fold_opt (scan g fuel) gray σ1 = Some σ2 →
  fold_opt (gather_white g fuel) gray (σ2, []) = Some (σ3, wh) →
  gathered wh σ2 σ3 ∧ (∀ v, v ∈ wh ↔ v ∈ M ∧ gc_color σ2 v = White).
Proof.
  intros Hok HM E2 E3.
  destruct (scan_phase _ _ _ _ _ _ ∅ Hok HM E2) as (S & _ & Hng); [set_solver|].
  apply gather_all in E3 as (l & E & G & N). simpl in *. subst wh.
  split; [done|]. intros v. split.
  - intros Hv%(g_white _ _ _ G). split; [|done]. by apply (scanning_white g σ Hok M (m_sub _ _ _ _ _ HM) (m_closed _ _ _ _ _ HM) σ2).
  - intros [HvM Hw]. destruct (m_reach _ _ _ _ _ HM v HvM) as (r & Hr & Hrv).
    assert (gc_color σ3 v ≠ White) as Hnw.
    2: { rewrite (g_color _ _ _ G) in Hnw. by case_decide. }
    assert (r ∈ M) as HrM by (by eapply m_gray). specialize (N r Hr). clear Hw HvM Hr.
    induction Hrv as [|x y z Hxy _ IH]; [done|].
    apply IH; [|by apply (m_closed _ _ _ _ _ HM x)].
    destruct (decide (x ∈ l)) as [Hx|Hx]; [apply (g_next _ _ _ G x); [done|apply Hxy]|].
    rewrite (g_color _ _ _ G), decide_False in N by done.
    assert (gc_color σ2 x = Black) as Hb.
    { pose proof (s_in _ _ _ _ S x HrM). pose proof (Hng x HrM). by destruct (gc_color σ2 x). }
    rewrite (g_color _ _ _ G). case_decide; [done|]. by rewrite (s_black _ _ _ _ S x y).
Qed.

Lemma trial_delete_spec fuel roots σ σ' white deferred :
  heap_ok g σ → roots_ok g σ roots → trial_delete g fuel roots σ = Some (σ', white, deferred) →
  ∃ M : gset Id,
    (∀ v, v ∈ M ↔ ∃ r, r ∈ roots ∧ gc_color σ r = Purple ∧ rtc (edge g) r v) ∧
    (∀ v, v ∈ M → v ∈ dom σ ∧ is_shared g v = false) ∧
    NoDup white ∧ (∀ v, v ∈ white → v ∈ M) ∧ dom σ' = dom σ ∧ in_range σ' ∧
    (∀ v, is_shared g v = false → cong (rc σ' v) (rc σ v - edges g (list_to_set white) v)) ∧
    (∀ v, v ∈ white → rc σ' v = 0) ∧
    (∀ X : gset Id, (∀ x, x ∈ X → x ∈ M ∧ rc σ x = edges g X x) → ∀ x, x ∈ X → x ∈ white) ∧
    (∀ v, v ∈ deferred → v ∈ roots ∧ v ∉ white).
Proof.
  intros Hok Hroots. unfold trial_delete.
  destruct (fold_opt (mark_candidate g fuel) roots (σ, [], [])) as [[[σ1 gray] df]|] eqn:E1; [|done].
  destruct (fold_opt (scan g fuel) gray σ1) as [σ2|] eqn:E2; [|done].
  destruct (fold_opt (gather_white g fuel) gray (σ2, [])) as [[σ3 wh]|] eqn:E3; [|done].
  destruct (mark_candidates g σ Hok _ _ _ _ _ _ _ _ _ Hroots (marked_init g σ Hok) E1)
    as (M & _ & HM & HpM & Hdf & Hgr).
  destruct (gather_phase _ _ _ _ _ _ _ _ Hok HM E2 E3) as [G Hwh].
  rewrite (dedup_nodup wh ∅) by (apply G || set_solver). intros [= <- <- <-].
  destruct (scan_phase _ _ _ _ _ _ ∅ Hok HM E2) as (S & _ & Hng); [set_solver|].
  assert (pend M σ2 = list_to_set wh) as Hp.
  { apply set_eq. intros v. unfold pend. rewrite elem_of_filter, elem_of_list_to_set, Hwh.
    split; [|intros [? ->]; done]. intros [Hb HvM]. split; [done|].
    pose proof (s_in _ _ _ _ S v HvM). pose proof (Hng v HvM). by destruct (gc_color σ2 v). }
  exists M. split_and!.
  - intros v. split.
    + intros Hv. destruct (m_reach _ _ _ _ _ HM v Hv) as (r & Hr & Hrv).
      destruct (Hgr r Hr) as [?|[? ?]]; [set_solver|]. eauto.
    + intros (r & Hr & Hpr & Hrv). eapply closed_reach; [by eapply m_closed| |done]. auto.
  - apply (m_sub _ _ _ _ _ HM).
  - apply G.
  - intros v Hv. by apply Hwh.
  - rewrite (g_dom _ _ _ G). apply S.
  - intros v. rewrite (g_rc _ _ _ G). apply S.
  - intros v Hv. rewrite (g_rc _ _ _ G), <- Hp. by apply S.
  - intros v [HvM Hw]%Hwh. rewrite (g_rc _ _ _ G). by apply (s_white _ _ _ _ S).
  - intros X HX x Hx. destruct (scan_phase _ _ _ _ _ _ X Hok HM E2 HX) as (_ & Hsp & _).
    destruct (HX x Hx) as [HxM _]. apply Hwh. split; [done|].
    pose proof (s_in _ _ _ _ S x HxM). pose proof (Hng x HxM). pose proof (Hsp x Hx).
    by destruct (gc_color σ2 x).
  - intros v [Hv Hn]%dedup_elem. rewrite elem_of_union, elem_of_list_to_set in Hn.
    destruct (Hdf v Hv) as [?|?]; [set_solver|]. tauto.
Qed.

(** *** Fuel *)

Lemma todo_dom c σ : (size (todo c σ) ≤ size (dom σ))%nat.
Proof. apply subseteq_size. intros v. unfold todo. rewrite elem_of_filter. tauto. Qed.

Lemma mark_gray_total fuel s σ :
  closed g (dom σ) → s ∈ dom σ → (size (dom σ) < fuel)%nat → is_Some (mark_gray g fuel s σ).
Proof.
  intros Hc Hs Hf. destruct fuel as [|fuel]; [lia|].
  destruct (decide (gc_color σ s = Gray)) as [E|E].
  - rewrite mark_gray_S, decide_True by done. eauto.
  - destruct (paint_total g Gray (-1) (rc_move (-1)) (counting_move (-1)) fuel s σ) as [σ' H];
      [done..| |].
    + pose proof (todo_dom Gray σ). lia.
    + exists σ'. by apply paint_mark_gray.
Qed.

Lemma mark_gray_dom fuel s σ σ' :
  closed g (dom σ) → s ∈ dom σ → mark_gray g fuel s σ = Some σ' → dom σ' = dom σ.
Proof.
  intros Hc Hs H. destruct (decide (gc_color σ s = Gray)) as [E|E].
  - destruct fuel; [done|]. rewrite mark_gray_S, decide_True in H by done. by simplify_eq.
  - apply mark_gray_paint in H; [|done].
    by apply (paint_spec _ _ _ _ (counting_move (-1))) in H as [K (? & _)].
Qed.

Lemma mark_candidates_total fuel roots σ0 σ gray deferred :
  heap_ok g σ0 → roots_ok g σ0 roots → dom σ = dom σ0 → (size (dom σ0) < fuel)%nat →
  is_Some (fold_opt (mark_candidate g fuel) roots (σ, gray, deferred)).
Proof.
  intros Hok. revert σ gray deferred. induction roots as [|s roots IH];
    intros σ gray deferred Hroots Hd Hf; simpl; [eauto|].
  destruct (Hroots s) as [Hs _]; [left|].
  assert (roots_ok g σ0 roots) as Hroots' by (intros v Hv; apply Hroots; by right).
  assert (dom (gc_set_buffered false s σ) = dom σ0) as Hd' by by rewrite dom_buffered.
  case_decide; [|by apply IH].
  assert (closed g (dom (gc_set_buffered false s σ))) as Hc by (rewrite Hd'; apply Hok).
  assert (s ∈ dom (gc_set_buffered false s σ)) as Hsd by by rewrite Hd'.
  destruct (mark_gray_total fuel s _ Hc Hsd) as [σ1 E]; [by rewrite Hd'|].
  rewrite E. apply IH; [done| |done]. rewrite <- Hd'. by apply mark_gray_dom in E.
Qed.

(** The gray objects left to scan. *)
Definition grays (σ : Headers) : gset Id := filter (λ v, gc_color σ v = Gray) (dom σ).

Lemma scan_total fuel σ0 M s σ :
  heap_ok g σ0 → (∀ v, v ∈ M → v ∈ dom σ0 ∧ is_shared g v = false) → closed g M →
  scanning g σ0 M σ → (size (grays σ) + size (dom σ0) < fuel)%nat →
  is_Some (scan g fuel s σ).
Proof.
  intros Hok HMs HMc. revert s σ. induction fuel as [|fuel IH]; intros s σ Hs Hf; [lia|].
  cbn [scan]. case_decide as Hg; [eauto|].
  assert (gc_color σ s = Gray) as Hgr by (by destruct (gc_color σ s)). clear Hg.
  assert (s ∈ dom σ0) as Hd by (apply HMs; by apply (scanning_gray g σ0 Hok M HMs HMc σ)).
  pose proof (s_dom _ _ _ _ Hs) as Hds. case_decide as Hrc.
  - rewrite scan_black_paint.
    apply (paint_total _ _ _ _ (counting_move 1)); rewrite ?Hds; [apply Hok|done|congruence|].
    pose proof (todo_dom Black σ). rewrite Hds in *. lia.
  - assert (∀ l σ, scanning g σ0 M σ → (size (grays σ) + size (dom σ0) < fuel)%nat →
              is_Some (fold_opt (scan g fuel) l σ)) as Hfold.
    { clear s σ Hs Hf Hgr Hd Hds Hrc. induction l as [|s l IHl]; intros σ Hs Hf; simpl; [eauto|].
      destruct (IH s σ Hs Hf) as [σ1 E]. rewrite E.
      apply (scan_spec g σ0 Hok M HMs HMc ∅) in E as (A1 & _ & _ & A4 & _);
        [|set_solver|done|intros x Hx; set_solver].
      apply IHl; [done|]. enough (size (grays σ1) ≤ size (grays σ))%nat by lia.
      apply subseteq_size. intros v. unfold grays. rewrite !elem_of_filter.
      rewrite (s_dom _ _ _ _ A1), (s_dom _ _ _ _ Hs). intros [? ?]. split; [|done].
      destruct (decide (gc_color σ v = Gray)) as [|Hn]; [done|]. by apply A4 in Hn. }
    apply Hfold; [by apply scanning_turn_white|].
    assert (grays (gc_set_color White s σ) ⊆ grays σ ∖ {[ s ]}) as Hsub.
    { intros v. unfold grays. rewrite elem_of_difference, !elem_of_filter, dom_set, elem_of_singleton.
        rewrite color_set by by rewrite Hds. case_decide; naive_solver. }
    assert (s ∈ grays σ) as Hin by (apply elem_of_filter; by rewrite Hds).
    apply subseteq_size in Hsub. rewrite size_difference, size_singleton in Hsub by set_solver.
    assert (size (grays σ) ≠ 0)%nat by (intros H0%size_empty_inv; set_solver). lia.
Qed.

(** The white objects left to gather. *)
Definition whites (σ : Headers) : gset Id := filter (λ v, gc_color σ v = White) (dom σ).

Lemma whites_gathered l σ σ' : gathered l σ σ' → whites σ' ⊆ whites σ.
Proof.
  intros G v. unfold whites. rewrite !elem_of_filter, (g_dom _ _ _ G), (g_color _ _ _ G).
  case_decide; naive_solver.
Qed.

Lemma gather_total fuel s st : (size (whites st.1) < fuel)%nat → is_Some (gather_white g fuel s st).
Proof.
  revert s st. induction fuel as [|fuel IH]; intros s st Hf; [lia|]. simpl. case_decide as Hw; [|eauto].
  assert (∀ l st, (size (whites st.1) < fuel)%nat → is_Some (fold_opt (gather_white g fuel) l st)) as Hfold.
  { clear s st Hf Hw. induction l as [|s l IHl]; intros st Hf; simpl; [eauto|].
    destruct (IH s st Hf) as [st1 E]. rewrite E.
    apply gather_white_spec in E as (l' & _ & G & _). apply IHl.
    apply whites_gathered, subseteq_size in G. lia. }
  apply Hfold. simpl.
  assert (s ∈ dom st.1) as Hd.
  { unfold gc_color in Hw. destruct (st.1 !! s) eqn:Es; [|done]. by apply elem_of_dom_2 in Es. }
  assert (whites (gc_set_color Black s st.1) ⊆ whites st.1 ∖ {[ s ]}) as Hsub.
  { intros v. unfold whites. rewrite elem_of_difference, !elem_of_filter, dom_set, elem_of_singleton.
    rewrite color_set by done. case_decide; naive_solver. }
  assert (s ∈ whites st.1) as Hin by (by apply elem_of_filter).
  apply subseteq_size in Hsub. rewrite size_difference, size_singleton in Hsub by set_solver.
  assert (size (whites st.1) ≠ 0)%nat by (intros H0%size_empty_inv; set_solver). lia.
Qed.

Lemma gather_all_total fuel l st : (size (whites st.1) < fuel)%nat →
  is_Some (fold_opt (gather_white g fuel) l st).
Proof.
  revert st. induction l as [|s l IH]; intros st Hf; simpl; [eauto|].
  destruct (gather_total fuel s st Hf) as [st1 E]. rewrite E. apply IH.
  apply gather_white_spec in E as (l' & _ & G & _). apply whites_gathered, subseteq_size in G. lia.
Qed.

Lemma scan_all_total fuel σ0 M l σ :
  heap_ok g σ0 → (∀ v, v ∈ M → v ∈ dom σ0 ∧ is_shared g v = false) → closed g M →
  scanning g σ0 M σ → (2 * size (dom σ0) < fuel)%nat → is_Some (fold_opt (scan g fuel) l σ).
Proof.
  intros Hok HMs HMc. revert σ. induction l as [|s l IH]; intros σ Hs Hf; simpl; [eauto|].
  destruct (scan_total fuel σ0 M s σ) as [σ1 E]; [done..| |].
  { enough (size (grays σ) ≤ size (dom σ0))%nat by lia. rewrite <- (s_dom _ _ _ _ Hs).
    apply subseteq_size. intros v. unfold grays. rewrite elem_of_filter. tauto. }
  rewrite E. apply (scan_spec g σ0 Hok M HMs HMc ∅) in E as (A1 & _);
    [|set_solver|done|intros x Hx; set_solver]. by apply IH.
Qed.

Lemma trial_delete_total fuel roots σ :
  heap_ok g σ → roots_ok g σ roots → (2 * size (dom σ) < fuel)%nat →
  is_Some (trial_delete g fuel roots σ).
Proof.
  intros Hok Hroots Hf. unfold trial_delete.
  destruct (mark_candidates_total fuel roots σ σ [] []) as [[[σ1 gray] df] E1]; [done..|lia|].
  rewrite E1.
  destruct (mark_candidates g σ Hok _ _ _ _ _ _ _ _ _ Hroots (marked_init g σ Hok) E1)
    as (M & _ & HM & _).
  pose proof (m_sub _ _ _ _ _ HM) as HMs. pose proof (m_closed _ _ _ _ _ HM) as HMc.
  assert (scanning g σ M σ1) as Hs by by eapply scanning_init.
  destruct (scan_all_total fuel σ M gray σ1) as [σ2 E2];
    [done..|]. rewrite E2.
  destruct (scan_phase _ _ _ _ _ _ ∅ Hok HM E2) as (S & _); [set_solver|].
  destruct (gather_all_total fuel gray (σ2, [])) as [[σ3 wh] E3].
  { simpl. enough (size (whites σ2) ≤ size (dom σ))%nat by lia. rewrite <- (s_dom _ _ _ _ S).
    apply subseteq_size. intros v. unfold whites. rewrite elem_of_filter. tauto. }
  rewrite E3. destruct (dedup_seen ∅ wh). eauto.
Qed.
End Gather.
