(* ===== verification/GcTrace.v ===== *)
(** The backup trace: what it marks, the anomaly count that guards it, and the
    components by which the safepoint collectors reclaim or defer. *)
From S2P Require Import Prelude Gc GcPaint.
From stdpp Require Import relations options.
Open Scope Z_scope.

(** Loop rules for [foldl]. *)
Lemma foldl_inv {A B} (Q : B → Prop) (f : B → A → B) l b :
  (∀ b a, a ∈ l → Q b → Q (f b a)) → Q b → Q (foldl f b l).
Proof.
  revert b. induction l as [|a l IH]; intros b Hf Hb; simpl; [done|].
  apply IH; [intros; apply Hf; [by right|done]|]. apply Hf; [by left|done].
Qed.

Lemma foldl_reached {A B} (Q R : B → Prop) (f : B → A → B) l b a :
  (∀ b a', a' ∈ l → R b → R (f b a')) → (∀ b, R b → Q (f b a)) →
  (∀ b a', a' ∈ l → R b → Q b → Q (f b a')) → R b → a ∈ l → Q (foldl f b l).
Proof.
  revert b. induction l as [|a' l IH]; intros b HR HQ Hk Hb Ha; simpl; [set_solver|].
  apply elem_of_cons in Ha as [->|Ha].
  - apply (foldl_inv (λ b, R b ∧ Q b)).
    + intros b' x Hx [? ?]. split; [apply HR|apply Hk]; try done; by right.
    + split; [apply HR; [by left|done]|by apply HQ].
  - apply IH; [intros; apply HR; [by right|done]|done|intros; apply Hk; [by right|done..]| |done].
    apply HR; [by left|done].
Qed.

Section Trace.
Context (g : Graph).

(** *** Marking *)

(** Reached from a root by references counted. *)
Definition reached (roots : list Value) (v : Id) : Prop :=
  ∃ r, Pointer r ∈ roots ∧ is_shared g r = false ∧ rtc (edge g) r v.

(** A registry and headers a trace may start from: whatever is still gray from
    an earlier trace is an unregistered leaf. *)
Definition trace_ready (live : list Id) (σ : Headers) : Prop :=
  ∀ v, gc_color σ v = Gray → v ∉ live ∧ gc_children g v = [].

Definition roots_in (roots : list Value) (σ : Headers) : Prop :=
  ∀ r, Pointer r ∈ roots → is_shared g r = false → r ∈ dom σ.

Lemma mark_rc fuel s σ σ' v : mark g fuel s σ = Some σ' → rc σ' v = rc σ v.
Proof.
  revert s σ σ'. induction fuel as [|fuel IH]; intros s σ σ'; simpl; [done|].
  destruct (is_shared g s || _); [by intros [= ->]|].
  rewrite <- (rc_set Gray s σ v). generalize (gc_set_color Gray s σ). clear σ.
  induction (gc_children g s) as [|c l IHl]; intros σ; simpl; [by intros [= ->]|].
  destruct (mark g fuel c σ) as [σ1|] eqn:E; [|done]. intros H.
  by rewrite (IHl _ H), (IH _ _ _ E).
Qed.

(** [K]: the objects marked so far. *)
Record tracing (σ0 : Headers) (roots : list Value) (K : gset Id) (σ : Headers) : Prop := {
  t_dom : dom σ = dom σ0;
  t_rc : ∀ v, rc σ v = rc σ0 v;
  t_color : ∀ v, gc_color σ v = if decide (v ∈ K) then Gray else gc_color σ0 v;
  t_closed : ∀ u v, u ∈ K → edge g u v → gc_color σ v = Gray;
  t_roots : ∀ r, Pointer r ∈ roots → is_shared g r = false → gc_color σ r = Gray;
  t_reach : ∀ v, v ∈ K → reached roots v;
}.

Lemma tracing_mark σ0 roots K σ fuel s σ' :
  closed g (dom σ0) → (is_shared g s = false → s ∈ dom σ0) → tracing σ0 roots K σ →
  mark g fuel s σ = Some σ' → ∃ K', tracing σ0 (roots ++ [Pointer s]) K' σ'.
Proof.
  intros Hc Hs [T1 T2 T3 T4 T5 T6] H.
  assert (∀ r, Pointer r ∈ roots ++ [Pointer s] → Pointer r ∈ roots ∨ r = s) as Hroots.
  { intros r. rewrite elem_of_app, list_elem_of_singleton. intros [?|[= ->]]; auto. }
  assert (∀ v, reached roots v → reached (roots ++ [Pointer s]) v) as Hmono.
  { intros v (r & ? & ?). exists r. rewrite elem_of_app. auto. }
  destruct (decide (is_shared g s = true ∨ gc_color σ s = Gray)) as [Hskip|Hgo].
  { destruct fuel as [|fuel]; [done|]. rewrite mark_S in H.
    replace (is_shared g s || bool_decide (gc_color σ s = Gray)) with true in H.
    2: { destruct Hskip as [->|E]; [done|]. by rewrite bool_decide_true, orb_true_r. }
    simplify_eq. exists K. split; auto.
    intros r [Hr| ->]%Hroots Hsh; [auto|]. by destruct Hskip; [congruence|]. }
  assert (is_shared g s = false) as Hsh by (destruct (is_shared g s); tauto).
  assert (gc_color σ s ≠ Gray) as Hng by tauto. clear Hgo.
  pose proof (λ v, mark_rc _ _ _ _ v H) as Hrc.
  apply mark_paint in H; [|done..].
  apply (paint_spec _ _ _ _ counting_none) in H as [L (V1 & V2 & V3 & _ & V5 & V6 & V7)];
    [|by rewrite T1|by rewrite T1; auto|done].
  exists (K ∪ L). split.
  - congruence.
  - intros v. by rewrite Hrc.
  - intros v. rewrite V3, T3. repeat case_decide; rewrite elem_of_union in *; tauto.
  - intros u v [Hu|Hu]%elem_of_union He; [|by apply (V5 u)].
    rewrite V3. case_decide; [done|]. by apply (T4 u).
  - intros r [Hr| ->]%Hroots Hr'; rewrite V3; [|by rewrite decide_True].
    case_decide; [done|auto].
  - intros v [Hv|Hv]%elem_of_union; [auto|]. exists s.
    rewrite elem_of_app, list_elem_of_singleton. auto.
Qed.

Lemma tracing_all σ0 roots seen K σ fuel σ' :
  closed g (dom σ0) → roots_in roots σ0 → tracing σ0 seen K σ →
  fold_opt (mark_value g fuel) roots σ = Some σ' → ∃ K', tracing σ0 (seen ++ roots) K' σ'.
Proof.
  intros Hc. revert seen K σ. induction roots as [|r roots IH]; intros seen K σ Hr HT; simpl.
  { intros [= ->]. rewrite app_nil_r. eauto. }
  assert (roots_in roots σ0) as Hr' by (intros v Hv; apply Hr; by right).
  replace (seen ++ r :: roots) with ((seen ++ [r]) ++ roots) by by rewrite <- app_assoc.
  destruct r as [|s]; simpl.
  - apply (IH _ K); [done|]. destruct HT as [T1 T2 T3 T4 T5 T6]. split; auto.
    + intros r. rewrite elem_of_app, list_elem_of_singleton. intros [?|?]; [auto|done].
    + intros v Hv. destruct (T6 v Hv) as (r & ? & ?). exists r. rewrite elem_of_app. auto.
  - destruct (mark g fuel s σ) as [σ1|] eqn:E; [|done]. intros H.
    destruct (tracing_mark σ0 seen K σ fuel s σ1 Hc) as [K' HK']; [apply Hr; left|done..|].
    by apply (IH _ K' σ1).
Qed.

(** A trace paints gray what the roots reach, and nothing else that is
    registered. *)
Lemma trace_spec fuel live roots σ σ' :
  closed g (dom σ) → roots_in roots σ → trace_ready live σ →
  fold_opt (mark_value g fuel) roots σ = Some σ' →
  dom σ' = dom σ ∧ (∀ v, rc σ' v = rc σ v) ∧
  (∀ v, v ∈ live → gc_color σ' v = Gray ↔ reached roots v) ∧
  (∀ v, gc_color σ' v = Gray ∨ gc_color σ' v = gc_color σ v).
Proof.
  intros Hc Hr Hready H.
  apply (tracing_all σ roots [] ∅) in H as [K [T1 T2 T3 T4 T5 T6]]; [|done..|].
  2: { split; try done; set_solver. }
  simpl in *. split_and!; [done|done| |].
  - intros v Hv. split.
    + rewrite T3. case_decide as E; [by auto|]. intros Hg. by destruct (Hready v Hg).
    + intros (r & Hr' & Hsh & Hrv). specialize (T5 r Hr' Hsh). clear Hr' Hsh Hv.
      induction Hrv as [|x y z Hxy _ IH]; [done|]. apply IH.
      rewrite T3 in T5. case_decide as E; [by apply (T4 x)|].
      destruct (Hready x T5) as [_ Hn]. destruct Hxy as [Hxy _]. rewrite Hn in Hxy. set_solver.
  - intros v. rewrite T3. case_decide; auto.
Qed.

Lemma reset_spec live σ :
  let σ' := reset_survivors live σ in
  dom σ' = dom σ ∧ (∀ v, rc σ' v = rc σ v) ∧ (∀ v, gc_color σ' v = Gray → v ∉ live ∧ gc_color σ v = Gray).
Proof.
  unfold reset_survivors. revert σ. induction live as [|w live IH]; intros σ; simpl.
  { split_and!; try done. set_solver. }
  set (σ1 := if decide (gc_color σ w = Gray) then gc_set_color Black w σ else σ).
  destruct (IH σ1) as (H1 & H2 & H3). unfold σ1 in *. split_and!.
  - rewrite H1. case_decide; [apply dom_set|done].
  - intros v. rewrite H2. case_decide; [apply rc_set|done].
  - intros v Hv. destruct (H3 v Hv) as [Hn Hg]. case_decide as E.
    + assert (w ∈ dom σ) as Hd.
      { unfold gc_color in E. destruct (σ !! w) eqn:Es; [|done]. by apply elem_of_dom_2 in Es. }
      rewrite color_set in Hg by done. case_decide; [done|]. by rewrite not_elem_of_cons.
    + split; [|done]. rewrite not_elem_of_cons. split; [congruence|done].
Qed.

(** *** Fuel *)
Lemma mark_total fuel s σ :
  closed g (dom σ) → (is_shared g s = false → s ∈ dom σ) → (size (dom σ) < fuel)%nat →
  is_Some (mark g fuel s σ).
Proof.
  intros Hc Hs Hf. destruct fuel as [|fuel]; [lia|].
  destruct (is_shared g s) eqn:Esh; [rewrite mark_S, Esh; eauto|].
  destruct (decide (gc_color σ s = Gray)) as [E|E].
  { rewrite mark_S, Esh, bool_decide_true by done. eauto. }
  destruct (paint_total g Gray 0 (λ _ σ, σ) counting_none fuel s σ) as [σ' H]; [done|auto|done| |].
  - enough (size (todo Gray σ) ≤ size (dom σ))%nat by lia. apply subseteq_size.
    intros v. unfold todo. rewrite elem_of_filter. tauto.
  - exists σ'. by apply paint_mark.
Qed.

Lemma trace_total fuel roots σ :
  closed g (dom σ) → roots_in roots σ → (size (dom σ) < fuel)%nat →
  is_Some (fold_opt (mark_value g fuel) roots σ).
Proof.
  intros Hc Hr Hf.
  enough (∀ σ1, dom σ1 = dom σ → is_Some (fold_opt (mark_value g fuel) roots σ1)) by auto.
  induction roots as [|r roots IH]; intros σ1 Hd; simpl; [eauto|].
  assert (roots_in roots σ) as Hr' by (intros v Hv; apply Hr; by right).
  destruct r as [|s]; simpl; [by apply IH|].
  destruct (mark_total fuel s σ1) as [σ2 E]; [by rewrite Hd|rewrite Hd; apply Hr; left|by rewrite Hd|].
  rewrite E. apply IH; [done|].
  assert (tracing σ1 [] ∅ σ1) as HT by (split; try done; set_solver).
  apply (tracing_mark σ1 [] ∅) in E as [K HK]; [|by rewrite Hd|rewrite Hd; apply Hr; left|done].
  by rewrite (t_dom _ _ _ _ HK).
Qed.
End Trace.
