(* ===== verification/GcComponents.v ===== *)
(** The anomaly count and the weakly connected components. *)
From S2P Require Import Prelude Gc GcPaint GcTrace.
From stdpp Require Import options.
Open Scope Z_scope.

Section Anomalies.
Context (g : Graph).

(** *** The in-edge count *)

(** One object's children counted into the map. *)
Definition add_children (members : gset Id) (m : gmap Id Z) (cs : list Id) : gmap Id Z :=
  foldl (λ m child,
      if decide (child ∈ members) then <[ child := wrap32 (default 0 (m !! child) + 1) ]> m else m)
    m cs.

Lemma add_children_spec members m cs v :
  v ∈ members → cong (default 0 (add_children members m cs !! v)) (default 0 (m !! v) + occ v cs).
Proof.
  intros Hv. unfold add_children. revert m. induction cs as [|c cs IH]; intros m; simpl.
  - exists 0. unfold occ. simpl. lia.
  - destruct (IH (if decide (c ∈ members)
                  then <[ c := wrap32 (default 0 (m !! c) + 1) ]> m else m)) as [k ->].
    rewrite occ_cons. destruct (decide (c = v)) as [->|Hne].
    + rewrite decide_True, lookup_insert by done. rewrite decide_True by done. simpl.
      destruct (wrap_cong (default 0 (m !! v) + 1)) as [k' ->]. exists (k + k'). lia.
    + case_decide; [rewrite lookup_insert_ne by done|]; exists k; lia.
Qed.

Lemma add_children_range members m cs :
  (∀ v, 0 ≤ default 0 (m !! v) < 2 ^ 32) → ∀ v, 0 ≤ default 0 (add_children members m cs !! v) < 2 ^ 32.
Proof.
  revert m. unfold add_children. induction cs as [|c cs IH]; intros m Hm v; simpl; [done|].
  apply IH. intros w. case_decide; [|done]. destruct (decide (c = w)) as [->|].
  - rewrite lookup_insert, decide_True by done. simpl. apply Z.mod_pos_bound. lia.
  - by rewrite lookup_insert_ne.
Qed.

Lemma total_list (f : Id → Z) l : NoDup l →
  total f (list_to_set l) = foldr (λ u acc, f u + acc) 0 l.
Proof.
  induction 1 as [|v l Hv _ IH]; simpl; [by rewrite total_empty|].
  rewrite total_union, total_singleton, IH; [done|]. set_solver.
Qed.

(** [count_refcount_anomalies] is zero exactly when every member's count is the
    number of references to it from members. *)
Lemma anomalies_spec garbage σ :
  NoDup garbage → in_range σ → count_refcount_anomalies g garbage σ = O →
  ∀ v, v ∈ garbage → cong (rc σ v) (edges g (list_to_set garbage) v).
Proof.
  intros Hnd Hr Hz v Hv.
  assert (rc σ v = default 0 (count_in_edges g garbage !! v)) as ->.
  { unfold count_refcount_anomalies in Hz. destruct garbage as [|w l]; [set_solver|].
    apply length_zero_iff_nil in Hz.
    destruct (is_anomaly σ (count_in_edges g (w :: l)) v) eqn:E.
    - assert (v ∈ List.filter (is_anomaly σ (count_in_edges g (w :: l))) (w :: l)) as Hin.
      { apply list_elem_of_In, filter_In. by rewrite <- list_elem_of_In. }
      rewrite Hz in Hin. set_solver.
    - unfold is_anomaly in E. by bool_to_prop. }
  clear Hz. unfold edges. rewrite total_list by done. unfold count_in_edges.
  assert (v ∈ (list_to_set garbage : gset Id)) as Hm by by apply elem_of_list_to_set.
  generalize dependent (list_to_set (C := gset Id) garbage). intros members Hm.
  clear Hnd Hv. assert (∀ m, cong
    (default 0 (foldl (λ m obj, add_children members m (gc_children g obj)) m garbage !! v))
    (default 0 (m !! v) + foldr (λ u acc, occ v (gc_children g u) + acc) 0 garbage)) as H.
  { induction garbage as [|u l IH]; intros m; simpl; [exists 0; lia|].
    destruct (IH (add_children members m (gc_children g u))) as [k ->].
    destruct (add_children_spec members m (gc_children g u) v Hm) as [k' ->]. exists (k + k'). lia. }
  specialize (H ∅). rewrite lookup_empty in H. exact H.
Qed.
End Anomalies.

(** *** Flood fill over adjacency lists *)
Definition next (adj : list (list nat)) (i : nat) : list nat := default [] (adj !! i).

Lemma push_spec l queue visited queue' visited' :
  push_neighbours l queue visited = (queue', visited') →
  ∃ new, queue' = queue ++ new ∧ NoDup new ∧ (∀ j, j ∈ new → j ∈ l ∧ j ∉ visited) ∧
    visited' = visited ∪ list_to_set new ∧ (∀ j, j ∈ l → j ∈ visited').
Proof.
  unfold push_neighbours. revert queue visited. induction l as [|j l IH]; intros queue visited; simpl.
  { intros [= <- <-]. exists []. rewrite app_nil_r. split_and!; try set_solver. constructor. }
  case_decide as Hj.
  - intros (new & -> & Hnd & Hq & -> & Hl)%IH. exists new. split_and!; try done.
    + intros j' Hj'. destruct (Hq j' Hj'). split; [by right|done].
    + intros j' [->|Hj']%elem_of_cons; [set_solver|auto].
  - intros (new & -> & Hnd & Hq & -> & Hl)%IH. exists (j :: new). split_and!.
    + by rewrite <- app_assoc.
    + constructor; [|done]. intros H%Hq. set_solver.
    + intros j' [->|Hj']%elem_of_cons; [split; [left|done]|].
      destruct (Hq j' Hj') as [? ?]. split; [by right|]. set_solver.
    + simpl. set_solver.
    + intros j' [->|Hj']%elem_of_cons; [set_solver|auto].
Qed.

Section Flood.
Context (adj : list (list nat)) (n : nat).
#[local] Abbreviation next := (next adj).
Context (Hn : ∀ i j, j ∈ next i → (j < n)%nat).
Set Default Proof Using "All".

(** The state of a flood from the base [V0]. *)
Record flooding (V0 : gset nat) (queue : list nat) (visited : gset nat) (members : list nat) : Prop := {
  f_visited : visited = V0 ∪ list_to_set (queue ++ members);
  f_nodup : NoDup (queue ++ members);
  f_base : ∀ i, i ∈ queue ++ members → i ∉ V0;
  f_next : ∀ i j, i ∈ members → j ∈ next i → j ∈ visited;
  f_bound : ∀ i, i ∈ queue ++ members → (i < n)%nat;
}.

Lemma last_removelast {A} (l : list A) x : last l = Some x → l = removelast l ++ [x].
Proof.
  induction l as [|y l IH]; [done|]. destruct l as [|z l]; simpl in *; [by intros [= ->]|].
  intros H. by rewrite <- IH.
Qed.

Lemma flooding_step V0 queue visited members i :
  last queue = Some i → flooding V0 queue visited members →
  let '(queue', visited') := push_neighbours (next i) (removelast queue) visited in
  flooding V0 queue' visited' (members ++ [i]).
Proof.
  intros Hl [F1 F2 F3 F4 F5].
  destruct (push_neighbours _ _ _) as [queue' visited'] eqn:E.
  apply push_spec in E as (new & -> & Hnd & Hnew & -> & Hnx).
  apply last_removelast in Hl. set (q := removelast queue) in *. rewrite Hl in F1, F2, F3, F5.
  assert ((q ++ new) ++ members ++ [i] ≡ₚ new ++ (q ++ [i]) ++ members) as Hp
    by solve_Permutation.
  assert (∀ j, j ∈ new → j ∉ (q ++ [i]) ++ members) as Hfresh.
  { intros j [_ Hj]%Hnew Hin. apply Hj. rewrite F1, elem_of_union, elem_of_list_to_set. by right. }
  split.
  - rewrite F1. apply set_eq. intros j.
    rewrite !elem_of_union, !elem_of_list_to_set, Hp. rewrite (elem_of_app new). tauto.
  - rewrite Hp. apply NoDup_app. split_and!; done.
  - intros j. rewrite Hp, elem_of_app. intros [Hj|Hj]; [|by apply F3].
    intros H0. apply Hnew in Hj as [_ Hj]. apply Hj. rewrite F1. by apply elem_of_union_l.
  - intros k j [Hk|Hk]%elem_of_app Hj.
    + apply elem_of_union_l. by apply (F4 k).
    + apply list_elem_of_singleton in Hk as ->. auto.
  - intros j. rewrite Hp, elem_of_app. intros [Hj|Hj]; [|by apply F5].
    apply Hnew in Hj as [Hj _]. by apply (Hn i).
Qed.

Lemma flood_spec fuel V0 queue visited members members' visited' :
  flooding V0 queue visited members →
  flood adj fuel queue visited members = Some (members', visited') →
  flooding V0 [] visited' members' ∧ (∀ i, i ∈ queue ++ members → i ∈ members').
Proof.
  revert queue visited members. induction fuel as [|fuel IH]; intros queue visited members HF;
    simpl; [done|]. destruct (last queue) as [i|] eqn:El.
  - pose proof (flooding_step _ _ _ _ _ El HF) as HF'. unfold next in HF'.
    destruct (push_neighbours _ _ _) as [queue' visited'0] eqn:E. intros H.
    destruct (IH _ _ _ HF' H) as [HF2 Hin]. split; [done|].
    apply push_spec in E as (new & -> & _). apply last_removelast in El.
    intros j Hj. apply Hin. rewrite El in Hj. rewrite !elem_of_app in *. tauto.
  - apply last_None in El as ->. intros [= <- <-]. split; done.
Qed.

(** Fuel: an iteration pops one element, and every element is pushed once. *)
Lemma flood_total fuel V0 queue visited members :
  flooding V0 queue visited members →
  (length queue + size (list_to_set (seq 0 n) ∖ visited) < fuel)%nat →
  is_Some (flood adj fuel queue visited members).
Proof.
  revert queue visited members. induction fuel as [|fuel IH]; intros queue visited members HF Hf;
    simpl; [lia|]. destruct (last queue) as [i|] eqn:El; [|eauto].
  pose proof (flooding_step _ _ _ _ _ El HF) as HF'. unfold next in HF'.
  destruct (push_neighbours _ _ _) as [queue' visited'] eqn:E.
  apply (IH _ _ _ HF').
  apply push_spec in E as (new & -> & Hnd & Hnew & -> & _).
  apply last_removelast in El. rewrite El, length_app in Hf. rewrite length_app. simpl in *.
  assert (list_to_set new ⊆ list_to_set (seq 0 n) ∖ visited) as Hsub.
  { intros j. rewrite elem_of_list_to_set, elem_of_difference, elem_of_list_to_set, elem_of_seq.
    intros Hj. destruct (Hnew j Hj) as [Hjn ?]. specialize (Hn i j Hjn). split; [lia|done]. }
  rewrite difference_union_distr_r.
  replace (list_to_set (seq 0 n) ∖ visited ∩ (list_to_set (seq 0 n) ∖ list_to_set new))
    with ((list_to_set (seq 0 n) ∖ visited) ∖ list_to_set new : gset nat) by set_solver.
  rewrite size_difference by done. apply subseteq_size in Hsub as Hle.
  rewrite size_list_to_set in * by done. lia.
Qed.
End Flood.

(** *** The components *)
Lemma elem_of_concat {A} (x : A) ls : x ∈ concat ls ↔ ∃ l, l ∈ ls ∧ x ∈ l.
Proof.
  induction ls as [|l ls IH]; simpl; [set_solver|].
  rewrite elem_of_app, IH. setoid_rewrite elem_of_cons. naive_solver.
Qed.

Section Components.
Context (adj : list (list nat)) (n : nat).
Context (Hsym : ∀ i j, j ∈ next adj i → i ∈ next adj j) (Hbound : ∀ i j, j ∈ next adj i → (j < n)%nat).

Set Default Proof Using "All".

Record comps_ok (comps : list (list nat)) (visited : gset nat) : Prop := {
  c_visited : visited = list_to_set (concat comps);
  c_nodup : NoDup (concat comps);
  c_closed : ∀ c i j, c ∈ comps → i ∈ c → j ∈ next adj i → j ∈ c;
  c_bound : ∀ i, i ∈ concat comps → (i < n)%nat;
}.

Lemma start_flooding comps visited start :
  (start < n)%nat → comps_ok comps visited → start ∉ visited →
  flooding adj n visited [start] ({[ start ]} ∪ visited) [].
Proof.
  intros Hst Hc Hs. split; simpl.
  - set_solver.
  - apply NoDup_singleton.
  - intros i ->%list_elem_of_singleton. done.
  - intros i j H. set_solver.
  - intros i ->%list_elem_of_singleton. done.
Qed.

Lemma component_step_ok fuel start comps visited comps' visited' :
  (start < n)%nat → comps_ok comps visited →
  component_step adj fuel start (comps, visited) = Some (comps', visited') →
  comps_ok comps' visited' ∧ visited ⊆ visited' ∧ start ∈ visited'.
Proof.
  intros Hst HC. unfold component_step. case_decide as Hs; [by intros [= <- <-]|].
  destruct (flood adj fuel [start] _ []) as [[members v']|] eqn:E; [|done]. intros [= <- <-].
  pose proof (start_flooding _ _ _ Hst HC Hs) as HF.
  destruct (flood_spec _ _ Hbound _ _ _ _ _ _ _ HF E) as [[F1 F2 F3 F4 F5] Hin]. simpl in *.
  destruct HC as [C1 C2 C3 C4].
  assert (concat (comps ++ [members]) = concat comps ++ members) as Hcat
    by (by rewrite concat_app; simpl; rewrite app_nil_r).
  assert (∀ i, i ∈ members → i ∉ concat comps) as Hdis.
  { intros i Hi Hi'. apply (F3 i Hi). by rewrite C1, elem_of_list_to_set. }
  split_and!; [|set_solver|rewrite F1; apply elem_of_union_r, elem_of_list_to_set, Hin; left].
  split.
  - rewrite F1, Hcat, C1. set_solver.
  - rewrite Hcat. apply NoDup_app. split_and!; [done| |done]. intros i Hi Hi'. by apply (Hdis i).
  - intros c i j [Hc|Hc]%elem_of_app Hi Hj; [by apply (C3 c i)|].
    apply list_elem_of_singleton in Hc as ->. pose proof (F4 i j Hi Hj) as Hv.
    rewrite F1, elem_of_union, elem_of_list_to_set in Hv. destruct Hv as [Hv|]; [|done].
    exfalso. rewrite C1, elem_of_list_to_set, elem_of_concat in Hv. destruct Hv as (c & Hc & Hjc).
    apply (Hdis i Hi), elem_of_concat. exists c. split; [done|]. by apply (C3 c j), Hsym.
  - intros i. rewrite Hcat, elem_of_app. intros [Hi|Hi]; auto.
Qed.

Lemma components_ok fuel starts comps visited comps' visited' :
  Forall (λ i, i < n)%nat starts → comps_ok comps visited →
  fold_opt (component_step adj fuel) starts (comps, visited) = Some (comps', visited') →
  comps_ok comps' visited' ∧ visited ⊆ visited' ∧ (∀ i, i ∈ starts → i ∈ visited').
Proof.
  intros Hst. revert comps visited. induction Hst as [|i starts Hi _ IH]; intros comps visited HC; cbn [fold_opt].
  { intros [= <- <-]. split_and!; [done|set_solver..]. }
  destruct (component_step adj fuel i (comps, visited)) as [[c1 v1]|] eqn:E; [|done]. intros H.
  destruct (component_step_ok _ _ _ _ _ _ Hi HC E) as (HC1 & Hs1 & Hi1).
  destruct (IH _ _ HC1 H) as (HC2 & Hs2 & Hi2).
  split_and!; [done|by transitivity v1|]. intros j [->|Hj]%elem_of_cons; auto.
Qed.

Lemma components_total fuel starts comps visited :
  Forall (λ i, i < n)%nat starts → comps_ok comps visited → (S n < fuel)%nat →
  is_Some (fold_opt (component_step adj fuel) starts (comps, visited)).
Proof.
  intros Hst. revert comps visited. induction Hst as [|i starts Hi _ IH];
    intros comps visited HC Hf; cbn [fold_opt]; [eauto|].
  assert (is_Some (component_step adj fuel i (comps, visited))) as [[c1 v1] E].
  { unfold component_step. case_decide as Hs; [eauto|].
    destruct (flood_total adj n Hbound fuel visited [i] ({[ i ]} ∪ visited) []) as [[m v] E].
    - by apply (start_flooding comps).
    - simpl. enough (size (list_to_set (seq 0 n) ∖ ({[ i ]} ∪ visited) : gset nat) ≤ n)%nat by lia.
      transitivity (size (list_to_set (seq 0 n) : gset nat)); [apply subseteq_size; set_solver|].
      rewrite size_list_to_set by apply NoDup_seq. rewrite length_seq. done.
    - rewrite E. eauto. }
  rewrite E. apply IH; [|done]. by apply component_step_ok in E as (? & _).
Qed.
End Components.

(** *** Adjacency *)
Section Adjacency.
Context (g : Graph) (garbage : list Id) (Hnd : NoDup garbage).
Set Default Proof Using "All".

Lemma index_spec v j : index_of garbage !! v = Some j ↔ garbage !! j = Some v.
Proof.
  unfold index_of. clear g. revert Hnd. revert v j.
  induction garbage as [|x l IH] using rev_ind; intros v j Hl; simpl; [done|].
  apply NoDup_app in Hl as (Hl & Hx & _). rewrite imap_app, foldl_app. simpl. rewrite Nat.add_0_r.
  destruct (decide (x = v)) as [->|Hne].
  - rewrite lookup_insert, decide_True by done. split.
    + intros [= <-]. rewrite lookup_app_r by lia. by rewrite Nat.sub_diag.
    + intros [Hj|[Hj Hj']]%lookup_app_Some.
      * exfalso. apply (Hx v); [by eapply list_elem_of_lookup_2|set_solver].
      * destruct (j - length l)%nat eqn:E; [|done]. f_equal. lia.
  - rewrite lookup_insert_ne, IH by done. rewrite lookup_app_Some. split; [by left|].
    intros [?|[Hj Hj']]; [done|]. apply list_elem_of_lookup_2, list_elem_of_singleton in Hj'. congruence.
Qed.

(** Symmetric adjacency lists within bounds. *)
Definition adj_ok (adj : list (list nat)) : Prop :=
  length adj = length garbage ∧ (∀ i j, j ∈ next adj i → (j < length garbage)%nat) ∧
  (∀ i j, j ∈ next adj i → i ∈ next adj j).

Definition link (i j : nat) (adj : list (list nat)) : list (list nat) :=
  alter (λ l, l ++ [i]) j (alter (λ l, l ++ [j]) i adj).

Lemma next_push adj i j a b : (i < length adj)%nat →
  b ∈ next (alter (λ l, l ++ [j]) i adj) a ↔ b ∈ next adj a ∨ (a = i ∧ b = j).
Proof.
  intros Hi. unfold next. destruct (decide (a = i)) as [->|Hne].
  - destruct (lookup_lt_is_Some_2 adj i Hi) as [l Hl]. rewrite list_lookup_alter_eq, Hl. simpl.
    rewrite elem_of_app, list_elem_of_singleton. naive_solver.
  - rewrite list_lookup_alter_ne by done. naive_solver.
Qed.

Lemma next_link adj i j a b : (i < length adj)%nat → (j < length adj)%nat →
  b ∈ next (link i j adj) a ↔ b ∈ next adj a ∨ (a = i ∧ b = j) ∨ (a = j ∧ b = i).
Proof.
  intros Hi Hj. unfold link. rewrite !next_push by (rewrite ?length_alter; done). tauto.
Qed.

Lemma link_ok adj i j :
  (i < length garbage)%nat → (j < length garbage)%nat → adj_ok adj → adj_ok (link i j adj).
Proof.
  intros Hi Hj (A1 & A2 & A3). split_and!.
  - unfold link. by rewrite !length_alter.
  - intros a b. rewrite next_link by congruence. intros [?|[[-> ->]|[-> ->]]]; eauto.
  - intros a b. rewrite !next_link by congruence. intros [?|[[-> ->]|[-> ->]]]; auto.
Qed.

(** The step of the adjacency loop for one child. *)
Definition child_step (i : nat) (adj : list (list nat)) (child : Id) : list (list nat) :=
  match index_of garbage !! child with
  | Some j => if decide (j ≠ i) then link i j adj else adj
  | None => adj
  end.

Lemma child_step_ok i adj child :
  (i < length garbage)%nat → adj_ok adj → adj_ok (child_step i adj child).
Proof.
  intros Hi HA. unfold child_step. destruct (_ !! child) as [j|] eqn:E; [|done].
  case_decide; [|done]. apply link_ok; [done| |done]. by apply index_spec, lookup_lt_Some in E.
Qed.

Lemma child_step_mono i adj child a b :
  (i < length garbage)%nat → adj_ok adj → b ∈ next adj a → b ∈ next (child_step i adj child) a.
Proof.
  intros Hi (A1 & _) H. unfold child_step. destruct (_ !! child) as [j|] eqn:E; [|done].
  case_decide; [|done]. apply index_spec, lookup_lt_Some in E.
  rewrite next_link by congruence. by left.
Qed.

Lemma imap_pair_elem i u : (i, u) ∈ imap pair garbage ↔ garbage !! i = Some u.
Proof.
  rewrite list_elem_of_lookup. setoid_rewrite list_lookup_imap. split.
  - intros (k & Hk). destruct (garbage !! k) eqn:E; simplify_eq/=. done.
  - intros H. exists i. by rewrite H.
Qed.

Lemma adjacency_ok : adj_ok (adjacency g garbage).
Proof.
  unfold adjacency. apply foldl_inv.
  - intros adj [i u] Hiu%imap_pair_elem HA. simpl. apply lookup_lt_Some in Hiu.
    apply (foldl_inv adj_ok (child_step i)); [|done]. intros adj' c _ HA'.
    by apply child_step_ok.
  - unfold adj_ok, next. rewrite length_replicate. split_and!; [done|..]; intros i j;
      destruct (replicate _ _ !! i) as [l|] eqn:E; simpl; try set_solver;
      apply lookup_replicate in E as [-> _]; set_solver.
Qed.

(** An edge between two members links them. *)
Lemma adjacency_edge i j u v :
  garbage !! i = Some u → garbage !! j = Some v → v ∈ gc_children g u → i ≠ j →
  j ∈ next (adjacency g garbage) i.
Proof.
  intros Hi Hj Hv Hij. unfold adjacency.
  assert (∀ k w, (k, w) ∈ imap pair garbage → (k < length garbage)%nat) as Hlt
    by (intros k w H%imap_pair_elem; by apply lookup_lt_Some in H).
  apply (foldl_reached (λ adj, j ∈ next adj i) adj_ok _ _ _ (i, u)).
  - intros adj [k w] Hk HA. apply (foldl_inv adj_ok (child_step k)); [|done]. intros.
    apply child_step_ok; [by eapply Hlt|done].
  - intros adj HA. simpl. apply lookup_lt_Some in Hi as Hil. apply lookup_lt_Some in Hj as Hjl.
    apply (foldl_reached (λ adj, j ∈ next adj i) adj_ok (child_step i) _ _ v).
    + intros. by apply child_step_ok.
    + intros adj' (A1 & _). unfold child_step. rewrite (proj2 (index_spec v j) Hj).
      rewrite decide_True by done. rewrite next_link by congruence. auto.
    + intros. by apply child_step_mono.
    + done.
    + done.
  - intros adj [k w] Hk HA H. apply (foldl_inv (λ adj, adj_ok adj ∧ j ∈ next adj i) (child_step k)).
    + intros adj' c _ [? ?]. split; [apply child_step_ok|apply child_step_mono]; try done; by eapply Hlt.
    + done.
  - unfold adj_ok, next. rewrite length_replicate. split_and!; [done|..]; intros a b;
      destruct (replicate _ _ !! a) as [l|] eqn:E; simpl; try set_solver;
      apply lookup_replicate in E as [-> _]; set_solver.
  - by apply imap_pair_elem.
Qed.
End Adjacency.
