(* ===== verification/GcProps.v ===== *)
(** The properties of the collectors of [Gc]. *)
From S2P Require Import Prelude Gc GcPaint GcTrial GcFacts GcTrace GcComponents.
From stdpp Require Import relations options.
Open Scope Z_scope.

Section Props.
Context (g : Graph).

Lemma edges_sub X Y v : X ⊆ Y → edges g X v ≤ edges g Y v.
Proof. apply total_mono. intros. apply occ_nonneg. Qed.

(** Counts read off modulo the width. *)
Lemma rc_minus σ σ' X v :
  heap_ok g σ → in_range σ' → X ⊆ dom σ → v ∈ dom σ → is_shared g v = false →
  cong (rc σ' v) (rc σ v - edges g X v) → rc σ' v = rc σ v - edges g X v.
Proof.
  intros Hok Hr HX Hv Hsh Hc. apply cong_eq; [done|apply Hr|].
  pose proof (ok_counts _ _ Hok v Hv Hsh). pose proof (edges_sub _ _ v HX).
  pose proof (edges_nonneg g X v). pose proof (ok_range _ _ Hok v). lia.
Qed.

Lemma white_in_dom (M : gset Id) (white : list Id) (σ : Headers) :
  (∀ v, v ∈ M → v ∈ dom σ ∧ is_shared g v = false) → (∀ v, v ∈ white → v ∈ M) →
  (list_to_set white : gset Id) ⊆ dom σ.
Proof. intros HM Hw v Hv%elem_of_list_to_set. by apply HM, Hw. Qed.

(** *** Deferred candidates *)

(** A purple candidate that is found gray was reached from an earlier one. *)
Lemma mark_candidates_deferred fuel roots σ0 M gray deferred σ σ' gray' deferred' v :
  heap_ok g σ0 → roots_ok g σ0 roots → NoDup roots → (∀ r, r ∈ gray → r ∉ roots) →
  (∀ r, r ∈ gray → gc_color σ0 r = Purple) → marked g σ0 M gray σ →
  fold_opt (mark_candidate g fuel) roots (σ, gray, deferred) = Some (σ', gray', deferred') →
  v ∈ deferred' → v ∈ deferred ∨ gc_color σ0 v ≠ Purple ∨
    ∃ r, gc_color σ0 r = Purple ∧ r ≠ v ∧ rtc (edge g) r v.
Proof.
  intros Hok. revert M gray deferred σ.
  induction roots as [|s roots IH]; intros M gray deferred σ Hroots Hnd Hg Hp HM; cbn [fold_opt].
  { intros [= -> -> ->]. auto. }
  destruct (Hroots s) as [Hs Hsh]; [left|]. apply NoDup_cons in Hnd as [Hns Hnd].
  assert (roots_ok g σ0 roots) as Hroots' by (intros w Hw; apply Hroots; by right).
  assert (∀ r, r ∈ gray → r ∉ roots) as Hg' by (intros r Hr Hin; apply (Hg r Hr); by right).
  apply (marked_buffered g σ0 _ _ false s) in HM. unfold mark_candidate at 1. cbv beta iota.
  set (σ1 := gc_set_buffered false s σ) in *.
  pose proof (m_color _ _ _ _ _ HM s) as Hcol. destruct (decide (gc_color σ1 s = Purple)) as [Hc|Hc].
  - destruct (mark_gray g fuel s σ1) as [σ2|] eqn:E; [|done].
    destruct (marked_visit g σ0 Hok _ _ _ _ _ _ Hs Hsh Hc HM E) as (M2 & _ & _ & HM2).
    assert (gc_color σ0 s = Purple) as Hps by (rewrite Hcol in Hc; by case_decide).
    apply (IH M2); [done|done| | |done]; intros r [Hr|Hr%list_elem_of_singleton]%elem_of_app;
      subst; auto.
  - intros H Hv. destruct (IH _ _ _ _ Hroots' Hnd Hg' Hp HM H Hv) as [Hd|?]; [|auto].
    apply elem_of_app in Hd as [?|Hd%list_elem_of_singleton]; [auto|]. subst s.
    right. destruct (decide (gc_color σ0 v = Purple)) as [Hpv|]; [|auto]. right.
    rewrite Hcol in Hc. case_decide as HvM; [|done].
    destruct (m_reach _ _ _ _ _ HM v HvM) as (r & Hr & Hrv). exists r.
    split_and!; [auto| |done]. intros ->. apply (Hg v Hr). left.
Qed.

(** *** Components of a set of objects *)

Lemma components_spec fuel garbage comps :
  NoDup garbage → weakly_connected_components g fuel garbage = Some comps →
  concat comps ≡ₚ garbage ∧
  ∀ c u v, c ∈ comps → u ∈ c → v ∈ garbage →
    v ∈ gc_children g u ∨ u ∈ gc_children g v → v ∈ c.
Proof.
  intros Hnd. unfold weakly_connected_components.
  destruct (adjacency_ok g garbage Hnd) as (A1 & A2 & A3).
  destruct (fold_opt _ (seq 0 _) _) as [[cs vis]|] eqn:E; [|done]. intros [= <-].
  apply (components_ok _ (length garbage) A3 A2) in E as ([C1 C2 C3 C4] & _ & Hall);
    [|apply Forall_forall; intros i Hi%elem_of_seq; lia|].
  2: { split; simpl; try set_solver. constructor. }
  assert (∀ c u, u ∈ omap (λ i, garbage !! i) c ↔ ∃ i, i ∈ c ∧ garbage !! i = Some u) as Hom
    by (intros c u; apply list_elem_of_omap).
  split.
  - assert (concat (map (λ c, omap (λ i, garbage !! i) c) cs)
            = omap (λ i, garbage !! i) (concat cs)) as ->.
    { clear. induction cs as [|c cs IH]; simpl; [done|]. by rewrite omap_app, IH. }
    assert (concat cs ≡ₚ seq 0 (length garbage)) as ->.
    { apply NoDup_Permutation; [done|apply NoDup_seq|]. intros i. rewrite elem_of_seq. split.
      - intros Hi%C4. lia.
      - intros Hi. assert (i ∈ vis) as Hv by (apply Hall, elem_of_seq; lia).
        by rewrite C1, elem_of_list_to_set in Hv. }
    clear. induction garbage as [|x l IH] using rev_ind; [done|].
    replace (length (l ++ [x])) with (S (length l)) by (rewrite length_app; simpl; lia).
    rewrite seq_S, omap_app. simpl. rewrite lookup_app_r, Nat.sub_diag by lia. simpl. f_equiv.
    rewrite <- IH at 2. apply reflexive_eq, list_omap_ext, Forall_Forall2_diag, Forall_forall.
    intros i Hi%elem_of_seq. by rewrite lookup_app_l by lia.
  - intros c' u v Hc' Hu Hv Hadj. apply list_elem_of_In, in_map_iff in Hc' as (c & <- & Hc).
    apply list_elem_of_In in Hc. apply Hom in Hu as (i & Hi & Eu).
    apply list_elem_of_lookup in Hv as [j Ev]. apply Hom. exists j. split; [|done].
    destruct (decide (i = j)) as [->|Hij]; [done|]. apply (C3 c i); [done|done|].
    destruct Hadj as [He|He]; [by apply (adjacency_edge g garbage Hnd i j u v)|].
    apply A3. by apply (adjacency_edge g garbage Hnd j i v u).
Qed.

(** *** Restoring deferred components *)

Lemma rc_possible_root v st w : rc (possible_root v st).1 w = rc st.1 w.
Proof.
  destruct st as [σ c]. unfold possible_root. case_decide; [|done].
  destruct (gc_buffered _ v); simpl; rewrite ?rc_buffered; apply rc_set.
Qed.

Lemma dom_possible_root v st : dom (possible_root v st).1 = dom st.1.
Proof.
  destruct st as [σ c]. unfold possible_root. case_decide; [|done].
  destruct (gc_buffered _ v); simpl; rewrite ?dom_buffered; apply dom_set.
Qed.

Lemma restore_component_spec component σ candidates :
  NoDup component → closed g (dom σ) → (list_to_set component : gset Id) ⊆ dom σ → in_range σ →
  let σ' := (restore_component g component (σ, candidates)).1 in
  dom σ' = dom σ ∧ in_range σ' ∧
  ∀ v, is_shared g v = false → cong (rc σ' v) (rc σ v + edges g (list_to_set component) v).
Proof.
  intros Hnd Hc Hsub Hr. unfold restore_component. cbn [fst snd].
  assert (∀ l st, dom (foldl (λ st m, possible_root m st) st l).1 = dom st.1 ∧
            ∀ v, rc (foldl (λ st m, possible_root m st) st l).1 v = rc st.1 v) as Hroots.
  { induction l as [|m l IH]; intros st; simpl; [done|]. destruct (IH (possible_root m st)) as [-> H].
    rewrite dom_possible_root. split; [done|]. intros v. by rewrite H, rc_possible_root. }
  set (incs := foldl _ σ component).
  destruct (Hroots component (incs, candidates)) as [-> Hrc]. cbn [fst].
  enough (dom incs = dom σ ∧ in_range incs ∧
    ∀ v, is_shared g v = false → cong (rc incs v) (rc σ v + edges g (list_to_set component) v))
    as (H1 & H2 & H3).
  { split_and!; [done|by intros v; rewrite Hrc|]. intros v Hv. rewrite Hrc. auto. }
  clear Hrc Hroots. setoid_rewrite (λ v, total_list (λ u, occ v (gc_children g u)) component Hnd).
  assert (∀ m, m ∈ component → m ∈ dom σ) as Hin by (intros m Hm; by apply Hsub, elem_of_list_to_set).
  unfold incs. clear incs Hsub Hnd.
  assert (∀ cs τ, dom τ = dom σ → in_range τ → (∀ c, c ∈ cs → is_shared g c = false → c ∈ dom σ) →
    let τ' := foldl (λ σ child, if is_shared g child then σ else gc_rc_inc child σ) τ cs in
    dom τ' = dom σ ∧ in_range τ' ∧
    ∀ v, is_shared g v = false → cong (rc τ' v) (rc τ v + occ v cs)) as Hcs.
  { induction cs as [|c cs IH]; intros τ Hd Hrt Hcd; simpl.
    { split_and!; [done..|]. intros v _. exists 0. unfold occ. simpl. lia. }
    destruct (is_shared g c) eqn:Es.
    - destruct (IH τ Hd Hrt) as (? & ? & H); [intros; apply Hcd; [by right|done]|].
      split_and!; [done..|]. intros v Hv. rewrite occ_cons, decide_False by (intros ->; congruence).
      by apply H.
    - change (gc_rc_inc c τ) with (rc_move 1 c τ).
      assert (c ∈ dom τ) as Hcτ by (rewrite Hd; apply Hcd; [left|done]).
      destruct (IH (rc_move 1 c τ)) as (? & ? & H);
        [by rewrite dom_move|by apply range_move|intros; apply Hcd; [by right|done]|].
      split_and!; [done..|]. intros v Hv. destruct (H v Hv) as [k ->].
      destruct (rc_move_cong 1 c τ v Hcτ) as [k' ->]. rewrite occ_cons. exists (k + k').
      case_decide; lia. }
  assert (∀ l τ, dom τ = dom σ → in_range τ → (∀ m, m ∈ l → m ∈ dom σ) →
    let τ' := foldl (λ σ m, foldl (λ σ child, if is_shared g child then σ else gc_rc_inc child σ) σ
                              (gc_children g m)) τ l in
    dom τ' = dom σ ∧ in_range τ' ∧
    ∀ v, is_shared g v = false →
      cong (rc τ' v) (rc τ v + foldr (λ u acc, occ v (gc_children g u) + acc) 0 l)) as H.
  { clear Hr Hin. induction l as [|m l IH]; intros τ Hd Hr Hin; simpl.
    { split_and!; [done..|]. intros v _. exists 0. lia. }
    destruct (Hcs (gc_children g m) τ Hd Hr) as (D1 & R1 & C1).
    { intros c Hcm Hsh. apply (Hc m); [apply Hin; left|done]. }
    destruct (IH _ D1 R1) as (D2 & R2 & C2); [intros; apply Hin; by right|].
    split_and!; [done..|]. intros v Hv. destruct (C2 v Hv) as [k ->], (C1 v Hv) as [k' ->].
    exists (k + k'). lia. }
  by apply H.
Qed.

(** The fold over the components of a safepoint trial deletion. *)
Definition reclaim_step (defer : Id → bool) (acc : list Id * Headers * list Id)
    (component : list Id) : list Id * Headers * list Id :=
  let '(fresh, σ, candidates) := acc in
  if any defer component
  then let '(σ, candidates) := restore_component g component (σ, candidates) in
       (fresh, σ, candidates)
  else (fresh ++ component, σ, candidates).

Definition kept (defer : Id → bool) (comps : list (list Id)) : list Id :=
  concat (List.filter (any defer) comps).
Definition reclaimed (defer : Id → bool) (comps : list (list Id)) : list Id :=
  concat (List.filter (λ c, negb (any defer c)) comps).

Lemma kept_reclaimed defer comps : reclaimed defer comps ++ kept defer comps ≡ₚ concat comps.
Proof.
  unfold kept, reclaimed. induction comps as [|c comps IH]; simpl; [done|].
  destruct (any defer c); simpl; rewrite <- IH; solve_Permutation.
Qed.

Lemma kept_spec defer comps v :
  v ∈ kept defer comps ↔ ∃ c, c ∈ comps ∧ any defer c = true ∧ v ∈ c.
Proof.
  unfold kept. rewrite elem_of_concat. split.
  - intros (c & Hc & Hv). apply list_elem_of_In, filter_In in Hc as [Hc ?].
    apply list_elem_of_In in Hc. eauto.
  - intros (c & Hc & ? & Hv). exists c. split; [|done].
    apply list_elem_of_In, filter_In. split; [by apply list_elem_of_In|done].
Qed.

Lemma reclaimed_spec defer comps v : v ∈ reclaimed defer comps → defer v = false.
Proof.
  unfold reclaimed. rewrite elem_of_concat. intros (c & Hc & Hv).
  apply list_elem_of_In, filter_In in Hc as [_ Hd]. bool_to_prop.
  destruct (defer v) eqn:E; [|done]. exfalso.
  assert (any defer c = true) as H by (apply any_exists; eauto). congruence.
Qed.

Lemma reclaim_spec defer comps fr σ candidates fr' σ' candidates' :
  NoDup (concat comps) → closed g (dom σ) → in_range σ →
  (∀ v, v ∈ concat comps → v ∈ dom σ) →
  foldl (reclaim_step defer) (fr, σ, candidates) comps = (fr', σ', candidates') →
  fr' = fr ++ reclaimed defer comps ∧ dom σ' = dom σ ∧ in_range σ' ∧
  (∀ v, is_shared g v = false → cong (rc σ' v) (rc σ v + edges g (list_to_set (kept defer comps)) v)).
Proof.
  revert fr σ candidates. induction comps as [|c comps IH]; intros fr σ candidates Hnd Hc Hr Hd;
    cbn [foldl concat].
  { intros [= <- <- <-]. rewrite app_nil_r. split_and!; [done..|].
    intros v _. exists 0. unfold edges. simpl. rewrite total_empty. lia. }
  cbn [concat] in Hnd. apply NoDup_app in Hnd as (Hndc & Hdis & Hnd).
  assert (∀ v, v ∈ concat comps → v ∈ dom σ) as Hd'
    by (intros v Hv; apply Hd, elem_of_app; by right).
  unfold reclaim_step at 2, kept, reclaimed. cbn [List.filter].
  destruct (any defer c) eqn:Ed; cbn [negb concat].
  - destruct (restore_component_spec c σ candidates Hndc Hc) as (D1 & R1 & C1); [|done|].
    { intros v Hv%elem_of_list_to_set. apply Hd, elem_of_app. by left. }
    destruct (restore_component g c (σ, candidates)) as [σ1 ca1]. cbn [fst] in *.
    intros H. apply IH in H as (E2 & D2 & R2 & C2); [|done|by rewrite D1|done|by rewrite D1].
    split_and!; [done|congruence|done|]. intros v Hv.
    destruct (C2 v Hv) as [k ->], (C1 v Hv) as [k' ->].
    rewrite list_to_set_app_L, edges_union; [exists (k + k'); unfold kept; lia|].
    intros w Hw%elem_of_list_to_set Hw'%elem_of_list_to_set. apply (Hdis w Hw).
    rewrite <- (kept_reclaimed defer comps). apply elem_of_app. by right.
  - intros H. apply IH in H as (E2 & D2 & R2 & C2); [|done..].
    split_and!; [by rewrite E2, <- app_assoc|done..].
Qed.

Lemma sort_by_seq_perm l : sort_by_seq g l ≡ₚ l.
Proof.
  induction l as [|v l IH]; simpl; [done|].
  assert (∀ l, insert_by_seq g v l ≡ₚ v :: l) as Hi.
  { clear. induction l as [|w l IH]; simpl; [done|]. case_decide; [done|]. rewrite IH. constructor. }
  by rewrite Hi, IH.
Qed.

(** ** Properties *)

(** C1. Trial deletion is sound: every object it hands back as [fresh] is
    referred to only by fresh objects (its count is exactly the number of
    references from them), none twice, and every survivor's count is left at
    what it was less the references from the fresh objects, every other trial
    decrement being undone. *)
Theorem trial_deletion_sound fuel roots σ gb σ' :
  heap_ok g σ → roots_ok g σ roots → collect_trial_deletion g fuel roots σ = Some (gb, σ') →
  NoDup (Gc.fresh gb) ∧
  (∀ v, v ∈ Gc.fresh gb → rc σ v = edges g (list_to_set (Gc.fresh gb)) v) ∧
  (∀ v, v ∈ dom σ → is_shared g v = false → rc σ' v = rc σ v - edges g (list_to_set (Gc.fresh gb)) v).
Proof.
  intros Hok Hroots. unfold collect_trial_deletion.
  destruct (trial_delete g fuel roots σ) as [[[σ2 white] deferred]|] eqn:E; [|done].
  intros [= <- <-]. cbn [Gc.fresh].
  destruct (trial_delete_spec g _ _ _ _ _ _ Hok Hroots E)
    as (M & _ & HM & Hnd & Hwh & _ & Hr & Hrc & Hz & _ & _).
  pose proof (white_in_dom _ _ _ HM Hwh) as Hsub.
  assert (∀ v, v ∈ dom σ → is_shared g v = false →
            rc σ2 v = rc σ v - edges g (list_to_set white) v) as Hsurv
    by (intros v Hv Hsh; apply rc_minus; auto).
  split_and!; [done| |done]. intros v Hv. destruct (HM v (Hwh v Hv)) as [Hd Hsh].
  specialize (Hsurv v Hd Hsh). rewrite (Hz v Hv) in Hsurv. lia.
Qed.

(** C26. Trial deletion is complete: any set of objects reachable from purple
    candidates whose every reference comes from the set itself is reclaimed. *)
Theorem trial_deletion_complete fuel roots σ gb σ' (X : gset Id) :
  heap_ok g σ → roots_ok g σ roots → collect_trial_deletion g fuel roots σ = Some (gb, σ') →
  (∀ x, x ∈ X → rc σ x = edges g X x ∧
     ∃ r, r ∈ roots ∧ gc_color σ r = Purple ∧ rtc (edge g) r x) →
  ∀ x, x ∈ X → x ∈ Gc.fresh gb.
Proof.
  intros Hok Hroots. unfold collect_trial_deletion.
  destruct (trial_delete g fuel roots σ) as [[[σ2 white] deferred]|] eqn:E; [|done].
  intros [= <- <-] HX. cbn [Gc.fresh].
  destruct (trial_delete_spec g _ _ _ _ _ _ Hok Hroots E)
    as (M & HMr & _ & _ & _ & _ & _ & _ & _ & Hmax & _).
  apply Hmax. intros x Hx. destruct (HX x Hx) as [Hrc Hreach]. split; [by apply HMr|done].
Qed.

(** Trial deletion terminates: fuel for twice the objects is enough. *)
Theorem trial_deletion_terminates fuel roots σ :
  heap_ok g σ → roots_ok g σ roots → (2 * size (dom σ) < fuel)%nat →
  ∃ gb σ', collect_trial_deletion g fuel roots σ = Some (gb, σ').
Proof.
  intros Hok Hroots Hf. unfold collect_trial_deletion.
  destruct (trial_delete_total g _ _ _ Hok Hroots Hf) as [[[σ2 white] deferred] ->]. eauto.
Qed.

(** What trial deletion frees as already destructed: a candidate that was
    not purple (a deferred deallocation), or a purple one that is reachable from
    another purple candidate and was not garbage.  The second case is never
    correct: see [live_candidate_freed]. *)
Theorem already_destructed_origin fuel roots σ gb σ' v :
  heap_ok g σ → roots_ok g σ roots → NoDup roots →
  collect_trial_deletion g fuel roots σ = Some (gb, σ') → v ∈ already_destructed gb →
  v ∈ roots ∧ v ∉ Gc.fresh gb ∧
  (gc_color σ v ≠ Purple ∨ ∃ r, gc_color σ r = Purple ∧ r ≠ v ∧ rtc (edge g) r v).
Proof.
  intros Hok Hroots Hnd. unfold collect_trial_deletion.
  destruct (trial_delete g fuel roots σ) as [[[σ2 white] deferred]|] eqn:E; [|done].
  intros [= <- <-]. cbn [Gc.fresh already_destructed]. intros Hv.
  destruct (trial_delete_spec g _ _ _ _ _ _ Hok Hroots E)
    as (_ & _ & _ & _ & _ & _ & _ & _ & _ & _ & Hd).
  destruct (Hd v Hv) as [? ?]. split_and!; [done..|]. clear Hd.
  unfold trial_delete in E.
  destruct (fold_opt (mark_candidate g fuel) roots (σ, [], [])) as [[[s1 gr] df]|] eqn:E1; [|done].
  destruct (fold_opt (scan g fuel) gr s1); [|done].
  destruct (fold_opt (gather_white g fuel) gr _) as [[s3 wh]|]; [|done].
  destruct (dedup_seen ∅ wh) as [w seen]. simplify_eq. apply dedup_elem in Hv as [Hv _].
  destruct (mark_candidates_deferred fuel roots σ ∅ [] [] σ s1 gr df v) as [?|?]; try done.
  - set_solver.
  - set_solver.
  - by apply marked_init.
  - set_solver.
Qed.

(** A safepoint trial deletion hands back no component the [defer] predicate
    holds back, and restores the counts of those it keeps: afterwards every
    object's count is what it was less the references from the objects handed
    back, which again are referred to only by each other. *)
Theorem trial_deletion_safepoint_sound fuel roots defer σ gb σ' candidates :
  heap_ok g σ → roots_ok g σ roots →
  collect_trial_deletion_safepoint g fuel roots defer σ = Some (gb, σ', candidates) →
  NoDup (Gc.fresh gb) ∧ (∀ v, v ∈ Gc.fresh gb → defer v = false) ∧
  (∀ v, v ∈ Gc.fresh gb → rc σ v = edges g (list_to_set (Gc.fresh gb)) v) ∧
  (∀ v, v ∈ dom σ → is_shared g v = false → rc σ' v = rc σ v - edges g (list_to_set (Gc.fresh gb)) v).
Proof.
  intros Hok Hroots. unfold collect_trial_deletion_safepoint.
  destruct (trial_delete g fuel roots σ) as [[[σ2 white] deferred]|] eqn:E; [|done].
  destruct (trial_delete_spec g _ _ _ _ _ _ Hok Hroots E)
    as (M & _ & HM & Hnd & Hwh & Hdom & Hr & Hrc & Hz & _ & _).
  pose proof (white_in_dom _ _ _ HM Hwh) as Hsub.
  destruct (weakly_connected_components g fuel white) as [comps|] eqn:Ec; [|done].
  destruct (components_spec _ _ _ Hnd Ec) as [Hperm Hconn].
  change (foldl _ ([], σ2, []) comps) with (foldl (reclaim_step defer) ([], σ2, []) comps).
  destruct (foldl (reclaim_step defer) ([], σ2, []) comps) as [[fr σ3] ca] eqn:Ef.
  intros [= <- <- <-]. cbn [Gc.fresh].
  apply reclaim_spec in Ef as (-> & D3 & R3 & C3);
    [|by rewrite Hperm|rewrite Hdom; apply Hok|done|intros v; rewrite Hperm, Hdom; intros Hv; by apply HM, Hwh].
  cbn [app] in *. rewrite sort_by_seq_perm.
  assert (NoDup (reclaimed defer comps ++ kept defer comps)) as Hrk by by rewrite kept_reclaimed, Hperm.
  apply NoDup_app in Hrk as (Hndr & Hdis & Hndk).
  assert (∀ v, v ∈ sort_by_seq g (reclaimed defer comps) ↔ v ∈ reclaimed defer comps) as Hsort
    by (intros v; by rewrite sort_by_seq_perm).
  assert ((list_to_set (sort_by_seq g (reclaimed defer comps)) : gset Id)
          = list_to_set (reclaimed defer comps)) as ->.
  { apply set_eq. intros v. by rewrite !elem_of_list_to_set, Hsort. }
  setoid_rewrite Hsort. clear Hsort.
  assert ((list_to_set white : gset Id)
          = list_to_set (reclaimed defer comps) ∪ list_to_set (kept defer comps)) as Ew.
  { apply set_eq. intros v. rewrite elem_of_union, !elem_of_list_to_set, <- elem_of_app.
    by rewrite kept_reclaimed, Hperm. }
  assert ((list_to_set (reclaimed defer comps) : gset Id) ## list_to_set (kept defer comps)) as Hds
    by (intros v Hv%elem_of_list_to_set Hv'%elem_of_list_to_set; by apply (Hdis v)).
  assert (∀ v, v ∈ reclaimed defer comps → v ∈ white) as Hrw.
  { intros v Hv. rewrite <- Hperm, <- (kept_reclaimed defer comps). apply elem_of_app. by left. }
  rewrite Ew in Hrc, Hsub. setoid_rewrite edges_union in Hrc; [|done].
  split_and!; [done| | |].
  - intros v Hv. by apply (reclaimed_spec defer comps).
  - intros v Hv. destruct (HM v (Hwh v (Hrw v Hv))) as [Hd Hsh].
    assert (rc σ2 v = rc σ v - edges g (list_to_set white) v) as H.
    { apply rc_minus; [done..|by rewrite Ew|done|done|]. rewrite Ew, edges_union by done. auto. }
    rewrite (Hz v (Hrw v Hv)), Ew, edges_union in H by done.
    enough (edges g (list_to_set (kept defer comps)) v = 0) by lia.
    apply total_zero. intros u Hu%elem_of_list_to_set. apply occ_zero. intros Hc.
    apply (Hdis v Hv). apply kept_spec in Hu as (c & Hcc & Hdc & Huc). apply kept_spec.
    exists c. split_and!; [done..|]. apply (Hconn c u v); auto.
  - intros v Hv Hsh. apply rc_minus; [done..|set_solver|done|done|].
    destruct (C3 v Hsh) as [k ->], (Hrc v Hsh) as [k' ->]. exists (k + k'). lia.
Qed.

(** A registry the trace may sweep: distinct objects of the heap, none of them
    shared, among them every object with references. *)
Record registry_ok (live : list Id) (σ : Headers) : Prop := {
  live_nodup : NoDup live;
  live_own : ∀ v, v ∈ live → v ∈ dom σ ∧ is_shared g v = false;
  live_nodes : ∀ v, v ∉ live → gc_children g v = [];
}.

Lemma unmarked_spec live σ v :
  v ∈ List.filter (λ v, negb (bool_decide (gc_color σ v = Gray))) live ↔
  v ∈ live ∧ gc_color σ v ≠ Gray.
Proof.
  rewrite list_elem_of_In, filter_In, <- list_elem_of_In.
  rewrite negb_true_iff, bool_decide_eq_false. done.
Qed.

Lemma filter_nodup {A} (f : A → bool) l : NoDup l → NoDup (List.filter f l).
Proof.
  induction 1 as [|x l Hx _ IH]; simpl; [constructor|]. destruct (f x); [|done].
  constructor; [|done]. rewrite list_elem_of_In, filter_In, <- list_elem_of_In. tauto.
Qed.

(** C29. The backup trace collects exactly what no root reaches: [fresh] is the
    set of registered objects that no path of counted references from a root
    leads to.  No count changes, and the headers are left ready for the next
    trace. *)
Theorem trace_collects_unreachable fuel live roots σ gb σ' anomalies :
  closed g (dom σ) → roots_in g roots σ → trace_ready g live σ → registry_ok live σ →
  collect_trace g fuel live roots σ = Some (gb, σ', anomalies) →
  (∀ v, v ∈ Gc.fresh gb ↔ v ∈ live ∧ ¬ reached g roots v) ∧
  (∀ v, rc σ' v = rc σ v) ∧ trace_ready g live σ'.
Proof.
  intros Hc Hr Hready Hreg. unfold collect_trace.
  destruct (fold_opt (mark_value g fuel) roots σ) as [σ1|] eqn:E; [|done]. intros [= <- <- _].
  destruct (trace_spec g _ _ _ _ _ Hc Hr Hready E) as (_ & Hrc & Hg & _).
  destruct (reset_spec live σ1) as (_ & Hrc' & Hg'). cbn [Gc.fresh]. split_and!.
  - intros v. rewrite unmarked_spec. split; intros [Hv H]; (split; [done|]).
    + by rewrite <- (Hg v Hv).
    + by rewrite (Hg v Hv).
  - intros v. by rewrite Hrc'.
  - intros v [Hv _]%Hg'. split; [done|]. by apply (live_nodes _ _ Hreg).
Qed.

(** A heap as a safepoint trace finds it: references counted stay within it,
    every count covers the references to it, and of the registered objects none
    is gray; an unregistered leaf may be, from an earlier trace. *)
Record traceable (live : list Id) (σ : Headers) : Prop := {
  tr_closed : closed g (dom σ);
  tr_range : in_range σ;
  tr_counts : ∀ v, v ∈ dom σ → is_shared g v = false → edges g (dom σ) v ≤ rc σ v;
  tr_ready : trace_ready g live σ;
}.
(** Marking and the reset leave such a heap behind. *)
Lemma marked_traceable fuel live roots σ σ1 :
  traceable live σ → roots_in g roots σ → registry_ok live σ →
  fold_opt (mark_value g fuel) roots σ = Some σ1 →
  let σ2 := reset_survivors live σ1 in
  traceable live σ2 ∧ dom σ2 = dom σ ∧ (∀ v, rc σ2 v = rc σ v) ∧
  (∀ v, v ∈ live → gc_color σ1 v = Gray ↔ reached g roots v).
Proof.
  intros [Hc Hi Hn Hready] Hr Hreg E.
  destruct (trace_spec g _ _ _ _ _ Hc Hr Hready E) as (Hd & Hrc & Hg & _).
  destruct (reset_spec live σ1) as (Hd' & Hrc' & Hg'). cbv zeta. set (σ2 := reset_survivors live σ1) in *.
  assert (dom σ2 = dom σ) as Ed by congruence.
  assert (∀ v, rc σ2 v = rc σ v) as Er by congruence.
  split_and!; [|done..]. split.
  - by rewrite Ed.
  - intros v. rewrite Er. apply Hi.
  - intros v. rewrite Ed, Er. apply Hn.
  - intros v [Hv _]%Hg'. split; [done|]. by apply (live_nodes _ _ Hreg).
Qed.

(** The garbage of a safepoint trace that was not abandoned. *)
Lemma safepoint_garbage live σ garbage v :
  traceable live σ → registry_ok live σ → NoDup garbage → (∀ v, v ∈ garbage → v ∈ live) →
  count_refcount_anomalies g garbage σ = O → v ∈ garbage →
  rc σ v = edges g (list_to_set garbage) v ∧
  ∀ u, u ∈ dom σ → v ∈ gc_children g u → u ∈ garbage.
Proof.
  intros Hok Hreg Hnd Hlive Hz Hv. destruct (live_own _ _ Hreg v (Hlive v Hv)) as [Hd Hsh].
  assert ((list_to_set garbage : gset Id) ⊆ dom σ) as Hsub.
  { intros w Hw%elem_of_list_to_set. by apply (live_own _ _ Hreg), Hlive. }
  pose proof (tr_counts _ _ Hok v Hd Hsh) as Hc. pose proof (edges_sub _ _ v Hsub).
  assert (rc σ v = edges g (list_to_set garbage) v) as E.
  { apply cong_eq; [apply anomalies_spec; [done|apply (tr_range _ _ Hok)|done..]|apply (tr_range _ _ Hok)|].
    pose proof (edges_nonneg g (list_to_set garbage) v). pose proof (tr_range _ _ Hok v). lia. }
  split; [done|]. intros u Hu Hc'. destruct (decide (u ∈ garbage)) as [|Hn]; [done|]. exfalso.
  assert (list_to_set garbage ∪ {[ u ]} ⊆ dom σ) as Hsub'.
  { intros w [?|Hw]%elem_of_union; [auto|]. by apply elem_of_singleton in Hw as ->. }
  pose proof (edges_sub _ _ v Hsub') as Hle. rewrite edges_union in Hle.
  - unfold edges at 2 in Hle. rewrite total_singleton in Hle. pose proof (occ_pos _ _ Hc'). lia.
  - intros w Hw%elem_of_list_to_set. rewrite elem_of_singleton. by intros ->.
Qed.

(** Counts and colors after a trace's marking and reset. *)
Lemma anomalies_rc garbage σ σ' :
  (∀ v, rc σ' v = rc σ v) → count_refcount_anomalies g garbage σ' = count_refcount_anomalies g garbage σ.
Proof.
  intros H. unfold count_refcount_anomalies. destruct garbage as [|w l]; [done|]. f_equal.
  apply filter_ext. intros v. unfold is_anomaly. by rewrite H.
Qed.

(** C33. A safepoint trace never reclaims anything in use, even when the
    interpreter missed a root: whatever it hands back is unreached, holds no
    object the [defer] predicate keeps, is referred to by handed-back objects
    only, and those references account for its whole count.  It changes no count
    and leaves the heap as the next trace may find it, gray leaves included. *)
Theorem trace_safepoint_safe fuel live roots defer σ gb σ' :
  traceable live σ → roots_in g roots σ → registry_ok live σ →
  collect_trace_safepoint g fuel live roots defer σ = Some (gb, σ') →
  (∀ v, v ∈ Gc.fresh gb →
     ¬ reached g roots v ∧ defer v = false ∧
     (∀ u, u ∈ dom σ → v ∈ gc_children g u → u ∈ Gc.fresh gb) ∧
     rc σ v = edges g (list_to_set (Gc.fresh gb)) v) ∧
  traceable live σ' ∧ dom σ' = dom σ ∧ ∀ v, rc σ' v = rc σ v.
Proof.
  intros Hok Hr Hreg. unfold collect_trace_safepoint.
  destruct (fold_opt (mark_value g fuel) roots σ) as [σ1|] eqn:E; [|done].
  destruct (marked_traceable _ _ _ _ _ Hok Hr Hreg E) as (Ht & Hdom & Hrc & Hg).
  set (σ2 := reset_survivors live σ1) in *. set (garbage := List.filter _ live).
  assert (∀ w, w ∈ garbage → w ∈ live ∧ ¬ reached g roots w) as Hgb.
  { intros w [Hw Hn]%unmarked_spec. split; [done|]. by rewrite <- (Hg w Hw). }
  destruct (bool_decide (garbage = []) || _) eqn:Eb;
    [intros [= <- <-]; split; [cbn; set_solver|done]|].
  bool_to_prop. match goal with H : count_refcount_anomalies _ _ _ = _ |- _ => rename H into Hz end.
  rewrite (anomalies_rc garbage σ σ2) in Hz by done.
  assert (NoDup garbage) as Hnd by (apply filter_nodup, Hreg).
  destruct (weakly_connected_components g fuel garbage) as [comps|] eqn:Ec; [|done].
  destruct (components_spec _ _ _ Hnd Ec) as [Hperm Hconn]. intros [= <- <-].
  split; [|done]. cbn [Gc.fresh]. intros v.
  change (concat _) with (reclaimed defer comps).
  assert (∀ w, w ∈ sort_by_seq g (reclaimed defer comps) ↔ w ∈ reclaimed defer comps) as Hs
    by (intros w; by rewrite sort_by_seq_perm).
  rewrite Hs. intros Hv. assert (∀ w, w ∈ reclaimed defer comps → w ∈ garbage) as Hrg.
  { intros w Hw. rewrite <- Hperm, <- (kept_reclaimed defer comps). apply elem_of_app. by left. }
  destruct (safepoint_garbage live σ garbage v Hok Hreg Hnd) as [Hrcv Hin];
    [intros w Hw; by apply Hgb|done|by apply Hrg|].
  assert (∀ u, u ∈ garbage → v ∈ gc_children g u → u ∈ reclaimed defer comps) as Hclosed.
  { intros u Hu Huv. rewrite <- Hperm, <- (kept_reclaimed defer comps), elem_of_app in Hu.
    destruct Hu as [|Hu]; [done|]. exfalso. pose proof Hnd as Hnd'.
    rewrite <- Hperm, <- (kept_reclaimed defer comps) in Hnd'.
    apply NoDup_app in Hnd' as (_ & Hdis & _). apply (Hdis v Hv).
    apply kept_spec in Hu as (c & Hc & Hd & Huc). apply kept_spec. exists c.
    split_and!; [done..|]. apply (Hconn c u v); auto. }
  split_and!; [by apply Hgb, Hrg|by apply (reclaimed_spec defer comps)| |].
  - intros u Hu Huv. apply Hs, Hclosed; auto.
  - rewrite Hrcv. unfold edges. 
    rewrite (total_split _ (list_to_set (sort_by_seq g (reclaimed defer comps))) (list_to_set garbage)).
    + enough (GcPaint.total (λ u, occ v (gc_children g u))
        (list_to_set garbage ∖ list_to_set (sort_by_seq g (reclaimed defer comps))) = 0) by lia.
      apply total_zero. intros u. rewrite elem_of_difference, !elem_of_list_to_set, Hs.
      intros [Hu Hn]. apply occ_zero. intros Huv. by apply Hn, Hclosed.
    + intros w. rewrite !elem_of_list_to_set, Hs. apply Hrg.
Qed.

(** A missed root costs liveness, never memory safety: if some registered
    object is unreached although something outside the heap still owns it, the
    safepoint trace hands back nothing. *)
Theorem missed_root_aborts fuel live roots defer σ gb σ' v :
  traceable live σ → roots_in g roots σ → registry_ok live σ →
  collect_trace_safepoint g fuel live roots defer σ = Some (gb, σ') →
  v ∈ live → ¬ reached g roots v → edges g (dom σ) v < rc σ v → Gc.fresh gb = [].
Proof.
  intros Hok Hr Hreg. unfold collect_trace_safepoint.
  destruct (fold_opt (mark_value g fuel) roots σ) as [σ1|] eqn:E; [|done].
  destruct (marked_traceable _ _ _ _ _ Hok Hr Hreg E) as (_ & _ & Hrc & Hg).
  set (σ2 := reset_survivors live σ1) in *.
  set (garbage := List.filter _ live).
  destruct (bool_decide (garbage = []) || _) eqn:Eb; [by intros [= <- <-]|].
  bool_to_prop. match goal with H : count_refcount_anomalies _ _ _ = _ |- _ => rename H into Hz end.
  rewrite (anomalies_rc garbage σ σ2) in Hz by done.
  intros _ Hv Hn Hext. exfalso.
  assert (v ∈ garbage) as Hvg by (apply unmarked_spec; split; [done|by rewrite (Hg v Hv)]).
  destruct (safepoint_garbage live σ garbage v Hok Hreg) as [E' _];
    [apply filter_nodup, Hreg|by intros w [? _]%unmarked_spec|done..|].
  assert ((list_to_set garbage : gset Id) ⊆ dom σ) as Hsub.
  { intros w Hw%elem_of_list_to_set. apply unmarked_spec in Hw as [Hw _]. by apply Hreg. }
  pose proof (edges_sub _ _ v Hsub). lia.
Qed.

(** The components are a partition, and no reference crosses from one to
    another: freeing one component leaves nothing dangling in the others. *)
Theorem components_partition fuel garbage :
  NoDup garbage → (S (length garbage) < fuel)%nat →
  ∃ comps, weakly_connected_components g fuel garbage = Some comps ∧
    concat comps ≡ₚ garbage ∧
    ∀ c u v, c ∈ comps → u ∈ c → v ∈ garbage →
      v ∈ gc_children g u ∨ u ∈ gc_children g v → v ∈ c.
Proof.
  intros Hnd Hf. destruct (adjacency_ok g garbage Hnd) as (A1 & A2 & A3).
  destruct (components_total (adjacency g garbage) (length garbage) A3 A2 fuel
              (seq 0 (length garbage)) [] ∅) as [[cs vis] E]; [| |done|].
  - apply Forall_forall. intros i Hi%elem_of_seq. lia.
  - split; simpl; try set_solver. constructor.
  - exists (map (λ c, omap (λ i, garbage !! i) c) cs).
    assert (weakly_connected_components g fuel garbage
            = Some (map (λ c, omap (λ i, garbage !! i) c) cs)) as Ec
      by (unfold weakly_connected_components; by rewrite E).
    split; [done|]. by apply components_spec with fuel.
Qed.

(** The backup trace terminates. *)
Theorem trace_terminates fuel live roots σ :
  closed g (dom σ) → roots_in g roots σ → (size (dom σ) < fuel)%nat →
  is_Some (collect_trace g fuel live roots σ).
Proof.
  intros Hc Hr Hf. unfold collect_trace. destruct (trace_total g fuel roots σ Hc Hr Hf) as [σ1 ->].
  eauto.
Qed.
End Props.

(** ** Concrete heaps *)
Module GcExample.
(** Objects [1] and [2] refer to each other, [3] refers to [1] and is rooted. *)
Definition cyc : Graph := mkGraph
  (λ v, if decide (v = 1%positive) then [2%positive]
        else if decide (v = 2%positive) then [1%positive] else [])
  (λ _, false) (λ v, Zpos v).
Definition h (n : Z) (c : Color) (b : bool) : Header := mkHeader n c b.

(** A dead cycle [1 <-> 2] buffered through [1], and a live object [3]. *)
Definition dead_cycle : Headers :=
  {[ 1%positive := h 1 Purple true; 2%positive := h 1 Black false; 3%positive := h 1 Black false ]}.

(** Deciding [heap_ok] of a concrete heap. *)
Definition heap_check (g : Graph) (σ : Headers) : bool :=
  forallb (λ u : Id, forallb (λ v, is_shared g v || bool_decide (v ∈ dom σ)) (gc_children g u))
    (elements (dom σ)) &&
  forallb (λ kv : Id * Header,
      bool_decide (0 ≤ refcount kv.2) && bool_decide (refcount kv.2 < 2 ^ 32) &&
      (bool_decide (color kv.2 = Black) || bool_decide (color kv.2 = Purple)) &&
      bool_decide (edges g (dom σ) kv.1 ≤ refcount kv.2)) (map_to_list σ).

Lemma heap_check_ok g σ : heap_check g σ = true → heap_ok g σ.
Proof.
  unfold heap_check. rewrite andb_true_iff, !forallb_forall. intros [H1 H2].
  assert (∀ v hd, σ !! v = Some hd → 0 ≤ refcount hd < 2 ^ 32 ∧
    (color hd = Black ∨ color hd = Purple) ∧ edges g (dom σ) v ≤ refcount hd) as H.
  { intros v hd Hv. apply elem_of_map_to_list, list_elem_of_In, H2 in Hv. simpl in Hv.
    bool_to_prop. split_and!; [done..| |done].
    match goal with H : _ ∨ _ |- _ => destruct H end; bool_to_prop; auto. }
  split.
  - intros u v Hu [Hv Hsh]. apply elem_of_elements, list_elem_of_In, H1 in Hu.
    rewrite forallb_forall in Hu. apply list_elem_of_In, Hu in Hv. rewrite Hsh in Hv. simpl in Hv. bool_to_prop. done.
  - intros v. unfold rc. destruct (σ !! v) as [hd|] eqn:E; simpl; [apply (H v hd E)|lia].
  - intros v. unfold gc_color. destruct (σ !! v) as [hd|] eqn:E; simpl; [apply (H v hd E)|auto].
  - intros v [hd E]%elem_of_dom _. unfold rc. rewrite E. simpl. apply (H v hd E).
Qed.

Lemma dead_cycle_ok : heap_ok cyc dead_cycle.
Proof. apply heap_check_ok. vm_compute. reflexivity. Qed.

Lemma one_root : roots_ok cyc dead_cycle [1%positive].
Proof. intros v ->%list_elem_of_singleton. split; [|done]. by eapply elem_of_dom_2. Qed.

Definition after_dead_cycle : Headers :=
  {[ 1%positive := h 0 Black false; 2%positive := h 0 Black false; 3%positive := h 1 Black false ]}.

Lemma dead_cycle_run :
  collect_trial_deletion cyc 8 [1%positive] dead_cycle
  = Some (mkGarbage [1; 2]%positive [] false, after_dead_cycle).
Proof. vm_compute. reflexivity. Qed.

Lemma trial_deletion_sound_witness :
  rc dead_cycle 1%positive = edges cyc (list_to_set [1; 2]%positive) 1%positive.
Proof.
  apply (trial_deletion_sound cyc 8 [1%positive] dead_cycle _ _ dead_cycle_ok one_root dead_cycle_run).
  left.
Defined.

Lemma trial_deletion_complete_witness : 2%positive ∈ [1; 2]%positive.
Proof.
  apply (trial_deletion_complete cyc 8 [1%positive] dead_cycle
    (mkGarbage [1; 2]%positive [] false) after_dead_cycle {[ 1%positive; 2%positive ]}
    dead_cycle_ok one_root dead_cycle_run); [|set_solver].
  intros x [->%elem_of_singleton| ->%elem_of_singleton]%elem_of_union; (split; [by vm_compute|]);
    exists 1%positive; (split; [left|]); (split; [by vm_compute|]).
  - apply rtc_refl.
  - apply rtc_once. split; [by left|done].
Defined.

Lemma trial_deletion_terminates_witness :
  ∃ gb σ', collect_trial_deletion cyc 8 [1%positive] dead_cycle = Some (gb, σ').
Proof.
  apply (trial_deletion_terminates cyc 8 [1%positive] dead_cycle dead_cycle_ok one_root).
  apply (bool_decide_unpack _). vm_compute. exact I.
Defined.

Lemma trial_deletion_safepoint_sound_witness :
  ∃ gb σ' candidates,
    collect_trial_deletion_safepoint cyc 8 [1%positive] (λ v, bool_decide (v = 2%positive)) dead_cycle
      = Some (gb, σ', candidates) ∧ NoDup (Gc.fresh gb) ∧ rc σ' 2%positive = 1.
Proof.
  destruct (collect_trial_deletion_safepoint cyc 8 [1%positive] (λ v, bool_decide (v = 2%positive))
    dead_cycle) as [[[gb σ'] ca]|] eqn:E; [|exfalso; vm_compute in E; discriminate].
  exists gb, σ', ca. split; [reflexivity|].
  destruct (trial_deletion_safepoint_sound cyc 8 [1%positive] (λ v, bool_decide (v = 2%positive))
    dead_cycle gb σ' ca dead_cycle_ok one_root E) as (Hnd & _).
  split; [exact Hnd|]. vm_compute in E. injection E as _ <- _. by vm_compute.
Defined.

(** [1 -> 2], each held by an owner outside the heap, both buffered as
    candidates since each lost a reference. *)
Definition chain : Graph := mkGraph
  (λ v, if decide (v = 1%positive) then [2%positive] else []) (λ _, false) (λ v, Zpos v).
Definition live_chain : Headers :=
  {[ 1%positive := h 1 Purple true; 2%positive := h 2 Purple true ]}.

Lemma live_chain_ok : heap_ok chain live_chain.
Proof. apply heap_check_ok. vm_compute. reflexivity. Qed.

Lemma chain_roots : roots_ok chain live_chain [1; 2]%positive.
Proof.
  intros v Hv. split; [|done].
  apply elem_of_cons in Hv as [->| ->%list_elem_of_singleton]; by eapply elem_of_dom_2.
Qed.

(** Trial deletion can free a live object.  Object [2] has a reference from
    [1] and one from outside, object [1] one from outside; both were decremented
    since the last collection, so both are candidates.  Marking from [1] paints
    [2] gray, the candidate loop takes the gray [2] for a deferred deallocation,
    and the collection hands [2] back to be freed, with its count at two, at
    exit and at a safepoint alike. *)
Theorem live_candidate_freed :
  heap_ok chain live_chain ∧ roots_ok chain live_chain [1; 2]%positive ∧
  edges chain (dom live_chain) 1%positive < rc live_chain 1%positive ∧
  edges chain (dom live_chain) 2%positive < rc live_chain 2%positive ∧
  (∃ gb σ', collect_trial_deletion chain 8 [1; 2]%positive live_chain = Some (gb, σ') ∧
     already_destructed gb = [2%positive] ∧ rc σ' 2%positive = 2) ∧
  (∃ gb σ' ca, collect_trial_deletion_safepoint chain 8 [1; 2]%positive (λ _, false) live_chain
       = Some (gb, σ', ca) ∧
     already_destructed gb = [2%positive] ∧ rc σ' 2%positive = 2).
Proof.
  split; [exact live_chain_ok|]. split; [exact chain_roots|].
  split; [by vm_compute|]. split; [by vm_compute|].
  split; repeat eexists; vm_compute; reflexivity.
Qed.

Lemma already_destructed_origin_witness :
  ∃ r, gc_color live_chain r = Purple ∧ r ≠ 2%positive ∧ rtc (edge chain) r 2%positive.
Proof.
  destruct (collect_trial_deletion chain 8 [1; 2]%positive live_chain) as [[gb σ']|] eqn:E;
    [|exfalso; vm_compute in E; discriminate].
  destruct (already_destructed_origin chain 8 [1; 2]%positive live_chain gb σ' 2%positive
    live_chain_ok chain_roots) as (_ & _ & H).
  - repeat constructor; set_solver.
  - exact E.
  - vm_compute in E. injection E as <- _. left.
  - destruct H as [H|H]; [exfalso; apply H; by vm_compute|exact H].
Defined.

(** The dead cycle under the trace: everything is registered, [3] is a root. *)
Definition black_cycle : Headers :=
  {[ 1%positive := h 1 Black false; 2%positive := h 1 Black false; 3%positive := h 1 Black false ]}.
Definition registry : list Id := [3; 2; 1]%positive.

Lemma black_cycle_ok : heap_ok cyc black_cycle.
Proof. apply heap_check_ok. vm_compute. reflexivity. Qed.

Lemma registry_cyc : registry_ok cyc registry black_cycle.
Proof.
  split.
  - apply (bool_decide_unpack _). by vm_compute.
  - intros v Hv. split; [|done].
    repeat (apply elem_of_cons in Hv as [->|Hv]; [by eapply elem_of_dom_2|]).
    by apply not_elem_of_nil in Hv.
  - intros v Hv. unfold registry in Hv. simpl. rewrite !decide_False; [done|..]; intros ->;
      apply Hv; [right; left|do 2 right; left].
Qed.

Lemma black_cycle_traceable : traceable cyc registry black_cycle.
Proof.
  destruct black_cycle_ok as [Hc Hi Hcol Hn]. split; [done..|].
  intros v Hv. destruct (Hcol v); congruence.
Qed.

Lemma root3 : roots_in cyc [Pointer 3%positive] black_cycle.
Proof.
  intros r Hr _. apply list_elem_of_singleton in Hr. injection Hr as ->.
  by eapply elem_of_dom_2.
Qed.

Lemma unreached1 : ¬ reached cyc [Pointer 3%positive] 1%positive.
Proof.
  intros (r & Hr & _ & Hp). apply list_elem_of_singleton in Hr. injection Hr as ->.
  apply rtc_inv in Hp as [Hp|(y & [Hy _] & _)]; [done|]. vm_compute in Hy. set_solver.
Qed.

Lemma trace_collects_unreachable_witness :
  ∃ gb σ' n, collect_trace cyc 8 registry [Pointer 3%positive] black_cycle = Some (gb, σ', n) ∧
    1%positive ∈ Gc.fresh gb.
Proof.
  destruct (collect_trace cyc 8 registry [Pointer 3%positive] black_cycle) as [[[gb σ'] n]|] eqn:E;
    [|exfalso; vm_compute in E; discriminate].
  exists gb, σ', n. split; [reflexivity|].
  apply (trace_collects_unreachable cyc 8 registry [Pointer 3%positive] black_cycle gb σ' n
    (ok_closed _ _ black_cycle_ok) root3).
  - exact (tr_ready _ _ _ black_cycle_traceable).
  - exact registry_cyc.
  - exact E.
  - split; [do 2 right; left|exact unreached1].
Defined.

Lemma trace_safepoint_safe_witness :
  ∃ gb σ', collect_trace_safepoint cyc 8 registry [Pointer 3%positive] (λ _, false) black_cycle
      = Some (gb, σ') ∧ ¬ reached cyc [Pointer 3%positive] 2%positive.
Proof.
  destruct (collect_trace_safepoint cyc 8 registry [Pointer 3%positive] (λ _, false) black_cycle)
    as [[gb σ']|] eqn:E; [|exfalso; vm_compute in E; discriminate].
  exists gb, σ'. split; [reflexivity|].
  apply (trace_safepoint_safe cyc 8 registry [Pointer 3%positive] (λ _, false) black_cycle gb σ'
    black_cycle_traceable root3 registry_cyc E).
  vm_compute in E. injection E as <- _. left.
Defined.

(** With the root of [3] not enumerated the collection is abandoned. *)
Lemma missed_root_aborts_witness :
  ∃ gb σ', collect_trace_safepoint cyc 8 registry [] (λ _, false) black_cycle = Some (gb, σ') ∧
    Gc.fresh gb = [].
Proof.
  destruct (collect_trace_safepoint cyc 8 registry [] (λ _, false) black_cycle)
    as [[gb σ']|] eqn:E; [|exfalso; vm_compute in E; discriminate].
  exists gb, σ'. split; [reflexivity|].
  apply (missed_root_aborts cyc 8 registry [] (λ _, false) black_cycle gb σ' 3%positive
    black_cycle_traceable); [|exact registry_cyc|exact E|left| |by vm_compute].
  - intros r Hr. by apply not_elem_of_nil in Hr.
  - intros (r & Hr & _). by apply not_elem_of_nil in Hr.
Defined.

Lemma components_partition_witness :
  ∃ comps, weakly_connected_components cyc 8 registry = Some comps ∧ concat comps ≡ₚ registry.
Proof.
  destruct (components_partition cyc 8 registry) as (comps & E & Hp & _).
  - apply (bool_decide_unpack _). by vm_compute.
  - simpl. lia.
  - by exists comps.
Defined.

Lemma trace_terminates_witness :
  is_Some (collect_trace cyc 8 registry [Pointer 3%positive] black_cycle).
Proof.
  apply (trace_terminates cyc 8 registry [Pointer 3%positive] black_cycle);
    [exact (ok_closed _ _ black_cycle_ok)|exact root3|].
  apply (bool_decide_unpack _). vm_compute. exact I.
Defined.
End GcExample.
