(* ===== verification/Types.v ===== *)
(** The type lattice of [crates/noeta-types/src/lib.rs] with the surface names of
    [crates/noeta-ast/src/builtin_ty.rs]: the types, their derived equality, the
    subtype walk, union normalization, desugaring and display. *)
From S2P Require Import Prelude Span.
From Stdlib Require Import Ascii String.
From stdpp Require Import pretty.
From stdpp Require Import options.
Open Scope Z_scope.

(** * Type parameters: identity is the declaration site *)

(** [ParamId(Span)]. *)
Record ParamId := mkParamId { param_span : Span }.

#[export] Instance ParamId_eq_dec : EqDecision ParamId.
Proof. solve_decision. Defined.

(** [SYNTHETIC_SOURCE = SourceId(u32::MAX)]. *)
Definition SYNTHETIC_SOURCE : SourceId := mkSourceId (2 ^ 32 - 1).
Definition at_ (span : Span) : ParamId := mkParamId span.
Definition synthetic (index : Z) : ParamId := mkParamId (new_in SYNTHETIC_SOURCE index index).
Definition decl_span (p : ParamId) : option Span :=
  if bool_decide (source (param_span p) = SYNTHETIC_SOURCE) then None else Some (param_span p).

(** [ParamRef]: equality reads the id alone. *)
Record ParamRef := mkParamRef { param_id : ParamId; param_name : string }.
Definition param_eqb (p q : ParamRef) : bool := bool_decide (param_id p = param_id q).

Inductive TypeKind := KindEnum | KindStruct | KindClass.
#[export] Instance TypeKind_eq_dec : EqDecision TypeKind.
Proof. solve_decision. Defined.
Definition kind_name (k : TypeKind) : string :=
  match k with KindEnum => "Enum" | KindStruct => "Struct" | KindClass => "Class" end.

(** [trait NominalRules]: the questions about declarations the lattice cannot answer. *)
Record NominalRules := mkRules {
  is_of_kind : string → TypeKind → bool;
  implements_trait : string → string → bool;
  covariant_arg : string → nat → bool
}.
Definition NoRegistry : NominalRules :=
  mkRules (λ _ _, false) (λ _ _, false) (λ _ _, false).

(** * The lattice *)
Inductive Ty :=
| TUnknown | TDyn | TNever | TUnit | TInt | TFloat | TF32 | TF64
| TIntN (signed : bool) (bits : Z)
| TBool | TString | TBytes
| TList (t : Ty) | TMap (k v : Ty) | TSet (t : Ty) | TOption (t : Ty) | TResult (t e : Ty)
| TNamed (name : string) (args : list Ty)
| TParam (p : ParamRef)
| TFn (params : list Ty) (ret : Ty)
| TKind (k : TypeKind)
| TUnion (members : list Ty)
| TTuple (elements : list Ty)
| TDynTrait (trait_name : string).

(** The derived [PartialEq]: structural, with parameters compared by id. *)
Fixpoint type_eqb (a b : Ty) : bool :=
  match a, b with
  | TUnknown, TUnknown | TDyn, TDyn | TNever, TNever | TUnit, TUnit | TInt, TInt
  | TFloat, TFloat | TF32, TF32 | TF64, TF64 | TBool, TBool | TString, TString
  | TBytes, TBytes => true
  | TIntN s n, TIntN s' n' => Bool.eqb s s' && (n =? n')
  | TList t, TList t' | TSet t, TSet t' | TOption t, TOption t' => type_eqb t t'
  | TMap k v, TMap k' v' | TResult k v, TResult k' v' => type_eqb k k' && type_eqb v v'
  | TNamed n l, TNamed n' l' => bool_decide (n = n') && forallb2 type_eqb l l'
  | TParam p, TParam q => param_eqb p q
  | TFn ps r, TFn ps' r' => forallb2 type_eqb ps ps' && type_eqb r r'
  | TKind k, TKind k' => bool_decide (k = k')
  | TUnion l, TUnion l' | TTuple l, TTuple l' => forallb2 type_eqb l l'
  | TDynTrait n, TDynTrait n' => bool_decide (n = n')
  | _, _ => false
  end.

(** [slice::contains]. *)
Definition contains (t : Ty) (l : list Ty) : bool := any (type_eqb t) l.

Definition is_numeric (t : Ty) : bool := match t with TInt | TFloat => true | _ => false end.
Definition is_arith_numeric (t : Ty) : bool :=
  match t with TInt | TFloat | TF32 | TF64 | TIntN _ _ => true | _ => false end.
Definition numeric_rank (t : Ty) : option Z :=
  match t with TInt => Some 0 | TFloat => Some 1 | _ => None end.
Definition is_gradual (t : Ty) : bool := match t with TUnknown => true | _ => false end.
Definition is_abstract (t : Ty) : bool :=
  match t with TDyn | TDynTrait _ | TKind _ => true | _ => false end.
Definition defers_to_runtime (t : Ty) : bool :=
  match t with TUnknown | TDyn => true | _ => false end.
Definition is_dyn (t : Ty) : bool := match t with TDyn => true | _ => false end.
Definition is_never (t : Ty) : bool := match t with TNever => true | _ => false end.
Definition is_union (t : Ty) : bool := match t with TUnion _ => true | _ => false end.

Fixpoint contains_unknown (t : Ty) : bool :=
  match t with
  | TUnknown => true
  | TList t | TSet t | TOption t => contains_unknown t
  | TMap k v | TResult k v => contains_unknown k || contains_unknown v
  | TNamed _ args | TUnion args | TTuple args => any contains_unknown args
  | TFn params ret => any contains_unknown params || contains_unknown ret
  | _ => false
  end.

Fixpoint contains_abstract_arg (t : Ty) : bool :=
  let here := λ t, is_abstract t || contains_abstract_arg t in
  match t with
  | TList t | TSet t | TOption t => here t
  | TMap k v | TResult k v => here k || here v
  | TNamed _ args | TUnion args | TTuple args => any here args
  | TFn params ret => any here params || here ret
  | _ => false
  end.

(** * [Type::union] *)
Definition push_new (flat : list Ty) (t : Ty) : list Ty :=
  if contains t flat then flat else flat ++ [t].

(** One member of a flattened inner union; [None] is the early [return Type::Dyn]. *)
Definition union_inner (st : option (list Ty * bool)) (t : Ty) : option (list Ty * bool) :=
  match st with
  | None => None
  | Some (flat, saw_never) =>
      match t with
      | TDyn => None
      | TNever => Some (flat, true)
      | _ => Some (push_new flat t, saw_never)
      end
  end.
Definition union_step (st : option (list Ty * bool)) (m : Ty) : option (list Ty * bool) :=
  match st with
  | None => None
  | Some (flat, saw_never) =>
      match m with
      | TDyn => None
      | TNever => Some (flat, true)
      | TUnion inner => foldl union_inner st inner
      | _ => Some (push_new flat m, saw_never)
      end
  end.
Definition union (members : list Ty) : Ty :=
  match foldl union_step (Some ([], false)) members with
  | None => TDyn
  | Some ([], true) => TNever
  | Some ([], false) => TUnknown
  | Some ([t], _) => t
  | Some (flat, _) => TUnion flat
  end.

Definition arith_numeric : Ty :=
  union ([TInt; TFloat; TF32; TF64] ++
         concat (map (λ bits, [TIntN true bits; TIntN false bits]) [8; 16; 32; 64])).
Definition is_arith_numeric_union (t : Ty) : bool :=
  match t, arith_numeric with
  | TUnion members, TUnion all_ =>
      (length members =? length all_)%nat && all (λ t, contains t members) all_
  | _, _ => false
  end.

(** * The runtime comparator's arms *)
Inductive ComparatorArm := Numeric | SameType | Structural.
Definition comparator_arm (t : Ty) : option ComparatorArm :=
  if is_arith_numeric t then Some Numeric
  else match t with
  | TOption _ | TResult _ _ => Some Structural
  | TString | TBool | TNamed _ _ => Some SameType
  | _ => None
  end.
Fixpoint comparator_answers (a b : Ty) : bool :=
  match a, b with
  | TOption x, TOption y => comparator_answers x y
  | TResult a_ok a_err, TResult b_ok b_err =>
      comparator_answers a_ok b_ok && comparator_answers a_err b_err
  | _, _ =>
      match comparator_arm a, comparator_arm b with
      | Some Numeric, Some Numeric => true
      | Some SameType, Some SameType | Some Structural, Some Structural => type_eqb a b
      | _, _ => false
      end
  end.

(** * Subtyping *)

(** One level of [subtype_at], over the recursive call. *)
Definition subtype_step (rec : Ty → Ty → bool → bool) (rules : NominalRules)
    (sub sup : Ty) (widening_ok : bool) : bool :=
  if is_gradual sub || is_gradual sup then true
  else if is_dyn sup && (widening_ok || is_dyn sub) then true
  else if is_never sub then true
  else match sup with
  | TDynTrait tr =>
      match sub with
      | TDynTrait a => bool_decide (a = tr)
      | TNamed n _ => if widening_ok then implements_trait rules n tr else defers_to_runtime sub
      | other => defers_to_runtime other
      end
  | _ =>
      let rec' := λ a b, rec a b widening_ok in
      match sub, sup with
      | TDyn, _ => false
      | TUnion a, TUnion b =>
          all (λ x, any (λ y, rec' x y) b) a
          && (widening_ok || all (λ y, any (λ x, rec' x y) a) b)
      | TUnion members, _ => all (λ m, rec' m sup) members
      | _, TUnion members => widening_ok && any (λ m, rec' sub m) members
      | TList a, TList b => rec' a b
      | TSet a, TSet b => rec' a b
      | TTuple a, TTuple b => forallb2 rec' a b
      | TMap ak av, TMap bk bv => rec' ak bk && rec' av bv
      | TOption a, TOption b => rec' a b
      | TResult at_ ae, TResult bt be => rec' at_ bt && rec' ae be
      | TFn ap ar, TFn bp br => forallb2 (λ a b, rec' b a) ap bp && rec' ar br
      | TNamed an aa, TNamed bn ba =>
          bool_decide (an = bn)
          && ((length aa =? 0)%nat || (length ba =? 0)%nat
              || forallb2i (λ i a b, is_dyn a
                              || rec a b (widening_ok && covariant_arg rules an i)) 0 aa ba)
      | TNamed n _, TKind k => widening_ok && is_of_kind rules n k
      | TParam a, TParam b => bool_decide (param_id a = param_id b)
      | TParam _, _ | _, TParam _ => false
      | TKind a, TKind b => bool_decide (a = b)
      | _, _ => type_eqb sub sup
      end
  end.

Fixpoint subtype_fuel (rules : NominalRules) (fuel : nat) (sub sup : Ty) (widening_ok : bool) :
    bool :=
  match fuel with
  | O => false
  | S fuel => subtype_step (subtype_fuel rules fuel) rules sub sup widening_ok
  end.

Fixpoint type_size (t : Ty) : nat :=
  S (match t with
     | TList t | TSet t | TOption t => type_size t
     | TMap k v | TResult k v => type_size k + type_size v
     | TNamed _ l | TUnion l | TTuple l => list_sum (map type_size l)
     | TFn ps r => list_sum (map type_size ps) + type_size r
     | _ => 0
     end)%nat.

(** The walk descends in both types at once (a function's parameters swapped), so
    the sum of the two sizes is enough fuel: [TypesFacts.subtype_unfold]. *)
Definition subtype_at (sub sup : Ty) (rules : NominalRules) (widening_ok : bool) : bool :=
  subtype_fuel rules (type_size sub + type_size sup) sub sup widening_ok.
Definition subtype_with (sub sup : Ty) (rules : NominalRules) : bool :=
  subtype_at sub sup rules true.
Definition subtype (sub sup : Ty) : bool := subtype_with sub sup NoRegistry.
Definition widens_only (sub sup : Ty) (rules : NominalRules) : bool :=
  subtype_at sub sup rules true && negb (subtype_at sub sup rules false).

(** * The built-in type names *)
Inductive BuiltinTy :=
| BInt | BFloat | BF32 | BF64 | BIntN (signed : bool) (bits : Z) | BBool | BStr | BBytes
| BUnit | BDyn | BNever | BList | BSet | BMap | BOption | BResult
| BKindEnum | BKindStruct | BKindClass | BNumber.
Inductive Spelling := Canonical | Bare.

#[export] Instance BuiltinTy_eq_dec : EqDecision BuiltinTy.
Proof. solve_decision. Defined.
#[export] Instance Spelling_eq_dec : EqDecision Spelling.
Proof. solve_decision. Defined.

(** [parse_int_width]: the prefix, then exactly one of the four widths. *)
Definition width_of (signed : bool) (rest : string) : option (bool * Z) :=
  if (rest =? "8")%string then Some (signed, 8)
  else if (rest =? "16")%string then Some (signed, 16)
  else if (rest =? "32")%string then Some (signed, 32)
  else if (rest =? "64")%string then Some (signed, 64)
  else None.
Definition parse_int_width (name : string) : option (bool * Z) :=
  match name with
  | String "i"%char rest => width_of true rest
  | String "u"%char rest => width_of false rest
  | _ => None
  end.

(** The literal arms of [BuiltinTy::from_name]'s match, in their order. *)
Definition builtin_names : list (string * (BuiltinTy * Spelling)) :=
  [("int", (BInt, Canonical)); ("float", (BFloat, Canonical)); ("f32", (BF32, Canonical));
   ("f64", (BF64, Canonical)); ("bool", (BBool, Canonical)); ("string", (BStr, Canonical));
   ("bytes", (BBytes, Canonical)); ("number", (BNumber, Canonical));
   ("void", (BUnit, Canonical)); ("unit", (BUnit, Canonical));
   ("dyn", (BDyn, Canonical)); ("Any", (BDyn, Canonical)); ("never", (BNever, Canonical));
   ("List", (BList, Canonical)); ("Set", (BSet, Canonical)); ("Map", (BMap, Canonical));
   ("list", (BList, Bare)); ("set", (BSet, Bare)); ("map", (BMap, Bare));
   ("Option", (BOption, Canonical)); ("Result", (BResult, Canonical));
   ("Enum", (BKindEnum, Canonical)); ("Struct", (BKindStruct, Canonical));
   ("Class", (BKindClass, Canonical))]%string.
Fixpoint assoc {A} (name : string) (l : list (string * A)) : option A :=
  match l with
  | [] => None
  | (k, v) :: l => if (name =? k)%string then Some v else assoc name l
  end.
Definition from_name (name : string) : option (BuiltinTy * Spelling) :=
  match assoc name builtin_names with
  | Some found => Some found
  | None =>
      match parse_int_width name with
      | Some (signed, bits) => Some (BIntN signed bits, Canonical)
      | None => None
      end
  end.
Definition from_name_any (name : string) : option BuiltinTy := fst <$> from_name name.
Definition is_builtin_name (name : string) : bool := bool_decide (is_Some (from_name name)).

Definition arity (b : BuiltinTy) : nat :=
  match b with
  | BList | BSet | BOption => 1
  | BMap | BResult => 2
  | _ => 0
  end.
Definition spellings (b : BuiltinTy) : list string :=
  match b with
  | BInt => ["int"] | BFloat => ["float"] | BF32 => ["f32"] | BF64 => ["f64"]
  | BIntN _ _ => [] | BBool => ["bool"] | BStr => ["string"] | BBytes => ["bytes"]
  | BNumber => ["number"] | BUnit => ["void"; "unit"] | BDyn => ["dyn"; "Any"]
  | BNever => ["never"] | BList => ["List"; "list"] | BSet => ["Set"; "set"]
  | BMap => ["Map"; "map"] | BOption => ["Option"] | BResult => ["Result"]
  | BKindEnum => ["Enum"] | BKindStruct => ["Struct"] | BKindClass => ["Class"]
  end%string.
Definition int_width_name (signed : bool) (bits : Z) : string :=
  String (if signed then "i" else "u")%char (pretty bits).
Definition builtins_all : list BuiltinTy :=
  [BInt; BFloat; BF32; BF64; BBool; BStr; BBytes; BUnit; BDyn; BNever; BList; BSet; BMap;
   BOption; BResult; BKindEnum; BKindStruct; BKindClass; BNumber]
  ++ concat (map (λ signed, map (BIntN signed) [8; 16; 32; 64]) [true; false]).

(** * Desugaring the surface [TypeRef] *)
Inductive TypeRef :=
| RNamed (name : string) (args : list TypeRef) (span : Span)
| RDynTrait (trait_name : string) (span : Span)
| ROptional (inner : TypeRef) (span : Span)
| RUnion (members : list TypeRef) (span : Span)
| RTuple (elements : list TypeRef) (span : Span)
| RFn (params : list TypeRef) (ret : TypeRef) (span : Span)
| RAssocProjection (name : string) (span : Span).

(** The [match builtin] of [Type::from_ref], over the desugared arguments. *)
Definition builtin_type (builtin : BuiltinTy) (spelling : Spelling) (args : list Ty) : Ty :=
  let arg i := match spelling with
               | Bare => TUnknown
               | Canonical => from_option id TUnknown (args !! i)
               end in
  match builtin with
  | BInt => TInt | BFloat => TFloat | BF32 => TF32 | BF64 => TF64
  | BIntN signed bits => TIntN signed bits
  | BBool => TBool | BStr => TString | BBytes => TBytes | BUnit => TUnit
  | BDyn => TDyn | BNever => TNever
  | BList => TList (arg 0%nat) | BSet => TSet (arg 0%nat)
  | BMap => TMap (arg 0%nat) (arg 1%nat)
  | BOption => TOption (arg 0%nat)
  | BResult => TResult (arg 0%nat) (arg 1%nat)
  | BKindEnum => TKind KindEnum | BKindStruct => TKind KindStruct | BKindClass => TKind KindClass
  | BNumber => arith_numeric
  end.
Fixpoint from_ref (ty : TypeRef) : Ty :=
  match ty with
  | RUnion members _ => union (map from_ref members)
  | RTuple elements _ => TTuple (map from_ref elements)
  | RFn params ret _ => TFn (map from_ref params) (from_ref ret)
  | ROptional inner _ => TOption (from_ref inner)
  | RDynTrait trait_name _ => TDynTrait trait_name
  | RAssocProjection _ _ => TUnknown
  | RNamed name args _ =>
      match from_name name with
      | None => TNamed name (map from_ref args)
      | Some (builtin, spelling) => builtin_type builtin spelling (map from_ref args)
      end
  end.

(** * Display *)

(** [name.rsplit_once('.')]: the segment after the last dot. *)
Fixpoint after_last_dot (s : string) : option string :=
  match s with
  | EmptyString => None
  | String c s =>
      match after_last_dot s with
      | Some r => Some r
      | None => if (c =? ".")%char then Some s else None
      end
  end.
Definition short_type_name (name : string) : string := from_option id name (after_last_dot name).
Definition identity (name : string) (qualified : bool) : string :=
  if qualified then name else short_type_name name.

Fixpoint join (sep : string) (l : list string) : string :=
  match l with
  | [] => ""
  | [x] => x
  | x :: l => x +:+ sep +:+ join sep l
  end.

Fixpoint display (qualified : bool) (t : Ty) : string :=
  match t with
  | TUnknown => "?" | TDyn => "dyn" | TNever => "never" | TUnit => "void" | TInt => "int"
  | TFloat => "float" | TF32 => "f32" | TF64 => "f64"
  | TIntN signed bits => String (if signed then "i" else "u")%char (pretty bits)
  | TBool => "bool" | TString => "string" | TBytes => "bytes"
  | TList t => "List<" +:+ display qualified t +:+ ">"
  | TSet t => "Set<" +:+ display qualified t +:+ ">"
  | TMap k v => "Map<" +:+ display qualified k +:+ ", " +:+ display qualified v +:+ ">"
  | TOption t => "Option<" +:+ display qualified t +:+ ">"
  | TResult t e => "Result<" +:+ display qualified t +:+ ", " +:+ display qualified e +:+ ">"
  | TKind k => kind_name k
  | TDynTrait tr => "dyn " +:+ identity tr qualified
  | TParam p => param_name p
  | TNamed n [] => identity n qualified
  | TNamed n args =>
      identity n qualified +:+ "<" +:+ join ", " (map (display qualified) args) +:+ ">"
  | TFn params ret =>
      "fn(" +:+ join ", " (map (display qualified) params) +:+ ") -> " +:+ display qualified ret
  | TUnion members =>
      if is_arith_numeric_union t then "number"
      else join " | " (map (display qualified) members)
  | TTuple elements => "(" +:+ join ", " (map (display qualified) elements) +:+ ")"
  end%string.

Definition mismatch_pair (expected found : Ty) : string * string :=
  let left := display false expected in
  let right := display false found in
  if (left =? right)%string && negb (type_eqb expected found)
  then (display true expected, display true found)
  else (left, right).

(** [Type::head_name]: the key of the name-keyed registries. *)
Definition head_name (t : Ty) : string :=
  match t with
  | TNamed name _ => name
  | TParam p => param_name p
  | TDynTrait name => name
  | TList _ => "List" | TSet _ => "Set" | TMap _ _ => "Map" | TOption _ => "Option"
  | TResult _ _ => "Result"
  | TUnknown | TFn _ _ | TUnion _ | TTuple _ => ""
  | _ => display false t
  end%string.
