(* ===== verification/TypesFacts.v ===== *)
(** The subtype walk: fuel independence, the declarative subtyping rules it
    decides, and the derived equality as an equivalence. *)
From S2P Require Import Prelude Span Types.
From stdpp Require Import options.

(** * The declarative rules *)

(** Types related only by identity. *)
Definition scalar (t : Ty) : bool :=
  match t with
  | TUnit | TInt | TFloat | TF32 | TF64 | TIntN _ _ | TBool | TString | TBytes | TKind _ => true
  | _ => false
  end.
Definition is_trait_object (t : Ty) : bool := match t with TDynTrait _ => true | _ => false end.

(** [Sub rules w sub sup]: [sub] may be read as [sup]; [w] says whether this
    position admits a widening. *)
Inductive Sub (rules : NominalRules) : bool → Ty → Ty → Prop :=
| S_hole_sub w t : Sub rules w TUnknown t
| S_hole_sup w t : Sub rules w t TUnknown
| S_top t : Sub rules true t TDyn
| S_dyn w : Sub rules w TDyn TDyn
| S_never w t : Sub rules w TNever t
| S_trait w tr : Sub rules w (TDynTrait tr) (TDynTrait tr)
| S_implements n args tr :
    implements_trait rules n tr = true → Sub rules true (TNamed n args) (TDynTrait tr)
| S_open_trait w tr : Sub rules w TDyn (TDynTrait tr)
| S_union_union w a b (f g : Ty → Ty) :
    (∀ x, x ∈ a → f x ∈ b) → (∀ x, x ∈ a → Sub rules w x (f x)) →
    (∀ y, w = false → y ∈ b → g y ∈ a) → (∀ y, w = false → y ∈ b → Sub rules w (g y) y) →
    Sub rules w (TUnion a) (TUnion b)
| S_union_sub w a t :
    is_union t = false → is_trait_object t = false →
    (∀ x, x ∈ a → Sub rules w x t) → Sub rules w (TUnion a) t
| S_member t b y :
    is_union t = false → is_dyn t = false → y ∈ b → Sub rules true t y →
    Sub rules true t (TUnion b)
| S_list w a b : Sub rules w a b → Sub rules w (TList a) (TList b)
| S_set w a b : Sub rules w a b → Sub rules w (TSet a) (TSet b)
| S_option w a b : Sub rules w a b → Sub rules w (TOption a) (TOption b)
| S_map w k v k' v' :
    Sub rules w k k' → Sub rules w v v' → Sub rules w (TMap k v) (TMap k' v')
| S_result w t e t' e' :
    Sub rules w t t' → Sub rules w e e' → Sub rules w (TResult t e) (TResult t' e')
| S_tuple w a b :
    length a = length b →
    (∀ i x y, a !! i = Some x → b !! i = Some y → Sub rules w x y) →
    Sub rules w (TTuple a) (TTuple b)
| S_fn w ps r ps' r' :
    length ps = length ps' →
    (∀ i x y, ps !! i = Some x → ps' !! i = Some y → Sub rules w y x) →
    Sub rules w r r' → Sub rules w (TFn ps r) (TFn ps' r')
| S_unspecified w n a b : a = [] ∨ b = [] → Sub rules w (TNamed n a) (TNamed n b)
| S_named w n a b :
    length a = length b →
    (∀ i x y, a !! i = Some x → b !! i = Some y → is_dyn x = false →
       Sub rules (w && covariant_arg rules n i) x y) →
    Sub rules w (TNamed n a) (TNamed n b)
| S_of_kind n a k : is_of_kind rules n k = true → Sub rules true (TNamed n a) (TKind k)
| S_param w p q : param_id p = param_id q → Sub rules w (TParam p) (TParam q)
| S_scalar w t : scalar t = true → Sub rules w t t.

Create HintDb sub discriminated.
#[export] Hint Constructors Sub : sub.

(** * Equality *)

Lemma forallb2_refl (f : Ty → Ty → bool) l : list_all Ty (λ t, f t t = true) l → forallb2 f l l = true.
Proof. induction 1; simpl; [done|]. by apply andb_true_iff. Qed.

Lemma type_eqb_refl t : type_eqb t t = true.
Proof.
  induction t; simpl; rewrite ?forallb2_refl, ?Bool.eqb_reflx, ?Z.eqb_refl, ?andb_true_iff by done;
    unfold param_eqb; rewrite ?bool_decide_eq_true; auto.
Qed.

Lemma forallb2_sym (f : Ty → Ty → bool) l k :
  list_all Ty (λ t, ∀ t', f t t' = f t' t) l → forallb2 f l k = forallb2 f k l.
Proof. intros H. revert k. induction H; intros [|]; simpl; [done..|]. by f_equal. Qed.

Lemma bool_decide_sym {A} `{EqDecision A} (x y : A) : bool_decide (x = y) = bool_decide (y = x).
Proof. by apply bool_decide_ext. Qed.

Lemma type_eqb_sym a b : type_eqb a b = type_eqb b a.
Proof.
  revert b. induction a; intros []; simpl; try done;
    unfold param_eqb; rewrite ?(Z.eqb_sym bits), 1?bool_decide_sym; try done;
    try (by rewrite forallb2_sym); try (by f_equal); try (by auto).
  - f_equal. by destruct signed, signed0.
  - f_equal; [|by auto]. by apply forallb2_sym.
Qed.

Lemma forallb2_trans (f : Ty → Ty → bool) l k m :
  list_all Ty (λ t, ∀ t' t'', f t t' = true → f t' t'' = true → f t t'' = true) l →
  forallb2 f l k = true → forallb2 f k m = true → forallb2 f l m = true.
Proof.
  intros H. revert k m. induction H; intros [|] [|]; simpl; try done.
  rewrite !andb_true_iff. naive_solver.
Qed.

Lemma type_eqb_trans a b c : type_eqb a b = true → type_eqb b c = true → type_eqb a c = true.
Proof.
  revert b c. induction a; intros b c; destruct b; simpl; try (intros; discriminate);
    destruct c; simpl; try (intros; discriminate); unfold param_eqb; try done;
    rewrite ?andb_true_iff, ?bool_decide_eq_true, ?Z.eqb_eq, ?Bool.eqb_true_iff;
    try (by intros -> ->); try (by intros [-> ->] [-> ->]); try exact (IHa _ _);
    try (intros ??; by eapply forallb2_trans).
  all: intros [? ?] [? ?]; split; [congruence || (by eapply forallb2_trans) || by eauto|].
  all: first [by eapply forallb2_trans | by eauto].
Qed.

(** Types up to the spelling of parameters. *)
#[export] Instance Ty_equiv : Equiv Ty := λ a b, type_eqb a b = true.
#[export] Instance Ty_equivalence : Equivalence (≡@{Ty}).
Proof.
  split.
  - intros t. apply type_eqb_refl.
  - intros a b H. unfold equiv, Ty_equiv. by rewrite type_eqb_sym.
  - intros a b c. apply type_eqb_trans.
Qed.

(** * The fuel is enough *)

Lemma size_elem t l : t ∈ l → (type_size t ≤ list_sum (map type_size l))%nat.
Proof. induction 1; simpl; lia. Qed.

Lemma size_lookup l i t : l !! i = Some t → (type_size t ≤ list_sum (map type_size l))%nat.
Proof. intros H%list_elem_of_lookup_2. by apply size_elem. Qed.

Lemma all_ext {A} (f g : A → bool) l : (∀ x, x ∈ l → f x = g x) → all f l = all g l.
Proof.
  intros H. unfold all. induction l as [|x l IH]; simpl; [done|].
  rewrite H by left. f_equal. apply IH. intros y Hy. apply H. by right.
Qed.

Lemma any_ext {A} (f g : A → bool) l : (∀ x, x ∈ l → f x = g x) → any f l = any g l.
Proof.
  intros H. unfold any. induction l as [|x l IH]; simpl; [done|].
  rewrite H by left. f_equal. apply IH. intros y Hy. apply H. by right.
Qed.

Lemma forallb2_ext {A B} (f g : A → B → bool) l k :
  (∀ x y, x ∈ l → y ∈ k → f x y = g x y) → forallb2 f l k = forallb2 g l k.
Proof.
  revert k. induction l as [|x l IH]; intros [|y k] H; simpl; try done.
  rewrite H by left. f_equal. apply IH. intros ????. apply H; by right.
Qed.

Lemma forallb2i_ext {A B} (f g : nat → A → B → bool) i l k :
  (∀ j x y, x ∈ l → y ∈ k → f j x y = g j x y) → forallb2i f i l k = forallb2i g i l k.
Proof.
  revert i k. induction l as [|x l IH]; intros i [|y k] H; simpl; try done.
  rewrite H by left. f_equal. apply IH. intros ?????. apply H; by right.
Qed.

Ltac sizes :=
  repeat match goal with
  | H : _ ∈ _ |- _ => apply size_elem in H
  | H : _ !! _ = Some _ |- _ => apply size_lookup in H
  end; simpl in *; lia.

Lemma subtype_step_ext rec rec' rules sub sup w :
  (∀ a b w, (type_size a + type_size b < type_size sub + type_size sup)%nat →
     rec a b w = rec' a b w) →
  subtype_step rec rules sub sup w = subtype_step rec' rules sub sup w.
Proof.
  intros H.
  destruct sub, sup; try exact eq_refl; unfold subtype_step; simpl; repeat case_match;
    repeat first
      [ exact eq_refl
      | apply all_ext; intros ?? | apply any_ext; intros ??
      | apply forallb2_ext; intros ???? | apply forallb2i_ext; intros ?????
      | apply H; sizes | apply (f_equal2 andb) | apply (f_equal2 orb)].
Qed.

Lemma subtype_fuel_enough rules n m sub sup w :
  (type_size sub + type_size sup ≤ n)%nat → (type_size sub + type_size sup ≤ m)%nat →
  subtype_fuel rules n sub sup w = subtype_fuel rules m sub sup w.
Proof.
  revert m sub sup w. induction n as [|n IH]; intros [|m] sub sup w Hn Hm; simpl;
    try (destruct sub; simpl in *; lia).
  apply subtype_step_ext. intros a b w' ?. apply IH; lia.
Qed.

(** The defining equation of [subtype_at], as the source writes it. *)
Lemma subtype_unfold rules sub sup w :
  subtype_at sub sup rules w = subtype_step (λ a b w, subtype_at a b rules w) rules sub sup w.
Proof.
  unfold subtype_at at 1. destruct (type_size sub + type_size sup)%nat as [|n] eqn:E.
  - destruct sub; simpl in E; lia.
  - simpl. apply subtype_step_ext. intros a b w' ?. apply subtype_fuel_enough; lia.
Qed.

(** * The walk decides the rules *)

Lemma choose_member (f : Ty → Ty → bool) a b :
  all (λ x, any (f x) b) a = true → ∃ g, ∀ x, x ∈ a → g x ∈ b ∧ f x (g x) = true.
Proof.
  intros H. exists (λ x, default TUnknown (head (List.filter (f x) b))). intros x Hx.
  rewrite all_forall in H. specialize (H x Hx). apply any_exists in H as (y & Hy & Hf).
  destruct (List.filter (f x) b) as [|z l] eqn:E.
  - assert (In y (List.filter (f x) b)) as Hin by (by apply filter_In; rewrite <-list_elem_of_In).
    by rewrite E in Hin.
  - assert (In z (List.filter (f x) b)) as Hin by (rewrite E; by left).
    apply filter_In in Hin as [??]. simpl. by rewrite list_elem_of_In.
Qed.

Lemma forallb2_lookup {A B} (f : A → B → bool) l k :
  forallb2 f l k = true ↔
  length l = length k ∧ ∀ i x y, l !! i = Some x → k !! i = Some y → f x y = true.
Proof. rewrite forallb2_Forall2, Forall2_same_length_lookup. naive_solver. Qed.

Section Decides.
  Context (rules : NominalRules).
  #[local] Notation "a <:[ w ] b" := (subtype_at a b rules w = true) (at level 70).

Lemma sub_complete w a b : Sub rules w a b → a <:[w] b.
Proof.
  induction 1; rewrite subtype_unfold; unfold subtype_step; simpl;
    rewrite ?orb_true_r, ?bool_decide_eq_true_2, ?andb_true_r by done; simpl; auto;
    try (apply andb_true_iff; split; by auto).
  - by destruct t.
  - destruct (is_gradual t); [done|]. by case_match.
  - apply andb_true_iff. split.
    + apply all_forall. intros x Hx. apply any_exists. eauto.
    + destruct w; [done|]. apply all_forall. intros y Hy. apply any_exists. eauto.
  - assert (all (λ m, subtype_at m t rules w) a = true) by (apply all_forall; eauto).
    destruct t; try discriminate; simpl; try done; by case_match.
  - assert (any (λ m, subtype_at t m rules true) b = true) by (apply any_exists; eauto).
    by destruct t.
  - apply forallb2_lookup. eauto.
  - apply andb_true_iff. split; [|done]. apply forallb2_lookup. eauto.
  - destruct H as [-> | ->]; simpl; [done|]. by rewrite orb_true_r.
  - apply orb_true_iff. right. apply forallb2i_lookup. split; [done|]. intros i x y ? ?.
    destruct (is_dyn x) eqn:E; [done|]. simpl. eauto.
  - destruct t; try discriminate; simpl;
      rewrite ?Z.eqb_refl, ?Bool.eqb_reflx, ?bool_decide_eq_true_2 by done; done.
Qed.

Lemma sub_sound w a b : a <:[w] b → Sub rules w a b.
Proof.
  remember (type_size a + type_size b)%nat as n eqn:Hn.
  revert a b w Hn. induction n as [n IH] using lt_wf_ind. intros a b w -> H.
  assert (∀ x y w', (type_size x + type_size y < type_size a + type_size b)%nat →
    x <:[w'] y → Sub rules w' x y) as rec by (intros; eapply IH; eauto).
  clear IH. rewrite subtype_unfold in H.
  destruct a, b; unfold subtype_step in H; simpl in H;
    first [ discriminate H | exact (S_hole_sub _ _ _) | exact (S_hole_sup _ _ _)
          | exact (S_never _ _ _) | exact (S_dyn _ _) | exact (S_open_trait _ _ _)
          | apply S_scalar; reflexivity | idtac ].
  all: lazymatch goal with
    | |- Sub _ _ (TUnion _) (TUnion _) => idtac
    | |- Sub _ ?w (TUnion _) TDyn =>
        destruct w; simpl in H; [apply S_top|];
        apply S_union_sub; [done..|]; intros x Hx; rewrite all_forall in H;
        apply rec; [sizes|by apply H]
    | |- Sub _ ?w (TUnion _) _ =>
        apply S_union_sub; [done..|]; intros x Hx; rewrite all_forall in H;
        apply rec; [sizes|by apply H]
    | |- Sub _ ?w _ TDyn => destruct w; [apply S_top|discriminate]
    | |- Sub _ ?w _ (TUnion _) =>
        apply andb_true_iff in H as [-> (y & Hy & H)%any_exists];
        apply (S_member _ _ _ y); [done..|]; apply rec; [sizes|done]
    | _ => idtac
    end.
  all: try (constructor; apply rec; [sizes|done]).
  all: try (apply andb_true_iff in H as [? ?]; constructor; (apply rec; [sizes|done])).
  - apply andb_true_iff in H as [->%Bool.eqb_true_iff ->%Z.eqb_eq]. by constructor.
  - apply andb_true_iff in H as [->%bool_decide_eq_true H].
    apply orb_true_iff in H as [H|H].
    + apply S_unspecified. destruct args, args0; simpl in H; try done; by auto.
    + apply forallb2i_lookup in H as [Hl H]. apply S_named; [done|]. intros i x y Hx Hy Hd.
      specialize (H i x y Hx Hy). rewrite Hd in H. apply rec; [sizes|done].
  - apply andb_true_iff in H as [-> ?]. by constructor.
  - destruct w; [|done]. by constructor.
  - apply bool_decide_eq_true in H. by constructor.
  - apply andb_true_iff in H as [[Hl H]%forallb2_lookup ?]. apply S_fn; [done|..].
    + intros i x y Hx Hy. apply rec; [sizes|]. by apply (H i).
    + apply rec; [sizes|done].
  - apply bool_decide_eq_true in H as ->. by constructor.
  - apply andb_true_iff in H as [(f & Hf)%choose_member H].
    assert (∃ g, ∀ y, w = false → y ∈ members0 →
      g y ∈ members ∧ subtype_at (g y) y rules w = true) as [g Hg].
    { destruct w; [by exists id|].
      apply (choose_member (λ y x, subtype_at x y rules false)) in H as [g Hg]. by exists g; eauto. }
    apply (S_union_union _ _ _ _ f g).
    + intros x Hx. by apply Hf.
    + intros x Hx. destruct (Hf x Hx). apply rec; [sizes|done].
    + intros y Hw Hy. by apply Hg.
    + intros y Hw Hy. destruct (Hg y Hw Hy). apply rec; [sizes|done].
  - apply forallb2_lookup in H as [Hl H]. apply S_tuple; [done|].
    intros i x y Hx Hy. apply rec; [sizes|]. by apply (H i).
  - apply bool_decide_eq_true in H as ->. by constructor.
Qed.
End Decides.

(** * Properties of the rules *)

Lemma sub_refl rules w t : Sub rules w t t.
Proof.
  revert w. induction t as [| | | | | | | | | | | |t IH|k IHk v IHv|t IH|t IH|t IHt e IHe
    |n args IH|p|ps IHps r IHr|k|ms IH|es IH|tr];
    intros w;
    try (by constructor); try (by auto with sub);
    try (apply list_all_Forall in IH || apply list_all_Forall in IHps);
    try (rewrite Forall_forall in IH || rewrite Forall_forall in IHps).
  - apply S_named; [done|]. intros i x y Hx Hy _. simplify_eq.
    apply IH. by eapply list_elem_of_lookup_2.
  - apply S_fn; [done| |by auto]. intros i x y Hx Hy. simplify_eq.
    apply IHps. by eapply list_elem_of_lookup_2.
  - by apply (S_union_union _ _ _ _ id id); auto.
  - apply S_tuple; [done|]. intros i x y Hx Hy. simplify_eq.
    apply IH. by eapply list_elem_of_lookup_2.
Qed.

(** The order on registries and positions: more answers, more widenings. *)
Definition rules_le (r r' : NominalRules) : Prop :=
  (∀ n k, is_of_kind r n k = true → is_of_kind r' n k = true) ∧
  (∀ n t, implements_trait r n t = true → implements_trait r' n t = true) ∧
  (∀ n i, covariant_arg r n i = true → covariant_arg r' n i = true).

Lemma sub_mono r r' w w' a b :
  rules_le r r' → (w = true → w' = true) → Sub r w a b → Sub r' w' a b.
Proof.
  intros (Hk & Ht & Hc) Hw H. revert w' Hw.
  induction H; intros w' Hw; try (rewrite (Hw eq_refl)); eauto with sub.
  - assert (w' = false → w = false) as Hw'.
    { intros ->. destruct w; [by specialize (Hw eq_refl)|done]. }
    apply (S_union_union _ _ _ _ f g); eauto.
  - apply S_named; [done|]. intros i x y Hx Hy Hd. eapply H1; eauto.
    intros [??]%andb_true_iff. apply andb_true_iff; auto.
Qed.

(** The shape of a type equal to a given one. *)
Lemma forallb2_members (f : Ty → Ty → bool) l k :
  forallb2 f l k = true → ∃ g h, (∀ x, x ∈ l → g x ∈ k ∧ f x (g x) = true) ∧
                                 (∀ y, y ∈ k → h y ∈ l ∧ f (h y) y = true).
Proof.
  intros [Hl Hf]%forallb2_lookup.
  destruct (choose_member f l k) as [g Hg].
  { apply all_forall. intros x [i Hi]%list_elem_of_lookup. apply any_exists.
    destruct (lookup_lt_is_Some_2 k i) as [y Hy]; [rewrite <-Hl; by eapply lookup_lt_Some|].
    exists y. split; [by eapply list_elem_of_lookup_2|by eapply Hf]. }
  destruct (choose_member (λ y x, f x y) k l) as [h Hh].
  { apply all_forall. intros y [i Hi]%list_elem_of_lookup. apply any_exists.
    destruct (lookup_lt_is_Some_2 l i) as [x Hx]; [rewrite Hl; by eapply lookup_lt_Some|].
    exists x. split; [by eapply list_elem_of_lookup_2|by eapply Hf]. }
  eauto.
Qed.

Lemma is_dyn_equiv a a' : type_eqb a a' = true → is_dyn a = is_dyn a'.
Proof. by destruct a, a'. Qed.
Lemma is_union_equiv a a' : type_eqb a a' = true → is_union a = is_union a'.
Proof. by destruct a, a'. Qed.
Lemma is_trait_object_equiv a a' :
  type_eqb a a' = true → is_trait_object a = is_trait_object a'.
Proof. by destruct a, a'. Qed.

(** The pointwise case of tuples, parameters and arguments: a relation on the
    elements carries over to element-wise equal lists. *)
Lemma lookup_transport (R : nat → Ty → Ty → Prop) a b a' b' :
  (∀ i x y x' y', a !! i = Some x → b !! i = Some y → type_eqb x x' = true →
     type_eqb y y' = true → R i x' y') →
  forallb2 type_eqb a a' = true → forallb2 type_eqb b b' = true → length a = length b →
  length a' = length b' ∧
  (∀ i x' y', a' !! i = Some x' → b' !! i = Some y' → R i x' y').
Proof.
  intros H [La Ha]%forallb2_lookup [Lb Hb]%forallb2_lookup L. split; [congruence|].
  intros i x' y' Hx' Hy'.
  destruct (lookup_lt_is_Some_2 a i) as [x Hx]; [rewrite La; by eapply lookup_lt_Some|].
  destruct (lookup_lt_is_Some_2 b i) as [y Hy]; [rewrite Lb; by eapply lookup_lt_Some|].
  eauto.
Qed.

Lemma scalar_equiv t a b :
  scalar t = true → type_eqb t a = true → type_eqb t b = true → a = b ∧ scalar a = true.
Proof.
  intros Hs Ha Hb. destruct t; try discriminate Hs; destruct a; try discriminate Ha;
    destruct b; try discriminate Hb; simpl in *; auto;
    rewrite ?andb_true_iff, ?Bool.eqb_true_iff, ?Z.eqb_eq, ?bool_decide_eq_true in *; naive_solver.
Qed.

(** Expose the other side of an equality with a known head. *)
Ltac expose_equiv H :=
  lazymatch type of H with
  | type_eqb ?x ?y = true =>
      tryif is_var x then idtac else (destruct y; try discriminate H; simpl in H)
  end.

Lemma sub_equiv rules w a b a' b' :
  type_eqb a a' = true → type_eqb b b' = true → Sub rules w a b → Sub rules w a' b'.
Proof.
  intros Ha Hb H. revert a' b' Ha Hb. induction H; intros a' b' Ha Hb;
    expose_equiv Ha; expose_equiv Hb; unfold param_eqb in *;
    rewrite ?andb_true_iff, ?bool_decide_eq_true in *; destruct_and?; subst;
    try solve [eauto with sub | constructor; congruence].
  - apply forallb2_members in Ha as (ga & ha & Hga & Hha).
    apply forallb2_members in Hb as (gb & hb & Hgb & Hhb).
    apply (S_union_union _ _ _ _ (λ x, gb (f (ha x))) (λ y, ga (g (hb y)))).
    + intros x Hx. apply Hgb, H. by apply Hha.
    + intros x Hx. apply H1 with (ha x); apply Hha in Hx as [??]; auto. apply Hgb. auto.
    + intros y Hw Hy. apply Hga, H2; [done|]. by apply Hhb.
    + intros y Hw Hy. apply Hhb in Hy as [??]. apply H4 with (hb y); auto. apply Hga. auto.
  - apply forallb2_members in Ha as (ga & ha & Hga & Hha).
    apply S_union_sub; [by rewrite <-(is_union_equiv _ _ Hb)
      |by rewrite <-(is_trait_object_equiv _ _ Hb)|].
    intros x Hx. apply H2 with (ha x); [apply Hha..|]; auto.
  - apply forallb2_members in Hb as (gb & hb & Hgb & Hhb).
    apply S_member with (gb y); [by rewrite <-(is_union_equiv _ _ Ha)
      |by rewrite <-(is_dyn_equiv _ _ Ha)|apply Hgb; done|].
    apply IHSub; [done|]. by apply Hgb.
  - destruct (lookup_transport (λ _ x y, Sub rules w x y) a b elements elements0)
      as [??]; eauto using S_tuple.
  - destruct (lookup_transport (λ _ x y, Sub rules w y x) ps ps' params params0)
      as [??]; eauto using S_fn.
  - apply S_unspecified. destruct H as [-> | ->]; [left|right];
      [by destruct args|by destruct args0].
  - destruct (lookup_transport (λ i x y, is_dyn x = false →
      Sub rules (w && covariant_arg rules name0 i) x y) a b args args0)
      as [??]; eauto using S_named.
    intros i x y x' y' ?? Hx ? Hd. rewrite <-(is_dyn_equiv _ _ Hx) in Hd. eauto.
  - destruct (scalar_equiv t a' b') as [-> ?]; auto with sub.
Qed.

(** * Transitivity on settled types *)

(** A type with no hole, no trait object, no empty union, and every declared type
    instantiated at its full arity with no open [dyn] argument. *)
Fixpoint settled (arity : string → nat) (t : Ty) : bool :=
  match t with
  | TUnknown | TDynTrait _ => false
  | TList t | TSet t | TOption t => settled arity t
  | TMap k v | TResult k v => settled arity k && settled arity v
  | TNamed n l => (length l =? arity n)%nat && all (λ t, negb (is_dyn t) && settled arity t) l
  | TFn ps r => all (settled arity) ps && settled arity r
  | TUnion l => negb (length l =? 0)%nat && all (settled arity) l
  | TTuple l => all (settled arity) l
  | _ => true
  end.

Lemma lookup_same_length {A B} (l : list A) (k : list B) i x :
  length l = length k → l !! i = Some x → ∃ y, k !! i = Some y.
Proof. intros Hl Hx%lookup_lt_Some. apply lookup_lt_is_Some_2. by rewrite <-Hl. Qed.

Section Trans.
  Context (rules : NominalRules) (ar : string → nat).

Lemma settled_elem l x : all (settled ar) l = true → x ∈ l → settled ar x = true.
Proof. intros H ?. rewrite all_forall in H. auto. Qed.

Lemma settled_lookup l i x : all (settled ar) l = true → l !! i = Some x → settled ar x = true.
Proof. intros ? H%list_elem_of_lookup_2. by eapply settled_elem. Qed.

Lemma settled_args l i x :
  all (λ t, negb (is_dyn t) && settled ar t) l = true → l !! i = Some x →
  settled ar x = true ∧ is_dyn x = false.
Proof.
  intros H Hx%list_elem_of_lookup_2. rewrite all_forall in H.
  apply H, andb_true_iff in Hx as [?%negb_true_iff ?]. done.
Qed.

Lemma settled_arg l i x :
  all (λ t, negb (is_dyn t) && settled ar t) l = true → l !! i = Some x → settled ar x = true.
Proof. intros ??. by eapply settled_args. Qed.

Lemma arg_not_dyn l i x :
  all (λ t, negb (is_dyn t) && settled ar t) l = true → l !! i = Some x → is_dyn x = false.
Proof. intros ??. by eapply settled_args. Qed.

Definition trans_at (a b c : Ty) : Prop := ∀ w,
  settled ar a = true → settled ar b = true → settled ar c = true →
  Sub rules w a b → Sub rules w b c → Sub rules w a c.

(** Everything below the bottom is below everything. *)
Lemma below_never w a c :
  settled ar a = true → settled ar c = true → Sub rules w a TNever → Sub rules w a c.
Proof.
  remember TNever as b eqn:Hb. intros Ha Hc H. revert Hb c Ha Hc.
  induction H; intros; simplify_eq/=; auto with sub. 
  apply andb_true_iff in Ha as [Hne Ha].
  assert (∀ x c, x ∈ a → settled ar c = true → Sub rules w x c) as Hx.
  { intros x c' Hx Hc'. apply H2; auto. by eapply settled_elem. }
  assert (∃ x, x ∈ a) as [x0 Hx0] by (destruct a as [|x0 ?]; [done|exists x0; by left]).
  destruct c as [| | | | | | | | | | | | | | | | | | | | |c| |]; try done;
    try (by apply S_union_sub; auto).
  simpl in Hc. apply andb_true_iff in Hc as [Hnc Hc].
  assert (∃ y, y ∈ c) as [y0 Hy0] by (destruct c as [|y0 ?]; [done|exists y0; by left]).
  apply (S_union_union _ _ _ _ (λ _, y0) (λ _, x0)); auto; intros; apply Hx; auto;
    by eapply settled_elem.
Qed.

(** Transitivity below a triple of types. *)
Definition smaller_ok (a b c : Ty) : Prop := ∀ a' b' c',
  (type_size a' + type_size b' + type_size c' < type_size a + type_size b + type_size c)%nat →
  trans_at a' b' c'.

(** The right-hand step widens, or relates the heads. *)
Lemma trans_right_member a b c w l y :
  smaller_ok a b c → c = TUnion l → y ∈ l → w = true → is_union a = false → is_dyn a = false →
  settled ar a = true → settled ar b = true → settled ar c = true →
  Sub rules w a b → Sub rules w b y → Sub rules w a c.
Proof.
  intros IH -> Hy -> ???? Hc ??. apply S_member with y; [done..|].
  simpl in Hc. apply andb_true_iff in Hc as [_ Hc].
  apply (IH a b y); auto; [sizes|by eapply settled_elem].
Qed.

Lemma trans_from_union a b c w l :
  smaller_ok a b c → a = TUnion l → is_union b = false → settled ar a = true → settled ar b = true →
  settled ar c = true → (∀ x, x ∈ l → Sub rules w x b) → Sub rules w b c → Sub rules w a c.
Proof.
  intros IH -> Hu Ha Hb Hc Hl Hbc. simpl in Ha. apply andb_true_iff in Ha as [Hne Ha].
  assert (∀ x, x ∈ l → settled ar x = true) as Hs by (intros; by eapply settled_elem).
  destruct (is_union c) eqn:Huc.
  - destruct c as [| | | | | | | | | | | | | | | | | | | | |lc| |]; try discriminate Huc.
    inversion Hbc; subst; try discriminate.
    + apply (below_never w); [by apply andb_true_iff|done|]. by apply S_union_sub.
    + simpl in Hc. apply andb_true_iff in Hc as [_ Hc].
      apply (S_union_union _ _ _ _ (λ _, y) id); try (by intros); auto.
      intros x Hx. apply (IH x b y); auto; [sizes|by eapply settled_elem].
  - apply S_union_sub; [done|by destruct c|]. intros x Hx. apply (IH x b c); auto. sizes.
Qed.

(** What the right-hand step of a rule that keeps the head can be. *)
Ltac right_step IH Hbc :=
  inversion Hbc; subst; try discriminate; auto with sub;
  try solve [eapply (trans_right_member _ _ _ _ _ _ IH); eauto].

(** Compose two smaller steps. *)
Ltac via IH y :=
  apply (IH _ y); [sizes|
    solve [eauto using settled_elem, settled_lookup, settled_arg, arg_not_dyn]..].

Lemma trans_step a b c : smaller_ok a b c → trans_at a b c.
Proof.
  intros IH w Ha Hb Hc Hab Hbc. pose proof Hab as Hab0.
  destruct Hab; try discriminate; auto with sub.
  3: { eapply trans_from_union; eauto. }
  all: try (right_step IH Hbc).
  all: simpl in Ha, Hb, Hc; bool_to_prop; rewrite ?Nat.eqb_eq in *.
  - apply (S_union_union _ _ _ _ (λ x, f0 (f x)) (λ y, g (g0 y))); auto.
    + intros x Hx. assert (f x ∈ b) by auto. assert (f0 (f x) ∈ b0) by auto. via IH (f x).
    + intros y Hw Hy. assert (g0 y ∈ b) by auto. assert (g (g0 y) ∈ a) by auto.
      via IH (g0 y).
  - apply S_union_sub; auto. intros x Hx. assert (f x ∈ b) by auto. via IH (f x).
  - assert (f y ∈ b0) by auto. apply S_member with (f y); auto. via IH y.
  - via IH y.
  - apply S_list. via IH b.
  - apply S_set. via IH b.
  - apply S_option. via IH b.
  - apply S_map; [via IH k'|via IH v'].
  - apply S_result; [via IH t'|via IH e'].
  - apply S_tuple; [congruence|]. intros i x z Hx Hz.
    destruct (lookup_same_length a b i x) as [y Hy]; [done..|]. via IH y.
  - apply S_fn; [congruence| |via IH r']. intros i x z Hx Hz.
    destruct (lookup_same_length ps ps' i x) as [y Hy]; [done..|]. via IH y.
  - apply S_unspecified. left. apply length_zero_iff_nil. destruct_or!; subst; simpl in *; lia.
  - apply S_unspecified. left. apply length_zero_iff_nil. destruct_or!; subst; simpl in *; lia.
  - apply S_unspecified. left. apply length_zero_iff_nil. destruct_or!; subst; simpl in *; lia.
  - apply S_named; [congruence|]. intros i x z Hx Hz Hd.
    destruct (lookup_same_length a b i x) as [y Hy]; [done..|].
    via IH y.
  - apply S_param. congruence.
Qed.

Lemma sub_trans a b c : trans_at a b c.
Proof.
  remember (type_size a + type_size b + type_size c)%nat as n eqn:Hn.
  revert a b c Hn. induction n as [n IH] using lt_wf_ind. intros a b c ->.
  apply trans_step. intros a' b' c' ?. by eapply IH.
Qed.
End Trans.
