(* ===== verification/TypesProps.v ===== *)
(** Properties of the type lattice: the subtype walk, union normalization,
    desugaring, the comparator table and the built-in names. *)
From Stdlib Require Import Ascii String.
From stdpp Require Import pretty.
From S2P Require Import Prelude Span Types TypesFacts.
From stdpp Require Import options.
Open Scope Z_scope.

(** * Unions *)

(** The arms a union's member contributes: its own members, or itself. *)
Definition arms (t : Ty) : list Ty := match t with TUnion l => l | _ => [t] end.
Definition all_arms (l : list Ty) : list Ty := concat (map arms l).

(** A member a normalized union may hold. *)
Definition plain (t : Ty) : bool := negb (is_dyn t || is_never t || is_union t).
Fixpoint distinct (l : list Ty) : bool :=
  match l with [] => true | t :: l => negb (contains t l) && distinct l end.
Definition normal_members (l : list Ty) : bool :=
  (2 <=? length l)%nat && all plain l && distinct l.
(** Every union node below a type is normalized. *)
Fixpoint normal (t : Ty) : bool :=
  match t with
  | TList t | TSet t | TOption t => normal t
  | TMap k v | TResult k v => normal k && normal v
  | TNamed _ l | TTuple l => all normal l
  | TFn ps r => all normal ps && normal r
  | TUnion l => normal_members l && all normal l
  | _ => true
  end.

Lemma contains_spec t l : contains t l = true ↔ ∃ x, x ∈ l ∧ type_eqb t x = true.
Proof. apply any_exists. Qed.

Lemma contains_app t l k : contains t (l ++ k) = contains t l || contains t k.
Proof. apply existsb_app. Qed.

Lemma contains_trans t t' l :
  type_eqb t t' = true → contains t' l = true → contains t l = true.
Proof.
  rewrite !contains_spec. intros ? (x & ? & ?). exists x. split; [done|].
  by eapply type_eqb_trans.
Qed.

Lemma push_new_contains t x flat :
  contains x (push_new flat t) = contains x flat || type_eqb x t.
Proof.
  unfold push_new. destruct (contains t flat) eqn:E.
  - destruct (type_eqb x t) eqn:Ex; [|by rewrite orb_false_r].
    by rewrite (contains_trans x t).
  - rewrite contains_app. simpl. by rewrite orb_false_r.
Qed.

Lemma distinct_snoc l t : distinct (l ++ [t]) = distinct l && negb (contains t l).
Proof.
  induction l as [|x l IH]; simpl; [done|]. rewrite IH, contains_app. simpl.
  rewrite (type_eqb_sym t x). destruct (contains x l), (type_eqb x t), (distinct l),
    (contains t l) eqn:E; simpl; rewrite ?orb_true_r, ?orb_false_r; try done; by rewrite ?E.
Qed.

Lemma push_new_distinct flat t : distinct flat = true → distinct (push_new flat t) = true.
Proof.
  unfold push_new. intros H. destruct (contains t flat) eqn:E; [done|].
  by rewrite distinct_snoc, H, E.
Qed.

Lemma push_new_elem x t flat : x ∈ push_new flat t → x ∈ flat ∨ x = t.
Proof.
  unfold push_new. case_match; [by auto|].
  rewrite elem_of_app, list_elem_of_singleton. done.
Qed.

(** The accumulator of [union] after reading the arms [seen]. *)
Record folding (seen flat : list Ty) (saw : bool) : Prop := {
  fold_elem x : x ∈ flat → x ∈ seen ∧ is_dyn x = false ∧ is_never x = false;
  fold_distinct : distinct flat = true;
  fold_covers x : x ∈ seen → x = TNever ∧ saw = true ∨ contains x flat = true;
  fold_never : saw = true → TNever ∈ seen;
  fold_no_dyn x : x ∈ seen → is_dyn x = false
}.

Lemma folding_nil : folding [] [] false.
Proof. split; try done; auto; intros ? H; by apply elem_of_nil in H. Qed.

Lemma folding_step seen flat saw t flat' saw' :
  folding seen flat saw → union_inner (Some (flat, saw)) t = Some (flat', saw') →
  folding (seen ++ [t]) flat' saw'.
Proof.
  intros [He Hd Hc Hn Hy] H.
  assert (flat' = flat ∧ saw' = true ∧ t = TNever ∨
          flat' = push_new flat t ∧ saw' = saw ∧ is_dyn t = false ∧ is_never t = false) as Hcase.
  { destruct t; simpl in H; simplify_eq; auto. }
  destruct Hcase as [(-> & -> & ->)|(-> & -> & Ht & Ht')]; split.
  - intros x Hx. apply He in Hx. set_solver.
  - done.
  - intros x. rewrite elem_of_app, list_elem_of_singleton. intros [Hx| ->]; [|by left].
    destruct (Hc x Hx) as [[? ?]|?]; auto.
  - set_solver.
  - intros x. rewrite elem_of_app, list_elem_of_singleton. intros [Hx| ->]; auto.
  - intros x [Hx| ->]%push_new_elem; [apply He in Hx; set_solver|set_solver].
  - by apply push_new_distinct.
  - intros x. rewrite elem_of_app, list_elem_of_singleton, push_new_contains.
    intros [Hx| ->]; [|by rewrite type_eqb_refl, orb_true_r; auto].
    destruct (Hc x Hx) as [?| ->]; auto.
  - set_solver.
  - intros x. rewrite elem_of_app, list_elem_of_singleton. intros [Hx| ->]; auto.
Qed.

Lemma folding_run l seen flat saw flat' saw' :
  folding seen flat saw → foldl union_inner (Some (flat, saw)) l = Some (flat', saw') →
  folding (seen ++ l) flat' saw'.
Proof.
  revert seen flat saw. induction l as [|t l IH]; intros seen flat saw Hf H.
  - simpl in H. simplify_eq. by rewrite app_nil_r.
  - cbn [foldl] in H. destruct (union_inner (Some (flat, saw)) t) as [[f1 s1]|] eqn:E.
    + replace (seen ++ t :: l) with ((seen ++ [t]) ++ l) by (by rewrite <-app_assoc).
      eapply IH; [|done]. by eapply folding_step.
    + exfalso. clear -H. induction l; simpl in H; congruence.
Qed.

Lemma union_inner_none l : foldl union_inner None l = None.
Proof. by induction l. Qed.

Lemma union_run_none l flat saw : foldl union_inner (Some (flat, saw)) l = None ↔ TDyn ∈ l.
Proof.
  revert flat saw. induction l as [|t l IH]; intros flat saw.
  - split; [done|]. by intros ?%elem_of_nil.
  - cbn [foldl]. rewrite elem_of_cons.
    destruct t; cbn [union_inner]; rewrite ?union_inner_none, ?IH; naive_solver.
Qed.

(** Reading a member is reading its arms. *)
Lemma union_steps st l : foldl union_step st l = foldl union_inner st (all_arms l).
Proof.
  revert st. induction l as [|m l IH]; intros st; [done|].
  unfold all_arms. cbn [foldl map concat]. rewrite IH, foldl_app. f_equal.
  destruct st as [[flat saw]|]; [|by rewrite union_inner_none]. by destruct m.
Qed.

(** The three ways [union] ends. *)
Lemma union_cases l :
  (union l = TDyn ∧ TDyn ∈ all_arms l) ∨
  ∃ flat saw, folding (all_arms l) flat saw ∧
    (flat = [] ∧ union l = (if saw then TNever else TUnknown) ∨
     (∃ t, flat = [t] ∧ union l = t) ∨
     (2 ≤ length flat)%nat ∧ union l = TUnion flat).
Proof.
  unfold union. rewrite union_steps.
  destruct (foldl union_inner (Some ([], false)) (all_arms l)) as [[flat saw]|] eqn:E.
  - right. exists flat, saw. split; [by apply (folding_run _ [] [] false) in E; [|apply folding_nil]|].
    destruct flat as [|t [|t' flat]]; [by destruct saw; auto|by eauto|].
    right; right. split; [simpl; lia|done].
  - left. split; [done|]. by apply union_run_none in E.
Qed.

(** Members that are not themselves unions: what [union] is given when its inner
    unions were built by [union]. *)
Definition flat_arms (l : list Ty) : Prop := ∀ x, x ∈ all_arms l → is_union x = false.

Lemma folding_plain l flat saw : flat_arms l → folding (all_arms l) flat saw → all plain flat = true.
Proof.
  intros Hl Hf. apply all_forall. intros x Hx. apply Hf in Hx as (? & Hd & Hn).
  unfold plain. by rewrite Hd, Hn, (Hl x).
Qed.

Lemma union_normal l :
  flat_arms l → (∀ x, x ∈ all_arms l → normal x = true) → normal (union l) = true.
Proof.
  intros Hl Hn. destruct (union_cases l) as [[-> _]|(flat & saw & Hf & Hc)]; [done|].
  destruct Hc as [[-> ->]|[(t & -> & ->)|[Hlen ->]]].
  - by destruct saw.
  - apply Hn, (fold_elem _ _ _ Hf). by left.
  - simpl. unfold normal_members. rewrite (folding_plain l _ _ Hl Hf), (fold_distinct _ _ _ Hf).
    destruct (Nat.leb_spec 2 (length flat)); [simpl|lia].
    apply all_forall. intros x Hx. by apply Hn, (fold_elem _ _ _ Hf).
Qed.

Lemma normal_flat_arms l :
  (∀ m, m ∈ l → normal m = true) → flat_arms l ∧ (∀ x, x ∈ all_arms l → normal x = true).
Proof.
  intros Hl. assert (∀ x, x ∈ all_arms l → is_union x = false ∧ normal x = true) as H.
  { intros x Hx. unfold all_arms in Hx. rewrite <-flat_map_concat_map in Hx.
    apply list_elem_of_In, in_flat_map in Hx as (m & Hm & Hx).
    rewrite <-list_elem_of_In in Hm, Hx. specialize (Hl m Hm).
    destruct m; simpl in Hx; try (apply list_elem_of_singleton in Hx; by subst).
    simpl in Hl. unfold normal_members in Hl. bool_to_prop. rewrite all_forall in *.
    split; [|by auto]. assert (plain x = true) as Hp by auto. unfold plain in Hp. by destruct x. }
  split; intros x Hx; by apply H.
Qed.

Section UnionBounds.
  Context (rules : NominalRules) (l : list Ty).
  Hypothesis (Hl : flat_arms l).

Lemma sub_union_upper x : x ∈ all_arms l → Sub rules true x (union l).
Proof using Hl.
  intros Hx. destruct (union_cases l) as [[-> _]|(flat & saw & Hf & Hc)]; [by constructor|].
  destruct (fold_covers _ _ _ Hf x Hx) as [[-> _]|(y & Hy & Hxy)%contains_spec]; [by constructor|].
  assert (Sub rules true x y) as Hsub.
  { eapply sub_equiv; [apply type_eqb_refl|apply Hxy|apply sub_refl]. }
  destruct Hc as [[-> _]|[(t & -> & ->)|[_ ->]]].
  - by apply elem_of_nil in Hy.
  - apply list_elem_of_singleton in Hy as ->. done.
  - eapply S_member; [by apply Hl|by apply (fold_no_dyn _ _ _ Hf)|done|done].
Qed.

Lemma sub_union_least t :
  is_trait_object t = false → t ≠ TUnion [] →
  (∀ x, x ∈ all_arms l → Sub rules true x t) → Sub rules true (union l) t.
Proof using Hl.
  intros Ht Hne H. destruct (union_cases l) as [[-> Hd]|(flat & saw & Hf & Hc)]; [by apply H|].
  destruct Hc as [[-> ->]|[(x & -> & ->)|[_ ->]]].
  - destruct saw; constructor.
  - apply H, (fold_elem _ _ _ Hf). by left.
  - destruct (is_union t) eqn:Hu.
    + destruct t; try discriminate. rename members into b.
      destruct (choose_member (λ x y, subtype_at x y rules true) flat b) as [f Hb].
      { apply all_forall. intros x Hx. apply (fold_elem _ _ _ Hf) in Hx as (Hx & _ & Hnever).
        apply any_exists. specialize (H x Hx). specialize (Hl x Hx).
        inversion H; subst; try discriminate; [|by exists y; eauto using sub_complete].
        destruct b as [|y b]; [done|]. exists y. split; [by left|]. by apply sub_complete, S_hole_sub. }
      apply (S_union_union _ _ _ _ f id); [intros x Hx; by apply Hb| |done..].
      intros x Hx. apply sub_sound. by apply Hb.
    + apply S_union_sub; [done..|]. intros x Hx. by apply H, (fold_elem _ _ _ Hf).
Qed.
End UnionBounds.

Lemma union_rebuild l flat saw :
  distinct (flat ++ l) = true → all plain l = true →
  foldl union_inner (Some (flat, saw)) l = Some (flat ++ l, saw).
Proof.
  revert flat. induction l as [|t l IH]; intros flat Hd Hp; [by rewrite app_nil_r|].
  simpl in Hp. apply andb_true_iff in Hp as [Ht Hp]. cbn [foldl].
  replace (flat ++ t :: l) with ((flat ++ [t]) ++ l) in * by (by rewrite <-app_assoc).
  assert (contains t flat = false) as Hc.
  { clear IH Hp. revert Hd. rewrite <-app_assoc. induction flat as [|x flat IH]; simpl; [done|].
    intros [Hn%negb_true_iff Hd]%andb_true_iff. rewrite (IH Hd), contains_app in *.
    apply orb_false_iff in Hn as [_ Hn]. simpl in Hn. apply orb_false_iff in Hn as [Hn _].
    by rewrite type_eqb_sym, Hn. }
  rewrite <-IH by done. f_equal. destruct t; try discriminate; simpl; unfold push_new;
    by rewrite Hc.
Qed.

(** * The comparator table *)

Lemma answers_sym a b : comparator_answers a b = comparator_answers b a.
Proof.
  revert b. induction a; intros b; destruct b; try reflexivity; try exact (IHa _);
    try exact (f_equal2 andb (IHa1 _) (IHa2 _)); exact (type_eqb_sym (TNamed _ _) (TNamed _ _)).
Qed.

Lemma answers_trans a b c :
  comparator_answers a b = true → comparator_answers b c = true → comparator_answers a c = true.
Proof.
  revert b c. induction a; intros b c; destruct b; try (intros; discriminate);
    destruct c; try (intros; discriminate); try reflexivity; try exact (IHa _ _).
  - simpl. rewrite !andb_true_iff. intros [??] [??]. eauto.
  - exact (type_eqb_trans (TNamed _ _) (TNamed _ _) (TNamed _ _)).
Qed.

(** The types the comparator answers for, descending into prelude payloads. *)
Fixpoint comparable (t : Ty) : bool :=
  match t with
  | TOption t => comparable t
  | TResult t e => comparable t && comparable e
  | _ => bool_decide (is_Some (comparator_arm t))
  end.

Lemma answers_refl a : comparator_answers a a = comparable a.
Proof.
  induction a; try reflexivity; try exact IHa.
  - simpl. by rewrite IHa1, IHa2.
  - exact (type_eqb_refl (TNamed name args)).
Qed.

(** * The built-in names *)
Definition builtin_spellings (b : BuiltinTy) : list string :=
  match b with BIntN signed bits => [int_width_name signed bits] | _ => spellings b end.

Lemma assoc_elem {A} (n : string) (l : list (string * A)) v : assoc n l = Some v → (n, v) ∈ l.
Proof.
  induction l as [|[k x] l IH]; simpl; [done|].
  destruct (String.eqb_spec n k); [|by right; auto]. intros [= ->]. subst. by left.
Qed.

Lemma width_of_spec s r signed bits :
  width_of s r = Some (signed, bits) → signed = s ∧ bits ∈ [8; 16; 32; 64] ∧ r = pretty bits.
Proof.
  unfold width_of.
  repeat (match goal with |- context [(r =? ?k)%string] => destruct (String.eqb_spec r k) end;
    [intros [= <- <-]; subst; split; [done|]; split; [set_solver|reflexivity]|]).
  done.
Qed.

Lemma parse_int_width_spec n signed bits :
  parse_int_width n = Some (signed, bits) →
  bits ∈ [8; 16; 32; 64] ∧ n = int_width_name signed bits.
Proof.
  destruct n as [|c r]; [done|]. unfold parse_int_width, int_width_name. intros H.
  destruct (Ascii.ascii_dec c "i"%char) as [->|Hi];
    [by apply width_of_spec in H as (-> & ? & ->)|].
  destruct (Ascii.ascii_dec c "u"%char) as [->|Hu];
    [by apply width_of_spec in H as (-> & ? & ->)|].
  by destruct c as [[] [] [] [] [] [] [] []].
Qed.

Lemma map_normal (f : TypeRef → Ty) l :
  list_all TypeRef (λ r, normal (f r) = true) l → all normal (map f l) = true.
Proof. induction 1; simpl; [done|]. by apply andb_true_iff. Qed.

Lemma builtin_type_normal b sp args :
  all normal args = true → normal (builtin_type b sp args) = true.
Proof.
  intros H. rewrite all_forall in H.
  assert (∀ i, normal (match sp with Bare => TUnknown
    | Canonical => from_option id TUnknown (args !! i) end) = true) as Harg.
  { intros i. destruct sp; [|done]. destruct (args !! i) eqn:E; [|done].
    by eapply H, list_elem_of_lookup_2. }
  destruct b; simpl; try done; try apply Harg; try (by vm_compute);
    apply andb_true_iff; split; apply Harg.
Qed.
(** * The theorems *)

(** C3. The subtype walk decides the declarative rules [Sub]: [subtype_at] returns
    [true] exactly for the pairs the rules derive, at every registry and position. *)
Theorem subtype_decides_rules rules w a b :
  subtype_at a b rules w = true ↔ Sub rules w a b.
Proof. split; [apply sub_sound|apply sub_complete]. Qed.

(** C17. Subtyping is transitive on settled types (no inference hole, no trait
    object, no empty union, declared types fully instantiated without an open [dyn]
    argument), in widening and in invariant positions alike. *)
Theorem subtype_transitive rules (ar : string → nat) w a b c :
  settled ar a = true → settled ar b = true → settled ar c = true →
  subtype_at a b rules w = true → subtype_at b c rules w = true →
  subtype_at a c rules w = true.
Proof.
  intros Ha Hb Hc H1%sub_sound H2%sub_sound. apply sub_complete.
  by apply (sub_trans rules ar a b c w).
Qed.

(** A registry only ever admits relations, and so does a position: answering
    "yes" to more nominal questions, or admitting widenings, keeps every relation
    that held. In particular the registry-free [subtype] implies [subtype_with]. *)
Theorem subtype_monotone r r' w w' a b :
  rules_le r r' → (w = true → w' = true) →
  subtype_at a b r w = true → subtype_at a b r' w' = true.
Proof. intros ?? ?%sub_sound. by eapply sub_complete, sub_mono. Qed.

(** Subtyping depends on a type parameter's identity alone: replacing either
    side by an equal type (parameters respelled) changes no answer, and every type is
    a subtype of its equals, in every position. *)
Theorem subtype_modulo_names rules w a b a' b' :
  type_eqb a a' = true → type_eqb b b' = true →
  subtype_at a b rules w = subtype_at a' b' rules w ∧ subtype_at a a' rules w = true.
Proof.
  intros Ha Hb. split.
  - apply eq_true_iff_eq. split; intros H%sub_sound; apply sub_complete.
    + by eapply sub_equiv.
    + eapply sub_equiv; [rewrite type_eqb_sym; apply Ha|rewrite type_eqb_sym; apply Hb|done].
  - apply sub_complete. eapply sub_equiv; [apply type_eqb_refl|apply Ha|apply sub_refl].
Qed.

(** What [dyn] narrows into without a cast: a hole, itself, and {e every trait
    object} — nothing else. *)
Theorem dyn_narrows_to_trait_objects rules w t :
  subtype_at TDyn t rules w = is_gradual t || is_dyn t || is_trait_object t.
Proof.
  rewrite subtype_unfold. unfold subtype_step.
  by destruct t; rewrite ?orb_true_r.
Qed.

(** Desugaring a surface type yields a normalized lattice type: every union node
    has at least two members, pairwise distinct, none of them [dyn], [never] or a
    union. *)
Theorem from_ref_normal r : normal (from_ref r) = true.
Proof.
  induction r as [n args IH s|tr s|r IH s|ms IH s|es IH s|ps IHps r IHr s|n s];
    simpl; try done; try (by apply map_normal).
  - destruct (from_name n) as [[b sp]|]; [apply builtin_type_normal|]; by apply map_normal.
  - apply map_normal in IH. rewrite all_forall in IH.
    apply normal_flat_arms in IH as [Hf Hn]. by apply union_normal.
  - apply andb_true_iff. split; [by apply map_normal|done].
Qed.

(** A normalized union is the join of its arms where widenings are admitted: each
    arm reads as the union, and the union reads as any type all the arms read as —
    except a trait object, which no union reads as
    ([union_never_reads_as_trait_object]). *)
Theorem union_is_join rules l :
  flat_arms l →
  (∀ x, x ∈ all_arms l → subtype_with x (union l) rules = true) ∧
  (∀ t, is_trait_object t = false → t ≠ TUnion [] →
     (∀ x, x ∈ all_arms l → subtype_with x t rules = true) →
     subtype_with (union l) t rules = true).
Proof.
  intros Hl. split.
  - intros x Hx. by apply sub_complete, sub_union_upper.
  - intros t ?? H. apply sub_complete, sub_union_least; [done..|].
    intros x Hx. by apply sub_sound, H.
Qed.

(** No union is ever a subtype of a trait object, even when every one of its
    members implements the trait (so is a subtype of it). *)
Theorem union_never_reads_as_trait_object rules w l tr :
  subtype_at (TUnion l) (TDynTrait tr) rules w = false.
Proof. by rewrite subtype_unfold. Qed.

(** Rebuilding a normalized union is a no-op, from its members or from itself. *)
Theorem union_rebuilds l :
  normal_members l = true → union l = TUnion l ∧ union [TUnion l] = TUnion l.
Proof.
  intros [[Hlen Hp]%andb_true_iff Hd]%andb_true_iff. apply Nat.leb_le in Hlen.
  assert (all_arms l = l) as Harms.
  { clear -Hp. unfold all_arms. induction l as [|t l IH]; [done|].
    simpl in *. apply andb_true_iff in Hp as [Ht Hp]. rewrite IH by done. by destruct t. }
  unfold union. rewrite !union_steps. unfold all_arms at 2. simpl. rewrite app_nil_r, Harms.
  rewrite union_rebuild by done. simpl. destruct l as [|? [|? ?]]; simpl in Hlen; [lia..|done].
Qed.

(** The comparator's pair predicate is a partial equivalence relation: symmetric,
    transitive, and reflexive exactly on the types it has an arm for. *)
Theorem comparator_answers_per :
  (∀ a b, comparator_answers a b = comparator_answers b a) ∧
  (∀ a b c, comparator_answers a b = true → comparator_answers b c = true →
     comparator_answers a c = true) ∧
  (∀ a, comparator_answers a a = comparable a).
Proof. split; [apply answers_sym|split; [apply answers_trans|apply answers_refl]]. Qed.

(** The built-in vocabulary is closed: [from_name] decodes every spelling the
    enumeration lists to its own constructor, decodes nothing else, and only the
    lowercase collections report the bare spelling. *)
Theorem builtin_names_round_trip :
  (∀ b n, b ∈ builtins_all → n ∈ builtin_spellings b → from_name_any n = Some b) ∧
  (∀ n b sp, from_name n = Some (b, sp) →
     b ∈ builtins_all ∧ n ∈ builtin_spellings b ∧
     (sp = Bare ↔ n ∈ ["list"; "set"; "map"]%string)).
Proof.
  split.
  - intros b n Hb Hn.
    assert (all (λ b, all (λ n, bool_decide (from_name_any n = Some b)) (builtin_spellings b))
      builtins_all = true) as H by (by vm_compute).
    rewrite all_forall in H. specialize (H b Hb). rewrite all_forall in H.
    exact (proj1 (bool_decide_eq_true _) (H n Hn)).
  - intros n b sp. unfold from_name. destruct (assoc n builtin_names) as [found|] eqn:E.
    + intros [= ->]. apply assoc_elem in E.
      assert (all (λ e, bool_decide (e.2.1 ∈ builtins_all ∧ e.1 ∈ builtin_spellings e.2.1 ∧
        (e.2.2 = Bare ↔ e.1 ∈ ["list"; "set"; "map"]%string))) builtin_names = true) as H
        by (by vm_compute).
      rewrite all_forall in H. exact (proj1 (bool_decide_eq_true _) (H _ E)).
    + destruct (parse_int_width n) as [[signed bits]|] eqn:Ep; [|done].
      intros [= <- <-]. apply parse_int_width_spec in Ep as [Hbits ->].
      assert (all (λ s, all (λ bits, bool_decide (BIntN s bits ∈ builtins_all ∧
        (Canonical = Bare ↔ int_width_name s bits ∈ ["list"; "set"; "map"]%string)))
        [8; 16; 32; 64]) [true; false] = true) as H by (by vm_compute).
      rewrite all_forall in H. specialize (H signed). rewrite all_forall in H.
      specialize (H ltac:(destruct signed; set_solver) bits Hbits).
      apply bool_decide_eq_true in H. set_solver.
Qed.

(** The members of [number]. *)
Definition number_arms : list Ty := Eval vm_compute in arms arith_numeric.

Lemma sub_numeric rules w t m :
  is_union t = false → is_arith_numeric m = true →
  subtype_at t m rules w = is_gradual t || is_never t || type_eqb t m.
Proof.
  intros. rewrite subtype_unfold. unfold subtype_step.
  destruct m; try discriminate; destruct t; try discriminate; reflexivity.
Qed.

(** [number] accepts exactly the numeric scalars: a type that is neither a hole,
    the bottom nor a union widens into it iff it is one of [int], [float], [f32],
    [f64] or a fixed-width integer of one of the four widths. *)
Theorem number_accepts_the_numeric_scalars rules t args sp :
  is_union t = false →
  subtype_with t (from_ref (RNamed "number" args sp)) rules =
  is_gradual t || is_never t ||
  match t with
  | TIntN _ bits => bool_decide (bits ∈ [8; 16; 32; 64])
  | _ => is_arith_numeric t
  end.
Proof.
  intros Hu. unfold subtype_with. rewrite subtype_unfold. unfold subtype_step.
  change (from_ref (RNamed "number" args sp)) with (TUnion number_arms). cbn [is_gradual is_dyn].
  assert (any (λ m, subtype_at t m rules true) number_arms =
    any (λ m, is_gradual t || is_never t || type_eqb t m) number_arms) as Hany.
  { apply any_ext. intros m Hm. apply sub_numeric; [done|].
    assert (all is_arith_numeric number_arms = true) as H by done. rewrite all_forall in H. auto. }
  destruct t; try discriminate Hu; try reflexivity;
    try (cbn; cbn in Hany; rewrite Hany; reflexivity).
  cbn [is_never is_gradual orb andb]. rewrite Hany. apply eq_true_iff_eq.
  rewrite bool_decide_eq_true, any_exists. split.
  - intros (m & Hm & H). cbn in Hm. destruct m; try discriminate H. cbn in H.
    apply andb_true_iff in H as [_ ->%Z.eqb_eq]. set_solver.
  - intros Hb. exists (TIntN signed bits). split; [|apply type_eqb_refl].
    destruct signed; cbn; set_solver.
Qed.

(** A mismatch between two different type parameters of one spelling renders both
    sides alike: the qualified fallback of [mismatch_pair] does not reach them. *)
Theorem mismatch_pair_hides_parameters p q :
  param_eqb p q = false → param_name p = param_name q →
  mismatch_pair (TParam p) (TParam q) = (param_name p, param_name p).
Proof.
  intros Hpq Hn. unfold mismatch_pair. simpl. rewrite Hn, String.eqb_refl, Hpq. done.
Qed.

Module TypesExample.
Definition box (t : Ty) : Ty := TNamed "Box" [t].
Definition dog : Ty := TNamed "Dog" [].
Definition cat : Ty := TNamed "Cat" [].
(** [Dog] and [Cat] implement [Speak]; [Box] is covariant. *)
Definition pets : NominalRules :=
  mkRules (λ _ k, bool_decide (k = KindStruct)) (λ _ t, (t =? "Speak")%string)
    (λ n _, (n =? "Box")%string).
Definition arity1 (n : string) : nat := if (n =? "Box")%string then 1%nat else 0%nat.
Definition T_at (s e : Z) : ParamRef := mkParamRef (at_ (new s e)) "T".

Lemma subtype_transitive_witness :
  subtype_at (box dog) (box (TUnion [dog; cat])) pets true = true ∧
  subtype_at (box dog) (box TDyn) pets true = true ∧
  subtype_at (TList (box dog)) (TList (box (TKind KindStruct))) pets true = true.
Proof.
  split; [reflexivity|split; [reflexivity|]].
  apply (subtype_transitive pets arity1 true _ (TList (box (TUnion [dog; cat]))) _); reflexivity.
Defined.

Lemma subtype_monotone_witness :
  subtype_at (TList TInt) (TList TInt) NoRegistry false = true ∧
  subtype_at (TList TInt) (TList TInt) pets true = true.
Proof.
  split; [reflexivity|]. apply (subtype_monotone NoRegistry pets false true); [|done|reflexivity].
  split; [done|split; done].
Defined.

(** A parameter respelled: [List<T>] against [List<U>] declared at the same site. *)
Lemma subtype_modulo_names_witness :
  subtype_at (TList (TParam (T_at 3 4))) (TList (TParam (T_at 3 4))) NoRegistry false =
  subtype_at (TList (TParam (mkParamRef (at_ (new 3 4)) "U"))) (TList (TParam (T_at 3 4)))
    NoRegistry false ∧
  subtype_at (TList (TParam (T_at 3 4))) (TList (TParam (mkParamRef (at_ (new 3 4)) "U")))
    NoRegistry false = true.
Proof. apply subtype_modulo_names; reflexivity. Defined.

Lemma union_is_join_witness :
  flat_arms [dog; TUnion [cat; TInt]] ∧
  subtype_with (union [dog; TUnion [cat; TInt]]) (TUnion [TInt; cat; dog; TBool]) pets = true.
Proof.
  assert (flat_arms [dog; TUnion [cat; TInt]]) as H.
  { intros x Hx. cbn in Hx. repeat (apply elem_of_cons in Hx as [->|Hx]; [reflexivity|]).
    by apply elem_of_nil in Hx. }
  split; [exact H|]. apply (union_is_join pets _ H); [reflexivity|done|].
  intros x Hx. cbn in Hx. repeat (apply elem_of_cons in Hx as [->|Hx]; [reflexivity|]).
  by apply elem_of_nil in Hx.
Defined.

Lemma union_rebuilds_witness :
  normal_members [TInt; dog] = true ∧
  (union [TInt; dog] = TUnion [TInt; dog] ∧ union [TUnion [TInt; dog]] = TUnion [TInt; dog]).
Proof. split; [reflexivity|]. apply (union_rebuilds [TInt; dog]). reflexivity. Defined.

Lemma number_accepts_the_numeric_scalars_witness :
  is_union (TIntN true 16) = false ∧
  subtype_with (TIntN true 16) (from_ref (RNamed "number" [] (new 0 0))) NoRegistry =
  is_gradual (TIntN true 16) || is_never (TIntN true 16) ||
  bool_decide (16 ∈ [8; 16; 32; 64]).
Proof. split; [reflexivity|]. apply number_accepts_the_numeric_scalars. reflexivity. Defined.

Lemma mismatch_pair_hides_parameters_witness :
  param_eqb (T_at 0 1) (T_at 5 6) = false ∧
  mismatch_pair (TParam (T_at 0 1)) (TParam (T_at 5 6)) = ("T", "T")%string.
Proof. split; [reflexivity|]. by apply (mismatch_pair_hides_parameters (T_at 0 1) (T_at 5 6)). Defined.
End TypesExample.
