(* ===== verification/Doc.v ===== *)
(** The pretty-printing algebra of [crates/noeta-fmt/src/doc.rs]: documents, the
    best-fit renderer and its [fits] look-ahead, as iterations over an explicit
    work stack. *)
From Stdlib Require Import Ascii String.
From S2P Require Import Prelude.
From stdpp Require Import options.
Open Scope Z_scope.

Inductive Doc :=
| Nil
| Text (s : string)
| RawText (s : string)
| Line
| SoftLine
| HardLine
| Concat (docs : list Doc)
| Nest (n : Z) (d : Doc)
| Group (d : Doc)
| IfBreak (d : Doc).

Definition newline : ascii := "010"%char.
Definition tab : ascii := "009"%char.
Definition space : ascii := " "%char.
Definition is_newline (c : ascii) : bool := (c =? newline)%char.

(** [s.contains('\n')]. *)
Fixpoint has_newline (s : string) : bool :=
  match s with EmptyString => false | String c s => is_newline c || has_newline s end.

(** [Doc::join]. *)
Fixpoint join_from (started : bool) (docs : list Doc) (sep : Doc) : list Doc :=
  match docs with
  | [] => []
  | d :: docs => (if started then [sep; d] else [d]) ++ join_from true docs sep
  end.
Definition join (docs : list Doc) (sep : Doc) : Doc := Concat (join_from false docs sep).

Fixpoint never_breaks (d : Doc) : bool :=
  match d with
  | Nil | Text _ => true
  | RawText s => negb (has_newline s)
  | Line | SoftLine | HardLine => false
  | Concat docs => all never_breaks docs
  | Nest _ d | Group d => never_breaks d
  | IfBreak _ => false
  end.

Inductive Mode := Flat | Break.
#[export] Instance Mode_eq_dec : EqDecision Mode.
Proof. solve_decision. Defined.

(** [s.chars().count()] of a UTF-8 string: the bytes that are not continuation
    bytes [10xxxxxx]. *)
Definition is_continuation (c : ascii) : bool :=
  let 'Ascii _ _ _ _ _ _ b6 b7 := c in b7 && negb b6.
Fixpoint width_of (s : string) : Z :=
  match s with
  | EmptyString => 0
  | String c s => (if is_continuation c then 0 else 1) + width_of s
  end.

(** [IndentStyle { width: usize, tabs }]. *)
Record IndentStyle := mkIndentStyle { style_width : Z; tabs : bool }.
Definition default_style : IndentStyle := mkIndentStyle 4 false.

(** A work-stack entry [(indent, mode, doc)]; the head is the top. *)
Definition Item : Type := Z * Mode * Doc.

(** [out.push] repeated. *)
Fixpoint repeat_char (c : ascii) (n : nat) : string :=
  match n with O => "" | S n => String c (repeat_char c n) end.

(** [new_line]: what it pushes, and the column it returns. [indent as usize] wraps. *)
Definition new_line_text (indent : Z) (style : IndentStyle) : string :=
  String newline
    (if tabs style && (0 <? style_width style)
     then repeat_char tab (Z.to_nat (indent mod 2 ^ 64 / style_width style))
     else repeat_char space (Z.to_nat indent)).
Definition new_line (out : string) (indent : Z) (style : IndentStyle) : string * Z :=
  (out +:+ new_line_text indent style, indent).

(** * [fits] *)

(** One popped item: [inl] is a return, [inr] the new [remaining] and what to push. *)
Definition fits_item (remaining : Z) (item : Item) : bool + Z * list Item :=
  let '(indent, mode, doc) := item in
  match doc with
  | Nil => inr (remaining, [])
  | Text s => inr (remaining - width_of s, [])
  | RawText s =>
      if has_newline s then inl (match mode with Break => true | Flat => false end)
      else inr (remaining - width_of s, [])
  | Concat docs => inr (remaining, map (λ d, (indent, mode, d)) docs)
  | Nest n d => inr (remaining, [(indent + n, mode, d)])
  | Line => match mode with Flat => inr (remaining - 1, []) | Break => inl true end
  | SoftLine => match mode with Flat => inr (remaining, []) | Break => inl true end
  | HardLine => match mode with Flat => inl false | Break => inl true end
  | Group d => inr (remaining, [(indent, Flat, d)])
  | IfBreak d => inr (remaining, match mode with Break => [(indent, mode, d)] | Flat => [] end)
  end.

(** The loop: [local] first, then [rest] from its end. [None] is out of fuel. *)
Fixpoint fits_loop (fuel : nat) (remaining : Z) (local rest : list Item) : option bool :=
  match fuel with
  | O => None
  | S fuel =>
      if remaining <? 0 then Some false
      else match local, rest with
      | [], [] => Some true
      | item :: local, rest =>
          match fits_item remaining item with
          | inl b => Some b
          | inr (remaining, pushed) => fits_loop fuel remaining (pushed ++ local) rest
          end
      | [], item :: rest =>
          match fits_item remaining item with
          | inl b => Some b
          | inr (remaining, pushed) => fits_loop fuel remaining pushed rest
          end
      end
  end.

Fixpoint doc_size (d : Doc) : nat :=
  S (match d with
     | Concat docs => list_sum (map doc_size docs)
     | Nest _ d | Group d | IfBreak d => doc_size d
     | _ => 0
     end)%nat.
Definition stack_size (l : list Item) : nat := list_sum (map (λ it, doc_size it.2) l).

Definition fits (remaining group_indent : Z) (group_doc : Doc) (rest : list Item) : option bool :=
  fits_loop (S (doc_size group_doc + stack_size rest)) remaining
    [(group_indent, Flat, group_doc)] rest.

(** * [render_protected] *)

(** [s[nl + 1..]] for the last newline, if any. *)
Fixpoint after_last_newline (s : string) : option string :=
  match s with
  | EmptyString => None
  | String c s =>
      match after_last_newline s with
      | Some r => Some r
      | None => if is_newline c then Some s else None
      end
  end.

Record Render := mkRender {
  out : string;
  protected : list (nat * nat);
  col : Z
}.

(** One popped item of the renderer; [None] only when [fits] lacks fuel. *)
Definition render_item (width : Z) (style : IndentStyle) (st : Render) (item : Item)
    (stack : list Item) : option (Render * list Item) :=
  let '(indent, mode, doc) := item in
  let break_line := let '(o, c) := new_line (out st) indent style in
                    Some (mkRender o (protected st) c, stack) in
  match doc with
  | Nil => Some (st, stack)
  | Text s => Some (mkRender (out st +:+ s) (protected st) (col st + width_of s), stack)
  | RawText s =>
      let start := String.length (out st) in
      let o := out st +:+ s in
      Some (mkRender o (protected st ++ [(start, String.length o)])
              (match after_last_newline s with
               | Some tail => width_of tail
               | None => col st + width_of s
               end), stack)
  | Concat docs => Some (st, map (λ d, (indent, mode, d)) docs ++ stack)
  | Nest n d => Some (st, (indent + n, mode, d) :: stack)
  | Line =>
      match mode with
      | Flat => Some (mkRender (out st +:+ String space "") (protected st) (col st + 1), stack)
      | Break => break_line
      end
  | SoftLine => match mode with Flat => Some (st, stack) | Break => break_line end
  | HardLine => break_line
  | Group d =>
      match fits (width - col st) indent d stack with
      | None => None
      | Some b => Some (st, (indent, if b then Flat else Break, d) :: stack)
      end
  | IfBreak d =>
      Some (st, match mode with Break => (indent, mode, d) :: stack | Flat => stack end)
  end.

Fixpoint render_loop (fuel : nat) (width : Z) (style : IndentStyle) (st : Render)
    (stack : list Item) : option Render :=
  match stack with
  | [] => Some st
  | item :: stack =>
      match fuel with
      | O => None
      | S fuel =>
          match render_item width style st item stack with
          | None => None
          | Some (st, stack) => render_loop fuel width style st stack
          end
      end
  end.

Definition render_protected (doc : Doc) (width : Z) (style : IndentStyle) :
    option (string * list (nat * nat)) :=
  r ← render_loop (doc_size doc) width style (mkRender "" [] 0) [(0, Break, doc)];
  Some (out r, protected r).
Definition render (doc : Doc) (width : Z) : option string :=
  fst <$> render_protected doc width default_style.
