(* ===== verification/DocFacts.v ===== *)
(** The renderer as a step relation: termination of [fits] and of the render loop,
    flat layout, and what every step preserves. *)
From Stdlib Require Import Ascii String.
From S2P Require Import Prelude Doc.
From stdpp Require Import relations.
From stdpp Require Import options.
Open Scope Z_scope.

(** * Strings *)
Lemma str_app_nil_r (s : string) : s +:+ "" = s.
Proof. induction s as [|c s IH]; [done|]. change (String c (s +:+ "") = String c s). by rewrite IH. Qed.
Lemma str_app_assoc (a b c : string) : (a +:+ b) +:+ c = a +:+ (b +:+ c).
Proof.
  induction a as [|x a IH]; [done|].
  change (String x ((a +:+ b) +:+ c) = String x (a +:+ (b +:+ c))). by rewrite IH.
Qed.
Lemma width_of_app a b : width_of (a +:+ b) = width_of a + width_of b.
Proof.
  induction a as [|x a IH]; [done|]. change (width_of (String x (a +:+ b)) =
    width_of (String x a) + width_of b). simpl. rewrite IH. lia.
Qed.
Lemma width_of_nonneg s : 0 ≤ width_of s.
Proof. induction s; simpl; [done|]. case_match; lia. Qed.
Lemma has_newline_app a b : has_newline (a +:+ b) = has_newline a || has_newline b.
Proof.
  induction a as [|x a IH]; [done|]. change (has_newline (String x (a +:+ b)) =
    has_newline (String x a) || has_newline b). simpl. by rewrite IH, orb_assoc.
Qed.
Lemma after_last_newline_none s : has_newline s = false → after_last_newline s = None.
Proof.
  induction s as [|c s IH]; simpl; [done|]. intros [Hc Hs]%orb_false_iff.
  by rewrite IH, Hc.
Qed.

(** * Sizes *)
Lemma stack_size_cons it l : stack_size (it :: l) = (doc_size it.2 + stack_size l)%nat.
Proof. done. Qed.
Lemma stack_size_app l k : stack_size (l ++ k) = (stack_size l + stack_size k)%nat.
Proof. unfold stack_size. by rewrite map_app, list_sum_app. Qed.
Lemma stack_size_docs i m docs :
  stack_size (map (λ d, (i, m, d)) docs) = list_sum (map doc_size docs).
Proof. unfold stack_size. rewrite map_map. done. Qed.
Lemma doc_size_pos d : (1 ≤ doc_size d)%nat.
Proof. destruct d; simpl; lia. Qed.

Lemma fits_item_size rem it rem' pushed :
  fits_item rem it = inr (rem', pushed) → (stack_size pushed < doc_size it.2)%nat.
Proof.
  destruct it as [[i m] d]. destruct d; simpl; intros H; repeat case_match; simplify_eq;
    rewrite ?stack_size_docs; unfold stack_size; simpl; lia.
Qed.

(** * [fits] over one stack *)
Lemma fits_loop_app fuel rem local rest :
  fits_loop fuel rem local rest = fits_loop fuel rem (local ++ rest) [].
Proof.
  revert rem local rest. induction fuel as [|fuel IH]; intros rem local rest; [done|].
  simpl. case_match; [done|]. destruct local as [|it local]; simpl.
  - destruct rest as [|it rest]; [done|]. case_match; [done|]. case_match.
    by rewrite IH.
  - case_match; [done|]. case_match. by rewrite IH, <-app_assoc.
Qed.

Lemma fits_loop_enough n m rem l :
  (stack_size l < n)%nat → (stack_size l < m)%nat →
  fits_loop n rem l [] = fits_loop m rem l [] ∧ is_Some (fits_loop n rem l []).
Proof.
  revert m rem l. induction n as [|n IH]; intros [|m] rem l Hn Hm; [lia..|]. simpl.
  case_match; [by eauto|]. destruct l as [|it l]; [by eauto|].
  destruct (fits_item rem it) as [|[rem' pushed]] eqn:E; [by eauto|].
  apply fits_item_size in E. rewrite stack_size_cons in *.
  apply IH; rewrite stack_size_app; lia.
Qed.

(** The look-ahead as a total predicate on the stack it scans. *)
Definition fitsb (rem : Z) (l : list Item) : bool :=
  default false (fits_loop (S (stack_size l)) rem l []).

Lemma fitsb_loop n rem l : (stack_size l < n)%nat → fits_loop n rem l [] = Some (fitsb rem l).
Proof.
  intros Hn. unfold fitsb.
  destruct (fits_loop_enough n (S (stack_size l)) rem l) as [-> [b Hb]]; [lia..|].
  destruct (fits_loop_enough (S (stack_size l)) (S (stack_size l)) rem l) as [_ [b' ->]]; [lia..|].
  done.
Qed.

Lemma fits_total rem i d rest : fits rem i d rest = Some (fitsb rem ((i, Flat, d) :: rest)).
Proof. unfold fits. rewrite fits_loop_app. apply fitsb_loop. unfold stack_size. simpl. lia. Qed.

Lemma fitsb_nil rem : fitsb rem [] = negb (rem <? 0).
Proof. unfold fitsb. simpl. by case_match. Qed.

Lemma fitsb_cons rem it l :
  fitsb rem (it :: l) =
  negb (rem <? 0) && match fits_item rem it with
                     | inl b => b
                     | inr (rem', pushed) => fitsb rem' (pushed ++ l)
                     end.
Proof.
  unfold fitsb at 1. cbn [fits_loop]. case_match; [done|]. simpl.
  destruct (fits_item rem it) as [|[rem' pushed]] eqn:E; [done|].
  apply fits_item_size in E. rewrite fitsb_loop; [done|].
  rewrite stack_size_app. change (stack_size (it :: l)) with (doc_size it.2 + stack_size l)%nat. lia.
Qed.

(** * The render loop as steps *)
Section Steps.
  Context (width : Z) (style : IndentStyle).

Inductive step : Render * list Item → Render * list Item → Prop :=
| step_item st it stack next :
    render_item width style st it stack = Some next → step (st, it :: stack) next.

Lemma render_item_total st it stack : ∃ next, render_item width style st it stack = Some next.
Proof.
  destruct it as [[i m] d].
  destruct d; simpl; eauto; try (destruct m; by eauto). rewrite fits_total. eauto.
Qed.

Lemma step_shrinks c c' : step c c' → (stack_size c'.2 < stack_size c.2)%nat.
Proof.
  intros [st [[i m] d] stack next H]. cbn [snd]. rewrite stack_size_cons. cbn [snd].
  destruct d; simpl in H |- *; repeat case_match; simplify_eq; cbn [snd];
    rewrite ?stack_size_app, ?stack_size_docs, ?stack_size_cons; simpl; lia.
Qed.

(** The loop is the closure of the steps, with [doc_size] fuel enough. *)
Lemma render_loop_steps fuel st stack :
  (stack_size stack ≤ fuel)%nat →
  ∃ r, render_loop fuel width style st stack = Some r ∧ rtc step (st, stack) (r, []).
Proof.
  revert st stack. induction fuel as [|fuel IH]; intros st [|it stack] Hf;
    try (exists st; split; [done|apply rtc_refl]).
  - pose proof (doc_size_pos it.2). rewrite stack_size_cons in Hf. lia.
  - destruct (render_item_total st it stack) as [[st' stack'] E].
    assert (step (st, it :: stack) (st', stack')) as Hstep by by constructor.
    destruct (IH st' stack') as (r & Hr & Hsteps).
    { apply step_shrinks in Hstep. simpl in Hstep. lia. }
    exists r. simpl. rewrite E. split; [done|]. by eapply rtc_l.
Qed.

Lemma step_det c c1 c2 : step c c1 → step c c2 → c1 = c2.
Proof. intros [st it stack next H] H2. inversion H2; subst. congruence. Qed.

Lemma steps_det c r r' : rtc step c (r, []) → rtc step c (r', []) → r = r'.
Proof.
  intros H. remember (r, []) as e eqn:He. revert He. induction H as [x|x y z Hxy Hyz IH]; intros ->.
  - intros H. inversion H as [|? ? ? Hs]; subst; [done|]. inversion Hs.
  - intros H. apply IH; [done|]. inversion H as [|? y' ? Hs ?]; subst; [inversion Hxy|].
    by rewrite (step_det _ _ _ Hxy Hs).
Qed.
End Steps.

(** * Flat layout *)

(** The text of a document laid out flat. *)
Fixpoint flat_text (d : Doc) : string :=
  match d with
  | Nil | SoftLine | HardLine | IfBreak _ => ""
  | Text s | RawText s => s
  | Line => String space ""
  | Concat docs => fold_right (λ d acc, flat_text d +:+ acc) "" docs
  | Nest _ d | Group d => flat_text d
  end.
Definition flat_texts (docs : list Doc) : string := fold_right (λ d acc, flat_text d +:+ acc) "" docs.

(** No literal text holds a newline: the debug assertion of [Doc::text]. *)
Fixpoint texts_on_a_line (d : Doc) : bool :=
  match d with
  | Text s => negb (has_newline s)
  | Concat docs => all texts_on_a_line docs
  | Nest _ d | Group d | IfBreak d => texts_on_a_line d
  | _ => true
  end.

(** [emitted st s st']: the step from [st] to [st'] wrote [s] on the current line. *)
Definition emitted (st : Render) (s : string) (st' : Render) : Prop :=
  out st' = out st +:+ s ∧ col st' = col st + width_of s.

Lemma emitted_nil st : emitted st "" st.
Proof. split; [by rewrite str_app_nil_r|simpl; lia]. Qed.
Lemma emitted_trans st s st' s' st'' :
  emitted st s st' → emitted st' s' st'' → emitted st (s +:+ s') st''.
Proof.
  intros [Ho Hc] [Ho' Hc']. split.
  - by rewrite Ho', Ho, str_app_assoc.
  - rewrite Hc', Hc, width_of_app. lia.
Qed.

Section Flat.
  Context (width : Z) (style : IndentStyle).
  #[local] Notation steps := (rtc (step width style)).

(** A document that writes [flat_text d] wherever it is rendered in mode [m], given
    what the look-ahead says about the stack it starts on. *)
Definition lays_flat (m : Mode) (d : Doc) : Prop := ∀ st i rest,
  (m = Flat → fitsb (width - col st) ((i, m, d) :: rest) = true) →
  ∃ st', steps (st, (i, m, d) :: rest) (st', rest) ∧ emitted st (flat_text d) st' ∧
         (m = Flat → fitsb (width - col st') rest = true) ∧
         (texts_on_a_line d = true → has_newline (flat_text d) = false).

Lemma one_step st it stack next stack' :
  render_item width style st it stack = Some (next, stack') →
  steps (st, it :: stack) (next, stack').
Proof. intros. apply rtc_once. by constructor. Qed.

Lemma lays_flat_docs m docs st i rest :
  list_all Doc (lays_flat m) docs →
  (m = Flat → fitsb (width - col st) (map (λ d, (i, m, d)) docs ++ rest) = true) →
  ∃ st', steps (st, map (λ d, (i, m, d)) docs ++ rest) (st', rest) ∧
         emitted st (flat_texts docs) st' ∧ (m = Flat → fitsb (width - col st') rest = true) ∧
         (all texts_on_a_line docs = true → has_newline (flat_texts docs) = false).
Proof.
  intros H. revert st. induction H as [|d Hd docs _ IH]; intros st Hfit.
  - exists st. split; [apply rtc_refl|]. split; [apply emitted_nil|done].
  - destruct (Hd st i (map (λ d, (i, m, d)) docs ++ rest)) as (st1 & Hs1 & He1 & Hf1 & Hn1);
      [done|].
    destruct (IH st1 Hf1) as (st2 & Hs2 & He2 & Hf2 & Hn2).
    exists st2. split; [by etrans|]. split; [by eapply emitted_trans|]. split; [done|].
    simpl. intros [??]%andb_true_iff. rewrite has_newline_app, Hn1, Hn2; done.
Qed.

Lemma flat_step m d st i rest st' :
  (∀ rem, ∃ rem', fits_item rem (i, m, d) = inr (rem', []) ∧
                  rem' = rem - width_of (flat_text d)) →
  (m = Flat → fitsb (width - col st) ((i, m, d) :: rest) = true) →
  render_item width style st (i, m, d) rest = Some (st', rest) →
  emitted st (flat_text d) st' →
  (texts_on_a_line d = true → has_newline (flat_text d) = false) →
  ∃ st', steps (st, (i, m, d) :: rest) (st', rest) ∧ emitted st (flat_text d) st' ∧
         (m = Flat → fitsb (width - col st') rest = true) ∧
         (texts_on_a_line d = true → has_newline (flat_text d) = false).
Proof.
  intros Hi Hfit Hr He Hn. exists st'. split; [by apply one_step|]. split; [done|].
  split; [|done]. intros ->. specialize (Hfit eq_refl). rewrite fitsb_cons in Hfit.
  destruct (Hi (width - col st)) as (rem' & Hr' & ->). rewrite Hr' in Hfit.
  apply andb_true_iff in Hfit as [_ Hfit]. simpl in Hfit. destruct He as [_ ->].
  by replace (width - (col st + width_of (flat_text d)))
    with (width - col st - width_of (flat_text d)) by lia.
Qed.

Lemma raw_emitted st s :
  has_newline s = false →
  emitted st s (mkRender (out st +:+ s)
    (protected st ++ [(String.length (out st), String.length (out st +:+ s))])
    (match after_last_newline s with Some tail => width_of tail | None => col st + width_of s end)).
Proof. intros H. rewrite after_last_newline_none by done. done. Qed.

(** In flat mode, a document the look-ahead accepts is laid out flat. *)
Lemma flat_lays_flat d : lays_flat Flat d.
Proof.
  induction d as [|s|s| | | |docs IH|n d IH|d IH|d IH]; intros st i rest Hfit;
    try (eapply flat_step; [|done|done|apply emitted_nil|done]; intros rem; eexists; split;
         [done|simpl; lia]).
  - eapply flat_step; [intros rem; eexists; split|..]; try done. by intros ?%negb_true_iff.
  - destruct (has_newline s) eqn:Hs.
    + specialize (Hfit eq_refl). rewrite fitsb_cons in Hfit. simpl in Hfit.
      rewrite Hs, andb_false_r in Hfit. done.
    + eapply flat_step; [|done|done|by apply raw_emitted|done].
      intros rem. simpl. rewrite Hs. eauto.
  - by eapply flat_step; [intros rem; eexists; split|..].
  - specialize (Hfit eq_refl). rewrite fitsb_cons in Hfit. simpl in Hfit.
    by rewrite andb_false_r in Hfit.
  - destruct (lays_flat_docs Flat docs st i rest IH) as (st' & Hs & He & Hf & Hn).
    { intros _. specialize (Hfit eq_refl). rewrite fitsb_cons in Hfit. by bool_to_prop. }
    exists st'. split; [|done]. by etrans; [apply one_step|].
  - destruct (IH st (i + n) rest) as (st' & Hs & He & Hf & Hn).
    { intros _. specialize (Hfit eq_refl). rewrite fitsb_cons in Hfit. by bool_to_prop. }
    exists st'. split; [|done]. by etrans; [apply one_step|].
  - assert (fitsb (width - col st) ((i, Flat, d) :: rest) = true) as Hd.
    { specialize (Hfit eq_refl). rewrite fitsb_cons in Hfit. by bool_to_prop. }
    destruct (IH st i rest) as (st' & Hs & He & Hf & Hn); [done|].
    exists st'. split; [|done]. etrans; [apply one_step|done].
    simpl. by rewrite fits_total, Hd.
Qed.

(** A document that never breaks is laid out flat at every width and mode. *)
Lemma never_breaks_lays_flat d m st i rest :
  never_breaks d = true →
  ∃ st', steps (st, (i, m, d) :: rest) (st', rest) ∧ emitted st (flat_text d) st'.
Proof.
  revert m st i rest. induction d as [|s|s| | | |docs IH|n d IH|d IH|d IH];
    intros m st i rest H; try discriminate H; simpl in H.
  - exists st. split; [by apply one_step|apply emitted_nil].
  - eexists. split; [by apply one_step|done].
  - apply negb_true_iff in H. eexists. split; [by apply one_step|by apply raw_emitted].
  - enough (∃ st', steps (st, map (λ d, (i, m, d)) docs ++ rest) (st', rest) ∧
      emitted st (flat_texts docs) st') as (st' & Hs & He).
    { exists st'. split; [|done]. by etrans; [apply one_step|]. }
    revert st. induction IH as [|d Hd docs _ IH]; intros st.
    + exists st. split; [apply rtc_refl|apply emitted_nil].
    + simpl in H. apply andb_true_iff in H as [H1 H2].
      destruct (Hd m st i (map (λ d, (i, m, d)) docs ++ rest) H1) as (st1 & Hs1 & He1).
      destruct (IH H2 st1) as (st2 & Hs2 & He2).
      exists st2. split; [by etrans|by eapply emitted_trans].
  - destruct (IH m st (i + n) rest H) as (st' & Hs & He).
    exists st'. split; [|done]. by etrans; [apply one_step|].
  - destruct (IH (if fitsb (width - col st) ((i, Flat, d) :: rest) then Flat else Break)
      st i rest H) as (st' & Hs & He).
    exists st'. split; [|done]. etrans; [apply one_step|done].
    simpl. by rewrite fits_total.
Qed.
End Flat.
