(* ===== verification/DocProps.v ===== *)
(** Properties of the document renderer: totality, the flat layout of a group that
    fits, documents that never break, content preservation, protected ranges. *)
From Stdlib Require Import Ascii String.
From S2P Require Import Prelude Doc DocFacts.
From stdpp Require Import relations.
From stdpp Require Import options.
Open Scope Z_scope.

(** * Content *)

(** The non-blank characters of a string. *)
Definition blank (c : ascii) : bool :=
  (c =? space)%char || (c =? tab)%char || (c =? newline)%char.
Definition ink (s : string) : list ascii :=
  List.filter (λ c, negb (blank c)) (list_ascii_of_string s).

(** The ink of a document, with or without the content of its [IfBreak]s. *)
Fixpoint doc_ink (keep : bool) (d : Doc) : list ascii :=
  match d with
  | Nil | Line | SoftLine | HardLine => []
  | Text s | RawText s => ink s
  | Concat docs => concat (map (doc_ink keep) docs)
  | Nest _ d | Group d => doc_ink keep d
  | IfBreak d => if keep then doc_ink keep d else []
  end.

(** The raw texts of a document, likewise. *)
Fixpoint doc_raws (keep : bool) (d : Doc) : list string :=
  match d with
  | RawText s => [s]
  | Concat docs => concat (map (doc_raws keep) docs)
  | Nest _ d | Group d => doc_raws keep d
  | IfBreak d => if keep then doc_raws keep d else []
  | _ => []
  end.

(** What the items still on the stack contribute. *)
Definition pending {A} (f : Doc → list A) (stack : list Item) : list A :=
  concat (map (λ it, f it.2) stack).

(** The ranges are in order, within [lo .. hi]. *)
Fixpoint ordered (lo : nat) (l : list (nat * nat)) (hi : nat) : Prop :=
  match l with
  | [] => (lo ≤ hi)%nat
  | (a, b) :: l => (lo ≤ a ≤ b)%nat ∧ ordered b l hi
  end.
(** [range] of [o] is the text [r]. *)
Definition slices (o : string) (range : nat * nat) (r : string) : Prop :=
  substring range.1 (range.2 - range.1) o = r ∧ (range.1 ≤ range.2 ≤ String.length o)%nat.

Fixpoint if_break_free (d : Doc) : bool :=
  match d with
  | Concat docs => all if_break_free docs
  | Nest _ d | Group d => if_break_free d
  | IfBreak _ => false
  | _ => true
  end.

(** * Helper lemmas *)
Lemma ink_app a b : ink (a +:+ b) = ink a ++ ink b.
Proof.
  unfold ink. induction a as [|x a IH]; [done|].
  change (list_ascii_of_string (String x a +:+ b)) with (x :: list_ascii_of_string (a +:+ b)).
  simpl. case_match; [|done]. simpl. by rewrite IH.
Qed.

Lemma ink_repeat c n : blank c = true → ink (repeat_char c n) = [].
Proof. intros Hc. unfold ink. induction n; simpl; [done|]. by rewrite Hc. Qed.

Lemma ink_new_line indent style : ink (new_line_text indent style) = [].
Proof.
  unfold new_line_text. case_match; change (ink (String newline ?s)) with (ink s);
    by apply ink_repeat.
Qed.

Lemma str_length_app a b : String.length (a +:+ b) = (String.length a + String.length b)%nat.
Proof.
  induction a as [|x a IH]; [done|].
  change (S (String.length (a +:+ b)) = S (String.length a + String.length b)). by rewrite IH.
Qed.

Lemma substring_whole r : substring 0 (String.length r) r = r.
Proof. induction r as [|c r IH]; simpl; [done|]. by rewrite IH. Qed.

Lemma substring_end a r : substring (String.length a) (String.length r) (a +:+ r) = r.
Proof. induction a as [|x a IH]; [apply substring_whole|exact IH]. Qed.

Lemma substring_app a i n b :
  (i + n ≤ String.length a)%nat → substring i n (a +:+ b) = substring i n a.
Proof.
  revert i n. induction a as [|x a IH]; intros i n Hi; simpl in Hi.
  - assert (i = 0 ∧ n = 0)%nat as [-> ->] by lia. by destruct b.
  - destruct i as [|i]; [destruct n as [|n]|]; simpl.
    + done.
    + f_equal. apply (IH 0%nat). lia.
    + apply IH. lia.
Qed.

Lemma slices_app o b range r : slices o range r → slices (o +:+ b) range r.
Proof.
  destruct range as [x y]. unfold slices; simpl. intros [Hs Hl]. rewrite str_length_app.
  split; [|lia]. by rewrite substring_app by lia.
Qed.

Lemma slices_new o r : slices (o +:+ r) (String.length o, String.length (o +:+ r)) r.
Proof.
  unfold slices; simpl. rewrite str_length_app. split; [|lia].
  replace (String.length o + String.length r - String.length o)%nat with (String.length r) by lia.
  apply substring_end.
Qed.

Lemma ordered_weaken lo l hi hi' : (hi ≤ hi')%nat → ordered lo l hi → ordered lo l hi'.
Proof. revert lo. induction l as [|[a b] l IH]; intros lo; simpl; [lia|]. naive_solver. Qed.

Lemma ordered_snoc lo l a b : (a ≤ b)%nat → ordered lo l a → ordered lo (l ++ [(a, b)]) b.
Proof. revert lo. induction l as [|[x y] l IH]; intros lo; simpl; [lia|]. naive_solver. Qed.

Lemma pending_docs {A} (f : Doc → list A) i m docs stack :
  pending f (map (λ d, (i, m, d)) docs ++ stack) = concat (map f docs) ++ pending f stack.
Proof. unfold pending. by rewrite map_app, concat_app, map_map. Qed.

Lemma pending_cons {A} (f : Doc → list A) it stack :
  pending f (it :: stack) = f it.2 ++ pending f stack.
Proof. done. Qed.

(** * What a step preserves *)

(** The output's ink lies between the document's with and without [IfBreak]s; the
    protected ranges are in order and hold the raw texts written so far. *)
Record layout_inv (d : Doc) (c : Render * list Item) : Prop := {
  inv_ink_low : doc_ink false d `sublist_of` ink (out c.1) ++ pending (doc_ink false) c.2;
  inv_ink_high : ink (out c.1) ++ pending (doc_ink true) c.2 `sublist_of` doc_ink true d;
  inv_raws : ∃ rs, Forall2 (slices (out c.1)) (protected c.1) rs ∧
    doc_raws false d `sublist_of` rs ++ pending (doc_raws false) c.2 ∧
    rs ++ pending (doc_raws true) c.2 `sublist_of` doc_raws true d;
  inv_ordered : ordered 0 (protected c.1) (String.length (out c.1))
}.

Section Preserved.
  Context (d : Doc).

(** Writing text that the popped item accounts for. *)
Lemma inv_write st it stack s st' :
  layout_inv d (st, it :: stack) →
  out st' = out st +:+ s → protected st' = protected st →
  (∀ keep, doc_ink keep it.2 = ink s) → (∀ keep, doc_raws keep it.2 = []) →
  layout_inv d (st', stack).
Proof.
  intros [Hl Hh (rs & Hs & Hrl & Hrh) Ho] Eo Ep Hi Hr.
  cbn [fst snd] in *.
  rewrite pending_cons in Hl, Hh. rewrite pending_cons in Hrl, Hrh. rewrite Hi in Hl, Hh. rewrite Hr in Hrl, Hrh.
  split; cbn [fst snd] in *; rewrite ?Eo, ?Ep, ?ink_app, <-?app_assoc; try done.
  - exists rs. split; [|done]. eapply Forall2_impl; [done|]. intros. by apply slices_app.
  - eapply ordered_weaken; [|done]. rewrite str_length_app. lia.
Qed.

(** Replacing the popped item by items that contribute the same. *)
Lemma inv_push st it stack stack' :
  layout_inv d (st, it :: stack) →
  (∀ keep, doc_ink keep it.2 ++ pending (doc_ink keep) stack = pending (doc_ink keep) stack') →
  (∀ keep, doc_raws keep it.2 ++ pending (doc_raws keep) stack = pending (doc_raws keep) stack') →
  layout_inv d (st, stack').
Proof.
  intros [Hl Hh (rs & Hs & Hrl & Hrh) Ho] Hi Hr.
  cbn [fst snd] in *.
  rewrite pending_cons in Hl, Hh. rewrite pending_cons in Hrl, Hrh. rewrite Hi in Hl, Hh. rewrite Hr in Hrl, Hrh.
  split; cbn [fst snd] in *; try done. by exists rs.
Qed.

Lemma inv_raw st i m s stack c :
  layout_inv d (st, (i, m, RawText s) :: stack) →
  layout_inv d (mkRender (out st +:+ s)
    (protected st ++ [(String.length (out st), String.length (out st +:+ s))]) c, stack).
Proof.
  intros [Hl Hh (rs & Hs & Hrl & Hrh) Ho].
  cbn [fst snd] in *.
  rewrite pending_cons in Hl, Hh. rewrite pending_cons in Hrl, Hrh.
  split; cbn [fst snd out protected doc_ink doc_raws] in *;
    rewrite ?ink_app, <-?app_assoc; try done.
  - exists (rs ++ [s]). rewrite <-!app_assoc. split; [|done]. apply Forall2_app.
    + eapply Forall2_impl; [done|]. intros. by apply slices_app.
    + constructor; [apply slices_new|constructor].
  - apply ordered_snoc; [rewrite str_length_app; lia|done].
Qed.

Lemma inv_skip st i m d' stack stack' :
  layout_inv d (st, (i, m, IfBreak d') :: stack) →
  stack' = stack ∨ stack' = (i, m, d') :: stack →
  layout_inv d (st, stack').
Proof.
  intros [Hl Hh (rs & Hs & Hrl & Hrh) Ho] Hst. cbn [fst snd] in *.
  rewrite pending_cons in Hl, Hh. rewrite pending_cons in Hrl, Hrh.
  split; cbn [fst snd doc_ink doc_raws] in *; try done.
  - etrans; [apply Hl|]. apply sublist_app; [done|]. destruct Hst as [-> | ->]; [done|].
    rewrite pending_cons. by apply sublist_inserts_l.
  - etrans; [|apply Hh]. apply sublist_app; [done|]. destruct Hst as [-> | ->]; [|done].
    by apply sublist_inserts_l.
  - exists rs. split; [done|]. split.
    + etrans; [apply Hrl|]. apply sublist_app; [done|]. destruct Hst as [-> | ->]; [done|].
      rewrite pending_cons. by apply sublist_inserts_l.
    + etrans; [|apply Hrh]. apply sublist_app; [done|]. destruct Hst as [-> | ->]; [|done].
      by apply sublist_inserts_l.
Qed.

Lemma step_inv width style c c' : step width style c c' → layout_inv d c → layout_inv d c'.
Proof.
  intros [st [[i m] d'] stack next H] Hinv. destruct d'; simpl in H; simplify_eq.
  - eapply inv_push; done.
  - by eapply inv_write.
  - by eapply inv_raw.
  - destruct m; simplify_eq.
    + by eapply (inv_write _ _ _ (String space "")).
    + eapply (inv_write _ _ _ (new_line_text i style)); try done. intros keep. by rewrite ink_new_line.
  - destruct m; simplify_eq; [eapply inv_push; done|].
    eapply (inv_write _ _ _ (new_line_text i style)); try done. intros keep. by rewrite ink_new_line.
  - eapply (inv_write _ _ _ (new_line_text i style)); try done. intros keep. by rewrite ink_new_line.
  - eapply inv_push; [done|..]; intros keep; by rewrite pending_docs.
  - eapply inv_push; done.
  - case_match; simplify_eq. eapply inv_push; done.
  - eapply inv_skip; [done|]. destruct m; auto.
Qed.
End Preserved.

(** * From steps to the renderer *)
Lemma render_steps d width style :
  ∃ r, render_protected d width style = Some (out r, protected r) ∧
       rtc (step width style) (mkRender "" [] 0, [(0, Break, d)]) (r, []).
Proof.
  destruct (render_loop_steps width style (doc_size d) (mkRender "" [] 0) [(0, Break, d)])
    as (r & Hr & Hs); [unfold stack_size; simpl; lia|].
  exists r. split; [|done]. unfold render_protected. by rewrite Hr.
Qed.

Lemma render_inv d width style o ps :
  render_protected d width style = Some (o, ps) →
  ∃ c, layout_inv d (mkRender o ps c, []).
Proof.
  intros H. destruct (render_steps d width style) as (r & Hr & Hs). rewrite H in Hr.
  simplify_eq. exists (col r). destruct r as [o p c]; simpl.
  assert (layout_inv d (mkRender "" [] 0, [(0, Break, d)])) as H0.
  { split; simpl; unfold pending; simpl; rewrite ?app_nil_r; try done.
    exists []. done. }
  revert H0. generalize (mkRender "" [] 0, [(0, Break, d)]) as c0, Hs. clear.
  intros c0 Hs. remember (mkRender o p c, []) as c1 eqn:Hc1.
  induction Hs as [|x y z Hxy _ IH]; [done|]. intros Hx. by eapply IH, step_inv.
Qed.

Lemma if_break_free_same d :
  if_break_free d = true →
  doc_ink false d = doc_ink true d ∧ doc_raws false d = doc_raws true d.
Proof.
  induction d as [| | | | | |docs IH|n d IH|d IH|d IH]; simpl; try done.
  induction IH as [|d Hd docs _ IH]; simpl; [done|]. intros [H1 H2]%andb_true_iff.
  destruct (Hd H1) as [-> ->], (IH H2) as [-> ->]. done.
Qed.

Lemma never_breaks_no_newline d :
  never_breaks d = true → texts_on_a_line d = true → has_newline (flat_text d) = false.
Proof.
  induction d as [|s|s| | | |docs IH|n d IH|d IH|d IH]; simpl; try done;
    try (intros ?%negb_true_iff ?; done); try (intros ? ?%negb_true_iff; done).
  induction IH as [|d Hd docs _ IH]; simpl; [done|].
  intros [??]%andb_true_iff [??]%andb_true_iff. rewrite has_newline_app, Hd, IH; done.
Qed.

(** * The theorems *)

(** The renderer is total: its work stack empties within [doc_size] iterations and
    every look-ahead answers, at every width and indentation style. *)
Theorem render_total d width style : ∃ o ps, render_protected d width style = Some (o, ps).
Proof. destruct (render_steps d width style) as (r & Hr & _). eauto. Qed.

(** A group that [fits] is written on the current line: the renderer emits exactly
    its flat text, without a newline, and ends within the width. *)
Theorem fitting_group_stays_on_the_line width style st i m d stack :
  texts_on_a_line d = true →
  fits (width - col st) i d stack = Some true →
  ∃ st', rtc (step width style) (st, (i, m, Group d) :: stack) (st', stack) ∧
         out st' = out st +:+ flat_text d ∧ has_newline (flat_text d) = false ∧
         col st' = col st + width_of (flat_text d) ∧ col st' ≤ width.
Proof.
  intros Hd Hfit. pose proof Hfit as Hb. rewrite fits_total in Hb. injection Hb as Hb.
  destruct (flat_lays_flat width style d st i stack) as (st' & Hs & [Ho Hc] & Hf & Hn); [done|].
  exists st'. split; [|split; [done|split; [by apply Hn|split; [done|]]]].
  - etrans; [apply one_step|apply Hs]. simpl. by rewrite Hfit.
  - specialize (Hf eq_refl). destruct stack as [|it stack];
      [rewrite fitsb_nil in Hf|rewrite fitsb_cons in Hf; apply andb_true_iff in Hf as [Hf _]];
      apply negb_true_iff, Z.ltb_ge in Hf; lia.
Qed.

(** A document that [never_breaks] renders to its flat text, on a single line, at
    every width and indentation style. *)
Theorem never_breaks_renders_flat d width style :
  never_breaks d = true → texts_on_a_line d = true →
  (∃ ps, render_protected d width style = Some (flat_text d, ps)) ∧
  has_newline (flat_text d) = false.
Proof.
  intros Hn Ht. split; [|by apply never_breaks_no_newline].
  destruct (render_steps d width style) as (r & Hr & Hs).
  destruct (never_breaks_lays_flat width style d Break (mkRender "" [] 0) 0 [] Hn)
    as (r' & Hs' & Ho & _).
  exists (protected r). rewrite Hr. f_equal. f_equal.
  rewrite (steps_det _ _ _ _ _ Hs Hs'), Ho. done.
Qed.

(** C36. Rendering changes white space only: the output's non-blank characters are those
    of the document in order, an [IfBreak]'s kept or dropped; without [IfBreak]s they are
    the same at every width and indentation style. *)
Theorem render_preserves_ink d width style o ps :
  render_protected d width style = Some (o, ps) →
  doc_ink false d `sublist_of` ink o ∧ ink o `sublist_of` doc_ink true d ∧
  (if_break_free d = true → ink o = doc_ink true d).
Proof.
  intros [c [Hl Hh _ _]]%render_inv. simpl in Hl, Hh. unfold pending in Hl, Hh. simpl in Hl, Hh.
  rewrite app_nil_r in Hl, Hh. split; [done|split; [done|]].
  intros [E _]%if_break_free_same. rewrite E in Hl.
  apply (anti_symm sublist); done.
Qed.

(** The protected ranges are in order, disjoint and within the output, and slice out
    exactly the verbatim texts of the document (an [IfBreak]'s kept or dropped), so a
    trim that skips them touches no verbatim byte. *)
Theorem protected_ranges_are_the_raw_texts d width style o ps :
  render_protected d width style = Some (o, ps) →
  ordered 0 ps (String.length o) ∧
  ∃ rs, Forall2 (slices o) ps rs ∧
    doc_raws false d `sublist_of` rs ∧ rs `sublist_of` doc_raws true d.
Proof.
  intros [c [_ _ (rs & Hs & Hl & Hh) Ho]]%render_inv. split; [done|].
  exists rs. unfold pending in Hl, Hh. simpl in Hl, Hh. rewrite app_nil_r in Hl, Hh. done.
Qed.

Module DocExample.
(** [f(] softline [a,] line [b] if-break[,] softline [)], grouped and nested. *)
Definition call : Doc :=
  Group (Concat [Text "f("; Nest 4 (Concat [SoftLine; Text "a,"; Line; RawText "b";
    IfBreak (Text ",")]); SoftLine; Text ")"]).
Definition start : Render := mkRender "" [] 0.

Lemma fitting_group_stays_on_the_line_witness :
  ∃ st', rtc (step 20 default_style) (start, [(0, Break, call)]) (st', []) ∧
         out st' = "f(a, b)" ∧ col st' ≤ 20.
Proof.
  destruct (fitting_group_stays_on_the_line 20 default_style start 0 Break
    (Concat [Text "f("; Nest 4 (Concat [SoftLine; Text "a,"; Line; RawText "b";
      IfBreak (Text ",")]); SoftLine; Text ")"]) []) as (st' & Hs & Ho & _ & _ & Hc);
    [reflexivity|reflexivity|].
  exists st'. split; [exact Hs|]. split; [exact Ho|exact Hc].
Defined.

Lemma never_breaks_renders_flat_witness :
  (∃ ps, render_protected (Concat [Text "x = "; Group (RawText "[1]")]) 3 default_style =
         Some ("x = [1]", ps)) ∧ has_newline "x = [1]" = false.
Proof.
  apply (never_breaks_renders_flat (Concat [Text "x = "; Group (RawText "[1]")]) 3 default_style);
    reflexivity.
Defined.

Lemma render_preserves_ink_witness :
  ∃ o ps, render_protected call 4 default_style = Some (o, ps) ∧
    ink o = ink "f(a,b,)" ∧ doc_ink false call `sublist_of` ink o.
Proof.
  eexists _, _. split; [reflexivity|]. split; [reflexivity|].
  eapply (render_preserves_ink call 4 default_style). reflexivity.
Defined.

Lemma protected_ranges_are_the_raw_texts_witness :
  ∃ o ps, render_protected call 4 default_style = Some (o, ps) ∧ ps = [(14, 15)]%nat ∧
    ordered 0 ps (String.length o).
Proof.
  eexists _, _. split; [reflexivity|]. split; [reflexivity|].
  eapply (protected_ranges_are_the_raw_texts call 4 default_style). reflexivity.
Defined.
End DocExample.
