(* ===== verification/Reactive.v ===== *)
(** The reactive graph: [crates/noeta-reactive/src/lib.rs], with the node ids of
    [crates/noeta-reactive-abi/src/lib.rs].

    A [NodeId] is its table index.  [Inner] has the fields of the [RefCell]'s interior
    less the two scratch buffers, whose contents no operation reads; the stacks
    [computing] and [free] are lists with their top first.  Every operation is a
    function of [Inner] that answers [None] where the code panics: an index out of
    range, [expect] on [None], a failed [debug_assert], a counter below zero.  The
    callback [run] of [read] and [flush] is a parameter: it may call the graph again,
    so it maps a body and a state to a value and a state. *)
From S2P Require Import Prelude.
From stdpp Require Import sorting options.

Abbreviation NodeId := nat.

(** [MAX_FLUSH_STEPS]. *)
Definition MAX_FLUSH_STEPS : Z := 10000.

Inductive NodeKind := Signal | Computed | Effect.
#[export] Instance NodeKind_eq_dec : EqDecision NodeKind.
Proof. solve_decision. Defined.

Definition type_name (k : NodeKind) : string :=
  match k with Signal => "Signal" | Computed => "Computed" | Effect => "Effect" end.

(** [Result<(), FlushOverflow>]. *)
Inductive FlushResult := Settled | FlushOverflow.

Record Node (V : Type) := mkNode {
  kind : NodeKind;
  live : bool;
  dirty : bool;
  queued : bool;
  sources : list NodeId;
  subscribers : list NodeId;
  content : option V;
  body : option V;
  owner : option NodeId;
  owned : list NodeId;
}.
Arguments mkNode {V}.
Arguments kind {V} _.
Arguments live {V} _.
Arguments dirty {V} _.
Arguments queued {V} _.
Arguments sources {V} _.
Arguments subscribers {V} _.
Arguments content {V} _.
Arguments body {V} _.
Arguments owner {V} _.
Arguments owned {V} _.

Record Inner (V : Type) := mkInner {
  nodes : list (Node V);
  free : list NodeId;
  computing : list NodeId;
  dirty_computeds : nat;
  queue : list NodeId;
  reclaimed : list V;
  flushing : bool;
  observed : bool;
  changed : list NodeId;
}.
Arguments mkInner {V}.
Arguments nodes {V} _.
Arguments free {V} _.
Arguments computing {V} _.
Arguments dirty_computeds {V} _.
Arguments queue {V} _.
Arguments reclaimed {V} _.
Arguments flushing {V} _.
Arguments observed {V} _.
Arguments changed {V} _.

(** [Vec::swap_remove]: the last element takes the place of the removed one. *)
Definition swap_remove {A} (pos : nat) (l : list A) : list A :=
  match last l with Some z => removelast (<[pos := z]> l) | None => l end.

(** [if let Some(pos) = l.iter().position(|&y| y == x) { l.swap_remove(pos); }]. *)
Definition remove_id (x : NodeId) (l : list NodeId) : list NodeId :=
  match list_find (λ y, y = x) l with Some (pos, _) => swap_remove pos l | None => l end.

Section Fields.
  Context {V : Type}.
  Implicit Types (n : Node V) (s : Inner V).

(** Assignments to the fields of a node. *)
Definition set_dirty (b : bool) n : Node V :=
  mkNode (kind n) (live n) b (queued n) (sources n) (subscribers n) (content n) (body n)
    (owner n) (owned n).
Definition set_queued (b : bool) n : Node V :=
  mkNode (kind n) (live n) (dirty n) b (sources n) (subscribers n) (content n) (body n)
    (owner n) (owned n).
Definition set_sources (l : list NodeId) n : Node V :=
  mkNode (kind n) (live n) (dirty n) (queued n) l (subscribers n) (content n) (body n)
    (owner n) (owned n).
Definition set_subscribers (l : list NodeId) n : Node V :=
  mkNode (kind n) (live n) (dirty n) (queued n) (sources n) l (content n) (body n)
    (owner n) (owned n).
Definition set_content (v : option V) n : Node V :=
  mkNode (kind n) (live n) (dirty n) (queued n) (sources n) (subscribers n) v (body n)
    (owner n) (owned n).
Definition set_body (v : option V) n : Node V :=
  mkNode (kind n) (live n) (dirty n) (queued n) (sources n) (subscribers n) (content n) v
    (owner n) (owned n).
Definition set_owner (o : option NodeId) n : Node V :=
  mkNode (kind n) (live n) (dirty n) (queued n) (sources n) (subscribers n) (content n) (body n)
    o (owned n).
Definition set_owned (l : list NodeId) n : Node V :=
  mkNode (kind n) (live n) (dirty n) (queued n) (sources n) (subscribers n) (content n) (body n)
    (owner n) l.

(** Assignments to the fields of the interior. *)
Definition with_nodes (l : list (Node V)) s : Inner V :=
  mkInner l (free s) (computing s) (dirty_computeds s) (queue s) (reclaimed s) (flushing s)
    (observed s) (changed s).
Definition with_free (l : list NodeId) s : Inner V :=
  mkInner (nodes s) l (computing s) (dirty_computeds s) (queue s) (reclaimed s) (flushing s)
    (observed s) (changed s).
Definition with_computing (l : list NodeId) s : Inner V :=
  mkInner (nodes s) (free s) l (dirty_computeds s) (queue s) (reclaimed s) (flushing s)
    (observed s) (changed s).
Definition with_dirty_computeds (d : nat) s : Inner V :=
  mkInner (nodes s) (free s) (computing s) d (queue s) (reclaimed s) (flushing s)
    (observed s) (changed s).
Definition with_queue (l : list NodeId) s : Inner V :=
  mkInner (nodes s) (free s) (computing s) (dirty_computeds s) l (reclaimed s) (flushing s)
    (observed s) (changed s).
Definition with_reclaimed (l : list V) s : Inner V :=
  mkInner (nodes s) (free s) (computing s) (dirty_computeds s) (queue s) l (flushing s)
    (observed s) (changed s).
Definition with_flushing (b : bool) s : Inner V :=
  mkInner (nodes s) (free s) (computing s) (dirty_computeds s) (queue s) (reclaimed s) b
    (observed s) (changed s).
Definition with_observed (b : bool) s : Inner V :=
  mkInner (nodes s) (free s) (computing s) (dirty_computeds s) (queue s) (reclaimed s)
    (flushing s) b (changed s).
Definition with_changed (l : list NodeId) s : Inner V :=
  mkInner (nodes s) (free s) (computing s) (dirty_computeds s) (queue s) (reclaimed s)
    (flushing s) (observed s) l.

(** [self.nodes[x] = f(self.nodes[x])]. *)
Definition modify (x : NodeId) (f : Node V → Node V) s : option (Inner V) :=
  n ← nodes s !! x; Some (with_nodes (<[x := f n]> (nodes s)) s).

(** [self.dirty_computeds -= 1]. *)
Definition dirty_computeds_dec s : option (Inner V) :=
  match dirty_computeds s with
  | O => None
  | S d => Some (with_dirty_computeds d s)
  end.
End Fields.

Section ReactiveGraph.
  Context {V : Type}.
  Implicit Types (n : Node V) (s : Inner V).

(** [Node::placeholder]. *)
Definition placeholder : Node V := mkNode Signal false false false [] [] None None None [].

(** [ReactiveGraph::new]. *)
Definition new : Inner V := mkInner [] [] [] 0 [] [] false false [].

Definition record_dependency (source : NodeId) s : option (Inner V) :=
  match computing s with
  | [] => Some s
  | subscriber :: _ =>
      if decide (subscriber = source) then Some s
      else
        sub_node ← nodes s !! subscriber;
        if decide (source ∈ sources sub_node) then Some s
        else
          s ← modify subscriber (λ n, set_sources (sources n ++ [source]) n) s;
          modify source (λ n, set_subscribers (subscribers n ++ [subscriber]) n) s
  end.

Definition adopt (node : NodeId) s : option (Inner V) :=
  match computing s with
  | [] => Some s
  | owner :: _ =>
      s ← modify node (set_owner (Some owner)) s;
      modify owner (λ n, set_owned (owned n ++ [node]) n) s
  end.

(** The loop that stops [node] being a subscriber of its former sources. *)
Definition detach_from_sources (node : NodeId) (srcs : list NodeId) s : option (Inner V) :=
  fold_opt (λ src, modify src (λ n, set_subscribers (remove_id node (subscribers n)) n)) srcs s.

(** The loop that drops the edges of the former subscribers to [node]. *)
Definition detach_from_subscribers (node : NodeId) (subs : list NodeId) s : option (Inner V) :=
  fold_opt (λ sub, modify sub (λ n, set_sources (remove_id node (sources n)) n)) subs s.

(** The field resets at the end of [unhook_and_free]. *)
Definition vacate n : Node V :=
  mkNode (kind n) false false false (sources n) (subscribers n) None None None (owned n).

Definition unhook_and_free (node : NodeId) s : option (Inner V) :=
  n ← nodes s !! node;
  s ← modify node (set_sources []) s;
  s ← detach_from_sources node (sources n) s;
  n ← nodes s !! node;
  s ← modify node (set_subscribers []) s;
  s ← detach_from_subscribers node (subscribers n) s;
  n ← nodes s !! node;
  s ← (if bool_decide (kind n = Computed) && dirty n then dirty_computeds_dec s else Some s);
  s ← modify node vacate s;
  Some (with_free (node :: free s) s).

(** [if let Some(v) = o.take() { self.reclaimed.push(v); }]. *)
Definition reclaim (o : option V) s : Inner V :=
  match o with Some v => with_reclaimed (reclaimed s ++ [v]) s | None => s end.

Fixpoint dispose_subtree (fuel : nat) (node : NodeId) s : option (Inner V) :=
  match fuel with
  | O => None
  | S fuel =>
      n ← nodes s !! node;
      if negb (live n) then Some s
      else
        s ← modify node (set_owned []) s;
        s ← fold_opt (dispose_subtree fuel) (reverse (owned n)) s;
        n ← nodes s !! node;
        s ← modify node (set_content None) (reclaim (content n) s);
        n ← nodes s !! node;
        s ← modify node (set_body None) (reclaim (body n) s);
        unhook_and_free node s
  end.

(** One level per node of the owner tree. *)
Definition tree_fuel s : nat := S (length (nodes s)).

Definition dispose_owned (node : NodeId) s : option (Inner V) :=
  n ← nodes s !! node;
  s ← modify node (set_owned []) s;
  fold_opt (dispose_subtree (tree_fuel s)) (reverse (owned n)) s.

Definition begin_compute (node : NodeId) s : option (V * Inner V) :=
  s ← dispose_owned node s;
  n ← nodes s !! node;
  s ← modify node (set_sources []) s;
  s ← detach_from_sources node (sources n) s;
  let s := with_computing (node :: computing s) s in
  n ← nodes s !! node;
  b ← body n;
  Some (b, s).

(** The memo and the flag written by [end_compute]. *)
Definition memoize (result : option V) n : Node V :=
  set_dirty false (if decide (kind n = Computed) then set_content result n else n).

Definition end_compute (node : NodeId) (result : option V) s : option (Inner V) :=
  match computing s with
  | popped :: rest =>
      if decide (popped = node) then
        let s := with_computing rest s in
        n ← nodes s !! node;
        let was_dirty_computed := bool_decide (kind n = Computed) && dirty n in
        s ← modify node (memoize result) s;
        if was_dirty_computed then dirty_computeds_dec s else Some s
      else None
  | [] => None
  end.

(** The body of the walk's inner loop: what a change does to one subscriber. *)
Definition mark_subscriber (sub : NodeId) (st : list NodeId * Inner V) :
    option (list NodeId * Inner V) :=
  let '(work, s) := st in
  n ← nodes s !! sub;
  match kind n with
  | Computed =>
      if dirty n then Some (work, s)
      else
        s ← modify sub (set_dirty true) s;
        let s := with_dirty_computeds (S (dirty_computeds s)) s in
        let s := if observed s then with_changed (changed s ++ [sub]) s else s in
        Some (sub :: work, s)
  | Effect =>
      if queued n then Some (work, s)
      else
        s ← modify sub (λ n, set_dirty true (set_queued true n)) s;
        Some (work, with_queue (queue s ++ [sub]) s)
  | Signal => None
  end.

(** [while let Some(current) = work.pop()]. *)
Fixpoint mark_loop (fuel : nat) (work : list NodeId) s : option (Inner V) :=
  match work with
  | [] => Some s
  | current :: work =>
      match fuel with
      | O => None
      | S fuel =>
          n ← nodes s !! current;
          '(work, s) ← fold_opt mark_subscriber (subscribers n) (work, s);
          mark_loop fuel work s
      end
  end.

Definition mark_dirty_subscribers (node : NodeId) s : option (Inner V) :=
  mark_loop (S (length (nodes s))) [node] s.

Definition alloc (node : Node V) s : option (NodeId * Inner V) :=
  match free s with
  | id :: rest =>
      s ← modify id (λ _, node) (with_free rest s);
      Some (id, s)
  | [] => Some (length (nodes s), with_nodes (nodes s ++ [node]) s)
  end.

(** The nodes the constructors allocate. *)
Definition signal_node (initial : V) : Node V :=
  mkNode Signal true false false [] [] (Some initial) None None [].
Definition computed_node (b memo : V) : Node V :=
  mkNode Computed true true false [] [] (Some memo) (Some b) None [].
Definition effect_node (b : V) : Node V :=
  mkNode Effect true true true [] [] None (Some b) None [].

Definition signal (initial : V) s : option (NodeId * Inner V) :=
  '(id, s) ← alloc (signal_node initial) s;
  s ← adopt id s;
  Some (id, s).

Definition signal_root (initial : V) s : option (NodeId * Inner V) :=
  alloc (signal_node initial) s.

Definition computed (b memo : V) s : option (NodeId * Inner V) :=
  let s := with_dirty_computeds (S (dirty_computeds s)) s in
  '(id, s) ← alloc (computed_node b memo) s;
  s ← adopt id s;
  Some (id, s).

Definition effect (b : V) s : option (NodeId * Inner V) :=
  '(id, s) ← alloc (effect_node b) s;
  s ← adopt id s;
  Some (id, with_queue (queue s ++ [id]) s).

(** Phase 1 of [read], under one borrow: the value when there is nothing to run,
    else the body of a dirty computed whose frame is now open. *)
Definition read_begin (node : NodeId) s : option ((V + V) * Inner V) :=
  n ← nodes s !! node;
  if negb (live n) then None
  else
    s ← record_dependency node s;
    n ← nodes s !! node;
    match kind n with
    | Signal => v ← content n; Some (inl v, s)
    | Effect => None
    | Computed =>
        if negb (dirty n) then v ← content n; Some (inl v, s)
        else
          '(b, s) ← begin_compute node s;
          Some (inr b, s)
    end.

Definition read (run : V → Inner V → option (V * Inner V)) (node : NodeId) s :
    option (V * Inner V) :=
  '(r, s) ← read_begin node s;
  match r with
  | inl v => Some (v, s)
  | inr b =>
      '(result, s) ← run b s;
      s ← end_compute node (Some result) s;
      Some (result, s)
  end.

Definition peek (run : V → Inner V → option (V * Inner V)) (node : NodeId) s :
    option (V * Inner V) :=
  n ← nodes s !! node;
  if bool_decide (kind n = Computed) && dirty n then read run node s
  else v ← content n; Some (v, s).

Definition set (node : NodeId) (value : V) s : option (Inner V) :=
  n ← nodes s !! node;
  if live n && bool_decide (kind n = Signal) then
    s ← modify node (set_content (Some value)) s;
    let s := if observed s then with_changed (changed s ++ [node]) s else s in
    mark_dirty_subscribers node s
  else None.

Definition touch (node : NodeId) s : option (Inner V) :=
  n ← nodes s !! node;
  if live n then
    let s := if observed s then with_changed (changed s ++ [node]) s else s in
    mark_dirty_subscribers node s
  else None.

(** The borrow before an effect's body: [None] when the entry is stale. *)
Definition effect_begin (eff : NodeId) s : option (option V * Inner V) :=
  n ← nodes s !! eff;
  if negb (live n) || negb (bool_decide (kind n = Effect)) then Some (None, s)
  else
    s ← modify eff (set_queued false) s;
    '(b, s) ← begin_compute eff s;
    Some (Some b, s).

(** The [for] loop over one round; [inr] is the early return on overflow. *)
Fixpoint run_round (run : V → Inner V → option (V * Inner V)) (round : list NodeId)
    (steps : Z) s : option ((Z + FlushResult) * Inner V) :=
  match round with
  | [] => Some (inl steps, s)
  | eff :: round =>
      '(b, s) ← effect_begin eff s;
      match b with
      | None => run_round run round steps s
      | Some b =>
          '(_, s) ← run b s;
          s ← end_compute eff None s;
          let steps := (steps + 1)%Z in
          if decide (MAX_FLUSH_STEPS < steps)%Z then Some (inr FlushOverflow, s)
          else run_round run round steps s
      end
  end.

Fixpoint flush_loop (fuel : nat) (run : V → Inner V → option (V * Inner V))
    (steps : Z) s : option (FlushResult * Inner V) :=
  match queue s with
  | [] => Some (Settled, s)
  | _ =>
      match fuel with
      | O => None
      | S fuel =>
          '(r, s') ← run_round run (merge_sort (≤) (queue s)) steps (with_queue [] s);
          match r with
          | inl steps => flush_loop fuel run steps s'
          | inr e => Some (e, s')
          end
      end
  end.

(** Every round but the last runs a body. *)
Definition flush_fuel : nat := Z.to_nat (MAX_FLUSH_STEPS + 2).

Definition flush (run : V → Inner V → option (V * Inner V)) s : option (FlushResult * Inner V) :=
  '(r, s) ← flush_loop flush_fuel run 0 (with_flushing true s);
  Some (r, with_flushing false s).

Definition run_pending (run : V → Inner V → option (V * Inner V)) s :=
  flush run s.

(** Leave the child list of a live owner. *)
Definition leave_owner (node : NodeId) s : option (Inner V) :=
  n ← nodes s !! node;
  match owner n with
  | None => Some s
  | Some o =>
      no ← nodes s !! o;
      if live no then modify o (λ n, set_owned (remove_id node (owned n)) n) s else Some s
  end.

Definition dispose (node : NodeId) s : option (Inner V) :=
  n ← nodes s !! node;
  if negb (live n) then Some s
  else
    s ← leave_owner node s;
    s ← dispose_owned node s;
    unhook_and_free node s.

(** The values [for_each_value] visits, in order. *)
Definition for_each_value s : list V :=
  nodes s ≫= λ n, if live n then option_list (content n) ++ option_list (body n) else [].

Definition clear s : Inner V :=
  mkInner [] [] [] 0 [] [] (flushing s) (observed s) [].

(** [drain_reclaimed_into] and [drain_changed_into]: the appended buffer and the rest. *)
Definition drain_reclaimed_into (out : list V) s : list V * Inner V :=
  (out ++ reclaimed s, with_reclaimed [] s).
Definition drain_changed_into (out : list NodeId) s : list NodeId * Inner V :=
  (out ++ changed s, with_changed [] s).

Definition live_count s : nat := length (filter (λ n, live n = true) (nodes s)).
Definition node_kind (node : NodeId) s : option NodeKind := kind <$> nodes s !! node.
Definition tracking s : bool := negb (bool_decide (computing s = [])).
Definition dirty_computed_count s : nat := dirty_computeds s.
Definition set_observed (on : bool) s : Inner V :=
  let s := with_observed on s in if on then s else with_changed [] s.
Definition is_flushing s : bool := flushing s.
Definition is_live (node : NodeId) s : option bool := live <$> nodes s !! node.
Definition pending_effects s : nat := length (queue s).
End ReactiveGraph.
