(* ===== verification/ReactiveFacts.v ===== *)
(** Facts about the reactive graph's operations: what each one does to the node
    table, as a function of the node id ([node_at]), and the well-formedness of a
    graph ([wf]) with its preservation by every operation. *)
From S2P Require Import Prelude Reactive.
From stdpp Require Import sorting options.

(** Lists of ids. *)
Lemma swap_remove_perm {A} (l1 l2 : list A) x :
  swap_remove (length l1) (l1 ++ x :: l2) ≡ₚ l1 ++ l2.
Proof.
  unfold swap_remove. destruct (last (l1 ++ x :: l2)) as [z|] eqn:E.
  - rewrite insert_app_r_alt by lia. rewrite Nat.sub_diag. cbn.
    destruct (exists_last (l := x :: l2)) as (m & w & Hm); [done|].
    destruct m as [|x' m]; simplify_eq/=.
    + rewrite last_snoc in E. simplify_eq. by rewrite removelast_last, app_nil_r.
    + rewrite app_comm_cons, app_assoc, last_snoc in E. simplify_eq.
      rewrite app_comm_cons, app_assoc, removelast_last.
      apply Permutation_app_head. by rewrite Permutation_cons_append.
  - apply last_None in E. by destruct l1.
Qed.

Lemma remove_id_notin x l : x ∉ l → remove_id x l = l.
Proof.
  intros Hx. unfold remove_id. destruct (list_find _ l) as [[i y]|] eqn:E; [|done].
  apply list_find_Some in E as (Hi & -> & _). by destruct Hx; eapply list_elem_of_lookup_2.
Qed.

Lemma remove_id_perm x l : x ∈ l → x :: remove_id x l ≡ₚ l.
Proof.
  intros Hx. unfold remove_id. destruct (list_find_elem_of (λ y, y = x) l x) as [[i y] E]; [done..|].
  rewrite E. apply list_find_Some in E as (Hi & -> & _).
  apply list_elem_of_split_length in Hi as (l1 & l2 & -> & ->).
  rewrite swap_remove_perm. apply Permutation_middle.
Qed.

Lemma remove_id_elem x y l : NoDup l → y ∈ remove_id x l ↔ y ∈ l ∧ y ≠ x.
Proof.
  intros Hl. destruct (decide (x ∈ l)) as [Hx|Hx].
  - pose proof (remove_id_perm x l Hx) as HP.
    assert (y ∈ l ↔ y ∈ x :: remove_id x l) as -> by (by rewrite HP).
    rewrite <-HP in Hl. apply NoDup_cons in Hl as [? ?]. set_solver.
  - rewrite remove_id_notin by done. naive_solver.
Qed.

Lemma remove_id_NoDup x l : NoDup l → NoDup (remove_id x l).
Proof.
  intros Hl. destruct (decide (x ∈ l)) as [Hx|Hx].
  - rewrite <-(remove_id_perm x l Hx) in Hl. by apply NoDup_cons in Hl as [? ?].
  - by rewrite remove_id_notin.
Qed.

Section Table.
  Context {V : Type}.
  Implicit Types (n : Node V) (s t : Inner V).

(** The node at an index, dead and empty past the end of the table. *)
Definition node_at s (x : NodeId) : Node V := default placeholder (nodes s !! x).
Definition in_table s (x : NodeId) : Prop := x < length (nodes s).

(** A write to the node table. *)
Definition upd (x : NodeId) (f : Node V → Node V) s : Inner V :=
  with_nodes (alter f x (nodes s)) s.

Lemma lookup_node_at s x : in_table s x → nodes s !! x = Some (node_at s x).
Proof. intros [n Hn]%lookup_lt_is_Some_2. unfold node_at. by rewrite Hn. Qed.

Lemma live_in_table s x : live (node_at s x) = true → in_table s x.
Proof.
  unfold node_at, in_table. destruct (nodes s !! x) eqn:E; [|done]. intros _.
  by eapply lookup_lt_Some.
Qed.

Lemma modify_upd x f s : in_table s x → modify x f s = Some (upd x f s).
Proof.
  intros Hx. unfold modify, upd. rewrite lookup_node_at by done. cbn. f_equal. f_equal.
  apply list_eq. intros i. destruct (decide (x = i)) as [<-|Hi].
  - rewrite list_lookup_insert_eq, list_lookup_alter_eq, lookup_node_at by done. done.
  - by rewrite list_lookup_insert_ne, list_lookup_alter_ne.
Qed.

Lemma modify_inv x f s t : modify x f s = Some t → in_table s x ∧ t = upd x f s.
Proof.
  intros H. assert (in_table s x) as Hx.
  { unfold modify in H. destruct (nodes s !! x) eqn:E; [|done]. by eapply lookup_lt_Some. }
  rewrite modify_upd in H by done. by simplify_eq.
Qed.

Lemma upd_length x f s : length (nodes (upd x f s)) = length (nodes s).
Proof. apply length_alter. Qed.

Lemma in_table_upd x f s y : in_table (upd x f s) y ↔ in_table s y.
Proof. unfold in_table. by rewrite upd_length. Qed.

Lemma node_at_upd x f s y :
  in_table s x → node_at (upd x f s) y = if decide (x = y) then f (node_at s x) else node_at s y.
Proof.
  intros Hx. unfold node_at, upd. cbn. case_decide as Hy.
  - subst y. rewrite list_lookup_alter_eq, lookup_node_at by done. done.
  - by rewrite list_lookup_alter_ne.
Qed.

Lemma node_at_upd_eq x f s : in_table s x → node_at (upd x f s) x = f (node_at s x).
Proof. intros. rewrite node_at_upd by done. by rewrite decide_True. Qed.

Lemma node_at_upd_ne x f s y : x ≠ y → node_at (upd x f s) y = node_at s y.
Proof. intros. unfold node_at, upd. cbn. by rewrite list_lookup_alter_ne. Qed.

(** Two tables agree when they agree at every index. *)
Lemma table_eq s t :
  length (nodes s) = length (nodes t) → (∀ x, node_at s x = node_at t x) → nodes s = nodes t.
Proof.
  intros Hl H. apply list_eq. intros i. destruct (decide (i < length (nodes s))) as [Hi|Hi].
  - rewrite !lookup_node_at, H; [done|unfold in_table; lia..].
  - rewrite !lookup_ge_None_2 by lia. done.
Qed.

(** A loop of writes at distinct indices writes each once. *)
Lemma fold_modify f l s :
  NoDup l → (∀ x, x ∈ l → in_table s x) →
  ∃ t, fold_opt (λ x, modify x f) l s = Some t ∧ t = with_nodes (nodes t) s ∧
    length (nodes t) = length (nodes s) ∧
    ∀ x, node_at t x = if decide (x ∈ l) then f (node_at s x) else node_at s x.
Proof.
  revert s. induction l as [|y l IH]; intros s Hl Hin; cbn [fold_opt].
  - exists s. destruct s; cbn. split_and!; [done..|]. intros x. by rewrite decide_False by set_solver.
  - apply NoDup_cons in Hl as [Hy Hl]. rewrite modify_upd by set_solver.
    destruct (IH (upd y f s)) as (t & Ht & Hs & Hlen & Hn); [done| |].
    { intros x Hx. apply in_table_upd. set_solver. }
    exists t. split_and!; [done| |by rewrite Hlen, upd_length|].
    { rewrite Hs at 1. done. }
    intros x. rewrite Hn. destruct (decide (x = y)) as [->|Hxy].
    + rewrite decide_False, decide_True, node_at_upd_eq by set_solver. done.
    + rewrite node_at_upd_ne by done. by repeat case_decide; set_solver.
Qed.

(** What the nodes hold, in table order. *)
Definition collect {A} (g : Node V → list A) s : list A := nodes s ≫= g.

Lemma collect_upd {A} (g : Node V → list A) x f s :
  in_table s x →
  collect g (upd x f s) ++ g (node_at s x) ≡ₚ collect g s ++ g (f (node_at s x)).
Proof.
  intros Hx. pose proof (lookup_node_at s x Hx) as Hn.
  apply list_elem_of_split_length in Hn as (l1 & l2 & E & ->).
  unfold collect, upd. cbn [nodes with_nodes]. rewrite E at 1 2.
  rewrite alter_app_r_alt, Nat.sub_diag by lia. cbn [alter list_alter].
  rewrite !bind_app, !bind_cons. solve_Permutation.
Qed.

Lemma collect_ext {A} (g : Node V → list A) s t :
  length (nodes s) = length (nodes t) → (∀ x, g (node_at s x) = g (node_at t x)) →
  collect g s = collect g t.
Proof.
  intros Hl H.
  assert (∀ i, g <$> nodes s !! i = g <$> nodes t !! i) as H'.
  { intros i. destruct (decide (i < length (nodes s))).
    - rewrite !lookup_node_at by (unfold in_table; lia). cbn. by rewrite H.
    - by rewrite !lookup_ge_None_2 by lia. }
  unfold collect. clear H Hl. revert H'. generalize (nodes s) (nodes t).
  intros l. induction l as [|a l IH]; intros [|b k] H'; try by pose proof (H' 0).
  assert (g a = g b) as H0 by (pose proof (H' 0); by simplify_eq/=). rewrite !bind_cons, H0.
  f_equal. apply IH. intros i. apply (H' (S i)).
Qed.

(** Counting the nodes with a boolean property. *)
Definition count (p : Node V → bool) s : nat :=
  length (collect (λ n, if p n then [n] else []) s).

Lemma count_upd p x f s :
  in_table s x →
  count p (upd x f s) + Nat.b2n (p (node_at s x)) = count p s + Nat.b2n (p (f (node_at s x))).
Proof.
  intros Hx. pose proof (collect_upd (λ n, if p n then [n] else []) x f s Hx) as H.
  apply Permutation_length in H. rewrite !length_app in H. unfold count.
  by destruct (p (node_at s x)), (p (f (node_at s x))).
Qed.

Lemma count_ext p s t :
  length (nodes s) = length (nodes t) → (∀ x, p (node_at s x) = p (node_at t x)) →
  count p s = count p t.
Proof.
  intros Hl H. unfold count.
  assert (∀ u, length (collect (λ n, if p n then [n] else []) u) =
               length (collect (λ n, if p n then [()] else []) u)) as Hc.
  { intros u. unfold collect. induction (nodes u) as [|a l IH]; [done|].
    rewrite !bind_cons, !length_app, IH. by destruct (p a). }
  rewrite !Hc. f_equal. apply collect_ext; [done|]. intros x. by rewrite H.
Qed.
End Table.
Arguments modify : simpl never.
Arguments upd : simpl never.
Arguments node_at : simpl never.

(** ** Well-formed graphs *)
Section Invariant.
  Context {V : Type}.
  Implicit Types (n : Node V) (s t : Inner V).

(** Subscriptions are recorded at both ends, once. *)
Record edges s : Prop := {
  edge_sym a b : a ∈ sources (node_at s b) ↔ b ∈ subscribers (node_at s a);
  edge_irrefl a : a ∉ sources (node_at s a);
  nodup_sources a : NoDup (sources (node_at s a));
  nodup_subscribers a : NoDup (subscribers (node_at s a));
}.

(** A computed whose memo may not be trusted. *)
Definition is_stale n : bool := bool_decide (kind n = Computed) && dirty n.

(** What the kind and the life of a node say of its fields. *)
Record node_ok n : Prop := {
  dead_empty : live n = false →
    sources n = [] ∧ subscribers n = [] ∧ dirty n = false ∧ queued n = false ∧
    owner n = None ∧ owned n = [];
  signal_plain : kind n = Signal → sources n = [] ∧ dirty n = false;
  not_signal_body : kind n ≠ Signal → live n = true → is_Some (body n);
  readable_content : kind n ≠ Effect → live n = true → is_Some (content n);
  effect_leaf : kind n = Effect → subscribers n = [];
  queued_effect : queued n = true → kind n = Effect;
  dead_holds_nothing : live n = false → content n = None ∧ body n = None;
}.

(** The parts of the invariant that do not speak of owners, queue or stack. *)
Record core s : Prop := {
  core_edges : edges s;
  core_nodes x : node_ok (node_at s x);
  core_count : dirty_computeds s = count is_stale s;
  core_free_nodup : NoDup (free s);
  core_free x : x ∈ free s ↔ in_table s x ∧ live (node_at s x) = false;
}.

(** The owner forest, [R] a rank that grows from owner to child.  [P] are nodes
    whose owner has already given up its list, and which are about to go. *)
Record owners (R : NodeId → nat) (P : list NodeId) s : Prop := {
  own_child a c : c ∈ owned (node_at s a) → live (node_at s c) = true ∧ owner (node_at s c) = Some a;
  own_parent a c : owner (node_at s c) = Some a →
    live (node_at s a) = true ∧ (c ∈ owned (node_at s a) ∨ c ∈ P);
  own_pending a c : c ∈ P → c ∉ owned (node_at s a);
  own_nodup a : NoDup (owned (node_at s a));
  own_rank a c : owner (node_at s c) = Some a → R a < R c;
}.

(** ** Removal of a node *)

(** What [unhook_and_free x] leaves of another node, and of [x]. *)
Definition strip (x : NodeId) n : Node V :=
  set_subscribers (remove_id x (subscribers n)) (set_sources (remove_id x (sources n)) n).
Definition gone n : Node V :=
  mkNode (kind n) false false false [] [] None None None (owned n).

Lemma source_in_table s a b : edges s → a ∈ sources (node_at s b) → in_table s a ∧ in_table s b.
Proof.
  intros He Hab. assert (b ∈ subscribers (node_at s a)) as Hba by by apply edge_sym.
  unfold node_at, in_table in *. split; apply lookup_lt_is_Some_1.
  - destruct (nodes s !! a); [eauto|cbn in Hba; set_solver].
  - destruct (nodes s !! b); [eauto|cbn in Hab; set_solver].
Qed.

Lemma detach_from_sources_spec x l s :
  NoDup l → (∀ y, y ∈ l → in_table s y) →
  ∃ t, detach_from_sources x l s = Some t ∧ t = with_nodes (nodes t) s ∧
    length (nodes t) = length (nodes s) ∧
    ∀ y, node_at t y = if decide (y ∈ l)
      then set_subscribers (remove_id x (subscribers (node_at s y))) (node_at s y) else node_at s y.
Proof. apply (fold_modify (λ n, set_subscribers (remove_id x (subscribers n)) n)). Qed.

Lemma detach_from_subscribers_spec x l s :
  NoDup l → (∀ y, y ∈ l → in_table s y) →
  ∃ t, detach_from_subscribers x l s = Some t ∧ t = with_nodes (nodes t) s ∧
    length (nodes t) = length (nodes s) ∧
    ∀ y, node_at t y = if decide (y ∈ l)
      then set_sources (remove_id x (sources (node_at s y))) (node_at s y) else node_at s y.
Proof. apply (fold_modify (λ n, set_sources (remove_id x (sources n)) n)). Qed.

Lemma set_sources_id n : set_sources (sources n) n = n.
Proof. by destruct n. Qed.
Lemma set_subscribers_id n : set_subscribers (subscribers n) n = n.
Proof. by destruct n. Qed.

Lemma unhook_and_free_spec x s :
  edges s → in_table s x → (is_stale (node_at s x) = true → dirty_computeds s ≠ 0) →
  ∃ t, unhook_and_free x s = Some t ∧
    t = mkInner (nodes t) (x :: free s) (computing s)
          (dirty_computeds s - Nat.b2n (is_stale (node_at s x))) (queue s) (reclaimed s)
          (flushing s) (observed s) (changed s) ∧
    length (nodes t) = length (nodes s) ∧
    ∀ y, node_at t y = if decide (x = y) then gone (node_at s x) else strip x (node_at s y).
Proof.
  intros He Hx Hd. set (n := node_at s x).
  destruct (detach_from_sources_spec x (sources n) (upd x (set_sources []) s)) as (s1 & E1 & F1 & L1 & N1).
  { by apply nodup_sources. }
  { intros y Hy. apply in_table_upd. by apply (source_in_table s y x). }
  rewrite upd_length in L1. assert (in_table s1 x) as Hx1 by (unfold in_table in *; lia).
  assert (node_at s1 x = set_sources [] n) as Nx1.
  { rewrite N1, decide_False, node_at_upd_eq by (done || by apply edge_irrefl). done. }
  destruct (detach_from_subscribers_spec x (subscribers n) (upd x (set_subscribers []) s1))
    as (s2 & E2 & F2 & L2 & N2).
  { by apply nodup_subscribers. }
  { intros y Hy. apply in_table_upd. unfold in_table. rewrite L1.
    apply (edge_sym s He) in Hy. by apply (source_in_table s x y). }
  rewrite upd_length in L2. assert (in_table s2 x) as Hx2 by (unfold in_table in *; lia).
  assert (node_at s2 x = set_subscribers [] (set_sources [] n)) as Nx2.
  { rewrite N2, decide_False, node_at_upd_eq by (done || (intros Hi; by eapply edge_irrefl, edge_sym)).
    by rewrite Nx1. }
  unfold unhook_and_free. rewrite lookup_node_at by done. cbn -[modify]. fold n.
  rewrite modify_upd by done. cbn -[modify]. rewrite E1. cbn -[modify].
  rewrite lookup_node_at by done. cbn -[modify]. rewrite Nx1.
  rewrite modify_upd by done. cbn -[modify detach_from_subscribers]. rewrite E2. cbn -[modify].
  rewrite lookup_node_at by done. cbn -[modify]. rewrite Nx2. cbn -[modify].
  fold (is_stale n).
  set (d := dirty_computeds s - Nat.b2n (is_stale n)).
  assert ((if is_stale n then dirty_computeds_dec s2 else Some s2) =
    Some (with_dirty_computeds d s2)) as ->.
  { rewrite F2. unfold upd. cbn. rewrite F1. unfold upd. cbn. subst d. fold n in Hd. unfold dirty_computeds_dec.
    destruct (is_stale n); cbn.
    - destruct (dirty_computeds s); [by destruct Hd|]. cbn. by rewrite Nat.sub_0_r.
    - by rewrite Nat.sub_0_r. }
  cbn -[modify]. rewrite modify_upd by done. cbn -[modify].
  eexists. split; [done|]. split; [|split].
  - rewrite F2. unfold upd. cbn. rewrite F1. done.
  - unfold upd. cbn. rewrite length_alter. lia.
  - intros y. change (node_at (upd x vacate (with_dirty_computeds d s2)) y =
      if decide (x = y) then gone n else strip x (node_at s y)).
    rewrite node_at_upd by done. change (node_at (with_dirty_computeds d s2)) with (node_at s2).
    case_decide as Hy; [by rewrite Nx2|].
    rewrite N2, node_at_upd_ne, N1, node_at_upd_ne by done.
    assert (y ∉ sources n → remove_id x (subscribers (node_at s y)) = subscribers (node_at s y)) as Q1.
    { intros Hn. apply remove_id_notin. by rewrite <-(edge_sym s He). }
    assert (y ∉ subscribers n → remove_id x (sources (node_at s y)) = sources (node_at s y)) as Q2.
    { intros Hn. apply remove_id_notin. by rewrite (edge_sym s He). }
    unfold strip. repeat case_decide; rewrite ?Q1, ?Q2 by done; by destruct (node_at s y).
Qed.
End Invariant.

Section Removal.
  Context {V : Type}.
  Implicit Types (n : Node V) (s t : Inner V).

(** [t] is [s] without the node [x]. *)
Record removed (x : NodeId) s t : Prop := {
  rm_length : length (nodes t) = length (nodes s);
  rm_nodes y : node_at t y = if decide (x = y) then gone (node_at s x) else strip x (node_at s y);
  rm_free : free t = x :: free s;
  rm_count : dirty_computeds t = dirty_computeds s - Nat.b2n (is_stale (node_at s x));
  rm_computing : computing t = computing s;
  rm_queue : queue t = queue s;
  rm_changed : changed t = changed s;
  rm_flags : flushing t = flushing s ∧ observed t = observed s;
}.

Lemma count_positive p x s : p (node_at s x) = true → in_table s x → count p s ≠ 0.
Proof.
  intros Hp Hx. unfold count. intros H0%nil_length_inv.
  pose proof (lookup_node_at s x Hx) as Hl. apply list_elem_of_lookup_2 in Hl.
  assert (node_at s x ∈ collect (λ n, if p n then [n] else []) s) as Hf.
  { apply list_elem_of_bind. exists (node_at s x). rewrite Hp. split; [set_solver|done]. }
  rewrite H0 in Hf. set_solver.
Qed.

Lemma unhook_removed x s :
  edges s → in_table s x → dirty_computeds s = count is_stale s →
  ∃ t, unhook_and_free x s = Some t ∧ removed x s t ∧ reclaimed t = reclaimed s.
Proof.
  intros He Hx Hc. destruct (unhook_and_free_spec x s) as (t & E & F & L & N); [done..| |].
  { intros Hs. rewrite Hc. by eapply count_positive. }
  exists t. split; [done|]. rewrite F. split; [|done]. split; cbn; done.
Qed.

Lemma removed_edges x s t : removed x s t → edges s → edges t.
Proof.
  intros Hr He. pose proof (rm_nodes x s t Hr) as N.
  split.
  - intros a b. rewrite (N a), (N b). pose proof (edge_sym s He a b).
    pose proof (nodup_sources s He b). pose proof (nodup_subscribers s He a).
    pose proof (edge_irrefl s He x).
    repeat case_decide; subst; cbn; rewrite ?remove_id_elem by done; set_solver.
  - intros a. rewrite (N a). pose proof (edge_irrefl s He a). pose proof (nodup_sources s He a).
    case_decide; cbn; rewrite ?remove_id_elem by done; set_solver.
  - intros a. rewrite (N a). case_decide; cbn; [constructor|]. apply remove_id_NoDup. by apply nodup_sources.
  - intros a. rewrite (N a). case_decide; cbn; [constructor|]. apply remove_id_NoDup. by apply nodup_subscribers.
Qed.

Lemma strip_node_ok x n : node_ok n → node_ok (strip x n).
Proof.
  intros [D S B C L Q]. split; cbn; try done.
  - intros Hl. destruct (D Hl) as (-> & -> & ?). rewrite !remove_id_notin by set_solver. done.
  - intros Hk. destruct (S Hk) as (-> & ?). rewrite remove_id_notin by set_solver. done.
  - intros Hk. rewrite (L Hk). by rewrite remove_id_notin by set_solver.
Qed.

Lemma gone_node_ok n : owned n = [] → node_ok (gone n).
Proof. intros Ho. by split; cbn. Qed.

Lemma strip_stale x n : is_stale (strip x n) = is_stale n.
Proof. done. Qed.
Lemma gone_stale n : is_stale (gone n) = false.
Proof. unfold is_stale. cbn. apply andb_false_r. Qed.

Lemma removed_core x s t :
  removed x s t → live (node_at s x) = true → owned (node_at s x) = [] → core s → core t.
Proof.
  intros Hr Hl Ho [He Hn Hc Hfn Hf]. pose proof (rm_nodes x s t Hr) as N.
  pose proof (live_in_table s x Hl) as Hx. split.
  - by eapply removed_edges.
  - intros y. rewrite N. case_decide; [by apply gone_node_ok|by apply strip_node_ok].
  - rewrite (rm_count x s t Hr), Hc.
    pose proof (count_upd is_stale x gone s Hx) as H. rewrite gone_stale in H.
    rewrite (count_ext is_stale t (upd x gone s)); [cbn [Nat.b2n] in H; lia| |].
    + by rewrite upd_length, (rm_length x s t Hr).
    + intros y. rewrite N, node_at_upd by done. by case_decide.
  - rewrite (rm_free x s t Hr). apply NoDup_cons. rewrite Hf. split; [|done]. intros [_ ?]. congruence.
  - intros y. rewrite (rm_free x s t Hr), elem_of_cons, Hf, N.
    unfold in_table in *. rewrite (rm_length x s t Hr). case_decide as Hxy; cbn.
    + subst. naive_solver.
    + naive_solver.
Qed.

(** [t] is [s] without some of its nodes: what disposal does to the others. *)
Record pruned s t : Prop := {
  pr_length : length (nodes t) = length (nodes s);
  pr_live y : live (node_at t y) = true → live (node_at s y) = true;
  pr_kind y : kind (node_at t y) = kind (node_at s y);
  pr_sources y a : live (node_at t y) = true →
    a ∈ sources (node_at t y) ↔ a ∈ sources (node_at s y) ∧ live (node_at t a) = true;
  pr_subscribers y a : live (node_at t y) = true →
    a ∈ subscribers (node_at t y) ↔ a ∈ subscribers (node_at s y) ∧ live (node_at t a) = true;
  pr_fields y : live (node_at t y) = true →
    dirty (node_at t y) = dirty (node_at s y) ∧ queued (node_at t y) = queued (node_at s y) ∧
    content (node_at t y) = content (node_at s y) ∧ body (node_at t y) = body (node_at s y) ∧
    owner (node_at t y) = owner (node_at s y) ∧ owned (node_at t y) = owned (node_at s y);
  pr_rest : computing t = computing s ∧ queue t = queue s ∧ changed t = changed s ∧
    flushing t = flushing s ∧ observed t = observed s;
}.

(** The edges of a well-formed table join live nodes. *)
Lemma source_live s a b :
  edges s → (∀ x, node_ok (node_at s x)) → a ∈ sources (node_at s b) →
  live (node_at s a) = true ∧ live (node_at s b) = true.
Proof.
  intros He Hn Ha. pose proof (proj1 (edge_sym s He a b) Ha) as Hb. split; apply not_false_iff_true; intros H.
  - destruct (dead_empty _ (Hn a) H) as (_ & E & _). rewrite E in Hb. set_solver.
  - destruct (dead_empty _ (Hn b) H) as (E & _). rewrite E in Ha. set_solver.
Qed.

Lemma pruned_refl s : core s → pruned s s.
Proof.
  intros [He Hn _ _ _]. split; try done.
  - intros y a _. split; [|by intros [? _]]. intros Ha. split; [done|]. by destruct (source_live s a y He Hn Ha).
  - intros y a _. split; [|by intros [? _]]. intros Ha. split; [done|].
    apply (edge_sym s He) in Ha. by destruct (source_live s y a He Hn Ha).
Qed.

Lemma pruned_trans s t u : pruned s t → pruned t u → pruned s u.
Proof.
  intros P Q. split.
  - by rewrite (pr_length t u Q), (pr_length s t P).
  - intros y ?. by apply (pr_live s t P), (pr_live t u Q).
  - intros y. by rewrite (pr_kind t u Q), (pr_kind s t P).
  - intros y a Hy. rewrite (pr_sources t u Q), (pr_sources s t P); [|by apply (pr_live t u Q)|done].
    pose proof (pr_live t u Q a). naive_solver.
  - intros y a Hy. rewrite (pr_subscribers t u Q), (pr_subscribers s t P); [|by apply (pr_live t u Q)|done].
    pose proof (pr_live t u Q a). naive_solver.
  - intros y Hy. destruct (pr_fields t u Q y Hy) as (-> & -> & -> & -> & -> & ->).
    apply (pr_fields s t P). by apply (pr_live t u Q).
  - destruct (pr_rest t u Q) as (-> & -> & -> & -> & ->). apply (pr_rest s t P).
Qed.

Lemma removed_pruned x s t : core s → removed x s t → pruned s t.
Proof.
  intros [He Hn _ _ _] Hr. pose proof (rm_nodes x s t Hr) as N. split.
  - apply (rm_length x s t Hr).
  - intros y. rewrite N. by case_decide.
  - intros y. rewrite N. case_decide; [by subst|done].
  - intros y a. rewrite (N y), (N a). case_decide; [done|]. cbn. intros Hy.
    rewrite remove_id_elem by by apply nodup_sources.
    case_decide; subst; cbn; [naive_solver|]. pose proof (source_live s a y He Hn). naive_solver.
  - intros y a. rewrite (N y), (N a). case_decide; [done|]. cbn. intros Hy.
    rewrite remove_id_elem by by apply nodup_subscribers.
    rewrite <-(edge_sym s He). pose proof (source_live s y a He Hn).
    case_decide; subst; cbn; naive_solver.
  - intros y. rewrite N. by case_decide.
  - destruct (rm_flags x s t Hr). rewrite (rm_computing x s t Hr), (rm_queue x s t Hr), (rm_changed x s t Hr). done.
Qed.
End Removal.

(** ** Disposal of a subtree *)
Section Disposal.
  Context {V : Type} (R : NodeId → nat).
  Implicit Types (n : Node V) (s t : Inner V).

(** The owner's descendants, itself included. *)
Definition desc s : NodeId → NodeId → Prop :=
  rtc (λ a b, owner (node_at s b) = Some a).

(** Every cell the graph answers for: held by a node, or waiting to be released. *)
Definition cells n : list V := option_list (content n) ++ option_list (body n).
Definition held s : list V := collect cells s ++ reclaimed s.

(** The live nodes of rank [k] and above. *)
Definition mass (k : nat) s : nat :=
  size (filter (λ x, live (node_at s x) = true ∧ k ≤ R x) (set_seq 0 (length (nodes s)) : gset nat)).

Lemma mass_bound k s : mass k s ≤ length (nodes s).
Proof.
  unfold mass. rewrite <-(size_set_seq (C := gset nat) 0 (length (nodes s))) at 2.
  apply subseteq_size. intros x. rewrite elem_of_filter. by intros [_ ?].
Qed.

Lemma mass_pruned k s t : pruned s t → mass k t ≤ mass k s.
Proof.
  intros P. unfold mass. rewrite (pr_length s t P). apply subseteq_size.
  intros x. rewrite !elem_of_filter. pose proof (pr_live s t P x). naive_solver.
Qed.

Lemma mass_child k c s f :
  live (node_at s c) = true → k ≤ R c → (∀ n, live (f n) = live n) →
  mass (S (R c)) (upd c f s) < mass k s.
Proof.
  intros Hc Hk Hf. unfold mass. rewrite upd_length. apply subset_size.
  assert (∀ x, live (node_at (upd c f s) x) = live (node_at s x)) as Hl.
  { intros x. rewrite node_at_upd by by apply live_in_table. case_decide; subst; auto. }
  split.
  - intros x. rewrite !elem_of_filter, Hl. naive_solver lia.
  - intros H. assert (c ∈ (filter (λ x, live (node_at s x) = true ∧ k ≤ R x)
      (set_seq 0 (length (nodes s)) : gset nat))) as Hin.
    { rewrite elem_of_filter, elem_of_set_seq. pose proof (live_in_table s c Hc). unfold in_table in *.
      split_and!; auto; lia. }
    apply H in Hin. rewrite elem_of_filter in Hin. lia.
Qed.

Lemma desc_rank P s a b : owners R P s → desc s a b → R a ≤ R b.
Proof. intros Ho. induction 1 as [|a b c Hab _ IH]; [done|]. pose proof (own_rank R P s Ho a b Hab). lia. Qed.

Lemma desc_pruned s t a b : pruned s t → core t → desc t a b → desc s a b.
Proof.
  intros P C. induction 1 as [|a b c Hab _ IH]; [done|].
  eapply rtc_l; [|done]. destruct (live (node_at t b)) eqn:Hl.
  - destruct (pr_fields s t P b Hl) as (_ & _ & _ & _ & <- & _). done.
  - destruct (dead_empty _ (core_nodes t C b) Hl) as (_ & _ & _ & _ & Ho & _). congruence.
Qed.

(** Giving up the list of children makes them pending. *)
Lemma owners_take c P s :
  owners R P s → live (node_at s c) = true →
  owners R (reverse (owned (node_at s c)) ++ P) (upd c (set_owned []) s).
Proof.
  intros [Hc Hp Hq Hn Hr] Hl. pose proof (live_in_table s c Hl) as Hx.
  assert (∀ y, live (node_at (upd c (set_owned []) s) y) = live (node_at s y) ∧
    owner (node_at (upd c (set_owned []) s) y) = owner (node_at s y) ∧
    owned (node_at (upd c (set_owned []) s) y) = if decide (c = y) then [] else owned (node_at s y)) as N.
  { intros y. rewrite node_at_upd by done. case_decide; subst; done. }
  split.
  - intros a d. destruct (N a) as (_ & _ & ->), (N d) as (-> & -> & _). case_decide; [set_solver|]. apply Hc.
  - intros a d. destruct (N a) as (-> & _ & ->), (N d) as (_ & -> & _). intros Hd.
    destruct (Hp a d Hd) as [? Hin]. split; [done|]. rewrite elem_of_app, elem_of_reverse.
    case_decide; subst; naive_solver.
  - intros a d. destruct (N a) as (_ & _ & ->). case_decide; [set_solver|].
    rewrite elem_of_app, elem_of_reverse. intros [Hd|Hd]; [|by apply Hq].
    intros Hd'. apply Hc in Hd as [_ Hd], Hd' as [_ Hd']. congruence.
  - intros a. destruct (N a) as (_ & _ & ->). case_decide; [constructor|done].
  - intros a d. destruct (N d) as (_ & -> & _). apply Hr.
Qed.

(** A pending node without children leaves the forest. *)
Lemma owners_removed c P s t :
  removed c s t → core s → owners R (c :: P) s → owned (node_at s c) = [] →
  (∀ d, d ∈ P → owner (node_at s d) ≠ Some c) → c ∉ P → owners R P t.
Proof.
  intros Hr C [Hc Hp Hq Hn Hk] Ho HP HcP. pose proof (rm_nodes c s t Hr) as N. split.
  - intros a d. rewrite (N a), (N d). intros Hd. assert (d ∈ owned (node_at s a)) as Hd' by (case_decide; by subst).
    rewrite decide_False; [by apply Hc|]. intros ->. by apply (Hq a d); [left|].
  - intros a d. rewrite (N a), (N d). case_decide; [done|]. cbn. intros Hd.
    destruct (Hp a d Hd) as [? [Hin|Hin]].
    + case_decide; subst; cbn; [|by auto]. rewrite Ho in Hin. set_solver.
    + rewrite elem_of_cons in Hin. destruct Hin as [->|Hin]; [done|].
      case_decide; subst; [by destruct (HP d)|]. auto.
  - intros a d Hd. rewrite (N a). assert (d ∉ owned (node_at s a)) by (apply Hq; set_solver).
    by case_decide; subst.
  - intros a. rewrite (N a). by case_decide; subst; cbn.
  - intros a d. rewrite (N d). case_decide; [done|]. apply Hk.
Qed.

(** The tail of [dispose_subtree]: the cells are reclaimed and the node goes. *)
Definition release_node (x : NodeId) s : option (Inner V) :=
  n ← nodes s !! x;
  s ← modify x (set_content None) (reclaim (content n) s);
  n ← nodes s !! x;
  s ← modify x (set_body None) (reclaim (body n) s);
  unhook_and_free x s.

Lemma reclaim_eq (o : option V) s : reclaim o s = with_reclaimed (reclaimed s ++ option_list o) s.
Proof. destruct o, s; cbn; [done|]. by rewrite app_nil_r. Qed.

Lemma removed_collect x s t :
  removed x s t → in_table s x → collect cells t ++ cells (node_at s x) ≡ₚ collect cells s.
Proof.
  intros Hr Hx. pose proof (rm_nodes x s t Hr) as N.
  rewrite (collect_ext cells t (upd x gone s)).
  - rewrite collect_upd by done. by rewrite app_nil_r.
  - by rewrite upd_length, (rm_length x s t Hr).
  - intros y. rewrite N, node_at_upd by done. by case_decide.
Qed.

Lemma release_node_spec x s :
  core s → live (node_at s x) = true →
  ∃ t, release_node x s = Some t ∧ removed x s t ∧ held t ≡ₚ held s.
Proof.
  intros C Hl. pose proof (live_in_table s x Hl) as Hx. set (n := node_at s x).
  set (s1 := upd x (set_body None) (with_reclaimed ((reclaimed s ++ option_list (content n)) ++ option_list (body n))
    (upd x (set_content None) s))).
  assert (∀ y, node_at s1 y = if decide (x = y) then set_body None (set_content None n) else node_at s y) as N.
  { intros y. unfold s1. change (node_at (upd x (set_body None) (upd x (set_content None) s)) y =
      if decide (x = y) then set_body None (set_content None n) else node_at s y).
    rewrite node_at_upd by by apply in_table_upd. rewrite !node_at_upd by done. by repeat case_decide. }
  assert (length (nodes s1) = length (nodes s)) as L by (unfold s1, upd; cbn; by rewrite !length_alter).
  destruct (unhook_removed x s1) as (t & Et & Hr & Hrec).
  { destruct (core_edges s C) as [E1 E2 E3 E4]. split.
    - intros a b. rewrite (N a), (N b). pose proof (E1 a b). by repeat case_decide; subst.
    - intros a. rewrite (N a). pose proof (E2 a). by case_decide; subst.
    - intros a. rewrite (N a). pose proof (E3 a). by case_decide; subst.
    - intros a. rewrite (N a). pose proof (E4 a). by case_decide; subst. }
  { unfold in_table in *. by rewrite L. }
  { change (dirty_computeds s1) with (dirty_computeds s). rewrite (core_count s C).
    apply count_ext; [done|]. intros y. rewrite N. by case_decide; subst. }
  assert (removed x s t) as Hr'.
  { destruct Hr as [r1 r2 r3 r4 r5 r6 r7 r8]. rewrite L in r1. split; try done.
    - intros y. rewrite r2, !N. by repeat case_decide; subst.
    - rewrite r4, N. by rewrite decide_True. }
  exists t. split_and!; [|done|].
  - unfold release_node. rewrite lookup_node_at by done. cbn -[modify]. fold n.
    rewrite reclaim_eq. rewrite modify_upd by done. cbn -[modify].
    rewrite lookup_node_at by by apply in_table_upd. cbn -[modify].
    change (node_at (upd x (set_content None) (with_reclaimed (reclaimed s ++ option_list (content n)) s)) x)
      with (node_at (upd x (set_content None) s) x). rewrite node_at_upd_eq by done. cbn -[modify].
    rewrite reclaim_eq, modify_upd by by apply in_table_upd. done.
  - unfold held. rewrite Hrec. unfold s1 at 1. cbn [reclaimed with_reclaimed upd with_nodes].
    rewrite <-(removed_collect x s t Hr' Hx). fold n. unfold cells. solve_Permutation.
Qed.
End Disposal.

Section DisposeSubtree.
  Context {V : Type} (R : NodeId → nat).
  Implicit Types (n : Node V) (s t : Inner V).

(** What disposing the subtrees of [l] does, [P] being pending elsewhere. *)
Record disposed (l P : list NodeId) s t : Prop := {
  dp_core : core t;
  dp_owners : owners R P t;
  dp_pruned : pruned s t;
  dp_roots c : c ∈ l → live (node_at t c) = false;
  dp_only y : live (node_at s y) = true → live (node_at t y) = false → ∃ c, c ∈ l ∧ desc s c y;
  dp_held : held t ≡ₚ held s;
}.

(** The subtrees of [l] can be disposed of: its nodes are live and pending, and rank
    [k] separates them from their owners and from those of [P]. *)
Record disposable (k : nat) (l P : list NodeId) s : Prop := {
  da_core : core s;
  da_owners : owners R (l ++ P) s;
  da_nodup : NoDup (l ++ P);
  da_live c : c ∈ l → live (node_at s c) = true;
  da_rank c : c ∈ l → k ≤ R c;
  da_owner d a : d ∈ l ++ P → owner (node_at s d) = Some a → R a < k;
}.

Lemma dispose_subtree_unfold fuel x s :
  live (node_at s x) = true →
  dispose_subtree (S fuel) x s =
    (s ← fold_opt (dispose_subtree fuel) (reverse (owned (node_at s x))) (upd x (set_owned []) s);
     release_node x s).
Proof.
  intros Hl. pose proof (live_in_table s x Hl) as Hx. cbn [dispose_subtree].
  rewrite lookup_node_at by done. cbn. rewrite Hl, modify_upd by done. cbn. done.
Qed.

Lemma upd_owned_node c s y :
  in_table s c → node_at (upd c (set_owned []) s) y =
    if decide (c = y) then set_owned [] (node_at s c) else node_at s y.
Proof. apply node_at_upd. Qed.

Lemma core_ext s t :
  core s → length (nodes t) = length (nodes s) →
  (∀ y, sources (node_at t y) = sources (node_at s y) ∧
        subscribers (node_at t y) = subscribers (node_at s y) ∧
        live (node_at t y) = live (node_at s y) ∧ kind (node_at t y) = kind (node_at s y) ∧
        dirty (node_at t y) = dirty (node_at s y)) →
  (∀ y, node_ok (node_at t y)) → free t = free s → dirty_computeds t = dirty_computeds s → core t.
Proof.
  intros [[E1 E2 E3 E4] Hn Hc Hf Hm] L N Hok F D.
  split; [split|done|..].
  - intros a b. destruct (N a) as (_ & -> & _), (N b) as (-> & _). apply E1.
  - intros a. destruct (N a) as (-> & _). apply E2.
  - intros a. destruct (N a) as (-> & _). apply E3.
  - intros a. destruct (N a) as (_ & -> & _). apply E4.
  - rewrite D, Hc. apply count_ext; [done|]. intros x. unfold is_stale.
    by destruct (N x) as (_ & _ & _ & -> & ->).
  - by rewrite F.
  - intros x. rewrite F, Hm. unfold in_table. rewrite L. by destruct (N x) as (_ & _ & -> & _).
Qed.

Lemma core_take c s : core s → live (node_at s c) = true → core (upd c (set_owned []) s).
Proof.
  intros C Hl. pose proof (live_in_table s c Hl) as Hx. apply (core_ext s); try done.
  - apply upd_length.
  - intros y. rewrite upd_owned_node by done. by case_decide; subst.
  - intros y. rewrite upd_owned_node by done. pose proof (core_nodes s C y) as Hy.
    case_decide; [subst y|done]. destruct Hy as [D ????]. split; try done. cbn. intros H. by destruct (D H) as (? & ? & ? & ? & ? & _).
Qed.

Lemma desc_take c s a b : in_table s c → desc (upd c (set_owned []) s) a b → desc s a b.
Proof.
  intros Hx. apply rtc_subrel. intros d e. rewrite upd_owned_node by done. by case_decide; subst.
Qed.

Lemma pruned_take c s t :
  in_table s c → pruned (upd c (set_owned []) s) t → live (node_at t c) = false → pruned s t.
Proof.
  intros Hx [L Hl Hk Hs Hb Hf Hr] Hd.
  assert (∀ y, live (node_at t y) = true → node_at (upd c (set_owned []) s) y = node_at s y) as N.
  { intros y Hy. apply node_at_upd_ne. intros ->. congruence. }
  split; try done.
  - by rewrite L, upd_length.
  - intros y Hy. rewrite <-N by done. auto.
  - intros y. rewrite Hk, upd_owned_node by done. by case_decide; subst.
  - intros y a Hy. rewrite Hs, N by done. done.
  - intros y a Hy. rewrite Hb, N by done. done.
  - intros y Hy. destruct (Hf y Hy) as (-> & -> & -> & -> & -> & ->). by rewrite N.
Qed.

(** The children of the first node are disposable once it gives them up. *)
Lemma disposable_children k c l P s :
  disposable k (c :: l) P s →
  disposable (S (R c)) (reverse (owned (node_at s c))) (c :: l ++ P) (upd c (set_owned []) s).
Proof.
  intros [C O N Hl Hk Hr]. assert (live (node_at s c) = true) as Hc by (apply Hl; set_solver).
  pose proof (live_in_table s c Hc) as Hx. assert (k ≤ R c) as Hkc by (apply Hk; set_solver). split.
  - by apply core_take.
  - apply (owners_take R c (c :: l ++ P) s O Hc).
  - apply NoDup_app. split_and!; [|intros d Hd Hd'|done].
    + rewrite reverse_Permutation. apply (own_nodup R _ s O).
    + rewrite elem_of_reverse in Hd. by apply (own_pending R _ s O c d).
  - intros d Hd. rewrite elem_of_reverse in Hd. apply (own_child R _ s O) in Hd as [Hd _].
    rewrite upd_owned_node by done. by case_decide; subst.
  - intros d Hd. rewrite elem_of_reverse in Hd. apply (own_child R _ s O) in Hd as [_ Hd].
    pose proof (own_rank R _ s O c d Hd). lia.
  - intros d a Hd Ha. rewrite upd_owned_node in Ha by done.
    assert (owner (node_at s d) = Some a) as Ha' by (case_decide; by subst).
    rewrite elem_of_app, elem_of_reverse in Hd. destruct Hd as [Hd|Hd].
    + apply (own_child R _ s O) in Hd as [_ Hd]. simplify_eq. lia.
    + pose proof (Hr d a Hd Ha'). lia.
Qed.

(** Pending nodes are not in the subtrees that go. *)
Lemma pending_survives k l P s d c :
  disposable k l P s → d ∈ P → c ∈ l → desc s c d → False.
Proof.
  intros D Hd Hc [E|(a & Hca & Ha)]%rtc_inv_r.
  - subst. pose proof (da_nodup k l P s D) as (_ & H & _)%NoDup_app. by apply (H d).
  - pose proof (desc_rank R _ s c a (da_owners k l P s D) Hca).
    assert (R a < k) by (apply (da_owner k l P s D d); [set_solver|done]).
    pose proof (da_rank k l P s D c Hc). lia.
Qed.

Lemma disposed_nil P s : core s → owners R P s → disposed [] P s s.
Proof. intros C O. split; try done; [by apply pruned_refl|set_solver|congruence]. Qed.

Lemma disposed_cons c l P s t u :
  disposed [c] (l ++ P) s t → disposed l P t u → disposed (c :: l) P s u.
Proof.
  intros [C1 O1 P1 D1 K1 H1] [C2 O2 P2 D2 K2 H2]. split; try done.
  - by eapply pruned_trans.
  - intros d [->|Hd]%elem_of_cons; [|by apply D2].
    apply not_true_iff_false. intros H. apply (pr_live t u P2) in H.
    rewrite D1 in H; [done|set_solver].
  - intros y Hs Hu. destruct (live (node_at t y)) eqn:Ht.
    + destruct (K2 y Ht Hu) as (d & Hd & Hdy). exists d. split; [by right|]. by eapply desc_pruned.
    + destruct (K1 y Hs Ht) as (d & Hd & Hdy). exists d. split; [set_solver|done].
  - by rewrite H2.
Qed.

(** One subtree: the children, then the node. *)
Lemma disposed_node k c l P s t u :
  disposable k (c :: l) P s →
  disposed (reverse (owned (node_at s c))) (c :: l ++ P) (upd c (set_owned []) s) t →
  release_node c t = Some u → disposed [c] (l ++ P) s u.
Proof.
  intros D [C1 O1 P1 D1 K1 H1] Hu. pose proof (disposable_children k c l P s D) as D'.
  assert (live (node_at s c) = true) as Hc by (apply (da_live k _ _ _ D); set_solver).
  pose proof (live_in_table s c Hc) as Hx.
  assert (live (node_at t c) = true) as Hct.
  { apply not_false_iff_true. intros Hct. destruct (K1 c) as (d & Hd & Hdc); [|done|].
    - by rewrite upd_owned_node, decide_True by done.
    - eapply (pending_survives _ _ _ _ c d D'); set_solver. }
  assert (owned (node_at t c) = []) as Hot.
  { destruct (pr_fields _ t P1 c Hct) as (_ & _ & _ & _ & _ & ->).
    by rewrite upd_owned_node, decide_True by done. }
  destruct (release_node_spec c t C1 Hct) as (u' & Hu' & Hr & Hh). simplify_eq.
  assert (pruned t u) as Ptu by by apply (removed_pruned c).
  assert (live (node_at u c) = false) as Hcu by by rewrite (rm_nodes c t u Hr), decide_True.
  split.
  - by eapply removed_core.
  - eapply owners_removed; [done..| |].
    + intros d Hd Ho. destruct (live (node_at t d)) eqn:Hdt.
      * destruct (pr_fields _ t P1 d Hdt) as (_ & _ & _ & _ & E & _). rewrite E in Ho.
        pose proof (da_owner _ _ _ _ D' d c) as Hlt. specialize (Hlt ltac:(set_solver) Ho).
        pose proof (da_rank k _ _ _ D c ltac:(set_solver)).
        assert (owner (node_at s d) = Some c) as Hos.
        { revert Ho. rewrite upd_owned_node by done. by case_decide; subst. }
        pose proof (da_owner k _ _ _ D d c ltac:(set_solver) Hos). lia.
      * destruct (dead_empty _ (core_nodes t C1 d) Hdt) as (_ & _ & _ & _ & E & _). congruence.
    + pose proof (da_nodup k _ _ _ D) as Hn. cbn in Hn. by apply NoDup_cons in Hn as [? _].
  - eapply pruned_take; [done| |done]. by eapply pruned_trans.
  - intros d ->%list_elem_of_singleton. done.
  - intros y Hs Hyu. exists c. split; [set_solver|].
    destruct (live (node_at t y)) eqn:Hyt.
    + rewrite (rm_nodes c t u Hr) in Hyu. case_decide; [by subst; constructor|]. cbn in Hyu. congruence.
    + destruct (K1 y) as (d & Hd & Hdy); [|done|].
      { rewrite upd_owned_node by done. by case_decide; subst. }
      rewrite elem_of_reverse in Hd. apply (own_child R _ s (da_owners k _ _ _ D)) in Hd as [_ Hd].
      eapply rtc_l; [exact Hd|]. exact (desc_take c s d y Hx Hdy).
  - rewrite Hh, H1. unfold held.
    rewrite (collect_ext cells (upd c (set_owned []) s) s); [done|apply upd_length|].
    intros y. rewrite upd_owned_node by done. by case_decide; subst.
Qed.

(** The rest of the list is still disposable. *)
Lemma disposable_rest k c l P s t :
  disposable k (c :: l) P s → disposed [c] (l ++ P) s t → disposable k l P t.
Proof.
  intros D [C1 O1 P1 D1 K1 H1]. pose proof (da_nodup k _ _ _ D) as Hn. cbn in Hn.
  apply NoDup_cons in Hn as [Hcn Hn]. split; try done.
  - intros d Hd. apply not_false_iff_true. intros Hdt. destruct (K1 d) as (e & ->%list_elem_of_singleton & He).
    + apply (da_live k _ _ _ D). set_solver.
    + done.
    + apply rtc_inv_r in He as [->|(a & Hca & Ha)]; [set_solver|].
      pose proof (desc_rank R _ s c a (da_owners k _ _ _ D) Hca).
      pose proof (da_owner k _ _ _ D d a ltac:(set_solver) Ha).
      pose proof (da_rank k _ _ _ D c ltac:(set_solver)). lia.
  - intros d Hd. apply (da_rank k _ _ _ D). set_solver.
  - intros d a Hd Ha. apply (da_owner k _ _ _ D d); [set_solver|].
    destruct (live (node_at t d)) eqn:Hdt.
    + by destruct (pr_fields s t P1 d Hdt) as (_ & _ & _ & _ & <- & _).
    + destruct (dead_empty _ (core_nodes t C1 d) Hdt) as (_ & _ & _ & _ & E & _). congruence.
Qed.

Lemma dispose_list fuel k l P s :
  disposable k l P s → mass R k s < fuel →
  ∃ t, fold_opt (dispose_subtree fuel) l s = Some t ∧ disposed l P s t.
Proof.
  revert k l P s. induction fuel as [|fuel IHf]; intros k l P s D Hm; [lia|].
  revert s D Hm. induction l as [|c l IHl]; intros s D Hm; cbn [fold_opt].
  { exists s. split; [done|]. apply disposed_nil; apply D. }
  assert (live (node_at s c) = true) as Hc by (apply (da_live k _ _ _ D); set_solver).
  rewrite dispose_subtree_unfold by done.
  destruct (IHf _ _ _ _ (disposable_children k c l P s D)) as (t & -> & Dt).
  { pose proof (mass_child R k c s (set_owned []) Hc (da_rank k _ _ _ D c ltac:(set_solver)) (λ _, eq_refl)). lia. }
  cbn [mbind option_bind]. destruct (release_node_spec c t (dp_core _ _ _ _ Dt)) as (u & Hu & _).
  { apply not_false_iff_true. intros Hct. destruct (dp_only _ _ _ _ Dt c) as (d & Hd & Hdc); [|done|].
    - by rewrite upd_owned_node, decide_True by (done || by apply live_in_table).
    - eapply (pending_survives _ _ _ _ c d (disposable_children k c l P s D)); set_solver. }
  rewrite Hu. pose proof (disposed_node k c l P s t u D Dt Hu) as Dc.
  destruct (IHl u) as (w & -> & Dw); [by eapply disposable_rest| |].
  { pose proof (mass_pruned R k s u (dp_pruned _ _ _ _ Dc)). lia. }
  exists w. split; [done|]. by eapply disposed_cons.
Qed.
End DisposeSubtree.
