(* ===== verification/ReactiveWf.v ===== *)
(** The invariant of the reactive graph ([wf]) and its preservation: marking,
    subscribing, opening and closing a frame, creation and disposal. *)
From S2P Require Import Prelude Reactive ReactiveFacts.
From stdpp Require Import options.

(** ** Writes that keep the invariant's parts *)
Section Writes.
  Context {V : Type}.
  Implicit Types (n : Node V) (s t : Inner V).

(** A write that keeps life, kind and edges of one node. *)
Lemma core_write x f s t :
  core s → in_table s x → nodes t = nodes (upd x f s) → free t = free s →
  (∀ n, sources (f n) = sources n ∧ subscribers (f n) = subscribers n ∧ live (f n) = live n) →
  node_ok (f (node_at s x)) →
  dirty_computeds t + Nat.b2n (is_stale (node_at s x)) =
    dirty_computeds s + Nat.b2n (is_stale (f (node_at s x))) →
  core t.
Proof.
  intros [[E1 E2 E3 E4] Hn Hc Hf Hm] Hx Ht F Hk Hok Hd.
  assert (∀ y, node_at t y = if decide (x = y) then f (node_at s x) else node_at s y) as N.
  { intros y. rewrite <-node_at_upd by done. unfold node_at. by rewrite Ht. }
  assert (∀ y, sources (node_at t y) = sources (node_at s y) ∧
    subscribers (node_at t y) = subscribers (node_at s y) ∧ live (node_at t y) = live (node_at s y)) as K.
  { intros y. rewrite N. case_decide; subst; [apply Hk|done]. }
  split; [split|..].
  - intros a b. destruct (K a) as (_ & -> & _), (K b) as (-> & _). apply E1.
  - intros a. destruct (K a) as (-> & _). apply E2.
  - intros a. destruct (K a) as (-> & _). apply E3.
  - intros a. destruct (K a) as (_ & -> & _). apply E4.
  - intros y. rewrite N. case_decide; [done|apply Hn].
  - pose proof (count_upd is_stale x f s Hx) as H.
    assert (count is_stale t = count is_stale (upd x f s)) as -> by (unfold count, collect; by rewrite Ht).
    lia.
  - by rewrite F.
  - intros y. rewrite F, Hm. unfold in_table. rewrite Ht, upd_length. by destruct (K y) as (_ & _ & ->).
Qed.

Lemma owners_ext R P s t :
  owners R P s →
  (∀ y, live (node_at t y) = live (node_at s y) ∧ owner (node_at t y) = owner (node_at s y) ∧
        owned (node_at t y) = owned (node_at s y)) →
  owners R P t.
Proof.
  intros [O1 O2 O3 O4 O5] K. split.
  - intros a c. destruct (K a) as (_ & _ & ->), (K c) as (-> & -> & _). apply O1.
  - intros a c. destruct (K a) as (-> & _ & ->), (K c) as (_ & -> & _). apply O2.
  - intros a c. destruct (K a) as (_ & _ & ->). apply O3.
  - intros a. destruct (K a) as (_ & _ & ->). apply O4.
  - intros a c. destruct (K c) as (_ & -> & _). apply O5.
Qed.

(** The other fields of the interior are free to change. *)
Lemma core_same s t :
  nodes t = nodes s → free t = free s → dirty_computeds t = dirty_computeds s → core s → core t.
Proof.
  intros N F D C. assert (∀ y, node_at t y = node_at s y) as Hn by (intros y; unfold node_at; by rewrite N).
  apply (core_ext s); try done; [by rewrite N|intros y; by rewrite Hn|]. intros y. rewrite Hn. by apply core_nodes.
Qed.

Lemma owners_same R P s t : nodes t = nodes s → owners R P s → owners R P t.
Proof.
  intros N O. apply (owners_ext R P s t O). intros y. unfold node_at. by rewrite N.
Qed.
End Writes.

(** ** Marking *)
Section Marking.
  Context {V : Type}.
  Implicit Types (n : Node V) (s t : Inner V).

(** [t] is [s] with more [dirty] and [queued] flags, the queue in step with them. *)
Record soft s t : Prop := {
  so_length : length (nodes t) = length (nodes s);
  so_node y : ∃ d q, node_at t y = set_dirty d (set_queued q (node_at s y)) ∧
    (dirty (node_at s y) = true → d = true) ∧ (queued (node_at s y) = true → q = true);
  so_queue : ∃ ex, queue t = queue s ++ ex ∧ NoDup ex ∧
    ∀ x, x ∈ ex ↔ queued (node_at t x) = true ∧ queued (node_at s x) = false;
  so_rest : free t = free s ∧ computing t = computing s ∧ reclaimed t = reclaimed s ∧
    flushing t = flushing s ∧ observed t = observed s;
}.

Lemma soft_refl s : soft s s.
Proof.
  split; try done.
  - intros y. exists (dirty (node_at s y)), (queued (node_at s y)). by destruct (node_at s y).
  - exists []. rewrite app_nil_r. split_and!; [done|constructor|]. intros x. split; [set_solver|]. intros []. congruence.
Qed.

Lemma soft_trans s t u : soft s t → soft t u → soft s u.
Proof.
  intros [L N (e & E & Ne & Me) F] [L' N' (e' & E' & Ne' & Me') F']. split.
  - congruence.
  - intros y. destruct (N y) as (d & q & E1 & Hd & Hq), (N' y) as (d' & q' & E2 & Hd' & Hq').
    exists d', q'. rewrite E1 in E2, Hd', Hq'. rewrite E2. split; [done|]. cbn in *. auto.
  - exists (e ++ e'). split_and!.
    + by rewrite E', E, app_assoc.
    + apply NoDup_app. split_and!; [done| |done]. intros x Hx Hx'. apply Me in Hx as [? _]. apply Me' in Hx' as [_ ?]. congruence.
    + intros x. rewrite elem_of_app, Me, Me'.
      destruct (N x) as (d & q & E1 & Hd & Hq), (N' x) as (d' & q' & E2 & Hd' & Hq').
      rewrite E2, E1 in *. cbn in *. clear -Hq Hq'.
      destruct (queued (node_at s x)), q, q'; intuition congruence.
  - destruct F as (-> & -> & -> & -> & ->) in F' |- *. done.
Qed.

(** The fields marking leaves alone. *)
Lemma soft_fields s t y :
  soft s t →
  kind (node_at t y) = kind (node_at s y) ∧ live (node_at t y) = live (node_at s y) ∧
  sources (node_at t y) = sources (node_at s y) ∧ subscribers (node_at t y) = subscribers (node_at s y) ∧
  content (node_at t y) = content (node_at s y) ∧ body (node_at t y) = body (node_at s y) ∧
  owner (node_at t y) = owner (node_at s y) ∧ owned (node_at t y) = owned (node_at s y).
Proof. intros [_ N _ _]. by destruct (N y) as (d & q & -> & _). Qed.

Lemma soft_dirty s t y : soft s t → dirty (node_at s y) = true → dirty (node_at t y) = true.
Proof. intros [_ N _ _]. destruct (N y) as (d & q & -> & Hd & _). apply Hd. Qed.
Lemma soft_queued s t y : soft s t → queued (node_at s y) = true → queued (node_at t y) = true.
Proof. intros [_ N _ _]. destruct (N y) as (d & q & -> & _ & Hq). apply Hq. Qed.

(** A change has reached the node: a computed is stale, an effect is queued. *)
Definition notified n : Prop :=
  (kind n = Computed → dirty n = true) ∧ (kind n = Effect → queued n = true).

Lemma soft_notified s t y : soft s t → notified (node_at s y) → notified (node_at t y).
Proof.
  intros S [Hc He]. destruct (soft_fields s t y S) as (K & _).
  split; rewrite K; intros H; [eapply soft_dirty|eapply soft_queued]; eauto.
Qed.

(** The computeds a change has yet to reach. *)
Definition clean n : bool := bool_decide (kind n = Computed) && negb (dirty n).

Lemma upd_soft x f s t :
  in_table s x → nodes t = nodes (upd x f s) →
  (∃ d q, f (node_at s x) = set_dirty d (set_queued q (node_at s x)) ∧
    (dirty (node_at s x) = true → d = true) ∧ (queued (node_at s x) = true → q = true)) →
  queue t = (if queued (f (node_at s x)) && negb (queued (node_at s x)) then queue s ++ [x] else queue s) →
  free t = free s ∧ computing t = computing s ∧ reclaimed t = reclaimed s ∧
    flushing t = flushing s ∧ observed t = observed s →
  soft s t.
Proof.
  intros Hx Hn Hf Hq Hr.
  assert (∀ y, node_at t y = if decide (x = y) then f (node_at s x) else node_at s y) as N.
  { intros y. rewrite <-node_at_upd by done. unfold node_at. by rewrite Hn. }
  split; [by rewrite Hn, upd_length| | |done].
  - intros y. rewrite N. case_decide; [by subst|]. apply (soft_refl s).
  - rewrite Hq. destruct (queued (f (node_at s x)) && _) eqn:E.
    + bool_to_prop. exists [x]. split_and!; [done|apply NoDup_singleton|]. intros y.
      rewrite list_elem_of_singleton, N. case_decide; subst; [done|]. split; [congruence|intros []; congruence].
    + exists []. rewrite app_nil_r. split_and!; [done|constructor|]. intros y. rewrite N. split; [set_solver|].
      case_decide; subst; intros [H1 H2]; [rewrite H1, H2 in E; done|congruence].
Qed.

(** One subscriber. *)
Lemma mark_subscriber_spec sub cur work s :
  core s → sub ∈ subscribers (node_at s cur) →
  ∃ work' t, mark_subscriber sub (work, s) = Some (work', t) ∧ core t ∧ soft s t ∧
    notified (node_at t sub) ∧ (∀ y, y ≠ sub → node_at t y = node_at s y) ∧
    (∀ y, y ∈ work' ↔ y ∈ work ∨ (y = sub ∧ clean (node_at s sub) = true)) ∧
    length work' + count clean t = length work + count clean s.
Proof.
  intros C Hsub. pose proof (core_edges s C) as He.
  apply (edge_sym s He) in Hsub as Hsrc. destruct (source_in_table s cur sub He Hsrc) as [_ Hx].
  pose proof (core_nodes s C sub) as Hok.
  unfold mark_subscriber. rewrite lookup_node_at by done. cbn.
  destruct (kind (node_at s sub)) eqn:Hk.
  - destruct (signal_plain _ Hok Hk) as [E _]. rewrite E in Hsrc. set_solver.
  - destruct (dirty (node_at s sub)) eqn:Hd.
    { exists work, s. split_and!; try done; [apply soft_refl|split; [done|congruence]|].
      intros y. unfold clean. rewrite Hd, andb_false_r. naive_solver. }
    rewrite modify_upd by done. cbn. eexists _, _. split; [done|].
    set (t := if observed _ then _ else _).
    assert (nodes t = nodes (upd sub (set_dirty true) s)) as Ht by (unfold t; by case_match).
    assert (∀ y, node_at t y = if decide (sub = y) then set_dirty true (node_at s sub) else node_at s y) as N.
    { intros y. rewrite <-node_at_upd by done. unfold node_at. by rewrite Ht. }
    split_and!.
    + eapply (core_write sub (set_dirty true)); try done.
      * unfold t. by case_match.
      * destruct Hok as [D S B R L Q]. split; cbn; try done; [|congruence].
        intros Hl. exfalso. destruct (D Hl) as (E & _). rewrite E in Hsrc. set_solver.
      * assert (is_stale (node_at s sub) = false) as -> by (unfold is_stale; by rewrite Hd, andb_false_r).
        assert (is_stale (set_dirty true (node_at s sub)) = true) as -> by (unfold is_stale; cbn; by rewrite Hk).
        unfold t, upd. case_match; cbn; lia.
    + apply (upd_soft sub (set_dirty true)); [done..| | |].
      * exists true, (queued (node_at s sub)). by destruct (node_at s sub).
      * cbn. rewrite andb_negb_r. unfold t. by case_match.
      * unfold t. by case_match.
    + rewrite N, decide_True by done. split; cbn; congruence.
    + intros y Hy. by rewrite N, decide_False.
    + intros y. rewrite elem_of_cons. unfold clean. rewrite Hk, Hd. naive_solver.
    + pose proof (count_upd clean sub (set_dirty true) s Hx) as H.
      assert (count clean t = count clean (upd sub (set_dirty true) s)) as -> by (unfold count, collect; by rewrite Ht).
      assert (clean (node_at s sub) = true) as E1 by (unfold clean; by rewrite Hk, Hd).
      assert (clean (set_dirty true (node_at s sub)) = false) as E2 by (unfold clean; apply andb_false_r).
      rewrite E1, E2 in H. cbn [length Nat.b2n] in *. lia.
  - destruct (queued (node_at s sub)) eqn:Hq.
    { exists work, s. split_and!; try done; [apply soft_refl|split; congruence|].
      intros y. unfold clean. rewrite Hk. naive_solver. }
    rewrite modify_upd by done. cbn. set (f := λ n, set_dirty true (set_queued true n)).
    eexists _, _. split; [done|]. set (t := with_queue _ _).
    assert (∀ y, node_at t y = if decide (sub = y) then f (node_at s sub) else node_at s y) as N.
    { intros y. rewrite <-node_at_upd by done. done. }
    split_and!.
    + eapply (core_write sub f); try done.
      * destruct Hok as [D S B R L Q]. split; cbn; try done; [|congruence].
        intros Hl. exfalso. destruct (D Hl) as (E & _). rewrite E in Hsrc. set_solver.
      * unfold is_stale. cbn. by rewrite Hk.
    + apply (upd_soft sub f); [done..| | |done].
      * exists true, true. done.
      * cbn. by rewrite Hq.
    + rewrite N, decide_True by done. split; cbn; congruence.
    + intros y Hy. by rewrite N, decide_False.
    + intros y. unfold clean. rewrite Hk. naive_solver.
    + pose proof (count_upd clean sub f s Hx) as H. change (count clean t) with (count clean (upd sub f s)).
      assert (clean (node_at s sub) = false ∧ clean (f (node_at s sub)) = false) as [E1 E2]
        by (unfold clean; cbn; by rewrite Hk).
      rewrite E1, E2 in H. lia.
Qed.

(** All the subscribers of one node. *)
Lemma mark_subscribers_spec cur l work s :
  core s → (∀ y, y ∈ l → y ∈ subscribers (node_at s cur)) →
  ∃ work' t, fold_opt mark_subscriber l (work, s) = Some (work', t) ∧ core t ∧ soft s t ∧
    (∀ y, y ∈ l → notified (node_at t y)) ∧ (∀ y, y ∉ l → node_at t y = node_at s y) ∧
    (∀ y, y ∈ work' ↔ y ∈ work ∨ (y ∈ l ∧ clean (node_at s y) = true)) ∧
    length work' + count clean t = length work + count clean s.
Proof.
  revert work s. induction l as [|x l IH]; intros work s C Hl; cbn [fold_opt].
  { exists work, s. split_and!; try done; [apply soft_refl|set_solver..]. }
  destruct (mark_subscriber_spec x cur work s C) as (w1 & s1 & -> & C1 & S1 & N1 & K1 & W1 & L1).
  { apply Hl. set_solver. }
  destruct (IH w1 s1 C1) as (w2 & s2 & -> & C2 & S2 & N2 & K2 & W2 & L2).
  { intros y Hy. destruct (soft_fields s s1 cur S1) as (_ & _ & _ & -> & _). apply Hl. set_solver. }
  exists w2, s2. split_and!; try done.
  - by eapply soft_trans.
  - intros y [->|Hy]%elem_of_cons; [|by apply N2]. by eapply soft_notified.
  - intros y Hy. rewrite K2, K1; set_solver.
  - intros y. rewrite W2, W1, elem_of_cons. destruct (decide (y = x)) as [->|Hy].
    + assert (clean (node_at s1 x) = false) as ->; [|naive_solver].
      unfold clean. case_bool_decide as Hk; [|done]. by rewrite (proj1 N1 Hk).
    + rewrite (K1 y Hy). naive_solver.
  - lia.
Qed.

(** What a walk from [node] has established when it has [work] left to do. *)
Record walk (node : NodeId) s0 (work : list NodeId) s : Prop := {
  wk_core : core s;
  wk_soft : soft s0 s;
  wk_changed y : node_at s y ≠ node_at s0 y → tc (λ a b, b ∈ subscribers (node_at s0 a)) node y;
  wk_work y : y ∈ work → y = node ∨ tc (λ a b, b ∈ subscribers (node_at s0 a)) node y;
  wk_fresh y : y ∈ work → in_table s0 y;
  wk_done y : y = node ∨ (clean (node_at s0 y) = true ∧ dirty (node_at s y) = true) →
    y ∈ work ∨ ∀ sub, sub ∈ subscribers (node_at s0 y) → notified (node_at s sub);
}.

Lemma walk_start node s : core s → in_table s node → walk node s [node] s.
Proof.
  intros C Hx. split; try done; [apply soft_refl|set_solver|set_solver|].
  intros y [->|[Hc Hd]]; [set_solver|]. unfold clean in Hc. rewrite Hd, andb_false_r in Hc. done.
Qed.

(** The loop finishes and the change has reached everything it must. *)
Lemma mark_loop_spec fuel node s0 work s :
  walk node s0 work s → length work + count clean s ≤ fuel →
  ∃ t, mark_loop fuel work s = Some t ∧ walk node s0 [] t.
Proof.
  revert work s. induction fuel as [|fuel IH]; intros [|cur work] s W Hf; cbn in Hf;
    [by exists s|lia|by exists s|].
  destruct W as [C S Hch Hw Hfr Hd]. cbn [mark_loop].
  assert (in_table s cur) as Hx.
  { unfold in_table. rewrite (so_length _ _ S). apply Hfr. set_solver. }
  rewrite lookup_node_at by done. cbn.
  destruct (mark_subscribers_spec cur (subscribers (node_at s cur)) work s C)
    as (w & t & -> & Ct & St & Nt & Kt & Wt & Lt); [done|]. cbn.
  destruct (soft_fields s0 s cur S) as (_ & _ & _ & Esub & _).
  apply IH; [|lia]. split; [done|by eapply soft_trans|..].
  - intros y Hy. destruct (decide (y ∈ subscribers (node_at s cur))) as [Hin|Hin].
    + rewrite Esub in Hin. destruct (Hw cur) as [->|Hr]; [set_solver|by apply tc_once|by eapply tc_r].
    + apply Hch. by rewrite <-Kt.
  - intros y [Hy|[Hy _]]%Wt; [apply Hw; set_solver|]. right. rewrite Esub in Hy.
    destruct (Hw cur) as [->|Hr]; [set_solver|by apply tc_once|by eapply tc_r].
  - intros y [Hy|[Hy _]]%Wt; [apply Hfr; set_solver|].
    unfold in_table. rewrite <-(so_length _ _ S). apply (edge_sym s (core_edges s C)) in Hy.
    by apply (source_in_table s cur y (core_edges s C)).
  - intros y Hy. destruct (decide (y = cur)) as [->|Hne].
    { right. intros sub Hsub. apply Nt. by rewrite Esub. }
    destruct (decide (y ∈ subscribers (node_at s cur) ∧ clean (node_at s y) = true)) as [Hin|Hin].
    { left. apply Wt. by right. }
    destruct (Hd y) as [Hy'|Hy'].
    + destruct Hy as [->|[Hc Hdt]]; [by left|]. right. split; [done|].
      destruct (decide (y ∈ subscribers (node_at s cur))) as [Hs|Hs]; [|by rewrite <-Kt].
      apply not_false_iff_true. intros Hf'. apply Hin. split; [done|].
      unfold clean in *. destruct (soft_fields s0 s y S) as (-> & _). rewrite Hf'.
      apply andb_true_iff in Hc as [-> _]. done.
    + left. apply Wt. left. set_solver.
    + right. intros sub Hsub. by eapply soft_notified, Hy'.
Qed.

(** [mark_dirty_subscribers]: the walk always ends, and nothing is left unreached. *)
Lemma mark_dirty_subscribers_spec node s :
  core s → in_table s node →
  ∃ t, mark_dirty_subscribers node s = Some t ∧ walk node s [] t.
Proof.
  intros C Hx. apply mark_loop_spec; [by apply walk_start|]. cbn.
  assert (count clean s ≤ length (nodes s)); [|lia]. unfold count, collect.
  induction (nodes s) as [|n l IH]; [done|]. rewrite bind_cons, length_app. cbn.
  destruct (clean n); cbn; lia.
Qed.
End Marking.

(** ** Subscriptions *)
Section Subscriptions.
  Context {V : Type}.
  Implicit Types (n : Node V) (s t : Inner V).

(** [t] is [s] with other edges. *)
Record rewired s t : Prop := {
  rw_length : length (nodes t) = length (nodes s);
  rw_node y : ∃ a b, node_at t y = set_sources a (set_subscribers b (node_at s y));
  rw_rest : t = with_computing (computing t) (with_nodes (nodes t) s);
}.

Lemma rewired_fields s t y :
  rewired s t →
  kind (node_at t y) = kind (node_at s y) ∧ live (node_at t y) = live (node_at s y) ∧
  dirty (node_at t y) = dirty (node_at s y) ∧ queued (node_at t y) = queued (node_at s y) ∧
  content (node_at t y) = content (node_at s y) ∧ body (node_at t y) = body (node_at s y) ∧
  owner (node_at t y) = owner (node_at s y) ∧ owned (node_at t y) = owned (node_at s y).
Proof. intros [_ N _]. by destruct (N y) as (a & b & ->). Qed.

Lemma rewired_owners R P s t : rewired s t → owners R P s → owners R P t.
Proof.
  intros W O. apply (owners_ext R P s t O). intros y.
  by destruct (rewired_fields s t y W) as (_ & -> & _ & _ & _ & _ & -> & ->).
Qed.

Lemma rewired_core s t :
  core s → rewired s t → edges t →
  (∀ y, live (node_at s y) = false → sources (node_at t y) = [] ∧ subscribers (node_at t y) = []) →
  (∀ y, kind (node_at s y) = Signal → sources (node_at t y) = []) →
  (∀ y, kind (node_at s y) = Effect → subscribers (node_at t y) = []) →
  core t.
Proof.
  intros [He Hn Hc Hf Hm] W He' HD HS HE. pose proof (rw_rest s t W) as F. split; [done|..].
  - intros y. destruct (rewired_fields s t y W) as (Ek & El & Ed & Eq & Ec & Eb & Eo & Ew).
    pose proof (HD y) as HDy. pose proof (HS y) as HSy. pose proof (HE y) as HEy.
    destruct (Hn y) as [D S B R L Q].
    split; rewrite ?Ek, ?El, ?Ed, ?Eq, ?Ec, ?Eb, ?Eo, ?Ew; try done.
    + intros Hl. destruct (D Hl) as (_ & _ & ?). destruct (HDy Hl). done.
    + intros Hk. split; [auto|]. by apply S.
  - rewrite F. cbn. rewrite Hc. apply count_ext; [by rewrite (rw_length s t W)|].
    intros y. unfold is_stale. by destruct (rewired_fields s t y W) as (-> & _ & -> & _).
  - by rewrite F.
  - intros y. unfold in_table. rewrite (rw_length s t W).
    destruct (rewired_fields s t y W) as (_ & -> & _). rewrite F. apply Hm.
Qed.

(** [record_dependency] inside the frame of [sub]. *)
Lemma record_dependency_spec src sub stack s :
  core s → computing s = sub :: stack →
  live (node_at s sub) = true → kind (node_at s sub) ≠ Signal →
  live (node_at s src) = true → kind (node_at s src) ≠ Effect →
  ∃ t, record_dependency src s = Some t ∧ core t ∧ rewired s t ∧ computing t = computing s ∧
    ∀ y a, a ∈ sources (node_at t y) ↔
      a ∈ sources (node_at s y) ∨ (a = src ∧ src ≠ sub ∧ y = sub).
Proof.
  intros C Hst Hls Hks Hl Hk. unfold record_dependency. rewrite Hst.
  pose proof (live_in_table _ _ Hls) as Hxs. pose proof (live_in_table _ _ Hl) as Hx.
  assert (rewired s s) as Hrefl.
  { split; [done| |by destruct s]. intros y. exists (sources (node_at s y)), (subscribers (node_at s y)).
    by destruct (node_at s y). }
  case_decide as Hne; [exists s; split_and!; naive_solver|]. rewrite lookup_node_at by done. cbn.
  case_decide as Hin; [exists s; split_and!; naive_solver|].
  rewrite modify_upd by done. cbn. rewrite modify_upd by by apply in_table_upd.
  eexists. split; [done|]. set (t := upd src _ _).
  assert (∀ y, node_at t y = if decide (src = y) then set_subscribers (subscribers (node_at s y) ++ [sub]) (node_at s y)
    else if decide (sub = y) then set_sources (sources (node_at s y) ++ [src]) (node_at s y) else node_at s y) as N.
  { intros y. unfold t. rewrite node_at_upd by by apply in_table_upd.
    case_decide; [subst; by rewrite node_at_upd_ne|]. rewrite node_at_upd by done. by case_decide; subst. }
  assert (rewired s t) as W.
  { split; [unfold t; by rewrite !upd_length| |done]. intros y. rewrite N.
    repeat case_decide; subst; [eexists _, _; reflexivity| |apply Hrefl].
    exists (sources (node_at s y) ++ [src]), (subscribers (node_at s y)). done. }
  split_and!; [|done|done|].
  - apply (rewired_core s t C W).
    + destruct C as [[E1 E2 E3 E4] _ _ _ _]. split.
      * intros a b. rewrite (N a), (N b). pose proof (E1 a b).
        repeat case_decide; subst; cbn; rewrite ?elem_of_app, ?list_elem_of_singleton; naive_solver.
      * intros a. rewrite (N a). pose proof (E2 a).
        repeat case_decide; subst; cbn; rewrite ?elem_of_app, ?list_elem_of_singleton; naive_solver.
      * intros a. rewrite (N a). repeat case_decide; subst; cbn; [apply E3| |apply E3].
        apply NoDup_app. split_and!; [apply E3| |apply NoDup_singleton]. intros x Hx' ->%list_elem_of_singleton. done.
      * intros a. rewrite (N a). repeat case_decide; subst; cbn; [|apply E4..].
        apply NoDup_app. split_and!; [apply E4| |apply NoDup_singleton].
        intros x Hx' ->%list_elem_of_singleton. by apply E1 in Hx'.
    + intros y Hy. rewrite N. rewrite !decide_False by congruence.
      by destruct (dead_empty _ (core_nodes s C y) Hy) as (? & ? & _).
    + intros y Hy. rewrite N. assert (sources (node_at s y) = []) by by apply (signal_plain _ (core_nodes s C y)).
      repeat case_decide; subst; done.
    + intros y Hy. rewrite N. assert (subscribers (node_at s y) = []) by by apply (effect_leaf _ (core_nodes s C y)).
      repeat case_decide; subst; done.
  - intros y a. rewrite N. destruct (decide (sub = y)) as [<-|Hy].
    + rewrite decide_False by done. cbn. rewrite elem_of_app, list_elem_of_singleton. naive_solver.
    + case_decide; naive_solver.
Qed.

(** Severing the edges of [x] to its sources. *)
Lemma sever_spec x s :
  core s → in_table s x →
  ∃ t, detach_from_sources x (sources (node_at s x)) (upd x (set_sources []) s) = Some t ∧
    core t ∧ rewired s t ∧ computing t = computing s ∧
    (∀ y, sources (node_at t y) = if decide (x = y) then [] else sources (node_at s y)).
Proof.
  intros C Hx. pose proof (core_edges s C) as He.
  destruct (detach_from_sources_spec x (sources (node_at s x)) (upd x (set_sources []) s)) as (t & E & F & L & N).
  { by apply nodup_sources. }
  { intros y Hy. apply in_table_upd. by apply (source_in_table s y x). }
  rewrite upd_length in L. exists t. split; [done|].
  assert (∀ y, node_at t y = if decide (x = y) then set_sources [] (node_at s y)
    else set_subscribers (remove_id x (subscribers (node_at s y))) (node_at s y)) as N'.
  { intros y. rewrite N, node_at_upd by done. destruct (decide (x = y)) as [<-|Hy].
    - rewrite decide_False; [done|]. by apply edge_irrefl.
    - case_decide as Hin; [done|]. rewrite remove_id_notin, set_subscribers_id; [done|].
      by rewrite <-(edge_sym s He). }
  assert (rewired s t) as W.
  { split; [done| |by rewrite F]. intros y. rewrite N'. case_decide.
    - exists [], (subscribers (node_at s y)). done.
    - exists (sources (node_at s y)), (remove_id x (subscribers (node_at s y))). by destruct (node_at s y). }
  split_and!; [|done|by rewrite F|].
  - apply (rewired_core s t C W).
    + destruct He as [E1 E2 E3 E4]. split.
      * intros a b. rewrite (N' a), (N' b). pose proof (E1 a b). pose proof (E4 a). pose proof (E2 x).
        repeat case_decide; subst; cbn; rewrite ?remove_id_elem by done; set_solver.
      * intros a. rewrite (N' a). pose proof (E2 a). case_decide; subst; cbn; set_solver.
      * intros a. rewrite (N' a). case_decide; cbn; [constructor|apply E3].
      * intros a. rewrite (N' a). case_decide; cbn; [apply E4|apply remove_id_NoDup, E4].
    + intros y Hy. destruct (dead_empty _ (core_nodes s C y) Hy) as (H1 & H2 & _). rewrite N'.
      case_decide; cbn; rewrite ?H1, ?H2; done.
    + intros y Hy. rewrite N'. destruct (signal_plain _ (core_nodes s C y) Hy) as [H1 _]. by case_decide.
    + intros y Hy. rewrite N'. pose proof (effect_leaf _ (core_nodes s C y) Hy) as H1.
      case_decide; cbn; by rewrite H1.
  - intros y. rewrite N'. by case_decide.
Qed.
End Subscriptions.

(** ** Owners *)
Section Owners.
  Context {V : Type}.
  Implicit Types (n : Node V) (s t : Inner V).

(** The children of [x] go; [x] and the nodes of [P] stay. *)
Lemma dispose_owned_spec R P x s :
  core s → owners R P s → NoDup P → live (node_at s x) = true →
  (∀ d a, d ∈ P → owner (node_at s d) = Some a → R a ≤ R x) →
  ∃ t, dispose_owned x s = Some t ∧
    disposed R (reverse (owned (node_at s x))) P (upd x (set_owned []) s) t ∧
    live (node_at t x) = true.
Proof.
  intros C O HP Hl Hr. pose proof (live_in_table _ _ Hl) as Hx.
  assert (disposable R (S (R x)) (reverse (owned (node_at s x))) P (upd x (set_owned []) s)) as D.
  { assert (∀ d, d ∈ owned (node_at s x) → owner (node_at s d) = Some x) as Hc.
    { intros d Hd. by apply (own_child R P s O). }
    split.
    - by apply core_take.
    - by apply owners_take.
    - apply NoDup_app. split_and!; [|intros d Hd Hd'|done].
      + rewrite reverse_Permutation. apply (own_nodup R P s O).
      + rewrite elem_of_reverse in Hd. by apply (own_pending R P s O x d).
    - intros d Hd. rewrite elem_of_reverse in Hd. rewrite upd_owned_node by done.
      apply (own_child R P s O) in Hd as [Hd _]. by case_decide; subst.
    - intros d Hd. rewrite elem_of_reverse in Hd. pose proof (own_rank R P s O x d (Hc d Hd)). lia.
    - intros d a Hd. rewrite upd_owned_node by done. intros Ha.
      assert (owner (node_at s d) = Some a) as Ha' by (case_decide; by subst).
      rewrite elem_of_app, elem_of_reverse in Hd. destruct Hd as [Hd|Hd].
      + rewrite (Hc d Hd) in Ha'. simplify_eq. lia.
      + specialize (Hr d a Hd Ha'). lia. }
  destruct (dispose_list R (tree_fuel (upd x (set_owned []) s)) _ _ _ _ D) as (t & Ht & Dt).
  { pose proof (mass_bound R (S (R x)) (upd x (set_owned []) s)). unfold tree_fuel. lia. }
  exists t. split; [|split; [done|]].
  - unfold dispose_owned. rewrite lookup_node_at by done. cbn. rewrite modify_upd by done. done.
  - apply not_false_iff_true. intros Hxt.
    destruct (dp_only _ _ _ _ _ Dt x) as (d & Hd & Hdx); [|done|].
    + by rewrite upd_owned_node, decide_True by done.
    + apply (desc_rank R _ _ _ _ (da_owners _ _ _ _ _ D)) in Hdx. pose proof (da_rank _ _ _ _ _ D d Hd). lia.
Qed.

(** [leave_owner] makes [x] pending. *)
Lemma leave_owner_spec R x s :
  core s → owners R [] s → live (node_at s x) = true →
  ∃ t, leave_owner x s = Some t ∧ core t ∧ owners R [x] t ∧ length (nodes t) = length (nodes s) ∧
    (∀ y, ∃ l, node_at t y = set_owned l (node_at s y) ∧ ∀ c, c ∈ l ↔ c ∈ owned (node_at s y) ∧ c ≠ x) ∧
    t = with_nodes (nodes t) s.
Proof.
  intros C O Hl. pose proof (live_in_table _ _ Hl) as Hx. unfold leave_owner.
  rewrite lookup_node_at by done. cbn. destruct (owner (node_at s x)) as [o|] eqn:Ho.
  - destruct (own_parent R [] s O o x Ho) as [Hlo _]. pose proof (live_in_table _ _ Hlo) as Hxo.
    rewrite lookup_node_at by done. cbn. rewrite Hlo, modify_upd by done.
    eexists. split; [done|]. set (f := λ n, set_owned (remove_id x (owned n)) n). set (t := upd o f s).
    assert (∀ y, node_at t y = set_owned (if decide (o = y) then remove_id x (owned (node_at s y)) else owned (node_at s y)) (node_at s y)) as N.
    { intros y. unfold t. rewrite node_at_upd by done. case_decide; subst; [done|]. by destruct (node_at s y). }
    assert (∀ y c, c ∈ (if decide (o = y) then remove_id x (owned (node_at s y)) else owned (node_at s y)) ↔
      c ∈ owned (node_at s y) ∧ c ≠ x) as M.
    { intros y c. case_decide as Hy.
      - apply remove_id_elem, (own_nodup R [] s O).
      - split; [|by intros [? _]]. intros Hc. split; [done|]. intros ->.
        apply (own_child R [] s O) in Hc as [_ Hc]. congruence. }
    split_and!; [| |apply upd_length| |done].
    + apply (core_write o f s t); try done. destruct (core_nodes s C o) as [D S B L E Q].
      split; try done. intros Hd. cbn in Hd. congruence.
    + destruct O as [O1 O2 O3 O4 O5]. split.
      * intros a c. rewrite (N a), (N c). cbn. rewrite M. intros [? _]. auto.
      * intros a c. rewrite (N a), (N c). cbn. rewrite M, list_elem_of_singleton. intros Hc.
        destruct (O2 a c Hc) as [? [?|?]]; [|set_solver]. split; [done|]. destruct (decide (c = x)); auto.
      * intros a c ->%list_elem_of_singleton. rewrite (N a). cbn. rewrite M. naive_solver.
      * intros a. rewrite (N a). cbn. case_decide; [apply remove_id_NoDup|]; apply O4.
      * intros a c. rewrite (N c). cbn. apply O5.
    + intros y. eexists. split; [apply N|apply M].
  - exists s. split_and!; [done|done| |done| |by destruct s].
    + destruct O as [O1 O2 O3 O4 O5]. split; try done.
      * intros a c Hc. destruct (O2 a c Hc) as [? [?|?]]; [auto|set_solver].
      * intros a c ->%list_elem_of_singleton Hc. destruct (O1 a x Hc). congruence.
    + intros y. exists (owned (node_at s y)). split; [by destruct (node_at s y)|].
      intros c. split; [|by intros [? _]]. intros Hc. split; [done|]. intros ->.
      apply (own_child R [] s O) in Hc as [_ Hc]. congruence.
Qed.

(** A new node takes a dead slot. *)
Lemma alloc_spec nn s0 s :
  core s0 → s = with_dirty_computeds (dirty_computeds s0 + Nat.b2n (is_stale nn)) s0 →
  live nn = true → sources nn = [] → subscribers nn = [] → node_ok nn →
  ∃ x t, alloc nn s = Some (x, t) ∧ core t ∧ live (node_at s0 x) = false ∧
    (∀ y, node_at t y = if decide (x = y) then nn else node_at s0 y) ∧
    (∀ y, in_table s0 y → in_table t y) ∧
    t = with_nodes (nodes t) (with_free (free t) s).
Proof.
  intros [[E1 E2 E3 E4] Hn Hc Hf Hm] -> Hl Hs Hb Hok.
  assert (∀ x t, live (node_at s0 x) = false →
    (∀ y, node_at t y = if decide (x = y) then nn else node_at s0 y) → edges t) as He.
  { intros x t Hd N. destruct (dead_empty _ (Hn x) Hd) as (Dx & Sx & _). split.
    - intros a b. rewrite (N a), (N b). pose proof (E1 a b) as Hab.
      repeat case_decide; subst; rewrite ?Hs, ?Hb; rewrite ?Dx, ?Sx in Hab; [set_solver|set_solver|set_solver|done].
    - intros a. rewrite (N a). case_decide; [rewrite Hs; set_solver|apply E2].
    - intros a. rewrite (N a). case_decide; [rewrite Hs; constructor|apply E3].
    - intros a. rewrite (N a). case_decide; [rewrite Hb; constructor|apply E4]. }
  unfold alloc. cbn. destruct (free s0) as [|x rest] eqn:Efree.
  - set (x := length (nodes s0)). eexists x, _. split; [done|].
    set (t := with_nodes _ _).
    assert (∀ y, node_at t y = if decide (x = y) then nn else node_at s0 y) as N.
    { intros y. unfold node_at, t. cbn. destruct (decide (x = y)) as [<-|Hy].
      - by rewrite lookup_app_r, Nat.sub_diag by done.
      - destruct (decide (y < x)) as [Hlt|Hge].
        + by rewrite lookup_app_l by done.
        + rewrite !lookup_ge_None_2; [done|..]; rewrite ?length_app; cbn; unfold x in *; lia. }
    assert (live (node_at s0 x) = false) as Hd by (unfold node_at; by rewrite lookup_ge_None_2).
    split_and!; [split|done|done| |].
    + by eapply He.
    + intros y. rewrite N. by case_decide.
    + cbn. unfold count, collect, t. cbn. rewrite bind_app, length_app, Hc. unfold count, collect. cbn.
      rewrite app_nil_r. by destruct (is_stale nn).
    + cbn. rewrite Efree. constructor.
    + intros y. cbn. rewrite Efree. split; [set_solver|]. rewrite N. unfold in_table, t. cbn.
      rewrite length_app. cbn. case_decide; [intros []; congruence|]. intros [Hy Hd'].
      rewrite Hm. split; [unfold in_table, x in *; lia|done].
    + intros y. unfold in_table, t. cbn. rewrite length_app. lia.
    + done.
  - pose proof (proj1 (Hm x) ltac:(set_solver)) as [Hx Hd]. apply NoDup_cons in Hf as [Hxr Hf].
    rewrite modify_upd by done. cbn. eexists x, _. split; [done|].
    set (t := upd x _ _).
    assert (∀ y, node_at t y = if decide (x = y) then nn else node_at s0 y) as N.
    { intros y. change (node_at (upd x (λ _, nn) s0) y = if decide (x = y) then nn else node_at s0 y).
      by rewrite node_at_upd. }
    split_and!; [split|done|done| |].
    + by eapply He.
    + intros y. rewrite N. by case_decide.
    + pose proof (count_upd is_stale x (λ _, nn) s0 Hx) as H.
      assert (is_stale (node_at s0 x) = false) as Hst.
      { destruct (dead_empty _ (Hn x) Hd) as (_ & _ & Hdd & _). unfold is_stale. by rewrite Hdd, andb_false_r. }
      rewrite Hst in H. change (count is_stale t) with (count is_stale (upd x (λ _, nn) s0)).
      change (dirty_computeds t) with (dirty_computeds s0 + Nat.b2n (is_stale nn)).
      cbn [Nat.b2n] in H. lia.
    + done.
    + intros y. change (free t) with rest. rewrite N. unfold in_table, t. rewrite upd_length. cbn.
      specialize (Hm y). rewrite elem_of_cons in Hm. unfold in_table in *. case_decide; subst; [|naive_solver].
      split; [done|intros []; congruence].
    + intros y Hy. unfold t. by apply in_table_upd.
    + done.
Qed.

(** Adoption by the running node. *)
Lemma adopt_spec R x s :
  core s → owners R [] s → live (node_at s x) = true → owner (node_at s x) = None →
  owned (node_at s x) = [] → (∀ c, owner (node_at s c) ≠ Some x) →
  (∀ o, o ∈ computing s → live (node_at s o) = true) → x ∉ computing s →
  ∃ R' t, adopt x s = Some t ∧ core t ∧ owners R' [] t ∧
    (∀ y, ∃ o l, node_at t y = set_owner o (set_owned l (node_at s y))) ∧
    length (nodes t) = length (nodes s) ∧ t = with_nodes (nodes t) s.
Proof.
  intros C O Hl Ho Hw Hno Hst Hxs. unfold adopt. destruct (computing s) as [|o stack] eqn:Est.
  { exists R, s. split_and!; try done; [|by destruct s]. intros y. exists (owner (node_at s y)), (owned (node_at s y)).
    by destruct (node_at s y). }
  assert (o ≠ x) as Hox by set_solver. assert (live (node_at s o) = true) as Hlo by (apply Hst; set_solver).
  pose proof (live_in_table _ _ Hl) as Hx. pose proof (live_in_table _ _ Hlo) as Hxo.
  rewrite modify_upd by done. cbn. rewrite modify_upd by by apply in_table_upd.
  exists (λ y, if decide (y = x) then S (R o) else R y). eexists. split; [done|].
  set (t := upd o _ _).
  assert (∀ y, node_at t y = if decide (x = y) then set_owner (Some o) (node_at s y)
    else if decide (o = y) then set_owned (owned (node_at s y) ++ [x]) (node_at s y) else node_at s y) as N.
  { intros y. unfold t. rewrite node_at_upd by by apply in_table_upd.
    destruct (decide (o = y)) as [<-|?].
    - rewrite (decide_False (P := x = o)), node_at_upd_ne by done. done.
    - rewrite node_at_upd by done. by case_decide; subst. }
  split_and!; [..|by unfold t; rewrite !upd_length|done].
  - apply (core_ext s); try done; [by unfold t; rewrite !upd_length|intros y..]; rewrite N;
      [repeat case_decide; subst; done|]. pose proof (core_nodes s C y) as [D S B L E Q].
    repeat case_decide; subst; split; try done; cbn; intros Hd; congruence.
  - destruct O as [O1 O2 O3 O4 O5]. split.
    + intros a c. rewrite (N a), (N c). intros Hc.
      assert (c = x ∧ a = o ∨ c ∈ owned (node_at s a)) as [[-> ->]|Hin].
      { revert Hc. repeat case_decide; subst; cbn; rewrite ?elem_of_app, ?list_elem_of_singleton; naive_solver. }
      * rewrite decide_True by done. done.
      * clear Hc. destruct (O1 a c Hin). assert (c ≠ x) by congruence.
        rewrite decide_False by done. by case_decide; subst.
    + intros a c. rewrite (N a), (N c). destruct (decide (x = c)) as [<-|Hc]; cbn.
      * intros [= <-]. rewrite decide_False, decide_True by done. cbn. set_solver.
      * intros Hc'. assert (owner (node_at s c) = Some a) as Ha by (case_decide; by subst).
        destruct (O2 a c Ha) as [? [?|?]]; [|set_solver]. assert (x ≠ a) by (intros E; rewrite <-E in Ha; by eapply Hno).
        clear Hc'. rewrite decide_False by done.
        case_decide; subst; cbn; rewrite ?elem_of_app; split; auto.
    + intros a c. set_solver.
    + intros a. rewrite (N a). repeat case_decide; subst; cbn; [apply O4| |apply O4].
      apply NoDup_app. split_and!; [apply O4| |apply NoDup_singleton].
      intros d Hd ->%list_elem_of_singleton. destruct (O1 _ _ Hd). congruence.
    + intros a c. rewrite (N c). destruct (decide (x = c)) as [<-|Hc]; cbn.
      * intros [= <-]. rewrite (decide_True (P := x = x)), decide_False by done. lia.
      * intros Hc'. assert (owner (node_at s c) = Some a) as Ha by (case_decide; by subst).
        pose proof (O5 a c Ha). assert (a ≠ x) by (intros E; rewrite E in Ha; by eapply Hno). rewrite !decide_False by done. done.
  - intros y. rewrite N. repeat case_decide; subst.
    + exists (Some o), (owned (node_at s y)). by destruct (node_at s y).
    + exists (owner (node_at s y)), (owned (node_at s y) ++ [x]). by destruct (node_at s y).
    + exists (owner (node_at s y)), (owned (node_at s y)). by destruct (node_at s y).
Qed.
End Owners.
