(* ===== verification/ReactiveSteps.v ===== *)
(** The reactive graph as a machine: its operations as atomic steps, one per borrow
    of the [RefCell] (a [read] that runs a body is an opening and a closing step with
    the body's own steps in between), and the invariant of the reachable states. *)
From S2P Require Import Prelude Reactive ReactiveFacts ReactiveWf.
From stdpp Require Import sorting options.

(** ** The invariant, and each operation on it *)
Section Operations.
  Context {V : Type}.
  Implicit Types (n nn : Node V) (s t : Inner V) (Q : list NodeId).

(** [Q] is what is left of the flush round that was taken off the queue. *)
Record wf Q s : Prop := {
  wf_core : core s;
  wf_owners : ∃ R, owners R [] s;
  wf_stack x : x ∈ computing s → live (node_at s x) = true ∧ kind (node_at s x) ≠ Signal;
  wf_queue x : x ∈ queue s ++ Q → in_table s x;
  wf_queued x : queued (node_at s x) = true → x ∈ queue s ++ Q;
}.

(** No running node has been disposed of. *)
Definition running_live s : Prop := ∀ x, x ∈ computing s → live (node_at s x) = true.

(** Allocation and adoption, as [signal], [computed] and [effect] do them. *)
Definition create nn s : option (NodeId * Inner V) :=
  '(id, s) ← alloc nn s; s ← adopt id s; Some (id, s).

Definition fresh_node nn : Prop :=
  live nn = true ∧ sources nn = [] ∧ subscribers nn = [] ∧ owner nn = None ∧ owned nn = [] ∧ node_ok nn.

(** A node without relatives in a dead slot. *)
Lemma owners_alloc R nn x s t :
  core s → owners R [] s → live (node_at s x) = false → owner nn = None → owned nn = [] →
  (∀ y, node_at t y = if decide (x = y) then nn else node_at s y) → owners R [] t.
Proof.
  intros C [O1 O2 O3 O4 O5] Hd Ho Hw N. split.
  - intros a c. rewrite (N a), (N c). case_decide as Ha; [rewrite Hw; set_solver|]. intros Hc.
    destruct (O1 a c Hc). rewrite decide_False; [done|]. intros ->. congruence.
  - intros a c. rewrite (N a), (N c). case_decide as Hc; [congruence|]. intros Ha.
    destruct (O2 a c Ha). rewrite decide_False; [done|]. intros ->. congruence.
  - set_solver.
  - intros a. rewrite (N a). case_decide; [rewrite Hw; constructor|apply O4].
  - intros a c. rewrite (N c). case_decide; [congruence|apply O5].
Qed.

Lemma create_spec nn Q s :
  wf Q s → fresh_node nn →
  ∃ x t, create nn (with_dirty_computeds (dirty_computeds s + Nat.b2n (is_stale nn)) s) = Some (x, t) ∧
    core t ∧ (∃ R, owners R [] t) ∧ live (node_at s x) = false ∧
    (∀ y, ∃ o l, node_at t y = set_owner o (set_owned l (if decide (x = y) then nn else node_at s y))) ∧
    (∀ y, in_table s y → in_table t y) ∧ in_table t x ∧
    computing t = computing s ∧ queue t = queue s.
Proof.
  intros [C [R O] St Qi Qq] (Hl & Hs & Hb & Ho & Hw & Hok).
  destruct (alloc_spec nn s _ C eq_refl Hl Hs Hb Hok) as (x & t & Et & Ct & Hd & N & T & F).
  destruct (dead_empty _ (core_nodes s C x) Hd) as (_ & _ & _ & _ & Dx & Wx).
  assert (owners R [] t) as Ot by by apply (owners_alloc R nn x s).
  destruct (adopt_spec R x t) as (R' & u & Eu & Cu & Ou & Nu & Lu & Fu); try done.
  { by rewrite N, decide_True. }
  { by rewrite N, decide_True. }
  { by rewrite N, decide_True. }
  { intros c. rewrite N. case_decide; [congruence|]. intros Hc. destruct (own_parent R [] s O x c Hc). congruence. }
  { intros o Hin. rewrite F in Hin. cbn in Hin. destruct (St o Hin) as [Hlo _].
    rewrite N. by case_decide. }
  { rewrite F. cbn. intros Hin. destruct (St x Hin). congruence. }
  exists x, u. unfold create. rewrite Et. cbn. rewrite Eu. cbn. split_and!; try done.
  - by exists R'.
  - intros y. destruct (Nu y) as (o & l & ->). rewrite N. by exists o, l.
  - intros y Hy. unfold in_table. rewrite Lu. by apply T.
  - unfold in_table. rewrite Lu. apply live_in_table. by rewrite N, decide_True.
  - rewrite Fu, F. done.
  - rewrite Fu, F. done.
Qed.

Lemma wf_create nn Q s x t ex :
  wf Q s → fresh_node nn →
  create nn (with_dirty_computeds (dirty_computeds s + Nat.b2n (is_stale nn)) s) = Some (x, t) →
  ex = (if queued nn then [x] else []) →
  wf Q (with_queue (queue t ++ ex) t).
Proof.
  intros W F E ->. destruct (create_spec nn Q s W F) as (x' & t' & E' & C & [R O] & Hd & N & T & Tx & K & Qe).
  simplify_eq. destruct W as [_ _ St Qi Qq].
  assert (∀ y, live (node_at s y) = true → kind (node_at t y) = kind (node_at s y) ∧ live (node_at t y) = true) as Keep.
  { intros y Hy. destruct (N y) as (o & l & ->). cbn. rewrite decide_False; [done|]. intros ->. congruence. }
  split.
  - by apply (core_same t).
  - exists R. by apply (owners_same R [] t).
  - cbn. rewrite K. intros y Hy. change (node_at (with_queue _ t)) with (node_at t).
    destruct (St y Hy) as [Hl Hk]. by destruct (Keep y Hl) as [-> ->].
  - cbn. rewrite Qe. intros y Hy. change (in_table t y).
    destruct (decide (y = x)) as [->|Hne]; [done|]. apply T, Qi. destruct (queued nn); set_solver.
  - cbn. rewrite Qe. intros y. change (node_at (with_queue _ t)) with (node_at t).
    destruct (N y) as (o & l & ->). cbn. case_decide as Hy.
    + intros ->. set_solver.
    + intros Hq. specialize (Qq y Hq). set_solver.
Qed.

Lemma wf_with_queue_nil Q t : wf Q (with_queue (queue t ++ []) t) → wf Q t.
Proof. rewrite app_nil_r. by destruct t. Qed.

(** The constructors are allocation and adoption. *)
Lemma with_dirty_computeds_0 s : with_dirty_computeds (dirty_computeds s + 0) s = s.
Proof. rewrite Nat.add_0_r. by destruct s. Qed.

Lemma signal_create v s :
  signal v s = create (signal_node v) (with_dirty_computeds (dirty_computeds s + Nat.b2n (is_stale (signal_node v))) s).
Proof. cbn [is_stale kind signal_node dirty andb bool_decide Nat.b2n]. by rewrite with_dirty_computeds_0. Qed.

Lemma computed_create b m s :
  computed b m s = create (computed_node b m) (with_dirty_computeds (dirty_computeds s + Nat.b2n (is_stale (computed_node b m))) s).
Proof. unfold computed, create. cbn [is_stale kind computed_node dirty]. rewrite Nat.add_1_r. done. Qed.

Lemma effect_create b s :
  effect b s = '(x, t) ← create (effect_node b) (with_dirty_computeds (dirty_computeds s + Nat.b2n (is_stale (effect_node b))) s);
    Some (x, with_queue (queue t ++ [x]) t).
Proof.
  cbn [is_stale kind effect_node dirty andb bool_decide Nat.b2n]. rewrite with_dirty_computeds_0.
  unfold effect, create. destruct (alloc _ s) as [[x t]|]; [|done]. cbn. by destruct (adopt x t).
Qed.

Lemma signal_node_fresh v : fresh_node (signal_node v).
Proof. split_and!; try done; split; cbn; done || (by eexists). Qed.
Lemma computed_node_fresh b m : fresh_node (computed_node b m).
Proof. split_and!; try done; split; cbn; done || (by eexists). Qed.
Lemma effect_node_fresh b : fresh_node (effect_node b).
Proof. split_and!; try done; split; cbn; done || (by eexists). Qed.

Lemma wf_signal Q s v : wf Q s → ∃ x t, signal v s = Some (x, t) ∧ wf Q t.
Proof.
  intros W. destruct (create_spec _ Q s W (signal_node_fresh v)) as (x & t & E & _). exists x, t.
  rewrite signal_create. split; [done|]. apply wf_with_queue_nil.
  by apply (wf_create _ Q s x t [] W (signal_node_fresh v) E).
Qed.

Lemma wf_computed Q s b m : wf Q s → ∃ x t, computed b m s = Some (x, t) ∧ wf Q t.
Proof.
  intros W. destruct (create_spec _ Q s W (computed_node_fresh b m)) as (x & t & E & _). exists x, t.
  rewrite computed_create. split; [done|]. apply wf_with_queue_nil.
  by apply (wf_create _ Q s x t [] W (computed_node_fresh b m) E).
Qed.

Lemma wf_effect Q s b : wf Q s → ∃ x t, effect b s = Some (x, t) ∧ wf Q t.
Proof.
  intros W. destruct (create_spec _ Q s W (effect_node_fresh b)) as (x & t & E & _).
  exists x, (with_queue (queue t ++ [x]) t). rewrite effect_create, E. split; [done|].
  by apply (wf_create _ Q s x t [x] W (effect_node_fresh b) E).
Qed.

Lemma signal_root_spec Q s v :
  wf Q s →
  ∃ x t, signal_root v s = Some (x, t) ∧ core t ∧ live (node_at s x) = false ∧
    (∀ y, node_at t y = if decide (x = y) then signal_node v else node_at s y) ∧
    (∀ y, in_table s y → in_table t y) ∧ t = with_nodes (nodes t) (with_free (free t) s).
Proof.
  intros W. destruct (signal_node_fresh v) as (? & ? & ? & _ & _ & ?).
  apply alloc_spec; try done; [apply W|]. by rewrite with_dirty_computeds_0.
Qed.

Lemma wf_signal_root Q s v : wf Q s → ∃ x t, signal_root v s = Some (x, t) ∧ wf Q t.
Proof.
  intros W. destruct (signal_root_spec Q s v W) as (x & t & E & C & Hd & N & T & F).
  exists x, t. split; [done|]. destruct W as [Cs [R O] St Qi Qq].
  assert (computing t = computing s ∧ queue t = queue s) as [K Eq] by (rewrite F; done).
  assert (∀ y, live (node_at s y) = true → node_at t y = node_at s y) as Keep.
  { intros y Hy. rewrite N, decide_False; [done|]. intros ->. congruence. }
  split; [done|..].
  - exists R. by apply (owners_alloc R (signal_node v) x s).
  - rewrite K. intros y Hy. destruct (St y Hy). by rewrite Keep.
  - rewrite Eq. intros y Hy. by apply T, Qi.
  - rewrite Eq. intros y. rewrite N. case_decide; [done|]. apply Qq.
Qed.
End Operations.

Section Frames.
  Context {V : Type}.
  Implicit Types (n : Node V) (s t : Inner V) (Q : list NodeId).

(** What opening a frame for [x], or disposing of it, keeps of a node that survives. *)
Record survives s t (y : NodeId) : Prop := {
  sv_live : live (node_at s y) = true;
  sv_fields : dirty (node_at t y) = dirty (node_at s y) ∧ queued (node_at t y) = queued (node_at s y) ∧
    content (node_at t y) = content (node_at s y) ∧ body (node_at t y) = body (node_at s y);
  sv_sources a : a ∈ sources (node_at t y) → a ∈ sources (node_at s y);
}.

Lemma wf_pruned Q s t :
  wf Q s → core t → (∃ R, owners R [] t) → length (nodes t) = length (nodes s) →
  (∀ y, kind (node_at t y) = kind (node_at s y)) →
  (∀ y, live (node_at t y) = true → queued (node_at t y) = queued (node_at s y)) →
  queue t = queue s →
  (∀ y, y ∈ computing t → live (node_at t y) = true ∧ kind (node_at t y) ≠ Signal) →
  wf Q t.
Proof.
  intros [_ _ _ Qi Qq] C O L K Hq Eq St. split; try done.
  - rewrite Eq. intros y Hy. unfold in_table. rewrite L. by apply Qi.
  - rewrite Eq. intros y Hy. destruct (live (node_at t y)) eqn:Hl.
    + apply Qq. by rewrite <-Hq.
    + destruct (dead_empty _ (core_nodes t C y) Hl) as (_ & _ & _ & E & _). congruence.
Qed.

Lemma begin_compute_spec Q x s :
  wf Q s → live (node_at s x) = true → kind (node_at s x) ≠ Signal →
  ∃ b t, begin_compute x s = Some (b, t) ∧ body (node_at s x) = Some b ∧
    core t ∧ (∃ R, owners R [] t) ∧ length (nodes t) = length (nodes s) ∧
    live (node_at t x) = true ∧ sources (node_at t x) = [] ∧
    (∀ y, kind (node_at t y) = kind (node_at s y)) ∧
    (∀ y, live (node_at t y) = true → survives s t y) ∧
    computing t = x :: computing s ∧ queue t = queue s.
Proof.
  intros W Hl Hk. pose proof (live_in_table _ _ Hl) as Hx. destruct W as [C [R O] St Qi Qq].
  destruct (dispose_owned_spec R [] x s C O) as (s1 & E1 & D & Hl1); [constructor|done|set_solver|].
  destruct D as [C1 O1 P1 _ _ _]. pose proof (live_in_table _ _ Hl1) as Hx1.
  destruct (sever_spec x s1 C1 Hx1) as (s2 & E2 & C2 & W2 & K2 & S2).
  assert (∀ y, kind (node_at s2 y) = kind (node_at s y)) as HK.
  { intros y. destruct (rewired_fields s1 s2 y W2) as (-> & _). rewrite (pr_kind _ _ P1), upd_owned_node by done.
    by case_decide; subst. }
  assert (∀ y, live (node_at s2 y) = true → survives s s2 y) as HS.
  { intros y. destruct (rewired_fields s1 s2 y W2) as (_ & -> & Ed & Eq & Ec & Eb & _). intros Hy.
    pose proof (pr_live _ _ P1 y Hy) as Hly. destruct (pr_fields _ _ P1 y Hy) as (Fd & Fq & Fc & Fb & _).
    rewrite upd_owned_node in Hly, Fd, Fq, Fc, Fb by done.
    split; [by case_decide; subst|rewrite Ed, Eq, Ec, Eb, Fd, Fq, Fc, Fb; by case_decide; subst|].
    intros a. rewrite S2. case_decide; [set_solver|]. rewrite (pr_sources _ _ P1 y a Hy), upd_owned_node by done.
    rewrite decide_False by done. by intros [? _]. }
  assert (live (node_at s2 x) = true) as Hl2 by by destruct (rewired_fields s1 s2 x W2) as (_ & -> & _).
  destruct (not_signal_body _ (core_nodes s C x) Hk Hl) as [b Hb].
  destruct (HS x Hl2) as [_ (_ & _ & _ & Hb2) _].
  destruct (pr_rest _ _ P1) as (K1 & Q1 & _).
  exists b, (with_computing (x :: computing s2) s2). unfold begin_compute. rewrite E1. cbn.
  rewrite lookup_node_at by done. cbn. rewrite modify_upd by done. cbn. rewrite E2. cbn.
  rewrite lookup_node_at by by apply live_in_table. cbn. rewrite Hb2, Hb. cbn.
  split_and!; try done.
  - by apply (core_same s2).
  - exists R. apply (owners_same R [] s2); [done|]. by apply (rewired_owners R [] s1).
  - rewrite (rw_length _ _ W2), (pr_length _ _ P1). apply upd_length.
  - change (sources (node_at s2 x) = []). by rewrite S2, decide_True.
  - intros y Hy. destruct (HS y Hy). by split.
  - by rewrite K2, K1.
  - cbn. rewrite (rw_rest _ _ W2). cbn. by rewrite Q1.
Qed.

Lemma wf_begin_compute Q x s b t :
  wf Q s → live (node_at s x) = true → kind (node_at s x) ≠ Signal →
  begin_compute x s = Some (b, t) → running_live t → wf Q t.
Proof.
  intros W Hl Hk E Run.
  destruct (begin_compute_spec Q x s W Hl Hk) as (b' & t' & E' & _ & C & O & L & _ & _ & K & S & Ec & Eq).
  simplify_eq. apply (wf_pruned Q s); try done.
  - intros y Hy. by destruct (S y Hy) as [_ (_ & -> & _) _].
  - intros y Hy. split; [by apply Run|]. rewrite K. rewrite Ec in Hy.
    apply elem_of_cons in Hy as [->|Hy]; [done|]. by apply (wf_stack Q s W).
Qed.

Lemma end_compute_spec Q x s r :
  wf Q s → head (computing s) = Some x → (kind (node_at s x) = Computed → is_Some r) →
  ∃ t, end_compute x r s = Some t ∧ wf Q t ∧
    (∀ y, node_at t y = if decide (x = y) then memoize r (node_at s y) else node_at s y) ∧
    computing t = tail (computing s) ∧ queue t = queue s.
Proof.
  intros [C [R O] St Qi Qq] Hh Hr. unfold end_compute.
  destruct (computing s) as [|x' rest] eqn:Est; [done|]. cbn in Hh. simplify_eq.
  rewrite decide_True by done. destruct (St x) as [Hl Hk]; [set_solver|].
  pose proof (live_in_table _ _ Hl) as Hx. pose proof (core_nodes s C x) as Hok.
  change (nodes (with_computing rest s)) with (nodes s). rewrite lookup_node_at by done. cbn.
  fold (is_stale (node_at s x)). rewrite modify_upd by done. cbn. set (s1 := upd x (memoize r) _).
  assert (∃ t, (if is_stale (node_at s x) then dirty_computeds_dec s1 else Some s1) = Some t ∧
    nodes t = nodes s1 ∧ dirty_computeds t + Nat.b2n (is_stale (node_at s x)) = dirty_computeds s ∧
    free t = free s ∧ computing t = rest ∧ queue t = queue s) as (t & -> & Nt & Dt & Ft & Kt & Qt).
  { pose proof (count_positive is_stale x s) as Hp. rewrite <-(core_count s C) in Hp.
    unfold dirty_computeds_dec. change (dirty_computeds s1) with (dirty_computeds s).
    destruct (is_stale (node_at s x)).
    - specialize (Hp eq_refl Hx). destruct (dirty_computeds s) eqn:Ed; [done|].
      eexists. split; [done|]. cbn. split_and!; try done. lia.
    - exists s1. cbn [Nat.b2n]. rewrite Nat.add_0_r. done. }
  assert (∀ y, node_at t y = if decide (x = y) then memoize r (node_at s y) else node_at s y) as N.
  { intros y. transitivity (node_at (upd x (memoize r) s) y).
    - unfold node_at. by rewrite Nt.
    - rewrite node_at_upd by done. by case_decide; subst. }
  assert (∀ n, sources (memoize r n) = sources n ∧ subscribers (memoize r n) = subscribers n ∧
    live (memoize r n) = live n ∧ owner (memoize r n) = owner n ∧ owned (memoize r n) = owned n ∧
    kind (memoize r n) = kind n ∧ queued (memoize r n) = queued n ∧ body (memoize r n) = body n) as M.
  { intros n. unfold memoize. by case_decide. }
  exists t. split_and!; try done. split.
  - apply (core_write x (memoize r) s t); try done.
    + intros n. destruct (M n) as (-> & -> & -> & _). done.
    + destruct (M (node_at s x)) as (M1 & M2 & M3 & M4 & M5 & M6 & M7 & M8). destruct Hok as [D S B L E Q'].
      split; rewrite ?M1, ?M2, ?M3, ?M4, ?M5, ?M6, ?M7, ?M8; try done; [congruence| |congruence].
      intros Hne _. unfold memoize. case_decide as Hkc; [by apply Hr|]. by destruct (kind (node_at s x)).
    + assert (is_stale (memoize r (node_at s x)) = false) as ->; [unfold is_stale, memoize; by rewrite andb_false_r|].
      cbn. lia.
  - exists R. apply (owners_ext R [] s t O). intros y. rewrite N.
    destruct (M (node_at s y)) as (_ & _ & M3 & M4 & M5 & _). by case_decide.
  - rewrite Kt. intros y Hy. rewrite N. destruct (M (node_at s y)) as (_ & _ & M3 & _ & _ & M6 & _).
    destruct (St y) as [? ?]; [set_solver|]. case_decide; rewrite ?M3, ?M6; done.
  - rewrite Qt. intros y Hy. unfold in_table. rewrite Nt. unfold s1. rewrite upd_length. by apply Qi.
  - rewrite Qt. intros y. rewrite N. destruct (M (node_at s y)) as (_ & _ & _ & _ & _ & _ & M7 & _).
    case_decide; rewrite ?M7; apply Qq.
Qed.

(** Marking, from a state that differs from a well-formed one in a value or in [changed]. *)
Lemma wf_walk Q node s t : wf Q s → walk node s [] t → wf Q t.
Proof.
  intros [C [R O] St Qi Qq] [Ct S _ _ _ _]. destruct (so_queue _ _ S) as (ex & Eq & _ & Hex).
  destruct (so_rest _ _ S) as (_ & Ek & _). split; [done|..].
  - exists R. apply (owners_ext R [] s t O). intros y. by destruct (soft_fields s t y S) as (_ & -> & _ & _ & _ & _ & -> & ->).
  - rewrite Ek. intros y Hy. destruct (soft_fields s t y S) as (-> & -> & _). by apply St.
  - rewrite Eq. intros y Hy. unfold in_table. rewrite (so_length _ _ S).
    assert (y ∈ queue s ++ Q ∨ y ∈ ex) as [Hy'|Hy'] by set_solver; [by apply Qi|].
    apply Hex in Hy' as [Hq _]. change (in_table s y). unfold in_table. rewrite <-(so_length _ _ S).
    change (in_table t y). unfold in_table, node_at in *. destruct (nodes t !! y) eqn:E; [by eapply lookup_lt_Some|done].
  - rewrite Eq. intros y Hy. destruct (queued (node_at s y)) eqn:Hq.
    + specialize (Qq y Hq). set_solver.
    + assert (y ∈ ex) by by apply Hex. set_solver.
Qed.

(** A change of a value, and of the fields a walk does not read. *)
Lemma wf_set Q x v s :
  wf Q s → live (node_at s x) = true → kind (node_at s x) = Signal →
  ∃ s1 t, set x v s = Some t ∧ walk x s1 [] t ∧ wf Q s1 ∧ wf Q t ∧
    (∀ y, node_at s1 y = if decide (x = y) then set_content (Some v) (node_at s y) else node_at s y) ∧
    computing s1 = computing s ∧ queue s1 = queue s ∧ length (nodes s1) = length (nodes s).
Proof.
  intros W Hl Hk. pose proof (live_in_table _ _ Hl) as Hx. unfold set. rewrite lookup_node_at by done. cbn.
  rewrite Hl, Hk, modify_upd by done. cbn. set (s0 := upd x (set_content (Some v)) s).
  set (s1 := if observed s0 then with_changed (changed s0 ++ [x]) s0 else s0).
  assert (nodes s1 = nodes s0 ∧ free s1 = free s ∧ dirty_computeds s1 = dirty_computeds s ∧
    computing s1 = computing s ∧ queue s1 = queue s) as (N1 & F1 & D1 & K1 & Q1) by (unfold s1; by case_match).
  assert (∀ y, node_at s1 y = if decide (x = y) then set_content (Some v) (node_at s y) else node_at s y) as N.
  { intros y. transitivity (node_at s0 y); [unfold node_at; by rewrite N1|].
    unfold s0. rewrite node_at_upd by done. by case_decide; subst. }
  assert (wf Q s1) as W1.
  { destruct W as [C [R O] St Qi Qq]. split.
    - apply (core_write x (set_content (Some v)) s s1); try done; [|by rewrite D1].
      destruct (core_nodes s C x) as [D S B L E Q']. split; done || (cbn; congruence) || (intros; by eexists).
    - exists R. apply (owners_ext R [] s s1 O). intros y. rewrite N. by case_decide.
    - rewrite K1. intros y Hy. rewrite N. destruct (St y Hy). by case_decide.
    - rewrite Q1. intros y Hy. unfold in_table. rewrite N1. unfold s0. rewrite upd_length. by apply Qi.
    - rewrite Q1. intros y. rewrite N. case_decide; apply Qq. }
  destruct (mark_dirty_subscribers_spec x s1) as (t & Et & Wk).
  { apply W1. }
  { unfold in_table. rewrite N1. unfold s0. by rewrite upd_length. }
  exists s1, t. split_and!; try done; [by eapply wf_walk|rewrite N1; apply upd_length].
Qed.

Lemma wf_touch Q x s :
  wf Q s → live (node_at s x) = true →
  ∃ s1 t, touch x s = Some t ∧ walk x s1 [] t ∧ wf Q t ∧ nodes s1 = nodes s ∧
    computing s1 = computing s ∧ queue s1 = queue s.
Proof.
  intros W Hl. pose proof (live_in_table _ _ Hl) as Hx. unfold touch. rewrite lookup_node_at by done. cbn.
  rewrite Hl. set (s1 := if observed s then with_changed (changed s ++ [x]) s else s).
  assert (nodes s1 = nodes s ∧ free s1 = free s ∧ dirty_computeds s1 = dirty_computeds s ∧
    computing s1 = computing s ∧ queue s1 = queue s) as (N1 & F1 & D1 & K1 & Q1) by (unfold s1; by case_match).
  assert (wf Q s1) as W1.
  { destruct W as [C [R O] St Qi Qq].
    assert (∀ y, node_at s1 y = node_at s y) as N by (intros y; unfold node_at; by rewrite N1). split.
    - by apply (core_same s).
    - exists R. by apply (owners_same R [] s).
    - rewrite K1. intros y Hy. rewrite N. by apply St.
    - rewrite Q1. intros y Hy. unfold in_table. rewrite N1. by apply Qi.
    - rewrite Q1. intros y. rewrite N. apply Qq. }
  destruct (mark_dirty_subscribers_spec x s1) as (t & Et & Wk).
  { apply W1. }
  { unfold in_table. by rewrite N1. }
  exists s1, t. split_and!; try done. by eapply wf_walk.
Qed.
End Frames.

Section Reading.
  Context {V : Type}.
  Implicit Types (n : Node V) (s t : Inner V) (Q : list NodeId).

Lemma wf_rewired Q s t : wf Q s → core t → rewired s t → computing t = computing s → wf Q t.
Proof.
  intros [C [R O] St Qi Qq] Ct W K.
  assert (queue t = queue s) as F by (rewrite (rw_rest _ _ W); done). split; [done|..].
  - exists R. by apply (rewired_owners R [] s).
  - rewrite K. intros y Hy. destruct (rewired_fields s t y W) as (-> & -> & _). by apply St.
  - rewrite F. intros y Hy. unfold in_table. rewrite (rw_length _ _ W). by apply Qi.
  - rewrite F. intros y. destruct (rewired_fields s t y W) as (_ & _ & _ & -> & _). apply Qq.
Qed.

(** [record_dependency] in any frame, or none. *)
Lemma wf_record_dependency Q x s :
  wf Q s → live (node_at s x) = true → kind (node_at s x) ≠ Effect →
  ∃ t, record_dependency x s = Some t ∧ wf Q t ∧ rewired s t ∧ computing t = computing s ∧
    ∀ y a, a ∈ sources (node_at t y) ↔
      a ∈ sources (node_at s y) ∨ (a = x ∧ x ≠ y ∧ head (computing s) = Some y).
Proof.
  intros W Hl Hk. destruct (computing s) as [|f stack] eqn:Est.
  - exists s. unfold record_dependency. rewrite Est. split_and!; [done|done| |done|naive_solver].
    split; [done| |by destruct s]. intros y. exists (sources (node_at s y)), (subscribers (node_at s y)).
    by destruct (node_at s y).
  - destruct (wf_stack Q s W f) as [Hlf Hkf]; [rewrite Est; set_solver|].
    destruct (record_dependency_spec x f stack s (wf_core Q s W) Est Hlf Hkf Hl Hk)
      as (t & E & C & Rw & K & Hsrc).
    exists t. split_and!; [done|by eapply wf_rewired|done|congruence|].
    intros y a. rewrite Hsrc. cbn. naive_solver.
Qed.

(** Phase 1 of [read] never panics on a readable node. *)
Lemma read_begin_spec Q x s :
  wf Q s → live (node_at s x) = true → kind (node_at s x) ≠ Effect →
  ∃ s1, record_dependency x s = Some s1 ∧ wf Q s1 ∧ rewired s s1 ∧ computing s1 = computing s ∧
  (∀ y a, a ∈ sources (node_at s1 y) ↔
    a ∈ sources (node_at s y) ∨ (a = x ∧ x ≠ y ∧ head (computing s) = Some y)) ∧
  if is_stale (node_at s x)
  then ∃ b t, begin_compute x s1 = Some (b, t) ∧ read_begin x s = Some (inr b, t) ∧ body (node_at s x) = Some b
  else ∃ v, content (node_at s x) = Some v ∧ read_begin x s = Some (inl v, s1).
Proof.
  intros W Hl Hk. destruct (wf_record_dependency Q x s W Hl Hk) as (s1 & E & W1 & Rw & K & Hsrc).
  exists s1. split_and!; try done.
  destruct (rewired_fields s s1 x Rw) as (Fk & Fl & Fd & _ & Fc & Fb & _).
  unfold read_begin. rewrite lookup_node_at by by apply live_in_table. cbn. rewrite Hl. cbn. rewrite E. cbn.
  rewrite lookup_node_at by (apply live_in_table; congruence). cbn. rewrite Fk, Fd, Fc.
  destruct (readable_content _ (core_nodes s (wf_core Q s W) x) Hk Hl) as [v Hv].
  unfold is_stale. destruct (kind (node_at s x)) eqn:Ek; [|destruct (dirty (node_at s x))|done]; cbn.
  - exists v. by rewrite Hv.
  - destruct (begin_compute_spec Q x s1 W1) as (b & t & Eb & Hb & _); [congruence..|].
    exists b, t. rewrite Eb. cbn. split_and!; congruence.
  - exists v. by rewrite Hv.
Qed.

Lemma wf_read_begin Q x s r t :
  wf Q s → kind (node_at s x) ≠ Effect → read_begin x s = Some (r, t) → running_live t → wf Q t.
Proof.
  intros W Hk E Run.
  assert (live (node_at s x) = true) as Hl.
  { apply not_false_iff_true. intros Hl. unfold read_begin, node_at in *.
    destruct (nodes s !! x); [|done]. cbn in *. by rewrite Hl in E. }
  destruct (read_begin_spec Q x s W Hl Hk) as (s1 & E1 & W1 & Rw & K & _ & Hr).
  destruct (is_stale (node_at s x)) eqn:Hst.
  - destruct Hr as (b & u & Eb & Er & _). simplify_eq.
    destruct (rewired_fields s s1 x Rw) as (Fk & Fl & _).
    apply (wf_begin_compute Q x s1 b t); [done|congruence| |done..].
    rewrite Fk. unfold is_stale in Hst. intros Hs. by rewrite Hs in Hst.
  - destruct Hr as (v & _ & Er). by simplify_eq.
Qed.

(** The entry [e] of a round is no longer pending once its flag is cleared. *)
Lemma wf_round_drop e Q s : wf (e :: Q) s → queued (node_at s e) = false → wf Q s.
Proof.
  intros [C O St Qi Qq] Hq. split; try done.
  - intros y Hy. apply Qi. set_solver.
  - intros y Hy. specialize (Qq y Hy). assert (y ≠ e) by (intros ->; congruence). set_solver.
Qed.

Lemma wf_unqueue e Q s :
  wf (e :: Q) s → in_table s e →
  wf Q (upd e (set_queued false) s) ∧
  ∀ y, node_at (upd e (set_queued false) s) y =
    if decide (e = y) then set_queued false (node_at s y) else node_at s y.
Proof.
  intros [C [R O] St Qi Qq] Hx. set (s1 := upd e (set_queued false) s).
  assert (∀ y, node_at s1 y = if decide (e = y) then set_queued false (node_at s y) else node_at s y) as N.
  { intros y. unfold s1. rewrite node_at_upd by done. by case_decide; subst. }
  split; [|done]. apply (wf_round_drop e); [split|by rewrite N, decide_True].
  - apply (core_write e (set_queued false) s s1); try done.
    destruct (core_nodes s C e) as [D S B L E Q']. split; try done. cbn. intros Hd.
    by destruct (D Hd) as (? & ? & ? & _ & ? & ?).
  - exists R. apply (owners_ext R [] s s1 O). intros y. rewrite N. by case_decide.
  - intros y Hy. rewrite N. destruct (St y Hy). by case_decide.
  - intros y Hy. unfold in_table, s1. rewrite upd_length. by apply Qi.
  - intros y. rewrite N. case_decide; [done|]. apply Qq.
Qed.

(** Taking the next entry of a round. *)
Lemma effect_begin_spec Q e s :
  wf (e :: Q) s →
  ∃ r t, effect_begin e s = Some (r, t) ∧ (running_live t → wf Q t) ∧
    match r with
    | None => t = s ∧ (live (node_at s e) = false ∨ kind (node_at s e) ≠ Effect)
    | Some b => live (node_at s e) = true ∧ kind (node_at s e) = Effect ∧ body (node_at s e) = Some b ∧
        computing t = e :: computing s ∧ live (node_at t e) = true ∧ sources (node_at t e) = [] ∧
        kind (node_at t e) = Effect
    end.
Proof.
  intros W. assert (in_table s e) as Hx by (apply (wf_queue _ _ W); set_solver).
  unfold effect_begin. rewrite lookup_node_at by done. cbn.
  pose proof (core_nodes s (wf_core _ s W) e) as Hok.
  destruct (decide (live (node_at s e) = true ∧ kind (node_at s e) = Effect)) as [[Hl Hk]|Hskip].
  - rewrite Hl, Hk, modify_upd by done. cbn. set (s1 := upd e (set_queued false) s).
    destruct (wf_unqueue e Q s W Hx) as [W1 N]. fold s1 in W1, N.
    destruct (begin_compute_spec Q e s1 W1) as (b & t & Eb & Hb & C & O & L & Hlt & Hs & Kt & Sv & Ec & Eq).
    { by rewrite N, decide_True. }
    { rewrite N, decide_True by done. cbn. congruence. }
    rewrite N, decide_True in Hb by done.
    exists (Some b), t. rewrite Eb. cbn. split_and!; try done;
      [|by rewrite Kt, N, decide_True]. intros Run.
    apply (wf_begin_compute Q e s1 b t); [done|..|done|done]; rewrite N, decide_True by done; cbn; congruence.
  - assert (negb (live (node_at s e)) || negb (bool_decide (kind (node_at s e) = Effect)) = true) as ->.
    { destruct (live (node_at s e)); [|done]. cbn. case_bool_decide; naive_solver. }
    exists None, s. split_and!; [done| |done|].
    + intros _. apply (wf_round_drop e); [done|]. apply not_true_iff_false. intros Hq.
      pose proof (queued_effect _ Hok Hq). destruct (live (node_at s e)) eqn:Hl; [naive_solver|].
      destruct (dead_empty _ Hok Hl) as (_ & _ & _ & E & _). congruence.
    + destruct (live (node_at s e)); [right|by left]. naive_solver.
Qed.
End Reading.

Section Disposing.
  Context {V : Type}.
  Implicit Types (n : Node V) (s t : Inner V) (Q : list NodeId).

(** The owner's descendants die and nothing else does. *)
Lemma disposed_exactly R x s t :
  core t → owners R [] t → pruned s t → live (node_at t x) = false →
  (∀ y, live (node_at s y) = true → live (node_at t y) = false → desc s x y) →
  ∀ y, live (node_at t y) = true ↔ live (node_at s y) = true ∧ ¬ desc s x y.
Proof.
  intros C O P Hx Honly y. split.
  - intros Hy. split; [by apply (pr_live _ _ P)|]. intros Hd.
    apply not_true_iff_false in Hx. apply Hx. clear Hx Honly. revert Hy.
    induction Hd as [x|x z y Hz _ IH]; [done|]. intros Hy. specialize (IH Hy).
    destruct (pr_fields _ _ P z IH) as (_ & _ & _ & _ & Eo & _).
    eapply (own_parent R [] t O). by rewrite Eo.
  - intros [Hs Hn]. apply not_false_iff_true. intros Hy. by apply Hn, Honly.
Qed.

Lemma dispose_spec Q x s :
  wf Q s → live (node_at s x) = true →
  ∃ t R, dispose x s = Some t ∧ core t ∧ owners R [] t ∧ (running_live t → wf Q t) ∧
    (∀ y, live (node_at t y) = true ↔ live (node_at s y) = true ∧ ¬ desc s x y) ∧
    (∀ y, live (node_at t y) = true → survives s t y ∧ kind (node_at t y) = kind (node_at s y) ∧
      ∀ a, a ∈ sources (node_at t y) ↔ a ∈ sources (node_at s y) ∧ live (node_at t a) = true) ∧
    held t ++ cells (node_at s x) ≡ₚ held s ∧ computing t = computing s.
Proof.
  intros W Hl. pose proof W as [C [R O] St Qi Qq]. pose proof (live_in_table _ _ Hl) as Hx.
  destruct (leave_owner_spec R x s C O Hl) as (s1 & E1 & C1 & O1 & L1 & N1 & F1).
  assert (∀ y, live (node_at s1 y) = live (node_at s y) ∧ owner (node_at s1 y) = owner (node_at s y) ∧
    cells (node_at s1 y) = cells (node_at s y)) as K1.
  { intros y. by destruct (N1 y) as (l & -> & _). }
  destruct (dispose_owned_spec R [x] x s1 C1 O1) as (s2 & E2 & [C2 O2 P2 D2 Only2 H2] & Hl2).
  { apply NoDup_singleton. }
  { by destruct (K1 x) as (-> & _). }
  { intros d a ->%list_elem_of_singleton Ha. pose proof (own_rank R [x] s1 O1 a x Ha). lia. }
  assert (in_table s1 x) as Hx1 by (unfold in_table; by rewrite L1).
  assert (∀ y, ∃ l, node_at (upd x (set_owned []) s1) y = set_owned l (node_at s y)) as N12.
  { intros y. rewrite upd_owned_node by done. destruct (N1 x) as (lx & Ex & _), (N1 y) as (l & Ey & _).
    case_decide; subst; [exists []; by rewrite Ex|exists l; by rewrite Ey]. }
  destruct (unhook_removed x s2) as (t & E3 & Rm & Hr); [apply C2|by apply live_in_table|apply C2|].
  assert (owned (node_at s2 x) = []) as Hw2.
  { destruct (pr_fields _ _ P2 x Hl2) as (_ & _ & _ & _ & _ & ->). by rewrite upd_owned_node, decide_True. }
  assert (core t) as Ct by by eapply removed_core.
  assert (owners R [] t) as Ot.
  { eapply owners_removed; [done..|intros d ?; set_solver|set_solver]. }
  assert (pruned (upd x (set_owned []) s1) t) as Pt by (eapply pruned_trans; [done|by eapply removed_pruned]).
  assert (live (node_at t x) = false) as Hxt by by rewrite (rm_nodes _ _ _ Rm), decide_True.
  assert (∀ a b, desc (upd x (set_owned []) s1) a b ↔ desc s a b) as Hdesc.
  { intros a b. unfold desc. split; apply rtc_subrel; intros d e; destruct (N12 e) as (l & ->); done. }
  assert (∀ y, live (node_at t y) = true ↔ live (node_at s y) = true ∧ ¬ desc s x y) as Hlive.
  { intros y. rewrite (disposed_exactly R x _ t Ct Ot Pt Hxt).
    - destruct (N12 y) as (l & ->). by rewrite Hdesc.
    - intros z Hz Hzt. destruct (live (node_at s2 z)) eqn:Hz2.
      + rewrite (rm_nodes _ _ _ Rm) in Hzt. case_decide; [subst; constructor|]. cbn in Hzt. congruence.
      + destruct (Only2 z Hz Hz2) as (c & Hc & Hcz). rewrite elem_of_reverse in Hc.
        apply (own_child R [x] s1 O1) in Hc as [_ Hc]. eapply rtc_l; [|done].
        rewrite upd_owned_node by done. by case_decide; subst. }
  exists t, R. split_and!; try done.
  - unfold dispose. rewrite lookup_node_at by done. cbn. rewrite Hl. cbn. rewrite E1. cbn. by rewrite E2.
  - intros Run. apply (wf_pruned Q s); try done.
    + exists R. done.
    + rewrite (pr_length _ _ Pt). by rewrite upd_length.
    + intros y. rewrite (pr_kind _ _ Pt). by destruct (N12 y) as (l & ->).
    + intros y Hy. destruct (pr_fields _ _ Pt y Hy) as (_ & -> & _). by destruct (N12 y) as (l & ->).
    + destruct (pr_rest _ _ Pt) as (_ & -> & _). cbn. rewrite F1. done.
    + intros y Hy. split; [by apply Run|]. rewrite (pr_kind _ _ Pt). destruct (N12 y) as (l & ->). cbn.
      apply St. destruct (pr_rest _ _ Pt) as (Ek & _). rewrite Ek in Hy. cbn in Hy. rewrite F1 in Hy. done.
  - intros y Hy. destruct (pr_fields _ _ Pt y Hy) as (Ed & Eq & Ec & Eb & _).
    destruct (N12 y) as (l & N). rewrite N in Ed, Eq, Ec, Eb. split_and!.
    + split; [by apply Hlive|done|]. intros a. rewrite (pr_sources _ _ Pt y a Hy), N. by intros [? _].
    + by rewrite (pr_kind _ _ Pt), N.
    + intros a. rewrite (pr_sources _ _ Pt y a Hy), N. done.
  - unfold held at 1. rewrite Hr, <-app_assoc, (Permutation_app_comm (reclaimed s2)), app_assoc.
    assert (cells (node_at s x) = cells (node_at s2 x)) as ->.
    { destruct (pr_fields _ _ P2 x Hl2) as (_ & _ & Ec & Eb & _). unfold cells. rewrite Ec, Eb.
      destruct (N12 x) as (l & ->). done. }
    rewrite (removed_collect x s2 t Rm) by by apply live_in_table.
    fold (held s2). rewrite H2. unfold held. rewrite (collect_ext cells (upd x (set_owned []) s1) s).
    + cbn. rewrite F1. done.
    + by rewrite upd_length.
    + intros y. destruct (N12 y) as (l & ->). done.
  - destruct (pr_rest _ _ Pt) as (-> & _). cbn. rewrite F1. done.
Qed.
End Disposing.

(** ** The machine *)
Section Machine.
  Context {V : Type}.
  Implicit Types (n : Node V) (s t : Inner V) (Q : list NodeId).

(** What is left of the round being flushed, and what the flushes that overflowed left of
    theirs: effects that are in no queue any more, flagged as queued though they may be. *)
Definition Rounds : Type := list NodeId * list NodeId.
Definition pending (P : Rounds) : list NodeId := P.1 ++ P.2.
Definition Machine : Type := Rounds * Inner V.

(** Steps that announce a new value, and all the others. *)
Inductive event := Changes | Works.

(** One borrow of the graph, by the engine or by a client: which operation, and when
    the engine performs it.  A flush may give its round up at any time ([step_overflow]);
    [ReactiveProps.flush_terminates] says when it does. *)
Inductive step : event → Machine → Machine → Prop :=
  | step_signal P s v x t : signal v s = Some (x, t) → step Works (P, s) (P, t)
  | step_signal_root P s v x t : signal_root v s = Some (x, t) → step Works (P, s) (P, t)
  | step_computed P s b m x t : computed b m s = Some (x, t) → step Works (P, s) (P, t)
  | step_effect P s b x t : effect b s = Some (x, t) → step Works (P, s) (P, t)
  | step_read_begin P s x r t : read_begin x s = Some (r, t) → step Works (P, s) (P, t)
  | step_read_end P s x v t : kind (node_at s x) = Computed →
      end_compute x (Some v) s = Some t → step Works (P, s) (P, t)
  | step_set P s x v t : set x v s = Some t → step Changes (P, s) (P, t)
  | step_touch P s x t : touch x s = Some t → step Changes (P, s) (P, t)
  | step_round L s : step Works (([], L), s) ((merge_sort (≤) (queue s), L), with_queue [] s)
  | step_effect_begin e Q L s r t :
      effect_begin e s = Some (r, t) → step Works ((e :: Q, L), s) ((Q, L), t)
  | step_effect_end P s e t : kind (node_at s e) = Effect →
      end_compute e None s = Some t → step Works (P, s) (P, t)
  | step_overflow Q L s : step Works ((Q, L), s) (([], Q ++ L), s)
  | step_dispose P s x t : dispose x s = Some t → step Works (P, s) (P, t)
  | step_flushing P s b : step Works (P, s) (P, with_flushing b s)
  | step_observed P s b : step Works (P, s) (P, set_observed b s)
  | step_drain_changed P s out : step Works (P, s) (P, (drain_changed_into out s).2)
  | step_drain_reclaimed P s out : step Works (P, s) (P, (drain_reclaimed_into out s).2)
  | step_clear P s : step Works (P, s) (([], []), clear s).

(** A step that does not dispose of a running node. *)
Definition safely (M N : Machine) : Prop := ∃ e, step e M N ∧ running_live N.2.

(** The same, new values being announced outside the bodies of computeds. *)
Definition orderly (M N : Machine) : Prop :=
  ∃ e, step e M N ∧ running_live N.2 ∧
    (e = Changes → ∀ f, f ∈ computing M.2 → kind (node_at M.2 f) = Effect).

Definition start : Machine := (([], []), new).

Lemma wf_new : wf [] (new (V := V)).
Proof.
  assert (∀ x, node_at (new (V := V)) x = placeholder) as N by done. split.
  - split.
    + split; intros; rewrite ?N; cbn; try constructor; set_solver.
    + intros x. rewrite N. by split.
    + done.
    + constructor.
    + intros x. cbn. split; [set_solver|]. intros [H _]. unfold in_table in H. cbn in H. lia.
  - exists (λ _, 0). split; intros *; rewrite ?N; cbn; try constructor; set_solver.
  - cbn. set_solver.
  - cbn. set_solver.
  - done.
Qed.

(** The other fields of the interior. *)
Lemma wf_same Q s t :
  nodes t = nodes s → free t = free s → dirty_computeds t = dirty_computeds s →
  computing t = computing s → queue t = queue s → wf Q s → wf Q t.
Proof.
  intros N F D K E [C [R O] St Qi Qq].
  assert (∀ y, node_at t y = node_at s y) as Hn by (intros y; unfold node_at; by rewrite N). split.
  - by apply (core_same s).
  - exists R. by apply (owners_same R [] s).
  - rewrite K. intros y. rewrite Hn. apply St.
  - rewrite E. intros y Hy. unfold in_table. rewrite N. by apply Qi.
  - rewrite E. intros y. rewrite Hn. apply Qq.
Qed.

Lemma wf_round L s : wf L s → wf (merge_sort (≤) (queue s) ++ L) (with_queue [] s).
Proof.
  intros [C [R O] St Qi Qq]. split; try done.
  - by apply (core_same s).
  - exists R. by apply (owners_same R [] s).
  - cbn. intros y. rewrite merge_sort_Permutation. intros Hy. apply Qi. set_solver.
  - cbn. intros y Hy. rewrite merge_sort_Permutation. specialize (Qq y Hy). set_solver.
Qed.

(** [set] and [touch] demand a live node, [set] a signal. *)
Lemma set_inv x v s t : set x v s = Some t → live (node_at s x) = true ∧ kind (node_at s x) = Signal.
Proof.
  unfold set, node_at. destruct (nodes s !! x) as [n|]; [|done]. cbn.
  destruct (live n); [|done]. cbn. by case_bool_decide.
Qed.
Lemma touch_inv x s t : touch x s = Some t → live (node_at s x) = true.
Proof. unfold touch, node_at. destruct (nodes s !! x) as [n|]; [|done]. cbn. by destruct (live n). Qed.
Lemma dispose_inv x s t : dispose x s = Some t → live (node_at s x) = true ∨ t = s.
Proof.
  unfold dispose, node_at. destruct (nodes s !! x) as [n|]; [|done]. cbn.
  destruct (live n); [by left|]. cbn. intros [= ->]. by right.
Qed.
Lemma read_begin_inv x s r t :
  read_begin x s = Some (r, t) → live (node_at s x) = true ∧ kind (node_at s x) ≠ Effect.
Proof.
  unfold read_begin. destruct (nodes s !! x) as [n|] eqn:En; [|done]. cbn.
  assert (node_at s x = n) as -> by (unfold node_at; by rewrite En).
  destruct (live n); [|done]. cbn. destruct (record_dependency x s) as [s1|] eqn:E1; [|done]. cbn.
  assert (kind <$> nodes s1 !! x = Some (kind n)) as Hk.
  { revert E1. unfold record_dependency. destruct (computing s) as [|f rest]; [intros [= <-]; by rewrite En|].
    case_decide; [intros [= <-]; by rewrite En|]. destruct (nodes s !! f) as [nf|] eqn:Ef; [|done]. cbn.
    case_decide; [intros [= <-]; by rewrite En|].
    destruct (modify f _ s) as [s2|] eqn:E2; [|done]. cbn. intros E3.
    apply modify_inv in E2 as [Hf ->], E3 as [Hx ->]. unfold upd. cbn.
    rewrite list_lookup_alter_eq, list_lookup_alter_ne by done. by rewrite En. }
  destruct (nodes s1 !! x) as [n1|]; [|done]. cbn in *. simplify_eq. intros H. split; [done|].
  intros He. rewrite Hk, He in H. done.
Qed.
Lemma end_compute_inv x r s t : end_compute x r s = Some t → head (computing s) = Some x.
Proof. unfold end_compute. destruct (computing s); [done|]. by case_decide; subst. Qed.

Lemma step_wf e M N : step e M N → running_live N.2 → wf (pending M.1) M.2 → wf (pending N.1) N.2.
Proof.
  intros St Run W. destruct St as [P s v x t E|P s v x t E|P s b m x t E|P s b x t E|P s x r t E|P s x v t Hk E|
    P s x v t E|P s x t E|L s|e Q L s r t E|P s e t Hk E|Q L s|P s x t E|P s b|P s b|P s out|P s out|P s];
    cbn in *; try set (Q := P.1 ++ P.2) in *.
  - destruct (wf_signal Q s v W) as (x' & t' & E' & ?). by simplify_eq.
  - destruct (wf_signal_root Q s v W) as (x' & t' & E' & ?). by simplify_eq.
  - destruct (wf_computed Q s b m W) as (x' & t' & E' & ?). by simplify_eq.
  - destruct (wf_effect Q s b W) as (x' & t' & E' & ?). by simplify_eq.
  - apply read_begin_inv in E as Hx. eapply wf_read_begin; [done|apply Hx|done..].
  - destruct (end_compute_spec Q x s (Some v) W) as (t' & E' & ? & _); [by eapply end_compute_inv|done|].
    by simplify_eq.
  - apply set_inv in E as Hx. destruct (wf_set Q x v s W) as (s1 & t' & E' & _ & _ & ? & _); [apply Hx..|]. by simplify_eq.
  - destruct (wf_touch Q x s W) as (s1 & t' & E' & _ & ? & _); [by eapply touch_inv|]. by simplify_eq.
  - by apply wf_round.
  - destruct (effect_begin_spec (Q ++ L) e s W) as (r' & t' & E' & ? & _). simplify_eq. auto.
  - destruct (end_compute_spec Q e s None W) as (t' & E' & ? & _); [by eapply end_compute_inv|congruence|].
    by simplify_eq.
  - done.
  - apply dispose_inv in E as Hx. destruct Hx as [Hl|Heq]; [|by subst].
    destruct (dispose_spec Q x s W Hl) as (t' & R & E' & _ & _ & ? & _). simplify_eq. auto.
  - by apply (wf_same Q s).
  - apply (wf_same Q s); by destruct b.
  - by apply (wf_same Q s).
  - by apply (wf_same Q s).
  - apply (wf_same [] new); try done. apply wf_new.
Qed.

Lemma safely_wf M N : rtc safely M N → wf (pending M.1) M.2 → wf (pending N.1) N.2.
Proof. induction 1 as [|M M' N (e & St & Run) _ IH]; [done|]. intros W. apply IH. by eapply step_wf. Qed.

Lemma orderly_safely M N : rtc orderly M N → rtc safely M N.
Proof. apply rtc_subrel. intros a b (e & St & Run & _). by exists e. Qed.
End Machine.
