(* ===== verification/ReactiveChanges.v ===== *)
(** No change is lost: in the states of an orderly run, whatever depends on a stale
    computed that nobody is recomputing has been notified, so that one walk from a
    changed signal reaches every dependent. *)
From S2P Require Import Prelude Reactive ReactiveFacts ReactiveWf ReactiveSteps.
From stdpp Require Import options.

Section Settled.
  Context {V : Type}.
  Implicit Types (n : Node V) (s t : Inner V) (Q : list NodeId).

(** A computed frame's stale sources are being recomputed above it. *)
Record settled s : Prop := {
  se_edges c y : c ∈ sources (node_at s y) → is_stale (node_at s c) = true → c ∉ computing s →
    notified (node_at s y);
  se_frames l1 k l2 c : computing s = l1 ++ k :: l2 → kind (node_at s k) = Computed →
    c ∈ sources (node_at s k) → is_stale (node_at s c) = true → c ∈ l1;
}.

(** Fewer edges, fewer stale memos, the same frames. *)
Lemma settled_shrink s t :
  settled s →
  (∀ c y, c ∈ sources (node_at t y) → is_stale (node_at t c) = true →
    c ∈ sources (node_at s y) ∧ is_stale (node_at s c) = true ∧
    (notified (node_at s y) → notified (node_at t y)) ∧ kind (node_at t y) = kind (node_at s y)) →
  computing t = computing s → settled t.
Proof.
  intros [E F] H K. split.
  - intros c y Hc Hst. rewrite K. destruct (H c y Hc Hst) as (? & ? & Hn & _). eauto.
  - intros l1 k l2 c. rewrite K. intros Hk Hkc Hc Hst. destruct (H c k Hc Hst) as (? & ? & _ & Ek).
    eapply F; [done|congruence|done..].
Qed.

(** Opening a frame for [x]. *)
Lemma settled_open x s t :
  (∀ c y, c ∈ sources (node_at t y) → is_stale (node_at t c) = true → c ≠ x →
    y ≠ x ∧ c ∈ sources (node_at s y) ∧ is_stale (node_at s c) = true ∧
    (notified (node_at s y) → notified (node_at t y)) ∧ kind (node_at t y) = kind (node_at s y)) →
  sources (node_at t x) = [] →
  computing t = x :: computing s → settled s → settled t.
Proof.
  intros H Hx K [E F]. split.
  - intros c y Hc Hst. rewrite K. intros Hn. assert (c ≠ x) as Hcx by set_solver.
    destruct (H c y Hc Hst Hcx) as (_ & ? & ? & ? & _). assert (c ∉ computing s) by set_solver. eauto.
  - intros l1 k l2 c. rewrite K. destruct l1 as [|x' l1]; cbn; intros [= -> Hk] Hkc Hc Hst.
    + rewrite Hx in Hc. set_solver.
    + destruct (decide (c = x')) as [->|Hcx]; [set_solver|].
      destruct (H c k Hc Hst Hcx) as (_ & ? & ? & _ & Ek). right. eapply F; [done|congruence|done..].
Qed.

Lemma stale_live s x : core s → is_stale (node_at s x) = true → live (node_at s x) = true.
Proof.
  intros C Hs. apply not_false_iff_true. intros Hl. unfold is_stale in Hs.
  destruct (dead_empty _ (core_nodes s C x) Hl) as (_ & _ & Hd & _). by rewrite Hd, andb_false_r in Hs.
Qed.

Lemma survives_stale s t x :
  survives s t x → kind (node_at t x) = kind (node_at s x) → is_stale (node_at t x) = is_stale (node_at s x).
Proof. intros [_ (Ed & _) _] Hk. unfold is_stale. by rewrite Hk, Ed. Qed.

Lemma survives_notified s t x :
  survives s t x → kind (node_at t x) = kind (node_at s x) → notified (node_at s x) → notified (node_at t x).
Proof. intros [_ (Ed & Eq & _) _] Hk. unfold notified. by rewrite Hk, Ed, Eq. Qed.

Lemma settled_begin Q x s s0 b t :
  wf Q s → live (node_at s x) = true → kind (node_at s x) ≠ Signal →
  begin_compute x s = Some (b, t) →
  computing s = computing s0 → settled s0 →
  (∀ c y, c ∈ sources (node_at s y) → c ∈ sources (node_at s0 y) ∨ c = x) →
  (∀ y, y ≠ x → is_stale (node_at s y) = is_stale (node_at s0 y) ∧ (notified (node_at s0 y) → notified (node_at s y)) ∧
    kind (node_at s y) = kind (node_at s0 y)) →
  settled t.
Proof.
  intros W Hl Hk E K S0 Hsrc Hn.
  destruct (begin_compute_spec Q x s W Hl Hk) as (b' & t' & E' & _ & C & _ & _ & Hlt & Hs & Kt & Sv & Ec & _).
  simplify_eq. apply (settled_open x s0 t); [|done|congruence|done].
  intros c y Hc Hst Hcx. assert (y ≠ x) as Hyx by (intros ->; rewrite Hs in Hc; set_solver).
  pose proof (Sv c (stale_live t c C Hst)) as Svc. rewrite (survives_stale s t c Svc (Kt c)) in Hst.
  destruct (source_live t c y (core_edges t C) (core_nodes t C) Hc) as [_ Hly].
  pose proof (Sv y Hly) as Svy. apply (sv_sources _ _ _ Svy) in Hc.
  destruct (Hn c Hcx) as (Hn1 & _). destruct (Hn y Hyx) as (_ & Hn2 & Hn3).
  split_and!; [done|by destruct (Hsrc c y Hc)|congruence| |by rewrite Kt].
  intros H. apply (survives_notified s t y Svy (Kt y)). auto.
Qed.

Lemma settled_read_begin Q x s r t : wf Q s → settled s → read_begin x s = Some (r, t) → settled t.
Proof.
  intros W S E. destruct (read_begin_inv x s r t E) as [Hl Hk].
  destruct (read_begin_spec Q x s W Hl Hk) as (s1 & E1 & W1 & Rw & K & Hsrc & Hr).
  destruct (rewired_fields s s1 x Rw) as (Fk & Fl & _).
  assert (∀ y, is_stale (node_at s1 y) = is_stale (node_at s y) ∧ (notified (node_at s y) → notified (node_at s1 y)) ∧
    kind (node_at s1 y) = kind (node_at s y)) as Keep.
  { intros y. destruct (rewired_fields s s1 y Rw) as (Gk & _ & Gd & Gq & _). unfold is_stale, notified. by rewrite Gk, Gd, Gq. }
  destruct (is_stale (node_at s x)) eqn:Hst.
  - destruct Hr as (b & u & Eb & Er & _). simplify_eq.
    eapply (settled_begin Q x s1 s b t W1); try done; [congruence| |].
    + rewrite Fk. unfold is_stale in Hst. intros Hs. by rewrite Hs in Hst.
    + intros c y Hc. apply Hsrc in Hc. naive_solver.
  - destruct Hr as (v & _ & Er). simplify_eq. apply (settled_shrink s t S); [|done].
    intros c y Hc Hsc. destruct (Keep c) as (Kc & _), (Keep y) as (_ & Ky & Kk). rewrite Kc in Hsc.
    apply Hsrc in Hc as [Hc|(-> & _)]; [done|congruence].
Qed.

Lemma settled_end Q x s r t :
  wf Q s → settled s → end_compute x r s = Some t → (kind (node_at s x) = Computed → is_Some r) → settled t.
Proof.
  intros W [SE SF] E Hr. apply end_compute_inv in E as Hh.
  destruct (end_compute_spec Q x s r W Hh Hr) as (t' & E' & _ & N & K & _). simplify_eq.
  destruct (computing s) as [|x' rest] eqn:Est; [done|]. cbn in Hh, K. injection Hh as ->.
  assert (∀ y, sources (node_at t y) = sources (node_at s y) ∧ kind (node_at t y) = kind (node_at s y) ∧
    queued (node_at t y) = queued (node_at s y)) as Keep.
  { intros y. rewrite N. case_decide; [|done]. unfold memoize. by case_decide. }
  assert (is_stale (node_at t x) = false) as Hx.
  { rewrite N, decide_True by done. unfold is_stale, memoize. by rewrite andb_false_r. }
  assert (∀ y, y ≠ x → node_at t y = node_at s y) as Ne by (intros y Hy; by rewrite N, decide_False).
  split.
  - intros c y. destruct (Keep y) as (-> & Hk & Hq). intros Hc Hst Hn.
    assert (c ≠ x) as Hcx by (intros ->; congruence). rewrite Ne in Hst by done.
    assert (kind (node_at s x) = Computed → y ≠ x) as Hyx.
    { intros Hkx ->. pose proof (SF [] x rest c eq_refl Hkx Hc Hst). set_solver. }
    destruct (SE c y Hc Hst) as [H1 H2]; [rewrite K in Hn; set_solver|].
    split; rewrite Hk; intros H; [|rewrite Hq; auto]. rewrite Ne; [auto|]. intros ->. by apply Hyx.
  - intros l1 k l2 c Hs. destruct (Keep k) as (-> & -> & _). intros Hk Hc Hst.
    assert (c ≠ x) as Hcx by (intros ->; congruence). rewrite Ne in Hst by done.
    assert (c ∈ x :: l1) as Hin; [|set_solver].
    eapply (SF (x :: l1) k l2); [|done..]. cbn. by rewrite <-Hs, K.
Qed.

(** A walk from a changed node, no computed being on the stack. *)
Lemma settled_walk x s t :
  settled s → walk x s [] t → (∀ f, f ∈ computing s → kind (node_at s f) = Effect) → settled t.
Proof.
  intros [SE SF] [C So _ _ _ Wd] He. destruct (so_rest _ _ So) as (_ & K & _).
  split.
  - intros c y Hc Hst Hn. rewrite K in Hn.
    destruct (soft_fields s t y So) as (_ & _ & Esy & _). destruct (soft_fields s t c So) as (Ekc & _ & _ & Ebc & _).
    destruct (is_stale (node_at s c)) eqn:Hsc.
    + eapply (soft_notified s t y So), (SE c y); [congruence|done..].
    + unfold is_stale in Hst, Hsc. rewrite Ekc in Hst. apply andb_true_iff in Hst as [Hkc Hdc].
      destruct (Wd c) as [H|H]; [right; split; [|done]|set_solver|].
      * unfold clean. rewrite Hkc in *. cbn in *. by rewrite Hsc.
      * apply H. rewrite <-Ebc. by apply (edge_sym t (core_edges t C)).
  - intros l1 k l2 c Hs Hk. rewrite K in Hs. destruct (soft_fields s t k So) as (Ek & _).
    assert (kind (node_at s k) = Effect); [|congruence]. apply He. rewrite Hs. set_solver.
Qed.

Lemma settled_same s t : nodes t = nodes s → computing t = computing s → settled s → settled t.
Proof.
  intros N K S. apply (settled_shrink s); [done| |done]. intros c y.
  assert (∀ z, node_at t z = node_at s z) as E by (intros z; unfold node_at; by rewrite N). by rewrite !E.
Qed.

(** A new node has no edges. *)
Lemma settled_fresh nn x s t :
  core s → settled s → live (node_at s x) = false → sources nn = [] →
  (∀ y, ∃ o l, node_at t y = set_owner o (set_owned l (if decide (x = y) then nn else node_at s y))) →
  computing t = computing s → settled t.
Proof.
  intros C S Hd Hs N K. apply (settled_shrink s); [done| |done]. intros c y Hc Hst.
  destruct (N y) as (o & l & Ny). rewrite Ny in Hc |- *. cbn in *. case_decide as Hy; [rewrite Hs in Hc; set_solver|].
  destruct (source_live s c y (core_edges s C) (core_nodes s C) Hc) as [Hlc _].
  destruct (N c) as (o' & l' & Nc). rewrite Nc, decide_False in Hst by congruence. done.
Qed.

Lemma settled_create nn Q s x t :
  wf Q s → settled s → fresh_node nn →
  create nn (with_dirty_computeds (dirty_computeds s + Nat.b2n (is_stale nn)) s) = Some (x, t) →
  settled t.
Proof.
  intros W S F E. destruct (create_spec nn Q s W F) as (x' & t' & E' & _ & _ & Hd & N & _ & _ & K & _). simplify_eq.
  destruct F as (_ & Fs & _). apply (settled_fresh nn x s t); try done. apply W.
Qed.

Lemma settled_signal_root Q s v x t : wf Q s → settled s → signal_root v s = Some (x, t) → settled t.
Proof.
  intros W S E. destruct (signal_root_spec Q s v W) as (x' & t' & E' & _ & Hd & N & _ & F). simplify_eq.
  apply (settled_fresh (signal_node v) x s t); try done; [apply W| |by rewrite F].
  intros y. rewrite N. case_decide.
  - exists None, []. done.
  - exists (owner (node_at s y)), (owned (node_at s y)). by destruct (node_at s y).
Qed.

Lemma settled_set Q s x v t :
  wf Q s → settled s → (∀ f, f ∈ computing s → kind (node_at s f) = Effect) → set x v s = Some t → settled t.
Proof.
  intros W S He E. destruct (set_inv x v s t E) as [Hl Hk].
  destruct (wf_set Q x v s W Hl Hk) as (s1 & t' & E' & Wk & _ & _ & N & K & _). simplify_eq.
  apply (settled_walk x s1 t); [|done|].
  - apply (settled_shrink s); [done| |done]. intros c y. rewrite !N. by repeat case_decide; subst.
  - intros f. rewrite K, N. intros Hf. specialize (He f Hf). by case_decide; subst.
Qed.

Lemma settled_touch Q s x t :
  wf Q s → settled s → (∀ f, f ∈ computing s → kind (node_at s f) = Effect) → touch x s = Some t → settled t.
Proof.
  intros W S He E. destruct (wf_touch Q x s W (touch_inv x s t E)) as (s1 & t' & E' & Wk & _ & N & K & _). simplify_eq.
  apply (settled_walk x s1 t); [by apply (settled_same s)|done|].
  intros f. unfold node_at. rewrite N, K. apply He.
Qed.

Lemma settled_dispose Q s x t : wf Q s → settled s → dispose x s = Some t → settled t.
Proof.
  intros W S E. destruct (dispose_inv x s t E) as [Hl| ->]; [|done].
  destruct (dispose_spec Q x s W Hl) as (t' & R & E' & C & _ & _ & _ & Sv & _ & K). simplify_eq.
  apply (settled_shrink s); [done| |done]. intros c y Hc Hst.
  destruct (source_live t c y (core_edges t C) (core_nodes t C) Hc) as [Hlc Hly].
  destruct (Sv c Hlc) as (Svc & Kc & _), (Sv y Hly) as (Svy & Ky & _).
  split_and!; [by apply (sv_sources _ _ _ Svy)|by rewrite <-(survives_stale s t c)|by apply survives_notified|done].
Qed.

Lemma settled_effect_begin Q e s r t : wf (e :: Q) s → settled s → effect_begin e s = Some (r, t) → settled t.
Proof.
  intros W S E. destruct (effect_begin_spec Q e s W) as (r' & t' & E' & _ & H). simplify_eq.
  destruct r as [b|]; [|by destruct H as [-> _]]. destruct H as (Hl & Hk & _).
  assert (in_table s e) as Hx by by apply live_in_table.
  revert E. unfold effect_begin. rewrite lookup_node_at by done. cbn. rewrite Hl, Hk, modify_upd by done. cbn.
  destruct (begin_compute e _) as [[b' u]|] eqn:Eb; [|done]. cbn. intros [= -> ->].
  set (s1 := upd e (set_queued false) s) in Eb.
  destruct (wf_unqueue e Q s W Hx) as [W1 N]. fold s1 in W1, N.
  eapply (settled_begin Q e s1 s b t W1); try done.
  - by rewrite N, decide_True.
  - rewrite N, decide_True by done. cbn. congruence.
  - intros c y. rewrite N. left. by case_decide.
  - intros y Hy. by rewrite N, decide_False.
Qed.

Lemma settled_new : settled (new (V := V)).
Proof. split; [intros c y Hc; cbn in Hc; set_solver|]. intros [|??] ??? Hs; discriminate Hs. Qed.

Lemma step_settled e M N :
  step e M N → (e = Changes → ∀ f, f ∈ computing M.2 → kind (node_at M.2 f) = Effect) →
  wf (pending M.1) M.2 → settled M.2 → settled N.2.
Proof.
  intros St He W S. destruct St as [P s v x t E|P s v x t E|P s b m x t E|P s b x t E|P s x r t E|P s x v t Hk E|
    P s x v t E|P s x t E|L s|e Q L s r t E|P s e t Hk E|Q L s|P s x t E|P s b|P s b|P s out|P s out|P s];
    cbn in *; try set (Q := P.1 ++ P.2) in *.
  - rewrite signal_create in E. by apply (settled_create _ Q s x t W S (signal_node_fresh v)).
  - by eapply settled_signal_root.
  - rewrite computed_create in E. by apply (settled_create _ Q s x t W S (computed_node_fresh b m)).
  - rewrite effect_create in E.
    destruct (create (effect_node b) _) as [[x' u]|] eqn:Ec; [|done]. cbn in E. simplify_eq.
    apply (settled_same u); [done..|]. by apply (settled_create _ Q s x u W S (effect_node_fresh b)).
  - by eapply settled_read_begin.
  - eapply settled_end; [done..|by eexists].
  - eapply settled_set; [done..| |done]. auto.
  - eapply settled_touch; [done..| |done]. auto.
  - by apply (settled_same s).
  - by eapply (settled_effect_begin (Q ++ L)).
  - eapply settled_end; [done..|]. congruence.
  - done.
  - by eapply settled_dispose.
  - by apply (settled_same s).
  - apply (settled_same s); by destruct b.
  - by apply (settled_same s).
  - by apply (settled_same s).
  - apply (settled_same new); [done..|apply settled_new].
Qed.

Lemma orderly_settled M N :
  rtc orderly M N → wf (pending M.1) M.2 → settled M.2 → wf (pending N.1) N.2 ∧ settled N.2.
Proof.
  induction 1 as [|M M' N (e & St & Run & He) _ IH]; [done|]. intros W S.
  apply IH; [by eapply step_wf|by eapply step_settled].
Qed.

(** One walk reaches everything that depends on the changed node. *)
Lemma walk_reaches x s t y :
  core s → settled s → computing s = [] → walk x s [] t →
  tc (λ a b, b ∈ subscribers (node_at s a)) x y → notified (node_at t y).
Proof.
  intros C [SE _] K W H. pose proof (wk_soft _ _ _ _ W) as So.
  assert (∀ a b, notified (node_at t a) → sources (node_at s a) ≠ [] →
    b ∈ subscribers (node_at s a) → notified (node_at t b)) as Step.
  { intros a b [Ha _] Hse Hb. destruct (kind (node_at s a)) eqn:Hk.
    - by destruct (signal_plain _ (core_nodes s C a) Hk).
    - destruct (soft_fields s t a So) as (Ek & _). rewrite Ek in Ha. specialize (Ha Hk).
      destruct (is_stale (node_at s a)) eqn:Hst.
      + eapply (soft_notified s t b So), (SE a b); [by apply (edge_sym s (core_edges s C))|done|rewrite K; set_solver].
      + destruct (wk_done _ _ _ _ W a) as [Hw|Hw]; [right; split; [|done]|set_solver|by apply Hw].
        unfold clean, is_stale in *. rewrite Hk, bool_decide_true in Hst |- * by done. cbn in Hst |- *. by rewrite Hst.
    - rewrite (effect_leaf _ (core_nodes s C a) Hk) in Hb. set_solver. }
  assert (notified (node_at t y) ∧ sources (node_at s y) ≠ []) as [? _]; [|done].
  assert (∀ a b, b ∈ subscribers (node_at s a) → sources (node_at s b) ≠ []) as Hs.
  { intros a b Hb He. apply (edge_sym s (core_edges s C)) in Hb. rewrite He in Hb. set_solver. }
  revert y H. refine (tc_ind_r (λ y, notified (node_at t y) ∧ sources (node_at s y) ≠ []) x _ _).
  - intros y Hxy. split; [|by eapply Hs]. destruct (wk_done _ _ _ _ W x) as [Hw|Hw]; [by left|set_solver|by apply Hw].
  - intros z y _ Hzy [IHn IHs]. split; [by eapply Step|by eapply Hs].
Qed.
End Settled.
