(* ===== verification/ReactiveFresh.v ===== *)
(** Memoised reads against evaluation from scratch.  A body that only reads is a tree
    of reads ([Body]); [eval] computes a node's value without memos, flags or edges.
    A graph is [coherent] when every clean memo has the evidence ([Fresh]) that its
    body, run on the present values of its recorded sources, returns it. *)
From S2P Require Import Prelude Reactive ReactiveFacts ReactiveWf ReactiveSteps.
From stdpp Require Import sorting options.

(** A body closure, as the reads it makes and the value it returns. *)
Inductive Body (V : Type) :=
  | Ret (v : V)
  | Get (x : NodeId) (k : V → Body V).
Arguments Ret {V} _.
Arguments Get {V} _ _.

Section Fresh.
  Context {V : Type} (code : V → Body V).
  Implicit Types (n : Node V) (s t u : Inner V) (Q : list NodeId).

(** The backend's callback: run the closure, reading through the graph. *)
Fixpoint exec (rd : NodeId → Inner V → option (V * Inner V)) (b : Body V) s : option (V * Inner V) :=
  match b with
  | Ret v => Some (v, s)
  | Get x k => '(v, s) ← rd x s; exec rd (k v) s
  end.

Fixpoint run (fuel : nat) (b : V) s : option (V * Inner V) :=
  match fuel with
  | O => None
  | S fuel => exec (read (run fuel)) (code b) s
  end.

(** Evaluation from scratch. *)
Fixpoint eval_body (ev : NodeId → option V) (b : Body V) : option V :=
  match b with
  | Ret v => Some v
  | Get x k => v ← ev x; eval_body ev (k v)
  end.

Fixpoint eval (fuel : nat) s (x : NodeId) : option V :=
  if live (node_at s x) then
    match kind (node_at s x) with
    | Signal => content (node_at s x)
    | Computed =>
        match fuel with
        | O => None
        | S fuel => b ← body (node_at s x); eval_body (eval fuel s) (code b)
        end
    | Effect => None
    end
  else None.

(** What evaluation looks at. *)
Definition same_program s t : Prop :=
  ∀ y, live (node_at t y) = live (node_at s y) ∧ kind (node_at t y) = kind (node_at s y) ∧
    body (node_at t y) = body (node_at s y) ∧
    (kind (node_at s y) = Signal → content (node_at t y) = content (node_at s y)).

Lemma same_program_refl s : same_program s s.
Proof. by intros y. Qed.
Lemma same_program_trans s t u : same_program s t → same_program t u → same_program s u.
Proof.
  intros H1 H2 y. destruct (H1 y) as (A1 & B1 & C1 & D1), (H2 y) as (A2 & B2 & C2 & D2).
  split_and!; [congruence..|]. intros Hk. rewrite D2, D1; congruence.
Qed.

Lemma eval_body_ext (ev ev' : NodeId → option V) b :
  (∀ x, ev x = ev' x) → eval_body ev b = eval_body ev' b.
Proof.
  intros H. induction b as [v|x k IH]; cbn; [done|]. rewrite H. destruct (ev' x); cbn; auto.
Qed.

Lemma eval_same k s t x : same_program s t → eval k t x = eval k s x.
Proof.
  intros H. revert x. induction k as [|k IH]; intros x; cbn [eval]; destruct (H x) as (Hl & Hk & Hb & Hc);
    rewrite Hl, Hk, ?Hb; destruct (live (node_at s x)), (kind (node_at s x)); auto.
  destruct (body (node_at s x)); [|done]. by apply eval_body_ext.
Qed.

Lemma eval_body_mono (ev ev' : NodeId → option V) b v :
  (∀ x w, ev x = Some w → ev' x = Some w) → eval_body ev b = Some v → eval_body ev' b = Some v.
Proof.
  intros H. induction b as [w|x k IH]; cbn; [done|].
  destruct (ev x) as [w|] eqn:E; cbn; [|done]. rewrite (H x w E). apply IH.
Qed.

Lemma eval_S k s x v : eval k s x = Some v → eval (S k) s x = Some v.
Proof.
  revert x v. induction k as [|k IH]; intros x v.
  - cbn. destruct (live (node_at s x)), (kind (node_at s x)); done.
  - intros H. cbn in H. cbn [eval]. destruct (live (node_at s x)), (kind (node_at s x)); try done.
    destruct (body (node_at s x)) as [b|]; [|done]. cbn in *. eapply eval_body_mono, H. apply IH.
Qed.

Lemma eval_le j k s x v : j ≤ k → eval j s x = Some v → eval k s x = Some v.
Proof. induction 1; [done|]. intros H'. by apply eval_S, IHle. Qed.

Lemma eval_det j k s x v w : eval j s x = Some v → eval k s x = Some w → v = w.
Proof.
  intros H1 H2. apply (eval_le _ (j `max` k)) in H1, H2; [|lia..]. congruence.
Qed.

(** Evidence that the value of [x] is up to date. *)
Inductive Fresh s : NodeId → V → Prop :=
  | Fresh_signal x v : live (node_at s x) = true → kind (node_at s x) = Signal →
      content (node_at s x) = Some v → Fresh s x v
  | Fresh_memo x b v : live (node_at s x) = true → kind (node_at s x) = Computed →
      dirty (node_at s x) = false → content (node_at s x) = Some v → body (node_at s x) = Some b →
      FreshBody s x (code b) v → Fresh s x v
with FreshBody s : NodeId → Body V → V → Prop :=
  | FreshBody_ret x v : FreshBody s x (Ret v) v
  | FreshBody_get x y w k v : y ∈ sources (node_at s x) → Fresh s y w →
      FreshBody s x (k w) v → FreshBody s x (Get y k) v.

Scheme Fresh_ind2 := Induction for Fresh Sort Prop
  with FreshBody_ind2 := Induction for FreshBody Sort Prop.
Combined Scheme Fresh_mutind from Fresh_ind2, FreshBody_ind2.

Definition coherent s : Prop :=
  ∀ x, live (node_at s x) = true → kind (node_at s x) = Computed → dirty (node_at s x) = false →
    ∃ v, Fresh s x v.

(** No node was created by a body. *)
Definition flat s : Prop := ∀ x, owned (node_at s x) = [].

Lemma fresh_eval s :
  (∀ x v, Fresh s x v → ∃ k, eval k s x = Some v) ∧
  (∀ x b v, FreshBody s x b v → ∃ k, eval_body (eval k s) b = Some v).
Proof.
  apply Fresh_mutind.
  - intros x v Hl Hk Hc. exists 0. cbn. by rewrite Hl, Hk.
  - intros x b v Hl Hk _ _ Hb _ [k IH]. exists (S k). cbn. by rewrite Hl, Hk, Hb.
  - intros x v. by exists 0.
  - intros x y w k v _ _ [j1 IH1] _ [j2 IH2]. exists (j1 `max` j2). cbn.
    rewrite (eval_le j1 _ s y w) by (done || lia). cbn. eapply eval_body_mono, IH2.
    intros z w'. apply eval_le. lia.
Qed.

Lemma fresh_content s x v : Fresh s x v → content (node_at s x) = Some v.
Proof. by destruct 1. Qed.

Lemma fresh_not_stale s x v : Fresh s x v → is_stale (node_at s x) = false.
Proof.
  destruct 1 as [x v _ Hk _|x b v _ _ Hd _ _ _]; unfold is_stale; [by rewrite Hk|by rewrite Hd, andb_false_r].
Qed.

Lemma fresh_kind s x v : Fresh s x v → kind (node_at s x) ≠ Effect.
Proof. destruct 1; congruence. Qed.

(** Nothing an effect's own frame changes is evidence for another node. *)
Lemma fresh_flat_frame s t e :
  (∀ y, y ≠ e → live (node_at t y) = live (node_at s y) ∧ kind (node_at t y) = kind (node_at s y) ∧
    dirty (node_at t y) = dirty (node_at s y) ∧ content (node_at t y) = content (node_at s y) ∧
    body (node_at t y) = body (node_at s y) ∧ sources (node_at t y) = sources (node_at s y)) →
  kind (node_at s e) = Effect → ∀ x v, Fresh s x v → Fresh t x v.
Proof.
  intros H He.
  assert ((∀ x v, Fresh s x v → Fresh t x v) ∧ (∀ x b v, FreshBody s x b v → x ≠ e → FreshBody t x b v)) as [? _]; [|done].
  apply Fresh_mutind.
  - intros x v Hl Hk Hc. destruct (H x) as (? & ? & ? & ? & ? & ?); [intros ->; congruence|]. constructor; congruence.
  - intros x b v Hl Hk Hd Hc Hb _ IH. assert (x ≠ e) as Hx by (intros ->; congruence).
    destruct (H x Hx) as (? & ? & ? & ? & ? & ?). apply (Fresh_memo t x b); [congruence..|auto].
  - constructor.
  - intros x y w k v Hy Hf IH1 _ IH2 Hx. destruct (H x Hx) as (_ & _ & _ & _ & _ & Es).
    apply (FreshBody_get t x y w); [by rewrite Es|done|auto].
Qed.

(** Up-to-date nodes are left as they are, sources apart. *)
Definition extends s t : Prop :=
  ∀ z, live (node_at s z) = true → is_stale (node_at s z) = false →
    live (node_at t z) = true ∧ kind (node_at t z) = kind (node_at s z) ∧
    dirty (node_at t z) = dirty (node_at s z) ∧ content (node_at t z) = content (node_at s z) ∧
    body (node_at t z) = body (node_at s z) ∧
    ∀ a, a ∈ sources (node_at s z) → a ∈ sources (node_at t z).

Lemma extends_refl s : extends s s.
Proof. by intros z. Qed.
Lemma extends_trans s t u : extends s t → extends t u → extends s u.
Proof.
  intros H1 H2 z Hl Hs. destruct (H1 z Hl Hs) as (A1 & B1 & C1 & D1 & E1 & F1).
  destruct (H2 z A1) as (A2 & B2 & C2 & D2 & E2 & F2); [unfold is_stale in *; by rewrite B1, C1|].
  split_and!; [done|congruence..|auto].
Qed.

Lemma fresh_extends s t :
  extends s t →
  (∀ x v, Fresh s x v → Fresh t x v) ∧
  (∀ x b v, FreshBody s x b v → (∀ a, a ∈ sources (node_at s x) → a ∈ sources (node_at t x)) → FreshBody t x b v).
Proof.
  intros H. apply Fresh_mutind.
  - intros x v Hl Hk Hc. destruct (H x Hl) as (? & ? & ? & ? & ? & ?); [unfold is_stale; by rewrite Hk|].
    constructor; congruence.
  - intros x b v Hl Hk Hd Hc Hb _ IH. destruct (H x Hl) as (? & ? & ? & ? & ? & ?); [unfold is_stale; by rewrite Hd, andb_false_r|].
    apply (Fresh_memo t x b); [done|congruence..|auto].
  - constructor.
  - intros x y w k v Hy _ IH1 _ IH2 Hs. econstructor; eauto.
Qed.

Lemma extends_coherent s t :
  coherent s → extends s t →
  (∀ z, live (node_at t z) = true → kind (node_at t z) = Computed → dirty (node_at t z) = false →
    (live (node_at s z) = true ∧ kind (node_at s z) = Computed ∧ dirty (node_at s z) = false) ∨ ∃ v, Fresh t z v) →
  coherent t.
Proof.
  intros C E H z Hl Hk Hd. destruct (H z Hl Hk Hd) as [(Hl' & Hk' & Hd')|?]; [|done].
  destruct (C z Hl' Hk' Hd') as [v Hv]. exists v. by apply (fresh_extends s t E).
Qed.

Lemma coherent_same s t : nodes t = nodes s → coherent s → coherent t.
Proof.
  intros N C. assert (∀ y, node_at t y = node_at s y) as E by (intros y; unfold node_at; by rewrite N).
  apply (extends_coherent s t C); intros z; rewrite E; [done|by left].
Qed.

Lemma rewired_program s t : rewired s t → same_program s t.
Proof. intros W y. by destruct (rewired_fields s t y W) as (-> & -> & _ & _ & -> & -> & _). Qed.

Lemma rewired_flat s t : rewired s t → flat s → flat t.
Proof. intros W F y. destruct (rewired_fields s t y W) as (_ & _ & _ & _ & _ & _ & _ & ->). apply F. Qed.
End Fresh.

(** ** Reads *)
Section Reads.
  Context {V : Type} (code : V → Body V).
  Implicit Types (n : Node V) (s t u : Inner V) (Q : list NodeId).

(** What a read does to a coherent graph. *)
Record good_read Q s t : Prop := {
  gr_wf : wf Q t;
  gr_flat : flat t;
  gr_coherent : coherent code t;
  gr_program : same_program s t;
  gr_extends : extends s t;
  gr_stack : computing t = computing s;
  gr_frames r : r ∈ computing s →
    dirty (node_at t r) = dirty (node_at s r) ∧ ∀ a, a ∈ sources (node_at s r) → a ∈ sources (node_at t r);
  gr_queue : queue t = queue s;
}.

Lemma good_read_trans Q s t u : good_read Q s t → good_read Q t u → good_read Q s u.
Proof.
  intros [_ _ _ P1 E1 K1 F1 Q1] [W F C P2 E2 K2 F2 Q2]. split; try done.
  - by eapply same_program_trans.
  - by eapply extends_trans.
  - congruence.
  - intros r Hr. destruct (F1 r Hr) as [D1 S1]. destruct (F2 r) as [D2 S2]; [congruence|].
    split; [congruence|auto].
  - congruence.
Qed.

(** Disposing of no children changes nothing. *)
Lemma dispose_owned_flat x s : in_table s x → owned (node_at s x) = [] → dispose_owned x s = Some s.
Proof.
  intros Hx Ho. assert (upd x (set_owned []) s = s) as E.
  { assert (nodes (upd x (set_owned []) s) = nodes s) as En.
    { apply table_eq; [apply upd_length|]. intros y. rewrite node_at_upd by done. case_decide; [subst|done].
      rewrite <-Ho. by destruct (node_at s y). }
    unfold upd in *. cbn in En. rewrite En. by destruct s. }
  unfold dispose_owned. rewrite lookup_node_at by done. cbn. rewrite modify_upd by done. cbn.
  by rewrite Ho, E.
Qed.

Lemma begin_flat Q x s :
  wf Q s → flat s → live (node_at s x) = true → kind (node_at s x) ≠ Signal →
  ∃ b t, begin_compute x s = Some (b, t) ∧ body (node_at s x) = Some b ∧ wf Q t ∧ flat t ∧
    rewired s t ∧ computing t = x :: computing s ∧ queue t = queue s ∧
    ∀ y, sources (node_at t y) = if decide (x = y) then [] else sources (node_at s y).
Proof.
  intros W F Hl Hk. pose proof (live_in_table _ _ Hl) as Hx.
  destruct (sever_spec x s (wf_core Q s W) Hx) as (s2 & E2 & C2 & Rw & K2 & S2).
  destruct (not_signal_body _ (core_nodes s (wf_core Q s W) x) Hk Hl) as [b Hb].
  destruct (rewired_fields s s2 x Rw) as (Fk & Fl & _ & _ & _ & Fb & _).
  exists b, (with_computing (x :: computing s2) s2). split_and!.
  - unfold begin_compute. rewrite dispose_owned_flat by done. cbn. rewrite lookup_node_at by done. cbn.
    rewrite modify_upd by done. cbn. rewrite E2. cbn.
    rewrite lookup_node_at by (apply live_in_table; congruence). cbn. by rewrite Fb, Hb.
  - done.
  - pose proof (wf_rewired Q s s2 W C2 Rw K2) as [_ [R O] St Qi Qq]. split; try done.
    + by apply (core_same s2).
    + exists R. by apply (owners_same R [] s2).
    + cbn. intros y [->|Hy]%elem_of_cons; [|by apply St].
      change (node_at (with_computing _ s2)) with (node_at s2). split; congruence.
  - exact (rewired_flat s s2 Rw F).
  - destruct Rw as [L N Rst]. split; [done|done|]. rewrite Rst. done.
  - cbn. by rewrite K2.
  - cbn. rewrite (rw_rest _ _ Rw). done.
  - exact S2.
Qed.

(** Recording the dependency is itself a good read. *)
Lemma record_good Q x s s1 :
  wf Q s1 → flat s → coherent code s → rewired s s1 → computing s1 = computing s →
  (∀ y a, a ∈ sources (node_at s1 y) ↔ a ∈ sources (node_at s y) ∨ (a = x ∧ x ≠ y ∧ head (computing s) = Some y)) →
  good_read Q s s1.
Proof.
  intros W F C Rw K Hs.
  assert (extends s s1) as E.
  { intros z Hl _. destruct (rewired_fields s s1 z Rw) as (-> & -> & -> & _ & -> & -> & _).
    split_and!; try done. intros a Ha. apply Hs. by left. }
  split; try done.
  - by apply (rewired_flat s).
  - apply (extends_coherent code s s1 C E). intros z. left.
    destruct (rewired_fields s s1 z Rw) as (<- & <- & <- & _). done.
  - by apply rewired_program.
  - intros r _. split; [by destruct (rewired_fields s s1 r Rw) as (_ & _ & -> & _)|].
    intros a Ha. apply Hs. by left.
  - rewrite (rw_rest _ _ Rw). done.
Qed.

(** A node that is up to date is read as it is. *)
Lemma read_current Q k j s s1 x v :
  coherent code s → live (node_at s x) = true → is_stale (node_at s x) = false →
  eval code k s x = Some v → good_read Q s s1 →
  (∃ w, content (node_at s x) = Some w ∧ read_begin x s = Some (inl w, s1)) →
  read (run code j) x s = Some (v, s1) ∧ Fresh code s1 x v.
Proof.
  intros C Hl Hst He G (w & Hw & Eb). assert (Fresh code s x v) as Hf.
  { destruct (kind (node_at s x)) eqn:Hk.
    - constructor; [done..|]. rewrite <-He. destruct k; cbn; by rewrite Hl, Hk.
    - unfold is_stale in Hst. rewrite Hk in Hst. cbn in Hst.
      destruct (C x Hl Hk Hst) as [v' Hv']. destruct (proj1 (fresh_eval code s) x v' Hv') as [k' Hk'].
      by rewrite (eval_det code k k' s x v v' He Hk').
    - destruct k; cbn in He; by rewrite Hl, Hk in He. }
  pose proof (fresh_content code s x v Hf). unfold read. rewrite Eb. cbn. simplify_eq.
  split; [done|]. by apply (fresh_extends code s s1 (gr_extends _ _ _ G)).
Qed.

(** The body of a frame, given that reads of shallower nodes are good. *)
Lemma exec_good Q k x s0 (rd : NodeId → Inner V → option (V * Inner V)) b :
  (∀ s y v, wf Q s → flat s → coherent code s → eval code k s y = Some v →
    (∀ r, r ∈ computing s → eval code k s r = None) →
    ∃ t, rd y s = Some (v, t) ∧ good_read Q s t ∧ Fresh code t y v ∧
      ∀ f, head (computing s) = Some f → y ∈ sources (node_at t f)) →
  ∀ s v, wf Q s → flat s → coherent code s → same_program s0 s →
    head (computing s) = Some x → (∀ r, r ∈ computing s → eval code k s0 r = None) →
    eval_body (eval code k s0) b = Some v →
    ∃ t, exec rd b s = Some (v, t) ∧ good_read Q s t ∧ FreshBody code t x b v.
Proof.
  intros IH. induction b as [w|y kb IHb]; intros s v W F C P Hh Hr He; cbn in *.
  - simplify_eq. exists s. split_and!; [done| |constructor]. by split.
  - destruct (eval code k s0 y) as [w|] eqn:Ey; [|done]. cbn in He.
    destruct (IH s y w W F C) as (t & Et & G & Hf & Hin).
    { by rewrite (eval_same code k s0 s y P). }
    { intros r Hin. rewrite (eval_same code k s0 s r P). auto. }
    rewrite Et. cbn. pose proof G as [Wt Ft Ct Pt Xt Kt Frt Qt].
    destruct (IHb w t v Wt Ft Ct) as (u & Eu & Gu & Hb); [|congruence| |done|].
    { by eapply same_program_trans. }
    { by rewrite Kt. }
    exists u. split_and!; [done| |].
    + by eapply good_read_trans.
    + apply (FreshBody_get code u x y w kb v); [| |done].
      * apply (gr_frames _ _ _ Gu); [|by apply Hin]. rewrite Kt. destruct (computing s); [done|]. cbn in Hh. simplify_eq. set_solver.
      * by apply (fresh_extends code t u (gr_extends _ _ _ Gu)).
Qed.

(** Closing the frame of [x] with the value of its body. *)
Lemma end_good Q x s0 s v b :
  wf Q s → flat s → coherent code s → computing s = x :: computing s0 → queue s = queue s0 →
  kind (node_at s x) = Computed → body (node_at s x) = Some b → dirty (node_at s x) = true →
  FreshBody code s x (code b) v → same_program s0 s → extends s0 s → is_stale (node_at s0 x) = true →
  (∀ r, r ∈ computing s0 → r ≠ x ∧ dirty (node_at s r) = dirty (node_at s0 r) ∧
    ∀ a, a ∈ sources (node_at s0 r) → a ∈ sources (node_at s r)) →
  ∃ t, end_compute x (Some v) s = Some t ∧ good_read Q s0 t ∧ Fresh code t x v ∧
    ∀ y, sources (node_at t y) = sources (node_at s y).
Proof.
  intros W F C K Eq Hk Hb Hd HF P E Hst Hfr.
  destruct (end_compute_spec Q x s (Some v) W) as (t & Et & Wt & N & Kt & Qt); [by rewrite K|done|].
  rewrite K in Kt. cbn in Kt.
  assert (live (node_at s x) = true) as Hl.
  { apply (wf_stack Q s W). rewrite K. set_solver. }
  assert (∀ y, y ≠ x → node_at t y = node_at s y) as Ne by (intros y Hy; by rewrite N, decide_False).
  assert (node_at t x = set_dirty false (set_content (Some v) (node_at s x))) as Nx.
  { rewrite N, decide_True by done. unfold memoize. by rewrite decide_True. }
  assert (∀ y, sources (node_at t y) = sources (node_at s y)) as Hs.
  { intros y. destruct (decide (y = x)) as [->|Hy]; [by rewrite Nx|by rewrite Ne]. }
  assert (extends s t) as Est.
  { intros z Hlz Hz. assert (z ≠ x) as Hzx; [|by rewrite Ne].
    intros ->. unfold is_stale in Hz. by rewrite Hk, Hd in Hz. }
  assert (Fresh code t x v) as Hfx.
  { apply (Fresh_memo code t x b v); rewrite ?Nx; cbn; try done.
    apply (fresh_extends code s t Est); [done|]. intros a. by rewrite Hs. }
  exists t. split_and!; [done| |done|done]. split; try done.
  - intros y. destruct (decide (y = x)) as [->|Hy]; [rewrite Nx; apply F|rewrite Ne; [apply F|done]].
  - apply (extends_coherent code s t C Est). intros z Hlz Hkz Hdz.
    destruct (decide (z = x)) as [->|Hz]; [right; by exists v|]. left. by rewrite Ne in Hlz, Hkz, Hdz.
  - eapply same_program_trans; [exact P|]. intros y. destruct (decide (y = x)) as [->|Hy]; [|by rewrite Ne].
    rewrite Nx. cbn. split_and!; try done. congruence.
  - by eapply extends_trans.
  - intros r Hr. destruct (Hfr r Hr) as (Hrx & Hdr & Hsr). rewrite Ne by done. done.
  - congruence.
Qed.

(** Opening the frame of a stale computed after recording the dependency on it. *)
Lemma open_good Q x s s1 b t0 :
  coherent code s → good_read Q s s1 → rewired s s1 → is_stale (node_at s x) = true → live (node_at s x) = true →
  kind (node_at s x) = Computed → begin_compute x s1 = Some (b, t0) →
  wf Q t0 ∧ flat t0 ∧ coherent code t0 ∧ same_program s t0 ∧ extends s t0 ∧
  computing t0 = x :: computing s ∧ queue t0 = queue s ∧ body (node_at s x) = Some b ∧
  dirty (node_at t0 x) = true ∧
  (∀ r, dirty (node_at t0 r) = dirty (node_at s1 r)) ∧
  ∀ y, sources (node_at t0 y) = if decide (x = y) then [] else sources (node_at s1 y).
Proof.
  intros C [W1 F1 _ P1 E1 K1 _ Q1] Rw Hst Hl Hk Eb.
  destruct (rewired_fields s s1 x Rw) as (Fk & Fl & Fd & _ & _ & Fb & _).
  destruct (begin_flat Q x s1 W1 F1) as (b' & t0' & Eb' & Hb & W0 & F0 & Rw0 & K0 & Q0 & S0); [congruence..|].
  simplify_eq. destruct (rewired_fields s1 t0 x Rw0) as (_ & _ & Fd0 & _).
  assert (extends s t0) as E0.
  { eapply extends_trans; [exact E1|]. intros z Hlz Hz.
    destruct (rewired_fields s1 t0 z Rw0) as (-> & -> & -> & _ & -> & -> & _). split_and!; try done.
    intros a Ha. rewrite S0, decide_False; [done|]. intros <-. unfold is_stale in *. by rewrite Fk, Fd, Hst in Hz. }
  split_and!; try done; try congruence.
  - apply (extends_coherent code s t0 C E0). intros z. left.
    destruct (rewired_fields s s1 z Rw) as (<- & <- & <- & _).
    destruct (rewired_fields s1 t0 z Rw0) as (<- & <- & <- & _). done.
  - eapply same_program_trans; [exact P1|by apply rewired_program].
  - unfold is_stale in Hst. apply andb_true_iff in Hst as [_ Hd]. congruence.
  - intros r. by destruct (rewired_fields s1 t0 r Rw0) as (_ & _ & -> & _).
Qed.

(** ** Memoised reads are evaluation *)
Lemma read_good Q k j s x v :
  k ≤ j → wf Q s → flat s → coherent code s → eval code k s x = Some v →
  (∀ r, r ∈ computing s → eval code k s r = None) →
  ∃ t, read (run code j) x s = Some (v, t) ∧ good_read Q s t ∧ Fresh code t x v ∧
    ∀ f, head (computing s) = Some f → x ∈ sources (node_at t f).
Proof.
  revert j s x v. induction k as [k IH] using lt_wf_ind. intros j s x v Hj W F C He Hrun.
  assert (live (node_at s x) = true ∧ kind (node_at s x) ≠ Effect) as [Hl Hk].
  { destruct k; cbn in He; destruct (live (node_at s x)), (kind (node_at s x)); done. }
  assert (x ∉ computing s) as Hx by (intros Hx%Hrun; congruence).
  destruct (read_begin_spec Q x s W Hl Hk) as (s1 & _ & W1 & Rw & K1 & Hsrc & Hr).
  pose proof (record_good Q x s s1 W1 F C Rw K1 Hsrc) as G1.
  assert (∀ f, head (computing s) = Some f → x ∈ sources (node_at s1 f)) as Hin.
  { intros f Hf. apply Hsrc. right. split_and!; [done| |done]. intros ->. apply Hx.
    destruct (computing s); [done|]. cbn in Hf. simplify_eq. set_solver. }
  destruct (is_stale (node_at s x)) eqn:Hst.
  2:{ destruct (read_current Q k j s s1 x v C Hl Hst He G1) as [Er Hf].
      { destruct Hr as (w & ? & ?). by exists w. }
      exists s1. done. }
  assert (kind (node_at s x) = Computed ∧ dirty (node_at s x) = true) as [Hkc Hd].
  { unfold is_stale in Hst. apply andb_true_iff in Hst as [Hkc%bool_decide_eq_true Hd]. done. }
  destruct k as [|k]; [cbn in He; by rewrite Hl, Hkc in He|].
  destruct (eval code k s x) as [v'|] eqn:Ek.
  { assert (v' = v) as -> by by eapply eval_det. apply (IH k); [lia|lia|done..|].
    intros r Hrr. destruct (eval code k s r) as [w|] eqn:Er; [|done].
    apply eval_S in Er. rewrite Hrun in Er; done. }
  destruct j as [|j]; [lia|]. destruct Hr as (b & t0 & Eb & Erb & Hbody).
  cbn in He. rewrite Hl, Hkc, Hbody in He. cbn in He.
  destruct (open_good Q x s s1 b t0 C G1 Rw Hst Hl Hkc Eb)
    as (W0 & F0 & C0 & P0 & E0 & K0 & Q0 & _ & Hd0 & D0 & S0).
  destruct (exec_good Q k x s (read (run code j)) (code b)) with (s := t0) (v := v)
    as (u & Eu & Gu & Hbu); try done.
  { intros s' y w W' F' C' Hy Hr'. apply (IH k); [lia|lia|done..]. }
  { by rewrite K0. }
  { rewrite K0. intros r [->|Hrr]%elem_of_cons; [done|].
    destruct (eval code k s r) as [w|] eqn:Er; [|done]. apply eval_S in Er. rewrite Hrun in Er; done. }
  destruct Gu as [Wu Fu Cu Pu Xu Ku Fru Qu].
  destruct (Fru x) as [Hdx _]; [rewrite K0; set_solver|].
  destruct (P0 x) as (_ & Pk0 & Pb0 & _). destruct (Pu x) as (_ & Pku & Pbu & _).
  destruct (end_good Q x s u v b) as (t & Et & G & Hf & Hs); try done; try congruence.
  { by eapply same_program_trans. }
  { by eapply extends_trans. }
  { intros r Hrr. assert (r ≠ x) as Hrx by (intros ->; done). split; [done|].
    destruct (Fru r) as [Hdr Hsr]; [rewrite K0; set_solver|]. destruct (gr_frames _ _ _ G1 r Hrr) as [Hd1 Hs1].
    split; [rewrite Hdr, D0; congruence|]. intros a Ha. apply Hsr. rewrite S0, decide_False by done. auto. }
  exists t. split_and!; [|done|done|].
  - unfold read. rewrite Erb. cbn. rewrite Eu. cbn. by rewrite Et.
  - intros f Hf'. rewrite Hs. apply Fru; [rewrite K0|].
    + destruct (computing s); [done|]. cbn in Hf'. simplify_eq. set_solver.
    + rewrite S0, decide_False; [by apply Hin|]. intros <-. apply Hx.
      destruct (computing s); [done|]. cbn in Hf'. simplify_eq. set_solver.
Qed.
End Reads.

(** ** A client whose bodies only read *)
Section Client.
  Context {V : Type} (code : V → Body V).
  Implicit Types (n : Node V) (s t u : Inner V) (Q : list NodeId).

(** Between two operations of such a client nothing runs and everything clean is right. *)
Record calm Q s : Prop := {
  cm_wf : wf Q s;
  cm_flat : flat s;
  cm_coherent : coherent code s;
  cm_idle : computing s = [];
}.

Lemma calm_new : calm [] new.
Proof. split; [apply wf_new|done| |done]. intros x Hx. done. Qed.

Lemma calm_read Q k j s x v :
  calm Q s → eval code k s x = Some v → k ≤ j →
  ∃ t, read (run code j) x s = Some (v, t) ∧ calm Q t ∧ same_program s t ∧ queue t = queue s.
Proof.
  intros [W F C K] He Hj.
  destruct (read_good code Q k j s x v Hj W F C He) as (t & Er & [Wt Ft Ct Pt _ Kt _ Qt] & _).
  { rewrite K. set_solver. }
  exists t. split_and!; try done. split; try done. congruence.
Qed.

(** A change: what is still clean did not depend on it. *)
Lemma fresh_after_walk s1 s x t :
  soft s1 t → (∀ y, y = x ∨ (clean (node_at s1 y) = true ∧ dirty (node_at t y) = true) →
    ∀ sub, sub ∈ subscribers (node_at s1 y) → notified (node_at t sub)) →
  edges s1 →
  (∀ y, y ≠ x → node_at s1 y = node_at s y) →
  sources (node_at s1 x) = sources (node_at s x) → 
  (∀ y v, Fresh code s y v → y ≠ x → is_stale (node_at t y) = false → Fresh code t y v) ∧
  (∀ y b v, FreshBody code s y b v → y ≠ x → kind (node_at s y) = Computed → dirty (node_at t y) = false →
    FreshBody code t y b v).
Proof.
  intros So Hw Ed N Hsx. apply Fresh_mutind.
  - intros y v Hl Hk Hc Hy _. destruct (soft_fields s1 t y So) as (Ek & El & _ & _ & Ec & _).
    rewrite N in Ek, El, Ec by done. constructor; congruence.
  - intros y b v Hl Hk Hd Hc Hb _ IH Hy Hst. destruct (soft_fields s1 t y So) as (Ek & El & _ & _ & Ec & Eb & _).
    rewrite N in Ek, El, Ec, Eb by done.
    assert (dirty (node_at t y) = false) as Hdt by (unfold is_stale in Hst; by rewrite Ek, Hk in Hst).
    apply (Fresh_memo code t y b); [congruence..|auto].
  - constructor.
  - intros y z w k v Hz Hf IH1 _ IH2 Hy Hk Hd. destruct (soft_fields s1 t y So) as (Eky & _ & Es & _).
    rewrite N in Eky, Es by done.
    assert (z ∈ sources (node_at s1 y)) as Hz1 by by rewrite N.
    pose proof (proj1 (edge_sym s1 Ed z y) Hz1) as Hsub.
    assert (¬ notified (node_at t y)) as Hn by (intros [Hn _]; rewrite Hn in Hd; congruence).
    assert (z ≠ x) as Hzx by (intros ->; by apply Hn, (Hw x); [left|]).
    apply (FreshBody_get code t y z w); [by rewrite Es| |by apply IH2].
    apply IH1; [done|]. apply not_true_iff_false. intros Hst. apply Hn, (Hw z); [right|done].
    pose proof (fresh_not_stale code s z w Hf) as Hns. destruct (soft_fields s1 t z So) as (Ekz & _).
    unfold is_stale, clean in *. rewrite N in Ekz |- * by done. rewrite Ekz in Hst.
    apply andb_true_iff in Hst as [Hkz Hdz]. rewrite Hkz in Hns |- *. cbn in Hns |- *. by rewrite Hns.
Qed.

Lemma calm_walk Q s1 s x t :
  calm Q s → wf Q s1 → walk x s1 [] t → wf Q t → computing s1 = computing s →
  (∀ y, y ≠ x → node_at s1 y = node_at s y) → kind (node_at s x) = Signal →
  kind (node_at s1 x) = Signal → owned (node_at s1 x) = owned (node_at s x) →
  sources (node_at s1 x) = sources (node_at s x) → calm Q t.
Proof.
  intros [W F C K] W1 Wk Wt K1 N Hk Hk1 Ho Hs. pose proof (wk_soft _ _ _ _ Wk) as So. split; [done|..].
  - intros y. destruct (soft_fields s1 t y So) as (_ & _ & _ & _ & _ & _ & _ & ->).
    destruct (decide (y = x)) as [->|Hy]; [rewrite Ho|rewrite N by done]; apply F.
  - intros y Hl Hky Hd. destruct (soft_fields s1 t y So) as (Ek & El & _).
    assert (y ≠ x) as Hy by (intros ->; congruence). rewrite N in Ek, El by done.
    destruct (C y) as [v Hv]; [congruence..| |].
    { apply not_true_iff_false. intros Hds. rewrite <-N in Hds by done.
      pose proof (soft_dirty s1 t y So Hds). congruence. }
    exists v. apply (fresh_after_walk s1 s x t So); try done; [|apply W1|].
    + intros z Hz sub Hsub. destruct (wk_done _ _ _ _ Wk z Hz) as [Hin|Hd']; [set_solver|by apply Hd'].
    + unfold is_stale. by rewrite Hd, andb_false_r.
  - destruct (so_rest _ _ So) as (_ & -> & _). congruence.
Qed.

Lemma calm_set Q s x v t : calm Q s → set x v s = Some t → calm Q t.
Proof.
  intros C E. destruct (set_inv x v s t E) as [Hl Hk].
  destruct (wf_set Q x v s (cm_wf Q s C) Hl Hk) as (s1 & t' & E' & Wk & W1 & Wt & N & K & _). simplify_eq.
  apply (calm_walk Q s1 s x t); try done.
  - intros y Hy. by rewrite N, decide_False.
  - by rewrite N, decide_True.
  - by rewrite N, decide_True.
  - by rewrite N, decide_True.
Qed.

Lemma calm_create nn Q s x t ex :
  calm Q s → fresh_node nn → (kind nn = Computed → dirty nn = true) →
  create nn (with_dirty_computeds (dirty_computeds s + Nat.b2n (is_stale nn)) s) = Some (x, t) →
  ex = (if queued nn then [x] else []) → calm Q (with_queue (queue t ++ ex) t).
Proof.
  intros [W F C K] Fn Hd E Hex. split.
  - by eapply wf_create.
  - destruct (create_spec nn Q s W Fn) as (x' & t' & E' & _). simplify_eq.
    destruct Fn as (Hl & Hs & Hb & _ & Ho & Hok).
    intros y. change (owned (node_at t y) = []). revert E. unfold create.
    destruct (alloc nn _) as [[x' u]|] eqn:Ea; [|done]. cbn. unfold adopt.
    destruct (alloc_spec nn s _ (wf_core Q s W) eq_refl) as (x1 & u1 & Ea' & _ & _ & N & _ & Fu);
      [apply Hl|apply Hs|apply Hb|apply Hok|]. simplify_eq. rewrite Fu. cbn. rewrite K. cbn. intros [= -> <-].
    rewrite <-Fu, N. case_decide; [done|apply F].
  - destruct (create_spec nn Q s W Fn) as (x' & t' & E' & _ & _ & Hdead & N & _). simplify_eq.
    assert (∀ z, live (node_at s z) = true → z ≠ x) as Hne by (intros z Hz ->; congruence).
    apply (extends_coherent code s); [done| |].
    + intros z Hz _. change (node_at (with_queue _ t)) with (node_at t). destruct (N z) as (o & l & ->). cbn.
      rewrite decide_False by (intros ->; by apply (Hne z)). split_and!; done.
    + intros z. change (node_at (with_queue _ t)) with (node_at t). destruct (N z) as (o & l & ->). cbn.
      case_decide; [|by left]. intros _ Hk Hdn. rewrite Hd in Hdn; done.
  - destruct (create_spec nn Q s W Fn) as (x' & t' & E' & _ & _ & _ & _ & _ & _ & Kt & _). simplify_eq. cbn. congruence.
Qed.

Lemma calm_signal Q s v x t : calm Q s → signal v s = Some (x, t) → calm Q t.
Proof.
  rewrite signal_create. intros C E. pose proof (calm_create _ Q s x t [] C (signal_node_fresh v)) as H.
  rewrite app_nil_r in H. destruct t. by apply H.
Qed.

Lemma calm_computed Q s b m x t : calm Q s → computed b m s = Some (x, t) → calm Q t.
Proof.
  rewrite computed_create. intros C E. pose proof (calm_create _ Q s x t [] C (computed_node_fresh b m)) as H.
  rewrite app_nil_r in H. destruct t. by apply H.
Qed.

Lemma calm_effect Q s b x t : calm Q s → effect b s = Some (x, t) → calm Q t.
Proof.
  rewrite effect_create. intros C E.
  destruct (create (effect_node b) _) as [[x' u]|] eqn:Ec; [|done]. cbn in E. simplify_eq.
  by apply (calm_create (effect_node b) Q s x u [x] C (effect_node_fresh b)).
Qed.
End Client.

(** ** Effects of such a client *)
Section Effects.
  Context {V : Type} (code : V → Body V).
  Implicit Types (n : Node V) (s t u : Inner V) (Q : list NodeId).

(** One effect of a round: its body sees what evaluation from scratch sees. *)
Lemma effect_good e Q k j s b v :
  calm code (e :: Q) s → k ≤ j →
  live (node_at s e) = true → kind (node_at s e) = Effect → body (node_at s e) = Some b →
  eval_body (eval code k s) (code b) = Some v →
  ∃ t1 t2 t, effect_begin e s = Some (Some b, t1) ∧ run code (S j) b t1 = Some (v, t2) ∧
    end_compute e None t2 = Some t ∧ calm code Q t ∧ same_program s t ∧ queue t = queue s.
Proof.
  intros [W F C K] Hj Hl Hk Hb He. pose proof (live_in_table _ _ Hl) as Hx.
  destruct (wf_unqueue e Q s W Hx) as [W0 N]. set (s0 := upd e (set_queued false) s) in *.
  assert (same_program s s0) as P0 by (intros y; rewrite N; by case_decide).
  assert (extends s s0) as X0 by (intros y; rewrite N; by case_decide).
  destruct (begin_flat Q e s0 W0) as (b' & t1 & E1 & Hb1 & W1 & F1 & Rw & K1 & Q1 & S1).
  { intros y. rewrite N. case_decide; apply F. }
  { by rewrite N, decide_True. }
  { rewrite N, decide_True by done. cbn. congruence. }
  rewrite N, decide_True in Hb1 by done. cbn in Hb1. simplify_eq.
  assert (computing t1 = [e]) as K1' by (rewrite K1; change (computing s0) with (computing s); by rewrite K).
  assert (same_program s t1) as P1 by (eapply same_program_trans; [exact P0|by apply rewired_program]).
  assert (is_stale (node_at s e) = false) as Hse by (unfold is_stale; by rewrite Hk).
  assert (coherent code t1) as C1.
  { intros z Hlz Hkz Hdz. destruct (rewired_fields s0 t1 z Rw) as (Ek & El & Ed & _ & Ec & Eb & _).
    assert (z ≠ e) as Hz.
    { intros ->. destruct (P1 e) as (_ & Ek' & _). congruence. }
    rewrite N, decide_False in Ek, El, Ed by done.
    destruct (C z) as [w Hw]; [congruence..|]. exists w.
    apply (fresh_flat_frame code s t1 e); try done.
    intros y Hy. destruct (rewired_fields s0 t1 y Rw) as (-> & -> & -> & _ & -> & -> & _).
    rewrite S1, !decide_False by done. by rewrite N, decide_False. }
  destruct (exec_good code Q k e s (read (run code j)) (code b)) with (s := t1) (v := v)
    as (t2 & E2 & G & _); try done.
  { intros s' y w W' F' C' Hy Hr. by apply (read_good code Q k j). }
  { by rewrite K1'. }
  { rewrite K1'. intros r ->%list_elem_of_singleton. destruct k; cbn; by rewrite Hl, Hk. }
  destruct G as [W2 F2 C2 P2 _ K2 _ Q2].
  destruct (end_compute_spec Q e t2 None W2) as (t & E3 & W3 & N3 & K3 & Q3).
  { by rewrite K2, K1'. }
  { destruct (P1 e) as (_ & Ek1 & _), (P2 e) as (_ & Ek2 & _). congruence. }
  assert (kind (node_at t2 e) = Effect) as Hk2.
  { destruct (P1 e) as (_ & Ek1 & _), (P2 e) as (_ & Ek2 & _). congruence. }
  assert (∀ y, node_at t y = if decide (e = y) then set_dirty false (node_at t2 y) else node_at t2 y) as N4.
  { intros y. rewrite N3. case_decide; [subst|done]. unfold memoize. rewrite decide_False; [done|congruence]. }
  assert (same_program t2 t) as P3 by (intros y; rewrite N4; by case_decide).
  exists t1, t2, t. split_and!.
  - unfold effect_begin. rewrite lookup_node_at by done. cbn. rewrite Hl, Hk, modify_upd by done. cbn.
    fold s0. by rewrite E1.
  - done.
  - done.
  - split; [done|..].
    + intros y. rewrite N4. case_decide; apply F2.
    + intros z Hlz Hkz Hdz.
      assert (z ≠ e) as Hz by (intros ->; destruct (P3 e) as (_ & Ek & _); congruence).
      rewrite N4, decide_False in Hlz, Hkz, Hdz by done.
      destruct (C2 z Hlz Hkz Hdz) as [w Hw]. exists w. apply (fresh_flat_frame code t2 t e); try done.
      intros y Hy. by rewrite N4, decide_False.
    + rewrite K3, K2, K1'. done.
  - eapply same_program_trans; [exact P1|]. by eapply same_program_trans.
  - rewrite Q3, Q2, Q1. done.
Qed.
End Effects.

(** ** Flushing reading effects, and the client as a relation *)
Section Flush.
  Context {V : Type} (code : V → Body V).
  Implicit Types (n : Node V) (s t u : Inner V) (Q : list NodeId).

(** The live effects among [l] have bodies that evaluate. *)
Definition evaluates (k : nat) s (l : list NodeId) : Prop :=
  ∀ e, e ∈ l → live (node_at s e) = true → kind (node_at s e) = Effect →
    ∃ b v, body (node_at s e) = Some b ∧ eval_body (eval code k s) (code b) = Some v.

Lemma evaluates_same k s t l l' :
  same_program s t → (∀ e, e ∈ l' → e ∈ l) → evaluates k s l → evaluates k t l'.
Proof.
  intros P Hl H e He Hle Hk. destruct (P e) as (El & Ek & Eb & _).
  destruct (H e) as (b & v & Hb & Hv); [auto|congruence..|]. exists b, v. split; [congruence|].
  rewrite <-Hv. apply eval_body_ext. intros x. by apply eval_same.
Qed.

Lemma run_round_reading k j round steps s :
  calm code round s → k ≤ j → evaluates k s round →
  (steps + Z.of_nat (length round) ≤ MAX_FLUSH_STEPS)%Z →
  ∃ st t, run_round (run code (S j)) round steps s = Some (inl st, t) ∧
    calm code [] t ∧ same_program s t ∧ queue t = queue s.
Proof.
  revert steps s. induction round as [|e round IH]; intros steps s C Hj He Hst; cbn [run_round].
  { exists steps, s. split_and!; try done. }
  rewrite length_cons in Hst.
  destruct (decide (live (node_at s e) = true ∧ kind (node_at s e) = Effect)) as [[Hl Hk]|Hskip].
  - destruct (He e) as (b & v & Hb & Hv); [set_solver|done..|].
    destruct (effect_good code e round k j s b v C Hj Hl Hk Hb Hv) as (t1 & t2 & t & -> & E2 & E3 & Ct & Pt & Qt).
    cbn [mbind option_bind]. rewrite E2. cbn [mbind option_bind]. rewrite E3. cbn [mbind option_bind].
    rewrite decide_False by (unfold MAX_FLUSH_STEPS in *; lia).
    destruct (IH (steps + 1)%Z t Ct Hj) as (st & u & -> & Cu & Pu & Qu).
    { apply (evaluates_same k s t (e :: round)); [done|set_solver|done]. }
    { lia. }
    exists st, u. split_and!; [done|done|by eapply same_program_trans|congruence].
  - destruct (effect_begin_spec round e s (cm_wf _ _ _ C)) as (r & t & -> & Hwf & Hr).
    destruct r as [b|]; [destruct Hr as (? & ? & _); by destruct Hskip|]. destruct Hr as [-> _].
    cbn [mbind option_bind].
    destruct (IH steps s) as (st & u & -> & Cu & Pu & Qu); [|done| |lia|].
    { destruct C as [W F Co K]. split; try done. apply Hwf. intros x. rewrite K. set_solver. }
    { apply (evaluates_same k s s (e :: round)); [apply same_program_refl|set_solver|done]. }
    by exists st, u.
Qed.

Lemma flush_reading k j s :
  calm code [] s → k ≤ j → evaluates k s (queue s) → (Z.of_nat (length (queue s)) ≤ MAX_FLUSH_STEPS)%Z →
  ∃ t, flush (run code (S j)) s = Some (Settled, t) ∧ calm code [] t ∧ same_program s t ∧ queue t = [].
Proof.
  intros C Hj He Hq. unfold flush. set (s1 := with_flushing true s).
  assert (∀ b u, calm code [] u → calm code [] (with_flushing b u)) as Hfl.
  { intros b u [W F Co K]. split; [by apply (wf_same [] u)|exact F|by apply (coherent_same code u)|exact K]. }
  assert (calm code [] s1) as C1 by by apply Hfl.
  assert (flush_fuel = S (pred flush_fuel)) as -> by (unfold flush_fuel, MAX_FLUSH_STEPS; lia).
  destruct (queue s) as [|e q] eqn:Eq.
  - exists (with_flushing false s1). cbn [flush_loop]. change (queue s1) with (queue s). rewrite Eq. cbn.
    split_and!; [done|by apply Hfl|exact (same_program_refl s)|done].
  - cbn [flush_loop]. change (queue s1) with (queue s). rewrite Eq. rewrite <-Eq in *.
    destruct (run_round_reading k j (merge_sort (≤) (queue s)) 0 (with_queue [] s1)) as (st & t & E & Ct & Pt & Qt).
    { destruct C1 as [W F Co K]. split; [rewrite <-(app_nil_r (merge_sort _ _)); exact (wf_round [] s1 W)|exact F|by apply (coherent_same code s1)|exact K]. }
    { done. }
    { apply (evaluates_same k s _ (queue s)); [exact (same_program_refl s)| |done].
      intros x. by rewrite merge_sort_Permutation. }
    { by rewrite merge_sort_Permutation. }
    rewrite E. cbn [mbind option_bind]. exists (with_flushing false t).
    assert (flush_loop (pred flush_fuel) (run code (S j)) st t = Some (Settled, t)) as ->.
    { destruct (pred flush_fuel); cbn [flush_loop]; by rewrite Qt. }
    cbn. split_and!; [done|by apply Hfl|exact Pt|exact Qt].
Qed.

(** What such a client does between two operations. *)
Inductive client : Inner V → Inner V → Prop :=
  | client_signal s v x t : signal v s = Some (x, t) → client s t
  | client_computed s b m x t : computed b m s = Some (x, t) → client s t
  | client_effect s b x t : effect b s = Some (x, t) → client s t
  | client_set s x v t : set x v s = Some t → client s t
  | client_read s k j x v w t : read (run code j) x s = Some (v, t) →
      eval code k s x = Some w → k ≤ j → client s t
  | client_flush s k j r t : flush (run code (S j)) s = Some (r, t) → k ≤ j →
      evaluates k s (queue s) → (Z.of_nat (length (queue s)) ≤ MAX_FLUSH_STEPS)%Z → client s t.

Lemma client_calm s t : client s t → calm code [] s → calm code [] t.
Proof.
  intros H C. destruct H as [s v x t E|s b m x t E|s b x t E|s x v t E|s k j x v w t E He Hj|s k j r t E Hj He Hq].
  - by eapply calm_signal.
  - by eapply calm_computed.
  - by eapply calm_effect.
  - by eapply calm_set.
  - destruct (calm_read code [] k j s x w C He Hj) as (t' & E' & ? & _). by simplify_eq.
  - destruct (flush_reading k j s C Hj He Hq) as (t' & E' & ? & _). by simplify_eq.
Qed.

Lemma clients_calm s : rtc client new s → calm code [] s.
Proof.
  intros H. assert (∀ u t, rtc client u t → calm code [] u → calm code [] t) as G.
  { induction 1 as [|u u' t Hu _ IH]; [done|]. intros Cu. by apply IH, (client_calm u u'). }
  by apply (G new), calm_new.
Qed.
End Flush.
