(* ===== verification/ReactiveProps.v ===== *)
(** What the reactive graph promises: well-formed states, no lost change, reads that
    agree with evaluation from scratch, disposal of exactly a subtree, flushes that
    end; and four runs on which it departs from its documentation. *)
From S2P Require Import Prelude Reactive ReactiveFacts ReactiveWf ReactiveSteps ReactiveChanges ReactiveFresh.
From stdpp Require Import sorting options.

(** ** Flushing with any well-behaved callback *)
Section Flushing.
  Context {V : Type} (run : V → Inner V → option (V * Inner V)).
  Implicit Types (s t : Inner V) (Q L : list NodeId).

(** What the engine relies on when it runs the body of an effect: the callback comes
    back, with the frames as they were and no running node disposed of. *)
Definition well_behaved : Prop :=
  ∀ b e Q s, wf Q s → computing s = [e] → kind (node_at s e) = Effect →
    ∃ v t, run b s = Some (v, t) ∧ wf Q t ∧ computing t = [e] ∧ kind (node_at t e) = Effect.

(** What a flush does, with the number of bodies it runs: an entry that is no live effect
    is passed over, the body of another one is run, and the queue is the next round. *)
Inductive flush_step : nat → list NodeId * Inner V → list NodeId * Inner V → Prop :=
  | pass_over e Q s t : effect_begin e s = Some (None, t) → flush_step 0 (e :: Q, s) (Q, t)
  | run_body e Q s b t v u w :
      effect_begin e s = Some (Some b, t) → run b t = Some (v, u) → end_compute e None u = Some w →
      flush_step 1 (e :: Q, s) (Q, w)
  | next_round s : queue s ≠ [] → flush_step 0 ([], s) (merge_sort (≤) (queue s), with_queue [] s).
Inductive flush_runs : nat → list NodeId * Inner V → list NodeId * Inner V → Prop :=
  | no_step M : flush_runs 0 M M
  | one_step n m M N O : flush_step n M N → flush_runs m N O → flush_runs (n + m) M O.

Lemma flush_runs_trans n m M N O : flush_runs n M N → flush_runs m N O → flush_runs (n + m) M O.
Proof.
  induction 1 as [|n k M N' N St _ IH]; [done|]. intros H. rewrite <-Nat.add_assoc. econstructor; eauto.
Qed.
Lemma flush_step_det n m M N O : flush_step n M N → flush_step m M O → n = m ∧ N = O.
Proof. destruct 1; inversion 1; subst; try done; simplify_eq; done. Qed.
(** Where a flush has settled nothing is left to run. *)
Lemma flush_runs_settled n M t m N :
  flush_runs n M ([], t) → queue t = [] → flush_runs m M N → m ≤ n.
Proof.
  intros H Hq. remember ([], t) as O eqn:E. revert m N. induction H as [M|n k M N' O St _ IH]; intros m N Hm.
  - subst M. inversion Hm as [|m1 m2 M1 N1 O1 St _]; subst; [lia|]. inversion St; subst; congruence.
  - inversion Hm as [|m1 m2 M1 N1 O1 St' Hm']; subst; [lia|].
    destruct (flush_step_det _ _ _ _ _ St St') as [-> ->].
    specialize (IH eq_refl _ _ Hm'). lia.
Qed.

Lemma run_round_spec L round steps s :
  well_behaved → wf (round ++ L) s → computing s = [] → (steps ≤ MAX_FLUSH_STEPS)%Z →
  ∃ r t Q n, run_round run round steps s = Some (r, t) ∧ computing t = [] ∧
    flush_runs n (round, s) (Q, t) ∧ wf (Q ++ L) t ∧
    match r with
    | inl st => Q = [] ∧ st = (steps + Z.of_nat n)%Z ∧ (st ≤ MAX_FLUSH_STEPS)%Z ∧ (n = 0 → t = s)
    | inr res => res = FlushOverflow ∧ (steps + Z.of_nat n = MAX_FLUSH_STEPS + 1)%Z
    end.
Proof.
  intros Hrun. revert steps s. induction round as [|e round IH]; intros steps s W K Hst; cbn [run_round].
  { exists (inl steps), s, [], 0. split_and!; try done; [constructor|lia]. }
  destruct (effect_begin_spec (round ++ L) e s W) as (r & t & Ee & Hwf & Hr). rewrite Ee. cbn [mbind option_bind].
  destruct r as [b|].
  - destruct Hr as (Hl & Hk & Hb & Kt & Hlt & _ & Hkt). rewrite K in Kt.
    assert (wf (round ++ L) t) as Wt.
    { apply Hwf. intros x. rewrite Kt. by intros ->%list_elem_of_singleton. }
    destruct (Hrun b e (round ++ L) t Wt Kt Hkt) as (v & u & Er & Wu & Ku & Hku). rewrite Er. cbn [mbind option_bind].
    destruct (end_compute_spec (round ++ L) e u None Wu) as (w & Ew & Ww & _ & Kw & _); [by rewrite Ku|congruence|].
    rewrite Ew. cbn [mbind option_bind]. rewrite Ku in Kw. cbn in Kw.
    assert (flush_step 1 (e :: round, s) (round, w)) as St by by eapply run_body.
    case_decide.
    + exists (inr FlushOverflow), w, round, (1 + 0). split_and!; try done; [|lia].
      eapply one_step; [done|constructor].
    + destruct (IH (steps + 1)%Z w Ww Kw) as (r & z & Q & n & E & Kz & Hn & Wz & Hr); [lia|].
      exists r, z, Q, (1 + n). split_and!; [done|done|by eapply one_step|done|].
      destruct r as [st|res]; [destruct Hr as (? & ? & ? & _); split_and!; [done|lia|done|lia]|].
      destruct Hr as [? ?]. split; [done|lia].
  - destruct Hr as [-> _].
    assert (flush_step 0 (e :: round, s) (round, s)) as St by by apply pass_over.
    destruct (IH steps s) as (r & z & Q & n & E & Kz & Hn & Wz & Hr); [|done..|].
    { apply Hwf. intros x. rewrite K. set_solver. }
    exists r, z, Q, (0 + n). split_and!; try done. by eapply one_step.
Qed.

(** A round that runs nothing leaves the queue empty: every other one adds a step. *)
Lemma flush_loop_spec L fuel steps s :
  well_behaved → wf L s → computing s = [] → (steps ≤ MAX_FLUSH_STEPS)%Z →
  (MAX_FLUSH_STEPS - steps + 1 < Z.of_nat fuel)%Z →
  ∃ r t Q n, flush_loop fuel run steps s = Some (r, t) ∧ computing t = [] ∧
    flush_runs n ([], s) (Q, t) ∧ wf (Q ++ L) t ∧
    match r with
    | Settled => Q = [] ∧ queue t = [] ∧ (steps + Z.of_nat n ≤ MAX_FLUSH_STEPS)%Z
    | FlushOverflow => (steps + Z.of_nat n = MAX_FLUSH_STEPS + 1)%Z
    end.
Proof.
  intros Hrun. revert steps s. induction fuel as [|fuel IH]; intros steps s W K Hst Hf; [lia|].
  cbn [flush_loop]. destruct (queue s) as [|e q] eqn:Eq.
  { exists Settled, s, [], 0. split_and!; try done; [constructor|lia]. }
  rewrite <-Eq. assert (flush_step 0 ([], s) (merge_sort (≤) (queue s), with_queue [] s)) as St
    by (apply next_round; by rewrite Eq).
  destruct (run_round_spec L (merge_sort (≤) (queue s)) steps (with_queue [] s) Hrun)
    as (r & t & Q & n & -> & Kt & Hn & Wt & Hr); [by apply wf_round|done..|]. cbn [mbind option_bind].
  assert (flush_runs (0 + n) ([], s) (Q, t)) as Hrs by by eapply one_step.
  destruct r as [st|res].
  - destruct Hr as (-> & -> & Hle & Heq). destruct (decide (n = 0)) as [->|Hne].
    + rewrite Heq in * by done. exists Settled, (with_queue [] s), [], 0.
      split_and!; try done. by destruct fuel.
    + destruct (IH (steps + Z.of_nat n)%Z t Wt Kt) as (r & z & Q & m & E & Kz & Hm & Wz & Hr); [lia|lia|].
      exists r, z, Q, (0 + n + m). split_and!; [done|done|by eapply flush_runs_trans|done|].
      destruct r; [destruct Hr as (? & ? & ?); split_and!; [done|done|lia]|lia].
  - destruct Hr as [-> Hm]. exists FlushOverflow, t, Q, n. by split_and!.
Qed.

(** C31. [flush] always comes back: whatever well-behaved bodies do, changing signals they
    depend on included, it either settles, having run at most [MAX_FLUSH_STEPS] bodies, with
    nothing left of the round or in the queue; or it stops with [FlushOverflow] after exactly
    one body more, which it does when, and only when, that many are due.  The graph is well
    formed, with the rest [Q] of the abandoned round beside its queue (and whatever [L] earlier
    flushes that overflowed left behind), no frame is open and the [flushing] flag is down. *)
Theorem flush_terminates L s :
  well_behaved → wf L s → computing s = [] →
  ∃ r t Q n, flush run s = Some (r, with_flushing false t) ∧
    flush_runs n ([], with_flushing true s) (Q, t) ∧
    computing t = [] ∧ wf (Q ++ L) (with_flushing false t) ∧
    match r with
    | Settled => Q = [] ∧ queue t = [] ∧ (Z.of_nat n ≤ MAX_FLUSH_STEPS)%Z
    | FlushOverflow => Z.of_nat n = (MAX_FLUSH_STEPS + 1)%Z
    end ∧
    (r = FlushOverflow ↔ ∃ m N, flush_runs m ([], with_flushing true s) N ∧ (MAX_FLUSH_STEPS < Z.of_nat m)%Z).
Proof.
  intros Hrun W K. unfold flush.
  destruct (flush_loop_spec L flush_fuel 0 (with_flushing true s) Hrun)
    as (r & t & Q & n & -> & Kt & Hn & Wt & Hr);
    [by apply (wf_same L s)|done|done|unfold flush_fuel, MAX_FLUSH_STEPS; lia|].
  exists r, t, Q, n. split_and!; [done|done|done|by apply (wf_same (Q ++ L) t)| |].
  - by destruct r.
  - split.
    + intros ->. exists n, (Q, t). split; [done|lia].
    + intros (m & N & Hm & Hlt). destruct r; [|done]. destruct Hr as (-> & Hq & Hle).
      pose proof (flush_runs_settled n _ t m N Hn Hq Hm). lia.
Qed.
End Flushing.

(** ** Reachable graphs *)
Section Reachable.
  Context {V : Type}.
  Implicit Types (s t : Inner V) (Q L : list NodeId).

(** C30. In every state reached from the empty graph by the operations, interleaved in
    any way in which no running node is disposed of, flushes that overflow included: each
    subscription is recorded at both ends and once, joins live nodes and never a node to
    itself; dead slots are exactly the free ones and hold no edge, no flag, no value and no
    body; [dirty_computeds] counts the stale memos; owners and children agree and form a
    forest; running nodes are live; and every effect flagged as queued is in the queue, in the
    rest [Q] of the round, or, once a flush has overflowed, among what it left behind ([L]). *)
Theorem reachable_graphs_well_formed Q L s : rtc safely start ((Q, L), s) → wf (Q ++ L) s.
Proof. intros H. by apply (safely_wf start ((Q, L), s)); [|apply wf_new]. Qed.

(** A change from [s] to [t] has reached a node: a computed is stale; an effect is in the queue
    or in the rest of the round, unless a flush that overflowed had left it flagged. *)
Definition reached Q L s t (y : NodeId) : Prop :=
  (kind (node_at s y) = Computed → dirty (node_at t y) = true) ∧
  (kind (node_at s y) = Effect →
     y ∈ queue t ++ Q ∨ y ∈ L ∧ queued (node_at s y) = true).

(** C5. No change is lost, short of an overflow.  When nothing runs, [set] on a live signal of
    a graph reached by an orderly run (no running node is disposed of, and no computed's body
    announces a new value) does not panic, and everything that depends on the signal, through
    any chain of computeds, ends up stale (a computed) or in the queue, or the rest of the
    round, to be run (an effect), except an effect that a flush which overflowed left flagged
    as queued; apart from the signal itself nothing else is touched. *)
Theorem changes_reach_every_dependent Q L s x v :
  rtc orderly start ((Q, L), s) → computing s = [] →
  live (node_at s x) = true → kind (node_at s x) = Signal →
  ∃ t, set x v s = Some t ∧
    (∀ y, tc (λ a b, b ∈ subscribers (node_at s a)) x y → reached Q L s t y) ∧
    (∀ y, node_at t y ≠ node_at s y → y = x ∨ tc (λ a b, b ∈ subscribers (node_at s a)) x y).
Proof.
  intros H K Hl Hk. destruct (orderly_settled start ((Q, L), s) H) as [W S]; [apply wf_new|apply settled_new|].
  cbn in W, S. destruct (wf_set (Q ++ L) x v s W Hl Hk) as (s1 & t & E & Wk & W1 & Wt & N & K1 & Q1 & _).
  assert (∀ y, subscribers (node_at s1 y) = subscribers (node_at s y)) as Hs by (intros y; rewrite N; by case_decide).
  assert (∀ y z, tc (λ a b, b ∈ subscribers (node_at s1 a)) y z ↔ tc (λ a b, b ∈ subscribers (node_at s a)) y z) as Ht.
  { intros y z. split; (induction 1; [apply tc_once|eapply tc_l; [|done]]; congruence). }
  exists t. split_and!; [done| |].
  - intros y Hy.
    assert (notified (node_at t y)) as [Hc He].
    { apply (walk_reaches x s1 t y); [apply W1| |congruence|done|by apply Ht].
      apply (settled_shrink s); [done| |done]. intros c z. rewrite !N. by repeat case_decide; subst. }
    assert (kind (node_at t y) = kind (node_at s y) ∧ queued (node_at s1 y) = queued (node_at s y)) as [Ek Eq].
    { destruct (soft_fields s1 t y (wk_soft _ _ _ _ Wk)) as (-> & _). rewrite N. by case_decide. }
    rewrite Ek in Hc, He. split; [done|]. intros Hke. specialize (He Hke).
    destruct (queued (node_at s y)) eqn:Hq.
    + pose proof (wf_queued _ _ Wt y He) as Hin. set_solver.
    + left. destruct (so_queue _ _ (wk_soft _ _ _ _ Wk)) as (ex & -> & _ & Hex).
      assert (y ∈ ex) by by apply Hex. set_solver.
  - intros y Hy. destruct (decide (y = x)) as [->|Hne]; [by left|]. right.
    apply Ht. apply (wk_changed _ _ _ _ Wk). by rewrite N, decide_False.
Qed.

(** C32. [dispose] on a live node of a well-formed graph does not panic and removes exactly
    the node and its owner-tree descendants; the survivors keep their flags, values and
    bodies, and their edges are the old ones between survivors; and no cell is lost: what
    the graph held is still held or has been handed to [reclaimed], the node's own cells
    excepted. *)
Theorem dispose_removes_exactly_the_subtree Q s x :
  wf Q s → live (node_at s x) = true →
  ∃ t, dispose x s = Some t ∧ edges t ∧
    (∀ y, live (node_at t y) = true ↔ live (node_at s y) = true ∧ ¬ desc s x y) ∧
    (∀ y, live (node_at t y) = true → survives s t y ∧
      ∀ a, a ∈ sources (node_at t y) ↔ a ∈ sources (node_at s y) ∧ live (node_at t a) = true) ∧
    held t ++ cells (node_at s x) ≡ₚ held s.
Proof.
  intros W Hl. destruct (dispose_spec Q x s W Hl) as (t & R & E & C & _ & _ & Hlive & Sv & Hh & _).
  exists t. split_and!; [done|apply C|done| |done].
  intros y Hy. by destruct (Sv y Hy) as (? & _ & ?).
Qed.

(** The operations do not panic on a well-formed graph when their arguments are what
    the interface asks for: creation always succeeds, [set] takes a live signal, [touch]
    a live node, [read] a live signal or computed, [dispose] any slot of the table, and
    the engine's own steps take the top frame and the next entry of the round. *)
Theorem operations_do_not_panic Q s :
  wf Q s →
  (∀ v b m, is_Some (signal v s) ∧ is_Some (signal_root v s) ∧ is_Some (computed b m s) ∧ is_Some (effect b s)) ∧
  (∀ x v, live (node_at s x) = true → kind (node_at s x) = Signal → is_Some (set x v s)) ∧
  (∀ x, live (node_at s x) = true → is_Some (touch x s)) ∧
  (∀ x, live (node_at s x) = true → kind (node_at s x) ≠ Effect → is_Some (read_begin x s)) ∧
  (∀ x, in_table s x → is_Some (dispose x s)) ∧
  (∀ x v, head (computing s) = Some x → is_Some (end_compute x (Some v) s)) ∧
  (∀ e Q', Q = e :: Q' → is_Some (effect_begin e s)).
Proof.
  intros W. split_and!.
  - intros v b m. destruct (wf_signal Q s v W) as (? & ? & -> & _), (wf_signal_root Q s v W) as (? & ? & -> & _),
      (wf_computed Q s b m W) as (? & ? & -> & _), (wf_effect Q s b W) as (? & ? & -> & _). done.
  - intros x v Hl Hk. by destruct (wf_set Q x v s W Hl Hk) as (? & ? & -> & _).
  - intros x Hl. by destruct (wf_touch Q x s W Hl) as (? & ? & -> & _).
  - intros x Hl Hk. destruct (read_begin_spec Q x s W Hl Hk) as (? & _ & _ & _ & _ & _ & Hr).
    destruct (is_stale _); [by destruct Hr as (? & ? & _ & -> & _)|by destruct Hr as (? & _ & ->)].
  - intros x Hx. destruct (live (node_at s x)) eqn:Hl.
    + by destruct (dispose_spec Q x s W Hl) as (? & ? & -> & _).
    + unfold dispose. rewrite lookup_node_at by done. cbn. by rewrite Hl.
  - intros x v Hh. by destruct (end_compute_spec Q x s (Some v) W Hh) as (? & -> & _).
  - intros e Q' ->. by destruct (effect_begin_spec Q' e s W) as (? & ? & -> & _).
Qed.
End Reachable.

(** ** Reads *)
Section Glitches.
  Context {V : Type} (code : V → Body V).
  Implicit Types (s t : Inner V).

(** C4. No glitch, no stale memo: after any sequence of creations, [set]s, reads and
    flushes by a client whose bodies only read, a [read] of a node whose evaluation from
    scratch terminates returns exactly the value of that evaluation and leaves the graph ready for the next operation of the client. *)
Theorem reads_agree_with_evaluation s x k j v :
  rtc (client code) new s → eval code k s x = Some v → k ≤ j →
  ∃ t, read (run code j) x s = Some (v, t) ∧ client code s t ∧ same_program s t.
Proof.
  intros H He Hj. destruct (calm_read code [] k j s x v (clients_calm code s H) He Hj) as (t & E & _ & P & _).
  exists t. split_and!; [done| |done]. by eapply client_read.
Qed.

(** A [flush] of such a client, its queued effects having bodies that evaluate, settles
    in one round with an empty queue and changes no signal. *)
Theorem effects_agree_with_evaluation s k j :
  rtc (client code) new s → k ≤ j → evaluates code k s (queue s) →
  (Z.of_nat (length (queue s)) ≤ MAX_FLUSH_STEPS)%Z →
  ∃ t, flush (run code (S j)) s = Some (Settled, t) ∧ client code s t ∧ same_program s t ∧ queue t = [].
Proof.
  intros H Hj He Hq. destruct (flush_reading code k j s (clients_calm code s H) Hj He Hq) as (t & E & _ & P & Qt).
  exists t. split_and!; [done| |done|done]. by eapply client_flush.
Qed.
End Glitches.

(** ** Concrete graphs *)
Module ReactiveExample.

(** Closures are numbers: 1 doubles signal 0, 2 adds signal 0 and computed 1 (a
    diamond), 3 watches computed 2. *)
Definition code (b : Z) : Body Z :=
  if (b =? 1)%Z then Get 0 (λ a, Ret (a * 2)%Z)
  else if (b =? 2)%Z then Get 0 (λ a, Get 1 (λ c, Ret (a + c)%Z))
  else Get 2 Ret.

(** Option-chained construction of a state. *)
Definition build : option (Inner Z) :=
  '(_, s) ← signal 5%Z new;
  '(_, s) ← computed 1%Z 0%Z s;
  '(_, s) ← computed 2%Z 0%Z s;
  '(_, s) ← effect 3%Z s;
  Some s.
Definition built : Inner Z := default new build.

Definition watched : Inner Z := from_option snd new (flush (run code 4) built).
Definition changed_graph : Inner Z := default new (set 0 7%Z watched).

Lemma built_client : rtc (client code) new built.
Proof.
  eapply rtc_l; [eapply (client_signal code _ 5%Z 0); reflexivity|].
  eapply rtc_l; [eapply (client_computed code _ 1%Z 0%Z 1); reflexivity|].
  eapply rtc_l; [eapply (client_computed code _ 2%Z 0%Z 2); reflexivity|].
  eapply rtc_l; [eapply (client_effect code _ 3%Z 3); reflexivity|].
  apply rtc_refl.
Qed.

Lemma changed_client : rtc (client code) new changed_graph.
Proof.
  etrans; [apply built_client|].
  eapply rtc_l; [|eapply rtc_l; [apply (client_set code watched 0 7%Z); vm_compute; reflexivity|apply rtc_refl]].
  apply (client_flush code built 3 3 Settled); [vm_compute; reflexivity|lia| |cbn; unfold MAX_FLUSH_STEPS; lia].
  intros e He _ _. assert (e = 3) as -> by (cbn in He; set_solver).
  exists 3%Z, 15%Z. split; reflexivity.
Qed.

(** After the change the diamond is read as 21, each memo being stale before. *)
Lemma reads_agree_with_evaluation_witness :
  eval code 3 changed_graph 2 = Some 21%Z ∧ is_stale (node_at changed_graph 2) = true ∧
  ∃ t, read (run code 3) 2 changed_graph = Some (21%Z, t) ∧ client code changed_graph t ∧
    same_program changed_graph t.
Proof.
  split; [vm_compute; reflexivity|]. split; [vm_compute; reflexivity|].
  apply (reads_agree_with_evaluation code changed_graph 2 3 3); [apply changed_client|vm_compute; reflexivity|lia].
Defined.

(** A run of the machine: a computed reads the signal, frame by frame. *)
Definition state (o : option (Inner Z)) : Inner Z := default new o.
Definition machine1 := Eval vm_compute in state (snd <$> signal 5%Z new).
Definition machine2 := Eval vm_compute in state (snd <$> computed 1%Z 0%Z machine1).
Definition machine3 := Eval vm_compute in state (snd <$> read_begin 1 machine2).
Definition machine4 := Eval vm_compute in state (snd <$> read_begin 0 machine3).
Definition machine := Eval vm_compute in state (end_compute 1 (Some 10%Z) machine4).

Ltac solve_running :=
  let f := fresh in let Hf := fresh in
  intros f Hf; apply list_elem_of_In in Hf; vm_compute in Hf;
  repeat (destruct Hf as [<-|Hf]; [reflexivity|]); destruct Hf.

Ltac machine_step rule :=
  eapply rtc_l; [exists Works; split; [apply rule; vm_compute; reflexivity|first [split; [solve_running|done]|solve_running]]|].

Lemma machine_orderly : rtc orderly start (([], []), machine).
Proof.
  machine_step (step_signal ([], []) new 5%Z 0 machine1).
  machine_step (step_computed ([], []) machine1 1%Z 0%Z 1 machine2).
  machine_step (step_read_begin ([], []) machine2 1 (inr 1%Z) machine3).
  machine_step (step_read_begin ([], []) machine3 0 (inl 5%Z) machine4).
  machine_step (step_read_end ([], []) machine4 1 10%Z machine).
  apply rtc_refl.
Qed.

Lemma reachable_graphs_well_formed_witness :
  rtc safely start (([], []), machine) ∧ sources (node_at machine 1) = [0] ∧ wf [] machine.
Proof.
  pose proof (orderly_safely _ _ machine_orderly) as H.
  split; [exact H|]. split; [reflexivity|]. exact (reachable_graphs_well_formed [] [] machine H).
Defined.

Lemma changes_reach_every_dependent_witness :
  ∃ t, set 0 7%Z machine = Some t ∧
    (∀ y, tc (λ a b, b ∈ subscribers (node_at machine a)) 0 y → reached [] [] machine t y) ∧
    (∀ y, node_at t y ≠ node_at machine y → y = 0 ∨ tc (λ a b, b ∈ subscribers (node_at machine a)) 0 y).
Proof.
  apply (changes_reach_every_dependent [] [] machine 0 7%Z); [exact machine_orderly|reflexivity..].
Defined.

Lemma operations_do_not_panic_witness : wf [] machine ∧ is_Some (set 0 7%Z machine).
Proof.
  assert (wf [] machine) as W.
  { apply (safely_wf start (([], []), machine)); [apply orderly_safely, machine_orderly|apply wf_new]. }
  split; [exact W|].
  destruct (operations_do_not_panic [] machine W) as (_ & H & _). apply (H 0 7%Z); reflexivity.
Defined.

Lemma flush_terminates_witness :
  well_behaved (λ (b : Z) s, Some (b, s)) ∧ queue built = [3] ∧
  ∃ r t Q n, flush (λ (b : Z) s, Some (b, s)) built = Some (r, with_flushing false t) ∧
    flush_runs (λ (b : Z) s, Some (b, s)) n ([], with_flushing true built) (Q, t) ∧ wf Q (with_flushing false t).
Proof.
  assert (well_behaved (λ (b : Z) s, Some (b, s))) as Hrun.
  { intros b e Q s W K Hk. by exists b, s. }
  split; [exact Hrun|]. split; [reflexivity|].
  destruct (flush_terminates (λ (b : Z) s, Some (b, s)) [] built Hrun) as (r & t & Q & n & E & Hn & _ & W & _);
    [apply (cm_wf _ _ _ (clients_calm code built built_client))|reflexivity|].
  exists r, t, Q, n. rewrite app_nil_r in W. split; [exact E|]. split; [exact Hn|exact W].
Defined.

(** An effect (0) whose body created a signal (1), both disposed of at once. *)
Definition owning1 := Eval vm_compute in state (snd <$> effect 1%Z new).
Definition owning2 := Eval vm_compute in with_queue [] owning1.
Definition owning3 := Eval vm_compute in state (snd <$> effect_begin 0 owning2).
Definition owning4 := Eval vm_compute in state (snd <$> signal 9%Z owning3).
Definition owning := Eval vm_compute in state (end_compute 0 None owning4).

Lemma owning_safely : rtc safely start (([], []), owning).
Proof.
  machine_step (step_effect ([], []) new 1%Z 0 owning1).
  eapply (rtc_l _ _ (([0], []), owning2)); [exists Works; split; [apply (step_round [] owning1)|solve_running]|].
  machine_step (step_effect_begin 0 [] [] owning2 (Some 1%Z) owning3).
  machine_step (step_signal ([], []) owning3 9%Z 1 owning4).
  machine_step (step_effect_end ([], []) owning4 0 owning).
  apply rtc_refl.
Qed.

Lemma dispose_removes_exactly_the_subtree_witness :
  owned (node_at owning 0) = [1] ∧
  ∃ t, dispose 0 owning = Some t ∧ edges t ∧
    (∀ y, live (node_at t y) = true ↔ live (node_at owning y) = true ∧ ¬ desc owning 0 y) ∧
    (∀ y, live (node_at t y) = true → survives owning t y ∧
      ∀ a, a ∈ sources (node_at t y) ↔ a ∈ sources (node_at owning y) ∧ live (node_at t a) = true) ∧
    held t ++ cells (node_at owning 0) ≡ₚ held owning.
Proof.
  split; [reflexivity|]. apply (dispose_removes_exactly_the_subtree [] owning 0); [|reflexivity].
  apply (safely_wf start (([], []), owning)); [apply owning_safely|apply wf_new].
Defined.

(** The doubling body, for the callbacks below. *)
Definition double (_ : Z) (s : Inner Z) : option (Z * Inner Z) :=
  '(v, s) ← read (λ _ _, None) 0 s; Some ((v * 2)%Z, s).
(** A callback whose effects peek at the computed 1 and read nothing. *)
Definition peeking (b : Z) (s : Inner Z) : option (Z * Inner Z) :=
  if (b =? 1)%Z then double b s else peek double 1 s.

Definition peek_graph (read_first : bool) : option (Inner Z) :=
  '(_, s) ← signal 5%Z new;
  '(_, s) ← computed 1%Z 0%Z s;
  s ← (if read_first then snd <$> read double 1 s else Some s);
  '(_, s) ← effect 4%Z s;
  snd <$> flush peeking s.

(** [peek] is documented to record no dependency, but of a stale computed it is a
    [read]: an effect that only peeks at it is subscribed to it and queued by the next
    change, while the same effect peeking at a clean memo is not. *)
Theorem peek_of_a_stale_memo_subscribes :
  (∃ s t, peek_graph false = Some s ∧ sources (node_at s 2) = [1] ∧ set 0 7%Z s = Some t ∧ queue t = [2]) ∧
  (∃ s t, peek_graph true = Some s ∧ sources (node_at s 2) = [] ∧ set 0 7%Z s = Some t ∧ queue t = []).
Proof. split; eexists _, _; split_and!; vm_compute; reflexivity. Qed.

(** A flush that overflows drops the rest of its round and leaves the flags up: effect 1 feeds
    itself, and effect 2, which was still due, is in no queue; no later change queues it and
    no later flush runs it, not even once effect 1 is gone. *)
Definition feeding (b : Z) (s : Inner Z) : option (Z * Inner Z) :=
  if (b =? 3)%Z then Some (b, s)
  else
    '(v, s) ← read (λ _ _, None) 0 s;
    if (b =? 1)%Z then s ← set 0 ((v + 1) mod 2)%Z s; Some (v, s) else Some (v, s).
Definition overflowing : option (Inner Z) :=
  '(_, s) ← signal 0%Z new; '(_, s) ← effect 1%Z s; '(_, s) ← effect 2%Z s;
  '(_, s) ← effect 3%Z s; Some s.
Theorem overflow_strands_effects :
  ∃ s t u w, overflowing = Some s ∧ flush feeding s = Some (FlushOverflow, t) ∧
    queued (node_at t 2) = true ∧ 2 ∉ queue t ∧
    (s ← dispose 1 t; set 0 7%Z s) = Some u ∧ subscribers (node_at u 0) = [2] ∧ 2 ∉ queue u ∧
    flush feeding u = Some (Settled, w) ∧ queued (node_at w 2) = true ∧ queue w = [].
Proof.
  eexists _, _, _, _. split_and!;
    first [vm_compute; reflexivity|intros H%list_elem_of_In; vm_compute in H; intuition discriminate].
Qed.

(** An effect disposed of while queued leaves its id in the queue; when the slot goes to
    a new effect the id is there twice, and the one live effect runs twice in a round. *)
Lemma reused_slot_runs_twice :
  ∃ s t, ('(x, s) ← effect 1%Z new; s ← dispose x s; '(_, s) ← effect 2%Z s; Some s) = Some s ∧
    queue s = [0; 0] ∧ live_count s = 1 ∧
    run_round (λ b s, Some (b, s)) (merge_sort (≤) (queue s)) 0 (with_queue [] s) = Some (inl 2%Z, t).
Proof. eexists _, _; split_and!; vm_compute; reflexivity. Qed.

(** An effect that disposes of itself and then reads: the dead slot subscribes, and the
    next effect to get the slot is queued by a signal it never read. *)
Lemma self_disposal_leaves_a_subscription :
  ∃ s t u, ('(_, s) ← signal 5%Z new; '(e, s) ← effect 1%Z s;
      '(_, s) ← effect_begin e (with_queue [] s); s ← dispose e s;
      '(_, s) ← read_begin 0 s; end_compute e None s) = Some s ∧
    live (node_at s 1) = false ∧ subscribers (node_at s 0) = [1] ∧
    ('(_, s) ← effect 2%Z s; '(_, s) ← effect_begin 1 (with_queue [] s); end_compute 1 None s) = Some t ∧
    sources (node_at t 1) = [] ∧ set 0 7%Z t = Some u ∧ queue u = [1].
Proof. eexists _, _, _; split_and!; vm_compute; reflexivity. Qed.
End ReactiveExample.
