(* ===== verification/Regalloc.v ===== *)
(** Register coalescing, constant hoisting and stale-read release:
    [crates/noeta-compiler/src/regalloc.rs].  An indexing out of range panics and is
    [None]; the loop of [Liveness::analyze] is given the number of rounds that
    [RegallocLive] shows to be enough. *)
From S2P Require Import Prelude Span Ir Bytecode.
From stdpp Require Import options.
Open Scope nat_scope.

(** [BitSet]: 64 registers to a word. *)
Module BitSet.
Record bitset := mkBitSet { words : list N }.

#[global] Instance bitset_eq_dec : EqDecision bitset.
Proof. solve_decision. Defined.

(** [1 << (i % 64)]. *)
Definition bit (i : nat) : N := N.shiftl 1 (N.of_nat (i mod 64)).

Definition new (n : nat) : bitset := mkBitSet (replicate ((n + 63) / 64) 0%N).
Definition insert (i : nat) (s : bitset) : option bitset :=
  w ← words s !! (i / 64); Some (mkBitSet (<[i / 64 := N.lor w (bit i)]> (words s))).
Definition remove (i : nat) (s : bitset) : option bitset :=
  w ← words s !! (i / 64);
  Some (mkBitSet (<[i / 64 := N.land w (N.lnot (bit i) 64)]> (words s))).
Definition contains (i : nat) (s : bitset) : option bool :=
  w ← words s !! (i / 64); Some (negb (N.land w (bit i) =? 0)%N).

(** [for (a, b) in self.words.iter_mut().zip(&other.words) { *a |= *b }]. *)
Fixpoint union_words (a b : list N) : list N :=
  match a, b with
  | x :: a, y :: b => N.lor x y :: union_words a b
  | _, _ => a
  end.
Definition union_with (s other : bitset) : bitset :=
  mkBitSet (union_words (words s) (words other)).

(** [iter]: the members in ascending order. *)
Fixpoint iter_words (w : nat) (ws : list N) : list nat :=
  match ws with
  | bits :: ws =>
      map (λ b, w * 64 + b) (filter (λ b, N.land bits (N.shiftl 1 (N.of_nat b)) ≠ 0%N) (seq 0 64))
        ++ iter_words (S w) ws
  | [] => []
  end.
Definition iter (s : bitset) : list nat := iter_words 0 (words s).
End BitSet.

Section Regalloc.
Context {P : CodePayloads}.

(** [is_primitive_const]. *)
Definition is_primitive_const (c : Const.const) : bool :=
  match c with
  | Const.Unit | Const.Bool _ | Const.Int _ | Const.Float _ | Const.F32 _ => true
  | _ => false
  end.

(** [OpFacts]. *)
Record OpFacts := mkOpFacts {
  def : option Reg;
  uses : list Reg;
  targets : list JumpPc;
  fallthrough : bool;
}.

(** What an arm of [op_facts] sets: every arm leaves [targets] to the visitor. *)
Definition mkArm (d : option Reg) (u : list Reg) (ft : bool) : OpFacts := mkOpFacts d u [] ft.

Definition capture_reg (c : CaptureFrom.capture) : option Reg :=
  match c with CaptureFrom.Local r => Some r | CaptureFrom.Upvalue _ => None end.
Definition hole_reg (p : StrPart.part) : option Reg :=
  match p with StrPart.Hole r => Some r | StrPart.Literal _ => None end.

(** [op_facts]. *)
Definition op_facts (op : Op.op) : OpFacts :=
  let f := match op with
  | Op.LoadConst dst _ => mkArm (Some dst) [] true
  | Op.Move dst src => mkArm (Some dst) [src] true
  | Op.LoadGlobal dst _ _ => mkArm (Some dst) [] true
  | Op.StoreGlobal _ src => mkArm None [src] true
  | Op.TakeGlobal dst _ _ => mkArm (Some dst) [] true
  | Op.Drop reg _ => mkArm (Some reg) [reg] true
  | Op.Retag reg _ => mkArm None [reg] true
  | Op.RetagDynamic reg slot => mkArm None [reg; slot] true
  | Op.ConcatInPlace dst lhs rhs _ => mkArm (Some dst) [lhs; rhs] true
  | Op.MakeClosure dst _ captures => mkArm (Some dst) (omap capture_reg captures) true
  | Op.MakeCell dst src => mkArm (Some dst) [src] true
  | Op.CellGet dst cell => mkArm (Some dst) [cell] true
  | Op.CellSet cell src => mkArm None [cell; src] true
  | Op.UpvalueGet dst _ => mkArm (Some dst) [] true
  | Op.UpvalueSet _ src => mkArm None [src] true
  | Op.LoadNativeFn dst _ => mkArm (Some dst) [] true
  | Op.BindMethod dst recv _ => mkArm (Some dst) [recv] true
  | Op.MakeList dst items _ | Op.MakeTuple dst items => mkArm (Some dst) items true
  | Op.PackedListNew dst _ => mkArm (Some dst) [] true
  | Op.PackedListPush dst lst value _ => mkArm (Some dst) [lst; value] true
  | Op.TupleIndex dst receiver _ _ => mkArm (Some dst) [receiver] true
  | Op.MakeRange dst start end_ _ _ => mkArm (Some dst) [start; end_] true
  | Op.MakeMap dst entries _ =>
      mkArm (Some dst) (concat (map (λ e, [e.1; e.2]) entries)) true
  | Op.RequireMapKey reg _ => mkArm None [reg] true
  | Op.IterSnapshot dst src _ => mkArm (Some dst) [src] true
  | Op.ListLen dst src _ => mkArm (Some dst) [src] true
  | Op.ListGet dst lst index => mkArm (Some dst) [lst; index] true
  | Op.IterForNext iter elem _ _ => mkArm (Some elem) [iter] true
  | Op.CallBuiltin dst _ args _ => mkArm (Some dst) args true
  | Op.CallMethod dst recv _ args type_args _ _ _ _ _ =>
      mkArm (Some dst) ([recv] ++ args ++ TypeArgs.regs type_args) true
  | Op.Index dst recv index _ | Op.IndexField dst recv index _ _ =>
      mkArm (Some dst) [recv; index] true
  | Op.MakeStruct dst _ named spread _ _ =>
      mkArm (Some dst) (map snd named ++ option_list spread) true
  | Op.MakeStructInPlace dst _ named base _ _ _ =>
      mkArm (Some dst) (map snd named ++ [base]) true
  | Op.MakeOpaque dst _ keys spread =>
      mkArm (Some dst) (map snd keys ++ option_list spread) true
  | Op.MakeEnum dst _ args _ => mkArm (Some dst) args true
  | Op.EnumFromStr dst arg _ _ _ _ _ _ => mkArm (Some dst) [arg] true
  | Op.LoadField dst obj _ _ _ => mkArm (Some dst) [obj] true
  | Op.SetField dst obj _ value _ _ => mkArm (Some dst) [obj; value] true
  | Op.Panic msg _ => mkArm None [msg] false
  | Op.TryUnwrap dst src on_error _ => mkArm (Some dst) ([src] ++ map fst on_error) true
  | Op.Coalesce dst src _ _ => mkArm (Some dst) [src] true
  | Op.Narrow dst src _ dynamic _ _ | Op.IsType dst src _ dynamic =>
      mkArm (Some dst) ([src] ++ option_list dynamic) true
  | Op.MakeGen dst src | Op.MakeFuture dst src | Op.RunFuture dst src _
  | Op.PollFuture dst src _ | Op.ScopeReady dst src _ | Op.Spawn dst src _ =>
      mkArm (Some dst) [src] true
  | Op.MakeChannel dst capacity _ => mkArm (Some dst) [capacity] true
  | Op.LoadPending dst | Op.ScopeBeginValue dst _ => mkArm (Some dst) [] true
  | Op.ScopeEndAt src _ => mkArm None [src] true
  | Op.ScopeBegin | Op.ScopeEnd _ => mkArm None [] true
  | Op.RolesOf dst src => mkArm (Some dst) (option_list src) true
  | Op.ParamsOf dst src | Op.ReturnsOf dst src => mkArm (Some dst) [src] true
  | Op.AttributesOf dst src | Op.TypeOf dst src | Op.FieldsOf dst src _
  | Op.TraitsOf dst src | Op.FieldSpecsOf dst src | Op.VariantsOf dst src =>
      mkArm (Some dst) [src] true
  | Op.FromBytes dst src _ _ _ | Op.TypeArgName dst src _ _ _ | Op.TypeSlotName dst src _
  | Op.SelfRenderSlot dst src _ => mkArm (Some dst) [src] true
  | Op.TypeOfStatic dst _ => mkArm (Some dst) [] true
  | Op.TypeValue dst _ => mkArm (Some dst) [] true
  | Op.Invoke dst recv name args _ _ _ =>
      mkArm (Some dst) (option_list recv ++ [name; args]) true
  | Op.Construct dst name fields _ _ _ => mkArm (Some dst) [name; fields] true
  | Op.MatchInt src _ _ => mkArm None [src] true
  | Op.MatchStr src _ _ => mkArm None [src] true
  | Op.MatchBool src _ _ => mkArm None [src] true
  | Op.MatchVariant src _ _ _ _ => mkArm None [src] true
  | Op.MatchTuple src _ _ => mkArm None [src] true
  | Op.ExtractField dst src _ => mkArm (Some dst) [src] true
  | Op.MatchFail src _ => mkArm None [src] false
  | Op.Call dst callee args type_args _ _ =>
      mkArm (Some dst) ([callee] ++ args ++ TypeArgs.regs type_args) true
  | Op.CallGlobal dst _ args type_args _ _ =>
      mkArm (Some dst) (args ++ TypeArgs.regs type_args) true
  | Op.SpawnIsolate dst callee args _ => mkArm (Some dst) ([callee] ++ args) true
  | Op.TypedModuleCall dst _ _ args _ dynamic _ =>
      mkArm (Some dst) (args ++ option_list dynamic) true
  | Op.TypedMethodCall dst recv _ args _ dynamic _ =>
      mkArm (Some dst) ([recv] ++ args ++ option_list dynamic) true
  | Op.DecodeTyped dst name text _ _ _ => mkArm (Some dst) [name; text] true
  | Op.TraitMethod dst recv _ _ args _ => mkArm (Some dst) ([recv] ++ args) true
  | Op.Return src => mkArm None [src] false
  | Op.Unary _ dst src _ => mkArm (Some dst) [src] true
  | Op.MaskWidth dst src _ _ => mkArm (Some dst) [src] true
  | Op.Binary _ dst a b _ | Op.WideInt _ dst a b _ _ _ => mkArm (Some dst) [a; b] true
  | Op.WidthIntMethod dst recv _ arg _ _ =>
      mkArm (Some dst) ([recv] ++ option_list arg) true
  | Op.RequireBool reg _ _ _ => mkArm None [reg] true
  | Op.RequireCondBool reg _ => mkArm None [reg] true
  | Op.Jump _ => mkArm None [] false
  | Op.JumpIfTrue reg _ | Op.JumpIfFalse reg _ | Op.CondBranch reg _ _ =>
      mkArm None [reg] true
  | Op.Echo reg => mkArm None [reg] true
  | Op.Stringify dst src _ hint =>
      mkArm (Some dst) ([src] ++ match hint with Some hint => ho_slots hint | None => [] end) true
  | Op.JsonStringify dst src hint => mkArm (Some dst) ([src] ++ ho_slots hint) true
  | Op.ResolveHint _ _ slots => mkArm None slots true
  | Op.ComposeTypeArg dst slots _ => mkArm (Some dst) slots true
  | Op.BuildString dst parts => mkArm (Some dst) (omap hole_reg parts) true
  | Op.Raise _ => mkArm None [] false
  | Op.Halt => mkArm None [] false
  end in
  mkOpFacts (def f) (uses f) (targets f ++ for_each_jump_pc op) (fallthrough f).

(** [extra_defs]. *)
Definition extra_defs (op : Op.op) : option Reg :=
  match op with Op.IterForNext _ _ has _ => Some has | _ => None end.

(** The rewriting closures of [remap_op] on compound fields. *)
Definition opt_mut {A} (m : A → option A) (o : option A) : option (option A) :=
  match o with Some a => a ← m a; Some (Some a) | None => Some None end.
Definition pair_mut {A B} (m : A → option A) (m' : B → option B) (p : A * B) : option (A * B) :=
  a ← m p.1; b ← m' p.2; Some (a, b).
Definition capture_mut (m : Reg → option Reg) (c : CaptureFrom.capture) :
    option CaptureFrom.capture :=
  match c with
  | CaptureFrom.Local r => r ← m r; Some (CaptureFrom.Local r)
  | c => Some c
  end.
Definition part_mut (m : Reg → option Reg) (p : StrPart.part) : option StrPart.part :=
  match p with
  | StrPart.Hole r => r ← m r; Some (StrPart.Hole r)
  | p => Some p
  end.
Definition slots_mut (m : Reg → option Reg) (h : HintOperand) : option HintOperand :=
  rs ← mapM m (ho_slots h); Some (mkHintOperand (ho_hint h) rs).

(** [remap_op] over the rewriting [m] of one register. *)
Definition remap_regs (m : Reg → option Reg) (op : Op.op) : option Op.op :=
  match op with
  | Op.LoadConst dst k => dst ← m dst; Some (Op.LoadConst dst k)
  | Op.Move dst src => dst ← m dst; src ← m src; Some (Op.Move dst src)
  | Op.LoadGlobal dst global span => dst ← m dst; Some (Op.LoadGlobal dst global span)
  | Op.StoreGlobal global src => src ← m src; Some (Op.StoreGlobal global src)
  | Op.TakeGlobal dst global span => dst ← m dst; Some (Op.TakeGlobal dst global span)
  | Op.Drop reg relevant => reg ← m reg; Some (Op.Drop reg relevant)
  | Op.Retag reg repr => reg ← m reg; Some (Op.Retag reg repr)
  | Op.RetagDynamic reg slot => reg ← m reg; slot ← m slot; Some (Op.RetagDynamic reg slot)
  | Op.ConcatInPlace dst lhs rhs span =>
      dst ← m dst; lhs ← m lhs; rhs ← m rhs; Some (Op.ConcatInPlace dst lhs rhs span)
  | Op.MakeClosure dst proto captures =>
      dst ← m dst; captures ← mapM (capture_mut m) captures;
      Some (Op.MakeClosure dst proto captures)
  | Op.MakeCell dst src => dst ← m dst; src ← m src; Some (Op.MakeCell dst src)
  | Op.CellGet dst cell => dst ← m dst; cell ← m cell; Some (Op.CellGet dst cell)
  | Op.CellSet cell src => cell ← m cell; src ← m src; Some (Op.CellSet cell src)
  | Op.UpvalueGet dst index => dst ← m dst; Some (Op.UpvalueGet dst index)
  | Op.UpvalueSet index src => src ← m src; Some (Op.UpvalueSet index src)
  | Op.LoadNativeFn dst func => dst ← m dst; Some (Op.LoadNativeFn dst func)
  | Op.BindMethod dst recv method =>
      dst ← m dst; recv ← m recv; Some (Op.BindMethod dst recv method)
  | Op.MakeList dst items reflect =>
      dst ← m dst; items ← mapM m items; Some (Op.MakeList dst items reflect)
  | Op.MakeTuple dst items =>
      dst ← m dst; items ← mapM m items; Some (Op.MakeTuple dst items)
  | Op.PackedListNew dst schema => dst ← m dst; Some (Op.PackedListNew dst schema)
  | Op.PackedListPush dst lst value span =>
      dst ← m dst; lst ← m lst; value ← m value; Some (Op.PackedListPush dst lst value span)
  | Op.TupleIndex dst receiver index span =>
      dst ← m dst; receiver ← m receiver; Some (Op.TupleIndex dst receiver index span)
  | Op.MakeRange dst start end_ inclusive span =>
      dst ← m dst; start ← m start; end_ ← m end_;
      Some (Op.MakeRange dst start end_ inclusive span)
  | Op.MakeMap dst entries reflect =>
      dst ← m dst; entries ← mapM (pair_mut m m) entries;
      Some (Op.MakeMap dst entries reflect)
  | Op.RequireMapKey reg span => reg ← m reg; Some (Op.RequireMapKey reg span)
  | Op.IterSnapshot dst src span =>
      dst ← m dst; src ← m src; Some (Op.IterSnapshot dst src span)
  | Op.ListLen dst src span => dst ← m dst; src ← m src; Some (Op.ListLen dst src span)
  | Op.ListGet dst lst index =>
      dst ← m dst; lst ← m lst; index ← m index; Some (Op.ListGet dst lst index)
  | Op.IterForNext iter elem has span =>
      iter ← m iter; elem ← m elem; has ← m has; Some (Op.IterForNext iter elem has span)
  | Op.CallBuiltin dst builtin args span =>
      dst ← m dst; args ← mapM m args; Some (Op.CallBuiltin dst builtin args span)
  | Op.CallMethod dst recv method args type_args span cache reuse consume_key supplied =>
      dst ← m dst; recv ← m recv; args ← mapM m args;
      type_args ← TypeArgs.regs_mut m type_args;
      Some (Op.CallMethod dst recv method args type_args span cache reuse consume_key supplied)
  | Op.Index dst recv index span =>
      dst ← m dst; recv ← m recv; index ← m index; Some (Op.Index dst recv index span)
  | Op.IndexField dst recv index field span =>
      dst ← m dst; recv ← m recv; index ← m index;
      Some (Op.IndexField dst recv index field span)
  | Op.MakeStruct dst shape named spread reflect span =>
      dst ← m dst; named ← mapM (pair_mut Some m) named; spread ← opt_mut m spread;
      Some (Op.MakeStruct dst shape named spread reflect span)
  | Op.MakeStructInPlace dst shape named base check reflect span =>
      dst ← m dst; named ← mapM (pair_mut Some m) named; base ← m base;
      Some (Op.MakeStructInPlace dst shape named base check reflect span)
  | Op.MakeOpaque dst type_name keys spread =>
      dst ← m dst; keys ← mapM (pair_mut Some m) keys; spread ← opt_mut m spread;
      Some (Op.MakeOpaque dst type_name keys spread)
  | Op.MakeEnum dst shape args reflect =>
      dst ← m dst; args ← mapM m args; Some (Op.MakeEnum dst shape args reflect)
  | Op.EnumFromStr dst arg enum_name cases some_shape none_shape panic span =>
      dst ← m dst; arg ← m arg;
      Some (Op.EnumFromStr dst arg enum_name cases some_shape none_shape panic span)
  | Op.LoadField dst obj field span cache =>
      dst ← m dst; obj ← m obj; Some (Op.LoadField dst obj field span cache)
  | Op.SetField dst obj field value reuse span =>
      dst ← m dst; obj ← m obj; value ← m value;
      Some (Op.SetField dst obj field value reuse span)
  | Op.Panic msg span => msg ← m msg; Some (Op.Panic msg span)
  | Op.TryUnwrap dst src on_error span =>
      dst ← m dst; src ← m src; on_error ← mapM (pair_mut m Some) on_error;
      Some (Op.TryUnwrap dst src on_error span)
  | Op.Coalesce dst src fallback span =>
      dst ← m dst; src ← m src; Some (Op.Coalesce dst src fallback span)
  | Op.Narrow dst src target dynamic some_shape none_shape =>
      dst ← m dst; src ← m src; dynamic ← opt_mut m dynamic;
      Some (Op.Narrow dst src target dynamic some_shape none_shape)
  | Op.IsType dst src target dynamic =>
      dst ← m dst; src ← m src; dynamic ← opt_mut m dynamic;
      Some (Op.IsType dst src target dynamic)
  | Op.MakeGen dst src => dst ← m dst; src ← m src; Some (Op.MakeGen dst src)
  | Op.MakeFuture dst src => dst ← m dst; src ← m src; Some (Op.MakeFuture dst src)
  | Op.RunFuture dst src span => dst ← m dst; src ← m src; Some (Op.RunFuture dst src span)
  | Op.PollFuture dst src span =>
      dst ← m dst; src ← m src; Some (Op.PollFuture dst src span)
  | Op.ScopeReady dst src span =>
      dst ← m dst; src ← m src; Some (Op.ScopeReady dst src span)
  | Op.Spawn dst src span => dst ← m dst; src ← m src; Some (Op.Spawn dst src span)
  | Op.MakeChannel dst capacity span =>
      dst ← m dst; capacity ← m capacity; Some (Op.MakeChannel dst capacity span)
  | Op.LoadPending dst => dst ← m dst; Some (Op.LoadPending dst)
  | Op.ScopeBeginValue dst span => dst ← m dst; Some (Op.ScopeBeginValue dst span)
  | Op.ScopeEndAt src span => src ← m src; Some (Op.ScopeEndAt src span)
  | Op.ScopeBegin => Some Op.ScopeBegin
  | Op.ScopeEnd span => Some (Op.ScopeEnd span)
  | Op.RolesOf dst src => dst ← m dst; src ← opt_mut m src; Some (Op.RolesOf dst src)
  | Op.ParamsOf dst src => dst ← m dst; src ← m src; Some (Op.ParamsOf dst src)
  | Op.ReturnsOf dst src => dst ← m dst; src ← m src; Some (Op.ReturnsOf dst src)
  | Op.AttributesOf dst src => dst ← m dst; src ← m src; Some (Op.AttributesOf dst src)
  | Op.TypeOf dst src => dst ← m dst; src ← m src; Some (Op.TypeOf dst src)
  | Op.FieldsOf dst src private_fields =>
      dst ← m dst; src ← m src; Some (Op.FieldsOf dst src private_fields)
  | Op.TraitsOf dst src => dst ← m dst; src ← m src; Some (Op.TraitsOf dst src)
  | Op.FieldSpecsOf dst src => dst ← m dst; src ← m src; Some (Op.FieldSpecsOf dst src)
  | Op.VariantsOf dst src => dst ← m dst; src ← m src; Some (Op.VariantsOf dst src)
  | Op.FromBytes dst src schema validate span =>
      dst ← m dst; src ← m src; Some (Op.FromBytes dst src schema validate span)
  | Op.TypeArgName dst src index names span =>
      dst ← m dst; src ← m src; Some (Op.TypeArgName dst src index names span)
  | Op.TypeSlotName dst src span =>
      dst ← m dst; src ← m src; Some (Op.TypeSlotName dst src span)
  | Op.SelfRenderSlot dst src index =>
      dst ← m dst; src ← m src; Some (Op.SelfRenderSlot dst src index)
  | Op.TypeOfStatic dst repr => dst ← m dst; Some (Op.TypeOfStatic dst repr)
  | Op.TypeValue dst name => dst ← m dst; Some (Op.TypeValue dst name)
  | Op.Invoke dst recv name args ok_shape err_shape span =>
      dst ← m dst; recv ← opt_mut m recv; name ← m name; args ← m args;
      Some (Op.Invoke dst recv name args ok_shape err_shape span)
  | Op.Construct dst name fields ok_shape err_shape span =>
      dst ← m dst; name ← m name; fields ← m fields;
      Some (Op.Construct dst name fields ok_shape err_shape span)
  | Op.MatchInt src value fail => src ← m src; Some (Op.MatchInt src value fail)
  | Op.MatchStr src value fail => src ← m src; Some (Op.MatchStr src value fail)
  | Op.MatchBool src value fail => src ← m src; Some (Op.MatchBool src value fail)
  | Op.MatchVariant src type_name variant arity fail =>
      src ← m src; Some (Op.MatchVariant src type_name variant arity fail)
  | Op.MatchTuple src arity fail => src ← m src; Some (Op.MatchTuple src arity fail)
  | Op.ExtractField dst src index =>
      dst ← m dst; src ← m src; Some (Op.ExtractField dst src index)
  | Op.MatchFail src span => src ← m src; Some (Op.MatchFail src span)
  | Op.Call dst callee args type_args span supplied =>
      dst ← m dst; callee ← m callee; args ← mapM m args;
      type_args ← TypeArgs.regs_mut m type_args;
      Some (Op.Call dst callee args type_args span supplied)
  | Op.CallGlobal dst global args type_args span supplied =>
      dst ← m dst; args ← mapM m args; type_args ← TypeArgs.regs_mut m type_args;
      Some (Op.CallGlobal dst global args type_args span supplied)
  | Op.SpawnIsolate dst callee args span =>
      dst ← m dst; callee ← m callee; args ← mapM m args;
      Some (Op.SpawnIsolate dst callee args span)
  | Op.TypedModuleCall dst module func args recipe dynamic span =>
      dst ← m dst; args ← mapM m args; dynamic ← opt_mut m dynamic;
      Some (Op.TypedModuleCall dst module func args recipe dynamic span)
  | Op.TypedMethodCall dst recv method args recipe dynamic span =>
      dst ← m dst; recv ← m recv; args ← mapM m args; dynamic ← opt_mut m dynamic;
      Some (Op.TypedMethodCall dst recv method args recipe dynamic span)
  | Op.DecodeTyped dst name text ok_shape err_shape span =>
      dst ← m dst; name ← m name; text ← m text;
      Some (Op.DecodeTyped dst name text ok_shape err_shape span)
  | Op.TraitMethod dst recv trait_name method args span =>
      dst ← m dst; recv ← m recv; args ← mapM m args;
      Some (Op.TraitMethod dst recv trait_name method args span)
  | Op.Return src => src ← m src; Some (Op.Return src)
  | Op.Unary op dst src span => dst ← m dst; src ← m src; Some (Op.Unary op dst src span)
  | Op.MaskWidth dst src signed bits =>
      dst ← m dst; src ← m src; Some (Op.MaskWidth dst src signed bits)
  | Op.Binary op dst a b span =>
      dst ← m dst; a ← m a; b ← m b; Some (Op.Binary op dst a b span)
  | Op.WideInt op dst a b signed bits span =>
      dst ← m dst; a ← m a; b ← m b; Some (Op.WideInt op dst a b signed bits span)
  | Op.WidthIntMethod dst recv method arg bits span =>
      dst ← m dst; recv ← m recv; arg ← opt_mut m arg;
      Some (Op.WidthIntMethod dst recv method arg bits span)
  | Op.RequireBool reg side op span => reg ← m reg; Some (Op.RequireBool reg side op span)
  | Op.RequireCondBool reg span => reg ← m reg; Some (Op.RequireCondBool reg span)
  | Op.CondBranch reg target span => reg ← m reg; Some (Op.CondBranch reg target span)
  | Op.Jump target => Some (Op.Jump target)
  | Op.JumpIfTrue reg target => reg ← m reg; Some (Op.JumpIfTrue reg target)
  | Op.JumpIfFalse reg target => reg ← m reg; Some (Op.JumpIfFalse reg target)
  | Op.Echo reg => reg ← m reg; Some (Op.Echo reg)
  | Op.Stringify dst src span hint =>
      dst ← m dst; src ← m src; hint ← opt_mut (slots_mut m) hint;
      Some (Op.Stringify dst src span hint)
  | Op.JsonStringify dst src hint =>
      dst ← m dst; src ← m src; hint ← slots_mut m hint;
      Some (Op.JsonStringify dst src hint)
  | Op.ResolveHint span door slots =>
      slots ← mapM m slots; Some (Op.ResolveHint span door slots)
  | Op.ComposeTypeArg dst slots cases =>
      dst ← m dst; slots ← mapM m slots; Some (Op.ComposeTypeArg dst slots cases)
  | Op.BuildString dst parts =>
      dst ← m dst; parts ← mapM (part_mut m) parts; Some (Op.BuildString dst parts)
  | Op.Raise idx => Some (Op.Raise idx)
  | Op.Halt => Some Op.Halt
  end.

(** [remap_op]: [colors[*r as usize] as Reg]. *)
Definition remap_op (op : Op.op) (colors : list N) : option Op.op :=
  remap_regs (λ r, c ← colors !! as_usize r; Some (c mod 2 ^ 16)%N) op.

(** [Liveness]. *)
Record Liveness := mkLiveness { live_out : list BitSet.bitset }.

(** The state of the fixpoint. *)
Record Flow := mkFlow { fl_in : list BitSet.bitset; fl_out : list BitSet.bitset; fl_changed : bool }.

(** [out.union_with(&live_in[j])] when [j < len]. *)
Definition union_at (len : nat) (live_in : list BitSet.bitset) (j : nat) (out : BitSet.bitset) :
    option BitSet.bitset :=
  if j <? len then s ← live_in !! j; Some (BitSet.union_with out s) else Some out.

(** [live_out[i]] and [live_in[i]] from the successors' [live_in]. *)
Definition flow_out (len n : nat) (live_in : list BitSet.bitset) (i : nat) (f : OpFacts) :
    option BitSet.bitset :=
  out ← (if fallthrough f then union_at len live_in (i + 1) (BitSet.new n)
         else Some (BitSet.new n));
  fold_opt (λ t, union_at len live_in (as_usize t)) (targets f) out.

Definition flow_in (f : OpFacts) (extra : option Reg) (out : BitSet.bitset) :
    option BitSet.bitset :=
  s ← fold_opt (λ d, BitSet.remove (as_usize d)) (option_list (def f) ++ option_list extra) out;
  fold_opt (λ u, BitSet.insert (as_usize u)) (uses f) s.

(** One instruction of the backward walk. *)
Definition flow_visit (code : list Op.op) (n : nat) (i : nat) (s : Flow) : option Flow :=
  op ← code !! i;
  let f := op_facts op in
  out ← flow_out (length code) n (fl_in s) i f;
  in_ ← flow_in f (extra_defs op) out;
  old_out ← fl_out s !! i;
  old_in ← fl_in s !! i;
  Some (mkFlow (<[i := in_]> (fl_in s)) (<[i := out]> (fl_out s))
          (fl_changed s || bool_decide (out ≠ old_out) || bool_decide (in_ ≠ old_in))).

(** [while changed { changed = false; for i in (0..len).rev() { … } }]. *)
Definition flow_pass (code : list Op.op) (n : nat) (s : Flow) : option Flow :=
  fold_opt (flow_visit code n) (reverse (seq 0 (length code)))
    (mkFlow (fl_in s) (fl_out s) false).

Fixpoint flow_loop (fuel : nat) (code : list Op.op) (n : nat) (s : Flow) : option Flow :=
  if fl_changed s then
    match fuel with
    | O => None
    | S fuel => s ← flow_pass code n s; flow_loop fuel code n s
    end
  else Some s.

(** Rounds that suffice: every round but the last adds a register to a set. *)
Definition flow_fuel (len n : nat) : nat := S (2 * len * n).

(** [Liveness::analyze]. *)
Definition flow_start (len n : nat) : Flow :=
  mkFlow (replicate len (BitSet.new n)) (replicate len (BitSet.new n)) true.
Definition analyze (code : list Op.op) (n : nat) : option Liveness :=
  s ← flow_loop (flow_fuel (length code) n) code n (flow_start (length code) n);
  Some (mkLiveness (fl_out s)).

(** [adj[a].insert(b); adj[b].insert(a)]. *)
Definition link (a b : nat) (adj : list BitSet.bitset) : option (list BitSet.bitset) :=
  sa ← adj !! a; sa ← BitSet.insert b sa;
  let adj := <[a := sa]> adj in
  sb ← adj !! b; sb ← BitSet.insert a sb;
  Some (<[b := sb]> adj).

(** The closure [add] of [build_interference]. *)
Definition add_edge (a b : nat) (adj : list BitSet.bitset) : option (list BitSet.bitset) :=
  if a =? b then Some adj else link a b adj.

Definition op_defs (op : Op.op) : list Reg :=
  option_list (def (op_facts op)) ++ option_list (extra_defs op).

(** The edges of one definition [d] of an instruction. *)
Definition def_edges (out : BitSet.bitset) (us ds : list Reg) (d : Reg)
    (adj : list BitSet.bitset) : option (list BitSet.bitset) :=
  adj ← fold_opt (λ r, add_edge (as_usize d) r) (BitSet.iter out) adj;
  adj ← fold_opt (λ u, add_edge (as_usize d) (as_usize u)) us adj;
  fold_opt (λ d2, add_edge (as_usize d) (as_usize d2)) ds adj.

(** [build_interference]. *)
Definition build_interference (code : list Op.op) (liveness : Liveness) (n : nat) :
    option (list BitSet.bitset) :=
  fold_opt (λ '(i, op) adj,
      out ← live_out liveness !! i;
      fold_opt (def_edges out (uses (op_facts op)) (op_defs op)) (op_defs op) adj)
    (zip (seq 0 (length code)) code) (replicate n (BitSet.new n)).

(** [color].  [UNASSIGNED] is [usize::MAX]. *)
Definition UNASSIGNED : N := (2 ^ 64 - 1)%N.

(** [for nb in adj[r].iter() { if colors[nb] != UNASSIGNED { taken[colors[nb]] = true } }]. *)
Definition mark_taken (colors : list N) (nb : nat) (taken : list bool) : option (list bool) :=
  c ← colors !! nb;
  if (c =? UNASSIGNED)%N then Some taken
  else if as_usize c <? length taken then Some (<[as_usize c := true]> taken) else None.

(** [while c < n && taken[c] { c += 1 }] from the rest of [taken]. *)
Fixpoint lowest_free (taken : list bool) (c : nat) : nat :=
  match taken with
  | true :: taken => lowest_free taken (S c)
  | _ => c
  end.

Definition color_one (adj : list BitSet.bitset) (n r : nat) (colors : list N) :
    option (list N) :=
  nbs ← adj !! r;
  taken ← fold_opt (mark_taken colors) (BitSet.iter nbs) (replicate n false);
  if r <? length colors then Some (<[r := N.of_nat (lowest_free taken 0)]> colors) else None.

Definition color (adj : list BitSet.bitset) (n num_params : nat) : option (list N) :=
  let colors := map N.of_nat (seq 0 (num_params `min` n))
                  ++ replicate (n - num_params) UNASSIGNED in
  fold_opt (color_one adj n) (seq num_params (n - num_params)) colors.

(** The pinning loop of [coalesce]. *)
Definition pin (n : nat) (reg : Reg) (adj : list BitSet.bitset) : option (list BitSet.bitset) :=
  let r := as_usize reg in
  fold_opt (λ other adj, if other =? r then Some adj else link r other adj) (seq 0 n) adj.

(** [frame_locals.retain_mut(...)] with its [seen] vector. *)
Fixpoint retain_first (colors : list N) (seen : list bool) (regs : list Reg) :
    option (list Reg) :=
  match regs with
  | [] => Some []
  | reg :: regs =>
      c ← colors !! as_usize reg;
      s ← seen !! as_usize c;
      if s : bool then retain_first colors seen regs
      else rest ← retain_first colors (<[as_usize c := true]> seen) regs;
           Some ((c mod 2 ^ 16)%N :: rest)
  end.

Definition remap_local (colors : list N) (l : LocalDebug) : option LocalDebug :=
  c ← colors !! as_usize (ld_reg l);
  Some (mkLocalDebug (ld_name l) (c mod 2 ^ 16)%N (ld_def_span l)).

(** [colors.iter().copied().max().map_or(0, |c| c + 1)]. *)
Definition color_count (colors : list N) : N :=
  match colors with [] => 0 | _ => foldr N.max 0 colors + 1 end%N.

Definition with_code (c : Chunk) (ops : list Op.op) (table : list LineEntry) : Chunk :=
  mkChunk ops (consts c) (diagnostics c) (num_params c) (hidden c) (hidden_base c)
    (num_registers c) (frame_locals c) (defaults c) (chunk_name c) (chunk_def_span c)
    (debug_locals c) table.

(** The colouring [coalesce] computes. *)
Definition coalesce_colors (chunk : Chunk) : option (list N) :=
  let n := as_usize (num_registers chunk) in
  liveness ← analyze (code chunk) n;
  interfere ← build_interference (code chunk) liveness n;
  interfere ← fold_opt (pin n) (frame_locals chunk) interfere;
  interfere ← fold_opt (λ l, pin n (ld_reg l)) (debug_locals chunk) interfere;
  color interfere n (as_usize (num_params chunk)).

(** [coalesce]. *)
Definition coalesce (chunk : Chunk) : option Chunk :=
  if (num_registers chunk =? 0)%N then Some chunk else
  colors ← coalesce_colors chunk;
  let new_count := color_count colors in
  ops ← mapM (λ op, remap_op op colors) (code chunk);
  locals ← retain_first colors (replicate (as_usize new_count) false) (frame_locals chunk);
  dbg ← mapM (remap_local colors) (debug_locals chunk);
  Some (mkChunk ops (consts chunk) (diagnostics chunk) (num_params chunk) (hidden chunk)
          (hidden_base chunk) (new_count mod 2 ^ 16)%N locals (defaults chunk)
          (chunk_name chunk) (chunk_def_span chunk) dbg (line_table chunk)).

(** [v[i] = x]. *)
Definition set_at {A} (i : nat) (x : A) (v : list A) : option (list A) :=
  if i <? length v then Some (<[i := x]> v) else None.

(** ** [hoist_loop_invariant_consts] *)

(** Loop regions: backward unconditional jumps. *)
Definition loop_of (p : nat * Op.op) : option (nat * nat) :=
  match p with
  | (j, Op.Jump target) =>
      if as_usize target <=? j then Some (as_usize target, j) else None
  | _ => None
  end.
Definition enumerate {A} (l : list A) : list (nat * A) := zip (seq 0 (length l)) l.
Definition loops_of (ops : list Op.op) : list (nat * nat) := omap loop_of (enumerate ops).

Definition is_arith (op : Op.op) : bool :=
  match op with Op.Binary _ _ _ _ _ | Op.WideInt _ _ _ _ _ _ _ => true | _ => false end.

(** [def_count], [nonarith_use] and [is_target]. *)
Record Census := mkCensus { def_count : list N; nonarith_use : list bool; is_target : list bool }.

Definition census_op (n : nat) (op : Op.op) (s : Census) : option Census :=
  let f := op_facts op in
  dc ← match def f with
       | Some d => c ← def_count s !! as_usize d; set_at (as_usize d) (c + 1)%N (def_count s)
       | None => Some (def_count s)
       end;
  nu ← (if is_arith op then Some (nonarith_use s)
        else fold_opt (λ u, set_at (as_usize u) true) (uses f) (nonarith_use s));
  it ← fold_opt (λ t it, if as_usize t <? n then set_at (as_usize t) true it else Some it)
         (targets f) (is_target s);
  Some (mkCensus dc nu it).

Definition census (ops : list Op.op) (regs : nat) : option Census :=
  let n := length ops in
  fold_opt (census_op n) ops
    (mkCensus (replicate regs 0%N) (replicate regs false) (replicate n false)).

(** [loops.iter().filter(..).map(..).max()]. *)
Definition innermost_top (loops : list (nat * nat)) (p : nat) : option nat :=
  let tops := map fst (filter (λ l, l.1 < p ∧ p ≤ l.2) loops) in
  match tops with [] => None | _ => Some (foldr Nat.max 0 tops) end.

(** The body of the selection loop: the top under which the load at [p] is recorded. *)
Definition hoist_target (chunk : Chunk) (s : Census) (p : nat) : option (option nat) :=
  t ← is_target s !! p;
  if t : bool then Some None else
  match code chunk !! p with
  | Some (Op.LoadConst dst k) =>
      c ← consts chunk !! as_usize k;
      if negb (is_primitive_const c) then Some None else
      dc ← def_count s !! as_usize dst;
      if negb (dc =? 1)%N then Some None else
      nu ← nonarith_use s !! as_usize dst;
      if nu : bool then Some None
      else Some (innermost_top (loops_of (code chunk)) p)
  | Some _ => Some None
  | None => None
  end.

(** [hoist_at[top]] and [hoisted]. *)
Definition hoist_select (chunk : Chunk) (s : Census) : option (list (option nat)) :=
  mapM (hoist_target chunk s) (seq 0 (length (code chunk))).
Definition hoist_at (sel : list (option nat)) (top : nat) : list nat :=
  filter (λ p, sel !! p = Some (Some top)) (seq 0 (length sel)).
Definition hoisted (sel : list (option nat)) (p : nat) : bool :=
  match sel !! p with Some (Some _) => true | _ => false end.

(** One step of the rebuild: the pre-header of [old], then [old] itself. *)
Definition hoist_emit (ops : list Op.op) (sel : list (option nat)) (old : nat)
    (s : list Op.op * list N) : option (list Op.op * list N) :=
  '(new_code, remap) ← fold_opt (λ src '(new_code, remap),
      op ← ops !! src; remap ← set_at src (as_u32 (length new_code)) remap;
      Some (new_code ++ [op], remap)) (hoist_at sel old) s;
  if hoisted sel old then Some (new_code, remap) else
  op ← ops !! old; remap ← set_at old (as_u32 (length new_code)) remap;
  Some (new_code ++ [op], remap).

(** [*t = remap[*t as usize]]. *)
Definition fix_jumps (remap : list N) (ops : list Op.op) : option (list Op.op) :=
  mapM (for_each_jump_pc_mut (λ t, remap !! as_usize t)) ops.

(** [while old < n && hoisted[old] { old += 1 }]. *)
Fixpoint skip_hoisted (sel : list (option nat)) (fuel old : nat) : nat :=
  match fuel with
  | S fuel => if hoisted sel old then skip_hoisted sel fuel (S old) else old
  | O => old
  end.

Definition hoist_entry (sel : list (option nat)) (remap : list N) (new_len : nat)
    (e : LineEntry) : option LineEntry :=
  let n := length sel in
  let old := skip_hoisted sel (n - as_usize (le_pc e)) (as_usize (le_pc e)) in
  pc ← (if old <? n then remap !! old else Some (as_u32 new_len));
  Some (mkLineEntry pc (le_span e)).

(** [hoist_loop_invariant_consts]. *)
Definition hoist_loop_invariant_consts (chunk : Chunk) : option Chunk :=
  let n := length (code chunk) in
  match loops_of (code chunk) with
  | [] => Some chunk
  | _ =>
      s ← census (code chunk) (as_usize (num_registers chunk));
      sel ← hoist_select chunk s;
      if negb (any (hoisted sel) (seq 0 n)) then Some chunk else
      '(new_code, remap) ← fold_opt (hoist_emit (code chunk) sel) (seq 0 n)
                             ([], replicate n 0%N);
      new_code ← fix_jumps remap new_code;
      table ← mapM (hoist_entry sel remap (length new_code)) (line_table chunk);
      Some (with_code chunk new_code table)
  end.

(** ** [release_stale_global_loads] *)

(** Basic-block entries. *)
Definition block_mark (n i : nat) (op : Op.op) (bs : list bool) : option (list bool) :=
  let f := op_facts op in
  bs ← (if negb (fallthrough f) && (i + 1 <? n) then set_at (i + 1) true bs else Some bs);
  fold_opt (λ t bs, if as_usize t <? n then set_at (as_usize t) true bs else Some bs)
    (targets f) bs.
Definition block_start (ops : list Op.op) : option (list bool) :=
  bs ← set_at 0 true (replicate (length ops) false);
  fold_opt (λ '(i, op), block_mark (length ops) i op) (enumerate ops) bs.

Definition pinned_set (chunk : Chunk) : option BitSet.bitset :=
  s ← fold_opt (λ r, BitSet.insert (as_usize r)) (frame_locals chunk)
        (BitSet.new (as_usize (num_registers chunk)));
  fold_opt (λ l, BitSet.insert (as_usize (ld_reg l))) (debug_locals chunk) s.

(** [global: g, .. if g == global] of a store or a take. *)
Definition rewrites_global (g : GlobalId) (op : Op.op) : bool :=
  match op with
  | Op.StoreGlobal g' _ | Op.TakeGlobal _ g' _ => bool_decide (g' = g)
  | _ => false
  end.

(** The guard of the [LoadGlobal] arm, tested left to right. *)
Definition stale_load (g : GlobalId) (dst : Reg) (redefined out pinned : BitSet.bitset)
    (op : Op.op) : option (option Reg) :=
  match op with
  | Op.LoadGlobal r g' _ =>
      if bool_decide (g' = g) && bool_decide (r ≠ dst) then
        a ← BitSet.contains (as_usize r) redefined;
        if a : bool then Some None else
        b ← BitSet.contains (as_usize r) out;
        if b : bool then Some None else
        c ← BitSet.contains (as_usize r) pinned;
        if c : bool then Some None else Some (Some r)
      else Some None
  | _ => Some None
  end.

(** The backward scan from the take at [p]: [while i > 0 && !block_start[i] { i -= 1; … }]. *)
Fixpoint scan_back (ops : list Op.op) (bs : list bool) (g : GlobalId) (dst : Reg)
    (out pinned : BitSet.bitset) (i : nat) (redefined : BitSet.bitset) (at_take : list Reg) :
    option (list Reg) :=
  match i with
  | O => Some at_take
  | S j =>
      b ← bs !! i;
      if b : bool then Some at_take else
      op ← ops !! j;
      if rewrites_global g op then Some at_take else
      st ← stale_load g dst redefined out pinned op;
      redefined ← fold_opt (λ d, BitSet.insert (as_usize d)) (op_defs op) redefined;
      scan_back ops bs g dst out pinned j redefined (at_take ++ option_list st)
  end.

Definition drops_at (chunk : Chunk) (bs : list bool) (pinned : BitSet.bitset)
    (liveness : Liveness) (p : nat) : option (list Reg) :=
  match code chunk !! p with
  | Some (Op.TakeGlobal dst g _) =>
      out ← live_out liveness !! p;
      scan_back (code chunk) bs g dst out pinned p
        (BitSet.new (as_usize (num_registers chunk))) []
  | Some _ => Some []
  | None => None
  end.

(** Splice: the drops of [i], then [i] itself. *)
Definition splice_emit (ops : list Op.op) (drops : list (list Reg)) (i : nat)
    (s : list Op.op * list N) : option (list Op.op * list N) :=
  let '(new_code, remap) := s in
  ds ← drops !! i;
  let new_code := new_code ++ map (λ r, Op.Drop r false) ds in
  op ← ops !! i; remap ← set_at i (as_u32 (length new_code)) remap;
  Some (new_code ++ [op], remap).

Definition splice_entry (remap : list N) (e : LineEntry) : option LineEntry :=
  pc ← remap !! as_usize (le_pc e); Some (mkLineEntry pc (le_span e)).

(** [release_stale_global_loads]. *)
Definition release_stale_global_loads (chunk : Chunk) : option Chunk :=
  let n := length (code chunk) in
  if (n =? 0) || (num_registers chunk =? 0)%N then Some chunk else
  bs ← block_start (code chunk);
  pinned ← pinned_set chunk;
  liveness ← analyze (code chunk) (as_usize (num_registers chunk));
  drops ← mapM (drops_at chunk bs pinned liveness) (seq 0 n);
  if all (λ d, bool_decide (d = [])) drops then Some chunk else
  '(new_code, remap) ← fold_opt (splice_emit (code chunk) drops) (seq 0 n)
                         ([], replicate n 0%N);
  new_code ← fix_jumps remap new_code;
  table ← mapM (splice_entry remap) (line_table chunk);
  Some (with_code chunk new_code table).

(** The three passes in the order [into_chunk] runs them. *)
Definition finish_chunk (chunk : Chunk) : option Chunk :=
  chunk ← hoist_loop_invariant_consts chunk;
  chunk ← coalesce chunk;
  release_stale_global_loads chunk.
End Regalloc.
