(* ===== verification/RegallocSets.v ===== *)
(** Facts about the register sets of [Regalloc]: what each operation of [BitSet] does to
    the members, and folds that only add members. *)
From S2P Require Import Prelude Span Ir Bytecode Regalloc.
From stdpp Require Import options.
Open Scope nat_scope.

#[global] Arguments Nat.div : simpl never.
#[global] Arguments Nat.modulo : simpl never.

(** ** Folds that add *)

(** A fold whose steps succeed on [P] and preserve [I]. *)
Lemma fold_opt_ok {A S} (f : A → S → option S) (P : A → Prop) (I : S → Prop) l s :
  (∀ a s, P a → I s → ∃ s', f a s = Some s' ∧ I s') →
  Forall P l → I s → ∃ s', fold_opt f l s = Some s' ∧ I s'.
Proof.
  intros Hf. revert s. induction l as [|a l IH]; intros s Hl Hs; simpl; [by eauto|].
  apply Forall_cons in Hl as [Ha Hl]. destruct (Hf a s Ha Hs) as (s' & -> & Hs'). by apply IH.
Qed.

(** A fold each of whose steps [a] adds exactly the members [E a]. *)
Lemma fold_opt_adds {A S X} (f : A → S → option S) (P : A → Prop) (I : S → Prop)
    (mem : S → X → Prop) (E : A → X → Prop) l s :
  (∀ a s, P a → I s → ∃ s', f a s = Some s' ∧ I s' ∧ ∀ x, mem s' x ↔ mem s x ∨ E a x) →
  Forall P l → I s →
  ∃ s', fold_opt f l s = Some s' ∧ I s' ∧ ∀ x, mem s' x ↔ mem s x ∨ ∃ a, a ∈ l ∧ E a x.
Proof.
  intros Hf. revert s. induction l as [|a l IH]; intros s Hl Hs; simpl.
  { exists s. split; [done|]. split; [done|]. intros x.
    split; [by left|]. intros [?|(a & Ha & _)]; [done|by apply elem_of_nil in Ha]. }
  apply Forall_cons in Hl as [Ha Hl]. destruct (Hf a s Ha Hs) as (s1 & -> & Hs1 & Hm).
  destruct (IH s1 Hl Hs1) as (s2 & -> & Hs2 & Hm2). exists s2. split; [done|]. split; [done|].
  intros x. rewrite Hm2, Hm. split.
  - intros [[?|?]|(b & Hb & ?)]; [by left|right..].
    + exists a. split; [apply elem_of_cons; by left|done].
    + exists b. split; [apply elem_of_cons; by right|done].
  - intros [?|(b & Hb & ?)]; [by left; left|].
    apply elem_of_cons in Hb as [->|Hb]; [by left; right|right; by eauto].
Qed.

(** ** Members *)

#[export] Instance bitset_elem_of : ElemOf nat BitSet.bitset :=
  λ i s, BitSet.contains i s = Some true.

#[export] Instance bitset_elem_dec : RelDecision (∈@{BitSet.bitset}).
Proof. intros i s. unfold elem_of, bitset_elem_of. solve_decision. Defined.

Definition word_count (n : nat) : nat := (n + 63) / 64.

(** Sets of registers below [n] as [BitSet::new(n)] builds them. *)
Record within (n : nat) (s : BitSet.bitset) : Prop := {
  within_words : length (BitSet.words s) = word_count n;
  within_width : Forall (λ w, (w < 2 ^ 64)%N) (BitSet.words s);
  within_below : ∀ i, i ∈ s → i < n;
}.

Lemma bit_testbit i j :
  j < 64 → N.testbit (BitSet.bit i) (N.of_nat j) = bool_decide (j = i mod 64).
Proof.
  intros Hj. unfold BitSet.bit. rewrite N.shiftl_1_l, N.pow2_bits_eqb.
  apply eq_bool_prop_intro. rewrite bool_decide_spec. split.
  - intros H%Is_true_true%N.eqb_eq. lia.
  - intros ->. apply Is_true_true, N.eqb_refl.
Qed.

Lemma land_bit w b :
  negb (N.land w (N.shiftl 1 (N.of_nat b)) =? 0)%N = N.testbit w (N.of_nat b).
Proof.
  rewrite N.shiftl_1_l. destruct (N.testbit w (N.of_nat b)) eqn:Hb.
  - apply negb_true_iff, N.eqb_neq. intros H.
    assert (Ht := f_equal (λ x, N.testbit x (N.of_nat b)) H). simpl in Ht.
    rewrite N.land_spec, Hb, N.pow2_bits_true in Ht. by destruct b.
  - apply negb_false_iff, N.eqb_eq, N.bits_inj. intros k.
    rewrite N.land_spec, N.bits_0, N.pow2_bits_eqb.
    destruct (N.eqb_spec (N.of_nat b) k) as [<-|]; [by rewrite Hb|by rewrite andb_false_r].
Qed.

Lemma mod_64 i : i mod 64 < 64.
Proof. by apply Nat.mod_upper_bound. Qed.
#[export] Hint Resolve mod_64 : noeta.

Lemma elem_word i s :
  i ∈ s ↔ ∃ w, BitSet.words s !! (i / 64) = Some w ∧ N.testbit w (N.of_nat (i mod 64)) = true.
Proof.
  unfold elem_of, bitset_elem_of, BitSet.contains, BitSet.bit.
  destruct (BitSet.words s !! (i / 64)) as [w|]; simpl; [|by split; [|intros (? & ? & ?)]].
  rewrite land_bit. split; [intros [=]; by eauto|by intros (? & [= ->] & ->)].
Qed.

Lemma set_contains_spec i s :
  i / 64 < length (BitSet.words s) → BitSet.contains i s = Some (bool_decide (i ∈ s)).
Proof.
  intros H. apply lookup_lt_is_Some in H as [w Hw].
  destruct (BitSet.contains i s) as [[]|] eqn:E.
  - by rewrite bool_decide_eq_true_2 by done.
  - rewrite bool_decide_eq_false_2; [done|]. unfold elem_of, bitset_elem_of. by rewrite E.
  - unfold BitSet.contains in E. by rewrite Hw in E.
Qed.

Lemma word_index i n : i < n → i / 64 < word_count n.
Proof.
  intros H. unfold word_count. apply Nat.Div0.div_lt_upper_bound.
  assert (Hd := Nat.div_mod_eq (n + 63) 64). assert (Hm := mod_64 (n + 63)). lia.
Qed.

Lemma elem_new n i : i ∉ BitSet.new n.
Proof.
  rewrite elem_word. intros (w & Hw & Hb). simpl in Hw.
  apply lookup_replicate in Hw as [-> _]. by rewrite N.bits_0 in Hb.
Qed.

Lemma within_new n : within n (BitSet.new n).
Proof.
  split; simpl; [by rewrite length_replicate|by apply Forall_replicate|].
  by intros i ?%elem_new.
Qed.
#[export] Hint Resolve within_new : noeta.

(** ** Operations *)

Lemma div_mod_inj i j : i / 64 = j / 64 → i mod 64 = j mod 64 → i = j.
Proof. intros Hd Hm. rewrite (Nat.div_mod_eq i 64), (Nat.div_mod_eq j 64). congruence. Qed.

Lemma elem_update i j w w' s :
  BitSet.words s !! (i / 64) = Some w →
  j ∈ BitSet.mkBitSet (<[i / 64 := w']> (BitSet.words s)) ↔
    if decide (j / 64 = i / 64) then N.testbit w' (N.of_nat (j mod 64)) = true else j ∈ s.
Proof.
  intros Hw. rewrite elem_word. simpl. case_decide as H.
  - rewrite H, list_lookup_insert_eq by by eapply lookup_lt_Some.
    split; [by intros (? & [= ->] & ?)|by eauto].
  - by rewrite list_lookup_insert_ne, (elem_word j s) by congruence.
Qed.

Lemma lt_pow2_testbit w :
  (∀ k, (64 ≤ k)%N → N.testbit w k = false) → (w < 2 ^ 64)%N.
Proof.
  intros H. destruct (N.eq_dec w 0%N) as [->|Hw]; [done|].
  apply N.log2_lt_pow2; [lia|]. apply N.nle_gt. intros Hl.
  assert (Hf := H _ Hl). rewrite N.bit_log2 in Hf; done.
Qed.

Lemma testbit_high w k : (w < 2 ^ 64)%N → (64 ≤ k)%N → N.testbit w k = false.
Proof.
  intros Hw Hk. destruct (N.eq_dec w 0%N) as [->|H0]; [apply N.bits_0|].
  apply N.bits_above_log2, N.lt_le_trans with 64%N; [|done].
  apply N.log2_lt_pow2; [lia|done].
Qed.

Lemma bit_width i : (BitSet.bit i < 2 ^ 64)%N.
Proof.
  apply lt_pow2_testbit. intros k Hk. unfold BitSet.bit.
  rewrite N.shiftl_1_l, N.pow2_bits_eqb. apply N.eqb_neq. assert (H := mod_64 i). lia.
Qed.

Lemma within_update n i w' s :
  within n s → (w' < 2 ^ 64)%N →
  (∀ j, j ∈ BitSet.mkBitSet (<[i / 64 := w']> (BitSet.words s)) → j < n) →
  within n (BitSet.mkBitSet (<[i / 64 := w']> (BitSet.words s))).
Proof.
  intros [Hl Hw Hb] Hw' Hn. split; simpl; [by rewrite length_insert| |done].
  by apply Forall_insert.
Qed.

Lemma within_word n s i w : within n s → BitSet.words s !! i = Some w → (w < 2 ^ 64)%N.
Proof. intros [_ Hw _] Hi. by eapply Forall_lookup_1 in Hw. Qed.

Lemma insert_spec n i s :
  within n s → i < n →
  ∃ s', BitSet.insert i s = Some s' ∧ within n s' ∧ ∀ j, j ∈ s' ↔ j ∈ s ∨ j = i.
Proof.
  intros Hs Hi. destruct (lookup_lt_is_Some_2 (BitSet.words s) (i / 64)) as [w Hw].
  { rewrite (within_words n s Hs). by apply word_index. }
  unfold BitSet.insert. rewrite Hw. simpl. eexists. split; [done|].
  assert (Hj : ∀ j, j ∈ BitSet.mkBitSet (<[i / 64 := N.lor w (BitSet.bit i)]> (BitSet.words s))
                 ↔ j ∈ s ∨ j = i).
  { intros j. rewrite (elem_update i j w) by done. case_decide as H.
    - rewrite N.lor_spec, bit_testbit, orb_true_iff, bool_decide_eq_true by apply mod_64.
      rewrite (elem_word j), H. split.
      + intros [?|?]; [left; by eauto|right; by apply div_mod_inj].
      + intros [(? & ? & ?)| ->]; [left; by simplify_eq|by right].
    - split; [by left|]. by intros [?| ->]. }
  split; [|done]. apply within_update; [done| |].
  - apply lt_pow2_testbit. intros k Hk.
    rewrite N.lor_spec, (testbit_high w), (testbit_high (BitSet.bit i)); try done;
      [apply bit_width|by eapply within_word].
  - intros j [?| ->]%Hj; [by apply (within_below n s)|done].
Qed.

Lemma remove_spec n i s :
  within n s → i < n →
  ∃ s', BitSet.remove i s = Some s' ∧ within n s' ∧ ∀ j, j ∈ s' ↔ j ∈ s ∧ j ≠ i.
Proof.
  intros Hs Hi. destruct (lookup_lt_is_Some_2 (BitSet.words s) (i / 64)) as [w Hw].
  { rewrite (within_words n s Hs). by apply word_index. }
  unfold BitSet.remove. rewrite Hw. simpl. eexists. split; [done|].
  set (w' := N.land w (N.lnot (BitSet.bit i) 64)).
  assert (Hj : ∀ j, j ∈ BitSet.mkBitSet (<[i / 64 := w']> (BitSet.words s)) ↔ j ∈ s ∧ j ≠ i).
  { intros j. rewrite (elem_update i j w) by done. case_decide as H.
    - unfold w'. assert (Hm := mod_64 j).
      rewrite N.land_spec, N.lnot_spec_low, bit_testbit, andb_true_iff, negb_true_iff,
        bool_decide_eq_false by (try apply mod_64; lia).
      rewrite (elem_word j), H. split.
      + intros [? Hne]. split; [by eauto|]. by intros ->.
      + intros [(? & ? & ?) Hne]. simplify_eq. split; [done|]. intros ?. by apply Hne, div_mod_inj.
    - split; [|by intros []]. intros ?. split; [done|]. by intros ->. }
  split; [|done]. apply within_update; [done| |].
  - apply lt_pow2_testbit. intros k Hk. unfold w'.
    rewrite N.land_spec, (testbit_high w); [done|by eapply within_word|done].
  - intros j [? _]%Hj. by apply (within_below n s).
Qed.

Lemma union_words_lookup a b i :
  length a = length b →
  BitSet.union_words a b !! i = (x ← a !! i; y ← b !! i; Some (N.lor x y)).
Proof.
  revert b i. induction a as [|x a IH]; intros [|y b] [|i] [=]; simpl; try done. by apply IH.
Qed.

Lemma union_words_length a b : length (BitSet.union_words a b) = length a.
Proof. revert b. induction a as [|x a IH]; intros [|y b]; simpl; congruence. Qed.

Lemma union_spec n s t :
  within n s → within n t →
  within n (BitSet.union_with s t) ∧ ∀ j, j ∈ BitSet.union_with s t ↔ j ∈ s ∨ j ∈ t.
Proof.
  intros Hs Ht. assert (Hl : length (BitSet.words s) = length (BitSet.words t)).
  { by rewrite (within_words n s), (within_words n t). }
  assert (Hj : ∀ j, j ∈ BitSet.union_with s t ↔ j ∈ s ∨ j ∈ t).
  { intros j. rewrite !elem_word. simpl. rewrite union_words_lookup by done.
    destruct (BitSet.words s !! (j / 64)) as [w|] eqn:Hw, (BitSet.words t !! (j / 64)) as [v|] eqn:Hv;
      simpl; split; try (by intros (? & ? & _)); try (by intros [(? & ? & ?)|(? & ? & ?)]);
      try (apply lookup_lt_Some in Hw; apply lookup_ge_None in Hv; lia);
      try (apply lookup_lt_Some in Hv; apply lookup_ge_None in Hw; lia).
    - intros (? & [= <-] & H). rewrite N.lor_spec, orb_true_iff in H.
      destruct H; [left|right]; by eauto.
    - intros H. eexists. split; [done|]. rewrite N.lor_spec, orb_true_iff.
      destruct H as [(? & ? & ?)|(? & ? & ?)]; simplify_eq; auto. }
  split; [|done]. split; simpl.
  - rewrite union_words_length. apply Hs.
  - apply Forall_lookup_2. intros i w. rewrite union_words_lookup by done.
    intros (x & Hx & (y & Hy & [= <-])%bind_Some)%bind_Some.
    apply lt_pow2_testbit. intros k Hk.
    by rewrite N.lor_spec, !testbit_high by (first [done|eauto using within_word]).
  - intros i [?|?]%Hj; eauto using within_below.
Qed.

(** Two sets with the same members are the same words. *)
Lemma within_ext n s t : within n s → within n t → (∀ j, j ∈ s ↔ j ∈ t) → s = t.
Proof.
  intros Hs Ht Hst. destruct s as [ws], t as [wt]. f_equal. apply list_eq. intros i.
  destruct (ws !! i) as [w|] eqn:Hw.
  - destruct (lookup_lt_is_Some_2 wt i) as [v Hv].
    { apply lookup_lt_Some in Hw. assert (H1 := within_words _ _ Hs).
      assert (H2 := within_words _ _ Ht). simpl in *. lia. }
    rewrite Hv. f_equal. apply N.bits_inj. intros k.
    destruct (N.lt_ge_cases k 64) as [Hk|Hk];
      [|rewrite !testbit_high; first [done|exact (within_word _ _ _ _ Hs Hw)
                                    |exact (within_word _ _ _ _ Ht Hv)]].
    specialize (Hst (i * 64 + N.to_nat k)). rewrite !elem_word in Hst. simpl in Hst.
    replace ((i * 64 + N.to_nat k) / 64) with i in Hst
      by (rewrite Nat.div_add_l, Nat.div_small; lia).
    replace ((i * 64 + N.to_nat k) mod 64) with (N.to_nat k) in Hst
      by (rewrite Nat.add_comm, Nat.Div0.mod_add, Nat.mod_small; lia).
    rewrite Hw, Hv, N2Nat.id in Hst.
    destruct (N.testbit w k) eqn:E1, (N.testbit v k) eqn:E2; try done.
    + destruct Hst as [(? & ? & ?) _]; [by eauto|]. congruence.
    + destruct Hst as [_ (? & ? & ?)]; [by eauto|]. congruence.
  - symmetry. apply lookup_ge_None. apply lookup_ge_None in Hw. assert (H1 := within_words _ _ Hs).
    assert (H2 := within_words _ _ Ht). simpl in *. lia.
Qed.

(** ** Iteration *)

Lemma elem_iter_words k ws i :
  i ∈ BitSet.iter_words k ws ↔
  ∃ j w b, ws !! j = Some w ∧ b < 64 ∧ N.testbit w (N.of_nat b) = true ∧ i = (k + j) * 64 + b.
Proof.
  revert k. induction ws as [|w ws IH]; intros k; cbn [BitSet.iter_words].
  { split; [by intros ?%elem_of_nil|by intros (j & ? & ? & ? & _)]. }
  rewrite elem_of_app, IH, list_elem_of_fmap. setoid_rewrite list_elem_of_filter.
  assert (Hb : ∀ b, N.land w (N.shiftl 1 (N.of_nat b)) ≠ 0%N ↔ N.testbit w (N.of_nat b) = true).
  { intros b. by rewrite <-land_bit, negb_true_iff, N.eqb_neq. }
  split.
  - intros [(b & -> & H & ?%elem_of_seq)|(j & v & b & ? & ? & ? & ->)].
    + exists 0, w, b. rewrite Nat.add_0_r. by split_and!; [..|apply Hb|]; lia || done.
    + exists (S j), v, b. split_and!; try done. lia.
  - intros ([|j] & v & b & Hv & ? & ? & ->); simpl in Hv; [injection Hv as ->|].
    + left. exists b. split; [lia|]. split; [by apply Hb|]. apply elem_of_seq. lia.
    + right. exists j, v, b. split_and!; try done. lia.
Qed.

Lemma elem_iter s i : i ∈ BitSet.iter s ↔ i ∈ s.
Proof.
  unfold BitSet.iter. rewrite elem_iter_words, elem_word. split.
  - intros (j & w & b & Hj & Hb & Hw & ->). simpl.
    rewrite Nat.div_add_l, Nat.div_small, Nat.add_0_r by lia.
    rewrite Nat.add_comm, Nat.Div0.mod_add, Nat.mod_small by lia. by eauto.
  - intros (w & Hw & Hb). exists (i / 64), w, (i mod 64). split_and!; [done|apply mod_64|done|].
    simpl. rewrite Nat.mul_comm. apply Nat.div_mod_eq.
Qed.

(** Members as a finite set, to count them. *)
Definition to_set (s : BitSet.bitset) : gset nat := list_to_set (BitSet.iter s).

Lemma elem_to_set s i : i ∈ to_set s ↔ i ∈ s.
Proof. unfold to_set. by rewrite elem_of_list_to_set, elem_iter. Qed.

Definition cardinal (s : BitSet.bitset) : nat := size (to_set s).

Lemma cardinal_bound n s : within n s → cardinal s ≤ n.
Proof.
  intros Hs. unfold cardinal. rewrite <-(size_set_seq (C:=gset nat) 0 n).
  apply subseteq_size. intros i. rewrite elem_to_set, elem_of_set_seq.
  intros ?%(within_below n s Hs). lia.
Qed.

Lemma cardinal_mono s t : (∀ j, j ∈ s → j ∈ t) → cardinal s ≤ cardinal t.
Proof. intros H. unfold cardinal. apply subseteq_size. intros i. rewrite !elem_to_set. apply H. Qed.

Lemma cardinal_grows n s t :
  within n s → within n t → (∀ j, j ∈ s → j ∈ t) → s ≠ t → cardinal s < cardinal t.
Proof.
  intros Hs Ht Hsub Hne. unfold cardinal. apply subset_size. split.
  - intros i. rewrite !elem_to_set. apply Hsub.
  - intros Hts. apply Hne. apply (within_ext n); [done..|]. intros j. split; [apply Hsub|].
    intros Hj%elem_to_set%Hts. by apply elem_to_set.
Qed.
