(* ===== verification/RegallocLive.v ===== *)
(** [Liveness::analyze] of [Regalloc] against liveness along paths of the control flow
    graph: the fixpoint ends within its rounds, and a register is in [live_out] exactly
    when some path from a successor reads it before writing it. *)
From S2P Require Import Prelude Span Ir Bytecode Regalloc RegallocSets.
From stdpp Require Import options.
Open Scope nat_scope.

#[local] Opaque op_facts.

Lemma sum_list_with_insert {A} (f : A → nat) l i x y :
  l !! i = Some x → sum_list_with f (<[i := y]> l) + f x = sum_list_with f l + f y.
Proof.
  revert i. induction l as [|a l IH]; intros [|i] H; simplify_eq/=; [lia|].
  specialize (IH i H). lia.
Qed.

Lemma sum_list_with_bound {A} (f : A → nat) l m :
  Forall (λ x, f x ≤ m) l → sum_list_with f l ≤ length l * m.
Proof. induction 1; simpl; lia. Qed.

Section Flow.
Context {P : CodePayloads}.

(** ** The control flow graph *)

Definition use_slots (op : Op.op) : list nat := map as_usize (uses (op_facts op)).
Definition def_slots (op : Op.op) : list nat := map as_usize (op_defs op).

(** The successors of [op] at [i] in a prototype of [len] instructions. *)
Definition succs (len i : nat) (op : Op.op) : list nat :=
  filter (λ j, j < len)
    ((if fallthrough (op_facts op) then [i + 1] else []) ++
     map as_usize (targets (op_facts op))).

Definition edge (code : list Op.op) (i j : nat) : Prop :=
  ∃ op, code !! i = Some op ∧ j ∈ succs (length code) i op.

(** [r] is read on some path from [i] before it is written. *)
Inductive live_at (code : list Op.op) (r : nat) : nat → Prop :=
  | live_use i op : code !! i = Some op → r ∈ use_slots op → live_at code r i
  | live_through i op j :
      code !! i = Some op → r ∉ def_slots op → j ∈ succs (length code) i op →
      live_at code r j → live_at code r i.

(** Every register an instruction names is below [n]. *)
Definition regs_ok (n : nat) (op : Op.op) : Prop :=
  Forall (λ r, as_usize r < n) (uses (op_facts op) ++ op_defs op).
Definition code_ok (n : nat) (code : list Op.op) : Prop := Forall (regs_ok n) code.

#[export] Instance code_ok_dec n code : Decision (code_ok n code).
Proof. unfold code_ok, regs_ok. solve_decision. Defined.

Lemma elem_slots (l : list Reg) n r :
  Forall (λ r, as_usize r < n) l → r ∈ map as_usize l → r < n.
Proof. rewrite Forall_forall. by intros H (x & -> & ?%H)%list_elem_of_fmap. Qed.

Lemma regs_ok_use n op r : regs_ok n op → r ∈ use_slots op → r < n.
Proof. intros [H _]%Forall_app. by apply elem_slots. Qed.
Lemma regs_ok_def n op r : regs_ok n op → r ∈ def_slots op → r < n.
Proof. intros [_ H]%Forall_app. by apply elem_slots. Qed.

(** ** One instruction *)

Section Code.
Context (code : list Op.op) (n : nat) (Hok : code_ok n code).
Notation len := (length code).

(** The set-level transfer functions, from the successors' entry sets. *)
Definition out_of (ins : list BitSet.bitset) (i : nat) (op : Op.op) (r : nat) : Prop :=
  ∃ j s, j ∈ succs len i op ∧ ins !! j = Some s ∧ r ∈ s.
Definition in_of (ins : list BitSet.bitset) (i : nat) (op : Op.op) (r : nat) : Prop :=
  r ∈ use_slots op ∨ (out_of ins i op r ∧ r ∉ def_slots op).

Definition sets_ok (ins : list BitSet.bitset) : Prop := length ins = len ∧ Forall (within n) ins.

Lemma sets_ok_lookup ins i : sets_ok ins → i < len → ∃ s, ins !! i = Some s ∧ within n s.
Proof.
  intros [Hl Hw] Hi. destruct (lookup_lt_is_Some_2 ins i) as [s Hs]; [lia|].
  exists s. split; [done|]. by eapply Forall_lookup_1 in Hw.
Qed.

Lemma union_at_spec ins j out :
  sets_ok ins → within n out →
  ∃ out', union_at len ins j out = Some out' ∧ within n out' ∧
    ∀ r, r ∈ out' ↔ r ∈ out ∨ (j < len ∧ ∃ s, ins !! j = Some s ∧ r ∈ s).
Proof.
  intros Hins Hout. unfold union_at. destruct (Nat.ltb_spec j len) as [Hj|Hj].
  - destruct (sets_ok_lookup ins j Hins Hj) as (s & Hs & Hws). rewrite Hs. simpl.
    destruct (union_spec n out s Hout Hws) as [Hw Hr]. eexists. split; [done|]. split; [done|].
    intros r. rewrite Hr. split; [intros [?|?]; [by left|right; by eauto]|].
    intros [?|(_ & ? & [= <-] & ?)]; auto.
  - exists out. split; [done|]. split; [done|]. intros r. split; [by left|].
    intros [?|[? _]]; [done|lia].
Qed.

Lemma flow_out_spec ins i op :
  sets_ok ins →
  ∃ out, flow_out len n ins i (op_facts op) = Some out ∧ within n out ∧
    ∀ r, r ∈ out ↔ out_of ins i op r.
Proof.
  intros Hins. unfold flow_out, out_of, succs. generalize (op_facts op) as f; intros f.
  assert (∃ o, (if fallthrough f then union_at len ins (i + 1) (BitSet.new n)
                else Some (BitSet.new n)) = Some o ∧ within n o ∧
            ∀ r, r ∈ o ↔ fallthrough f = true ∧ i + 1 < len ∧
                           ∃ s, ins !! (i + 1) = Some s ∧ r ∈ s) as (o & -> & Ho & Hor).
  { destruct (fallthrough f).
    - destruct (union_at_spec ins (i + 1) (BitSet.new n)) as (o & -> & Ho & Hr);
        [done|auto with noeta|]. exists o. split; [done|]. split; [done|]. intros r. rewrite Hr.
      split; [by intros [?%elem_new|?]|]. intros [_ ?]. by right.
    - exists (BitSet.new n). split; [done|]. split; [auto with noeta|].
      intros r. split; [by intros ?%elem_new|by intros []]. }
  simpl. destruct (fold_opt_adds (λ t : N, union_at len ins (as_usize t)) (λ _, True) (within n)
    (λ s r, r ∈ s) (λ t r, as_usize t < len ∧ ∃ s, ins !! as_usize t = Some s ∧ r ∈ s)
    (targets f) o) as (out & -> & Hout & Hr);
    [intros t s _ Hs; by apply union_at_spec|by apply Forall_true|done|].
  exists out. split; [done|]. split; [done|]. intros r. rewrite Hr, Hor.
  setoid_rewrite list_elem_of_filter. setoid_rewrite elem_of_app. split.
  - intros [(Hf & Hi & s & ? & ?)|(t & Ht & Hl & s & ? & ?)].
    + exists (i + 1), s. rewrite Hf. split_and!; try done. left. by apply list_elem_of_singleton.
    + exists (as_usize t), s. split_and!; try done. right. apply list_elem_of_fmap. by exists t.
  - intros (j & s & (Hj & [Hi|Ht]) & ? & ?).
    + left. destruct (fallthrough f); [|by apply elem_of_nil in Hi].
      apply list_elem_of_singleton in Hi as ->. by eauto.
    + right. apply list_elem_of_fmap in Ht as (t & -> & ?). by eauto 8.
Qed.

Lemma flow_in_spec ins i op out :
  regs_ok n op → within n out → (∀ r, r ∈ out ↔ out_of ins i op r) →
  ∃ s, flow_in (op_facts op) (extra_defs op) out = Some s ∧ within n s ∧
    ∀ r, r ∈ s ↔ in_of ins i op r.
Proof.
  intros [Hu Hd]%Forall_app Hout Hr. unfold flow_in.
  change (option_list (def (op_facts op)) ++ option_list (extra_defs op)) with (op_defs op).
  destruct (fold_opt_adds (λ d : N, BitSet.remove (as_usize d)) (λ r, as_usize r < n) (within n)
    (λ s r, r ∉ s) (λ d r, r = as_usize d) (op_defs op) out) as (s & -> & Hs & Hsr);
    [|done|done|].
  { intros d s Hdn Hs. destruct (remove_spec n (as_usize d) s Hs Hdn) as (s' & ? & ? & Hj).
    exists s'. split_and!; try done. intros r. rewrite Hj.
    destruct (decide (r ∈ s)), (decide (r = as_usize d)); naive_solver. }
  simpl. destruct (fold_opt_adds (λ u : N, BitSet.insert (as_usize u)) (λ r, as_usize r < n) (within n)
    (λ s r, r ∈ s) (λ d r, r = as_usize d) (uses (op_facts op)) s) as (s' & -> & Hs' & Hsr');
    [by intros u t Hun Ht; apply insert_spec|done|done|].
  exists s'. split_and!; try done. intros r. rewrite Hsr'. unfold in_of, use_slots, def_slots.
  rewrite !list_elem_of_fmap, <-Hr. specialize (Hsr r).
  destruct (decide (r ∈ s)), (decide (r ∈ out)); naive_solver.
Qed.

(** ** The invariant of the fixpoint *)

(** Entry sets hold only live registers, and the transfer functions only grow them. *)
Record good (s : Flow) : Prop := {
  good_in : sets_ok (fl_in s);
  good_out : sets_ok (fl_out s);
  good_live : ∀ i t r, fl_in s !! i = Some t → r ∈ t → live_at code r i;
  good_below : ∀ i op t r,
    code !! i = Some op → fl_in s !! i = Some t → r ∈ t → in_of (fl_in s) i op r;
  good_below_out : ∀ i op t r,
    code !! i = Some op → fl_out s !! i = Some t → r ∈ t → out_of (fl_in s) i op r;
}.

(** The equations hold at [i]. *)
Definition stable (s : Flow) (i : nat) : Prop :=
  ∀ op, code !! i = Some op → ∃ tin tout, fl_in s !! i = Some tin ∧ fl_out s !! i = Some tout ∧
    (∀ r, r ∈ tin ↔ in_of (fl_in s) i op r) ∧ (∀ r, r ∈ tout ↔ out_of (fl_in s) i op r).

Definition total (s : Flow) : nat :=
  sum_list_with cardinal (fl_in s) + sum_list_with cardinal (fl_out s).

Lemma total_bound s : good s → total s ≤ 2 * len * n.
Proof.
  intros [[Hl1 Hw1] [Hl2 Hw2] _ _ _]. unfold total.
  assert (Hb : ∀ l, Forall (within n) l → sum_list_with cardinal l ≤ length l * n).
  { intros l H. apply sum_list_with_bound. eapply Forall_impl; [done|apply cardinal_bound]. }
  assert (H1 := Hb _ Hw1). assert (H2 := Hb _ Hw2). rewrite Hl1 in H1. rewrite Hl2 in H2. lia.
Qed.

Lemma out_of_mono ins i t t' j op r :
  ins !! i = Some t → (∀ r, r ∈ t → r ∈ t') → out_of ins j op r → out_of (<[i := t']> ins) j op r.
Proof.
  intros Hi Hsub (k & s & Hk & Hs & Hr). unfold out_of. destruct (decide (k = i)) as [->|Hne].
  - exists i, t'. rewrite list_lookup_insert_eq by (by eapply lookup_lt_Some).
    simplify_eq. auto.
  - exists k, s. by rewrite list_lookup_insert_ne by done.
Qed.

Lemma in_of_mono ins i t t' j op r :
  ins !! i = Some t → (∀ r, r ∈ t → r ∈ t') → in_of ins j op r → in_of (<[i := t']> ins) j op r.
Proof. intros Hi Hsub [?|[? ?]]; [by left|right]. eauto using out_of_mono. Qed.

Lemma sets_ok_insert ins i t : sets_ok ins → within n t → sets_ok (<[i := t]> ins).
Proof. intros [Hl Hw] Ht. split; [by rewrite length_insert|by apply Forall_insert]. Qed.

(** What one visit computes. *)
Lemma visit_ok s i op :
  good s → code !! i = Some op →
  ∃ tin tout tin' tout',
    fl_in s !! i = Some tin ∧ fl_out s !! i = Some tout ∧
    flow_visit code n i s = Some (mkFlow (<[i := tin']> (fl_in s)) (<[i := tout']> (fl_out s))
      (fl_changed s || bool_decide (tout' ≠ tout) || bool_decide (tin' ≠ tin))) ∧
    within n tin ∧ within n tout ∧ within n tin' ∧ within n tout' ∧
    (∀ r, r ∈ tin' ↔ in_of (fl_in s) i op r) ∧ (∀ r, r ∈ tout' ↔ out_of (fl_in s) i op r).
Proof using Hok.
  intros Hg Hop. assert (Hi : i < len) by by eapply lookup_lt_Some.
  destruct (sets_ok_lookup _ i (good_in s Hg) Hi) as (tin & Hin & Hwin).
  destruct (sets_ok_lookup _ i (good_out s Hg) Hi) as (tout & Hout & Hwout).
  destruct (flow_out_spec (fl_in s) i op (good_in s Hg)) as (tout' & Ho & Hwo & Hro).
  destruct (flow_in_spec (fl_in s) i op tout') as (tin' & Hi' & Hwi & Hri); [|done..|].
  { by eapply Forall_lookup_1 in Hop. }
  exists tin, tout, tin', tout'. split_and!; try done.
  unfold flow_visit. rewrite Hop. cbn -[op_facts]. by rewrite Ho, Hout, Hin; simpl; rewrite Hi'.
Qed.

(** Growing the entry set of [i] keeps the invariant. *)
Lemma good_visit s i op tin tout tin' tout' ch :
  good s → code !! i = Some op →
  fl_in s !! i = Some tin → fl_out s !! i = Some tout →
  within n tin' → within n tout' →
  (∀ r, r ∈ tin' ↔ in_of (fl_in s) i op r) → (∀ r, r ∈ tout' ↔ out_of (fl_in s) i op r) →
  good (mkFlow (<[i := tin']> (fl_in s)) (<[i := tout']> (fl_out s)) ch).
Proof.
  intros Hg Hop Hin Hout Hwi Hwo Hri Hro.
  assert (Hsub : ∀ r, r ∈ tin → r ∈ tin').
  { intros r Hr. apply Hri. by eapply good_below. }
  split; simpl; [apply sets_ok_insert; [apply Hg|done]..| | |].
  - intros j t r Hj Hr. apply list_lookup_insert_Some in Hj as [(-> & -> & _)|[_ Hj]];
      [|by eapply good_live].
    apply Hri in Hr as [Hu|[(k & u & Hk & Hu & Hru) Hd]]; [by eapply live_use|].
    eapply live_through; [done..|]. by eapply good_live.
  - intros j op' t r Hop' Hj Hr. eapply in_of_mono; [done..|].
    apply list_lookup_insert_Some in Hj as [(-> & -> & _)|[_ Hj]]; [|by eapply good_below].
    simplify_eq. by apply Hri.
  - intros j op' t r Hop' Hj Hr. eapply out_of_mono; [done..|].
    apply list_lookup_insert_Some in Hj as [(-> & -> & _)|[_ Hj]]; [|by eapply good_below_out].
    simplify_eq. by apply Hro.
Qed.

(** What a visit does to the state: it grows, or the equations already held. *)
Record progress (s s' : Flow) (at_ : nat → Prop) : Prop := {
  pr_good : good s';
  pr_grow : total s ≤ total s';
  pr_same : fl_changed s' = false →
    fl_changed s = false ∧ fl_in s' = fl_in s ∧ fl_out s' = fl_out s ∧ ∀ i, at_ i → stable s i;
  pr_strict : fl_changed s = false → fl_changed s' = true → total s < total s';
}.

Lemma visit_spec s i :
  good s → i < len → ∃ s', flow_visit code n i s = Some s' ∧ progress s s' (λ j, j = i).
Proof using Hok.
  intros Hg Hi. destruct (lookup_lt_is_Some_2 code i Hi) as [op Hop].
  destruct (visit_ok s i op Hg Hop)
    as (tin & tout & tin' & tout' & Hin & Hout & -> & Hw1 & Hw2 & Hw3 & Hw4 & Hri & Hro).
  assert (Hs1 : ∀ r, r ∈ tin → r ∈ tin') by (intros r Hr; apply Hri; by eapply good_below).
  assert (Hs2 : ∀ r, r ∈ tout → r ∈ tout') by (intros r Hr; apply Hro; by eapply good_below_out).
  assert (Hc1 := cardinal_mono _ _ Hs1). assert (Hc2 := cardinal_mono _ _ Hs2).
  assert (Hi1 := sum_list_with_insert cardinal _ _ _ tin' Hin).
  assert (Hi2 := sum_list_with_insert cardinal _ _ _ tout' Hout).
  eexists. split; [done|]. split; unfold total; simpl.
  - by eapply good_visit.
  - lia.
  - intros [[-> H1%bool_decide_eq_false]%orb_false_iff H2%bool_decide_eq_false]%orb_false_iff.
    apply dec_stable in H1 as ->. apply dec_stable in H2 as ->.
    rewrite !list_insert_id by done. split_and!; try done.
    intros j -> op' Hop'. simplify_eq. eauto 10.
  - intros -> [H%bool_decide_eq_true|H%bool_decide_eq_true]%orb_true_iff; simpl in *.
    + assert (Hlt := cardinal_grows n tout tout' Hw2 Hw4 Hs2 (not_eq_sym H)). lia.
    + assert (Hlt := cardinal_grows n tin tin' Hw1 Hw3 Hs1 (not_eq_sym H)). lia.
Qed.

Lemma progress_trans s1 s2 s3 at1 at2 :
  progress s1 s2 at1 → progress s2 s3 at2 → progress s1 s3 (λ i, at1 i ∨ at2 i).
Proof.
  intros [Hg1 Ht1 Hs1 Hc1] [Hg2 Ht2 Hs2 Hc2]. split; [done|lia| |].
  - intros (Hf & Hi & Ho & Hst)%Hs2. destruct (Hs1 Hf) as (Hf1 & Hi1 & Ho1 & Hst1).
    split_and!; [done|congruence..|]. intros i [Hi'|Hi']; [by apply Hst1|].
    specialize (Hst i Hi'). unfold stable in *. by rewrite <-Hi1, <-Ho1.
  - intros Hf Ht. destruct (fl_changed s2) eqn:E.
    + specialize (Hc1 Hf eq_refl). lia.
    + specialize (Hc2 eq_refl Ht). lia.
Qed.

Lemma visits_spec l s :
  Forall (λ i, i < len) l → good s →
  ∃ s', fold_opt (flow_visit code n) l s = Some s' ∧ progress s s' (λ i, i ∈ l).
Proof using Hok.
  intros Hl. revert s. induction Hl as [|i l Hi Hl IH]; intros s Hg; simpl.
  { exists s. split; [done|]. split; [done|lia| |congruence]. intros ->.
    split_and!; try done. by intros i ?%elem_of_nil. }
  destruct (visit_spec s i Hg Hi) as (s1 & -> & H1).
  destruct (IH s1 (pr_good _ _ _ H1)) as (s2 & -> & H2). exists s2. split; [done|].
  destruct (progress_trans _ _ _ _ _ H1 H2) as [Hg' Ht Hs Hc]. split; try done.
  intros (? & ? & ? & Hst)%Hs. split_and!; try done.
  intros j Hj. apply Hst. by apply elem_of_cons.
Qed.

Definition unchanged (s : Flow) : Flow := mkFlow (fl_in s) (fl_out s) false.

Lemma pass_spec s :
  good s → ∃ s', flow_pass code n s = Some s' ∧ progress (unchanged s) s' (λ i, i < len).
Proof using Hok.
  intros Hg. destruct (visits_spec (reverse (seq 0 len)) (unchanged s)) as (s' & Hs' & Hp).
  - apply Forall_reverse, Forall_forall. intros i ?%elem_of_seq. lia.
  - by destruct Hg; split.
  - exists s'. split; [done|]. destruct Hp as [? ? Hs ?]. split; try done.
    intros (? & ? & ? & Hst)%Hs. split_and!; try done. intros i Hi. apply Hst.
    rewrite elem_of_reverse, elem_of_seq. lia.
Qed.

(** The loop reaches a state where every equation holds. *)
Lemma loop_spec fuel s :
  good s → 2 * len * n < fuel + total s → (fl_changed s = false → ∀ i, i < len → stable s i) →
  ∃ s', flow_loop fuel code n s = Some s' ∧ good s' ∧ ∀ i, i < len → stable s' i.
Proof using Hok.
  revert s. induction fuel as [|fuel IH]; intros s Hg Hf Hst.
  { assert (Hb := total_bound s Hg). lia. }
  simpl. destruct (fl_changed s) eqn:E; [|by eauto].
  destruct (pass_spec s Hg) as (s' & -> & [Hg' Ht Hs Hc]). simpl.
  destruct (fl_changed s') eqn:E'.
  - apply IH; [done| |congruence]. specialize (Hc eq_refl eq_refl). unfold total in *. simpl in *. lia.
  - destruct (Hs eq_refl) as (_ & Hi & Ho & Hst'). simpl in *.
    assert (Hst'' : ∀ i, i < len → stable s' i).
    { intros i Hi'. specialize (Hst' i Hi'). unfold stable in *. simpl in *. by rewrite Hi, Ho. }
    destruct fuel; simpl; rewrite E'; by eauto.
Qed.

Lemma start_good : good (flow_start len n).
Proof.
  assert (Hs : sets_ok (replicate len (BitSet.new n))).
  { split; [by rewrite length_replicate|]. apply Forall_replicate, within_new. }
  split; simpl; [done..| | |];
    intros; match goal with H : replicate _ _ !! _ = Some _ |- _ =>
      apply lookup_replicate in H as [-> _] end; exfalso; by eapply elem_new.
Qed.

(** ** The analysis *)

Lemma stable_live s : good s → (∀ i, i < len → stable s i) →
  ∀ i t r, fl_in s !! i = Some t → r ∈ t ↔ live_at code r i.
Proof.
  intros Hg Hst i t r Hi. split; [by eapply good_live|]. intros Hl. revert t Hi.
  induction Hl as [i op Hop Hu|i op j Hop Hd Hj Hl IH]; intros t Hi;
    destruct (Hst i (lookup_lt_Some _ _ _ Hop) op Hop) as (tin & tout & Hin & Hout & Hri & Hro);
    simplify_eq; apply Hri; [by left|right].
  split; [|done].
  assert (Hjl : j < len) by (unfold succs in Hj; by apply list_elem_of_filter in Hj as [? _]).
  destruct (sets_ok_lookup _ j (good_in s Hg) Hjl) as (u & Hu & _). exists j, u. auto.
Qed.

Lemma analyze_sets :
  ∃ L, analyze code n = Some L ∧ sets_ok (live_out L) ∧
    ∀ i op t r, code !! i = Some op → live_out L !! i = Some t →
      r ∈ t ↔ ∃ j, j ∈ succs len i op ∧ live_at code r j.
Proof using Hok.
  destruct (loop_spec (flow_fuel len n) (flow_start len n)) as (s & Hs & Hg & Hst);
    [apply start_good|unfold flow_fuel; lia|done|].
  unfold analyze. rewrite Hs. simpl. eexists. split; [done|]. split; [apply Hg|].
  intros i op t r Hop Ht. simpl in Ht.
  destruct (Hst i (lookup_lt_Some _ _ _ Hop) op Hop) as (tin & tout & Hin & Hout & _ & Hro).
  simplify_eq. rewrite Hro. unfold out_of. split.
  - intros (j & u & Hj & Hu & Hr). exists j. split; [done|]. by eapply stable_live.
  - intros (j & Hj & Hl).
    assert (Hjl : j < len) by (unfold succs in Hj; by apply list_elem_of_filter in Hj as [? _]).
    destruct (sets_ok_lookup _ j (good_in s Hg) Hjl) as (u & Hu & _). exists j, u.
    split_and!; try done. by eapply stable_live.
Qed.

(** The entry sets at the end of the fixpoint. *)
Definition entry_sets : option (list BitSet.bitset) :=
  s ← flow_loop (flow_fuel len n) code n (flow_start len n); Some (fl_in s).

Lemma entry_sets_spec :
  ∃ ins, entry_sets = Some ins ∧ sets_ok ins ∧
    ∀ i t r, ins !! i = Some t → r ∈ t ↔ live_at code r i.
Proof using Hok.
  destruct (loop_spec (flow_fuel len n) (flow_start len n)) as (s & Hs & Hg & Hst);
    [apply start_good|unfold flow_fuel; lia|done|].
  unfold entry_sets. rewrite Hs. eexists. split; [done|]. split; [apply Hg|].
  by apply stable_live.
Qed.
End Code.
End Flow.
