(* ===== verification/RegallocColor.v ===== *)
(** The interference graph and its colouring: which pairs [build_interference] and the
    pins of [coalesce] connect, and that [color] separates them with colours below the
    number of registers. *)
From S2P Require Import Prelude Span Ir Bytecode Regalloc RegallocSets RegallocLive.
From stdpp Require Import options.
Open Scope nat_scope.

#[local] Opaque op_facts.

Section Graph.
Context (n : nat).

(** Adjacency lists over [0..n]. *)
Definition graph (adj : list BitSet.bitset) : Prop := length adj = n ∧ Forall (within n) adj.
Definition adjacent (adj : list BitSet.bitset) (x y : nat) : Prop :=
  ∃ s, adj !! x = Some s ∧ y ∈ s.
Definition pair_adjacent (adj : list BitSet.bitset) (p : nat * nat) : Prop := adjacent adj p.1 p.2.

Lemma graph_lookup adj x : graph adj → x < n → ∃ s, adj !! x = Some s ∧ within n s.
Proof.
  intros [Hl Hw] Hx. destruct (lookup_lt_is_Some_2 adj x) as [s Hs]; [lia|].
  exists s. split; [done|]. by eapply Forall_lookup_1 in Hw.
Qed.

Lemma graph_empty : graph (replicate n (BitSet.new n)).
Proof. split; [by rewrite length_replicate|]. apply Forall_replicate, within_new. Qed.

Lemma adjacent_empty m x y : ¬ adjacent (replicate m (BitSet.new n)) x y.
Proof. intros (s & [-> _]%lookup_replicate & ?%elem_new). done. Qed.

Lemma adjacent_below adj x y : graph adj → adjacent adj x y → x < n ∧ y < n.
Proof.
  intros [Hl Hw] (s & Hs & Hy). split; [apply lookup_lt_Some in Hs; lia|].
  eapply Forall_lookup_1 in Hw; [|done]. by eapply within_below.
Qed.

(** [adj[a].insert(b)]. *)
Lemma insert_adjacent adj a b sa :
  graph adj → adj !! a = Some sa → b < n →
  ∃ s', BitSet.insert b sa = Some s' ∧ graph (<[a := s']> adj) ∧
    ∀ p, pair_adjacent (<[a := s']> adj) p ↔ pair_adjacent adj p ∨ p = (a, b).
Proof.
  intros [Hl Hw] Ha Hb. destruct (insert_spec n b sa) as (s' & Hs' & Hw' & Hj);
    [by eapply Forall_lookup_1 in Hw|done|].
  exists s'. split; [done|]. split; [split; [by rewrite length_insert|by apply Forall_insert]|].
  intros [x y]. unfold pair_adjacent, adjacent. simpl.
  destruct (decide (x = a)) as [->|Hne].
  - rewrite list_lookup_insert_eq by (by eapply lookup_lt_Some). rewrite Ha. split.
    + intros (? & [= <-] & [?| ->]%Hj); [left; by eauto|by right].
    + intros [(? & [= <-] & ?)|[= ->]]; eexists; (split; [done|]); apply Hj; auto.
  - rewrite list_lookup_insert_ne by done. split; [by left|]. by intros [?|[= ]].
Qed.

Lemma link_spec a b adj :
  graph adj → a < n → b < n →
  ∃ adj', link a b adj = Some adj' ∧ graph adj' ∧
    ∀ p, pair_adjacent adj' p ↔ pair_adjacent adj p ∨ (p = (a, b) ∨ p = (b, a)).
Proof.
  intros Hg Ha Hb. unfold link. destruct (graph_lookup adj a Hg Ha) as (sa & Hsa & _).
  destruct (insert_adjacent adj a b sa Hg Hsa Hb) as (sa' & Hi & Hg' & Hp). rewrite Hsa. simpl.
  rewrite Hi. simpl. destruct (graph_lookup _ b Hg' Hb) as (sb & Hsb & _).
  destruct (insert_adjacent _ b a sb Hg' Hsb Ha) as (sb' & Hi' & Hg'' & Hp').
  rewrite Hsb. simpl. rewrite Hi'. simpl. eexists. split; [done|]. split; [done|].
  intros p. rewrite Hp', Hp. tauto.
Qed.

Lemma add_edge_spec a b adj :
  graph adj → a < n → b < n →
  ∃ adj', add_edge a b adj = Some adj' ∧ graph adj' ∧
    ∀ p, pair_adjacent adj' p ↔ pair_adjacent adj p ∨ (a ≠ b ∧ (p = (a, b) ∨ p = (b, a))).
Proof.
  intros Hg Ha Hb. unfold add_edge. destruct (Nat.eqb_spec a b) as [->|Hne].
  - exists adj. split_and!; [done..|]. intros p. split; [by left|]. by intros [?|[? _]].
  - destruct (link_spec a b adj Hg Ha Hb) as (adj' & ? & ? & Hp). exists adj'.
    split_and!; [done..|]. intros p. rewrite Hp. tauto.
Qed.

(** The edges of [pin]. *)
Lemma pin_spec reg adj :
  graph adj → as_usize reg < n →
  ∃ adj', pin n reg adj = Some adj' ∧ graph adj' ∧
    ∀ p, pair_adjacent adj' p ↔ pair_adjacent adj p ∨
      (p.1 ≠ p.2 ∧ p.1 < n ∧ p.2 < n ∧ (p.1 = as_usize reg ∨ p.2 = as_usize reg)).
Proof.
  intros Hg Hr. unfold pin. set (r := as_usize reg) in *.
  destruct (fold_opt_adds (λ other adj, if other =? r then Some adj else link r other adj)
    (λ o, o < n) graph pair_adjacent (λ o p, o ≠ r ∧ (p = (r, o) ∨ p = (o, r))) (seq 0 n) adj)
    as (adj' & Hf & Hg' & Hp); [|apply Forall_forall; intros o ?%elem_of_seq; lia|done|].
  { intros o a Ho Ha. destruct (Nat.eqb_spec o r) as [->|Hne].
    - exists a. split_and!; [done..|]. intros p. split; [by left|]. by intros [?|[? _]].
    - destruct (link_spec r o a Ha Hr Ho) as (a' & ? & ? & Hp). exists a'.
      split_and!; [done..|]. intros p. rewrite Hp. tauto. }
  exists adj'. split_and!; [done..|]. intros [x y]. rewrite Hp. simpl.
  setoid_rewrite elem_of_seq. split.
  - intros [?|(o & ? & ? & [[= -> ->]|[= -> ->]])]; [by left|right..]; split_and!; auto; lia.
  - intros [?|(Hne & Hx & Hy & [->| ->])]; [by left|right..].
    + exists y. split; [lia|]. auto.
    + exists x. split; [lia|]. auto.
Qed.

Lemma pins_spec regs adj :
  graph adj → Forall (λ r, as_usize r < n) regs →
  ∃ adj', fold_opt (pin n) regs adj = Some adj' ∧ graph adj' ∧
    ∀ p, pair_adjacent adj' p ↔ pair_adjacent adj p ∨
      (p.1 ≠ p.2 ∧ p.1 < n ∧ p.2 < n ∧ (p.1 ∈ map as_usize regs ∨ p.2 ∈ map as_usize regs)).
Proof.
  intros Hg Hr. destruct (fold_opt_adds (pin n) (λ r, as_usize r < n) graph pair_adjacent
    (λ reg p, p.1 ≠ p.2 ∧ p.1 < n ∧ p.2 < n ∧ (p.1 = as_usize reg ∨ p.2 = as_usize reg))
    regs adj) as (adj' & ? & ? & Hp); [intros r a Ha Hra; by apply pin_spec|done..|].
  exists adj'. split_and!; [done..|]. intros p. rewrite Hp, !list_elem_of_fmap. naive_solver.
Qed.
End Graph.

(** ** [build_interference] *)

Section Build.
Context {P : CodePayloads} (code : list Op.op) (n : nat) (Hok : code_ok n code).

(** [x] is written by an instruction while [y] is read, written or live after it. *)
Definition clash (x y : nat) : Prop :=
  ∃ i op, code !! i = Some op ∧ x ∈ def_slots op ∧
    (y ∈ use_slots op ∨ y ∈ def_slots op ∨
     ∃ j, j ∈ succs (length code) i op ∧ live_at code y j).

(** The undirected closure of an edge relation on pairs. *)
Definition both_ways (R : nat → nat → Prop) (p : nat * nat) : Prop :=
  p.1 ≠ p.2 ∧ (R p.1 p.2 ∨ R p.2 p.1).

Lemma edges_spec d l adj :
  graph n adj → d < n → Forall (λ y, y < n) l →
  ∃ adj', fold_opt (λ y, add_edge d y) l adj = Some adj' ∧ graph n adj' ∧
    ∀ p, pair_adjacent adj' p ↔ pair_adjacent adj p ∨ both_ways (λ x y, x = d ∧ y ∈ l) p.
Proof.
  intros Hg Hd Hl. destruct (fold_opt_adds (λ y, add_edge d y) (λ y, y < n) (graph n) pair_adjacent
    (λ y p, d ≠ y ∧ (p = (d, y) ∨ p = (y, d))) l adj) as (adj' & ? & ? & Hp);
    [intros y a Hy Ha; by apply add_edge_spec|done|done|].
  exists adj'. split_and!; [done..|]. intros [x y]. rewrite Hp. unfold both_ways. simpl. split.
  - intros [?|(z & ? & ? & [[= -> ->]|[= -> ->]])]; auto.
  - intros [?|(Hne & [[-> ?]|[-> ?]])]; [by left|right..]; eauto 6.
Qed.

Lemma fold_opt_map {A B S} (f : B → S → option S) (g : A → B) l s :
  fold_opt (λ a, f (g a)) l s = fold_opt f (map g l) s.
Proof. revert s. induction l as [|a l IH]; intros s; simpl; [done|]. by case_match. Qed.

Lemma reg_edges_spec d (l : list N) adj :
  graph n adj → d < n → Forall (λ y, as_usize y < n) l →
  ∃ adj', fold_opt (λ y, add_edge d (as_usize y)) l adj = Some adj' ∧ graph n adj' ∧
    ∀ p, pair_adjacent adj' p ↔
      pair_adjacent adj p ∨ both_ways (λ x y, x = d ∧ y ∈ map as_usize l) p.
Proof. intros Hg Hd Hl. rewrite fold_opt_map. apply edges_spec; [done..|by apply Forall_fmap]. Qed.

Lemma def_edges_spec out op d adj :
  graph n adj → within n out → regs_ok n op → as_usize d < n →
  ∃ adj', def_edges out (uses (op_facts op)) (op_defs op) d adj = Some adj' ∧ graph n adj' ∧
    ∀ p, pair_adjacent adj' p ↔ pair_adjacent adj p ∨
      both_ways (λ x y, x = as_usize d ∧ (y ∈ use_slots op ∨ y ∈ def_slots op ∨ y ∈ out)) p.
Proof.
  intros Hg Hout [Hu Hdd]%Forall_app Hd. unfold def_edges.
  destruct (edges_spec (as_usize d) (BitSet.iter out) adj) as (a1 & -> & Hg1 & H1); [done..| |].
  { apply Forall_forall. intros y ?%elem_iter. by eapply within_below. }
  simpl. destruct (reg_edges_spec (as_usize d) (uses (op_facts op)) a1) as (a2 & -> & Hg2 & H2);
    [done..|].
  simpl. destruct (reg_edges_spec (as_usize d) (op_defs op) a2) as (a3 & -> & Hg3 & H3); [done..|].
  exists a3. split; [done|]. split; [done|]. intros p. rewrite H3, H2, H1. unfold both_ways.
  rewrite !elem_iter. unfold use_slots, def_slots. tauto.
Qed.

(** All the edges of the instruction at [i]. *)
Lemma op_edges_spec L i op adj :
  graph n adj → sets_ok code n (live_out L) → code !! i = Some op →
  (∀ t r, live_out L !! i = Some t → r ∈ t ↔ ∃ j, j ∈ succs (length code) i op ∧ live_at code r j) →
  ∃ adj', (out ← live_out L !! i;
           fold_opt (def_edges out (uses (op_facts op)) (op_defs op)) (op_defs op) adj) = Some adj' ∧
    graph n adj' ∧
    ∀ p, pair_adjacent adj' p ↔ pair_adjacent adj p ∨
      both_ways (λ x y, x ∈ def_slots op ∧ (y ∈ use_slots op ∨ y ∈ def_slots op ∨
        ∃ j, j ∈ succs (length code) i op ∧ live_at code y j)) p.
Proof using Hok.
  intros Hg HL Hop Hr. assert (Hro : regs_ok n op) by by eapply Forall_lookup_1 in Hop.
  destruct (sets_ok_lookup code n _ i HL) as (out & Hout & Hw); [by eapply lookup_lt_Some|].
  rewrite Hout. simpl.
  assert (Hy : ∀ y, y ∈ out ↔ ∃ j, j ∈ succs (length code) i op ∧ live_at code y j) by auto.
  destruct (fold_opt_adds (def_edges out (uses (op_facts op)) (op_defs op)) (λ d, as_usize d < n)
    (graph n) pair_adjacent (λ d, both_ways (λ x y, x = as_usize d ∧
      (y ∈ use_slots op ∨ y ∈ def_slots op ∨ y ∈ out))) (op_defs op) adj)
    as (adj' & -> & Hg' & Hp);
    [intros d a Hd Ha; by apply def_edges_spec|by apply Forall_app in Hro as [_ ?]|done|].
  exists adj'. split_and!; [done..|]. intros [x y]. rewrite Hp. unfold both_ways. simpl.
  rewrite <-!Hy. split.
  - intros [?|(d & Hd & Hne & H)]; [by left|right]. apply (list_elem_of_fmap_2 as_usize) in Hd.
    split; [done|]. destruct H as [[-> ?]|[-> ?]]; [left|right]; by split.
  - intros [?|(Hne & [[Hd ?]|[Hd ?]])]; [by left|right..];
      apply list_elem_of_fmap in Hd as (d & -> & Hd); exists d; auto.
Qed.

Lemma elem_enumerate {A} (l : list A) i a : (i, a) ∈ zip (seq 0 (length l)) l ↔ l !! i = Some a.
Proof.
  rewrite list_elem_of_lookup. setoid_rewrite lookup_zip_with_Some. split.
  - intros (j & x & y & [= -> ->] & (-> & _)%lookup_seq & ?). done.
  - intros H. exists i, i, a. split_and!; [done| |done]. apply lookup_seq.
    apply lookup_lt_Some in H. split; [done|lia].
Qed.

Lemma build_spec L :
  sets_ok code n (live_out L) →
  (∀ i op t r, code !! i = Some op → live_out L !! i = Some t →
     r ∈ t ↔ ∃ j, j ∈ succs (length code) i op ∧ live_at code r j) →
  ∃ adj, build_interference code L n = Some adj ∧ graph n adj ∧
    ∀ p, pair_adjacent adj p ↔ both_ways clash p.
Proof using Hok.
  intros HL Hr. unfold build_interference.
  destruct (fold_opt_adds (λ '(i, op) adj, out ← live_out L !! i;
      fold_opt (def_edges out (uses (op_facts op)) (op_defs op)) (op_defs op) adj)
    (λ '(i, op), code !! i = Some op) (graph n) pair_adjacent
    (λ '(i, op), both_ways (λ x y, x ∈ def_slots op ∧ (y ∈ use_slots op ∨ y ∈ def_slots op ∨
        ∃ j, j ∈ succs (length code) i op ∧ live_at code y j)))
    (zip (seq 0 (length code)) code) (replicate n (BitSet.new n))) as (adj & -> & Hg & Hp).
  - intros [i op] a Hop Ha. apply op_edges_spec; [done..|]. eauto.
  - apply Forall_forall. intros [i op]. apply elem_enumerate.
  - apply graph_empty.
  - exists adj. split_and!; [done..|]. intros p. rewrite Hp. split.
    + intros [H|([i op] & Hop%elem_enumerate & Hne & H)]; [by apply adjacent_empty in H|].
      split; [done|]. unfold clash. destruct H; [left|right]; eauto 6.
    + intros [Hne [(i & op & Hop & H)|(i & op & Hop & H)]]; right; exists (i, op);
        (split; [by apply elem_enumerate|]); (split; [done|]); [by left|by right].
Qed.
End Build.

(** ** [color] *)

Lemma lowest_free_spec taken c :
  let r := lowest_free taken c in
  c ≤ r ∧ r ≤ c + length taken ∧ taken !! (r - c) ≠ Some true ∧
  ∀ j, j < r - c → taken !! j = Some true.
Proof.
  revert c. induction taken as [|[] taken IH]; intros c; simpl.
  - split_and!; [lia..|done|lia].
  - destruct (IH (S c)) as (H1 & H2 & H3 & H4). set (r := lowest_free taken (S c)) in *.
    replace (r - c) with (S (r - S c)) by lia. split_and!; [lia..|done|].
    intros [|j] Hj; [done|]. apply H4. lia.
  - rewrite Nat.sub_diag. split_and!; [lia..|done|lia].
Qed.

Section Color.
Context (n np : nat) (adj : list BitSet.bitset) (Hn : (N.of_nat n < UNASSIGNED)%N).
Context (Hg : graph n adj) (Hirr : ∀ x, ¬ adjacent adj x x)
  (Hsym : ∀ x y, adjacent adj x y → adjacent adj y x).

Definition has_color (colors : list N) (x c : nat) : Prop := colors !! x = Some (N.of_nat c).

(** The colouring after registers below [m]: assigned below [m], proper, parameters fixed. *)
Record partial (m : nat) (colors : list N) : Prop := {
  pt_len : length colors = n;
  pt_set : ∀ x, x < n → x < m → ∃ c, has_color colors x c ∧ c < n;
  pt_unset : ∀ x, x < n → m ≤ x → colors !! x = Some UNASSIGNED;
  pt_param : ∀ x, x < n → x < np → has_color colors x x;
  pt_proper : ∀ x y c, adjacent adj x y → x < m → has_color colors x c → ¬ has_color colors y c;
}.

Lemma of_nat_assigned c : c < n → (N.of_nat c =? UNASSIGNED)%N = false.
Proof using Hn. intros. apply N.eqb_neq. lia. Qed.

Lemma has_color_inj colors x c c' : has_color colors x c → has_color colors x c' → c = c'.
Proof. unfold has_color. intros H1 H2. rewrite H1 in H2. injection H2. apply Nat2N.inj. Qed.

(** A colour below [n] of a register not yet coloured is impossible. *)
Lemma unset_no_color m colors x c :
  partial m colors → x < n → m ≤ x → c < n → ¬ has_color colors x c.
Proof using Hn.
  intros Hp Hx Hm Hc H. assert (Hu := pt_unset m colors Hp x Hx Hm).
  unfold has_color in H. rewrite H in Hu. injection Hu as Hu.
  assert (Ha := of_nat_assigned c Hc). by rewrite Hu, N.eqb_refl in Ha.
Qed.

(** What [taken] records. *)
Lemma taken_spec m colors r s :
  partial m colors → adj !! r = Some s →
  ∃ taken, fold_opt (mark_taken colors) (BitSet.iter s) (replicate n false) = Some taken ∧
    length taken = n ∧
    ∀ c, taken !! c = Some true ↔ ∃ nb, adjacent adj r nb ∧ nb < m ∧ has_color colors nb c.
Proof using Hn Hg.
  intros Hp Hs.
  destruct (fold_opt_adds (mark_taken colors) (λ nb, nb < n) (λ t, length t = n)
    (λ t c, t !! c = Some true) (λ nb c, nb < m ∧ has_color colors nb c)
    (BitSet.iter s) (replicate n false)) as (taken & Ht & Hl & Hc).
  - intros nb t Hnb Ht. unfold mark_taken. destruct (decide (nb < m)) as [Hm|Hm].
    + destruct (pt_set m colors Hp nb Hnb Hm) as (c & Hcol & Hcn). unfold has_color in *.
      rewrite Hcol. simpl. rewrite of_nat_assigned by done. unfold as_usize. rewrite Nat2N.id, Ht.
      destruct (Nat.ltb_spec c n); [|lia]. eexists. split; [done|].
      rewrite length_insert. split; [done|]. intros c'. destruct (decide (c' = c)) as [->|Hne].
      * rewrite list_lookup_insert_eq by lia. split; auto.
      * rewrite list_lookup_insert_ne by done. split; [by left|].
        intros [?|[_ [= ?%Nat2N.inj]]]; congruence.
    + rewrite (pt_unset m colors Hp nb) by lia. simpl. exists t.
      split_and!; [done..|]. intros c. split; [by left|]. by intros [?|[? _]].
  - apply Forall_forall. intros nb Hnb%elem_iter. eapply (adjacent_below n adj r); [done|].
    by exists s.
  - by rewrite length_replicate.
  - exists taken. split_and!; [done..|]. intros c. rewrite Hc. split.
    + intros [[? _]%lookup_replicate|(nb & Hnb%elem_iter & ?)]; [done|].
      exists nb. split; [by exists s|done].
    + intros (nb & (s' & Hs' & Hnb) & ?). right. exists nb. simplify_eq.
      by rewrite elem_iter.
Qed.

(** A register has fewer neighbours than there are colours. *)
Lemma some_color_free m colors r taken :
  partial m colors → r < n → length taken = n →
  (∀ c, taken !! c = Some true → ∃ nb, adjacent adj r nb ∧ nb < m ∧ has_color colors nb c) →
  lowest_free taken 0 < n.
Proof using Hn Hg Hirr.
  intros Hp Hr Hl Ht. destruct (lowest_free_spec taken 0) as (_ & H2 & _ & H4).
  rewrite Nat.sub_0_r, Nat.add_0_l, Hl in *.
  destruct (decide (lowest_free taken 0 = n)) as [Heq|]; [|lia]. exfalso.
  assert (Hincl : incl (map N.of_nat (seq 0 n)) (delete r colors)).
  { intros c Hc%list_elem_of_In. apply list_elem_of_fmap in Hc as (k & -> & Hk%elem_of_seq).
    apply list_elem_of_In. destruct (Ht k) as (nb & Hadj & Hm & Hcol); [apply H4; lia|].
    assert (nb ≠ r) by (intros ->; by apply (Hirr r)).
    apply list_elem_of_lookup. destruct (decide (nb < r)) as [|Hge].
    - exists nb. by rewrite list_lookup_delete, decide_True by done.
    - exists (nb - 1). rewrite list_lookup_delete, decide_False by lia.
      by replace (S (nb - 1)) with nb by lia. }
  apply NoDup_incl_length in Hincl.
  - rewrite length_map, length_seq, length_delete in Hincl
      by (apply lookup_lt_is_Some; rewrite (pt_len m colors Hp); done).
    rewrite (pt_len m colors Hp) in Hincl. lia.
  - apply NoDup_ListNoDup, NoDup_fmap_2; [intros ???; lia|apply NoDup_seq].
Qed.

Lemma color_one_spec r colors :
  partial r colors → np ≤ r → r < n →
  ∃ colors', color_one adj n r colors = Some colors' ∧ partial (S r) colors'.
Proof using Hn Hg Hirr Hsym.
  intros Hp Hnp Hr. destruct (graph_lookup n adj r Hg Hr) as (s & Hs & _).
  destruct (taken_spec r colors r s Hp Hs) as (taken & Ht & Hl & Hc).
  assert (Hfree : lowest_free taken 0 < n).
  { apply (some_color_free r colors r); [done..|]. intros c. apply Hc. }
  destruct (lowest_free_spec taken 0) as (_ & _ & H3 & _). rewrite Nat.sub_0_r in H3.
  set (c := lowest_free taken 0) in *.
  unfold color_one. rewrite Hs. simpl. rewrite Ht. simpl. rewrite (pt_len _ _ Hp).
  destruct (Nat.ltb_spec r n); [|lia]. eexists. split; [done|]. fold c.
  assert (Heq : has_color (<[r := N.of_nat c]> colors) r c).
  { unfold has_color. rewrite list_lookup_insert_eq; [done|]. by rewrite (pt_len _ _ Hp). }
  assert (Hne : ∀ x k, x ≠ r → has_color (<[r := N.of_nat c]> colors) x k ↔ has_color colors x k).
  { intros x k Hx. unfold has_color. by rewrite list_lookup_insert_ne. }
  assert (Hnb : ∀ y, adjacent adj r y → y < r → ¬ has_color colors y c).
  { intros y Hy Hyr Hcol. apply H3, Hc. by exists y. }
  assert (Hhi : ∀ y, y < n → y ≠ r → r ≤ y → ¬ has_color (<[r := N.of_nat c]> colors) y c).
  { intros y Hy Hyr Hge. rewrite Hne by done. by eapply unset_no_color. }
  split.
  - by rewrite length_insert, (pt_len _ _ Hp).
  - intros x Hx Hxr. destruct (decide (x = r)) as [->|Hxne]; [by exists c|].
    setoid_rewrite Hne; [|done]. apply (pt_set _ _ Hp); lia.
  - intros x Hx Hxr. rewrite list_lookup_insert_ne by lia. apply (pt_unset _ _ Hp); lia.
  - intros x Hx Hxp. apply Hne; [lia|]. by apply (pt_param _ _ Hp).
  - intros x y k Hxy Hxr Hcx Hcy. assert (Hb := adjacent_below n adj x y Hg Hxy).
    destruct (decide (x = r)) as [->|Hxne].
    + pose proof (has_color_inj _ _ _ _ Hcx Heq) as ->.
      assert (y ≠ r) by (intros ->; by apply (Hirr r)).
      destruct (decide (y < r)); [|apply (Hhi y) in Hcy; [done|lia|done|lia]].
      apply Hne in Hcy; [|done]. by eapply Hnb.
    + apply Hne in Hcx; [|done]. destruct (decide (y = r)) as [->|Hyne].
      * pose proof (has_color_inj _ _ _ _ Hcy Heq) as ->. eapply Hnb; [by apply Hsym| |done]. lia.
      * apply Hne in Hcy; [|done]. by eapply (pt_proper _ _ Hp x y); [|lia|..].
Qed.

Lemma color_from_spec r k colors :
  partial r colors → np ≤ r → r + k ≤ n →
  ∃ colors', fold_opt (color_one adj n) (seq r k) colors = Some colors' ∧ partial (r + k) colors'.
Proof using Hn Hg Hirr Hsym.
  revert r colors. induction k as [|k IH]; intros r colors Hp Hnp Hk; simpl.
  - exists colors. by rewrite Nat.add_0_r.
  - destruct (color_one_spec r colors Hp Hnp) as (c1 & -> & Hp1); [lia|].
    rewrite <-Nat.add_succ_comm. apply IH; [done|lia..].
Qed.

(** Parameters come first, each with its own number. *)
Lemma partial_start :
  partial np (map N.of_nat (seq 0 (np `min` n)) ++ replicate (n - np) UNASSIGNED).
Proof using Hn Hg Hirr.
  assert (Hlo : ∀ x, x < n → x < np →
    has_color (map N.of_nat (seq 0 (np `min` n)) ++ replicate (n - np) UNASSIGNED) x x).
  { intros x Hx Hp. unfold has_color. rewrite lookup_app_l by (rewrite length_map, length_seq; lia).
    rewrite list_lookup_fmap, lookup_seq_lt by lia. done. }
  split.
  - rewrite length_app, length_map, length_seq, length_replicate. lia.
  - intros x Hx Hp. exists x. auto.
  - intros x Hx Hp. rewrite lookup_app_r by (rewrite length_map, length_seq; lia).
    apply lookup_replicate. rewrite length_map, length_seq. split; [done|lia].
  - done.
  - intros x y c Hxy Hx Hcx Hcy. assert (Hb := adjacent_below n adj x y Hg Hxy).
    pose proof (has_color_inj _ _ _ _ Hcx (Hlo x (proj1 Hb) Hx)) as ->.
    destruct (decide (y < np)) as [Hy|Hy].
    + pose proof (has_color_inj _ _ _ _ Hcy (Hlo y (proj2 Hb) Hy)) as ->. by apply (Hirr y).
    + unfold has_color in Hcy.
      rewrite lookup_app_r in Hcy by (rewrite length_map, length_seq; lia).
      apply lookup_replicate in Hcy as [Hcy _].
      assert (Ha := of_nat_assigned x (proj1 Hb)). by rewrite Hcy, N.eqb_refl in Ha.
Qed.

Lemma color_spec :
  ∃ colors, color adj n np = Some colors ∧ length colors = n ∧
    (∀ x, x < n → ∃ c, has_color colors x c ∧ c < n) ∧
    (∀ x, x < n → x < np → has_color colors x x) ∧
    (∀ x y c, adjacent adj x y → has_color colors x c → ¬ has_color colors y c).
Proof using Hn Hg Hirr Hsym.
  unfold color. assert (Hp := partial_start).
  destruct (decide (np ≤ n)) as [Hle|Hgt].
  - destruct (color_from_spec np (n - np) _ Hp) as (colors & -> & Hc); [lia..|].
    replace (np + (n - np)) with n in Hc by lia. exists colors. destruct Hc as [? Hset ? ? Hpr].
    split_and!; [done..| |done|]; [by intros x Hx; apply Hset|].
    intros x y c Hxy. apply Hpr; [done|]. by apply (adjacent_below n adj x y).
  - replace (n - np) with 0 in * by lia. eexists. split; [done|].
    destruct Hp as [? Hset ? ? Hpr]. split_and!; [done..| |done|].
    + intros x Hx. apply Hset; lia.
    + intros x y c Hxy. apply Hpr; [done|]. assert (Hb := adjacent_below n adj x y Hg Hxy). lia.
Qed.
End Color.
