(* ===== verification/RegallocRemap.v ===== *)
(** [remap_op] rewrites exactly the registers that [op_facts] and [extra_defs] report, and
    nothing else: the rewritten instruction has the same control flow and, with its
    registers blanked, is the same instruction. *)
From S2P Require Import Prelude Span Ir Bytecode Regalloc.
From stdpp Require Import options.
Open Scope nat_scope.

Section Remap.
Context {P : CodePayloads} (m : Reg → option Reg) (f : Reg → Reg).
Context (Hm : ∀ r r', m r = Some r' → r' = f r).

Lemma mapM_regs l l' : mapM m l = Some l' → l' = map f l.
Proof using Hm.
  rewrite mapM_Some. induction 1 as [|r r' l l' Hr _ IH]; [done|]. simpl.
  by rewrite (Hm r r'), IH.
Qed.

Lemma opt_regs o o' : opt_mut m o = Some o' → option_list o' = map f (option_list o).
Proof using Hm.
  destruct o as [r|]; simpl; [|by intros [= <-]].
  intros (r' & Hr & [= <-])%bind_Some. simpl. by rewrite (Hm r r').
Qed.

Lemma type_arg_regs t t' :
  TypeArgs.regs_mut m t = Some t' → TypeArgs.regs t' = map f (TypeArgs.regs t).
Proof using Hm.
  unfold TypeArgs.regs_mut, TypeArgs.regs. destruct t as [[l|]]; simpl; [|by intros [= <-]].
  intros (l' & Hl & [= <-])%bind_Some. simpl. by apply mapM_regs.
Qed.

Lemma capture_regs l l' :
  mapM (capture_mut m) l = Some l' → omap capture_reg l' = map f (omap capture_reg l).
Proof using Hm.
  rewrite mapM_Some. induction 1 as [|[r|k] c l l' Hr _ IH]; simpl in *; [done|..].
  - apply bind_Some in Hr as (r' & Hr & [= <-]). simpl.
    rewrite (Hm r r') by done. f_equal. exact IH.
  - injection Hr as <-. exact IH.
Qed.

Lemma part_regs l l' :
  mapM (part_mut m) l = Some l' → omap hole_reg l' = map f (omap hole_reg l).
Proof using Hm.
  rewrite mapM_Some. induction 1 as [|[k|r] c l l' Hr _ IH]; simpl in *; [done|..].
  - injection Hr as <-. exact IH.
  - apply bind_Some in Hr as (r' & Hr & [= <-]). simpl.
    rewrite (Hm r r') by done. f_equal. exact IH.
Qed.

Lemma slots_regs h h' : slots_mut m h = Some h' → ho_slots h' = map f (ho_slots h).
Proof using Hm. intros (l & Hl & [= <-])%bind_Some. simpl. by apply mapM_regs. Qed.

Lemma opt_slots_regs h h' :
  opt_mut (slots_mut m) h = Some h' →
  match h' with Some h' => ho_slots h' | None => [] end =
  map f match h with Some h => ho_slots h | None => [] end.
Proof using Hm.
  destruct h as [h|]; simpl; [|by intros [= <-]].
  intros (h1 & Hh & [= <-])%bind_Some. by apply slots_regs.
Qed.

Lemma snd_regs {A} (l l' : list (A * Reg)) :
  mapM (pair_mut Some m) l = Some l' → map snd l' = map f (map snd l).
Proof using Hm.
  rewrite mapM_Some. induction 1 as [|[a r] c l l' Hr _ IH]; simpl in *; [done|].
  apply bind_Some in Hr as (r' & Hr & [= <-]). simpl. by rewrite (Hm r r'), IH.
Qed.

Lemma fst_regs {A} (l l' : list (Reg * A)) :
  mapM (pair_mut m Some) l = Some l' → map fst l' = map f (map fst l).
Proof using Hm.
  rewrite mapM_Some. induction 1 as [|[r a] c l l' Hr _ IH]; simpl in *; [done|].
  apply bind_Some in Hr as (r' & Hr & [= <-]). simpl. by rewrite (Hm r r'), IH.
Qed.

Lemma both_regs l l' :
  mapM (pair_mut m m) l = Some l' →
  concat (map (λ e, [e.1; e.2]) l') = map f (concat (map (λ e, [e.1; e.2]) l)).
Proof using Hm.
  rewrite mapM_Some. induction 1 as [|[r q] c l l' Hr _ IH]; simpl in *; [done|].
  apply bind_Some in Hr as (r' & Hr & (q' & Hq & [= <-])%bind_Some).
  simpl. by rewrite (Hm r r'), (Hm q q'), IH.
Qed.

(** Turn every successful rewriting step into an equation on registers. *)
Ltac remap_step :=
  match goal with
  | H : _ ≫= _ = Some _ |- _ => apply bind_Some in H as (? & ? & ?)
  | H : Some _ = Some _ |- _ => injection H as <-
  | H : m _ = Some _ |- _ => apply Hm in H as ->
  | H : mapM m _ = Some _ |- _ => apply mapM_regs in H as ->
  | H : mapM (capture_mut m) _ = Some _ |- _ => apply capture_regs in H
  | H : mapM (part_mut m) _ = Some _ |- _ => apply part_regs in H
  | H : mapM (pair_mut m m) _ = Some _ |- _ => apply both_regs in H
  | H : mapM (pair_mut Some m) _ = Some _ |- _ => apply snd_regs in H
  | H : mapM (pair_mut m Some) _ = Some _ |- _ => apply fst_regs in H
  | H : opt_mut m _ = Some _ |- _ => apply opt_regs in H
  | H : opt_mut (slots_mut m) _ = Some _ |- _ => apply opt_slots_regs in H
  | H : slots_mut m _ = Some _ |- _ => apply slots_regs in H
  | H : TypeArgs.regs_mut m _ = Some _ |- _ => apply type_arg_regs in H
  end.

Lemma remap_facts op op' :
  remap_regs m op = Some op' →
  op_facts op' = mkOpFacts (f <$> def (op_facts op)) (map f (uses (op_facts op)))
                   (targets (op_facts op)) (fallthrough (op_facts op)) ∧
  extra_defs op' = f <$> extra_defs op.
Proof using Hm.
  intros H. destruct op; simpl in H; repeat remap_step;
    (split; [|done]); unfold op_facts; simpl; f_equal;
    rewrite ?map_app; simpl; congruence.
Qed.
End Remap.

(** ** Success *)

Section Total.
Context {P : CodePayloads} (m : Reg → option Reg).
Notation defined := (Forall (λ r, is_Some (m r))).

Lemma bind_is_Some {A B} (o : option A) (k : A → option B) :
  is_Some o → (∀ a, is_Some (k a)) → is_Some (o ≫= k).
Proof. intros [a ->] H. apply H. Qed.

Lemma mapM_total {A B} (k : A → option B) (l : list A) :
  Forall (λ a, is_Some (k a)) l → is_Some (mapM k l).
Proof. apply mapM_is_Some_2. Qed.

Lemma opt_total o : defined (option_list o) → is_Some (opt_mut m o).
Proof.
  destruct o as [r|]; simpl; [|by eexists]. intros [H _]%Forall_cons.
  apply bind_is_Some; [done|by eexists].
Qed.

Lemma type_arg_total t : defined (TypeArgs.regs t) → is_Some (TypeArgs.regs_mut m t).
Proof.
  unfold TypeArgs.regs_mut, TypeArgs.regs. destruct t as [[l|]]; simpl; [|by eexists].
  intros H. apply bind_is_Some; [by apply mapM_total|by eexists].
Qed.

Lemma capture_total l : defined (omap capture_reg l) → is_Some (mapM (capture_mut m) l).
Proof.
  intros H. apply mapM_total. induction l as [|[r|k] l IH]; constructor; simpl; try by eexists.
  - apply Forall_cons in H as [H _]. apply bind_is_Some; [done|by eexists].
  - apply Forall_cons in H as [_ H]. by apply IH.
  - by apply IH.
Qed.

Lemma part_total l : defined (omap hole_reg l) → is_Some (mapM (part_mut m) l).
Proof.
  intros H. apply mapM_total. induction l as [|[k|r] l IH]; constructor; simpl; try by eexists.
  - by apply IH.
  - apply Forall_cons in H as [H _]. apply bind_is_Some; [done|by eexists].
  - apply Forall_cons in H as [_ H]. by apply IH.
Qed.

Lemma slots_total h : defined (ho_slots h) → is_Some (slots_mut m h).
Proof. intros H. apply bind_is_Some; [by apply mapM_total|by eexists]. Qed.

Lemma opt_slots_total h :
  defined match h with Some h => ho_slots h | None => [] end → is_Some (opt_mut (slots_mut m) h).
Proof.
  destruct h as [h|]; simpl; [|by eexists]. intros H.
  apply bind_is_Some; [by apply slots_total|by eexists].
Qed.

Lemma pair_total {A B} (k : A → option A) (k' : B → option B) (p : A * B) :
  is_Some (k p.1) → is_Some (k' p.2) → is_Some (pair_mut k k' p).
Proof. intros H1 H2. apply bind_is_Some; [done|intros a]. apply bind_is_Some; [done|by eexists]. Qed.

Lemma snd_total {A} (l : list (A * Reg)) :
  defined (map snd l) → is_Some (mapM (pair_mut Some m) l).
Proof.
  intros H%(proj1 (List.Forall_map snd _ l)). apply mapM_total. eapply Forall_impl; [exact H|].
  intros p ?. by apply pair_total; [eexists|].
Qed.

Lemma fst_total {A} (l : list (Reg * A)) :
  defined (map fst l) → is_Some (mapM (pair_mut m Some) l).
Proof.
  intros H%(proj1 (List.Forall_map fst _ l)). apply mapM_total. eapply Forall_impl; [exact H|].
  intros p ?. by apply pair_total; [|eexists].
Qed.

Lemma both_total l :
  defined (concat (map (λ e, [e.1; e.2]) l)) → is_Some (mapM (pair_mut m m) l).
Proof.
  intros H. apply mapM_total. induction l as [|[r q] l IH]; constructor; simpl in *.
  - apply Forall_cons in H as [? [? _]%Forall_cons]. by apply pair_total.
  - apply Forall_cons in H as [_ [_ ?]%Forall_cons]. by apply IH.
Qed.

Ltac defined_step :=
  match goal with
  | H : defined (_ ++ _) |- _ => apply Forall_app in H as [? ?]
  | H : defined (_ :: _) |- _ => apply Forall_cons in H as [? ?]
  | |- is_Some (Some _) => by eexists
  | |- is_Some (_ ≫= _) => apply bind_is_Some; [|intros ?]
  end.

Lemma remap_total op :
  defined (uses (op_facts op) ++ op_defs op) → is_Some (remap_regs m op).
Proof.
  intros H. unfold op_defs in H. destruct op; simpl in H; simpl; repeat defined_step;
    eauto using mapM_total, opt_total, type_arg_total, capture_total, part_total, slots_total,
      opt_slots_total, snd_total, fst_total, both_total.
Qed.
End Total.

(** ** Instructions up to their registers *)

Section Skeleton.
Context {P : CodePayloads}.

(** Every register and every jump destination blanked. *)
Definition blank : Reg → option Reg := λ _, Some 0%N.
Definition blank_jump : JumpPc → option JumpPc := λ _, Some 0%N.
Definition skeleton (op : Op.op) : Op.op :=
  default op (op ← remap_regs blank op; for_each_jump_pc_mut blank_jump op).

Context (m : Reg → option Reg).

(** Rewriting registers first does not change what blanking gives. *)
Definition blanks_to {A} (k : (Reg → option Reg) → A → option A) : Prop :=
  ∀ a a', k m a = Some a' → k blank a' = k blank a.

Lemma blanks_list {A} (k : (Reg → option Reg) → A → option A) :
  blanks_to k → blanks_to (λ m, mapM (k m)).
Proof.
  intros Hk l l'. rewrite mapM_Some. induction 1 as [|a a' l l' Ha _ IH]; [done|]. simpl.
  by rewrite (Hk a a' Ha), IH.
Qed.

Lemma blanks_opt {A} (k : (Reg → option Reg) → A → option A) :
  blanks_to k → blanks_to (λ m, opt_mut (k m)).
Proof.
  intros Hk [a|] a'; simpl; [|by intros [= <-]].
  intros (a1 & Ha & [= <-])%bind_Some. simpl. by rewrite (Hk a a1 Ha).
Qed.

Lemma blanks_reg : blanks_to (λ m, m).
Proof. done. Qed.

Lemma blanks_const {A} : blanks_to (λ _, @Some A).
Proof. by intros a a' [= <-]. Qed.

Lemma blanks_pair {A B} (k : (Reg → option Reg) → A → option A) k' :
  blanks_to k → blanks_to k' → blanks_to (λ m, pair_mut (A:=A) (B:=B) (k m) (k' m)).
Proof.
  intros Hk Hk' [a b] p' (a' & Ha & (b' & Hb & [= <-])%bind_Some)%bind_Some.
  unfold pair_mut. simpl in *. by rewrite (Hk a a' Ha), (Hk' b b' Hb).
Qed.

Lemma blanks_capture : blanks_to capture_mut.
Proof.
  intros [r|k] c; simpl; [|by intros [= <-]]. by intros (r' & _ & [= <-])%bind_Some.
Qed.

Lemma blanks_part : blanks_to part_mut.
Proof.
  intros [k|r] c; simpl; [by intros [= <-]|]. by intros (r' & _ & [= <-])%bind_Some.
Qed.

Lemma blanks_slots : blanks_to slots_mut.
Proof.
  intros h h' (l & Hl & [= <-])%bind_Some. unfold slots_mut. simpl.
  by rewrite (blanks_list _ blanks_reg _ _ Hl).
Qed.

Lemma blanks_type_args : blanks_to TypeArgs.regs_mut.
Proof.
  intros [[l|]] t'; unfold TypeArgs.regs_mut; simpl; [|by intros [= <-]].
  intros (l' & Hl & [= <-])%bind_Some. simpl. by rewrite (blanks_list _ blanks_reg _ _ Hl).
Qed.

Ltac blank_step :=
  match goal with
  | H : _ ≫= _ = Some _ |- _ => apply bind_Some in H as (? & ? & ?)
  | H : Some _ = Some _ |- _ => injection H as <-
  | H : mapM (capture_mut m) _ = Some _ |- _ => apply (blanks_list _ blanks_capture) in H
  | H : mapM (part_mut m) _ = Some _ |- _ => apply (blanks_list _ blanks_part) in H
  | H : mapM (pair_mut m m) _ = Some _ |- _ =>
      apply (blanks_list _ (blanks_pair _ _ blanks_reg blanks_reg)) in H
  | H : mapM (pair_mut Some m) _ = Some _ |- _ =>
      apply (blanks_list _ (blanks_pair _ _ blanks_const blanks_reg)) in H
  | H : mapM (pair_mut m Some) _ = Some _ |- _ =>
      apply (blanks_list _ (blanks_pair _ _ blanks_reg blanks_const)) in H
  | H : mapM m _ = Some _ |- _ => apply (blanks_list _ blanks_reg) in H
  | H : opt_mut m _ = Some _ |- _ => apply (blanks_opt _ blanks_reg) in H
  | H : opt_mut (slots_mut m) _ = Some _ |- _ => apply (blanks_opt _ blanks_slots) in H
  | H : slots_mut m _ = Some _ |- _ => apply blanks_slots in H
  | H : TypeArgs.regs_mut m _ = Some _ |- _ => apply blanks_type_args in H
  end.

Lemma remap_blank op op' :
  remap_regs m op = Some op' → remap_regs blank op' = remap_regs blank op.
Proof.
  intros H. destruct op; simpl in H; repeat blank_step; simpl;
    repeat (match goal with H : _ = _ |- _ => rewrite H; clear H end); done.
Qed.

Lemma remap_skeleton op op' : remap_regs m op = Some op' → skeleton op' = skeleton op.
Proof.
  intros H. unfold skeleton. rewrite (remap_blank op op' H).
  destruct (remap_total blank op) as [o ->]; [by apply Forall_true; eexists|]. simpl.
  assert (Hj : is_Some (for_each_jump_pc_mut blank_jump o)) by (destruct o; by eexists).
  by destruct Hj as [? ->].
Qed.

(** ** Jump destinations *)

(** [for_each_jump_pc_mut] rewrites exactly the destinations. *)
Lemma jump_facts (f : JumpPc → option JumpPc) op op' :
  for_each_jump_pc_mut f op = Some op' →
  mapM f (targets (op_facts op)) = Some (targets (op_facts op')) ∧
  def (op_facts op') = def (op_facts op) ∧ uses (op_facts op') = uses (op_facts op) ∧
  fallthrough (op_facts op') = fallthrough (op_facts op) ∧ extra_defs op' = extra_defs op.
Proof.
  destruct op; simpl; intros H;
    first [injection H as <-; done|apply bind_Some in H as (t & Ht & [= <-])];
    simpl; by rewrite Ht.
Qed.

Lemma jump_total (f : JumpPc → option JumpPc) op :
  Forall (λ t, is_Some (f t)) (targets (op_facts op)) → is_Some (for_each_jump_pc_mut f op).
Proof.
  intros H. destruct op; simpl in *;
    first [by eexists|apply Forall_cons in H as [H _]; apply bind_is_Some; [done|by eexists]].
Qed.

Lemma jump_skeleton (f : JumpPc → option JumpPc) op op' :
  for_each_jump_pc_mut f op = Some op' → skeleton op' = skeleton op.
Proof.
  destruct op; simpl; intros H;
    first [by injection H as <-|apply bind_Some in H as (t & Ht & [= <-])]; done.
Qed.

(** Blanking keeps the number of destinations written. *)
Lemma op_defs_skeleton op : length (op_defs (skeleton op)) = length (op_defs op).
Proof.
  destruct (remap_total blank op) as [o Ho]; [by apply Forall_true; eexists|].
  unfold skeleton. rewrite Ho. simpl.
  destruct (jump_total blank_jump o) as [o' Ho']; [by apply Forall_true; eexists|].
  rewrite Ho'. simpl.
  assert (Hm : ∀ r r' : Reg, blank r = Some r' → r' = (λ _, 0%N) r) by by intros r r' [= <-].
  destruct (remap_facts _ _ Hm op o Ho) as [Hf He].
  destruct (jump_facts _ _ _ Ho') as (_ & Hd & _ & _ & He').
  unfold op_defs. rewrite Hd, He', Hf, He. cbn [def]. by destruct (def (op_facts op)), (extra_defs op).
Qed.
End Skeleton.
