(* ===== verification/RegallocMachine.v ===== *)
(** A register machine over the bytecode, as much of it as register allocation can see.

    An instruction reads its [uses], writes its [def] and [extra_defs] (and may clear the
    registers it consumes, which are among its uses), changes the world (heap, globals,
    output) and falls through, branches to one of its destinations or stops.  What it
    computes is a parameter: a function of the instruction with its registers and destinations
    blanked, of the values it reads and of the world.  Reference counts are not part of the world:
    which slot a dead value waits in is not observable in it. *)
From S2P Require Import Prelude Span Ir Bytecode Regalloc RegallocLive RegallocRemap.
From stdpp Require Import options.
Open Scope nat_scope.

(** Where control goes after an instruction. *)
Inductive Next := Fall | Branch (k : nat) | Stop.

Section Machine.
Context {P : CodePayloads} {Val World : Type}.

(** [None] leaves the register as it is. *)
Record Outcome := mkOutcome {
  next : Next;
  def_writes : list (option Val);
  use_writes : list (option Val);
  world : World;
}.

Definition Regs : Type := nat → Val.
Record State := mkState { pc : nat; regs : Regs; st_world : World }.

Definition write (r : nat) (v : option Val) (f : Regs) : Regs :=
  match v with Some v => λ x, if decide (x = r) then v else f x | None => f end.

Fixpoint write_all (rs : list nat) (vs : list (option Val)) (f : Regs) : Regs :=
  match rs, vs with
  | r :: rs, v :: vs => write_all rs vs (write r v f)
  | _, _ => f
  end.

Definition next_pc (op : Op.op) (i : nat) (nx : Next) : option nat :=
  match nx with
  | Fall => if fallthrough (op_facts op) then Some (i + 1) else None
  | Branch k => as_usize <$> targets (op_facts op) !! k
  | Stop => None
  end.

Context (exec : Op.op → list Val → World → Outcome).

(** One step; [None] when the frame stops or leaves its code. *)
Definition step (code : list Op.op) (s : State) : option State :=
  op ← code !! pc s;
  let o := exec (skeleton op) (map (regs s) (use_slots op)) (st_world s) in
  j ← next_pc op (pc s) (next o);
  Some (mkState j
    (write_all (def_slots op) (def_writes o) (write_all (use_slots op) (use_writes o) (regs s)))
    (world o)).

Lemma step_load code i d k v f w :
  code !! i = Some (Op.LoadConst d k) →
  exec (Op.LoadConst 0 k) [] w = mkOutcome Fall [Some v] [] w →
  step code (mkState i f w) = Some (mkState (i + 1) (write (as_usize d) (Some v) f) w).
Proof.
  intros Hop Hx. unfold step. simpl. rewrite Hop. simpl.
  change (skeleton (Op.LoadConst d k)) with (Op.LoadConst 0 k). by rewrite Hx.
Qed.

Lemma step_drop code i r v f w :
  code !! i = Some (Op.Drop r false) →
  exec (Op.Drop 0 false) [f (as_usize r)] w = mkOutcome Fall [Some v] [] w →
  step code (mkState i f w) = Some (mkState (i + 1) (write (as_usize r) (Some v) f) w).
Proof.
  intros Hop Hx. unfold step. simpl. rewrite Hop. simpl.
  change (skeleton (Op.Drop r false)) with (Op.Drop 0 false). by rewrite Hx.
Qed.

Fixpoint run (code : list Op.op) (k : nat) (s : State) : option State :=
  match k with O => Some s | S k => s ← step code s; run code k s end.

(** A frame on entry: the arguments in the leading registers, [unit] in the others. *)
Definition entry (unit_ : Val) (args : list Val) (w : World) : State :=
  mkState 0 (λ r, default unit_ (args !! r)) w.

(** Every instruction that continues writes all it defines, but a [??] that takes its
    fallback leaves its destination to the fallback's code. *)
Definition is_coalesce (op : Op.op) : bool :=
  match op with Op.Coalesce _ _ _ _ => true | _ => false end.
Definition defines : Prop := ∀ op vals w,
  let o := exec (skeleton op) vals w in
  next o ≠ Stop →
  (Forall is_Some (def_writes o) ∧ length (def_writes o) = length (op_defs op)) ∨
  (is_coalesce op = true ∧ ∃ k, next o = Branch k).

(** ** Writes through a renaming *)

Section Rename.
Context (col : nat → nat).

Lemma write_all_agree rs vs (f g : Regs) r :
  (∀ x, x ∈ rs → col x = col r → x = r) → g (col r) = f r →
  write_all (map col rs) vs g (col r) = write_all rs vs f r.
Proof.
  revert vs f g. induction rs as [|x rs IH]; intros [|v vs] f g Hinj Hr; simpl; try done.
  apply IH; [intros y ?; apply Hinj; apply elem_of_cons; by right|].
  destruct v as [v|]; simpl; [|done].
  destruct (decide (r = x)) as [->|Hne]; [by rewrite !decide_True by done|].
  rewrite !decide_False; [done..|]. intros Heq. apply Hne. symmetry. apply Hinj; [|done].
  apply elem_of_cons. by left.
Qed.

Lemma write_all_written rs vs (f g : Regs) r :
  (∀ x, x ∈ rs → col x = col r → x = r) → r ∈ rs →
  Forall is_Some vs → length vs = length rs →
  write_all (map col rs) vs g (col r) = write_all rs vs f r.
Proof.
  revert vs f g. induction rs as [|x rs IH]; intros [|v vs] f g Hinj Hr Hv Hl; simplify_eq/=;
    [by apply elem_of_nil in Hr..|].
  apply Forall_cons in Hv as [[u ->] Hv].
  assert (Hinj' : ∀ y, y ∈ rs → col y = col r → y = r).
  { intros y ?. apply Hinj. apply elem_of_cons. by right. }
  destruct (decide (r ∈ rs)) as [Hin|Hout]; [by apply IH|].
  apply elem_of_cons in Hr as [->|]; [|done]. apply write_all_agree; [done|].
  simpl. by rewrite !decide_True.
Qed.
End Rename.

(** A register outside the written ones keeps its value. *)
Lemma write_all_other rs vs (f : Regs) r : r ∉ rs → write_all rs vs f r = f r.
Proof.
  revert vs f. induction rs as [|x rs IH]; intros [|v vs] f Hr; simpl; try done.
  apply not_elem_of_cons in Hr as [Hne Hr]. rewrite IH by done.
  destruct v; simpl; [by rewrite decide_False|done].
Qed.
End Machine.

(** ** A concrete machine

    Integers for values, the list of echoed values for the world.  [LoadConst] loads its
    index plus one, arithmetic is addition and comparison, [0] is false, and every other
    instruction writes [0]: enough to run loops. *)
Module Toy.
Section Toy.
Context {P : CodePayloads}.

Definition value (op : Op.op) (vals : list Z) : Z :=
  match op, vals with
  | Op.LoadConst _ k, _ => Z.of_N k + 1
  | Op.Move _ _, [a] => a
  | Op.Binary Lt _ _ _ _, [a; b] => if decide (a < b)%Z then 1 else 0
  | Op.Binary _ _ _ _ _, [a; b] => a + b
  | _, _ => 0
  end%Z.

Definition next_of (op : Op.op) (vals : list Z) : Next :=
  match op, vals with
  | Op.Jump _, _ => Branch 0
  | Op.CondBranch _ _ _, [0%Z] | Op.JumpIfFalse _ _, [0%Z] => Branch 0
  | _, _ => if fallthrough (op_facts op) then Fall else Stop
  end.

Definition exec (op : Op.op) (vals : list Z) (w : list Z) : Outcome (Val:=Z) (World:=list Z) :=
  mkOutcome (next_of op vals) (replicate (length (op_defs op)) (Some (value op vals))) []
    match op with Op.Echo _ => w ++ vals | _ => w end.

Lemma defines_all : defines exec.
Proof.
  intros op vals w o _. left. split; [by apply Forall_replicate; eexists|].
  unfold o, exec. simpl. by rewrite length_replicate, op_defs_skeleton.
Qed.
End Toy.
End Toy.
