(* ===== verification/RegallocCoalesce.v ===== *)
(** [coalesce] of [Regalloc]: it succeeds on well-formed prototypes, the renaming it
    applies keeps simultaneously live registers apart, and the renamed code simulates the
    original step by step. *)
From S2P Require Import Prelude Span Ir Bytecode Regalloc RegallocSets RegallocLive.
From S2P Require Import RegallocColor RegallocRemap RegallocMachine.
From stdpp Require Import options.
Open Scope nat_scope.

#[local] Opaque op_facts.

Section Coalesce.
Context {P : CodePayloads}.

(** ** Well-formed prototypes *)

Definition num_regs (c : Chunk) : nat := as_usize (num_registers c).

(** Registers are declared, their number is a [u16], and the parameters are among them. *)
Record chunk_ok (c : Chunk) : Prop := {
  ok_code : code_ok (num_regs c) (code c);
  ok_width : (num_registers c < 2 ^ 16)%N;
  ok_params : as_usize (num_params c) ≤ num_regs c;
  ok_locals : Forall (λ r, as_usize r < num_regs c) (frame_locals c);
  ok_debug : Forall (λ l, as_usize (ld_reg l) < num_regs c) (debug_locals c);
}.

(** Registers whose slot the teardown list or the debugger owns. *)
Definition pinned (c : Chunk) : list nat :=
  map as_usize (frame_locals c) ++ map (λ l, as_usize (ld_reg l)) (debug_locals c).

(** The pairs that must not share a slot. *)
Definition interferes (c : Chunk) (x y : nat) : Prop :=
  x ≠ y ∧ (clash (code c) x y ∨ clash (code c) y x ∨
           (x < num_regs c ∧ y < num_regs c ∧ (x ∈ pinned c ∨ y ∈ pinned c))).

(** The slot a colouring gives a register. *)
Definition slot (colors : list N) (r : nat) : nat := default 0 (as_usize <$> colors !! r).

(** What [coalesce] promises of its colouring. *)
Record colouring (c : Chunk) (colors : list N) : Prop := {
  cl_length : length colors = num_regs c;
  cl_below : ∀ r, r < num_regs c → slot colors r < num_regs c;
  cl_params : ∀ r, r < as_usize (num_params c) → slot colors r = r;
  cl_proper : ∀ x y, interferes c x y → slot colors x ≠ slot colors y;
}.

Lemma clash_below c x y : chunk_ok c → clash (code c) x y → x < num_regs c ∧ y < num_regs c.
Proof.
  intros Hok (i & op & Hop & Hx & Hy). assert (Ho := ok_code c Hok).
  assert (Hro : regs_ok (num_regs c) op) by by eapply Forall_lookup_1 in Hop.
  split; [by eapply regs_ok_def|]. destruct Hy as [?|[?|(j & _ & Hl)]];
    [by eapply regs_ok_use|by eapply regs_ok_def|].
  induction Hl as [k op' Hop' Hu|]; [|done]. eapply regs_ok_use; [|done].
  by eapply Forall_lookup_1 in Hop'.
Qed.

Lemma coalesce_colors_spec c :
  chunk_ok c → ∃ colors, coalesce_colors c = Some colors ∧ colouring c colors.
Proof.
  intros Hok. unfold coalesce_colors. fold (num_regs c). set (n := num_regs c).
  destruct (analyze_sets (code c) n (ok_code c Hok)) as (L & -> & HL & HLr). simpl.
  destruct (build_spec (code c) n (ok_code c Hok) L HL HLr) as (a1 & -> & Hg1 & H1). simpl.
  destruct (pins_spec n (frame_locals c) a1 Hg1 (ok_locals c Hok)) as (a2 & -> & Hg2 & H2). simpl.
  destruct (pins_spec n (map ld_reg (debug_locals c)) a2 Hg2) as (a3 & H3e & Hg3 & H3).
  { apply Forall_fmap. apply (ok_debug c Hok). }
  rewrite <-fold_opt_map in H3e. setoid_rewrite H3e. simpl.
  assert (Hadj : ∀ x y, adjacent a3 x y ↔ interferes c x y).
  { intros x y. specialize (H1 (x, y)). specialize (H2 (x, y)). specialize (H3 (x, y)).
    unfold pair_adjacent, both_ways in *. simpl in *. rewrite H3, H2, H1.
    unfold interferes, pinned. rewrite !elem_of_app, map_map. fold n. clear. tauto. }
  destruct (color_spec n (as_usize (num_params c)) a3) as (colors & -> & Hl & Hset & Hp & Hpr).
  - assert (Hw := ok_width c Hok). unfold n, num_regs, as_usize, UNASSIGNED.
    rewrite N2Nat.id. eapply N.lt_trans; [exact Hw|reflexivity].
  - done.
  - intros x [? _]%Hadj. done.
  - intros x y (? & H)%Hadj. apply Hadj. split; [done|]. clear -H. tauto.
  - assert (Hs : ∀ x k, has_color colors x k → slot colors x = k).
    { intros x k Hk. unfold slot. rewrite Hk. simpl. apply Nat2N.id. }
    exists colors. split; [done|]. split; [done|..].
    + intros r Hr. destruct (Hset r Hr) as (k & Hk & Hkn). by rewrite (Hs r k).
    + intros r Hr. apply Hs, Hp; [|done]. assert (Hle := ok_params c Hok). unfold n in *. lia.
    + intros x y Hxy Heq. assert (Hb : x < n ∧ y < n).
      { apply (adjacent_below n a3); [done|]. by apply Hadj. }
      destruct (Hset x) as (k & Hk & _); [lia|]. destruct (Hset y) as (k' & Hk' & _); [lia|].
      rewrite (Hs x k Hk), (Hs y k' Hk') in Heq. subst k'.
      apply (Hpr x y k); [by apply Hadj|done..].
Qed.

(** ** What [coalesce] builds *)

Definition recolored (colors : list N) (op op' : Op.op) : Prop := remap_op op colors = Some op'.

Lemma color_width c colors r k :
  chunk_ok c → colouring c colors → colors !! r = Some k → (k mod 2 ^ 16 = k)%N ∧ as_usize k = slot colors r.
Proof.
  intros Hok Hcl Hk. assert (Hr : r < num_regs c) by (rewrite <-(cl_length c colors Hcl);
    by eapply lookup_lt_Some).
  assert (Hb := cl_below c colors Hcl r Hr). unfold slot in *. rewrite Hk in *. simpl in *.
  split; [|done]. apply N.mod_small. assert (Hw := ok_width c Hok).
  unfold num_regs, as_usize in Hb. lia.
Qed.

Lemma remap_op_total c colors op :
  colouring c colors → regs_ok (num_regs c) op → is_Some (remap_op op colors).
Proof.
  intros Hcl Hro. apply remap_total. eapply Forall_impl; [exact Hro|]. intros r Hr. simpl in Hr.
  apply bind_is_Some; [|by eexists]. apply lookup_lt_is_Some. by rewrite (cl_length c).
Qed.

Lemma recolored_slots c colors op op' :
  chunk_ok c → colouring c colors → regs_ok (num_regs c) op → recolored colors op op' →
  use_slots op' = map (slot colors) (use_slots op) ∧
  def_slots op' = map (slot colors) (def_slots op) ∧
  targets (op_facts op') = targets (op_facts op) ∧
  fallthrough (op_facts op') = fallthrough (op_facts op).
Proof.
  intros Hok Hcl Hro Hop. set (f := λ r : Reg, (default 0 (colors !! as_usize r) mod 2 ^ 16)%N).
  assert (Hm : ∀ r r' : Reg, (k ← colors !! as_usize r; Some (k mod 2 ^ 16)%N) = Some r' → r' = f r).
  { intros r r' (k & Hk & [= <-])%bind_Some. unfold f. by rewrite Hk. }
  destruct (remap_facts _ f Hm op op' Hop) as [Hfa He].
  assert (Hs : ∀ r, as_usize r < num_regs c → as_usize (f r) = slot colors (as_usize r)).
  { intros r Hr. destruct (lookup_lt_is_Some_2 colors (as_usize r)) as [k Hk].
    { by rewrite (cl_length c). }
    destruct (color_width c colors _ k Hok Hcl Hk) as [Hmod Hk'].
    unfold f. rewrite Hk. simpl. by rewrite Hmod. }
  apply Forall_app in Hro as [Hu Hd].
  assert (Hmap : ∀ l, Forall (λ r, as_usize r < num_regs c) l →
    map as_usize (map f l) = map (slot colors) (map as_usize l)).
  { intros l Hl. rewrite !map_map. apply map_eq_Forall. eapply Forall_impl; [exact Hl|]. apply Hs. }
  unfold use_slots, def_slots, op_defs in *. rewrite Hfa, He. simpl. split_and!; [by apply Hmap| |done..].
  rewrite <-Hmap by done. rewrite map_app. by destruct (def (op_facts op)), (extra_defs op).
Qed.

Lemma recolored_skeleton colors op op' : recolored colors op op' → skeleton op' = skeleton op.
Proof. apply remap_skeleton. Qed.

(** The result of [coalesce] when there is a register to colour. *)
Record coalesced (c c' : Chunk) (colors : list N) : Prop := {
  co_colouring : colouring c colors;
  co_code : Forall2 (recolored colors) (code c) (code c');
  co_params : num_params c' = num_params c;
  co_registers : num_registers c' = color_count colors;
  co_locals : retain_first colors (replicate (as_usize (color_count colors)) false)
                (frame_locals c) = Some (frame_locals c');
  co_debug : Forall2 (λ l l', ld_name l' = ld_name l ∧ ld_def_span l' = ld_def_span l ∧
    as_usize (ld_reg l') = slot colors (as_usize (ld_reg l))) (debug_locals c) (debug_locals c');
}.

Lemma slot_below_count colors r : r < length colors → slot colors r < as_usize (color_count colors).
Proof.
  intros Hr. unfold slot. destruct (lookup_lt_is_Some_2 colors r Hr) as [k Hk]. rewrite Hk. simpl.
  assert (Hle : (k ≤ foldr N.max 0 colors)%N).
  { clear Hr. apply list_elem_of_lookup_2 in Hk. induction colors as [|x l IH]; simpl;
      [by apply elem_of_nil in Hk|]. apply elem_of_cons in Hk as [->|Hk]; [|apply IH in Hk]; lia. }
  destruct colors as [|x l]; [done|].
  unfold color_count, as_usize. lia.
Qed.

Lemma max_lt (l : list N) (b : N) :
  l ≠ [] → (∀ k, k ∈ l → (k < b)%N) → (foldr N.max 0 l < b)%N.
Proof.
  intros Hne H. assert (H0 : (0 < b)%N).
  { destruct l as [|x l]; [done|]. specialize (H x (list_elem_of_here _ _)). lia. }
  clear Hne. induction l as [|x l IH]; simpl; [done|].
  apply N.max_lub_lt; [apply H, elem_of_cons; by left|].
  apply IH. intros k ?. apply H, elem_of_cons. by right.
Qed.

Lemma color_count_bound c colors :
  colouring c colors → (color_count colors ≤ num_registers c)%N.
Proof.
  intros Hcl. unfold color_count. destruct colors as [|x l] eqn:E; [lia|]. rewrite <-E in *.
  rewrite N.add_1_r. apply N.le_succ_l, max_lt; [by rewrite E|]. intros k [r Hk]%list_elem_of_lookup.
  assert (Hr : r < num_regs c) by (rewrite <-(cl_length _ _ Hcl); by eapply lookup_lt_Some).
  assert (Hb := cl_below _ _ Hcl r Hr). unfold slot in Hb. rewrite Hk in Hb. simpl in Hb.
  unfold num_regs, as_usize in Hb. lia.
Qed.

Lemma retain_first_total colors seen (regs : list Reg) :
  Forall (λ r, as_usize r < length colors ∧ slot colors (as_usize r) < length seen) regs →
  is_Some (retain_first colors seen regs).
Proof.
  revert seen. induction regs as [|r regs IH]; intros seen H; simpl; [by eexists|].
  apply Forall_cons in H as [[Hr Hs] H].
  destruct (lookup_lt_is_Some_2 colors (as_usize r) Hr) as [k Hk]. unfold slot in Hs.
  rewrite Hk in *. simpl in *. destruct (lookup_lt_is_Some_2 seen (as_usize k) Hs) as [b Hb].
  rewrite Hb. simpl. destruct b; [by apply IH|].
  destruct (IH (<[as_usize k := true]> seen)) as [rest ->]; [|by eexists].
  eapply Forall_impl; [exact H|]. simpl. intros x [? ?]. by rewrite length_insert.
Qed.

Lemma coalesce_spec c :
  chunk_ok c → num_registers c ≠ 0%N → ∃ colors c', coalesce c = Some c' ∧ coalesced c c' colors.
Proof.
  intros Hok H0. unfold coalesce. destruct (N.eqb_spec (num_registers c) 0); [done|].
  destruct (coalesce_colors_spec c Hok) as (colors & -> & Hcl). simpl. exists colors.
  assert (Hslot : ∀ r, as_usize r < num_regs c → is_Some (colors !! as_usize r)).
  { intros r Hr. apply lookup_lt_is_Some. by rewrite (cl_length c). }
  destruct (mapM_total (λ op, remap_op op colors) (code c)) as [ops Hops].
  { eapply Forall_impl; [exact (ok_code c Hok)|]. intros op. by apply remap_op_total. }
  rewrite Hops. simpl.
  destruct (retain_first_total colors (replicate (as_usize (color_count colors)) false)
    (frame_locals c)) as [locals Hlocals].
  { eapply Forall_impl; [exact (ok_locals c Hok)|]. simpl. intros r Hr.
    rewrite length_replicate. rewrite <-(cl_length c colors Hcl) in Hr.
    split; [done|by apply slot_below_count]. }
  rewrite Hlocals. simpl.
  destruct (mapM_total (remap_local colors) (debug_locals c)) as [dbg Hdbg].
  { eapply Forall_impl; [exact (ok_debug c Hok)|]. simpl. intros l Hl.
    by apply bind_is_Some; [apply Hslot|eexists]. }
  rewrite Hdbg. simpl. eexists. split; [done|].
  assert (Hcc := color_count_bound c colors Hcl). assert (Hw := ok_width c Hok).
  split; simpl; try done.
  - by apply mapM_Some.
  - apply N.mod_small. lia.
  - apply mapM_Some in Hdbg. eapply Forall2_impl; [exact Hdbg|].
    intros l l' (k & Hk & [= <-])%bind_Some. simpl. split_and!; [done..|].
    destruct (color_width c colors _ k Hok Hcl Hk) as [-> ?]. done.
Qed.

(** ** Simultaneously live registers *)

Definition reachable (c : Chunk) (i : nat) : Prop := rtc (edge (code c)) 0 i.

(** On entry only parameters (and pinned registers, which have slots of their own) are live. *)
Definition entry_ok (c : Chunk) : Prop :=
  ∀ r, live_at (code c) r 0 → r < as_usize (num_params c) ∨ r ∈ pinned c.

Definition held (c : Chunk) (i r : nat) : Prop := live_at (code c) r i ∨ r ∈ pinned c.

Lemma pinned_below c r : chunk_ok c → r ∈ pinned c → r < num_regs c.
Proof.
  intros Hok [H|H]%elem_of_app.
  - by eapply elem_slots in H; [|apply Hok].
  - apply list_elem_of_fmap in H as (l & -> & Hl). assert (Hd := ok_debug c Hok).
    rewrite Forall_forall in Hd. by apply Hd.
Qed.

Lemma live_below c r i : chunk_ok c → live_at (code c) r i → r < num_regs c.
Proof.
  intros Hok Hl. induction Hl as [k op Hop Hu|]; [|done].
  eapply regs_ok_use; [|done]. assert (Ho := ok_code c Hok). by eapply Forall_lookup_1 in Hop.
Qed.

Lemma held_below c i r : chunk_ok c → held c i r → r < num_regs c.
Proof. intros Hok [?|?]; [by eapply live_below|by apply pinned_below]. Qed.

Lemma pinned_apart c colors x y :
  chunk_ok c → colouring c colors → x ∈ pinned c → y < num_regs c →
  slot colors x = slot colors y → x = y.
Proof.
  intros Hok Hcl Hx Hy Heq. destruct (decide (x = y)); [done|]. exfalso.
  apply (cl_proper c colors Hcl x y); [|done]. split; [done|]. right; right.
  split_and!; [by apply pinned_below|done|by left].
Qed.

(** A register held after an instruction does not share a slot with one it writes. *)
Lemma defined_apart c colors i j op x y :
  chunk_ok c → colouring c colors → code c !! i = Some op → j ∈ succs (length (code c)) i op →
  x ∈ def_slots op → held c j y → slot colors x = slot colors y → x = y.
Proof.
  intros Hok Hcl Hop Hj Hx [Hy|Hy] Heq.
  - destruct (decide (x = y)); [done|]. exfalso. apply (cl_proper c colors Hcl x y); [|done].
    split; [done|]. left. exists i, op. split_and!; [done..|]. right; right. by exists j.
  - symmetry. eapply pinned_apart; [done..| |done]. eapply regs_ok_def; [|done].
    assert (Ho := ok_code c Hok). by eapply Forall_lookup_1 in Hop.
Qed.

Lemma slots_distinct c colors i x y :
  chunk_ok c → colouring c colors → entry_ok c → reachable c i →
  held c i x → held c i y → slot colors x = slot colors y → x = y.
Proof.
  intros Hok Hcl Hentry Hreach. revert x y. pattern i.
  refine (rtc_ind_r _ 0 _ _ i Hreach); clear i Hreach; [|intros i j _ Hedge IH];
    intros x y Hx Hy Heq.
  - assert (Hin : ∀ r, held c 0 r → r ∈ pinned c ∨ slot colors r = r).
    { intros r [[H|H]%Hentry|H]; [right; by apply (cl_params c)|by left..]. }
    destruct (Hin x Hx) as [Hp|Hpx]; [by eapply pinned_apart; eauto using held_below|].
    destruct (Hin y Hy) as [Hp|Hpy]; [|congruence].
    symmetry. eapply pinned_apart; eauto using held_below.
  - destruct Hedge as (op & Hop & Hj).
    destruct (decide (x ∈ def_slots op)); [by eapply defined_apart|].
    destruct (decide (y ∈ def_slots op)); [symmetry; by eapply defined_apart|].
    apply IH; [| |done]; [destruct Hx as [?|?]|destruct Hy as [?|?]];
      [left|by right|left|by right]; by eapply live_through.
Qed.

(** ** Simulation *)

(** The destination of a [??] is dead where its fallback begins. *)
Definition fallback_ok (c : Chunk) : Prop :=
  ∀ i dst src fallback sp, code c !! i = Some (Op.Coalesce dst src fallback sp) →
    ¬ live_at (code c) (as_usize dst) (as_usize fallback).

Lemma live_in_code (c : Chunk) r j : live_at (code c) r j → j < length (code c).
Proof. by destruct 1; eapply lookup_lt_Some. Qed.

(** Both conditions, decided from the entry sets of the analysis. *)
Definition runs_ok (c : Chunk) : bool :=
  match entry_sets (code c) (num_regs c) with
  | Some ins =>
      all (λ t, all (λ r, (r <? as_usize (num_params c)) || bool_decide (r ∈ pinned c))
                  (BitSet.iter t)) (take 1 ins) &&
      all (λ op, match op with
                 | Op.Coalesce dst _ fallback _ =>
                     match ins !! as_usize fallback with
                     | Some t => bool_decide (as_usize dst ∉ t) | None => true
                     end
                 | _ => true
                 end) (code c)
  | None => false
  end.

Lemma runs_ok_sound c : chunk_ok c → runs_ok c = true → entry_ok c ∧ fallback_ok c.
Proof.
  intros Hok H. unfold runs_ok in H.
  destruct (entry_sets_spec (code c) (num_regs c) (ok_code c Hok)) as (ins & Hins & [Hl _] & Hlive).
  rewrite Hins in H. apply andb_true_iff in H as [He Hf]. split.
  - intros r Hr. assert (H0 : 0 < length ins).
    { rewrite Hl. by eapply live_in_code. }
    destruct ins as [|t ins]; simpl in *; [lia|].
    apply andb_true_iff in He as [He _]. apply all_forall with (x := r) in He.
    + apply orb_true_iff in He as [He|He]; [left; by apply Nat.ltb_lt|].
      right. by apply bool_decide_eq_true in He.
    + apply elem_iter. by apply (Hlive 0 t r).
  - intros i dst src fallback sp Hop Hdead.
    apply all_forall with (x := Op.Coalesce dst src fallback sp) in Hf;
      [|by eapply list_elem_of_lookup_2].
    destruct (lookup_lt_is_Some_2 ins (as_usize fallback)) as [t Ht].
    { rewrite Hl. by eapply live_in_code. }
    rewrite Ht in Hf. apply bool_decide_eq_true in Hf. apply Hf. by apply (Hlive _ t _ Ht).
Qed.

Section Simulation.
Context {Val World : Type} (exec : Op.op → list Val → World → Outcome (Val:=Val) (World:=World)).
Context (Hdefines : defines exec).
Context (c c' : Chunk) (colors : list N) (Hok : chunk_ok c) (Hco : coalesced c c' colors).
Context (Hentry : entry_ok c) (Hfall : fallback_ok c).

(** The same place and world; every held register has its value in its slot. *)
Record related (s s' : State (Val:=Val) (World:=World)) : Prop := {
  re_pc : pc s' = pc s;
  re_world : st_world s' = st_world s;
  re_regs : ∀ r, held c (pc s) r → regs s' (slot colors r) = regs s r;
  re_reach : pc s < length (code c) → reachable c (pc s);
}.

Lemma next_succ op i o j :
  next_pc op i o = Some j → j < length (code c) → j ∈ succs (length (code c)) i op.
Proof.
  intros Hn Hj. unfold succs. apply list_elem_of_filter. split; [done|]. apply elem_of_app.
  destruct o as [|k|]; simpl in Hn; [left|right|done].
  - destruct (fallthrough (op_facts op)); simplify_eq. by apply list_elem_of_singleton.
  - destruct (targets (op_facts op) !! k) as [t|] eqn:Ht; simplify_eq/=.
    apply list_elem_of_fmap. exists t. split; [done|]. by eapply list_elem_of_lookup_2.
Qed.

(** A register live after an instruction that it does not hold before is written by it. *)
Lemma newly_live_written op i vals w j r :
  code c !! i = Some op → next_pc op i (next (exec (skeleton op) vals w)) = Some j →
  live_at (code c) r j → r ∈ def_slots op →
  Forall is_Some (def_writes (exec (skeleton op) vals w)) ∧
  length (def_writes (exec (skeleton op) vals w)) = length (def_slots op).
Proof using Hdefines Hfall.
  intros Hop Hn Hl Hd. unfold def_slots. rewrite length_map.
  destruct (Hdefines op vals w) as [?|[Hcoal [k Hk]]]; [|done|].
  { intros Hs. by rewrite Hs in Hn. }
  exfalso. rewrite Hk in Hn. destruct op; try done. destruct k as [|k]; [|by destruct k].
  apply list_elem_of_singleton in Hd as ->. injection Hn as <-. by eapply Hfall.
Qed.

Lemma writes_agree i op j uw dw (f g : nat → Val) r :
  code c !! i = Some op → reachable c i →
  (∀ r, held c i r → g (slot colors r) = f r) →
  j ∈ succs (length (code c)) i op ∨ r ∈ pinned c → held c j r →
  (live_at (code c) r j → r ∈ def_slots op → Forall is_Some dw ∧ length dw = length (def_slots op)) →
  write_all (map (slot colors) (def_slots op)) dw
    (write_all (map (slot colors) (use_slots op)) uw g) (slot colors r) =
  write_all (def_slots op) dw (write_all (use_slots op) uw f) r.
Proof using Hok Hco Hentry.
  intros Hop Hreach Hregs Hj Hr Hw. assert (Hcl := co_colouring c c' colors Hco).
  assert (Hro : regs_ok (num_regs c) op).
  { assert (Ho := ok_code c Hok). by eapply Forall_lookup_1 in Hop. }
  assert (Hdef : ∀ x, x ∈ def_slots op → slot colors x = slot colors r → x = r).
  { intros x Hx Heq. destruct Hj as [Hj|Hp]; [by eapply defined_apart|].
    symmetry. eapply pinned_apart; eauto using regs_ok_def. }
  destruct (decide (r ∈ pinned c)) as [Hp|Hnp].
  { apply write_all_agree; [done|]. apply write_all_agree; [|apply Hregs; by right].
    intros x Hx Heq. symmetry. eapply pinned_apart; eauto using regs_ok_use. }
  destruct Hr as [Hl|?]; [|done]. destruct Hj as [Hj|?]; [|done].
  destruct (decide (r ∈ def_slots op)) as [Hd|Hd].
  - destruct (Hw Hl Hd). by apply write_all_written.
  - assert (Hin : held c i r) by (left; by eapply live_through).
    apply write_all_agree; [done|]. apply write_all_agree; [|by apply Hregs].
    intros x Hx Heq. eapply slots_distinct; [done..| |done|done]. left. by eapply live_use.
Qed.

Lemma step_simulates s s' :
  related s s' → option_Forall2 related (step exec (code c) s) (step exec (code c') s').
Proof using Hdefines Hok Hco Hentry Hfall.
  intros [Hpc Hworld Hregs Hreach]. unfold step. rewrite Hpc.
  assert (H2 := proj1 (Forall2_lookup _ _ _) (co_code c c' colors Hco) (pc s)).
  destruct (code c !! pc s) as [op|] eqn:Hop; inversion H2 as [x op' Hrec Hx Hop'|Hx Hop'];
    simpl; [|by constructor]. subst x.
  assert (Hlt : pc s < length (code c)) by by eapply lookup_lt_Some.
  assert (Hro : regs_ok (num_regs c) op).
  { assert (Ho := ok_code c Hok). by eapply Forall_lookup_1 in Hop. }
  destruct (recolored_slots c colors op op' Hok (co_colouring c c' colors Hco) Hro Hrec)
    as (Hu & Hd & Ht & Hf).
  assert (Hvals : map (regs s') (use_slots op') = map (regs s) (use_slots op)).
  { rewrite Hu, map_map. apply map_eq_Forall, Forall_forall. intros r Hr.
    apply Hregs. left. by eapply live_use. }
  rewrite (recolored_skeleton colors op op' Hrec), Hvals, Hworld.
  set (o := exec (skeleton op) (map (regs s) (use_slots op)) (st_world s)).
  assert (Hn : next_pc op' (pc s) (next o) = next_pc op (pc s) (next o)).
  { unfold next_pc. by rewrite Ht, Hf. }
  rewrite Hn. destruct (next_pc op (pc s) (next o)) as [j|] eqn:Hj; simpl; [|by constructor].
  constructor. split; simpl; [done..| |].
  - intros r Hr. rewrite Hu, Hd. eapply writes_agree; [done|by apply Hreach|done| |exact Hr|].
    + destruct Hr as [Hl|?]; [left|by right].
      eapply next_succ; [exact Hj|]. by eapply live_in_code.
    + intros Hl Hrd. by eapply newly_live_written.
  - intros Hjl. eapply rtc_r; [by apply Hreach|]. exists op. split; [done|]. by eapply next_succ.
Qed.

Lemma run_simulates k s s' :
  related s s' → option_Forall2 related (run exec (code c) k s) (run exec (code c') k s').
Proof using Hdefines Hok Hco Hentry Hfall.
  revert s s'. induction k as [|k IH]; intros s s' Hs; simpl; [by constructor|].
  destruct (step_simulates s s' Hs) as [t t' Ht|]; simpl; [by apply IH|constructor].
Qed.

(** Frames enter with the arguments in the parameter registers. *)
Lemma entry_related unit_ args w :
  length args ≤ as_usize (num_params c) → related (entry unit_ args w) (entry unit_ args w).
Proof using Hok Hco Hentry.
  intros Hargs. assert (Hcl := co_colouring c c' colors Hco).
  assert (Hpn := ok_params c Hok). split; simpl; [done..| |by constructor].
  intros r Hr. assert (Hcase : r < as_usize (num_params c) ∨ r ∈ pinned c).
  { destruct Hr as [?|?]; [by apply Hentry|by right]. }
  destruct (decide (r < as_usize (num_params c))) as [Hlt|Hge]; [by rewrite (cl_params c)|].
  destruct Hcase as [?|Hp]; [done|].
  assert (Hout : ∀ x, ¬ x < as_usize (num_params c) → args !! x = None).
  { intros x ?. apply lookup_ge_None. lia. }
  rewrite !Hout; [done|done|]. intros Hs. apply Hge.
  assert (r = slot colors r) as Heq; [|by rewrite Heq].
  eapply pinned_apart; [done..|lia|]. symmetry. by apply (cl_params c).
Qed.
End Simulation.
End Coalesce.

(** ** The output is well formed *)

Section Output.
Context {P : CodePayloads}.

Lemma regs_ok_slots n op :
  Forall (λ r, r < n) (use_slots op) → Forall (λ r, r < n) (def_slots op) → regs_ok n op.
Proof. unfold use_slots, def_slots, regs_ok. rewrite !List.Forall_map. intros. by apply Forall_app. Qed.

Lemma retain_first_below c colors seen (regs rest : list Reg) :
  chunk_ok c → colouring c colors → retain_first colors seen regs = Some rest →
  Forall (λ r, as_usize r < num_regs c) regs →
  Forall (λ r, as_usize r < as_usize (color_count colors)) rest.
Proof.
  intros Hok Hcl. revert seen rest. induction regs as [|r regs IH]; intros seen rest H Hr; simpl in *.
  { simplify_eq. constructor. }
  apply Forall_cons in Hr as [Hrn Hr]. apply bind_Some in H as (k & Hk & (b & Hb & H)%bind_Some).
  destruct b; [by eapply IH|]. apply bind_Some in H as (rest' & Hrest & [= <-]).
  destruct (color_width c colors _ k Hok Hcl Hk) as [Hm Hs]. constructor; [|by eapply IH].
  rewrite Hm, Hs. apply slot_below_count. by rewrite (cl_length c colors Hcl).
Qed.

Lemma coalesced_ok c c' colors : chunk_ok c → coalesced c c' colors → chunk_ok c'.
Proof.
  intros Hok Hco. assert (Hcl := co_colouring c c' colors Hco).
  assert (Hn : num_regs c' = as_usize (color_count colors)).
  { unfold num_regs. by rewrite (co_registers c c' colors Hco). }
  assert (Hcc := color_count_bound c colors Hcl). assert (Hw := ok_width c Hok).
  assert (Hs : ∀ r, r < num_regs c → slot colors r < num_regs c').
  { intros r Hr. rewrite Hn. apply slot_below_count. by rewrite (cl_length c colors Hcl). }
  split.
  - apply Forall_lookup_2. intros i op' Hop'.
    destruct (Forall2_lookup_r _ _ _ _ _ (co_code c c' colors Hco) Hop') as (op & Hop & Hrec).
    assert (Hro : regs_ok (num_regs c) op).
    { assert (Ho := ok_code c Hok). by eapply Forall_lookup_1 in Hop. }
    destruct (recolored_slots c colors op op' Hok Hcl Hro Hrec) as (Hu & Hd & _).
    apply regs_ok_slots; [rewrite Hu|rewrite Hd]; apply List.Forall_map, Forall_forall;
      intros r Hr; apply Hs; [by eapply regs_ok_use|by eapply regs_ok_def].
  - rewrite (co_registers c c' colors Hco). lia.
  - rewrite (co_params c c' colors Hco). assert (Hp := ok_params c Hok).
    destruct (as_usize (num_params c)) as [|p] eqn:E; [lia|].
    assert (Hsp := Hs p ltac:(lia)). rewrite (cl_params c colors Hcl) in Hsp; lia.
  - rewrite Hn. eapply retain_first_below; [done..|apply Hco|apply Hok].
  - apply Forall_lookup_2. intros i l' Hl'.
    destruct (Forall2_lookup_r _ _ _ _ _ (co_debug c c' colors Hco) Hl') as (l & Hl & _ & _ & ->).
    apply Hs. exact (Forall_lookup_1 _ _ _ _ (ok_debug c Hok) Hl).
Qed.
End Output.
