(* ===== verification/RegallocSplice.v ===== *)
(** Rebuilding code with instructions moved or inserted: where every instruction lands,
    and when the rebuilt code simulates the original.  Shared by constant hoisting and by
    the release of stale reads. *)
From S2P Require Import Prelude Span Ir Bytecode Regalloc RegallocSets RegallocLive.
From S2P Require Import RegallocRemap RegallocMachine.
From stdpp Require Import options.
Open Scope nat_scope.

#[local] Opaque op_facts.

(** ** Layout *)

Section Layout.
Context {P : CodePayloads} (ops : list Op.op) (ins : nat → list Op.op) (keep : nat → bool).
Notation n := (length ops).

(** What stands for instruction [i]: the instructions inserted before it, then itself
    unless it moved away. *)
Definition emit (i : nat) : list Op.op :=
  ins i ++ (if keep i then option_list (ops !! i) else []).
Definition layout_upto (i : nat) : list Op.op := concat (map emit (seq 0 i)).
Definition layout : list Op.op := layout_upto n.

(** Where the block of [i] begins, and where [i] itself is. *)
Definition pos (i : nat) : nat := length (layout_upto i).
Definition own (i : nat) : nat := pos i + length (ins i).

Lemma layout_upto_S i : layout_upto (S i) = layout_upto i ++ emit i.
Proof. unfold layout_upto. rewrite seq_S, map_app, concat_app. simpl. by rewrite app_nil_r. Qed.

Lemma pos_S i : i < n → pos (S i) = own i + (if keep i then 1 else 0).
Proof.
  intros Hi. unfold pos, own. rewrite layout_upto_S, length_app. unfold emit.
  rewrite length_app. destruct (lookup_lt_is_Some_2 ops i Hi) as [op ->].
  destruct (keep i); simpl; unfold pos; lia.
Qed.

Lemma layout_split i : i < n → ∃ rest, layout = layout_upto i ++ emit i ++ rest.
Proof.
  intros Hi. exists (concat (map emit (seq (S i) (n - S i)))). unfold layout, layout_upto.
  replace n with (i + S (n - S i)) at 1 by lia.
  rewrite seq_app, map_app, concat_app. simpl. done.
Qed.

Lemma layout_ins i j o : i < n → ins i !! j = Some o → layout !! (pos i + j) = Some o.
Proof.
  intros Hi Hj. destruct (layout_split i Hi) as [rest ->]. unfold pos, emit.
  rewrite lookup_app_r by lia. replace (_ + j - _) with j by lia.
  rewrite <-app_assoc, lookup_app_l; [done|by eapply lookup_lt_Some].
Qed.

Lemma layout_own i op : keep i = true → ops !! i = Some op → layout !! own i = Some op.
Proof.
  intros Hk Hop. destruct (layout_split i) as [rest ->]; [by eapply lookup_lt_Some|].
  unfold own, pos, emit. rewrite Hk, Hop. rewrite lookup_app_r by lia.
  replace (_ + _ - _) with (length (ins i)) by lia.
  by rewrite <-app_assoc, lookup_app_r, Nat.sub_diag by lia.
Qed.

Lemma own_le i : i < n → own i ≤ length layout.
Proof.
  intros Hi. destruct (layout_split i Hi) as [rest ->]. unfold own, pos, emit.
  rewrite !length_app. lia.
Qed.

Lemma layout_elem op :
  op ∈ layout → op ∈ ops ∨ ∃ i, op ∈ ins i.
Proof.
  unfold layout, layout_upto. rewrite list_elem_of_In, in_concat. intros (l & Hl & Hop).
  apply list_elem_of_In, list_elem_of_fmap in Hl as (i & -> & _).
  apply list_elem_of_In, elem_of_app in Hop as [?|Hop]; [right; by exists i|left].
  destruct (keep i); [|by apply elem_of_nil in Hop].
  destruct (ops !! i) eqn:E; [|by apply elem_of_nil in Hop].
  apply list_elem_of_singleton in Hop as ->. by eapply list_elem_of_lookup_2.
Qed.

Lemma own_lt i : i < n → keep i = true → own i < length layout.
Proof.
  intros Hi Hk. destruct (lookup_lt_is_Some_2 ops i Hi) as [op Hop].
  eapply lookup_lt_Some, layout_own; [exact Hk|exact Hop].
Qed.

(** With nothing inserted or moved it is the original. *)
Lemma layout_none : (∀ i, ins i = []) → (∀ i, keep i = true) → layout = ops.
Proof.
  intros Hi Hk. enough (H : ∀ k, k ≤ n → layout_upto k = take k ops).
  { unfold layout. by rewrite H, firstn_all by done. }
  induction k as [|k IH]; intros Hle; [by rewrite take_0|].
  rewrite layout_upto_S, IH by lia. unfold emit. rewrite Hi, Hk.
  destruct (lookup_lt_is_Some_2 ops k) as [op Hop]; [lia|]. by rewrite (take_S_r _ _ op), Hop.
Qed.

(** A rebuild loop that appends [emit i] and records where kept instructions land. *)
Record emits (f : nat → list Op.op * list N → option (list Op.op * list N)) : Prop := {
  em_step : ∀ i nc remap, i < n → length remap = n →
    ∃ remap', f i (nc, remap) = Some (nc ++ emit i, remap') ∧ length remap' = n ∧
      (keep i = true → remap' !! i = Some (as_u32 (length nc + length (ins i)))) ∧
      ∀ x, keep x = true → x ≠ i → remap' !! x = remap !! x;
}.

Lemma emits_fold f k remap :
  emits f → k ≤ n → length remap = n →
  ∃ remap', fold_opt f (seq 0 k) ([], remap) = Some (layout_upto k, remap') ∧ length remap' = n ∧
    ∀ x, x < k → keep x = true → remap' !! x = Some (as_u32 (own x)).
Proof.
  intros [Hf] Hk Hl. induction k as [|k IH]; [exists remap; split_and!; [done..|lia]|].
  destruct IH as (r1 & H1 & Hl1 & Hr1); [lia|]. destruct (Hf k (layout_upto k) r1) as
    (r2 & H2 & Hl2 & Hown & Hother); [lia|done|].
  exists r2. rewrite seq_S. split_and!; [|done|].
  - rewrite layout_upto_S. clear -H1 H2. revert H1. generalize (@nil Op.op, remap) as s.
    simpl in *. induction (seq 0 k) as [|a l IHl]; intros s H1; simpl in *.
    + injection H1 as ->. by rewrite H2.
    + destruct (f a s); [|done]. by apply IHl.
  - intros x Hx Hkx. destruct (decide (x = k)) as [->|Hne]; [by apply Hown|].
    rewrite Hother by done. apply Hr1; [lia|done].
Qed.
End Layout.

(** ** Simulation *)

Section Simulation.
Context {P : CodePayloads} {Val World : Type}
  (exec : Op.op → list Val → World → Outcome (Val:=Val) (World:=World)).

Lemma run_app ops a b s : run exec ops (a + b) s = run exec ops a s ≫= run exec ops b.
Proof.
  revert s. induction a as [|a IH]; intros s; simpl; [done|].
  destruct (step exec ops s); simpl; [apply IH|done].
Qed.

Context (ops new : list Op.op) (ins : nat → list Op.op) (keep : nat → bool) (remap : list N).
Notation n := (length ops).
Notation own := (own ops ins keep).
Notation pos := (pos ops ins keep).

(** The rebuilt code: the layout with its destinations sent through [remap]; destinations
    stay in the code and land on kept instructions; inserted instructions do not jump. *)
Record rebuilt : Prop := {
  rb_code : Forall2 (λ op op', for_each_jump_pc_mut (λ t, remap !! as_usize t) op = Some op')
              (layout ops ins keep) new;
  rb_remap : ∀ i op t, ops !! i = Some op → t ∈ targets (op_facts op) →
    as_usize t < n ∧ keep (as_usize t) = true ∧
    ∃ t', remap !! as_usize t = Some t' ∧ as_usize t' = own (as_usize t);
  rb_ins : ∀ i o, o ∈ ins i → targets (op_facts o) = [];
}.

Context (Hrb : rebuilt).
Context (Rel Arr : nat → Regs (Val:=Val) → Regs (Val:=Val) → World → Prop).

(** The registers after an instruction with outcome [o]. *)
Definition after (op : Op.op) (o : Outcome (Val:=Val) (World:=World)) (f : Regs (Val:=Val)) :
    Regs (Val:=Val) :=
  write_all (def_slots op) (def_writes o) (write_all (use_slots op) (use_writes o) f).

(** What a pass has to show: kept instructions read the same values and lead to related
    registers, moved ones are silent, and inserted ones turn arrival into relation. *)
Record simulates : Prop := {
  sm_kept : ∀ i op f g w, ops !! i = Some op → keep i = true → Rel i f g w →
    map g (use_slots op) = map f (use_slots op) ∧
    let o := exec (skeleton op) (map f (use_slots op)) w in
    (∀ k t, next o = Branch k → targets (op_facts op) !! k = Some t → as_usize t < n →
       Rel (as_usize t) (after op o f) (after op o g) (world o)) ∧
    (next o = Fall → fallthrough (op_facts op) = true →
       Arr (i + 1) (after op o f) (after op o g) (world o));
  sm_moved : ∀ i f g w, i < n → keep i = false → Rel i f g w →
    ∃ f', step exec ops (mkState i f w) = Some (mkState (i + 1) f' w) ∧ Arr (i + 1) f' g w;
  sm_arrive : ∀ j f g w, j < n → Arr j f g w →
    ∃ g', run exec new (length (ins j)) (mkState (pos j) g w) = Some (mkState (own j) g' w) ∧
      Rel j f g' w;
}.

Context (Hsm : simulates).

(** At the same instruction, or both past the end. *)
Definition matched (s s' : State (Val:=Val) (World:=World)) : Prop :=
  st_world s' = st_world s ∧
  ((pc s < n ∧ pc s' = own (pc s) ∧ Rel (pc s) (regs s) (regs s') (st_world s)) ∨
   (n ≤ pc s ∧ length new ≤ pc s')).

Lemma length_new : length new = pos n.
Proof using Hrb. symmetry. by eapply Forall2_length, rb_code. Qed.

Lemma new_own i op :
  keep i = true → ops !! i = Some op →
  ∃ op', new !! own i = Some op' ∧
    for_each_jump_pc_mut (λ t, remap !! as_usize t) op = Some op'.
Proof using Hrb.
  intros Hk Hop. destruct (Forall2_lookup_l _ _ _ (own i) op (rb_code Hrb)) as (op' & ? & ?);
    [by apply layout_own|]. by exists op'.
Qed.

Lemma arrive j f g w :
  j ≤ n → Arr j f g w →
  ∃ m s', run exec new m (mkState (pos j) g w) = Some s' ∧ matched (mkState j f w) s'.
Proof using Hrb Hsm.
  intros Hj Ha. destruct (decide (j = n)) as [->|Hne].
  - exists 0, (mkState (pos n) g w). split; [done|]. split; [done|]. right. simpl.
    by rewrite length_new.
  - destruct (sm_arrive Hsm j f g w) as (g' & Hrun & Hrel); [lia|done|].
    exists (length (ins j)), (mkState (own j) g' w). split; [done|].
    split; [done|]. left. split_and!; [simpl; lia|done..].
Qed.

(** One step of the original is some steps of the rebuilt code. *)
Lemma step_matched s s' t :
  matched s s' → step exec ops s = Some t →
  ∃ m t', run exec new m s' = Some t' ∧ matched t t'.
Proof using Hrb Hsm.
  intros [Hw [(Hlt & Hpc & Hrel)|[Hge _]]] Hstep;
    [|unfold step in Hstep; by rewrite (proj2 (lookup_ge_None ops (pc s)) Hge) in Hstep].
  destruct s as [i f w], s' as [i' g w']; simpl in *; subst i' w'.
  destruct (keep i) eqn:Hk.
  - destruct (lookup_lt_is_Some_2 ops i Hlt) as [op Hop].
    destruct (new_own i op Hk Hop) as (op' & Hop' & Hj).
    destruct (sm_kept Hsm i op f g w Hop Hk Hrel) as (Hvals & Hbr & Hft).
    destruct (jump_facts _ _ _ Hj) as (Hmt & Hd & Hu & Hf & He).
    unfold step in Hstep. simpl in Hstep. rewrite Hop in Hstep. simpl in Hstep.
    apply bind_Some in Hstep as (j & Hn & [= <-]).
    set (o := exec (skeleton op) (map f (use_slots op)) w) in *.
    assert (Hstep' : ∀ j', next_pc op' (own i) (next o) = Some j' →
      step exec new (mkState (own i) g w) = Some (mkState j' (after op o g) (world o))).
    { intros j' Hn'. unfold step. simpl. rewrite Hop'. simpl.
      rewrite (jump_skeleton _ _ _ Hj). unfold after, use_slots, def_slots, op_defs in *.
      rewrite Hu, Hvals. fold o. by rewrite Hn', Hd, He. }
    destruct (next o) as [|k|] eqn:Ho; simpl in Hn; [| |done].
    + destruct (fallthrough (op_facts op)) eqn:Hff; [|done]. injection Hn as <-.
      destruct (arrive (i + 1) (after op o f) (after op o g) (world o)) as (m & t' & Hrun & Hm);
        [lia|by apply Hft|].
      exists (S m), t'. split; [|exact Hm]. simpl.
      rewrite (Hstep' (own i + 1)) by (simpl; by rewrite Hf). simpl.
      assert (Hp := pos_S ops ins keep i Hlt). rewrite Hk in Hp. by rewrite <-Hp, <-Nat.add_1_r.
    + apply fmap_Some in Hn as (x & Hx & ->).
      assert (Hxin : x ∈ targets (op_facts op)) by by eapply list_elem_of_lookup_2.
      destruct (rb_remap Hrb i op x Hop Hxin) as (Hxn & _ & x' & Hrx & Hox).
      exists 1, (mkState (own (as_usize x)) (after op o g) (world o)). simpl.
      rewrite (Hstep' (own (as_usize x))).
      * split; [done|]. split; [done|]. left. split_and!; [done..|]. by eapply Hbr.
      * apply mapM_Some in Hmt.
        destruct (Forall2_lookup_l _ _ _ k x Hmt Hx) as (x'' & Hk'' & Hx''). unfold next_pc.
        rewrite Hk''. simpl. congruence.
  - destruct (sm_moved Hsm i f g w Hlt Hk Hrel) as (f' & Hs & Ha). rewrite Hs in Hstep.
    injection Hstep as <-. destruct (arrive (i + 1) f' g w) as (m & t' & Hrun & Hm); [lia|done|].
    exists m, t'. split; [|done]. assert (Hp := pos_S ops ins keep i Hlt).
    rewrite Hk, Nat.add_0_r in Hp. by rewrite <-Hp, <-Nat.add_1_r.
Qed.

(** The rebuilt code stops where the original does. *)
Lemma stop_matched s s' : matched s s' → step exec ops s = None → step exec new s' = None.
Proof using Hrb Hsm.
  intros [Hw [(Hlt & Hpc & Hrel)|[_ Hge]]] Hstep;
    [|unfold step; by rewrite (proj2 (lookup_ge_None new (pc s')) Hge)].
  destruct s as [i f w], s' as [i' g w']; simpl in *; subst i' w'.
  destruct (keep i) eqn:Hk;
    [|by destruct (sm_moved Hsm i f g w Hlt Hk Hrel) as (f' & Hs & _); rewrite Hs in Hstep].
  destruct (lookup_lt_is_Some_2 ops i Hlt) as [op Hop].
  destruct (new_own i op Hk Hop) as (op' & Hop' & Hj).
  destruct (sm_kept Hsm i op f g w Hop Hk Hrel) as (Hvals & _).
  destruct (jump_facts _ _ _ Hj) as (Hmt & Hd & Hu & Hf & He).
  unfold step in *. simpl in *. rewrite Hop in Hstep. rewrite Hop'. simpl in *.
  rewrite (jump_skeleton _ _ _ Hj). unfold use_slots in *. rewrite Hu, Hvals.
  destruct (next (exec (skeleton op) (map f (map as_usize (uses (op_facts op)))) w)) as [|k|] eqn:Ho;
    simpl in *; [| |done].
  - by rewrite Hf; destruct (fallthrough (op_facts op)).
  - destruct (targets (op_facts op) !! k) eqn:Ht; [done|].
    rewrite (proj2 (lookup_ge_None _ _)); [done|]. apply mapM_Some, Forall2_length in Hmt.
    apply lookup_ge_None in Ht. lia.
Qed.

Lemma run_matched k s s' t :
  matched s s' → run exec ops k s = Some t → ∃ m t', run exec new m s' = Some t' ∧ matched t t'.
Proof using Hrb Hsm.
  revert s s'. induction k as [|k IH]; intros s s' Hs Hrun; simpl in Hrun.
  { injection Hrun as ->. by exists 0, s'. }
  apply bind_Some in Hrun as (u & Hu & Hrun).
  destruct (step_matched s s' u Hs Hu) as (m & u' & Hm & Hu').
  destruct (IH u u' Hu' Hrun) as (m' & t' & Hm' & Ht). exists (m + m'), t'. split; [|done].
  by rewrite run_app, Hm.
Qed.

(** From the entry of the frame. *)
Lemma entry_matched unit_ args w k t :
  Arr 0 (λ r, default unit_ (args !! r)) (λ r, default unit_ (args !! r)) w →
  run exec ops k (entry unit_ args w) = Some t →
  ∃ m t', run exec new m (entry unit_ args w) = Some t' ∧ matched t t' ∧
    (step exec ops t = None → step exec new t' = None).
Proof using Hrb Hsm.
  intros Ha Hrun. destruct (arrive 0 _ _ w (Nat.le_0_l n) Ha) as (m & s' & Hm & Hs).
  destruct (run_matched k _ s' t Hs Hrun) as (m' & t' & Hm' & Ht). exists (m + m'), t'.
  split; [by rewrite run_app; unfold entry; change 0 with (pos 0); rewrite Hm|].
  split; [done|by apply stop_matched].
Qed.
End Simulation.
