(* ===== verification/RegallocHoist.v ===== *)
(** [hoist_loop_invariant_consts] of [Regalloc]: what its census counts, that the rebuild
    is a [layout], and that the hoisted code simulates the original when each loop it
    hoists out of is entered through its top only. *)
From S2P Require Import Prelude Span Ir Bytecode Regalloc RegallocSets RegallocLive.
From S2P Require Import RegallocColor RegallocRemap RegallocMachine RegallocCoalesce.
From S2P Require Import RegallocSplice.
From stdpp Require Import options.
Open Scope nat_scope.

#[local] Opaque op_facts.

Lemma set_at_ok {A} i (x : A) v : i < length v → set_at i x v = Some (<[i := x]> v).
Proof. intros H. unfold set_at. by destruct (Nat.ltb_spec i (length v)); [|lia]. Qed.

Lemma set_at_Some {A} i (x : A) v v' : set_at i x v = Some v' → i < length v ∧ v' = <[i := x]> v.
Proof. unfold set_at. destruct (Nat.ltb_spec i (length v)); [|done]. by intros [= <-]. Qed.

(** ** The census *)

Section Census.
Context {P : CodePayloads}.

(** Marks are only ever added. *)
Lemma marks_kept (g : N → list bool → option (list bool)) (l : list N) v v' :
  (∀ u v v', g u v = Some v' → length v' = length v ∧
     ∀ x, v !! x = Some true → v' !! x = Some true) →
  fold_opt g l v = Some v' → length v' = length v ∧ ∀ x, v !! x = Some true → v' !! x = Some true.
Proof.
  intros Hg. revert v. induction l as [|u l IH]; intros v H; simpl in *; [by simplify_eq|].
  destruct (g u v) as [v1|] eqn:E; [|done]. destruct (Hg u v v1 E) as [Hl Hk].
  destruct (IH v1 H) as [Hl' Hk']. split; [congruence|]. auto.
Qed.

Lemma marks_set (g : N → list bool → option (list bool)) (p : N → Prop) (l : list N) v v' u :
  (∀ u v v', g u v = Some v' → length v' = length v ∧
     (∀ x, v !! x = Some true → v' !! x = Some true) ∧ (p u → v' !! as_usize u = Some true)) →
  fold_opt g l v = Some v' → u ∈ l → p u → v' !! as_usize u = Some true.
Proof.
  intros Hg. revert v. induction l as [|a l IH]; intros v H Hu Hp; simpl in *;
    [by apply elem_of_nil in Hu|].
  destruct (g a v) as [v1|] eqn:E; [|done]. destruct (Hg a v v1 E) as (_ & _ & Hs).
  apply elem_of_cons in Hu as [->|Hu]; [|by eapply IH].
  eapply (marks_kept g l v1 v'); [|done|by apply Hs]. intros w x x' Hx.
  destruct (Hg w x x' Hx) as (? & ? & _). done.
Qed.

Lemma mark_spec (b : bool) u (v v' : list bool) :
  (if b then set_at (as_usize u) true v else Some v) = Some v' →
  length v' = length v ∧ (∀ x, v !! x = Some true → v' !! x = Some true) ∧
  (b = true → v' !! as_usize u = Some true).
Proof.
  destruct b; [|by intros [= <-]]. intros [Hl ->]%set_at_Some. rewrite length_insert.
  split; [done|]. split; [|intros _; by apply list_lookup_insert_eq].
  intros x Hx. apply list_lookup_insert_Some. destruct (decide (as_usize u = x)) as [<-|]; auto.
Qed.

(** How often [d] is the [def] of an instruction. *)
Definition defs_of (d : Reg) (ops : list Op.op) : nat :=
  length (filter (λ op, def (op_facts op) = Some d) ops).

(** What the census of [ops] says of a register and of a position. *)
Record counted (ops : list Op.op) (s s' : Census) : Prop := {
  ct_defs : ∀ d c, def_count s !! as_usize d = Some c →
    def_count s' !! as_usize d = Some (c + N.of_nat (defs_of d ops))%N;
  ct_uses_kept : ∀ x, nonarith_use s !! x = Some true → nonarith_use s' !! x = Some true;
  ct_uses : ∀ op u, op ∈ ops → is_arith op = false → u ∈ uses (op_facts op) →
    nonarith_use s' !! as_usize u = Some true;
  ct_targets_kept : ∀ x, is_target s !! x = Some true → is_target s' !! x = Some true;
  ct_targets : ∀ n op t, n = length (is_target s) → op ∈ ops → t ∈ targets (op_facts op) →
    as_usize t < n → is_target s' !! as_usize t = Some true;
  ct_length : length (is_target s') = length (is_target s);
}.

Lemma census_op_counted op s s' :
  census_op (length (is_target s)) op s = Some s' → counted [op] s s'.
Proof.
  unfold census_op. intros (dc & Hdc & (nu & Hnu & (it & Hit & [= <-])%bind_Some)%bind_Some)%bind_Some.
  assert (Hit' : ∀ u v v', (if as_usize u <? length (is_target s) then set_at (as_usize u) true v
      else Some v) = Some v' → length v' = length v ∧
      (∀ x, v !! x = Some true → v' !! x = Some true) ∧
      (as_usize u < length (is_target s) → v' !! as_usize u = Some true)).
  { intros u v v' H. destruct (mark_spec _ u v v' H) as (? & ? & Hs). split_and!; [done..|].
    intros ?. by apply Hs, Nat.ltb_lt. }
  destruct (marks_kept _ _ _ _ (λ u v v' H, let '(conj a (conj b _)) := Hit' u v v' H in conj a b) Hit)
    as [Hl Hk].
  split; simpl.
  - intros d c Hc. unfold defs_of. rewrite filter_cons, filter_nil.
    destruct (def (op_facts op)) as [d'|] eqn:Hd; [|simplify_eq; simpl; rewrite Hc; f_equal; lia].
    apply bind_Some in Hdc as (c' & Hc' & [Hlt ->]%set_at_Some). case_decide as Hdd.
    + injection Hdd as ->. rewrite Hc in Hc'. injection Hc' as <-.
      rewrite list_lookup_insert_eq by done. done.
    + rewrite list_lookup_insert_ne by (intros ?%N2Nat.inj; congruence). rewrite Hc. f_equal.
      simpl. lia.
  - intros x Hx. destruct (is_arith op); [by simplify_eq|].
    eapply marks_kept; [|exact Hnu|done]. intros u v v' [? ->]%set_at_Some.
    rewrite length_insert. split; [done|]. intros y Hy. apply list_lookup_insert_Some.
    destruct (decide (as_usize u = y)) as [<-|]; auto.
  - intros op' u ->%list_elem_of_singleton Ha Hu. rewrite Ha in Hnu.
    eapply (marks_set _ (λ _, True)); [|exact Hnu|done|done]. intros w v v' H.
    destruct (mark_spec true w v v' H) as (? & ? & ?). split_and!; auto.
  - done.
  - intros n op' t -> ->%list_elem_of_singleton Ht Hlt.
    by eapply (marks_set _ _ _ _ _ t Hit').
  - done.
Qed.

Lemma counted_trans ops1 ops2 s1 s2 s3 :
  counted ops1 s1 s2 → counted ops2 s2 s3 → counted (ops1 ++ ops2) s1 s3.
Proof.
  intros [A1 A2 A3 A4 A5 A6] [B1 B2 B3 B4 B5 B6]. split.
  - intros d c Hc. rewrite (B1 d _ (A1 d c Hc)). f_equal. unfold defs_of.
    rewrite filter_app, length_app. lia.
  - auto.
  - intros op u [Hop|Hop]%elem_of_app; eauto.
  - auto.
  - intros n op t Hn [Hop|Hop]%elem_of_app Ht Hlt; [eauto|]. apply (B5 n op); congruence || done.
  - congruence.
Qed.

Lemma census_counted ops s s' :
  fold_opt (census_op (length (is_target s))) ops s = Some s' → counted ops s s'.
Proof.
  revert s. induction ops as [|op ops IH]; intros s H; simpl in H.
  - injection H as <-. split; try done; [|by intros ? ? ?%elem_of_nil|by intros ? ? ? _ ?%elem_of_nil].
    intros d c ->. unfold defs_of. rewrite filter_nil. f_equal. simpl. lia.
  - destruct (census_op _ op s) as [s1|] eqn:E; [|done]. assert (Hc := census_op_counted op s s1 E).
    apply (counted_trans [op] ops s s1 s'); [done|]. apply IH. by rewrite (ct_length _ _ _ Hc).
Qed.
End Census.

(** ** The selection *)

Section Select.
Context {P : CodePayloads} (c : Chunk).
Notation ops := (code c).
Notation n := (length (code c)).

(** Registers, constants and destinations are in range. *)
Record code_closed : Prop := {
  cc_code : code_ok (num_regs c) ops;
  cc_consts : ∀ d k, Op.LoadConst d k ∈ ops → as_usize k < length (consts c);
  cc_jumps : ∀ op t, op ∈ ops → t ∈ targets (op_facts op) → as_usize t < n;
}.

Definition selection : option (list (option nat)) :=
  s ← census ops (num_regs c); hoist_select c s.

(** [p] loads the constant [k] into [d] and is moved before the loop top [top]. *)
Record selected (sel : list (option nat)) (p top : nat) (d : Reg) (k : N) : Prop := {
  se_sel : sel !! p = Some (Some top);
  se_op : ops !! p = Some (Op.LoadConst d k);
  se_prim : ∃ x, consts c !! as_usize k = Some x ∧ is_primitive_const x = true;
  se_loop : ∃ last, (top, last) ∈ loops_of ops ∧ top < p ∧ p ≤ last;
  se_once : ∀ i op, ops !! i = Some op → def (op_facts op) = Some d → i = p;
  se_arith : ∀ op, op ∈ ops → is_arith op = false → d ∉ uses (op_facts op);
  se_target : ∀ op t, op ∈ ops → t ∈ targets (op_facts op) → as_usize t ≠ p;
}.

Definition census_start : Census :=
  mkCensus (replicate (num_regs c) 0%N) (replicate (num_regs c) false) (replicate n false).

(** The vectors keep their sizes. *)
Definition sized (s : Census) : Prop :=
  length (def_count s) = num_regs c ∧ length (nonarith_use s) = num_regs c ∧
  length (is_target s) = n.

Lemma census_op_total op s :
  regs_ok (num_regs c) op → sized s → ∃ s', census_op n op s = Some s' ∧ sized s'.
Proof.
  intros [Hu Hd]%Forall_app (H1 & H2 & H3). unfold census_op.
  assert (∃ dc, match def (op_facts op) with
    | Some d => c ← def_count s !! as_usize d; set_at (as_usize d) (c + 1)%N (def_count s)
    | None => Some (def_count s) end = Some dc ∧ length dc = num_regs c) as (dc & -> & Hdc).
  { unfold op_defs in Hd. destruct (def (op_facts op)) as [d|]; [|by eexists].
    apply Forall_app in Hd as [[Hd _]%Forall_cons _]. simpl in Hd.
    destruct (lookup_lt_is_Some_2 (def_count s) (as_usize d)) as [x ->]; [lia|]. simpl.
    rewrite set_at_ok by lia. eexists. split; [done|]. by rewrite length_insert. }
  simpl. assert (∃ nu, (if is_arith op then Some (nonarith_use s) else
    fold_opt (λ u, set_at (as_usize u) true) (uses (op_facts op)) (nonarith_use s)) = Some nu ∧
    length nu = num_regs c) as (nu & -> & Hnu).
  { destruct (is_arith op); [by eexists|].
    apply (fold_opt_ok _ (λ u, as_usize u < num_regs c) (λ v, length v = num_regs c)); [|done..].
    intros u v Hlt Hv. rewrite set_at_ok by lia. eexists. split; [done|]. by rewrite length_insert. }
  simpl. edestruct (fold_opt_ok (λ t it, if as_usize t <? n then set_at (as_usize t) true it else Some it)
    (λ _ : N, True) (λ v, length v = n) (targets (op_facts op)) (is_target s))
    as (it & Hit & Hlit); [|by apply Forall_true|done|].
  { intros t v _ Hv. destruct (Nat.ltb_spec (as_usize t) n); [|by eexists].
    rewrite set_at_ok by lia. eexists. split; [done|]. by rewrite length_insert. }
  rewrite Hit. simpl. by eexists.
Qed.

Lemma census_total :
  code_closed → ∃ s, census ops (num_regs c) = Some s ∧ sized s ∧ counted ops census_start s.
Proof.
  intros Hc. destruct (fold_opt_ok (census_op n) (regs_ok (num_regs c)) sized ops census_start)
    as (s & Hs & Hsz); [intros op s Hop Hsz; by apply census_op_total|apply Hc|
    by unfold sized, census_start; simpl; rewrite !length_replicate|].
  exists s. split; [exact Hs|]. split; [done|]. apply census_counted. simpl.
  by rewrite length_replicate.
Qed.

Lemma innermost_top_in loops p top :
  innermost_top loops p = Some top → ∃ last, (top, last) ∈ loops ∧ top < p ∧ p ≤ last.
Proof.
  unfold innermost_top. set (tops := map fst _). intros H.
  assert (Ht : top ∈ tops).
  { destruct tops as [|x l]; [done|]. injection H as <-.
    assert (Hg : ∀ (y : nat) ys, foldr Nat.max 0 (y :: ys) ∈ y :: ys); [|apply Hg].
    intros y ys. revert y. induction ys as [|z ys IH]; intros y; simpl.
    - rewrite Nat.max_0_r. by apply list_elem_of_singleton.
    - specialize (IH z). simpl in IH. apply elem_of_cons.
      destruct (Nat.max_dec y (Nat.max z (foldr Nat.max 0 ys))) as [->| ->]; [by left|by right]. }
  apply list_elem_of_fmap in Ht as ([t last] & -> & Hin%list_elem_of_filter). simpl in *.
  exists last. naive_solver.
Qed.

Lemma defs_of_pos d (l : list Op.op) op :
  op ∈ l → def (op_facts op) = Some d → 1 ≤ defs_of d l.
Proof.
  intros Hop Hd. unfold defs_of.
  assert (Hin : op ∈ filter (λ op, def (op_facts op) = Some d) l) by by apply list_elem_of_filter.
  destruct (filter _ l); [by apply elem_of_nil in Hin|simpl; lia].
Qed.

Lemma defs_of_one d (l : list Op.op) i j op op' :
  defs_of d l = 1 → l !! i = Some op → l !! j = Some op' →
  def (op_facts op) = Some d → def (op_facts op') = Some d → i = j.
Proof.
  intros Hone Hi Hj Hd Hd'. rewrite <-(take_drop_middle l i op Hi) in Hone.
  unfold defs_of in Hone. rewrite filter_app, filter_cons, decide_True, length_app in Hone by done.
  simpl in Hone. fold (defs_of d (take i l)) (defs_of d (drop (S i) l)) in Hone.
  destruct (lt_eq_lt_dec i j) as [[Hlt|?]|Hgt]; [|done|]; exfalso.
  - assert (Hp : 1 ≤ defs_of d (drop (S i) l)); [|lia]. apply (defs_of_pos d _ op'); [|done].
    apply list_elem_of_lookup. exists (j - S i). rewrite lookup_drop.
    by replace (S i + (j - S i)) with j by lia.
  - assert (Hp : 1 ≤ defs_of d (take i l)); [|lia]. apply (defs_of_pos d _ op'); [|done].
    apply list_elem_of_lookup. exists j. by rewrite lookup_take_lt.
Qed.

(** Everything the census and the loop regions say of a moved load. *)
Lemma hoist_target_selected s p top sel :
  sized s → counted ops census_start s → sel !! p = Some (Some top) →
  hoist_target c s p = Some (Some top) → ∃ d k, selected sel p top d k.
Proof.
  intros Hsz [C1 _ C3 _ C5 _] Hsel. unfold hoist_target.
  intros (t & Ht & H)%bind_Some. destruct t; [done|].
  destruct (ops !! p) as [[]|] eqn:Hop; try done.
  apply bind_Some in H as (x & Hx & H). destruct (is_primitive_const x) eqn:Hprim; [|done].
  simpl in H. apply bind_Some in H as (dc & Hdc & H).
  destruct (N.eqb_spec dc 1) as [->|]; [|done]. simpl in H.
  apply bind_Some in H as (nu & Hnu & H). destruct nu; [done|]. injection H as Htop.
  assert (Hp : p < n) by by eapply lookup_lt_Some.
  assert (Hone : defs_of dst ops = 1).
  { destruct Hsz as (Hl & _). assert (Hlt := lookup_lt_Some _ _ _ Hdc).
    specialize (C1 dst 0%N). rewrite Hdc in C1.
    assert (Some 1%N = Some (0 + N.of_nat (defs_of dst ops))%N) as [= Heq]; [|lia].
    apply C1. simpl. apply lookup_replicate. split; [done|lia]. }
  exists dst, k. split; [done|done|by exists x|by apply innermost_top_in| | |].
  - intros i op Hi Hd. by eapply (defs_of_one dst ops i p op).
  - intros op Hin Ha Hu. by rewrite (C3 op dst Hin Ha Hu) in Hnu.
  - intros op t Hin Htt Heq.
    assert (Some true = Some false) as [=]. rewrite <-Ht, <-Heq. symmetry.
    apply (C5 n op t); [by simpl; rewrite length_replicate|done|done|lia].
Qed.

Lemma selection_spec sel :
  selection = Some sel → code_closed →
  length sel = n ∧ ∀ p top, sel !! p = Some (Some top) → ∃ d k, selected sel p top d k.
Proof.
  intros Hsel Hc. destruct (census_total Hc) as (s & Hs & Hsz & Hcnt).
  unfold selection in Hsel. rewrite Hs in Hsel. simpl in Hsel.
  apply mapM_Some in Hsel. assert (Hl := Forall2_length _ _ _ Hsel). rewrite length_seq in Hl.
  split; [done|]. intros p top Hp. eapply hoist_target_selected; [done..|].
  destruct (Forall2_lookup_r _ _ _ p _ Hsel Hp) as (x & Hx & H).
  apply lookup_seq in Hx as [-> _]. exact H.
Qed.

Lemma hoist_target_total s p :
  code_closed → sized s → p < n → is_Some (hoist_target c s p).
Proof.
  intros Hc (H1 & H2 & H3) Hp. unfold hoist_target.
  destruct (lookup_lt_is_Some_2 (is_target s) p) as [t ->]; [lia|]. simpl.
  destruct t; [by eexists|]. destruct (lookup_lt_is_Some_2 ops p Hp) as [op Hop]. rewrite Hop.
  assert (Hin : op ∈ ops) by by eapply list_elem_of_lookup_2.
  assert (Hro : regs_ok (num_regs c) op) by exact (Forall_lookup_1 _ _ _ _ (cc_code Hc) Hop).
  destruct op; try by eexists. destruct (lookup_lt_is_Some_2 (consts c) (as_usize k)) as [x ->].
  { by eapply cc_consts. }
  simpl. destruct (is_primitive_const x); simpl; [|by eexists].
  assert (Hd : as_usize dst < num_regs c) by (apply Forall_app in Hro as [_ [Hd _]%Forall_cons]; exact Hd).
  destruct (lookup_lt_is_Some_2 (def_count s) (as_usize dst)) as [dc ->]; [lia|]. simpl.
  destruct (negb (dc =? 1)%N); [by eexists|].
  destruct (lookup_lt_is_Some_2 (nonarith_use s) (as_usize dst)) as [nu ->]; [lia|]. simpl.
  destruct nu; by eexists.
Qed.

Lemma selection_total : code_closed → is_Some selection.
Proof.
  intros Hc. destruct (census_total Hc) as (s & Hs & Hsz & _). unfold selection. rewrite Hs. simpl.
  apply mapM_total, Forall_forall. intros p ?%elem_of_seq. apply hoist_target_total; [done..|lia].
Qed.

(** ** The rebuild *)

(** What stands before [i], and what stays. *)
Definition preheader (sel : list (option nat)) (i : nat) : list Op.op :=
  omap (λ p, ops !! p) (hoist_at sel i).
Definition stays (sel : list (option nat)) (i : nat) : bool := negb (hoisted sel i).

Lemma elem_hoist_at sel top p : p ∈ hoist_at sel top ↔ sel !! p = Some (Some top).
Proof.
  unfold hoist_at. rewrite list_elem_of_filter, elem_of_seq. split; [by intros []|].
  intros H. split; [done|]. apply lookup_lt_Some in H. lia.
Qed.

Lemma hoisted_spec sel p : hoisted sel p = true ↔ ∃ top, sel !! p = Some (Some top).
Proof.
  unfold hoisted. destruct (sel !! p) as [[top|]|]; split; try done; [by exists top|..];
    by intros [].
Qed.

Lemma hoist_emit_emits sel :
  length sel = n → emits ops (preheader sel) (stays sel) (hoist_emit ops sel).
Proof.
  intros Hl. split. intros i nc remap Hi Hr. unfold hoist_emit.
  assert (Hin : ∀ ps nc remap, (∀ p, p ∈ ps → p < n ∧ hoisted sel p = true) → length remap = n →
    ∃ remap', fold_opt (λ src '(nc, remap), op ← ops !! src;
        remap ← set_at src (as_u32 (length nc)) remap; Some (nc ++ [op], remap)) ps (nc, remap)
      = Some (nc ++ omap (λ p, ops !! p) ps, remap') ∧ length remap' = n ∧
      ∀ x, stays sel x = true → remap' !! x = remap !! x).
  { clear nc remap Hr. induction ps as [|p ps IH]; intros nc remap Hps Hr; simpl.
    - exists remap. by rewrite app_nil_r.
    - destruct (Hps p) as [Hp Hh]; [apply elem_of_cons; by left|].
      destruct (lookup_lt_is_Some_2 ops p Hp) as [op Hop]. rewrite Hop. simpl.
      rewrite set_at_ok by lia. simpl.
      destruct (IH (nc ++ [op]) (<[p := as_u32 (length nc)]> remap)) as (r' & -> & Hl' & Hx).
      + intros q ?. apply Hps. apply elem_of_cons. by right.
      + by rewrite length_insert.
      + exists r'. rewrite <-app_assoc. split_and!; [done..|]. intros x Hk. rewrite Hx by done.
        apply list_lookup_insert_ne. intros ->. unfold stays in Hk. by rewrite Hh in Hk. }
  destruct (Hin (hoist_at sel i) nc remap) as (r1 & -> & Hl1 & Hx1); [|done|].
  { intros p Hp%elem_hoist_at. split; [apply lookup_lt_Some in Hp; lia|].
    apply hoisted_spec. by exists i. }
  simpl. unfold emit, stays in *. destruct (hoisted sel i) eqn:Hh; simpl.
  - exists r1. rewrite app_nil_r. split_and!; [done..|]. intros x Hk _. by apply Hx1.
  - destruct (lookup_lt_is_Some_2 ops i Hi) as [op Hop]. rewrite Hop. simpl.
    rewrite set_at_ok by lia. simpl. eexists. rewrite app_assoc. split; [done|].
    rewrite length_insert. split; [done|]. split.
    + intros _. rewrite list_lookup_insert_eq by lia. by rewrite length_app.
    + intros x Hk Hne. rewrite list_lookup_insert_ne by done. by apply Hx1.
Qed.
End Select.

(** ** Simulation *)

Section Simulation.
Context {P : CodePayloads} {Val World : Type}
  (exec : Op.op → list Val → World → Outcome (Val:=Val) (World:=World)) (cst : N → Val).
Context (c : Chunk).
Notation ops := (code c).
Notation n := (length (code c)).

(** A constant load writes its constant and nothing else. *)
Definition loads_constants : Prop := ∀ k x w,
  consts c !! as_usize k = Some x → is_primitive_const x = true →
  exec (Op.LoadConst 0 k) [] w = mkOutcome Fall [Some (cst k)] [] w.

(** [Binary] and [WideInt] borrow their operands: they never clear a register they read. *)
Definition arith_borrows : Prop := ∀ op vals w,
  is_arith op = true → Forall (λ v, v = None) (use_writes (exec (skeleton op) vals w)).

(** No destination inside [top .. last] is jumped to from outside. *)
Definition closed (top last : nat) : Prop := ∀ i op t,
  ops !! i = Some op → t ∈ targets (op_facts op) → top ≤ as_usize t ≤ last → top ≤ i ≤ last.

(** [i] is in a region that contains [p] and is entered by falling into [top] only. *)
Definition inside (top p i : nat) : Prop := ∃ last, closed top last ∧ p ≤ last ∧ top ≤ i ≤ last.

(** Where hoisting is sound: the regions loads are moved out of are entered through their
    top, and a constant's register is written by its load alone and not read before. *)
Record hoist_ok : Prop := {
  ho_entered : ∀ sel p top, selection c = Some sel → sel !! p = Some (Some top) →
    inside top p p;
  ho_fresh : ∀ d k, Op.LoadConst d k ∈ ops → ¬ live_at ops (as_usize d) 0;
  ho_extra : ∀ op d k, op ∈ ops → Op.LoadConst d k ∈ ops → extra_defs op ≠ Some d;
}.

Context (Hloads : loads_constants) (Hborrow : arith_borrows).
Context (Hcc : code_closed c) (Hho : hoist_ok).
Context (sel : list (option nat)) (Hsel : selection c = Some sel).
Context (new : list Op.op) (remap : list N).
Context (Hrb : rebuilt ops new (preheader c sel) (stays sel) remap).

Notation Regs := (Regs (Val:=Val)).
Notation own := (own ops (preheader c sel) (stays sel)).
Notation pos := (pos ops (preheader c sel) (stays sel)).

(** The registers of moved loads. *)
Definition moved_dst (p : nat) : option nat :=
  match ops !! p with
  | Some (Op.LoadConst d _) => if hoisted sel p then Some (as_usize d) else None
  | _ => None
  end.
Definition moved_reg (r : nat) : Prop := r ∈ omap moved_dst (seq 0 n).

Lemma moved_reg_spec r : moved_reg r ↔ ∃ p top d k, selected c sel p top d k ∧ r = as_usize d.
Proof using Hsel Hcc.
  unfold moved_reg, moved_dst. rewrite list_elem_of_omap. split.
  - intros (p & _ & H). destruct (ops !! p) as [[]|] eqn:Hop; try done.
    destruct (hoisted sel p) eqn:Hh; [|done]. injection H as <-.
    apply hoisted_spec in Hh as [top Hp]. destruct (selection_spec c sel Hsel Hcc) as [_ Hspec].
    destruct (Hspec p top Hp) as (d & k' & Hs). exists p, top, d, k'. split; [done|].
    assert (H := se_op _ _ _ _ _ _ Hs). congruence.
  - intros (p & top & d & k & Hs & ->). exists p. rewrite (se_op _ _ _ _ _ _ Hs).
    rewrite (proj2 (hoisted_spec sel p)) by (exists top; apply (se_sel _ _ _ _ _ _ Hs)).
    split; [|done]. apply elem_of_seq. assert (H := lookup_lt_Some _ _ _ (se_op _ _ _ _ _ _ Hs)). lia.
Qed.

(** The registers before [i]: equal but for those of moved loads, which hold their
    constant in both where they are live, and in the new code wherever control is in the
    region.  On arrival at a top its own loads are still to run. *)
Definition agree (arriving : bool) (i : nat) (f g : Regs) : Prop :=
  (∀ r, ¬ moved_reg r → g r = f r) ∧
  (∀ p top d k, selected c sel p top d k →
     (live_at ops (as_usize d) i → f (as_usize d) = cst k ∧ g (as_usize d) = cst k) ∧
     (inside top p i → (arriving = true → top ≠ i) → g (as_usize d) = cst k)).

Lemma selected_inj p top d k p' top' d' k' :
  selected c sel p top d k → selected c sel p' top' d' k' → as_usize d = as_usize d' →
  p = p' ∧ top = top' ∧ k = k'.
Proof.
  intros [H1 H2 _ _ H5 _ _] [H1' H2' _ _ _ _ _] Hd%N2Nat.inj. subst d'.
  assert (p' = p) as -> by (eapply H5; [exact H2'|done]). simplify_eq. done.
Qed.

Lemma write_all_same rs vs (f g : Regs) r : g r = f r → write_all rs vs g r = write_all rs vs f r.
Proof.
  revert vs f g. induction rs as [|x rs IH]; intros [|v vs] f g H; simpl; try done.
  apply IH. destruct v; simpl; [|done]. by case_decide.
Qed.

Lemma write_all_none rs vs (f : Regs) : Forall (λ v, v = None) vs → write_all rs vs f = f.
Proof.
  revert vs f. induction rs as [|x rs IH]; intros [|v vs] f H; simpl; try done.
  apply Forall_cons in H as [-> H]. by apply IH.
Qed.

(** A kept instruction leaves the registers of moved loads alone. *)
Lemma moved_untouched i op vals w p top d k (f : Regs) :
  ops !! i = Some op → stays sel i = true → selected c sel p top d k →
  as_usize d ∉ def_slots op ∧
  after op (exec (skeleton op) vals w) f (as_usize d) = f (as_usize d).
Proof using Hborrow Hho.
  intros Hop Hk Hs. assert (Hin : op ∈ ops) by by eapply list_elem_of_lookup_2.
  assert (Hd : as_usize d ∉ def_slots op).
  { unfold def_slots, op_defs. rewrite list_elem_of_fmap.
    intros (x & Hx%N2Nat.inj & [Hin'|Hin']%elem_of_app); subst x.
    - destruct (def (op_facts op)) as [x|] eqn:Hdef; [|by apply elem_of_nil in Hin'].
      apply list_elem_of_singleton in Hin' as ->. assert (i = p) as -> by by eapply se_once.
      unfold stays, hoisted in Hk. by rewrite (se_sel _ _ _ _ _ _ Hs) in Hk.
    - destruct (extra_defs op) as [x|] eqn:Hex; [|by apply elem_of_nil in Hin'].
      apply list_elem_of_singleton in Hin' as ->. eapply ho_extra; [done..| |done].
      eapply list_elem_of_lookup_2, se_op, Hs. }
  split; [done|]. unfold after. rewrite write_all_other by done.
  destruct (is_arith op) eqn:Ha; [by rewrite write_all_none by by apply Hborrow|].
  apply write_all_other. unfold use_slots. rewrite list_elem_of_fmap.
  intros (x & ->%N2Nat.inj & Hx). by eapply se_arith.
Qed.

Lemma agree_step i j op vals w arriving (f g : Regs) :
  ops !! i = Some op → stays sel i = true → agree false i f g →
  (j < n → j ∈ succs n i op) →
  (∀ p top, inside top p j → (arriving = true → top ≠ j) → inside top p i) →
  agree arriving j (after op (exec (skeleton op) vals w) f) (after op (exec (skeleton op) vals w) g).
Proof using Hborrow Hho.
  intros Hop Hk [Ha1 Ha2] Hj Hins. split.
  - intros r Hr. unfold after. by apply write_all_same, write_all_same, Ha1.
  - intros p top d k Hs. destruct (Ha2 p top d k Hs) as [Hlive Hin].
    destruct (moved_untouched i op vals w p top d k f Hop Hk Hs) as [Hd ->].
    destruct (moved_untouched i op vals w p top d k g Hop Hk Hs) as [_ ->]. split.
    + intros Hl. apply Hlive. eapply live_through; [done..| |done].
      apply Hj. by eapply (live_in_code c).
    + intros Hi Htop. apply Hin; [by apply Hins|done].
Qed.

Lemma inside_jump i op t top p :
  ops !! i = Some op → t ∈ targets (op_facts op) → inside top p (as_usize t) → inside top p i.
Proof.
  intros Hop Ht (last & Hc & Hp & Hi). exists last. split; [done|]. split; [done|].
  by eapply Hc.
Qed.

Lemma inside_next i top p : inside top p (i + 1) → top ≠ i + 1 → inside top p i.
Proof. intros (last & Hc & Hp & Hi) Hne. exists last. split_and!; [done..|lia|lia]. Qed.

(** ** The pre-header *)

Definition load_all (ps : list nat) (g : Regs) : Regs :=
  foldl (λ g p, match ops !! p with
    | Some (Op.LoadConst d k) => write (as_usize d) (Some (cst k)) g
    | _ => g
    end) g ps.

Lemma load_step code i d k top p f w :
  code !! i = Some (Op.LoadConst d k) → selected c sel p top d k →
  step exec code (mkState i f w) = Some (mkState (i + 1) (write (as_usize d) (Some (cst k)) f) w).
Proof using Hloads.
  intros Hop Hs. destruct (se_prim _ _ _ _ _ _ Hs) as (x & Hx & Hprim).
  eapply step_load; [done|by apply (Hloads k x w)].
Qed.

Lemma elem_preheader i o : o ∈ preheader c sel i →
  ∃ p d k, o = Op.LoadConst d k ∧ selected c sel p i d k.
Proof using Hsel Hcc.
  unfold preheader. rewrite list_elem_of_omap. intros (p & Hp%elem_hoist_at & Hop).
  destruct (selection_spec c sel Hsel Hcc) as [_ Hspec]. destruct (Hspec p i Hp) as (d & k & Hs).
  exists p, d, k. split; [|done]. assert (H := se_op _ _ _ _ _ _ Hs). congruence.
Qed.

Lemma run_loads ps a g w :
  (∀ p, p ∈ ps → ∃ top d k, selected c sel p top d k) →
  (∀ j o, omap (λ p, ops !! p) ps !! j = Some o → new !! (a + j) = Some o) →
  run exec new (length (omap (λ p, ops !! p) ps)) (mkState a g w) =
    Some (mkState (a + length (omap (λ p, ops !! p) ps)) (load_all ps g) w).
Proof using Hloads.
  revert a g. induction ps as [|p ps IH]; intros a g Hps Hnew.
  { simpl. by rewrite Nat.add_0_r. }
  destruct (Hps p) as (top & d & k & Hs); [apply elem_of_cons; by left|].
  assert (Hop := se_op _ _ _ _ _ _ Hs). simpl in *. rewrite Hop in *. simpl in *.
  assert (H0 := Hnew 0 _ eq_refl). rewrite Nat.add_0_r in H0.
  rewrite (load_step new a d k top p g w H0 Hs). simpl. rewrite IH.
  - by rewrite <-Nat.add_assoc.
  - intros q ?. apply Hps, elem_of_cons. by right.
  - intros j o Hj. rewrite <-Nat.add_assoc. by apply (Hnew (S j)).
Qed.

Lemma load_all_other ps g r :
  (∀ p d k, p ∈ ps → ops !! p = Some (Op.LoadConst d k) → as_usize d ≠ r) → load_all ps g r = g r.
Proof.
  unfold load_all. revert g. induction ps as [|p ps IH]; intros g H; simpl; [done|].
  rewrite IH by (intros q d k ?; apply H; apply elem_of_cons; by right).
  destruct (ops !! p) as [[]|] eqn:Hop; try done. simpl. rewrite decide_False; [done|].
  intros ->. eapply H; [apply elem_of_cons; by left|exact Hop|done].
Qed.

(** A moved load's register holds its constant after a pre-header that contains the load,
    or that it held it before. *)
Lemma load_all_moved ps g p top d k :
  (∀ q, q ∈ ps → ∃ top d k, selected c sel q top d k) → selected c sel p top d k →
  p ∈ ps ∨ g (as_usize d) = cst k → load_all ps g (as_usize d) = cst k.
Proof.
  intros Hps Hs. unfold load_all. revert g. induction ps as [|q ps IH]; intros g Hor; simpl.
  { destruct Hor as [H|H]; [by apply elem_of_nil in H|done]. }
  destruct (Hps q) as (t' & d' & k' & Hq); [apply elem_of_cons; by left|].
  rewrite (se_op _ _ _ _ _ _ Hq).
  apply IH; [intros x ?; apply Hps, elem_of_cons; by right|]. simpl.
  destruct (decide (as_usize d = as_usize d')) as [Heq|Hne].
  - right. destruct (selected_inj _ _ _ _ _ _ _ _ Hs Hq Heq) as (_ & _ & ->). done.
  - destruct Hor as [[->|Hp]%elem_of_cons|Hg]; [|by left|by right].
    destruct (se_op _ _ _ _ _ _ Hs), Hne.
    assert (H1 := se_op _ _ _ _ _ _ Hs). assert (H2 := se_op _ _ _ _ _ _ Hq). congruence.
Qed.

Lemma inserted_new j i o :
  i < n → preheader c sel i !! j = Some o → new !! (pos i + j) = Some o.
Proof using Hrb Hsel Hcc.
  intros Hi Ho. assert (Hlay := layout_ins ops (preheader c sel) (stays sel) i j o Hi Ho).
  destruct (Forall2_lookup_l _ _ _ _ _ (rb_code _ _ _ _ _ Hrb) Hlay) as (o' & Ho' & Hj).
  rewrite Ho'. apply list_elem_of_lookup_2 in Ho.
  destruct (elem_preheader i o Ho) as (p & d & k & -> & _). symmetry. exact Hj.
Qed.

Lemma agree_arrive j f g w :
  j < n → agree true j f g →
  ∃ g', run exec new (length (preheader c sel j)) (mkState (pos j) g w) =
      Some (mkState (own j) g' w) ∧ agree false j f g'.
Proof using Hloads Hrb Hsel Hcc.
  intros Hj [Ha1 Ha2]. exists (load_all (hoist_at sel j) g).
  assert (Hps : ∀ q, q ∈ hoist_at sel j → ∃ top d k, selected c sel q top d k).
  { intros q Hq%elem_hoist_at. destruct (selection_spec c sel Hsel Hcc) as [_ Hspec].
    exists j. by apply Hspec. }
  split; [apply run_loads; [done|]; intros x o Hx; by apply inserted_new|]. split.
  - intros r Hr. rewrite load_all_other; [by apply Ha1|]. intros p d k Hp Hop <-. apply Hr, moved_reg_spec.
    destruct (Hps p Hp) as (top & d' & k' & Hs). exists p, top, d', k'. split; [done|].
    assert (H := se_op _ _ _ _ _ _ Hs). congruence.
  - intros p top d k Hs. destruct (Ha2 p top d k Hs) as [Hlive Hin]. split.
    + intros Hl. destruct (Hlive Hl) as [Hf Hg]. split; [done|].
      eapply load_all_moved; [done..|by right].
    + intros Hi _. eapply load_all_moved; [done..|].
      destruct (decide (top = j)) as [->|Hne]; [left|right].
      * apply elem_hoist_at. apply (se_sel _ _ _ _ _ _ Hs).
      * by apply Hin.
Qed.

Lemma agree_values i op f g :
  ops !! i = Some op → agree false i f g → map g (use_slots op) = map f (use_slots op).
Proof using Hsel Hcc.
  intros Hop [Ha1 Ha2]. apply map_eq_Forall, Forall_forall. intros r Hr.
  destruct (decide (r ∈ omap moved_dst (seq 0 n))) as [Hm|Hm]; [|by apply Ha1].
  apply moved_reg_spec in Hm as (p & top & d & k & Hs & ->).
  destruct (Ha2 p top d k Hs) as [Hlive _]. destruct Hlive as [-> ->]; [by eapply live_use|done].
Qed.

Lemma hoist_simulates :
  simulates exec ops new (preheader c sel) (stays sel) (λ i f g _, agree false i f g) (λ i f g _, agree true i f g).
Proof using Hloads Hborrow Hcc Hho Hsel Hrb.
  split.
  - intros i op f g w Hop Hk Ha. assert (Hi : i < n) by by eapply lookup_lt_Some.
    split; [by eapply agree_values|]. simpl. split.
    + intros k t _ Htt%list_elem_of_lookup_2 Ht. eapply agree_step; [done..| |].
      * intros _. unfold succs. apply list_elem_of_filter. split; [done|].
        apply elem_of_app. right. by apply list_elem_of_fmap_2.
      * intros p top Hin _. by eapply inside_jump.
    + intros _ Hft. eapply agree_step; [done..| |].
      * intros Hn. unfold succs. apply list_elem_of_filter. split; [done|].
        apply elem_of_app. left. rewrite Hft. by apply list_elem_of_singleton.
      * intros p top Hin Hne. by apply inside_next, Hne.
  - intros i f g w Hi Hk [Ha1 Ha2]. unfold stays in Hk. apply negb_false_iff, hoisted_spec in Hk as [top Hp].
    destruct (selection_spec c sel Hsel Hcc) as [_ Hspec]. destruct (Hspec i top Hp) as (d & k & Hs).
    assert (Hop := se_op _ _ _ _ _ _ Hs).
    exists (write (as_usize d) (Some (cst k)) f). split; [by eapply load_step|]. split.
    + intros r Hr. simpl. rewrite decide_False; [by apply Ha1|]. intros ->. apply Hr, moved_reg_spec.
      by exists i, top, d, k.
    + intros p' top' d' k' Hs'. destruct (Ha2 p' top' d' k' Hs') as [Hlive Hin]. split.
      * intros Hl. simpl. destruct (decide (as_usize d' = as_usize d)) as [Heq|Hne].
        { destruct (selected_inj _ _ _ _ _ _ _ _ Hs' Hs Heq) as (-> & -> & ->).
          split; [done|]. apply Hin; [|done]. by eapply ho_entered. }
        apply Hlive. eapply (live_through _ _ i _ (i + 1)); [exact Hop| | |done].
        -- unfold def_slots, op_defs. simpl. by intros ?%list_elem_of_singleton.
        -- unfold succs. apply list_elem_of_filter. split; [by eapply (live_in_code c)|].
           apply elem_of_app. left. by apply list_elem_of_singleton.
      * intros Hi' Hne. apply Hin; [by apply inside_next, Hne|done].
  - intros j f g w Hj Ha. by apply agree_arrive.
Qed.
End Simulation.

(** ** The hoisted prototype *)

Section Result.
Context {P : CodePayloads} (c : Chunk) (Hcc : code_closed c).
Notation ops := (code c).
Notation n := (length (code c)).

(** What [hoist_loop_invariant_consts] returns when it moves something. *)
Lemma hoist_rebuilt sel remap new :
  selection c = Some sel → length remap = n →
  (∀ x, x < n → stays sel x = true → remap !! x = Some (as_u32 (own ops (preheader c sel) (stays sel) x))) →
  fix_jumps remap (layout ops (preheader c sel) (stays sel)) = Some new →
  (N.of_nat (length new) < 2 ^ 32)%N →
  rebuilt ops new (preheader c sel) (stays sel) remap.
Proof using Hcc.
  intros Hsel Hlr Hr Hfix Hnew. unfold fix_jumps in Hfix. apply mapM_Some in Hfix.
  assert (Hlen := Forall2_length _ _ _ Hfix). split; [done| |].
  - intros i op t Hop Ht. assert (Hin : op ∈ ops) by by eapply list_elem_of_lookup_2.
    assert (Htn := cc_jumps c Hcc op t Hin Ht). split; [done|].
    assert (Hst : stays sel (as_usize t) = true).
    { unfold stays. apply negb_true_iff. destruct (hoisted sel (as_usize t)) eqn:Hh; [|done].
      apply hoisted_spec in Hh as [top Hp]. destruct (selection_spec c sel Hsel Hcc) as [_ Hspec].
      destruct (Hspec _ top Hp) as (d & k & Hs). by destruct (se_target _ _ _ _ _ _ Hs op t Hin Ht). }
    split; [done|]. eexists. split; [by apply Hr|]. unfold as_u32, as_usize.
    assert (Ho := own_le ops (preheader c sel) (stays sel) (as_usize t) Htn).
    unfold as_usize in Ho. rewrite N.mod_small, Nat2N.id; [done|]. lia.
  - intros i o Ho. by destruct (elem_preheader c Hcc sel Hsel i o Ho) as (p & d & k & -> & _).
Qed.

Lemma fix_jumps_total ins keep remap :
  length remap = n → (∀ i o, o ∈ ins i → targets (op_facts o) = []) →
  is_Some (fix_jumps remap (layout ops ins keep)).
Proof using Hcc.
  intros Hr Hins. apply mapM_total, Forall_forall. intros op Hop. apply jump_total, Forall_forall.
  intros t Ht. apply lookup_lt_is_Some_2. rewrite Hr.
  apply (layout_elem ops ins keep) in Hop as [Hop|(i & Hi)]; [by eapply cc_jumps|].
  rewrite (Hins i op Hi) in Ht. by apply elem_of_nil in Ht.
Qed.

Lemma preheader_targets sel i o :
  selection c = Some sel → o ∈ preheader c sel i → targets (op_facts o) = [].
Proof using Hcc. intros Hsel Ho. by destruct (elem_preheader c Hcc sel Hsel i o Ho) as (p & d & k & -> & _). Qed.

(** The result of the pass when it moves something. *)
Record hoisted_to (sel : list (option nat)) (remap : list N) (c' : Chunk) : Prop := {
  ht_sel : selection c = Some sel;
  ht_length : length remap = n;
  ht_remap : ∀ x, x < n → stays sel x = true →
    remap !! x = Some (as_u32 (own ops (preheader c sel) (stays sel) x));
  ht_code : fix_jumps remap (layout ops (preheader c sel) (stays sel)) = Some (code c');
  ht_lines : mapM (hoist_entry sel remap (length (code c'))) (line_table c) = Some (line_table c');
  ht_rest : c' = with_code c (code c') (line_table c');
}.

Lemma hoisted_rebuilt sel remap c' :
  hoisted_to sel remap c' → (N.of_nat (length (code c')) < 2 ^ 32)%N →
  rebuilt ops (code c') (preheader c sel) (stays sel) remap.
Proof using Hcc. intros [? ? ? ? _ _] ?. by apply hoist_rebuilt. Qed.

(** The pass returns, and moved nothing or rebuilt the code. *)
Lemma hoist_spec :
  ∃ c', hoist_loop_invariant_consts c = Some c' ∧
    (c' = c ∨ ∃ sel remap, hoisted_to sel remap c').
Proof using Hcc.
  destruct (selection_total c Hcc) as [sel Hsel]. assert (Hselection := Hsel).
  unfold selection in Hsel. apply bind_Some in Hsel as (s & Hs & Hsel).
  unfold hoist_loop_invariant_consts, num_regs in *.
  destruct (loops_of ops); [by eauto|]. rewrite Hs. simpl. rewrite Hsel. simpl.
  destruct (negb _); [by eauto|].
  destruct (selection_spec c sel Hselection Hcc) as [Hl _].
  destruct (emits_fold ops (preheader c sel) (stays sel) (hoist_emit ops sel) n (replicate n 0%N))
    as (remap & Hf & Hlr & Hr); [by apply hoist_emit_emits|done|by rewrite length_replicate|].
  rewrite Hf. simpl. destruct (fix_jumps_total (preheader c sel) (stays sel) remap Hlr) as [new Hfix];
    [intros i o; by apply preheader_targets|]. unfold layout in Hfix. rewrite Hfix. simpl.
  destruct (mapM_total (hoist_entry sel remap (length new)) (line_table c)) as [table Ht].
  { apply Forall_true. intros e. unfold hoist_entry. apply bind_is_Some; [|by eexists].
    case_match eqn:Hlt; [|by eexists]. apply lookup_lt_is_Some_2. apply Nat.ltb_lt in Hlt. congruence || lia. }
  rewrite Ht. simpl. eexists. split; [done|]. right. exists sel, remap. by split; simpl; auto.
Qed.
End Result.

(** ** Runs *)

Section Runs.
Context {P : CodePayloads} {Val World : Type}
  (exec : Op.op → list Val → World → Outcome (Val:=Val) (World:=World)) (cst : N → Val).

Lemma hoist_entry_agrees (c : Chunk) sel (f : Regs (Val:=Val)) :
  hoist_ok c → agree cst c sel true 0 f f.
Proof.
  intros Hho. split; [done|]. intros p top d k Hs. split.
  - intros Hl. exfalso. eapply ho_fresh; [done| |done].
    eapply list_elem_of_lookup_2, (se_op _ _ _ _ _ _ Hs).
  - intros (last & _ & _ & Htop & _) Hne. lia.
Qed.

Lemma hoist_runs c c' unit_ args w k t :
  code_closed c → hoist_ok c → loads_constants exec cst c → arith_borrows exec →
  (c' = c ∨ ∃ sel remap, hoisted_to c sel remap c') → (N.of_nat (length (code c')) < 2 ^ 32)%N →
  run exec (code c) k (entry unit_ args w) = Some t →
  ∃ m t', run exec (code c') m (entry unit_ args w) = Some t' ∧ st_world t' = st_world t ∧
    (∀ r, live_at (code c) r (pc t) → regs t' r = regs t r) ∧
    (step exec (code c) t = None → step exec (code c') t' = None).
Proof.
  intros Hcc Hho Hloads Hborrow Hshape Hlen Hrun.
  destruct Hshape as [->|(sel & remap & Hto)]; [by exists k, t|].
  assert (Hrb := hoisted_rebuilt c Hcc sel remap c' Hto Hlen). assert (Hsel := ht_sel _ _ _ _ Hto).
  destruct (entry_matched exec (code c) (code c') _ _ remap Hrb _ _
    (hoist_simulates exec cst c Hloads Hborrow Hcc Hho sel Hsel (code c') remap Hrb)
    unit_ args w k t) as (m & t' & Hm & [Hw Hpos] & Hstop); [by apply hoist_entry_agrees|done|].
  exists m, t'. split; [done|]. split; [done|]. split; [|done]. intros r Hl.
  assert (Hlt := live_in_code c r (pc t) Hl). destruct Hpos as [(_ & _ & Ha1 & Ha2)|[? _]]; [|lia].
  destruct (decide (r ∈ omap (moved_dst c sel) (seq 0 (length (code c))))) as [Hin|Hout];
    [|by apply Ha1].
  apply (moved_reg_spec c Hcc sel Hsel) in Hin as (p & top & d & kk & Hs & ->).
  destruct (Ha2 p top d kk Hs) as [Hlive _]. by destruct (Hlive Hl) as [-> ->].
Qed.
End Runs.

(** ** Deciding the conditions *)

Section Decide.
Context {P : CodePayloads} (c : Chunk).
Notation ops := (code c).

Definition code_closedb : bool :=
  bool_decide (code_ok (num_regs c) ops) &&
  all (λ op, match op with
             | Op.LoadConst _ k => as_usize k <? length (consts c) | _ => true end) ops &&
  all (λ op, all (λ t, as_usize t <? length ops) (targets (op_facts op))) ops.

Lemma code_closedb_sound : code_closedb = true → code_closed c.
Proof.
  intros [[H1%bool_decide_eq_true H2]%andb_true_iff H3]%andb_true_iff. split; [done|..].
  - intros d k Hin. apply (proj1 (all_forall _ _) H2) in Hin. by apply Nat.ltb_lt.
  - intros op t Hin Ht. apply (proj1 (all_forall _ _) H3) in Hin.
    apply (proj1 (all_forall _ _) Hin) in Ht. by apply Nat.ltb_lt.
Qed.

Definition in_region (top last i : nat) : bool := (top <=? i) && (i <=? last).

Lemma in_region_spec top last i : in_region top last i = true ↔ top ≤ i ≤ last.
Proof. unfold in_region. by rewrite andb_true_iff, !Nat.leb_le. Qed.

Definition closedb (top last : nat) : bool :=
  all (λ '(i, op), all (λ t, negb (in_region top last (as_usize t)) || in_region top last i)
                     (targets (op_facts op))) (enumerate ops).

Lemma closedb_sound top last : closedb top last = true → closed c top last.
Proof.
  intros H i op t Hop Ht Htop. apply elem_enumerate in Hop.
  apply (proj1 (all_forall _ _) H) in Hop. apply (proj1 (all_forall _ _) Hop) in Ht.
  apply orb_true_iff in Ht as [Ht%negb_true_iff|Ht]; [|by apply in_region_spec].
  apply in_region_spec in Htop. congruence.
Qed.

(** The region of some loop with this top is closed and holds [p]. *)
Definition enteredb (sel : list (option nat)) (p : nat) : bool :=
  match sel !! p with
  | Some (Some top) =>
      any (λ l, (l.1 =? top) && (p <=? l.2) && (top <=? p) && closedb top l.2) (loops_of ops)
  | _ => true
  end.

Definition freshb (ins : list BitSet.bitset) (op : Op.op) : bool :=
  match op with
  | Op.LoadConst d _ =>
      all (λ t, bool_decide (as_usize d ∉ t)) (take 1 ins) &&
      all (λ o, bool_decide (extra_defs o ≠ Some d)) ops
  | _ => true
  end.

Definition hoist_okb : bool :=
  match selection c, entry_sets ops (num_regs c) with
  | Some sel, Some ins => all (enteredb sel) (seq 0 (length sel)) && all (freshb ins) ops
  | _, _ => false
  end.

Lemma hoist_okb_sound : code_ok (num_regs c) ops → hoist_okb = true → hoist_ok c.
Proof.
  intros Hok H. unfold hoist_okb in H. destruct (selection c) as [sel|] eqn:Hsel; [|done].
  destruct (entry_sets_spec ops (num_regs c) Hok) as (ins & Hins & [Hl _] & Hlive).
  rewrite Hins in H. apply andb_true_iff in H as [He Hf].
  assert (Hfr : ∀ d k, Op.LoadConst d k ∈ ops → freshb ins (Op.LoadConst d k) = true).
  { intros d k Hin. by apply (proj1 (all_forall _ _) Hf). }
  split.
  - intros sel' p top Hs' Hp. rewrite Hsel in Hs'. injection Hs' as <-. assert (Hlt := lookup_lt_Some _ _ _ Hp).
    apply (proj1 (all_forall _ _)) with (x := p) in He; [|apply elem_of_seq; lia].
    unfold enteredb in He. rewrite Hp in He. apply any_exists in He as ([t last] & _ & He).
    simpl in He. apply andb_true_iff in He as [[[Ht Hpl]%andb_true_iff Htp]%andb_true_iff Hc].
    apply Nat.leb_le in Hpl, Htp. exists last. split; [by apply closedb_sound|]. lia.
  - intros d k Hin Hl0. apply Hfr, andb_true_iff in Hin as [Hin _].
    assert (H0 : 0 < length ins) by (rewrite Hl; by eapply (live_in_code c)).
    destruct ins as [|t ins]; simpl in *; [lia|]. apply andb_true_iff in Hin as [Hin _].
    apply bool_decide_eq_true in Hin. apply Hin. by apply (Hlive 0 t).
  - intros op d k Hop Hin. apply Hfr, andb_true_iff in Hin as [_ Hin].
    apply (proj1 (all_forall _ _) Hin) in Hop. by apply bool_decide_eq_true in Hop.
Qed.
End Decide.
