(* ===== verification/RegallocRelease.v ===== *)
(** [release_stale_global_loads] of [Regalloc]: the registers it drops are dead, still
    hold the read of the global about to be taken, and belong to no one else; the code
    with the drops simulates the original. *)
From S2P Require Import Prelude Span Ir Bytecode Regalloc RegallocSets RegallocLive.
From S2P Require Import RegallocColor RegallocRemap RegallocMachine RegallocCoalesce.
From S2P Require Import RegallocSplice RegallocHoist.
From stdpp Require Import options.
Open Scope nat_scope.

#[local] Opaque op_facts.

(** ** The backward scan *)

Lemma insert_keeps i s s' j : BitSet.insert i s = Some s' → j ∈ s ∨ j = i → j ∈ s'.
Proof.
  unfold BitSet.insert. intros (w & Hw & [= <-])%bind_Some H.
  apply (elem_update i j w _ s Hw). case_decide as Hd.
  - rewrite N.lor_spec, bit_testbit, orb_true_iff, bool_decide_eq_true by apply mod_64.
    destruct H as [H| ->]; [left|by right]. apply elem_word in H as (v & Hv & Hb).
    rewrite Hd in Hv. simplify_eq. done.
  - destruct H as [H| ->]; done.
Qed.

Lemma inserts_keep (l : list Reg) s s' j :
  fold_opt (λ d, BitSet.insert (as_usize d)) l s = Some s' →
  j ∈ s ∨ j ∈ map as_usize l → j ∈ s'.
Proof.
  revert s. induction l as [|d l IH]; intros s H Hj; simpl in *.
  - injection H as <-. destruct Hj as [?|?%elem_of_nil]; done.
  - destruct (BitSet.insert (as_usize d) s) as [s1|] eqn:E; [|done]. apply (IH s1); [done|].
    destruct Hj as [?|[->|?]%elem_of_cons]; [left; eapply insert_keeps; eauto..|by right].
Qed.

Section Scan.
Context {P : CodePayloads} (ops : list Op.op) (bs : list bool) (g : GlobalId) (dst : Reg).
Context (out pins : BitSet.bitset).

(** [r] was read from the global at [k] and still holds that read at [i]: nothing in
    between writes it or the global, and no block begins. *)
Record stale (k i : nat) (r : Reg) : Prop := {
  st_load : ∃ sp, ops !! k = Some (Op.LoadGlobal r g sp);
  st_before : k < i;
  st_kept : ∀ j op, k < j → j < i → ops !! j = Some op →
    as_usize r ∉ def_slots op ∧ rewrites_global g op = false;
  st_block : ∀ j, k < j → j ≤ i → bs !! j = Some false;
}.

Definition droppable (r : Reg) : Prop := r ≠ dst ∧ as_usize r ∉ out ∧ as_usize r ∉ pins.

Lemma stale_load_spec redefined op r :
  stale_load g dst redefined out pins op = Some (Some r) →
  (∃ sp, op = Op.LoadGlobal r g sp) ∧ droppable r ∧ as_usize r ∉ redefined.
Proof.
  unfold stale_load. destruct op; try done. case_match eqn:Hc; [|done].
  apply andb_true_iff in Hc as [->%bool_decide_eq_true Hne%bool_decide_eq_true].
  intros (a & Ha & H)%bind_Some. destruct a; [done|].
  apply bind_Some in H as (b & Hb & H). destruct b; [done|].
  apply bind_Some in H as (d & Hd & H). destruct d; [done|]. injection H as <-.
  unfold droppable, elem_of, bitset_elem_of. rewrite Ha, Hb, Hd. split; [by eexists|].
  by split_and!.
Qed.

(** [p] is the take, [i] where the scan stands: what it collects is stale at [p]. *)
Lemma scan_back_spec p i redefined at_take res r :
  scan_back ops bs g dst out pins i redefined at_take = Some res → i ≤ p →
  (∀ j op, i ≤ j → j < p → ops !! j = Some op →
     rewrites_global g op = false ∧ ∀ x, x ∈ def_slots op → x ∈ redefined) →
  (∀ j, i < j → j ≤ p → bs !! j = Some false) →
  r ∈ res → r ∈ at_take ∨ (droppable r ∧ ∃ k, stale k p r).
Proof.
  revert redefined at_take. induction i as [|i IH]; intros redefined at_take Hscan Hip Hbetween Hblock Hr;
    simpl in Hscan; [injection Hscan as <-; by left|].
  apply bind_Some in Hscan as (b & Hb & Hscan). destruct b; [injection Hscan as <-; by left|].
  apply bind_Some in Hscan as (op & Hop & Hscan).
  destruct (rewrites_global g op) eqn:Hrw; [injection Hscan as <-; by left|].
  apply bind_Some in Hscan as (st & Hst & (red' & Hred & Hscan)%bind_Some).
  apply (IH red' _ Hscan) in Hr; [|lia|..].
  - destruct Hr as [[?|Hr]%elem_of_app|?]; [by left| |by right]. right.
    destruct st as [r'|]; [|by apply elem_of_nil in Hr]. apply list_elem_of_singleton in Hr as ->.
    apply stale_load_spec in Hst as ([sp ->] & Hd & Hnr). split; [done|]. exists i. split.
    + by exists sp.
    + lia.
    + intros j o Hj1 Hj2 Ho. destruct (Hbetween j o ltac:(lia) Hj2 Ho) as [? Hx].
      split; [|done]. intros Hin. by apply Hnr, Hx.
    + intros j Hj1 Hj2. destruct (decide (j = S i)) as [->|]; [done|]. apply Hblock; lia.
  - intros j o Hj1 Hj2 Ho. destruct (decide (j = i)) as [->|Hne].
    + simplify_eq. split; [done|]. intros x Hx. eapply inserts_keep; [exact Hred|by right].
    + destruct (Hbetween j o ltac:(lia) Hj2 Ho) as [? Hx]. split; [done|].
      intros x ?. eapply inserts_keep; [exact Hred|left; by apply Hx].
  - intros j Hj1 Hj2. destruct (decide (j = S i)) as [->|]; [done|]. apply Hblock; lia.
Qed.
End Scan.

(** ** What is dropped *)

Section Drops.
Context {P : CodePayloads} (c : Chunk) (Hok : chunk_ok c).
Notation ops := (code c).
Notation n := (length (code c)).

(** The drops of the pass before each instruction. *)
Definition drop_lists : option (list (list Reg)) :=
  bs ← block_start ops;
  pins ← pinned_set c;
  liveness ← analyze ops (num_regs c);
  mapM (drops_at c bs pins liveness) (seq 0 n).

Lemma pinned_set_spec pins : pinned_set c = Some pins → ∀ r, r ∈ pinned c → r ∈ pins.
Proof.
  unfold pinned_set. intros (s & Hs & H)%bind_Some r. unfold pinned.
  rewrite (fold_opt_map (λ d, BitSet.insert (as_usize d)) ld_reg) in H.
  intros [Hr|Hr]%elem_of_app; (eapply inserts_keep; [exact H|]); [left|right].
  - eapply inserts_keep; [exact Hs|by right].
  - by rewrite map_map.
Qed.

(** A register dropped before [p] is dead there, pinned by no one, and holds a stale read
    of the global [p] takes. *)
Lemma drop_lists_spec drops p ds r :
  drop_lists = Some drops → drops !! p = Some ds → r ∈ ds →
  ∃ dst g sp bs k, ops !! p = Some (Op.TakeGlobal dst g sp) ∧ block_start ops = Some bs ∧
    stale ops bs g k p r ∧ r ≠ dst ∧ ¬ live_at ops (as_usize r) p ∧ as_usize r ∉ pinned c.
Proof using Hok.
  unfold drop_lists. intros (bs & Hbs & (pins & Hpins & (L & HL & Hd)%bind_Some)%bind_Some)%bind_Some Hp Hr.
  apply mapM_Some in Hd. destruct (Forall2_lookup_r _ _ _ p ds Hd Hp) as (x & Hx & Hds).
  apply lookup_seq in Hx as [-> Hpn]. simpl in Hds. unfold drops_at in Hds.
  destruct (ops !! p) as [op|] eqn:Hop; [|done].
  destruct op; try (injection Hds as <-; by apply elem_of_nil in Hr).
  apply bind_Some in Hds as (out & Hout & Hscan).
  destruct (analyze_sets ops (num_regs c) (ok_code c Hok)) as (L' & HL' & _ & Hlive).
  rewrite HL in HL'. injection HL' as <-.
  apply (scan_back_spec ops bs global dst out pins p p _ _ _ r) in Hscan as [?%elem_of_nil|Hst];
    [done| |done|lia|lia|done].
  destruct Hst as [(Hne & Hout' & Hpin) [k Hst]].
  exists dst, global, span, bs, k. split_and!; [done..| |].
  - intros Hl. inversion Hl as [i' op Hop' Hu|i' op j Hop' Hnd Hj Hlj]; simplify_eq.
    + unfold use_slots in Hu. simpl in Hu. by apply elem_of_nil in Hu.
    + apply Hout', (Hlive p _ out _ Hop Hout). by exists j.
  - intros Hin. by apply Hpin, (pinned_set_spec pins Hpins).
Qed.
End Drops.

(** ** Block starts *)

Section Blocks.
Context {P : CodePayloads} (ops : list Op.op).
Notation n := (length ops).

(** [v'] has the marks of [v] and maybe more. *)
Definition marks (v v' : list bool) : Prop :=
  length v' = length v ∧ ∀ x, v !! x = Some true → v' !! x = Some true.

#[local] Instance marks_preorder : PreOrder marks.
Proof. split; [by intros v|]. intros u v w [? ?] [? ?]. split; [congruence|auto]. Qed.

Lemma fold_marks {A} (f : A → list bool → option (list bool)) l v v' :
  (∀ a u u', f a u = Some u' → marks u u') → fold_opt f l v = Some v' →
  marks v v' ∧ ∀ a, a ∈ l → ∃ u u', marks v u ∧ f a u = Some u' ∧ marks u' v'.
Proof.
  intros Hf. revert v. induction l as [|a l IH]; intros v H; simpl in *.
  { injection H as ->. split; [done|]. by intros a ?%elem_of_nil. }
  destruct (f a v) as [v1|] eqn:E; [|done]. destruct (IH v1 H) as [Hm Hin].
  assert (H1 := Hf a v v1 E). split; [by transitivity v1|].
  intros b [->|Hb]%elem_of_cons; [by exists v, v1|].
  destruct (Hin b Hb) as (u & u' & Hu & ? & ?). exists u, u'. split; [by transitivity v1|done].
Qed.

Lemma mark_target_spec t u u' :
  (if as_usize t <? n then set_at (as_usize t) true u else Some u) = Some u' →
  marks u u' ∧ (as_usize t < n → u' !! as_usize t = Some true).
Proof.
  intros H. destruct (mark_spec _ t u u' H) as (? & ? & Hs). split; [done|].
  intros ?. by apply Hs, Nat.ltb_lt.
Qed.

Lemma block_mark_spec i op u u' :
  block_mark n i op u = Some u' →
  marks u u' ∧ ∀ t, t ∈ targets (op_facts op) → as_usize t < n → u' !! as_usize t = Some true.
Proof.
  unfold block_mark. intros (v & Hv & Hf)%bind_Some.
  assert (Huv : marks u v).
  { destruct (_ && _); [|by injection Hv as ->]. apply set_at_Some in Hv as [? ->].
    split; [by rewrite length_insert|]. intros x Hx. apply list_lookup_insert_Some.
    destruct (decide (i + 1 = x)) as [<-|]; auto. }
  apply fold_marks in Hf as [Hm Hin]; [|intros t w w' Hw; by apply mark_target_spec in Hw as [? _]].
  split; [by transitivity v|]. intros t Ht Hlt. destruct (Hin t Ht) as (w & w' & _ & Hw & [_ Hk]).
  apply mark_target_spec in Hw as [_ Hw]. by apply Hk, Hw.
Qed.

(** A destination inside the code begins a block. *)
Lemma block_start_spec bs op t :
  block_start ops = Some bs → op ∈ ops → t ∈ targets (op_facts op) → as_usize t < n →
  bs !! as_usize t = Some true.
Proof.
  unfold block_start. intros (v & Hv & Hf)%bind_Some [i Hop]%list_elem_of_lookup Ht Hlt.
  apply set_at_Some in Hv as [_ ->].
  assert (Hlen : ∀ u, marks (<[0 := true]> (replicate n false)) u → length u = n).
  { intros u [-> _]. by rewrite length_insert, length_replicate. }
  apply fold_marks in Hf as [_ Hin]; [|intros [j o] u u' H; by apply block_mark_spec in H as [? _]].
  destruct (Hin (i, op)) as (u & u' & _ & Hu & [_ Hk]); [by apply elem_enumerate|].
  apply Hk. by eapply block_mark_spec.
Qed.
End Blocks.

(** ** Simulation *)

(** What the pass relies on of the machine: [holds w g v], the global [g] still owns [v]
    in the world [w], and [stores op g], the instruction [op] may run code (a function it
    calls, say) that stores or takes [g].  A load leaves the global owning what it loads;
    a global stops owning a value only by a store or a take, the frame's own or one of
    code an instruction runs; an instruction that clears a register it consumes clears it
    to [unit]; and releasing [unit], or a value some global owns, changes nothing. *)
Record globals_ok {P : CodePayloads} {Val World : Type}
    (exec : Op.op → list Val → World → Outcome (Val:=Val) (World:=World)) (unit_ : Val)
    (stores : Op.op → GlobalId → Prop) (holds : World → GlobalId → Val → Prop) : Prop := {
  gl_load : ∀ g sp w, next (exec (Op.LoadGlobal 0 g sp) [] w) = Fall →
    ∃ v, def_writes (exec (Op.LoadGlobal 0 g sp) [] w) = [Some v] ∧
      holds (world (exec (Op.LoadGlobal 0 g sp) [] w)) g v;
  gl_kept : ∀ op vals w g v, rewrites_global g op = false → ¬ stores (skeleton op) g →
    holds w g v → holds (world (exec (skeleton op) vals w)) g v;
  gl_clear : ∀ op vals w v, Some v ∈ use_writes (exec (skeleton op) vals w) → v = unit_;
  gl_drop : ∀ v w, v = unit_ ∨ (∃ g, holds w g v) →
    exec (Op.Drop 0 false) [v] w = mkOutcome Fall [Some unit_] [] w;
}.

(** From the load at [k] to the take at [p] of one global: no store or take of it in
    between, and no jump into the stretch. *)
Record awaits {P : CodePayloads} (ops : list Op.op) (g : GlobalId) (k p : nat) : Prop := {
  aw_load : ∃ r sp, ops !! k = Some (Op.LoadGlobal r g sp);
  aw_take : ∃ dst sp, ops !! p = Some (Op.TakeGlobal dst g sp);
  aw_before : k < p;
  aw_kept : ∀ j op, k < j → j < p → ops !! j = Some op → rewrites_global g op = false;
  aw_jump : ∀ op t, op ∈ ops → t ∈ targets (op_facts op) → ¬ (k < as_usize t ≤ p);
}.

(** The condition on the code: nothing that runs between a read of a global and the take
    that follows it stores that global. *)
Definition calm {P : CodePayloads} (stores : Op.op → GlobalId → Prop) (ops : list Op.op) : Prop :=
  ∀ g k p, awaits ops g k p → ∀ j op, k < j → j < p → ops !! j = Some op →
    ¬ stores (skeleton op) g.

(** A test for it: no instruction between any read of a global and any later take of it
    runs code that stores the global. *)
Definition calmb {P : CodePayloads} (stores : Op.op → GlobalId → Prop)
    `{∀ op g, Decision (stores op g)} (ops : list Op.op) : bool :=
  forallb (λ '(k, op), match op with
    | Op.LoadGlobal _ g _ => forallb (λ '(p, op'), match op' with
        | Op.TakeGlobal _ g' _ => bool_decide (g' ≠ g) ||
            forallb (λ o, bool_decide (¬ stores (skeleton o) g)) (take (p - k) (drop k ops))
        | _ => true
        end) (imap pair ops)
    | _ => true
    end) (imap pair ops).

Lemma calmb_sound {P : CodePayloads} stores `{∀ op g, Decision (stores op g)} ops :
  calmb stores ops = true → calm stores ops.
Proof.
  intros Hb g k p [(r & sp & Hk) (dst & sp' & Hp) Hkp _ _] j op Hkj Hjp Hop.
  assert (Hat : ∀ i o, ops !! i = Some o → In (i, o) (imap pair ops)).
  { intros i o Ho. apply list_elem_of_In, list_elem_of_lookup. exists i. by rewrite list_lookup_imap, Ho. }
  unfold calmb in Hb. rewrite forallb_forall in Hb. specialize (Hb _ (Hat k _ Hk)). simpl in Hb.
  rewrite forallb_forall in Hb. specialize (Hb _ (Hat p _ Hp)). simpl in Hb.
  apply orb_true_iff in Hb as [Hne%bool_decide_eq_true|Hb]; [done|].
  rewrite forallb_forall in Hb. apply (bool_decide_eq_true_1 (¬ stores (skeleton op) g)), Hb.
  apply list_elem_of_In, list_elem_of_lookup. exists (j - k).
  rewrite lookup_take_lt by lia. rewrite lookup_drop. by replace (k + (j - k)) with j by lia.
Qed.

Section Simulation.
Context {P : CodePayloads} {Val World : Type}
  (exec : Op.op → list Val → World → Outcome (Val:=Val) (World:=World))
  (unit_ : Val) (stores : Op.op → GlobalId → Prop) (holds : World → GlobalId → Val → Prop).
Context (Hdefines : defines exec) (Hgl : globals_ok exec unit_ stores holds).
Context (c : Chunk) (Hok : chunk_ok c) (Hfall : fallback_ok c).
Context (Hclosed : code_closed c) (Hcalm : calm stores (code c)).
Context (drops : list (list Reg)) (Hdrops : drop_lists c = Some drops).
Context (bs : list bool) (Hbs : block_start (code c) = Some bs).
Notation ops := (code c).
Notation n := (length (code c)).
Notation Regs := (Regs (Val:=Val)).

Definition drops_of (i : nat) : list Op.op :=
  map (λ r, Op.Drop r false) (default [] (drops !! i)).
Notation own := (own ops drops_of (λ _, true)).
Notation pos := (pos ops drops_of (λ _, true)).

(** [r], read from [g] at [k], is dropped before the take at [p]. *)
Record doomed (p k : nat) (r : Reg) (g : GlobalId) : Prop := {
  do_drop : ∃ ds, drops !! p = Some ds ∧ r ∈ ds;
  do_take : ∃ dst sp, ops !! p = Some (Op.TakeGlobal dst g sp);
  do_stale : stale ops bs g k p r;
  do_dead : ¬ held c p (as_usize r);
}.

Lemma doomed_spec p ds r : drops !! p = Some ds → r ∈ ds → ∃ k g, doomed p k r g.
Proof using Hok Hdrops Hbs.
  intros Hp Hr. destruct (drop_lists_spec c Hok drops p ds r Hdrops Hp Hr)
    as (dst & g & sp & bs' & k & Hop & Hbs' & Hst & _ & Hlive & Hpin).
  rewrite Hbs in Hbs'. injection Hbs' as <-. exists k, g.
  split; [by exists ds|by exists dst, sp|done|]. by intros [?|?].
Qed.

(** Nothing between the read and the drop stores the global. *)
Lemma doomed_calm p k r g j op :
  doomed p k r g → k < j → j < p → ops !! j = Some op → ¬ stores (skeleton op) g.
Proof using Hclosed Hcalm Hbs.
  intros [_ (dst & spt & Htake) [[sp Hk] Hkp Hkept Hblock] _] Hkj Hjp Hop.
  refine (Hcalm g k p _ j op Hkj Hjp Hop).
  split; [by exists r, sp|by exists dst, spt|done| |].
  - intros i o Hi1 Hi2 Ho. by apply (Hkept i o Hi1 Hi2 Ho).
  - intros o t Ho Ht [Hlt Hle]. assert (Hb := Hblock (as_usize t) Hlt Hle).
    rewrite (block_start_spec ops bs o t) in Hb; [done..|].
    by eapply cc_jumps.
Qed.

(** Between a read and its drop the register is dropped nowhere else. *)
Lemma doomed_once p k r g p' k' g' :
  doomed p k r g → doomed p' k' r g' → k' < p → p < p' → False.
Proof using.
  intros [_ (dst & spt & Htake) [[sp Hk] Hkp Hkept _] _] [_ _ [[sp' Hk'] _ Hkept' _] _] Hlt Hlt'.
  destruct (lt_eq_lt_dec k' k) as [[Hkk| ->]|Hkk].
  - destruct (Hkept' k _ Hkk ltac:(lia) Hk) as [Hd _]. apply Hd, list_elem_of_singleton. done.
  - rewrite Hk in Hk'. injection Hk' as <- <-.
    destruct (Hkept' p _ Hlt Hlt' Htake) as [_ Hr]. simpl in Hr. by rewrite bool_decide_eq_true_2 in Hr.
  - destruct (Hkept k' _ Hkk Hlt Hk') as [Hd _]. apply Hd, list_elem_of_singleton. done.
Qed.

(** The registers before [i]: those to be read agree, and so do those waiting for their
    drop, whose value is [unit] or still owned by the global.  On arrival at [i] its own
    drops are still to run. *)
Definition spent (w : World) (g : GlobalId) (v : Val) : Prop := v = unit_ ∨ holds w g v.
Definition follows (arriving : bool) (i : nat) (f g : Regs) (w : World) : Prop :=
  (∀ r, held c i r → g r = f r) ∧
  (∀ p k r gl, doomed p k r gl → k < i → i ≤ p → (i = p → arriving = true) →
     g (as_usize r) = f (as_usize r) ∧ spent w gl (f (as_usize r))).

Lemma write_all_values rs vs (f : Regs) r :
  write_all rs vs f r = f r ∨ Some (write_all rs vs f r) ∈ vs.
Proof.
  revert vs f. induction rs as [|x rs IH]; intros [|v vs] f; simpl; [by left..|].
  destruct (IH vs (write x v f)) as [->|Hin]; [|right; apply elem_of_cons; by right].
  destruct v as [v|]; simpl; [|by left]. case_decide; [|by left].
  right. apply elem_of_cons. by left.
Qed.

(** The held registers after an instruction. *)
Lemma held_step i op j f g w r :
  ops !! i = Some op → (∀ r, held c i r → g r = f r) →
  next_pc op i (next (exec (skeleton op) (map f (use_slots op)) w)) = Some j → held c j r →
  after op (exec (skeleton op) (map f (use_slots op)) w) g r =
  after op (exec (skeleton op) (map f (use_slots op)) w) f r.
Proof using Hdefines Hfall.
  intros Hop Hfg Hn Hr. set (o := exec (skeleton op) (map f (use_slots op)) w) in *.
  assert (Hsame : held c i r → after op o g r = after op o f r).
  { intros ?. by apply write_all_same, write_all_same, Hfg. }
  destruct Hr as [Hl|?]; [|apply Hsame; by right].
  destruct (decide (r ∈ def_slots op)) as [Hd|Hd].
  - destruct (newly_live_written exec Hdefines c Hfall op i _ w j r Hop Hn Hl Hd) as [Hs Hlen].
    unfold after. rewrite <-(map_id (def_slots op)) at 1. by apply (write_all_written (λ x, x)).
  - apply Hsame. left. eapply live_through; [done..| |done]. eapply next_succ; [done|].
    by eapply live_in_code.
Qed.

(** A register on its way to a drop, after falling through. *)
Lemma doomed_step i op f g w p k r gl :
  ops !! i = Some op → follows false i f g w →
  next (exec (skeleton op) (map f (use_slots op)) w) = Fall →
  doomed p k r gl → k < i + 1 → i + 1 ≤ p →
  let o := exec (skeleton op) (map f (use_slots op)) w in
  after op o g (as_usize r) = after op o f (as_usize r) ∧
  spent (world o) gl (after op o f (as_usize r)).
Proof using Hgl Hclosed Hcalm Hbs.
  intros Hop [_ Hdoom] Hn Hd Hk Hp. destruct (do_stale _ _ _ _ Hd) as [[sp Hload] _ Hkept _].
  destruct (decide (i = k)) as [->|Hne]; simpl.
  - rewrite Hload in Hop. injection Hop as <-.
    change (skeleton (Op.LoadGlobal r gl sp)) with (Op.LoadGlobal 0 gl sp) in *.
    change (map f (use_slots (Op.LoadGlobal r gl sp))) with (@nil Val) in *.
    destruct (gl_load _ _ _ _ Hgl gl sp w Hn) as (v & Hv & Hh). unfold after.
    change (def_slots (Op.LoadGlobal r gl sp)) with [as_usize r]. rewrite Hv. simpl. rewrite !decide_True by done. split; [done|by right].
  - destruct (Hdoom p k r gl Hd) as [Heq Hs]; [lia..|]. destruct (Hkept i op) as [Hnd Hrw]; [lia..|done|].
    split; [by apply write_all_same, write_all_same|]. unfold after. rewrite write_all_other by done.
    destruct (write_all_values (use_slots op)
      (use_writes (exec (skeleton op) (map f (use_slots op)) w)) f (as_usize r)) as [->|Hin];
      [|left; by eapply gl_clear].
    destruct Hs as [->|Hs]; [by left|right]. apply (gl_kept _ _ _ _ Hgl); [done| |done].
    by apply (doomed_calm p k r gl i); [|lia..|].
Qed.

Lemma follows_fall i op f g w :
  ops !! i = Some op → follows false i f g w →
  let o := exec (skeleton op) (map f (use_slots op)) w in
  next o = Fall → fallthrough (op_facts op) = true →
  follows true (i + 1) (after op o f) (after op o g) (world o).
Proof using Hdefines Hfall Hgl Hclosed Hcalm Hbs.
  intros Hop Hf o Hn Hft. split.
  - intros r Hr. eapply held_step; [done|apply Hf| |exact Hr]. fold o. rewrite Hn. simpl. by rewrite Hft.
  - intros p k r gl Hd Hk Hp _. by eapply doomed_step.
Qed.

(** No register waits for its drop across a jump. *)
Lemma follows_jump i op f g w b t :
  ops !! i = Some op → follows false i f g w →
  let o := exec (skeleton op) (map f (use_slots op)) w in
  next o = Branch b → targets (op_facts op) !! b = Some t → as_usize t < n →
  follows false (as_usize t) (after op o f) (after op o g) (world o).
Proof using Hdefines Hfall Hbs.
  intros Hop Hf o Hn Ht Hlt. split.
  - intros r Hr. eapply held_step; [done|apply Hf| |exact Hr]. fold o. rewrite Hn. simpl. by rewrite Ht.
  - intros p k r gl Hd Hk Hp _. assert (Hb := st_block _ _ _ _ _ _ (do_stale _ _ _ _ Hd) (as_usize t) Hk Hp).
    rewrite (block_start_spec ops bs op t) in Hb; [done|done|by eapply list_elem_of_lookup_2..|done].
Qed.

(** ** The drops before an instruction *)

Definition drop_all (rs : list Reg) (g : Regs) : Regs :=
  write_all (map as_usize rs) (map (λ _, Some unit_) rs) g.

Lemma run_drops new rs a g w :
  (∀ j r, rs !! j = Some r → new !! (a + j) = Some (Op.Drop r false)) →
  (∀ r, r ∈ rs → ∃ gl, spent w gl (g (as_usize r))) →
  run exec new (length rs) (mkState a g w) = Some (mkState (a + length rs) (drop_all rs g) w).
Proof using Hgl.
  revert a g. induction rs as [|r rs IH]; intros a g Hnew Hs; [by rewrite Nat.add_0_r|].
  assert (H0 := Hnew 0 r eq_refl). rewrite Nat.add_0_r in H0. simpl.
  rewrite (step_drop exec new a r unit_ g w H0); simpl.
  - rewrite IH; [by rewrite <-Nat.add_assoc| |].
    + intros j s Hj. rewrite <-Nat.add_assoc. by apply (Hnew (S j)).
    + intros s Hin. simpl. destruct (Hs s) as [gl ?]; [apply elem_of_cons; by right|].
      exists gl. case_decide; [by left|done].
  - apply (gl_drop _ _ _ _ Hgl). destruct (Hs r) as [gl [->|?]]; [apply elem_of_cons; by left|by left|].
    right. by exists gl.
Qed.

Section Rebuilt.
Context (new : list Op.op) (remap : list N).
Context (Hrb : rebuilt ops new drops_of (λ _, true) remap).

Lemma new_drop i j r ds :
  i < n → drops !! i = Some ds → ds !! j = Some r → new !! (pos i + j) = Some (Op.Drop r false).
Proof using Hrb.
  intros Hi Hds Hj. assert (Ho : drops_of i !! j = Some (Op.Drop r false)).
  { unfold drops_of. rewrite Hds. simpl. by rewrite list_lookup_fmap, Hj. }
  assert (Hlay := layout_ins ops drops_of (λ _, true) i j _ Hi Ho).
  destruct (Forall2_lookup_l _ _ _ _ _ (rb_code _ _ _ _ _ Hrb) Hlay) as (o' & -> & [= <-]). done.
Qed.

Lemma follows_arrive j f g w :
  j < n → follows true j f g w →
  ∃ g', run exec new (length (drops_of j)) (mkState (pos j) g w) = Some (mkState (own j) g' w) ∧
    follows false j f g' w.
Proof using Hgl Hrb Hok Hdrops Hbs.
  intros Hj [Hheld Hdoom]. destruct (drops !! j) as [ds|] eqn:Hds.
  2: { exists g. unfold own, drops_of. rewrite Hds. simpl. rewrite Nat.add_0_r. split; [done|].
       split; [done|]. intros p k r gl ? ? ? ?. by eapply Hdoom. }
  assert (Hl : length (drops_of j) = length ds) by (unfold drops_of; by rewrite Hds, length_map).
  assert (Hin : ∀ r, r ∈ ds → ∃ k gl, doomed j k r gl) by (intros r; by eapply doomed_spec).
  exists (drop_all ds g). split.
  - unfold own. rewrite Hl. apply run_drops; [intros x r; by eapply new_drop|].
    intros r (k & gl & Hd)%Hin. exists gl. assert (Hkj := st_before _ _ _ _ _ _ (do_stale _ _ _ _ Hd)).
    destruct (Hdoom j k r gl Hd) as [-> ?]; [lia|lia|done|done].
  - split.
    + intros r Hr. unfold drop_all. rewrite write_all_other; [by apply Hheld|].
      intros (r' & -> & (k & gl & Hd)%Hin)%list_elem_of_fmap. by apply (do_dead _ _ _ _ Hd).
    + intros p k r gl Hd Hkj Hjp Hne. unfold drop_all. rewrite write_all_other; [apply (Hdoom p k r gl Hd); [lia..|done]|].
      intros (r' & Heq%N2Nat.inj & (k' & gl' & Hd')%Hin)%list_elem_of_fmap. subst r'.
      assert (j ≠ p) by (intros ->; by specialize (Hne eq_refl)).
      by apply (doomed_once j k' r gl' p k gl); [..|lia].
Qed.

Lemma release_simulates :
  simulates exec ops new drops_of (λ _, true) (follows false) (follows true).
Proof using Hdefines Hfall Hgl Hclosed Hcalm Hrb Hok Hdrops Hbs.
  split.
  - intros i op f g w Hop _ Hf. split.
    { apply map_eq_Forall, Forall_forall. intros r Hr. apply Hf. left. by eapply live_use. }
    simpl. split; [intros k t Hn Ht Hlt; by eapply follows_jump|]. intros. by apply follows_fall.
  - done.
  - intros j f g w. apply follows_arrive.
Qed.

Lemma entry_follows f w : follows true 0 f f w.
Proof. split; [done|]. intros p k r gl _ ?. lia. Qed.
End Rebuilt.
End Simulation.

(** ** The result *)

Section Result.
Context {P : CodePayloads} (c : Chunk) (Hok : chunk_ok c) (Hcc : code_closed c).
Notation ops := (code c).
Notation n := (length (code c)).

Lemma contains_total r s : within (num_regs c) s → r < num_regs c → is_Some (BitSet.contains r s).
Proof using.
  intros Hs Hr. rewrite set_contains_spec; [by eexists|]. rewrite (within_words _ _ Hs). by apply word_index.
Qed.

Lemma inserts_total (l : list Reg) s :
  Forall (λ r, as_usize r < num_regs c) l → within (num_regs c) s →
  ∃ s', fold_opt (λ d, BitSet.insert (as_usize d)) l s = Some s' ∧ within (num_regs c) s'.
Proof using.
  apply fold_opt_ok. intros r u Hr Hu. destruct (insert_spec _ _ u Hu Hr) as (u' & ? & ? & _).
  by exists u'.
Qed.

Lemma pinned_set_total : ∃ pins, pinned_set c = Some pins ∧ within (num_regs c) pins.
Proof using Hok.
  unfold pinned_set. destruct (inserts_total (frame_locals c) (BitSet.new (num_regs c))) as (s & Hs & Hw);
    [apply Hok|apply within_new|]. unfold num_regs in Hs at 1. rewrite Hs. simpl.
  rewrite (fold_opt_map (λ d, BitSet.insert (as_usize d)) ld_reg).
  apply inserts_total; [|done]. apply List.Forall_map, Hok.
Qed.

Lemma stale_load_total g dst redefined out pins op :
  within (num_regs c) redefined → within (num_regs c) out → within (num_regs c) pins →
  regs_ok (num_regs c) op → is_Some (stale_load g dst redefined out pins op).
Proof using.
  intros Hr Ho Hp Hop. unfold stale_load. destruct op; try by eexists. case_match; [|by eexists].
  assert (as_usize dst0 < num_regs c). { eapply regs_ok_def; [done|]. apply list_elem_of_singleton. done. }
  destruct (contains_total (as_usize dst0) redefined) as [[] ->]; simpl; [done..|by eexists|].
  destruct (contains_total (as_usize dst0) out) as [[] ->]; simpl; [done..|by eexists|].
  destruct (contains_total (as_usize dst0) pins) as [[] ->]; simpl; [done..|by eexists|by eexists].
Qed.

Lemma scan_back_total bs g dst out pins i redefined at_take :
  length bs = n → i < n → within (num_regs c) out → within (num_regs c) pins →
  within (num_regs c) redefined → is_Some (scan_back ops bs g dst out pins i redefined at_take).
Proof using Hok.
  intros Hbs Hi Ho Hp. revert redefined at_take. induction i as [|i IH]; intros red at_take Hr; simpl;
    [by eexists|]. destruct (lookup_lt_is_Some_2 bs (S i)) as [b ->]; [lia|]. simpl.
  destruct b; [by eexists|]. destruct (lookup_lt_is_Some_2 ops i) as [op Hop]; [lia|]. rewrite Hop. simpl.
  destruct (rewrites_global g op); [by eexists|].
  assert (Hro : regs_ok (num_regs c) op).
  { assert (Hc := ok_code c Hok). by eapply Forall_lookup_1 in Hop. }
  destruct (stale_load_total g dst red out pins op) as [st ->]; [done..|]. simpl.
  destruct (inserts_total (op_defs op) red) as (red' & -> & Hr'); [by apply Forall_app in Hro as [_ ?]|done|].
  simpl. apply IH; [lia|done].
Qed.

Lemma block_start_total : 0 < n → ∃ bs, block_start ops = Some bs ∧ length bs = n.
Proof using.
  intros Hn. unfold block_start. rewrite set_at_ok by by rewrite length_replicate. simpl.
  apply (fold_opt_ok _ (λ _, True) (λ v, length v = n));
    [|by apply Forall_true|by rewrite length_insert, length_replicate].
  intros [i op] v _ Hv. unfold block_mark.
  assert (Hb : ∃ v', (if negb (fallthrough (op_facts op)) && (i + 1 <? n) then set_at (i + 1) true v
      else Some v) = Some v' ∧ length v' = n).
  { destruct (_ && _) eqn:Hc; [|by exists v]. apply andb_true_iff in Hc as [_ Hc%Nat.ltb_lt].
    rewrite set_at_ok by lia. eexists. by rewrite length_insert. }
  destruct Hb as (v' & -> & Hv'). simpl.
  apply (fold_opt_ok _ (λ _, True) (λ v, length v = n)); [|by apply Forall_true|done].
  intros t u _ Hu. destruct (Nat.ltb_spec (as_usize t) n); [|by exists u].
  rewrite set_at_ok by lia. eexists. by rewrite length_insert.
Qed.

Lemma drop_lists_total : 0 < n → ∃ drops, drop_lists c = Some drops ∧ length drops = n.
Proof using Hok.
  intros Hn. unfold drop_lists. destruct (block_start_total Hn) as (bs & -> & Hbs). simpl.
  destruct pinned_set_total as (pins & -> & Hp). simpl.
  destruct (analyze_sets ops (num_regs c) (ok_code c Hok)) as (L & -> & Hs & _). simpl.
  destruct (mapM_total (drops_at c bs pins L) (seq 0 n)) as [drops Hd].
  - apply Forall_forall. intros p Hpn%elem_of_seq. unfold drops_at.
    destruct (lookup_lt_is_Some_2 ops p) as [op ->]; [lia|]. destruct op; try by eexists.
    destruct (sets_ok_lookup ops (num_regs c) (live_out L) p Hs) as (out & -> & Ho); [lia|]. simpl.
    apply scan_back_total; [done|lia|done..|apply within_new].
  - exists drops. split; [done|]. apply mapM_Some, Forall2_length in Hd. by rewrite length_seq in Hd.
Qed.

Lemma splice_emit_emits drops :
  length drops = n → emits ops (drops_of drops) (λ _, true) (splice_emit ops drops).
Proof using.
  intros Hd. split. intros i nc remap Hi Hr. unfold splice_emit.
  destruct (lookup_lt_is_Some_2 drops i) as [ds Hds]; [lia|].
  destruct (lookup_lt_is_Some_2 ops i Hi) as [op Hop]. rewrite Hds, Hop. simpl.
  rewrite set_at_ok by lia. simpl. unfold emit, drops_of. rewrite Hds, Hop. simpl.
  eexists. rewrite app_assoc. split; [done|]. rewrite length_insert. split; [done|].
  rewrite length_app. split.
  - intros _. apply list_lookup_insert_eq. lia.
  - intros x _ Hx. by apply list_lookup_insert_ne.
Qed.

(** The line table's positions. *)
Definition lines_ok : Prop := Forall (λ e, as_usize (le_pc e) < n) (line_table c).

(** The result of the pass: the spliced code under the same tables. *)
Record released (drops : list (list Reg)) (c' : Chunk) : Prop := {
  rs_drops : drop_lists c = Some drops;
  rs_code : ∃ remap, length remap = n ∧
    (∀ x, x < n → remap !! x = Some (as_u32 (own ops (drops_of drops) (λ _, true) x))) ∧
    fix_jumps remap (layout ops (drops_of drops) (λ _, true)) = Some (code c') ∧
    mapM (splice_entry remap) (line_table c) = Some (line_table c');
  rs_rest : c' = with_code c (code c') (line_table c');
}.

Lemma drops_of_targets drops i o : o ∈ drops_of drops i → targets (op_facts o) = [].
Proof using. unfold drops_of. by intros (r & -> & _)%list_elem_of_fmap. Qed.

Lemma release_spec :
  0 < n → num_registers c ≠ 0%N → lines_ok →
  ∃ drops c', release_stale_global_loads c = Some c' ∧ drop_lists c = Some drops ∧
    ((c' = c ∧ ∀ i, drops_of drops i = []) ∨ released drops c').
Proof using Hok Hcc.
  intros Hn Hr Hlines. unfold release_stale_global_loads. rewrite (proj2 (Nat.eqb_neq _ _)) by lia.
  rewrite (proj2 (N.eqb_neq _ _)) by done. simpl.
  destruct (drop_lists_total Hn) as (drops & Hd & Hl). assert (Hd' := Hd).
  unfold drop_lists, num_regs in Hd'.
  apply bind_Some in Hd' as (bs & -> & (pins & -> & (L & -> & Hm)%bind_Some)%bind_Some).
  simpl. rewrite Hm. simpl. destruct (all _ drops) eqn:Hnone.
  { exists drops, c. split_and!; [done..|]. left. split; [done|]. intros i. unfold drops_of.
    destruct (drops !! i) as [ds|] eqn:Hi; [|done]. apply list_elem_of_lookup_2 in Hi.
    apply (proj1 (all_forall _ _) Hnone), bool_decide_eq_true in Hi. by rewrite Hi. }
  destruct (emits_fold ops (drops_of drops) (λ _, true) (splice_emit ops drops) n (replicate n 0%N))
    as (remap & Hf & Hlr & Hrm); [by apply splice_emit_emits|done|by rewrite length_replicate|].
  rewrite Hf. simpl.
  destruct (fix_jumps_total c Hcc (drops_of drops) (λ _, true) remap Hlr (drops_of_targets drops)) as [new Hnew].
  unfold layout in Hnew. rewrite Hnew. simpl. destruct (mapM_total (splice_entry remap) (line_table c)) as [table Ht].
  { eapply Forall_impl; [exact Hlines|]. intros e He. apply bind_is_Some; [|by eexists].
    apply lookup_lt_is_Some_2. by rewrite Hlr. }
  rewrite Ht. simpl. exists drops. eexists. split; [done|]. split; [done|]. right. split; [done| |done].
  exists remap. split; [done|]. split; [intros; by apply Hrm|]. done.
Qed.

(** The released code is the original with the drops spliced in. *)
Lemma release_layout drops c' :
  (c' = c ∧ ∀ i, drops_of drops i = []) ∨ released drops c' →
  Forall2 (λ op op', skeleton op' = skeleton op) (layout ops (drops_of drops) (λ _, true)) (code c').
Proof using.
  intros [[-> Hnone]|[_ (remap & _ & _ & Hf%mapM_Some & _) _]].
  - rewrite layout_none by done. by apply Forall_Forall2_diag, Forall_true.
  - eapply Forall2_impl; [exact Hf|]. intros op op'. apply jump_skeleton.
Qed.

Lemma released_rebuilt drops c' :
  released drops c' → (N.of_nat (length (code c')) < 2 ^ 32)%N →
  ∃ remap, rebuilt ops (code c') (drops_of drops) (λ _, true) remap.
Proof using Hcc.
  intros [_ (remap & Hlr & Hrm & Hf%mapM_Some & _) _] Hlen. exists remap.
  split; [done| |apply drops_of_targets].
  intros i op t Hop Ht. assert (Htn : as_usize t < n).
  { eapply cc_jumps; [done| |done]. by eapply list_elem_of_lookup_2. }
  split; [done|]. split; [done|]. eexists. split; [by apply Hrm|]. apply Forall2_length in Hf.
  assert (Ho := own_le ops (drops_of drops) (λ _, true) (as_usize t) Htn).
  unfold as_u32, as_usize in *. rewrite N.mod_small, Nat2N.id; [done|]. lia.
Qed.

Lemma released_lines drops c' :
  lines_ok → released drops c' → (N.of_nat (length (code c')) < 2 ^ 32)%N →
  Forall (λ e, as_usize (le_pc e) < length (code c')) (line_table c').
Proof using.
  intros Hlines [_ (remap & _ & Hrm & Hf%mapM_Some%Forall2_length & Hm%mapM_Some) _] Hlen.
  apply Forall_forall. intros e' [i He']%list_elem_of_lookup.
  destruct (Forall2_lookup_r _ _ _ _ _ Hm He') as (e & He & (x & Hx & [= <-])%bind_Some). simpl.
  assert (Hpc : as_usize (le_pc e) < n) by exact (Forall_lookup_1 _ _ _ _ Hlines He).
  rewrite (Hrm _ Hpc) in Hx. injection Hx as <-.
  assert (Ho := own_lt ops (drops_of drops) (λ _, true) (as_usize (le_pc e)) Hpc eq_refl).
  unfold as_u32, as_usize in *. rewrite N.mod_small, Nat2N.id; [by rewrite <-Hf|]. lia.
Qed.
End Result.

(** ** Runs *)

Section Runs.
Context {P : CodePayloads} {Val World : Type}
  (exec : Op.op → list Val → World → Outcome (Val:=Val) (World:=World))
  (unit_ : Val) (stores : Op.op → GlobalId → Prop) (holds : World → GlobalId → Val → Prop).

Lemma release_runs c drops c' args w k t :
  chunk_ok c → code_closed c → fallback_ok c → 0 < length (code c) → defines exec →
  globals_ok exec unit_ stores holds → calm stores (code c) →
  drop_lists c = Some drops → c' = c ∨ released c drops c' →
  (N.of_nat (length (code c')) < 2 ^ 32)%N →
  run exec (code c) k (entry unit_ args w) = Some t →
  ∃ m t', run exec (code c') m (entry unit_ args w) = Some t' ∧ st_world t' = st_world t ∧
    (∀ r, pc t < length (code c) → held c (pc t) r → regs t' r = regs t r) ∧
    (step exec (code c) t = None → step exec (code c') t' = None).
Proof.
  intros Hok Hcc Hfall Hn Hdef Hgl Hcalm Hd Hshape Hlen Hrun.
  destruct Hshape as [->|Hrel]; [by exists k, t|].
  destruct (released_rebuilt c Hcc drops c' Hrel Hlen) as [remap Hrb].
  destruct (block_start_total c Hn) as (bs & Hbs & _).
  destruct (entry_matched exec (code c) (code c') _ _ remap Hrb _ _
    (release_simulates exec unit_ stores holds Hdef Hgl c Hok Hfall Hcc Hcalm drops Hd bs Hbs (code c') remap Hrb)
    unit_ args w k t) as (m & t' & Hm & [Hw Hpos] & Hstop); [by apply entry_follows|done|].
  exists m, t'. split; [done|]. split; [done|]. split; [|done]. intros r Hlt Hr.
  destruct Hpos as [(_ & _ & Ha & _)|[? _]]; [by apply Ha|lia].
Qed.
End Runs.

(** ** A concrete machine *)

(** Blanking leaves the global an instruction names. *)
Lemma remap_rewrites {P : CodePayloads} (m : Reg → option Reg) g op op' :
  remap_regs m op = Some op' → rewrites_global g op' = rewrites_global g op.
Proof.
  destruct op; intros H; simpl in H; repeat (apply bind_Some in H as (? & _ & H)); by injection H as <-.
Qed.

Lemma jump_rewrites {P : CodePayloads} (f : JumpPc → option JumpPc) g op op' :
  for_each_jump_pc_mut f op = Some op' → rewrites_global g op' = rewrites_global g op.
Proof.
  destruct op; intros H; simpl in H; repeat (apply bind_Some in H as (? & _ & H)); by injection H as <-.
Qed.

Lemma rewrites_skeleton {P : CodePayloads} g op : rewrites_global g (skeleton op) = rewrites_global g op.
Proof.
  unfold skeleton. destruct (remap_regs blank op) as [o|] eqn:Ho; simpl; [|done].
  destruct (for_each_jump_pc_mut blank_jump o) as [o'|] eqn:Ho'; simpl; [|done].
  by rewrite (jump_rewrites _ g _ _ Ho'), (remap_rewrites _ g _ _ Ho).
Qed.

(** On [Toy] a release shows nowhere in the world, so every value may count as owned and
    no store matters: a machine the passes may take any code for. *)
Lemma toy_globals_silent {P : CodePayloads} :
  globals_ok Toy.exec 0%Z (λ _ _, False) (λ _ _ _, True).
Proof.
  split; [intros; by eexists|done| |done].
  intros op vals w v Hv. by apply elem_of_nil in Hv.
Qed.

(** The same machine with a table of globals, where the release of a value no global owns
    echoes, and calling the function in a global overwrites that global with the sum of
    the arguments. *)
Module ToyGlobals.
Section ToyGlobals.
Context {P : CodePayloads}.

Definition World : Type := list Z * list Z.
Definition holds (w : World) (g : GlobalId) (v : Z) : Prop :=
  w.2 !! as_usize (global_id g) = Some v.
Definition set_global (g : GlobalId) (v : Z) (w : World) : World :=
  (w.1, <[as_usize (global_id g) := v]> w.2).
Definition release (v : Z) (w : World) : World :=
  if decide (v = 0%Z ∨ v ∈ w.2) then w else (w.1 ++ [(- v)%Z], w.2).

(** The globals an instruction stores through what it calls. *)
Definition stores (op : Op.op) (g : GlobalId) : Prop :=
  match op with Op.CallGlobal _ g' _ _ _ _ => g' = g | _ => False end.
#[global] Instance stores_dec op g : Decision (stores op g).
Proof. destruct op; simpl; apply _. Defined.

Definition exec (op : Op.op) (vals : list Z) (w : World) : Outcome (Val:=Z) (World:=World) :=
  match op, vals with
  | Op.CallGlobal _ g _ _ _ _, _ =>
      mkOutcome Fall [Some 0%Z] [] (set_global g (foldr Z.add 0 vals)%Z w)
  | Op.LoadGlobal _ g _, _ =>
      match w.2 !! as_usize (global_id g) with
      | Some v => mkOutcome Fall [Some v] [] w
      | None => mkOutcome Stop [] [] w
      end
  | Op.TakeGlobal _ g _, _ =>
      match w.2 !! as_usize (global_id g) with
      | Some v => mkOutcome Fall [Some v] [] (set_global g 0 w)
      | None => mkOutcome Stop [] [] w
      end
  | Op.StoreGlobal g _, [v] => mkOutcome Fall [] [] (set_global g v w)
  | Op.Drop _ _, [v] => mkOutcome Fall [Some 0%Z] [] (release v w)
  | _, _ =>
      let o := Toy.exec op vals w.1 in
      mkOutcome (next o) (def_writes o) (use_writes o) (world o, w.2)
  end.

Lemma exec_defines op vals w :
  next (exec op vals w) ≠ Stop →
  Forall is_Some (def_writes (exec op vals w)) ∧
  length (def_writes (exec op vals w)) = length (op_defs op).
Proof.
  assert (Htoy : Forall is_Some (def_writes (Toy.exec op vals w.1)) ∧
    length (def_writes (Toy.exec op vals w.1)) = length (op_defs op)).
  { simpl. rewrite length_replicate. split; [by apply Forall_replicate; eexists|done]. }
  destruct op; try (intros _; exact Htoy); simpl.
  - destruct (w.2 !! _); simpl; [intros _|done]. by repeat constructor.
  - intros _. destruct vals as [|v [|? ?]]; [exact Htoy|by repeat constructor|exact Htoy].
  - destruct (w.2 !! _); simpl; [intros _|done]. by repeat constructor.
  - intros _. destruct vals as [|v [|? ?]]; [exact Htoy|by repeat constructor|exact Htoy].
Qed.

Lemma globals_defines_all : defines exec.
Proof.
  intros op vals w o Hn. left. rewrite <-op_defs_skeleton. by apply exec_defines.
Qed.

Lemma set_global_holds g g' v v' w : g' ≠ g → holds w g v → holds (set_global g' v' w) g v.
Proof.
  intros Hne Hh. unfold holds, set_global. simpl. rewrite list_lookup_insert_ne; [done|].
  intros Heq%N2Nat.inj. destruct g, g'. simpl in *. congruence.
Qed.

Lemma exec_holds op vals w g v :
  rewrites_global g op = false → ¬ stores op g → holds w g v →
  holds (world (exec op vals w)) g v.
Proof.
  intros Hrw Hst Hh. destruct op; try exact Hh; simpl in *.
  - by destruct (w.2 !! _).
  - destruct vals as [|x [|? ?]]; [exact Hh| |exact Hh]. by apply set_global_holds; [case_bool_decide|].
  - destruct (w.2 !! _); simpl; [|done]. by apply set_global_holds; [case_bool_decide|].
  - destruct vals as [|x [|? ?]]; [exact Hh| |exact Hh]. simpl. unfold release. by case_decide.
  - by apply set_global_holds.
Qed.

Lemma exec_use_writes op vals w : use_writes (exec op vals w) = [].
Proof. destruct op; try done; simpl; [by destruct (w.2 !! _)| |by destruct (w.2 !! _)|];
  by destruct vals as [|? [|? ?]]. Qed.

Lemma globals_all : globals_ok exec 0%Z stores holds.
Proof.
  split.
  - intros g sp w. simpl. destruct (w.2 !! _) as [v|] eqn:E; simpl; [|done]. intros _. by exists v.
  - intros op vals w g v Hrw Hst. apply exec_holds; [by rewrite rewrites_skeleton|done].
  - intros op vals w v. rewrite exec_use_writes. by intros ?%elem_of_nil.
  - intros v w Hv. simpl. unfold release. rewrite decide_True; [done|].
    destruct Hv as [?|[g Hg]]; [by left|right]. by eapply list_elem_of_lookup_2.
Qed.
End ToyGlobals.
End ToyGlobals.
