(* ===== verification/RegallocProps.v ===== *)
(** The properties of register coalescing: the analysis is exact, simultaneously live
    registers keep distinct slots, and the coalesced prototype runs as the original. *)
From S2P Require Import Prelude Span Ir Bytecode Regalloc RegallocSets RegallocLive.
From S2P Require Import RegallocColor RegallocRemap RegallocMachine RegallocCoalesce.
From S2P Require Import RegallocSplice RegallocHoist RegallocRelease.
From stdpp Require Import options.
Open Scope nat_scope.

#[local] Opaque op_facts.

Section Props.
Context {P : CodePayloads}.

(** ** The teardown list *)

Lemma retain_first_distinct c colors seen (regs : list Reg) rest :
  chunk_ok c → colouring c colors → NoDup regs →
  (∀ r s, r ∈ regs → s ∈ regs → slot colors (as_usize r) = slot colors (as_usize s) → r = s) →
  (∀ r, r ∈ regs → as_usize r < num_regs c ∧ seen !! slot colors (as_usize r) ≠ Some true) →
  retain_first colors seen regs = Some rest →
  map as_usize rest = map (λ r, slot colors (as_usize r)) regs.
Proof.
  intros Hok Hcl. revert seen rest.
  induction regs as [|r regs IH]; intros seen rest Hnd Hinj Hseen H; simpl in *; [by simplify_eq|].
  apply NoDup_cons in Hnd as [Hr Hnd].
  destruct (Hseen r) as [Hrn Hs]; [apply elem_of_cons; by left|].
  apply bind_Some in H as (k & Hk & (b & Hb & H)%bind_Some).
  destruct (color_width c colors _ k Hok Hcl Hk) as [Hm Hks]. rewrite Hks in *.
  destruct b; [done|]. apply bind_Some in H as (rest' & Hrest & [= <-]). simpl.
  rewrite Hm, Hks. f_equal. eapply IH; [done| | |exact Hrest].
  - intros x y Hx Hy. apply Hinj; apply elem_of_cons; by right.
  - intros x Hx. destruct (Hseen x) as [? Hsx]; [apply elem_of_cons; by right|].
    split; [done|]. destruct (decide (slot colors (as_usize x) = slot colors (as_usize r))) as [Heq|Hne].
    + apply Hinj in Heq as ->; [done|apply elem_of_cons; by right|apply elem_of_cons; by left].
    + by rewrite list_lookup_insert_ne by done.
Qed.

Lemma teardown_slots c c' colors :
  chunk_ok c → coalesced c c' colors → NoDup (frame_locals c) →
  map as_usize (frame_locals c') = map (slot colors) (map as_usize (frame_locals c)).
Proof.
  intros Hok Hco Hnd. assert (Hcl := co_colouring c c' colors Hco). rewrite map_map.
  assert (Hin : ∀ r, r ∈ frame_locals c → as_usize r ∈ pinned c).
  { intros r Hr. apply elem_of_app. left. by apply list_elem_of_fmap_2. }
  eapply retain_first_distinct; [done..| | |apply Hco].
  - intros r s Hr Hs Heq. apply N2Nat.inj. eapply pinned_apart; eauto using pinned_below.
  - intros r Hr. split; [by eapply pinned_below; eauto|].
    intros [? _]%lookup_replicate. done.
Qed.

(** ** Executions *)

Section Run.
Context {Val World : Type} (exec : Op.op → list Val → World → Outcome (Val:=Val) (World:=World)).

(** What a frame shows of itself: where it is, the world, and the values a panic would
    destroy, in construction order. *)
Definition same_frame (c c' : Chunk) (col : nat → nat) (s s' : State (Val:=Val) (World:=World)) :
    Prop :=
  pc s' = pc s ∧ st_world s' = st_world s ∧
  (∀ r, held c (pc s) r → regs s' (col r) = regs s r) ∧
  map (regs s') (map as_usize (frame_locals c')) = map (regs s) (map as_usize (frame_locals c)).
End Run.

(** C16. Coalescing is a simulation.  On a well-formed prototype on whose entry only
    parameters are live, [coalesce] succeeds, and step for step the coalesced code is at
    the same instruction with the same world as the original: every register still to be
    read, and every register the panic teardown or the debugger owns, has its value in its
    slot, and parameters have not moved.  This holds of every machine that executes
    instructions through the registers [op_facts] reports. *)
Theorem coalesce_preserves_execution {Val World}
    (exec : Op.op → list Val → World → Outcome (Val:=Val) (World:=World))
    (c : Chunk) (unit_ : Val) (args : list Val) (w : World) :
  chunk_ok c → NoDup (frame_locals c) → entry_ok c → fallback_ok c → defines exec →
  length args ≤ as_usize (num_params c) →
  ∃ c' col, coalesce c = Some c' ∧ (num_registers c' ≤ num_registers c)%N ∧
    (∀ r, r < as_usize (num_params c) → col r = r) ∧
    ∀ k, option_Forall2 (same_frame c c' col)
      (run exec (code c) k (entry unit_ args w)) (run exec (code c') k (entry unit_ args w)).
Proof.
  intros Hok Hnd Hentry Hfall Hdef Hargs. destruct (decide (num_registers c = 0%N)) as [H0|H0].
  { exists c, id. unfold coalesce. rewrite H0. simpl. split_and!; [done|lia|done|].
    intros k. destruct (run exec (code c) k (entry unit_ args w)); constructor. done. }
  destruct (coalesce_spec c Hok H0) as (colors & c' & Hc & Hco).
  assert (Hcl := co_colouring c c' colors Hco).
  exists c', (slot colors). split_and!; [done| |by apply (cl_params c)|].
  { rewrite (co_registers c c' colors Hco). by apply color_count_bound. }
  intros k. assert (He : related c colors (entry unit_ args w) (entry unit_ args w)).
  { by eapply entry_related. }
  destruct (run_simulates exec Hdef c c' colors Hok Hco Hentry Hfall k _ _ He)
    as [s s' [Hpc Hw Hregs _]|]; constructor.
  split_and!; [done..|].
  rewrite (teardown_slots c c' colors), map_map by done.
  apply map_eq_Forall, Forall_forall. intros r Hr. apply Hregs. right. apply elem_of_app. by left.
Qed.

(** No slot holds two live values: at every instruction control can reach, two
    different registers that are still to be read, or that the teardown list or the
    debugger owns, have different slots after coalescing, and parameters keep theirs. *)
Theorem live_registers_keep_distinct_slots (c : Chunk) :
  chunk_ok c → entry_ok c →
  ∃ colors, coalesce_colors c = Some colors ∧
    (∀ r, r < as_usize (num_params c) → slot colors r = r) ∧
    ∀ i x y, reachable c i → held c i x → held c i y → x ≠ y → slot colors x ≠ slot colors y.
Proof.
  intros Hok Hentry. destruct (coalesce_colors_spec c Hok) as (colors & Hc & Hcl).
  exists colors. split; [done|]. split; [by apply (cl_params c)|].
  intros i x y Hi Hx Hy Hne Heq. apply Hne. by eapply (slots_distinct c colors i).
Qed.

(** [Liveness::analyze] ends and is exact: on code whose registers are declared,
    [live_out] of an instruction contains a register exactly when some path from a
    successor reads it before writing it. *)
Theorem analyze_is_path_liveness (code : list Op.op) (n : nat) :
  code_ok n code →
  ∃ L, analyze code n = Some L ∧ length (live_out L) = length code ∧
    ∀ i op r, code !! i = Some op → r < n →
      (out ← live_out L !! i; BitSet.contains r out) =
        Some true ↔ ∃ j, j ∈ succs (length code) i op ∧ live_at code r j.
Proof.
  intros Hok. destruct (analyze_sets code n Hok) as (L & HL & Hs & Hr).
  exists L. split; [done|]. split; [apply Hs|]. intros i op r Hop Hrn.
  destruct (sets_ok_lookup code n (live_out L) i Hs) as (out & Hout & _);
    [by eapply lookup_lt_Some|].
  rewrite Hout. simpl. rewrite <-(Hr i op out r Hop Hout). done.
Qed.

(** ** The coalesced prototype *)

(** The coalesced prototype is well formed again and no larger: every register of its
    code and tables is declared, their number has not grown and still fits a [u16], and
    each instruction differs from the original's in its registers only. *)
Theorem coalesce_output_well_formed (c c' : Chunk) :
  chunk_ok c → num_registers c ≠ 0%N → coalesce c = Some c' →
  chunk_ok c' ∧ (num_registers c' ≤ num_registers c)%N ∧ num_params c' = num_params c ∧
  Forall2 (λ op op', skeleton op' = skeleton op ∧
             targets (op_facts op') = targets (op_facts op)) (code c) (code c').
Proof.
  intros Hok H0 Hc. destruct (coalesce_spec c Hok H0) as (colors & c1 & Hc1 & Hco).
  rewrite Hc in Hc1. injection Hc1 as <-. assert (Hcl := co_colouring c c' colors Hco).
  split; [by eapply coalesced_ok|]. split.
  { rewrite (co_registers c c' colors Hco). by apply color_count_bound. }
  split; [apply Hco|]. apply Forall2_same_length_lookup_2; [by eapply Forall2_length, co_code|].
  intros i op op' Hop Hop'.
  assert (Hrec := Forall2_lookup_lr _ _ _ _ _ _ (co_code c c' colors Hco) Hop Hop').
  split; [by eapply recolored_skeleton|]. eapply recolored_slots; [done..| |done].
  assert (Ho := ok_code c Hok). by eapply Forall_lookup_1 in Hop.
Qed.
(** ** Constant hoisting *)

(** Hoisting returns, and is a simulation.  When every loop a constant is moved out of is entered
    through its top only and the constant's register is written by that load alone, the
    hoisted code reaches every world the original reaches, there agrees on every register
    still to be read, and stops when the original stops. *)
Theorem hoist_preserves_execution {Val World}
    (exec : Op.op → list Val → World → Outcome (Val:=Val) (World:=World)) (cst : N → Val)
    (c : Chunk) (unit_ : Val) (args : list Val) (w : World) :
  code_closed c → hoist_ok c → loads_constants exec cst c → arith_borrows exec →
  ∃ c', hoist_loop_invariant_consts c = Some c' ∧
    ((N.of_nat (length (code c')) < 2 ^ 32)%N →
     ∀ k t, run exec (code c) k (entry unit_ args w) = Some t →
     ∃ m t', run exec (code c') m (entry unit_ args w) = Some t' ∧ st_world t' = st_world t ∧
       (∀ r, live_at (code c) r (pc t) → regs t' r = regs t r) ∧
       (step exec (code c) t = None → step exec (code c') t' = None)).
Proof.
  intros Hcc Hho Hloads Hborrow. destruct (hoist_spec c Hcc) as (c' & Hc & Hshape).
  exists c'. split; [done|]. intros Hlen k t. by apply (hoist_runs exec cst c c').
Qed.

(** ** The release of stale reads *)

(** The release pass returns, and is a simulation: on a machine where only stores and
    takes of a global, the frame's own or those of code it calls, end its ownership of a
    value and where releasing a value some global owns is silent, and for code that calls
    nothing which stores a global between a read of it and the take that follows, every run
    of the original is matched by one of the released code with the same world, the same
    values in every register still to be read, on the teardown list or shown by the
    debugger, and the same end.  Under that condition no drop it inserts is the last
    reference to its value. *)
Theorem release_preserves_execution {Val World}
    (exec : Op.op → list Val → World → Outcome (Val:=Val) (World:=World)) (unit_ : Val)
    (stores : Op.op → GlobalId → Prop) (holds : World → GlobalId → Val → Prop) (c : Chunk)
    (args : list Val) (w : World) :
  chunk_ok c → code_closed c → lines_ok c → fallback_ok c → num_registers c ≠ 0%N →
  code c ≠ [] → defines exec → globals_ok exec unit_ stores holds → calm stores (code c) →
  ∃ c', release_stale_global_loads c = Some c' ∧
    ((N.of_nat (length (code c')) < 2 ^ 32)%N →
     ∀ k t, run exec (code c) k (entry unit_ args w) = Some t →
     ∃ m t', run exec (code c') m (entry unit_ args w) = Some t' ∧ st_world t' = st_world t ∧
       (∀ r, pc t < length (code c) → held c (pc t) r → regs t' r = regs t r) ∧
       (step exec (code c) t = None → step exec (code c') t' = None)).
Proof.
  intros Hok Hcc Hlines Hfall H0 Hne Hdef Hgl Hcalm. assert (Hn : 0 < length (code c)).
  { destruct (code c); [done|simpl; lia]. }
  destruct (release_spec c Hok Hcc Hn H0 Hlines) as (drops & c' & Hc & Hd & Hshape).
  exists c'. split; [done|]. intros Hlen k t. eapply (release_runs exec unit_ stores holds c drops c'); try done.
  tauto.
Qed.

(** What the release pass does: its code is the original, destinations apart, with
    drops inserted, and a register is dropped only right before a take of a global, where
    it still holds a read of that global from the same block that nothing since has
    rewritten, is not the take's destination, is never read again and belongs to neither
    the teardown list nor the debugger. *)
Theorem release_drops_only_stale_reads (c : Chunk) :
  chunk_ok c → code_closed c → lines_ok c → num_registers c ≠ 0%N → code c ≠ [] →
  ∃ drops c', release_stale_global_loads c = Some c' ∧
    Forall2 (λ op op', skeleton op' = skeleton op)
      (layout (code c) (drops_of drops) (λ _, true)) (code c') ∧
    ∀ p r, Op.Drop r false ∈ drops_of drops p →
      ∃ dst g sp bs k, code c !! p = Some (Op.TakeGlobal dst g sp) ∧
        block_start (code c) = Some bs ∧ stale (code c) bs g k p r ∧ r ≠ dst ∧
        ¬ live_at (code c) (as_usize r) p ∧ as_usize r ∉ pinned c.
Proof.
  intros Hok Hcc Hlines H0 Hne. assert (Hn : 0 < length (code c)).
  { destruct (code c); [done|simpl; lia]. }
  destruct (release_spec c Hok Hcc Hn H0 Hlines) as (drops & c' & Hc & Hd & Hshape).
  exists drops, c'. split; [done|]. split; [by apply release_layout|].
  intros p r (r' & [= ->] & Hr)%list_elem_of_fmap. destruct (drops !! p) as [ds|] eqn:Hp;
    [|by apply elem_of_nil in Hr]. by eapply drop_lists_spec.
Qed.

End Props.

(** ** A loop, coalesced and run *)

Module RegallocExample.
#[local] Existing Instance unit_code_payloads.

Definition at0 : Span := mkSpan 0 0 FIRST.
Definition chunk (ops : list Op.op) (params registers : N) (locals : list Reg) : Chunk :=
  mkChunk ops [] [] params 0 0 registers locals [] None None [] [].

(** [fn count(n) { i = 1; while i < n { echo i; i = i + 1 }; return i }] in registers
    allocated monotonically, [i] and [n] on the teardown list. *)
Definition count : Chunk := chunk
  [Op.LoadConst 1 0; Op.Binary Lt 2 1 0 at0; Op.CondBranch 2 8 at0; Op.Move 5 1; Op.Echo 5;
   Op.LoadConst 3 0; Op.Binary Add 4 1 3 at0; Op.Jump 9; Op.Return 1; Op.Move 1 4; Op.Jump 1]%N
  1 6 [0; 1]%N.

Definition run_count (c : Chunk) : option (nat * list Z) :=
  (λ s, (pc s, st_world s)) <$> run Toy.exec (code c) 21 (entry 0%Z [3%Z] []).

Lemma chunk_ok_count : chunk_ok count.
Proof. by split; [by apply (bool_decide_eq_true_1 (code_ok _ _)) | | vm_compute; lia
  | repeat constructor | constructor]. Defined.

Definition coalesced_count : Chunk := Eval vm_compute in default count (coalesce count).

(** Four registers instead of six, and the same run. *)
Lemma count_runs :
  num_registers coalesced_count = 4%N ∧ code coalesced_count !! 6 = Some (Op.Binary Add 3 1 2 at0)%N ∧
  run_count count = Some (8, [1; 2]%Z) ∧ run_count coalesced_count = Some (8, [1; 2]%Z).
Proof. vm_compute. done. Qed.

Lemma coalesce_preserves_execution_witness :
  ∃ c' col, coalesce count = Some c' ∧ (num_registers c' ≤ num_registers count)%N ∧
    (∀ r, r < 1 → col r = r) ∧
    ∀ k, option_Forall2 (same_frame count c' col)
      (run Toy.exec (code count) k (entry 0%Z [3%Z] []))
      (run Toy.exec (code c') k (entry 0%Z [3%Z] [])).
Proof.
  apply (coalesce_preserves_execution Toy.exec count 0%Z [3%Z] []).
  - apply chunk_ok_count.
  - apply (bool_decide_eq_true_1 (NoDup (frame_locals count))). vm_compute. reflexivity.
  - apply runs_ok_sound; [apply chunk_ok_count|vm_compute; reflexivity].
  - apply runs_ok_sound; [apply chunk_ok_count|vm_compute; reflexivity].
  - apply Toy.defines_all.
  - vm_compute. lia.
Defined.

Lemma live_registers_keep_distinct_slots_witness :
  ∃ colors, coalesce_colors count = Some colors ∧ (∀ r, r < 1 → slot colors r = r) ∧
    ∀ i x y, reachable count i → held count i x → held count i y → x ≠ y →
      slot colors x ≠ slot colors y.
Proof.
  apply (live_registers_keep_distinct_slots count); [apply chunk_ok_count|].
  apply runs_ok_sound; [apply chunk_ok_count|vm_compute; reflexivity].
Defined.

Lemma analyze_is_path_liveness_witness :
  ∃ L, analyze (code count) 6 = Some L ∧ length (live_out L) = 11 ∧
    ∀ i op r, code count !! i = Some op → r < 6 →
      (out ← live_out L !! i; BitSet.contains r out) = Some true ↔
      ∃ j, j ∈ succs 11 i op ∧ live_at (code count) r j.
Proof. apply (analyze_is_path_liveness (code count) 6). apply chunk_ok_count. Defined.

Lemma coalesce_output_well_formed_witness :
  chunk_ok coalesced_count ∧ (num_registers coalesced_count ≤ num_registers count)%N ∧
  num_params coalesced_count = num_params count ∧
  Forall2 (λ op op', skeleton op' = skeleton op ∧
             targets (op_facts op') = targets (op_facts op)) (code count) (code coalesced_count).
Proof.
  apply (coalesce_output_well_formed count coalesced_count);
    [apply chunk_ok_count|done|vm_compute; reflexivity].
Defined.

(** [if b { echo b }; while i < n { i = i + 1 }; return i]: the branch that skips the
    [if] lands on the loop top, after the pre-header that now holds the load of [1]. *)
Definition if_then_while : Chunk := mkChunk
  [Op.CondBranch 0 2 at0; Op.Echo 0; Op.Binary Lt 3 2 1 at0; Op.CondBranch 3 8 at0;
   Op.LoadConst 4 0; Op.Binary Add 5 2 4 at0; Op.Move 2 5; Op.Jump 2; Op.Return 2]%N
  [Const.Int 1] [] 3 0 0 6 [] [] None None [] [].

(** The registers a run reaches after [k] steps, one of them. *)
Definition reg_after (c : Chunk) (k r : nat) (args : list Z) : option (nat * Z) :=
  (λ s, (pc s, regs s r)) <$> run Toy.exec (code c) k (entry 0%Z args []).

(** The hoisted load is skipped: back at the loop test, [i] is [1] in the original and
    still [0] in the hoisted code, which never leaves the loop. *)
Theorem jump_to_loop_top_skips_the_preheader :
  ∃ c', hoist_loop_invariant_consts if_then_while = Some c' ∧
    code c' !! 2 = Some (Op.LoadConst 4 0)%N ∧
    reg_after if_then_while 7 2 [0; 2; 0]%Z = Some (2, 1%Z) ∧
    reg_after if_then_while 15 2 [0; 2; 0]%Z = Some (8, 2%Z) ∧
    reg_after c' 6 2 [0; 2; 0]%Z = Some (3, 0%Z) ∧ reg_after c' 11 2 [0; 2; 0]%Z = Some (3, 0%Z).
Proof. eexists. split; [vm_compute; reflexivity|]. vm_compute. repeat split. Qed.

(** The same loop entered by falling into it: the load of [1] moves out. *)
Definition while_loop : Chunk := mkChunk
  [Op.LoadConst 2 0; Op.Binary Lt 3 2 1 at0; Op.CondBranch 3 7 at0;
   Op.LoadConst 4 0; Op.Binary Add 5 2 4 at0; Op.Move 2 5; Op.Jump 1; Op.Return 2]%N
  [Const.Int 1] [] 2 0 0 6 [] [] None None [] [].
Definition hoisted_loop : Chunk :=
  Eval vm_compute in default while_loop (hoist_loop_invariant_consts while_loop).

Lemma toy_loads c : loads_constants Toy.exec (λ k, Z.of_N k + 1)%Z c.
Proof. done. Qed.

Lemma toy_borrows : arith_borrows Toy.exec.
Proof. by intros op vals w _. Qed.

Lemma hoist_preserves_execution_witness :
  code hoisted_loop !! 1 = Some (Op.LoadConst 4 0)%N ∧
  ∃ c', hoist_loop_invariant_consts while_loop = Some c' ∧
    ((N.of_nat (length (code c')) < 2 ^ 32)%N →
     ∀ k t, run Toy.exec (code while_loop) k (entry 0%Z [0; 3]%Z []) = Some t →
     ∃ m t', run Toy.exec (code c') m (entry 0%Z [0; 3]%Z []) = Some t' ∧
       st_world t' = st_world t ∧
       (∀ r, live_at (code while_loop) r (pc t) → regs t' r = regs t r) ∧
       (step Toy.exec (code while_loop) t = None → step Toy.exec (code c') t' = None)).
Proof.
  split; [vm_compute; reflexivity|].
  apply (hoist_preserves_execution Toy.exec (λ k, Z.of_N k + 1)%Z while_loop 0%Z [0; 3]%Z []).
  - apply code_closedb_sound. vm_compute. reflexivity.
  - apply hoist_okb_sound; [apply (bool_decide_eq_true_1 (code_ok _ _))|]; vm_compute; reflexivity.
  - apply toy_loads.
  - apply toy_borrows.
Defined.

(** [echo xs; xs = update(xs)]: the read of the global is released before its take. *)
Definition self_update : Chunk := chunk
  [Op.LoadGlobal 1 (mkGlobalId 0) at0; Op.Echo 1; Op.TakeGlobal 2 (mkGlobalId 0) at0;
   Op.Binary Add 3 2 2 at0; Op.StoreGlobal (mkGlobalId 0) 3; Op.Halt]%N 0 4 [].
Definition released_update : Chunk :=
  Eval vm_compute in default self_update (release_stale_global_loads self_update).

(** The drop is there, the runs agree, and a drop after the take would have released the
    last reference and shown in the output. *)
Lemma self_update_runs :
  code released_update !! 2 = Some (Op.Drop 1 false)%N ∧
  st_world <$> run ToyGlobals.exec (code self_update) 5 (entry 0%Z [] ([], [7%Z])) =
    Some ([7], [14])%Z ∧
  st_world <$> run ToyGlobals.exec (code released_update) 6 (entry 0%Z [] ([], [7%Z])) =
    Some ([7], [14])%Z ∧
  world (ToyGlobals.exec (Op.Drop 0 false)%N [7%Z] ([7], [0])%Z) = ([7; -7], [0])%Z.
Proof. vm_compute. done. Qed.

Lemma self_update_ok : chunk_ok self_update ∧ code_closed self_update ∧ lines_ok self_update.
Proof.
  split; [|split; [by apply code_closedb_sound|constructor]].
  by split; [by apply (bool_decide_eq_true_1 (code_ok _ _)) | | vm_compute; lia
    | constructor | constructor].
Defined.

Lemma release_preserves_execution_witness :
  ∃ c', release_stale_global_loads self_update = Some c' ∧
    ((N.of_nat (length (code c')) < 2 ^ 32)%N →
     ∀ k t, run ToyGlobals.exec (code self_update) k (entry 0%Z [] ([], [7%Z])) = Some t →
     ∃ m t', run ToyGlobals.exec (code c') m (entry 0%Z [] ([], [7%Z])) = Some t' ∧
       st_world t' = st_world t ∧
       (∀ r, pc t < length (code self_update) → held self_update (pc t) r → regs t' r = regs t r) ∧
       (step ToyGlobals.exec (code self_update) t = None → step ToyGlobals.exec (code c') t' = None)).
Proof.
  destruct self_update_ok as (? & ? & ?).
  apply (release_preserves_execution ToyGlobals.exec 0%Z ToyGlobals.stores ToyGlobals.holds self_update);
    try done.
  - by apply runs_ok_sound; [|vm_compute].
  - apply ToyGlobals.globals_defines_all.
  - apply ToyGlobals.globals_all.
  - by apply (calmb_sound ToyGlobals.stores).
Defined.

(** [xs = update(xs, f(xs))] where the called function [f] itself stores [xs]. *)
Definition stored_in_a_call : Chunk := chunk
  [Op.LoadGlobal 1 (mkGlobalId 0) at0; Op.CallGlobal 4 (mkGlobalId 0) [1; 1] TypeArgs.NONE at0 None;
   Op.TakeGlobal 2 (mkGlobalId 0) at0; Op.Binary Add 3 2 4 at0;
   Op.StoreGlobal (mkGlobalId 0) 3; Op.Halt]%N 0 5 [].

(** The condition is needed: a call between the read and the take that stores the global
    leaves the register with the last reference to the value read, which the inserted drop
    then releases. *)
Theorem a_store_in_a_call_leaves_the_last_reference :
  ¬ calm ToyGlobals.stores (code stored_in_a_call) ∧
  ∃ c', release_stale_global_loads stored_in_a_call = Some c' ∧
    code c' !! 2 = Some (Op.Drop 1 false)%N ∧
    st_world <$> run ToyGlobals.exec (code stored_in_a_call) 5 (entry 0%Z [] ([], [7%Z])) =
      Some ([], [14])%Z ∧
    st_world <$> run ToyGlobals.exec (code c') 6 (entry 0%Z [] ([], [7%Z])) = Some ([-7], [14])%Z.
Proof.
  split.
  - intros H. refine (H (mkGlobalId 0) 0 2 _ 1 _ _ _ eq_refl _); [|lia|lia|done].
    split; [by eexists _, _|by eexists _, _|lia| |].
    + intros j op Hj1 Hj2 Hop. assert (j = 1) as -> by lia. by injection Hop as <-.
    + intros op t Hop Ht. repeat (apply elem_of_cons in Hop as [->|Hop]; [by apply elem_of_nil in Ht|]).
      by apply elem_of_nil in Hop.
  - eexists. split; [vm_compute; reflexivity|]. vm_compute. done.
Qed.

Lemma release_drops_only_stale_reads_witness :
  ∃ drops c', release_stale_global_loads self_update = Some c' ∧
    Forall2 (λ op op', skeleton op' = skeleton op)
      (layout (code self_update) (drops_of drops) (λ _, true)) (code c') ∧
    ∀ p r, Op.Drop r false ∈ drops_of drops p →
      ∃ dst g sp bs k, code self_update !! p = Some (Op.TakeGlobal dst g sp) ∧
        block_start (code self_update) = Some bs ∧ stale (code self_update) bs g k p r ∧ r ≠ dst ∧
        ¬ live_at (code self_update) (as_usize r) p ∧ as_usize r ∉ pinned self_update.
Proof.
  destruct self_update_ok as (? & ? & ?). by apply (release_drops_only_stale_reads self_update).
Defined.
End RegallocExample.
