(* ===== verification/RegallocPipeline.v ===== *)
(** The three passes over a finished prototype, composed as [into_chunk] composes them:
    each returns on what the one before it hands on, and hands on a well-formed prototype. *)
From S2P Require Import Prelude Span Ir Bytecode Regalloc RegallocSets RegallocLive.
From S2P Require Import RegallocColor RegallocRemap RegallocMachine RegallocCoalesce.
From S2P Require Import RegallocSplice RegallocHoist RegallocRelease.
From stdpp Require Import options.
Open Scope nat_scope.

#[local] Opaque op_facts.

Section Rebuilt.
Context {P : CodePayloads} (c c' : Chunk) (ins : nat → list Op.op) (keep : nat → bool)
  (remap : list N).
Notation ops := (code c).
Notation n := (length (code c)).
Context (Hok : chunk_ok c) (Hcc : code_closed c).
Context (Hrb : rebuilt ops (code c') ins keep remap).
Context (Hrest : c' = with_code c (code c') (line_table c')).
Context (Hregs : ∀ i o, o ∈ ins i → regs_ok (num_regs c) o).
Context (Hloads : ∀ i d k, Op.LoadConst d k ∈ ins i → Op.LoadConst d k ∈ ops).

Lemma num_regs_rebuilt : num_regs c' = num_regs c.
Proof using Hrest. by rewrite Hrest. Qed.

(** Where an instruction of the rebuilt code comes from. *)
Lemma rebuilt_elem op' : op' ∈ code c' →
  ∃ op, (op ∈ ops ∨ ∃ i, op ∈ ins i) ∧
    for_each_jump_pc_mut (λ t, remap !! as_usize t) op = Some op'.
Proof using Hrb.
  intros [i Hi]%list_elem_of_lookup.
  destruct (Forall2_lookup_r _ _ _ _ _ (rb_code _ _ _ _ _ Hrb) Hi) as (op & Hop & Hj).
  exists op. split; [|done]. apply list_elem_of_lookup_2 in Hop. by eapply layout_elem.
Qed.

Lemma rebuilt_regs op' : op' ∈ code c' → regs_ok (num_regs c) op'.
Proof using Hrb Hok Hregs.
  intros (op & Hop & Hj)%rebuilt_elem. destruct (jump_facts _ _ _ Hj) as (_ & Hd & Hu & _ & He).
  unfold regs_ok, op_defs. rewrite Hd, Hu, He. destruct Hop as [Hop|[i Hop]]; [|by eapply Hregs].
  assert (Hc := ok_code c Hok). unfold code_ok in Hc. rewrite Forall_forall in Hc. by apply Hc.
Qed.

Lemma rebuilt_load d k : Op.LoadConst d k ∈ code c' → Op.LoadConst d k ∈ ops.
Proof using Hrb Hloads.
  intros (op & Hop & Hj)%rebuilt_elem. assert (op = Op.LoadConst d k) as ->.
  { destruct op; simpl in Hj; try (apply bind_Some in Hj as (? & _ & Hj)); by simplify_eq. }
  destruct Hop as [?|[i Hop]]; [done|by eapply Hloads].
Qed.

Lemma rebuilt_target op' t' :
  op' ∈ code c' → t' ∈ targets (op_facts op') → as_usize t' < length (code c').
Proof using Hrb.
  intros (op & Hop & Hj)%rebuilt_elem Ht'. destruct (jump_facts _ _ _ Hj) as (Hm & _).
  apply mapM_Some in Hm. apply list_elem_of_lookup in Ht' as [i Hi].
  destruct (Forall2_lookup_r _ _ _ _ _ Hm Hi) as (t & Ht & Hr). apply list_elem_of_lookup_2 in Ht.
  destruct Hop as [[x Hx]%list_elem_of_lookup|[x Hop]].
  - destruct (rb_remap _ _ _ _ _ Hrb x op t Hx Ht) as (Htn & Hk & t2 & Hr2 & Ho).
    rewrite Hr in Hr2. injection Hr2 as <-. rewrite Ho, (length_new ops (code c') ins keep remap Hrb).
    by apply own_lt.
  - rewrite (rb_ins _ _ _ _ _ Hrb x op Hop) in Ht. by apply elem_of_nil in Ht.
Qed.

Lemma rebuilt_ok : chunk_ok c' ∧ code_closed c'.
Proof using Hok Hcc Hrb Hrest Hregs Hloads.
  assert (Hn := num_regs_rebuilt). split; split.
  - rewrite Hn. apply Forall_forall. intros op. apply rebuilt_regs.
  - rewrite Hrest. apply Hok.
  - rewrite Hn, Hrest. apply Hok.
  - rewrite Hn, Hrest. apply Hok.
  - rewrite Hn, Hrest. apply Hok.
  - rewrite Hn. apply Forall_forall. intros op. apply rebuilt_regs.
  - intros d k Hin%rebuilt_load. rewrite Hrest. exact (cc_consts c Hcc d k Hin).
  - intros op t. apply rebuilt_target.
Qed.
End Rebuilt.

(** ** Hoisting *)

Section Hoist.
Context {P : CodePayloads} (c : Chunk).
Notation ops := (code c).
Notation n := (length (code c)).

(** Every hoisted load is in exactly one pre-header: the code does not grow. *)
Lemma hoist_at_perm sel :
  length sel = n → (∀ p top, sel !! p = Some (Some top) → top < n) →
  seq 0 n ≫= hoist_at sel ≡ₚ filter (λ p, hoisted sel p = true) (seq 0 n).
Proof.
  intros Hl Htop. apply NoDup_Permutation.
  - apply NoDup_bind; [| |apply NoDup_seq].
    + intros a b p _ _ Ha%elem_hoist_at Hb%elem_hoist_at. congruence.
    + intros a _. unfold hoist_at. apply NoDup_filter, NoDup_seq.
  - apply NoDup_filter, NoDup_seq.
  - intros p. rewrite list_elem_of_bind, list_elem_of_filter. split.
    + intros (top & Hp%elem_hoist_at & _). split; [apply hoisted_spec; by exists top|].
      apply elem_of_seq. apply lookup_lt_Some in Hp. lia.
    + intros [[top Hp]%hoisted_spec _]. exists top. split; [by apply elem_hoist_at|].
      apply elem_of_seq. apply Htop in Hp. lia.
Qed.

Lemma length_preheaders sel k :
  length sel = n → k ≤ n →
  length (layout_upto ops (preheader c sel) (stays sel) k) =
  length (seq 0 k ≫= hoist_at sel) + length (filter (λ p, hoisted sel p ≠ true) (seq 0 k)).
Proof.
  intros Hl. induction k as [|k IH]; intros Hk; [done|].
  rewrite layout_upto_S, seq_S, bind_app, filter_app, !length_app, IH by lia.
  unfold emit. rewrite length_app. simpl. rewrite app_nil_r, filter_cons, filter_nil.
  assert (Hp : length (preheader c sel k) = length (hoist_at sel k)).
  { unfold preheader. assert (Hin : ∀ p, p ∈ hoist_at sel k → is_Some (ops !! p)).
    { intros p Hp%elem_hoist_at. apply lookup_lt_is_Some_2. apply lookup_lt_Some in Hp. lia. }
    induction (hoist_at sel k) as [|p l IHl]; [done|]. simpl.
    destruct (Hin p) as [op ->]; [apply elem_of_cons; by left|]. simpl. f_equal. apply IHl.
    intros q ?. apply Hin, elem_of_cons. by right. }
  rewrite Hp. destruct (lookup_lt_is_Some_2 ops k) as [op ->]; [lia|]. unfold stays.
  destruct (hoisted sel k); simpl; lia.
Qed.

Lemma length_filter_compl (f : nat → bool) l :
  length (filter (λ p, f p = true) l) + length (filter (λ p, f p ≠ true) l) = length l.
Proof.
  induction l as [|a l IH]; [done|]. rewrite !filter_cons.
  destruct (f a); simpl; lia.
Qed.

Lemma hoisted_length sel :
  length sel = n → (∀ p top, sel !! p = Some (Some top) → top < n) →
  length (layout ops (preheader c sel) (stays sel)) = n.
Proof.
  intros Hl Htop. unfold layout. rewrite length_preheaders by done.
  rewrite (Permutation_length (hoist_at_perm sel Hl Htop)).
  by rewrite length_filter_compl, length_seq.
Qed.

(** [while old < n && hoisted[old]] stops at the first instruction that stays. *)
Lemma skip_hoisted_spec sel fuel old q :
  old ≤ q → q < old + fuel → hoisted sel q = false →
  hoisted sel (skip_hoisted sel fuel old) = false ∧ skip_hoisted sel fuel old ≤ q.
Proof.
  revert old. induction fuel as [|fuel IH]; intros old Hle Hlt Hq; simpl; [lia|].
  destruct (hoisted sel old) eqn:Hh; [|done]. apply IH; [|lia|done].
  destruct (decide (old = q)) as [->|]; [congruence|lia].
Qed.

(** A loop's back edge stays, so an instruction that moved has one after it that did not. *)
Lemma stays_after sel p :
  code_closed c → selection c = Some sel → p < n →
  ∃ q, p ≤ q ∧ q < n ∧ hoisted sel q = false.
Proof.
  intros Hcc Hsel Hp. destruct (selection_spec c sel Hsel Hcc) as [Hl Hspec].
  destruct (hoisted sel p) eqn:Hh; [|by exists p].
  apply hoisted_spec in Hh as [top Ht]. destruct (Hspec p top Ht) as (d & k & Hs).
  destruct (se_loop _ _ _ _ _ _ Hs) as (last & Hloop & _ & Hle). unfold loops_of in Hloop.
  apply list_elem_of_omap in Hloop as ([j op] & Hin & Hlo). apply elem_enumerate in Hin.
  destruct op; try done. simpl in Hlo. case_match; simplify_eq. exists last.
  split; [done|]. split; [by eapply lookup_lt_Some|].
  destruct (hoisted sel last) eqn:Hh; [|done]. apply hoisted_spec in Hh as [top' Hp'].
  destruct (Hspec last top' Hp') as (d' & k' & Hs'). assert (Hop := se_op _ _ _ _ _ _ Hs').
  congruence.
Qed.

Lemma selection_top sel p top :
  code_closed c → selection c = Some sel → sel !! p = Some (Some top) → top < n.
Proof.
  intros Hcc Hsel Hp. destruct (selection_spec c sel Hsel Hcc) as [Hl Hspec].
  destruct (Hspec p top Hp) as (d & k & Hs). destruct (se_loop _ _ _ _ _ _ Hs) as (last & _ & ? & _).
  apply lookup_lt_Some in Hp. lia.
Qed.

Lemma hoisted_to_length sel remap c' :
  code_closed c → hoisted_to c sel remap c' → length (code c') = n.
Proof.
  intros Hcc Hto. assert (Hsel := ht_sel _ _ _ _ Hto).
  destruct (selection_spec c sel Hsel Hcc) as [Hl _].
  rewrite <-(hoisted_length sel Hl); [|intros p top; by apply selection_top].
  symmetry. by eapply Forall2_length, mapM_Some, (ht_code _ _ _ _ Hto).
Qed.

(** A line entry moves to the first instruction after it that stays. *)
Lemma hoisted_lines sel remap c' :
  code_closed c → lines_ok c → (N.of_nat n < 2 ^ 32)%N → hoisted_to c sel remap c' → lines_ok c'.
Proof.
  intros Hcc Hlines Hn Hto. assert (Hsel := ht_sel _ _ _ _ Hto).
  destruct (selection_spec c sel Hsel Hcc) as [Hl _].
  unfold lines_ok. rewrite (hoisted_to_length sel remap c' Hcc Hto).
  assert (Hm := ht_lines _ _ _ _ Hto). apply mapM_Some in Hm.
  apply Forall_forall. intros e' [i He']%list_elem_of_lookup.
  destruct (Forall2_lookup_r _ _ _ _ _ Hm He') as (e & He & Hentry).
  assert (Hpc : as_usize (le_pc e) < n) by exact (Forall_lookup_1 _ _ _ _ Hlines He).
  destruct (stays_after sel _ Hcc Hsel Hpc) as (q & Hq1 & Hq2 & Hq3).
  unfold hoist_entry in Hentry. rewrite Hl in Hentry.
  destruct (skip_hoisted_spec sel (n - as_usize (le_pc e)) (as_usize (le_pc e)) q) as [Hst Hle];
    [done|lia|done|].
  set (old := skip_hoisted sel (n - as_usize (le_pc e)) (as_usize (le_pc e))) in *.
  rewrite (proj2 (Nat.ltb_lt _ _)) in Hentry by lia.
  apply bind_Some in Hentry as (x & Hx & [= <-]). simpl.
  assert (Hk : stays sel old = true) by (unfold stays; by rewrite Hst).
  rewrite (ht_remap _ _ _ _ Hto old ltac:(lia) Hk) in Hx. injection Hx as <-.
  assert (Ho := own_lt ops (preheader c sel) (stays sel) old ltac:(lia) Hk).
  rewrite (hoisted_length sel Hl) in Ho by (intros p top; by apply selection_top).
  unfold as_u32, as_usize in *. rewrite N.mod_small, Nat2N.id; [done|]. lia.
Qed.

Lemma hoist_well_formed :
  chunk_ok c → code_closed c → lines_ok c → (N.of_nat n < 2 ^ 32)%N →
  ∃ c', hoist_loop_invariant_consts c = Some c' ∧ chunk_ok c' ∧ code_closed c' ∧ lines_ok c' ∧
    length (code c') = n ∧ num_params c' = num_params c ∧ num_registers c' = num_registers c.
Proof.
  intros Hok Hcc Hlines Hn. destruct (hoist_spec c Hcc) as (c' & Hc & Hshape). exists c'.
  split; [done|]. destruct Hshape as [->|(sel & remap & Hto)]; [done|].
  assert (Hlen := hoisted_to_length sel remap c' Hcc Hto).
  assert (Hrb := hoisted_rebuilt c Hcc sel remap c' Hto ltac:(by rewrite Hlen)).
  assert (Hpre : ∀ i o, o ∈ preheader c sel i → o ∈ ops).
  { intros i o (q & _ & Hq)%list_elem_of_omap. by eapply list_elem_of_lookup_2. }
  destruct (rebuilt_ok c c' (preheader c sel) (stays sel) remap Hok Hcc Hrb (ht_rest _ _ _ _ Hto))
    as [Hok' Hcc'].
  { intros i o Ho%Hpre. assert (Hc' := ok_code c Hok). unfold code_ok in Hc'.
    rewrite Forall_forall in Hc'. by apply Hc'. }
  { intros i d k. apply Hpre. }
  split_and!; [done..| |done| |]; [by eapply hoisted_lines|by rewrite (ht_rest _ _ _ _ Hto)..].
Qed.
End Hoist.

(** ** Coalescing *)

Lemma skeleton_load {P : CodePayloads} op d k :
  skeleton (Op.LoadConst d k) = skeleton op → ∃ d', op = Op.LoadConst d' k.
Proof.
  unfold skeleton. intros H. destruct (remap_regs blank op) as [o|] eqn:Ho.
  - simpl in H. destruct (for_each_jump_pc_mut blank_jump o) as [o'|] eqn:Ho'; simpl in H; subst.
    + destruct o; simpl in Ho'; try (apply bind_Some in Ho' as (? & _ & Ho')); simplify_eq.
      destruct op; simpl in Ho; repeat (apply bind_Some in Ho as (? & _ & Ho)); simplify_eq. by eexists.
    + by eexists.
  - simpl in H. subst. by eexists.
Qed.

Lemma coalesce_well_formed {P : CodePayloads} c :
  chunk_ok c → code_closed c → lines_ok c →
  ∃ c', coalesce c = Some c' ∧ chunk_ok c' ∧ code_closed c' ∧ lines_ok c' ∧
    length (code c') = length (code c) ∧ num_params c' = num_params c ∧
    (num_registers c' ≤ num_registers c)%N.
Proof.
  intros Hok Hcc Hlines. destruct (N.eq_dec (num_registers c) 0%N) as [H0|H0].
  { exists c. unfold coalesce. by rewrite (proj2 (N.eqb_eq _ _) H0). }
  destruct (coalesce_spec c Hok H0) as (colors & c' & Hc & Hco). exists c'. split; [done|].
  assert (Hcl := co_colouring c c' colors Hco). assert (Hok' := coalesced_ok c c' colors Hok Hco).
  assert (Hlen := Forall2_length _ _ _ (co_code c c' colors Hco)).
  assert (Hrest : consts c' = consts c ∧ line_table c' = line_table c).
  { revert Hc. unfold coalesce. destruct (_ =? _)%N; [by intros [= ->]|].
    intros (? & _ & (? & _ & (? & _ & (? & _ & [= <-])%bind_Some)%bind_Some)%bind_Some)%bind_Some. done. }
  split; [done|]. split.
  - split; [apply Hok'| |].
    + intros d k Hin. apply list_elem_of_lookup in Hin as [i Hi].
      destruct (Forall2_lookup_r _ _ _ _ _ (co_code c c' colors Hco) Hi) as (op & Hop & Hrec).
      apply recolored_skeleton in Hrec. destruct (skeleton_load op d k Hrec) as [d' ->].
      destruct Hrest as [-> _]. eapply (cc_consts c Hcc). by eapply list_elem_of_lookup_2.
    + intros op' t Hin Ht. apply list_elem_of_lookup in Hin as [i Hi].
      destruct (Forall2_lookup_r _ _ _ _ _ (co_code c c' colors Hco) Hi) as (op & Hop & Hrec).
      assert (Hro : regs_ok (num_regs c) op) by exact (Forall_lookup_1 _ _ _ _ (ok_code c Hok) Hop).
      destruct (recolored_slots c colors op op' Hok Hcl Hro Hrec) as (_ & _ & Htg & _).
      rewrite Htg in Ht. rewrite <-Hlen. eapply (cc_jumps c Hcc); [|done].
      by eapply list_elem_of_lookup_2.
  - split; [unfold lines_ok; by rewrite (proj2 Hrest), <-Hlen|]. split; [done|].
    split; [apply Hco|]. rewrite (co_registers c c' colors Hco). by apply color_count_bound.
Qed.

(** ** The release of stale reads *)

Lemma release_well_formed {P : CodePayloads} c :
  chunk_ok c → code_closed c → lines_ok c →
  ∃ c', release_stale_global_loads c = Some c' ∧ num_params c' = num_params c ∧
    num_registers c' = num_registers c ∧
    ((N.of_nat (length (code c')) < 2 ^ 32)%N → chunk_ok c' ∧ code_closed c' ∧ lines_ok c').
Proof.
  intros Hok Hcc Hlines.
  destruct (decide (length (code c) = 0 ∨ num_registers c = 0%N)) as [H0|[Hn H0]%Decidable.not_or].
  { exists c. unfold release_stale_global_loads.
    replace ((_ =? 0) || _) with true by (symmetry; apply orb_true_iff;
      destruct H0; [left; by apply Nat.eqb_eq|right; by apply N.eqb_eq]). done. }
  destruct (release_spec c Hok Hcc ltac:(lia) H0 Hlines) as (drops & c' & Hc & Hd & Hshape).
  exists c'. split; [done|]. destruct Hshape as [[-> _]|Hrel]; [done|].
  split; [by rewrite (rs_rest _ _ _ Hrel)|]. split; [by rewrite (rs_rest _ _ _ Hrel)|].
  intros Hlen. destruct (released_rebuilt c Hcc drops c' Hrel Hlen) as [remap Hrb].
  destruct (rebuilt_ok c c' (drops_of drops) (λ _, true) remap Hok Hcc Hrb (rs_rest _ _ _ Hrel)).
  - intros i o (r & -> & Hr)%list_elem_of_fmap. destruct (drops !! i) as [ds|] eqn:Hi;
      [|by apply elem_of_nil in Hr].
    destruct (drop_lists_spec c Hok drops i ds r Hd Hi Hr) as (dst & g & sp & bs & k & _ & _ & Hst & _).
    destruct (st_load _ _ _ _ _ _ Hst) as [sp' Hload].
    assert (Hro := Forall_lookup_1 _ _ _ _ (ok_code c Hok) Hload).
    assert (Hrn : as_usize r < num_regs c).
    { eapply regs_ok_def; [exact Hro|]. apply list_elem_of_singleton. done. }
    by repeat constructor.
  - by intros i d k (r & ? & _)%list_elem_of_fmap.
  - split_and!; [done..|]. by eapply released_lines.
Qed.

(** ** Fallbacks after coalescing *)

(** A slot is live in the coalesced code only for a register live in the original. *)
Lemma coalesced_live {P : CodePayloads} c c' colors s i :
  chunk_ok c → coalesced c c' colors → live_at (code c') s i →
  ∃ r, slot colors r = s ∧ live_at (code c) r i.
Proof.
  intros Hok Hco Hl. assert (Hcl := co_colouring c c' colors Hco).
  assert (Hlen := Forall2_length _ _ _ (co_code c c' colors Hco)).
  assert (Hfrom : ∀ i op', code c' !! i = Some op' → ∃ op, code c !! i = Some op ∧
    use_slots op' = map (slot colors) (use_slots op) ∧
    def_slots op' = map (slot colors) (def_slots op) ∧
    succs (length (code c')) i op' = succs (length (code c)) i op).
  { intros x op' Hx. destruct (Forall2_lookup_r _ _ _ _ _ (co_code c c' colors Hco) Hx) as (op & Hop & Hrec).
    assert (Hro : regs_ok (num_regs c) op) by exact (Forall_lookup_1 _ _ _ _ (ok_code c Hok) Hop).
    destruct (recolored_slots c colors op op' Hok Hcl Hro Hrec) as (Hu & Hd & Ht & Hf).
    exists op. split_and!; [done..|]. unfold succs. by rewrite Ht, Hf, Hlen. }
  induction Hl as [i op' Hop' Hu|i op' j Hop' Hnd Hj _ (r & <- & IH)].
  - destruct (Hfrom i op' Hop') as (op & Hop & Hus & _). rewrite Hus in Hu.
    apply list_elem_of_fmap in Hu as (r & -> & Hr). exists r. split; [done|]. by eapply live_use.
  - destruct (Hfrom i op' Hop') as (op & Hop & _ & Hds & Hsucc). exists r. split; [done|].
    rewrite Hds in Hnd. rewrite Hsucc in Hj. eapply live_through; [done| |done|done].
    intros Hr. apply Hnd. by apply list_elem_of_fmap_2.
Qed.

Lemma coalesced_fallback {P : CodePayloads} c c' colors :
  chunk_ok c → coalesced c c' colors → fallback_ok c → fallback_ok c'.
Proof.
  intros Hok Hco Hfall i dst' src' fb sp Hop' Hl. assert (Hcl := co_colouring c c' colors Hco).
  destruct (coalesced_live c c' colors _ _ Hok Hco Hl) as (r & Hr & Hlr).
  destruct (Forall2_lookup_r _ _ _ _ _ (co_code c c' colors Hco) Hop') as (op & Hop & Hrec).
  assert (Hro : regs_ok (num_regs c) op) by exact (Forall_lookup_1 _ _ _ _ (ok_code c Hok) Hop).
  destruct (recolored_slots c colors op _ Hok Hcl Hro Hrec) as (_ & Hd & _).
  assert (∃ dst src, op = Op.Coalesce dst src fb sp) as (dst & src & ->).
  { unfold recolored, remap_op in Hrec. destruct op; simpl in Hrec;
      repeat (apply bind_Some in Hrec as (? & _ & Hrec)); simplify_eq. by eexists _, _. }
  change (def_slots (Op.Coalesce dst src fb sp)) with [as_usize dst] in Hd.
  change (def_slots (Op.Coalesce dst' src' fb sp)) with [as_usize dst'] in Hd.
  injection Hd as Hd. assert (as_usize dst = r) as <-.
  { eapply (defined_apart c colors i (as_usize fb) _ (as_usize dst) r Hok Hcl Hop);
      [|by apply list_elem_of_singleton|by left|congruence].
    unfold succs. apply list_elem_of_filter. split; [by eapply live_in_code|].
    apply elem_of_app. right. by apply list_elem_of_singleton. }
  by eapply Hfall.
Qed.

(** Recolouring moves no instruction, so what is read and taken when stays. *)
Lemma coalesced_calm {P : CodePayloads} c c' colors stores :
  chunk_ok c → coalesced c c' colors → calm stores (code c) → calm stores (code c').
Proof.
  intros Hok Hco Hcalm g k p [(r & sp & Hk) (dst & sp' & Hp) Hkp Hkept Hjump] j op' Hkj Hjp Hop'.
  assert (Hcl := co_colouring c c' colors Hco).
  assert (Hfrom : ∀ i op', code c' !! i = Some op' → ∃ op, code c !! i = Some op ∧
    skeleton op' = skeleton op ∧ targets (op_facts op') = targets (op_facts op) ∧
    ∃ m, remap_regs m op = Some op').
  { intros x o' Hx. destruct (Forall2_lookup_r _ _ _ _ _ (co_code c c' colors Hco) Hx) as (o & Ho & Hrec).
    assert (Hro : regs_ok (num_regs c) o) by exact (Forall_lookup_1 _ _ _ _ (ok_code c Hok) Ho).
    destruct (recolored_slots c colors o o' Hok Hcl Hro Hrec) as (_ & _ & Ht & _).
    exists o. split_and!; [done|by eapply recolored_skeleton|done|by eexists]. }
  destruct (Hfrom k _ Hk) as (ok & Hk' & _ & _ & mk & Hmk).
  destruct (Hfrom p _ Hp) as (op & Hp' & _ & _ & mp & Hmp).
  destruct (Hfrom j _ Hop') as (oj & Hj' & -> & _).
  refine (Hcalm g k p _ j oj Hkj Hjp Hj'). split; [| |done| |].
  - destruct ok; simpl in Hmk; repeat (apply bind_Some in Hmk as (? & _ & Hmk)); simplify_eq.
    by eexists _, _.
  - destruct op; simpl in Hmp; repeat (apply bind_Some in Hmp as (? & _ & Hmp)); simplify_eq.
    by eexists _, _.
  - intros i o Hi1 Hi2 Ho.
    destruct (lookup_lt_is_Some_2 (code c') i) as [o' Ho'].
    { rewrite <-(Forall2_length _ _ _ (co_code c c' colors Hco)). by eapply lookup_lt_Some. }
    destruct (Hfrom i o' Ho') as (o2 & Ho2 & _ & _ & m & Hm). simplify_eq.
    rewrite <-(remap_rewrites m g o o' Hm). by eapply Hkept.
  - intros o t [i Ho]%list_elem_of_lookup Ht.
    destruct (lookup_lt_is_Some_2 (code c') i) as [o' Ho'].
    { rewrite <-(Forall2_length _ _ _ (co_code c c' colors Hco)). by eapply lookup_lt_Some. }
    destruct (Hfrom i o' Ho') as (o2 & Ho2 & _ & Htg & _). simplify_eq.
    apply (Hjump o' t); [by eapply list_elem_of_lookup_2|by rewrite Htg].
Qed.

Section Finish.
Context {P : CodePayloads}.

Lemma finish_chunk_runs c c1 c2 c3 :
  hoist_loop_invariant_consts c = Some c1 → coalesce c1 = Some c2 →
  release_stale_global_loads c2 = Some c3 → finish_chunk c = Some c3.
Proof. intros H1 H2 H3. unfold finish_chunk. rewrite H1. simpl. rewrite H2. simpl. done. Qed.

(** C34. The passes [into_chunk] runs over every finished prototype never panic on a
    well-formed one: hoisting, coalescing and the release of stale reads each return on
    what the one before hands on, the parameters stay, the registers do not grow in
    number, and the result is well formed again (registers declared, constants, jump
    destinations and line entries in range). *)
Theorem finish_chunk_returns (c : Chunk) :
  chunk_ok c → code_closed c → lines_ok c → (N.of_nat (length (code c)) < 2 ^ 32)%N →
  ∃ c', finish_chunk c = Some c' ∧ num_params c' = num_params c ∧
    (num_registers c' ≤ num_registers c)%N ∧
    ((N.of_nat (length (code c')) < 2 ^ 32)%N → chunk_ok c' ∧ code_closed c' ∧ lines_ok c').
Proof.
  intros Hok Hcc Hlines Hn.
  destruct (hoist_well_formed c Hok Hcc Hlines Hn) as (c1 & H1 & Hok1 & Hcc1 & Hl1 & Hn1 & Hp1 & Hr1).
  destruct (coalesce_well_formed c1 Hok1 Hcc1 Hl1) as (c2 & H2 & Hok2 & Hcc2 & Hl2 & Hn2 & Hp2 & Hr2).
  destruct (release_well_formed c2 Hok2 Hcc2 Hl2) as (c3 & H3 & Hp3 & Hr3 & Hok3).
  exists c3. split; [by eapply finish_chunk_runs|]. split; [congruence|]. split; [|done].
  rewrite Hr3. etransitivity; [done|]. by rewrite Hr1.
Qed.

Section Run.
Context {Val World : Type} (exec : Op.op → list Val → World → Outcome (Val:=Val) (World:=World))
  (cst : N → Val) (unit_ : Val) (stores : Op.op → GlobalId → Prop)
  (holds : World → GlobalId → Val → Prop).

(** What the passes rely on of the machine. *)
Record machine_ok (c : Chunk) : Prop := {
  mo_loads : loads_constants exec cst c;
  mo_borrows : arith_borrows exec;
  mo_defines : defines exec;
  mo_globals : globals_ok exec unit_ stores holds;
}.

(** Coalesced code keeps the pace: same world, and it stops when the original stops. *)
Lemma coalesce_runs c c' colors args w k t :
  chunk_ok c → coalesced c c' colors → entry_ok c → fallback_ok c → defines exec →
  length args ≤ as_usize (num_params c) → run exec (code c) k (entry unit_ args w) = Some t →
  ∃ t', run exec (code c') k (entry unit_ args w) = Some t' ∧ st_world t' = st_world t ∧
    (step exec (code c) t = None → step exec (code c') t' = None).
Proof.
  intros Hok Hco Hentry Hfall Hdef Hargs Hrun.
  assert (He := entry_related c c' colors Hok Hco Hentry unit_ args w Hargs).
  assert (Hk := run_simulates exec Hdef c c' colors Hok Hco Hentry Hfall k _ _ He).
  rewrite Hrun in Hk. inversion Hk as [x t' Hrel Hx Ht'|]. subst x. exists t'.
  split; [done|]. split; [apply Hrel|]. intros Hstop.
  assert (Hs := step_simulates exec Hdef c c' colors Hok Hco Hentry Hfall t t' Hrel).
  rewrite Hstop in Hs. by inversion Hs.
Qed.

Lemma coalesced_registers c c' colors :
  coalesced c c' colors → num_registers c ≠ 0%N → num_registers c' ≠ 0%N.
Proof.
  intros Hco H0. rewrite (co_registers c c' colors Hco).
  assert (Hl := cl_length c colors (co_colouring c c' colors Hco)). unfold color_count.
  destruct colors; [|lia]. unfold num_regs, as_usize in Hl. simpl in Hl. lia.
Qed.

(** C15. The three passes together are a refinement: the finished prototype exists, and
    every run of the original, from the same arguments and world, is matched by a run of
    the finished code that ends in the same world and stops if the original stops.  Of the
    code it takes that loops constants leave are entered through their tops, that the
    hoisted code reads on entry only parameters and in a fallback never the register its
    [??] would have written, and that no instruction between a read of a global and the
    take that follows it runs code, a called function's included, that stores that global
    ([calm]): functions may store globals anywhere else.  Of the machine, whose world holds
    no reference counts, it takes that constants load alike, arithmetic borrows, what
    continues writes what it defines, and that releasing a value some global owns is not
    seen; where no release is ever seen [calm] asks nothing. *)
Theorem finish_chunk_preserves_execution (c c1 : Chunk) (args : list Val) (w : World) :
  chunk_ok c → code_closed c → lines_ok c → (N.of_nat (length (code c)) < 2 ^ 32)%N →
  code c ≠ [] → num_registers c ≠ 0%N → hoist_ok c →
  hoist_loop_invariant_consts c = Some c1 → entry_ok c1 → fallback_ok c1 →
  calm stores (code c1) → machine_ok c →
  length args ≤ as_usize (num_params c) →
  ∃ c', finish_chunk c = Some c' ∧
    ((N.of_nat (length (code c')) < 2 ^ 32)%N →
     ∀ k t, run exec (code c) k (entry unit_ args w) = Some t →
     ∃ m t', run exec (code c') m (entry unit_ args w) = Some t' ∧ st_world t' = st_world t ∧
       (step exec (code c) t = None → step exec (code c') t' = None)).
Proof.
  intros Hok Hcc Hlines Hn Hne H0 Hho H1 Hentry Hfall Hcalm [Hloads Hborrow Hdef Hgl] Hargs.
  destruct (hoist_well_formed c Hok Hcc Hlines Hn) as (c1' & H1' & Hok1 & Hcc1 & Hl1 & Hn1 & Hp1 & Hr1).
  rewrite H1 in H1'. injection H1' as <-.
  destruct (hoist_spec c Hcc) as (c1' & H1' & Hshape). rewrite H1 in H1'. injection H1' as <-.
  destruct (coalesce_well_formed c1 Hok1 Hcc1 Hl1) as (c2 & H2 & Hok2 & Hcc2 & Hl2 & Hn2 & _).
  rewrite <-Hr1 in H0. destruct (coalesce_spec c1 Hok1 H0) as (colors & c2' & H2' & Hco).
  rewrite H2 in H2'. injection H2' as <-.
  assert (Hn0 : 0 < length (code c2)).
  { rewrite Hn2, Hn1. destruct (code c); [done|simpl; lia]. }
  destruct (release_spec c2 Hok2 Hcc2 Hn0 (coalesced_registers c1 c2 colors Hco H0) Hl2)
    as (drops & c3 & H3 & Hd & Hshape3).
  exists c3. split; [by eapply finish_chunk_runs|]. intros Hlen k t Hrun.
  destruct (hoist_runs exec cst c c1 unit_ args w k t) as (m1 & t1 & Hm1 & Hw1 & _ & Hs1);
    [done..|by rewrite Hn1|done|].
  destruct (coalesce_runs c1 c2 colors args w m1 t1) as (t2 & Hm2 & Hw2 & Hs2); [done..|by rewrite Hp1|done|].
  destruct (release_runs exec unit_ stores holds c2 drops c3 args w m1 t2) as (m3 & t3 & Hm3 & Hw3 & _ & Hs3);
    [done|done|by apply (coalesced_fallback c1 c2 colors)|done|done|done|
     by apply (coalesced_calm c1 c2 colors)|done|tauto|done|done|].
  exists m3, t3. split; [done|]. split; [congruence|]. auto.
Qed.
End Run.
End Finish.

(** ** A loop and a self-update, finished and run *)

Module PipelineExample.
#[local] Existing Instance unit_code_payloads.

Definition at0 : Span := mkSpan 0 0 FIRST.

(** [while i < n { i = i + 1 }; echo xs; f(xs); xs = update(xs); return i], with the updated
    value on the teardown list and [f] storing a global of its own. *)
Definition loop_update : Chunk := mkChunk
  [Op.LoadConst 2 0; Op.Binary Lt 3 2 1 at0; Op.CondBranch 3 7 at0; Op.LoadConst 4 0;
   Op.Binary Add 5 2 4 at0; Op.Move 2 5; Op.Jump 1; Op.LoadGlobal 6 (mkGlobalId 0) at0;
   Op.Echo 6; Op.CallGlobal 9 (mkGlobalId 1) [6] TypeArgs.NONE at0 None;
   Op.TakeGlobal 7 (mkGlobalId 0) at0; Op.Binary Add 8 7 7 at0;
   Op.StoreGlobal (mkGlobalId 0) 8; Op.Return 2]%N
  [Const.Int 1] [] 2 0 0 10 [7]%N [] None None [] [mkLineEntry 3 at0; mkLineEntry 13 at0].
Definition hoisted_update : Chunk :=
  Eval vm_compute in default loop_update (hoist_loop_invariant_consts loop_update).
Definition finished_update : Chunk :=
  Eval vm_compute in default loop_update (finish_chunk loop_update).

(** Each pass did something, and the runs agree. *)
Lemma loop_update_runs :
  num_registers finished_update = 5%N ∧ length (code finished_update) = 15 ∧
  code finished_update !! 10 = Some (Op.Drop 1 false)%N ∧
  (λ s, (pc s, st_world s)) <$> run ToyGlobals.exec (code loop_update) 21 (entry 0 [0; 3] ([], [7; 5]))%Z =
    Some (13, ([7], [14; 7])%Z) ∧
  (λ s, (pc s, st_world s)) <$> run ToyGlobals.exec (code finished_update) 21 (entry 0 [0; 3] ([], [7; 5]))%Z =
    Some (14, ([7], [14; 7])%Z).
Proof. vm_compute. done. Qed.

Lemma loop_update_ok : chunk_ok loop_update ∧ code_closed loop_update ∧ lines_ok loop_update.
Proof.
  split; [|split; [by apply code_closedb_sound|by repeat constructor]].
  by split; [by apply (bool_decide_eq_true_1 (code_ok _ _)) | | vm_compute; lia
    | repeat constructor | constructor].
Defined.

Lemma hoisted_update_ok : chunk_ok hoisted_update.
Proof.
  by split; [by apply (bool_decide_eq_true_1 (code_ok _ _)) | | vm_compute; lia
    | repeat constructor | constructor].
Defined.

Lemma toy_machine_ok :
  machine_ok ToyGlobals.exec (λ k, Z.of_N k + 1)%Z 0%Z ToyGlobals.stores ToyGlobals.holds
    loop_update.
Proof.
  split; [by intros k x [] _ _| |apply ToyGlobals.globals_defines_all|apply ToyGlobals.globals_all].
  intros op vals w _. rewrite ToyGlobals.exec_use_writes. constructor.
Defined.

Lemma finish_chunk_returns_witness :
  ∃ c', finish_chunk loop_update = Some c' ∧ num_params c' = 2%N ∧ (num_registers c' ≤ 10)%N ∧
    ((N.of_nat (length (code c')) < 2 ^ 32)%N → chunk_ok c' ∧ code_closed c' ∧ lines_ok c').
Proof.
  destruct loop_update_ok as (? & ? & ?). by apply (finish_chunk_returns loop_update).
Defined.

Lemma finish_chunk_preserves_execution_witness :
  ∃ c', finish_chunk loop_update = Some c' ∧
    ((N.of_nat (length (code c')) < 2 ^ 32)%N →
     ∀ k t, run ToyGlobals.exec (code loop_update) k (entry 0%Z [0; 3]%Z ([], [7; 5]%Z)) = Some t →
     ∃ m t', run ToyGlobals.exec (code c') m (entry 0%Z [0; 3]%Z ([], [7; 5]%Z)) = Some t' ∧
       st_world t' = st_world t ∧
       (step ToyGlobals.exec (code loop_update) t = None →
        step ToyGlobals.exec (code c') t' = None)).
Proof.
  destruct loop_update_ok as (? & ? & ?). assert (Hh := hoisted_update_ok).
  assert (Hrun := runs_ok_sound hoisted_update Hh ltac:(vm_compute; reflexivity)).
  apply (finish_chunk_preserves_execution ToyGlobals.exec (λ k, Z.of_N k + 1)%Z 0%Z ToyGlobals.stores
    ToyGlobals.holds loop_update hoisted_update); [done..| | |apply Hrun|apply Hrun| | |].
  - by apply hoist_okb_sound; [apply (bool_decide_eq_true_1 (code_ok _ _))|vm_compute].
  - vm_compute. reflexivity.
  - by apply (calmb_sound ToyGlobals.stores).
  - apply toy_machine_ok.
  - vm_compute. lia.
Defined.
End PipelineExample.
