(* ===== verification/Transparency.v ===== *)
(** The client side of the package registry's transparency log
    ([crates/noeta-pm/src/transparency.rs]): hex, leaf and node hashes, the record, and the
    verifiers of audit paths and consistency proofs.  A [String] is the Rocq string of its
    UTF-8 bytes, a [u8] a [byte], a [[u8; n]] a [vec byte n]; [u64] and [usize] are [N].

    A function that may run for ever returns [None] when it does; under it, a fallible one
    returns a sum.  SHA-256 is a parameter. *)
From Stdlib Require Import Strings.Byte Strings.Ascii Strings.String.
From S2P Require Import Prelude.
From stdpp Require Import vector pretty options.
Open Scope string_scope.
Open Scope N_scope.

#[export] Instance byte_eq_dec : EqDecision byte.
Proof. intros a b. destruct (Byte.byte_eq_dec a b); [by left|by right]. Defined.

(** [PmError]: the kind, with its message. *)
Inductive PmError :=
  | NoManifest (m : string) | Manifest (m : string) | Io (m : string) | Network (m : string)
  | Conflict (m : string) | Auth (m : string) | Trust (m : string) | Lock (m : string)
  | NativeBuild (m : string).

(** [Result<A, PmError>], and the same of a function that may not return. *)
Definition result (A : Type) : Type := (A + PmError)%type.
Definition Run (A : Type) : Type := option (result A).
Definition Ok {A} (a : A) : Run A := Some (inl a).
Definition Err {A} (e : PmError) : Run A := Some (inr e).

(** The [?] operator. *)
Definition try {A B} (m : Run A) (k : A → Run B) : Run B :=
  match m with
  | Some (inl a) => k a
  | Some (inr e) => Some (inr e)
  | None => None
  end.
Notation "x ←? m ; k" := (try m (λ x, k))
  (at level 20, m at level 100, k at level 200, right associativity) : noeta_scope.
Definition ok_or {A} (o : option A) (e : PmError) : Run A :=
  match o with Some a => Ok a | None => Err e end.

(** [str::split('\n')]. *)
Fixpoint split_lines (s : string) : list string :=
  match s with
  | EmptyString => [EmptyString]
  | String c s =>
      if bool_decide (c = "010"%char) then EmptyString :: split_lines s
      else match split_lines s with
           | l :: ls => String c l :: ls
           | [] => [String c EmptyString]
           end
  end.

Definition newline : string := String "010"%char EmptyString.

(** ** Hashes *)

(** [Hash]. *)
Definition Hash : Type := vec byte 32.
Definition bytes_of (s : string) : list byte := list_byte_of_string s.

(** [u8::from_str_radix(s, 16)]: an optional [+], then hexadecimal digits. *)
Definition hex_digit (c : ascii) : option N :=
  let n := N_of_ascii c in
  if (48 <=? n) && (n <=? 57) then Some (n - 48)
  else if (97 <=? n) && (n <=? 102) then Some (n - 87)
  else if (65 <=? n) && (n <=? 70) then Some (n - 55)
  else None.
Fixpoint radix16_digits (s : string) (acc : N) : option N :=
  match s with
  | EmptyString => Some acc
  | String c s =>
      d ← hex_digit c;
      if 255 <? acc * 16 + d then None else radix16_digits s (acc * 16 + d)
  end.
Definition u8_from_str_radix16 (s : string) : option byte :=
  n ← match s with
      | EmptyString => None
      | String c EmptyString => hex_digit c
      | String c s' => if bool_decide (c = "+"%char) then radix16_digits s' 0 else radix16_digits s 0
      end;
  Byte.of_N n.

(** [hex_to_array::<N>].  A pair that splits a UTF-8 character is no slice in the code and
    no digits here: [None] in both. *)
Fixpoint hex_pairs (n : nat) (s : string) : option (vec byte n) :=
  match n with
  | O => Some [#]
  | S n =>
      match s with
      | String a (String b s) =>
          x ← u8_from_str_radix16 (String a (String b EmptyString));
          v ← hex_pairs n s; Some (x ::: v)
      | _ => None
      end
  end.
Definition hex_to_array (n : nat) (hex : string) : option (vec byte n) :=
  if bool_decide (String.length hex = (n * 2)%nat) then hex_pairs n hex else None.

(** [largest_pow2_below]: [k << 1] drops the bit that leaves the word. *)
Definition shl1 (k : N) : N := (k * 2) mod 2 ^ 64.
Fixpoint pow2_loop (fuel : nat) (n k : N) : option N :=
  if shl1 k <? n then
    match fuel with O => None | S fuel => pow2_loop fuel n (shl1 k) end
  else Some k.

(** Rounds: [k] doubles, so the loop ends in 63 rounds or never. *)
Definition largest_pow2_below (n : N) : option N := pow2_loop 64 n 1.

Section Log.
(** SHA-256. *)
Context (sha256 : list byte → Hash).

(** [leaf_hash], [node_hash]. *)
Definition leaf_hash (data : list byte) : Hash := sha256 (x00 :: data).
Definition node_hash (left right : Hash) : Hash := sha256 (x01 :: vec_to_list left ++ vec_to_list right).

(** [log_record]. *)
Definition log_record (name version url tag sha provenance license : string) : string :=
  "noeta-transparency-log-v1" +:+ newline +:+ name +:+ newline +:+ version +:+ newline +:+
  url +:+ newline +:+ tag +:+ newline +:+ sha +:+ newline +:+ provenance +:+ newline +:+
  license +:+ newline.

(** [root_from_inclusion].  [proof.split_last()] takes the proof from its end: [proof] is
    given reversed. *)
Fixpoint root_from_rev (leaf : Hash) (m n : N) (rproof : list Hash) : option (option Hash) :=
  if n <=? 1 then Some (if bool_decide (rproof = []) then Some leaf else None)
  else match rproof with
  | [] => Some None
  | sibling :: rest =>
      k ← largest_pow2_below n;
      if m <? k then
        r ← root_from_rev leaf m k rest;
        Some (left ← r; Some (node_hash left sibling))
      else
        r ← root_from_rev leaf (m - k) (n - k) rest;
        Some (right ← r; Some (node_hash sibling right))
  end.
Definition root_from_inclusion (leaf : Hash) (m n : N) (proof : list Hash) : option (option Hash) :=
  root_from_rev leaf m n (reverse proof).

(** [verify_inclusion]. *)
Definition verify_inclusion (leaf : Hash) (m size : N) (proof : list Hash) (root : Hash) :
    option bool :=
  if size <=? m then Some false else
  r ← root_from_inclusion leaf m size proof;
  Some (match r with Some r => bool_decide (r = root) | None => false end).

(** [reconstruct_consistency], the proof reversed. *)
Fixpoint reconstruct_rev (rproof : list Hash) (m n : N) (b : bool) (root_m : Hash) :
    option (option (Hash * Hash)) :=
  if m =? n then
    Some (if b then Some (root_m, root_m)
          else match rproof with h :: _ => Some (h, h) | [] => None end)
  else match rproof with
  | [] => Some None
  | sibling :: rest =>
      k ← largest_pow2_below n;
      if m <=? k then
        r ← reconstruct_rev rest m k b root_m;
        Some ('(lo, hi) ← r; Some (lo, node_hash hi sibling))
      else
        r ← reconstruct_rev rest (m - k) (n - k) false root_m;
        Some ('(lo, hi) ← r; Some (node_hash sibling lo, node_hash sibling hi))
  end.
Definition reconstruct_consistency (proof : list Hash) (m n : N) (b : bool) (root_m : Hash) :
    option (option (Hash * Hash)) :=
  reconstruct_rev (reverse proof) m n b root_m.

(** [verify_consistency]. *)
Definition verify_consistency (m n : N) (proof : list Hash) (root_m root_n : Hash) : option bool :=
  if n <? m then Some false
  else if m =? n then Some (bool_decide (proof = []) && bool_decide (root_m = root_n))
  else if m =? 0 then Some true
  else
    r ← reconstruct_consistency proof m n true root_m;
    Some (match r with
          | Some (lo, hi) => bool_decide (lo = root_m) && bool_decide (hi = root_n)
          | None => false
          end).

End Log.
