(* ===== verification/TransparencyFacts.v ===== *)
(** The transparency log's Merkle tree: the root, the audit path and the consistency proof
    of a list of leaves (the generators in the tests of
    [crates/noeta-pm/src/transparency.rs]), and what the verifiers of [Transparency]
    accept in terms of them. *)
From S2P Require Import Prelude Transparency.
From stdpp Require Import vector options.
From Stdlib Require Import Strings.Byte.
Open Scope N_scope.

(** ** The split point *)

(** RFC 6962's split point of [n ≥ 2] leaves. *)
Definition split_at (n : nat) : nat := (2 ^ Nat.log2 (n - 1))%nat.

Lemma shl1_pow j : j < 63 → shl1 (2 ^ j) = 2 ^ (j + 1).
Proof.
  intros Hj. unfold shl1. rewrite N.add_1_r, N.pow_succ_r', N.mul_comm.
  apply N.mod_small. rewrite <- N.pow_succ_r'. apply N.pow_lt_mono_r; lia.
Qed.

Lemma shl1_top : shl1 (2 ^ 63) = 0.
Proof. reflexivity. Qed.

Lemma pow2_loop_runs d fuel j n :
  2 ≤ n → n ≤ 2 ^ 63 → N.log2 (n - 1) = j + N.of_nat d → (d ≤ fuel)%nat →
  pow2_loop fuel n (2 ^ j) = Some (2 ^ (j + N.of_nat d)).
Proof.
  intros H2 H63. assert (Hlog : N.log2 (n - 1) < 63).
  { apply N.log2_lt_pow2; lia. }
  revert fuel j. induction d as [|d IH]; intros fuel j Hj Hf.
  - assert (Hlt : ¬ 2 ^ (j + 1) < n).
    { intros Hlt. assert (j + 1 ≤ N.log2 (n - 1)); [apply N.log2_le_pow2; lia|lia]. }
    destruct fuel; simpl; rewrite shl1_pow by lia;
      (destruct (2 ^ (j + 1) <? n) eqn:E; [apply N.ltb_lt in E; lia|]); do 2 f_equal; lia.
  - destruct fuel as [|fuel]; [lia|]. simpl. rewrite shl1_pow by lia.
    assert (Hlt : 2 ^ (j + 1) ≤ n - 1) by (apply N.log2_le_pow2; lia).
    destruct (2 ^ (j + 1) <? n) eqn:E; [|apply N.ltb_ge in E; lia].
    rewrite IH by lia. do 2 f_equal. lia.
Qed.

Lemma log2_of_nat n : N.of_nat (Nat.log2 n) = N.log2 (N.of_nat n).
Proof.
  destruct n as [|n]; [reflexivity|]. symmetry. apply N.log2_unique; [lia|].
  pose proof (Nat.log2_spec (S n) ltac:(lia)) as [Hlo Hhi]. split.
  - replace (2 ^ N.of_nat (Nat.log2 (S n))) with (N.of_nat (2 ^ Nat.log2 (S n))); [lia|].
    by rewrite Nat2N.inj_pow.
  - rewrite <- Nat2N.inj_succ. change 2 with (N.of_nat 2). rewrite <- Nat2N.inj_pow. lia.
Qed.

Lemma largest_pow2_below_split n :
  (2 ≤ n)%nat → N.of_nat n ≤ 2 ^ 63 →
  largest_pow2_below (N.of_nat n) = Some (N.of_nat (split_at n)).
Proof.
  intros H2 H63. unfold largest_pow2_below, split_at.
  assert (Hlog : N.log2 (N.of_nat n - 1) < 63) by (apply N.log2_lt_pow2; lia).
  change (pow2_loop 64 (N.of_nat n) (2 ^ 0) = Some (N.of_nat (2 ^ Nat.log2 (n - 1)))).
  rewrite (pow2_loop_runs (N.to_nat (N.log2 (N.of_nat n - 1)))) by lia.
  rewrite Nat2N.inj_pow, log2_of_nat, N2Nat.id, N.add_0_l. do 3 f_equal. lia.
Qed.

Lemma split_at_bounds n : (2 ≤ n)%nat → (1 ≤ split_at n < n)%nat ∧ (n ≤ 2 * split_at n)%nat.
Proof.
  intros H. unfold split_at. pose proof (Nat.log2_spec (n - 1) ltac:(lia)) as [Hlo Hhi].
  rewrite Nat.pow_succ_r' in Hhi. pose proof (Nat.pow_nonzero 2 (Nat.log2 (n - 1))). lia.
Qed.

(** Past [2^63] the doubled value leaves the word: the loop never ends. *)
Lemma pow2_loop_zero fuel n : 0 < n → pow2_loop fuel n 0 = None.
Proof.
  intros H. induction fuel as [|fuel IH]; simpl; change (shl1 0) with 0;
    (destruct (0 <? n) eqn:E; [|apply N.ltb_ge in E; lia]); auto.
Qed.

Lemma pow2_loop_hangs fuel n j : 2 ^ 63 < n → j ≤ 63 → pow2_loop fuel n (2 ^ j) = None.
Proof.
  intros Hn. revert j. induction fuel as [|fuel IH]; intros j Hj;
    (destruct (decide (j = 63)) as [->|];
     [simpl; rewrite shl1_top;
      (destruct (0 <? n) eqn:E; [|apply N.ltb_ge in E; lia]); auto using pow2_loop_zero|]);
    [|apply pow2_loop_zero; lia|].
  - simpl. rewrite shl1_pow by lia.
    destruct (2 ^ (j + 1) <? n) eqn:E; [done|]. apply N.ltb_ge in E.
    assert (2 ^ (j + 1) ≤ 2 ^ 63); [apply N.pow_le_mono_r; lia|lia].
  - simpl. rewrite shl1_pow by lia.
    destruct (2 ^ (j + 1) <? n) eqn:E; [apply IH; lia|]. apply N.ltb_ge in E.
    assert (2 ^ (j + 1) ≤ 2 ^ 63); [apply N.pow_le_mono_r; lia|lia].
Qed.

(** ** Trees of leaves *)

(** A list of leaves as the tree the log hashes: split at [split_at]. *)
Inductive tree :=
  | Empty
  | Leaf (h : Hash)
  | Node (l r : tree).

Fixpoint leaves (t : tree) : list Hash :=
  match t with
  | Empty => []
  | Leaf h => [h]
  | Node l r => leaves l ++ leaves r
  end.

Definition size (t : tree) : nat := length (leaves t).

Fixpoint tree_fuel (fuel : nat) (ls : list Hash) : tree :=
  match ls, fuel with
  | [], _ => Empty
  | [h], _ => Leaf h
  | _, O => Empty
  | _, S fuel =>
      let k := split_at (length ls) in
      Node (tree_fuel fuel (take k ls)) (tree_fuel fuel (drop k ls))
  end.

(** Fuel: a half of a list of two or more is shorter than the list. *)
Definition tree_of (ls : list Hash) : tree := tree_fuel (length ls) ls.

(** The trees [tree_of] builds. *)
Fixpoint shaped (t : tree) : Prop :=
  match t with
  | Empty => False
  | Leaf _ => True
  | Node l r => shaped l ∧ shaped r ∧ size l = split_at (size l + size r)
  end.

Lemma size_node l r : size (Node l r) = (size l + size r)%nat.
Proof. unfold size. simpl. by rewrite length_app. Qed.

Lemma size_pos t : shaped t → (1 ≤ size t)%nat.
Proof.
  induction t as [|h|l IHl r IHr]; cbn [shaped]; [done|intros _; unfold size; simpl; lia|].
  intros (Hl & Hr & _). rewrite size_node. specialize (IHl Hl). lia.
Qed.

(** The two halves of a list of two or more. *)
Lemma halves (ls : list Hash) : (2 ≤ length ls)%nat →
  let k := split_at (length ls) in
  length (take k ls) = k ∧ length (drop k ls) = (length ls - k)%nat ∧
  (1 ≤ k < length ls)%nat.
Proof.
  intros H k. pose proof (split_at_bounds _ H) as [Hk _]. fold k in Hk.
  rewrite length_take, length_drop. lia.
Qed.

Lemma tree_fuel_shaped fuel ls : (length ls ≤ S fuel)%nat → ls ≠ [] →
  shaped (tree_fuel fuel ls) ∧ leaves (tree_fuel fuel ls) = ls.
Proof.
  revert ls. induction fuel as [|fuel IH]; intros [|a [|b ls]] Hf Hne; simpl in Hf;
    try done; try lia.
  pose proof (halves (a :: b :: ls) ltac:(simpl; lia)) as (H1 & H2 & H3).
  cbn [tree_fuel]. set (k := split_at (length (a :: b :: ls))) in *.
  assert (Hlen : length (a :: b :: ls) = S (S (length ls))) by reflexivity.
  destruct (IH (take k (a :: b :: ls))) as [Hs1 Hl1]; [lia|by intros E; rewrite E in H1; simpl in H1; lia|].
  destruct (IH (drop k (a :: b :: ls))) as [Hs2 Hl2]; [lia|by intros E; rewrite E in H2; simpl in H2; lia|].
  cbn [shaped leaves]. rewrite Hl1, Hl2, take_drop. split_and!; auto.
  unfold size. rewrite Hl1, Hl2, H1, H2. unfold k. f_equal. lia.
Qed.

Lemma tree_of_shaped ls : ls ≠ [] → shaped (tree_of ls).
Proof. intros H. apply tree_fuel_shaped; [unfold tree_of; lia|done]. Qed.

Lemma leaves_tree_of ls : leaves (tree_of ls) = ls.
Proof. destruct ls as [|a ls]; [done|]. apply tree_fuel_shaped; [lia|done]. Qed.

Lemma size_tree_of ls : size (tree_of ls) = length ls.
Proof. unfold size. by rewrite leaves_tree_of. Qed.

(** A shaped tree is determined by its leaves. *)
Lemma shaped_unique t : ∀ t', shaped t → shaped t' → leaves t = leaves t' → t = t'.
Proof.
  induction t as [|h|l IHl r IHr]; intros t' Hs Hs' E; [done| |].
  - destruct t' as [|h'|l' r']; [done|cbn in E; congruence|].
    cbn in Hs'. destruct Hs' as (Hl & Hr & _). apply size_pos in Hl, Hr.
    apply (f_equal length) in E. unfold size in *. cbn in E. rewrite length_app in E. lia.
  - destruct t' as [|h'|l' r']; [done| |].
    + cbn in Hs. destruct Hs as (Hl & Hr & _). apply size_pos in Hl, Hr.
      apply (f_equal length) in E. unfold size in *. cbn in E. rewrite length_app in E. lia.
    + cbn in Hs, Hs'. destruct Hs as (Hl & Hr & Hk), Hs' as (Hl' & Hr' & Hk').
      assert (Hlen : (size l + size r = size l' + size r')%nat).
      { apply (f_equal length) in E. cbn in E. by rewrite !length_app in E. }
      cbn in E. apply app_inj_1 in E as [E1 E2]; [|unfold size in *; congruence].
      f_equal; auto.
Qed.

Lemma tree_of_leaves t : shaped t → tree_of (leaves t) = t.
Proof.
  intros H. assert (leaves t ≠ []).
  { intros E. apply size_pos in H. unfold size in H. rewrite E in H. simpl in H. lia. }
  apply shaped_unique; [by apply tree_of_shaped|done|apply leaves_tree_of].
Qed.

(** The part of a tree's leaves before [m], past the split: the split stays. *)
Lemma split_at_prefix m n : (split_at n < m ≤ n)%nat → split_at m = split_at n.
Proof.
  intros H. destruct (decide (n ≤ 1)%nat) as [H1|H1].
  { destruct n as [|[|n]]; [..|lia]; unfold split_at in *; simpl in *; lia. }
  unfold split_at in *. f_equal. apply Nat.log2_unique; [lia|].
  pose proof (Nat.log2_spec (n - 1) ltac:(lia)). lia.
Qed.

Lemma tree_of_prefix l r m : shaped (Node l r) → (size l < m ≤ size l + size r)%nat →
  tree_of (take m (leaves (Node l r))) = Node l (tree_of (take (m - size l) (leaves r))).
Proof.
  intros (Hl & Hr & Hk) Hm. cbn [leaves].
  assert (E : take m (leaves l ++ leaves r) = leaves l ++ take (m - size l) (leaves r)).
  { rewrite take_app. unfold size in *. f_equal. apply take_ge. lia. }
  rewrite E. assert (Hlr : length (take (m - size l) (leaves r)) = (m - size l)%nat).
  { rewrite length_take. unfold size in *. lia. }
  assert (take (m - size l) (leaves r) ≠ []).
  { intros E'. rewrite E' in Hlr. simpl in Hlr. lia. }
  assert (Hs : shaped (Node l (tree_of (take (m - size l) (leaves r))))).
  { cbn. split_and!; [done|by apply tree_of_shaped|]. rewrite size_tree_of, Hlr.
    rewrite Hk at 1. rewrite <- (split_at_prefix m); [f_equal; lia|rewrite <- Hk; lia]. }
  rewrite <- (tree_of_leaves _ Hs). cbn. by rewrite leaves_tree_of.
Qed.

(** ** Roots, audit paths, consistency proofs *)

Section Merkle.
Context (sha256 : list byte → Hash).
Local Notation node_hash := (node_hash sha256).

(** [merkle_root]. *)
Fixpoint root (t : tree) : Hash :=
  match t with
  | Empty => sha256 []
  | Leaf h => h
  | Node l r => node_hash (root l) (root r)
  end.
Definition merkle_root (ls : list Hash) : Hash := root (tree_of ls).

(** [inclusion_proof]. *)
Fixpoint audit_path (t : tree) (m : nat) : list Hash :=
  match t with
  | Node l r =>
      if decide (m < size l)%nat then audit_path l m ++ [root r]
      else audit_path r (m - size l) ++ [root l]
  | _ => []
  end.
Definition inclusion_proof (ls : list Hash) (m : nat) : list Hash := audit_path (tree_of ls) m.

(** [subproof]. *)
Fixpoint subproof (t : tree) (m : nat) (b : bool) : list Hash :=
  if decide (m = size t) then (if b then [] else [root t]) else
  match t with
  | Node l r =>
      if decide (m ≤ size l)%nat then subproof l m b ++ [root r]
      else subproof r (m - size l) false ++ [root l]
  | _ => []
  end.
Definition consistency_proof (ls : list Hash) (m : nat) : list Hash :=
  subproof (tree_of ls) m true.

(** ** What is hashed *)

(** Bytes hashed for an interior node. *)
Definition node_bytes (left right : Hash) : list byte :=
  x01 :: vec_to_list left ++ vec_to_list right.

(** The inputs of the interior hashes of a tree. *)
Fixpoint tree_inputs (t : tree) : list (list byte) :=
  match t with
  | Node l r => node_bytes (root l) (root r) :: tree_inputs l ++ tree_inputs r
  | _ => []
  end.

(** The inputs hashed by [root_from_inclusion]. *)
Fixpoint path_inputs (leaf : Hash) (m n : N) (rproof : list Hash) : list (list byte) :=
  match rproof with
  | [] => []
  | sibling :: rest =>
      match largest_pow2_below n with
      | None => []
      | Some k =>
          if m <? k then
            match root_from_rev sha256 leaf m k rest with
            | Some (Some h) => [node_bytes h sibling]
            | _ => []
            end ++ path_inputs leaf m k rest
          else
            match root_from_rev sha256 leaf (m - k) (n - k) rest with
            | Some (Some h) => [node_bytes sibling h]
            | _ => []
            end ++ path_inputs leaf (m - k) (n - k) rest
      end
  end.

(** The inputs hashed by [reconstruct_consistency]. *)
Fixpoint consistency_inputs (rproof : list Hash) (m n : N) (b : bool) (root_m : Hash) :
    list (list byte) :=
  match rproof with
  | [] => []
  | sibling :: rest =>
      match largest_pow2_below n with
      | None => []
      | Some k =>
          if m <=? k then
            match reconstruct_rev sha256 rest m k b root_m with
            | Some (Some (_, hi)) => [node_bytes hi sibling]
            | _ => []
            end ++ consistency_inputs rest m k b root_m
          else
            match reconstruct_rev sha256 rest (m - k) (n - k) false root_m with
            | Some (Some (lo, hi)) => [node_bytes sibling lo; node_bytes sibling hi]
            | _ => []
            end ++ consistency_inputs rest (m - k) (n - k) false root_m
      end
  end.

(** No two of these inputs collide under SHA-256. *)
Definition collision_free (inputs : list (list byte)) : Prop :=
  ∀ x y, x ∈ inputs → y ∈ inputs → sha256 x = sha256 y → x = y.

Lemma collision_free_sub inputs inputs' :
  inputs' ⊆ inputs → collision_free inputs → collision_free inputs'.
Proof. intros Hsub H x y Hx Hy. apply H; auto. Qed.

Lemma node_bytes_inj a b c d : node_bytes a b = node_bytes c d → a = c ∧ b = d.
Proof.
  unfold node_bytes. intros [= E].
  apply app_inj_1 in E as [E1 E2]; [|by rewrite !length_vec_to_list].
  by apply vec_to_list_inj2 in E1, E2.
Qed.

Lemma node_hash_inj inputs a b c d :
  collision_free inputs → node_bytes a b ∈ inputs → node_bytes c d ∈ inputs →
  node_hash a b = node_hash c d → a = c ∧ b = d.
Proof. intros H Hi Hj E. apply node_bytes_inj. by apply H. Qed.

(** The inputs a fact about one half needs are among those of the whole. *)
Ltac sub_inputs :=
  eapply collision_free_sub; [|eassumption];
  intros ?; rewrite ?elem_of_app, ?elem_of_cons, ?elem_of_app; tauto.

Lemma root_inj t : ∀ t', shaped t → shaped t' → size t = size t' →
  collision_free (tree_inputs t ++ tree_inputs t') → root t = root t' → t = t'.
Proof.
  induction t as [|h|l IHl r IHr]; intros t' Hs Hs' Hsz Hc E; [done| |].
  - destruct t' as [|h'|l' r']; [done|cbn in E; congruence|].
    cbn in Hs'. destruct Hs' as (Hl & Hr & _). apply size_pos in Hl, Hr.
    rewrite size_node in Hsz. unfold size at 1 in Hsz. simpl in Hsz. lia.
  - destruct t' as [|h'|l' r']; [done| |].
    + cbn in Hs. destruct Hs as (Hl & Hr & _). apply size_pos in Hl, Hr.
      rewrite size_node in Hsz. unfold size at 3 in Hsz. simpl in Hsz. lia.
    + cbn in Hs, Hs'. destruct Hs as (Hl & Hr & Hk), Hs' as (Hl' & Hr' & Hk').
      rewrite !size_node in Hsz. cbn [root tree_inputs] in *.
      eapply node_hash_inj in E as [E1 E2]; [|exact Hc|..];
        [|rewrite elem_of_app, !elem_of_cons; auto..].
      assert (size l = size l') by congruence.
      f_equal; [apply IHl|apply IHr]; auto; try lia; sub_inputs.
Qed.

Lemma merkle_root_inj ls ls' : ls ≠ [] → length ls = length ls' →
  collision_free (tree_inputs (tree_of ls) ++ tree_inputs (tree_of ls')) →
  merkle_root ls = merkle_root ls' → ls = ls'.
Proof.
  intros Hne Hlen Hc E. assert (ls' ≠ []) by (destruct ls, ls'; done).
  rewrite <- (leaves_tree_of ls), <- (leaves_tree_of ls'). f_equal.
  apply root_inj; auto using tree_of_shaped. by rewrite !size_tree_of.
Qed.

(** ** Audit paths *)

Lemma split_of_node l r :
  shaped (Node l r) → N.of_nat (size (Node l r)) ≤ 2 ^ 63 →
  largest_pow2_below (N.of_nat (size (Node l r))) = Some (N.of_nat (size l)).
Proof.
  intros (Hl & Hr & Hk) H63. pose proof (size_pos _ Hl). pose proof (size_pos _ Hr).
  rewrite largest_pow2_below_split; [|rewrite size_node; lia|done].
  by rewrite size_node, <- Hk.
Qed.

(** One round of [root_from_inclusion] at a node. *)
Lemma root_from_rev_node leaf m l r sibling rest :
  shaped (Node l r) → N.of_nat (size (Node l r)) ≤ 2 ^ 63 →
  root_from_rev sha256 leaf (N.of_nat m) (N.of_nat (size (Node l r))) (sibling :: rest) =
  if decide (m < size l)%nat then
    h ← root_from_rev sha256 leaf (N.of_nat m) (N.of_nat (size l)) rest;
    Some (h ← h; Some (node_hash h sibling))
  else
    h ← root_from_rev sha256 leaf (N.of_nat (m - size l)) (N.of_nat (size r)) rest;
    Some (h ← h; Some (node_hash sibling h)).
Proof.
  intros Hs H63. pose proof (split_of_node _ _ Hs H63) as Hk. destruct Hs as (Hl & Hr & _).
  pose proof (size_pos _ Hl). pose proof (size_pos _ Hr). rewrite size_node in *.
  cbn [root_from_rev]. destruct (N.of_nat (size l + size r) <=? 1) eqn:E;
    [apply N.leb_le in E; lia|]. rewrite Hk. cbn [mbind option_bind].
  replace (N.of_nat m - N.of_nat (size l)) with (N.of_nat (m - size l)) by lia.
  replace (N.of_nat (size l + size r) - N.of_nat (size l)) with (N.of_nat (size r)) by lia.
  destruct (decide (m < size l)%nat), (N.of_nat m <? N.of_nat (size l)) eqn:E';
    try done; [apply N.ltb_ge in E'|apply N.ltb_lt in E']; lia.
Qed.

(** The inputs of that round. *)
Lemma path_inputs_node leaf m l r sibling rest :
  shaped (Node l r) → N.of_nat (size (Node l r)) ≤ 2 ^ 63 →
  path_inputs leaf (N.of_nat m) (N.of_nat (size (Node l r))) (sibling :: rest) =
  if decide (m < size l)%nat then
    match root_from_rev sha256 leaf (N.of_nat m) (N.of_nat (size l)) rest with
    | Some (Some h) => [node_bytes h sibling]
    | _ => []
    end ++ path_inputs leaf (N.of_nat m) (N.of_nat (size l)) rest
  else
    match root_from_rev sha256 leaf (N.of_nat (m - size l)) (N.of_nat (size r)) rest with
    | Some (Some h) => [node_bytes sibling h]
    | _ => []
    end ++ path_inputs leaf (N.of_nat (m - size l)) (N.of_nat (size r)) rest.
Proof.
  intros Hs H63. pose proof (split_of_node _ _ Hs H63) as Hk. destruct Hs as (Hl & Hr & _).
  rewrite size_node in *. cbn [path_inputs]. rewrite Hk.
  replace (N.of_nat m - N.of_nat (size l)) with (N.of_nat (m - size l)) by lia.
  replace (N.of_nat (size l + size r) - N.of_nat (size l)) with (N.of_nat (size r)) by lia.
  destruct (decide (m < size l)%nat), (N.of_nat m <? N.of_nat (size l)) eqn:E';
    try done; [apply N.ltb_ge in E'|apply N.ltb_lt in E']; lia.
Qed.

(** The honest path leads to the root. *)
Lemma audit_path_complete t : ∀ m leaf,
  shaped t → N.of_nat (size t) ≤ 2 ^ 63 → leaves t !! m = Some leaf →
  root_from_rev sha256 leaf (N.of_nat m) (N.of_nat (size t)) (reverse (audit_path t m)) =
  Some (Some (root t)).
Proof.
  induction t as [|h|l IHl r IHr]; intros m leaf Hs H63 Hm; [done| |].
  - cbn in Hm. destruct m as [|m]; [|done]. by injection Hm as ->.
  - pose proof Hs as (Hl & Hr & _). cbn [leaves] in Hm. rewrite lookup_app in Hm.
    assert (H63' : N.of_nat (size l + size r) ≤ 2 ^ 63) by (by rewrite <- size_node).
    cbn [audit_path]. destruct (decide (m < size l)%nat) as [Hlt|Hge];
      rewrite reverse_snoc, root_from_rev_node by done;
      [rewrite decide_True by done|rewrite decide_False by done].
    + destruct (leaves l !! m) as [x|] eqn:E;
        [|apply lookup_ge_None in E; unfold size in Hlt; lia].
      rewrite IHl by (auto; try lia; congruence). done.
    + destruct (leaves l !! m) eqn:E; [apply lookup_lt_Some in E; unfold size in Hge; lia|].
      rewrite IHr by (auto; lia). done.
Qed.

(** A path that leads to the root is the honest one, for the leaf that is there. *)
Lemma root_from_rev_sound t : ∀ m rproof leaf,
  shaped t → N.of_nat (size t) ≤ 2 ^ 63 → (m < size t)%nat →
  root_from_rev sha256 leaf (N.of_nat m) (N.of_nat (size t)) rproof = Some (Some (root t)) →
  collision_free (tree_inputs t ++ path_inputs leaf (N.of_nat m) (N.of_nat (size t)) rproof) →
  leaves t !! m = Some leaf ∧ rproof = reverse (audit_path t m).
Proof.
  induction t as [|h|l IHl r IHr]; intros m rproof leaf Hs H63 Hm E Hc; [done| |].
  - assert (m = 0%nat) as -> by (unfold size in Hm; simpl in Hm; lia). unfold size in E.
    destruct rproof; cbn in E; [by injection E as ->|done].
  - pose proof Hs as (Hl & Hr & _). pose proof (size_pos _ Hl). pose proof (size_pos _ Hr).
    rewrite size_node in Hm. cbn [leaves audit_path]. rewrite lookup_app.
    assert (H63' : N.of_nat (size l + size r) ≤ 2 ^ 63) by (by rewrite <- size_node).
    destruct rproof as [|sibling rest].
    { rewrite size_node in E. cbn [root_from_rev] in E.
      destruct (_ <=? 1) eqn:E1; [apply N.leb_le in E1; lia|done]. }
    rewrite path_inputs_node in Hc by done. rewrite root_from_rev_node in E by done.
    destruct (decide (m < size l)%nat) as [Hlt|Hge];
      (destruct (root_from_rev _ _ _ _ rest) as [[h|]|] eqn:Eh; cbn in E; [|done..]);
      injection E as E; cbn [tree_inputs] in Hc;
      (eapply node_hash_inj in E as [E1 E2]; [|exact Hc|..];
        [|rewrite ?elem_of_app, ?elem_of_cons, ?elem_of_app; tauto..]); subst.
    + destruct (IHl m rest leaf) as [Hleaf ->]; auto; [lia|sub_inputs|].
      rewrite Hleaf, reverse_snoc. done.
    + destruct (IHr (m - size l)%nat rest leaf) as [Hleaf ->]; auto; [lia|lia|sub_inputs|].
      rewrite reverse_snoc. split; [|done].
      destruct (leaves l !! m) eqn:E'; [apply lookup_lt_Some in E'; unfold size in Hge; lia|].
      done.
Qed.

(** ** Consistency proofs *)

(** One round of [reconstruct_consistency] at a node, before the trees meet. *)
Lemma reconstruct_rev_node m l r b root_m sibling rest :
  shaped (Node l r) → N.of_nat (size (Node l r)) ≤ 2 ^ 63 → m ≠ size (Node l r) →
  reconstruct_rev sha256 (sibling :: rest) (N.of_nat m) (N.of_nat (size (Node l r))) b root_m =
  if decide (m ≤ size l)%nat then
    h ← reconstruct_rev sha256 rest (N.of_nat m) (N.of_nat (size l)) b root_m;
    Some ('(lo, hi) ← h; Some (lo, node_hash hi sibling))
  else
    h ← reconstruct_rev sha256 rest (N.of_nat (m - size l)) (N.of_nat (size r)) false root_m;
    Some ('(lo, hi) ← h; Some (node_hash sibling lo, node_hash sibling hi)).
Proof.
  intros Hs H63 Hm. pose proof (split_of_node _ _ Hs H63) as Hk.
  rewrite size_node in *. cbn [reconstruct_rev].
  destruct (N.of_nat m =? _) eqn:E; [apply N.eqb_eq in E; lia|].
  rewrite Hk. cbn [mbind option_bind].
  replace (N.of_nat m - N.of_nat (size l)) with (N.of_nat (m - size l)) by lia.
  replace (N.of_nat (size l + size r) - N.of_nat (size l)) with (N.of_nat (size r)) by lia.
  destruct (decide (m ≤ size l)%nat), (N.of_nat m <=? N.of_nat (size l)) eqn:E';
    try done; [apply N.leb_gt in E'|apply N.leb_le in E']; lia.
Qed.

Lemma reconstruct_rev_nil m l r b root_m :
  m ≠ size (Node l r) →
  reconstruct_rev sha256 [] (N.of_nat m) (N.of_nat (size (Node l r))) b root_m = Some None.
Proof.
  intros Hm. cbn [reconstruct_rev]. destruct (N.of_nat m =? _) eqn:E; [|done].
  apply N.eqb_eq in E. lia.
Qed.

(** The inputs of that round. *)
Lemma consistency_inputs_node m l r b root_m sibling rest :
  shaped (Node l r) → N.of_nat (size (Node l r)) ≤ 2 ^ 63 →
  consistency_inputs (sibling :: rest) (N.of_nat m) (N.of_nat (size (Node l r))) b root_m =
  if decide (m ≤ size l)%nat then
    match reconstruct_rev sha256 rest (N.of_nat m) (N.of_nat (size l)) b root_m with
    | Some (Some (_, hi)) => [node_bytes hi sibling]
    | _ => []
    end ++ consistency_inputs rest (N.of_nat m) (N.of_nat (size l)) b root_m
  else
    match reconstruct_rev sha256 rest (N.of_nat (m - size l)) (N.of_nat (size r)) false root_m with
    | Some (Some (lo, hi)) => [node_bytes sibling lo; node_bytes sibling hi]
    | _ => []
    end ++ consistency_inputs rest (N.of_nat (m - size l)) (N.of_nat (size r)) false root_m.
Proof.
  intros Hs H63. pose proof (split_of_node _ _ Hs H63) as Hk.
  rewrite size_node in *. cbn [consistency_inputs]. rewrite Hk.
  replace (N.of_nat m - N.of_nat (size l)) with (N.of_nat (m - size l)) by lia.
  replace (N.of_nat (size l + size r) - N.of_nat (size l)) with (N.of_nat (size r)) by lia.
  destruct (decide (m ≤ size l)%nat), (N.of_nat m <=? N.of_nat (size l)) eqn:E';
    try done; [apply N.leb_gt in E'|apply N.leb_le in E']; lia.
Qed.

(** The root of the first [m] leaves of a node, on either side of the split. *)
Lemma prefix_root_left l r m : (m ≤ size l)%nat →
  merkle_root (take m (leaves (Node l r))) = merkle_root (take m (leaves l)).
Proof. intros H. cbn [leaves]. by rewrite take_app_le. Qed.

Lemma prefix_root_right l r m : shaped (Node l r) → (size l < m ≤ size l + size r)%nat →
  merkle_root (take m (leaves (Node l r))) =
  node_hash (root l) (merkle_root (take (m - size l) (leaves r))).
Proof. intros Hs Hm. unfold merkle_root. by rewrite tree_of_prefix. Qed.

Lemma prefix_root_all t : shaped t → merkle_root (take (size t) (leaves t)) = root t.
Proof. intros H. unfold merkle_root. rewrite take_ge by done. by rewrite tree_of_leaves. Qed.

(** The two trees meet: the pinned root is taken, or the last hash of the proof. *)
Lemma reconstruct_rev_meet t b root_m rproof :
  reconstruct_rev sha256 rproof (N.of_nat (size t)) (N.of_nat (size t)) b root_m =
  Some (if b then Some (root_m, root_m) else h ← head rproof; Some (h, h)).
Proof.
  destruct rproof; cbn [reconstruct_rev]; rewrite N.eqb_refl; by destruct b.
Qed.

Lemma subproof_meet t b : subproof t (size t) b = if b then [] else [root t].
Proof. destruct t; cbn [subproof]; by rewrite decide_True. Qed.

(** The honest proof reconstructs both roots, whatever precedes it. *)
Lemma subproof_complete t : ∀ m b root_m extra,
  shaped t → N.of_nat (size t) ≤ 2 ^ 63 → (1 ≤ m ≤ size t)%nat →
  (b = true → root_m = merkle_root (take m (leaves t))) →
  reconstruct_rev sha256 (reverse (subproof t m b) ++ extra) (N.of_nat m) (N.of_nat (size t))
    b root_m = Some (Some (merkle_root (take m (leaves t)), root t)).
Proof.
  induction t as [|h|l IHl r IHr]; intros m b root_m extra Hs H63 Hm Hb; [done| |].
  - assert (m = size (Leaf h)) as -> by (unfold size in *; simpl in *; lia).
    rewrite reconstruct_rev_meet, subproof_meet. rewrite prefix_root_all in * by done.
    destruct b; [by rewrite Hb|done].
  - destruct (decide (m = size (Node l r))) as [->|Hne].
    { rewrite reconstruct_rev_meet, subproof_meet. rewrite prefix_root_all in * by done.
      destruct b; [by rewrite Hb|done]. }
    assert (H63' : N.of_nat (size l + size r) ≤ 2 ^ 63) by (by rewrite <- size_node).
    pose proof Hs as (Hl & Hr & _). cbn [subproof]. rewrite decide_False by done.
    rewrite size_node in Hm. destruct (decide (m ≤ size l)%nat) as [Hle|Hgt].
    + rewrite prefix_root_left in * by done. rewrite reverse_snoc. cbn [app].
      rewrite reconstruct_rev_node, decide_True by done. rewrite IHl by (auto; lia). done.
    + rewrite prefix_root_right by (done || lia). rewrite reverse_snoc. cbn [app].
      rewrite reconstruct_rev_node, decide_False by done. rewrite IHr by (done || lia). done.
Qed.

(** A proof that reconstructs the larger root reconstructs the root of its first leaves and
    ends in the honest proof; the check has hashed what their tree hashes. *)
Definition prefix_proved (t : tree) (m : nat) (b : bool) (root_m : Hash) (rproof : list Hash)
    (lo : Hash) : Prop :=
  lo = merkle_root (take m (leaves t)) ∧
  (∃ extra, rproof = reverse (subproof t m b) ++ extra) ∧
  tree_inputs (tree_of (take m (leaves t))) ⊆
    tree_inputs t ++ consistency_inputs rproof (N.of_nat m) (N.of_nat (size t)) b root_m.

Lemma reconstruct_rev_meet_sound t b root_m rproof lo : shaped t →
  reconstruct_rev sha256 rproof (N.of_nat (size t)) (N.of_nat (size t)) b root_m =
    Some (Some (lo, root t)) →
  prefix_proved t (size t) b root_m rproof lo.
Proof.
  intros Hs E. rewrite reconstruct_rev_meet in E. unfold prefix_proved.
  rewrite subproof_meet, prefix_root_all by done.
  rewrite (take_ge (leaves t)) by done. rewrite tree_of_leaves by done.
  split_and!; [..|intros x; rewrite elem_of_app; auto].
  - destruct b; [congruence|]. destruct rproof; [done|]. cbn in E. congruence.
  - destruct b; [by exists rproof|]. destruct rproof as [|h rest]; [done|]. cbn in E.
    injection E as <- ->. by exists rest.
Qed.

Lemma reconstruct_rev_sound t : ∀ m b root_m rproof lo,
  shaped t → N.of_nat (size t) ≤ 2 ^ 63 → (1 ≤ m ≤ size t)%nat →
  reconstruct_rev sha256 rproof (N.of_nat m) (N.of_nat (size t)) b root_m =
    Some (Some (lo, root t)) →
  collision_free (tree_inputs t ++
    consistency_inputs rproof (N.of_nat m) (N.of_nat (size t)) b root_m) →
  prefix_proved t m b root_m rproof lo.
Proof.
  induction t as [|h|l IHl r IHr]; intros m b root_m rproof lo Hs H63 Hm E Hc; [done| |].
  - assert (m = size (Leaf h)) as -> by (unfold size in *; simpl in *; lia).
    by apply reconstruct_rev_meet_sound.
  - destruct (decide (m = size (Node l r))) as [->|Hne]; [by apply reconstruct_rev_meet_sound|].
    assert (H63' : N.of_nat (size l + size r) ≤ 2 ^ 63) by (by rewrite <- size_node).
    pose proof Hs as (Hl & Hr & _). unfold prefix_proved. cbn [subproof].
    rewrite (decide_False (P := m = size (Node l r))) by done.
    destruct rproof as [|sibling rest]; [by rewrite reconstruct_rev_nil in E|].
    rewrite consistency_inputs_node in * by done. rewrite reconstruct_rev_node in E by done.
    rewrite size_node in Hm. cbn [tree_inputs root] in *.
    destruct (decide (m ≤ size l)%nat) as [Hle|Hgt];
      (destruct (reconstruct_rev _ rest _ _ _ _) as [[[lo' hi]|]|] eqn:Eh; cbn in E; [|done..]);
      injection E as <- E;
      (eapply node_hash_inj in E as [E1 E2]; [|exact Hc|..];
        [|rewrite ?elem_of_app, ?elem_of_cons, ?elem_of_app; tauto..]); subst.
    + rewrite prefix_root_left by done.
      destruct (IHl m b root_m rest lo') as (-> & [extra ->] & Hin); auto; [lia|lia|sub_inputs|].
      split_and!; [done|exists extra; by rewrite reverse_snoc|]. cbn [leaves].
      rewrite take_app_le by done. intros x Hx. apply Hin in Hx. revert Hx.
      rewrite ?elem_of_app, ?elem_of_cons, ?elem_of_app. tauto.
    + rewrite prefix_root_right, tree_of_prefix by (done || lia).
      destruct (IHr (m - size l)%nat false root_m rest lo') as (Elo & [extra ->] & Hin);
        auto; [lia|lia|sub_inputs|].
      split_and!; [by rewrite Elo|exists extra; by rewrite reverse_snoc|]. cbn [tree_inputs].
      intros x. rewrite Elo, elem_of_cons, elem_of_app. intros [->|[Hx|Hx%Hin]];
        [|by rewrite ?elem_of_app, ?elem_of_cons, ?elem_of_app; auto|revert Hx];
        rewrite ?elem_of_app, ?elem_of_cons, ?elem_of_app; unfold merkle_root; tauto.
Qed.

(** ** The verifiers *)

Lemma length_ne_nil {A} (l : list A) n : (n < length l)%nat → l ≠ [].
Proof. intros H ->. simpl in H. lia. Qed.

Lemma verify_inclusion_complete leaf m ls :
  N.of_nat (length ls) ≤ 2 ^ 63 → ls !! m = Some leaf →
  verify_inclusion sha256 leaf (N.of_nat m) (N.of_nat (length ls)) (inclusion_proof ls m)
    (merkle_root ls) = Some true.
Proof.
  intros H63 Hl. pose proof (lookup_lt_Some _ _ _ Hl).
  unfold verify_inclusion, root_from_inclusion, inclusion_proof.
  destruct (N.of_nat (length ls) <=? N.of_nat m) eqn:E; [apply N.leb_le in E; lia|clear E].
  assert (Hs : shaped (tree_of ls)) by (apply tree_of_shaped, (length_ne_nil _ m); lia).
  rewrite <- (size_tree_of ls) in *.
  rewrite audit_path_complete by (auto; by rewrite leaves_tree_of).
  cbn. f_equal. by apply bool_decide_eq_true.
Qed.

Lemma verify_inclusion_iff leaf m ls proof :
  N.of_nat (length ls) ≤ 2 ^ 63 →
  collision_free (tree_inputs (tree_of ls) ++
    path_inputs leaf (N.of_nat m) (N.of_nat (length ls)) (reverse proof)) →
  verify_inclusion sha256 leaf (N.of_nat m) (N.of_nat (length ls)) proof (merkle_root ls) =
    Some true ↔ ls !! m = Some leaf ∧ proof = inclusion_proof ls m.
Proof.
  intros H63 Hc. split; [|intros [Hl ->]; by apply verify_inclusion_complete].
  unfold verify_inclusion, root_from_inclusion, inclusion_proof.
  destruct (N.of_nat (length ls) <=? N.of_nat m) eqn:E; [done|].
  apply N.leb_gt in E. assert (Hs : shaped (tree_of ls)).
  { apply tree_of_shaped, (length_ne_nil _ m). lia. }
  rewrite <- (size_tree_of ls) in *. destruct (root_from_rev _ _ _ _ _) as [[h|]|] eqn:Er; cbn; try done.
  intros [= Hb]. apply bool_decide_eq_true in Hb as ->.
  apply root_from_rev_sound in Er as [Hl Hp]; auto; [|lia]. rewrite leaves_tree_of in Hl.
  split; [done|]. by apply (inj reverse) in Hp.
Qed.

Lemma verify_consistency_complete m ls extra :
  N.of_nat (length ls) ≤ 2 ^ 63 → (m < length ls)%nat →
  verify_consistency sha256 (N.of_nat m) (N.of_nat (length ls)) (extra ++ consistency_proof ls m)
    (merkle_root (take m ls)) (merkle_root ls) = Some true.
Proof.
  intros H63 Hm. unfold verify_consistency, reconstruct_consistency, consistency_proof.
  assert (Hs : shaped (tree_of ls)) by (apply tree_of_shaped, (length_ne_nil _ m); lia).
  destruct (_ <? _) eqn:E; [apply N.ltb_lt in E; lia|clear E].
  destruct (_ =? N.of_nat (length ls)) eqn:E; [apply N.eqb_eq in E; lia|clear E].
  destruct (N.of_nat m =? 0) eqn:E; [done|apply N.eqb_neq in E].
  rewrite <- (size_tree_of ls) in *. rewrite reverse_app, subproof_complete; auto; [|lia|].
  - cbn. rewrite leaves_tree_of. by rewrite !bool_decide_true.
  - intros _. by rewrite leaves_tree_of.
Qed.

Lemma verify_consistency_iff m ls proof root_m :
  N.of_nat (length ls) ≤ 2 ^ 63 → (1 ≤ m < length ls)%nat →
  collision_free (tree_inputs (tree_of ls) ++
    consistency_inputs (reverse proof) (N.of_nat m) (N.of_nat (length ls)) true root_m) →
  verify_consistency sha256 (N.of_nat m) (N.of_nat (length ls)) proof root_m (merkle_root ls) =
    Some true ↔
  root_m = merkle_root (take m ls) ∧ consistency_proof ls m `suffix_of` proof.
Proof.
  intros H63 Hm Hc. split; [|intros [-> [extra ->]]; apply verify_consistency_complete; lia].
  unfold verify_consistency, reconstruct_consistency, consistency_proof.
  assert (Hs : shaped (tree_of ls)) by (apply tree_of_shaped, (length_ne_nil _ m); lia).
  destruct (_ <? _) eqn:E; [apply N.ltb_lt in E; lia|clear E].
  destruct (_ =? N.of_nat (length ls)) eqn:E; [apply N.eqb_eq in E; lia|clear E].
  destruct (N.of_nat m =? 0) eqn:E; [apply N.eqb_eq in E; lia|clear E].
  rewrite <- (size_tree_of ls) in *.
  destruct (reconstruct_rev _ _ _ _ _ _) as [[[lo hi]|]|] eqn:Er; cbn; try done.
  intros [= Hb]. apply andb_true_iff in Hb as [Hlo Hhi].
  apply bool_decide_eq_true in Hlo as ->, Hhi as ->.
  apply reconstruct_rev_sound in Er as (Hr & [extra Hp] & _); auto; [|lia].
  rewrite leaves_tree_of in Hr. split; [done|]. exists (reverse extra).
  by rewrite <- (reverse_involutive proof), Hp, reverse_app, reverse_involutive.
Qed.


(** ** Termination *)

Lemma largest_pow2_below_N n : 2 ≤ n → n ≤ 2 ^ 63 →
  ∃ k, largest_pow2_below n = Some k ∧ 1 ≤ k < n ∧ n ≤ 2 * k.
Proof.
  intros H2 H63. pose proof (split_at_bounds (N.to_nat n) ltac:(lia)).
  exists (N.of_nat (split_at (N.to_nat n))). split; [|lia].
  rewrite <- largest_pow2_below_split by lia. by rewrite N2Nat.id.
Qed.

Lemma largest_pow2_below_hangs n : 2 ^ 63 < n → largest_pow2_below n = None.
Proof. intros H. by apply (pow2_loop_hangs 64 n 0). Qed.

Lemma root_from_rev_returns leaf rproof : ∀ m n,
  n ≤ 2 ^ 63 → is_Some (root_from_rev sha256 leaf m n rproof).
Proof.
  induction rproof as [|sibling rest IH]; intros m n H63; cbn [root_from_rev];
    destruct (n <=? 1) eqn:E; try by eexists.
  apply N.leb_gt in E. destruct (largest_pow2_below_N n) as (k & Hk & ? & ?); [lia|done|].
  rewrite Hk. cbn. destruct (m <? k).
  - destruct (IH m k) as [? ->]; [lia|]. by eexists.
  - destruct (IH (m - k) (n - k)) as [? ->]; [lia|]. by eexists.
Qed.

Lemma verify_inclusion_returns leaf m n proof root_n :
  n ≤ 2 ^ 63 → is_Some (verify_inclusion sha256 leaf m n proof root_n).
Proof.
  intros H63. unfold verify_inclusion, root_from_inclusion. destruct (n <=? m); [by eexists|].
  destruct (root_from_rev_returns leaf (reverse proof) m n H63) as [? ->]. by eexists.
Qed.

Lemma reconstruct_rev_returns rproof : ∀ m n b root_m,
  1 ≤ m ≤ n → n ≤ 2 ^ 63 → is_Some (reconstruct_rev sha256 rproof m n b root_m).
Proof.
  induction rproof as [|sibling rest IH]; intros m n b root_m Hm H63; cbn [reconstruct_rev];
    destruct (m =? n) eqn:E; try by eexists.
  apply N.eqb_neq in E. destruct (largest_pow2_below_N n) as (k & Hk & ? & ?); [lia|done|].
  rewrite Hk. cbn. destruct (m <=? k) eqn:E'.
  - apply N.leb_le in E'. destruct (IH m k b root_m) as [? ->]; [lia|lia|]. by eexists.
  - apply N.leb_gt in E'. destruct (IH (m - k) (n - k) false root_m) as [? ->]; [lia|lia|].
    by eexists.
Qed.

Lemma verify_consistency_returns m n proof root_m root_n :
  n ≤ 2 ^ 63 → is_Some (verify_consistency sha256 m n proof root_m root_n).
Proof.
  intros H63. unfold verify_consistency, reconstruct_consistency.
  destruct (n <? m) eqn:E1; [by eexists|]. apply N.ltb_ge in E1.
  destruct (m =? n); [by eexists|]. destruct (m =? 0) eqn:E0; [by eexists|].
  apply N.eqb_neq in E0.
  destruct (reconstruct_rev_returns (reverse proof) m n true root_m) as [? ->]; [lia|done|].
  by eexists.
Qed.

(** Past [2^63] leaves every proof with a hash in it hangs the verifiers. *)
Lemma verify_inclusion_hangs leaf m n proof root_n :
  2 ^ 63 < n → m < n → proof ≠ [] → verify_inclusion sha256 leaf m n proof root_n = None.
Proof.
  intros Hn Hm Hp. unfold verify_inclusion, root_from_inclusion.
  destruct (n <=? m) eqn:E; [apply N.leb_le in E; lia|].
  destruct (reverse proof) as [|s rest] eqn:Er.
  { apply (f_equal reverse) in Er. by rewrite reverse_involutive in Er. }
  cbn [root_from_rev]. destruct (n <=? 1) eqn:E1; [apply N.leb_le in E1; lia|].
  by rewrite largest_pow2_below_hangs.
Qed.

Lemma verify_consistency_hangs m n proof root_m root_n :
  2 ^ 63 < n → 1 ≤ m < n → proof ≠ [] → verify_consistency sha256 m n proof root_m root_n = None.
Proof.
  intros Hn Hm Hp. unfold verify_consistency, reconstruct_consistency.
  destruct (n <? m) eqn:E1; [apply N.ltb_lt in E1; lia|].
  destruct (m =? n) eqn:E2; [apply N.eqb_eq in E2; lia|].
  destruct (m =? 0) eqn:E3; [apply N.eqb_eq in E3; lia|].
  destruct (reverse proof) as [|s rest] eqn:Er.
  { apply (f_equal reverse) in Er. by rewrite reverse_involutive in Er. }
  cbn [reconstruct_rev]. rewrite E2. by rewrite largest_pow2_below_hangs.
Qed.

(** What they accept is within the bound. *)
Lemma verify_inclusion_small leaf m n proof root_n :
  verify_inclusion sha256 leaf m n proof root_n = Some true → n ≤ 2 ^ 63 ∧ m < n.
Proof.
  intros E. assert (Hm : m < n).
  { unfold verify_inclusion in E. destruct (n <=? m) eqn:Em; [done|by apply N.leb_gt in Em]. }
  split; [|done]. destruct (decide (n ≤ 2 ^ 63)) as [|Hn]; [done|exfalso].
  destruct (decide (proof = [])) as [->|Hp].
  - unfold verify_inclusion in E. destruct (n <=? m); [done|]. cbn in E.
    destruct (n <=? 1) eqn:E1; [apply N.leb_le in E1; lia|done].
  - by rewrite verify_inclusion_hangs in E by (done || lia).
Qed.

Lemma verify_consistency_small m n proof root_m root_n :
  1 ≤ m < n → verify_consistency sha256 m n proof root_m root_n = Some true → n ≤ 2 ^ 63.
Proof.
  intros Hm E. destruct (decide (n ≤ 2 ^ 63)) as [|Hn]; [done|exfalso].
  destruct (decide (proof = [])) as [->|Hp].
  - unfold verify_consistency in E. cbn in E. destruct (n <? m); [done|].
    destruct (m =? n) eqn:E2; [apply N.eqb_eq in E2; lia|].
    by destruct (m =? 0) eqn:E3; [apply N.eqb_eq in E3; lia|].
  - by rewrite verify_consistency_hangs in E by (done || lia).
Qed.

(** A proof accepted between committed logs makes one a prefix of the other. *)
Lemma verify_consistency_prefix old new proof :
  collision_free (tree_inputs (tree_of old) ++ tree_inputs (tree_of new) ++
    consistency_inputs (reverse proof) (N.of_nat (length old)) (N.of_nat (length new)) true
      (merkle_root old)) →
  verify_consistency sha256 (N.of_nat (length old)) (N.of_nat (length new)) proof
    (merkle_root old) (merkle_root new) = Some true →
  old `prefix_of` new.
Proof.
  intros Hc E. pose proof E as E'. unfold verify_consistency in E'.
  destruct (_ <? _) eqn:Elt; [done|apply N.ltb_ge in Elt].
  destruct (_ =? N.of_nat (length new)) eqn:Eeq.
  { apply N.eqb_eq in Eeq. injection E' as E'. apply andb_true_iff in E' as [_ E'].
    apply bool_decide_eq_true in E'. destruct old as [|h old]; [apply prefix_nil|].
    apply merkle_root_inj in E' as ->; [done|done|lia|]. sub_inputs. }
  apply N.eqb_neq in Eeq. destruct (decide (old = [])) as [->|Hne]; [apply prefix_nil|].
  assert (1 ≤ length old)%nat by (destruct old; [done|simpl; lia]). set (m := length old) in *.
  assert (Hs : shaped (tree_of new)) by (apply tree_of_shaped, (length_ne_nil _ m); lia).
  destruct (N.of_nat m =? 0) eqn:E0; [apply N.eqb_eq in E0; lia|clear E0].
  assert (N.of_nat (length new) ≤ 2 ^ 63) by (eapply verify_consistency_small; [|exact E]; lia).
  unfold reconstruct_consistency in E'. rewrite <- (size_tree_of new) in *.
  destruct (reconstruct_rev _ _ _ _ _ _) as [[[lo hi]|]|] eqn:Er; cbn in E'; try done.
  injection E' as Hb. apply andb_true_iff in Hb as [Hlo Hhi].
  apply bool_decide_eq_true in Hlo as ->, Hhi as ->.
  apply reconstruct_rev_sound in Er as (Hr & _ & Hin); auto; [|lia|sub_inputs].
  rewrite leaves_tree_of in *. apply merkle_root_inj in Hr as Hr'; [|done|..].
  - rewrite Hr'. apply prefix_take.
  - rewrite length_take. rewrite size_tree_of in *. lia.
  - eapply collision_free_sub; [|exact Hc]. intros x. rewrite !elem_of_app.
    intros [Hx|Hx%Hin]; [auto|]. rewrite elem_of_app in Hx. tauto.
Qed.
End Merkle.

