(* ===== verification/RegistryLog.v ===== *)
(** What the package manager checks against the registry's transparency log and advisory
    feed: the checkpoint signature of [crates/noeta-pm/src/transparency.rs], the checks of
    [registry.rs], [graph.rs] and [advisory.rs], and the monitor of
    [crates/noeta-cli/src/cmd/pm.rs].

    Ed25519 and the registry are parameters: a key is parsed and verifies as
    [ed25519-dalek] does, and what the registry serves is an [HttpIndex] of answers, one
    per endpoint (a request is made at most once for its arguments in a run). *)
From Stdlib Require Import Strings.Byte Strings.Ascii Strings.String.
From S2P Require Import Prelude Transparency.
From stdpp Require Import vector pretty strings gmap options.
Open Scope string_scope.
Open Scope N_scope.

(** ** Wire types *)

(** [LogCheckpoint], [LogInclusion], [LogConsistency]. *)
Record LogCheckpoint := { cp_tree_size : N; cp_root_hash : string; cp_signature : string }.
Record LogInclusion := { incl_index : N; incl_tree_size : N; incl_root_hash : string;
  incl_record : string; incl_proof : list string }.
Record LogConsistency := { cons_proof : list string }.

(** [AdvisoryTier] and its spelling. *)
Inductive AdvisoryTier := Operator | Publisher | Imported.
Definition tier_as_str (t : AdvisoryTier) : string :=
  match t with Operator => "operator" | Publisher => "publisher" | Imported => "imported" end.

(** [Advisory]. *)
Record Advisory := { adv_id : string; adv_package : string; adv_ranges : string;
  adv_patched : option string; adv_severity : string; adv_summary : string;
  adv_details : string; adv_url : string; adv_withdrawn : bool; adv_seq : N;
  adv_signature : string; adv_log_index : option N; adv_tier : AdvisoryTier;
  adv_bundle : option string; adv_upstream_id : option string;
  adv_upstream_url : option string; adv_cvss : option string }.

(** [AdvisoryCheckpoint]. *)
Record AdvisoryCheckpoint := { acp_count : N; acp_digest : string; acp_signature : string }.

(** [HttpIndex], as the answers it gives. *)
Record HttpIndex := {
  log_public_key : result (option string);
  log_checkpoint : result LogCheckpoint;
  log_inclusion : string → string → result (option LogInclusion);
  log_consistency : N → N → result LogConsistency;
  advisory_public_key : result (option string);
  list_advisories : result (list Advisory);
  advisory_checkpoint : result AdvisoryCheckpoint;
  advisory_inclusion : string → result (option LogInclusion)
}.

(** [LogTrust], the head pinned in the lock. *)
Record LogTrust := { lt_public_key : string; lt_tree_size : N; lt_root_hash : string }.

(** [VerifiedLog], [ReleaseCoords], [VerifiedAdvisories]. *)
Record VerifiedLog := { vl_tree_size : N; vl_root_hex : string; vl_public_key : string }.
Record ReleaseCoords := { rc_name : string; rc_version : string; rc_url : string;
  rc_tag : string; rc_sha : string; rc_license : option string }.
Record VerifiedAdvisories := { va_public_key : string; va_count : N; va_digest : string;
  va_advisories : list Advisory }.

(** [GitRef], [ResolvedSource], [LockedPackage] and the part of [ResolvedGraph] the
    checks read. *)
Inductive GitRef := Tag (t : string) | Branch (b : string) | Head.
Inductive ResolvedSource :=
  | Path (path : string)
  | Git (url : string) (git_ref : GitRef) (sha : string).
Record LockedPackage (Version : Type) := { lp_identity : string; lp_version : Version;
  lp_content_hash : string; lp_source : ResolvedSource; lp_native : option string;
  lp_patched : bool }.
Arguments lp_identity {_} _. Arguments lp_version {_} _. Arguments lp_content_hash {_} _.
Arguments lp_source {_} _. Arguments lp_native {_} _. Arguments lp_patched {_} _.
Record ResolvedGraph (Version : Type) := { rg_locked : list (LockedPackage Version);
  rg_registry_identities : gset string }.
Arguments rg_locked {_} _. Arguments rg_registry_identities {_} _.

(** [ExitCode]. *)
Inductive ExitCode := SUCCESS | Code (n : N).
#[export] Instance exit_code_dec : EqDecision ExitCode.
Proof. solve_decision. Defined.

(** ** Helpers *)

(** The answer of a call, and the value of one that may not return. *)
Definition answer {A} (r : result A) : Run A := Some r.
Definition returns {A} (o : option A) : Run A := a ← o; Some (inl a).


(** [.iter().map(hex_to_array::<32>).collect::<Option<Vec<_>>>()]. *)
Definition parse_hashes (hs : list string) : option (list Hash) := mapM (hex_to_array 32) hs.

(** [hex_encode]: two lower-case digits a byte. *)
Definition hex_char (n : N) : ascii := ascii_of_N (if n <? 10 then n + 48 else n + 87).
Fixpoint hex_encode (bytes : list byte) : string :=
  match bytes with
  | [] => EmptyString
  | b :: bytes =>
      String (hex_char (Byte.to_N b / 16)) (String (hex_char (Byte.to_N b mod 16)) (hex_encode bytes))
  end.

(** [advisories.sort_by(|a, b| a.id.cmp(&b.id))]: stable, by the bytes of the id. *)
Fixpoint insert_by_id (a : Advisory) (l : list Advisory) : list Advisory :=
  match l with
  | [] => [a]
  | b :: l' => if String.leb (adv_id a) (adv_id b) then a :: l else b :: insert_by_id a l'
  end.
Definition sort_by_id (l : list Advisory) : list Advisory := foldr insert_by_id [] l.

Section Registry.
(** SHA-256; Ed25519 keys, parsed from their bytes (or an error's text), and
    [verify_strict]; [semver] versions and their text. *)
Context (sha256 : list byte → Hash).
Context {VerifyingKey : Type} (from_bytes : vec byte 32 → VerifyingKey + string)
  (verify_strict : VerifyingKey → list byte → vec byte 64 → bool).
Context {Version : Type} (version_to_string : Version → string).

(** [map_err(..)?] of [VerifyingKey::from_bytes]. *)
Definition parse_key (what : string) (pk : vec byte 32) : Run VerifyingKey :=
  match from_bytes pk with
  | inl key => Ok key
  | inr err => Err (Trust (what +:+ ": " +:+ err))
  end.

(** The message of [verify_checkpoint]. *)
Definition checkpoint_message (size : N) (root_hex : string) : string :=
  "noeta-log-checkpoint-v1" +:+ newline +:+ pretty size +:+ newline +:+ root_hex +:+ newline.

(** [verify_checkpoint]. *)
Definition verify_checkpoint (public_hex : string) (size : N) (root_hex signature_hex : string) :
    Run bool :=
  pk ←? ok_or (hex_to_array 32 public_hex) (Trust "log public key is not 32 hex bytes");
  key ←? parse_key "bad log public key" pk;
  sig ←? ok_or (hex_to_array 64 signature_hex) (Trust "checkpoint signature is not 64 hex bytes");
  Ok (verify_strict key (bytes_of (checkpoint_message size root_hex)) sig).

(** [verify_inclusion_at]. *)
Definition coords_match (coords : ReleaseCoords) (fields : list string) : bool :=
  bool_decide (6 ≤ length fields)%nat &&
  bool_decide (fields !! 0%nat = Some "noeta-transparency-log-v1") &&
  bool_decide (fields !! 1%nat = Some (rc_name coords)) &&
  bool_decide (fields !! 2%nat = Some (rc_version coords)) &&
  bool_decide (fields !! 3%nat = Some (rc_url coords)) &&
  bool_decide (fields !! 4%nat = Some (rc_tag coords)) &&
  bool_decide (fields !! 5%nat = Some (rc_sha coords)).

Definition license_conflict (coords : ReleaseCoords) (fields : list string) : option string :=
  match rc_license coords, fields !! 7%nat with
  | Some expected, Some bound =>
      if bool_decide (9 ≤ length fields)%nat && negb (bool_decide (bound = expected))
      then Some ("binds license `" +:+ bound +:+ "` but the index serves `" +:+ expected +:+ "`")
      else None
  | _, _ => None
  end.

Definition quoted_release (coords : ReleaseCoords) : string :=
  "`" +:+ rc_name coords +:+ "`@" +:+ rc_version coords.

Definition verify_inclusion_at (self : HttpIndex) (coords : ReleaseCoords) (cp : LogCheckpoint) :
    Run unit :=
  served ←? answer (log_inclusion self (rc_name coords) (rc_version coords));
  incl ←? ok_or served (Trust (quoted_release coords +:+ " is not in the transparency log"));
  if negb (bool_decide (incl_root_hash incl = cp_root_hash cp)) ||
     negb (incl_tree_size incl =? cp_tree_size cp) then
    Err (Trust ("the transparency inclusion proof for " +:+ quoted_release coords +:+
      " is not against the signed checkpoint (a concurrent publish can cause this — retry)"))
  else
  let fields := split_lines (incl_record incl) in
  if negb (coords_match coords fields) then
    Err (Trust ("the transparency-log record for " +:+ quoted_release coords +:+
      " does not match the resolved release (coordinates differ)"))
  else
  match license_conflict coords fields with
  | Some conflict =>
      Err (Trust ("the transparency-log record for " +:+ quoted_release coords +:+ " " +:+
        conflict +:+ " — the registry may be equivocating"))
  | None =>
      root ←? ok_or (hex_to_array 32 (cp_root_hash cp)) (Trust "malformed checkpoint root hash");
      proof ←? ok_or (parse_hashes (incl_proof incl)) (Trust "malformed inclusion-proof hash");
      let leaf := leaf_hash sha256 (bytes_of (incl_record incl)) in
      verified ←? returns (verify_inclusion sha256 leaf (incl_index incl) (incl_tree_size incl) proof root);
      if verified then Ok tt
      else Err (Trust ("the transparency inclusion proof for " +:+ quoted_release coords +:+
        " does not verify"))
  end.

(** The key to check with: the pinned one, or the served one on first use. *)
Definition log_key (self : HttpIndex) (pinned_key : option string) : Run string :=
  match pinned_key with
  | Some k => Ok k
  | None =>
      served ←? answer (log_public_key self);
      ok_or served (Trust "the registry serves no transparency-log public key")
  end.

(** [verify_release_logged]. *)
Definition verify_release_logged (self : HttpIndex) (coords : ReleaseCoords)
    (pinned_key : option string) : Run VerifiedLog :=
  key ←? log_key self pinned_key;
  cp ←? answer (log_checkpoint self);
  signed ←? verify_checkpoint key (cp_tree_size cp) (cp_root_hash cp) (cp_signature cp);
  if negb signed then
    Err (Trust "the transparency-log checkpoint signature does not verify against the log key — the registry may be equivocating, or the log key changed")
  else
  _ ←? verify_inclusion_at self coords cp;
  Ok {| vl_tree_size := cp_tree_size cp; vl_root_hex := cp_root_hash cp; vl_public_key := key |}.

(** [enforce_transparency]: the checkpoint extends the pinned one. *)
Definition check_append_only (index : HttpIndex) (p : LogTrust) (cp : LogCheckpoint) : Run unit :=
  if cp_tree_size cp <? lt_tree_size p then
    Err (Trust "the transparency log shrank since it was pinned — the registry rewrote history")
  else
  cons ←? answer (log_consistency index (lt_tree_size p) (cp_tree_size cp));
  root_from ←? ok_or (hex_to_array 32 (lt_root_hash p)) (Trust "malformed pinned root hash");
  root_to ←? ok_or (hex_to_array 32 (cp_root_hash cp)) (Trust "malformed checkpoint root");
  proof ←? ok_or (parse_hashes (cons_proof cons)) (Trust "malformed consistency proof");
  verified ←? returns (verify_consistency sha256 (lt_tree_size p) (cp_tree_size cp) proof
    root_from root_to);
  if verified then Ok tt
  else Err (Trust "the transparency log is not an append-only extension of the pinned checkpoint — history was rewritten or the registry is equivocating").

(** Its loop over the locked packages. *)
Fixpoint check_releases (index : HttpIndex) (identities : gset string) (cp : LogCheckpoint)
    (locked : list (LockedPackage Version)) : Run unit :=
  match locked with
  | [] => Ok tt
  | pkg :: locked =>
      if negb (bool_decide (lp_identity pkg ∈ identities)) then
        check_releases index identities cp locked
      else
      match lp_source pkg with
      | Git url (Tag tag) sha =>
          _ ←? verify_inclusion_at index
            {| rc_name := lp_identity pkg; rc_version := version_to_string (lp_version pkg);
               rc_url := url; rc_tag := tag; rc_sha := sha; rc_license := None |} cp;
          check_releases index identities cp locked
      | _ => check_releases index identities cp locked
      end
  end.

Definition enforce_transparency (open_http : result (option HttpIndex))
    (graph : ResolvedGraph Version) (pinned : option LogTrust) : Run LogTrust :=
  opened ←? answer open_http;
  index ←? ok_or opened (Trust "`[trust].require_transparency` needs a hosted registry, but `NOETA_REGISTRY_DIR` routes to the file-backed local index (which serves no transparency log) — unset it or set `NOETA_REGISTRY_URL`");
  key ←? log_key index (lt_public_key <$> pinned);
  cp ←? answer (log_checkpoint index);
  signed ←? verify_checkpoint key (cp_tree_size cp) (cp_root_hash cp) (cp_signature cp);
  if negb signed then
    Err (Trust "the transparency-log checkpoint does not verify against the pinned log key — the registry changed keys or is equivocating (reconcile, then `noeta update` to re-pin)")
  else
  _ ←? match pinned with
       | Some p => check_append_only index p cp
       | None => Ok tt
       end;
  _ ←? check_releases index (rg_registry_identities graph) cp (rg_locked graph);
  Ok {| lt_public_key := key; lt_tree_size := cp_tree_size cp; lt_root_hash := cp_root_hash cp |}.

(** ** The advisory feed *)

(** [canonical_bytes]. *)
Definition canonical_record (a : Advisory) : string :=
  "noeta-advisory-v1" +:+ newline +:+ adv_id a +:+ newline +:+ adv_package a +:+ newline +:+
  adv_ranges a +:+ newline +:+ adv_severity a +:+ newline +:+
  (if adv_withdrawn a then "withdrawn" else "active") +:+ newline +:+
  adv_summary a +:+ newline +:+
  hex_encode (vec_to_list (sha256 (bytes_of (adv_details a)))) +:+ newline +:+
  adv_url a +:+ newline +:+ tier_as_str (adv_tier a) +:+ newline.
Definition canonical_bytes (a : Advisory) : list byte := bytes_of (canonical_record a).

(** [verify_ed25519]. *)
Definition verify_ed25519 (public_hex : string) (message : list byte) (signature_hex : string) :
    Run bool :=
  pk ←? ok_or (hex_to_array 32 public_hex) (Trust "advisory public key is not 32 hex bytes");
  key ←? parse_key "bad advisory public key" pk;
  sig ←? ok_or (hex_to_array 64 signature_hex) (Trust "advisory signature is not 64 hex bytes");
  Ok (verify_strict key message sig).

(** [Advisory::verify], [feed_head_bytes], [feed_digest], [verify_feed_head]. *)
Definition advisory_verify (a : Advisory) (public_hex : string) : Run bool :=
  verify_ed25519 public_hex (canonical_bytes a) (adv_signature a).
Definition feed_head_bytes (count : N) (digest_hex : string) : list byte :=
  bytes_of ("noeta-advisory-feed-v1" +:+ newline +:+ pretty count +:+ newline +:+
    digest_hex +:+ newline).
Definition feed_digest (advisories : list Advisory) : string :=
  hex_encode (vec_to_list (sha256 (mjoin (canonical_bytes <$> sort_by_id advisories)))).
Definition verify_feed_head (public_hex : string) (count : N) (digest_hex signature_hex : string) :
    Run bool :=
  verify_ed25519 public_hex (feed_head_bytes count digest_hex) signature_hex.

(** [fetch_advisories]: the loop over the signatures, then the head. *)
Fixpoint verify_all (key : string) (advisories : list Advisory) : Run unit :=
  match advisories with
  | [] => Ok tt
  | a :: advisories =>
      signed ←? advisory_verify a key;
      if negb signed then
        Err (Trust ("advisory `" +:+ adv_id a +:+ "` does not verify against the advisory-feed key — the feed may be tampered, or the key changed"))
      else verify_all key advisories
  end.

Definition fetch_advisories (self : HttpIndex) (pinned_key : option string) :
    Run VerifiedAdvisories :=
  key ←? match pinned_key with
         | Some k => Ok k
         | None =>
             served ←? answer (advisory_public_key self);
             ok_or served (Trust "the registry serves no advisory-feed public key")
         end;
  advisories ←? answer (list_advisories self);
  _ ←? verify_all key advisories;
  cp ←? answer (advisory_checkpoint self);
  signed ←? verify_feed_head key (acp_count cp) (acp_digest cp) (acp_signature cp);
  if negb signed then
    Err (Trust "the advisory-feed head signature does not verify against the feed key")
  else if negb (acp_count cp =? N.of_nat (length advisories)) ||
          negb (bool_decide (acp_digest cp = feed_digest advisories)) then
    Err (Trust "the advisory-feed head does not match the served advisories — the registry may be withholding an advisory")
  else Ok {| va_public_key := key; va_count := acp_count cp; va_digest := acp_digest cp;
             va_advisories := advisories |}.

(** [verify_advisories_logged]: one advisory, then the loop.  [from_utf8] of the
    canonical bytes of strings succeeds. *)
Definition advisory_logged (self : HttpIndex) (cp : LogCheckpoint) (a : Advisory) : Run bool :=
  match adv_log_index a with
  | None => Ok false
  | Some _ =>
      served ←? answer (advisory_inclusion self (adv_id a));
      match served with
      | None => Ok false
      | Some incl =>
          if negb (bool_decide (incl_root_hash incl = cp_root_hash cp)) ||
             negb (incl_tree_size incl =? cp_tree_size cp) ||
             negb (bool_decide (incl_record incl = canonical_record a)) then
            Err (Trust ("advisory `" +:+ adv_id a +:+ "` in the feed does not match its transparency-log leaf"))
          else
          root ←? ok_or (hex_to_array 32 (cp_root_hash cp)) (Trust "malformed checkpoint root hash");
          proof ←? ok_or (parse_hashes (incl_proof incl))
                     (Trust "malformed advisory inclusion-proof hash");
          let leaf := leaf_hash sha256 (canonical_bytes a) in
          verified ←? returns (verify_inclusion sha256 leaf (incl_index incl) (incl_tree_size incl)
                                 proof root);
          if verified then Ok true
          else Err (Trust ("the transparency inclusion proof for advisory `" +:+ adv_id a +:+ "` does not verify"))
      end
  end.

Fixpoint advisories_logged (self : HttpIndex) (cp : LogCheckpoint) (advisories : list Advisory)
    (verified : N) (unlogged : list string) : Run (N * list string) :=
  match advisories with
  | [] => Ok (verified, unlogged)
  | a :: advisories =>
      logged ←? advisory_logged self cp a;
      if logged : bool then advisories_logged self cp advisories (verified + 1) unlogged
      else advisories_logged self cp advisories verified (unlogged ++ [adv_id a])
  end.

Definition verify_advisories_logged (self : HttpIndex) (advisories : list Advisory)
    (pinned_log_key : option string) : Run (option (N * list string)) :=
  key ←? match pinned_log_key with
         | Some k => Ok (Some k)
         | None => answer (log_public_key self)
         end;
  match key with
  | None => Ok None
  | Some key =>
      cp ←? answer (log_checkpoint self);
      signed ←? verify_checkpoint key (cp_tree_size cp) (cp_root_hash cp) (cp_signature cp);
      if negb signed then
        Err (Trust "the transparency-log checkpoint signature does not verify against the log key")
      else
      counted ←? advisories_logged self cp advisories 0 [];
      Ok (Some counted)
  end.

(** ** The monitor *)

(** [WatchState]. *)
Record WatchState := { ws_base : string; ws_advisory_key : option string;
  ws_log_key : option string; ws_log_tree_size : option N; ws_log_root : option string;
  ws_feed_count : option N; ws_seen : list string }.

(** [verify_log_extension]. *)
Definition verify_log_extension (index : HttpIndex) (from_size to_size : N)
    (from_root to_root : string) : Run bool :=
  cons ←? answer (log_consistency index from_size to_size);
  match hex_to_array 32 from_root, hex_to_array 32 to_root with
  | Some root_from, Some root_to =>
      proof ←? ok_or (parse_hashes (cons_proof cons)) (Trust "malformed consistency-proof hash");
      returns (verify_consistency sha256 from_size to_size proof root_from root_to)
  | _, _ => Err (Trust "malformed pinned/served root hash")
  end.

(** The log pins: key, size, root. *)
Definition LogPins : Type := option string * option N * option string.

(** Step 3 of [watch_one_scope]: the problems the log shows, and the pins to keep. *)
Definition watch_checkpoint (index : HttpIndex) (key : string) (prior : LogPins)
    (cp : LogCheckpoint) : option (N * LogPins) :=
  let '(_, prev_size, prev_root) := prior in
  signed ← verify_checkpoint key (cp_tree_size cp) (cp_root_hash cp) (cp_signature cp);
  match signed with
  | inl true =>
      drift ← match prev_size, prev_root with
              | Some prev_size, Some prev_root =>
                  if cp_tree_size cp <? prev_size then Some 1
                  else if prev_size <? cp_tree_size cp then
                    extends ← verify_log_extension index prev_size (cp_tree_size cp) prev_root
                                (cp_root_hash cp);
                    Some (match extends with inl false => 1 | _ => 0 end)
                  else Some 0
              | _, _ => Some 0
              end;
      Some (drift, (Some key, Some (cp_tree_size cp), Some (cp_root_hash cp)))
  | inl false => Some (1, prior)
  | inr _ => Some (0, prior)
  end.

Definition watch_log (index : HttpIndex) (prior : LogPins) : option (N * LogPins) :=
  match log_public_key index with
  | inl (Some served_key) =>
      let pinned := prior.1.1 in
      let changed := match pinned with
                     | Some k => if bool_decide (k = served_key) then 0 else 1
                     | None => 0
                     end in
      match log_checkpoint index with
      | inl cp =>
          '(drift, pins) ← watch_checkpoint index (default served_key pinned) prior cp;
          Some (changed + drift, pins)
      | inr _ => Some (changed, prior)
      end
  | _ => Some (0, prior)
  end.

(** Step 2: the advisories that disappeared, and the feed that shrank. *)
Definition watch_feed (prev : WatchState) (current_ids : list string) (count : N) : N :=
  N.of_nat (length (filter (λ id, id ∉ current_ids) (ws_seen prev))) +
  match ws_feed_count prev with
  | Some prev_count => if count <? prev_count then 1 else 0
  | None => 0
  end.

(** [starts_with] of the scope's prefix. *)
Definition of_scope (scope : string) (a : Advisory) : bool :=
  String.prefix (scope +:+ "/") (adv_package a).

(** A [BTreeSet] of ids, in order. *)
Fixpoint add_id (id : string) (l : list string) : list string :=
  match l with
  | [] => [id]
  | x :: l' => if bool_decide (id = x) then l
               else if String.leb id x then id :: l else x :: add_id id l'
  end.

(** [watch_one_scope] past the choice of the registry, which is [index] at [base];
    [state_file] is what the file parses to.  The result is the exit code and the state
    written ([None]: the file is left alone).  The lines it prints are left out. *)
Definition watch_one_scope (scope base : string) (index : HttpIndex)
    (state_file : option WatchState) : option (ExitCode * option WatchState) :=
  let prior := s ← state_file; if bool_decide (ws_base s = base) then Some s else None in
  feed ← fetch_advisories index (s ← prior; ws_advisory_key s);
  match feed with
  | inr _ => Some (Code 1, None)
  | inl feed =>
      let scope_advisories := filter (λ a, of_scope scope a = true) (va_advisories feed) in
      let current_ids := foldl (λ ids a, add_id (adv_id a) ids) [] scope_advisories in
      let drift := match prior with
                   | Some prev => watch_feed prev current_ids (va_count feed)
                   | None => 0
                   end in
      let pins := ((s ← prior; ws_log_key s), (s ← prior; ws_log_tree_size s),
                   (s ← prior; ws_log_root s)) in
      '(log_drift, (new_log_key, new_tree_size, new_root)) ← watch_log index pins;
      logged ← verify_advisories_logged index scope_advisories new_log_key;
      let inclusion_drift := match logged with
                             | inl (Some (_, unlogged)) => if bool_decide (unlogged = []) then 0 else 1
                             | _ => 0
                             end in
      let drift := drift + log_drift + inclusion_drift in
      let next := {| ws_base := base; ws_advisory_key := Some (va_public_key feed);
                     ws_log_key := new_log_key; ws_log_tree_size := new_tree_size;
                     ws_log_root := new_root; ws_feed_count := Some (va_count feed);
                     ws_seen := current_ids |} in
      Some (if 0 <? drift then Code 1 else SUCCESS, Some next)
  end.
End Registry.

(** [cmd_advisory_watch]: the exit code of the set of scopes. *)
Definition watch_exit (codes : list ExitCode) : ExitCode :=
  let drifted := length (filter (λ c, c = Code 1) codes) in
  let unusable := length (filter (λ c, c ≠ SUCCESS ∧ c ≠ Code 1) codes) in
  match unusable, drifted with
  | O, O => SUCCESS
  | O, _ => Code 1
  | _, _ => Code 2
  end.
