(* ===== verification/RegistryLogFacts.v ===== *)
(** Lemmas on [RegistryLog]: inversion of the checks, what they hash, hexadecimal and
    newline-separated text, and the honest registry. *)
From Stdlib Require Import Strings.Byte Strings.Ascii Strings.String.
From S2P Require Import Prelude Transparency TransparencyFacts RegistryLog.
From stdpp Require Import vector pretty strings sorting gmap options.
Open Scope string_scope.
Open Scope N_scope.
Open Scope list_scope.

(** ** Runs *)

Lemma try_ok {A B} (m : Run A) (k : A → Run B) b :
  (try m k = Ok b) ↔ ∃ a, m = Ok a ∧ k a = Ok b.
Proof.
  split; [|by intros (a & -> & H)]. destruct m as [[a|e]|]; cbn; [eauto|done..].
Qed.

Lemma ok_or_ok {A} (o : option A) e a : ok_or o e = Ok a ↔ o = Some a.
Proof. destruct o; split; by intros [= ->]. Qed.

Lemma answer_ok {A} (r : result A) a : answer r = Ok a ↔ r = inl a.
Proof. split; by intros [= ->]. Qed.

Lemma returns_ok {A} (o : option A) a : returns o = Ok a ↔ o = Some a.
Proof. destruct o; split; by intros [= ->]. Qed.

Lemma ok_inj {A} (a b : A) : Ok a = Ok b ↔ a = b.
Proof. split; by intros [= ->]. Qed.

Lemma err_not_ok {A} e (a : A) : Err e = Ok a ↔ False.
Proof. done. Qed.

(** Take an accepted run apart, one [?] at a time. *)
Ltac run_step :=
  match goal with
  | H : try _ _ = Ok _ |- _ =>
      let E := fresh in apply (proj1 (try_ok _ _ _)) in H as (? & ? & E); cbv beta in E
  | H : ok_or _ _ = Ok _ |- _ => apply (proj1 (ok_or_ok _ _ _)) in H
  | H : answer _ = Ok _ |- _ => apply (proj1 (answer_ok _ _)) in H
  | H : returns _ = Ok _ |- _ => apply (proj1 (returns_ok _ _)) in H
  | H : Ok _ = Ok _ |- _ => apply (proj1 (ok_inj _ _)) in H
  | H : Err _ = Ok _ |- _ => discriminate H
  | H : (if ?b then _ else _) = Ok _ |- _ => destruct b eqn:?; cbv iota in H
  end.
Ltac run_inv := repeat run_step; subst.

Lemma StronglySorted_lookup {A} (R : relation A) l i j x y :
  StronglySorted R l → (i < j)%nat → l !! i = Some x → l !! j = Some y → R x y.
Proof.
  intros Hs. revert i j. induction Hs as [|z l Hs IH Hz]; intros i j Hij Hi Hj; [done|].
  destruct j as [|j]; [lia|]. destruct i as [|i]; cbn in Hi, Hj.
  - injection Hi as <-. rewrite Forall_forall in Hz. by eapply Hz, list_elem_of_lookup_2.
  - eapply (IH i j); [lia|done..].
Qed.

(** ** Hexadecimal *)

Lemma radix16_hex_char b :
  u8_from_str_radix16 (String (hex_char (Byte.to_N b / 16))
    (String (hex_char (Byte.to_N b mod 16)) EmptyString)) = Some b.
Proof. destruct b; vm_compute; reflexivity. Qed.

(** A plus sign in a pair is taken. *)
Example hex_accepts_a_plus : hex_to_array 1 "+f" = Some [# x0f].
Proof. reflexivity. Qed.

Lemma hex_pairs_encode n (v : vec byte n) : hex_pairs n (hex_encode (vec_to_list v)) = Some v.
Proof.
  induction v as [|b n v IH]; [done|]. cbn [vec_to_list hex_encode hex_pairs].
  rewrite radix16_hex_char. cbn [mbind option_bind]. by rewrite IH.
Qed.

Lemma length_hex_encode bytes : String.length (hex_encode bytes) = (length bytes * 2)%nat.
Proof. induction bytes as [|b bytes IH]; [done|]. simpl. by rewrite IH. Qed.

Lemma hex_to_array_encode n (v : vec byte n) : hex_to_array n (hex_encode (vec_to_list v)) = Some v.
Proof.
  unfold hex_to_array. rewrite length_hex_encode, length_vec_to_list, bool_decide_true by done.
  apply hex_pairs_encode.
Qed.

Lemma parse_hashes_encode (hs : list Hash) :
  parse_hashes (hex_encode ∘ vec_to_list <$> hs) = Some hs.
Proof.
  unfold parse_hashes. induction hs as [|h hs IH]; [done|]. cbn. rewrite hex_to_array_encode.
  cbn. cbn in IH. by rewrite IH.
Qed.

(** ** Lines *)

Fixpoint no_newline (s : string) : bool :=
  match s with
  | EmptyString => true
  | String c s => negb (bool_decide (c = "010"%char)) && no_newline s
  end.

Lemma split_lines_cons s t :
  no_newline s = true → split_lines (s +:+ newline +:+ t) = s :: split_lines t.
Proof.
  induction s as [|c s IH]; [done|]. simpl. intros [Hc Hs]%andb_true_iff.
  apply negb_true_iff in Hc. rewrite Hc. by rewrite IH.
Qed.

Lemma split_lines_nonempty s : split_lines s ≠ [].
Proof.
  destruct s as [|c s]; [done|]. simpl. case_bool_decide; [done|]. by destruct (split_lines s).
Qed.

(** Lines, put together again. *)
Fixpoint join_lines (ls : list string) : string :=
  match ls with
  | [] => EmptyString
  | [l] => l
  | l :: ls => l +:+ newline +:+ join_lines ls
  end.

Lemma join_split_lines s : join_lines (split_lines s) = s.
Proof.
  induction s as [|c s IH]; [done|]. simpl. pose proof (split_lines_nonempty s) as Hne.
  case_bool_decide as Hc.
  - subst. destruct (split_lines s) as [|l ls]; [done|]. cbn -[join_lines]. by rewrite <- IH.
  - destruct (split_lines s) as [|l ls]; [done|]. rewrite <- IH. by destruct ls.
Qed.

(** A number's digits hold no newline: what ends at the first one is determined. *)
Lemma no_newline_app s t : no_newline (s +:+ t) = no_newline s && no_newline t.
Proof. induction s as [|c s IH]; [done|]. simpl. rewrite IH. by rewrite andb_assoc. Qed.

Lemma pretty_no_newline_go x s : no_newline s = true → no_newline (pretty_N_go x s) = true.
Proof.
  revert s. induction (N.lt_wf_0 x) as [x _ IH]; intros s Hs.
  destruct (decide (x = 0)) as [->|]; [done|].
  rewrite pretty_N_go_step by lia. apply IH; [apply N.div_lt; lia|].
  simpl. rewrite Hs, andb_true_r. unfold pretty_N_char. by repeat case_match.
Qed.

Lemma pretty_no_newline (n : N) : no_newline (pretty n) = true.
Proof.
  unfold pretty, pretty_N. case_decide; [done|]. by apply pretty_no_newline_go.
Qed.

Lemma line_inj s s' t t' :
  no_newline s = true → no_newline s' = true →
  s +:+ newline +:+ t = s' +:+ newline +:+ t' → s = s' ∧ t = t'.
Proof.
  revert s'. induction s as [|c s IH]; intros [|c' s'] Hs Hs' E; simpl in *.
  - injection E as E. simpl in E. by subst.
  - injection E as <- _. done.
  - injection E as -> _. done.
  - injection E as <- E. apply andb_true_iff in Hs as [_ Hs], Hs' as [_ Hs'].
    destruct (IH s' Hs Hs' E) as [-> ->]. done.
Qed.

Lemma newline_end_inj s s' : s +:+ newline = s' +:+ newline → s = s'.
Proof.
  revert s'. induction s as [|c s IH]; intros [|c' s'] E; simpl in *; try done.
  - injection E as _ E. by destruct s'.
  - injection E as _ E. by destruct s.
  - injection E as <- E. f_equal. auto.
Qed.

Lemma bytes_of_inj s t : bytes_of s = bytes_of t → s = t.
Proof.
  intros E. unfold bytes_of in E. apply (f_equal string_of_list_byte) in E.
  by rewrite !string_of_list_byte_of_string in E.
Qed.

Section Facts.
Context (sha256 : list byte → Hash).
Context {VerifyingKey : Type} (from_bytes : vec byte 32 → VerifyingKey + string)
  (verify_strict : VerifyingKey → list byte → vec byte 64 → bool).
Context {Version : Type} (version_to_string : Version → string).
Local Notation verify_checkpoint := (verify_checkpoint from_bytes verify_strict).
Local Notation verify_inclusion_at := (verify_inclusion_at sha256).
Local Notation enforce_transparency :=
  (enforce_transparency sha256 from_bytes verify_strict version_to_string).
Local Notation check_releases := (check_releases sha256 version_to_string).

(** ** Logs *)

(** The leaves of a log of records, and the size and root that commit to it. *)
Definition record_leaf (record : string) : Hash := leaf_hash sha256 (bytes_of record).
Definition commits (root_hex : string) (size : N) (records : list string) : Prop :=
  hex_to_array 32 root_hex = Some (merkle_root sha256 (record_leaf <$> records)) ∧
  size = N.of_nat (length records).

(** What the leaves and the interior nodes of a log hash. *)
Definition leaf_input (record : string) : list byte := x00 :: bytes_of record.
Definition log_inputs (records : list string) : list (list byte) :=
  (leaf_input <$> records) ++ tree_inputs sha256 (tree_of (record_leaf <$> records)).

Lemma leaves_inj inputs r r' :
  collision_free sha256 inputs → leaf_input r ∈ inputs → leaf_input r' ∈ inputs →
  record_leaf r = record_leaf r' → r = r'.
Proof.
  intros Hc Hr Hr' E. apply Hc in E; [|done..]. injection E as E. by apply bytes_of_inj.
Qed.

(** Leaves in order make records in order. *)
Lemma leaves_prefix inputs (rs rs' : list string) :
  collision_free sha256 inputs →
  (∀ r, r ∈ rs ++ rs' → leaf_input r ∈ inputs) →
  (record_leaf <$> rs) `prefix_of` (record_leaf <$> rs') → rs `prefix_of` rs'.
Proof.
  intros Hc. revert rs'. induction rs as [|r rs IH]; intros [|r' rs'] Hin Hp.
  - apply prefix_nil.
  - apply prefix_nil.
  - cbn in Hp. by apply prefix_nil_not in Hp.
  - cbn in Hp. pose proof (prefix_cons_inv_1 _ _ _ _ Hp) as E.
    apply prefix_cons_inv_2 in Hp. apply (leaves_inj inputs) in E as <-; auto.
    + apply prefix_cons. apply IH; [|done]. intros x Hx. apply Hin.
      revert Hx. rewrite !elem_of_app, !elem_of_cons. tauto.
    + apply Hin. simpl. left.
    + apply Hin. rewrite elem_of_app, !elem_of_cons. auto.
Qed.

(** ** One release *)

(** What the check of a served proof hashes. *)
Definition inclusion_inputs (incl : LogInclusion) : list (list byte) :=
  leaf_input (incl_record incl) ::
  match parse_hashes (incl_proof incl) with
  | Some proof =>
      path_inputs sha256 (record_leaf (incl_record incl)) (incl_index incl) (incl_tree_size incl)
        (reverse proof)
  | None => []
  end.
Definition release_inputs (index : HttpIndex) (coords : ReleaseCoords) : list (list byte) :=
  match log_inclusion index (rc_name coords) (rc_version coords) with
  | inl (Some incl) => inclusion_inputs incl
  | _ => []
  end.

(** A matching record spells the release's coordinates. *)
Lemma coords_match_binds coords record :
  coords_match coords (split_lines record) = true ↔
  ∃ rest, split_lines record = "noeta-transparency-log-v1" :: rc_name coords ::
    rc_version coords :: rc_url coords :: rc_tag coords :: rc_sha coords :: rest.
Proof.
  unfold coords_match. rewrite !andb_true_iff, !bool_decide_eq_true. split.
  - intros ((((((_ & H0) & H1) & H2) & H3) & H4) & H5).
    destruct (split_lines record) as [|f0 [|f1 [|f2 [|f3 [|f4 [|f5 rest]]]]]]; try done.
    simplify_eq/=. eauto.
  - intros [rest ->]. simpl. split_and!; try done; lia.
Qed.

Lemma verify_inclusion_at_inv index coords cp :
  verify_inclusion_at index coords cp = Ok tt →
  ∃ incl root proof,
    log_inclusion index (rc_name coords) (rc_version coords) = inl (Some incl) ∧
    incl_root_hash incl = cp_root_hash cp ∧ incl_tree_size incl = cp_tree_size cp ∧
    coords_match coords (split_lines (incl_record incl)) = true ∧
    license_conflict coords (split_lines (incl_record incl)) = None ∧
    hex_to_array 32 (cp_root_hash cp) = Some root ∧
    parse_hashes (incl_proof incl) = Some proof ∧
    verify_inclusion sha256 (record_leaf (incl_record incl)) (incl_index incl) (cp_tree_size cp)
      proof root = Some true.
Proof.
  unfold RegistryLog.verify_inclusion_at. intros H. run_inv.
  destruct (license_conflict _ _) eqn:El; [done|]. run_inv.
  apply orb_false_iff in Heqb as [Hr%negb_false_iff Hs%negb_false_iff].
  apply bool_decide_eq_true in Hr. apply N.eqb_eq in Hs. apply negb_false_iff in Heqb0.
  rewrite Hs in *. do 3 eexists. split_and!; eauto.
Qed.

(** An accepted release is in the log its checkpoint commits to. *)
Lemma inclusion_at_sound index coords cp records :
  verify_inclusion_at index coords cp = Ok tt →
  commits (cp_root_hash cp) (cp_tree_size cp) records →
  collision_free sha256 (log_inputs records ++ release_inputs index coords) →
  ∃ record, record ∈ records ∧ coords_match coords (split_lines record) = true.
Proof.
  intros (incl & root & proof & Hincl & _ & Hs & Hm & _ & Hroot & Hproof & Hv)%verify_inclusion_at_inv
    [Hc1 Hc2] Hfree.
  rewrite Hc1 in Hroot. injection Hroot as <-.
  pose proof (verify_inclusion_small _ _ _ _ _ _ Hv) as [H63 Hlt].
  unfold release_inputs in Hfree. rewrite Hincl in Hfree. unfold inclusion_inputs in Hfree.
  rewrite Hproof, Hs in Hfree. unfold log_inputs in Hfree.
  rewrite <- (N2Nat.id (incl_index incl)) in Hv, Hfree. rewrite Hc2 in *.
  rewrite <- (length_fmap record_leaf) in Hv, Hfree, H63.
  apply verify_inclusion_iff in Hv as [Hleaf _]; [|done|].
  - apply list_lookup_fmap_Some in Hleaf as (r & E & Hr).
    exists r. split; [by eapply list_elem_of_lookup_2|].
    apply (leaves_inj _ _ _ Hfree) in E as <-; auto.
    + rewrite !elem_of_app, elem_of_cons. auto.
    + rewrite !elem_of_app. left. left. apply list_elem_of_fmap. exists r. split; [done|].
      by eapply list_elem_of_lookup_2.
  - eapply collision_free_sub; [|exact Hfree]. intros x.
    rewrite !elem_of_app, elem_of_cons. tauto.
Qed.

(** ** The locked packages *)

(** The release the loop looks up for a package, if it is checked at all. *)
Definition release_coords (identities : gset string) (pkg : LockedPackage Version) :
    option ReleaseCoords :=
  if decide (lp_identity pkg ∈ identities) then
    match lp_source pkg with
    | Git url (Tag tag) sha =>
        Some {| rc_name := lp_identity pkg; rc_version := version_to_string (lp_version pkg);
                rc_url := url; rc_tag := tag; rc_sha := sha; rc_license := None |}
    | _ => None
    end
  else None.

Lemma check_releases_iff index identities cp locked :
  check_releases index identities cp locked = Ok tt ↔
  ∀ pkg coords, pkg ∈ locked → release_coords identities pkg = Some coords →
    verify_inclusion_at index coords cp = Ok tt.
Proof.
  induction locked as [|pkg locked IH].
  { split; [|done]. intros _ pkg coords H. by apply elem_of_nil in H. }
  assert (Hcons : ∀ P : Prop, (check_releases index identities cp (pkg :: locked) = Ok tt ↔
      P ∧ check_releases index identities cp locked = Ok tt) →
      (P ↔ ∀ coords, release_coords identities pkg = Some coords →
        verify_inclusion_at index coords cp = Ok tt) →
      (check_releases index identities cp (pkg :: locked) = Ok tt ↔
       ∀ pkg' coords, pkg' ∈ pkg :: locked → release_coords identities pkg' = Some coords →
         verify_inclusion_at index coords cp = Ok tt)).
  { intros P H1 H2. rewrite H1, H2, IH. split.
    - intros [Ha Hb] pkg' coords [->|Hin]%elem_of_cons; eauto.
    - intros H. split; [intros coords|intros pkg' coords Hin]; apply H, elem_of_cons; auto. }
  destruct (release_coords identities pkg) as [coords|] eqn:Ec.
  - apply (Hcons (verify_inclusion_at index coords cp = Ok tt));
      [|by split; [intros ? ? [= <-]|auto]].
    unfold release_coords in Ec. simpl. case_decide; [|done].
    rewrite bool_decide_true by done. destruct (lp_source pkg) as [|url [tag| |] sha]; try done.
    injection Ec as <-. simpl. rewrite try_ok. split; [intros ([] & ? & ?)|intros [? ?]]; eauto.
  - apply (Hcons True); [|by split; [intros _ ? [=]|auto]].
    unfold release_coords in Ec. simpl. case_decide.
    + rewrite bool_decide_true by done. simpl.
      destruct (lp_source pkg) as [|url [tag| |] sha]; try done; tauto.
    + rewrite bool_decide_false by done. simpl. tauto.
Qed.

(** ** Heads *)

(** What the consistency check of a run hashes. *)
Definition extension_inputs (index : HttpIndex) (p : LogTrust) (size : N) : list (list byte) :=
  match log_consistency index (lt_tree_size p) size,
        hex_to_array 32 (lt_root_hash p) with
  | inl served, Some root_from =>
      match parse_hashes (cons_proof served) with
      | Some proof =>
          consistency_inputs sha256 (reverse proof) (lt_tree_size p) size
            true root_from
      | None => []
      end
  | _, _ => []
  end.

Lemma check_append_only_inv index p cp :
  check_append_only sha256 index p cp = Ok tt →
  lt_tree_size p ≤ cp_tree_size cp ∧
  ∃ served root_from root_to proof,
    log_consistency index (lt_tree_size p) (cp_tree_size cp) = inl served ∧
    hex_to_array 32 (lt_root_hash p) = Some root_from ∧
    hex_to_array 32 (cp_root_hash cp) = Some root_to ∧
    parse_hashes (cons_proof served) = Some proof ∧
    verify_consistency sha256 (lt_tree_size p) (cp_tree_size cp) proof root_from root_to =
      Some true.
Proof.
  unfold check_append_only. intros H. run_inv. apply N.ltb_ge in Heqb.
  split; [done|]. do 4 eexists. eauto.
Qed.

Lemma enforce_inv open_http graph pinned pin :
  enforce_transparency open_http graph pinned = Ok pin →
  ∃ index cp,
    open_http = inl (Some index) ∧ log_checkpoint index = inl cp ∧
    lt_tree_size pin = cp_tree_size cp ∧ lt_root_hash pin = cp_root_hash cp ∧
    verify_checkpoint (lt_public_key pin) (cp_tree_size cp) (cp_root_hash cp) (cp_signature cp) =
      Ok true ∧
    match pinned with
    | Some p => lt_public_key pin = lt_public_key p ∧ check_append_only sha256 index p cp = Ok tt
    | None => log_public_key index = inl (Some (lt_public_key pin))
    end ∧
    check_releases index (rg_registry_identities graph) cp (rg_locked graph) = Ok tt.
Proof.
  unfold RegistryLog.enforce_transparency. intros H. run_inv.
  match goal with b : bool, E : negb ?b = false |- _ => apply negb_false_iff in E; subst end.
  repeat match goal with u : unit |- _ => destruct u end.
  do 2 eexists. split_and!; eauto; [].
  match goal with E : log_key _ _ = _ |- _ => unfold log_key in E end.
  destruct pinned as [p|]; cbn [fmap option_fmap option_map] in *; by run_inv.
Qed.

(** The pinned log is a prefix of the accepted one. *)
Lemma append_only_sound index p cp old new :
  check_append_only sha256 index p cp = Ok tt →
  commits (lt_root_hash p) (lt_tree_size p) old →
  commits (cp_root_hash cp) (cp_tree_size cp) new →
  collision_free sha256 (log_inputs old ++ log_inputs new ++
    extension_inputs index p (cp_tree_size cp)) →
  old `prefix_of` new.
Proof.
  intros (_ & served & rf & rt & proof & Hcons & Hf & Ht & Hp & Hv)%check_append_only_inv
    [Ho1 Ho2] [Hn1 Hn2] Hc.
  unfold extension_inputs in Hc. rewrite Hcons, Hf, Hp in Hc.
  rewrite Ho1 in Hf. rewrite Hn1 in Ht. injection Hf as <-. injection Ht as <-.
  rewrite Ho2, Hn2 in *. rewrite <- !(length_fmap record_leaf) in Hv, Hc.
  unfold log_inputs in Hc. eapply (leaves_prefix _ _ _ Hc).
  - intros r. rewrite !elem_of_app, !list_elem_of_fmap. intros [Hr|Hr]; eauto 10.
  - eapply verify_consistency_prefix; [|exact Hv].
    eapply collision_free_sub; [|exact Hc]. intros x. rewrite !elem_of_app. tauto.
Qed.

(** ** A project's history *)

(** Resolves of one project, each against what the registry serves that time: the head a
    resolve accepts is the next one's pin. *)
Fixpoint resolve_all (pinned : option LogTrust)
    (runs : list (HttpIndex * ResolvedGraph Version)) : Run (list LogTrust) :=
  match runs with
  | [] => Ok []
  | (index, graph) :: runs =>
      head ←? enforce_transparency (inl (Some index)) graph pinned;
      heads ←? resolve_all (Some head) runs;
      Ok (head :: heads)
  end.

(** The checkpoint a registry serves is the head, and its signature over it verifies under the
    head's key. *)
Definition signed_head (index : HttpIndex) (head : LogTrust) : Prop :=
  ∃ cp pk key signature,
    log_checkpoint index = inl cp ∧
    cp_tree_size cp = lt_tree_size head ∧ cp_root_hash cp = lt_root_hash head ∧
    hex_to_array 32 (lt_public_key head) = Some pk ∧ from_bytes pk = inl key ∧
    hex_to_array 64 (cp_signature cp) = Some signature ∧
    verify_strict key (bytes_of (checkpoint_message (lt_tree_size head) (lt_root_hash head)))
      signature = true.
Lemma enforce_signed index graph pinned pin :
  enforce_transparency (inl (Some index)) graph pinned = Ok pin →
  signed_head index pin ∧ ∀ p, pinned = Some p → lt_public_key pin = lt_public_key p.
Proof.
  intros (index' & cp & [= <-] & Hcp & Hs & Hr & Hv & Hk & _)%enforce_inv.
  split; [|by intros p ->; destruct Hk].
  unfold RegistryLog.verify_checkpoint, parse_key in Hv. rewrite <- Hs, <- Hr in Hv.
  run_inv. destruct (from_bytes _) as [key|] eqn:Hkey in *; run_inv.
  do 4 eexists. split_and!; eauto.
Qed.
Lemma history_signed runs : ∀ pinned heads,
  resolve_all pinned runs = Ok heads →
  Forall2 (λ run head, signed_head run.1 head) runs heads ∧
  ∀ p, pinned = Some p → Forall (λ head, lt_public_key head = lt_public_key p) heads.
Proof.
  induction runs as [|[index graph] runs IH]; intros pinned heads H; cbn [resolve_all] in H; run_inv.
  { split; [constructor|]. by constructor. }
  rename x into head, x0 into heads.
  match goal with E : enforce_transparency _ _ _ = _ |- _ => apply enforce_signed in E as [Hh Hk] end.
  destruct (IH (Some head) heads) as [Hs Hks]; [done|]. split; [by constructor|].
  intros p Hp. specialize (Hk _ Hp). constructor; [done|].
  eapply Forall_impl; [by apply Hks|]. cbn. congruence.
Qed.

(** What their consistency checks hash. *)
Fixpoint history_inputs (pinned : option LogTrust)
    (runs : list (HttpIndex * ResolvedGraph Version)) (heads : list LogTrust) :
    list (list byte) :=
  match runs, heads with
  | (index, _) :: runs, head :: heads =>
      match pinned with
      | Some p => extension_inputs index p (lt_tree_size head)
      | None => []
      end ++ history_inputs (Some head) runs heads
  | _, _ => []
  end.

(** Two heads and the logs they commit to. *)
Definition head_extends (a b : LogTrust * list string) : Prop :=
  lt_public_key b.1 = lt_public_key a.1 ∧ lt_tree_size a.1 ≤ lt_tree_size b.1 ∧
  a.2 `prefix_of` b.2.

#[export] Instance head_extends_trans : Transitive head_extends.
Proof.
  intros a b c (H1 & H2 & H3) (H4 & H5 & H6). split_and!; [congruence|lia|by etrans].
Qed.

Lemma enforce_extends index graph p pin old new :
  enforce_transparency (inl (Some index)) graph (Some p) = Ok pin →
  commits (lt_root_hash p) (lt_tree_size p) old →
  commits (lt_root_hash pin) (lt_tree_size pin) new →
  collision_free sha256 (log_inputs old ++ log_inputs new ++
    extension_inputs index p (lt_tree_size pin)) →
  head_extends (p, old) (pin, new).
Proof.
  intros (index' & cp & [= <-] & _ & Hs & Hr & _ & [Hk Ha] & _)%enforce_inv Ho Hn Hc.
  rewrite Hs, Hr in *. unfold head_extends. cbn [fst snd]. split_and!; [done| |].
  - rewrite Hs. by apply check_append_only_inv in Ha as [? _].
  - by eapply append_only_sound.
Qed.

Lemma history_sorted runs : ∀ pinned heads logs,
  resolve_all pinned runs = Ok heads →
  Forall2 (λ head records, commits (lt_root_hash head) (lt_tree_size head) records) heads logs →
  collision_free sha256 (mjoin (log_inputs <$> logs) ++ history_inputs pinned runs heads) →
  Sorted head_extends (zip heads logs) ∧
  ∀ p old, pinned = Some p → commits (lt_root_hash p) (lt_tree_size p) old →
    collision_free sha256 (log_inputs old ++ mjoin (log_inputs <$> logs) ++
      history_inputs pinned runs heads) →
    HdRel head_extends (p, old) (zip heads logs).
Proof.
  induction runs as [|[index graph] runs IH]; intros pinned heads logs H Hl Hc.
  { cbn in H. run_inv. split; constructor. }
  cbn [resolve_all] in H. run_inv.
  apply Forall2_cons_inv_l in Hl as (log & logs' & Hhead & Hl & ->).
  cbn [fmap list_fmap mjoin list_join history_inputs zip] in *.
  rename x into head, x0 into heads.
  assert (Hc' : collision_free sha256 (log_inputs log ++ mjoin (log_inputs <$> logs') ++
      history_inputs (Some head) runs heads)).
  { eapply collision_free_sub; [|exact Hc]. intros y. rewrite !elem_of_app. tauto. }
  destruct (IH (Some head) heads logs') as [Hs Hh]; [done|done| |].
  { eapply collision_free_sub; [|exact Hc']. intros y. rewrite !elem_of_app. tauto. }
  split; [constructor; [done|by apply Hh]|].
  intros p old -> Ho Hc2. constructor. eapply enforce_extends; [done|done|done|].
  eapply collision_free_sub; [|exact Hc2]. intros y. rewrite !elem_of_app. tauto.
Qed.

(** ** The honest registry *)

(** The registry serves the log of [records]: its checkpoint is signed, it proves any pinned
    log that is a prefix, and it proves each release its record. *)
Record serves (index : HttpIndex) (key : string) (cp : LogCheckpoint) (records : list string)
    (pinned : option (LogTrust * list string)) (releases : list ReleaseCoords) : Prop := {
  serves_key : log_public_key index = inl (Some key);
  serves_checkpoint : log_checkpoint index = inl cp;
  serves_root : commits (cp_root_hash cp) (cp_tree_size cp) records;
  serves_signed :
    verify_checkpoint key (cp_tree_size cp) (cp_root_hash cp) (cp_signature cp) = Ok true;
  serves_consistency p old : pinned = Some (p, old) →
    lt_public_key p = key ∧ commits (lt_root_hash p) (lt_tree_size p) old ∧
    old `prefix_of` records ∧
    log_consistency index (lt_tree_size p) (cp_tree_size cp) =
      inl {| cons_proof := hex_encode ∘ vec_to_list <$>
        consistency_proof sha256 (record_leaf <$> records) (length old) |};
  serves_inclusion coords : coords ∈ releases → ∃ i record,
    records !! i = Some record ∧ coords_match coords (split_lines record) = true ∧
    log_inclusion index (rc_name coords) (rc_version coords) =
      inl (Some {| incl_index := N.of_nat i; incl_tree_size := cp_tree_size cp;
        incl_root_hash := cp_root_hash cp; incl_record := record;
        incl_proof := hex_encode ∘ vec_to_list <$>
          inclusion_proof sha256 (record_leaf <$> records) i |})
}.

Lemma honest_inclusion index key cp records pinned releases coords :
  serves index key cp records pinned releases → N.of_nat (length records) ≤ 2 ^ 63 →
  coords ∈ releases → rc_license coords = None → verify_inclusion_at index coords cp = Ok tt.
Proof.
  intros Hs H63 Hin Hlic. destruct (serves_inclusion _ _ _ _ _ _ Hs _ Hin) as (i & r & Hr & Hm & Hi).
  destruct (serves_root _ _ _ _ _ _ Hs) as [Hroot Hsize].
  unfold RegistryLog.verify_inclusion_at. rewrite Hi. cbn [answer try ok_or Ok].
  cbn [incl_root_hash incl_tree_size incl_record incl_proof incl_index].
  rewrite bool_decide_true, N.eqb_refl by done. cbn [negb orb]. rewrite Hm. cbn [negb].
  unfold license_conflict. rewrite Hlic, Hroot, parse_hashes_encode. cbn [ok_or try Ok].
  rewrite Hsize, <- (length_fmap record_leaf), verify_inclusion_complete; [done| |].
  - by rewrite length_fmap.
  - by rewrite list_lookup_fmap, Hr.
Qed.

Lemma honest_extension index key cp records p old releases :
  serves index key cp records (Some (p, old)) releases → N.of_nat (length records) ≤ 2 ^ 63 →
  check_append_only sha256 index p cp = Ok tt.
Proof.
  intros Hs H63. destruct (serves_root _ _ _ _ _ _ Hs) as [Hroot Hsize].
  destruct (serves_consistency _ _ _ _ _ _ Hs p old eq_refl) as (_ & [Ho1 Ho2] & [new ->] & Hcons).
  unfold check_append_only. rewrite Hcons, Ho1, Hroot. cbn [answer try ok_or Ok cons_proof].
  rewrite parse_hashes_encode. cbn [ok_or try Ok]. rewrite Ho2, Hsize in *.
  assert (Hlen : length (old ++ new) = (length old + length new)%nat) by apply length_app.
  destruct (_ <? _) eqn:E; [apply N.ltb_lt in E; lia|]. destruct new as [|r new].
  - rewrite app_nil_r in *. unfold verify_consistency. rewrite N.ltb_irrefl, N.eqb_refl.
    unfold consistency_proof. rewrite <- (length_fmap record_leaf), <- size_tree_of, subproof_meet.
    by rewrite !bool_decide_true.
  - rewrite <- !(length_fmap record_leaf).
    rewrite <- (app_nil_l (consistency_proof _ _ _)).
    replace (merkle_root sha256 (record_leaf <$> old)) with
      (merkle_root sha256 (take (length (record_leaf <$> old)) (record_leaf <$> old ++ r :: new))).
    + rewrite verify_consistency_complete; [done| |]; rewrite !length_fmap; [done|].
      rewrite Hlen. simpl. lia.
    + by rewrite fmap_app, take_app_length.
Qed.

(** ** The monitor *)

Local Notation watch_checkpoint := (watch_checkpoint sha256 from_bytes verify_strict).
Local Notation watch_log := (watch_log sha256 from_bytes verify_strict).

Lemma watch_checkpoint_pins index key prior cp drift pins :
  watch_checkpoint index key prior cp = Some (drift, pins) →
  pins = prior ∨ pins = (Some key, Some (cp_tree_size cp), Some (cp_root_hash cp)) ∧
    ∀ n r, prior.1.2 = Some n → prior.2 = Some r → drift = 0 → n ≤ cp_tree_size cp.
Proof.
  destruct prior as [[prev_key prev_size] prev_root]. unfold RegistryLog.watch_checkpoint.
  destruct (verify_checkpoint _ _ _ _) as [[[]|e]|]; cbn [mbind option_bind];
    [|intros [= <- <-]; auto..|done].
  intros H. right. destruct prev_size as [n|], prev_root as [r|]; cbn [mbind option_bind] in H;
    [|injection H as <- <-; by split..].
  destruct (cp_tree_size cp <? n) eqn:E; cbn [mbind option_bind] in H.
  { injection H as <- <-. by split. }
  apply N.ltb_ge in E. split; [|by intros ? ? [= <-]].
  destruct (n <? cp_tree_size cp); [|by injection H as <- <-].
  destruct (verify_log_extension _ _ _ _ _ _) as [[]|]; cbn [mbind option_bind] in H;
    by simplify_eq.
Qed.

(** The log pins of a run: the key stays, a run that reports nothing does not shrink. *)
Lemma watch_log_pins index prior drift pins k :
  watch_log index prior = Some (drift, pins) →
  (prior.1.1 = Some k → pins.1.1 = Some k) ∧
  (∀ n r, prior.1.2 = Some n → prior.2 = Some r → drift = 0 →
    ∃ n', pins.1.2 = Some n' ∧ n ≤ n').
Proof.
  destruct prior as [[pk ps] pr]. unfold RegistryLog.watch_log. cbn [fst snd].
  destruct (log_public_key index) as [[served|]|e];
    [|intros [= <- <-]; split; [done|intros n r Hn _ _; by exists n]..].
  destruct (log_checkpoint index) as [cp|e];
    [|intros [= <- <-]; split; [done|intros n r Hn _ _; by exists n]].
  destruct (watch_checkpoint _ _ _ _) as [[d p]|] eqn:Ew; [|done].
  cbn [mbind option_bind]. intros [= <- <-].
  apply watch_checkpoint_pins in Ew as [->|[-> Hn]]; cbn [fst snd] in *.
  - split; [done|]. intros n r H1 _ _. by exists n.
  - split; [by intros ->|]. intros n r H1 H2 H3. eexists. split; [done|].
    eapply Hn; eauto. lia.
Qed.

Lemma fetch_inv index pinned feed :
  fetch_advisories sha256 from_bytes verify_strict index pinned = Ok feed →
  list_advisories index = inl (va_advisories feed) ∧
  (∀ k, pinned = Some k → va_public_key feed = k) ∧
  verify_all sha256 from_bytes verify_strict (va_public_key feed) (va_advisories feed) = Ok tt ∧
  va_count feed = N.of_nat (length (va_advisories feed)) ∧
  va_digest feed = feed_digest sha256 (va_advisories feed).
Proof.
  unfold fetch_advisories. intros H. run_inv.
  match goal with b : bool, E : negb ?b = false |- _ => apply negb_false_iff in E; subst end.
  repeat match goal with u : unit |- _ => destruct u end.
  apply orb_false_iff in Heqb0 as [Hc%negb_false_iff Hd%negb_false_iff].
  apply N.eqb_eq in Hc. apply bool_decide_eq_true in Hd. cbn. split_and!; auto.
  intros k ->. by run_inv.
Qed.

Lemma verify_all_iff key advisories :
  verify_all sha256 from_bytes verify_strict key advisories = Ok tt ↔
  ∀ a, a ∈ advisories → advisory_verify sha256 from_bytes verify_strict a key = Ok true.
Proof.
  induction advisories as [|a advs IH]; simpl.
  { split; [|done]. intros _ a H. by apply elem_of_nil in H. }
  split.
  - intros H. run_inv. apply negb_false_iff in Heqb as ->.
    intros b [->|Hb]%elem_of_cons; [done|]. by apply IH.
  - intros H. rewrite (H a) by (apply elem_of_cons; auto). cbn [try Ok negb].
    apply IH. intros b Hb. apply H. apply elem_of_cons. auto.
Qed.
End Facts.

(** ** Ids *)

Lemma elem_of_add_id x id l : x ∈ add_id id l ↔ x = id ∨ x ∈ l.
Proof.
  induction l as [|y l IH]; simpl; [by rewrite list_elem_of_singleton, elem_of_nil; tauto|].
  case_bool_decide as E; [subst; rewrite elem_of_cons; tauto|].
  destruct (String.leb id y); rewrite !elem_of_cons; [done|]. rewrite IH. tauto.
Qed.

Lemma elem_of_ids x advs ids :
  x ∈ foldl (λ ids a, add_id (adv_id a) ids) ids advs ↔ x ∈ ids ∨ ∃ a, a ∈ advs ∧ adv_id a = x.
Proof.
  revert ids. induction advs as [|a advs IH]; intros ids; simpl.
  - split; [auto|]. intros [H|(a & H & _)]; [done|]. by apply elem_of_nil in H.
  - rewrite IH, elem_of_add_id. split.
    + intros [[->|H]|(b & Hb & <-)]; [right; exists a; split; [|done]|auto|right; exists b; split; [|done]];
        apply elem_of_cons; auto.
    + intros [H|(b & [->|Hb]%elem_of_cons & <-)]; eauto.
Qed.

Lemma watch_feed_zero prev ids count : watch_feed prev ids count = 0 →
  (∀ id, id ∈ ws_seen prev → id ∈ ids) ∧ (∀ c, ws_feed_count prev = Some c → c ≤ count).
Proof.
  unfold watch_feed. intros H. split.
  - intros id Hid. destruct (decide (id ∈ ids)) as [|Hn]; [done|exfalso].
    assert (Hf : id ∈ filter (λ id, id ∉ ids) (ws_seen prev)) by (by apply list_elem_of_filter).
    destruct (filter _ _) as [|? ?]; [by apply elem_of_nil in Hf|]. simpl in H. lia.
  - intros c Hc. rewrite Hc in H. destruct (count <? c) eqn:E; [lia|]. by apply N.ltb_ge in E.
Qed.

(** The order of ids. *)
Definition id_le (a b : Advisory) : Prop := String.le (adv_id a) (adv_id b).

Lemma leb_le s t : String.leb s t = true ↔ String.le s t.
Proof. unfold String.le. by rewrite Is_true_true. Qed.

Lemma insert_by_id_perm a l : insert_by_id a l ≡ₚ a :: l.
Proof.
  induction l as [|b l IH]; simpl; [done|]. destruct (String.leb _ _); [done|].
  rewrite IH. by rewrite Permutation_swap.
Qed.

Lemma sort_by_id_perm l : sort_by_id l ≡ₚ l.
Proof. induction l as [|a l IH]; [done|]. simpl. by rewrite insert_by_id_perm, IH. Qed.

Lemma insert_by_id_sorted a l : StronglySorted id_le l → StronglySorted id_le (insert_by_id a l).
Proof.
  induction 1 as [|b l Hs IH Hb]; simpl; [repeat constructor|].
  destruct (String.leb (adv_id a) (adv_id b)) eqn:E.
  - apply leb_le in E. constructor; [by constructor|]. constructor; [done|].
    eapply Forall_impl; [exact Hb|]. intros x Hx. unfold id_le in *. by etrans.
  - constructor; [done|]. rewrite insert_by_id_perm. constructor; [|done].
    unfold id_le. apply leb_le. destruct (String.leb_total (adv_id a) (adv_id b)); congruence.
Qed.

Lemma sort_by_id_sorted l : StronglySorted id_le (sort_by_id l).
Proof. induction l as [|a l IH]; [constructor|]. by apply insert_by_id_sorted. Qed.

Lemma sort_by_id_unique l l' : NoDup (adv_id <$> l) → l ≡ₚ l' → sort_by_id l = sort_by_id l'.
Proof.
  intros Hd Hp. apply (StronglySorted_unique_strong id_le);
    auto using sort_by_id_sorted; [|by rewrite !sort_by_id_perm].
  intros a b. rewrite !sort_by_id_perm, <- Hp. intros Ha Hb Hab Hba.
  assert (E : adv_id a = adv_id b) by (by apply (anti_symm String.le)).
  apply list_elem_of_lookup_1 in Ha as [i Hi], Hb as [j Hj].
  assert (i = j) as <-; [|congruence].
  eapply (NoDup_lookup _ _ _ (adv_id a) Hd); rewrite list_lookup_fmap; [by rewrite Hi|].
  rewrite Hj. simpl. congruence.
Qed.
