(* ===== verification/TransparencyProps.v ===== *)
(** What the transparency log's client guarantees: the verifiers accept exactly the honest
    proofs, an accepted release is logged, the heads a project accepts are one growing log,
    an honest registry is accepted, and what the monitor of the advisory feed sees. *)
From Stdlib Require Import Strings.Byte Strings.Ascii Strings.String.
From S2P Require Import Prelude Transparency TransparencyFacts RegistryLog RegistryLogFacts.
From stdpp Require Import vector pretty strings sorting gmap options.
Open Scope string_scope.
Open Scope N_scope.
Open Scope list_scope.

(** ** A concrete world for the witnesses *)

(** A hash of 32 bytes, and a signature that is the key and the hash of the message. *)
Fixpoint le_bytes (k : nat) (n : N) : vec byte k :=
  match k with
  | O => [#]
  | S k => default x00 (Byte.of_N (N.land n 255)) ::: le_bytes k (N.shiftr n 8)
  end.
Definition toy_mask : N := Eval vm_compute in N.ones 256.
Definition toy_sha256 (bytes : list byte) : Hash :=
  le_bytes 32 (foldl (λ acc b, N.land (acc * 257 + Byte.to_N b + 1) toy_mask) 7 bytes).
Definition toy_from_bytes (pk : vec byte 32) : vec byte 32 + string := inl pk.
Definition toy_sign (key : vec byte 32) (message : list byte) : vec byte 64 :=
  key +++ toy_sha256 message.
Definition toy_verify_strict (key : vec byte 32) (message : list byte) (sig : vec byte 64) : bool :=
  bool_decide (vec_to_list sig = vec_to_list (toy_sign key message)).

Definition collision_check (sha256 : list byte → Hash) (inputs : list (list byte)) : bool :=
  let hashed := map (λ x, (x, vec_to_list (sha256 x))) inputs in
  forallb (λ a, forallb (λ b, implb (bool_decide (a.2 = b.2)) (bool_decide (a.1 = b.1))) hashed)
    hashed.

Lemma collision_check_free sha256 inputs :
  collision_check sha256 inputs = true → collision_free sha256 inputs.
Proof.
  unfold collision_check. intros H x y Hx Hy E. rewrite forallb_forall in H.
  assert (Hin : ∀ z, z ∈ inputs → In (z, vec_to_list (sha256 z))
    (map (λ x, (x, vec_to_list (sha256 x))) inputs)).
  { intros z Hz. apply in_map_iff. exists z. by rewrite <- list_elem_of_In. }
  specialize (H _ (Hin x Hx)). rewrite forallb_forall in H. specialize (H _ (Hin y Hy)).
  cbn [fst snd] in H. rewrite bool_decide_true in H by by rewrite E.
  by apply bool_decide_eq_true in H.
Qed.

Definition toy_key : vec byte 32 := toy_sha256 [x01].
Definition toy_key_hex : string := hex_encode (vec_to_list toy_key).
Definition toy_leaf (record : string) : Hash := record_leaf toy_sha256 record.
Definition toy_record (name : string) : string :=
  log_record name "1.0.0" "https://git.example/r" "v1.0.0" "0f3a" "unsigned" "MIT".
Definition toy_log : list string := toy_record <$> ["acme/http"; "acme/tls"; "zeta/core"].
Definition toy_checkpoint (records : list string) : LogCheckpoint :=
  let root := hex_encode (vec_to_list (merkle_root toy_sha256 (toy_leaf <$> records))) in
  let size := N.of_nat (length records) in
  {| cp_tree_size := size; cp_root_hash := root;
     cp_signature := hex_encode (vec_to_list
       (toy_sign toy_key (bytes_of (checkpoint_message size root)))) |}.
Definition toy_inclusion (records : list string) (i : nat) : LogInclusion :=
  let cp := toy_checkpoint records in
  {| incl_index := N.of_nat i; incl_tree_size := cp_tree_size cp;
     incl_root_hash := cp_root_hash cp; incl_record := records !!! i;
     incl_proof := hex_encode ∘ vec_to_list <$>
       inclusion_proof toy_sha256 (toy_leaf <$> records) i |}.
Definition toy_position (name : string) : option nat :=
  match name with "acme/http" => Some 0%nat | "acme/tls" => Some 1%nat | _ => None end.

(** A registry that serves a log, and one advisory, logged as its last record. *)
Definition unsigned_advisory (id signature : string) : Advisory := {|
  adv_id := id; adv_package := "acme/http"; adv_ranges := "<1.0.0"; adv_patched := None;
  adv_severity := "high"; adv_summary := "s"; adv_details := "d"; adv_url := "u";
  adv_withdrawn := false; adv_seq := 0; adv_signature := signature; adv_log_index := Some 3;
  adv_tier := Operator; adv_bundle := None; adv_upstream_id := None;
  adv_upstream_url := None; adv_cvss := None |}.
Definition toy_advisory (id : string) : Advisory :=
  unsigned_advisory id (hex_encode (vec_to_list (toy_sign toy_key
    (canonical_bytes toy_sha256 (unsigned_advisory id "?"))))).
Definition toy_feed : list Advisory := [toy_advisory "NOETA-1"].
Definition toy_feed_head : AdvisoryCheckpoint :=
  let digest := feed_digest toy_sha256 toy_feed in
  {| acp_count := 1; acp_digest := digest;
     acp_signature := hex_encode (vec_to_list (toy_sign toy_key (feed_head_bytes 1 digest))) |}.
Definition toy_full_log : list string :=
  toy_log ++ [canonical_record toy_sha256 (toy_advisory "NOETA-1")].
Definition toy_index (records : list string) : HttpIndex := {|
  log_public_key := inl (Some toy_key_hex);
  log_checkpoint := inl (toy_checkpoint records);
  log_inclusion name _ := inl (toy_inclusion records <$> toy_position name);
  log_consistency m _ := inl {| cons_proof := hex_encode ∘ vec_to_list <$>
    consistency_proof toy_sha256 (toy_leaf <$> records) (N.to_nat m) |};
  advisory_public_key := inl (Some toy_key_hex);
  list_advisories := inl toy_feed;
  advisory_checkpoint := inl toy_feed_head;
  advisory_inclusion _ := inl (Some (toy_inclusion records 3))
|}.
Definition toy_package (name : string) : LockedPackage string := {|
  lp_identity := name; lp_version := "1.0.0"; lp_content_hash := "h";
  lp_source := Git "https://git.example/r" (Tag "v1.0.0") "0f3a"; lp_native := None;
  lp_patched := false |}.
Definition toy_graph (names : list string) : ResolvedGraph string :=
  {| rg_locked := toy_package <$> names; rg_registry_identities := list_to_set names |}.
Definition toy_enforce := enforce_transparency toy_sha256 toy_from_bytes toy_verify_strict
  (λ v : string, v).
Definition toy_head (records : list string) : LogTrust :=
  let cp := toy_checkpoint records in
  {| lt_public_key := toy_key_hex; lt_tree_size := cp_tree_size cp;
     lt_root_hash := cp_root_hash cp |}.
Definition toy_coords (name : string) : ReleaseCoords :=
  {| rc_name := name; rc_version := "1.0.0"; rc_url := "https://git.example/r";
     rc_tag := "v1.0.0"; rc_sha := "0f3a"; rc_license := None |}.

Example toy_enforce_accepts :
  toy_enforce (inl (Some (toy_index toy_log))) (toy_graph ["acme/http"; "acme/tls"])
    (Some (toy_head (take 2 toy_log))) = Ok (toy_head toy_log).
Proof. vm_compute. reflexivity. Qed.

Lemma toy_commits records :
  commits toy_sha256 (lt_root_hash (toy_head records)) (lt_tree_size (toy_head records)) records.
Proof. split; [apply hex_to_array_encode|done]. Qed.

(** ** The verifiers *)

(** C21. An inclusion proof for position [m] of a log of leaves is accepted exactly when the
    leaf is the one at [m] and the proof is its audit path, unless two of the byte strings
    that the log and the check hash collide under SHA-256. *)
Theorem accepted_inclusion_is_the_audit_path sha256 leaf m leaves proof :
  N.of_nat (length leaves) ≤ 2 ^ 63 →
  collision_free sha256 (tree_inputs sha256 (tree_of leaves) ++
    path_inputs sha256 leaf (N.of_nat m) (N.of_nat (length leaves)) (reverse proof)) →
  verify_inclusion sha256 leaf (N.of_nat m) (N.of_nat (length leaves)) proof
    (merkle_root sha256 leaves) = Some true ↔
  leaves !! m = Some leaf ∧ proof = inclusion_proof sha256 leaves m.
Proof. apply verify_inclusion_iff. Qed.

Lemma accepted_inclusion_is_the_audit_path_witness :
  let leaves := toy_leaf <$> toy_log in
  let proof := inclusion_proof toy_sha256 leaves 1 in
  verify_inclusion toy_sha256 (toy_leaf (toy_record "acme/tls")) (N.of_nat 1)
    (N.of_nat (length leaves)) proof (merkle_root toy_sha256 leaves) = Some true ↔
  leaves !! 1%nat = Some (toy_leaf (toy_record "acme/tls")) ∧
  proof = inclusion_proof toy_sha256 leaves 1.
Proof.
  intros leaves proof. apply (accepted_inclusion_is_the_audit_path toy_sha256 _ 1 leaves proof).
  - vm_compute. discriminate.
  - apply collision_check_free. vm_compute. reflexivity.
Defined.

(** C22. What a consistency proof from a log of [m] leaves to the whole log is accepted for. From
    [m = 0] to a log with leaves, any older root and any proof; from the log to itself, exactly
    its root and the empty proof; for [m] in between, exactly when the older root is that of the
    first [m] leaves and the proof ends in the honest one (hashes put before it are not looked
    at), unless two byte strings hashed on the way collide; never from a larger [m]. *)
Theorem accepted_consistency_is_the_subproof sha256 m leaves proof root_m :
  N.of_nat (length leaves) ≤ 2 ^ 63 →
  collision_free sha256 (tree_inputs sha256 (tree_of leaves) ++
    consistency_inputs sha256 (reverse proof) (N.of_nat m) (N.of_nat (length leaves)) true root_m) →
  verify_consistency sha256 (N.of_nat m) (N.of_nat (length leaves)) proof root_m
    (merkle_root sha256 leaves) = Some true ↔
  m = 0%nat ∧ (0 < length leaves)%nat ∨
  m = length leaves ∧ root_m = merkle_root sha256 leaves ∧ proof = [] ∨
  (1 ≤ m < length leaves)%nat ∧ root_m = merkle_root sha256 (take m leaves) ∧
    consistency_proof sha256 leaves m `suffix_of` proof.
Proof.
  intros H63 Hc. destruct (decide (1 ≤ m < length leaves)%nat) as [Hm|Hm].
  { rewrite verify_consistency_iff by done. split; [by right; right|].
    intros [[-> ?]|[[-> _]|[_ H]]]; [lia|lia|done]. }
  unfold verify_consistency. destruct (N.ltb_spec (N.of_nat (length leaves)) (N.of_nat m)).
  { split; [done|]. intros [[-> ?]|[[-> _]|[? _]]]; lia. }
  destruct (N.eqb_spec (N.of_nat m) (N.of_nat (length leaves))) as [E|E].
  { apply Nat2N.inj in E as ->. split; [|intros [[? ?]|[(_ & -> & ->)|[? _]]]; [lia| |lia]].
    - intros [= [->%bool_decide_eq_true ->%bool_decide_eq_true]%andb_true_iff]. by right; left.
    - by rewrite !bool_decide_true. }
  destruct (N.eqb_spec (N.of_nat m) 0); [|lia]. split; [left; lia|done].
Qed.

Lemma accepted_consistency_is_the_subproof_witness :
  let leaves := toy_leaf <$> toy_log in
  let proof := toy_key :: consistency_proof toy_sha256 leaves 2 in
  let root_m := merkle_root toy_sha256 (take 2 leaves) in
  verify_consistency toy_sha256 (N.of_nat 2) (N.of_nat (length leaves)) proof root_m
    (merkle_root toy_sha256 leaves) = Some true ↔
  2%nat = 0%nat ∧ (0 < 3)%nat ∨
  2%nat = 3%nat ∧ root_m = merkle_root toy_sha256 leaves ∧ proof = [] ∨
  (1 ≤ 2 < 3)%nat ∧ root_m = merkle_root toy_sha256 (take 2 leaves) ∧
    consistency_proof toy_sha256 leaves 2 `suffix_of` proof.
Proof.
  intros leaves proof root_m.
  apply (accepted_consistency_is_the_subproof toy_sha256 2 leaves proof root_m).
  - vm_compute. discriminate.
  - apply collision_check_free. vm_compute. reflexivity.
Defined.

(** C35. Both verifiers return on every tree of at most [2^63] leaves, whatever the proof; on
    a larger one [largest_pow2_below] never leaves its loop, and a proof with a hash in it
    hangs them. *)
Theorem verifiers_return_up_to_2_63 sha256 leaf m n proof root_m root_n :
  (n ≤ 2 ^ 63 → is_Some (verify_inclusion sha256 leaf m n proof root_n) ∧
                is_Some (verify_consistency sha256 m n proof root_m root_n)) ∧
  (2 ^ 63 < n → (∀ fuel, pow2_loop fuel n 1 = None) ∧
    (m < n → proof ≠ [] → verify_inclusion sha256 leaf m n proof root_n = None) ∧
    (1 ≤ m < n → proof ≠ [] → verify_consistency sha256 m n proof root_m root_n = None)).
Proof.
  split.
  - intros H. split; [by apply verify_inclusion_returns|by apply verify_consistency_returns].
  - intros H. split_and!; [|by apply verify_inclusion_hangs|by apply verify_consistency_hangs].
    intros fuel. by apply (pow2_loop_hangs fuel n 0).
Qed.

Lemma verifiers_return_up_to_2_63_witness :
  is_Some (verify_inclusion toy_sha256 toy_key 5 (2 ^ 63) [toy_key] toy_key) ∧
  verify_inclusion toy_sha256 toy_key 5 (2 ^ 63 + 1) [toy_key] toy_key = None.
Proof.
  split.
  - apply (verifiers_return_up_to_2_63 toy_sha256 toy_key 5 (2 ^ 63) [toy_key] toy_key toy_key).
    lia.
  - apply (verifiers_return_up_to_2_63 toy_sha256 toy_key 5 (2 ^ 63 + 1) [toy_key] toy_key toy_key);
      [lia|lia|discriminate].
Defined.

(** ** What is signed and what is logged *)

(** The signed messages are unambiguous: a checkpoint's message determines its size and
    root, a feed head's its count and digest, and none of the two is the other or an
    advisory's record. *)
Theorem signed_messages_are_unambiguous sha256 size root size' root' a :
  (checkpoint_message size root = checkpoint_message size' root' → size = size' ∧ root = root') ∧
  (feed_head_bytes size root = feed_head_bytes size' root' → size = size' ∧ root = root') ∧
  bytes_of (checkpoint_message size root) ≠ feed_head_bytes size' root' ∧
  bytes_of (checkpoint_message size root) ≠ canonical_bytes sha256 a ∧
  feed_head_bytes size root ≠ canonical_bytes sha256 a.
Proof.
  assert (Hmsg : ∀ p p' (n n' : N) r r', no_newline p = true → no_newline p' = true →
    (p +:+ newline +:+ pretty n +:+ newline +:+ r +:+ newline)%string =
    (p' +:+ newline +:+ pretty n' +:+ newline +:+ r' +:+ newline)%string →
    p = p' ∧ n = n' ∧ r = r').
  { intros p p' n n' r r' Hp Hp' E. apply line_inj in E as [-> E]; [|done..].
    apply line_inj in E as [En E]; [|apply pretty_no_newline..].
    apply newline_end_inj in E as ->. by apply (inj pretty) in En as ->. }
  unfold checkpoint_message, feed_head_bytes, canonical_bytes, canonical_record. split_and!.
  - intros E. by apply Hmsg in E as (_ & ? & ?).
  - intros E. apply bytes_of_inj, Hmsg in E as (_ & ? & ?); done.
  - intros E. apply bytes_of_inj, line_inj in E as [E _]; done.
  - intros E. apply bytes_of_inj, line_inj in E as [E _]; done.
  - intros E. apply bytes_of_inj, line_inj in E as [E _]; done.
Qed.

(** The record the log keeps for a release, read back line by line, matches the
    release's own coordinates and no others, when no field holds a newline. *)
Theorem log_record_names_one_release name version url tag sha provenance license coords :
  forallb no_newline [name; version; url; tag; sha; provenance; license] = true →
  coords_match coords (split_lines (log_record name version url tag sha provenance license)) = true ↔
  (rc_name coords, rc_version coords, rc_url coords, rc_tag coords, rc_sha coords) =
  (name, version, url, tag, sha).
Proof.
  intros H. cbn [forallb] in H. rewrite !andb_true_iff in H.
  destruct H as (H1 & H2 & H3 & H4 & H5 & H6 & H7 & _).
  unfold log_record. rewrite coords_match_binds, !split_lines_cons by done.
  change (license +:+ newline)%string with (license +:+ newline +:+ EmptyString)%string.
  rewrite split_lines_cons by done. split.
  - intros [rest E]. congruence.
  - intros E. injection E as -> -> -> -> ->. eauto.
Qed.

Lemma log_record_names_one_release_witness :
  coords_match (toy_coords "acme/http") (split_lines (toy_record "acme/http")) = true ↔
  ("acme/http", "1.0.0", "https://git.example/r", "v1.0.0", "0f3a")%string =
  ("acme/http", "1.0.0", "https://git.example/r", "v1.0.0", "0f3a")%string.
Proof.
  apply (log_record_names_one_release "acme/http" "1.0.0" "https://git.example/r" "v1.0.0"
    "0f3a" "unsigned" "MIT" (toy_coords "acme/http")). reflexivity.
Defined.

(** ** Resolving under [require_transparency] *)

(** C18. A resolve that accepts a head has every registry release it locked in the log that
    head commits to: a record of the log spells the release's name, version, address, tag and
    commit, unless two byte strings hashed on the way collide. *)
Theorem enforced_release_is_logged sha256 {VerifyingKey Version : Type} from_bytes
    (verify_strict : VerifyingKey → list byte → vec byte 64 → bool)
    (version_to_string : Version → string) index graph pinned head records pkg coords :
  enforce_transparency sha256 from_bytes verify_strict version_to_string (inl (Some index))
    graph pinned = Ok head →
  commits sha256 (lt_root_hash head) (lt_tree_size head) records →
  pkg ∈ rg_locked graph →
  release_coords version_to_string (rg_registry_identities graph) pkg = Some coords →
  collision_free sha256 (log_inputs sha256 records ++ release_inputs sha256 index coords) →
  ∃ record rest, record ∈ records ∧
    split_lines record = "noeta-transparency-log-v1"%string :: rc_name coords ::
      rc_version coords :: rc_url coords :: rc_tag coords :: rc_sha coords :: rest.
Proof.
  intros (index' & cp & [= <-] & _ & Hs & Hr & _ & _ & Hrel)%enforce_inv Hc Hin Hco Hfree.
  rewrite check_releases_iff in Hrel. rewrite Hs, Hr in Hc.
  destruct (inclusion_at_sound _ _ _ _ _ (Hrel _ _ Hin Hco) Hc Hfree) as (record & H & Hm).
  apply coords_match_binds in Hm as [rest Hm]. eauto.
Qed.

Lemma enforced_release_is_logged_witness :
  ∃ record rest, record ∈ toy_log ∧
    split_lines record = "noeta-transparency-log-v1"%string :: "acme/http"%string ::
      "1.0.0"%string :: "https://git.example/r"%string :: "v1.0.0"%string :: "0f3a"%string :: rest.
Proof.
  apply (enforced_release_is_logged toy_sha256 toy_from_bytes toy_verify_strict (λ v : string, v)
    (toy_index toy_log) (toy_graph ["acme/http"%string]) None (toy_head toy_log) toy_log
    (toy_package "acme/http") (toy_coords "acme/http")).
  - vm_compute. reflexivity.
  - apply toy_commits.
  - left.
  - reflexivity.
  - apply collision_check_free. vm_compute. reflexivity.
Defined.

(** C19. Each head a project accepts, one resolve after another, is the checkpoint served that
    time, with a signature over its size and root that verifies under the head's key; that is
    the pinned key, when there is a pin, and the same key for all. The heads commit to one
    growing log: an older log is a prefix of every later one, whatever the registries served in
    between, unless two byte strings hashed on the way collide. *)
Theorem resolves_see_one_growing_log sha256 {VerifyingKey Version : Type} from_bytes
    (verify_strict : VerifyingKey → list byte → vec byte 64 → bool)
    (version_to_string : Version → string) pinned runs heads logs :
  resolve_all sha256 from_bytes verify_strict version_to_string pinned runs = Ok heads →
  Forall2 (λ head records, commits sha256 (lt_root_hash head) (lt_tree_size head) records)
    heads logs →
  collision_free sha256 (mjoin (log_inputs sha256 <$> logs) ++
    history_inputs sha256 pinned runs heads) →
  Forall2 (λ run head, signed_head from_bytes verify_strict run.1 head) runs heads ∧
  (∀ p, pinned = Some p → Forall (λ head, lt_public_key head = lt_public_key p) heads) ∧
  ∀ i j a b old new, (i < j)%nat → heads !! i = Some a → logs !! i = Some old →
    heads !! j = Some b → logs !! j = Some new →
    lt_public_key b = lt_public_key a ∧ lt_tree_size a ≤ lt_tree_size b ∧ old `prefix_of` new.
Proof.
  intros H Hl Hc. destruct (history_signed _ _ _ _ _ _ _ H) as [Hsigned Hkeys].
  split_and!; [done|done|]. intros i j a b old new Hij Ha Ho Hb Hn.
  destruct (history_sorted sha256 from_bytes verify_strict version_to_string runs _ _ _ H Hl Hc)
    as [Hs%Sorted_StronglySorted _]; [|exact head_extends_trans].
  assert (Hzip : ∀ n h l, heads !! n = Some h → logs !! n = Some l →
    zip heads logs !! n = Some (h, l)) by (intros n h l E1 E2; by rewrite lookup_zip_with, E1, E2).
  apply (StronglySorted_lookup _ _ i j (a, old) (b, new) Hs Hij); auto.
Qed.

Lemma resolves_see_one_growing_log_witness :
  signed_head toy_from_bytes toy_verify_strict (toy_index toy_log) (toy_head toy_log) ∧
  2 ≤ 3 ∧ take 2 toy_log `prefix_of` toy_log.
Proof.
  destruct (resolves_see_one_growing_log toy_sha256 toy_from_bytes toy_verify_strict
    (λ v : string, v) None
    [(toy_index (take 2 toy_log), toy_graph ["acme/http"%string]);
     (toy_index toy_log, toy_graph ["acme/http"%string; "acme/tls"%string])]
    [toy_head (take 2 toy_log); toy_head toy_log] [take 2 toy_log; toy_log])
    as (Hsigned & _ & Hgrow).
  - vm_compute. reflexivity.
  - constructor; [apply toy_commits|constructor; [apply toy_commits|constructor]].
  - apply collision_check_free. vm_compute. reflexivity.
  - split; [exact (Forall2_lookup_lr _ _ _ 1 _ _ Hsigned eq_refl eq_refl)|].
    exact (proj2 (Hgrow 0%nat 1%nat _ _ _ _ (le_n 1) eq_refl eq_refl eq_refl eq_refl)).
Defined.

(** C20. A registry that serves an honest log is never refused: if its checkpoint is signed
    with the pinned key, the pinned head commits to a prefix of the log, and every locked
    registry release has its record there, the resolve accepts the log's head. *)
Theorem honest_registry_is_accepted sha256 {VerifyingKey Version : Type} from_bytes
    (verify_strict : VerifyingKey → list byte → vec byte 64 → bool)
    (version_to_string : Version → string) index key cp records pinned graph :
  serves sha256 from_bytes verify_strict index key cp records pinned
    (omap (release_coords version_to_string (rg_registry_identities graph)) (rg_locked graph)) →
  N.of_nat (length records) ≤ 2 ^ 63 →
  enforce_transparency sha256 from_bytes verify_strict version_to_string (inl (Some index))
    graph (fst <$> pinned) =
  Ok {| lt_public_key := key; lt_tree_size := cp_tree_size cp; lt_root_hash := cp_root_hash cp |}.
Proof.
  intros Hs H63.
  assert (Hkey : log_key index (lt_public_key <$> (fst <$> pinned)) = Ok key).
  { destruct pinned as [[p old]|]; cbn.
    - by destruct (serves_consistency _ _ _ _ _ _ _ _ _ Hs p old eq_refl) as [-> _].
    - by rewrite (serves_key _ _ _ _ _ _ _ _ _ Hs). }
  assert (Hext : match fst <$> pinned with
      | Some p => check_append_only sha256 index p cp
      | None => Ok tt
      end = Ok tt).
  { destruct pinned as [[p old]|]; [by eapply honest_extension|done]. }
  assert (Hrel : check_releases sha256 version_to_string index (rg_registry_identities graph) cp
    (rg_locked graph) = Ok tt).
  { apply check_releases_iff. intros pkg coords Hin Hco.
    eapply honest_inclusion; [done|done|by apply list_elem_of_omap; eauto|].
    unfold release_coords in Hco. case_decide; [|done].
    destruct (lp_source pkg) as [|? [] ?]; try done. by injection Hco as <-. }
  unfold enforce_transparency. cbn [answer try ok_or Ok]. rewrite Hkey. cbn [try Ok].
  rewrite (serves_checkpoint _ _ _ _ _ _ _ _ _ Hs). cbn [answer try].
  rewrite (serves_signed _ _ _ _ _ _ _ _ _ Hs). cbn [try Ok negb]. rewrite Hext. cbn [try Ok].
  by rewrite Hrel.
Qed.

Lemma honest_registry_is_accepted_witness :
  toy_enforce (inl (Some (toy_index toy_log)))
    (toy_graph ["acme/http"%string; "acme/tls"%string])
    (fst <$> Some (toy_head (take 2 toy_log), take 2 toy_log)) =
  Ok {| lt_public_key := toy_key_hex; lt_tree_size := cp_tree_size (toy_checkpoint toy_log);
        lt_root_hash := cp_root_hash (toy_checkpoint toy_log) |}.
Proof.
  apply (honest_registry_is_accepted toy_sha256 toy_from_bytes toy_verify_strict
    (λ v : string, v) (toy_index toy_log) toy_key_hex (toy_checkpoint toy_log) toy_log).
  - constructor.
    + reflexivity.
    + reflexivity.
    + apply (toy_commits toy_log).
    + vm_compute. reflexivity.
    + intros p old E. injection E as <- <-. split_and!; [done|apply toy_commits| |vm_compute; reflexivity].
      exists (drop 2 toy_log). reflexivity.
    + intros coords Hin. change (coords ∈ [toy_coords "acme/http"; toy_coords "acme/tls"]) in Hin.
      rewrite !elem_of_cons in Hin. destruct Hin as [->|[->|Hin]].
      * exists 0%nat. eexists. split_and!; vm_compute; reflexivity.
      * exists 1%nat. eexists. split_and!; vm_compute; reflexivity.
      * by apply elem_of_nil in Hin.
  - vm_compute. discriminate.
Defined.

(** ** The advisory feed and its monitor *)

(** The digest a feed's head signs does not depend on the order the advisories are served
    in, as long as their ids differ. *)
Theorem feed_digest_ignores_order sha256 advisories served :
  NoDup (adv_id <$> advisories) → advisories ≡ₚ served →
  feed_digest sha256 served = feed_digest sha256 advisories.
Proof. intros Hd Hp. unfold feed_digest. by rewrite (sort_by_id_unique _ _ Hd Hp). Qed.

Lemma feed_digest_ignores_order_witness :
  feed_digest toy_sha256 [toy_advisory "B"; toy_advisory "A"] =
  feed_digest toy_sha256 [toy_advisory "A"; toy_advisory "B"].
Proof.
  apply (feed_digest_ignores_order toy_sha256).
  - apply (bool_decide_unpack _). vm_compute. exact I.
  - apply Permutation_swap.
Defined.

(** A run of the monitor that ends well has lost nothing since the last one: every id seen
    for the scope is still that of a served advisory of the scope with a valid signature, the
    feed and the log have not shrunk, and both pinned keys stay. *)
Theorem clean_watch_keeps_what_was_seen sha256 {VerifyingKey : Type} from_bytes
    (verify_strict : VerifyingKey → list byte → vec byte 64 → bool) scope base index prev next :
  watch_one_scope sha256 from_bytes verify_strict scope base index (Some prev) =
    Some (SUCCESS, Some next) →
  ws_base prev = base →
  (∀ id, id ∈ ws_seen prev → id ∈ ws_seen next) ∧
  (∀ id, id ∈ ws_seen next → ∃ served a key, list_advisories index = inl served ∧ a ∈ served ∧
    adv_id a = id ∧ of_scope scope a = true ∧ ws_advisory_key next = Some key ∧
    advisory_verify sha256 from_bytes verify_strict a key = Ok true) ∧
  (∀ k, ws_advisory_key prev = Some k → ws_advisory_key next = Some k) ∧
  (∀ k, ws_log_key prev = Some k → ws_log_key next = Some k) ∧
  (∀ n, ws_feed_count prev = Some n → ∃ n', ws_feed_count next = Some n' ∧ n ≤ n') ∧
  (∀ n r, ws_log_tree_size prev = Some n → ws_log_root prev = Some r →
    ∃ n', ws_log_tree_size next = Some n' ∧ n ≤ n').
Proof.
  unfold watch_one_scope. cbn [mbind option_bind]. intros H Hb.
  rewrite bool_decide_true in H by done. cbn [mbind option_bind] in H.
  destruct (fetch_advisories _ _ _ _ _) as [[feed|e]|] eqn:Ef; cbn [mbind option_bind] in H;
    [|done..].
  apply fetch_inv in Ef as (Hl & Hk & Hv & _). rewrite verify_all_iff in Hv.
  destruct (watch_log _ _ _ _ _) as [[log_drift [[k n] r]]|] eqn:Ew; cbn [mbind option_bind] in H;
    [|done].
  destruct (verify_advisories_logged _ _ _ _ _ _) as [logged|]; cbn [mbind option_bind] in H;
    [|done].
  match type of H with Some (if 0 <? ?d then _ else _, _) = _ => destruct (0 <? d) eqn:Ed end;
    [done|]. apply N.ltb_ge in Ed. injection H as <-.
  match type of Ed with watch_feed ?p ?ids ?c + _ + _ ≤ 0 =>
    assert (Hfeed : watch_feed p ids c = 0) by lia end.
  assert (log_drift = 0) as -> by lia. apply watch_feed_zero in Hfeed as [Hseen Hcount].
  cbn [ws_seen ws_advisory_key ws_log_key ws_feed_count ws_log_tree_size ws_log_root].
  split_and!.
  - done.
  - intros id. rewrite elem_of_ids. intros [Hn|(a & Ha & <-)]; [by apply elem_of_nil in Hn|].
    apply list_elem_of_filter in Ha as [Hs Ha]. do 3 eexists. split_and!; eauto.
  - intros key Hkey. f_equal. by apply Hk.
  - intros key. by destruct (watch_log_pins _ _ _ _ _ _ _ key Ew) as [Hp _].
  - eauto.
  - intros m root Hm Hr. destruct (watch_log_pins _ _ _ _ _ _ _ EmptyString Ew) as [_ Hp].
    by apply (Hp m root).
Qed.

Definition toy_state (key : option string) (size : N) (root : string) : WatchState := {|
  ws_base := "b"; ws_advisory_key := Some toy_key_hex; ws_log_key := key;
  ws_log_tree_size := Some size; ws_log_root := Some root; ws_feed_count := Some 1;
  ws_seen := ["NOETA-1"%string] |}.
Definition toy_watch := watch_one_scope toy_sha256 toy_from_bytes toy_verify_strict "acme" "b".

Lemma clean_watch_keeps_what_was_seen_witness :
  let prev := toy_state (Some toy_key_hex) 3 (cp_root_hash (toy_checkpoint toy_log)) in
  let next := toy_state (Some toy_key_hex) 4 (cp_root_hash (toy_checkpoint toy_full_log)) in
  "NOETA-1"%string ∈ ws_seen next.
Proof.
  intros prev next.
  refine (proj1 (clean_watch_keeps_what_was_seen toy_sha256 toy_from_bytes toy_verify_strict
    "acme" "b" (toy_index toy_full_log) prev next _ eq_refl) "NOETA-1"%string _).
  - vm_compute. reflexivity.
  - left.
Defined.

(** A checkpoint of the pinned size with another root is history rewritten: a resolve
    refuses it, but the monitor compares no roots when the sizes are equal, reports nothing
    and pins the new root. *)
Theorem monitor_accepts_a_rewritten_root sha256 {VerifyingKey : Type} from_bytes
    (verify_strict : VerifyingKey → list byte → vec byte 64 → bool) index key root cp :
  verify_checkpoint from_bytes verify_strict key (cp_tree_size cp) (cp_root_hash cp)
    (cp_signature cp) = Ok true →
  hex_to_array 32 root ≠ hex_to_array 32 (cp_root_hash cp) →
  watch_checkpoint sha256 from_bytes verify_strict index key
    (Some key, Some (cp_tree_size cp), Some root) cp =
    Some (0, (Some key, Some (cp_tree_size cp), Some (cp_root_hash cp))) ∧
  check_append_only sha256 index
    {| lt_public_key := key; lt_tree_size := cp_tree_size cp; lt_root_hash := root |} cp ≠ Ok tt.
Proof.
  intros Hs Hr. split.
  - unfold watch_checkpoint. rewrite Hs. cbn [mbind option_bind Ok]. by rewrite N.ltb_irrefl.
  - intros (_ & served & rf & rt & proof & _ & Hf & Ht & _ & Hv)%check_append_only_inv.
    cbn [lt_root_hash lt_tree_size] in *. unfold verify_consistency in Hv.
    rewrite N.ltb_irrefl, N.eqb_refl in Hv. injection Hv as [_ Hv]%andb_true_iff.
    apply bool_decide_eq_true in Hv as ->. congruence.
Qed.

Lemma monitor_accepts_a_rewritten_root_witness :
  let cp := toy_checkpoint (toy_record <$> ["acme/http"; "evil/tls"; "zeta/core"]%string) in
  let root := cp_root_hash (toy_checkpoint toy_log) in
  watch_checkpoint toy_sha256 toy_from_bytes toy_verify_strict (toy_index toy_log) toy_key_hex
    (Some toy_key_hex, Some 3, Some root) cp =
    Some (0, (Some toy_key_hex, Some 3, Some (cp_root_hash cp))) ∧
  check_append_only toy_sha256 (toy_index toy_log)
    {| lt_public_key := toy_key_hex; lt_tree_size := 3; lt_root_hash := root |} cp ≠ Ok tt.
Proof.
  intros cp root.
  apply (monitor_accepts_a_rewritten_root toy_sha256 toy_from_bytes toy_verify_strict
    (toy_index toy_log) toy_key_hex root cp).
  - vm_compute. reflexivity.
  - assert (Hne : bool_decide (hex_to_array 32 root = hex_to_array 32 (cp_root_hash cp)) = false)
      by (vm_compute; reflexivity).
    by apply bool_decide_eq_false in Hne.
Defined.

(** Checks of the monitor that fail with an error are passed over: when the extension of a
    larger log cannot be verified the new head is pinned all the same, and when an advisory's
    inclusion proof is refused a first run still ends well. *)
Theorem monitor_passes_over_failed_checks sha256 {VerifyingKey : Type} from_bytes
    (verify_strict : VerifyingKey → list byte → vec byte 64 → bool) scope base index key size
    root cp feed log_key log_size log_root e :
  (verify_checkpoint from_bytes verify_strict key (cp_tree_size cp) (cp_root_hash cp)
     (cp_signature cp) = Ok true →
   size < cp_tree_size cp →
   verify_log_extension sha256 index size (cp_tree_size cp) root (cp_root_hash cp) = Err e →
   watch_checkpoint sha256 from_bytes verify_strict index key (Some key, Some size, Some root) cp =
     Some (0, (Some key, Some (cp_tree_size cp), Some (cp_root_hash cp)))) ∧
  (fetch_advisories sha256 from_bytes verify_strict index None = Ok feed →
   watch_log sha256 from_bytes verify_strict index (None, None, None) =
     Some (0, (log_key, log_size, log_root)) →
   verify_advisories_logged sha256 from_bytes verify_strict index
     (filter (λ a, of_scope scope a = true) (va_advisories feed)) log_key = Err e →
   ∃ next, watch_one_scope sha256 from_bytes verify_strict scope base index None =
     Some (SUCCESS, Some next)).
Proof.
  split.
  - intros Hs Hlt He. unfold watch_checkpoint. rewrite Hs. cbn [mbind option_bind Ok].
    destruct (cp_tree_size cp <? size) eqn:E1; [apply N.ltb_lt in E1; lia|].
    destruct (size <? cp_tree_size cp) eqn:E2; [|apply N.ltb_ge in E2; lia]. by rewrite He.
  - intros Hf Hw He. unfold watch_one_scope. cbn [mbind option_bind]. rewrite Hf.
    cbn [mbind option_bind Ok]. rewrite Hw. cbn [mbind option_bind]. rewrite He.
    cbn [mbind option_bind Err]. by eexists.
Qed.

(** A registry that proves nothing: no consistency, and another record's path. *)
Definition lying_index : HttpIndex := {|
  log_public_key := inl (Some toy_key_hex);
  log_checkpoint := inl (toy_checkpoint toy_full_log);
  log_inclusion _ _ := inl None;
  log_consistency _ _ := inr (Network "down");
  advisory_public_key := inl (Some toy_key_hex);
  list_advisories := inl toy_feed;
  advisory_checkpoint := inl toy_feed_head;
  advisory_inclusion _ := inl (Some (toy_inclusion toy_full_log 0))
|}.

Lemma monitor_passes_over_failed_checks_witness :
  ∃ next, toy_watch lying_index None = Some (SUCCESS, Some next).
Proof.
  eapply (monitor_passes_over_failed_checks toy_sha256 toy_from_bytes toy_verify_strict "acme" "b"
    lying_index EmptyString 0 EmptyString (toy_checkpoint [])
    {| va_public_key := toy_key_hex; va_count := 1; va_digest := acp_digest toy_feed_head;
       va_advisories := toy_feed |} (Some toy_key_hex) (Some 4)
    (Some (cp_root_hash (toy_checkpoint toy_full_log)))); vm_compute; reflexivity.
Defined.
