(* ===== verification/Words.v ===== *)
(** Machine integers: the erased 64-bit word of [int] and of the fixed widths, its masking,
    and the bit and conversion methods
    ([crates/noeta-ext-abi/src/ring1.rs]).

    An [i64] is a [Z] in its range, a [u64] one in [0 .. 2^64); [as_i64] and [as_u64] are
    the casts.  The methods of [i64] and [u64] that the code calls are written on bits. *)
From Stdlib Require Import Strings.Ascii Strings.String.
From S2P Require Import Prelude.
From stdpp Require Import options.
Open Scope Z_scope.

(** ** Rust's integers *)

Definition as_u64 (z : Z) : Z := z mod 2 ^ 64.
Definition as_i64 (z : Z) : Z := (z + 2 ^ 63) mod 2 ^ 64 - 2 ^ 63.

Definition wrapping_add (a b : Z) : Z := as_i64 (a + b).
Definition wrapping_sub (a b : Z) : Z := as_i64 (a - b).
Definition wrapping_mul (a b : Z) : Z := as_i64 (a * b).
Definition wrapping_neg (a : Z) : Z := as_i64 (- a).
Definition wrapping_div (a b : Z) : Z := as_i64 (Z.quot a b).
Definition wrapping_rem (a b : Z) : Z := as_i64 (Z.rem a b).

(** [i64 << n] and [i64 >> n], [u64 << n], for [n < 64]. *)
Definition shl_i64 (a n : Z) : Z := as_i64 (Z.shiftl a n).
Definition shr_i64 (a n : Z) : Z := Z.shiftr a n.
Definition shl_u64 (a n : Z) : Z := as_u64 (Z.shiftl a n).

(** The bit methods of [u64], over the low [n] bits. *)
Fixpoint count_bits (n : nat) (u : Z) : Z :=
  match n with
  | O => 0
  | S n => Z.b2z (Z.testbit u (Z.of_nat n)) + count_bits n u
  end.
Fixpoint zeros_from_top (n : nat) (u : Z) : Z :=
  match n with
  | O => 0
  | S n => if Z.testbit u (Z.of_nat n) then 0 else 1 + zeros_from_top n u
  end.
Fixpoint zeros_from (n : nat) (i u : Z) : Z :=
  match n with
  | O => 0
  | S n => if Z.testbit u i then 0 else 1 + zeros_from n (i + 1) u
  end.
Fixpoint mirror_bits (n : nat) (u : Z) : Z :=
  match n with
  | O => 0
  | S n => Z.lor (Z.shiftl (Z.b2z (Z.testbit u (Z.of_nat n))) (63 - Z.of_nat n)) (mirror_bits n u)
  end.
Fixpoint mirror_bytes (n : nat) (u : Z) : Z :=
  match n with
  | O => 0
  | S n =>
      Z.lor (Z.shiftl (Z.land (Z.shiftr u (8 * Z.of_nat n)) 255) (8 * (7 - Z.of_nat n)))
        (mirror_bytes n u)
  end.
Definition count_ones (u : Z) : Z := count_bits 64 u.
Definition leading_zeros (u : Z) : Z := zeros_from_top 64 u.
Definition trailing_zeros (u : Z) : Z := zeros_from 64 0 u.
Definition reverse_bits (u : Z) : Z := mirror_bits 64 u.
Definition swap_bytes (u : Z) : Z := mirror_bytes 8 u.
Definition rotate_left (u n : Z) : Z := as_u64 (Z.lor (Z.shiftl u n) (Z.shiftr u (64 - n))).
Definition rotate_right (u n : Z) : Z := as_u64 (Z.lor (Z.shiftr u n) (Z.shiftl u (64 - n))).

(** ** Widths *)

(** [mask_to_width].  The fixed widths are 8, 16, 32 and 64. *)
Definition mask_to_width (value : Z) (signed : bool) (bits : Z) : Z :=
  if 64 <=? bits then value
  else if signed then
    let shift := 64 - bits in shr_i64 (shl_i64 value shift) shift
  else as_i64 (Z.land (as_u64 value) (2 ^ bits - 1)).

(** [int_width_range], on [i128]. *)
Definition int_width_range (signed : bool) (bits : Z) : Z * Z :=
  if signed then (- 2 ^ (bits - 1), 2 ^ (bits - 1) - 1) else (0, 2 ^ bits - 1).

(** ** The methods on [int] *)

(** [IntMethod]. *)
Inductive IntMethod :=
  | CountOnes | CountZeros | LeadingZeros | TrailingZeros
  | RotateLeft | RotateRight | ReverseBits | SwapBytes
  | Convert (signed : bool) (bits : Z)
  | CheckedConvert (src_signed signed : bool) (bits : Z).
#[export] Instance IntMethod_eq_dec : EqDecision IntMethod.
Proof. solve_decision. Defined.

(** [int_destination_from_suffix]. *)
Definition int_destination_from_suffix (rest : string) : option (bool * Z) :=
  if bool_decide (rest = "int"%string) then Some (true, 64) else
  match rest with
  | EmptyString => None
  | String c rest =>
      signed ← (if bool_decide (c = "i"%char) then Some true
                else if bool_decide (c = "u"%char) then Some false else None);
      bits ← (if bool_decide (rest = "8"%string) then Some 8
              else if bool_decide (rest = "16"%string) then Some 16
              else if bool_decide (rest = "32"%string) then Some 32
              else if bool_decide (rest = "64"%string) then Some 64 else None);
      Some (signed, bits)
  end.

(** [str::strip_prefix]. *)
Fixpoint strip_prefix (p s : string) : option string :=
  match p, s with
  | EmptyString, _ => Some s
  | String a p, String b s => if bool_decide (a = b) then strip_prefix p s else None
  | String _ _, EmptyString => None
  end.

(** [IntMethod::conversion_from_name], [IntMethod::from_name], [IntMethod::arity]. *)
Definition conversion_from_name (name : string) : option IntMethod :=
  match strip_prefix "checked_to_" name with
  | Some rest =>
      '(signed, bits) ← int_destination_from_suffix rest;
      Some (CheckedConvert true signed bits)
  | None =>
      rest ← strip_prefix "to_" name;
      '(signed, bits) ← int_destination_from_suffix rest;
      Some (Convert signed bits)
  end.
Definition from_name (name : string) : option IntMethod :=
  if bool_decide (name = "count_ones"%string) then Some CountOnes
  else if bool_decide (name = "count_zeros"%string) then Some CountZeros
  else if bool_decide (name = "leading_zeros"%string) then Some LeadingZeros
  else if bool_decide (name = "trailing_zeros"%string) then Some TrailingZeros
  else if bool_decide (name = "rotate_left"%string) then Some RotateLeft
  else if bool_decide (name = "rotate_right"%string) then Some RotateRight
  else if bool_decide (name = "reverse_bits"%string) then Some ReverseBits
  else if bool_decide (name = "swap_bytes"%string) then Some SwapBytes
  else conversion_from_name name.
Definition arity (m : IntMethod) : nat :=
  match m with RotateLeft | RotateRight => 1 | _ => 0 end.

(** [int_method]; [None] is the [unreachable!] of a checked conversion. *)
Definition int_method (recv : Z) (method : IntMethod) (arg : Z) : option Z :=
  let u := as_u64 recv in
  match method with
  | CountOnes => Some (count_ones u)
  | CountZeros => Some (64 - count_ones u)
  | LeadingZeros => Some (leading_zeros u)
  | TrailingZeros => Some (trailing_zeros u)
  | RotateLeft => Some (as_i64 (rotate_left u (Z.land (as_u64 arg) 63)))
  | RotateRight => Some (as_i64 (rotate_right u (Z.land (as_u64 arg) 63)))
  | ReverseBits => Some (as_i64 (reverse_bits u))
  | SwapBytes => Some (as_i64 (swap_bytes u))
  | Convert signed bits => Some (mask_to_width recv signed bits)
  | CheckedConvert _ _ _ => None
  end.

(** [int_method_width]. *)
Definition int_method_width (recv : Z) (method : IntMethod) (arg bits : Z) : option Z :=
  if 64 <=? bits then int_method recv method arg else
  let width := bits in
  let mask := 2 ^ width - 1 in
  let v := Z.land (as_u64 recv) mask in
  match method with
  | CountOnes => Some (count_ones v)
  | CountZeros => Some (width - count_ones v)
  | LeadingZeros => Some (width - (64 - leading_zeros v))
  | TrailingZeros => Some (if v =? 0 then width else trailing_zeros v)
  | RotateLeft =>
      let n := arg mod width in
      Some (if n =? 0 then v else Z.land (Z.lor (shl_u64 v n) (Z.shiftr v (width - n))) mask)
  | RotateRight =>
      let n := arg mod width in
      Some (if n =? 0 then v else Z.land (Z.lor (Z.shiftr v n) (shl_u64 v (width - n))) mask)
  | ReverseBits => Some (Z.shiftr (reverse_bits v) (64 - width))
  | SwapBytes => Some (Z.shiftr (swap_bytes v) (64 - width))
  | Convert _ _ | CheckedConvert _ _ _ => None
  end.

(** [checked_int_convert]. *)
Definition checked_int_convert (recv : Z) (src_signed dest_signed : bool) (dest_bits : Z) :
    option Z :=
  let value := if src_signed then recv else as_u64 recv in
  let '(lo, hi) := int_width_range dest_signed dest_bits in
  if (lo <=? value) && (value <=? hi) then Some (as_i64 value) else None.

(** ** Ranges *)

Definition is_i64 (z : Z) : Prop := - 2 ^ 63 <= z < 2 ^ 63.
Definition is_u64 (z : Z) : Prop := 0 <= z < 2 ^ 64.

Lemma as_i64_is_i64 z : is_i64 (as_i64 z).
Proof. unfold is_i64, as_i64. pose proof (Z.mod_pos_bound (z + 2 ^ 63) (2 ^ 64)). lia. Qed.
Lemma as_u64_is_u64 z : is_u64 (as_u64 z).
Proof. apply Z.mod_pos_bound. lia. Qed.
Lemma as_i64_id z : is_i64 z -> as_i64 z = z.
Proof. unfold is_i64, as_i64. intros H. rewrite Z.mod_small by lia. lia. Qed.
Lemma as_u64_id z : is_u64 z -> as_u64 z = z.
Proof. apply Z.mod_small. Qed.
Lemma as_i64_congr a b : a mod 2 ^ 64 = b mod 2 ^ 64 -> as_i64 a = as_i64 b.
Proof.
  intros H. unfold as_i64. f_equal.
  rewrite <- (Z.add_mod_idemp_l a), <- (Z.add_mod_idemp_l b), H by lia. done.
Qed.
Lemma as_i64_mod z : as_i64 z mod 2 ^ 64 = z mod 2 ^ 64.
Proof.
  unfold as_i64. rewrite <- Zminus_mod_idemp_l, Z.mod_mod, Zminus_mod_idemp_l by lia.
  f_equal. lia.
Qed.
Lemma as_u64_as_i64 z : as_u64 (as_i64 z) = as_u64 z.
Proof. apply as_i64_mod. Qed.
Lemma as_i64_as_u64 z : as_i64 (as_u64 z) = as_i64 z.
Proof. apply as_i64_congr. unfold as_u64. by rewrite Z.mod_mod. Qed.
#[export] Hint Resolve as_i64_is_i64 as_u64_is_u64 : core.

(** The low [n] bits survive the casts. *)
Lemma mod_mod_pow a n : 0 <= n <= 64 -> (a mod 2 ^ 64) mod 2 ^ n = a mod 2 ^ n.
Proof.
  intros H. symmetry. apply Znumtheory.Zmod_div_mod; [lia | lia |].
  exists (2 ^ (64 - n)). rewrite <- Z.pow_add_r by lia. f_equal. lia.
Qed.
Lemma as_i64_low z n : 0 <= n <= 64 -> as_i64 z mod 2 ^ n = z mod 2 ^ n.
Proof. intros. by rewrite <- mod_mod_pow, as_i64_mod, mod_mod_pow. Qed.
Lemma as_u64_low z n : 0 <= n <= 64 -> as_u64 z mod 2 ^ n = z mod 2 ^ n.
Proof. apply mod_mod_pow. Qed.

(** ** Values at a width *)

(** The widths of the language. *)
Definition fixed_width (bits : Z) : Prop := bits = 8 \/ bits = 16 \/ bits = 32 \/ bits = 64.

(** The number of [(signed, bits)] congruent to [n] modulo [2 ^ bits]. *)
Definition wrap_to (signed : bool) (bits n : Z) : Z :=
  if signed then (n + 2 ^ (bits - 1)) mod 2 ^ bits - 2 ^ (bits - 1) else n mod 2 ^ bits.

(** The number an erased word stands for. *)
Definition int_value (signed : bool) (w : Z) : Z := if signed then w else as_u64 w.

Definition in_width (signed : bool) (bits n : Z) : Prop :=
  (int_width_range signed bits).1 <= n <= (int_width_range signed bits).2.

(** A word of the width: what a fixed-width value is stored as. *)
Definition word_of_width (signed : bool) (bits w : Z) : Prop :=
  is_i64 w /\ in_width signed bits (int_value signed w).

Lemma half_pow bits : 0 < bits -> 2 ^ bits = 2 * 2 ^ (bits - 1).
Proof. intros. rewrite <- Z.pow_succ_r by lia. f_equal. lia. Qed.
Lemma pow_le_64 n : 0 <= n <= 64 -> 2 ^ n <= 2 ^ 64.
Proof. intros. apply Z.pow_le_mono_r; lia. Qed.

Lemma wrap_to_range signed bits n : 0 < bits -> in_width signed bits (wrap_to signed bits n).
Proof.
  intros H. pose proof (half_pow bits H). pose proof (Z.pow_pos_nonneg 2 (bits - 1)).
  pose proof (Z.mod_pos_bound (n + 2 ^ (bits - 1)) (2 ^ bits)).
  pose proof (Z.mod_pos_bound n (2 ^ bits)).
  unfold in_width, wrap_to, int_width_range; destruct signed; simpl; lia.
Qed.
Lemma wrap_to_id signed bits n : 0 < bits -> in_width signed bits n -> wrap_to signed bits n = n.
Proof.
  intros H Hr. pose proof (half_pow bits H).
  unfold in_width, wrap_to, int_width_range in *; destruct signed; simpl in *;
    rewrite Z.mod_small; lia.
Qed.
Lemma wrap_to_congr signed bits a b :
  a mod 2 ^ bits = b mod 2 ^ bits -> wrap_to signed bits a = wrap_to signed bits b.
Proof.
  intros H. unfold wrap_to. destruct signed; [|done].
  by rewrite <- Zplus_mod_idemp_l, H, Zplus_mod_idemp_l.
Qed.
Lemma wrap_to_mod signed bits n : 0 < bits -> wrap_to signed bits n mod 2 ^ bits = n mod 2 ^ bits.
Proof.
  intros. unfold wrap_to. destruct signed; [|by rewrite Z.mod_mod by lia].
  rewrite <- Zminus_mod_idemp_l, Z.mod_mod, Zminus_mod_idemp_l by lia. f_equal. lia.
Qed.

(** A number of the width is the only one congruent to it there. *)
Lemma in_width_unique signed bits a b :
  0 < bits -> in_width signed bits a -> in_width signed bits b ->
  a mod 2 ^ bits = b mod 2 ^ bits -> a = b.
Proof.
  intros H Ha Hb Hab.
  rewrite <- (wrap_to_id signed bits a), <- (wrap_to_id signed bits b) by done.
  by apply wrap_to_congr.
Qed.

(** ** Masking *)

Lemma wrap_to_64 signed n : as_i64 (wrap_to signed 64 n) = as_i64 n.
Proof. apply as_i64_congr. by apply wrap_to_mod. Qed.

Lemma sign_extension v b :
  0 < b < 64 -> shr_i64 (shl_i64 v (64 - b)) (64 - b) = wrap_to true b v.
Proof.
  intros H. unfold shr_i64, shl_i64, as_i64, wrap_to.
  rewrite Z.shiftl_mul_pow2, Z.shiftr_div_pow2 by lia.
  replace (2 ^ 63) with (2 ^ (b - 1) * 2 ^ (64 - b)) by (rewrite <- Z.pow_add_r by lia; f_equal; lia).
  replace (2 ^ 64) with (2 ^ b * 2 ^ (64 - b)) by (rewrite <- Z.pow_add_r by lia; f_equal; lia).
  rewrite <- Z.mul_add_distr_r, Z.mul_mod_distr_r, <- Z.mul_sub_distr_r, Z.div_mul by lia. done.
Qed.

Lemma wrap_to_small signed b v : 0 < b < 64 -> is_i64 (wrap_to signed b v).
Proof.
  intros H. pose proof (wrap_to_range signed b v). pose proof (half_pow b).
  assert (2 ^ b <= 2 ^ 63) by (apply Z.pow_le_mono_r; lia).
  unfold in_width, int_width_range, is_i64 in *. destruct signed; simpl in *; lia.
Qed.

(** Masking gives the representative of the word at the width, as a word. *)
Lemma mask_wrap v signed b :
  0 < b <= 64 -> is_i64 v -> mask_to_width v signed b = as_i64 (wrap_to signed b v).
Proof.
  intros H Hv. unfold mask_to_width. case Z.leb_spec; intros.
  - replace b with 64 by lia. by rewrite wrap_to_64, as_i64_id.
  - destruct signed.
    + by rewrite sign_extension, as_i64_id by (lia || apply wrap_to_small; lia).
    + f_equal. simpl. rewrite Z.sub_1_r, <- Z.ones_equiv, Z.land_ones by lia.
      apply as_u64_low. lia.
Qed.

Lemma int_value_as_i64 signed b n :
  0 < b <= 64 -> in_width signed b n -> int_value signed (as_i64 n) = n.
Proof.
  intros H Hn. assert (2 ^ b <= 2 ^ 64) by (apply pow_le_64; lia).
  pose proof (half_pow b). unfold in_width, int_width_range, int_value in *.
  destruct signed; simpl in *.
  - apply as_i64_id. unfold is_i64. lia.
  - rewrite as_u64_as_i64. apply as_u64_id. unfold is_u64. lia.
Qed.
Lemma word_of_int_value signed b w :
  word_of_width signed b w -> as_i64 (int_value signed w) = w.
Proof.
  intros [Hw _]. destruct signed; simpl; [by apply as_i64_id|].
  rewrite as_i64_as_u64. by apply as_i64_id.
Qed.
Lemma mask_value v signed b :
  0 < b <= 64 -> is_i64 v ->
  word_of_width signed b (mask_to_width v signed b) /\
  int_value signed (mask_to_width v signed b) = wrap_to signed b v.
Proof.
  intros H Hv. rewrite mask_wrap by done.
  assert (E : int_value signed (as_i64 (wrap_to signed b v)) = wrap_to signed b v).
  { apply (int_value_as_i64 _ b); [done|]. apply wrap_to_range. lia. }
  split; [|done]. split; [done|]. rewrite E. apply wrap_to_range. lia.
Qed.

(** The value of a word is congruent to the word. *)
Lemma int_value_low signed w b : 0 <= b <= 64 -> int_value signed w mod 2 ^ b = w mod 2 ^ b.
Proof. destruct signed; [done|]. apply as_u64_low. Qed.

(** Whatever is computed modulo [2 ^ 64] and then masked is computed modulo [2 ^ b]. *)
Lemma mask_computes signed b n :
  0 < b <= 64 -> int_value signed (mask_to_width (as_i64 n) signed b) = wrap_to signed b n.
Proof.
  intros H. rewrite (proj2 (mask_value _ _ _ H (as_i64_is_i64 n))).
  apply wrap_to_congr. apply as_i64_low. lia.
Qed.

(** ** Bits *)

(** The low [n] bits of a word, from the lowest, and the number a list of bits is. *)
Definition bits_from (i n : nat) (v : Z) : list bool := (λ j, Z.testbit v (Z.of_nat j)) <$> seq i n.
Definition bits_of (n : nat) (v : Z) : list bool := bits_from 0 n v.
Fixpoint of_bits (l : list bool) : Z :=
  match l with [] => 0 | b :: l => Z.b2z b + 2 * of_bits l end.

Lemma length_bits_of n v : length (bits_of n v) = n.
Proof. unfold bits_of, bits_from. by rewrite length_fmap, length_seq. Qed.
Lemma bits_of_lookup n v i : (i < n)%nat -> bits_of n v !! i = Some (Z.testbit v (Z.of_nat i)).
Proof. intros. unfold bits_of, bits_from. by rewrite list_lookup_fmap, lookup_seq_lt. Qed.
Lemma bits_of_S n v : bits_of (S n) v = bits_of n v ++ [Z.testbit v (Z.of_nat n)].
Proof. unfold bits_of, bits_from. by rewrite seq_S, fmap_app. Qed.
Lemma bits_of_ext n u v :
  (forall i, 0 <= i < Z.of_nat n -> Z.testbit u i = Z.testbit v i) -> bits_of n u = bits_of n v.
Proof.
  intros H. unfold bits_of, bits_from. apply list_fmap_ext. intros i j Hj.
  apply lookup_seq in Hj. apply H. lia.
Qed.

(** A list of bits is the list [l] when it is as long and agrees at each position. *)
Lemma bits_of_eq n v (l : list bool) :
  length l = n -> (forall i, (i < n)%nat -> l !! i = Some (Z.testbit v (Z.of_nat i))) ->
  bits_of n v = l.
Proof.
  intros Hl H. apply list_eq. intros i. destruct (decide (i < n)%nat) as [Hi|Hi].
  - by rewrite bits_of_lookup, H.
  - rewrite !lookup_ge_None_2; [done | lia |]. rewrite length_bits_of. lia.
Qed.

Lemma of_bits_nonneg l : 0 <= of_bits l.
Proof. induction l as [|[] l IH]; simpl; lia. Qed.
Lemma of_bits_range l : 0 <= of_bits l < 2 ^ Z.of_nat (length l).
Proof.
  induction l as [|b l IH]; cbn [of_bits length]; [lia|].
  rewrite Nat2Z.inj_succ, Z.pow_succ_r by lia. assert (0 <= Z.b2z b <= 1) by (by destruct b). lia.
Qed.
Lemma of_bits_testbit l i :
  0 <= i -> Z.testbit (of_bits l) i = default false (l !! Z.to_nat i).
Proof.
  revert i. induction l as [|b l IH]; intros i Hi; cbn [of_bits]; [by rewrite Z.bits_0|].
  rewrite Z.add_comm. destruct (decide (i = 0)) as [-> |Hi'].
  - change (default false ((b :: l) !! Z.to_nat 0)) with b. apply Z.testbit_0_r.
  - replace i with (Z.succ (i - 1)) at 1 by lia. rewrite Z.testbit_succ_r, IH by lia.
    by replace (Z.to_nat i) with (S (Z.to_nat (i - 1))) by lia.
Qed.
Lemma testbit_above v n i : 0 <= v < 2 ^ n -> n <= i -> Z.testbit v i = false.
Proof.
  intros [H0 H] Hi. destruct (decide (v = 0)) as [-> |]; [apply Z.bits_0|].
  apply Z.bits_above_log2; [done|]. apply Z.log2_lt_pow2; [lia|].
  apply (Z.lt_le_trans _ _ _ H). apply Z.pow_le_mono_r; lia.
Qed.
Lemma of_bits_of n v : 0 <= v < 2 ^ Z.of_nat n -> of_bits (bits_of n v) = v.
Proof.
  intros H. apply Z.bits_inj'. intros i Hi. rewrite of_bits_testbit by done.
  destruct (decide (i < Z.of_nat n)) as [Hin|Hin].
  - rewrite bits_of_lookup by lia. simpl. by rewrite Z2Nat.id by done.
  - rewrite lookup_ge_None_2 by (rewrite length_bits_of; lia).
    rewrite (testbit_above v (Z.of_nat n)) by lia. done.
Qed.
Lemma bits_of_bits l : bits_of (length l) (of_bits l) = l.
Proof.
  apply bits_of_eq; [done|]. intros i Hi. rewrite of_bits_testbit by lia.
  rewrite Nat2Z.id. destruct (lookup_lt_is_Some_2 l i Hi) as [b ->]. done.
Qed.

(** [x mod 2 ^ n] has the low [n] bits of [x]. *)
Lemma testbit_mod v n i : 0 <= n -> 0 <= i -> Z.testbit (v mod 2 ^ n) i = (i <? n) && Z.testbit v i.
Proof.
  intros Hn Hi. destruct (Z.ltb_spec i n); simpl.
  - by rewrite Z.mod_pow2_bits_low.
  - by rewrite Z.mod_pow2_bits_high.
Qed.
Lemma bits_of_mod n v : bits_of n (v mod 2 ^ Z.of_nat n) = bits_of n v.
Proof.
  apply bits_of_ext. intros i Hi. rewrite testbit_mod by lia.
  by rewrite (proj2 (Z.ltb_lt i (Z.of_nat n))) by lia.
Qed.
Lemma of_bits_mod n v : of_bits (bits_of n v) = v mod 2 ^ Z.of_nat n.
Proof. rewrite <- bits_of_mod. apply of_bits_of. apply Z.mod_pos_bound. lia. Qed.

(** The bits above the width of a reduced number are clear. *)
Lemma bits_of_reduced m n v :
  (n <= m)%nat -> bits_of m (v mod 2 ^ Z.of_nat n) = bits_of n v ++ replicate (m - n) false.
Proof.
  intros H. apply bits_of_eq; [rewrite length_app, length_bits_of, length_replicate; lia|].
  intros i Hi. rewrite testbit_mod by lia. case Z.ltb_spec; intros Hin; simpl.
  - rewrite lookup_app_l by (rewrite length_bits_of; lia). apply bits_of_lookup. lia.
  - rewrite lookup_app_r by (rewrite length_bits_of; lia). rewrite length_bits_of.
    apply lookup_replicate. split; [done|lia].
Qed.

(** ** The bit methods as list operations *)

(** The clear bits a list starts with. *)
Fixpoint clear_prefix (l : list bool) : nat :=
  match l with false :: l => S (clear_prefix l) | _ => O end.
Definition swap_chunks (l : list bool) : list bool :=
  mjoin (reverse (reshape (replicate (length l / 8) 8%nat) l)).

(** What a bit method answers for a receiver with the bits [l]. *)
Definition method_bits (m : IntMethod) (arg : Z) (l : list bool) : option Z :=
  let n := Z.of_nat (length l) in
  match m with
  | CountOnes => Some (Z.of_nat (length (filter (eq true) l)))
  | CountZeros => Some (Z.of_nat (length (filter (eq false) l)))
  | LeadingZeros => Some (Z.of_nat (clear_prefix (reverse l)))
  | TrailingZeros => Some (Z.of_nat (clear_prefix l))
  | RotateLeft => Some (of_bits (rotate (Z.to_nat (- arg mod n)) l))
  | RotateRight => Some (of_bits (rotate (Z.to_nat (arg mod n)) l))
  | ReverseBits => Some (of_bits (reverse l))
  | SwapBytes => Some (of_bits (swap_chunks l))
  | Convert _ _ | CheckedConvert _ _ _ => None
  end.

Lemma count_bits_spec n u : count_bits n u = Z.of_nat (length (filter (eq true) (bits_of n u))).
Proof.
  induction n as [|n IH]; [done|]. rewrite bits_of_S, filter_app, length_app. simpl.
  rewrite IH. destruct (Z.testbit u (Z.of_nat n)); simpl; lia.
Qed.
Lemma set_and_clear l :
  (length (filter (eq true) l) + length (filter (eq false) l) = length l)%nat.
Proof. induction l as [|[] l IH]; rewrite ?filter_cons; simpl; lia. Qed.
Lemma zeros_from_top_spec n u : zeros_from_top n u = Z.of_nat (clear_prefix (reverse (bits_of n u))).
Proof.
  induction n as [|n IH]; [done|]. rewrite bits_of_S, reverse_snoc. simpl.
  rewrite IH. destruct (Z.testbit u (Z.of_nat n)); lia.
Qed.
Lemma zeros_from_spec n i u : zeros_from n (Z.of_nat i) u = Z.of_nat (clear_prefix (bits_from i n u)).
Proof.
  revert i. induction n as [|n IH]; intros i; [done|]. cbn [zeros_from].
  replace (Z.of_nat i + 1) with (Z.of_nat (S i)) by lia. rewrite IH.
  change (bits_from i (S n) u) with (Z.testbit u (Z.of_nat i) :: bits_from (S i) n u).
  destruct (Z.testbit u (Z.of_nat i)); cbn [clear_prefix]; lia.
Qed.

Lemma clear_prefix_replicate k l : clear_prefix (replicate k false ++ l) = (k + clear_prefix l)%nat.
Proof. induction k as [|k IH]; simpl; congruence. Qed.
Lemma clear_prefix_app l k :
  clear_prefix (l ++ replicate k false) =
    if decide (true ∈ l) then clear_prefix l else (length l + k)%nat.
Proof.
  induction l as [|[] l IH]; cbn [clear_prefix app length].
  - rewrite decide_False by (by apply not_elem_of_nil).
    rewrite <- (app_nil_r (replicate k false)), clear_prefix_replicate. simpl. lia.
  - rewrite decide_True by (by apply elem_of_cons; left). done.
  - rewrite IH. destruct (decide (true ∈ l)).
    + rewrite decide_True by (by apply elem_of_cons; right). done.
    + rewrite decide_False; [done|]. rewrite elem_of_cons. naive_solver.
Qed.
Lemma filter_false_replicate k : filter (eq true) (replicate k false) = [].
Proof. induction k; done. Qed.

Lemma bits_of_zero n : bits_of n 0 = replicate n false.
Proof.
  apply bits_of_eq; [apply length_replicate|]. intros i Hi.
  rewrite Z.bits_0. by apply lookup_replicate_2.
Qed.
Lemma no_set_bit n v : 0 <= v < 2 ^ Z.of_nat n -> true ∉ bits_of n v <-> v = 0.
Proof.
  intros H. split.
  - intros Hn. rewrite <- (of_bits_of n v H). clear H. revert Hn.
    generalize (bits_of n v). intros l. induction l as [|[] l IH]; cbn [of_bits]; [done|..];
      rewrite not_elem_of_cons; [naive_solver|]. intros [_ ?%IH]. simpl. lia.
  - intros ->. rewrite bits_of_zero. by intros [? ?]%elem_of_replicate.
Qed.

(** A number whose bits are those of [v], rotated. *)
Lemma bits_rotate n r v b :
  (forall i, 0 <= i < Z.of_nat n -> Z.testbit r i = Z.testbit v ((Z.of_nat b + i) mod Z.of_nat n)) ->
  bits_of n r = rotate b (bits_of n v).
Proof.
  intros H. apply bits_of_eq; [by rewrite length_rotate, length_bits_of|]. intros i Hi.
  rewrite lookup_rotate_r, length_bits_of by (by rewrite length_bits_of).
  unfold rotate_nat_add. pose proof (Z.mod_pos_bound (Z.of_nat b + Z.of_nat i) (Z.of_nat n)).
  rewrite bits_of_lookup by lia. rewrite Z2Nat.id by lia. rewrite H by lia. done.
Qed.
Lemma rotate_left_bits n v k r :
  0 <= v < 2 ^ Z.of_nat n -> 0 <= k < Z.of_nat n ->
  (forall i, 0 <= i < Z.of_nat n ->
     Z.testbit r i = Z.testbit (Z.lor (Z.shiftl v k) (Z.shiftr v (Z.of_nat n - k))) i) ->
  bits_of n r = rotate (Z.to_nat (- k mod Z.of_nat n)) (bits_of n v).
Proof.
  intros Hv Hk Hr. apply bits_rotate. intros i Hi. rewrite Hr by done.
  pose proof (Z.mod_pos_bound (- k) (Z.of_nat n)).
  rewrite Z2Nat.id, Z.add_mod_idemp_l, Z.lor_spec, Z.shiftl_spec, Z.shiftr_spec by lia.
  destruct (decide (k <= i)).
  - rewrite (testbit_above v (Z.of_nat n) (i + _)), orb_false_r by lia.
    rewrite Z.mod_small by lia. f_equal. lia.
  - rewrite (Z.testbit_neg_r v (i - k)) by lia. simpl.
    rewrite <- (Z.mod_add _ 1), Z.mod_small by lia. f_equal. lia.
Qed.
Lemma rotate_right_bits n v k r :
  0 <= v < 2 ^ Z.of_nat n -> 0 <= k < Z.of_nat n ->
  (forall i, 0 <= i < Z.of_nat n ->
     Z.testbit r i = Z.testbit (Z.lor (Z.shiftr v k) (Z.shiftl v (Z.of_nat n - k))) i) ->
  bits_of n r = rotate (Z.to_nat (k mod Z.of_nat n)) (bits_of n v).
Proof.
  intros Hv Hk Hr. apply bits_rotate. intros i Hi. rewrite Hr by done.
  rewrite (Z.mod_small k), Z2Nat.id, Z.lor_spec, Z.shiftl_spec, Z.shiftr_spec by lia.
  destruct (decide (k + i < Z.of_nat n)).
  - rewrite (Z.testbit_neg_r v (i - _)), orb_false_r by lia.
    rewrite Z.mod_small by lia. f_equal. lia.
  - rewrite (testbit_above v (Z.of_nat n) (i + k)) by lia. simpl.
    rewrite <- (Z.mod_add _ (-1)), Z.mod_small by lia. f_equal. lia.
Qed.

Lemma testbit_b2z b k : Z.testbit (Z.b2z b) k = b && (k =? 0).
Proof.
  destruct (Z.eqb_spec k 0) as [-> |Hk]; [destruct b; done|]. rewrite andb_false_r.
  destruct (decide (k < 0)); [by apply Z.testbit_neg_r|].
  apply (testbit_above _ 1); [destruct b; simpl; lia|lia].
Qed.
Lemma mirror_bits_testbit n u i :
  (n <= 64)%nat -> 0 <= i < 64 ->
  Z.testbit (mirror_bits n u) i = (63 - Z.of_nat n <? i) && Z.testbit u (63 - i).
Proof.
  intros Hn Hi. induction n as [|n IH]; cbn [mirror_bits].
  - rewrite Z.bits_0, (proj2 (Z.ltb_ge _ _)) by lia. done.
  - rewrite Z.lor_spec, Z.shiftl_spec, IH, testbit_b2z by lia.
    case (Z.eqb_spec (i - (63 - Z.of_nat n)) 0); intros E.
    + replace i with (63 - Z.of_nat n) by lia.
      rewrite (proj2 (Z.ltb_ge _ _)), (proj2 (Z.ltb_lt _ _)) by lia.
      rewrite andb_true_r, orb_false_r. simpl. f_equal. lia.
    + rewrite andb_false_r. simpl. f_equal.
      case Z.ltb_spec; case Z.ltb_spec; intros; lia || done.
Qed.
Lemma reverse_bits_spec n v :
  (n <= 64)%nat ->
  bits_of n (Z.shiftr (reverse_bits v) (64 - Z.of_nat n)) = reverse (bits_of n v).
Proof.
  intros Hn. apply bits_of_eq; [by rewrite length_reverse, length_bits_of|]. intros i Hi.
  rewrite reverse_lookup, length_bits_of, bits_of_lookup by (rewrite ?length_bits_of; lia).
  unfold reverse_bits. rewrite Z.shiftr_spec, mirror_bits_testbit by lia.
  rewrite (proj2 (Z.ltb_lt _ _)) by lia. simpl. do 2 f_equal. lia.
Qed.

Lemma byte_testbit u a i :
  0 <= a -> Z.testbit (Z.land (Z.shiftr u a) 255) i = (0 <=? i) && (i <? 8) && Z.testbit u (i + a).
Proof.
  intros Ha. case (Z.leb_spec 0 i); intros; simpl; [|by apply Z.testbit_neg_r].
  change 255 with (Z.ones 8). rewrite Z.land_ones, testbit_mod, Z.shiftr_spec by lia. done.
Qed.
Lemma mirror_bytes_testbit n u i :
  (n <= 8)%nat -> 0 <= i < 64 ->
  Z.testbit (mirror_bytes n u) i =
    (8 * (8 - Z.of_nat n) <=? i) && Z.testbit u (8 * (7 - i / 8) + i mod 8).
Proof.
  intros Hn Hi. induction n as [|n IH]; cbn [mirror_bytes].
  - rewrite Z.bits_0, (proj2 (Z.leb_gt _ _)) by lia. done.
  - rewrite Z.lor_spec, Z.shiftl_spec, IH, byte_testbit by lia. clear IH.
    pose proof (Z.div_mod i 8). pose proof (Z.mod_pos_bound i 8).
    case (Z.leb_spec (8 * (8 - Z.of_nat (S n))) i); intros; simpl.
    + case (Z.leb_spec (8 * (8 - Z.of_nat n)) i); intros; simpl.
      * rewrite (proj2 (Z.ltb_ge _ _)) by lia. by rewrite andb_false_r.
      * rewrite (proj2 (Z.leb_le 0 _)), (proj2 (Z.ltb_lt _ _)), orb_false_r by lia. simpl.
        f_equal. assert (i / 8 = 7 - Z.of_nat n) by lia. lia.
    + rewrite (proj2 (Z.leb_gt _ i)) by lia. rewrite (proj2 (Z.leb_gt 0 _)) by lia. done.
Qed.

Ltac each_width H := destruct H as [-> |[-> |[-> | ->]]].

(** Where [swap_bytes] takes bit [j] of [n] from. *)
Definition swapped (n j : nat) : nat := 8 * (n / 8 - 1 - j / 8) + j mod 8.
Lemma swap_chunks_seq b (f : nat -> bool) :
  fixed_width b ->
  swap_chunks (f <$> seq 0 (Z.to_nat b)) =
    (λ j, f (swapped (Z.to_nat b) j)) <$> seq 0 (Z.to_nat b).
Proof. intros H. each_width H; vm_compute; reflexivity. Qed.
Lemma swap_bytes_spec b v :
  fixed_width b ->
  bits_of (Z.to_nat b) (Z.shiftr (swap_bytes v) (64 - b)) = swap_chunks (bits_of (Z.to_nat b) v).
Proof.
  intros Hb. unfold bits_of, bits_from. rewrite swap_chunks_seq by done.
  apply list_fmap_ext. intros i j Hj. apply lookup_seq in Hj. destruct Hj as [-> Hj].
  rewrite Nat.add_0_l in *. unfold swapped, swap_bytes.
  assert (Hb' : exists k, b = 8 * Z.of_nat k /\ 0 < b <= 64).
  { each_width Hb; [exists 1%nat|exists 2%nat|exists 4%nat|exists 8%nat]; lia. }
  destruct Hb' as (k & -> & Hk).
  rewrite Z.shiftr_spec, mirror_bytes_testbit by lia.
  rewrite (proj2 (Z.leb_le _ _)) by lia. rewrite andb_true_l. f_equal.
  replace (Z.of_nat i + (64 - 8 * Z.of_nat k)) with (Z.of_nat i + (8 - Z.of_nat k) * 8) by lia.
  rewrite Z.div_add, Z.mod_add by lia.
  replace (Z.to_nat (8 * Z.of_nat k)) with (k * 8)%nat by lia. rewrite Nat.div_mul by lia.
  rewrite Nat2Z.inj_add, Nat2Z.inj_mul, !Nat2Z.inj_sub, Nat2Z.inj_div, Nat2Z.inj_mod; try lia.
  assert (i / 8 < k)%nat by (apply Nat.Div0.div_lt_upper_bound; lia). lia.
Qed.

Lemma lor_range n x y : 0 <= n -> 0 <= x < 2 ^ n -> 0 <= y < 2 ^ n -> 0 <= Z.lor x y < 2 ^ n.
Proof.
  intros Hn Hx Hy. apply Z.bounded_iff_bits_nonneg'; [done|apply Z.lor_nonneg; lia|].
  intros l Hl. by rewrite Z.lor_spec, (testbit_above x n), (testbit_above y n).
Qed.
Lemma shiftl_range n m x s :
  0 <= s -> 0 <= n -> 0 <= x < 2 ^ n -> n + s <= m -> 0 <= Z.shiftl x s < 2 ^ m.
Proof.
  intros Hs Hn Hx Hm. rewrite Z.shiftl_mul_pow2 by done.
  assert (0 < 2 ^ s) by lia. split; [nia|].
  apply (Z.lt_le_trans _ (2 ^ n * 2 ^ s)); [nia|].
  rewrite <- Z.pow_add_r by done. by apply Z.pow_le_mono_r.
Qed.
Lemma mirror_bits_range n u : (n <= 64)%nat -> 0 <= mirror_bits n u < 2 ^ 64.
Proof.
  induction n as [|n IH]; intros Hn; cbn [mirror_bits]; [lia|].
  apply lor_range; [lia| |apply IH; lia].
  apply (shiftl_range 1); [lia..| |lia]. destruct (Z.testbit u (Z.of_nat n)); simpl; lia.
Qed.
Lemma mirror_bytes_range n u : (n <= 8)%nat -> 0 <= mirror_bytes n u < 2 ^ 64.
Proof.
  induction n as [|n IH]; intros Hn; cbn [mirror_bytes]; [lia|].
  apply lor_range; [lia| |apply IH; lia].
  apply (shiftl_range 8); [lia..| |lia]. change 255 with (Z.ones 8).
  rewrite Z.land_ones by lia. apply Z.mod_pos_bound. lia.
Qed.

(** ** The methods at a width *)

Section AtWidth.
Context (b recv : Z) (Hb : fixed_width b).
Let n := Z.to_nat b.
Let v := recv mod 2 ^ b.

Local Lemma width_n : b = Z.of_nat n /\ (0 < n <= 64)%nat.
Proof using b recv Hb. unfold n. each_width Hb; lia. Qed.
Local Lemma v_range : 0 <= v < 2 ^ Z.of_nat n.
Proof using b recv Hb. destruct width_n as [<- ?]. apply Z.mod_pos_bound. lia. Qed.
Local Lemma v_bits : bits_of n v = bits_of n recv.
Proof using b recv Hb. unfold v. rewrite (proj1 width_n). apply bits_of_mod. Qed.
Local Lemma v_wide : bits_of 64 v = bits_of n recv ++ replicate (64 - n) false.
Proof using b recv Hb. destruct width_n. unfold v. rewrite (proj1 width_n). apply bits_of_reduced. lia. Qed.

Lemma count_ones_width : count_ones v = Z.of_nat (length (filter (eq true) (bits_of n recv))).
Proof using b recv Hb.
  unfold count_ones. rewrite count_bits_spec, v_wide, filter_app, filter_false_replicate.
  by rewrite app_nil_r.
Qed.
Lemma count_zeros_width :
  b - count_ones v = Z.of_nat (length (filter (eq false) (bits_of n recv))).
Proof using b recv Hb.
  rewrite count_ones_width. pose proof (set_and_clear (bits_of n recv)) as H.
  rewrite length_bits_of in H. destruct width_n. lia.
Qed.
Lemma leading_zeros_width :
  b - (64 - leading_zeros v) = Z.of_nat (clear_prefix (reverse (bits_of n recv))).
Proof using b recv Hb.
  unfold leading_zeros. rewrite zeros_from_top_spec, v_wide, reverse_app, reverse_replicate.
  rewrite clear_prefix_replicate. destruct width_n. lia.
Qed.
Lemma trailing_zeros_width :
  (if v =? 0 then b else trailing_zeros v) = Z.of_nat (clear_prefix (bits_of n recv)).
Proof using b recv Hb.
  pose proof (no_set_bit n v v_range) as Hz. rewrite v_bits in Hz.
  pose proof (clear_prefix_app (bits_of n recv) 0) as Hp.
  rewrite app_nil_r, length_bits_of, Nat.add_0_r in Hp.
  destruct (Z.eqb_spec v 0) as [E|E].
  - rewrite Hp, decide_False by tauto. apply width_n.
  - unfold trailing_zeros. change 0 with (Z.of_nat 0). rewrite zeros_from_spec.
    change (bits_from 0 64 v) with (bits_of 64 v). rewrite v_wide, clear_prefix_app.
    rewrite decide_True; [done|]. destruct (decide (true ∈ bits_of n recv)); [done|tauto].
Qed.

(** A number of [n] bits is read off its bits. *)
Local Lemma by_bits r l : 0 <= r < 2 ^ b -> bits_of n r = l -> r = of_bits l.
Proof using b recv Hb. intros Hr <-. rewrite of_bits_of; [done|]. by destruct width_n as [<- ?]. Qed.
Local Lemma masked_range x : 0 <= x mod 2 ^ b < 2 ^ b.
Proof using b recv Hb. apply Z.mod_pos_bound. destruct width_n. lia. Qed.
Local Lemma shifted_range x : 0 <= x < 2 ^ 64 -> 0 <= Z.shiftr x (64 - b) < 2 ^ b.
Proof using b recv Hb.
  intros [H0 H]. destruct width_n. rewrite Z.shiftr_div_pow2 by lia.
  split; [apply Z.div_pos; lia|]. apply Z.div_lt_upper_bound; [lia|].
  rewrite <- Z.pow_add_r by lia. by replace (64 - b + b) with 64 by lia.
Qed.

Lemma rotate_left_width arg x :
  (forall i, 0 <= i < b ->
     Z.testbit x i =
       Z.testbit (Z.lor (Z.shiftl v (arg mod b)) (Z.shiftr v (b - arg mod b))) i) ->
  x mod 2 ^ b = of_bits (rotate (Z.to_nat (- arg mod b)) (bits_of n recv)).
Proof using b recv Hb.
  intros Hx. apply by_bits; [apply masked_range|]. destruct width_n as [E ?].
  assert (Hk : 0 <= arg mod b < b) by (apply Z.mod_pos_bound; lia).
  replace (- arg mod b) with (- (arg mod b) mod b)
    by (rewrite <- (Z.sub_0_l (arg mod b)), Zminus_mod_idemp_r; f_equal; lia).
  rewrite E at 1. rewrite bits_of_mod, <- v_bits.
  rewrite E at 2. apply rotate_left_bits; [apply v_range|lia|].
  intros i Hi. rewrite <- E. apply Hx. lia.
Qed.
Lemma rotate_right_width arg x :
  (forall i, 0 <= i < b ->
     Z.testbit x i =
       Z.testbit (Z.lor (Z.shiftr v (arg mod b)) (Z.shiftl v (b - arg mod b))) i) ->
  x mod 2 ^ b = of_bits (rotate (Z.to_nat (arg mod b)) (bits_of n recv)).
Proof using b recv Hb.
  intros Hx. apply by_bits; [apply masked_range|]. destruct width_n as [E ?].
  assert (Hk : 0 <= arg mod b < b) by (apply Z.mod_pos_bound; lia).
  rewrite <- (Z.mod_mod arg b) by lia.
  rewrite E at 1. rewrite bits_of_mod, <- v_bits.
  rewrite E at 2. apply rotate_right_bits; [apply v_range|lia|].
  intros i Hi. rewrite <- E. apply Hx. lia.
Qed.
Lemma reverse_bits_width :
  Z.shiftr (reverse_bits v) (64 - b) = of_bits (reverse (bits_of n recv)).
Proof using b recv Hb.
  apply by_bits; [apply shifted_range, mirror_bits_range; done|].
  destruct width_n as [E ?]. rewrite E at 1. rewrite reverse_bits_spec by lia. by rewrite v_bits.
Qed.
Lemma swap_bytes_width :
  Z.shiftr (swap_bytes v) (64 - b) = of_bits (swap_chunks (bits_of n recv)).
Proof using b recv Hb.
  apply by_bits; [apply shifted_range, mirror_bytes_range; done|].
  unfold n at 1. rewrite swap_bytes_spec by done. fold n. by rewrite v_bits.
Qed.
End AtWidth.

(** The receiver's bits at the width, as the code takes them. *)
Lemma low_word recv b : 0 < b < 64 -> Z.land (as_u64 recv) (2 ^ b - 1) = recv mod 2 ^ b.
Proof. intros. rewrite Z.sub_1_r, <- Z.ones_equiv, Z.land_ones by lia. apply as_u64_low. lia. Qed.
Lemma land_mask x b : 0 <= b -> Z.land x (2 ^ b - 1) = x mod 2 ^ b.
Proof. intros. by rewrite Z.sub_1_r, <- Z.ones_equiv, Z.land_ones. Qed.
Lemma rotate_amount arg : Z.land (as_u64 arg) 63 = arg mod 64.
Proof. change 63 with (Z.ones 6). rewrite Z.land_ones by lia. apply as_u64_low. lia. Qed.

(** The bits of a value do not depend on which of its words is read. *)
Lemma bits_of_low n u v : u mod 2 ^ Z.of_nat n = v mod 2 ^ Z.of_nat n -> bits_of n u = bits_of n v.
Proof. intros H. by rewrite <- bits_of_mod, H, bits_of_mod. Qed.

(** The methods answer what the list operations do: on the full word and at a width. *)
#[local] Opaque bits_of count_ones leading_zeros trailing_zeros reverse_bits swap_bytes swap_chunks.

Lemma clear_prefix_length l : (clear_prefix l <= length l)%nat.
Proof. induction l as [|[] l IH]; simpl; lia. Qed.
Lemma method_counts_small n recv arg m r :
  (n <= 64)%nat ->
  (m = CountOnes \/ m = CountZeros \/ m = LeadingZeros \/ m = TrailingZeros) ->
  method_bits m arg (bits_of n recv) = Some r -> as_i64 r = r.
Proof.
  intros Hn Hm Hr. apply as_i64_id.
  pose proof (clear_prefix_length (bits_of n recv)). pose proof (clear_prefix_length (reverse (bits_of n recv))).
  pose proof (length_filter (eq true) (bits_of n recv)).
  pose proof (length_filter (eq false) (bits_of n recv)).
  rewrite length_reverse, length_bits_of in *. unfold is_i64.
  destruct Hm as [-> |[-> |[-> | ->]]]; injection Hr as <-; lia.
Qed.
Lemma of_bits_small n l : (n < 64)%nat -> length l = n -> as_i64 (of_bits l) = of_bits l.
Proof.
  intros Hn Hl. apply as_i64_id. pose proof (of_bits_range l). rewrite Hl in *.
  assert (2 ^ Z.of_nat n <= 2 ^ 63) by (apply Z.pow_le_mono_r; lia). unfold is_i64. lia.
Qed.

Lemma int_method_spec recv m arg r :
  method_bits m arg (bits_of 64 recv) = Some r -> int_method recv m arg = Some (as_i64 r).
Proof.
  assert (Hw : fixed_width 64) by (by right; right; right). intros Hm.
  pose proof (method_counts_small 64 recv arg m r ltac:(done)) as Hc.
  destruct m; try discriminate Hm; simpl in Hm |- *; rewrite ?length_bits_of, ?rotate_amount in *;
    try (rewrite Hc by tauto); clear Hc; injection Hm as <-; f_equal; unfold as_u64.
  - apply (count_ones_width 64 recv Hw).
  - apply (count_zeros_width 64 recv Hw).
  - etransitivity; [|apply (leading_zeros_width 64 recv Hw)]. lia.
  - etransitivity; [|apply (trailing_zeros_width 64 recv Hw)]. case Z.eqb_spec; intros E; [|done].
    by rewrite E.
  - f_equal. by apply (rotate_left_width 64 recv Hw).
  - f_equal. by apply (rotate_right_width 64 recv Hw).
  - f_equal. etransitivity; [|apply (reverse_bits_width 64 recv Hw)]. symmetry. apply Z.shiftr_0_r.
  - f_equal. etransitivity; [|apply (swap_bytes_width 64 recv Hw)]. symmetry. apply Z.shiftr_0_r.
Qed.

Lemma shl_u64_low x s i : 0 <= i < 64 -> Z.testbit (shl_u64 x s) i = Z.testbit (Z.shiftl x s) i.
Proof.
  intros. unfold shl_u64, as_u64. rewrite testbit_mod by lia.
  by rewrite (proj2 (Z.ltb_lt i 64)) by lia.
Qed.
Lemma shiftr_width v b : 0 <= b -> 0 <= v < 2 ^ b -> Z.shiftr v b = 0.
Proof. intros. rewrite Z.shiftr_div_pow2 by done. by apply Z.div_small. Qed.

Lemma int_method_width_spec recv m arg b r :
  fixed_width b -> method_bits m arg (bits_of (Z.to_nat b) recv) = Some r ->
  int_method_width recv m arg b = Some (as_i64 r).
Proof.
  intros Hw Hm. unfold int_method_width. case Z.leb_spec; intros Hb.
  { apply int_method_spec. assert (b = 64) as -> by (each_width Hw; lia). done. }
  assert (H64 : (Z.to_nat b <= 64)%nat) by (each_width Hw; lia).
  assert (Hb0 : 0 < b < 64) by (each_width Hw; lia).
  pose proof (method_counts_small _ recv arg m r H64) as Hc.
  assert (Hr : forall l, length l = Z.to_nat b -> as_i64 (of_bits l) = of_bits l)
    by (intros l; apply of_bits_small; lia).
  assert (Hv : 0 <= recv mod 2 ^ b < 2 ^ b) by (apply Z.mod_pos_bound; lia).
  rewrite low_word by done. cbv zeta. rewrite !land_mask by lia.
  destruct m; try discriminate Hm; simpl in Hm |- *; rewrite ?length_bits_of, ?Z2Nat.id in Hm by lia;
    try (rewrite Hc by tauto); clear Hc; injection Hm as <-; f_equal.
  - by apply (count_ones_width b recv Hw).
  - by apply (count_zeros_width b recv Hw).
  - by apply (leading_zeros_width b recv Hw).
  - by apply (trailing_zeros_width b recv Hw).
  - rewrite Hr by (by rewrite length_rotate, length_bits_of).
    rewrite <- (rotate_left_width b recv Hw arg
                  (Z.lor (shl_u64 (recv mod 2 ^ b) (arg mod b))
                     (Z.shiftr (recv mod 2 ^ b) (b - arg mod b)))).
    + case Z.eqb_spec; intros E; [|done]. rewrite E, Z.sub_0_r, shiftr_width by lia.
      unfold shl_u64. rewrite Z.shiftl_0_r, Z.lor_0_r, as_u64_low, Z.mod_mod by lia. done.
    + intros i Hi. rewrite !Z.lor_spec, shl_u64_low by lia. done.
  - rewrite Hr by (by rewrite length_rotate, length_bits_of).
    rewrite <- (rotate_right_width b recv Hw arg
                  (Z.lor (Z.shiftr (recv mod 2 ^ b) (arg mod b))
                     (shl_u64 (recv mod 2 ^ b) (b - arg mod b)))).
    + case Z.eqb_spec; intros E; [|done]. rewrite E, Z.sub_0_r. symmetry.
      rewrite Z.shiftr_0_r.
      apply Z.bits_inj'. intros i Hi. rewrite testbit_mod, Z.lor_spec by lia.
      case Z.ltb_spec; intros Hib; simpl; [|by rewrite (testbit_above _ b)].
      rewrite shl_u64_low, Z.shiftl_spec, (Z.testbit_neg_r _ (i - b)) by lia. apply orb_false_r.
    + intros i Hi. rewrite !Z.lor_spec, shl_u64_low by lia. done.
  - rewrite Hr by (by rewrite length_reverse, length_bits_of).
    by apply (reverse_bits_width b recv Hw).
  - rewrite swap_bytes_width by done. rewrite Hr; [done|].
    rewrite <- swap_bytes_spec by done. apply length_bits_of.
Qed.
