(* ===== verification/Numbers.v ===== *)
(** Numbers: the floats of the language as their bits, and the conversions between the
    integer and the float domains ([crates/noeta-ext-abi/src/ring1.rs]).

    An [f64] is its 64-bit pattern and an [f32] its 32-bit one, as [to_bits] gives them; the
    operations of Rust on them decode to the Standard Library's [spec_float], compute there
    and encode.  A NaN result is the quiet NaN without payload. *)
From Stdlib Require Import Floats.SpecFloat Strings.Ascii Strings.String.
From S2P Require Import Prelude Words.
From stdpp Require Import options.
Open Scope Z_scope.

(** ** Floats *)

(** A binary format: the bits of the stored mantissa and of the exponent. *)
Record Format := mkFormat { mantissa_bits : Z; exponent_bits : Z }.
Definition F64 : Format := mkFormat 52 11.
Definition F32 : Format := mkFormat 23 8.

Section Formats.
Context (fmt : Format).
Let mw := mantissa_bits fmt.
Let ew := exponent_bits fmt.
Definition precision : Z := mw + 1.
Definition max_exponent : Z := 2 ^ (ew - 1).
Definition min_exponent : Z := 3 - max_exponent - precision.
Definition sign_mask : Z := 2 ^ (mw + ew).

Definition decode_float (w : Z) : spec_float :=
  let s := Z.testbit w (mw + ew) in
  let e := (w / 2 ^ mw) mod 2 ^ ew in
  let m := w mod 2 ^ mw in
  if e =? 2 ^ ew - 1 then (if m =? 0 then S754_infinity s else S754_nan)
  else if e =? 0 then
    match m with Z.pos p => S754_finite s p min_exponent | _ => S754_zero s end
  else S754_finite s (Z.to_pos (2 ^ mw + m)) (e - 1 + min_exponent).

Definition encode_float (x : spec_float) : Z :=
  let signed (s : bool) (w : Z) := if s then sign_mask + w else w in
  match x with
  | S754_zero s => signed s 0
  | S754_infinity s => signed s ((2 ^ ew - 1) * 2 ^ mw)
  | S754_nan => (2 ^ ew - 1) * 2 ^ mw + 2 ^ (mw - 1)
  | S754_finite s m e =>
      signed s (if Z.pos m <? 2 ^ mw then Z.pos m
                else (e - min_exponent + 1) * 2 ^ mw + (Z.pos m - 2 ^ mw))
  end.

(** The nearest float to [m * 2 ^ e], ties to even. *)
Definition round_float (m e : Z) (negative_zero : bool) : spec_float :=
  binary_normalize precision max_exponent m e negative_zero.

Definition float_is_nan (w : Z) : bool :=
  match decode_float w with S754_nan => true | _ => false end.
Definition float_is_finite (w : Z) : bool :=
  match decode_float w with S754_nan | S754_infinity _ => false | _ => true end.
Definition float_neg (w : Z) : Z := Z.lxor w sign_mask.
Definition float_add (a b : Z) : Z :=
  encode_float (SFadd precision max_exponent (decode_float a) (decode_float b)).
Definition float_sub (a b : Z) : Z :=
  encode_float (SFsub precision max_exponent (decode_float a) (decode_float b)).
Definition float_mul (a b : Z) : Z :=
  encode_float (SFmul precision max_exponent (decode_float a) (decode_float b)).
Definition float_div (a b : Z) : Z :=
  encode_float (SFdiv precision max_exponent (decode_float a) (decode_float b)).

(** [%]: the remainder of the truncated quotient, exact, with the dividend's sign. *)
Definition float_rem (a b : Z) : Z :=
  let x := decode_float a in
  let y := decode_float b in
  encode_float
    match x, y with
    | S754_nan, _ | _, S754_nan | S754_infinity _, _ | _, S754_zero _ => S754_nan
    | S754_zero _, _ | _, S754_infinity _ => x
    | S754_finite s m e, S754_finite _ n f =>
        let r := (Z.pos m * 2 ^ (e - min_exponent)) mod (Z.pos n * 2 ^ (f - min_exponent)) in
        round_float (if s then - r else r) min_exponent s
    end.
End Formats.

Abbreviation f64_of := (decode_float F64).
Abbreviation f32_of := (decode_float F32).

(** The exact value of a finite float of either format, in units of [2 ^ -1074]. *)
Definition scaled (x : spec_float) : Z :=
  match x with
  | S754_finite s m e => cond_Zopp s (Z.pos m * 2 ^ (e + 1074))
  | _ => 0
  end.

(** [partial_cmp] and [==] of floats: by value, the two zeros equal, NaN apart. *)
Definition float_partial_cmp (x y : spec_float) : option comparison :=
  match x, y with
  | S754_nan, _ | _, S754_nan => None
  | S754_infinity s, S754_infinity t =>
      Some (if s then (if t then Eq else Lt) else (if t then Gt else Eq))
  | S754_infinity s, _ => Some (if s then Lt else Gt)
  | _, S754_infinity t => Some (if t then Gt else Lt)
  | _, _ => Some (scaled x ?= scaled y)
  end.
Definition f64_partial_cmp (a b : Z) : option comparison := float_partial_cmp (f64_of a) (f64_of b).
Definition f64_eqb (a b : Z) : bool :=
  match f64_partial_cmp a b with Some Eq => true | _ => false end.
Definition f64_leb (a b : Z) : bool :=
  match f64_partial_cmp a b with Some (Lt | Eq) => true | _ => false end.
Definition f64_ltb (a b : Z) : bool :=
  match f64_partial_cmp a b with Some Lt => true | _ => false end.

(** The casts: [i as f64], [i as f32], [f as f32], [f as f64], [trunc]. *)
Definition int_to_float (fmt : Format) (i : Z) : Z := encode_float fmt (round_float fmt i 0 false).
Definition cast_float (from to : Format) (w : Z) : Z :=
  encode_float to
    match decode_float from w with
    | S754_finite s m e => round_float to (cond_Zopp s (Z.pos m)) e s
    | x => x
    end.
Definition f64_trunc (w : Z) : Z :=
  match f64_of w with
  | S754_finite s m e =>
      if 0 <=? e then w
      else encode_float F64 (round_float F64 (cond_Zopp s (Z.pos m / 2 ^ (- e))) 0 s)
  | _ => w
  end.

(** The integer part of a finite float, and the saturating cast to the integers [lo .. hi]. *)
Definition float_trunc_int (x : spec_float) : Z := Z.quot (scaled x) (2 ^ 1074).
Definition cast_to_int (lo hi w : Z) : Z :=
  match f64_of w with
  | S754_nan => 0
  | S754_infinity s => if s then lo else hi
  | x => Z.max lo (Z.min hi (float_trunc_int x))
  end.

(** ** The conversions *)

(** [float_to_int]. *)
Definition float_to_int (f : Z) (signed : bool) (bits : Z) : Z :=
  if signed then
    if bits =? 8 then cast_to_int (- 2 ^ 7) (2 ^ 7 - 1) f
    else if bits =? 16 then cast_to_int (- 2 ^ 15) (2 ^ 15 - 1) f
    else if bits =? 32 then cast_to_int (- 2 ^ 31) (2 ^ 31 - 1) f
    else cast_to_int (- 2 ^ 63) (2 ^ 63 - 1) f
  else
    if bits =? 8 then cast_to_int 0 (2 ^ 8 - 1) f
    else if bits =? 16 then cast_to_int 0 (2 ^ 16 - 1) f
    else if bits =? 32 then cast_to_int 0 (2 ^ 32 - 1) f
    else as_i64 (cast_to_int 0 (2 ^ 64 - 1) f).

(** [NumScalar]. *)
Inductive NumScalar := ScalarInt (i : Z) | ScalarF64 (f : Z) | ScalarF32 (f : Z).

(** [NumConvert] and its [from_name]. *)
Inductive NumConvert := ToF64 | ToF32 | ToInt (signed : bool) (bits : Z).
Definition num_convert_from_name (name : string) : option NumConvert :=
  if bool_decide (name = "to_float"%string) || bool_decide (name = "to_f64"%string) then Some ToF64
  else if bool_decide (name = "to_f32"%string) then Some ToF32
  else match from_name name with
       | Some (Convert signed bits) => Some (ToInt signed bits)
       | _ => None
       end.

(** [num_convert]. *)
Definition num_convert (src : NumScalar) (dest : NumConvert) : NumScalar :=
  let as_f64 s :=
    match s with
    | ScalarInt i => int_to_float F64 i
    | ScalarF64 f => f
    | ScalarF32 f => cast_float F32 F64 f
    end in
  match dest with
  | ToF64 => ScalarF64 (as_f64 src)
  | ToF32 =>
      ScalarF32
        match src with
        | ScalarInt i => int_to_float F32 i
        | ScalarF64 f => cast_float F64 F32 f
        | ScalarF32 f => f
        end
  | ToInt signed bits =>
      ScalarInt
        match src with
        | ScalarInt i => mask_to_width i signed bits
        | ScalarF64 f => float_to_int f signed bits
        | ScalarF32 f => float_to_int (cast_float F32 F64 f) signed bits
        end
  end.

(** [checked_float_to_int]. *)
Definition checked_float_to_int (f : Z) (dest_signed : bool) (dest_bits : Z) : option Z :=
  if negb (float_is_finite F64 f) then None
  else
    let truncated := f64_trunc f in
    let '(lo, hi_exclusive) :=
      if dest_signed then
        let half := int_to_float F64 (2 ^ (dest_bits - 1)) in (float_neg F64 half, half)
      else (int_to_float F64 0, int_to_float F64 (2 ^ dest_bits)) in
    if f64_leb lo truncated && f64_ltb truncated hi_exclusive
    then Some (float_to_int f dest_signed dest_bits) else None.

(** [checked_convert]. *)
Definition checked_convert (src : NumScalar) (src_signed dest_signed : bool) (dest_bits : Z) :
    option Z :=
  match src with
  | ScalarInt i => checked_int_convert i src_signed dest_signed dest_bits
  | ScalarF64 f => checked_float_to_int f dest_signed dest_bits
  | ScalarF32 f => checked_float_to_int (cast_float F32 F64 f) dest_signed dest_bits
  end.

(** [IntOutcome] and [int_method_outcome]; [None] is an [unreachable!]. *)
Inductive IntOutcome := Word (w : Z) | Checked (o : option Z).
Definition int_method_outcome (recv : Z) (method : IntMethod) (arg : Z) (width : option Z) :
    option IntOutcome :=
  match method with
  | CheckedConvert src_signed signed bits =>
      Some (Checked (checked_convert (ScalarInt recv) src_signed signed bits))
  | other =>
      Word <$> match width with
               | Some bits => int_method_width recv other arg bits
               | None => int_method recv other arg
               end
  end.
