(* ===== verification/NumbersFacts.v ===== *)
(** Numbers: floats that are held exactly, the casts between the domains, and what the integer
    methods and the checked conversions compute. *)
From Stdlib Require Import Floats.SpecFloat Strings.String.
From S2P Require Import Prelude Words Numbers.
From stdpp Require Import options.
Open Scope Z_scope.

(** ** Digits *)

Lemma digits2_log2 m : Z.pos (digits2_pos m) = Z.log2 (Z.pos m) + 1.
Proof.
  induction m as [p IH|p IH|]; [..|done]; cbn [digits2_pos]; rewrite Pos2Z.inj_succ, IH.
  - rewrite (Pos2Z.inj_xI p), Z.log2_succ_double by lia. lia.
  - rewrite (Pos2Z.inj_xO p), Z.log2_double by lia. lia.
Qed.
Lemma digits2_le m n : 0 <= n -> Z.pos (digits2_pos m) <= n <-> Z.pos m < 2 ^ n.
Proof. intros. rewrite digits2_log2, Z.log2_lt_pow2 by lia. lia. Qed.

Lemma shl_align_spec m e e' :
  e' <= e ->
  exists m', shl_align m e e' = (m', e') /\ Z.pos m' = Z.pos m * 2 ^ (e - e').
Proof.
  intros H. unfold shl_align. destruct (e' - e) as [|d|d] eqn:E; [|lia|].
  - exists m. replace e' with e by lia. split; [done|]. rewrite Z.sub_diag. lia.
  - eexists. split; [done|]. replace (e - e') with (Z.pos d) by lia.
    clear. induction d as [|d IH] using Pos.peano_ind; [simpl; lia|].
    rewrite Pos.iter_succ, Pos2Z.inj_xO, IH, Pos2Z.inj_succ, Z.pow_succ_r by lia. lia.
Qed.

(** ** Exact rounding *)

(** The canonical finite floats of a format. *)
Definition held (fmt : Format) (m : positive) (e : Z) : Prop :=
  bounded (precision fmt) (max_exponent fmt) m e = true.

Lemma held_F64 m e :
  held F64 m e <->
    (Z.pos m < 2 ^ 52 /\ e = -1074) \/ (2 ^ 52 <= Z.pos m < 2 ^ 53 /\ -1074 <= e <= 971).
Proof.
  unfold held, bounded, canonical_mantissa, fexp, emin.
  change (precision F64) with 53. change (max_exponent F64) with 1024.
  rewrite andb_true_iff, Z.eqb_eq, Z.leb_le.
  pose proof (digits2_le m 52). pose proof (digits2_le m 53). lia.
Qed.
Lemma held_F32 m e :
  held F32 m e <->
    (Z.pos m < 2 ^ 23 /\ e = -149) \/ (2 ^ 23 <= Z.pos m < 2 ^ 24 /\ -149 <= e <= 104).
Proof.
  unfold held, bounded, canonical_mantissa, fexp, emin.
  change (precision F32) with 24. change (max_exponent F32) with 128.
  rewrite andb_true_iff, Z.eqb_eq, Z.leb_le.
  pose proof (digits2_le m 23). pose proof (digits2_le m 24). lia.
Qed.

Lemma round_held fmt s m e :
  held fmt m e ->
  binary_round_aux (precision fmt) (max_exponent fmt) s (Z.pos m) e loc_Exact = S754_finite s m e.
Proof.
  unfold held, bounded, canonical_mantissa. rewrite andb_true_iff, Z.eqb_eq. intros [Hc Hb].
  unfold binary_round_aux, shr_fexp. cbn [Zdigits2 shr_record_of_loc].
  rewrite Hc, Z.sub_diag. cbn [shr shr_m loc_of_shr_record round_nearest_even Zdigits2].
  rewrite Hc, Z.sub_diag. cbn [shr shr_m shr_record_of_loc]. by rewrite Hb.
Qed.

(** A number of at most [precision] digits in range is held exactly. *)
Lemma round_exact s m e z :
  Z.pos m < 2 ^ 53 -> -1074 <= e <= 971 ->
  exists m' e', round_float F64 (cond_Zopp s (Z.pos m)) e z = S754_finite s m' e' /\
    held F64 m' e' /\ e' <= e /\ Z.pos m' = Z.pos m * 2 ^ (e - e').
Proof.
  intros Hm He. apply digits2_le in Hm; [|lia].
  set (e' := fexp (precision F64) (max_exponent F64) (Z.pos (digits2_pos m) + e)).
  assert (He' : e' = Z.max (Z.pos (digits2_pos m) + e - 53) (-1074)) by done.
  assert (Hle : e' <= e) by lia.
  destruct (shl_align_spec m e e' Hle) as (m' & Hs & Hm').
  assert (Hh : held F64 m' e').
  { unfold held, bounded. rewrite andb_true_iff. split.
    - unfold canonical_mantissa. rewrite Z.eqb_eq.
      assert (Hd : Z.pos (digits2_pos m') = Z.pos (digits2_pos m) + (e - e')).
      { rewrite !digits2_log2, Hm', Z.log2_mul_pow2 by lia. lia. }
      rewrite Hd. unfold e' at 2. f_equal. lia.
    - rewrite Z.leb_le. change (max_exponent F64) with 1024. change (precision F64) with 53. lia. }
  exists m', e'. split; [|done].
  assert (Hb : binary_round (precision F64) (max_exponent F64) s m e = S754_finite s m' e').
  { unfold binary_round. fold e'. rewrite Hs. by apply round_held. }
  unfold round_float, binary_normalize. destruct s; simpl; exact Hb.
Qed.

(** ** Encoding and decoding *)

Lemma decode_encode_F64 s m e :
  held F64 m e -> f64_of (encode_float F64 (S754_finite s m e)) = S754_finite s m e.
Proof.
  rewrite held_F64. intros H. unfold encode_float, decode_float.
  change (min_exponent F64) with (-1074). change (sign_mask F64) with (2 ^ 63).
  cbn [mantissa_bits exponent_bits F64]. change (52 + 11) with 63.
  set (w := if Z.pos m <? 2 ^ 52 then Z.pos m else (e - -1074 + 1) * 2 ^ 52 + (Z.pos m - 2 ^ 52)).
  assert (Hw : 0 <= w < 2 ^ 63 /\ w / 2 ^ 52 = (if Z.pos m <? 2 ^ 52 then 0 else e + 1075) /\
               w mod 2 ^ 52 = (if Z.pos m <? 2 ^ 52 then Z.pos m else Z.pos m - 2 ^ 52)).
  { unfold w. case Z.ltb_spec; intros.
    - rewrite Z.div_small, Z.mod_small by lia. lia.
    - rewrite Z.div_add_l, (Z.div_small (Z.pos m - 2 ^ 52)) by lia.
      rewrite Z.add_comm, Z.mod_add, Z.mod_small by lia. lia. }
  destruct Hw as (Hr & Hd & Hm). clearbody w.
  assert (Hs : Z.testbit (if s then 2 ^ 63 + w else w) 63 = s /\
               (if s then 2 ^ 63 + w else w) / 2 ^ 52 mod 2 ^ 11 = w / 2 ^ 52 /\
               (if s then 2 ^ 63 + w else w) mod 2 ^ 52 = w mod 2 ^ 52).
  { rewrite Z.testbit_odd, Z.shiftr_div_pow2 by lia. destruct s.
    - replace ((2 ^ 63 + w) / 2 ^ 63) with 1 by (apply (Z.div_unique _ _ 1 w); lia).
      replace (2 ^ 63 + w) with (w + 2048 * 2 ^ 52) by lia.
      rewrite Z.div_add, Z.mod_add, (Z.add_comm _ 2048) by lia.
      rewrite <- Z.add_mod_idemp_l by lia. change (2048 mod 2 ^ 11) with 0.
      rewrite Z.mod_small; [done|]. rewrite Hd. case Z.ltb_spec; lia.
    - rewrite (Z.div_small w (2 ^ 63)), (Z.mod_small (w / 2 ^ 52)); [done|..|lia].
      rewrite Hd. case Z.ltb_spec; lia. }
  destruct Hs as (-> & -> & ->). rewrite Hd, Hm. clear Hd Hm Hr w.
  case Z.ltb_spec; intros Hlt.
  - rewrite (proj2 (Z.eqb_neq 0 _)), Z.eqb_refl by lia.
    destruct H as [[_ ->]|[? _]]; [done|lia].
  - rewrite (proj2 (Z.eqb_neq (e + 1075) _)), (proj2 (Z.eqb_neq (e + 1075) 0)) by lia.
    f_equal; [|lia]. replace (2 ^ 52 + (Z.pos m - 2 ^ 52)) with (Z.pos m) by lia. done.
Qed.

(** Every pattern decodes to a canonical float. *)
Lemma decode_held fmt w s m e :
  fmt = F64 \/ fmt = F32 -> decode_float fmt w = S754_finite s m e -> held fmt m e.
Proof.
  intros Hf. assert (Hmw : 0 < mantissa_bits fmt) by (destruct Hf as [-> | ->]; simpl; lia).
  assert (Hew : 0 < exponent_bits fmt) by (destruct Hf as [-> | ->]; simpl; lia).
  unfold decode_float.
  pose proof (Z.mod_pos_bound w (2 ^ mantissa_bits fmt)) as Hm.
  pose proof (Z.mod_pos_bound (w / 2 ^ mantissa_bits fmt) (2 ^ exponent_bits fmt)) as He.
  revert Hm He. generalize (Z.testbit w (mantissa_bits fmt + exponent_bits fmt)).
  generalize (w mod 2 ^ mantissa_bits fmt).
  generalize ((w / 2 ^ mantissa_bits fmt) mod 2 ^ exponent_bits fmt). intros a b c Hm He.
  case (Z.eqb_spec a (2 ^ exponent_bits fmt - 1)); intros Ha; [by case_match|].
  case (Z.eqb_spec a 0); intros Ha0.
  - destruct b as [|p|p]; intros [= <- <- <-] || intros [=].
    destruct Hf as [-> | ->]; [rewrite held_F64|rewrite held_F32];
      cbn [mantissa_bits exponent_bits F64 F32] in *; left; split; (done || lia).
  - intros [= <- <- <-].
    destruct Hf as [-> | ->]; [rewrite held_F64|rewrite held_F32];
      cbn [mantissa_bits exponent_bits F64 F32] in *; right;
      rewrite Z2Pos.id by lia; split; try lia.
    + change (min_exponent F64) with (-1074). lia.
    + change (min_exponent F32) with (-149). lia.
Qed.

(** ** The integer part *)

Definition finite_float (x : spec_float) : Prop :=
  match x with S754_nan | S754_infinity _ => False | _ => True end.

Lemma trunc_int_finite s m e :
  -1074 <= e ->
  float_trunc_int (S754_finite s m e) =
    cond_Zopp s (if 0 <=? e then Z.pos m * 2 ^ e else Z.pos m / 2 ^ (- e)).
Proof.
  intros He. unfold float_trunc_int, scaled.
  assert (E : Z.quot (Z.pos m * 2 ^ (e + 1074)) (2 ^ 1074) =
              if 0 <=? e then Z.pos m * 2 ^ e else Z.pos m / 2 ^ (- e)).
  { rewrite Z.quot_div_nonneg; [|apply Z.mul_nonneg_nonneg; [done|apply Z.pow_nonneg; done]|done].
    case Z.leb_spec; intros Hs.
    - rewrite Z.pow_add_r, Z.mul_assoc, Z.div_mul by (done || lia). done.
    - replace (2 ^ 1074) with (2 ^ (- e) * 2 ^ (e + 1074))
        by (rewrite <- Z.pow_add_r by lia; f_equal; lia).
      apply Z.div_mul_cancel_r; apply Z.pow_nonzero; lia. }
  destruct s; cbn [cond_Zopp]; [|exact E]. rewrite Z.quot_opp_l by done. by rewrite E.
Qed.

Lemma scaled_held s m e m' e' :
  -1074 <= e' <= e -> Z.pos m' = Z.pos m * 2 ^ (e - e') ->
  scaled (S754_finite s m' e') = scaled (S754_finite s m e).
Proof.
  intros He Hm. unfold scaled. f_equal. rewrite Hm, <- Z.mul_assoc, <- Z.pow_add_r by lia.
  do 2 f_equal. lia.
Qed.

(** [trunc] keeps exactly the integer part. *)
Lemma f64_trunc_value w :
  finite_float (f64_of w) ->
  finite_float (f64_of (f64_trunc w)) /\
  scaled (f64_of (f64_trunc w)) = float_trunc_int (f64_of w) * 2 ^ 1074.
Proof.
  intros Hf. unfold f64_trunc. destruct (f64_of w) as [s|s| |s m e] eqn:E; try done.
  { rewrite E. by split. }
  assert (Hh := decode_held F64 w s m e (or_introl eq_refl) E).
  rewrite held_F64 in Hh. rewrite trunc_int_finite by lia.
  case Z.leb_spec; intros He.
  - rewrite E. split; [done|]. unfold scaled. rewrite Z.pow_add_r, Z.mul_assoc by lia.
    by destruct s; cbn [cond_Zopp]; rewrite ?Z.mul_opp_l.
  - assert (Hp : 0 < 2 ^ (- e)) by (apply Z.pow_pos_nonneg; lia).
    assert (Ht : 0 <= Z.pos m / 2 ^ (- e) < 2 ^ 53).
    { split; [by apply Z.div_pos|]. apply Z.div_lt_upper_bound; [done|nia]. }
    destruct (Z.pos m / 2 ^ (- e)) as [|t|t]; [|clear Hh Hp E|lia].
    { destruct s; by split. }
    destruct (round_exact s t 0 s ltac:(lia) ltac:(lia)) as (m' & e' & -> & Hh & Hle & Hm').
    rewrite decode_encode_F64 by done. split; [done|].
    rewrite held_F64 in Hh.
    rewrite (scaled_held s t 0 m' e') by (lia || done). unfold scaled.
    by destruct s; cbn [cond_Zopp]; rewrite ?Z.mul_opp_l.
Qed.

(** Widening an [f32] keeps its value. *)
Lemma cast_F32_F64_value w :
  (finite_float (f64_of (cast_float F32 F64 w)) <-> finite_float (f32_of w)) /\
  scaled (f64_of (cast_float F32 F64 w)) = scaled (f32_of w).
Proof.
  unfold cast_float. destruct (f32_of w) as [s|s| |s m e] eqn:E.
  1-3: try destruct s; vm_compute; tauto.
  assert (Hh := decode_held F32 w s m e (or_intror eq_refl) E). rewrite held_F32 in Hh.
  destruct (round_exact s m e s ltac:(lia) ltac:(lia)) as (m' & e' & -> & Hh' & Hle & Hm').
  rewrite decode_encode_F64 by done. split; [done|].
  rewrite held_F64 in Hh'. by apply scaled_held; [lia|].
Qed.

(** ** The conversions to integers *)

Definition saturate (signed : bool) (bits n : Z) : Z :=
  Z.max (int_width_range signed bits).1 (Z.min (int_width_range signed bits).2 n).

(** The number a scalar stands for, cut at the decimal point; none for NaN and infinities. *)
Definition num_value (src : NumScalar) (src_signed : bool) : option Z :=
  match src with
  | ScalarInt i => Some (int_value src_signed i)
  | ScalarF64 f =>
      if float_is_finite F64 f then Some (float_trunc_int (f64_of f)) else None
  | ScalarF32 f =>
      if float_is_finite F32 f then Some (float_trunc_int (f32_of f)) else None
  end.

Lemma float_is_finite_spec fmt w : float_is_finite fmt w = true <-> finite_float (decode_float fmt w).
Proof. unfold float_is_finite. destruct (decode_float fmt w); simpl; split; done. Qed.

Lemma float_to_int_finite w signed b :
  fixed_width b -> finite_float (f64_of w) ->
  float_to_int w signed b = as_i64 (saturate signed b (float_trunc_int (f64_of w))).
Proof.
  intros Hb Hf.
  assert (Hc : forall lo hi, cast_to_int lo hi w = Z.max lo (Z.min hi (float_trunc_int (f64_of w)))).
  { intros. unfold cast_to_int. by destruct (f64_of w). }
  unfold float_to_int. rewrite !Hc. generalize (float_trunc_int (f64_of w)). intros t.
  unfold saturate, int_width_range.
  each_width Hb; destruct signed; cbn [Z.eqb Pos.eqb fst snd];
    try done; symmetry; apply as_i64_id; unfold is_i64; simpl Z.sub; lia.
Qed.

Lemma saturate_id signed b n : in_width signed b n -> saturate signed b n = n.
Proof. unfold in_width, saturate. lia. Qed.
Lemma in_width_spec signed b n :
  in_width signed b n <->
    (if signed then - 2 ^ (b - 1) <= n < 2 ^ (b - 1) else 0 <= n < 2 ^ b).
Proof. unfold in_width, int_width_range. destruct signed; simpl; lia. Qed.
#[export] Instance in_width_dec signed b n : Decision (in_width signed b n).
Proof. unfold in_width. apply _. Defined.

(** The bounds the checked cast compares with are the powers of two themselves. *)
Lemma bound_held b :
  fixed_width b ->
  (let x := f64_of (int_to_float F64 (2 ^ b)) in finite_float x /\ scaled x = 2 ^ b * 2 ^ 1074) /\
  (let x := f64_of (int_to_float F64 (2 ^ (b - 1))) in
     finite_float x /\ scaled x = 2 ^ (b - 1) * 2 ^ 1074) /\
  (let x := f64_of (float_neg F64 (int_to_float F64 (2 ^ (b - 1)))) in
     finite_float x /\ scaled x = - 2 ^ (b - 1) * 2 ^ 1074).
Proof. intros Hb. each_width Hb; vm_compute; done. Qed.

Lemma partial_cmp_finite x y :
  finite_float x -> finite_float y -> float_partial_cmp x y = Some (scaled x ?= scaled y).
Proof. by destruct x, y. Qed.
Lemma f64_leb_finite a b :
  finite_float (f64_of a) -> finite_float (f64_of b) ->
  f64_leb a b = true <-> scaled (f64_of a) <= scaled (f64_of b).
Proof.
  intros Ha Hb. unfold f64_leb, f64_partial_cmp. rewrite partial_cmp_finite by done.
  case Z.compare_spec; intros; lia || (split; [done|lia]).
Qed.
Lemma f64_ltb_finite a b :
  finite_float (f64_of a) -> finite_float (f64_of b) ->
  f64_ltb a b = true <-> scaled (f64_of a) < scaled (f64_of b).
Proof.
  intros Ha Hb. unfold f64_ltb, f64_partial_cmp. rewrite partial_cmp_finite by done.
  case Z.compare_spec; intros; (split; [done|lia]) || lia.
Qed.

Lemma checked_float_spec w signed b :
  fixed_width b ->
  checked_float_to_int w signed b =
    (n ← num_value (ScalarF64 w) true; if decide (in_width signed b n) then Some (as_i64 n) else None).
Proof.
  intros Hb. unfold checked_float_to_int. cbn [num_value].
  destruct (float_is_finite F64 w) eqn:Hf; [|done]. cbn [negb mbind option_bind].
  apply float_is_finite_spec in Hf.
  destruct (f64_trunc_value w Hf) as [Hft Ht]. destruct (bound_held b Hb) as ([H1 E1] & [H2 E2] & [H3 E3]).
  rewrite float_to_int_finite by done.
  set (t := float_trunc_int (f64_of w)) in *. assert (HU : 0 < 2 ^ 1074) by done.
  assert (Hr : (let '(lo, hi) :=
            if signed
            then let half := int_to_float F64 (2 ^ (b - 1)) in (float_neg F64 half, half)
            else (int_to_float F64 0, int_to_float F64 (2 ^ b)) in
          f64_leb lo (f64_trunc w) && f64_ltb (f64_trunc w) hi) = true <-> in_width signed b t).
  { rewrite in_width_spec. revert HU Ht E1 E2 E3. generalize (2 ^ 1074). intros U HU Ht E1 E2 E3.
    destruct signed; cbv zeta; rewrite andb_true_iff, f64_leb_finite, f64_ltb_finite by done.
    - rewrite E2, E3, Ht. nia.
    - rewrite E1, Ht. change (scaled (f64_of (int_to_float F64 0))) with 0. nia. }
  destruct signed; cbv beta iota zeta in *;
    match goal with |- (if ?c then _ else _) = _ => destruct c eqn:Hm end;
    (rewrite decide_False; [done|]; rewrite <- Hr; congruence) ||
      (rewrite decide_True, saturate_id by (by apply Hr); done).
Qed.

(** ** Whole conversions *)

Definition scalar_ok (src : NumScalar) : Prop :=
  match src with ScalarInt i => is_i64 i | _ => True end.

Lemma checked_int_spec i ss signed b :
  fixed_width b -> is_i64 i ->
  checked_int_convert i ss signed b =
    if decide (in_width signed b (int_value ss i)) then Some (as_i64 (int_value ss i)) else None.
Proof.
  intros Hb Hi. unfold checked_int_convert.
  change (if ss then i else as_u64 i) with (int_value ss i).
  pose proof (eq_refl : in_width signed b (int_value ss i) =
    ((int_width_range signed b).1 <= int_value ss i <= (int_width_range signed b).2)) as Hw.
  destruct (int_width_range signed b) as [lo hi]. cbn [fst snd] in Hw.
  case Z.leb_spec; case Z.leb_spec; intros; cbn [andb]; case_decide as Hd; try done;
    rewrite Hw in Hd; lia.
Qed.

Lemma num_value_F32 f ss :
  num_value (ScalarF32 f) ss = num_value (ScalarF64 (cast_float F32 F64 f)) ss.
Proof.
  cbn [num_value]. destruct (cast_F32_F64_value f) as [Hf Hs].
  unfold float_trunc_int. rewrite Hs.
  destruct (float_is_finite F32 f) eqn:E1, (float_is_finite F64 (cast_float F32 F64 f)) eqn:E2; try done.
  - apply float_is_finite_spec, Hf, float_is_finite_spec in E1. congruence.
  - apply float_is_finite_spec, Hf, float_is_finite_spec in E2. congruence.
Qed.

Lemma checked_convert_spec src ss signed b :
  fixed_width b -> scalar_ok src ->
  checked_convert src ss signed b =
    (n ← num_value src ss; if decide (in_width signed b n) then Some (as_i64 n) else None).
Proof.
  intros Hb Hs. destruct src as [i|f|f]; cbn [checked_convert].
  - by rewrite checked_int_spec.
  - by rewrite checked_float_spec.
  - rewrite num_value_F32. by rewrite checked_float_spec.
Qed.

(** The total conversion: integers wrap, floats saturate. *)
Lemma num_convert_int i ss signed b :
  fixed_width b -> is_i64 i ->
  num_convert (ScalarInt i) (ToInt signed b) = ScalarInt (as_i64 (wrap_to signed b (int_value ss i))).
Proof.
  intros Hb Hi. cbn [num_convert]. assert (0 < b <= 64) by (each_width Hb; lia).
  rewrite mask_wrap by done. do 2 f_equal. apply wrap_to_congr. symmetry. apply int_value_low. lia.
Qed.
Lemma num_convert_float src ss signed b n :
  fixed_width b -> (forall i, src <> ScalarInt i) -> num_value src ss = Some n ->
  num_convert src (ToInt signed b) = ScalarInt (as_i64 (saturate signed b n)).
Proof.
  intros Hb Hs. destruct src as [i|f|f]; [by destruct (Hs i)|..].
  - cbn [num_value num_convert]. case_match eqn:E; intros [= <-].
    by rewrite float_to_int_finite by (done || by apply float_is_finite_spec).
  - rewrite num_value_F32. cbn [num_value num_convert]. case_match eqn:E; intros [= <-].
    by rewrite float_to_int_finite by (done || by apply float_is_finite_spec).
Qed.

(** An integer of at most 53 bits survives the way to [f64] and back. *)
Lemma int_to_f64_value i :
  - 2 ^ 53 < i < 2 ^ 53 ->
  finite_float (f64_of (int_to_float F64 i)) /\ float_trunc_int (f64_of (int_to_float F64 i)) = i.
Proof.
  intros Hi. assert (Hz : i = 0 \/ exists s p, i = cond_Zopp s (Z.pos p)).
  { destruct i as [|p|p]; [by left|right; by exists false, p|right; by exists true, p]. }
  destruct Hz as [-> |(s & p & ->)]; [by vm_compute|].
  assert (Hp : Z.pos p < 2 ^ 53) by (destruct s; cbn [cond_Zopp] in *; lia).
  unfold int_to_float.
  destruct (round_exact s p 0 false Hp ltac:(lia)) as (m' & e' & -> & Hh & Hle & Hm').
  rewrite decode_encode_F64 by done. split; [done|].
  rewrite held_F64 in Hh. unfold float_trunc_int. rewrite (scaled_held s p 0 m' e') by (lia || done).
  unfold scaled. change (2 ^ (0 + 1074)) with (2 ^ 1074). assert (HU : 2 ^ 1074 <> 0) by done.
  revert HU. generalize (2 ^ 1074). intros U HU.
  destruct s; cbn [cond_Zopp]; rewrite ?Z.quot_opp_l, Z.quot_mul by done; done.
Qed.

(** The bit methods of a fixed-width integer are list operations on the bits of that
    width: counts, prefixes of clear bits, rotations by any amount, the reversed list, the
    reversed bytes.  The full word is the case of 64 bits. *)
Theorem int_methods_are_bitwise recv m arg b r :
  fixed_width b -> method_bits m arg (bits_of (Z.to_nat b) recv) = Some r ->
  int_method_outcome recv m arg (Some b) = Some (Word (as_i64 r)) /\
  (b = 64 -> int_method_outcome recv m arg None = Some (Word (as_i64 r))).
Proof.
  intros Hb Hm. assert (Hn : forall o, (match m with CheckedConvert _ _ _ => None | _ => o end : option Z) = o)
    by (by destruct m).
  pose proof (int_method_width_spec recv m arg b r Hb Hm) as Hw. split.
  - destruct m; try done; cbn [int_method_outcome]; by rewrite Hw.
  - intros ->. pose proof (int_method_spec recv m arg r Hm) as H64.
    destruct m; try done; cbn [int_method_outcome]; by rewrite H64.
Qed.

(** C39. A range-checked conversion answers [some] of what the total conversion gives when the
    source's value fits the destination, and that word then stands for the value; it answers
    [none] exactly when the value does not fit, NaN and the infinities included. *)
Theorem checked_convert_exact src ss signed b :
  fixed_width b -> scalar_ok src ->
  match num_value src ss with
  | Some n =>
      if decide (in_width signed b n) then
        exists w, checked_convert src ss signed b = Some w /\
          num_convert src (ToInt signed b) = ScalarInt w /\ int_value signed w = n
      else checked_convert src ss signed b = None
  | None => checked_convert src ss signed b = None
  end.
Proof.
  intros Hb Hs. rewrite checked_convert_spec by done.
  destruct (num_value src ss) as [n|] eqn:E; [|done]. cbn [mbind option_bind].
  assert (Hw : 0 < b <= 64) by (each_width Hb; lia).
  case_decide as Hr; [|done]. exists (as_i64 n). split; [done|].
  split; [|by apply (int_value_as_i64 _ b)].
  destruct src as [i|f|f].
  - rewrite (num_convert_int _ ss) by done. injection E as <-. rewrite wrap_to_id; [done|lia|done].
  - rewrite (num_convert_float _ ss _ _ n) by done. by rewrite saturate_id.
  - rewrite (num_convert_float _ ss _ _ n) by done. by rewrite saturate_id.
Qed.

(** The total conversions never fail: an integer wraps to the representative of its value
    at the destination, a finite float saturates at the destination's range after losing its
    fraction. *)
Theorem num_convert_wraps_or_saturates src ss signed b n :
  fixed_width b -> scalar_ok src -> num_value src ss = Some n ->
  exists w, num_convert src (ToInt signed b) = ScalarInt w /\
    int_value signed w =
      match src with ScalarInt _ => wrap_to signed b n | _ => saturate signed b n end.
Proof.
  intros Hb Hs E. assert (Hw : 0 < b <= 64) by (each_width Hb; lia).
  assert (Hsat : in_width signed b (saturate signed b n)).
  { pose proof (wrap_to_range signed b 0). unfold in_width, saturate in *. lia. }
  destruct src as [i|f|f]; eexists.
  - split; [by apply (num_convert_int _ ss)|]. injection E as <-.
    apply (int_value_as_i64 _ b); [done|]. apply wrap_to_range. lia.
  - split; [by apply (num_convert_float _ ss)|]. by apply (int_value_as_i64 _ b).
  - split; [by apply (num_convert_float _ ss)|]. by apply (int_value_as_i64 _ b).
Qed.

(** An integer of at most 53 bits is the same after a conversion to a float and back. *)
Theorem int_float_round_trip i :
  - 2 ^ 53 < i < 2 ^ 53 ->
  num_convert (num_convert (ScalarInt i) ToF64) (ToInt true 64) = ScalarInt i.
Proof.
  intros Hi. destruct (int_to_f64_value i Hi) as [Hf Hv].
  cbn [num_convert]. rewrite float_to_int_finite by (done || by right; right; right).
  rewrite Hv, saturate_id, as_i64_id; [done|unfold is_i64; lia|]. rewrite in_width_spec. lia.
Qed.

Lemma int_methods_are_bitwise_witness :
  int_method_outcome (-2) RotateLeft 9 (Some 16) = Some (Word 65023) /\
  int_method_outcome 6 LeadingZeros 0 None = Some (Word 61).
Proof.
  split.
  - apply (int_methods_are_bitwise (-2) RotateLeft 9 16 65023); [right; by left|by vm_compute].
  - apply (int_methods_are_bitwise 6 LeadingZeros 0 64 61); [right; right; by right|by vm_compute|done].
Defined.
Lemma checked_convert_exact_witness :
  checked_convert (ScalarInt (-1)) false true 64 = None /\
  checked_convert (ScalarF64 0xc05fe66666666666) true true 8 = Some (-127).
Proof.
  split.
  - exact (checked_convert_exact (ScalarInt (-1)) false true 64 ltac:(right; right; by right)
      ltac:(unfold scalar_ok, is_i64; lia)).
  - assert (Hv : num_value (ScalarF64 0xc05fe66666666666) true = Some (-127)) by by vm_compute.
    pose proof (checked_convert_exact (ScalarF64 0xc05fe66666666666) true true 8 ltac:(by left) I) as Hc.
    rewrite Hv in Hc. idtac. rewrite decide_True in Hc by (split; done). destruct Hc as (w & Hw & _ & Hi).
    rewrite Hw. f_equal. exact Hi.
Defined.
Lemma num_convert_wraps_or_saturates_witness :
  (exists w, num_convert (ScalarInt 300) (ToInt false 8) = ScalarInt w /\ int_value false w = 44) /\
  (exists w, num_convert (ScalarF64 0x40c81d8000000000) (ToInt false 8) = ScalarInt w /\
     int_value false w = 255).
Proof.
  assert (Hv : num_value (ScalarF64 0x40c81d8000000000) true = Some 12347) by by vm_compute.
  split.
  - assert (Hs : scalar_ok (ScalarInt 300)) by (unfold scalar_ok, is_i64; lia).
    pose proof (num_convert_wraps_or_saturates (ScalarInt 300) true false 8 300 ltac:(by left)
      Hs eq_refl) as (w & Hw & Hi).
    exists w. split; [exact Hw|]. rewrite Hi. reflexivity.
  - pose proof (num_convert_wraps_or_saturates (ScalarF64 0x40c81d8000000000) true false 8 12347
      ltac:(by left) I Hv) as (w & Hw & Hi).
    exists w. split; [exact Hw|]. rewrite Hi. reflexivity.
Defined.
Lemma int_float_round_trip_witness :
  num_convert (num_convert (ScalarInt (-9007199254740991)) ToF64) (ToInt true 64) =
    ScalarInt (-9007199254740991).
Proof. apply (int_float_round_trip (-9007199254740991)). lia. Defined.
