(* ===== verification/Shapes.v ===== *)
(** Shapes: the layout descriptors of heap aggregates and of packed list elements
    ([crates/noeta-object/src/lib.rs]).

    A [&'static Shape] or [&'static PackedSchema] is the record it points to: interning leaks
    each distinct one once, so two handles are the same pointer exactly when they are the
    same record. *)
From Stdlib Require Import Strings.String.
From S2P Require Import Prelude.
From stdpp Require Import options.
Open Scope list_scope.

(** [ShapeKind] and [Shape]. *)
Inductive ShapeKind := Struct | Class | Opaque | Enum.
#[export] Instance ShapeKind_eq_dec : EqDecision ShapeKind.
Proof. solve_decision. Defined.

Record Shape := mkShape {
  kind : ShapeKind;
  name : string;
  fields : list string;
  variant : option string;
  builtin_result_option : bool;
  variant_index : option N;
  structural_eq : bool;
  key_capable : bool;
  transient_slots : list nat;
  unsigned_slots : list nat;
}.
#[export] Instance Shape_eq_dec : EqDecision Shape.
Proof. solve_decision. Defined.

(** [PartialEq for Shape]: the metadata fields do not take part. *)
Definition shape_eq (a b : Shape) : bool :=
  bool_decide (kind a = kind b) && bool_decide (name a = name b)
  && bool_decide (fields a = fields b) && bool_decide (variant a = variant b)
  && bool_decide (builtin_result_option a = builtin_result_option b).

(** [Shape::object_equatable], [Shape::object], [Shape::enum_variant] and the [with_] methods. *)
Definition object_equatable (kind : ShapeKind) (name : string) (fields : list string)
    (structural_eq : bool) : Shape :=
  mkShape kind name fields None false None structural_eq false [] [].
Definition object (kind : ShapeKind) (name : string) (fields : list string) : Shape :=
  object_equatable kind name fields (negb (bool_decide (kind = Class))).
Definition enum_variant (name variant : string) (fields : list string)
    (builtin_result_option : bool) : Shape :=
  mkShape Enum name fields (Some variant) builtin_result_option None true false [] [].
Definition with_key_capable (s : Shape) (key_capable : bool) : Shape :=
  mkShape (kind s) (name s) (fields s) (variant s) (builtin_result_option s) (variant_index s)
    (structural_eq s) key_capable (transient_slots s) (unsigned_slots s).
Definition with_transient_slots (s : Shape) (transient_slots : list nat) : Shape :=
  mkShape (kind s) (name s) (fields s) (variant s) (builtin_result_option s) (variant_index s)
    (structural_eq s) (key_capable s) transient_slots (unsigned_slots s).
Definition with_unsigned_slots (s : Shape) (unsigned_slots : list nat) : Shape :=
  mkShape (kind s) (name s) (fields s) (variant s) (builtin_result_option s) (variant_index s)
    (structural_eq s) (key_capable s) (transient_slots s) unsigned_slots.
Definition with_variant_index (s : Shape) (index : N) : Shape :=
  mkShape (kind s) (name s) (fields s) (variant s) (builtin_result_option s) (Some index)
    (structural_eq s) (key_capable s) (transient_slots s) (unsigned_slots s).

(** [Shape::is_transient_slot], [Shape::is_unsigned_slot], [Shape::slot_of]. *)
Definition is_transient_slot (s : Shape) (i : nat) : bool := bool_decide (i ∈ transient_slots s).
Definition is_unsigned_slot (s : Shape) (i : nat) : bool := bool_decide (i ∈ unsigned_slots s).
Definition slot_of (s : Shape) (field : string) : option nat :=
  fst <$> list_find (fun f => f = field) (fields s).

(** ** Packed elements *)

(** [PackedKind] and [PackedSchema]; [schema_shape] is [None] for a bare scalar element. *)
Inductive PackedKind :=
  | KInt | KFloat | KF32 | KF64
  | KIntN (bits : Z) (signed : bool)
  | KBool
  | KStruct (inner : PackedSchema)
with PackedSchema :=
  | mkSchema (schema_shape : option Shape) (schema_fields : list PackedKind)
      (byte_size : nat) (column : bool).

Definition schema_shape (s : PackedSchema) : option Shape :=
  match s with mkSchema x _ _ _ => x end.
Definition schema_fields (s : PackedSchema) : list PackedKind :=
  match s with mkSchema _ x _ _ => x end.
Definition byte_size (s : PackedSchema) : nat := match s with mkSchema _ _ x _ => x end.
Definition column (s : PackedSchema) : bool := match s with mkSchema _ _ _ x => x end.

(** Equality of handles. *)
Fixpoint kind_eqb (a b : PackedKind) {struct a} : bool :=
  match a, b with
  | KInt, KInt | KFloat, KFloat | KF32, KF32 | KF64, KF64 | KBool, KBool => true
  | KIntN n s, KIntN m t => bool_decide (n = m) && eqb s t
  | KStruct s, KStruct t => schema_eqb s t
  | _, _ => false
  end
with schema_eqb (a b : PackedSchema) {struct a} : bool :=
  match a, b with
  | mkSchema sh fs n c, mkSchema sh' fs' n' c' =>
      bool_decide (sh = sh') && bool_decide (n = n') && eqb c c'
      && (fix fields_eqb (l k : list PackedKind) : bool :=
            match l, k with
            | [], [] => true
            | a :: l, b :: k => kind_eqb a b && fields_eqb l k
            | _, _ => false
            end) fs fs'
  end.

(** [PackedKind::byte_width]. *)
Definition byte_width (k : PackedKind) : nat :=
  match k with
  | KBool => 1
  | KF32 => 4
  | KInt | KFloat | KF64 => 8
  | KIntN bits _ => Z.to_nat (bits / 8)
  | KStruct inner => byte_size inner
  end.

(** [PackedSchema::field_prefix], [PackedSchema::count], [PackedSchema::field_offset].  A slot
    out of range panics in the code; here its width is zero. *)
Definition field_prefix (s : PackedSchema) (slot : nat) : nat :=
  sum_list (byte_width <$> take slot (schema_fields s)).
Definition field_width (s : PackedSchema) (slot : nat) : nat :=
  default 0 (byte_width <$> schema_fields s !! slot).
Definition count (s : PackedSchema) (len : nat) : nat :=
  match byte_size s with O => O | size => len / size end.
Definition field_offset (s : PackedSchema) (i slot count : nat) : nat :=
  let prefix := field_prefix s slot in
  if column s then count * prefix + i * field_width s slot
  else i * byte_size s + prefix.

(** ** The interner *)

(** [ShapeKey] and [ShapeKey::of]. *)
Record ShapeKey := mkShapeKey {
  key_kind : ShapeKind;
  key_name : string;
  key_fields : list string;
  key_variant : option string;
  key_builtin_result_option : bool;
  key_structural_eq : bool;
}.
#[export] Instance ShapeKey_eq_dec : EqDecision ShapeKey.
Proof. solve_decision. Defined.
Definition shape_key (s : Shape) : ShapeKey :=
  mkShapeKey (kind s) (name s) (fields s) (variant s) (builtin_result_option s) (structural_eq s).

(** [intern::shape]: the shape first registered under the key, and the table after. *)
Definition ShapeTable := list (ShapeKey * Shape).
Definition intern_shape (table : ShapeTable) (shape : Shape) : Shape * ShapeTable :=
  match snd <$> list_find (fun e => e.1 = shape_key shape) table with
  | Some (_, known) => (known, table)
  | None => (shape, (shape_key shape, shape) :: table)
  end.
