(* ===== verification/Values.v ===== *)
(** Values: NaN-boxed words, the payloads they point to, and map keys
    ([crates/noeta-value/src/lib.rs], [heap.rs], [crates/noeta-ext-abi/src/map_key.rs],
    [render_hint.rs]).

    A heap is the finite map from addresses to payloads; headers and reference counts are the
    subject of [Gc].  Constructors that allocate take the heap and answer the heap after, or
    nothing when the allocator has no address left. *)
From Stdlib Require Import Strings.Ascii Strings.String.
From S2P Require Import Prelude Words Numbers Shapes.
From stdpp Require Import pretty options.
Open Scope Z_scope.
Open Scope list_scope.

(** ** What values are built from *)

(** [ExternValue]: the contract of a registered extern type's values. *)
Class ExternType := {
  ExternBox : Type;
  type_identity : ExternBox -> string;
  eq_value : ExternBox -> ExternBox -> bool;
  cmp_value : ExternBox -> ExternBox -> option comparison;
  display_string : ExternBox -> string;
}.

(** The allocator: an address that is free among the live ones, or none. *)
Class Allocator := malloc : gset Z -> option Z.
Definition malloc_fresh `{Allocator} : Prop :=
  forall live a, malloc live = Some a -> a ∉ live /\ 0 <= a < 2 ^ 48.

(** [Builtin] of [noeta-bytecode]. *)
Inductive Builtin := Len | MapFn | Filter | Sum | Assert | MakeOk | MakeErr | MakeSome | PanicFn.
#[export] Instance Builtin_eq_dec : EqDecision Builtin.
Proof. solve_decision. Defined.

(** A [Value]: one 64-bit word. *)
Definition Value := Z.

(** [RenderHint]. *)
Inductive RenderHint :=
  | HUnsigned
  | HElements (inner : RenderHint)
  | HEntries (key value : option RenderHint)
  | HSlots (slots : list (nat * RenderHint))
  | HVariants (variants : list (string * list (nat * RenderHint)))
  | HParam (n : nat).

(** [PackedKeyField]. *)
Inductive PackedKeyField :=
  | FInt (i : Z)
  | FBool (b : bool)
  | FStruct (type_name : string) (fields : list PackedKeyField).

Section Values.
Context `{ExternType}.

(** [MapKey], with the payload of its boxed variant. *)
Inductive MapKey :=
  | KeyStr (s : string)
  | KeyInt (i : Z)
  | KeyExtern (e : ExternBox)
  | KeyPacked (type_name : string) (fields : list PackedKeyField).

(** [Payload].  What an iterator holds and what a future waits for are left out: no
    operation modelled here reads them. *)
Inductive Payload :=
  | PStr (s : string)
  | PBytes (data : list Z)
  | PExtern (e : ExternBox)
  | PInt (i : Z)
  | PClosure (proto : N) (upvalues : list Value)
  | PCell (inner : Value)
  | PList (items : list Value)
  | PTuple (items : list Value)
  | PSet (items : list Value)
  | PMap (entries : list (MapKey * Value))
  | PPackedList (schema : PackedSchema) (bytes : list Z)
  | PObject (shape : Shape) (slots : list Value)
  | PEnum (shape : Shape) (data : list Value)
  | PNativeModule (name : string)
  | PNativeFn (func : Builtin)
  | PModuleFn (module func : string)
  | PMethodHandle (ty method : string) (associated : bool)
  | PBoundMethod (recv : Value) (method : string)
  | PIter | PFuture | PTimer | PHandle | PAsyncIo
  | PSender | PReceiver | PChannelSend | PChannelRecv | PIsolateFuture.
End Values.

Abbreviation Heap := (gmap Z Payload).

(** ** The word *)

Definition QNAN : Z := 0x7ffc000000000000.
Definition SIGN_BIT : Z := 0x8000000000000000.
Definition PTR_MASK : Z := 0x0000ffffffffffff.
Definition INT_TAG : Z := Z.shiftl 1 49.
Definition F32_TAG : Z := Z.shiftl 1 48.
Definition TAG_UNIT : Z := 0.
Definition TAG_FALSE : Z := 1.
Definition TAG_TRUE : Z := 2.
Definition TAG_PENDING : Z := 3.
Definition TAG_UNBOUND : Z := 4.
Definition INT_MIN : Z := - Z.shiftl 1 47.
Definition INT_MAX : Z := Z.shiftl 1 47 - 1.

(** The immediate constructors. *)
Definition unit_value : Value := Z.lor QNAN TAG_UNIT.
Definition bool_value (b : bool) : Value := Z.lor QNAN (if b then TAG_TRUE else TAG_FALSE).
Definition pending : Value := Z.lor QNAN TAG_PENDING.
Definition unbound : Value := Z.lor QNAN TAG_UNBOUND.
Definition float_value (f : Z) : Value := if float_is_nan F64 f then 0x7ff8000000000000 else f.
Definition f32_value (f : Z) : Value := Z.lor (Z.lor QNAN F32_TAG) f.
Definition small_int (i : Z) : Value := Z.lor (Z.lor QNAN INT_TAG) (Z.land (as_u64 i) PTR_MASK).
Definition pointer_word (addr : Z) : Value := Z.lor (Z.lor SIGN_BIT QNAN) (Z.land addr PTR_MASK).

(** Classification. *)
Definition is_float (v : Value) : bool := negb (Z.land v QNAN =? QNAN).
Definition is_pointer (v : Value) : bool :=
  Z.land v (Z.lor SIGN_BIT QNAN) =? Z.lor SIGN_BIT QNAN.
Definition is_small_int (v : Value) : bool :=
  negb (is_float v) && negb (is_pointer v) && negb (Z.land v INT_TAG =? 0).
Definition is_unit (v : Value) : bool := v =? unit_value.
Definition is_pending (v : Value) : bool := v =? pending.
Definition is_unbound (v : Value) : bool := v =? unbound.
Definition as_bool (v : Value) : option bool :=
  if v =? bool_value true then Some true
  else if v =? bool_value false then Some false else None.
Definition as_float (v : Value) : option Z := if is_float v then Some v else None.
Definition is_f32 (v : Value) : bool :=
  negb (is_float v) && negb (is_pointer v) && negb (Z.land v F32_TAG =? 0).
Definition as_f32 (v : Value) : option Z := if is_f32 v then Some (Z.land v 0xffffffff) else None.
(** [((p << 16) as i64) >> 16] *)
Definition small_int_payload (v : Value) : Z :=
  shr_i64 (as_i64 (shl_u64 (Z.land v PTR_MASK) 16)) 16.

(** ** The heap *)

Section Heap.
Context `{ExternType, Allocator}.

(** [heap::alloc]. *)
Definition alloc (p : Payload) (h : Heap) : option (Heap * Value) :=
  addr ← malloc (dom h); Some (<[addr := p]> h, pointer_word addr).

(** [Value::int]. *)
Definition int (i : Z) (h : Heap) : option (Heap * Value) :=
  if (INT_MIN <=? i) && (i <=? INT_MAX) then Some (h, small_int i) else alloc (PInt i) h.

(** [heap::with_payload], guarded by [is_pointer] as its callers do. *)
Definition payload (h : Heap) (v : Value) : option Payload :=
  if is_pointer v then h !! Z.land v PTR_MASK else None.

Definition as_int (h : Heap) (v : Value) : option Z :=
  if is_small_int v then Some (small_int_payload v)
  else match payload h v with Some (PInt i) => Some i | _ => None end.
Definition as_string (h : Heap) (v : Value) : option string :=
  match payload h v with Some (PStr s) => Some s | _ => None end.
Definition bytes_data (h : Heap) (v : Value) : option (list Z) :=
  match payload h v with Some (PBytes b) => Some b | _ => None end.
Definition as_extern (h : Heap) (v : Value) : option ExternBox :=
  match payload h v with Some (PExtern e) => Some e | _ => None end.
Definition is_list (h : Heap) (v : Value) : bool :=
  match payload h v with Some (PList _ | PPackedList _ _) => true | _ => false end.
Definition is_packed_list (h : Heap) (v : Value) : bool :=
  match payload h v with Some (PPackedList _ _) => true | _ => false end.
Definition list_items (h : Heap) (v : Value) : option (list Value) :=
  match payload h v with Some (PList items) => Some items | _ => None end.
Definition tuple_items (h : Heap) (v : Value) : option (list Value) :=
  match payload h v with Some (PTuple items) => Some items | _ => None end.
Definition set_items (h : Heap) (v : Value) : option (list Value) :=
  match payload h v with Some (PSet items) => Some items | _ => None end.
Definition is_map (h : Heap) (v : Value) : bool :=
  match payload h v with Some (PMap _) => true | _ => false end.
Definition is_object (h : Heap) (v : Value) : bool :=
  match payload h v with Some (PObject _ _) => true | _ => false end.
Definition is_enum (h : Heap) (v : Value) : bool :=
  match payload h v with Some (PEnum _ _) => true | _ => false end.
Definition shape (h : Heap) (v : Value) : option Shape :=
  match payload h v with Some (PObject s _ | PEnum s _) => Some s | _ => None end.
Definition slots (h : Heap) (v : Value) : option (list Value) :=
  match payload h v with Some (PObject _ slots) => Some slots | _ => None end.
Definition enum_data (h : Heap) (v : Value) : option (list Value) :=
  match payload h v with Some (PEnum _ data) => Some data | _ => None end.
Definition native_module_name (h : Heap) (v : Value) : option string :=
  match payload h v with Some (PNativeModule n) => Some n | _ => None end.
Definition as_native_fn (h : Heap) (v : Value) : option Builtin :=
  match payload h v with Some (PNativeFn f) => Some f | _ => None end.
Definition as_closure (h : Heap) (v : Value) : option N :=
  match payload h v with Some (PClosure proto _) => Some proto | _ => None end.
Definition module_fn_parts (h : Heap) (v : Value) : option (string * string) :=
  match payload h v with Some (PModuleFn m f) => Some (m, f) | _ => None end.
Definition method_handle_parts (h : Heap) (v : Value) : option (string * string * bool) :=
  match payload h v with Some (PMethodHandle t m a) => Some (t, m, a) | _ => None end.
Definition bound_method_parts (h : Heap) (v : Value) : option (Value * string) :=
  match payload h v with Some (PBoundMethod r m) => Some (r, m) | _ => None end.
Definition is_iter (h : Heap) (v : Value) : bool :=
  match payload h v with Some PIter => true | _ => false end.
Definition is_future (h : Heap) (v : Value) : bool :=
  match payload h v with
  | Some (PFuture | PTimer | PHandle | PAsyncIo | PChannelSend | PChannelRecv | PIsolateFuture) =>
      true
  | _ => false
  end.
Definition is_sender (h : Heap) (v : Value) : bool :=
  match payload h v with Some PSender => true | _ => false end.
Definition is_receiver (h : Heap) (v : Value) : bool :=
  match payload h v with Some PReceiver => true | _ => false end.

(** [ExternValue::type_display_name]: the segment after the last dot. *)
Fixpoint last_segment (s : string) : string :=
  match s with
  | EmptyString => EmptyString
  | String c rest =>
      if bool_decide ("."%char ∈ String.list_ascii_of_string rest) then last_segment rest
      else if bool_decide (c = "."%char) then rest else s
  end.

(** [Value::type_name]. *)
Definition type_name (h : Heap) (v : Value) : string :=
  if as_bool v then "bool"
  else if as_int h v then "int"
  else if is_float v then "float"
  else if is_f32 v then "f32"
  else if is_pointer v then
    if as_closure h v then "function"
    else if as_native_fn h v then "function"
    else if module_fn_parts h v then "function"
    else if method_handle_parts h v then "function"
    else if bound_method_parts h v then "function"
    else if is_list h v then "list"
    else if tuple_items h v then "tuple"
    else if set_items h v then "set"
    else if is_map h v then "map"
    else if is_object h v then "object"
    else if is_enum h v then "enum"
    else if native_module_name h v then "module"
    else if is_iter h v then "iterator"
    else if is_future h v then "future"
    else if is_sender h v then "sender"
    else if is_receiver h v then "receiver"
    else if bytes_data h v then "bytes"
    else match as_extern h v with
         | Some e => last_segment (type_identity e)
         | None => "string"
         end
  else "unit".
End Heap.
