(* ===== verification/ValuesFacts.v ===== *)
(** Values: the NaN-boxed word as 16 bits of tag over 48 bits of payload. *)
From Stdlib Require Import Floats.SpecFloat.
From S2P Require Import Prelude Words Numbers NumbersFacts Shapes Values.
From stdpp Require Import options.
Open Scope Z_scope.
Open Scope list_scope.

(** ** Tag and payload *)

Definition boxed (tag low : Z) : Z := tag * 2 ^ 48 + low.
Definition is_low (low : Z) : Prop := 0 <= low < 2 ^ 48.

Lemma lor_boxed tag low : is_low low -> Z.lor (tag * 2 ^ 48) low = boxed tag low.
Proof.
  intros H. unfold boxed.
  assert (H0 : Z.land (tag * 2 ^ 48) low = 0).
  { apply Z.bits_inj'. intros i Hi.
    rewrite Z.land_spec, Z.bits_0, <- Z.shiftl_mul_pow2, Z.shiftl_spec by lia.
    destruct (decide (i < 48)); [by rewrite Z.testbit_neg_r by lia|].
    by rewrite (testbit_above low 48), andb_false_r by (done || lia). }
  by rewrite Z.add_nocarry_lxor, Z.lxor_lor.
Qed.
Lemma land_boxed tag low mask :
  is_low low -> Z.land (boxed tag low) (mask * 2 ^ 48) = Z.land tag mask * 2 ^ 48.
Proof.
  intros H. rewrite <- lor_boxed by done. rewrite <- !Z.shiftl_mul_pow2 by lia.
  apply Z.bits_inj'. intros i Hi. rewrite Z.land_spec, Z.lor_spec, !Z.shiftl_spec, Z.land_spec by lia.
  destruct (decide (i < 48)).
  - by rewrite !(Z.testbit_neg_r _ (i - 48)), !andb_false_r by lia.
  - by rewrite (testbit_above low 48), orb_false_r by (done || lia).
Qed.
Lemma land_boxed_low tag low : is_low low -> Z.land (boxed tag low) PTR_MASK = low.
Proof.
  intros H. change PTR_MASK with (Z.ones 48). rewrite Z.land_ones by lia. unfold boxed.
  rewrite Z.add_comm, Z.mod_add, Z.mod_small by (done || lia). done.
Qed.
Lemma boxed_inj t1 l1 t2 l2 : is_low l1 -> is_low l2 -> boxed t1 l1 = boxed t2 l2 -> t1 = t2 /\ l1 = l2.
Proof. unfold boxed, is_low. lia. Qed.
Lemma boxed_div tag low : is_low low -> boxed tag low / 2 ^ 48 = tag.
Proof. intros. unfold boxed. rewrite Z.div_add_l, Z.div_small by (done || lia). lia. Qed.
Lemma box_word w : w = boxed (w / 2 ^ 48) (w mod 2 ^ 48) /\ is_low (w mod 2 ^ 48).
Proof.
  unfold boxed, is_low. pose proof (Z.mod_pos_bound w (2 ^ 48)).
  pose proof (Z.div_mod w (2 ^ 48)). lia.
Qed.

Lemma scaled_eqb a b : (a * 2 ^ 48 =? b * 2 ^ 48) = (a =? b).
Proof. case Z.eqb_spec; case Z.eqb_spec; intros; lia. Qed.
Lemma is_float_boxed t l : is_low l -> is_float (boxed t l) = negb (Z.land t 0x7ffc =? 0x7ffc).
Proof. intros H. unfold is_float. change QNAN with (0x7ffc * 2 ^ 48). by rewrite land_boxed, scaled_eqb. Qed.
Lemma is_pointer_boxed t l : is_low l -> is_pointer (boxed t l) = (Z.land t 0xfffc =? 0xfffc).
Proof.
  intros H. unfold is_pointer. change (Z.lor SIGN_BIT QNAN) with (0xfffc * 2 ^ 48).
  by rewrite land_boxed, scaled_eqb.
Qed.
Lemma tag_eqb t l m : is_low l -> (Z.land (boxed t l) (m * 2 ^ 48) =? 0) = (Z.land t m =? 0).
Proof. intros H. rewrite land_boxed by done. exact (scaled_eqb _ 0). Qed.
Lemma is_small_int_boxed t l :
  is_low l ->
  is_small_int (boxed t l) =
    (Z.land t 0x7ffc =? 0x7ffc) && negb (Z.land t 0xfffc =? 0xfffc) && negb (Z.land t 2 =? 0).
Proof.
  intros H. unfold is_small_int. rewrite is_float_boxed, is_pointer_boxed, negb_involutive by done.
  change INT_TAG with (2 * 2 ^ 48). by rewrite tag_eqb.
Qed.
Lemma is_f32_boxed t l :
  is_low l ->
  is_f32 (boxed t l) =
    (Z.land t 0x7ffc =? 0x7ffc) && negb (Z.land t 0xfffc =? 0xfffc) && negb (Z.land t 1 =? 0).
Proof.
  intros H. unfold is_f32. rewrite is_float_boxed, is_pointer_boxed, negb_involutive by done.
  change F32_TAG with (1 * 2 ^ 48). by rewrite tag_eqb.
Qed.

(** ** The constructors as boxes *)

Lemma land_low x : is_low (Z.land x PTR_MASK).
Proof. change PTR_MASK with (Z.ones 48). rewrite Z.land_ones by lia. apply Z.mod_pos_bound. lia. Qed.
Lemma small_int_boxed i : small_int i = boxed 0x7ffe (Z.land (as_u64 i) PTR_MASK).
Proof.
  unfold small_int. change (Z.lor QNAN INT_TAG) with (0x7ffe * 2 ^ 48). apply lor_boxed, land_low.
Qed.
Lemma pointer_boxed a : pointer_word a = boxed 0xfffc (Z.land a PTR_MASK).
Proof.
  unfold pointer_word. change (Z.lor SIGN_BIT QNAN) with (0xfffc * 2 ^ 48). apply lor_boxed, land_low.
Qed.
Lemma f32_boxed f : 0 <= f < 2 ^ 32 -> f32_value f = boxed 0x7ffd f.
Proof.
  intros H. unfold f32_value. change (Z.lor QNAN F32_TAG) with (0x7ffd * 2 ^ 48).
  apply lor_boxed. unfold is_low. lia.
Qed.
Lemma pointer_low a : 0 <= a < 2 ^ 48 -> Z.land (pointer_word a) PTR_MASK = a.
Proof.
  intros H. rewrite pointer_boxed, land_boxed_low by apply land_low.
  change PTR_MASK with (Z.ones 48). rewrite Z.land_ones by lia. by apply Z.mod_small.
Qed.
Lemma pointer_is_pointer a : is_pointer (pointer_word a) = true.
Proof. by rewrite pointer_boxed, is_pointer_boxed by apply land_low. Qed.

(** A word with the quiet prefix is a NaN when read as a float, and only tagged words are. *)
Lemma tagged_is_nan w : is_u64 w -> is_float w = false -> float_is_nan F64 w = true.
Proof.
  intros Hw. destruct (box_word w) as [E Hl]. rewrite E at 1. rewrite is_float_boxed by done.
  set (t := w / 2 ^ 48) in *. assert (Ht : 0 <= t < 65536).
  { unfold t. unfold is_u64 in Hw. split; [apply Z.div_pos; lia|apply Z.div_lt_upper_bound; lia]. }
  intros Hf. apply negb_false_iff, Z.eqb_eq in Hf.
  assert (Hb : forall i, 2 <= i <= 14 -> Z.testbit t i = true).
  { intros i Hi. assert (Hm : Z.testbit (Z.land t 0x7ffc) i = true).
    { rewrite Hf. assert (Hc : i = 2 \/ i = 3 \/ i = 4 \/ i = 5 \/ i = 6 \/ i = 7 \/ i = 8 \/ i = 9 \/ i = 10
        \/ i = 11 \/ i = 12 \/ i = 13 \/ i = 14) by lia.
      repeat (destruct Hc as [-> |Hc]; [reflexivity|]). by subst. }
    rewrite Z.land_spec in Hm. apply andb_true_iff in Hm. by destruct Hm. }
  assert (He : (w / 2 ^ 52) mod 2 ^ 11 = 2047).
  { replace (w / 2 ^ 52) with (t / 2 ^ 4) by (unfold t; rewrite Z.div_div by lia; done).
    apply Z.bits_inj'. intros i Hi. rewrite testbit_mod by lia. case Z.ltb_spec; intros Hi11.
    - rewrite <- Z.shiftr_div_pow2, Z.shiftr_spec, Hb by lia. change 2047 with (Z.ones 11).
      symmetry. apply Z.ones_spec_low. lia.
    - change 2047 with (Z.ones 11). symmetry. apply Z.ones_spec_high. lia. }
  assert (Hm : w mod 2 ^ 52 <> 0).
  { intros Hz. assert (Hbit : Z.testbit (w mod 2 ^ 52) 51 = true).
    { rewrite testbit_mod by lia. change (51 <? 52) with true. cbn [andb].
      specialize (Hb 3 ltac:(lia)). unfold t in Hb.
      rewrite <- Z.shiftr_div_pow2, Z.shiftr_spec in Hb by lia. exact Hb. }
    rewrite Hz, Z.bits_0 in Hbit. done. }
  unfold float_is_nan, decode_float. cbn [mantissa_bits exponent_bits F64].
  rewrite He. change (2047 =? 2 ^ 11 - 1) with true. cbv iota.
  by rewrite (proj2 (Z.eqb_neq _ _) Hm).
Qed.

(** ** What each constructor reads back as *)

Lemma float_value_canonical f :
  is_u64 f -> is_float (float_value f) = true /\ (float_is_nan F64 f = false -> float_value f = f).
Proof.
  intros Hf. unfold float_value. destruct (float_is_nan F64 f) eqn:E; [done|]. split; [|done].
  apply not_false_is_true. intros Hn. rewrite tagged_is_nan in E by done. done.
Qed.
Lemma float_value_idem f : float_value (float_value f) = float_value f.
Proof. unfold float_value at 2 3. destruct (float_is_nan F64 f) eqn:E; [done|]. unfold float_value. by rewrite E. Qed.
Lemma float_value_u64 f : is_u64 f -> is_u64 (float_value f).
Proof. intros Hf. unfold float_value. by case_match. Qed.

(** A small integer's payload is its low 48 bits; reading sign-extends them. *)
Lemma small_int_reads i :
  INT_MIN <= i <= INT_MAX -> small_int_payload (small_int i) = i.
Proof.
  intros Hi. change INT_MIN with (- 2 ^ 47) in Hi. change INT_MAX with (2 ^ 47 - 1) in Hi.
  unfold small_int_payload. rewrite small_int_boxed, land_boxed_low by apply land_low.
  change PTR_MASK with (Z.ones 48). rewrite Z.land_ones, as_u64_low by lia.
  unfold shl_u64. rewrite as_i64_as_u64.
  change (shr_i64 (shl_i64 (i mod 2 ^ 48) (64 - 48)) (64 - 48) = i).
  rewrite sign_extension by lia. rewrite (wrap_to_congr true 48 _ i) by (by rewrite Z.mod_mod by lia).
  apply wrap_to_id; [lia|]. rewrite in_width_spec. lia.
Qed.

(** The values that fit in the word itself, and a pointer. *)
Inductive Immediate :=
  | IUnit | IBool (b : bool) | IPending | IUnbound
  | IInt (i : Z) | IFloat (f : Z) | IF32 (f : Z) | IPointer (addr : Z).

Definition immediate_ok (d : Immediate) : Prop :=
  match d with
  | IInt i => INT_MIN <= i <= INT_MAX
  | IFloat f => is_u64 f /\ float_value f = f
  | IF32 f => 0 <= f < 2 ^ 32
  | IPointer a => 0 <= a < 2 ^ 48
  | _ => True
  end.
Definition immediate_word (d : Immediate) : Value :=
  match d with
  | IUnit => unit_value
  | IBool b => bool_value b
  | IPending => pending
  | IUnbound => unbound
  | IInt i => small_int i
  | IFloat f => float_value f
  | IF32 f => f32_value f
  | IPointer a => pointer_word a
  end.

(** Tag and payload of the words that are no floats. *)
Definition tag_of (d : Immediate) : Z :=
  match d with IInt _ => 0x7ffe | IF32 _ => 0x7ffd | IPointer _ => 0xfffc | _ => 0x7ffc end.
Definition low_of (d : Immediate) : Z :=
  match d with
  | IUnit => TAG_UNIT
  | IBool b => if b then TAG_TRUE else TAG_FALSE
  | IPending => TAG_PENDING
  | IUnbound => TAG_UNBOUND
  | IInt i => Z.land (as_u64 i) PTR_MASK
  | IF32 f => f
  | IPointer a => Z.land a PTR_MASK
  | IFloat _ => 0
  end.
Lemma immediate_boxed d :
  immediate_ok d -> (forall f, d <> IFloat f) ->
  immediate_word d = boxed (tag_of d) (low_of d) /\ is_low (low_of d).
Proof.
  intros Hok Hf. destruct d as [|b| | |i|f|f|a]; cbn [immediate_word tag_of low_of].
  - done.
  - by destruct b.
  - done.
  - done.
  - split; [apply small_int_boxed|apply land_low].
  - by destruct (Hf f).
  - split; [by apply f32_boxed|]. cbn in Hok. unfold is_low. lia.
  - split; [apply pointer_boxed|apply land_low].
Qed.

(** A tagged word is none of the singletons unless its box is theirs. *)
Lemma boxed_eqb t1 l1 t2 l2 :
  is_low l1 -> is_low l2 -> (boxed t1 l1 =? boxed t2 l2) = (t1 =? t2) && (l1 =? l2).
Proof.
  intros H1 H2. case Z.eqb_spec; intros E.
  - apply boxed_inj in E as [-> ->]; [|done..]. by rewrite !Z.eqb_refl.
  - case Z.eqb_spec; intros E1; [|done]. case Z.eqb_spec; intros E2; [|done]. congruence.
Qed.
Lemma float_not_tagged f t l :
  is_float f = true -> is_low l -> Z.land t 0x7ffc = 0x7ffc -> (f =? boxed t l) = false.
Proof.
  intros Hf Hl Ht. apply Z.eqb_neq. intros ->. rewrite is_float_boxed, Ht in Hf by done. done.
Qed.

(** The accessors of the word, all at once. *)
Definition read_int (w : Value) : option Z :=
  if is_small_int w then Some (small_int_payload w) else None.
Definition read_pointer (w : Value) : option Z :=
  if is_pointer w then Some (Z.land w PTR_MASK) else None.

Lemma decide_float d : (exists f, d = IFloat f) \/ forall f, d <> IFloat f.
Proof. destruct d; try (by right); left; by eexists. Qed.
Lemma singleton_eqb d tag l :
  immediate_ok d -> is_low l -> Z.land tag 0x7ffc = 0x7ffc ->
  (immediate_word d =? boxed tag l) =
    match d with IFloat _ => false | _ => (tag_of d =? tag) && (low_of d =? l) end.
Proof.
  intros Hok Hl Ht. destruct (decide_float d) as [[f ->]|Hd].
  - apply float_not_tagged; [|done|done]. by apply float_value_canonical, Hok.
  - destruct (immediate_boxed d Hok Hd) as [-> Hlow]. rewrite boxed_eqb by done.
    destruct d as [|b| | |i|f|f|a]; try done. by destruct (Hd f).
Qed.
Lemma float_immediate d :
  immediate_ok d -> is_float (immediate_word d) = match d with IFloat _ => true | _ => false end.
Proof.
  intros Hok. destruct (decide_float d) as [[f ->]|Hd]; [by apply float_value_canonical, Hok|].
  destruct (immediate_boxed d Hok Hd) as [-> Hl]. rewrite is_float_boxed by done.
  destruct d as [|b| | |i|f|f|a]; try done. by destruct (Hd f).
Qed.
Lemma tagged_immediate d (f : Value -> bool) (g : Z -> bool) :
  immediate_ok d -> (forall t l, is_low l -> f (boxed t l) = g t) ->
  (forall w, is_float w = true -> f w = false) ->
  f (immediate_word d) = match d with IFloat _ => false | _ => g (tag_of d) end.
Proof.
  intros Hok Hg Hf. pose proof (float_immediate d Hok) as Hfl.
  destruct (decide_float d) as [[x ->]|Hd]; [by apply Hf|].
  destruct (immediate_boxed d Hok Hd) as [-> Hl]. rewrite Hg by done. 
  destruct d as [|b| | |i|x|x|a]; try done. by destruct (Hd x).
Qed.
Lemma float_not_pointer w : is_float w = true -> is_pointer w = false.
Proof.
  destruct (box_word w) as [E Hl]. rewrite E, is_float_boxed, is_pointer_boxed by done.
  generalize (w / 2 ^ 48). intros t Hf. apply Z.eqb_neq. intros Hp.
  apply negb_true_iff, Z.eqb_neq in Hf. apply Hf.
  change 0x7ffc with (Z.land 0xfffc 0x7ffc) at 1. rewrite Z.land_assoc, Hp. done.
Qed.

Lemma immediate_reads d :
  immediate_ok d ->
  let w := immediate_word d in
  as_bool w = match d with IBool b => Some b | _ => None end /\
  is_unit w = match d with IUnit => true | _ => false end /\
  is_pending w = match d with IPending => true | _ => false end /\
  is_unbound w = match d with IUnbound => true | _ => false end /\
  as_float w = match d with IFloat f => Some f | _ => None end /\
  read_int w = match d with IInt i => Some i | _ => None end /\
  as_f32 w = match d with IF32 f => Some f | _ => None end /\
  read_pointer w = match d with IPointer a => Some a | _ => None end.
Proof.
  intros Hok w. assert (Hs : forall l, is_low l -> (w =? boxed 0x7ffc l) =
    match d with IFloat _ => false | _ => (tag_of d =? 0x7ffc) && (low_of d =? l) end).
  { intros l Hl. by apply singleton_eqb. }
  assert (Hsi := tagged_immediate d is_small_int _ Hok is_small_int_boxed
    ltac:(intros x Hx; unfold is_small_int; by rewrite Hx)).
  assert (Hf32 := tagged_immediate d is_f32 _ Hok is_f32_boxed
    ltac:(intros x Hx; unfold is_f32; by rewrite Hx)).
  assert (Hptr := tagged_immediate d is_pointer _ Hok is_pointer_boxed float_not_pointer).
  pose proof (float_immediate d Hok) as Hfl. fold w in Hsi, Hf32, Hptr, Hfl.
  unfold as_bool, is_unit, is_pending, is_unbound, as_float, read_int, as_f32, read_pointer.
  change unit_value with (boxed 0x7ffc 0). change pending with (boxed 0x7ffc 3).
  change unbound with (boxed 0x7ffc 4). change (bool_value true) with (boxed 0x7ffc 2).
  change (bool_value false) with (boxed 0x7ffc 1).
  rewrite !Hs, Hsi, Hf32, Hptr, Hfl by done. clear Hs Hsi Hf32 Hptr Hfl.
  destruct d as [|b| | |i|f|f|a]; cbn in Hok; try (by repeat split).
  - by destruct b.
  - repeat split; try done. cbn. f_equal. unfold w. by apply small_int_reads.
  - repeat split; try done. cbn. f_equal. unfold w. apply Hok.
  - repeat split; try done. cbn. f_equal. unfold w. cbn [immediate_word].
    rewrite f32_boxed by done. change 0xffffffff with (Z.ones 32). rewrite Z.land_ones by lia.
    unfold boxed. change (2 ^ 48) with (65536 * 2 ^ 32). rewrite Z.mul_assoc, Z.add_comm, Z.mod_add by lia.
    by apply Z.mod_small.
  - repeat split; try done. cbn. f_equal. by apply pointer_low.
Qed.
