(* ===== verification/Packed.v ===== *)
(** Packed lists: lists of numeric structs and narrow scalars held as one byte buffer, row by
    row or column by column ([crates/noeta-value/src/packed.rs]).

    [None] is a panic (an index or slice out of range) or an allocation that fails.  What the
    code says of reference counts is left to [Gc]: an in-place operation here answers the
    heap with the list's payload replaced. *)
From Stdlib Require Import Strings.String.
From S2P Require Import Prelude Words Numbers Shapes Values.
From stdpp Require Import options.
Open Scope Z_scope.
Open Scope list_scope.

(** ** Bytes *)

(** [u64::to_le_bytes] and its narrow forms, over [n] bytes. *)
Fixpoint to_le_bytes (n : nat) (v : Z) : list Z :=
  match n with O => [] | S n => Z.land v 255 :: to_le_bytes n (Z.shiftr v 8) end.
Fixpoint from_le_bytes (l : list Z) : Z :=
  match l with [] => 0 | b :: l => Z.lor b (Z.shiftl (from_le_bytes l) 8) end.

(** [&bytes[from..from + n]]. *)
Definition slice (bytes : list Z) (from n : nat) : option (list Z) :=
  if bool_decide (from + n <= length bytes)%nat then Some (take n (drop from bytes)) else None.

(** [buf[at..at + n].copy_from_slice(src)]. *)
Definition write_at (buf : list Z) (at_ : nat) (src : list Z) : option (list Z) :=
  if bool_decide (at_ + length src <= length buf)%nat
  then Some (take at_ buf ++ src ++ drop (at_ + length src) buf) else None.

Definition read_u64 (bytes : list Z) (offset : nat) : option Z :=
  from_le_bytes <$> slice bytes offset 8.
Definition read_u32 (bytes : list Z) (offset : nat) : option Z :=
  from_le_bytes <$> slice bytes offset 4.

(** [read_intn] and [write_intn]. *)
Definition read_intn (bytes : list Z) (offset : nat) (bits : Z) (signed : bool) : option Z :=
  raw ← from_le_bytes <$> slice bytes offset (Z.to_nat (bits / 8));
  let raw :=
    if signed && (bits <? 64) && negb (Z.land raw (2 ^ (bits - 1)) =? 0)
    then Z.lor raw (as_u64 (Z.lnot (2 ^ bits - 1))) else raw in
  Some (as_i64 raw).
Definition write_intn (value bits : Z) : list Z :=
  (λ i, Z.land (Z.shiftr (as_u64 value) (8 * Z.of_nat i)) 255) <$> seq 0 (Z.to_nat (bits / 8)).

Section Packed.
Context `{ExternType, Allocator}.

(** ** Elements *)

(** [pack_element], [pack_scalar] and the field cases they share: the bytes appended, or
    [None] where the code answers [false]. *)
Fixpoint pack_field (h : Heap) (k : PackedKind) (slot : Value) {struct k} : option (list Z) :=
  match k with
  | KInt => i ← as_int h slot; Some (to_le_bytes 8 (as_u64 i))
  | KFloat | KF64 => f ← as_float slot; Some (to_le_bytes 8 f)
  | KF32 => f ← as_f32 slot; Some (to_le_bytes 4 f)
  | KIntN bits _ => i ← as_int h slot; Some (write_intn i bits)
  | KBool => b ← as_bool slot; Some [if b : bool then 1 else 0]
  | KStruct inner => pack_element h inner slot
  end
with pack_element (h : Heap) (schema : PackedSchema) (v : Value) {struct schema} :
    option (list Z) :=
  match schema with
  | mkSchema None fields _ _ =>
      match fields with
      | KStruct _ :: _ | [] => None
      | k :: _ => pack_field h k v
      end
  | mkSchema (Some _) fields _ _ =>
      slots ← slots h v;
      if bool_decide (length slots = length fields) then
        (fix pack_fields (fields : list PackedKind) (slots : list Value) : option (list Z) :=
           match fields, slots with
           | k :: fields, slot :: slots =>
               field ← pack_field h k slot; rest ← pack_fields fields slots; Some (field ++ rest)
           | _, _ => Some []
           end) fields slots
      else None
  end.

(** [decode_packed_field] and [unpack_element]. *)
Fixpoint decode_packed_field (k : PackedKind) (bytes : list Z) (offset : nat) (h : Heap) :
    option (Heap * Value) :=
  match k with
  | KInt => w ← read_u64 bytes offset; int (as_i64 w) h
  | KFloat | KF64 => w ← read_u64 bytes offset; Some (h, float_value w)
  | KF32 => w ← read_u32 bytes offset; Some (h, f32_value w)
  | KIntN bits signed => i ← read_intn bytes offset bits signed; int i h
  | KBool => b ← bytes !! offset; Some (h, bool_value (negb (b =? 0)))
  | KStruct inner => '(h, v, _) ← unpack_element inner bytes offset h; Some (h, v)
  end
with unpack_element (schema : PackedSchema) (bytes : list Z) (offset : nat) (h : Heap) :
    option (Heap * Value * nat) :=
  match schema with
  | mkSchema None fields _ _ =>
      match fields with
      | k :: _ =>
          '(h, v) ← decode_packed_field k bytes offset h;
          Some (h, v, offset + byte_width k)%nat
      | [] => None
      end
  | mkSchema (Some shape) fields _ _ =>
      '(h, slots, at_) ←
        (fix unpack_fields (fields : list PackedKind) (at_ : nat) (h : Heap) :
             option (Heap * list Value * nat) :=
           match fields with
           | [] => Some (h, [], at_)
           | k :: fields =>
               '(h, v, next) ←
                 match k with
                 | KStruct inner => unpack_element inner bytes at_ h
                 | k =>
                     '(h, v) ← decode_packed_field k bytes at_ h;
                     Some (h, v, at_ + byte_width k)%nat
                 end;
               '(h, vs, end_) ← unpack_fields fields next h;
               Some (h, v :: vs, end_)
           end) fields offset h;
      '(h, v) ← alloc (PObject shape slots) h;
      Some (h, v, at_)
  end.

(** ** Columns *)

(** [gather_row]. *)
Definition gather_row (schema : PackedSchema) (bytes : list Z) (index count : nat) :
    option (list Z) :=
  chunks ← mapM (λ slot,
             slice bytes (field_offset schema index slot count) (field_width schema slot))
           (seq 0 (length (schema_fields schema)));
  Some (concat chunks).

(** [column_append]. *)
Definition column_append (schema : PackedSchema) (buf row : list Z) : option (list Z) :=
  let n := count schema (length buf) in
  chunks ← mapM (λ slot,
             let w := field_width schema slot in
             let base := (n * field_prefix schema slot)%nat in
             col ← slice buf base (n * w);
             cell ← slice row (field_prefix schema slot) w;
             Some (col ++ cell))
           (seq 0 (length (schema_fields schema)));
  Some (concat chunks).

(** [column_select]. *)
Definition column_select (schema : PackedSchema) (buf : list Z) (indices : list nat)
    (count : nat) : option (list Z) :=
  let m := length indices in
  foldl (λ out slot,
      let w := field_width schema slot in
      let new_base := (m * field_prefix schema slot)%nat in
      foldl (λ out '(j, i),
          out ← out;
          src ← slice buf (field_offset schema i slot count) w;
          write_at out (new_base + j * w) src)
        out (zip (seq 0 m) indices))
    (Some (replicate (m * byte_size schema) 0)) (seq 0 (length (schema_fields schema))).

(** [column_set]. *)
Definition column_set (schema : PackedSchema) (buf : list Z) (index count : nat)
    (row : list Z) : option (list Z) :=
  foldl (λ buf slot,
      buf ← buf;
      cell ← slice row (field_prefix schema slot) (field_width schema slot);
      write_at buf (field_offset schema index slot count) cell)
    (Some buf) (seq 0 (length (schema_fields schema))).

(** [column_concat]. *)
Definition column_concat (schema : PackedSchema) (a b : list Z) : option (list Z) :=
  let na := count schema (length a) in
  let nb := count schema (length b) in
  let total := (na + nb)%nat in
  foldl (λ out slot,
      let w := field_width schema slot in
      let prefix := field_prefix schema slot in
      let out_base := (total * prefix)%nat in
      out ← out;
      ca ← slice a (na * prefix) (na * w);
      out ← write_at out out_base ca;
      cb ← slice b (nb * prefix) (nb * w);
      write_at out (out_base + na * w) cb)
    (Some (replicate (total * byte_size schema) 0)) (seq 0 (length (schema_fields schema))).

(** ** Buffers: what the operations on lists do to the bytes *)

(** The bytes of element [index], in row order ([packed_get]). *)
Definition element_bytes (schema : PackedSchema) (bytes : list Z) (index : nat) :
    option (list Z) :=
  if column schema then gather_row schema bytes index (count schema (length bytes))
  else slice bytes (index * byte_size schema) (byte_size schema).

(** [packed_push], [packed_set], [packed_select] and [packed_concat] on buffers. *)
Definition push_bytes (schema : PackedSchema) (bytes staged : list Z) : option (list Z) :=
  if column schema then column_append schema bytes staged else Some (bytes ++ staged).
Definition set_bytes (schema : PackedSchema) (bytes : list Z) (index : nat) (staged : list Z) :
    option (list Z) :=
  if column schema then column_set schema bytes index (count schema (length bytes)) staged
  else if bool_decide (length staged = byte_size schema)
  then write_at bytes (index * byte_size schema) staged else None.
Definition select_bytes (schema : PackedSchema) (bytes : list Z) (indices : list nat) :
    option (list Z) :=
  if column schema then column_select schema bytes indices (count schema (length bytes))
  else @concat Z <$> mapM (λ i, slice bytes (i * byte_size schema) (byte_size schema)) indices.
Definition concat_bytes (schema : PackedSchema) (a b : list Z) : option (list Z) :=
  if column schema then column_concat schema a b else Some (a ++ b).

(** ** Lists *)

Definition packed_list (schema : PackedSchema) (bytes : list Z) (h : Heap) :
    option (Heap * Value) := alloc (PPackedList schema bytes) h.
Definition packed_parts (h : Heap) (v : Value) : option (PackedSchema * list Z) :=
  match payload h v with Some (PPackedList schema bytes) => Some (schema, bytes) | _ => None end.
Definition set_payload (h : Heap) (v : Value) (p : Payload) : Heap :=
  <[Z.land v PTR_MASK := p]> h.

(** [Value::list_len]: a division by the element size, which panics at zero. *)
Definition list_len (h : Heap) (v : Value) : option (option nat) :=
  match payload h v with
  | Some (PList items) => Some (Some (length items))
  | Some (PPackedList schema bytes) =>
      match byte_size schema with
      | O => None
      | size => Some (Some (length bytes / size)%nat)
      end
  | _ => Some None
  end.

(** [packed_push]: the heap after, and whether the element packed. *)
Definition packed_push (h : Heap) (v element : Value) : option (Heap * bool) :=
  match packed_parts h v with
  | Some (schema, bytes) =>
      match pack_element h schema element with
      | Some staged =>
          bytes ← push_bytes schema bytes staged;
          Some (set_payload h v (PPackedList schema bytes), true)
      | None => Some (h, false)
      end
  | None => Some (h, false)
  end.

(** [packed_get]. *)
Definition packed_get (h : Heap) (v : Value) (index : nat) : option (Heap * Value) :=
  '(schema, bytes) ← packed_parts h v;
  elem ← element_bytes schema bytes index;
  '(h, v, _) ← unpack_element schema elem 0 h;
  Some (h, v).

(** [packed_field]: [Some (h, None)] where the code answers [None]. *)
Definition packed_field (h : Heap) (v : Value) (index : nat) (field : string) :
    option (Heap * option Value) :=
  match packed_parts h v with
  | Some (schema, bytes) =>
      let n := count schema (length bytes) in
      if bool_decide (n <= index)%nat then Some (h, None)
      else match schema_shape schema ≫= λ s, slot_of s field with
           | Some slot =>
               kind ← schema_fields schema !! slot;
               data ← slice bytes (field_offset schema index slot n) (byte_width kind);
               '(h, v) ← decode_packed_field kind data 0 h;
               Some (h, Some v)
           | None => Some (h, None)
           end
  | None => Some (h, None)
  end.

(** [packed_select]. *)
Definition packed_select (h : Heap) (v : Value) (indices : list nat) : option (Heap * Value) :=
  '(schema, bytes) ← packed_parts h v;
  buf ← select_bytes schema bytes indices;
  packed_list schema buf h.

(** [packed_set] and [packed_set_in_place]. *)
Definition packed_set (h : Heap) (v : Value) (index : nat) (element : Value) :
    option (Heap * option Value) :=
  '(schema, bytes) ← packed_parts h v;
  match pack_element h schema element with
  | Some staged =>
      buf ← set_bytes schema bytes index staged;
      '(h, v) ← packed_list schema buf h;
      Some (h, Some v)
  | None => Some (h, None)
  end.
Definition packed_set_in_place (h : Heap) (v : Value) (index : nat) (element : Value) :
    option (Heap * bool) :=
  match packed_parts h v with
  | Some (schema, bytes) =>
      match pack_element h schema element with
      | Some staged =>
          buf ← set_bytes schema bytes index staged;
          Some (set_payload h v (PPackedList schema buf), true)
      | None => Some (h, false)
      end
  | None => Some (h, false)
  end.

(** [packed_concat]: [Some None] unless both are packed with the same schema. *)
Definition packed_concat (h : Heap) (a b : Value) : option (option (Heap * Value)) :=
  match packed_parts h a, packed_parts h b with
  | Some (schema, bytes), Some (schema2, bytes2) =>
      if schema_eqb schema schema2 then
        buf ← concat_bytes schema bytes bytes2;
        r ← packed_list schema buf h;
        Some (Some r)
      else Some None
  | _, _ => Some None
  end.

(** [packed_extend_in_place]. *)
Definition packed_extend_in_place (h : Heap) (v other : Value) : option (Heap * bool) :=
  match packed_parts h v, packed_parts h other with
  | Some (schema, bytes), Some (schema2, bytes2) =>
      if schema_eqb schema schema2 then
        buf ← concat_bytes schema bytes bytes2;
        Some (set_payload h v (PPackedList schema buf), true)
      else Some (h, false)
  | _, _ => Some (h, false)
  end.

(** [packed_items]: columns are gathered row by row, rows are read one after the other. *)
Fixpoint unpack_columns (schema : PackedSchema) (bytes : list Z) (count : nat)
    (indices : list nat) (h : Heap) : option (Heap * list Value) :=
  match indices with
  | [] => Some (h, [])
  | i :: indices =>
      row ← gather_row schema bytes i count;
      '(h, v, _) ← unpack_element schema row 0 h;
      '(h, vs) ← unpack_columns schema bytes count indices h;
      Some (h, v :: vs)
  end.
Fixpoint unpack_run (schema : PackedSchema) (bytes : list Z) (n at_ : nat) (h : Heap) :
    option (Heap * list Value) :=
  match n with
  | O => Some (h, [])
  | S n =>
      '(h, v, next) ← unpack_element schema bytes at_ h;
      '(h, vs) ← unpack_run schema bytes n next h;
      Some (h, v :: vs)
  end.
Definition packed_items (h : Heap) (v : Value) : option (Heap * list Value) :=
  '(schema, bytes) ← packed_parts h v;
  let n := count schema (length bytes) in
  if column schema then unpack_columns schema bytes n (seq 0 n) h
  else unpack_run schema bytes n 0 h.

(** [Value::realize_list]; the reference it takes on a boxed list is not modelled. *)
Definition realize_list (h : Heap) (v : Value) : option (Heap * Value) :=
  if is_packed_list h v then
    '(h, items) ← packed_items h v;
    alloc (PList items) h
  else Some (h, v).
End Packed.
