(* ===== verification/PackedLayout.v ===== *)
(** Packed lists: the buffer of a list is the concatenation of its cells, by rows or by
    columns, and the operations on buffers are the list operations on rows. *)
From S2P Require Import Prelude Words Numbers Shapes Values Packed.
From stdpp Require Import options.
Open Scope nat_scope.
Open Scope list_scope.

(** ** Slices of concatenations *)

Lemma slice_mid (a b c : list Z) : slice (a ++ b ++ c) (length a) (length b) = Some b.
Proof.
  unfold slice. rewrite bool_decide_true by (rewrite !length_app; lia).
  by rewrite drop_app_length, take_app_length.
Qed.
Lemma write_mid (a b b' c : list Z) :
  length b' = length b -> write_at (a ++ b ++ c) (length a) b' = Some (a ++ b' ++ c).
Proof.
  intros H. unfold write_at. rewrite bool_decide_true by (rewrite !length_app; lia).
  rewrite take_app_length, <- drop_drop, drop_app_length, H, drop_app_length. done.
Qed.
Lemma slice_slice (l col x : list Z) base n off w :
  slice l base n = Some col -> slice col off w = Some x -> slice l (base + off) w = Some x.
Proof.
  unfold slice. intros H1 H2. repeat case_bool_decide; simplify_eq/=; rewrite ?length_take, ?length_drop in *; try lia.
  f_equal. rewrite skipn_firstn_comm, firstn_firstn, drop_drop. f_equal. lia.
Qed.
Lemma slice_length l from n x : slice l from n = Some x -> length x = n.
Proof.
  unfold slice. intros H. case_bool_decide; simplify_eq/=. rewrite length_take, length_drop. lia.
Qed.
Lemma write_length l at_ x l' : write_at l at_ x = Some l' -> length l' = length l.
Proof.
  unfold write_at. intros H. case_bool_decide; simplify_eq/=.
  rewrite !length_app, length_take, length_drop. lia.
Qed.

(** A piece of a concatenation, and its replacement. *)
Lemma concat_split (L : list (list Z)) k x :
  L !! k = Some x -> concat L = concat (take k L) ++ x ++ concat (drop (S k) L).
Proof. intros H. rewrite <- (take_drop_middle _ _ _ H) at 1. by rewrite concat_app. Qed.
Lemma slice_concat (L : list (list Z)) k x :
  L !! k = Some x -> slice (concat L) (length (concat (take k L))) (length x) = Some x.
Proof. intros H. rewrite (concat_split _ _ _ H) at 1. apply slice_mid. Qed.
Lemma write_concat (L : list (list Z)) k x y :
  L !! k = Some x -> length y = length x ->
  write_at (concat L) (length (concat (take k L))) y = Some (concat (<[k := y]> L)).
Proof.
  intros H Hy. rewrite (concat_split _ _ _ H) at 1. rewrite write_mid by done. f_equal.
  assert (Hk : k < length L) by (by eapply lookup_lt_Some).
  rewrite (concat_split (<[k := y]> L) k y) by (by apply list_lookup_insert_eq).
  rewrite take_insert_ge, drop_insert_lt by lia. done.
Qed.
(** A write inside a piece. *)
Lemma write_inside (L : list (list Z)) k col off x col' :
  L !! k = Some col -> write_at col off x = Some col' ->
  write_at (concat L) (length (concat (take k L)) + off) x = Some (concat (<[k := col']> L)).
Proof.
  intros H Hw. assert (Hl := write_length _ _ _ _ Hw).
  assert (Hk : k < length L) by (by eapply lookup_lt_Some).
  rewrite (concat_split _ _ _ H) at 1.
  rewrite (concat_split (<[k := col']> L) k col') by (by apply list_lookup_insert_eq).
  rewrite take_insert_ge, drop_insert_lt by lia.
  revert Hw. unfold write_at. intros Hw. case_bool_decide as Ho; simplify_eq/=.
  rewrite bool_decide_true by (rewrite !length_app; lia). f_equal.
  rewrite take_app_add', take_app_le, !app_assoc by lia.
  rewrite <- !app_assoc. do 3 f_equal.
  rewrite <- Nat.add_assoc, drop_app_add', drop_app_le by (done || lia). done.
Qed.

(** Writing past what is written so far. *)
Lemma write_next (done src : list Z) k :
  length src <= k ->
  write_at (done ++ replicate k 0%Z) (length done) src =
    Some (done ++ src ++ replicate (k - length src) 0%Z).
Proof.
  intros H. replace (replicate k 0%Z) with (replicate (length src) 0%Z ++ replicate (k - length src) 0%Z)
    by (rewrite <- replicate_add; f_equal; lia).
  apply write_mid. by rewrite length_replicate.
Qed.

(** ** Rows and their two layouts *)

Lemma length_concat_sum (L : list (list Z)) : length (concat L) = sum_list (length <$> L).
Proof. induction L as [|x L IH]; [done|]. cbn [concat]. rewrite length_app, IH. done. Qed.
Lemma sum_list_replicate_const n w : sum_list (replicate n w) = n * w.
Proof. induction n; simpl; lia. Qed.

(** A row is the list of its cells; [ws] are the widths of the cells. *)
Definition row_of (ws : list nat) (row : list (list Z)) : Prop := length <$> row = ws.
Definition cell (row : list (list Z)) (s : nat) : list Z := default [] (row !! s).
Definition cells (rows : list (list (list Z))) (s : nat) : list (list Z) := (λ r, cell r s) <$> rows.
Definition column_of (rows : list (list (list Z))) (s : nat) : list Z := concat (cells rows s).

Section Rows.
Context (ws : list nat).

Lemma row_length row : row_of ws row -> length row = length ws.
Proof. intros <-. by rewrite length_fmap. Qed.
Lemma cell_length row s : row_of ws row -> length (cell row s) = default 0 (ws !! s).
Proof. intros <-. unfold cell. rewrite list_lookup_fmap. by destruct (row !! s). Qed.
Lemma cell_lookup row s : row_of ws row -> s < length ws -> row !! s = Some (cell row s).
Proof.
  intros Hr Hs. unfold cell. rewrite <- (row_length _ Hr) in Hs.
  by destruct (lookup_lt_is_Some_2 _ _ Hs) as [x ->].
Qed.
Lemma row_cells row : row_of ws row -> cell row <$> seq 0 (length ws) = row.
Proof.
  intros Hr. apply list_eq. intros i. rewrite list_lookup_fmap.
  destruct (decide (i < length ws)) as [Hi|Hi].
  - rewrite lookup_seq_lt, (cell_lookup row i) by done. done.
  - rewrite lookup_seq_ge by lia. symmetry. apply lookup_ge_None_2.
    rewrite (row_length _ Hr). lia.
Qed.
Lemma row_take row s : row_of ws row -> length (concat (take s row)) = sum_list (take s ws).
Proof. intros <-. by rewrite length_concat_sum, fmap_take. Qed.
Lemma row_bytes_length row : row_of ws row -> length (concat row) = sum_list ws.
Proof. intros <-. apply length_concat_sum. Qed.

Lemma cells_length rows s :
  Forall (row_of ws) rows -> length <$> cells rows s = replicate (length rows) (default 0 (ws !! s)).
Proof.
  intros H. unfold cells. induction H as [|r rows Hr H IH]; [done|].
  cbn [fmap list_fmap length replicate]. rewrite cell_length by done. f_equal. exact IH.
Qed.
Lemma column_length rows s :
  Forall (row_of ws) rows -> length (column_of rows s) = length rows * default 0 (ws !! s).
Proof.
  intros H. unfold column_of. by rewrite length_concat_sum, cells_length, sum_list_replicate_const.
Qed.
Lemma cells_take rows s i :
  Forall (row_of ws) rows -> i <= length rows ->
  length (concat (take i (cells rows s))) = i * default 0 (ws !! s).
Proof.
  intros H Hi. unfold cells. rewrite <- fmap_take.
  change (length (column_of (take i rows) s) = i * default 0 (ws !! s)).
  rewrite column_length by (by apply Forall_take). by rewrite length_take_le.
Qed.

(** All the columns, one after the other. *)
Definition columns (rows : list (list (list Z))) : list (list Z) :=
  column_of rows <$> seq 0 (length ws).
Lemma columns_lookup rows s : s < length ws -> columns rows !! s = Some (column_of rows s).
Proof. intros. unfold columns. by rewrite list_lookup_fmap, lookup_seq_lt. Qed.
Lemma columns_take rows s :
  Forall (row_of ws) rows -> s <= length ws ->
  length (concat (take s (columns rows))) = length rows * sum_list (take s ws).
Proof.
  intros H. induction s as [|s IH]; intros Hs; [by rewrite Nat.mul_0_r|].
  assert (Hl : columns rows !! s = Some (column_of rows s)) by (apply columns_lookup; lia).
  destruct (lookup_lt_is_Some_2 ws s) as [w Hw]; [lia|].
  rewrite (take_S_r _ _ _ Hl), concat_app, length_app, IH by lia.
  rewrite (take_S_r _ _ _ Hw). cbn [concat]. rewrite app_nil_r, column_length by done.
  rewrite sum_list_with_app, Hw. cbn. lia.
Qed.
End Rows.

(** ** The layout of a schema *)

Definition widths (schema : PackedSchema) : list nat := byte_width <$> schema_fields schema.

(** The element size is the sum of the widths, and a real element is not empty. *)
Definition sized (schema : PackedSchema) : Prop :=
  byte_size schema = sum_list (widths schema) /\ 0 < byte_size schema.

(** A list of rows as the schema's buffer holds it. *)
Definition layout (schema : PackedSchema) (rows : list (list (list Z))) : list Z :=
  if column schema then concat (columns (widths schema) rows)
  else concat ((@concat Z) <$> rows).

Section Layout.
Context (schema : PackedSchema) (Hsized : sized schema).
Let ws := widths schema.
Implicit Types rows : list (list (list Z)).

Lemma field_prefix_widths s : field_prefix schema s = sum_list (take s ws).
Proof using ws. unfold field_prefix, ws, widths. by rewrite fmap_take. Qed.
Lemma field_width_widths s : field_width schema s = default 0 (ws !! s).
Proof using ws. unfold field_width, ws, widths. by rewrite list_lookup_fmap. Qed.
Lemma fields_length : length (schema_fields schema) = length ws.
Proof using ws. unfold ws, widths. by rewrite length_fmap. Qed.

Lemma rows_bytes_length rows :
  Forall (row_of ws) rows -> length (concat ((@concat Z) <$> rows)) = length rows * byte_size schema.
Proof using Hsized.
  intros H. rewrite length_concat_sum, <- list_fmap_compose.
  replace (compose length (@concat Z) <$> rows) with (replicate (length rows) (byte_size schema)).
  { apply sum_list_replicate_const. }
  induction H as [|r rows Hr H IH]; [done|]. cbn [length replicate fmap list_fmap]. f_equal; [|exact IH].
  unfold compose. by rewrite (row_bytes_length ws r Hr), (proj1 Hsized).
Qed.
Lemma layout_length rows :
  Forall (row_of ws) rows -> length (layout schema rows) = length rows * byte_size schema.
Proof using Hsized.
  intros H. unfold layout. destruct (column schema); [|by apply rows_bytes_length].
  rewrite (proj1 Hsized). fold ws. pose proof (columns_take ws rows (length ws) H (le_n _)) as Hc.
  rewrite take_ge in Hc by (unfold columns; by rewrite length_fmap, length_seq).
  by rewrite firstn_all in Hc.
Qed.
Lemma count_layout rows :
  Forall (row_of ws) rows -> count schema (length (layout schema rows)) = length rows.
Proof using Hsized.
  intros H. rewrite layout_length by done. unfold count.
  destruct (byte_size schema) as [|n] eqn:E; [destruct Hsized; lia|]. by apply Nat.div_mul.
Qed.

(** *** Columns *)

Lemma slice_column rows s :
  Forall (row_of ws) rows -> s < length ws ->
  slice (concat (columns ws rows)) (length rows * field_prefix schema s)
    (length rows * field_width schema s) = Some (column_of rows s).
Proof using ws.
  intros H Hs. rewrite field_prefix_widths, field_width_widths.
  rewrite <- (columns_take ws rows s), <- (column_length ws rows s) by (done || lia).
  apply slice_concat. by apply columns_lookup.
Qed.
Lemma slice_in_column rows i r s :
  Forall (row_of ws) rows -> rows !! i = Some r -> s < length ws ->
  slice (column_of rows s) (i * field_width schema s) (field_width schema s) = Some (cell r s).
Proof using ws.
  intros H Hi Hs. assert (Hr : row_of ws r) by (eapply Forall_lookup_1; eassumption).
  rewrite field_width_widths. apply lookup_lt_Some in Hi as Hlen.
  rewrite <- (cells_take ws rows s i), <- (cell_length ws r s) by (done || lia).
  apply slice_concat. unfold cells. by rewrite list_lookup_fmap, Hi.
Qed.
Lemma slice_cell rows i r s :
  column schema = true -> Forall (row_of ws) rows -> rows !! i = Some r -> s < length ws ->
  slice (concat (columns ws rows)) (field_offset schema i s (length rows)) (field_width schema s) =
    Some (cell r s).
Proof using ws.
  intros Hc H Hi Hs. unfold field_offset. rewrite Hc. eapply slice_slice.
  - by apply slice_column.
  - by eapply slice_in_column.
Qed.

(** Gathering the cells of an element in slot order. *)
Lemma mapM_slots {A} (f : nat -> option A) (g : nat -> A) n :
  (forall s, s < n -> f s = Some (g s)) -> mapM f (seq 0 n) = Some (g <$> seq 0 n).
Proof using.
  intros H. apply mapM_Some_2. apply Forall2_fmap_r. apply Forall_Forall2_diag, Forall_forall.
  intros s Hs. apply H. apply elem_of_seq in Hs. lia.
Qed.
Lemma gather_row_layout rows i r :
  column schema = true -> Forall (row_of ws) rows -> rows !! i = Some r ->
  gather_row schema (concat (columns ws rows)) i (length rows) = Some (concat r).
Proof using ws.
  intros Hc H Hi. assert (Hr : row_of ws r) by (eapply Forall_lookup_1; eassumption).
  unfold gather_row. rewrite (mapM_slots _ (cell r)).
  - cbn. by rewrite fields_length, (row_cells ws r Hr).
  - intros s Hs. rewrite fields_length in Hs. by apply slice_cell.
Qed.
Lemma row_slice r s :
  row_of ws r -> s < length ws ->
  slice (concat r) (field_prefix schema s) (field_width schema s) = Some (cell r s).
Proof using ws.
  intros Hr Hs. rewrite field_prefix_widths, field_width_widths.
  rewrite <- (row_take ws r s Hr), <- (cell_length ws r s Hr).
  apply slice_concat. by apply (cell_lookup ws).
Qed.

(** *** Appending *)

Lemma column_of_app rows rows' s : column_of (rows ++ rows') s = column_of rows s ++ column_of rows' s.
Proof using. unfold column_of, cells. by rewrite fmap_app, concat_app. Qed.

Lemma column_append_layout rows r :
  column schema = true -> Forall (row_of ws) rows -> row_of ws r ->
  column_append schema (concat (columns ws rows)) (concat r) =
    Some (concat (columns ws (rows ++ [r]))).
Proof using Hsized ws.
  intros Hc H Hr. unfold column_append.
  pose proof (count_layout rows H) as Hn. unfold layout in Hn. rewrite Hc in Hn.
  fold ws in Hn. rewrite Hn. rewrite (mapM_slots _ (column_of (rows ++ [r]))).
  - cbn. by rewrite fields_length.
  - intros s Hs. rewrite fields_length in Hs. rewrite slice_column by done. cbn.
    rewrite row_slice by done. cbn. f_equal. rewrite column_of_app. f_equal.
    unfold column_of, cells. cbn. by rewrite app_nil_r.
Qed.
Lemma push_layout rows r :
  Forall (row_of ws) rows -> row_of ws r ->
  push_bytes schema (layout schema rows) (concat r) = Some (layout schema (rows ++ [r])).
Proof using Hsized ws.
  intros H Hr. unfold push_bytes, layout. destruct (column schema) eqn:Hc.
  - by apply column_append_layout.
  - by rewrite fmap_app, concat_app; cbn; rewrite app_nil_r.
Qed.

(** *** Reading *)

Lemma element_layout rows i r :
  Forall (row_of ws) rows -> rows !! i = Some r ->
  element_bytes schema (layout schema rows) i = Some (concat r).
Proof using Hsized ws.
  intros H Hi. unfold element_bytes. rewrite count_layout by done.
  unfold layout. destruct (column schema) eqn:Hc; [by apply gather_row_layout|].
  assert (Hr : row_of ws r) by (eapply Forall_lookup_1; eassumption).
  apply lookup_lt_Some in Hi as Hlen.
  assert (Hb : length (concat r) = byte_size schema).
  { rewrite (row_bytes_length ws r Hr). symmetry. apply Hsized. }
  rewrite <- Hb. rewrite Hb at 1.
  replace (i * byte_size schema) with (length (concat (take i ((@concat Z) <$> rows)))).
  - apply slice_concat. by rewrite list_lookup_fmap, Hi.
  - rewrite <- fmap_take, rows_bytes_length by (by apply Forall_take). rewrite length_take_le; [done|lia].
Qed.

(** *** Replacing *)

Lemma cells_insert rows i r s : cells (<[i := r]> rows) s = <[i := cell r s]> (cells rows s).
Proof using. unfold cells. by rewrite list_fmap_insert. Qed.

Lemma write_cell rows i r s :
  Forall (row_of ws) rows -> row_of ws r -> i < length rows -> s < length ws ->
  write_at (column_of rows s) (i * field_width schema s) (cell r s) =
    Some (column_of (<[i := r]> rows) s).
Proof using ws.
  intros H Hr Hi Hs. destruct (lookup_lt_is_Some_2 rows i Hi) as [r0 Hr0].
  assert (Hrow : row_of ws r0) by (eapply Forall_lookup_1; eassumption).
  rewrite field_width_widths, <- (cells_take ws rows s i) by (done || lia).
  unfold column_of. rewrite cells_insert. eapply write_concat.
  - unfold cells. rewrite list_lookup_fmap, Hr0. done.
  - by rewrite !(cell_length ws).
Qed.

(** The columns below [k] of [new], the others of [old]. *)
Definition mixed (new old : list (list (list Z))) (k : nat) : list (list Z) :=
  (λ s, if decide (s < k) then column_of new s else column_of old s) <$> seq 0 (length ws).
Lemma mixed_0 new old : mixed new old 0 = columns ws old.
Proof using. apply list_fmap_ext. intros s x _. by rewrite decide_False by lia. Qed.
Lemma mixed_all new old : mixed new old (length ws) = columns ws new.
Proof using.
  apply list_fmap_ext. intros s x Hs. apply lookup_seq in Hs as [-> Hs].
  by rewrite decide_True.
Qed.
Lemma mixed_lookup new old k s :
  s < length ws -> mixed new old k !! s =
    Some (if decide (s < k) then column_of new s else column_of old s).
Proof using. intros Hs. unfold mixed. by rewrite list_lookup_fmap, lookup_seq_lt. Qed.
Lemma mixed_S new old k :
  k < length ws -> <[k := column_of new k]> (mixed new old k) = mixed new old (S k).
Proof using.
  intros Hk. apply list_eq. intros i. destruct (decide (i < length ws)) as [Hi|Hi].
  - rewrite (mixed_lookup new old (S k)) by done. destruct (decide (i = k)) as [-> |Hne].
    + rewrite list_lookup_insert_eq, decide_True; [done|lia|].
      unfold mixed. by rewrite length_fmap, length_seq.
    + rewrite list_lookup_insert_ne, mixed_lookup by done.
      destruct (decide (i < k)), (decide (i < S k)); done || lia.
  - rewrite !lookup_ge_None_2; [done|..]; rewrite ?length_insert;
      unfold mixed; rewrite length_fmap, length_seq; lia.
Qed.
Lemma mixed_take new old k :
  Forall (row_of ws) new -> Forall (row_of ws) old -> length new = length old -> k <= length ws ->
  length (concat (take k (mixed new old k))) = length old * field_prefix schema k.
Proof using ws.
  intros Hn Ho Hl Hk. rewrite field_prefix_widths, <- Hl, <- (columns_take ws new k) by done.
  do 2 f_equal. unfold mixed, columns. rewrite <- !fmap_take. apply list_fmap_ext.
  intros s x Hs. rewrite take_seq in Hs. apply lookup_seq in Hs as [-> Hs].
  by rewrite decide_True by lia.
Qed.

Lemma column_set_layout rows i r :
  column schema = true -> Forall (row_of ws) rows -> row_of ws r -> i < length rows ->
  column_set schema (concat (columns ws rows)) i (length rows) (concat r) =
    Some (concat (columns ws (<[i := r]> rows))).
Proof using ws.
  intros Hc H Hr Hi. unfold column_set. rewrite fields_length.
  assert (Hnew : Forall (row_of ws) (<[i := r]> rows)) by (by apply Forall_insert).
  assert (Hk : forall k, k <= length ws ->
    foldl (λ buf slot, buf ← buf;
        cell ← slice (concat r) (field_prefix schema slot) (field_width schema slot);
        write_at buf (field_offset schema i slot (length rows)) cell)
      (Some (concat (columns ws rows))) (seq 0 k) = Some (concat (mixed (<[i := r]> rows) rows k))).
  { induction k as [|k IH]; intros Hk; [by rewrite mixed_0|].
    rewrite seq_S, foldl_app, IH by lia. cbn [foldl mbind option_bind Nat.add].
    rewrite row_slice by (done || lia). cbn [mbind option_bind].
    unfold field_offset. rewrite Hc, <- (mixed_take (<[i := r]> rows) rows k);
      [|done|done|by rewrite length_insert|lia].
    erewrite write_inside; [by rewrite mixed_S by lia| |].
    - rewrite mixed_lookup, decide_False by lia. done.
    - by apply write_cell. }
  rewrite Hk by done. by rewrite mixed_all.
Qed.
Lemma set_layout rows i r :
  Forall (row_of ws) rows -> row_of ws r -> i < length rows ->
  set_bytes schema (layout schema rows) i (concat r) = Some (layout schema (<[i := r]> rows)).
Proof using Hsized ws.
  intros H Hr Hi. unfold set_bytes. rewrite count_layout by done.
  unfold layout. destruct (column schema) eqn:Hc; [by apply column_set_layout|].
  assert (Hb : forall r, row_of ws r -> length (concat r) = byte_size schema).
  { intros r' Hr'. rewrite (row_bytes_length ws r' Hr'). symmetry. apply Hsized. }
  rewrite bool_decide_true by (by apply Hb).
  replace (i * byte_size schema) with (length (concat (take i ((@concat Z) <$> rows)))).
  - destruct (lookup_lt_is_Some_2 rows i Hi) as [r0 Hr0].
    rewrite list_fmap_insert. eapply write_concat; [by rewrite list_lookup_fmap, Hr0|].
    rewrite !Hb by (done || eapply Forall_lookup_1; eassumption). done.
  - rewrite <- fmap_take, rows_bytes_length by (by apply Forall_take).
    rewrite length_take_le; [done|lia].
Qed.

(** *** Selecting and concatenating: columns written one after the other *)

Lemma prefix_S k : k < length ws ->
  field_prefix schema (S k) = field_prefix schema k + field_width schema k.
Proof using ws.
  intros Hk. destruct (lookup_lt_is_Some_2 ws k Hk) as [w Hw].
  rewrite !field_prefix_widths, field_width_widths, Hw, (take_S_r _ _ _ Hw), sum_list_with_app.
  cbn. lia.
Qed.
Lemma prefix_le k : k <= length ws -> field_prefix schema k <= byte_size schema.
Proof using Hsized ws.
  intros Hk. rewrite (proj1 Hsized), field_prefix_widths. fold ws.
  rewrite <- (take_drop k ws) at 2. rewrite sum_list_with_app. lia.
Qed.

(** [k] columns written, and zeros for the others. *)
Definition written (rows : list (list (list Z))) (k : nat) : list Z :=
  concat (take k (columns ws rows))
    ++ replicate (length rows * (byte_size schema - field_prefix schema k)) 0%Z.
Lemma written_0 rows : written rows 0 = replicate (length rows * byte_size schema) 0%Z.
Proof using. unfold written, field_prefix. cbn. by rewrite Nat.sub_0_r. Qed.
Lemma written_all rows : written rows (length ws) = concat (columns ws rows).
Proof using Hsized.
  unfold written. rewrite field_prefix_widths, firstn_all. unfold ws at 3. rewrite <- (proj1 Hsized).
  rewrite Nat.sub_diag, Nat.mul_0_r, app_nil_r, take_ge; [done|].
  unfold columns. by rewrite length_fmap, length_seq.
Qed.
Lemma written_length rows k :
  Forall (row_of ws) rows -> k <= length ws ->
  length (concat (take k (columns ws rows))) = length rows * field_prefix schema k.
Proof using ws. intros. by rewrite columns_take, field_prefix_widths. Qed.

(** Writing [part] of column [k], then the rest of it. *)
Lemma write_part rows k part rest :
  Forall (row_of ws) rows -> k < length ws -> column_of rows k = part ++ rest ->
  forall (tail := replicate (length rows * (byte_size schema - field_prefix schema (S k))) 0%Z),
  write_at (concat (take k (columns ws rows))
              ++ replicate (length part + length rest) 0%Z ++ tail)
    (length rows * field_prefix schema k) part =
    Some (concat (take k (columns ws rows)) ++ part ++ replicate (length rest) 0%Z ++ tail).
Proof using ws.
  intros H Hk Hcol tail. rewrite <- (written_length rows k) by (done || lia).
  rewrite replicate_add, <- !app_assoc. apply write_mid. by rewrite length_replicate.
Qed.
Lemma written_split rows k :
  Forall (row_of ws) rows -> k < length ws ->
  written rows k =
    concat (take k (columns ws rows)) ++ replicate (length (column_of rows k)) 0%Z
      ++ replicate (length rows * (byte_size schema - field_prefix schema (S k))) 0%Z.
Proof using Hsized ws.
  intros H Hk. unfold written. f_equal. rewrite <- replicate_add. f_equal.
  pose proof (prefix_le (S k) Hk). pose proof (prefix_S k Hk).
  rewrite (column_length ws) by done. rewrite <- field_width_widths. nia.
Qed.
Lemma written_S rows k :
  k < length ws ->
  written rows (S k) =
    concat (take k (columns ws rows)) ++ column_of rows k
      ++ replicate (length rows * (byte_size schema - field_prefix schema (S k))) 0%Z.
Proof using.
  intros Hk. unfold written. rewrite (take_S_r _ _ _ (columns_lookup ws rows k Hk)), concat_app.
  cbn. by rewrite app_nil_r, <- app_assoc.
Qed.

Lemma concat_layout ra rb :
  Forall (row_of ws) ra -> Forall (row_of ws) rb ->
  concat_bytes schema (layout schema ra) (layout schema rb) = Some (layout schema (ra ++ rb)).
Proof using Hsized ws.
  intros Ha Hb. unfold concat_bytes. destruct (column schema) eqn:Hc.
  2: { unfold layout. by rewrite Hc, fmap_app, concat_app. }
  unfold column_concat. rewrite !count_layout, <- length_app by done.
  unfold layout. rewrite Hc, fields_length, <- written_0.
  assert (H : Forall (row_of ws) (ra ++ rb)) by (by apply Forall_app).
  fold ws. rewrite <- (written_all (ra ++ rb)).
  match goal with |- foldl ?f ?a _ = _ =>
    cut (forall n, n <= length ws -> foldl f a (seq 0 n) = Some (written (ra ++ rb) n)) end.
  { intros Hk. by apply Hk. }
  intros n. induction n as [|n IH]; intros Hn; [done|].
  rewrite seq_S, foldl_app, IH by lia. cbn [foldl mbind option_bind Nat.add].
  rewrite !slice_column by (done || lia). cbn [mbind option_bind].
  rewrite written_split, column_of_app, (length_app (column_of ra n)) by (done || lia).
  rewrite (write_part _ _ (column_of ra n) (column_of rb n)); [|done|lia|apply column_of_app].
  cbn [mbind option_bind].
  rewrite written_S, column_of_app by lia.
  rewrite <- (written_length (ra ++ rb)) by (done || lia).
  rewrite field_width_widths, <- (column_length ws ra) by done. rewrite <- length_app.
  rewrite !app_assoc, <- (app_assoc _ (replicate _ _)), <- (app_assoc _ (column_of rb n)).
  apply write_mid. by rewrite length_replicate.
Qed.

(** The rows at [indices]. *)
Definition selects rows (indices : list nat) (sel : list (list (list Z))) : Prop :=
  Forall2 (λ i r, rows !! i = Some r) indices sel.
Lemma selects_rows rows indices sel :
  Forall (row_of ws) rows -> selects rows indices sel -> Forall (row_of ws) sel.
Proof using.
  intros H Hs. induction Hs as [|i r ix sel Hi Hs IH]; constructor; [|done].
  exact (Forall_lookup_1 _ _ _ _ H Hi).
Qed.

(** Writing the cells of one column. *)
Lemma select_column rows indices sel s :
  column schema = true -> Forall (row_of ws) rows -> selects rows indices sel -> s < length ws ->
  foldl (λ out '(j, i),
      out ← out;
      src ← slice (concat (columns ws rows)) (field_offset schema i s (length rows))
              (field_width schema s);
      write_at out (length indices * field_prefix schema s + j * field_width schema s) src)
    (Some (written sel s)) (zip (seq 0 (length indices)) indices) = Some (written sel (S s)).
Proof using Hsized ws.
  intros Hc H Hsel Hs. pose proof (selects_rows _ _ _ H Hsel) as Hsr.
  pose proof (Forall2_length _ _ _ Hsel) as Hm.
  set (w := field_width schema s).
  set (tail := replicate (length sel * (byte_size schema - field_prefix schema (S s))) 0%Z).
  set (head := concat (take s (columns ws sel))).
  match goal with |- foldl ?f _ _ = _ =>
    cut (forall n, n <= length indices ->
      foldl f (Some (written sel s)) (take n (zip (seq 0 (length indices)) indices)) =
        Some (head ++ concat (take n (cells sel s))
                ++ replicate ((length indices - n) * w) 0%Z ++ tail)) end.
  { intros Hk. specialize (Hk (length indices) (le_n _)).
    rewrite take_ge in Hk by (rewrite length_zip_with, length_seq; lia).
    rewrite Hk. f_equal. rewrite (written_S sel s) by done. rewrite Nat.sub_diag.
    rewrite take_ge by (unfold cells; rewrite length_fmap; lia). done. }
  intros n. induction n as [|n IH]; intros Hn.
  { cbn [take foldl concat app]. f_equal. rewrite (written_split sel s) by done. unfold head, tail.
    rewrite (column_length ws) by done. rewrite <- field_width_widths, <- Hm, Nat.sub_0_r. done. }
  destruct (lookup_lt_is_Some_2 indices n) as [i Hi]; [lia|].
  destruct (lookup_lt_is_Some_2 sel n) as [r Hr]; [lia|].
  assert (Hz : zip (seq 0 (length indices)) indices !! n = Some (n, i)).
  { apply lookup_zip_Some. split; [apply lookup_seq_lt; lia|done]. }
  rewrite (take_S_r _ _ _ Hz), foldl_app, IH by lia. cbn [foldl mbind option_bind].
  assert (Hri : rows !! i = Some r) by exact (Forall2_lookup_lr _ _ _ _ _ _ Hsel Hi Hr).
  pose proof (slice_cell rows i r s Hc H Hri Hs) as Hsl. fold w in Hsl.
  rewrite Hsl. cbn [mbind option_bind].
  assert (Hcell : cells sel s !! n = Some (cell r s)) by (unfold cells; by rewrite list_lookup_fmap, Hr).
  assert (Hcw : length (cell r s) = w).
  { unfold w. rewrite field_width_widths. apply (cell_length ws). by eapply Forall_lookup_1. }
  rewrite (take_S_r _ _ _ Hcell), concat_app. cbn [concat]. rewrite app_nil_r.
  replace ((length indices - n) * w) with (length (cell r s) + (length indices - S n) * w) by (rewrite Hcw, Nat.add_comm, <- Nat.mul_succ_l; f_equal; lia).
  rewrite replicate_add, <- !app_assoc, (app_assoc head).
  replace (length indices * field_prefix schema s + n * w)
    with (length (head ++ concat (take n (cells sel s)))).
  - rewrite write_mid by (by rewrite length_replicate). by rewrite <- !app_assoc.
  - rewrite length_app. unfold head. rewrite written_length by (done || lia).
    rewrite (cells_take ws) by (done || lia). unfold w. by rewrite field_width_widths, Hm.
Qed.

Lemma select_layout rows indices sel :
  Forall (row_of ws) rows -> selects rows indices sel ->
  select_bytes schema (layout schema rows) indices = Some (layout schema sel).
Proof using Hsized ws.
  intros H Hsel. unfold select_bytes. rewrite count_layout by done.
  pose proof (selects_rows _ _ _ H Hsel) as Hsr. pose proof (Forall2_length _ _ _ Hsel) as Hm.
  destruct (column schema) eqn:Hc.
  - unfold column_select. rewrite Hm, <- written_0, fields_length.
    unfold layout. rewrite Hc. fold ws. rewrite <- (written_all sel).
    match goal with |- foldl ?f ?a _ = _ =>
      cut (forall n, n <= length ws -> foldl f a (seq 0 n) = Some (written sel n)) end.
    { intros Hk. by apply Hk. }
    intros n. induction n as [|n IH]; intros Hn; [done|].
    rewrite seq_S, foldl_app, IH by lia. cbn [foldl Nat.add]. rewrite <- Hm.
    by apply select_column.
  - assert (Hmap : mapM (λ i, slice (layout schema rows) (i * byte_size schema) (byte_size schema)) indices
                     = Some (@concat Z <$> sel)).
    { apply mapM_Some_2. apply Forall2_fmap_r. eapply Forall2_impl; [exact Hsel|].
      intros i r Hi. cbn beta. pose proof (element_layout rows i r H Hi) as He.
      unfold element_bytes in He. by rewrite Hc in He. }
    rewrite Hmap. cbn. unfold layout. by rewrite Hc.
Qed.
End Layout.

(** ** Every buffer of whole elements is a layout *)

Fixpoint chunks (ws : list nat) (l : list Z) : list (list Z) :=
  match ws with [] => [] | w :: ws => take w l :: chunks ws (drop w l) end.
Lemma chunks_widths ws l : length l = sum_list ws -> length <$> chunks ws l = ws.
Proof.
  revert l. induction ws as [|w ws IH]; intros l Hl; [done|]. cbn in *.
  rewrite length_take, IH by (rewrite length_drop; lia). f_equal. lia.
Qed.
Lemma concat_chunks ws l : length l = sum_list ws -> concat (chunks ws l) = l.
Proof.
  revert l. induction ws as [|w ws IH]; intros l Hl; cbn in *; [by destruct l|].
  rewrite IH by (rewrite length_drop; lia). apply take_drop.
Qed.
Lemma length_chunks ws l : length (chunks ws l) = length ws.
Proof. revert l. induction ws; intros; cbn; congruence. Qed.
Lemma sum_list_scaled n ws : sum_list (Nat.mul n <$> ws) = n * sum_list ws.
Proof. induction ws as [|w ws IH]; cbn in *; lia. Qed.
Lemma nth_seq_id {A} (l : list A) (d : A) : (λ i, nth i l d) <$> seq 0 (length l) = l.
Proof.
  apply list_eq. intros i. rewrite list_lookup_fmap.
  destruct (decide (i < length l)) as [Hi|Hi].
  - rewrite lookup_seq_lt by done. cbn. rewrite nth_lookup.
    by destruct (lookup_lt_is_Some_2 l i Hi) as [x ->].
  - rewrite lookup_seq_ge, lookup_ge_None_2 by lia. done.
Qed.

Section FromBytes.
Context (schema : PackedSchema) (Hsized : sized schema).
Let ws := widths schema.

Lemma rows_of_bytes n buf :
  length buf = n * byte_size schema ->
  exists rows, Forall (row_of ws) rows /\ length rows = n /\ concat ((@concat Z) <$> rows) = buf.
Proof using Hsized.
  revert buf. induction n as [|n IH]; intros buf Hl.
  { exists []. destruct buf; [|done]. done. }
  destruct (IH (drop (byte_size schema) buf)) as (rows & Hr & Hn & Hc).
  { rewrite length_drop. lia. }
  assert (Ht : length (take (byte_size schema) buf) = sum_list ws).
  { rewrite length_take. unfold ws. rewrite <- (proj1 Hsized). lia. }
  exists (chunks ws (take (byte_size schema) buf) :: rows). split; [|split].
  - constructor; [|done]. by apply chunks_widths.
  - cbn. by f_equal.
  - cbn. rewrite concat_chunks, Hc by done. apply take_drop.
Qed.

Lemma columns_of_bytes n buf :
  length buf = n * byte_size schema ->
  exists rows, Forall (row_of ws) rows /\ length rows = n /\ concat (columns ws rows) = buf.
Proof using Hsized.
  intros Hl.
  set (cols := chunks (Nat.mul n <$> ws) buf).
  assert (Hlen : length buf = sum_list (Nat.mul n <$> ws)).
  { rewrite Hl, sum_list_scaled. unfold ws. by rewrite <- (proj1 Hsized). }
  assert (Hcl : length cols = length ws) by (unfold cols; by rewrite length_chunks, length_fmap).
  set (cell_list s := chunks (replicate n (nth s ws 0)) (nth s cols [])).
  assert (Hcol : forall s, s < length ws -> length (nth s cols []) = sum_list (replicate n (nth s ws 0))).
  { intros s Hs. pose proof (chunks_widths (Nat.mul n <$> ws) buf Hlen) as Hw. fold cols in Hw.
    apply (f_equal (lookup s)) in Hw. rewrite !list_lookup_fmap in Hw.
    rewrite sum_list_replicate_const. rewrite !nth_lookup.
    destruct (lookup_lt_is_Some_2 cols s) as [c Hc]; [lia|].
    destruct (lookup_lt_is_Some_2 ws s Hs) as [w Hws]. rewrite Hc, Hws in *. cbn in *. by simplify_eq. }
  assert (Hcell : forall s, length (cell_list s) = n).
  { intros s. unfold cell_list. by rewrite length_chunks, length_replicate. }
  set (row i := (λ s, nth i (cell_list s) []) <$> seq 0 (length ws)).
  exists (row <$> seq 0 n). split; [|split].
  - apply Forall_fmap, Forall_seq. intros i Hi. unfold compose, row, row_of.
    apply list_eq. intros s. rewrite !list_lookup_fmap.
    destruct (decide (s < length ws)) as [Hs|Hs].
    + rewrite lookup_seq_lt by done. cbn. rewrite nth_lookup.
      destruct (lookup_lt_is_Some_2 (cell_list s) i) as [c Hc]; [rewrite Hcell; lia|].
      pose proof (chunks_widths _ _ (Hcol s Hs)) as Hw. fold (cell_list s) in Hw.
      apply (f_equal (lookup i)) in Hw. rewrite list_lookup_fmap, Hc in Hw. rewrite Hc.
      rewrite lookup_replicate_2 in Hw by lia. injection Hw as Hw.
      transitivity (Some (length c)); [done|]. rewrite Hw, nth_lookup.
      by destruct (lookup_lt_is_Some_2 ws s Hs) as [w ->].
    + rewrite lookup_seq_ge, lookup_ge_None_2 by lia. done.
  - by rewrite length_fmap, length_seq.
  - rewrite <- (concat_chunks (Nat.mul n <$> ws) buf) by done. fold cols. f_equal.
    rewrite <- (nth_seq_id cols []), Hcl. apply list_fmap_ext. intros j s Hs.
    apply lookup_seq in Hs as [-> Hs]. cbn.
    rewrite <- (concat_chunks _ _ (Hcol j Hs)). fold (cell_list j). unfold column_of. f_equal.
    rewrite <- (nth_seq_id (cell_list j) []), Hcell. unfold cells. rewrite <- list_fmap_compose.
    apply list_fmap_ext. intros k i Hi. unfold compose, cell, row.
    by rewrite list_lookup_fmap, lookup_seq_lt by done.
Qed.

Lemma layout_of_bytes n buf :
  length buf = n * byte_size schema ->
  exists rows, Forall (row_of ws) rows /\ length rows = n /\ layout schema rows = buf.
Proof using Hsized.
  intros Hl. unfold layout. destruct (column schema); [by apply columns_of_bytes|by apply rows_of_bytes].
Qed.
End FromBytes.
