(* ===== verification/PackedCodec.v ===== *)
(** Packed lists: an element packed and unpacked is the element. *)
From Stdlib Require Import Floats.SpecFloat.
From S2P Require Import Prelude Words Numbers NumbersFacts Shapes Values ValuesFacts Packed PackedLayout.
From stdpp Require Import options.
Open Scope Z_scope.
Open Scope list_scope.

(** ** Little-endian bytes *)

Lemma length_to_le n v : length (to_le_bytes n v) = n.
Proof. revert v. induction n as [|n IH]; intros v; cbn; [done|]. by rewrite IH. Qed.
Lemma to_le_spec n v :
  to_le_bytes n v = (λ i, Z.land (Z.shiftr v (8 * Z.of_nat i)) 255) <$> seq 0 n.
Proof.
  revert v. induction n as [|n IH]; intros v; [done|]. cbn [to_le_bytes seq fmap list_fmap].
  f_equal. rewrite IH, <- fmap_S_seq, <- list_fmap_compose. apply list_fmap_ext.
  intros j i _. unfold compose. rewrite Z.shiftr_shiftr by lia. do 2 f_equal. lia.
Qed.
Lemma from_le_to_le n v : from_le_bytes (to_le_bytes n v) = v mod 2 ^ (8 * Z.of_nat n).
Proof.
  revert v. induction n as [|n IH]; intros v; cbn [to_le_bytes from_le_bytes].
  { by rewrite Z.mod_1_r. }
  rewrite IH. apply Z.bits_inj'. intros i Hi. change 255 with (Z.ones 8).
  rewrite Z.lor_spec, Z.land_ones, !testbit_mod, Z.shiftl_spec by lia.
  destruct (Z.ltb_spec i 8); cbn [andb].
  - rewrite (Z.testbit_neg_r _ (i - 8)), orb_false_r by lia.
    by rewrite (proj2 (Z.ltb_lt i _)) by lia.
  - rewrite testbit_mod, Z.shiftr_spec by lia. cbn [orb].
    replace (i - 8 + 8) with i by lia. f_equal.
    case Z.ltb_spec; case Z.ltb_spec; intros; lia || done.
Qed.
Lemma write_intn_le value bits :
  write_intn value bits = to_le_bytes (Z.to_nat (bits / 8)) (as_u64 value).
Proof. by rewrite to_le_spec. Qed.

(** Reading the bytes of an integer gives its word masked to the width. *)
Lemma sign_extend_u64 r b :
  0 < b < 64 -> 0 <= r < 2 ^ b -> Z.testbit r (b - 1) = true ->
  as_i64 (Z.lor r (as_u64 (Z.lnot (2 ^ b - 1)))) = r - 2 ^ b.
Proof.
  intros Hb Hr Ht.
  assert (E : Z.lor r (as_u64 (Z.lnot (2 ^ b - 1))) = as_u64 (r - 2 ^ b)).
  { replace (r - 2 ^ b) with (r + - 1 * 2 ^ b) by lia.
    apply Z.bits_inj'. intros i Hi. rewrite Z.lor_spec. unfold as_u64. rewrite !testbit_mod by lia.
    rewrite Z.sub_1_r, <- Z.ones_equiv. destruct (decide (i < b)).
    - rewrite Z.lnot_spec, Z.ones_spec_low by lia. cbn [negb]. rewrite andb_false_r, orb_false_r.
      rewrite (proj2 (Z.ltb_lt i 64)) by lia. cbn [andb].
      rewrite <- (Z.mod_pow2_bits_low (r + _) b) by lia. rewrite Z.mod_add, Z.mod_small by lia. done.
    - rewrite (testbit_above r b), Z.lnot_spec, Z.ones_spec_high by lia. cbn [negb orb]. f_equal.
      symmetry. replace i with ((i - b) + b) by lia. rewrite <- Z.div_pow2_bits by lia.
      rewrite Z.div_add, Z.div_small by lia. apply Z.bits_m1. lia. }
  rewrite E, as_i64_as_u64. apply as_i64_id.
  assert (2 ^ b <= 2 ^ 63) by (apply Z.pow_le_mono_r; lia). unfold is_i64. lia.
Qed.
Lemma top_bit_clear r b : 0 < b -> 0 <= r < 2 ^ b -> Z.testbit r (b - 1) = false -> r < 2 ^ (b - 1).
Proof.
  intros Hb Hr Ht. apply Z.bounded_iff_bits_nonneg; [lia|lia|]. intros l Hl.
  destruct (decide (l = b - 1)) as [-> |]; [done|]. apply (testbit_above r b); lia.
Qed.
Lemma land_pow_eqb r k : 0 <= k -> (Z.land r (2 ^ k) =? 0) = negb (Z.testbit r k).
Proof.
  intros Hk. destruct (Z.testbit r k) eqn:E; cbn [negb]; [apply Z.eqb_neq|apply Z.eqb_eq].
  - intros H. apply (f_equal (λ x, Z.testbit x k)) in H.
    rewrite Z.land_spec, Z.bits_0, E, Z.pow2_bits_true in H by lia. done.
  - apply Z.bits_inj'. intros i Hi. rewrite Z.land_spec, Z.bits_0, Z.pow2_bits_eqb by lia.
    case Z.eqb_spec; intros; [subst; by rewrite E|apply andb_false_r].
Qed.
Lemma top_bit_set r b : 0 < b -> 0 <= r < 2 ^ b -> Z.testbit r (b - 1) = true -> 2 ^ (b - 1) <= r.
Proof.
  intros Hb Hr Ht. destruct (decide (2 ^ (b - 1) <= r)); [done|].
  rewrite (testbit_above r (b - 1)) in Ht by lia. done.
Qed.

Lemma read_write_intn pre post i bits signed :
  fixed_width bits -> is_i64 i ->
  read_intn (pre ++ write_intn i bits ++ post) (length pre) bits signed =
    Some (mask_to_width i signed bits).
Proof.
  intros Hb Hi. unfold read_intn. rewrite write_intn_le.
  assert (Hn : 8 * Z.of_nat (Z.to_nat (bits / 8)) = bits) by (each_width Hb; done).
  assert (Hb64 : 0 < bits <= 64) by (each_width Hb; lia).
  rewrite <- (length_to_le (Z.to_nat (bits / 8)) (as_u64 i)) at 2. rewrite slice_mid.
  cbn [fmap option_fmap option_map mbind option_bind]. rewrite from_le_to_le, Hn, as_u64_low by lia.
  rewrite mask_wrap by done. f_equal.
  pose proof (Z.mod_pos_bound i (2 ^ bits) ltac:(apply Z.pow_pos_nonneg; lia)) as Hr.
  rewrite land_pow_eqb, negb_involutive by lia.
  destruct signed; cbn [andb]; [|done].
  case Z.ltb_spec; intros Hlt; cbn [andb].
  - pose proof (half_pow bits ltac:(lia)). destruct (Z.testbit (i mod 2 ^ bits) (bits - 1)) eqn:Ht.
    + rewrite sign_extend_u64 by (done || lia).
      pose proof (top_bit_set (i mod 2 ^ bits) bits ltac:(lia) ltac:(lia) Ht).
      rewrite <- (wrap_to_congr true bits (i mod 2 ^ bits - 2 ^ bits) i).
      * rewrite wrap_to_id; [|lia|rewrite in_width_spec; lia].
        symmetry. apply as_i64_id. assert (2 ^ bits <= 2 ^ 63) by (apply Z.pow_le_mono_r; lia).
        unfold is_i64. lia.
      * replace (i mod 2 ^ bits - 2 ^ bits) with (i mod 2 ^ bits + -1 * 2 ^ bits) by lia.
        by rewrite Z.mod_add, Z.mod_mod by lia.
    + pose proof (top_bit_clear (i mod 2 ^ bits) bits ltac:(lia) ltac:(lia) Ht).
      rewrite <- (wrap_to_congr true bits (i mod 2 ^ bits) i) by (by rewrite Z.mod_mod by lia).
      rewrite wrap_to_id; [done|lia|rewrite in_width_spec; lia].
  - replace bits with 64 by lia. rewrite wrap_to_64. apply as_i64_congr. by rewrite Z.mod_mod by lia.
Qed.

(** ** What a value denotes *)

(** The data a packed element can hold. *)
Inductive Datum :=
  | DInt (i : Z) | DFloat (f : Z) | DF32 (f : Z) | DBool (b : bool)
  | DObject (shape : Shape) (fields : list Datum).

Section Codec.
Context `{ExternType, Allocator}.

Fixpoint reads (h : Heap) (d : Datum) (v : Value) : Prop :=
  match d with
  | DInt i => as_int h v = Some i /\ as_f32 v = None
  | DFloat f => as_float v = Some f
  | DF32 f => as_f32 v = Some f /\ is_small_int v = false
  | DBool b => as_bool v = Some b
  | DObject s ds =>
      exists slots, payload h v = Some (PObject s slots) /\
        (fix all (ds : list Datum) (vs : list Value) : Prop :=
           match ds, vs with
           | [], [] => True
           | d :: ds, v :: vs => reads h d v /\ all ds vs
           | _, _ => False
           end) ds slots
  end.
Definition reads_all (h : Heap) : list Datum -> list Value -> Prop :=
  fix all (ds : list Datum) (vs : list Value) : Prop :=
    match ds, vs with
    | [], [] => True
    | d :: ds, v :: vs => reads h d v /\ all ds vs
    | _, _ => False
    end.

(** Data of a field's kind, words in the range of their width. *)
Fixpoint fits (k : PackedKind) (d : Datum) : Prop :=
  match k, d with
  | KInt, DInt i => is_i64 i
  | KFloat, DFloat f | KF64, DFloat f => is_u64 f /\ float_value f = f
  | KF32, DF32 f => 0 <= f < 2 ^ 32
  | KIntN bits signed, DInt i => word_of_width signed bits i
  | KBool, DBool _ => True
  | KStruct inner, d => fits_element inner d
  | _, _ => False
  end
with fits_element (schema : PackedSchema) (d : Datum) : Prop :=
  match schema with
  | mkSchema None (k :: _) _ _ => fits k d
  | mkSchema (Some s) fields _ _ =>
      match d with
      | DObject s' ds =>
          s' = s /\
          (fix all (ks : list PackedKind) (ds : list Datum) : Prop :=
             match ks, ds with
             | [], [] => True
             | k :: ks, d :: ds => fits k d /\ all ks ds
             | _, _ => False
             end) fields ds
      | _ => False
      end
  | mkSchema None [] _ _ => False
  end.
Definition fits_all : list PackedKind -> list Datum -> Prop :=
  fix all (ks : list PackedKind) (ds : list Datum) : Prop :=
    match ks, ds with
    | [], [] => True
    | k :: ks, d :: ds => fits k d /\ all ks ds
    | _, _ => False
    end.

(** Schemas as they are built: sizes are sums of widths, a scalar element is one primitive. *)
Fixpoint wf_kind (k : PackedKind) : Prop :=
  match k with
  | KIntN bits _ => fixed_width bits
  | KStruct inner => wf_schema inner
  | _ => True
  end
with wf_schema (schema : PackedSchema) : Prop :=
  match schema with
  | mkSchema sh fields size _ =>
      size = sum_list (byte_width <$> fields) /\
      match sh, fields with
      | Some _, _ => True
      | None, [KStruct _] => False
      | None, [_] => True
      | None, _ => False
      end /\
      (fix all (ks : list PackedKind) : Prop :=
         match ks with [] => True | k :: ks => wf_kind k /\ all ks end) fields
  end.
Definition wf_kinds : list PackedKind -> Prop :=
  fix all (ks : list PackedKind) : Prop :=
    match ks with [] => True | k :: ks => wf_kind k /\ all ks end.

(** ** Heaps only grow *)

Lemma payload_mono h h' v p : h ⊆ h' -> payload h v = Some p -> payload h' v = Some p.
Proof using.
  unfold payload. intros Hs. destruct (is_pointer v); [|done].
  intros Hl. by eapply lookup_weaken.
Qed.
Lemma as_int_mono h h' v i : h ⊆ h' -> as_int h v = Some i -> as_int h' v = Some i.
Proof using.
  unfold as_int. intros Hs. destruct (is_small_int v); [done|].
  destruct (payload h v) as [p|] eqn:E; [|done]. by rewrite (payload_mono _ _ _ _ Hs E).
Qed.
Lemma reads_mono h h' d v : h ⊆ h' -> reads h d v -> reads h' d v.
Proof using.
  intros Hs. revert d v. fix IH 1. intros [i|f|f|b|s ds] v; cbn [reads]; try done.
  - intros [Hi Hf]. split; [by eapply as_int_mono|done].
  - intros (slots & Hp & Hall). exists slots. split; [by eapply payload_mono|].
    clear Hp. revert slots Hall. induction ds as [|d ds IHds]; intros [|w slots]; try done.
    intros [Hd Hall]. split; [by apply IH|by apply IHds].
Qed.
Lemma reads_all_mono h h' ds vs : h ⊆ h' -> reads_all h ds vs -> reads_all h' ds vs.
Proof using.
  intros Hs. revert vs. induction ds as [|d ds IH]; intros [|v vs]; try done.
  intros [Hd Hall]. split; [by eapply reads_mono|by apply IH].
Qed.

(** ** Allocation *)

(** The allocator has room for [room] live addresses. *)
Context (room : nat) (Hroom : forall live, malloc live = None -> (room <= size live)%nat).
Context (Hfresh : malloc_fresh).

(** A heap that kept its contents and took at most [n] more addresses. *)
Definition grows (h h' : Heap) (n : nat) : Prop := h ⊆ h' /\ (size h' <= size h + n)%nat.
Lemma grows_0 h : grows h h 0.
Proof using. split; [done|lia]. Qed.
Lemma grows_le h h' n m : grows h h' n -> (n <= m)%nat -> grows h h' m.
Proof using. intros [??] ?. split; [done|lia]. Qed.
Lemma grows_trans h h1 h2 n m : grows h h1 n -> grows h1 h2 m -> grows h h2 (n + m).
Proof using. intros [Hs ?] [Hs' ?]. split; [by etransitivity|lia]. Qed.

Lemma alloc_reads p h :
  (size h < room)%nat ->
  exists h' v, alloc p h = Some (h', v) /\ grows h h' 1 /\ payload h' v = Some p.
Proof using Hfresh Hroom.
  intros Hr. unfold alloc. destruct (malloc (dom h)) as [a|] eqn:E.
  2:{ apply Hroom in E. rewrite size_dom in E. lia. }
  destruct (Hfresh _ _ E) as [Ha Hlow]. exists (<[a := p]> h), (pointer_word a). split; [done|].
  apply not_elem_of_dom in Ha. split.
  - split; [by apply insert_subseteq|]. rewrite map_size_insert_None by done. lia.
  - unfold payload. rewrite pointer_is_pointer, pointer_low by done. apply lookup_insert_eq.
Qed.
Lemma as_f32_pointer v : is_pointer v = true -> as_f32 v = None.
Proof using. intros Hp. unfold as_f32, is_f32. by rewrite Hp, andb_false_r. Qed.
Lemma int_spec i h :
  is_i64 i -> (size h < room)%nat ->
  exists h' v, int i h = Some (h', v) /\ grows h h' 1 /\ as_int h' v = Some i /\ as_f32 v = None.
Proof using Hfresh Hroom.
  intros Hi Hr. unfold int. destruct (Z.leb_spec INT_MIN i), (Z.leb_spec i INT_MAX); cbn [andb].
  2-4: destruct (alloc_reads (PInt i) h Hr) as (h' & v & E & Hs & Hp);
    assert (Hptr : is_pointer v = true) by (unfold payload in Hp; by destruct (is_pointer v));
    exists h', v; split; [done|]; split; [done|]; split; [|by apply as_f32_pointer];
    unfold as_int; rewrite Hp; unfold is_small_int; by rewrite Hptr, andb_false_r.
  exists h, (small_int i). split; [done|]. split; [apply (grows_le _ _ 0), le_S, le_n; apply grows_0|].
  unfold as_int.
  pose proof (immediate_reads (IInt i) ltac:(done)) as (_ & _ & _ & _ & _ & Hd & Hf32 & _).
  cbn [immediate_word] in Hd, Hf32. unfold read_int in Hd. split; [|done].
  destruct (is_small_int (small_int i)); done.
Qed.

(** The most addresses decoding a kind takes: one for an integer, one for an object. *)
Fixpoint allocations (k : PackedKind) : nat :=
  match k with
  | KInt | KIntN _ _ => 1%nat
  | KStruct inner => element_allocations inner
  | _ => 0%nat
  end
with element_allocations (s : PackedSchema) : nat :=
  match s with
  | mkSchema _ fields _ _ =>
      S ((fix all (ks : list PackedKind) : nat :=
            match ks with [] => 0%nat | k :: ks => (allocations k + all ks)%nat end) fields)
  end.
Definition all_allocations : list PackedKind -> nat :=
  fix all (ks : list PackedKind) : nat :=
    match ks with [] => 0%nat | k :: ks => (allocations k + all ks)%nat end.

(** ** The recursion over the fields, by name *)

Definition pack_fields (h : Heap) : list PackedKind -> list Value -> option (list Z) :=
  fix pack_fields (fields : list PackedKind) (slots : list Value) : option (list Z) :=
    match fields, slots with
    | k :: fields, slot :: slots =>
        field ← pack_field h k slot; rest ← pack_fields fields slots; Some (field ++ rest)
    | _, _ => Some []
    end.
Lemma pack_element_object h s fields n c v :
  pack_element h (mkSchema (Some s) fields n c) v =
    (slots ← slots h v;
     if bool_decide (length slots = length fields) then pack_fields h fields slots else None).
Proof using. done. Qed.

Definition unpack_fields (bytes : list Z) :
    list PackedKind -> nat -> Heap -> option (Heap * list Value * nat) :=
  fix unpack_fields (fields : list PackedKind) (at_ : nat) (h : Heap) :=
    match fields with
    | [] => Some (h, [], at_)
    | k :: fields =>
        '(h, v, next) ←
          match k with
          | KStruct inner => unpack_element inner bytes at_ h
          | k =>
              '(h, v) ← decode_packed_field k bytes at_ h;
              Some (h, v, at_ + byte_width k)%nat
          end;
        '(h, vs, end_) ← unpack_fields fields next h;
        Some (h, v :: vs, end_)
    end.
Lemma unpack_element_object s fields n c bytes at_ h :
  unpack_element (mkSchema (Some s) fields n c) bytes at_ h =
    ('(h, slots, end_) ← unpack_fields bytes fields at_ h;
     '(h, v) ← alloc (PObject s slots) h;
     Some (h, v, end_)).
Proof using. done. Qed.

Lemma unpack_element_scalar k fields n c bytes at_ h :
  unpack_element (mkSchema None (k :: fields) n c) bytes at_ h =
    ('(h, v) ← decode_packed_field k bytes at_ h; Some (h, v, (at_ + byte_width k)%nat)).
Proof using. done. Qed.

(** Induction over kinds and schemas. *)
Section Scheme.
Context (P : PackedKind -> Prop) (Q : PackedSchema -> Prop).
Context (Hprim : forall k, match k with KStruct _ => True | _ => P k end).
Context (Hstruct : forall inner, Q inner -> P (KStruct inner)).
Context (Hschema : forall sh fields n c, Forall P fields -> Q (mkSchema sh fields n c)).
Fixpoint kind_scheme (k : PackedKind) : P k :=
  match k return P k with
  | KStruct inner => Hstruct inner (schema_scheme inner)
  | KInt => Hprim KInt | KFloat => Hprim KFloat | KF32 => Hprim KF32 | KF64 => Hprim KF64
  | KIntN b s => Hprim (KIntN b s) | KBool => Hprim KBool
  end
with schema_scheme (s : PackedSchema) : Q s :=
  match s return Q s with
  | mkSchema sh fields n c =>
      Hschema sh fields n c
        ((fix go (fields : list PackedKind) : Forall P fields :=
            match fields return Forall P fields with
            | [] => Forall_nil_2 _
            | k :: fields => Forall_cons_2 _ _ _ (kind_scheme k) (go fields)
            end) fields)
  end.
End Scheme.

(** ** The round trip *)

(** The bytes decode, wherever they stand, to a value denoting [d]. *)
Definition decodes (k : PackedKind) (bytes : list Z) (d : Datum) : Prop :=
  forall pre post h, (size h + allocations k <= room)%nat ->
    exists h' w, decode_packed_field k (pre ++ bytes ++ post) (length pre) h = Some (h', w) /\
       grows h h' (allocations k) /\ reads h' d w.
Definition unpacks (s : PackedSchema) (bytes : list Z) (d : Datum) : Prop :=
  forall pre post h, (size h + element_allocations s <= room)%nat ->
    exists h' w,
       unpack_element s (pre ++ bytes ++ post) (length pre) h =
         Some (h', w, (length pre + length bytes)%nat) /\
       grows h h' (element_allocations s) /\ reads h' d w.
Definition unpacks_field (k : PackedKind) (bytes : list Z) (d : Datum) : Prop :=
  match k with KStruct inner => unpacks inner bytes d | _ => decodes k bytes d end.
Definition packs_field (k : PackedKind) : Prop :=
  wf_kind k -> forall h v d, fits k d -> reads h d v ->
  exists bytes,
    pack_field h k v = Some bytes /\ length bytes = byte_width k /\ unpacks_field k bytes d.
Definition packs_element (s : PackedSchema) : Prop :=
  wf_schema s -> forall h v d, fits_element s d -> reads h d v ->
  exists bytes, pack_element h s v = Some bytes /\ length bytes = byte_size s /\ unpacks s bytes d.

Lemma slice_le pre post n v :
  slice (pre ++ to_le_bytes n v ++ post) (length pre) n = Some (to_le_bytes n v).
Proof using. rewrite <- (length_to_le n v) at 2. apply slice_mid. Qed.
Lemma read_u64_le pre post v :
  is_u64 v -> read_u64 (pre ++ to_le_bytes 8 v ++ post) (length pre) = Some v.
Proof using.
  intros Hv. unfold read_u64. rewrite slice_le. cbn [fmap option_fmap option_map].
  rewrite from_le_to_le. f_equal. by apply Z.mod_small.
Qed.
Lemma read_u32_le pre post v :
  0 <= v < 2 ^ 32 -> read_u32 (pre ++ to_le_bytes 4 v ++ post) (length pre) = Some v.
Proof using.
  intros Hv. unfold read_u32. rewrite slice_le. cbn [fmap option_fmap option_map].
  rewrite from_le_to_le. f_equal. by apply Z.mod_small.
Qed.

Lemma packs_primitive k : match k with KStruct _ => True | _ => packs_field k end.
Proof using Hfresh Hroom.
  destruct k as [| | | |bits signed| |inner]; try done; intros Hwf h v d Hf Hr;
    destruct d as [i|f|f|b|s ds]; try done; cbn [fits] in Hf; cbn [reads] in Hr;
    try match type of Hr with _ /\ _ => destruct Hr as [Hr _] end; cbn [pack_field]; rewrite Hr; cbn [mbind option_bind];
    (eexists; split; [reflexivity|]).
  - split; [apply length_to_le|]. intros pre post h0 Hroom0. cbn [decode_packed_field].
    rewrite read_u64_le by apply as_u64_is_u64. cbn [mbind option_bind].
    rewrite as_i64_as_u64, as_i64_id by done. cbn in Hroom0. apply int_spec; [done|lia].
  - split; [apply length_to_le|]. intros pre post h0 _. cbn [decode_packed_field].
    rewrite read_u64_le by apply Hf. eexists _, _. split; [reflexivity|].
    split; [apply grows_0|]. apply (immediate_reads (IFloat f) Hf).
  - split; [apply length_to_le|]. intros pre post h0 _. cbn [decode_packed_field].
    rewrite read_u32_le by done. eexists _, _. split; [reflexivity|].
    split; [apply grows_0|].
    pose proof (immediate_reads (IF32 f) Hf) as (_ & _ & _ & _ & _ & Hd & Hf32 & _).
    cbn [immediate_word] in Hd, Hf32. split; [done|]. unfold read_int in Hd.
    by destruct (is_small_int (f32_value f)).
  - split; [apply length_to_le|]. intros pre post h0 _. cbn [decode_packed_field].
    rewrite read_u64_le by apply Hf. eexists _, _. split; [reflexivity|].
    split; [apply grows_0|]. apply (immediate_reads (IFloat f) Hf).
  - split; [by rewrite write_intn_le, length_to_le|]. intros pre post h0 Hroom0.
    cbn [decode_packed_field].
    rewrite read_write_intn by (done || apply Hf). cbn [mbind option_bind].
    assert (Hb : 0 < bits <= 64) by (cbn in Hwf; each_width Hwf; lia).
    replace (mask_to_width i signed bits) with i; [cbn in Hroom0; apply int_spec; [apply Hf|lia]|].
    rewrite mask_wrap by (done || apply Hf). destruct Hf as [Hi Hin].
    rewrite <- (word_of_int_value signed bits i) at 1 by (by split).
    rewrite <- (wrap_to_id signed bits (int_value signed i)) by (done || lia).
    f_equal. apply wrap_to_congr. apply int_value_low. lia.
  - split; [done|]. intros pre post h0 _. cbn [decode_packed_field].
    cbn [app]. rewrite list_lookup_middle by done. cbn [mbind option_bind].
    eexists _, _. split; [reflexivity|]. split; [apply grows_0|].
    destruct b; apply (immediate_reads (IBool _) I).
Qed.

(** One field in a run, and the run. *)
Definition step_fields (bytes : list Z) (k : PackedKind) (at_ : nat) (h : Heap) :
    option (Heap * Value * nat) :=
  match k with
  | KStruct inner => unpack_element inner bytes at_ h
  | k => '(h, v) ← decode_packed_field k bytes at_ h; Some (h, v, at_ + byte_width k)%nat
  end.
Lemma step_field_ok k bytes d pre post h :
  unpacks_field k bytes d -> length bytes = byte_width k ->
  (size h + allocations k <= room)%nat ->
  exists h' w,
    step_fields (pre ++ bytes ++ post) k (length pre) h =
      Some (h', w, (length pre + length bytes)%nat) /\
    grows h h' (allocations k) /\ reads h' d w.
Proof using.
  intros Hu Hl Hn. destruct k as [| | | |bits signed| |inner]; try (by apply Hu); cbn in Hl;
    destruct (Hu pre post h Hn) as (h' & w & E & Hs & Hr);
    exists h', w; unfold step_fields; rewrite E; cbn; by rewrite Hl.
Qed.
Lemma unpack_fields_cons bytes k fields at_ h :
  unpack_fields bytes (k :: fields) at_ h =
    ('(h, v, next) ← step_fields bytes k at_ h;
     '(h, vs, end_) ← unpack_fields bytes fields next h;
     Some (h, v :: vs, end_)).
Proof using. done. Qed.

Lemma step_fields_decode bytes k at_ h h' w n :
  step_fields bytes k at_ h = Some (h', w, n) -> decode_packed_field k bytes at_ h = Some (h', w).
Proof using.
  destruct k as [| | | |bits signed| |inner]; unfold step_fields; intros E.
  7: { change (('(h, v, _) ← unpack_element inner bytes at_ h; Some (h, v)) = Some (h', w)).
       by rewrite E. }
  all: destruct (decode_packed_field _ _ _ _) as [[h1 v1]|]; cbn in E; by simplify_eq/=.
Qed.

(** A cell of a row: the bytes of one field. *)
Definition cell_ok (k : PackedKind) (b : list Z) (d : Datum) : Prop :=
  length b = byte_width k /\ unpacks_field k b d.
Definition row_denotes (s : PackedSchema) (cells : list (list Z)) (d : Datum) : Prop :=
  match schema_shape s, d with
  | None, d => Forall3 cell_ok (schema_fields s) cells [d]
  | Some sh, DObject sh' ds => sh' = sh /\ Forall3 cell_ok (schema_fields s) cells ds
  | Some _, _ => False
  end.
Lemma cells_widths fields cells ds :
  Forall3 cell_ok fields cells ds -> length <$> cells = byte_width <$> fields.
Proof using. induction 1 as [|k b d ks bs ds [Hl _] _ IH]; [done|]. cbn. by rewrite Hl, IH. Qed.

Lemma pack_fields_ok fields :
  Forall packs_field fields -> wf_kinds fields -> forall h ds vs,
  fits_all fields ds -> reads_all h ds vs ->
  length vs = length fields /\
  exists cells, pack_fields h fields vs = Some (concat cells) /\ Forall3 cell_ok fields cells ds.
Proof using.
  intros HP. induction HP as [|k fields Hk HP IH]; intros Hwf h [|d ds] [|v vs] Hf Hr; try done.
  { split; [done|]. exists []. split; [done|constructor]. }
  destruct Hwf as [Hwk Hwf], Hf as [Hfk Hf], Hr as [Hrd Hr].
  destruct (Hk Hwk h v d Hfk Hrd) as (b & Hb & Hlb & Hub).
  destruct (IH Hwf h ds vs Hf Hr) as (Hlen & bs & Hbs & Hall).
  split; [cbn; by f_equal|]. exists (b :: bs). cbn [pack_fields]. rewrite Hb. cbn [mbind option_bind].
  fold (pack_fields h). rewrite Hbs. split; [done|]. by constructor.
Qed.

Lemma unpack_fields_ok fields cells ds :
  Forall3 cell_ok fields cells ds -> forall pre post h,
  (size h + all_allocations fields <= room)%nat ->
  exists h' us,
    unpack_fields (pre ++ concat cells ++ post) fields (length pre) h =
      Some (h', us, (length pre + length (concat cells))%nat) /\
    grows h h' (all_allocations fields) /\ reads_all h' ds us.
Proof using.
  induction 1 as [|k b d fields bs ds [Hl Hu] _ IH]; intros pre post h Hn.
  { exists h, []. rewrite Nat.add_0_r. split; [done|]. split; [apply grows_0|done]. }
  cbn [all_allocations] in Hn. fold all_allocations in Hn. cbn [concat].
  rewrite unpack_fields_cons, <- app_assoc.
  destruct (step_field_ok k b d pre (concat bs ++ post) h Hu Hl ltac:(lia)) as (h2 & w & -> & Hs & Hw).
  cbn [mbind option_bind].
  destruct (IH (pre ++ b) post h2 ltac:(destruct Hs; lia)) as (h3 & us & E & Hs' & Hus).
  rewrite <- app_assoc, length_app in E. rewrite E. cbn [mbind option_bind].
  exists h3, (w :: us). split; [by rewrite length_app, Nat.add_assoc|].
  split; [by eapply grows_trans|]. split; [eapply reads_mono; [apply Hs'|done]|done].
Qed.

Lemma row_unpacks s cells d : row_denotes s cells d -> unpacks s (concat cells) d.
Proof using Hfresh Hroom.
  destruct s as [[sh|] fields n c]; unfold row_denotes; cbn [schema_shape schema_fields].
  - destruct d as [| | | |sh' ds]; try done. intros [-> Hall] pre post h Hn.
    cbn [element_allocations] in Hn |- *. fold all_allocations in Hn |- *.
    rewrite unpack_element_object.
    destruct (unpack_fields_ok _ _ _ Hall pre post h ltac:(lia)) as (h2 & us & -> & Hs & Hus).
    cbn [mbind option_bind].
    destruct (alloc_reads (PObject sh us) h2 ltac:(destruct Hs; lia)) as (h3 & w & -> & Hs' & Hp').
    cbn [mbind option_bind]. exists h3, w. split; [done|]. split.
    + eapply grows_le; [by eapply grows_trans|]. lia.
    + exists us. split; [done|]. eapply reads_all_mono; [apply Hs'|done].
  - intros Hall pre post h Hn. inversion Hall as [|k b ? fields' bs ? [Hl Hu] Hrest]; subst.
    inversion Hrest; subst. cbn [concat]. rewrite app_nil_r.
    cbn [element_allocations] in Hn |- *. cbn in Hn.
    destruct (step_field_ok k b d pre post h Hu Hl ltac:(lia)) as (h' & w & E & Hs & Hw).
    exists h', w. rewrite unpack_element_scalar, (step_fields_decode _ _ _ _ _ _ _ E), <- Hl.
    split; [done|]. split; [|done]. eapply grows_le; [done|lia].
Qed.

Lemma pack_row s h v d :
  Forall packs_field (schema_fields s) -> wf_schema s -> fits_element s d -> reads h d v ->
  exists cells, pack_element h s v = Some (concat cells) /\ row_denotes s cells d.
Proof using.
  destruct s as [[sh|] fields n c]; cbn [schema_fields]; intros HP (_ & Hscalar & Hwf) Hf Hr;
    unfold row_denotes; cbn [schema_shape schema_fields].
  - cbn [fits_element] in Hf. destruct d as [| | | |s' ds]; try done. destruct Hf as [-> Hf].
    destruct Hr as (vs & Hp & Hr).
    destruct (pack_fields_ok fields HP Hwf h ds vs Hf Hr) as (Hlen & cells & Hc & Hall).
    exists cells. rewrite pack_element_object. unfold slots at 1. rewrite Hp.
    cbn [mbind option_bind]. by rewrite bool_decide_true.
  - destruct fields as [|k [|k2 fields]]; try done; [|by destruct k].
    apply Forall_cons in HP as [Hk _]. destruct Hwf as [Hwk _].
    destruct (Hk Hwk h v d Hf Hr) as (b & Hb & Hl & Hu). exists [b]. cbn [concat].
    rewrite app_nil_r. split; [by destruct k|]. by repeat constructor.
Qed.

Lemma packs_schema s : Forall packs_field (schema_fields s) -> packs_element s.
Proof using Hfresh Hroom.
  intros HP Hwf h v d Hf Hr. destruct (pack_row s h v d HP Hwf Hf Hr) as (cells & Hp & Hd).
  exists (concat cells). split; [done|]. split; [|by apply row_unpacks].
  assert (Hlen : byte_size s = sum_list (byte_width <$> schema_fields s)) by (by destruct s, Hwf).
  rewrite length_concat_sum, Hlen. unfold row_denotes in Hd. destruct (schema_shape s), d; try done.
  all: by erewrite cells_widths by (done || apply Hd).
Qed.
Lemma packs_all s : Forall packs_field (schema_fields s).
Proof using Hfresh Hroom.
  assert (Hk : forall k, packs_field k).
  { apply (kind_scheme packs_field packs_element).
    - apply packs_primitive.
    - intros inner Hi Hwf h v d Hf Hr. by apply Hi.
    - intros sh fields n c. apply (packs_schema (mkSchema sh fields n c)). }
  apply Forall_forall. intros k _. apply Hk.
Qed.

(** Packing an element of any schema gives a row that denotes it. *)
Lemma element_row s h v d :
  wf_schema s -> fits_element s d -> reads h d v ->
  exists cells, pack_element h s v = Some (concat cells) /\ row_denotes s cells d.
Proof using Hfresh Hroom. apply pack_row, packs_all. Qed.
Lemma row_denotes_widths s cells d : row_denotes s cells d -> row_of (widths s) cells.
Proof using.
  intros Hd. unfold row_denotes in Hd. unfold row_of, widths.
  destruct (schema_shape s), d; try done; by erewrite cells_widths by (done || apply Hd).
Qed.
End Codec.
