(* ===== verification/PackedProps.v ===== *)
(** Packed lists: a packed list, in rows or in columns, is a list of data. *)
From Stdlib Require Import Floats.SpecFloat Strings.String.
From S2P Require Import Prelude Words Numbers NumbersFacts Shapes Values ValuesFacts Packed PackedLayout PackedCodec.
From stdpp Require Import options.
Open Scope nat_scope.
Open Scope list_scope.

(** ** Schemas *)

Lemma schema_eqb_refl s : schema_eqb s s = true.
Proof.
  revert s. apply (schema_scheme (λ k, kind_eqb k k = true) (λ s, schema_eqb s s = true)).
  - intros [| | | |bits signed| |inner]; try done. cbn.
    by rewrite bool_decide_true, eqb_reflx.
  - intros inner H. exact H.
  - intros sh fields n c HP. cbn. rewrite !bool_decide_true, eqb_reflx by done. cbn.
    induction HP as [|k fields Hk HP IH]; [done|]. cbn in Hk |- *. by rewrite Hk, IH.
Qed.

Lemma allocations_field s k : k ∈ schema_fields s -> allocations k <= element_allocations s.
Proof.
  destruct s as [sh fields n c]. cbn [schema_fields element_allocations].
  fold all_allocations. induction fields as [|k' fields IH]; [by intros ?%not_elem_of_nil|].
  rewrite elem_of_cons. cbn [all_allocations]. fold all_allocations.
  intros [-> |Hk]; [lia|]. apply IH in Hk. lia.
Qed.

Lemma reads_all_length `{ExternType} h ds vs : reads_all h ds vs -> length vs = length ds.
Proof.
  revert vs. induction ds as [|d ds IH]; intros [|v vs]; try done.
  intros [_ Hr]. cbn. by rewrite (IH vs).
Qed.

Section Lists.
Context `{ExternType, Allocator}.
Context (room : nat) (Hroom : forall live, malloc live = None -> room <= size live).
Context (Hfresh : malloc_fresh).
Context (schema : PackedSchema) (Hwf : wf_schema schema) (Hsized : sized schema).

(** ** The abstraction: the data a packed list holds *)

Definition holds (h : Heap) (l : Value) (ds : list Datum) : Prop :=
  exists rows, payload h l = Some (PPackedList schema (layout schema rows)) /\
    Forall2 (row_denotes room schema) rows ds.

(** A heap changed at one list only. *)
Definition changes_only (h h' : Heap) (l : Value) : Prop :=
  forall v, Z.land v PTR_MASK <> Z.land l PTR_MASK -> payload h' v = payload h v.

Lemma rows_widths rows ds :
  Forall2 (row_denotes room schema) rows ds -> Forall (row_of (widths schema)) rows.
Proof using.
  induction 1 as [|r d rows ds Hr _ IH]; constructor; [by eapply row_denotes_widths|done].
Qed.
Lemma holds_parts h l ds :
  holds h l ds ->
  exists rows, packed_parts h l = Some (schema, layout schema rows) /\
    Forall2 (row_denotes room schema) rows ds /\ Forall (row_of (widths schema)) rows /\
    length rows = length ds /\ is_pointer l = true.
Proof using.
  intros (rows & Hp & Hd). exists rows. unfold packed_parts. rewrite Hp.
  repeat split; try done; [by eapply rows_widths|by eapply Forall2_length|].
  unfold payload in Hp. by destruct (is_pointer l).
Qed.
Lemma payload_set h l p : is_pointer l = true -> payload (set_payload h l p) l = Some p.
Proof using. unfold payload, set_payload. intros ->. apply lookup_insert_eq. Qed.
Lemma changes_set h l p : changes_only h (set_payload h l p) l.
Proof using. intros v Hv. unfold payload, set_payload. by rewrite lookup_insert_ne. Qed.
Lemma holds_set h l rows ds :
  is_pointer l = true -> Forall2 (row_denotes room schema) rows ds ->
  holds (set_payload h l (PPackedList schema (layout schema rows))) l ds.
Proof using. intros Hl Hd. exists rows. by rewrite payload_set. Qed.
Lemma holds_alloc h rows ds :
  size h < room -> Forall2 (row_denotes room schema) rows ds ->
  exists h' l, packed_list schema (layout schema rows) h = Some (h', l) /\
    grows h h' 1 /\ holds h' l ds.
Proof using Hfresh Hroom.
  intros Hr Hd.
  destruct (alloc_reads room Hroom Hfresh (PPackedList schema (layout schema rows)) h Hr) as (h' & l & E & Hg & Hp).
  exists h', l. split; [exact E|]. split; [done|]. by exists rows.
Qed.
Lemma row_at rows ds i d :
  Forall2 (row_denotes room schema) rows ds -> ds !! i = Some d ->
  exists r, rows !! i = Some r /\ row_denotes room schema r d.
Proof using. intros Hd Hi. destruct (Forall2_lookup_r _ _ _ _ _ Hd Hi) as (r & ? & ?). eauto. Qed.

(** One row, unpacked from its own bytes. *)
Lemma unpack_row r d h :
  row_denotes room schema r d -> size h + element_allocations schema <= room ->
  exists h' w n, unpack_element schema (concat r) 0 h = Some (h', w, n) /\
    grows h h' (element_allocations schema) /\ reads h' d w.
Proof using Hfresh Hroom.
  intros Hd Hr. destruct (row_unpacks room Hroom Hfresh _ _ _ Hd [] [] h Hr) as (h' & w & E & Hg & Hw).
  rewrite app_nil_r in E. eauto 6.
Qed.

(** ** Reading *)

Lemma get_ok h l ds i d :
  holds h l ds -> ds !! i = Some d -> size h + element_allocations schema <= room ->
  exists h' w, packed_get h l i = Some (h', w) /\ grows h h' (element_allocations schema) /\
    reads h' d w.
Proof using Hfresh Hroom Hsized.
  intros Hl Hi Hr. destruct (holds_parts _ _ _ Hl) as (rows & Hp & Hd & Hrows & _ & _).
  destruct (row_at _ _ _ _ Hd Hi) as (r & Hri & Hrd). unfold packed_get. rewrite Hp.
  cbn [mbind option_bind]. rewrite (element_layout schema Hsized rows i r) by done.
  cbn [mbind option_bind].
  destruct (unpack_row r d h Hrd Hr) as (h' & w & n & -> & Hg & Hw). eauto.
Qed.
Lemma len_ok h l ds : holds h l ds -> list_len h l = Some (Some (length ds)).
Proof using Hsized.
  intros (rows & Hp & Hd). unfold list_len. rewrite Hp.
  rewrite (layout_length schema Hsized rows) by (by eapply rows_widths).
  rewrite <- (Forall2_length _ _ _ Hd). destruct Hsized as [_ Hpos].
  destruct (byte_size schema) as [|n]; [lia|]. by rewrite Nat.div_mul.
Qed.

Lemma slice_field rows i r s :
  Forall (row_of (widths schema)) rows -> rows !! i = Some r -> s < length (widths schema) ->
  slice (layout schema rows) (field_offset schema i s (length rows)) (field_width schema s) =
    Some (cell r s).
Proof using Hsized.
  intros Hrows Hi Hs. unfold layout. destruct (column schema) eqn:Hc.
  { by apply (slice_cell schema). }
  unfold field_offset. rewrite Hc.
  pose proof (element_layout schema Hsized rows i r Hrows Hi) as He.
  unfold element_bytes, layout in He. rewrite Hc in He.
  eapply slice_slice; [exact He|]. apply row_slice; [|done].
  eapply Forall_lookup_1; eassumption.
Qed.
Lemma cell_decodes k b d h :
  cell_ok room k b d -> size h + allocations k <= room ->
  exists h' w, decode_packed_field k b 0 h = Some (h', w) /\ grows h h' (allocations k) /\
    reads h' d w.
Proof using.
  intros [Hl Hu] Hr. destruct (step_field_ok room k b d [] [] h Hu Hl Hr) as (h' & w & E & Hg & Hw).
  apply step_fields_decode in E. rewrite app_nil_r in E. eauto.
Qed.
Lemma field_ok h l ds i f s k ds' d :
  schema_shape schema = Some s ->
  holds h l ds -> ds !! i = Some (DObject s ds') -> slot_of s f = Some k -> ds' !! k = Some d ->
  size h + element_allocations schema <= room ->
  exists h' w, packed_field h l i f = Some (h', Some w) /\
    grows h h' (element_allocations schema) /\ reads h' d w.
Proof using Hsized.
  intros Hsh Hl Hi Hs Hk Hr. destruct (holds_parts _ _ _ Hl) as (rows & Hp & Hd & Hrows & Hlen & _).
  destruct (row_at _ _ _ _ Hd Hi) as (r & Hri & Hrd). unfold packed_field. rewrite Hp.
  rewrite (count_layout schema Hsized rows) by done.
  rewrite bool_decide_false by (apply lookup_lt_Some in Hri; lia).
  unfold row_denotes in Hrd. rewrite Hsh in Hrd |- *. destruct Hrd as [_ Hcells].
  cbn [mbind option_bind]. rewrite Hs.
  destruct (Forall3_lookup_r _ _ _ _ _ _ Hcells Hk) as (kd & b & Hkd & Hb & Hc).
  rewrite Hkd. cbn [mbind option_bind].
  assert (Hcell : cell r k = b) by (unfold cell; by rewrite Hb).
  assert (Hw : byte_width kd = field_width schema k) by (unfold field_width; by rewrite Hkd).
  rewrite Hw, (slice_field rows i r) by (try done; unfold widths; rewrite length_fmap;
    by eapply lookup_lt_Some). rewrite Hcell. cbn [mbind option_bind].
  assert (Ha := allocations_field schema kd ltac:(by eapply list_elem_of_lookup_2)).
  destruct (cell_decodes kd b d h Hc ltac:(lia)) as (h' & w & E & Hg & Hw').
  rewrite E. exists h', w. split; [done|].
  split; [|done]. eapply grows_le; [done|lia].
Qed.

(** The whole list, row after row. *)
Lemma items_columns rows h ds k :
  column schema = true -> Forall (row_of (widths schema)) rows ->
  Forall2 (row_denotes room schema) (drop k rows) ds ->
  size h + length ds * element_allocations schema <= room ->
  exists h' vs,
    unpack_columns schema (layout schema rows) (length rows) (seq k (length ds)) h =
      Some (h', vs) /\
    grows h h' (length ds * element_allocations schema) /\ reads_all h' ds vs.
Proof using Hfresh Hroom Hsized.
  intros Hc Hrows. revert k h. induction ds as [|d ds IH]; intros k h Hd Hn.
  { exists h, []. split; [done|]. split; [apply grows_0|done]. }
  destruct (drop k rows) as [|r rest] eqn:E; [by inversion Hd|].
  apply Forall2_cons in Hd as [Hr Hd]. cbn [length Nat.mul] in Hn |- *.
  assert (Hk : rows !! k = Some r) by (by rewrite <- (Nat.add_0_r k), <- lookup_drop, E).
  assert (Hrest : drop (S k) rows = rest) by (by rewrite <- Nat.add_1_r, <- drop_drop, E).
  cbn [seq unpack_columns].
  assert (Hrow : gather_row schema (layout schema rows) k (length rows) = Some (concat r))
    by (unfold layout; rewrite Hc; by apply gather_row_layout).
  rewrite Hrow. cbn [mbind option_bind].
  destruct (unpack_row r d h Hr ltac:(lia)) as (h1 & w & n & -> & Hg & Hw).
  cbn [mbind option_bind].
  destruct (IH (S k) h1) as (h2 & vs & -> & Hg2 & Hvs); [by rewrite Hrest|destruct Hg; lia|].
  cbn [mbind option_bind]. exists h2, (w :: vs). split; [done|].
  split; [by eapply grows_trans|]. split; [eapply reads_mono; [apply Hg2|done]|done].
Qed.
Lemma items_rows rows h ds pre :
  Forall2 (row_denotes room schema) rows ds ->
  size h + length ds * element_allocations schema <= room ->
  exists h' vs,
    unpack_run schema (pre ++ concat ((@concat Z) <$> rows)) (length ds) (length pre) h =
      Some (h', vs) /\
    grows h h' (length ds * element_allocations schema) /\ reads_all h' ds vs.
Proof using Hfresh Hroom.
  intros Hd. revert pre h. induction Hd as [|r d rows ds Hr Hd IH]; intros pre h Hn.
  { exists h, []. split; [done|]. split; [apply grows_0|done]. }
  cbn [length Nat.mul] in Hn |- *. cbn [unpack_run fmap list_fmap concat].
  destruct (row_unpacks room Hroom Hfresh _ _ _ Hr pre (concat ((@concat Z) <$> rows)) h ltac:(lia))
    as (h1 & w & E & Hg & Hw).
  rewrite E. cbn [mbind option_bind].
  destruct (IH (pre ++ concat r) h1 ltac:(destruct Hg; lia)) as (h2 & vs & E2 & Hg2 & Hvs).
  rewrite <- app_assoc, length_app in E2. rewrite E2.
  cbn [mbind option_bind]. exists h2, (w :: vs). split; [done|].
  split; [by eapply grows_trans|]. split; [eapply reads_mono; [apply Hg2|done]|done].
Qed.
Lemma items_ok h l ds :
  holds h l ds -> size h + length ds * element_allocations schema <= room ->
  exists h' vs, packed_items h l = Some (h', vs) /\
    grows h h' (length ds * element_allocations schema) /\ reads_all h' ds vs.
Proof using Hfresh Hroom Hsized.
  intros Hl Hn. destruct (holds_parts _ _ _ Hl) as (rows & Hp & Hd & Hrows & Hlen & _).
  unfold packed_items. rewrite Hp. cbn [mbind option_bind].
  rewrite (count_layout schema Hsized rows), Hlen by done.
  destruct (column schema) eqn:Hc.
  - pose proof (items_columns rows h ds 0 Hc Hrows Hd Hn) as Hi. by rewrite Hlen in Hi.
  - unfold layout. rewrite Hc. by apply (items_rows rows h ds []).
Qed.

(** ** Writing *)

Lemma push_ok h l v ds d :
  holds h l ds -> fits_element schema d -> reads h d v ->
  exists h', packed_push h l v = Some (h', true) /\ holds h' l (ds ++ [d]) /\ changes_only h h' l.
Proof using Hfresh Hroom Hsized Hwf.
  intros Hl Hf Hr. destruct (holds_parts _ _ _ Hl) as (rows & Hp & Hd & Hrows & Hlen & Hptr).
  destruct (element_row room Hroom Hfresh schema h v d Hwf Hf Hr) as (r & Hpk & Hrd).
  unfold packed_push. rewrite Hp, Hpk.
  rewrite (push_layout schema Hsized rows r) by (done || by eapply row_denotes_widths).
  cbn [mbind option_bind]. eexists. split; [reflexivity|]. split; [|apply changes_set].
  apply holds_set; [done|]. by apply Forall2_app; [|repeat constructor].
Qed.
Lemma set_rows rows ds i r d :
  Forall2 (row_denotes room schema) rows ds -> row_denotes room schema r d ->
  Forall2 (row_denotes room schema) (<[i := r]> rows) (<[i := d]> ds).
Proof using. intros. by apply Forall2_insert. Qed.
Lemma set_in_place_ok h l i v ds d :
  holds h l ds -> fits_element schema d -> reads h d v -> i < length ds ->
  exists h', packed_set_in_place h l i v = Some (h', true) /\ holds h' l (<[i := d]> ds) /\
    changes_only h h' l.
Proof using Hfresh Hroom Hsized Hwf.
  intros Hl Hf Hr Hi. destruct (holds_parts _ _ _ Hl) as (rows & Hp & Hd & Hrows & Hlen & Hptr).
  destruct (element_row room Hroom Hfresh schema h v d Hwf Hf Hr) as (r & Hpk & Hrd).
  unfold packed_set_in_place. rewrite Hp, Hpk.
  rewrite (set_layout schema Hsized rows i r) by (done || lia || by eapply row_denotes_widths).
  cbn [mbind option_bind]. eexists. split; [reflexivity|]. split; [|apply changes_set].
  apply holds_set; [done|]. by apply set_rows.
Qed.
Lemma set_ok h l i v ds d :
  holds h l ds -> fits_element schema d -> reads h d v -> i < length ds -> size h < room ->
  exists h' l', packed_set h l i v = Some (h', Some l') /\ grows h h' 1 /\
    holds h' l' (<[i := d]> ds).
Proof using Hfresh Hroom Hsized Hwf.
  intros Hl Hf Hr Hi Hn. destruct (holds_parts _ _ _ Hl) as (rows & Hp & Hd & Hrows & Hlen & _).
  destruct (element_row room Hroom Hfresh schema h v d Hwf Hf Hr) as (r & Hpk & Hrd).
  unfold packed_set. rewrite Hp. cbn [mbind option_bind]. rewrite Hpk.
  rewrite (set_layout schema Hsized rows i r) by (done || lia || by eapply row_denotes_widths).
  cbn [mbind option_bind].
  destruct (holds_alloc h _ _ Hn (set_rows rows ds i r d Hd Hrd)) as (h' & l' & -> & Hg & Hh).
  cbn [mbind option_bind]. eauto.
Qed.

(** ** Building *)

Lemma select_ok h l ds indices sel :
  holds h l ds -> Forall2 (λ i d, ds !! i = Some d) indices sel -> size h < room ->
  exists h' l', packed_select h l indices = Some (h', l') /\ grows h h' 1 /\ holds h' l' sel.
Proof using Hfresh Hroom Hsized.
  intros Hl Hsel Hn. destruct (holds_parts _ _ _ Hl) as (rows & Hp & Hd & Hrows & Hlen & _).
  assert (Hs : exists rs, selects rows indices rs /\ Forall2 (row_denotes room schema) rs sel).
  { induction Hsel as [|i d indices sel Hi _ (rs & Hrs & Hds)]; [by exists []; split; constructor|].
    destruct (row_at _ _ _ _ Hd Hi) as (r & Hr & Hrd). exists (r :: rs). by split; constructor. }
  destruct Hs as (rs & Hrs & Hds). unfold packed_select. rewrite Hp. cbn [mbind option_bind].
  rewrite (select_layout schema Hsized rows indices rs) by done. cbn [mbind option_bind].
  by apply holds_alloc.
Qed.
Lemma concat_ok h l l2 ds ds2 :
  holds h l ds -> holds h l2 ds2 -> size h < room ->
  exists h' l', packed_concat h l l2 = Some (Some (h', l')) /\ grows h h' 1 /\
    holds h' l' (ds ++ ds2).
Proof using Hfresh Hroom Hsized.
  intros Hl Hl2 Hn. destruct (holds_parts _ _ _ Hl) as (rows & Hp & Hd & Hrows & _ & _).
  destruct (holds_parts _ _ _ Hl2) as (rows2 & Hp2 & Hd2 & Hrows2 & _ & _).
  unfold packed_concat. rewrite Hp, Hp2, schema_eqb_refl.
  rewrite (concat_layout schema Hsized rows rows2) by done. cbn [mbind option_bind].
  destruct (holds_alloc h _ _ Hn (Forall2_app Hd Hd2)) as (h' & l' & -> & Hg & Hh).
  cbn [mbind option_bind]. eauto.
Qed.
Lemma extend_ok h l l2 ds ds2 :
  holds h l ds -> holds h l2 ds2 ->
  exists h', packed_extend_in_place h l l2 = Some (h', true) /\ holds h' l (ds ++ ds2) /\
    changes_only h h' l.
Proof using Hsized.
  intros Hl Hl2. destruct (holds_parts _ _ _ Hl) as (rows & Hp & Hd & Hrows & _ & Hptr).
  destruct (holds_parts _ _ _ Hl2) as (rows2 & Hp2 & Hd2 & Hrows2 & _ & _).
  unfold packed_extend_in_place. rewrite Hp, Hp2, schema_eqb_refl.
  rewrite (concat_layout schema Hsized rows rows2) by done. cbn [mbind option_bind].
  eexists. split; [reflexivity|]. split; [|apply changes_set].
  apply holds_set; [done|]. by apply Forall2_app.
Qed.
End Lists.

(** ** Properties *)

Section Properties.
  Context `{ExternType, Allocator}.
  Context (room : nat) (Hroom : forall live, malloc live = None -> room <= size live).
  Context (Hfresh : malloc_fresh).

(** C6. A packed list reads as the list of data it holds, in rows and in columns alike: its
    length, an element, one field of an element (read without unpacking the others), and
    all the elements in order.  Reading takes no more addresses than the values decoded. *)
Theorem packed_list_reads schema h l ds :
  wf_schema schema -> sized schema -> holds room schema h l ds ->
  list_len h l = Some (Some (length ds)) /\
  (forall i d, ds !! i = Some d -> size h + element_allocations schema <= room ->
   exists h' w, packed_get h l i = Some (h', w) /\
     grows h h' (element_allocations schema) /\ reads h' d w) /\
  (forall i f s k fields d, schema_shape schema = Some s -> ds !! i = Some (DObject s fields) ->
   slot_of s f = Some k -> fields !! k = Some d -> size h + element_allocations schema <= room ->
   exists h' w, packed_field h l i f = Some (h', Some w) /\
     grows h h' (element_allocations schema) /\ reads h' d w) /\
  (size h + length ds * element_allocations schema <= room ->
   exists h' vs, packed_items h l = Some (h', vs) /\
     grows h h' (length ds * element_allocations schema) /\ reads_all h' ds vs).
Proof using Hfresh Hroom.
  intros Hwf Hs Hl. split; [by eapply (len_ok room)|]. split; [intros; by eapply (get_ok room)|].
  split; [intros; by eapply (field_ok room)|]. intros. by apply (items_ok room).
Qed.

(** C14. Writing a packed list is writing the list of data: a value of the element's type is
    pushed at the end, put in place of an element (in the list or in a copy), and nothing
    else of the heap changes. *)
Theorem packed_list_writes schema h l ds v d :
  wf_schema schema -> sized schema -> holds room schema h l ds ->
  fits_element schema d -> reads h d v ->
  (exists h', packed_push h l v = Some (h', true) /\ holds room schema h' l (ds ++ [d]) /\
     changes_only h h' l) /\
  (forall i, i < length ds ->
   (exists h', packed_set_in_place h l i v = Some (h', true) /\
      holds room schema h' l (<[i := d]> ds) /\ changes_only h h' l) /\
   (size h < room ->
    exists h' l', packed_set h l i v = Some (h', Some l') /\ grows h h' 1 /\
      holds room schema h' l' (<[i := d]> ds))).
Proof using Hfresh Hroom.
  intros Hwf Hs Hl Hf Hr. split; [by eapply (push_ok room)|]. intros i Hi.
  split; [by eapply (set_in_place_ok room)|]. intros. by eapply (set_ok room).
Qed.

(** Selecting elements by index gives the list of those elements, in the order of the
    indices and with their repetitions; concatenation, in a new list or in place, appends. *)
Theorem packed_list_builds schema h l l2 ds ds2 :
  wf_schema schema -> sized schema -> holds room schema h l ds -> holds room schema h l2 ds2 ->
  (exists h', packed_extend_in_place h l l2 = Some (h', true) /\
     holds room schema h' l (ds ++ ds2) /\ changes_only h h' l) /\
  (size h < room ->
   (forall indices sel, Forall2 (λ i d, ds !! i = Some d) indices sel ->
    exists h' l', packed_select h l indices = Some (h', l') /\ grows h h' 1 /\
      holds room schema h' l' sel) /\
   (exists h' l', packed_concat h l l2 = Some (Some (h', l')) /\ grows h h' 1 /\
      holds room schema h' l' (ds ++ ds2))).
Proof using Hfresh Hroom.
  intros Hwf Hs Hl Hl2. split; [by eapply (extend_ok room)|]. intros Hn.
  split; [intros; by eapply (select_ok room)|by eapply (concat_ok room)].
Qed.
End Properties.

(** A packed struct of no fields, which the list type accepts, loses its elements: pushing
    one succeeds and leaves the buffer as it was, and asking the length then panics. *)
Theorem empty_packed_element_lost `{ExternType, Allocator} sh c h l v s :
  payload h l = Some (PPackedList (mkSchema (Some sh) [] 0 c) []) ->
  payload h v = Some (PObject s []) ->
  packed_push h l v = Some (h, true) /\ list_len h l = None.
Proof.
  intros Hl Hv. unfold packed_push, list_len, packed_parts. rewrite Hl. split; [|done].
  rewrite pack_element_object. unfold slots. rewrite Hv. cbn [mbind option_bind].
  rewrite bool_decide_true by done. cbn [pack_fields].
  assert (Hpush : push_bytes (mkSchema (Some sh) [] 0 c) [] [] = Some [])
    by (unfold push_bytes; by destruct c).
  rewrite Hpush. cbn [mbind option_bind]. do 2 f_equal. unfold set_payload.
  apply insert_id. unfold payload in Hl. by destruct (is_pointer l).
Qed.

(** ** Witnesses: sixteen addresses, no extern types, a struct of an integer, a narrow integer
    and a flag *)

Module Sample.
#[export] Instance externs : ExternType := {|
  ExternBox := Empty_set;
  type_identity := λ e, match e with end;
  eq_value := λ e _, match e with end;
  cmp_value := λ e _, match e with end;
  display_string := λ e, match e with end;
|}.
#[export] Instance allocator : Allocator :=
  λ live, head (filter (.∉ live) (seqZ 0 16)).

Lemma allocator_room (live : gset Z) : malloc live = None -> 16 <= size live.
Proof.
  unfold malloc, allocator. intros Hn.
  assert (Hall : list_to_set (seqZ 0 16) ⊆ live).
  { intros x Hx. apply elem_of_list_to_set in Hx.
    destruct (decide (x ∈ live)) as [|Hx']; [done|].
    assert (Hf : x ∈ filter (.∉ live) (seqZ 0 16)) by by apply list_elem_of_filter.
    destruct (filter _ _); [by apply not_elem_of_nil in Hf|done]. }
  apply subseteq_size in Hall. etransitivity; [|exact Hall].
  by rewrite size_list_to_set by apply NoDup_seqZ.
Qed.
Lemma allocator_fresh : malloc_fresh.
Proof.
  intros live a Ha. unfold malloc, allocator in Ha.
  assert (Hin : a ∈ filter (.∉ live) (seqZ 0 16)).
  { destruct (filter _ _); [done|]. injection Ha as <-. by left. }
  apply list_elem_of_filter in Hin as [Hin Hr]. split; [done|]. apply elem_of_seqZ in Hr. lia.
Qed.

Definition shape : Shape := object Struct "Reading" ["at"; "level"; "ok"]%string.
Definition schema (column : bool) : PackedSchema :=
  mkSchema (Some shape) [KInt; KIntN 16 true; KBool] 11 column.
Definition datum (at_ level : Z) (ok : bool) : Datum :=
  DObject shape [DInt at_; DInt level; DBool ok].
Definition list_word : Value := pointer_word 0.
Definition first_word : Value := pointer_word 1.
Definition second_word : Value := pointer_word 2.
(** An empty list, and two objects to store. *)
Definition heap (column : bool) : Heap :=
  <[0%Z := PPackedList (schema column) []]>
    (<[1%Z := PObject shape [small_int 7; small_int (-3); bool_value true]]>
      {[2%Z := PObject shape [small_int (-1); small_int 32767; bool_value false]]}).
Definition after {A} (r : option (Heap * A)) : Heap := match r with Some (h, _) => h | None => ∅ end.
Definition one (c : bool) : Heap := after (packed_push (heap c) list_word first_word).
Definition two (c : bool) : Heap := after (packed_push (one c) list_word second_word).

Lemma wf c : wf_schema (schema c) /\ sized (schema c).
Proof. split; [|by split; [|cbn; lia]]. split; [done|]. cbn. unfold fixed_width. intuition. Qed.
Lemma empty c : holds 16 (schema c) (heap c) list_word [].
Proof. exists []. split; [by destruct c|constructor]. Qed.
Lemma reads_first c : reads (heap c) (datum 7 (-3) true) first_word.
Proof. destruct c; (eexists; split; [vm_compute; reflexivity|]; by vm_compute). Qed.
Lemma reads_second c : reads (one c) (datum (-1) 32767 false) second_word.
Proof. destruct c; (eexists; split; [vm_compute; reflexivity|]; by vm_compute). Qed.
Lemma fits_first c : fits_element (schema c) (datum 7 (-3) true).
Proof. cbn. unfold is_i64, word_of_width, in_width, int_value. cbn. repeat split; lia. Qed.
Lemma fits_second c : fits_element (schema c) (datum (-1) 32767 false).
Proof. cbn. unfold is_i64, word_of_width, in_width, int_value. cbn. repeat split; lia. Qed.
Lemma holds_one c : holds 16 (schema c) (one c) list_word [datum 7 (-3) true].
Proof.
  destruct (wf c) as [Hwf Hs].
  destruct (push_ok 16 allocator_room allocator_fresh _ Hwf Hs _ _ first_word [] _
    (empty c) (fits_first c) (reads_first c)) as (h1 & E1 & H1 & _).
  assert (one c = h1) as <- by (unfold one; by rewrite E1). exact H1.
Qed.
Lemma holds_two c :
  holds 16 (schema c) (two c) list_word [datum 7 (-3) true; datum (-1) 32767 false].
Proof.
  destruct (wf c) as [Hwf Hs].
  destruct (push_ok 16 allocator_room allocator_fresh _ Hwf Hs _ _ second_word _ _
    (holds_one c) (fits_second c) (reads_second c)) as (h2 & E2 & H2 & _).
  assert (two c = h2) as <- by (unfold two; by rewrite E2). exact H2.
Qed.
End Sample.

#[local] Existing Instances Sample.externs Sample.allocator.
Lemma packed_list_reads_witness :
  list_len (Sample.two true) Sample.list_word = Some (Some 2) /\
  (exists h' w, packed_field (Sample.two true) Sample.list_word 1 "level" = Some (h', Some w) /\
     reads h' (DInt 32767) w) /\
  (exists h' vs, packed_items (Sample.two false) Sample.list_word = Some (h', vs) /\
     length vs = 2).
Proof.
  destruct (Sample.wf true) as [Hwf Hs], (Sample.wf false) as [Hwf' Hs'].
  pose proof (packed_list_reads 16 Sample.allocator_room Sample.allocator_fresh _ _ _ _
    Hwf Hs (Sample.holds_two true)) as (Hlen & _ & Hfield & _).
  pose proof (packed_list_reads 16 Sample.allocator_room Sample.allocator_fresh _ _ _ _
    Hwf' Hs' (Sample.holds_two false)) as (_ & _ & _ & Hitems).
  split; [exact Hlen|]. split.
  - destruct (Hfield 1 "level"%string Sample.shape 1 [DInt (-1); DInt 32767; DBool false] (DInt 32767)
      eq_refl eq_refl eq_refl eq_refl ltac:(by vm_compute; repeat constructor))
      as (h' & w & E & _ & Hw). exists h', w. split; [exact E|exact Hw].
  - destruct Hitems as (h' & vs & E & _ & Hr); [by vm_compute; repeat constructor|].
    exists h', vs. split; [exact E|]. exact (reads_all_length _ _ _ Hr).
Defined.
Lemma packed_list_writes_witness :
  (exists h', packed_push (Sample.one true) Sample.list_word Sample.second_word = Some (h', true)) /\
  (exists h', packed_set_in_place (Sample.one true) Sample.list_word 0 Sample.second_word =
     Some (h', true)).
Proof.
  destruct (Sample.wf true) as [Hwf Hs].
  pose proof (packed_list_writes 16 Sample.allocator_room Sample.allocator_fresh _ _ _
    [Sample.datum 7 (-3) true] Sample.second_word _ Hwf Hs (Sample.holds_one true)
    (Sample.fits_second true) (Sample.reads_second true)) as ((h1 & E1 & _) & Hset).
  destruct (Hset 0 ltac:(by cbn; constructor)) as ((h2 & E2 & _) & _).
  split; [by exists h1|by exists h2].
Defined.
Lemma packed_list_builds_witness :
  (exists h' l', packed_select (Sample.two true) Sample.list_word [1; 0; 1] = Some (h', l') /\
     list_len h' l' = Some (Some 3)) /\
  (exists h', packed_extend_in_place (Sample.two true) Sample.list_word Sample.list_word =
     Some (h', true)).
Proof.
  destruct (Sample.wf true) as [Hwf Hs].
  pose proof (packed_list_builds 16 Sample.allocator_room Sample.allocator_fresh _ _ _ _ _ _
    Hwf Hs (Sample.holds_two true) (Sample.holds_two true)) as ((h1 & E1 & _) & Hb).
  destruct Hb as [Hsel _]; [by vm_compute; repeat constructor|].
  destruct (Hsel [1; 0; 1]
    [Sample.datum (-1) 32767 false; Sample.datum 7 (-3) true; Sample.datum (-1) 32767 false])
    as (h' & l' & E & _ & Hl); [by repeat constructor|].
  split; [|by exists h1]. exists h', l'. split; [done|]. by apply (len_ok 16) in Hl.
Defined.
Lemma empty_packed_element_lost_witness :
  let sh := object Struct "Empty" [] in
  let h : Heap := <[0%Z := PPackedList (mkSchema (Some sh) [] 0 true) []]> {[1%Z := PObject sh []]} in
  packed_push h (pointer_word 0) (pointer_word 1) = Some (h, true) /\
  list_len h (pointer_word 0) = None.
Proof. intros sh h. by apply (empty_packed_element_lost sh true h _ _ sh). Defined.
