(* ===== verification/Orders.v ===== *)
(** Three-way comparisons ([std::cmp::Ordering]) and the laws that make one a total order. *)
From Stdlib Require Import Strings.Ascii Strings.String.
From S2P Require Import Prelude.
From stdpp Require Import options.
Open Scope Z_scope.
Open Scope list_scope.

(** [Ordering::then_with], [bool]'s and the slices' [Ord]. *)
Definition then_with (a b : comparison) : comparison := match a with Eq => b | _ => a end.
Definition bool_cmp (a b : bool) : comparison :=
  match a, b with false, true => Lt | true, false => Gt | _, _ => Eq end.
Section Slices.
Context {A : Type} (cmp : A -> A -> comparison).
Fixpoint slice_cmp (l k : list A) : comparison :=
  match l, k with
  | [], [] => Eq
  | [], _ :: _ => Lt
  | _ :: _, [] => Gt
  | x :: l, y :: k => then_with (cmp x y) (slice_cmp l k)
  end.
End Slices.

(** How the comparison of the ends follows from those of the two steps. *)
Definition chained (xy yz xz : comparison) : Prop :=
  (xy = Eq -> xz = yz) /\ (yz = Eq \/ yz = xy -> xz = xy).

(** A total preorder, and one whose equivalence is equality. *)
Class TotalCmp {A} (cmp : A -> A -> comparison) : Prop := {
  cmp_flip x y : cmp y x = CompOpp (cmp x y);
  cmp_chain x y z : chained (cmp x y) (cmp y z) (cmp x z);
}.
Class StrictCmp {A} (cmp : A -> A -> comparison) : Prop :=
  cmp_eq x y : cmp x y = Eq -> x = y.

Section Laws.
Context {A : Type} (cmp : A -> A -> comparison) `{Hcmp : !TotalCmp cmp}.
Lemma cmp_refl x : cmp x x = Eq.
Proof using Hcmp. pose proof (cmp_flip (cmp := cmp) x x). by destruct (cmp x x). Qed.
Lemma cmp_eq_sym x y : cmp x y = Eq -> cmp y x = Eq.
Proof using Hcmp. intros H. by rewrite (cmp_flip (cmp := cmp)), H. Qed.
Lemma cmp_gt_lt x y : cmp x y = Gt <-> cmp y x = Lt.
Proof using Hcmp. rewrite (cmp_flip (cmp := cmp) x y). by destruct (cmp x y). Qed.
Lemma cmp_trans x y z c : cmp x y = c -> cmp y z = c -> cmp x z = c.
Proof using Hcmp.
  intros <- H. apply (proj2 (cmp_chain (cmp := cmp) x y z)). by right.
Qed.
(** Equivalent elements compare alike. *)
Lemma cmp_eq_l x y z : cmp x y = Eq -> cmp x z = cmp y z.
Proof using Hcmp. apply (cmp_chain (cmp := cmp)). Qed.
Lemma cmp_eq_r x y z : cmp x y = Eq -> cmp z x = cmp z y.
Proof using Hcmp.
  intros E. rewrite (cmp_flip (cmp := cmp) x z), (cmp_flip (cmp := cmp) y z). f_equal.
  by apply cmp_eq_l.
Qed.
End Laws.

#[export] Instance Z_compare_total : TotalCmp Z.compare.
Proof.
  split; [intros; apply Z.compare_antisym|]. intros x y z. unfold chained.
  destruct (Z.compare_spec x y), (Z.compare_spec y z), (Z.compare_spec x z);
    split; try done; try (intros [|]; done); lia.
Qed.
#[export] Instance Z_compare_strict : StrictCmp Z.compare.
Proof. intros x y. apply Z.compare_eq_iff. Qed.
#[export] Instance N_compare_total : TotalCmp N.compare.
Proof.
  split; [intros; apply N.compare_antisym|]. intros x y z. unfold chained.
  destruct (N.compare_spec x y), (N.compare_spec y z), (N.compare_spec x z);
    split; try done; try (intros [|]; done); lia.
Qed.
#[export] Instance nat_compare_total : TotalCmp Nat.compare.
Proof.
  split; [intros; apply Nat.compare_antisym|]. intros x y z. unfold chained.
  destruct (Nat.compare_spec x y), (Nat.compare_spec y z), (Nat.compare_spec x z);
    split; try done; try (intros [|]; done); lia.
Qed.
#[export] Instance bool_cmp_total : TotalCmp bool_cmp.
Proof. split; [by intros [] []|]. intros [] [] []; split; by try intros [|]. Qed.
#[export] Instance bool_cmp_strict : StrictCmp bool_cmp.
Proof. by intros [] []. Qed.

(** Pulling a comparison back along a function, and comparing two keys in turn. *)
Lemma total_preimage {A B} (f : A -> B) cmp `{!TotalCmp cmp} : TotalCmp (λ x y, cmp (f x) (f y)).
Proof. split; intros; [apply cmp_flip|apply cmp_chain]. Qed.
Lemma then_flip a b : CompOpp (then_with a b) = then_with (CompOpp a) (CompOpp b).
Proof. by destruct a. Qed.
Lemma then_eq a b : then_with a b = Eq <-> a = Eq /\ b = Eq.
Proof. destruct a; cbn; split; try done; intros [? ?]; done. Qed.
Lemma then_chained a1 a2 a3 b1 b2 b3 :
  chained a1 a2 a3 -> chained b1 b2 b3 ->
  chained (then_with a1 b1) (then_with a2 b2) (then_with a3 b3).
Proof.
  intros [H1 H2] Hb. destruct a1, a2, a3;
    try (exfalso; clear Hb; intuition congruence); cbn; try done;
    clear; unfold chained; split; intuition congruence.
Qed.
Lemma total_then {A} (c1 c2 : A -> A -> comparison) `{!TotalCmp c1, !TotalCmp c2} :
  TotalCmp (λ x y, then_with (c1 x y) (c2 x y)).
Proof.
  split; intros.
  - by rewrite then_flip, <- !cmp_flip.
  - apply then_chained; apply cmp_chain.
Qed.

(** Slices of elements that compare well compare well; stated of the elements of the first
    slice, for comparisons defined by recursion through slices. *)
Section SliceLaws.
Context {A : Type} (cmp : A -> A -> comparison).
Definition flips (x : A) : Prop := forall y, cmp y x = CompOpp (cmp x y).
Definition chains (x : A) : Prop := forall y z, chained (cmp x y) (cmp y z) (cmp x z).
Definition strict (x : A) : Prop := forall y, cmp x y = Eq -> x = y.
Lemma slice_flips l : Forall flips l -> forall k, slice_cmp cmp k l = CompOpp (slice_cmp cmp l k).
Proof using.
  induction 1 as [|x l Hx _ IH]; intros [|y k]; try done.
  cbn [slice_cmp]. by rewrite Hx, IH, then_flip.
Qed.
Lemma slice_chains l :
  Forall chains l -> forall k m, chained (slice_cmp cmp l k) (slice_cmp cmp k m) (slice_cmp cmp l m).
Proof using.
  induction 1 as [|x l Hx _ IH]; intros [|y k] [|z m]; cbn [slice_cmp];
    try (by apply then_chained); unfold chained; repeat destruct (then_with _ _);
    clear; split; intuition congruence.
Qed.
Lemma slice_strict l : Forall strict l -> forall k, slice_cmp cmp l k = Eq -> l = k.
Proof using.
  induction 1 as [|x l Hx _ IH]; intros [|y k]; try done. cbn [slice_cmp].
  intros [E1 E2]%then_eq. f_equal; [by apply Hx|by apply IH].
Qed.
End SliceLaws.
#[export] Instance slice_cmp_total {A} (cmp : A -> A -> comparison) `{!TotalCmp cmp} :
  TotalCmp (slice_cmp cmp).
Proof.
  split; intros.
  - apply slice_flips, Forall_forall. intros a _ b. apply cmp_flip.
  - apply slice_chains, Forall_forall. intros a _ b c. apply cmp_chain.
Qed.
#[export] Instance slice_cmp_strict {A} (cmp : A -> A -> comparison) `{!StrictCmp cmp} :
  StrictCmp (slice_cmp cmp).
Proof. intros x y. apply slice_strict, Forall_forall. intros a _ b. apply cmp_eq. Qed.

(** Strings compare as the slices of their bytes. *)
Definition ascii_cmp (a b : ascii) : comparison := Ascii.compare a b.
#[export] Instance ascii_cmp_total : TotalCmp ascii_cmp.
Proof. apply (total_preimage N_of_ascii N.compare). Qed.
#[export] Instance ascii_cmp_strict : StrictCmp ascii_cmp.
Proof. intros x y. apply Ascii.compare_eq_iff. Qed.
Lemma string_compare_bytes s t :
  String.compare s t =
    slice_cmp ascii_cmp (String.list_ascii_of_string s) (String.list_ascii_of_string t).
Proof.
  revert t. induction s as [|a s IH]; intros [|b t]; try done. cbn.
  rewrite IH. unfold ascii_cmp. by destruct (Ascii.compare a b).
Qed.
#[export] Instance string_compare_total : TotalCmp String.compare.
Proof.
  pose proof (total_preimage String.list_ascii_of_string (slice_cmp ascii_cmp)) as [Hf Hc].
  split; intros; rewrite !string_compare_bytes; [apply Hf|apply Hc].
Qed.
#[export] Instance string_compare_strict : StrictCmp String.compare.
Proof. intros s t. apply String.compare_eq_iff. Qed.
