(* ===== verification/Hints.v ===== *)
(** Render hints: where a static type holds an unsigned 64-bit integer
    ([crates/noeta-ext-abi/src/render_hint.rs]).

    The hint type is in [Values]; a position is a [nat].  [Cow] is the hint it holds. *)
From Stdlib Require Import Strings.String.
From S2P Require Bytecode.
From S2P Require Import Prelude Words Shapes Values Orders.
From stdpp Require Import pretty options.
Open Scope Z_scope.
Open Scope list_scope.

(** ** Type arguments *)

(** [TypeArgHints], [is_empty], [at_display]. *)
Record TypeArgHints := mkTypeArgHints {
  display : option RenderHint;
  order : option RenderHint;
  json : option RenderHint;
}.
Definition is_empty (t : TypeArgHints) : bool :=
  match display t, order t, json t with None, None, None => true | _, _, _ => false end.
Definition at_display (t : TypeArgHints) (outermost : bool) : option RenderHint :=
  if outermost then display t else order t.
Definition NO_TYPE_ARG : Z := -1.

(** [HintCase]; the doors are [Bytecode.HintDoor]. *)
Record HintCase := mkHintCase { case_leaves : list Z; composed : Z }.

(** [table.get(usize::try_from(v).ok()?)] *)
Definition get_entry (table : list TypeArgHints) (v : Z) : option TypeArgHints :=
  if 0 <=? v then table !! Z.to_nat v else None.

(** [compose_type_arg]. *)
Definition canonical (table : list TypeArgHints) (v : Z) : Z :=
  match get_entry table v with
  | Some hints => if is_empty hints then NO_TYPE_ARG else v
  | None => NO_TYPE_ARG
  end.
Definition compose_type_arg (cases : list HintCase) (table : list TypeArgHints) (leaves : list Z) : Z :=
  match list_find (λ c, case_leaves c = canonical table <$> leaves) cases with
  | Some (_, c) => composed c
  | None => NO_TYPE_ARG
  end.

(** ** Resolution *)

(** [RenderHint::has_param]. *)
Fixpoint has_param (hint : RenderHint) : bool :=
  match hint with
  | HUnsigned => false
  | HParam _ => true
  | HElements inner => has_param inner
  | HEntries key value =>
      (match key with Some h => has_param h | None => false end)
      || (match value with Some h => has_param h | None => false end)
  | HSlots slots => existsb (λ '(_, h), has_param h) slots
  | HVariants variants => existsb (λ '(_, slots), existsb (λ '(_, h), has_param h) slots) variants
  end.

(** [collect_param_slots]. *)
Fixpoint collect_param_slots (hint : RenderHint) : list nat :=
  match hint with
  | HUnsigned => []
  | HParam n => [n]
  | HElements inner => collect_param_slots inner
  | HEntries key value =>
      (match key with Some h => collect_param_slots h | None => [] end)
      ++ (match value with Some h => collect_param_slots h | None => [] end)
  | HSlots slots => flat_map (λ '(_, h), collect_param_slots h) slots
  | HVariants variants =>
      flat_map (λ '(_, slots), flat_map (λ '(_, h), collect_param_slots h) slots) variants
  end.

Section Resolve.
Context (slot : nat -> bool -> option RenderHint).

(** [substitute]: every position but the door's own is nested. *)
Fixpoint substitute (outermost : bool) (hint : RenderHint) : option RenderHint :=
  let nested_slots :=
    omap (λ '(i, h), match substitute false h with Some h => Some (i, h) | None => None end) in
  match hint with
  | HUnsigned => Some HUnsigned
  | HParam n => slot n outermost
  | HElements inner =>
      match substitute false inner with Some h => Some (HElements h) | None => None end
  | HEntries key value =>
      let key := match key with Some h => substitute false h | None => None end in
      let value := match value with Some h => substitute false h | None => None end in
      match key, value with None, None => None | _, _ => Some (HEntries key value) end
  | HSlots slots =>
      match nested_slots slots with [] => None | slots => Some (HSlots slots) end
  | HVariants variants =>
      let variants :=
        omap (λ '(name, slots),
            match nested_slots slots with [] => None | slots => Some (name, slots) end) variants in
      match variants with [] => None | _ => Some (HVariants variants) end
  end.

(** [RenderHint::resolve]. *)
Definition resolve (hint : RenderHint) : option RenderHint :=
  if has_param hint then substitute true hint else Some hint.
End Resolve.

(** [resolve_hint]. *)
Definition resolve_hint (hint : RenderHint) (slots : list Z) (table : list TypeArgHints)
    (door : Bytecode.HintDoor) : option RenderHint :=
  resolve (λ n outermost,
      v ← slots !! n;
      entry ← get_entry table v;
      match door with
      | Bytecode.Display => at_display entry outermost
      | Bytecode.Order => order entry
      | Bytecode.Json => json entry
      end) hint.

(** ** Reading a hint *)

(** [RenderHint::slot], [variant], [elements], [entry_key]. *)
Definition hint_slot (hint : RenderHint) (index : nat) : option RenderHint :=
  match hint with
  | HSlots slots => '(_, (_, h)) ← list_find (λ s, s.1 = index) slots; Some h
  | _ => None
  end.
Definition hint_variant (hint : RenderHint) (variant : string) : option (list (nat * RenderHint)) :=
  match hint with
  | HVariants variants => '(_, (_, slots)) ← list_find (λ v, v.1 = variant) variants; Some slots
  | _ => None
  end.
Definition hint_elements (hint : RenderHint) : option RenderHint :=
  match hint with HElements inner => Some inner | _ => None end.
Definition entry_key (hint : RenderHint) : option RenderHint :=
  match hint with HEntries key _ => key | _ => None end.

(** [RenderHint::slots]. *)
Definition hint_slots (hints : list (option RenderHint)) : option RenderHint :=
  match omap (λ '(i, h), match h with Some h => Some (i, h) | None => None end)
          (zip (seq 0 (length hints)) hints) with
  | [] => None
  | slots => Some (HSlots slots)
  end.

(** [unsigned_digits], [unsigned_order]. *)
Definition unsigned_digits (word : Z) : string := pretty (as_u64 word).
Definition unsigned_order (a b : Z) : comparison := as_u64 a ?= as_u64 b.
