(* ===== verification/MapKeys.v ===== *)
(** Map keys: identity, order and display ([crates/noeta-ext-abi/src/map_key.rs],
    [render_hint.rs]), the key of a packed struct, and a map's entries
    ([crates/noeta-value/src/lib.rs]).

    A map's payload lists its entries in the order the hash map iterates them, which the code
    leaves open. *)
From Stdlib Require Import Strings.Ascii Strings.String.
From S2P Require Import Prelude Words Shapes Values Orders Hints.
From stdpp Require Import pretty options.
Open Scope Z_scope.
Open Scope list_scope.

(** ** Packed key fields: the derived [Eq] and [Ord] *)

Definition slices_eqb {A} (eqb : A -> A -> bool) : list A -> list A -> bool :=
  fix go (l k : list A) : bool :=
    match l, k with
    | [], [] => true
    | x :: l, y :: k => eqb x y && go l k
    | _, _ => false
    end.
Fixpoint field_eqb (a b : PackedKeyField) : bool :=
  match a, b with
  | FInt x, FInt y => x =? y
  | FBool x, FBool y => Bool.eqb x y
  | FStruct n fs, FStruct m gs => bool_decide (n = m) && slices_eqb field_eqb fs gs
  | _, _ => false
  end.
Fixpoint field_cmp (a b : PackedKeyField) : comparison :=
  match a, b with
  | FInt x, FInt y => x ?= y
  | FInt _, _ => Lt
  | _, FInt _ => Gt
  | FBool x, FBool y => bool_cmp x y
  | FBool _, FStruct _ _ => Lt
  | FStruct _ _, FBool _ => Gt
  | FStruct n fs, FStruct m gs => then_with (String.compare n m) (slice_cmp field_cmp fs gs)
  end.

(** [packed_fields_order]. *)
Fixpoint field_order (hint : option RenderHint) (a b : PackedKeyField) : comparison :=
  match hint, a, b with
  | Some HUnsigned, FInt p, FInt q => unsigned_order p q
  | Some (HSlots slots), FStruct pn p, FStruct qn q =>
      then_with (String.compare pn qn)
        ((fix fields_order (i : nat) (p q : list PackedKeyField) : comparison :=
            match p, q with
            | [], [] => Eq
            | [], _ :: _ => Lt
            | _ :: _, [] => Gt
            | x :: p, y :: q =>
                then_with (field_order (hint_slot (HSlots slots) i) x y) (fields_order (S i) p q)
            end) 0%nat p q)
  | _, x, y => field_cmp x y
  end.

(** [packed_names::display_hinted]; [names] is the registry of field names. *)
Section Display.
Context (names : string -> option (list string)).
Fixpoint field_display (hint : option RenderHint) (f : PackedKeyField) : string :=
  match f with
  | FInt v => match hint with Some HUnsigned => unsigned_digits v | _ => pretty v end
  | FBool b => if b then "true" else "false"
  | FStruct type_name fields =>
      type_name +:+ " {" +:+
      (fix write (i : nat) (fields : list PackedKeyField) : string :=
         match fields with
         | [] => "}"
         | f :: fields =>
             (if bool_decide (i = 0%nat) then "" else ", ") +:+
             (match names type_name ≫= (λ n : list string, n !! i) with
              | Some name => name +:+ ": " | None => ""
              end) +:+
             field_display (hint ≫= λ h, hint_slot h i) f +:+ write (S i) fields
         end) 0%nat fields
  end.
Definition display_hinted (type_name : string) (fields : list PackedKeyField)
    (hint : option RenderHint) : string := field_display hint (FStruct type_name fields).
End Display.

Section Keys.
Context `{ExternType, Allocator}.

(** ** Keys *)

(** [PartialEq], [Ord] and [rank] of [MapKey]. *)
Definition key_eqb (a b : MapKey) : bool :=
  match a, b with
  | KeyStr a, KeyStr b => bool_decide (a = b)
  | KeyInt a, KeyInt b => a =? b
  | KeyExtern a, KeyExtern b => eq_value a b
  | KeyPacked n fs, KeyPacked m gs => bool_decide (n = m) && slices_eqb field_eqb fs gs
  | _, _ => false
  end.
Definition rank (k : MapKey) : Z :=
  match k with KeyInt _ => 0 | KeyStr _ => 1 | KeyExtern _ => 2 | KeyPacked _ _ => 3 end.
Definition key_cmp (a b : MapKey) : comparison :=
  match a, b with
  | KeyInt a, KeyInt b => a ?= b
  | KeyStr a, KeyStr b => String.compare a b
  | KeyExtern a, KeyExtern b =>
      then_with (String.compare (type_identity a) (type_identity b)) (default Eq (cmp_value a b))
  | KeyPacked n fs, KeyPacked m gs =>
      then_with (String.compare n m) (slice_cmp field_cmp fs gs)
  | a, b => rank a ?= rank b
  end.

(** [map_key_order]: the order a program sees. *)
Definition map_key_order (a b : MapKey) (hint : option RenderHint) : comparison :=
  match hint, a, b with
  | Some HUnsigned, KeyInt x, KeyInt y => unsigned_order x y
  | Some (HSlots slots), KeyPacked n fs, KeyPacked m gs =>
      field_order (Some (HSlots slots)) (FStruct n fs) (FStruct m gs)
  | _, a, b => key_cmp a b
  end.

(** [MapKey::as_native_str], [MapKey::as_str]. *)
Definition as_native_str (names : string -> option (list string)) (k : MapKey) : string :=
  match k with
  | KeyStr s => s
  | KeyInt i => pretty i
  | KeyExtern e => display_string e
  | KeyPacked n fs => display_hinted names n fs None
  end.
Definition as_str (k : MapKey) : option string :=
  match k with KeyStr s => Some s | _ => None end.

(** [Value::packed_key_fields] and [Value::packed_map_key].  The recursion follows the heap;
    the outer [None] is fuel that runs out. *)
Fixpoint packed_key_fields (fuel : nat) (h : Heap) (v : Value) :
    option (option (list PackedKeyField)) :=
  match fuel with
  | O => None
  | S fuel =>
      match slots h v with
      | None => Some None
      | Some slots =>
          (fix walk (slots : list Value) : option (option (list PackedKeyField)) :=
             match slots with
             | [] => Some (Some [])
             | v :: slots =>
                 f ← match as_bool v, as_int h v with
                     | Some b, _ => Some (Some (FBool b))
                     | None, Some i => Some (Some (FInt i))
                     | None, None =>
                         match shape h v with
                         | Some s =>
                             if key_capable s then
                               fields ← packed_key_fields fuel h v;
                               Some (option_map (FStruct (name s)) fields)
                             else Some None
                         | None => Some None
                         end
                     end;
                 match f with
                 | None => Some None
                 | Some f => rest ← walk slots; Some (option_map (cons f) rest)
                 end
             end) slots
      end
  end.
Definition packed_map_key (fuel : nat) (h : Heap) (v : Value) : option (option MapKey) :=
  match shape h v with
  | Some s =>
      if key_capable s then
        fields ← packed_key_fields fuel h v; Some (option_map (KeyPacked (name s)) fields)
      else Some None
  | None => Some None
  end.

(** ** Entries *)

Definition Entries := list (MapKey * Value).

(** [HashMap::get], [insert] and [remove] by [key_eqb]; a replaced entry keeps its key, a
    new one may go anywhere. *)
Fixpoint get_key (entries : Entries) (key : MapKey) : option Value :=
  match entries with
  | [] => None
  | (k, v) :: entries => if key_eqb k key then Some v else get_key entries key
  end.
Fixpoint insert_key (entries : Entries) (key : MapKey) (value : Value) : Entries :=
  match entries with
  | [] => [(key, value)]
  | (k, v) :: entries =>
      if key_eqb k key then (k, value) :: entries else (k, v) :: insert_key entries key value
  end.
Fixpoint remove_key (entries : Entries) (key : MapKey) : Entries :=
  match entries with
  | [] => []
  | (k, v) :: entries => if key_eqb k key then entries else (k, v) :: remove_key entries key
  end.

Definition entries_of (h : Heap) (v : Value) : option Entries :=
  match payload h v with Some (PMap entries) => Some entries | _ => None end.
(** [map_len], [map_get_key], [map_insert], [map_remove_key]. *)
Definition map_len (h : Heap) (v : Value) : option nat := length <$> entries_of h v.
Definition map_get_key (h : Heap) (v : Value) (key : MapKey) : option Value :=
  entries ← entries_of h v; get_key entries key.
Definition map_insert (h : Heap) (v : Value) (key : MapKey) (value : Value) :
    Heap * option Value :=
  match entries_of h v with
  | Some entries =>
      (<[Z.land v PTR_MASK := PMap (insert_key entries key value)]> h, get_key entries key)
  | None => (h, None)
  end.
Definition map_remove_key (h : Heap) (v : Value) (key : MapKey) : Heap * option Value :=
  match entries_of h v with
  | Some entries =>
      (<[Z.land v PTR_MASK := PMap (remove_key entries key)]> h, get_key entries key)
  | None => (h, None)
  end.

(** [sort_unstable_by] over keys: an insertion sort. *)
Fixpoint sorted_insert (e : MapKey * Value) (l : Entries) : Entries :=
  match l with
  | [] => [e]
  | e' :: l =>
      match key_cmp e.1 e'.1 with Gt => e' :: sorted_insert e l | _ => e :: e' :: l end
  end.
Definition sort_entries (l : Entries) : Entries := foldr sorted_insert [] l.
(** [map_entries_keyed]; [map_keys] and [map_values] are its projections. *)
Definition map_entries_keyed (h : Heap) (v : Value) : option Entries :=
  sort_entries <$> entries_of h v.
Definition map_keys (h : Heap) (v : Value) : option (list MapKey) :=
  (λ l : Entries, l.*1) <$> map_entries_keyed h v.
Definition map_values (h : Heap) (v : Value) : option (list Value) :=
  (λ l : Entries, l.*2) <$> map_entries_keyed h v.

(** [map_entries]: collected into a [BTreeMap] by the string form of the keys. *)
Fixpoint btree_insert (l : list (string * Value)) (k : string) (v : Value) :
    list (string * Value) :=
  match l with
  | [] => [(k, v)]
  | (k', v') :: l' =>
      match String.compare k k' with
      | Lt => (k, v) :: l
      | Eq => (k', v) :: l'
      | Gt => (k', v') :: btree_insert l' k v
      end
  end.
Definition btree_get (l : list (string * Value)) (k : string) : option Value :=
  '(_, (_, v)) ← list_find (λ e, e.1 = k) l; Some v.
Definition map_entries (names : string -> option (list string)) (h : Heap) (v : Value) :
    option (list (string * Value)) :=
  (λ entries, foldl (λ t e, btree_insert t (as_native_str names e.1) e.2) [] entries)
    <$> entries_of h v.
End Keys.
