(* ===== verification/ValueOps.v ===== *)
(** Operators on values ([crates/noeta-value/src/ops.rs]), and a fixed-width operator as it is
    lowered ([crates/noeta-ir/src/lower.rs]) and executed ([crates/noeta-vm/src/dispatch.rs]).

    [None] is an [unreachable!], a panic, an allocation that fails or fuel that runs out.  An
    operator answers the heap after it.  Equality materializes packed lists and releases them
    again, so it answers no heap; concatenation leaves such temporaries on the heap.  How a
    value displays ([display_into]) is an argument of concatenation. *)
From Stdlib Require Import Strings.Ascii Strings.String.
From S2P Require Ir.
From S2P Require Import Prelude Words Numbers Shapes Values Packed Orders Hints MapKeys.
From stdpp Require Import pretty options.
Open Scope Z_scope.
Open Scope list_scope.

(** [OpError]; of the diagnostic codes, those the operators report. *)
Inductive DiagnosticCode := Panic | DivisionByZero | TypeMismatch.
Record OpError := mkOpError { code : DiagnosticCode; text : string }.

(** [BinaryOp::symbol], [UnaryOp::symbol]. *)
Definition symbol (op : Ir.BinaryOp) : string :=
  match op with
  | Ir.Add => "+" | Ir.Sub => "-" | Ir.Mul => "*" | Ir.Div => "/" | Ir.Rem => "%"
  | Ir.Concat => "~" | Ir.Eq => "==" | Ir.Ne => "!=" | Ir.Identity => "===" | Ir.NotIdentity => "!=="
  | Ir.Lt => "<" | Ir.Le => "<=" | Ir.Gt => ">" | Ir.Ge => ">=" | Ir.And => "&&" | Ir.Or => "||"
  | Ir.BitAnd => "&" | Ir.BitOr => "|" | Ir.BitXor => "^" | Ir.Shl => "<<" | Ir.Shr => ">>"
  end.
Definition unary_symbol (op : Ir.UnaryOp) : string :=
  match op with Ir.Neg => "-" | Ir.Not => "!" | Ir.Spread => "..." end.

(** [if let (Some(a), Some(b)) = (x, y)]. *)
Definition both {A B} (x : option A) (y : option B) : option (A * B) :=
  match x, y with Some a, Some b => Some (a, b) | _, _ => None end.

(** [int_slot_order]. *)
Definition int_slot_order (a b : Z) (unsigned : bool) : comparison :=
  if unsigned then unsigned_order a b else a ?= b.

Section Ops.
Context `{ExternType, Allocator}.

(** ** Errors and results *)

Definition div_by_zero : OpError := mkOpError DivisionByZero "division by zero".
Definition shift_out_of_range (n : Z) : OpError :=
  mkOpError Panic ("shift amount " +:+ pretty n +:+ " is out of range (must be 0..=63)").
Definition type_mismatch (h : Heap) (op : Ir.BinaryOp) (left right : Value) : OpError :=
  mkOpError TypeMismatch
    ("cannot apply `" +:+ symbol op +:+ "` to " +:+ type_name h left +:+ " and "
     +:+ type_name h right).

(** The heap after, and a [Result<Value, OpError>]. *)
Definition Outcome : Type := Heap * (OpError + Value).
Definition ok (v : Value) (h : Heap) : option Outcome := Some (h, inr v).
Definition err (e : OpError) (h : Heap) : option Outcome := Some (h, inl e).
Definition ok_int (i : Z) (h : Heap) : option Outcome := '(h, v) ← int i h; ok v h.

(** ** Numeric operands *)

Definition int_operand (h : Heap) (v : Value) : option Z :=
  match as_float v with Some _ => None | None => as_int h v end.
Definition as_f64 (h : Heap) (v : Value) : option Z :=
  match as_float v, as_f32 v with
  | Some f, _ => Some f
  | None, Some f => Some (cast_float F32 F64 f)
  | None, None => int_to_float F64 <$> as_int h v
  end.
Definition as_f32_operand (h : Heap) (v : Value) : option Z :=
  match as_f32 v with Some f => Some f | None => int_to_float F32 <$> as_int h v end.

Definition float_op (fmt : Format) (op : Ir.BinaryOp) (a b : Z) : option Z :=
  match op with
  | Ir.Add => Some (float_add fmt a b)
  | Ir.Sub => Some (float_sub fmt a b)
  | Ir.Mul => Some (float_mul fmt a b)
  | Ir.Div => Some (float_div fmt a b)
  | Ir.Rem => Some (float_rem fmt a b)
  | _ => None
  end.
(** The [rank] closure of [arithmetic]. *)
Definition operand_rank (h : Heap) (v : Value) : option Z :=
  if as_float v then Some 2 else if is_f32 v then Some 1 else if as_int h v then Some 0 else None.

(** [arithmetic]. *)
Definition arithmetic (op : Ir.BinaryOp) (left right : Value) (h : Heap) : option Outcome :=
  match both (int_operand h left) (int_operand h right) with
  | Some (a, b) =>
      match op with
      | Ir.Add => ok_int (wrapping_add a b) h
      | Ir.Sub => ok_int (wrapping_sub a b) h
      | Ir.Mul => ok_int (wrapping_mul a b) h
      | Ir.Div => if b =? 0 then err div_by_zero h else ok_int (wrapping_div a b) h
      | Ir.Rem => if b =? 0 then err div_by_zero h else ok_int (wrapping_rem a b) h
      | _ => None
      end
  | None =>
      match both (operand_rank h left) (operand_rank h right) with
      | Some (l, r) =>
          if 2 <=? Z.max l r then
            a ← as_f64 h left; b ← as_f64 h right;
            f ← float_op F64 op a b;
            ok (float_value f) h
          else
            a ← as_f32_operand h left; b ← as_f32_operand h right;
            f ← float_op F32 op a b;
            ok (f32_value f) h
      | None => err (type_mismatch h op left right) h
      end
  end.

(** [bitwise]. *)
Definition bitwise (op : Ir.BinaryOp) (left right : Value) (h : Heap) : option Outcome :=
  match int_operand h left, int_operand h right with
  | Some a, Some b =>
      match op with
      | Ir.BitAnd => ok_int (Z.land a b) h
      | Ir.BitOr => ok_int (Z.lor a b) h
      | Ir.BitXor => ok_int (Z.lxor a b) h
      | Ir.Shl | Ir.Shr =>
          if negb ((0 <=? b) && (b <? 64)) then err (shift_out_of_range b) h
          else ok_int (match op with Ir.Shl => shl_i64 a b | _ => shr_i64 a b end) h
      | _ => None
      end
  | _, _ => err (type_mismatch h op left right) h
  end.

(** [apply_unary]. *)
Definition apply_unary (op : Ir.UnaryOp) (value : Value) (h : Heap) : option Outcome :=
  let mismatch :=
    mkOpError TypeMismatch
      ("cannot apply `" +:+ unary_symbol op +:+ "` to " +:+ type_name h value) in
  match op with
  | Ir.Neg =>
      match as_int h value, as_float value, as_f32 value with
      | Some i, _, _ => ok_int (wrapping_neg i) h
      | None, Some f, _ => ok (float_value (float_neg F64 f)) h
      | None, None, Some f => ok (f32_value (float_neg F32 f)) h
      | None, None, None => err mismatch h
      end
  | Ir.Not =>
      match as_bool value, as_int h value with
      | Some b, _ => ok (bool_value (negb b)) h
      | None, Some i => ok_int (Z.lnot i) h
      | None, None => err mismatch h
      end
  | Ir.Spread => ok value h
  end.

(** ** Order *)

(** The loop over two slot lists, stopping at the first difference or missing order. *)
Fixpoint compare_slots (cmp : nat -> Value -> Value -> option (option comparison)) (i : nat)
    (la lb : list Value) : option (option comparison) :=
  match la, lb with
  | a :: la, b :: lb =>
      match cmp i a b with
      | Some (Some Eq) => compare_slots cmp (S i) la lb
      | other => other
      end
  | _, _ => Some (Some Eq)
  end.

(** [packed_primitive_cmp]. *)
Fixpoint packed_primitive_cmp (fuel : nat) (h : Heap) (a b : Value) :
    option (option comparison) :=
  match fuel with
  | O => None
  | S fuel =>
      match shape h a, shape h b with
      | Some sa, Some sb =>
          if negb (key_capable sa) || negb (key_capable sb) then Some None
          else match String.compare (name sa) (name sb) with
               | Eq =>
                   match slots h a, slots h b with
                   | Some la, Some lb =>
                       compare_slots (λ i x y,
                           match both (as_bool x) (as_bool y) with
                           | Some (p, q) => Some (Some (bool_cmp p q))
                           | None =>
                               match both (as_int h x) (as_int h y) with
                               | Some (p, q) =>
                                   Some (Some (int_slot_order p q (is_unsigned_slot sa i)))
                               | None => packed_primitive_cmp fuel h x y
                               end
                           end) 0 la lb
                   | _, _ => Some None
                   end
               | by_name => Some (Some by_name)
               end
      | _, _ => Some None
      end
  end.

(** [compare_primitive]. *)
Definition compare_primitive (fuel : nat) (h : Heap) (left right : Value) :
    option (option comparison) :=
  match both (int_operand h left) (int_operand h right) with
  | Some (a, b) => Some (Some (a ?= b))
  | None =>
  match both (as_string h left) (as_string h right) with
  | Some (a, b) => Some (Some (String.compare a b))
  | None =>
  match both (as_bool left) (as_bool right) with
  | Some (a, b) => Some (Some (bool_cmp a b))
  | None =>
  match both (as_extern h left) (as_extern h right) with
  | Some (a, b) => Some (cmp_value a b)
  | None =>
      o ← packed_primitive_cmp fuel h left right;
      match o with
      | Some ordering => Some (Some ordering)
      | None =>
          match both (as_f64 h left) (as_f64 h right) with
          | Some (a, b) => Some (f64_partial_cmp a b)
          | None => Some None
          end
      end
  end end end end.

(** [slot_compare], [structural_compare_hinted] and [enum_structural_compare], over the
    comparison of the slots. *)
Definition slot_compare (cmp : Value -> Value -> option RenderHint -> option (option comparison))
    (h : Heap) (a b : Value) (unsigned : bool) (hint : option RenderHint) :
    option (option comparison) :=
  let unsigned := unsigned || match hint with Some HUnsigned => true | _ => false end in
  match (if unsigned then as_int h a else None), as_int h b with
  | Some x, Some y => Some (Some (int_slot_order x y true))
  | _, _ => cmp a b hint
  end.
Definition enum_structural_compare
    (cmp : Value -> Value -> option RenderHint -> option (option comparison))
    (h : Heap) (left right : Value) (hint : option RenderHint) : option (option comparison) :=
  match shape h left, shape h right with
  | Some sa, Some sb =>
      if negb (bool_decide (name sa = name sb)) then Some None
      else match variant_index sa, variant_index sb with
           | Some i, Some j =>
               match (i ?= j)%N with
               | Eq =>
                   match enum_data h left, enum_data h right with
                   | Some la, Some lb =>
                       if negb (length la =? length lb)%nat then Some None
                       else
                         let slots := default [] (hint ≫= λ t, hint_variant t
                                        (default EmptyString (variant sa))) in
                         compare_slots (λ i a b,
                             slot_compare cmp h a b (is_unsigned_slot sa i)
                               ('(_, (_, t)) ← list_find (λ s, s.1 = i) slots; Some t)) 0 la lb
                   | _, _ => Some None
                   end
               | other => Some (Some other)
               end
           | _, _ => Some None
           end
  | _, _ => Some None
  end.
Definition structural_compare_hinted
    (cmp : Value -> Value -> option RenderHint -> option (option comparison))
    (h : Heap) (left right : Value) (hint : option RenderHint) : option (option comparison) :=
  if is_enum h left && is_enum h right then enum_structural_compare cmp h left right hint
  else if negb (is_object h left) || negb (is_object h right) then Some None
  else match shape h left, shape h right, slots h left, slots h right with
       | Some sa, Some sb, Some la, Some lb =>
           if negb (bool_decide (name sa = name sb)) then Some None
           else if negb (length la =? length lb)%nat then Some None
           else compare_slots (λ i a b,
                  slot_compare cmp h a b (is_unsigned_slot sa i) (hint ≫= λ t, hint_slot t i))
                  0 la lb
       | _, _, _, _ => Some None
       end.

(** [compare_values_hinted], [compare_values]. *)
Fixpoint compare_values_hinted (fuel : nat) (h : Heap) (a b : Value) (hint : option RenderHint) :
    option (option comparison) :=
  match fuel with
  | O => None
  | S fuel =>
      let ordinary :=
        if (is_object h a && is_object h b) || (is_enum h a && is_enum h b)
        then structural_compare_hinted (compare_values_hinted fuel h) h a b hint
        else compare_primitive fuel h a b in
      match hint, as_int h a, as_int h b, as_float a, as_float b with
      | Some HUnsigned, Some x, Some y, None, None => Some (Some (unsigned_order x y))
      | _, _, _, _, _ => ordinary
      end
  end.
Definition compare_values (fuel : nat) (h : Heap) (a b : Value) : option (option comparison) :=
  compare_values_hinted fuel h a b None.

(** [set_order]. *)
Definition is_class (h : Heap) (v : Value) : bool :=
  match shape h v with Some s => bool_decide (kind s = Class) | None => false end.
Definition set_order (fuel : nat) (h : Heap) (left right : Value) : option (option comparison) :=
  if is_class h left || is_class h right then Some None
  else
    o ← compare_primitive fuel h left right;
    match o with Some o => Some (Some o) | None => compare_values fuel h left right end.

(** [compare]. *)
Definition compare (fuel : nat) (op : Ir.BinaryOp) (left right : Value) (h : Heap) :
    option Outcome :=
  ordering ← compare_primitive fuel h left right;
  match ordering, as_f64 h left, as_f64 h right with
  | None, None, _ | None, _, None => err (type_mismatch h op left right) h
  | ordering, _, _ =>
      match ordering with
      | None => ok (bool_value false) h
      | Some o =>
          match op with
          | Ir.Lt => ok (bool_value (match o with Lt => true | _ => false end)) h
          | Ir.Le => ok (bool_value (match o with Gt => false | _ => true end)) h
          | Ir.Gt => ok (bool_value (match o with Gt => true | _ => false end)) h
          | Ir.Ge => ok (bool_value (match o with Lt => false | _ => true end)) h
          | _ => None
          end
      end
  end.

(** ** Equality *)

(** [slices_equal], over the equality of the elements. *)
Fixpoint all_equal (eq : Value -> Value -> option bool) (a b : list Value) : option bool :=
  match a, b with
  | x :: a, y :: b => e ← eq x y; if e : bool then all_equal eq a b else Some false
  | _, _ => Some true
  end.
Definition slices_equal (eq : Value -> Value -> option bool) (a b : list Value) : option bool :=
  if (length a =? length b)%nat then all_equal eq a b else Some false.

(** The arm of two lists: both are materialized, compared and released. *)
Definition lists_equal (eq : Heap -> Value -> Value -> option bool) (h : Heap)
    (left right : Value) : option bool :=
  '(h, left_boxed) ← realize_list h left;
  '(h, right_boxed) ← realize_list h right;
  a ← list_items h left_boxed; b ← list_items h right_boxed;
  slices_equal (eq h) a b.

(** The arm of two maps, by the string form of the keys. *)
Definition maps_equal (names : string -> option (list string))
    (eq : Value -> Value -> option bool) (h : Heap) (left right : Value) : option bool :=
  a ← map_entries names h left; b ← map_entries names h right;
  if (length a =? length b)%nat then
    foldl (λ r e,
        r ← r;
        if r : bool then
          match btree_get b e.1 with Some v => eq e.2 v | None => Some false end
        else Some false) (Some true) a
  else Some false.

(** [values_equal]; [names] is the registry of packed field names. *)
Fixpoint values_equal (names : string -> option (list string)) (fuel : nat) (h : Heap)
    (left right : Value) : option bool :=
  match fuel with
  | O => None
  | S fuel =>
  let eq := values_equal names fuel in
  match both (int_operand h left) (int_operand h right) with
  | Some (a, b) => Some (a =? b)
  | None =>
  match both (as_f64 h left) (as_f64 h right) with
  | Some (a, b) => Some (f64_eqb a b)
  | None =>
  match both (as_string h left) (as_string h right) with
  | Some (a, b) => Some (bool_decide (a = b))
  | None =>
  match both (bytes_data h left) (bytes_data h right) with
  | Some (a, b) => Some (bool_decide (a = b))
  | None =>
  match both (as_bool left) (as_bool right) with
  | Some (a, b) => Some (Bool.eqb a b)
  | None =>
  if is_unit left && is_unit right then Some true
  else if is_object h left && is_object h right then
    sa ← shape h left; sb ← shape h right;
    if negb (structural_eq sa) then Some (left =? right)
    else if bool_decide (name sa = name sb) && bool_decide (fields sa = fields sb) then
      a ← slots h left; b ← slots h right; slices_equal (eq h) a b
    else Some false
  else if is_enum h left && is_enum h right then
    sa ← shape h left; sb ← shape h right;
    if bool_decide (name sa = name sb) && bool_decide (variant sa = variant sb) then
      a ← enum_data h left; b ← enum_data h right; slices_equal (eq h) a b
    else Some false
  else if is_list h left && is_list h right then lists_equal eq h left right
  else
  match both (tuple_items h left) (tuple_items h right) with
  | Some (a, b) => slices_equal (eq h) a b
  | None =>
  match both (set_items h left) (set_items h right) with
  | Some (a, b) => slices_equal (eq h) a b
  | None =>
  if is_map h left && is_map h right then maps_equal names (eq h) h left right
  else
  match both (native_module_name h left) (native_module_name h right) with
  | Some (a, b) => Some (bool_decide (a = b))
  | None =>
  match both (as_native_fn h left) (as_native_fn h right) with
  | Some (a, b) => Some (bool_decide (a = b))
  | None =>
  match both (module_fn_parts h left) (module_fn_parts h right) with
  | Some (a, b) => Some (bool_decide (a = b))
  | None =>
  match both (method_handle_parts h left) (method_handle_parts h right) with
  | Some (a, b) => Some (bool_decide (a = b))
  | None =>
  match both (bound_method_parts h left) (bound_method_parts h right) with
  | Some ((ra, ma), (rb, mb)) =>
      if bool_decide (ma = mb) then eq h ra rb else Some false
  | None =>
  match both (as_extern h left) (as_extern h right) with
  | Some (a, b) => Some (eq_value a b)
  | None => Some false
  end end end end end end end end end end end end end
  end.

(** [values_identical]. *)
Definition values_identical (names : string -> option (list string)) (fuel : nat) (h : Heap)
    (left right : Value) : option bool :=
  if is_object h left && is_object h right then Some (left =? right)
  else values_equal names fuel h left right.

(** ** Binary operators *)

Section Binary.
Context (names : string -> option (list string)) (display_into : Heap -> Value -> string).

(** The [~] arm: lists are appended, anything else is displayed and joined. *)
Definition concatenate (left right : Value) (h : Heap) : option Outcome :=
  if is_list h left && is_list h right then
    flat ← packed_concat h left right;
    match flat with
    | Some (h, v) => ok v h
    | None =>
        '(h, left_boxed) ← realize_list h left;
        '(h, right_boxed) ← realize_list h right;
        a ← list_items h left_boxed; b ← list_items h right_boxed;
        '(h, v) ← alloc (PList (a ++ b)) h;
        ok v h
    end
  else
    '(h, v) ← alloc (PStr (display_into h left +:+ display_into h right)) h;
    ok v h.

(** [apply_binary]. *)
Definition apply_binary (fuel : nat) (op : Ir.BinaryOp) (left right : Value) (h : Heap) :
    option Outcome :=
  match op with
  | Ir.Concat => concatenate left right h
  | Ir.Add | Ir.Sub | Ir.Mul | Ir.Div | Ir.Rem => arithmetic op left right h
  | Ir.Eq => b ← values_equal names fuel h left right; ok (bool_value b) h
  | Ir.Ne => b ← values_equal names fuel h left right; ok (bool_value (negb b)) h
  | Ir.Identity => b ← values_identical names fuel h left right; ok (bool_value b) h
  | Ir.NotIdentity =>
      b ← values_identical names fuel h left right; ok (bool_value (negb b)) h
  | Ir.Lt | Ir.Le | Ir.Gt | Ir.Ge => compare fuel op left right h
  | Ir.BitAnd | Ir.BitOr | Ir.BitXor | Ir.Shl | Ir.Shr => bitwise op left right h
  | Ir.And | Ir.Or => None
  end.

(** [apply_binary_wide]. *)
Definition apply_binary_wide (fuel : nat) (op : Ir.BinaryOp) (left right : Value)
    (signed : bool) (bits : Z) (h : Heap) : option Outcome :=
  match as_int h left, as_int h right with
  | Some a, Some b =>
      match op with
      | Ir.Shr =>
          if negb ((0 <=? b) && (b <? 64)) then err (shift_out_of_range b) h
          else ok_int (if signed then shr_i64 a b else as_i64 (Z.shiftr (as_u64 a) b)) h
      | _ =>
          let mask v := ok_int (mask_to_width v signed bits) h in
          let a := if signed then a else as_u64 a in
          let b := if signed then b else as_u64 b in
          match op with
          | Ir.Div =>
              if b =? 0 then err div_by_zero h
              else mask (if signed then wrapping_div a b else as_i64 (a / b))
          | Ir.Rem =>
              if b =? 0 then err div_by_zero h
              else mask (if signed then wrapping_rem a b else as_i64 (a mod b))
          | Ir.Lt => ok (bool_value (a <? b)) h
          | Ir.Le => ok (bool_value (a <=? b)) h
          | Ir.Gt => ok (bool_value (b <? a)) h
          | Ir.Ge => ok (bool_value (b <=? a)) h
          | _ => None
          end
      end
  | _, _ => apply_binary fuel op left right h
  end.

(** ** A fixed-width operator, lowered and executed *)

(** The dispatch of [Op::MaskWidth]. *)
Definition mask_width (v : Value) (signed : bool) (bits : Z) (h : Heap) : option (Heap * Value) :=
  match as_int h v with
  | Some n => int (mask_to_width n signed bits) h
  | None => Some (h, v)
  end.
(** [mask_if_width] after the operator's own result. *)
Definition mask_if_width (site : option (bool * Z)) (r : option Outcome) : option Outcome :=
  match site, r with
  | Some (signed, bits), Some (h, inr v) => '(h, v) ← mask_width v signed bits h; ok v h
  | _, r => r
  end.
(** [Expr::Binary] and [Expr::Unary] at a site of the checker's width table. *)
Definition is_wide (op : Ir.BinaryOp) : bool :=
  match op with
  | Ir.Div | Ir.Rem | Ir.Lt | Ir.Le | Ir.Gt | Ir.Ge | Ir.Shr => true
  | _ => false
  end.
Definition run_binary (fuel : nat) (site : option (bool * Z)) (op : Ir.BinaryOp)
    (left right : Value) (h : Heap) : option Outcome :=
  match site with
  | Some (signed, bits) =>
      if is_wide op then apply_binary_wide fuel op left right signed bits h
      else mask_if_width site (apply_binary fuel op left right h)
  | None => apply_binary fuel op left right h
  end.
Definition run_unary (site : option (bool * Z)) (op : Ir.UnaryOp) (value : Value) (h : Heap) :
    option Outcome := mask_if_width site (apply_unary op value h).
End Binary.
End Ops.
