(* ===== verification/ValueOpsFacts.v ===== *)
(** Operators on values: operands, results, and arithmetic modulo a width. *)
From Stdlib Require Import Floats.SpecFloat Strings.String.
From S2P Require Ir.
From S2P Require Import Prelude Words Numbers NumbersFacts Shapes Values ValuesFacts Packed PackedLayout PackedCodec Orders Hints MapKeys ValueOps.
From stdpp Require Import options.
Open Scope Z_scope.
Open Scope list_scope.

(** ** Arithmetic modulo a power of two *)

Section Modulo.
Context (signed : bool) (b : Z) (Hb : 0 < b <= 64).
Let low := int_value_low signed.

Lemma wrap_add x y :
  wrap_to signed b (x + y) = wrap_to signed b (int_value signed x + int_value signed y).
Proof using Hb.
  apply wrap_to_congr. rewrite (Z.add_mod x), (Z.add_mod (int_value _ _)) by lia.
  by rewrite !int_value_low by lia.
Qed.
Lemma wrap_sub x y :
  wrap_to signed b (x - y) = wrap_to signed b (int_value signed x - int_value signed y).
Proof using Hb.
  apply wrap_to_congr. rewrite (Zminus_mod x), (Zminus_mod (int_value _ _)) by lia.
  by rewrite !int_value_low by lia.
Qed.
Lemma wrap_mul x y :
  wrap_to signed b (x * y) = wrap_to signed b (int_value signed x * int_value signed y).
Proof using Hb.
  apply wrap_to_congr. rewrite (Z.mul_mod x), (Z.mul_mod (int_value _ _)) by lia.
  by rewrite !int_value_low by lia.
Qed.
Lemma wrap_neg x : wrap_to signed b (- x) = wrap_to signed b (- int_value signed x).
Proof using Hb.
  replace (- x) with (- 1 * x) by lia. replace (- int_value signed x) with (- 1 * int_value signed x) by lia.
  apply wrap_to_congr. rewrite (Z.mul_mod _ x), (Z.mul_mod _ (int_value _ _)) by lia.
  by rewrite !int_value_low by lia.
Qed.
Lemma wrap_lnot x : wrap_to signed b (Z.lnot x) = wrap_to signed b (Z.lnot (int_value signed x)).
Proof using Hb.
  unfold Z.lnot. rewrite <- !Z.sub_1_r. apply wrap_to_congr.
  rewrite (Zminus_mod (- x)), (Zminus_mod (- int_value _ _)) by lia. do 2 f_equal.
  pose proof (wrap_neg x) as E. apply (f_equal (λ z, z mod 2 ^ b)) in E.
  by rewrite !wrap_to_mod in E by lia.
Qed.
Lemma wrap_shl x n :
  0 <= n -> wrap_to signed b (Z.shiftl x n) = wrap_to signed b (Z.shiftl (int_value signed x) n).
Proof using Hb.
  intros Hn. rewrite !Z.shiftl_mul_pow2 by done. apply wrap_to_congr.
  rewrite (Z.mul_mod x), (Z.mul_mod (int_value _ _)) by lia.
  by rewrite !int_value_low by lia.
Qed.
End Modulo.

(** A width's numbers are those whose high bits are all clear, or all the sign. *)
Lemma in_width_shift signed b z :
  0 < b ->
  in_width signed b z <->
    (if signed then Z.shiftr z (b - 1) = 0 \/ Z.shiftr z (b - 1) = -1 else Z.shiftr z b = 0).
Proof.
  intros Hb. rewrite in_width_spec. pose proof (Z.pow_pos_nonneg 2 (b - 1) ltac:(lia) ltac:(lia)).
  pose proof (Z.pow_pos_nonneg 2 b ltac:(lia) ltac:(lia)).
  destruct signed; rewrite Z.shiftr_div_pow2 by lia.
  - split.
    + intros Hz. destruct (decide (0 <= z)); [left; apply Z.div_small; lia|right].
      symmetry. apply (Z.div_unique _ _ _ (z + 2 ^ (b - 1))); lia.
    + pose proof (Z.div_mod z (2 ^ (b - 1)) ltac:(lia)).
      pose proof (Z.mod_pos_bound z (2 ^ (b - 1)) ltac:(lia)). intros [E|E]; rewrite E in *; lia.
  - rewrite Z.div_small_iff by lia. lia.
Qed.
Lemma in_width_bits signed b (f : Z -> Z -> Z) x y :
  0 < b -> (forall x y n, Z.shiftr (f x y) n = f (Z.shiftr x n) (Z.shiftr y n)) ->
  (forall x y, (x = 0 \/ x = -1) -> (y = 0 \/ y = -1) -> f x y = 0 \/ f x y = -1) -> f 0 0 = 0 ->
  in_width signed b x -> in_width signed b y -> in_width signed b (f x y).
Proof.
  intros Hb Hs Hc H0. rewrite !in_width_shift by done. rewrite !Hs.
  destruct signed; [by apply Hc|]. by intros -> ->.
Qed.
Lemma bits_of_pair (f : Z -> Z -> Z) :
  f = Z.land \/ f = Z.lor \/ f = Z.lxor ->
  (forall x y n, Z.shiftr (f x y) n = f (Z.shiftr x n) (Z.shiftr y n)) /\
  (forall x y, (x = 0 \/ x = -1) -> (y = 0 \/ y = -1) -> f x y = 0 \/ f x y = -1) /\ f 0 0 = 0 /\
  (forall x y n, 0 <= n -> f x y mod 2 ^ n = f (x mod 2 ^ n) (y mod 2 ^ n)).
Proof.
  assert (Hm : forall (g : bool -> bool -> bool) f, g false false = false ->
    (forall x y i, Z.testbit (f x y) i = g (Z.testbit x i) (Z.testbit y i)) ->
    forall x y n, 0 <= n -> f x y mod 2 ^ n = f (x mod 2 ^ n) (y mod 2 ^ n)).
  { intros g h Hg Ht x y n Hn. apply Z.bits_inj'. intros i Hi.
    rewrite testbit_mod, !Ht, !testbit_mod by lia. by destruct (i <? n). }
  assert (Hz : forall h, h = Z.land \/ h = Z.lor \/ h = Z.lxor ->
    forall x y, (x = 0 \/ x = -1) -> (y = 0 \/ y = -1) -> h x y = 0 \/ h x y = -1).
  { intros h [-> |[-> | ->]] x y [-> | ->] [-> | ->]; vm_compute; first [by left|by right]. }
  intros Hf. split; [|split; [by apply Hz|]].
  - destruct Hf as [-> |[-> | ->]]; [exact Z.shiftr_land|exact Z.shiftr_lor|exact Z.shiftr_lxor].
  - destruct Hf as [-> |[-> | ->]]; (split; [done|]).
    + apply (Hm andb); [done|exact Z.land_spec].
    + apply (Hm orb); [done|exact Z.lor_spec].
    + apply (Hm xorb); [done|exact Z.lxor_spec].
Qed.
(** The bitwise operators need no mask. *)
Lemma bitwise_word (f : Z -> Z -> Z) signed b x y :
  f = Z.land \/ f = Z.lor \/ f = Z.lxor -> 0 < b <= 64 ->
  word_of_width signed b x -> word_of_width signed b y ->
  word_of_width signed b (f x y) /\
  int_value signed (f x y) = f (int_value signed x) (int_value signed y).
Proof.
  intros Hf Hb [Hx Hwx] [Hy Hwy]. destruct (bits_of_pair f Hf) as (Hs & Hc & H0 & Hm).
  assert (Hv : int_value signed (f x y) = f (int_value signed x) (int_value signed y)).
  { destruct signed; [done|]. unfold int_value, as_u64. apply Hm. lia. }
  split; [|done]. split; [|rewrite Hv; by apply in_width_bits; [lia|..]].
  assert (Hi : forall z, is_i64 z <-> in_width true 64 z) by (intros; rewrite in_width_spec; done).
  rewrite Hi in *. by apply in_width_bits; [lia|..].
Qed.

(** ** Operands and results *)

Section Results.
Context `{ExternType, Allocator}.

Lemma as_int_no_float h v i : as_int h v = Some i -> as_float v = None.
Proof using.
  unfold as_int, as_float. destruct (is_small_int v) eqn:Hs.
  - unfold is_small_int in Hs. by destruct (is_float v).
  - unfold payload. destruct (is_float v) eqn:Hf; [|done]. by rewrite float_not_pointer.
Qed.
Lemma as_int_no_bool h v i : as_int h v = Some i -> as_bool v = None.
Proof using.
  intros Hi. unfold as_bool. case Z.eqb_spec; [|case Z.eqb_spec]; intros; subst; [..|done];
    unfold as_int in Hi; cbn in Hi; unfold payload in Hi; done.
Qed.
Lemma int_operand_int h v i : as_int h v = Some i -> int_operand h v = Some i.
Proof using. intros Hi. unfold int_operand. by rewrite (as_int_no_float _ _ _ Hi). Qed.

Lemma values_equal_ints names fuel h l r a c :
  int_operand h l = Some a -> int_operand h r = Some c ->
  values_equal names (S fuel) h l r = Some (a =? c).
Proof using. intros Hl Hr. cbn [values_equal]. by rewrite Hl, Hr. Qed.

Context (room : nat) (Hroom : forall live, malloc live = None -> (room <= size live)%nat).
Context (Hfresh : malloc_fresh).

Lemma ok_int_reads i h :
  is_i64 i -> (size h < room)%nat ->
  exists h' v, ok_int i h = Some (h', inr v) /\ grows h h' 1 /\ as_int h' v = Some i.
Proof using Hfresh Hroom.
  intros Hi Hr. destruct (int_spec room Hroom Hfresh i h Hi Hr) as (h' & v & E & Hg & Hv & _).
  exists h', v. unfold ok_int. by rewrite E.
Qed.

(** A result that stands for [z] at a width, taking at most two addresses. *)
Definition answers_int (signed : bool) (b : Z) (h : Heap) (r : option Outcome) (z : Z) : Prop :=
  exists h' v w, r = Some (h', inr v) /\ grows h h' 2 /\ as_int h' v = Some w /\
    word_of_width signed b w /\ int_value signed w = z.

Lemma answers_direct signed b h i :
  word_of_width signed b i -> (size h + 2 <= room)%nat ->
  answers_int signed b h (ok_int i h) (int_value signed i).
Proof using Hfresh Hroom.
  intros Hi Hr. destruct (ok_int_reads i h (proj1 Hi) ltac:(lia)) as (h' & v & E & Hg & Hv).
  exists h', v, i. split; [done|]. split; [eapply grows_le; [done|lia]|done].
Qed.
Lemma answers_mask signed b h n :
  0 < b <= 64 -> (size h + 2 <= room)%nat ->
  answers_int signed b h (ok_int (mask_to_width (as_i64 n) signed b) h) (wrap_to signed b n).
Proof using Hfresh Hroom.
  intros Hb Hr. rewrite <- mask_computes by done. apply answers_direct; [|done].
  apply mask_value; [done|apply as_i64_is_i64].
Qed.
Lemma answers_masked signed b h n :
  0 < b <= 64 -> (size h + 2 <= room)%nat ->
  answers_int signed b h (mask_if_width (Some (signed, b)) (ok_int (as_i64 n) h)) (wrap_to signed b n).
Proof using Hfresh Hroom.
  intros Hb Hr.
  destruct (ok_int_reads (as_i64 n) h (as_i64_is_i64 n) ltac:(lia)) as (h1 & v1 & E1 & Hg1 & Hv1).
  rewrite E1. cbn [mask_if_width]. unfold mask_width. rewrite Hv1.
  destruct (mask_value (as_i64 n) signed b Hb (as_i64_is_i64 n)) as [Hw _].
  destruct (int_spec room Hroom Hfresh _ h1 (proj1 Hw) ltac:(destruct Hg1; lia)) as (h2 & v2 & E2 & Hg2 & Hv2 & _).
  rewrite E2. cbn [mbind option_bind]. exists h2, v2, (mask_to_width (as_i64 n) signed b).
  split; [done|]. split; [by apply (grows_trans _ _ _ 1 1 Hg1)|]. split; [done|].
  split; [done|]. by apply mask_computes.
Qed.
End Results.

(** ** What a fixed-width operator means *)

Inductive WideAnswer := Number (n : Z) | Truth (t : bool) | Refused (e : OpError).

Definition is_shift (op : Ir.BinaryOp) : bool :=
  match op with Ir.Shl | Ir.Shr => true | _ => false end.
(** The operators at operands [x] and [y]; a number is meant modulo the width. *)
Definition wide_answer (op : Ir.BinaryOp) (x y : Z) : option WideAnswer :=
  match op with
  | Ir.Add => Some (Number (x + y))
  | Ir.Sub => Some (Number (x - y))
  | Ir.Mul => Some (Number (x * y))
  | Ir.Div => Some (if y =? 0 then Refused div_by_zero else Number (Z.quot x y))
  | Ir.Rem => Some (if y =? 0 then Refused div_by_zero else Number (Z.rem x y))
  | Ir.BitAnd => Some (Number (Z.land x y))
  | Ir.BitOr => Some (Number (Z.lor x y))
  | Ir.BitXor => Some (Number (Z.lxor x y))
  | Ir.Shl =>
      Some (if (0 <=? y) && (y <? 64) then Number (Z.shiftl x y) else Refused (shift_out_of_range y))
  | Ir.Shr =>
      Some (if (0 <=? y) && (y <? 64) then Number (Z.shiftr x y) else Refused (shift_out_of_range y))
  | Ir.Lt => Some (Truth (x <? y))
  | Ir.Le => Some (Truth (x <=? y))
  | Ir.Gt => Some (Truth (y <? x))
  | Ir.Ge => Some (Truth (y <=? x))
  | Ir.Eq => Some (Truth (x =? y))
  | Ir.Ne => Some (Truth (negb (x =? y)))
  | _ => None
  end.
Definition unary_answer (op : Ir.UnaryOp) (x : Z) : option WideAnswer :=
  match op with
  | Ir.Neg => Some (Number (- x))
  | Ir.Not => Some (Number (Z.lnot x))
  | Ir.Spread => None
  end.
(** The sites at which the checker records the width. *)
Definition width_site (op : Ir.BinaryOp) (signed : bool) (b : Z) : option (bool * Z) :=
  match op with
  | Ir.BitAnd | Ir.BitOr | Ir.BitXor | Ir.Eq | Ir.Ne => None
  | _ => Some (signed, b)
  end.

Lemma shiftr_m1 n : 0 <= n -> Z.shiftr (-1) n = -1.
Proof.
  intros Hn. apply Z.bits_inj'. intros i Hi. rewrite Z.shiftr_spec, !Z.bits_m1 by lia. done.
Qed.
Lemma shr_in_width signed b x n : 0 < b -> 0 <= n -> in_width signed b x -> in_width signed b (Z.shiftr x n).
Proof.
  intros Hb Hn. rewrite !in_width_shift by done. rewrite !Z.shiftr_shiftr by lia.
  destruct signed; rewrite (Z.add_comm n), <- Z.shiftr_shiftr by lia.
  - intros [-> | ->]; [left; apply Z.shiftr_0_l|right; by apply shiftr_m1].
  - intros ->. apply Z.shiftr_0_l.
Qed.
Lemma shr_value signed b a n :
  0 < b <= 64 -> 0 <= n -> word_of_width signed b a ->
  let r := if signed then shr_i64 a n else as_i64 (Z.shiftr (as_u64 a) n) in
  word_of_width signed b r /\ int_value signed r = Z.shiftr (int_value signed a) n.
Proof.
  intros Hb Hn [Hi Hw]. apply (shr_in_width _ _ _ n) in Hw as Hs; [|lia|done].
  assert (H64 : in_width true 64 (if signed then Z.shiftr a n else a)).
  { destruct signed; [apply shr_in_width; [lia|done|]|]; rewrite in_width_spec; done. }
  destruct signed; cbn.
  - split; [|done]. split; [|done]. by rewrite in_width_spec in H64.
  - assert (Hv : as_u64 (as_i64 (Z.shiftr (as_u64 a) n)) = Z.shiftr (as_u64 a) n).
    { apply (int_value_as_i64 false b); [lia|exact Hs]. }
    split; [|exact Hv]. split; [apply as_i64_is_i64|]. unfold int_value. rewrite Hv. exact Hs.
Qed.
