(* ===== verification/ValueOpsProps.v ===== *)
(** Operators on values: what a fixed-width operator computes; the classes of the value word and
    the integers it holds. *)
From Stdlib Require Import Floats.SpecFloat Strings.String.
From S2P Require Ir.
From S2P Require Import Prelude Words Numbers NumbersFacts Shapes Values ValuesFacts Packed PackedLayout PackedCodec PackedProps Orders Hints MapKeys ValueOps ValueOpsFacts.
From stdpp Require Import options.
Open Scope Z_scope.
Open Scope list_scope.

Lemma fixed_width_range b : fixed_width b -> 0 < b <= 64.
Proof. intros Hb. each_width Hb; lia. Qed.

Section Wide.
Context `{ExternType, Allocator}.
Context (room : nat) (Hroom : forall live, malloc live = None -> (room <= size live)%nat).
Context (Hfresh : malloc_fresh).
Context (names : string -> option (list string)) (display_into : Heap -> Value -> string).
Context (fuel : nat) (signed : bool) (b : Z) (Hb : fixed_width b).
Context (h : Heap) (left right : Value) (a c : Z).
Context (Ha : as_int h left = Some a) (Hc : as_int h right = Some c).
Context (Hwa : word_of_width signed b a) (Hn : (size h + 2 <= room)%nat).
#[local] Notation x := (int_value signed a).


(** The answer of a run, as [wide_answer] states it. *)
Definition gives (r : option Outcome) (w : WideAnswer) : Prop :=
  match w with
  | Number n => answers_int signed b h r (wrap_to signed b n)
  | Truth t => r = Some (h, inr (bool_value t))
  | Refused e => r = Some (h, inl e)
  end.
Abbreviation run op :=
  (run_binary names display_into (S fuel) (width_site op signed b) op left right h).

Lemma operands : int_operand h left = Some a /\ int_operand h right = Some c.
Proof using Ha Hc. split; by apply int_operand_int. Qed.

Lemma gives_add op y :
  op = Ir.Add \/ op = Ir.Sub \/ op = Ir.Mul -> y = int_value signed c ->
  from_option (gives (run op)) True (wide_answer op x y).
Proof using Ha Hb Hc Hfresh Hn Hroom.
  pose proof (fixed_width_range b Hb) as Hw. destruct operands as [Hl Hr].
  intros [-> |[-> | ->]] ->; cbn [wide_answer from_option gives];
    cbn [run_binary width_site is_wide apply_binary]; unfold arithmetic; rewrite Hl, Hr.
  - rewrite <- (wrap_add signed b Hw). by apply (answers_masked room).
  - rewrite <- (wrap_sub signed b Hw). by apply (answers_masked room).
  - rewrite <- (wrap_mul signed b Hw). by apply (answers_masked room).
Qed.

Lemma gives_div op y :
  op = Ir.Div \/ op = Ir.Rem -> y = int_value signed c ->
  from_option (gives (run op)) True (wide_answer op x y).
Proof using Ha Hb Hc Hfresh Hn Hroom Hwa.
  pose proof (fixed_width_range b Hb) as Hw.
  assert (Hu : forall z, signed = false -> 0 <= int_value signed z).
  { intros z ->. apply Z.mod_pos_bound. lia. }
  intros [-> | ->] ->; cbn [wide_answer from_option];
    cbn [run_binary width_site is_wide]; unfold apply_binary_wide; rewrite Ha, Hc;
    fold (int_value signed c) (int_value signed a); case Z.eqb_spec; intros Hy; try done;
    cbn [gives]; destruct signed eqn:Es; try (by apply (answers_mask room)).
  - rewrite <- Z.quot_div_nonneg by (pose proof (Hu c eq_refl); pose proof (Hu a eq_refl); lia).
    by apply (answers_mask room).
  - rewrite <- Z.rem_mod_nonneg by (pose proof (Hu c eq_refl); pose proof (Hu a eq_refl); lia).
    by apply (answers_mask room).
Qed.

Lemma gives_shift op :
  op = Ir.Shl \/ op = Ir.Shr -> from_option (gives (run op)) True (wide_answer op x c).
Proof using Ha Hb Hc Hfresh Hn Hroom Hwa.
  pose proof (fixed_width_range b Hb) as Hw. destruct operands as [Hl Hr].
  intros [-> | ->]; cbn [wide_answer from_option];
    cbn [run_binary width_site is_wide apply_binary]; unfold apply_binary_wide, bitwise;
    rewrite ?Hl, ?Hr, ?Ha, ?Hc; destruct (Z.leb_spec 0 c), (Z.ltb_spec c 64); cbn [andb negb];
    try done.
  - cbn [gives]. rewrite <- (wrap_shl signed b Hw) by done. by apply (answers_masked room).
  - destruct (shr_value signed b a c Hw ltac:(lia) Hwa) as [Hs Hv]. cbn [gives].
    rewrite <- Hv, wrap_to_id; [by apply (answers_direct room)|lia|apply Hs].
Qed.

Lemma gives_bitwise op y :
  op = Ir.BitAnd \/ op = Ir.BitOr \/ op = Ir.BitXor -> word_of_width signed b c ->
  y = int_value signed c -> from_option (gives (run op)) True (wide_answer op x y).
Proof using Ha Hb Hc Hfresh Hn Hroom Hwa.
  pose proof (fixed_width_range b Hb) as Hw. destruct operands as [Hl Hr].
  intros Hop Hwc ->.
  assert (Hf : forall f, f = Z.land \/ f = Z.lor \/ f = Z.lxor ->
    gives (ok_int (f a c) h) (Number (f (int_value signed a) (int_value signed c)))).
  { intros f Hf. destruct (bitwise_word f signed b a c Hf Hw Hwa Hwc) as [Hs Hv]. cbn [gives].
    rewrite <- Hv, wrap_to_id; [by apply (answers_direct room)|lia|apply Hs]. }
  destruct Hop as [-> |[-> | ->]]; cbn [wide_answer from_option];
    cbn [run_binary width_site apply_binary]; unfold bitwise; rewrite Hl, Hr; apply Hf; tauto.
Qed.

Lemma gives_order op y :
  op = Ir.Lt \/ op = Ir.Le \/ op = Ir.Gt \/ op = Ir.Ge -> y = int_value signed c ->
  from_option (gives (run op)) True (wide_answer op x y).
Proof using Ha Hc.
  intros Hop ->.
  destruct Hop as [-> |[-> |[-> | ->]]]; cbn [wide_answer from_option gives];
    cbn [run_binary width_site is_wide]; unfold apply_binary_wide; by rewrite Ha, Hc.
Qed.

Lemma gives_equal op y :
  op = Ir.Eq \/ op = Ir.Ne -> word_of_width signed b c -> y = int_value signed c ->
  from_option (gives (run op)) True (wide_answer op x y).
Proof using Ha Hc Hwa.
  intros Hop Hwc ->. destruct operands as [Hl Hr].
  assert (E : (int_value signed a =? int_value signed c) = (a =? c)).
  { case Z.eqb_spec; case Z.eqb_spec; intros H1 H2; try congruence.
    by rewrite <- (word_of_int_value signed b a), <- (word_of_int_value signed b c), H2 in H1. }
  destruct Hop as [-> | ->]; cbn [wide_answer from_option gives];
    cbn [run_binary width_site apply_binary]; by rewrite (values_equal_ints _ _ _ _ _ a c Hl Hr), E.
Qed.

Lemma gives_unary op :
  match unary_answer op x with
  | Some answer => gives (run_unary (Some (signed, b)) op left h) answer
  | None => op = Ir.Spread
  end.
Proof using Ha Hb Hfresh Hn Hroom Hwa.
  pose proof (fixed_width_range b Hb) as Hw. pose proof (as_int_no_bool h left a Ha) as Hbool.
  destruct op; cbn [unary_answer gives]; [..|done]; unfold run_unary, apply_unary; rewrite Ha, ?Hbool.
  - rewrite <- (wrap_neg signed b Hw). by apply (answers_masked room).
  - rewrite <- (wrap_lnot signed b Hw).
    replace (Z.lnot a) with (as_i64 (Z.lnot a)) at 1; [by apply (answers_masked room)|].
    apply as_i64_id. destruct Hwa as [Hi _]. unfold is_i64, Z.lnot in *. lia.
Qed.

(** C7. A fixed-width operator, lowered at the site the checker records and executed on the
    erased words, computes on the numbers they stand for modulo the width: sums, differences,
    products, truncated quotients and remainders, shifts, bit operations, comparisons,
    negation and complement; it refuses a zero divisor and a shift outside 0..63 and
    nothing else. *)
Theorem fixed_width_operators op uop :
  (is_shift op = false -> word_of_width signed b c) ->
  match wide_answer op x (if is_shift op then c else int_value signed c) with
  | Some answer => gives (run op) answer
  | None => op = Ir.Concat \/ op = Ir.Identity \/ op = Ir.NotIdentity \/ op = Ir.And \/ op = Ir.Or
  end /\
  match unary_answer uop x with
  | Some answer => gives (run_unary (Some (signed, b)) uop left h) answer
  | None => uop = Ir.Spread
  end.
Proof using Ha Hb Hc Hfresh Hn Hroom Hwa.
  intros Hwc. split; [|apply gives_unary].
  destruct op; cbn [wide_answer is_shift] in *; try (specialize (Hwc eq_refl)); try tauto.
  - apply (gives_add Ir.Add); tauto.
  - apply (gives_add Ir.Sub); tauto.
  - apply (gives_add Ir.Mul); tauto.
  - apply (gives_div Ir.Div); tauto.
  - apply (gives_div Ir.Rem); tauto.
  - apply (gives_equal Ir.Eq); tauto.
  - apply (gives_equal Ir.Ne); tauto.
  - apply (gives_order Ir.Lt); tauto.
  - apply (gives_order Ir.Le); tauto.
  - apply (gives_order Ir.Gt); tauto.
  - apply (gives_order Ir.Ge); tauto.
  - apply (gives_bitwise Ir.BitAnd); tauto.
  - apply (gives_bitwise Ir.BitOr); tauto.
  - apply (gives_bitwise Ir.BitXor); tauto.
  - apply (gives_shift Ir.Shl); tauto.
  - apply (gives_shift Ir.Shr); tauto.
Qed.
End Wide.

#[local] Existing Instances Sample.externs Sample.allocator.
(** [200u8 + 100u8], and the quotient of the largest [u64] by 2. *)
Lemma fixed_width_operators_witness :
  gives false 8 ∅
    (run_binary (λ _, None) (λ _ _, EmptyString) 1 (Some (false, 8)) Ir.Add
       (small_int 200) (small_int 100) (∅ : gmap Z Payload)) (Number 300) /\
  gives false 64 ∅
    (run_binary (λ _, None) (λ _ _, EmptyString) 1 (Some (false, 64)) Ir.Div
       (small_int (-1)) (small_int 2) (∅ : gmap Z Payload)) (Number (2 ^ 63 - 1)).
Proof.
  assert (Hr : (size (∅ : gmap Z Payload) + 2 <= 16)%nat) by (vm_compute; repeat constructor).
  assert (Hw : forall w b, in_width false b (as_u64 w) -> is_i64 w -> word_of_width false b w) by done.
  assert (H200 : word_of_width false 8 200) by (apply Hw; [by vm_compute|unfold is_i64; lia]).
  assert (H100 : word_of_width false 8 100) by (apply Hw; [by vm_compute|unfold is_i64; lia]).
  assert (Hmax : word_of_width false 64 (-1)) by (apply Hw; [by vm_compute|unfold is_i64; lia]).
  assert (H2 : word_of_width false 64 2) by (apply Hw; [by vm_compute|unfold is_i64; lia]).
  assert (H8 : fixed_width 8) by by left. assert (H64 : fixed_width 64) by (right; right; by right).
  assert (Hi : forall i, is_small_int (small_int i) = true -> small_int_payload (small_int i) = i ->
    as_int (∅ : gmap Z Payload) (small_int i) = Some i) by (intros i E1 E2; unfold as_int; by rewrite E1, E2).
  split.
  - pose proof (fixed_width_operators 16 Sample.allocator_room Sample.allocator_fresh
      (λ _, None) (λ _ _, EmptyString) 0 false 8 H8 ∅ _ _ 200 100
      (Hi 200 eq_refl eq_refl) (Hi 100 eq_refl eq_refl) H200 Hr Ir.Add Ir.Neg (λ _, H100)) as [Hop _].
    exact Hop.
  - pose proof (fixed_width_operators 16 Sample.allocator_room Sample.allocator_fresh
      (λ _, None) (λ _ _, EmptyString) 0 false 64 H64 ∅ _ _ (-1) 2
      (Hi (-1) eq_refl eq_refl) (Hi 2 eq_refl eq_refl) Hmax Hr Ir.Div Ir.Neg (λ _, H2)) as [Hop _].
    exact Hop.
Defined.

(** Without a recorded width (a [dyn] operand) the sum is not reduced, though its static type
    is the width of the other operand. *)
Example dyn_operand_leaves_the_width :
  run_binary (λ _, None) (λ _ _, EmptyString) 1 None Ir.Add (small_int 200) (small_int 100)
    (∅ : gmap Z Payload) = Some (∅, inr (small_int 300)) /\
  ~ word_of_width false 8 300.
Proof.
  split; [by vm_compute|]. intros [_ Hw]. rewrite in_width_spec in Hw. vm_compute in Hw.
  by destruct Hw.
Qed.

(** An immediate is read back by its own accessor and refused by every other: unit, the two
    booleans, the two sentinels, integers of 48 bits, floats of both widths, and pointers
    share the 64-bit word without overlap. *)
Theorem nan_box_classes d :
  immediate_ok d ->
  let w := immediate_word d in
  as_bool w = match d with IBool b => Some b | _ => None end /\
  is_unit w = match d with IUnit => true | _ => false end /\
  is_pending w = match d with IPending => true | _ => false end /\
  is_unbound w = match d with IUnbound => true | _ => false end /\
  as_float w = match d with IFloat f => Some f | _ => None end /\
  (if is_small_int w then Some (small_int_payload w) else None) =
    match d with IInt i => Some i | _ => None end /\
  as_f32 w = match d with IF32 f => Some f | _ => None end /\
  (if is_pointer w then Some (Z.land w PTR_MASK) else None) =
    match d with IPointer a => Some a | _ => None end.
Proof. apply immediate_reads. Qed.
Lemma nan_box_classes_witness :
  as_bool (small_int (-5)) = None /\ as_float (float_value 0xfff0000000000000) = Some 0xfff0000000000000.
Proof.
  split.
  - apply (nan_box_classes (IInt (-5))). split; by vm_compute.
  - assert (Hok : immediate_ok (IFloat 0xfff0000000000000)) by (cbn; unfold is_u64; split; [lia|done]).
    exact (proj1 (proj2 (proj2 (proj2 (proj2 (nan_box_classes _ Hok)))))).
Defined.

(** Every 64-bit integer is a value: the small ones in the word, the others in one heap
    cell; either way the integer reads back, the value is an int and nothing else, and no
    other value of the heap changes. *)
Theorem int_value_round_trip `{ExternType, Allocator} room i h :
  (forall live, malloc live = None -> (room <= size live)%nat) -> malloc_fresh ->
  is_i64 i -> (size h < room)%nat ->
  exists h' v, int i h = Some (h', v) /\ grows h h' 1 /\ as_int h' v = Some i /\
    as_bool v = None /\ as_float v = None /\ as_f32 v = None /\ type_name h' v = "int"%string /\
    (INT_MIN <= i <= INT_MAX -> h' = h).
Proof.
  intros Hroom Hfresh Hi Hr. unfold int.
  destruct (Z.leb_spec INT_MIN i) as [Hlo|Hlo], (Z.leb_spec i INT_MAX) as [Hhi|Hhi]; cbn [andb].
  { pose proof (immediate_reads (IInt i) ltac:(done)) as (Hb & _ & _ & _ & Hf & Hd & Hf32 & _).
    cbn [immediate_word] in *. assert (Ha : as_int h (small_int i) = Some i).
    { unfold as_int. unfold read_int in Hd. by destruct (is_small_int (small_int i)). }
    exists h, (small_int i). split; [done|]. split; [by split; [|lia]|].
    repeat split; try done. unfold type_name. by rewrite Hb, Ha. }
  all: destruct (alloc_reads room Hroom Hfresh (PInt i) h Hr) as (h' & v & E & Hg & Hp).
  all: unfold alloc in E; destruct (malloc (dom h)) as [a|] eqn:Ea; [|done].
  all: destruct (Hfresh _ _ Ea) as [_ Hlow]; injection E as <- <-.
  all: pose proof (immediate_reads (IPointer a) Hlow) as (Hb & _ & _ & _ & Hf & Hd & Hf32 & _).
  all: cbn [immediate_word] in *; unfold read_int in Hd.
  all: assert (Ha : as_int (<[a := PInt i]> h) (pointer_word a) = Some i)
    by (unfold as_int; destruct (is_small_int (pointer_word a)); [done|by rewrite Hp]).
  all: eexists _, (pointer_word a); split; [unfold alloc; by rewrite Ea|]; split; [done|];
    repeat split; try done; try lia; unfold type_name; by rewrite Hb, Ha.
Qed.
#[local] Existing Instances Sample.externs Sample.allocator.
Lemma int_value_round_trip_witness :
  exists h' v, int (2 ^ 60) (∅ : gmap Z Payload) = Some (h', v) /\ as_int h' v = Some (2 ^ 60) /\
    type_name h' v = "int"%string.
Proof.
  destruct (int_value_round_trip 16 (2 ^ 60) ∅ Sample.allocator_room Sample.allocator_fresh)
    as (h' & v & E & _ & Hi & _ & _ & _ & Ht & _); [unfold is_i64; lia|by vm_compute; repeat constructor|].
  exists h', v. split; [exact E|]. split; [exact Hi|exact Ht].
Defined.
