(* ===== verification/ValueData.v ===== *)
(** What a value stands for: a tree of data, whatever the representation.

    An integer stands in its word or in a box, a list in a vector or in a packed buffer of
    either layout.  A map stands for its values under the text of their keys, an instance of a
    class for its identity, and a value that equals nothing (a closure, a cell, a future) for
    itself.  [means] relates a value to its data, and [data_eqb] is the equality of data that
    [ValueOps.values_equal] is to compute. *)
From Stdlib Require Import Strings.String.
From S2P Require Import Prelude Words Numbers NumbersFacts Shapes Values ValuesFacts Packed PackedLayout PackedCodec PackedProps Orders Hints MapKeys ValueOps ValueOpsFacts.
From stdpp Require Import options.
Open Scope nat_scope.
Open Scope list_scope.

Section Data.
Context `{ExternType}.
Inductive Data :=
  | VUnit
  | VBool (b : bool)
  | VInt (i : Z)
  | VFloat (f : Z)
  | VF32 (f : Z)
  | VStr (s : string)
  | VBytes (data : list Z)
  | VStruct (shape : Shape) (fields : list Data)
  | VEnum (shape : Shape) (fields : list Data)
  | VTuple (items : list Data)
  | VSet (items : list Data)
  | VList (items : list Data)
  | VMap (keys : list string) (values : list Data)
  | VInstance (identity : Value)
  | VExtern (e : ExternBox)
  | VModule (name : string)
  | VBuiltin (func : Builtin)
  | VFunction (module func : string)
  | VMethod (ty method : string) (associated : bool)
  | VBound (recv : Data) (method : string)
  | VOpaque.

(** The data of a packed element. *)
Fixpoint inject (d : Datum) : Data :=
  match d with
  | DInt i => VInt i
  | DFloat f => VFloat f
  | DF32 f => VF32 f
  | DBool b => VBool b
  | DObject s ds => VStruct s (inject <$> ds)
  end.

(** ** Equality of data *)

Definition data_f64 (d : Data) : option Z :=
  match d with
  | VInt i => Some (int_to_float F64 i)
  | VFloat f => Some f
  | VF32 f => Some (cast_float F32 F64 f)
  | _ => None
  end.
Fixpoint data_eqb (a b : Data) : bool :=
  match a, b with
  | VUnit, VUnit => true
  | VBool x, VBool y => Bool.eqb x y
  | VInt x, VInt y => (x =? y)%Z
  | VStr s, VStr t => bool_decide (s = t)
  | VBytes s, VBytes t => bool_decide (s = t)
  | VStruct s l, VStruct t k =>
      bool_decide (name s = name t) && bool_decide (fields s = fields t) && forallb2 data_eqb l k
  | VEnum s l, VEnum t k =>
      bool_decide (name s = name t) && bool_decide (variant s = variant t)
      && forallb2 data_eqb l k
  | VTuple l, VTuple k | VSet l, VSet k | VList l, VList k => forallb2 data_eqb l k
  | VMap ks l, VMap ks' k => bool_decide (ks = ks') && forallb2 data_eqb l k
  | VInstance x, VInstance y => (x =? y)%Z
  | VExtern x, VExtern y => eq_value x y
  | VModule m, VModule n => bool_decide (m = n)
  | VBuiltin f, VBuiltin g => bool_decide (f = g)
  | VFunction m f, VFunction n g => bool_decide (m = n) && bool_decide (f = g)
  | VMethod t m x, VMethod u n y => bool_decide (t = u) && bool_decide (m = n) && Bool.eqb x y
  | VBound x m, VBound y n => bool_decide (m = n) && data_eqb x y
  | _, _ =>
      match both (data_f64 a) (data_f64 b) with Some (x, y) => f64_eqb x y | None => false end
  end.

Fixpoint depth (d : Data) : nat :=
  match d with
  | VStruct _ l | VEnum _ l | VTuple l | VSet l | VList l | VMap _ l => S (max_list (depth <$> l))
  | VBound d _ => S (depth d)
  | _ => 1
  end.

Lemma depth_member d l : d ∈ l -> depth d <= max_list (depth <$> l).
Proof using. intros Hd. apply max_list_elem_of_le. by apply list_elem_of_fmap_2. Qed.
End Data.
Lemma forallb2_length {A B} (f : A -> B -> bool) l k : forallb2 f l k = true -> length l = length k.
Proof. rewrite forallb2_Forall2. apply Forall2_length. Qed.

Section Means.
Context `{ExternType, Allocator}.
Context (room : nat).
(** The field names of packed keys, and the types whose [==] is structural ([structural_eq_types]
    of the compiler, which sets the flag of every shape by its name). *)
Context (names : string -> option (list string)) (structural : string -> bool).
Definition flagged (s : Shape) (b : bool) : Prop := structural_eq s = b /\ structural (name s) = b.
Fixpoint plain (d : Datum) : bool :=
  match d with
  | DObject s ds => structural_eq s && structural (name s) && forallb plain ds
  | _ => true
  end.

(** The payloads and words that equal nothing. *)
Definition is_opaque (h : Heap) (v : Value) : bool :=
  match payload h v with
  | Some (PClosure _ _ | PCell _ | PIter | PFuture | PTimer | PHandle | PAsyncIo | PSender
         | PReceiver | PChannelSend | PChannelRecv | PIsolateFuture) => true
  | Some _ => false
  | None => is_pending v || is_unbound v
  end.

(** The value [v] of heap [h] stands for a tree of data; [n] bounds the addresses it takes to
    materialize any one packed list below it. *)
Inductive means (h : Heap) (n : nat) : Data -> Value -> Prop :=
  | means_unit : means h n VUnit unit_value
  | means_bool b : means h n (VBool b) (bool_value b)
  | means_int i v : as_int h v = Some i -> as_f32 v = None -> means h n (VInt i) v
  | means_float f v : as_float v = Some f -> means h n (VFloat f) v
  | means_f32 f v : as_f32 v = Some f -> is_small_int v = false -> means h n (VF32 f) v
  | means_str s v : payload h v = Some (PStr s) -> means h n (VStr s) v
  | means_bytes b v : payload h v = Some (PBytes b) -> means h n (VBytes b) v
  | means_struct s l slots v :
      payload h v = Some (PObject s slots) -> flagged s true ->
      Forall2 (means h n) l slots -> means h n (VStruct s l) v
  | means_instance s slots v :
      payload h v = Some (PObject s slots) -> flagged s false -> means h n (VInstance v) v
  | means_enum s l data v :
      payload h v = Some (PEnum s data) -> Forall2 (means h n) l data -> means h n (VEnum s l) v
  | means_tuple l items v :
      payload h v = Some (PTuple items) -> Forall2 (means h n) l items -> means h n (VTuple l) v
  | means_set l items v :
      payload h v = Some (PSet items) -> Forall2 (means h n) l items -> means h n (VSet l) v
  | means_map ks l entries v :
      map_entries names h v = Some entries -> ks = entries.*1 ->
      Forall2 (means h n) l entries.*2 -> means h n (VMap ks l) v
  | means_extern e v : payload h v = Some (PExtern e) -> means h n (VExtern e) v
  | means_module m v : payload h v = Some (PNativeModule m) -> means h n (VModule m) v
  | means_builtin f v : payload h v = Some (PNativeFn f) -> means h n (VBuiltin f) v
  | means_function m f v : payload h v = Some (PModuleFn m f) -> means h n (VFunction m f) v
  | means_method t m a v : payload h v = Some (PMethodHandle t m a) -> means h n (VMethod t m a) v
  | means_bound d m recv v :
      payload h v = Some (PBoundMethod recv m) -> means h n d recv -> means h n (VBound d m) v
  | means_opaque v : is_opaque h v = true -> means h n VOpaque v
  | means_list l items v :
      payload h v = Some (PList items) -> Forall2 (means h n) l items -> means h n (VList l) v
  | means_packed schema ds v :
      wf_schema schema -> sized schema -> forallb plain ds = true -> holds room schema h v ds ->
      1 + length ds * element_allocations schema <= n -> means h n (VList (inject <$> ds)) v.

Lemma map_entries_mono h h' v entries :
  h ⊆ h' -> map_entries names h v = Some entries -> map_entries names h' v = Some entries.
Proof using.
  unfold map_entries, entries_of. intros Hs. destruct (payload h v) as [p|] eqn:E; [|done].
  by rewrite (payload_mono _ _ _ _ Hs E).
Qed.
Lemma is_opaque_mono h h' v : h ⊆ h' -> is_opaque h v = true -> is_opaque h' v = true.
Proof using.
  unfold is_opaque. intros Hs. destruct (payload h v) as [p|] eqn:E.
  { by rewrite (payload_mono _ _ _ _ Hs E). }
  unfold is_pending, is_unbound.
  intros [->%Z.eqb_eq | ->%Z.eqb_eq]%orb_true_iff; by vm_compute.
Qed.
Lemma means_mono h h' n n' d v : h ⊆ h' -> n <= n' -> means h n d v -> means h' n' d v.
Proof using.
  intros Hs Hn. revert v.
  assert (Hall : forall l, list_all _ (λ d, forall v, means h n d v -> means h' n' d v) l ->
    forall vs, Forall2 (means h n) l vs -> Forall2 (means h' n') l vs).
  { intros l Hl%list_all_Forall vs Hvs. induction Hvs; constructor; inversion Hl; subst; auto. }
  assert (Hp : forall v p, payload h v = Some p -> payload h' v = Some p)
    by (intros; by eapply payload_mono).
  induction d; intros v; inversion 1; subst; try (econstructor; by eauto).
  - constructor; [by eapply as_int_mono|done].
  - match goal with Hh : holds _ _ _ _ _ |- _ => destruct Hh as (rows & ? & ?) end.
    eapply means_packed; try done; [exists rows; eauto|lia].
  - eapply means_map; eauto using map_entries_mono.
  - constructor. by eapply is_opaque_mono.
Qed.
Lemma means_all_mono h h' n n' l vs :
  h ⊆ h' -> n <= n' -> Forall2 (means h n) l vs -> Forall2 (means h' n') l vs.
Proof using. intros Hs Hn Hl. eapply Forall2_impl; [exact Hl|]. intros ??. by apply means_mono. Qed.

Lemma reads_means h n d v : reads h d v -> plain d = true -> means h n (inject d) v.
Proof using.
  revert d v. fix IH 1. intros [i|f|f|b|s ds] v; cbn [reads inject plain].
  - intros [] _. by constructor.
  - by constructor.
  - intros [] _. by constructor.
  - intros Hb _. assert (v = bool_value b) as ->; [|constructor]. unfold as_bool in Hb. revert Hb.
    case Z.eqb_spec; [by intros -> [= <-]|]. case Z.eqb_spec; [by intros -> _ [= <-]|done].
  - intros (slots & Hp & Hall) [[Hs Hn]%andb_true_iff Hpl]%andb_true_iff.
    eapply means_struct; [done|done|]. clear Hp. revert slots Hall Hpl.
    induction ds as [|d ds IHds]; intros [|w slots]; try done.
    intros [Hd Hall] [Hpd Hpl]%andb_true_iff. cbn. constructor; [by apply IH|by apply IHds].
Qed.
Lemma reads_all_means h n ds vs :
  reads_all h ds vs -> forallb plain ds = true -> Forall2 (means h n) (inject <$> ds) vs.
Proof using.
  revert vs. induction ds as [|d ds IH]; intros [|v vs]; try done.
  intros [Hd Hall] [Hpd Hpl]%andb_true_iff. cbn. constructor; [by apply reads_means|by apply IH].
Qed.

(** ** What the readers of a value answer *)

Definition shows (d : Data) (p : option Payload) : Prop :=
  match d with
  | VUnit | VBool _ | VFloat _ | VF32 _ => p = None
  | VInt _ => p = None \/ exists i, p = Some (PInt i)
  | VStr s => p = Some (PStr s)
  | VBytes b => p = Some (PBytes b)
  | VStruct s _ => exists slots, p = Some (PObject s slots)
  | VEnum s _ => exists data, p = Some (PEnum s data)
  | VTuple _ => exists items, p = Some (PTuple items)
  | VSet _ => exists items, p = Some (PSet items)
  | VList _ => exists q, p = Some q /\
      match q with PList _ | PPackedList _ _ => True | _ => False end
  | VMap _ _ => exists entries, p = Some (PMap entries)
  | VInstance _ => exists s slots, p = Some (PObject s slots)
  | VExtern e => p = Some (PExtern e)
  | VModule m => p = Some (PNativeModule m)
  | VBuiltin f => p = Some (PNativeFn f)
  | VFunction m f => p = Some (PModuleFn m f)
  | VMethod t m a => p = Some (PMethodHandle t m a)
  | VBound _ m => exists recv, p = Some (PBoundMethod recv m)
  | VOpaque => p = None \/ exists q, p = Some q /\
      match q with
      | PClosure _ _ | PCell _ | PIter | PFuture | PTimer | PHandle | PAsyncIo | PSender
      | PReceiver | PChannelSend | PChannelRecv | PIsolateFuture => True
      | _ => False
      end
  end.
Record reading (h : Heap) (d : Data) (v : Value) : Prop := {
  reading_int : int_operand h v = match d with VInt i => Some i | _ => None end;
  reading_f64 : ValueOps.as_f64 h v = data_f64 d;
  reading_bool : as_bool v = match d with VBool b => Some b | _ => None end;
  reading_unit : is_unit v = match d with VUnit => true | _ => false end;
  reading_payload : shows d (payload h v);
}.

Lemma not_pointer_payload h v : is_pointer v = false -> payload h v = None.
Proof using. unfold payload. by intros ->. Qed.
Lemma pointer_reads h v p :
  payload h v = Some p -> match p with PInt _ => False | _ => True end ->
  int_operand h v = None /\ ValueOps.as_f64 h v = None /\ as_bool v = None /\ is_unit v = false.
Proof using.
  intros Hp Hk. assert (Hv : is_pointer v = true) by (unfold payload in Hp; by destruct (is_pointer v)).
  assert (Hf : as_float v = None).
  { unfold as_float. destruct (is_float v) eqn:E; [|done]. apply float_not_pointer in E. congruence. }
  assert (Hi : as_int h v = None).
  { unfold as_int, is_small_int. rewrite Hv, andb_false_r, Hp. by destruct p. }
  unfold int_operand, ValueOps.as_f64. rewrite Hf, Hi, as_f32_pointer by done.
  split; [done|]. split; [done|]. split.
  - unfold as_bool. case Z.eqb_spec; [|case Z.eqb_spec]; intros; subst; done.
  - unfold is_unit. case Z.eqb_spec; intros; subst; done.
Qed.
Lemma as_f64_int h v i : as_int h v = Some i -> as_f32 v = None ->
  ValueOps.as_f64 h v = Some (int_to_float F64 i).
Proof using. intros Hi Hf. unfold ValueOps.as_f64. by rewrite (as_int_no_float _ _ _ Hi), Hf, Hi. Qed.

Lemma means_reading h n d v : means h n d v -> reading h d v.
Proof using.
  intros Hm. inversion Hm; subst;
    try (match goal with Hp : payload h v = Some _ |- _ =>
      destruct (pointer_reads h v _ Hp I) as (?&?&?&?); split; try done; rewrite Hp; by repeat eexists end).
  - by split.
  - by destruct b; split.
  - match goal with E : as_int h v = Some i |- _ => rename E into Hi end. split.
    + by apply int_operand_int.
    + by apply as_f64_int.
    + by eapply as_int_no_bool.
    + unfold is_unit. case Z.eqb_spec; [|done]. intros ->. by vm_compute in Hi.
    + cbn. unfold as_int in Hi. destruct (is_small_int v) eqn:Es.
      * left. apply not_pointer_payload. unfold is_small_int in Es.
        by destruct (is_pointer v); [rewrite andb_false_r in Es|].
      * right. destruct (payload h v) as [[]|]; simplify_eq. eauto.
  - match goal with E : as_float v = Some f |- _ => rename E into Hf end.
    assert (Hfl : is_float v = true) by (unfold as_float in Hf; by destruct (is_float v)).
    split.
    + unfold int_operand. by rewrite Hf.
    + unfold ValueOps.as_f64. by rewrite Hf.
    + unfold as_bool. case Z.eqb_spec; [|case Z.eqb_spec]; intros; subst; done.
    + unfold is_unit. case Z.eqb_spec; intros; subst; done.
    + by apply not_pointer_payload, float_not_pointer.
  - match goal with E : as_f32 v = Some f |- _ => rename E into Hf end.
    assert (Hfl : is_float v = false /\ is_pointer v = false).
    { unfold as_f32, is_f32 in Hf. by destruct (is_float v), (is_pointer v). }
    destruct Hfl as [Hfl Hp]. assert (Hfn : as_float v = None) by (unfold as_float; by rewrite Hfl).
    split.
    + unfold int_operand, as_int. rewrite Hfn. rewrite not_pointer_payload by done. by case_match.
    + unfold ValueOps.as_f64. by rewrite Hfn, Hf.
    + unfold as_bool. case Z.eqb_spec; [|case Z.eqb_spec]; intros; subst; done.
    + unfold is_unit. case Z.eqb_spec; intros; subst; done.
    + by apply not_pointer_payload.
  - match goal with E : map_entries _ _ _ = _ |- _ => unfold map_entries, entries_of in E; rename E into He end.
    destruct (payload h v) as [[]|] eqn:Hp; try done.
    destruct (pointer_reads h v _ Hp I) as (?&?&?&?). split; try done. rewrite Hp. by repeat eexists.
  - match goal with E : is_opaque _ _ = _ |- _ => unfold is_opaque in E; rename E into Ho end.
    destruct (payload h v) as [p|] eqn:Hp.
    + assert (Hk : match p with PInt _ => False | _ => True end) by by destruct p.
      destruct (pointer_reads h v _ Hp Hk) as (?&?&?&?). split; try done. rewrite Hp. cbn. right.
      exists p. split; [done|]. by destruct p.
    + unfold is_pending, is_unbound in Ho.
      apply orb_true_iff in Ho as [->%Z.eqb_eq | ->%Z.eqb_eq]; by (split; try done; left).
  - match goal with Hh : holds _ _ _ _ _ |- _ => destruct Hh as (rows & Hp & _) end.
    destruct (pointer_reads h v _ Hp I) as (?&?&?&?). split; try done. rewrite Hp. by repeat eexists.
Qed.
End Means.
