(* ===== verification/ValueEquality.v ===== *)
(** Equality and concatenation of values compute on the data they stand for. *)
From Stdlib Require Import Strings.String.
From stdpp Require Import sorting.
From S2P Require Ir.
From S2P Require Import Prelude Words Numbers NumbersFacts Shapes Values ValuesFacts Packed PackedLayout PackedCodec PackedProps Orders Hints MapKeys ValueOps ValueOpsFacts ValueData.
From stdpp Require Import options.
Open Scope nat_scope.
Open Scope list_scope.

(** Handles compare by what they share. *)
Lemma schema_eqb_eq s t : schema_eqb s t = true -> s = t.
Proof.
  revert s t. apply (schema_scheme (λ k, forall k', kind_eqb k k' = true -> k = k')
    (λ s, forall t, schema_eqb s t = true -> s = t)).
  - intros k. destruct k; try done; intros k'; destruct k'; try done. cbn.
    by intros [->%bool_decide_eq_true ->%eqb_prop]%andb_true_iff.
  - intros inner IH []; try done. cbn. by intros ->%IH.
  - intros sh fields n c HP [sh' fields' n' c']. cbn.
    intros [[[->%bool_decide_eq_true ->%bool_decide_eq_true]%andb_true_iff ->%eqb_prop]%andb_true_iff
      Hf]%andb_true_iff. f_equal. revert fields' Hf.
    induction HP as [|k fields Hk HP IH]; intros [|k' fields']; try done.
    intros [->%Hk ->%IH]%andb_true_iff. done.
Qed.
Lemma both_none {A B} (x : option A) : both (B := B) x None = None.
Proof. by destruct x. Qed.

Section Equality.
Context `{ExternType, Allocator}.
Context (room : nat) (Hroom : forall live, malloc live = None -> room <= size live).
Context (Hfresh : malloc_fresh).
Context (names : string -> option (list string)) (structural : string -> bool).
#[local] Abbreviation means := (ValueData.means room names structural).

(** ** Lists *)

(** A list in any representation becomes a vector of elements that mean the same. *)
Lemma realize_means h n l v :
  means h n (VList l) v -> size h + n <= room ->
  exists h' v' items, realize_list h v = Some (h', v') /\ grows h h' n /\
    list_items h' v' = Some items /\ Forall2 (means h' n) l items.
Proof using Hfresh Hroom.
  intros Hm Hn. inversion Hm; subst; unfold realize_list, is_packed_list.
  - match goal with Hp : payload h v = _ |- _ => rewrite Hp end. exists h, v, items.
    split; [done|]. split; [split; [done|lia]|]. split; [|done]. unfold list_items.
    by match goal with Hp : payload h v = _ |- _ => rewrite Hp end.
  - match goal with Hh : holds _ _ _ _ _ |- _ => pose proof Hh as (rows & Hp & _) end.
    rewrite Hp.
    match goal with Hs : sized _, Hh : holds _ _ _ _ _ |- _ =>
      destruct (items_ok room Hroom Hfresh _ Hs _ _ _ Hh ltac:(lia)) as (h1 & vs & -> & Hg1 & Hvs) end.
    cbn [mbind option_bind].
    destruct (alloc_reads room Hroom Hfresh (PList vs) h1) as (h2 & w & -> & Hg2 & Hw);
      [destruct Hg1; lia|].
    exists h2, w, vs. split; [done|]. split; [eapply grows_le; [by eapply grows_trans|lia]|].
    split; [unfold list_items; by rewrite Hw|].
    apply reads_all_means; [|done]. apply (reads_all_mono h1); [apply Hg2|done].
Qed.

Lemma list_items_mono h h' v items :
  h ⊆ h' -> list_items h v = Some items -> list_items h' v = Some items.
Proof using.
  unfold list_items. intros Hs. destruct (payload h v) as [p|] eqn:E; [|done].
  by rewrite (payload_mono _ _ _ _ Hs E).
Qed.
Lemma means_is_list h n l v : means h n (VList l) v -> is_list h v = true.
Proof using.
  intros Hm. destruct (means_reading room names structural h n _ v Hm) as [_ _ _ _ (p & Hp & Hk)].
  unfold is_list. rewrite Hp. by destruct p.
Qed.

Lemma slices_equal_data (R : Data -> Value -> Prop) eq l k a b :
  Forall2 R l a -> Forall2 R k b ->
  (forall x y v w, x ∈ l -> R x v -> R y w -> eq v w = Some (data_eqb x y)) ->
  slices_equal eq a b = Some (forallb2 data_eqb l k).
Proof using.
  intros Ha Hb Heq. unfold slices_equal.
  rewrite <- (Forall2_length _ _ _ Ha), <- (Forall2_length _ _ _ Hb).
  case Nat.eqb_spec; intros Hlen.
  - revert k b Hb Hlen. induction Ha as [|x v l a Hx Ha IH]; intros [|y k] b Hb Hlen;
      inversion Hb; subst; try done.
    cbn [all_equal forallb2]. rewrite (Heq x y) by (done || by left). cbn [mbind option_bind].
    destruct (data_eqb x y); [|done]. apply IH; [|done|by injection Hlen].
    intros x' y' v' w' Hin. apply Heq. by right.
  - destruct (forallb2 data_eqb l k) eqn:E; [|done]. by apply forallb2_length in E.
Qed.

(** ** Equality *)

Ltac shown Hp :=
  cbn [shows] in Hp;
  repeat match type of Hp with
  | _ \/ _ => destruct Hp as [Hp|Hp]
  | exists _, _ => destruct Hp as [? Hp]
  | _ /\ _ => let Hq := fresh "Hq" in destruct Hp as [Hp Hq]; case_match; try done; clear Hq
  end.


(** ** Maps *)

Definition entries_lt {A} (a b : string * A) : Prop := String.compare a.1 b.1 = Lt.
Lemma btree_insert_bound l k v k0 :
  String.compare k0 k = Lt -> Forall (λ e, String.compare k0 e.1 = Lt) l ->
  Forall (λ e, String.compare k0 e.1 = Lt) (btree_insert l k v).
Proof using.
  intros Hk. induction 1 as [|[k' v'] l Hk' Hl IH]; [by repeat constructor|]. cbn.
  destruct (String.compare k k'); repeat constructor; done.
Qed.
Lemma btree_insert_sorted l k v :
  StronglySorted entries_lt l -> StronglySorted entries_lt (btree_insert l k v).
Proof using.
  induction 1 as [|[k' v'] l Hs IH Hl]; [by repeat constructor|]. cbn.
  destruct (String.compare k k') eqn:E.
  - by constructor.
  - constructor; [by constructor|]. constructor; [done|]. eapply Forall_impl; [exact Hl|].
    intros e. unfold entries_lt. cbn [fst]. by apply (cmp_trans String.compare).
  - constructor; [done|]. apply (btree_insert_bound _ _ _ k'); [|done]. by apply (cmp_gt_lt String.compare).
Qed.
Lemma map_entries_sorted h v entries :
  map_entries names h v = Some entries -> StronglySorted entries_lt entries.
Proof using.
  unfold map_entries. destruct (entries_of h v) as [l|]; [|done]. intros [= <-].
  assert (Hg : forall t, StronglySorted entries_lt t -> StronglySorted entries_lt
    (foldl (λ t e, btree_insert t (as_native_str names e.1) e.2) t l)).
  { induction l as [|e l IH]; intros t Ht; [done|]. cbn. by apply IH, btree_insert_sorted. }
  apply Hg. constructor.
Qed.
Lemma entries_lt_ne (a b : string * Value) : entries_lt a b -> a.1 <> b.1.
Proof using. unfold entries_lt. intros E H'. by rewrite H', (cmp_refl String.compare) in E. Qed.
Lemma sorted_keys_NoDup (l : list (string * Value)) : StronglySorted entries_lt l -> NoDup l.*1.
Proof using.
  induction 1 as [|e l Hs IH Hl]; [constructor|]. cbn. constructor; [|done].
  intros (e' & E & He')%list_elem_of_fmap. rewrite Forall_forall in Hl. by apply (entries_lt_ne e e'); auto.
Qed.
(** Strictly sorted entries with the same keys have them in the same places. *)
Lemma sorted_keys_unique (a b : list (string * Value)) :
  StronglySorted entries_lt a -> StronglySorted entries_lt b -> a.*1 ⊆ b.*1 -> length a = length b ->
  a.*1 = b.*1.
Proof using.
  intros Ha Hb Hs Hl.
  assert (Hk : forall l : list (string * Value), StronglySorted entries_lt l ->
    StronglySorted (λ x y, String.compare x y = Lt) l.*1).
  { induction 1 as [|e l Hl' IH He]; cbn; [constructor|]. constructor; [done|]. by apply Forall_fmap. }
  apply (StronglySorted_unique_strong (λ x y, String.compare x y = Lt)); [|by apply Hk..|].
  - intros x y _ _ Hxy Hyx. rewrite (cmp_flip (cmp := String.compare)), Hxy in Hyx. done.
  - apply submseteq_length_Permutation; [|rewrite !length_fmap; lia].
    apply NoDup_submseteq; [by apply sorted_keys_NoDup|done].
Qed.
Lemma btree_get_middle (pre l : list (string * Value)) e :
  NoDup (pre ++ e :: l).*1 -> btree_get (pre ++ e :: l) e.1 = Some e.2.
Proof using.
  unfold btree_get. intros Hd. rewrite fmap_app in Hd. cbn in Hd.
  apply NoDup_app in Hd as (_ & Hn & _).
  rewrite list_find_app_r.
  - cbn. rewrite decide_True by done. by destruct e.
  - apply list_find_None, Forall_forall. intros e' He' E.
    apply (Hn e'.1); [by apply list_elem_of_fmap_2|]. rewrite E. by left.
Qed.
Lemma btree_get_absent (l : list (string * Value)) k : k ∉ l.*1 -> btree_get l k = None.
Proof using.
  unfold btree_get. intros Hk. rewrite (proj2 (list_find_None _ _)); [done|].
  apply Forall_forall. intros e He E. apply Hk. rewrite <- E. by apply list_elem_of_fmap_2.
Qed.
Section MapEntries.
Context (R : Data -> Value -> Prop) (eq : Value -> Value -> option bool).
Definition entry_equal (b : list (string * Value)) (r : option bool) (e : string * Value) : option bool :=
  r ← r; if r : bool then match btree_get b e.1 with Some v => eq e.2 v | None => Some false end
         else Some false.
Lemma entry_equal_false b a : foldl (entry_equal b) (Some false) a = Some false.
Proof using. by induction a. Qed.
Lemma entries_equal_same l k a : forall pre b,
  Forall2 R l a.*2 -> Forall2 R k b.*2 ->
  (forall x y v w, x ∈ l -> R x v -> R y w -> eq v w = Some (data_eqb x y)) ->
  a.*1 = b.*1 -> NoDup (pre ++ b).*1 ->
  foldl (entry_equal (pre ++ b)) (Some true) a = Some (forallb2 data_eqb l k).
Proof using.
  revert k a. induction l as [|x l IH]; intros k a pre b Ha Hb Heq Hk Hd.
  { inversion Ha as [E|]. destruct a; [|done]. destruct b; [|done]. inversion Hb. by subst. }
  inversion Ha as [|? v ? vs Hx Hl E1 E2]. destruct a as [|e a]; [done|]. injection E2 as -> ->.
  destruct b as [|e' b]; [done|]. cbn in Hk. injection Hk as Hke Hk.
  inversion Hb as [|y ? k' ? Hy Hl']. subst. cbn [foldl]. unfold entry_equal at 2. cbn [mbind option_bind].
  rewrite Hke, btree_get_middle by done. rewrite (Heq x y) by (done || by left).
  cbn [forallb2]. destruct (data_eqb x y); [|apply entry_equal_false]. cbn [andb].
  replace (pre ++ e' :: b) with ((pre ++ [e']) ++ b) by by rewrite <- app_assoc.
  apply IH; try done; [|by rewrite <- app_assoc]. intros ????? . apply Heq. by right.
Qed.
Lemma entries_equal_missing l k a b e :
  Forall2 R l a.*2 -> Forall2 R k b.*2 ->
  (forall x y v w, x ∈ l -> R x v -> R y w -> eq v w = Some (data_eqb x y)) ->
  e ∈ a -> e.1 ∉ b.*1 -> foldl (entry_equal b) (Some true) a = Some false.
Proof using.
  intros Ha Hb Heq He Hn. revert l Ha Heq. induction a as [|e' a IH]; [by apply not_elem_of_nil in He|].
  intros l Ha Heq. inversion Ha as [|x v l' vs Hx Hl]; subst. cbn [foldl]. unfold entry_equal at 2.
  cbn [mbind option_bind]. destruct (decide (e = e')) as [<-|Hne].
  { rewrite btree_get_absent by done. apply entry_equal_false. }
  apply elem_of_cons in He as [|He]; [done|].
  assert (Hrest : foldl (entry_equal b) (Some true) a = Some false).
  { apply (IH He l'); [done|]. intros ????? . apply Heq. by right. }
  unfold btree_get. destruct (list_find _ b) as [[i [k' w]]|] eqn:E; cbn [mbind option_bind];
    [|apply entry_equal_false].
  apply list_find_Some in E as (E & _ & _).
  assert (Hw : b.*2 !! i = Some w) by (by rewrite list_lookup_fmap, E).
  destruct (Forall2_lookup_r _ _ _ _ _ Hb Hw) as (y & _ & Hy).
  rewrite (Heq x y) by (done || by left). destruct (data_eqb x y); [done|apply entry_equal_false].
Qed.
Lemma maps_equal_data h v w a b l k :
  map_entries names h v = Some a -> map_entries names h w = Some b ->
  Forall2 R l a.*2 -> Forall2 R k b.*2 ->
  (forall x y v w, x ∈ l -> R x v -> R y w -> eq v w = Some (data_eqb x y)) ->
  maps_equal names eq h v w = Some (bool_decide (a.*1 = b.*1) && forallb2 data_eqb l k).
Proof using.
  intros Ea Eb Ha Hb Heq. unfold maps_equal. rewrite Ea, Eb. cbn [mbind option_bind].
  apply map_entries_sorted in Ea, Eb. fold (entry_equal b).
  case Nat.eqb_spec; intros Hl.
  - case_bool_decide as Hk; cbn [andb].
    + exact (entries_equal_same l k a [] b Ha Hb Heq Hk (sorted_keys_NoDup b Eb)).
    + destruct (decide (a.*1 ⊆ b.*1)) as [Hs|Hs]; [by destruct Hk; apply sorted_keys_unique|].
      destruct (decide (Exists (λ e, e.1 ∉ b.*1) a)) as [(e & He & Hn)%Exists_exists|Hne].
      { by eapply entries_equal_missing. }
      destruct Hs. intros x (e & -> & He)%list_elem_of_fmap.
      destruct (decide (e.1 ∈ b.*1)); [done|]. destruct Hne. apply Exists_exists. by exists e.
  - rewrite bool_decide_false; [done|]. intros E%(f_equal length). by rewrite !length_fmap in E.
Qed.
End MapEntries.

Lemma pair_decide {A B} `{EqDecision A, EqDecision B} (a a' : A) (b b' : B) :
  bool_decide ((a, b) = (a', b')) = bool_decide (a = a') && bool_decide (b = b').
Proof using. repeat case_bool_decide; naive_solver. Qed.
Ltac unflag := match goal with E : structural_eq _ = _ |- _ => rewrite E end.
Lemma values_equal_means fuel h n a b v w :
  means h n a v -> means h n b w -> depth a <= fuel ->
  size h + 2 * n * fuel <= room -> values_equal names fuel h v w = Some (data_eqb a b).
Proof using Hfresh Hroom.
  revert h a b v w. induction fuel as [|fuel IH]; intros h a b v w Ha Hb Hd Hr;
    [by destruct a; cbn in Hd; lia|].
  assert (Hin : forall h' l x y p q, h ⊆ h' -> size h' <= size h + 2 * n ->
    max_list (depth <$> l) <= fuel -> x ∈ l -> means h' n x p -> means h' n y q ->
    values_equal names fuel h' p q = Some (data_eqb x y)).
  { intros h' l x y p q Hs Hsz Hdl Hx Hp Hq. apply IH; try done; [|lia].
    pose proof (depth_member x l Hx); lia. }
  assert (Hall : forall h' l k x y, h ⊆ h' -> size h' <= size h + 2 * n ->
    Forall2 (means h' n) l x -> Forall2 (means h' n) k y -> max_list (depth <$> l) <= fuel ->
    slices_equal (values_equal names fuel h') x y = Some (forallb2 data_eqb l k)).
  { intros h' l k x y Hs Hsz Hx Hy Hdl. eapply slices_equal_data; [done..|]. eauto. }
  assert (Hlists : forall l k, means h n (VList l) v -> means h n (VList k) w ->
    max_list (depth <$> l) <= fuel ->
    lists_equal (values_equal names fuel) h v w = Some (forallb2 data_eqb l k)).
  { intros l k Hl Hk Hdl. unfold lists_equal.
    destruct (realize_means h n l v Hl ltac:(lia)) as (h1 & v1 & xs & -> & Hg1 & Hx & Hxs).
    cbn [mbind option_bind].
    destruct (realize_means h1 n k w) as (h2 & w1 & ys & -> & Hg2 & Hy & Hys);
      [by apply (means_mono room names structural h h1 n); [apply Hg1| |]|destruct Hg1; lia|].
    cbn [mbind option_bind]. rewrite (list_items_mono h1 h2 v1 xs), Hy by (done || apply Hg2).
    cbn [mbind option_bind]. apply (Hall h2); try done.
    - etransitivity; [apply Hg1|apply Hg2].
    - destruct Hg1, Hg2. lia.
    - by apply (means_all_mono room names structural h1 h2 n); [apply Hg2| |]. }
  destruct (means_reading room names structural h n a v Ha) as [Hi Hf Hbo Hu Hp].
  destruct (means_reading room names structural h n b w Hb) as [Hi' Hf' Hbo' Hu' Hp'].
  cbn [values_equal]. rewrite Hi, Hi', Hf, Hf', Hbo, Hbo', Hu, Hu'.
  destruct a, b; cbn [both data_f64 data_eqb andb] in *; try done; clear Hi Hi' Hf Hf' Hbo Hbo' Hu Hu';
    shown Hp; shown Hp';
    unfold as_string, bytes_data, is_object, is_enum, is_list, tuple_items, set_items, is_map,
      native_module_name, as_native_fn, module_fn_parts, method_handle_parts, bound_method_parts,
      as_extern; rewrite ?Hp, ?Hp'; try done.
  6-9: transitivity (lists_equal (values_equal names fuel) h v w);
    [done|apply Hlists; try done; cbn [depth] in Hd; lia].
  all: inversion Ha; subst; inversion Hb; subst; simplify_eq; cbn [both andb];
    unfold Values.shape, slots, enum_data; rewrite ?Hp, ?Hp'; cbn [mbind option_bind];
    cbn [depth] in Hd; repeat match goal with H : flagged _ _ _ |- _ => destruct H end.
  - unflag. cbn [negb]. case_match; [|done]. cbn [andb]. apply (Hall h); try done; lia.
  - unflag. cbn [negb]. rewrite bool_decide_false; [done|congruence].
  - case_match; [|done]. cbn [andb]. apply (Hall h); try done; lia.
  - apply (Hall h); try done; lia.
  - apply (Hall h); try done; lia.
  - eapply (maps_equal_data (means h n)); try done. intros ?? ?? Hx ??. eapply Hin; try done; lia.
  - unflag. cbn [negb]. case Z.eqb_spec; [|done]. intros ->. congruence.
  - by unflag.
  - by rewrite pair_decide.
  - rewrite !pair_decide. do 2 f_equal. by destruct associated, associated0.
  - case_bool_decide; [|done]. apply IH; try done; lia.
Qed.

(** ** Concatenation *)

(** Two packed lists of one schema are joined in their buffers. *)
Lemma flat_concat h n l k v w :
  means h n (VList l) v -> means h n (VList k) w -> size h < room ->
  packed_concat h v w = Some None \/
  exists h' u, packed_concat h v w = Some (Some (h', u)) /\ grows h h' 1 /\
    means h' (2 * n) (VList (l ++ k)) u.
Proof using Hfresh Hroom.
  intros Hl Hk Hr. inversion Hl as [| | | | | | | | | | | | | | | | | | | |l' xs v' Hp|s1 ds1 v' Hwf1 Hs1 Hpl1 Hh1 Hn1]; subst.
  { left. unfold packed_concat, packed_parts. by rewrite Hp. }
  inversion Hk as [| | | | | | | | | | | | | | | | | | | |l' xs v' Hp|s2 ds2 v' Hwf2 Hs2 Hpl2 Hh2 Hn2]; subst.
  { left. unfold packed_concat, packed_parts. rewrite Hp. by repeat case_match. }
  destruct (schema_eqb s1 s2) eqn:E.
  - apply schema_eqb_eq in E as <-. right.
    destruct (concat_ok room Hroom Hfresh s1 Hs1 h v w ds1 ds2 Hh1 Hh2 Hr)
      as (h' & u & -> & Hg & Hu).
    exists h', u. split; [done|]. split; [done|]. rewrite <- fmap_app.
    eapply means_packed; try done; [by rewrite forallb_app, Hpl1|]. rewrite length_app. lia.
  - left. destruct Hh1 as (r1 & Hp1 & _), Hh2 as (r2 & Hp2 & _).
    unfold packed_concat, packed_parts. by rewrite Hp1, Hp2, E.
Qed.

(** The [~] of two lists means the elements of the first, then those of the second. *)
Lemma concatenate_means display_into h n l k v w :
  means h n (VList l) v -> means h n (VList k) w -> size h + 2 * n + 1 <= room ->
  exists h' u, concatenate display_into v w h = Some (h', inr u) /\ grows h h' (2 * n + 1) /\
    means h' (2 * n) (VList (l ++ k)) u.
Proof using Hfresh Hroom.
  intros Hl Hk Hr. unfold concatenate. rewrite (means_is_list _ _ _ _ Hl), (means_is_list _ _ _ _ Hk).
  cbn [andb]. destruct (flat_concat h n l k v w Hl Hk ltac:(lia)) as [->|(h1 & u & -> & Hg & Hu)];
    cbn [mbind option_bind].
  - destruct (realize_means h n l v Hl ltac:(lia)) as (h1 & v1 & xs & -> & Hg1 & Hx & Hxs).
    cbn [mbind option_bind].
    destruct (realize_means h1 n k w) as (h2 & w1 & ys & -> & Hg2 & Hy & Hys);
      [by apply (means_mono room names structural h h1 n); [apply Hg1| |]|destruct Hg1; lia|].
    cbn [mbind option_bind]. rewrite (list_items_mono h1 h2 v1 xs), Hy by (done || apply Hg2).
    cbn [mbind option_bind].
    destruct (alloc_reads room Hroom Hfresh (PList (xs ++ ys)) h2) as (h3 & u & -> & Hg3 & Hu);
      [destruct Hg1, Hg2; lia|].
    exists h3, u. split; [done|]. split.
    { eapply grows_le; [eapply grows_trans; [exact Hg1|eapply grows_trans; done]|lia]. }
    eapply means_list; [done|]. apply Forall2_app.
    + apply (means_all_mono room names structural h1 h3 n); [|lia|done]. etransitivity; [apply Hg2|apply Hg3].
    + apply (means_all_mono room names structural h2 h3 n); [apply Hg3|lia|done].
  - exists h1, u. split; [done|]. split; [eapply grows_le; [done|lia]|done].
Qed.

(** C8. The operators [==] and [!=] of the virtual machine compare the data two values stand for.
    Numbers go by value; strings, bytes, structs, enums, tuples, sets and lists by their parts,
    so that a small and a boxed integer, or a vector and a packed list in either layout, cannot
    be told apart; a map goes by the text of its keys (so a key 1 is a key of the string 1) and
    the values under them; an instance of a class without an equality of its own by identity;
    an extern value by its contract; a module, a function or a method by name; and a closure, a
    cell or a future equals nothing. The flag of a shape follows its type's name, as the
    compiler sets it. They answer with fuel for the depth of the left value and room for the
    lists they materialize, and leave the heap as it was. *)
Theorem equality_compares_data display_into fuel h n a b v w :
  means h n a v -> means h n b w -> depth a <= fuel ->
  size h + 2 * n * fuel <= room ->
  apply_binary names display_into fuel Ir.Eq v w h = Some (h, inr (bool_value (data_eqb a b))) /\
  apply_binary names display_into fuel Ir.Ne v w h = Some (h, inr (bool_value (negb (data_eqb a b)))).
Proof using Hfresh Hroom.
  intros. cbn [apply_binary]. by rewrite (values_equal_means fuel h n a b) by done.
Qed.

(** The operator [~] on two lists, whatever their representations, answers a list of the
    elements of the first followed by those of the second, and changes no value that was
    there. *)
Theorem concatenation_appends display_into fuel h n l k v w :
  means h n (VList l) v -> means h n (VList k) w -> size h + 2 * n + 1 <= room ->
  exists h' u, apply_binary names display_into fuel Ir.Concat v w h = Some (h', inr u) /\
    h ⊆ h' /\ size h' <= size h + (2 * n + 1) /\ means h' (2 * n) (VList (l ++ k)) u.
Proof using Hfresh Hroom.
  intros Hl Hk Hr. cbn [apply_binary].
  destruct (concatenate_means display_into h n l k v w Hl Hk Hr) as (h' & u & E & [Hs Hz] & Hu).
  by exists h', u.
Qed.
End Equality.

(** ** Witnesses: a packed list of 32-bit floats and the same two floats in a vector *)

#[local] Existing Instances Sample.externs Sample.allocator.
Module TwoLists.
Definition schema : PackedSchema := mkSchema None [KF32] 4 true.
Definition one : Z := 0x3f800000.
Definition half : Z := 0x3f000000.
Definition packed : Value := pointer_word 0.
Definition boxed : Value := pointer_word 1.
Definition start : Heap :=
  <[0%Z := PPackedList schema []]> {[1%Z := PList [f32_value one; f32_value half]]}.
Definition first : Heap := Sample.after (packed_push start packed (f32_value one)).
Definition heap : Heap := Sample.after (packed_push first packed (f32_value half)).

Lemma wf_floats : wf_schema schema /\ sized schema.
Proof. by split; [|split; [|cbn; lia]]. Qed.
Lemma reads_f32 h f : as_f32 (f32_value f) = Some f -> is_small_int (f32_value f) = false ->
  reads h (DF32 f) (f32_value f).
Proof. by split. Qed.
Lemma holds_heap : holds 16 schema heap packed [DF32 one; DF32 half].
Proof.
  destruct wf_floats as [Hwf Hs].
  assert (H0 : holds 16 schema start packed []) by by (exists []; split; [|constructor]).
  destruct (push_ok 16 Sample.allocator_room Sample.allocator_fresh _ Hwf Hs _ _ (f32_value one) [] (DF32 one)
    H0 ltac:(done) (reads_f32 _ one eq_refl eq_refl)) as (h1 & E1 & H1 & _).
  assert (first = h1) as <- by (unfold first; by rewrite E1).
  destruct (push_ok 16 Sample.allocator_room Sample.allocator_fresh _ Hwf Hs _ _ (f32_value half) _ (DF32 half)
    H1 ltac:(done) (reads_f32 _ half eq_refl eq_refl)) as (h2 & E2 & H2 & _).
  assert (heap = h2) as <- by (unfold heap; by rewrite E2). exact H2.
Qed.
Lemma means_packed_list : means 16 (λ _, None) (λ _, true) heap 3 (VList [VF32 one; VF32 half]) packed.
Proof.
  destruct wf_floats as [Hwf Hs].
  exact (means_packed 16 _ _ heap 3 schema [DF32 one; DF32 half] packed Hwf Hs eq_refl holds_heap (le_n 3)).
Qed.
Lemma means_boxed_list : means 16 (λ _, None) (λ _, true) heap 3 (VList [VF32 one; VF32 half]) boxed.
Proof.
  apply (means_list 16 _ _ heap 3 _ [f32_value one; f32_value half]); [by vm_compute|].
  repeat constructor.
Qed.
End TwoLists.

Lemma equality_compares_data_witness :
  apply_binary (λ _, None) (λ _ _, EmptyString) 2 Ir.Eq TwoLists.packed TwoLists.boxed TwoLists.heap =
    Some (TwoLists.heap, inr (bool_value true)).
Proof.
  exact (proj1 (equality_compares_data 16 Sample.allocator_room Sample.allocator_fresh (λ _, None) (λ _, true)
    (λ _ _, EmptyString) 2 TwoLists.heap 3 _ _ _ _ TwoLists.means_packed_list
    TwoLists.means_boxed_list ltac:(by vm_compute; repeat constructor)
    ltac:(by vm_compute; repeat constructor))).
Defined.
Lemma concatenation_appends_witness :
  exists h' u, apply_binary (λ _, None) (λ _ _, EmptyString) 1 Ir.Concat TwoLists.packed
      TwoLists.boxed TwoLists.heap = Some (h', inr u) /\
    means 16 (λ _, None) (λ _, true) h' 6 (VList [VF32 TwoLists.one; VF32 TwoLists.half; VF32 TwoLists.one;
      VF32 TwoLists.half]) u.
Proof.
  destruct (concatenation_appends 16 Sample.allocator_room Sample.allocator_fresh (λ _, None) (λ _, true)
    (λ _ _, EmptyString) 1 TwoLists.heap 3 _ _ _ _ TwoLists.means_packed_list
    TwoLists.means_boxed_list ltac:(by vm_compute; repeat constructor)) as (h' & u & E & _ & _ & Hu).
  exists h', u. split; [exact E|exact Hu].
Defined.

(** Equality of maps goes by the text of the keys: a map under 1 equals a map under the string
    that prints alike, which is another key. *)
Example maps_compare_by_the_text_of_keys :
  let h : Heap := <[0%Z := PMap [(KeyInt 1, unit_value)]]>
    {[1%Z := PMap [(KeyStr "1", unit_value)]]} in
  values_equal (λ _, None) 2 h (pointer_word 0) (pointer_word 1) = Some true /\
  key_eqb (KeyInt 1) (KeyStr "1") = false.
Proof. split; vm_compute; reflexivity. Qed.

(** The order of numbers is not transitive across integers and floats: both integers compare
    equal to the float between them. *)
Example mixed_order_is_not_transitive :
  let n := (2 ^ 53)%Z in
  let h : Heap := <[0%Z := PInt n]> {[1%Z := PInt (n + 1)]} in
  let f := float_value (int_to_float F64 n) in
  compare_primitive 1 h (pointer_word 0) f = Some (Some Eq) /\
  compare_primitive 1 h f (pointer_word 1) = Some (Some Eq) /\
  compare_primitive 1 h (pointer_word 0) (pointer_word 1) = Some (Some Lt).
Proof. repeat split; vm_compute; reflexivity. Qed.
