(* ===== verification/MapKeysProps.v ===== *)
(** Maps by key: the orders of keys, and a finite map whatever its iteration order, seen in one
    fixed order. *)
From Stdlib Require Import Strings.String.
From S2P Require Bytecode.
From S2P Require Import Prelude Words Shapes Values Orders Hints MapKeys.
From stdpp Require Import sorting options.
Open Scope Z_scope.
Open Scope list_scope.

(** The mixed cases of a comparison by kind. *)
Ltac by_kinds :=
  cbn; try done; unfold chained;
  repeat match goal with |- context [match ?c with Lt => _ | _ => _ end] => destruct c end;
  try done; split; intuition congruence.
Ltac mixed :=
  cbn; unfold chained; (split; [intros; congruence|intros [?|?]; congruence]).

Lemma string_compare_eq s t : String.compare s t = Eq <-> s = t.
Proof.
  split; [apply (cmp_eq (cmp := String.compare))|]. intros ->. apply (cmp_refl String.compare).
Qed.
Lemma slices_eqb_spec {A} (eqb : A -> A -> bool) l :
  Forall (λ x, forall y, eqb x y = true <-> x = y) l -> forall k, slices_eqb eqb l k = true <-> l = k.
Proof.
  induction 1 as [|x l Hx _ IH]; intros [|y k]; cbn; try done.
  rewrite andb_true_iff, Hx, IH. split; [by intros [-> ->]|by intros [= -> ->]].
Qed.
Lemma field_eqb_spec a b : field_eqb a b = true <-> a = b.
Proof.
  revert b. induction a as [x|x|n fs IH]; intros [y|y|m gs]; cbn; try done.
  - rewrite Z.eqb_eq. split; [by intros ->|by intros [= ->]].
  - rewrite eqb_true_iff. split; [by intros ->|by intros [= ->]].
  - apply list_all_Forall in IH.
    rewrite andb_true_iff, bool_decide_eq_true, slices_eqb_spec by done.
    split; [by intros [-> ->]|by intros [= -> ->]].
Qed.

(** ** The derived order of packed fields *)

Lemma field_cmp_flips a : flips field_cmp a.
Proof.
  induction a as [x|x|n fs IH]; intros [y|y|m gs]; cbn [field_cmp]; try done.
  - apply Z.compare_antisym.
  - apply (cmp_flip (cmp := bool_cmp)).
  - apply list_all_Forall in IH.
    by rewrite then_flip, <- (cmp_flip (cmp := String.compare)), <- (slice_flips field_cmp fs IH).
Qed.
Lemma field_cmp_chains a : chains field_cmp a.
Proof.
  induction a as [x|x|n fs IH]; intros [y|y|m gs] [z|z|o hs]; cbn [field_cmp];
    try apply (cmp_chain (cmp := Z.compare)); try apply (cmp_chain (cmp := bool_cmp)); try by mixed.
  apply list_all_Forall in IH. apply then_chained; [apply cmp_chain|by apply slice_chains].
Qed.
#[export] Instance field_cmp_total : TotalCmp field_cmp.
Proof. split; [intros; by apply field_cmp_flips|intros; by apply field_cmp_chains]. Qed.
#[export] Instance field_cmp_strict : StrictCmp field_cmp.
Proof.
  assert (H : forall a, Orders.strict field_cmp a).
  { induction a as [x|x|n fs IH]; intros [y|y|m gs]; cbn [field_cmp]; try done.
    - by intros ->%Z.compare_eq_iff.
    - intros E. f_equal. by apply (cmp_eq (cmp := bool_cmp)).
    - apply list_all_Forall in IH. intros [E1 E2]%then_eq. f_equal.
      + by apply (cmp_eq (cmp := String.compare)).
      + by apply (slice_strict field_cmp fs IH). }
  intros x y. apply H.
Qed.

(** ** The observed order of packed fields *)

(** The walk over two field lists, by name. *)
Definition fields_order (slots : list (nat * RenderHint)) :
    nat -> list PackedKeyField -> list PackedKeyField -> comparison :=
  fix fields_order (i : nat) (p q : list PackedKeyField) : comparison :=
    match p, q with
    | [], [] => Eq
    | [], _ :: _ => Lt
    | _ :: _, [] => Gt
    | x :: p, y :: q =>
        then_with (field_order (hint_slot (HSlots slots) i) x y) (fields_order (S i) p q)
    end.
Lemma field_order_slots slots n fs m gs :
  field_order (Some (HSlots slots)) (FStruct n fs) (FStruct m gs) =
    then_with (String.compare n m) (fields_order slots 0 fs gs).
Proof. done. Qed.
Lemma field_order_plain hint a b :
  match hint, a, b with
  | Some HUnsigned, FInt _, FInt _ | Some (HSlots _), FStruct _ _, FStruct _ _ => True
  | _, _, _ => field_order hint a b = field_cmp a b
  end.
Proof. destruct hint as [[]|], a, b; done. Qed.

Lemma field_order_flips a : forall hint, flips (field_order hint) a.
Proof.
  induction a as [x|x|n fs IH]; intros hint [y|y|m gs];
    try (destruct hint as [[]|]; (apply field_cmp_flips || apply (cmp_flip (cmp := Z.compare)))).
  destruct hint as [[]|]; try apply field_cmp_flips. rewrite !field_order_slots, then_flip.
  rewrite <- (cmp_flip (cmp := String.compare)). f_equal. apply list_all_Forall in IH.
  generalize 0%nat. revert gs. induction IH as [|a fs Ha _ IH]; intros [|b gs] i; try done.
  cbn [fields_order]. by rewrite then_flip, IH, (Ha _ b).
Qed.
Lemma field_order_chains a : forall hint, chains (field_order hint) a.
Proof.
  induction a as [x|x|n fs IH]; intros hint [y|y|m gs] [z|z|o hs]; 
    try (destruct hint as [[]|]; (apply field_cmp_chains || apply (cmp_chain (cmp := Z.compare)) || by mixed)).
  destruct hint as [[]|]; try apply field_cmp_chains. rewrite !field_order_slots.
  apply then_chained; [apply cmp_chain|]. apply list_all_Forall in IH.
  generalize 0%nat. revert gs hs.
  induction IH as [|a fs Ha _ IH]; intros [|b gs] [|c hs] i; cbn [fields_order];
    try (apply then_chained; [apply Ha|apply IH]); unfold chained;
    repeat destruct (then_with _ _); clear; split; intuition congruence.
Qed.
#[export] Instance field_order_total hint : TotalCmp (field_order hint).
Proof. split; [intros; by apply field_order_flips|intros; by apply field_order_chains]. Qed.

(** Every integer below is a 64-bit word. *)
Fixpoint field_words (f : PackedKeyField) : bool :=
  match f with
  | FInt i => (- 2 ^ 63 <=? i) && (i <? 2 ^ 63)
  | FBool _ => true
  | FStruct _ fs => forallb field_words fs
  end.
Lemma unsigned_order_eq a b : is_i64 a -> is_i64 b -> unsigned_order a b = Eq -> a = b.
Proof.
  unfold unsigned_order. intros Ha Hb E%Z.compare_eq_iff.
  by rewrite <- (as_i64_id a), <- (as_i64_id b), <- (as_i64_as_u64 a), <- (as_i64_as_u64 b), E.
Qed.
Lemma field_order_eq a : forall hint b,
  field_words a = true -> field_words b = true -> field_order hint a b = Eq -> a = b.
Proof.
  induction a as [x|x|n fs IH]; intros hint [y|y|m gs] Ha Hb;
    try (destruct hint as [[]|]; (apply (cmp_eq (cmp := field_cmp)) || done)).
  - destruct hint as [[]|]; try apply (cmp_eq (cmp := field_cmp)). cbn in Ha, Hb. bool_to_prop.
    intros E. f_equal. apply unsigned_order_eq; [unfold is_i64; lia..|done].
  - destruct hint as [[]|]; try apply (cmp_eq (cmp := field_cmp)). rewrite field_order_slots.
    intros [E1 E2]%then_eq. apply (cmp_eq (cmp := String.compare)) in E1 as <-. f_equal.
    apply list_all_Forall in IH. cbn in Ha, Hb. revert E2. generalize 0%nat. revert gs Hb Ha.
    induction IH as [|a fs Hfa _ IHfs]; intros [|b gs] Hb Ha i; try done.
    cbn in Ha, Hb. bool_to_prop. cbn [fields_order]. intros [E1 E2]%then_eq. f_equal.
    + by eapply Hfa.
    + by eapply IHfs.
Qed.

(** ** Keys *)

(** What an extern type that may be a key promises: a total order over its kind, and an
    equality that agrees with it and refuses another kind. *)
Class LawfulExterns `{ExternType} : Prop := {
  extern_flip a b : type_identity a = type_identity b ->
    default Eq (cmp_value b a) = CompOpp (default Eq (cmp_value a b));
  extern_chain a b c : type_identity a = type_identity b -> type_identity b = type_identity c ->
    chained (default Eq (cmp_value a b)) (default Eq (cmp_value b c)) (default Eq (cmp_value a c));
  extern_eq a b : eq_value a b = true <->
    type_identity a = type_identity b /\ default Eq (cmp_value a b) = Eq;
}.

Section Keys.
Context `{Hlaw : LawfulExterns}.

Definition extern_cmp (a b : ExternBox) : comparison :=
  then_with (String.compare (type_identity a) (type_identity b)) (default Eq (cmp_value a b)).
#[local] Instance extern_cmp_total : TotalCmp extern_cmp.
Proof using Hlaw.
  unfold extern_cmp. split.
  - intros x y. rewrite then_flip, <- (cmp_flip (cmp := String.compare)).
    destruct (String.compare (type_identity y) (type_identity x)) eqn:E; try done.
    apply (cmp_eq (cmp := String.compare)) in E. cbn [then_with]. by apply extern_flip.
  - intros x y z. pose proof (cmp_chain (cmp := String.compare) (type_identity x) (type_identity y)
      (type_identity z)) as Hc.
    destruct (String.compare (type_identity x) (type_identity y)) eqn:E1,
      (String.compare (type_identity y) (type_identity z)) eqn:E2.
    { apply (cmp_eq (cmp := String.compare)) in E1, E2. rewrite E1, E2.
      rewrite (cmp_refl String.compare). cbn [then_with]. by apply extern_chain. }
    all: revert Hc; destruct (String.compare (type_identity x) (type_identity z)); cbn [then_with];
      unfold chained; repeat destruct (default Eq _); clear; intuition congruence.
Qed.

#[export] Instance key_cmp_total : TotalCmp key_cmp.
Proof using Hlaw.
  split.
  - intros [s|i|e|n fs] [t|j|f|m gs]; try done; cbn [key_cmp].
    + apply (cmp_flip (cmp := String.compare)).
    + apply Z.compare_antisym.
    + apply (cmp_flip (cmp := extern_cmp)).
    + rewrite then_flip. f_equal; [apply (cmp_flip (cmp := String.compare))|].
      apply (cmp_flip (cmp := slice_cmp field_cmp)).
  - intros [s|i|e|n fs] [t|j|f|m gs] [u|k|g|o hs]; cbn [key_cmp rank];
      try apply (cmp_chain (cmp := String.compare)); try apply (cmp_chain (cmp := Z.compare));
      try apply (cmp_chain (cmp := extern_cmp)); try by mixed.
    apply then_chained; [apply cmp_chain|apply (cmp_chain (cmp := slice_cmp field_cmp))].
Qed.
Lemma key_cmp_eq x y : key_cmp x y = Eq <-> key_eqb x y = true.
Proof using Hlaw.
  destruct x as [s|i|e|n fs], y as [t|j|f|m gs]; cbn [key_cmp key_eqb]; try done.
  - rewrite bool_decide_eq_true. apply string_compare_eq.
  - by rewrite Z.compare_eq_iff, Z.eqb_eq.
  - rewrite then_eq, extern_eq. by rewrite (string_compare_eq (type_identity e)).
  - rewrite then_eq, andb_true_iff, bool_decide_eq_true, (string_compare_eq n).
    rewrite slices_eqb_spec by (apply Forall_forall; intros; by apply field_eqb_spec).
    split; intros [-> E]; (split; [done|]).
    + by apply (cmp_eq (cmp := slice_cmp field_cmp)).
    + rewrite E. apply (cmp_refl (slice_cmp field_cmp)).
Qed.

(** The identity of keys is an equivalence. *)
Lemma key_eqb_refl x : key_eqb x x = true.
Proof using Hlaw. apply key_cmp_eq, (cmp_refl key_cmp). Qed.
Lemma key_eqb_sym x y : key_eqb x y = key_eqb y x.
Proof using Hlaw.
  apply eq_bool_prop_intro. rewrite !Is_true_true, <- !key_cmp_eq.
  split; apply (cmp_eq_sym key_cmp).
Qed.
Lemma key_eqb_left x y z : key_eqb x y = true -> key_eqb x z = key_eqb y z.
Proof using Hlaw.
  intros E%key_cmp_eq. apply eq_bool_prop_intro. rewrite !Is_true_true, <- !key_cmp_eq.
  by rewrite (cmp_eq_l key_cmp x y z E).
Qed.

(** ** The order a program sees *)

Lemma map_key_order_cases hint x y :
  map_key_order x y hint =
    match hint, x, y with
    | Some HUnsigned, KeyInt _, KeyInt _ | Some (HSlots _), KeyPacked _ _, KeyPacked _ _ =>
        map_key_order x y hint
    | _, _, _ => key_cmp x y
    end.
Proof. by destruct hint as [[]|], x, y. Qed.
#[export] Instance map_key_order_total hint : TotalCmp (λ x y, map_key_order x y hint).
Proof using Hlaw.
  split.
  - intros x y. destruct hint as [[]|]; try apply (cmp_flip (cmp := key_cmp)).
    + destruct x, y; try apply (cmp_flip (cmp := key_cmp)). apply (cmp_flip (cmp := Z.compare)).
    + destruct x, y; try apply (cmp_flip (cmp := key_cmp)).
      apply (cmp_flip (cmp := field_order _)).
  - intros x y z. destruct hint as [[]|]; try apply (cmp_chain (cmp := key_cmp)).
    + destruct x, y, z; try apply (cmp_chain (cmp := key_cmp)); try by mixed.
      apply (cmp_chain (cmp := Z.compare)).
    + destruct x, y, z; try apply (cmp_chain (cmp := key_cmp)); try by mixed.
      apply (cmp_chain (cmp := field_order _)).
Qed.
Definition key_words (k : MapKey) : bool :=
  match k with
  | KeyInt i => (- 2 ^ 63 <=? i) && (i <? 2 ^ 63)
  | KeyPacked n fs => field_words (FStruct n fs)
  | _ => true
  end.
Lemma map_key_order_eq hint x y :
  key_words x = true -> key_words y = true ->
  map_key_order x y hint = Eq <-> key_eqb x y = true.
Proof using Hlaw.
  intros Hx Hy. rewrite <- key_cmp_eq. split.
  - rewrite map_key_order_cases. destruct hint as [[]|]; try done; destruct x, y; try done.
    + cbn in Hx, Hy. bool_to_prop. cbn [map_key_order]. intros E%unsigned_order_eq; [|unfold is_i64; lia..].
      subst. apply Z.compare_refl.
    + intros E%field_order_eq; [|done..]. simplify_eq. apply (cmp_refl key_cmp).
  - intros E. pose proof E as E2%key_cmp_eq.
    destruct x, y; try done; try (destruct hint as [[]|]; done).
    + cbn in E2. apply Z.eqb_eq in E2 as ->. apply (cmp_refl (λ x y, map_key_order x y hint)).
    + cbn in E2. apply andb_true_iff in E2 as [->%bool_decide_eq_true E2].
      apply slices_eqb_spec in E2 as ->; [|apply Forall_forall; intros; by apply field_eqb_spec].
      apply (cmp_refl (λ x y, map_key_order x y hint)).
Qed.
End Keys.

Section Entries.
Context `{Hlaw : LawfulExterns, Allocator}.

(** No key twice. *)
Fixpoint distinct (entries : Entries) : Prop :=
  match entries with
  | [] => True
  | (k, _) :: entries => Forall (λ e, key_eqb k e.1 = false) entries /\ distinct entries
  end.

(** ** Lookup, insertion and removal *)

Lemma get_key_absent entries k :
  Forall (λ e, key_eqb k e.1 = false) entries -> get_key entries k = None.
Proof using Hlaw.
  induction 1 as [|[k' v] entries Hk _ IH]; [done|]. cbn in *. by rewrite key_eqb_sym, Hk.
Qed.
Lemma key_eqb_absent k k' (entries : Entries) :
  key_eqb k k' = true ->
  Forall (λ e, key_eqb k e.1 = false) entries -> Forall (λ e, key_eqb k' e.1 = false) entries.
Proof using Hlaw.
  intros E Hk. eapply Forall_impl; [exact Hk|]. intros e He. by rewrite <- (key_eqb_left k k').
Qed.
Lemma get_insert_key entries k v k' :
  get_key (insert_key entries k v) k' = if key_eqb k k' then Some v else get_key entries k'.
Proof using Hlaw.
  induction entries as [|[k0 v0] entries IH]; cbn; [done|].
  destruct (key_eqb k0 k) eqn:E; cbn; [by rewrite (key_eqb_left k0 k) by done; destruct (key_eqb k k')|].
  rewrite IH. destruct (key_eqb k0 k') eqn:E1, (key_eqb k k') eqn:E2; try done.
  rewrite key_eqb_sym in E2. rewrite <- (key_eqb_left k0 k') in E2 by done. congruence.
Qed.
Lemma get_remove_key entries k k' :
  distinct entries ->
  get_key (remove_key entries k) k' = if key_eqb k k' then None else get_key entries k'.
Proof using Hlaw.
  induction entries as [|[k0 v0] entries IH]; cbn; [by destruct (key_eqb k k')|]. intros [Hk Hd].
  destruct (key_eqb k0 k) eqn:E; cbn.
  - rewrite (key_eqb_left k0 k) by done. destruct (key_eqb k k') eqn:E2; [|done].
    apply get_key_absent. by apply (key_eqb_absent k); [|apply (key_eqb_absent k0)].
  - rewrite IH by done. destruct (key_eqb k0 k') eqn:E1, (key_eqb k k') eqn:E2; try done.
    rewrite key_eqb_sym in E2. rewrite <- (key_eqb_left k0 k') in E2 by done. congruence.
Qed.
Lemma absent_insert k0 entries k v :
  key_eqb k0 k = false -> Forall (λ e, key_eqb k0 e.1 = false) entries ->
  Forall (λ e, key_eqb k0 e.1 = false) (insert_key entries k v).
Proof using.
  intros Hk. induction 1 as [|[k1 v1] entries Hk1 Hr IH]; cbn; [by constructor|].
  by destruct (key_eqb k1 k); constructor.
Qed.
Lemma distinct_insert entries k v : distinct entries -> distinct (insert_key entries k v).
Proof using.
  induction entries as [|[k0 v0] entries IH]; cbn; [done|]. intros [Hk Hd].
  destruct (key_eqb k0 k) eqn:E; cbn; [done|]. split; [by apply absent_insert|by apply IH].
Qed.
Lemma distinct_remove entries k : distinct entries -> distinct (remove_key entries k).
Proof using.
  induction entries as [|[k0 v0] entries IH]; cbn; [done|]. intros [Hk Hd].
  destruct (key_eqb k0 k); [done|]. split; [|by apply IH]. clear IH Hd.
  induction Hk as [|[k1 v1] entries Hk1 Hk IH]; cbn; [done|]. by destruct (key_eqb k1 k); [|constructor].
Qed.

(** ** Entries in order *)

Definition entry_le (a b : MapKey * Value) : Prop := key_cmp a.1 b.1 <> Gt.
Lemma entry_le_trans a b c : entry_le a b -> entry_le b c -> entry_le a c.
Proof using Hlaw.
  unfold entry_le. intros Hab Hbc.
  destruct (key_cmp a.1 b.1) eqn:E1; [|destruct (key_cmp b.1 c.1) eqn:E2|]; try done.
  - by rewrite (cmp_eq_l key_cmp _ _ _ E1).
  - by rewrite <- (cmp_eq_r key_cmp _ _ a.1 E2), E1.
  - by rewrite (cmp_trans key_cmp _ _ _ Lt E1 E2).
Qed.
Lemma sorted_insert_perm e l : sorted_insert e l ≡ₚ e :: l.
Proof using.
  induction l as [|e' l IH]; cbn; [done|]. destruct (key_cmp e.1 e'.1); try done.
  rewrite IH. constructor.
Qed.
Lemma sort_entries_perm l : sort_entries l ≡ₚ l.
Proof using.
  induction l as [|e l IH]; [done|]. cbn. rewrite sorted_insert_perm. by constructor.
Qed.
Lemma sorted_insert_sorted e l :
  StronglySorted entry_le l -> StronglySorted entry_le (sorted_insert e l).
Proof using Hlaw.
  induction 1 as [|e' l Hl IH Hle]; cbn; [repeat constructor|].
  destruct (key_cmp e.1 e'.1) eqn:E.
  1,2: constructor; [by constructor|]; constructor; [by unfold entry_le; rewrite E|];
    eapply Forall_impl; [exact Hle|]; intros e2; apply entry_le_trans; unfold entry_le; by rewrite E.
  constructor; [done|]. rewrite sorted_insert_perm. constructor; [|done].
  unfold entry_le. by rewrite (cmp_flip (cmp := key_cmp)), E.
Qed.
Lemma sort_entries_sorted l : StronglySorted entry_le (sort_entries l).
Proof using Hlaw. induction l as [|e l IH]; [constructor|]. by apply sorted_insert_sorted. Qed.

Lemma distinct_same l a b :
  distinct l -> a ∈ l -> b ∈ l -> key_eqb a.1 b.1 = true -> a = b.
Proof using Hlaw.
  induction l as [|[k v] l IH]; cbn; [by intros _ ?%not_elem_of_nil|]. intros [Hk Hd].
  rewrite Forall_forall in Hk. rewrite !elem_of_cons.
  intros [->|Ha] [->|Hb]; cbn; intros E; try done; [..|by apply IH].
  - by rewrite (Hk b) in E.
  - by rewrite key_eqb_sym, (Hk a) in E.
Qed.
(** The order of the sorted entries does not depend on the order of iteration. *)
Lemma sort_entries_unique l k : distinct l -> l ≡ₚ k -> sort_entries l = sort_entries k.
Proof using Hlaw.
  intros Hd Hp. apply (StronglySorted_unique_strong entry_le); try apply sort_entries_sorted.
  - intros a b Ha Hb Hab Hba. rewrite sort_entries_perm in Ha, Hb. rewrite <- Hp in Hb.
    apply (distinct_same l); [done..|]. apply key_cmp_eq. unfold entry_le in *.
    rewrite (cmp_flip (cmp := key_cmp) a.1) in Hba. by destruct (key_cmp a.1 b.1).
  - by rewrite !sort_entries_perm.
Qed.
Lemma sort_entries_distinct l : distinct l ->
  StronglySorted (λ a b, key_cmp a.1 b.1 = Lt) (sort_entries l).
Proof using Hlaw.
  intros Hd. pose proof (sort_entries_sorted l) as Hs.
  assert (Hin : forall e, e ∈ sort_entries l -> e ∈ l) by (intros e; by rewrite sort_entries_perm).
  assert (Hnd : NoDup (sort_entries l)).
  { rewrite sort_entries_perm. clear Hs Hin. induction l as [|[k v] l IH]; [constructor|].
    cbn in Hd. destruct Hd as [Hk Hd]. constructor; [|by apply IH]. intros Hi.
    rewrite Forall_forall in Hk. specialize (Hk _ Hi). cbn in Hk. by rewrite key_eqb_refl in Hk. }
  induction Hs as [|a s Hs IH Ha]; [constructor|]. apply NoDup_cons in Hnd as [Hna Hnd].
  constructor; [apply IH; [|done]; intros e He; apply Hin; by right|].
  rewrite Forall_forall in Ha |- *. intros b Hb. specialize (Ha b Hb). unfold entry_le in Ha.
  destruct (key_cmp a.1 b.1) eqn:E; try done. apply key_cmp_eq in E.
  apply (distinct_same l) in E as ->; [done|done|apply Hin; by left|apply Hin; by right].
Qed.
End Entries.

(** ** Properties *)

Section Properties.
Context `{Hlaw : LawfulExterns, Allocator}.

(** C40. The order of map keys a program sees is total under every render hint, and so is the
    order that places keys; both call two keys equal exactly when a lookup does, the observed
    one on keys whose integers are 64-bit words. *)
Theorem key_orders_agree_with_lookup hint x y z :
  let seen a b := map_key_order a b hint in
  (seen y x = CompOpp (seen x y) /\ forall c, seen x y = c -> seen y z = c -> seen x z = c) /\
  (key_cmp y x = CompOpp (key_cmp x y) /\
   forall c, key_cmp x y = c -> key_cmp y z = c -> key_cmp x z = c) /\
  (key_cmp x y = Eq <-> key_eqb x y = true) /\
  (key_words x = true -> key_words y = true -> seen x y = Eq <-> key_eqb x y = true).
Proof using Hlaw.
  intros seen. split; [|split; [|split]].
  - split; [apply (cmp_flip (cmp := seen))|intros c; apply (cmp_trans seen)].
  - split; [apply (cmp_flip (cmp := key_cmp))|intros c; apply (cmp_trans key_cmp)].
  - apply key_cmp_eq.
  - intros. by apply map_key_order_eq.
Qed.

(** A heap that changed at one map only, whose keys stay distinct. *)
Definition map_updated (h h' : Heap) (m : Value) : Prop :=
  (exists entries, entries_of h' m = Some entries /\ distinct entries) /\
  forall v, Z.land v PTR_MASK <> Z.land m PTR_MASK -> payload h' v = payload h v.

Lemma map_set h m entries entries' :
  entries_of h m = Some entries -> distinct entries' ->
  let h' : Heap := <[Z.land m PTR_MASK := PMap entries']> h in
  map_updated h h' m /\ forall k, map_get_key h' m k = get_key entries' k.
Proof using.
  intros Hm Hd h'.
  assert (He : entries_of h' m = Some entries').
  { unfold entries_of, payload in *. destruct (is_pointer m); [|done]. unfold h'.
    by rewrite lookup_insert_eq. }
  split; [split; [by exists entries'|]|].
  - intros v Hv. unfold payload, h'. by rewrite lookup_insert_ne.
  - intros k. unfold map_get_key. by rewrite He.
Qed.

(** A map is a finite map from keys, up to their identity: insertion and removal hand back
    the value that was under the key, later lookups answer the new value, none, or what was
    there under another key, no key is ever held twice, and nothing else of the heap
    changes. *)
Theorem map_updates_are_pointwise h m entries k v :
  entries_of h m = Some entries -> distinct entries ->
  (exists h', map_insert h m k v = (h', map_get_key h m k) /\ map_updated h h' m /\
     forall k', map_get_key h' m k' = if key_eqb k k' then Some v else map_get_key h m k') /\
  (exists h', map_remove_key h m k = (h', map_get_key h m k) /\ map_updated h h' m /\
     forall k', map_get_key h' m k' = if key_eqb k k' then None else map_get_key h m k').
Proof using Hlaw.
  intros Hm Hd. unfold map_insert, map_remove_key.
  assert (Hget : forall k', map_get_key h m k' = get_key entries k')
    by (intros; unfold map_get_key; by rewrite Hm).
  rewrite Hm, Hget. split.
  - destruct (map_set h m entries _ Hm (distinct_insert entries k v Hd)) as [Hu Hg].
    eexists. split; [done|]. split; [done|]. intros k'. by rewrite Hg, Hget, get_insert_key.
  - destruct (map_set h m entries _ Hm (distinct_remove entries k Hd)) as [Hu Hg].
    eexists. split; [done|]. split; [done|]. intros k'. by rewrite Hg, Hget, get_remove_key.
Qed.

(** The entries of a map come in strictly ascending key order, all of them, and the same
    whatever order the hash map iterates in. *)
Theorem map_entries_ignore_iteration_order h m h2 m2 entries entries2 :
  entries_of h m = Some entries -> entries_of h2 m2 = Some entries2 ->
  distinct entries -> entries ≡ₚ entries2 ->
  map_entries_keyed h m = map_entries_keyed h2 m2 /\
  exists sorted, map_entries_keyed h m = Some sorted /\ sorted ≡ₚ entries /\
    StronglySorted (λ a b, key_cmp a.1 b.1 = Lt) sorted.
Proof using Hlaw.
  intros Hm Hm2 Hd Hp. unfold map_entries_keyed. rewrite Hm, Hm2. cbn.
  split; [by rewrite (sort_entries_unique entries entries2)|].
  exists (sort_entries entries). split; [done|].
  split; [apply sort_entries_perm|by apply sort_entries_distinct].
Qed.
End Properties.

(** ** Witnesses: numbers as extern keys *)

Module KeySample.
#[export] Instance externs : ExternType := {|
  ExternBox := Z;
  type_identity := λ _, "std.id.Number"%string;
  eq_value := Z.eqb;
  cmp_value := λ a b, Some (a ?= b);
  display_string := λ _, "number"%string;
|}.
#[export] Instance lawful : LawfulExterns.
Proof.
  split; cbn.
  - intros a b _. apply Z.compare_antisym.
  - intros a b c _ _. apply (cmp_chain (cmp := Z.compare)).
  - intros a b. rewrite Z.eqb_eq, Z.compare_eq_iff. tauto.
Qed.
#[export] Instance allocator : Allocator := λ _, None.
Definition entries : Entries :=
  [(KeyExtern 3, 10); (KeyStr "b", 20); (KeyInt (-1), 30); (KeyStr "a", 40)]%string.
Definition shuffled : Entries := rev entries.
Definition map_word : Value := pointer_word 0.
Definition heap (l : Entries) : Heap := {[0 := PMap l]}.
Lemma distinct_entries : distinct entries.
Proof. by repeat split; repeat constructor. Qed.
End KeySample.

#[local] Existing Instances KeySample.externs KeySample.lawful KeySample.allocator.
(** Under the hint, -1 is the largest 64-bit word. *)
Lemma key_orders_agree_with_lookup_witness :
  map_key_order (KeyInt (-1)) (KeyInt 1) (Some HUnsigned) = Gt /\
  (map_key_order (KeyInt (-1)) (KeyInt 1) (Some HUnsigned) = Eq <->
   key_eqb (KeyInt (-1)) (KeyInt 1) = true).
Proof.
  destruct (key_orders_agree_with_lookup (Some HUnsigned) (KeyInt (-1)) (KeyInt 1) (KeyInt 2))
    as (_ & _ & _ & Heq).
  split; [vm_compute; reflexivity|]. exact (Heq eq_refl eq_refl).
Defined.
Lemma map_updates_are_pointwise_witness :
  exists h', map_insert (KeySample.heap KeySample.entries) KeySample.map_word (KeyStr "b") 99 =
      (h', Some 20) /\
    map_get_key h' KeySample.map_word (KeyStr "b") = Some 99 /\
    map_get_key h' KeySample.map_word (KeyExtern 3) = Some 10.
Proof.
  destruct (map_updates_are_pointwise (KeySample.heap KeySample.entries) KeySample.map_word
    KeySample.entries (KeyStr "b") 99 eq_refl KeySample.distinct_entries)
    as [(h' & E & _ & Hget) _].
  exists h'. split; [exact E|]. split; [rewrite Hget|rewrite Hget]; vm_compute; reflexivity.
Defined.
Lemma map_entries_ignore_iteration_order_witness :
  map_entries_keyed (KeySample.heap KeySample.entries) KeySample.map_word =
    map_entries_keyed (KeySample.heap KeySample.shuffled) KeySample.map_word /\
  map_keys (KeySample.heap KeySample.shuffled) KeySample.map_word =
    Some [KeyInt (-1); KeyStr "a"; KeyStr "b"; KeyExtern 3]%string.
Proof.
  split; [|vm_compute; reflexivity].
  exact (proj1 (map_entries_ignore_iteration_order (KeySample.heap KeySample.entries)
    KeySample.map_word (KeySample.heap KeySample.shuffled) KeySample.map_word KeySample.entries
    KeySample.shuffled eq_refl eq_refl KeySample.distinct_entries
    (Permutation_rev KeySample.entries))).
Defined.
