(* ===== verification/Sets.v ===== *)
(** Sets: the canonical buffer and its updates ([crates/noeta-value/src/lib.rs]) and the set
    methods of the virtual machine ([crates/noeta-vm/src/values.rs], [methods.rs]).

    [None] is a panic, an allocation that fails or fuel that runs out.  Retains and releases
    are not modelled: whether a set is uniquely owned is an argument of the update. *)
From Stdlib Require Import Strings.String.
From S2P Require Ir.
From S2P Require Import Prelude Words Shapes Values Packed Orders Hints MapKeys ValueOps.
From stdpp Require Import pretty options.
Open Scope nat_scope.
Open Scope list_scope.

(** ** Errors ([crates/noeta-ext-abi/src/lib.rs]) *)

(** Of the kinds, those the methods of a set raise. *)
Inductive ErrorKind := Arity | ArgType.
Record StdError := mkStdError { error_kind : ErrorKind; message : string }.
Definition arity_error (method : string) (expected got : nat) : StdError :=
  mkStdError Arity
    ("method `" +:+ method +:+ "` takes " +:+ pretty expected +:+ " argument(s) but "
     +:+ pretty got +:+ " were supplied").
(** [type_error], for the one noun used here. *)
Definition set_type_error (method : string) : StdError :=
  mkStdError ArgType ("method `" +:+ method +:+ "` expects a set argument").
Definition unorderable_error (method : string) : StdError :=
  mkStdError ArgType
    ("method `" +:+ method +:+ "` requires values of a single orderable type (a primitive, or a "
     +:+ "value kind — struct/enum — ordering structurally)").

(** ** Slices *)

Section Slices.
Context {A : Type}.

(** [binary_search_by]: the interval is halved until one element is left. *)
Inductive Found := At (pos : nat) | Absent (pos : nat).
Fixpoint narrow (n : nat) (f : A -> option comparison) (items : list A) (base size : nat) :
    option nat :=
  match n with
  | O => None
  | S n =>
      if 1 <? size then
        let half := size / 2 in
        let mid := base + half in
        x ← items !! mid; c ← f x;
        narrow n f items (match c with Gt => base | _ => mid end) (size - half)
      else Some base
  end.
Definition binary_search_by (f : A -> option comparison) (items : list A) : option Found :=
  match items with
  | [] => Some (Absent 0)
  | _ =>
      base ← narrow (length items) f items 0 (length items);
      x ← items !! base; c ← f x;
      Some (match c with Eq => At base | Lt => Absent (base + 1) | Gt => Absent base end)
  end.

(** [sort_by], which is stable. *)
Fixpoint insert_by (cmp : A -> A -> option comparison) (x : A) (l : list A) : option (list A) :=
  match l with
  | [] => Some [x]
  | y :: l' =>
      c ← cmp x y;
      match c with
      | Gt => l' ← insert_by cmp x l'; Some (y :: l')
      | _ => Some (x :: l)
      end
  end.
Fixpoint sort_by (cmp : A -> A -> option comparison) (l : list A) : option (list A) :=
  match l with
  | [] => Some []
  | x :: l => l ← sort_by cmp l; insert_by cmp x l
  end.

(** [dedup_by]: an element is compared with the last one kept. *)
Fixpoint dedup_rest (same : A -> A -> option bool) (kept : A) (l : list A) : option (list A) :=
  match l with
  | [] => Some []
  | x :: l =>
      b ← same x kept;
      if b : bool then dedup_rest same kept l
      else rest ← dedup_rest same x l; Some (x :: rest)
  end.
Definition dedup_by (same : A -> A -> option bool) (l : list A) : option (list A) :=
  match l with
  | [] => Some []
  | x :: l => rest ← dedup_rest same x l; Some (x :: rest)
  end.

(** [any], [filter], over a predicate that may fail. *)
Fixpoint any_of (p : A -> option bool) (l : list A) : option bool :=
  match l with
  | [] => Some false
  | x :: l => b ← p x; if b : bool then Some true else any_of p l
  end.
Fixpoint filter_of (p : A -> option bool) (l : list A) : option (list A) :=
  match l with
  | [] => Some []
  | x :: l => b ← p x; rest ← filter_of p l; Some (if b : bool then x :: rest else rest)
  end.
End Slices.

Section Sets.
Context `{ExternType, Allocator}.
Context (names : string -> option (list string)) (display_into : Heap -> Value -> string).
Context (fuel : nat).

(** ** The canonical buffer *)

(** [set_order(..).unwrap_or(Ordering::Equal)] *)
Definition set_order_or_equal (h : Heap) (a b : Value) : option comparison :=
  o ← set_order fuel h a b; Some (default Eq o).
(** [canonical_set]. *)
Definition canonical_set (h : Heap) (items : list Value) : option (option (list Value)) :=
  match items with
  | [] => Some (Some [])
  | first :: _ =>
      refused ← any_of (λ item, o ← set_order fuel h first item;
                                 Some (match o with None => true | Some _ => false end)) items;
      if refused : bool then Some None
      else
        sorted ← sort_by (set_order_or_equal h) items;
        canonical ← dedup_by (λ a b, o ← set_order fuel h a b;
                                     Some (match o with Some Eq => true | _ => false end)) sorted;
        Some (Some canonical)
  end.

(** [set_len], [set_first]. *)
Definition set_len (h : Heap) (v : Value) : option nat := length <$> set_items h v.
Definition set_first (h : Heap) (v : Value) : option Value := set_items h v ≫= head.

Definition set_payload_items (h : Heap) (v : Value) (items : list Value) : Heap :=
  <[Z.land v PTR_MASK := PSet items]> h.
(** [set_insert_sorted]. *)
Definition set_insert_sorted (h : Heap) (set value : Value) : option (Heap * bool) :=
  match set_items h set with
  | None => Some (h, false)
  | Some items =>
      found ← binary_search_by (λ item, set_order_or_equal h item value) items;
      Some (match found with
            | At _ => (h, false)
            | Absent pos => (set_payload_items h set (take pos items ++ value :: drop pos items), true)
            end)
  end.
(** [set_remove_sorted]. *)
Definition set_remove_sorted (h : Heap) (set target : Value) : option (Heap * option Value) :=
  match set_items h set with
  | None => Some (h, None)
  | Some items =>
      found ← binary_search_by (λ item, set_order_or_equal h item target) items;
      match found with
      | At pos =>
          removed ← items !! pos;
          Some (set_payload_items h set (take pos items ++ drop (S pos) items), Some removed)
      | Absent _ => Some (h, None)
      end
  end.

(** ** Methods *)

(** [SetMethod], [SetMethod::from_name] ([crates/noeta-ext-abi/src/ring1.rs]). *)
Inductive SetMethod := Contains | Union | Intersection | Add | Remove.
Definition set_method_from_name (name : string) : option SetMethod :=
  if bool_decide (name = "contains")%string then Some Contains
  else if bool_decide (name = "union")%string then Some Union
  else if bool_decide (name = "intersection")%string then Some Intersection
  else if bool_decide (name = "add")%string then Some Add
  else if bool_decide (name = "remove")%string then Some Remove
  else None.

Definition MethodOutcome : Type := Heap * (StdError + Value).
Definition raise (e : StdError) (h : Heap) : option MethodOutcome := Some (h, inl e).
Definition new_set (items : list Value) (h : Heap) : option MethodOutcome :=
  '(h, v) ← alloc (PSet items) h; Some (h, inr v).
(** [apply_binary(BinaryOp::Eq, a, b).ok().and_then(..).unwrap_or(false)] *)
Definition eq_holds (h : Heap) (a b : Value) : option bool :=
  r ← apply_binary names display_into fuel Ir.Eq a b h;
  Some (match r with (_, inr v) => default false (as_bool v) | (_, inl _) => false end).

(** [stdlib_arity]: the arguments, if their number is right. *)
Definition one_argument (name : string) (args : list Value) : StdError + Value :=
  match args with [x] => inr x | _ => inl (arity_error name 1 (length args)) end.

(** [call_set_method]. *)
Definition call_set_method (set : Value) (method : SetMethod) (name : string) (args : list Value)
    (h : Heap) : option MethodOutcome :=
  items ← set_items h set;
  match one_argument name args with
  | inl e => raise e h
  | inr arg =>
      match method with
      | Contains => b ← any_of (λ item, eq_holds h item arg) items; Some (h, inr (bool_value b))
      | Union =>
          match set_items h arg with
          | None => raise (set_type_error name) h
          | Some other =>
              canonical ← canonical_set h (items ++ other);
              canonical ← canonical;
              new_set canonical h
          end
      | Intersection =>
          match set_items h arg with
          | None => raise (set_type_error name) h
          | Some other =>
              kept ← filter_of (λ item, any_of (λ o, eq_holds h item o) other) items;
              new_set kept h
          end
      | Add =>
          canonical ← canonical_set h (items ++ [arg]);
          match canonical with
          | Some canonical => new_set canonical h
          | None => raise (unorderable_error name) h
          end
      | Remove =>
          kept ← filter_of (λ item, b ← eq_holds h item arg; Some (negb b)) items;
          new_set kept h
      end
  end.

(** [set_update_in_place]; [unique] says that the reference count is 1. *)
Definition set_update_in_place (unique : bool) (set : Value) (method : SetMethod) (name : string)
    (args : list Value) (h : Heap) : option MethodOutcome :=
  if negb unique then call_set_method set method name args h
  else
    match one_argument name args with
    | inl e => raise e h
    | inr target =>
        orderable ← match set_first h set with
                    | None => Some true
                    | Some first =>
                        o ← set_order fuel h first target;
                        Some (match o with Some _ => true | None => false end)
                    end;
        match method with
        | Add =>
            if negb orderable then raise (unorderable_error name) h
            else '(h, _) ← set_insert_sorted h set target; Some (h, inr set)
        | Remove =>
            if orderable : bool then '(h, _) ← set_remove_sorted h set target; Some (h, inr set)
            else Some (h, inr set)
        | _ => None
        end
    end.
End Sets.
