(* ===== verification/SetsProps.v ===== *)
(** Sets: ascending lists and their bisection, canonical buffers, and updates in place that agree
    with copying. *)
From Stdlib Require Import Strings.String.
From S2P Require Ir.
From S2P Require Import Prelude Words Numbers NumbersFacts Shapes Values ValuesFacts Packed PackedLayout PackedCodec PackedProps Orders Hints MapKeys ValueOps ValueOpsFacts Sets.
From stdpp Require Import sorting options.
Open Scope nat_scope.
Open Scope list_scope.

Section Sorted.
Context {A : Type} (cmp : A -> A -> comparison) `{Hcmp : !TotalCmp cmp}.

Definition before (x y : A) : Prop := cmp x y = Lt.
(** Strictly ascending. *)
Abbreviation ascending := (StronglySorted before).
Definition le_b (t x : A) : bool := match cmp x t with Gt => false | _ => true end.

Lemma before_trans x y z : before x y -> before y z -> before x z.
Proof using Hcmp. apply (cmp_trans cmp x y z Lt). Qed.
Lemma ascending_lookup l i j x y :
  ascending l -> i < j -> l !! i = Some x -> l !! j = Some y -> before x y.
Proof using.
  intros Hl. revert i j. induction Hl as [|a l Hl IH Ha]; intros i j Hij; [done|].
  destruct j as [|j]; [lia|]. cbn. destruct i as [|i]; cbn.
  - intros [= ->] Hy. rewrite Forall_forall in Ha. apply Ha. by eapply list_elem_of_lookup_2.
  - apply IH. lia.
Qed.
Lemma before_le x y t : before x y -> cmp y t <> Gt -> cmp x t = Lt.
Proof using Hcmp.
  unfold before. intros Hxy Hyt. destruct (cmp y t) eqn:E; [|by eapply (cmp_trans cmp)|done].
  by rewrite <- (cmp_eq_r cmp y t x E).
Qed.
Lemma before_gt x y t : before x y -> cmp x t = Gt -> cmp y t = Gt.
Proof using Hcmp.
  unfold before. intros Hxy Hxt. apply (cmp_gt_lt cmp). eapply (cmp_trans cmp); [|done].
  by apply (cmp_gt_lt cmp).
Qed.
Lemma ascending_unique l k : ascending l -> ascending k -> l ≡ₚ k -> l = k.
Proof using Hcmp.
  intros Hl Hk Hp. apply (StronglySorted_unique_strong before); try done.
  intros x y _ _ Hxy Hyx. unfold before in *. by rewrite (cmp_flip (cmp := cmp)), Hxy in Hyx.
Qed.

(** ** Bisection *)

Section Search.
Context (t : A) (f : A -> option comparison) (items : list A).
Context (Hf : forall x, x ∈ items -> f x = Some (cmp x t)).
Context (Hasc : ascending items).

Lemma narrow_finds n base size :
  0 < size <= n -> base + size <= length items ->
  (base = 0 \/ exists x, items !! base = Some x /\ cmp x t <> Gt) ->
  (forall i x, base + size <= i -> items !! i = Some x -> cmp x t = Gt) ->
  exists b x, narrow n f items base size = Some b /\ items !! b = Some x /\
    (b = 0 \/ cmp x t <> Gt) /\ (forall i y, b < i -> items !! i = Some y -> cmp y t = Gt).
Proof using Hasc Hcmp Hf.
  revert base size. induction n as [|n IH]; intros base size Hs Hl Hlow Hhigh; [lia|].
  cbn [narrow]. case Nat.ltb_spec; intros H1.
  - pose proof (Nat.div_lt size 2 ltac:(lia) ltac:(lia)).
    pose proof (Nat.div_le_lower_bound size 2 1 ltac:(lia) ltac:(lia)).
    destruct (lookup_lt_is_Some_2 items (base + size / 2) ltac:(lia)) as [x Hx].
    rewrite Hx. cbn [mbind option_bind]. rewrite (Hf x) by (by eapply list_elem_of_lookup_2).
    cbn [mbind option_bind].
    assert (Hgt : cmp x t = Gt -> forall i y, base + (size - size / 2) <= i ->
      items !! i = Some y -> cmp y t = Gt).
    { intros E i y Hi Hy. assert (Hmid : base + size / 2 <= i).
      { pose proof (Nat.div_mod_eq size 2). pose proof (Nat.mod_upper_bound size 2 ltac:(lia)). lia. }
      destruct (decide (i = base + size / 2)) as [->|]; [by simplify_eq|].
      apply (before_gt x y t); [|done]. eapply (ascending_lookup items (base + size / 2) i); try done. lia. }
    destruct (cmp x t) eqn:E.
    + apply IH; [lia..| |intros i y Hi; apply Hhigh; lia]. right. exists x. by rewrite E.
    + apply IH; [lia..| |intros i y Hi; apply Hhigh; lia]. right. exists x. by rewrite E.
    + apply IH; [lia..|done|by apply Hgt].
  - assert (size = 1) as -> by lia.
    destruct (lookup_lt_is_Some_2 items base ltac:(lia)) as [x Hx].
    exists base, x. split; [done|]. split; [done|]. split; [|intros i y Hi; apply Hhigh; lia].
    destruct Hlow as [->|(x' & Hx' & Hc)]; [by left|right]. by simplify_eq.
Qed.

(** Where the search ends: at the one equal element, or where it would go. *)
Definition splits (r : Found) : Prop :=
  match r with
  | At p => exists x, items = take p items ++ x :: drop (S p) items /\ items !! p = Some x /\
      cmp x t = Eq
  | Absent p => Forall (λ x, cmp x t = Lt) (take p items) /\ Forall (λ x, cmp x t = Gt) (drop p items)
  end.
Lemma binary_search_splits :
  exists r, binary_search_by f items = Some r /\ splits r.
Proof using Hasc Hcmp Hf.
  destruct (decide (items = [])) as [E|Hne].
  { exists (Absent 0). cbn [splits]. rewrite E. split; [done|]. by split. }
  assert (Hpos : 0 < length items) by (destruct items; [done|cbn; lia]).
  destruct (narrow_finds (length items) 0 (length items) ltac:(lia) ltac:(lia) ltac:(by left))
    as (b & x & En & Hx & Hb & Hhigh).
  { intros i y Hi Hy. apply lookup_lt_Some in Hy. lia. }
  assert (Hs : binary_search_by f items = Some (match cmp x t with
      | Eq => At b | Lt => Absent (b + 1) | Gt => Absent b end)).
  { unfold binary_search_by. destruct items as [|y l] eqn:E; [done|]. rewrite En.
    cbn [mbind option_bind]. rewrite Hx. cbn [mbind option_bind].
    rewrite (Hf x) by (by eapply list_elem_of_lookup_2). done. }
  eexists. split; [exact Hs|].
  assert (Hafter : Forall (λ x, cmp x t = Gt) (drop (S b) items)).
  { apply Forall_lookup. intros i y Hy. rewrite lookup_drop in Hy. apply (Hhigh (S b + i)); [lia|done]. }
  assert (Hbefore : cmp x t <> Gt -> Forall (λ x, cmp x t = Lt) (take b items)).
  { intros Hc. apply Forall_lookup. intros i y Hy. apply lookup_take_Some in Hy as [Hy Hi].
    apply (before_le y x t); [|done]. by eapply (ascending_lookup items i b). }
  destruct (cmp x t) eqn:E; cbn [splits].
  - exists x. split; [|done]. by rewrite (take_drop_middle items b x).
  - rewrite Nat.add_1_r, (take_S_r items b x) by done. split; [|done].
    apply Forall_app. split; [by apply Hbefore|by constructor].
  - destruct Hb as [->|]; [|done]. rewrite take_0, drop_0. split; [done|].
    destruct items as [|y l]; [done|]. cbn in Hx. simplify_eq. by constructor.
Qed.
End Search.

(** ** Sorting *)

Fixpoint insert_sorted (x : A) (l : list A) : list A :=
  match l with
  | [] => [x]
  | y :: l' => match cmp x y with Gt => y :: insert_sorted x l' | _ => x :: l end
  end.
Lemma insert_by_pure (f : A -> A -> option comparison) x l :
  (forall y, y ∈ l -> f x y = Some (cmp x y)) -> insert_by f x l = Some (insert_sorted x l).
Proof using.
  induction l as [|y l IH]; intros Hf; [done|]. cbn. rewrite Hf by (by left). cbn.
  destruct (cmp x y); try done. by rewrite IH by (intros; apply Hf; by right).
Qed.
Lemma insert_sorted_perm x l : insert_sorted x l ≡ₚ x :: l.
Proof using.
  induction l as [|y l IH]; cbn; [done|]. destruct (cmp x y); try done. rewrite IH. constructor.
Qed.
Lemma sort_by_pure (f : A -> A -> option comparison) l :
  (forall x y, x ∈ l -> y ∈ l -> f x y = Some (cmp x y)) ->
  sort_by f l = Some (foldr insert_sorted [] l).
Proof using.
  induction l as [|x l IH]; intros Hf; [done|]. cbn.
  rewrite IH by (intros; apply Hf; by right). cbn. apply insert_by_pure. intros y Hy. apply Hf; [by left|].
  right. assert (Hp : foldr insert_sorted [] l ≡ₚ l).
  { clear. induction l as [|x l IH]; [done|]. cbn. rewrite insert_sorted_perm. by constructor. }
  by rewrite <- Hp.
Qed.
Lemma sort_perm l : foldr insert_sorted [] l ≡ₚ l.
Proof using. induction l as [|x l IH]; [done|]. cbn. rewrite insert_sorted_perm. by constructor. Qed.

Definition weakly (x y : A) : Prop := cmp x y <> Gt.
Lemma weakly_trans x y z : weakly x y -> weakly y z -> weakly x z.
Proof using Hcmp.
  unfold weakly. intros Hxy Hyz. destruct (cmp x y) eqn:E; [|by rewrite (before_le x y z)|done].
  by rewrite (cmp_eq_l cmp x y z E).
Qed.
Lemma sort_sorted l : StronglySorted weakly (foldr insert_sorted [] l).
Proof using Hcmp.
  induction l as [|x l IH]; [constructor|]. cbn.
  induction IH as [|y k Hk IH Hy]; cbn; [repeat constructor|].
  destruct (cmp x y) eqn:E.
  1,2: constructor; [by constructor|]; constructor; [by unfold weakly; rewrite E|];
    eapply Forall_impl; [exact Hy|]; intros z; apply weakly_trans; unfold weakly; by rewrite E.
  constructor; [done|]. rewrite insert_sorted_perm. constructor; [|done].
  unfold weakly. by rewrite (cmp_flip (cmp := cmp)), E.
Qed.

(** ** Deduplication *)

Section Dedup.
Context (same : A -> A -> option bool) (U : list A).
Context (Hsame : forall x y, x ∈ U -> y ∈ U ->
  same x y = Some (match cmp x y with Eq => true | _ => false end)).

(** What is left of a sorted list ascends strictly, and keeps one of each class. *)
Lemma dedup_rest_ascends kept l :
  kept ∈ U -> (forall x, x ∈ l -> x ∈ U) -> StronglySorted weakly (kept :: l) ->
  exists r, dedup_rest same kept l = Some r /\ ascending (kept :: r) /\
    (forall x, x ∈ r -> x ∈ l) /\ (forall x, x ∈ l -> exists y, y ∈ kept :: r /\ cmp y x = Eq).
Proof using Hcmp Hsame.
  revert kept. induction l as [|x l IH]; intros kept Hk Hl Hs.
  { exists []. split; [done|]. split; [repeat constructor|]. split; [done|by intros ? ?%not_elem_of_nil]. }
  inversion Hs as [|? ? Hs' Hle]; subst. inversion Hle as [|? ? Hkx Hle']; subst.
  inversion Hs' as [|? ? Hsl Hxl]; subst.
  cbn [dedup_rest]. rewrite Hsame by (done || (apply Hl; by left)). cbn [mbind option_bind].
  assert (Hl' : forall y, y ∈ l -> y ∈ U) by (intros; apply Hl; by right).
  destruct (cmp x kept) eqn:E.
  - destruct (IH kept Hk Hl') as (r & -> & Ha & Hr & Hc); [by constructor|].
    exists r. split; [done|]. split; [done|]. split; [intros y Hy; right; by apply Hr|].
    intros y [->|Hy]%elem_of_cons; [|by apply Hc]. exists kept. split; [by left|by apply (cmp_eq_sym cmp)].
  - unfold weakly in Hkx. by rewrite (cmp_flip (cmp := cmp)), E in Hkx.
  - destruct (IH x (Hl x ltac:(by left)) Hl' Hs') as (r & -> & Ha & Hr & Hc). cbn [mbind option_bind].
    exists (x :: r). split; [done|]. assert (Hkx' : before kept x) by (by apply (cmp_gt_lt cmp)).
    split.
    { constructor; [done|]. constructor; [done|]. inversion Ha as [|? ? _ Hf]; subst.
      eapply Forall_impl; [exact Hf|]. intros y. by apply before_trans. }
    split; [intros y [->|Hy]%elem_of_cons; [by left|right; by apply Hr]|].
    intros y [->|Hy]%elem_of_cons; [exists x|destruct (Hc y Hy) as (z & Hz & Ez); exists z].
    + split; [right; by left|apply (cmp_refl cmp)].
    + split; [by right|done].
Qed.
Lemma dedup_rest_ascending kept l :
  kept ∈ U -> (forall x, x ∈ l -> x ∈ U) -> ascending (kept :: l) -> dedup_rest same kept l = Some l.
Proof using Hcmp Hsame.
  revert kept. induction l as [|x l IH]; intros kept Hk Hl Hs; [done|].
  inversion Hs as [|? ? Hs' Hle]; subst. inversion Hle as [|? ? Hkx _]; subst.
  assert (Hx : x ∈ U) by (apply Hl; by left).
  cbn [dedup_rest]. rewrite Hsame by done. unfold before in Hkx.
  rewrite (cmp_flip (cmp := cmp)), Hkx. cbn [mbind option_bind CompOpp].
  rewrite IH; [done|done|intros; apply Hl; by right|done].
Qed.
Lemma dedup_by_ascending l :
  (forall x, x ∈ l -> x ∈ U) -> ascending l -> dedup_by same l = Some l.
Proof using Hcmp Hsame.
  destruct l as [|x l]; [done|]. intros Hl Hs. cbn.
  rewrite dedup_rest_ascending; [done|apply Hl; by left|intros; apply Hl; by right|done].
Qed.
(** The later of two equal elements goes. *)
Lemma dedup_rest_equal kept l t k :
  kept ∈ U -> t ∈ U -> (forall x, x ∈ l ++ k -> x ∈ U) -> ascending (kept :: l ++ k) ->
  (exists x, last (kept :: l) = Some x /\ cmp x t = Eq) ->
  dedup_rest same kept (l ++ t :: k) = Some (l ++ k).
Proof using Hcmp Hsame.
  revert kept. induction l as [|y l IH]; intros kept Hk Ht Hl Hs (x & Hx & E).
  - cbn in Hx. injection Hx as ->. cbn [app dedup_rest]. rewrite Hsame by done.
    rewrite (cmp_eq_sym cmp x t) by done. cbn [mbind option_bind]. by apply dedup_rest_ascending.
  - inversion Hs as [|? ? Hs' Hle]; subst. inversion Hle as [|? ? Hky _]; subst.
    assert (Hy : y ∈ U) by (apply Hl; by left).
    cbn [app dedup_rest]. rewrite Hsame by done. unfold before in Hky.
    rewrite (cmp_flip (cmp := cmp)), Hky. cbn [mbind option_bind CompOpp].
    rewrite IH; [done|done|done|intros; apply Hl; by right|done|by exists x].
Qed.
End Dedup.

(** A value pushed behind an ascending list sorts to where bisection puts it, behind an equal. *)
Lemma sort_snoc l k t :
  ascending (l ++ k) -> Forall (λ x, cmp x t <> Gt) l -> Forall (λ x, cmp x t = Gt) k ->
  foldr insert_sorted [] ((l ++ k) ++ [t]) = l ++ t :: k.
Proof using Hcmp.
  induction l as [|a l IH]; cbn [app foldr]; intros Hs Hl Hk.
  - induction k as [|y k IHk]; [done|]. cbn [app foldr]. inversion Hs as [|? ? Hs' Hy]; subst.
    inversion Hk as [|? ? Hyt Hk']; subst. rewrite IHk by done. cbn [insert_sorted]. rewrite Hyt.
    f_equal. destruct k as [|z k]; [done|]. cbn. inversion Hy as [|? ? Hyz _]; subst.
    unfold before in Hyz. by rewrite Hyz.
  - inversion Hs as [|? ? Hs' Ha]; subst. inversion Hl as [|? ? Hat Hl']; subst.
    rewrite IH by done. destruct l as [|b l]; cbn [app insert_sorted].
    + by destruct (cmp a t).
    + inversion Ha as [|? ? Hab _]; subst. unfold before in Hab. by rewrite Hab.
Qed.
Lemma ascending_sublist l k l' : ascending (l ++ k ++ l') -> ascending (l ++ l').
Proof using.
  induction l as [|x l IH]; cbn.
  - intros Hs. induction k as [|y k IHk]; [done|]. inversion Hs; subst. by apply IHk.
  - inversion 1 as [|? ? Hs Hx]; subst. constructor; [by apply IH|].
    rewrite !Forall_app in *. tauto.
Qed.
Lemma ascending_insert l t k :
  ascending (l ++ k) -> Forall (λ x, cmp x t = Lt) l -> Forall (λ x, cmp x t = Gt) k ->
  ascending (l ++ t :: k).
Proof using Hcmp.
  induction l as [|x l IH]; cbn; intros Hs Hl Hk.
  - constructor; [done|]. eapply Forall_impl; [exact Hk|]. intros y. apply (cmp_gt_lt cmp).
  - inversion Hs as [|? ? Hs' Hx]; subst. inversion Hl as [|? ? Hxt Hl']; subst.
    constructor; [by apply IH|]. rewrite Forall_app in *. destruct Hx as [Hx1 Hx2].
    split; [done|by constructor].
Qed.

Lemma ascending_NoDup l : ascending l -> NoDup l.
Proof using Hcmp.
  induction 1 as [|a l Hl IH Ha]; constructor; [|done]. intros Hin. rewrite Forall_forall in Ha.
  specialize (Ha a Hin). unfold before in Ha. by rewrite (cmp_refl cmp) in Ha.
Qed.
(** The element equal to [t] in an ascending list is the only one. *)
Lemma ascending_equal l x k t y :
  ascending (l ++ x :: k) -> cmp x t = Eq -> y ∈ l ++ x :: k -> cmp y t = Eq -> y = x.
Proof using Hcmp.
  intros Hs Ex Hy Ey. assert (Exy : cmp x y = Eq).
  { rewrite (cmp_eq_l cmp x t y Ex). by apply (cmp_eq_sym cmp). }
  apply elem_of_app in Hy as [Hy|[->|Hy]%elem_of_cons]; [..|done|].
  - apply list_elem_of_lookup_1 in Hy as [i Hi]. pose proof (lookup_lt_Some _ _ _ Hi).
    assert (Hb : before y x).
    { eapply (ascending_lookup (l ++ x :: k) i (length l)); [done|done|by rewrite lookup_app_l|].
      by rewrite lookup_app_r, Nat.sub_diag by lia. }
    unfold before in Hb. by rewrite (cmp_flip (cmp := cmp)), Hb in Exy.
  - apply list_elem_of_lookup_1 in Hy as [i Hi].
    assert (Hb : before x y).
    { eapply (ascending_lookup (l ++ x :: k) (length l) (length l + S i)); [done|lia| |].
      - by rewrite lookup_app_r, Nat.sub_diag by lia.
      - rewrite lookup_app_r by lia. by replace (length l + S i - length l) with (S i) by lia. }
    unfold before in Hb. congruence.
Qed.

(** Sorting and deduplicating an ascending list with one more value behind it. *)
Section Snoc.
Context (same : A -> A -> option bool) (t : A).
Lemma snoc_equal l x k :
  (forall y z, y ∈ t :: l ++ x :: k -> z ∈ t :: l ++ x :: k ->
    same y z = Some (match cmp y z with Eq => true | _ => false end)) ->
  ascending (l ++ x :: k) -> cmp x t = Eq ->
  dedup_by same (foldr insert_sorted [] ((l ++ x :: k) ++ [t])) = Some (l ++ x :: k).
Proof using Hcmp.
  rewrite cons_middle, app_assoc. intros Hsame Hs E. rewrite sort_snoc; [|done|..].
  - assert (Hlast : last (l ++ [x]) = Some x) by apply last_snoc.
    revert Hsame Hs Hlast. generalize (l ++ [x]). intros [|a l'] Hsame Hs Hlast; [done|].
    cbn [app dedup_by].
    rewrite (dedup_rest_equal same _ Hsame); [done|right; by left|by left| |done|by exists x].
    intros y Hy. right. by right.
  - apply Forall_app. split; [|by repeat constructor; rewrite E].
    apply Forall_lookup. intros i y Hy. pose proof (lookup_lt_Some _ _ _ Hy).
    rewrite (before_le y x t); [done| |by rewrite E].
    apply (ascending_lookup ((l ++ [x]) ++ k) i (length l)); [done|done| |].
    + by rewrite <- app_assoc, lookup_app_l.
    + by rewrite <- app_assoc, lookup_app_r, Nat.sub_diag by lia.
  - apply Forall_lookup. intros i y Hy.
    assert (Hb : before x y).
    { apply (ascending_lookup ((l ++ [x]) ++ k) (length l) (length l + S i)); [done|lia|..].
      - by rewrite <- app_assoc, lookup_app_r, Nat.sub_diag by lia.
      - rewrite <- app_assoc, lookup_app_r by lia. by replace (length l + S i - length l) with (S i) by lia. }
    rewrite (cmp_flip (cmp := cmp)), <- (cmp_eq_l cmp x t y E). unfold before in Hb. by rewrite Hb.
Qed.
Lemma snoc_absent l k :
  (forall y z, y ∈ t :: l ++ k -> z ∈ t :: l ++ k ->
    same y z = Some (match cmp y z with Eq => true | _ => false end)) ->
  ascending (l ++ k) -> Forall (λ x, cmp x t = Lt) l -> Forall (λ x, cmp x t = Gt) k ->
  dedup_by same (foldr insert_sorted [] ((l ++ k) ++ [t])) = Some (l ++ t :: k).
Proof using Hcmp.
  intros Hsame Hs Hl Hk. rewrite sort_snoc; [|done| |done].
  - rewrite (dedup_by_ascending same _ Hsame); [done| |by apply ascending_insert].
    intros y. rewrite elem_of_app, !elem_of_cons, elem_of_app. tauto.
  - eapply Forall_impl; [exact Hl|]. by intros y ->.
Qed.
End Snoc.
End Sorted.

(** ** Predicates that do not fail *)

Lemma any_of_pure {A} (f : A -> option bool) p l :
  (forall x, x ∈ l -> f x = Some (p x)) -> any_of f l = Some (existsb p l).
Proof.
  induction l as [|x l IH]; intros Hf; [done|]. cbn. rewrite Hf by (by left). cbn.
  destruct (p x); [done|]. rewrite IH; [done|]. intros. apply Hf. by right.
Qed.
Lemma filter_of_pure {A} (f : A -> option bool) p l :
  (forall x, x ∈ l -> f x = Some (p x)) -> filter_of f l = Some (List.filter p l).
Proof.
  induction l as [|x l IH]; intros Hf; [done|]. cbn. rewrite Hf by (by left). cbn.
  rewrite IH; [by destruct (p x)|]. intros. apply Hf. by right.
Qed.
Lemma filter_keeps {A} (p : A -> bool) l : (forall x, x ∈ l -> p x = true) -> List.filter p l = l.
Proof.
  induction l as [|x l IH]; intros Hp; [done|]. cbn. rewrite Hp by (by left).
  f_equal. apply IH. intros. apply Hp. by right.
Qed.

Section Sets.
Context `{ExternType, Allocator}.
Context (room : nat) (Hroom : forall live, malloc live = None -> room <= size live).
Context (Hfresh : malloc_fresh).
Context (names : string -> option (list string)) (display_into : Heap -> Value -> string).
Context (fuel : nat) (h : Heap).
Context (cmp : Value -> Value -> comparison) `{Hcmp : !TotalCmp cmp}.

Definition is_eq (c : comparison) : bool := match c with Eq => true | _ => false end.
(** The values of [U] are orderable among themselves, and equal when they compare equal. *)
Definition orderable (U : list Value) : Prop :=
  forall x y, x ∈ U -> y ∈ U ->
    set_order fuel h x y = Some (Some (cmp x y)) /\
    values_equal names fuel h x y = Some (is_eq (cmp x y)).
Abbreviation ascending := (StronglySorted (before cmp)).

Lemma as_bool_value b : as_bool (bool_value b) = Some b.
Proof using. by destruct b. Qed.
Lemma orderable_eq U x y : orderable U -> x ∈ U -> y ∈ U ->
  eq_holds names display_into fuel h x y = Some (is_eq (cmp x y)).
Proof using.
  intros HU Hx Hy. unfold eq_holds. cbn [apply_binary]. destruct (HU x y Hx Hy) as [_ ->].
  unfold ok. cbn [mbind option_bind]. by rewrite as_bool_value.
Qed.
Lemma orderable_cmp U x y : orderable U -> x ∈ U -> y ∈ U ->
  set_order_or_equal fuel h x y = Some (cmp x y).
Proof using. intros HU Hx Hy. unfold set_order_or_equal. by destruct (HU x y Hx Hy) as [-> _]. Qed.

(** ** Canonical sets *)

Definition same (a b : Value) : option bool :=
  o ← set_order fuel h a b; Some (match o with Some Eq => true | _ => false end).
Lemma same_cmp U x y : orderable U -> x ∈ U -> y ∈ U -> same x y = Some (is_eq (cmp x y)).
Proof using. intros HU Hx Hy. unfold same. by destruct (HU x y Hx Hy) as [-> _]. Qed.
Lemma canonical_set_orderable items :
  orderable items -> items <> [] ->
  canonical_set fuel h items = canonical ← dedup_by same (foldr (insert_sorted cmp) [] items); Some (Some canonical).
Proof using.
  intros HU Hne. unfold canonical_set. destruct items as [|first rest]; [done|].
  rewrite (any_of_pure _ (λ _, false)).
  2: { intros x Hx. by destruct (HU first x ltac:(by left) Hx) as [-> _]. }
  assert (Hn : existsb (λ _ : Value, false) (first :: rest) = false) by (clear; cbn; by induction rest).
  rewrite Hn. cbn [mbind option_bind].
  rewrite (sort_by_pure cmp) by (intros; by eapply (orderable_cmp (first :: rest))). done.
Qed.
Lemma canonical_set_spec items :
  orderable items ->
  exists r, canonical_set fuel h items = Some (Some r) /\ ascending r /\
    (forall x, x ∈ r -> x ∈ items) /\ (forall x, x ∈ items -> exists y, y ∈ r /\ cmp y x = Eq).
Proof using Hcmp.
  intros HU. destruct (decide (items = [])) as [->|Hne].
  { exists []. split; [done|]. split; [constructor|]. split; [done|by intros ? ?%not_elem_of_nil]. }
  rewrite canonical_set_orderable by done.
  pose proof (sort_sorted cmp items) as Hs. pose proof (sort_perm cmp items) as Hp.
  destruct (foldr (insert_sorted cmp) [] items) as [|x l].
  { by apply Permutation_nil_l in Hp. }
  destruct (dedup_rest_ascends cmp same items) with (kept := x) (l := l) as (r & E & Ha & Hr & Hc); try done.
  - intros a b. by apply same_cmp.
  - rewrite <- Hp. by left.
  - intros y Hy. rewrite <- Hp. by right.
  - unfold dedup_by. rewrite E. cbn [mbind option_bind]. exists (x :: r). split; [done|].
    split; [done|]. split.
    + intros y Hy. rewrite <- Hp. apply elem_of_cons in Hy as [->|Hy]; [by left|right; by apply Hr].
    + intros y Hy. rewrite <- Hp in Hy. apply elem_of_cons in Hy as [->|Hy]; [|by apply Hc].
      exists x. split; [by left|apply (cmp_refl cmp)].
Qed.

(** ** One element added or removed *)

Section Update.
Context (items : list Value) (t : Value).
Context (HU : orderable (t :: items)) (Hasc : ascending items).

Lemma member_U x : x ∈ items -> x ∈ t :: items.
Proof using. intros. by right. Qed.
Lemma search_splits :
  exists r, binary_search_by (λ item, set_order_or_equal fuel h item t) items = Some r /\
    splits cmp t items r.
Proof using HU Hasc Hcmp.
  apply (binary_search_splits cmp); [|done].
  intros x Hx. apply (orderable_cmp (t :: items)); [done|by right|by left].
Qed.

(** What the set holds afterwards. *)
Definition added (r : Found) : list Value :=
  match r with At _ => items | Absent pos => take pos items ++ t :: drop pos items end.
Definition removed (r : Found) : list Value :=
  match r with At pos => take pos items ++ drop (S pos) items | Absent _ => items end.

Lemma added_canonical r : splits cmp t items r -> ascending (added r).
Proof using Hasc Hcmp.
  destruct r as [p|p]; [done|]. intros [Hl Hk]. apply (ascending_insert cmp); try done.
  by rewrite take_drop.
Qed.
Lemma removed_canonical r : splits cmp t items r -> ascending (removed r).
Proof using Hasc.
  destruct r as [p|p]; [|done]. intros (x & Hi & _). cbn.
  apply (ascending_sublist cmp _ [x]). cbn. by rewrite <- Hi.
Qed.
Lemma elem_split p x : x ∈ items <-> x ∈ take p items \/ x ∈ drop p items.
Proof using. by rewrite <- (take_drop p items) at 1; rewrite elem_of_app. Qed.
Lemma added_members r : splits cmp t items r ->
  forall x, x ∈ added r <-> x ∈ items \/ (x = t /\ forall y, y ∈ items -> cmp y t <> Eq).
Proof using All.
  destruct r as [p|p]; cbn [added splits].
  - intros (y & Hi & Hy & E) x. split; [by left|]. intros [|[-> Hn]]; [done|].
    exfalso. apply (Hn y); [|done]. by eapply list_elem_of_lookup_2.
  - intros [Hl Hk] x. rewrite elem_of_app, elem_of_cons, (elem_split p x).
    assert (Hn : forall y, y ∈ items -> cmp y t <> Eq).
    { intros y [Hy|Hy]%(elem_split p); rewrite Forall_forall in Hl, Hk;
        [by rewrite (Hl y Hy)|by rewrite (Hk y Hy)]. }
    tauto.
Qed.
Lemma removed_members r : splits cmp t items r ->
  forall x, x ∈ removed r <-> x ∈ items /\ cmp x t <> Eq.
Proof using All.
  destruct r as [p|p]; cbn [removed splits].
  - intros (y & Hi & Hy & E) x. assert (Hnd : x ∈ items /\ cmp x t <> Eq <-> x ∈ items /\ x <> y).
    { split; intros [Hx Hn]; (split; [done|]); intros En; apply Hn; [by rewrite En|].
      eapply (ascending_equal cmp); [| exact E| |exact En]; by rewrite <- Hi. }
    rewrite Hnd. assert (Hno : y ∉ take p items ++ drop (S p) items).
    { intros Hin. pose proof Hasc as Ha. rewrite Hi in Ha.
      pose proof (ascending_NoDup cmp items Hasc) as Hdup.
      rewrite Hi in Hdup. apply NoDup_app in Hdup as (_ & Hd & Hr).
      apply NoDup_cons in Hr as [Hr _]. apply elem_of_app in Hin as [Hin|Hin]; [|done].
      apply (Hd y Hin). by left. }
    rewrite Hi at 3. rewrite !elem_of_app, elem_of_cons. rewrite elem_of_app in Hno.
    split; [intros Hx; split; [tauto|by intros ->]|tauto].
  - intros [Hl Hk] x. split; [|by intros []]. intros Hx. split; [done|].
    rewrite Forall_forall in Hl, Hk.
    apply (elem_split p) in Hx as [Hx|Hx]; [by rewrite (Hl x Hx)|by rewrite (Hk x Hx)].
Qed.

(** Copying comes to the same. *)
Lemma copy_add r : splits cmp t items r -> canonical_set fuel h (items ++ [t]) = Some (Some (added r)).
Proof using All.
  intros Hr. assert (HU' : orderable (items ++ [t])).
  { intros x y Hx Hy. apply HU; [by rewrite elem_of_cons; rewrite elem_of_app, list_elem_of_singleton in Hx; tauto|].
    rewrite elem_of_cons. rewrite elem_of_app, list_elem_of_singleton in Hy. tauto. }
  rewrite canonical_set_orderable by (done || by destruct items).
  assert (Hsame : forall x y, x ∈ t :: items -> y ∈ t :: items -> same x y = Some (is_eq (cmp x y)))
    by (intros; by apply (same_cmp (t :: items))).
  destruct r as [p|p]; cbn [added splits] in *.
  - destruct Hr as (x & Hi & _ & E). pose proof (snoc_equal cmp same t (take p items) x (drop (S p) items)) as Hd.
    rewrite <- Hi in Hd. by rewrite Hd.
  - destruct Hr as [Hl Hk]. pose proof (snoc_absent cmp same t (take p items) (drop p items)) as Hd.
    rewrite (take_drop p items) in Hd. by rewrite Hd.
Qed.
Lemma copy_remove r : splits cmp t items r ->
  filter_of (λ item, b ← eq_holds names display_into fuel h item t; Some (negb b)) items =
    Some (removed r).
Proof using All.
  intros Hr. rewrite (filter_of_pure _ (λ x, negb (is_eq (cmp x t)))).
  2: { intros x Hx. by rewrite (orderable_eq (t :: items)) by (done || by (right + left)). }
  f_equal. destruct r as [p|p]; cbn [removed splits] in *.
  - destruct Hr as (x & Hi & Hx & E). rewrite Hi at 1. rewrite List.filter_app. cbn [List.filter].
    rewrite E. cbn [is_eq negb].
    assert (Hn : forall y, y ∈ removed (At p) -> negb (is_eq (cmp y t)) = true).
    { intros y Hy. apply (removed_members (At p)) in Hy as [_ Hy]; [by destruct (cmp y t)|].
      by exists x. }
    cbn [removed] in Hn. rewrite !filter_keeps; [done|..]; intros y Hy; apply Hn, elem_of_app; tauto.
  - destruct Hr as [Hl Hk]. apply filter_keeps. rewrite Forall_forall in Hl, Hk.
    intros y [Hy|Hy]%(elem_split p); [by rewrite (Hl y Hy)|by rewrite (Hk y Hy)].
Qed.
End Update.

(** ** On the heap *)

Lemma new_set_reads r h1 :
  size h1 < room ->
  exists h2 v, new_set r h1 = Some (h2, inr v) /\ h1 ⊆ h2 /\ set_items h2 v = Some r.
Proof using Hfresh Hroom.
  intros Hr. destruct (alloc_reads room Hroom Hfresh (PSet r) h1 Hr) as (h2 & v & E & Hg & Hv).
  exists h2, v. unfold new_set. rewrite E. split; [done|]. split; [apply Hg|].
  unfold set_items. by rewrite Hv.
Qed.
(** A heap changed at one set only. *)
Definition set_now (h' : Heap) (set : Value) (r : list Value) : Prop :=
  set_items h' set = Some r /\
  forall v, Z.land v PTR_MASK <> Z.land set PTR_MASK -> payload h' v = payload h v.
Lemma set_now_same set items : set_items h set = Some items -> set_now h set items.
Proof using. by split. Qed.
Lemma set_now_set set items r :
  set_items h set = Some items -> set_now (set_payload_items h set r) set r.
Proof using.
  intros Hi. unfold set_items, set_payload_items, set_now, payload in *. split.
  - unfold set_items, payload. destruct (is_pointer set); [|done]. by rewrite lookup_insert_eq.
  - intros v Hv. by rewrite lookup_insert_ne.
Qed.

Lemma first_orderable set items t :
  set_items h set = Some items -> orderable (t :: items) ->
  match set_first h set with
  | None => Some true
  | Some first =>
      o ← set_order fuel h first t; Some (match o with Some _ => true | None => false end)
  end = Some true.
Proof using.
  intros Hi HU. unfold set_first. rewrite Hi. cbn. destruct items as [|first items]; [done|]. cbn.
  by destruct (HU first t ltac:(right; by left) ltac:(by left)) as [-> _].
Qed.

(** C9. An update of a set in place agrees with the update of a copy: of a canonical set whose
    elements and argument are orderable, both leave the same elements in the same order, again
    canonical; [add] keeps the element that was there, [remove] takes out the one that is
    equal; and nothing but the set itself changes. *)
Theorem set_updates_in_place_agree set items t method name :
  set_items h set = Some items -> ascending items -> orderable (t :: items) ->
  method = Sets.Add \/ method = Sets.Remove -> size h < room ->
  exists r,
    (exists h1, set_update_in_place names display_into fuel true set method name [t] h =
       Some (h1, inr set) /\ set_now h1 set r) /\
    (exists h2 v, set_update_in_place names display_into fuel false set method name [t] h =
       Some (h2, inr v) /\ h ⊆ h2 /\ set_items h2 v = Some r) /\
    ascending r /\
    forall x, x ∈ r <->
      match method with
      | Sets.Add => x ∈ items \/ (x = t /\ forall y, y ∈ items -> cmp y t <> Eq)
      | _ => x ∈ items /\ cmp x t <> Eq
      end.
Proof using Hcmp Hfresh Hroom.
  intros Hi Hc HU Hm Hr. destruct (search_splits items t HU Hc) as (found & Hf & Hs).
  pose proof (first_orderable set items t Hi HU) as Ho.
  unfold set_update_in_place, call_set_method. cbn [negb one_argument]. rewrite Hi, Ho.
  cbn [mbind option_bind].
  destruct Hm as [-> | ->]; [exists (added items t found)|exists (removed items found)].
  - rewrite (copy_add items t HU Hc found Hs). cbn [mbind option_bind].
    split; [|split; [by apply new_set_reads|split;
      [by apply added_canonical|by apply (added_members items t HU Hc)]]].
    cbn [negb]. unfold set_insert_sorted. rewrite Hi, Hf. cbn [mbind option_bind].
    destruct found as [p|p]; eexists; (split; [reflexivity|]);
      [by apply set_now_same|by apply (set_now_set _ items)].
  - rewrite (copy_remove items t HU Hc found Hs). cbn [mbind option_bind].
    split; [|split; [by apply new_set_reads|split;
      [by apply (removed_canonical items t)|by apply (removed_members items t HU Hc)]]].
    unfold set_remove_sorted. rewrite Hi, Hf. cbn [mbind option_bind].
    destruct found as [p|p]; [|eexists; split; [reflexivity|by apply set_now_same]].
    destruct Hs as (x & _ & Hx & _). rewrite Hx. cbn [mbind option_bind].
    eexists. split; [reflexivity|by apply (set_now_set _ items)].
Qed.

(** The methods that combine sets: [contains] asks for an equal element, [union] answers a
    canonical set that holds one of each class of equal elements of both and nothing else,
    [intersection] the elements of the first, in their order, that have an equal in the
    second. *)
Theorem set_methods_combine set other items items2 t name :
  set_items h set = Some items -> set_items h other = Some items2 ->
  orderable (t :: items ++ items2) -> size h < room ->
  call_set_method names display_into fuel set Sets.Contains name [t] h =
    Some (h, inr (bool_value (existsb (λ x, is_eq (cmp x t)) items))) /\
  (exists h2 v r, call_set_method names display_into fuel set Sets.Union name [other] h =
     Some (h2, inr v) /\ h ⊆ h2 /\ set_items h2 v = Some r /\ ascending r /\
     (forall x, x ∈ r -> x ∈ items ++ items2) /\
     (forall x, x ∈ items ++ items2 -> exists y, y ∈ r /\ cmp y x = Eq)) /\
  (exists h2 v, call_set_method names display_into fuel set Sets.Intersection name [other] h =
     Some (h2, inr v) /\ h ⊆ h2 /\
     set_items h2 v = Some (List.filter (λ x, existsb (λ y, is_eq (cmp x y)) items2) items)).
Proof using Hcmp Hfresh Hroom.
  intros Hi Hi2 HU Hr. unfold call_set_method. cbn [one_argument]. rewrite Hi, Hi2.
  cbn [mbind option_bind].
  assert (Heq : forall x y, x ∈ items -> y ∈ t :: items2 ->
    eq_holds names display_into fuel h x y = Some (is_eq (cmp x y))).
  { intros x y Hx Hy. apply (orderable_eq (t :: items ++ items2)); [done|..];
      rewrite ?elem_of_cons, ?elem_of_app in *; tauto. }
  split; [|split].
  - rewrite (any_of_pure _ (λ x, is_eq (cmp x t))); [done|]. intros x Hx. apply Heq; [done|by left].
  - destruct (canonical_set_spec (items ++ items2)) as (r & E & Hc & Hsub & Hcov).
    { intros x y Hx Hy. apply HU; by right. }
    rewrite E. cbn [mbind option_bind]. destruct (new_set_reads r h Hr) as (h2 & v & E2 & Hs & Hv).
    exists h2, v, r. by split.
  - rewrite (filter_of_pure _ (λ x, existsb (λ y, is_eq (cmp x y)) items2)).
    2: { intros x Hx. apply any_of_pure. intros y Hy. apply Heq; [done|by right]. }
    cbn [mbind option_bind]. by apply new_set_reads.
Qed.
End Sets.

(** ** Witnesses: sets of integers *)

#[local] Existing Instances Sample.externs Sample.allocator.
Module SetSample.
Definition set_word : Value := pointer_word 0.
Definition other_word : Value := pointer_word 1.
Definition items : list Value := [small_int (-4); small_int 1; small_int 9].
Definition other : list Value := [small_int 1; small_int 5].
Definition heap : Heap := <[0%Z := PSet items]> {[1%Z := PSet other]}.
Definition cmp (a b : Value) : comparison := (small_int_payload a ?= small_int_payload b)%Z.
#[export] Instance cmp_total : TotalCmp cmp.
Proof. apply (total_preimage small_int_payload Z.compare). Qed.
Lemma ordered_pairs (U : list Value) :
  forallb (λ x, forallb (λ y,
    bool_decide (set_order 2 heap x y = Some (Some (cmp x y))) &&
    bool_decide (values_equal (λ _, None) 2 heap x y = Some (is_eq (cmp x y)))) U) U = true ->
  orderable (λ _, None) 2 heap cmp U.
Proof.
  rewrite forallb_forall. intros Hall x y Hx%list_elem_of_In Hy%list_elem_of_In.
  specialize (Hall x Hx). rewrite forallb_forall in Hall. specialize (Hall y Hy).
  apply andb_true_iff in Hall as [H1 H2].
  split; [by apply bool_decide_eq_true in H1|by apply bool_decide_eq_true in H2].
Qed.
Lemma ordered x : x = 1%Z \/ x = 5%Z -> orderable (λ _, None) 2 heap cmp (small_int x :: items ++ other).
Proof. intros [-> | ->]; apply ordered_pairs; by vm_compute. Qed.
Lemma ordered_items x : x = 1%Z \/ x = 5%Z -> orderable (λ _, None) 2 heap cmp (small_int x :: items).
Proof. intros [-> | ->]; apply ordered_pairs; by vm_compute. Qed.
Lemma small_heap : size heap < 16.
Proof. vm_compute. repeat constructor. Qed.
Lemma canonical_items : StronglySorted (before cmp) items.
Proof. repeat constructor. Qed.
End SetSample.

#[local] Existing Instance SetSample.cmp_total.
Lemma set_updates_in_place_agree_witness :
  (exists h1 r, set_update_in_place (λ _, None) (λ _ _, EmptyString) 2 true SetSample.set_word
      Sets.Add "add" [small_int 5] SetSample.heap = Some (h1, inr SetSample.set_word) /\
    set_items h1 SetSample.set_word = Some r /\ small_int 5 ∈ r) /\
  (exists h1 r, set_update_in_place (λ _, None) (λ _ _, EmptyString) 2 true SetSample.set_word
      Sets.Remove "remove" [small_int 1] SetSample.heap = Some (h1, inr SetSample.set_word) /\
    set_items h1 SetSample.set_word = Some r /\ ~ small_int 1 ∈ r).
Proof.
  split.
  - destruct (set_updates_in_place_agree 16 Sample.allocator_room Sample.allocator_fresh
      (λ _, None) (λ _ _, EmptyString) 2 SetSample.heap SetSample.cmp SetSample.set_word SetSample.items
      (small_int 5) Sets.Add "add"%string eq_refl SetSample.canonical_items
      (SetSample.ordered_items 5 (or_intror eq_refl)) (or_introl eq_refl)
      SetSample.small_heap) as (r & (h1 & E & Hs & _) & _ & _ & Hr).
    exists h1, r. split; [exact E|]. split; [exact Hs|]. apply Hr. right. split; [reflexivity|].
    intros y Hy. unfold SetSample.items in Hy. rewrite !elem_of_cons, elem_of_nil in Hy.
    destruct Hy as [->|[->|[->|[]]]]; vm_compute; discriminate.
  - destruct (set_updates_in_place_agree 16 Sample.allocator_room Sample.allocator_fresh
      (λ _, None) (λ _ _, EmptyString) 2 SetSample.heap SetSample.cmp SetSample.set_word SetSample.items
      (small_int 1) Sets.Remove "remove"%string eq_refl SetSample.canonical_items
      (SetSample.ordered_items 1 (or_introl eq_refl)) (or_intror eq_refl)
      SetSample.small_heap) as (r & (h1 & E & Hs & _) & _ & _ & Hr).
    exists h1, r. split; [exact E|]. split; [exact Hs|]. intros Hin. apply Hr in Hin as [_ Hin].
    apply Hin. vm_compute. reflexivity.
Defined.
Lemma set_methods_combine_witness :
  exists h2 v r, call_set_method (λ _, None) (λ _ _, EmptyString) 2 SetSample.set_word Sets.Union
      "union" [SetSample.other_word] SetSample.heap = Some (h2, inr v) /\
    set_items h2 v = Some r /\ StronglySorted (before SetSample.cmp) r.
Proof.
  destruct (set_methods_combine 16 Sample.allocator_room Sample.allocator_fresh
    (λ _, None) (λ _ _, EmptyString) 2 SetSample.heap SetSample.cmp SetSample.set_word SetSample.other_word
    SetSample.items SetSample.other (small_int 5) "union"%string eq_refl eq_refl
    (SetSample.ordered 5 (or_intror eq_refl)) SetSample.small_heap)
    as (_ & (h2 & v & r & E & _ & Hr & Hc & _) & _).
  exists h2, v, r. split; [exact E|]. split; [exact Hr|exact Hc].
Defined.

(** ** Where the two paths part: values that are not ordered among themselves *)

Module Unordered.
Definition nan : Value := 0x7ff8000000000000%Z.
Definition point : Shape := object Struct "P" ["x"; "y"]%string.
Definition set_word : Value := pointer_word 0.
Definition origin : Value := pointer_word 1.
Definition unknown : Value := pointer_word 2.
Definition known : Value := pointer_word 3.
(** [P {0, 0}], [P {1, NaN}] and [P {1, 5}]. *)
Definition points : Heap :=
  <[1%Z := PObject point [small_int 0; small_int 0]]>
    (<[2%Z := PObject point [small_int 1; nan]]> {[3%Z := PObject point [small_int 1; small_int 5]]}).
Definition with_set (items : list Value) : Heap := <[0%Z := PSet items]> points.
End Unordered.

(** The empty set takes, in place, an element that copying refuses. *)
Example empty_set_admits_what_copying_refuses :
  let h := Unordered.with_set [] in
  let update unique := set_update_in_place (λ _, None) (λ _ _, EmptyString) 4 unique
    Unordered.set_word Sets.Add "add" [Unordered.unknown] h in
  update true = Some (Unordered.with_set [Unordered.unknown], inr Unordered.set_word) /\
  update false = Some (h, inl (unorderable_error "add")).
Proof. split; vm_compute; reflexivity. Qed.

(** Removal in place takes out an element that is not equal to the argument; copying keeps it. *)
Example removal_in_place_takes_another :
  let h := Unordered.with_set [Unordered.origin; Unordered.unknown] in
  let update unique := set_update_in_place (λ _, None) (λ _ _, EmptyString) 4 unique
    Unordered.set_word Sets.Remove "remove" [Unordered.known] h in
  canonical_set 4 Unordered.points [Unordered.origin; Unordered.unknown] =
    Some (Some [Unordered.origin; Unordered.unknown]) /\
  update true = Some (Unordered.with_set [Unordered.origin], inr Unordered.set_word) /\
  (exists h2 v, update false = Some (h2, inr v) /\
    set_items h2 v = Some [Unordered.origin; Unordered.unknown]).
Proof.
  split; [vm_compute; reflexivity|]. split; [vm_compute; reflexivity|].
  eexists _, _. split; [vm_compute; reflexivity|]. vm_compute; reflexivity.
Qed.
