(* ===== verification/Uri.v ===== *)
(** URI arithmetic ([crates/noeta-ext-abi/src/uri.rs]).

    Text is a [string] of the bytes of its UTF-8 form; every position the code slices at is
    next to an ASCII character. *)
From Stdlib Require Import Strings.Ascii Strings.String.
From S2P Require Import Prelude.
From stdpp Require Import pretty options.
Open Scope list_scope.
Open Scope string_scope.

(** ** The standard library's [char] and [str] *)

Definition in_range (lo hi c : ascii) : bool :=
  (N_of_ascii lo <=? N_of_ascii c)%N && (N_of_ascii c <=? N_of_ascii hi)%N.
Definition is_ascii_lowercase : ascii -> bool := in_range "a" "z".
Definition is_ascii_uppercase : ascii -> bool := in_range "A" "Z".
Definition is_ascii_digit : ascii -> bool := in_range "0" "9".
Definition is_ascii_alphabetic (c : ascii) : bool := is_ascii_lowercase c || is_ascii_uppercase c.
Definition is_ascii_alphanumeric (c : ascii) : bool := is_ascii_alphabetic c || is_ascii_digit c.
Definition lower_ascii (c : ascii) : ascii :=
  if is_ascii_uppercase c then ascii_of_N (N_of_ascii c + 32) else c.
Fixpoint to_ascii_lowercase (s : string) : string :=
  match s with EmptyString => EmptyString | String c s => String (lower_ascii c) (to_ascii_lowercase s) end.
Definition eq_ignore_ascii_case (s t : string) : bool :=
  bool_decide (to_ascii_lowercase s = to_ascii_lowercase t).

Fixpoint all_chars (p : ascii -> bool) (s : string) : bool :=
  match s with EmptyString => true | String c s => p c && all_chars p s end.
Definition char_eq (c d : ascii) : bool := Ascii.eqb c d.
(** The text before the first character of [p], and from it on: [s.find(p)] with [&s[..i]] and
    [&s[i..]]. *)
Fixpoint break (p : ascii -> bool) (s : string) : string * string :=
  match s with
  | EmptyString => (EmptyString, EmptyString)
  | String c rest =>
      if p c then (EmptyString, s) else let '(a, b) := break p rest in (String c a, b)
  end.
Fixpoint strip_prefix (pre s : string) : option string :=
  match pre, s with
  | EmptyString, s => Some s
  | String c pre, String d s => if char_eq c d then strip_prefix pre s else None
  | String _ _, EmptyString => None
  end.
(** [split_once] of a character and of a string, [rsplit_once] and [split] of a character. *)
Definition split_once (c : ascii) (s : string) : option (string * string) :=
  match break (char_eq c) s with (a, String _ b) => Some (a, b) | (_, EmptyString) => None end.
Fixpoint split_once_str (sep s : string) : option (string * string) :=
  match strip_prefix sep s with
  | Some rest => Some (EmptyString, rest)
  | None =>
      match s with
      | EmptyString => None
      | String c rest => option_map (λ '(a, b), (String c a, b)) (split_once_str sep rest)
      end
  end.
Fixpoint rsplit_once (c : ascii) (s : string) : option (string * string) :=
  match s with
  | EmptyString => None
  | String d rest =>
      match rsplit_once c rest with
      | Some (a, b) => Some (String d a, b)
      | None => if char_eq c d then Some (EmptyString, rest) else None
      end
  end.
Fixpoint split (c : ascii) (s : string) : list string :=
  match s with
  | EmptyString => [EmptyString]
  | String d rest =>
      if char_eq c d then EmptyString :: split c rest
      else match split c rest with
           | seg :: segs => String d seg :: segs
           | [] => [String d EmptyString]
           end
  end.
Fixpoint join (sep : string) (l : list string) : string :=
  match l with [] => EmptyString | [s] => s | s :: l => s +:+ sep +:+ join sep l end.

(** [trim]: the characters of the Unicode property [White_Space], by their UTF-8 bytes. *)
Definition byte (n : N) (s : string) : string := String (ascii_of_N n) s.
Definition white_space : list string :=
  ((λ n, byte n EmptyString) <$> [9; 10; 11; 12; 13; 32]%N)
  ++ ((λ n, byte 0xc2 (byte n EmptyString)) <$> [0x85; 0xa0]%N)
  ++ [byte 0xe1 (byte 0x9a (byte 0x80 EmptyString))]
  ++ ((λ n, byte 0xe2 (byte 0x80 (byte n EmptyString)))
        <$> [0x80; 0x81; 0x82; 0x83; 0x84; 0x85; 0x86; 0x87; 0x88; 0x89; 0x8a; 0xa8; 0xa9; 0xaf]%N)
  ++ [byte 0xe2 (byte 0x81 (byte 0x9f EmptyString)); byte 0xe3 (byte 0x80 (byte 0x80 EmptyString))].
Fixpoint trim_with (fuel : nat) (spaces : list string) (s : string) : string :=
  match fuel with
  | O => s
  | S fuel =>
      match list_find (λ w, is_Some (strip_prefix w s)) spaces with
      | Some (_, w) => trim_with fuel spaces (default s (strip_prefix w s))
      | None => s
      end
  end.
Definition reversed (s : string) : string :=
  String.string_of_list_ascii (reverse (String.list_ascii_of_string s)).
Definition trim (s : string) : string :=
  let s := trim_with (String.length s) white_space s in
  reversed (trim_with (String.length s) (reversed <$> white_space) (reversed s)).

(** [str::parse::<u16>]: an optional plus sign, then digits. *)
Fixpoint digits_value (acc : N) (s : string) : option N :=
  match s with
  | EmptyString => Some acc
  | String c s =>
      if is_ascii_digit c then digits_value (acc * 10 + (N_of_ascii c - 48)) s else None
  end.
Definition parse_u16 (s : string) : option N :=
  let digits := match s with String "+" rest => rest | _ => s end in
  match digits with
  | EmptyString => None
  | _ => n ← digits_value 0 digits; if (n <? 65536)%N then Some n else None
  end.

(** ** Parts of a URL *)

Definition is_scheme (scheme : string) : bool :=
  match scheme with
  | EmptyString => false
  | String c rest =>
      is_ascii_alphabetic c &&
      all_chars (λ c, is_ascii_alphanumeric c || char_eq c "+" || char_eq c "-" || char_eq c ".") rest
  end.
(** [scheme_of], [has_scheme]; [after_scheme] is what follows the separator. *)
Definition scheme_of (url : string) : option string :=
  '(scheme, _) ← split_once_str "://" url; if is_scheme scheme then Some scheme else None.
Definition has_scheme (reference : string) : bool := match scheme_of reference with Some _ => true | None => false end.
Definition after_scheme (url : string) : string :=
  match split_once_str "://" url with
  | Some (scheme, rest) => if is_scheme scheme then rest else url
  | None => url
  end.

Definition slash_query_fragment (c : ascii) : bool := char_eq c "/" || char_eq c "?" || char_eq c "#".
Definition query_fragment (c : ascii) : bool := char_eq c "?" || char_eq c "#".
Definition slash_query (c : ascii) : bool := char_eq c "/" || char_eq c "?".

(** [authority_of], [host_of], [port_of]. *)
Definition authority_of (url : string) : string :=
  match scheme_of url with
  | None => EmptyString
  | Some _ => fst (break slash_query_fragment (after_scheme url))
  end.
Definition after_userinfo (authority : string) : string :=
  match rsplit_once "@" authority with Some (_, after) => after | None => authority end.
Definition host_of (url : string) : string :=
  let host := after_userinfo (authority_of url) in
  match break (char_eq "]") host with
  | (before, String _ _) => before +:+ "]"
  | (_, EmptyString) => match rsplit_once ":" host with Some (before, _) => before | None => host end
  end.
Definition port_of (url : string) : option N :=
  let host := after_userinfo (authority_of url) in
  let after_host := match break (char_eq "]") host with
                    | (_, String _ after) => after
                    | (_, EmptyString) => host
                    end in
  '(_, p) ← rsplit_once ":" after_host; parse_u16 p.

(** [path_of]. *)
Definition path_of (url : string) : string :=
  let from_path :=
    match scheme_of url with
    | Some _ =>
        match break slash_query_fragment (after_scheme url) with
        | (_, String "/" rest) => String "/" rest
        | _ => "/"
        end
    | None => url
    end in
  match fst (break query_fragment from_path) with EmptyString => "/" | path => path end.

(** [default_port], [is_secure], [origin_of], [same_origin], [origin_prefix]. *)
Definition default_port (scheme : string) : option N :=
  let s := to_ascii_lowercase scheme in
  if bool_decide (s = "http") || bool_decide (s = "ws") then Some 80%N
  else if bool_decide (s = "https") || bool_decide (s = "wss") then Some 443%N
  else None.
Definition is_secure (url : string) : bool :=
  match scheme_of url with
  | Some s => let s := to_ascii_lowercase s in bool_decide (s = "https") || bool_decide (s = "wss")
  | None => false
  end.
Definition origin_of (url : string) : string :=
  let scheme := to_ascii_lowercase (default EmptyString (scheme_of url)) in
  let host := to_ascii_lowercase (host_of url) in
  match port_of url with
  | Some p =>
      if bool_decide (Some p = default_port scheme) then scheme +:+ "://" +:+ host
      else scheme +:+ "://" +:+ host +:+ ":" +:+ pretty p
  | None => scheme +:+ "://" +:+ host
  end.
Definition same_origin (a b : string) : bool := bool_decide (origin_of a = origin_of b).
Definition origin_prefix (url : string) : string :=
  match scheme_of url with
  | Some scheme => scheme +:+ "://" +:+ authority_of url
  | None => EmptyString
  end.

(** ** Resolution *)

(** [split_query], [strip_fragment]. *)
Definition split_query (reference : string) : string * option string :=
  match split_once "?" reference with
  | Some (path, query) => (path, Some query)
  | None => (reference, None)
  end.
Definition strip_fragment (reference : string) : string :=
  match split_once "#" reference with Some (before, _) => before | None => reference end.

(** [remove_dot_segments]: the loop over the segments, the kept ones in reverse. *)
Fixpoint dot_segments (out segments : list string) : list string :=
  match segments with
  | [] => out
  | segment :: rest =>
      let last := match rest with [] => true | _ => false end in
      if bool_decide (segment = ".") then
        dot_segments (if last then EmptyString :: out else out) rest
      else if bool_decide (segment = "..") then
        let out := tail out in
        dot_segments (if last then EmptyString :: out else out) rest
      else dot_segments (segment :: out) rest
  end.
Definition remove_dot_segments (path : string) : string :=
  match path with
  | String "/" body => String "/" (join "/" (rev (dot_segments [] (split "/" body))))
  | body => join "/" (rev (dot_segments [] (split "/" body)))
  end.

(** [merge_paths]. *)
Definition merge_paths (base_path reference : string) : string :=
  match rsplit_once "/" base_path with
  | Some (before, _) => before +:+ "/" +:+ reference
  | None => "/" +:+ reference
  end.

Definition with_query (url : string) (query : option string) : string :=
  match query with Some query => url +:+ "?" +:+ query | None => url end.
(** [after_path_start], [normalize]. *)
Definition after_path_start (url : string) : string := snd (break slash_query (after_scheme url)).
Definition normalize (url : string) : string :=
  let '(path, query) := split_query (after_path_start url) in
  let path := remove_dot_segments (match path with EmptyString => "/" | path => path end) in
  with_query (origin_prefix url +:+ path) query.

(** [resolve_reference]. *)
Definition resolve_reference (base reference : string) : string :=
  let reference := trim (strip_fragment reference) in
  if has_scheme reference then normalize reference
  else
    let base := strip_fragment base in
    match strip_prefix "//" reference with
    | Some rest => normalize (default "https" (scheme_of base) +:+ "://" +:+ rest)
    | None =>
        match reference with
        | EmptyString => base
        | _ =>
            let prefix := origin_prefix base in
            match strip_prefix "?" reference with
            | Some query => prefix +:+ path_of base +:+ "?" +:+ query
            | None =>
                let '(ref_path, ref_query) := split_query reference in
                let merged :=
                  match ref_path with
                  | String "/" _ => ref_path
                  | _ => merge_paths (path_of base) ref_path
                  end in
                with_query (prefix +:+ remove_dot_segments merged) ref_query
            end
        end
    end.

(** The reference resolutions of RFC 3986, section 5.4.1, as the tests of [uri.rs] list them. *)
Example rfc_3986_examples :
  (resolve_reference "http://a/b/c/d;p?q" <$>
     ["g"; "./g"; "g/"; "/g"; "//g"; "?y"; "g?y"; ""; "../g"; "../.."; "../../g"; "g;x"; "./../g";
      "g/./h"; "g/../h"; "http://x.test/y"; "/c#two"; "../../../g"]) =
  ["http://a/b/c/g"; "http://a/b/c/g"; "http://a/b/c/g/"; "http://a/g"; "http://g/";
   "http://a/b/c/d;p?y"; "http://a/b/c/g?y"; "http://a/b/c/d;p?q"; "http://a/b/g"; "http://a/";
   "http://a/g"; "http://a/b/c/g;x"; "http://a/b/g"; "http://a/b/c/g/h"; "http://a/b/c/h";
   "http://x.test/y"; "http://a/c"; "http://a/g"].
Proof. vm_compute. reflexivity. Qed.
Example origins_of_one_server :
  (origin_of <$> ["https://API.Example.com/x"; "https://api.example.com:443/x";
     "HTTPS://api.example.com/y?z=1"; "https://user@api.example.com/x"]) =
  ["https://api.example.com"; "https://api.example.com"; "https://api.example.com";
   "https://api.example.com"].
Proof. vm_compute. reflexivity. Qed.
Example ipv6_boundaries :
  host_of "http://[::1]:8080/x" = "[::1]" /\ port_of "http://[::1]:8080/x" = Some 8080%N /\
  host_of "https://user:pw@api.example.com:8443/v1/items?page=2#frag" = "api.example.com" /\
  path_of "https://user:pw@api.example.com:8443/v1/items?page=2#frag" = "/v1/items".
Proof. repeat split; vm_compute; reflexivity. Qed.

#[local] Arguments char_eq _ _ : simpl never.

Lemma char_eq_spec c d : char_eq c d = true <-> c = d.
Proof. apply Ascii.eqb_eq. Qed.
Lemma char_eq_refl c : char_eq c c = true.
Proof. by apply char_eq_spec. Qed.
Lemma char_eq_ne c d : c <> d -> char_eq c d = false.
Proof. intros Hn. apply not_true_iff_false. by rewrite char_eq_spec. Qed.
Lemma string_app_assoc s t u : (s +:+ t) +:+ u = s +:+ t +:+ u.
Proof. induction s as [|c s IH]; [done|]. exact (f_equal (String c) IH). Qed.
Lemma string_app_nil s : s +:+ EmptyString = s.
Proof. induction s as [|c s IH]; [done|]. exact (f_equal (String c) IH). Qed.

(** ** Segments and paths *)

Definition no_slash (s : string) : bool := all_chars (λ c, negb (char_eq "/" c)) s.
(** The path of a list of segments. *)
Fixpoint render_kept (segs : list string) : string :=
  match segs with [] => EmptyString | s :: segs => String "/" (s +:+ render_kept segs) end.

Lemma render_app l k : render_kept (l ++ k) = render_kept l +:+ render_kept k.
Proof.
  induction l as [|s l IH]; [done|]. cbn [render_kept app]. rewrite IH, <- string_app_assoc. done.
Qed.
Lemma render_join segs : segs <> [] -> String "/" (join "/" segs) = render_kept segs.
Proof.
  induction segs as [|s segs IH]; [done|]. intros _. destruct segs as [|s' segs].
  - cbn. by rewrite string_app_nil.
  - cbn [join render_kept]. f_equal. f_equal. by apply IH.
Qed.
Lemma split_render body : render_kept (split "/" body) = String "/" body.
Proof.
  induction body as [|c body IH]; [done|]. cbn [split]. destruct (char_eq "/" c) eqn:E.
  - apply char_eq_spec in E as <-. cbn [render_kept]. by rewrite IH.
  - destruct (split "/" body) as [|s segs]; [done|]. cbn [render_kept] in *.
    by injection IH as <-.
Qed.
Lemma split_no_slash body : Forall (λ s, no_slash s = true) (split "/" body).
Proof.
  induction body as [|c body IH]; [by repeat constructor|]. cbn [split].
  destruct (char_eq "/" c) eqn:E; [by constructor|].
  destruct (split "/" body) as [|s segs].
  { constructor; [|constructor]. cbn. by rewrite E. }
  inversion IH; subst. constructor; [|done]. cbn. by rewrite E.
Qed.
Lemma split_not_nil body : split "/" body <> [].
Proof. destruct body as [|c body]; cbn; [done|]. destruct (char_eq "/" c); [done|]. by case_match. Qed.

(** Breaking a path at the end of its first segment, and dropping its last. *)
Definition until_slash (s : string) : string * string := break (char_eq "/") s.
Lemma break_render s segs : no_slash s = true -> until_slash (s +:+ render_kept segs) = (s, render_kept segs).
Proof.
  unfold until_slash. induction s as [|c s IH].
  - by destruct segs.
  - intros [Hc Hs]%andb_true_iff. apply negb_true_iff in Hc.
    change (String c s +:+ render_kept segs) with (String c (s +:+ render_kept segs)).
    cbn [break]. rewrite Hc. by rewrite IH.
Qed.
Lemma rsplit_no_slash s : no_slash s = true -> rsplit_once "/" s = None.
Proof.
  induction s as [|c s IH]; cbn; [done|]. intros [Hc Hs]%andb_true_iff. apply negb_true_iff in Hc.
  by rewrite IH, Hc.
Qed.
Lemma rsplit_app s t a b : rsplit_once "/" t = Some (a, b) -> rsplit_once "/" (s +:+ t) = Some (s +:+ a, b).
Proof.
  intros Ht. induction s as [|c s IH]; [done|].
  change (String c s +:+ t) with (String c (s +:+ t)). cbn [rsplit_once]. by rewrite IH.
Qed.
Lemma rsplit_render l s : no_slash s = true -> rsplit_once "/" (render_kept (l ++ [s])) = Some (render_kept l, s).
Proof.
  intros Hs. rewrite render_app.
  rewrite (rsplit_app _ _ EmptyString s); [by rewrite string_app_nil|].
  cbn [render_kept]. rewrite string_app_nil. cbn [rsplit_once]. by rewrite rsplit_no_slash.
Qed.

(** ** The algorithm of the RFC, on the input and output buffers *)

(** Step C drops the last segment of the output and the slash before it. *)
Definition drop_last (output : string) : string :=
  match rsplit_once "/" output with Some (before, _) => before | None => EmptyString end.
Fixpoint rfc_remove (fuel : nat) (input output : string) : string :=
  match fuel with
  | O => output
  | S fuel =>
      match strip_prefix "../" input, strip_prefix "./" input with
      | Some rest, _ | None, Some rest => rfc_remove fuel rest output
      | None, None =>
          match strip_prefix "/./" input, strip_prefix "/../" input with
          | Some rest, _ => rfc_remove fuel (String "/" rest) output
          | None, Some rest => rfc_remove fuel (String "/" rest) (drop_last output)
          | None, None =>
              if bool_decide (input = EmptyString) then output
              else if bool_decide (input = "/.") then rfc_remove fuel "/" output
              else if bool_decide (input = "/..") then rfc_remove fuel "/" (drop_last output)
              else if bool_decide (input = ".") || bool_decide (input = "..") then output
              else
                match input with
                | String "/" body =>
                    let '(seg, rest) := until_slash body in
                    rfc_remove fuel rest (output +:+ String "/" seg)
                | _ =>
                    let '(seg, rest) := until_slash input in
                    rfc_remove fuel rest (output +:+ seg)
                end
          end
      end
  end.
Definition rfc_remove_dot_segments (path : string) : string :=
  rfc_remove (S (String.length path)) path EmptyString.

(** Which segments the prefixes of steps B and C see. *)
Lemma strip_slash (seg : string) rest :
  no_slash seg = true ->
  strip_prefix "/" (seg +:+ render_kept rest) =
    match seg, rest with EmptyString, r :: rs => Some (r +:+ render_kept rs) | _, _ => None end.
Proof.
  destruct seg as [|c seg]; [by destruct rest|]. intros [Hc _]%andb_true_iff.
  apply negb_true_iff in Hc.
  change (strip_prefix "/" (String c seg +:+ render_kept rest)) with
    (if char_eq "/" c then Some (seg +:+ render_kept rest) else None). by rewrite Hc.
Qed.
Lemma strip_dot seg rest :
  no_slash seg = true ->
  strip_prefix "./" (seg +:+ render_kept rest) =
    if decide (seg = ".") then match rest with r :: rs => Some (r +:+ render_kept rs) | [] => None end
    else None.
Proof.
  destruct seg as [|c seg]; [by destruct rest|]. intros [_ Hs]%andb_true_iff.
  change (strip_prefix "./" (String c seg +:+ render_kept rest)) with
    (if char_eq "." c then strip_prefix "/" (seg +:+ render_kept rest) else None).
  rewrite strip_slash by done. destruct (char_eq "." c) eqn:E.
  - apply char_eq_spec in E as <-. destruct seg; [by rewrite decide_True|by rewrite decide_False].
  - rewrite decide_False; [done|]. intros [= -> ->]. by rewrite char_eq_refl in E.
Qed.
Lemma strip_dots seg rest :
  no_slash seg = true ->
  strip_prefix "../" (seg +:+ render_kept rest) =
    if decide (seg = "..") then match rest with r :: rs => Some (r +:+ render_kept rs) | [] => None end
    else None.
Proof.
  destruct seg as [|c seg]; [by destruct rest|]. intros [_ Hs]%andb_true_iff.
  change (strip_prefix "../" (String c seg +:+ render_kept rest)) with
    (if char_eq "." c then strip_prefix "./" (seg +:+ render_kept rest) else None).
  rewrite strip_dot by done. destruct (char_eq "." c) eqn:E.
  - apply char_eq_spec in E as <-.
    destruct (decide (seg = ".")) as [->|Hn]; [by rewrite decide_True|].
    rewrite decide_False; [done|]. by intros [= ->].
  - rewrite decide_False; [done|]. intros [= -> ->]. by rewrite char_eq_refl in E.
Qed.
(** A path is a slash and some text in one way only, up to where the text has a slash. *)
Lemma render_is_segment seg rest t :
  no_slash t = true -> seg +:+ render_kept rest = t -> seg = t /\ rest = [].
Proof.
  revert t. induction seg as [|c seg IH]; intros t Ht E.
  - destruct rest as [|r rest]; [by subst|]. change (String "/" (r +:+ render_kept rest) = t) in E. by subst.
  - change (String c (seg +:+ render_kept rest) = t) in E. subst t. apply andb_true_iff in Ht as [_ Ht].
    destruct (IH _ Ht eq_refl) as [E ->]. by rewrite <- E.
Qed.

Lemma rfc_remove_cons fuel seg rest output :
  no_slash seg = true ->
  rfc_remove (S fuel) (render_kept (seg :: rest)) output =
    if decide (seg = ".") then
      rfc_remove fuel (match rest with [] => "/" | _ => render_kept rest end) output
    else if decide (seg = "..") then
      rfc_remove fuel (match rest with [] => "/" | _ => render_kept rest end) (drop_last output)
    else rfc_remove fuel (render_kept rest) (output +:+ String "/" seg).
Proof.
  intros Hs. cbn [render_kept rfc_remove].
  change (strip_prefix "../" (String "/" (seg +:+ render_kept rest))) with (@None string).
  change (strip_prefix "./" (String "/" (seg +:+ render_kept rest))) with (@None string).
  change (strip_prefix "/./" (String "/" (seg +:+ render_kept rest))) with (strip_prefix "./" (seg +:+ render_kept rest)).
  change (strip_prefix "/../" (String "/" (seg +:+ render_kept rest))) with (strip_prefix "../" (seg +:+ render_kept rest)).
  rewrite strip_dot, strip_dots by done. cbn [mbind].
  destruct (decide (seg = ".")) as [->|H1]; [by destruct rest|].
  destruct (decide (seg = "..")) as [->|H2]; [by destruct rest|].
  rewrite (bool_decide_false (_ = EmptyString)) by done.
  rewrite (bool_decide_false (_ = "/.")).
  2: { intros [= E]. apply (render_is_segment seg rest ".") in E as [-> _]; done. }
  rewrite (bool_decide_false (_ = "/..")).
  2: { intros [= E]. apply (render_is_segment seg rest "..") in E as [-> _]; done. }
  rewrite !(bool_decide_false (String "/" _ = _)) by done. cbn [orb].
  rewrite break_render by done. done.
Qed.

Lemma drop_last_render out :
  Forall (λ s, no_slash s = true) out -> drop_last (render_kept (rev out)) = render_kept (rev (tail out)).
Proof.
  destruct out as [|s out]; [done|]. inversion 1; subst. cbn [rev tail]. unfold drop_last.
  by rewrite rsplit_render.
Qed.
Lemma length_app_string s t : String.length (s +:+ t) = String.length s + String.length t.
Proof. induction s as [|c s IH]; [done|]. exact (f_equal S IH). Qed.
Lemma render_snoc out seg : render_kept (rev out) +:+ String "/" seg = render_kept (rev (seg :: out)).
Proof. cbn [rev]. rewrite render_app. cbn [render_kept]. by rewrite string_app_nil. Qed.

Lemma rfc_remove_render fuel segs out :
  Forall (λ s, no_slash s = true) segs -> Forall (λ s, no_slash s = true) out ->
  String.length (render_kept segs) < fuel ->
  rfc_remove fuel (render_kept segs) (render_kept (rev out)) = render_kept (rev (dot_segments out segs)).
Proof.
  revert segs out. induction fuel as [|fuel IH]; intros segs out Hsegs Hout Hf; [lia|].
  destruct segs as [|seg rest]; [done|]. inversion Hsegs as [|? ? Hs Hrest]; subst.
  assert (Htail : Forall (λ s, no_slash s = true) (tail out)) by (by inversion Hout).
  rewrite rfc_remove_cons by done. cbn [render_kept String.length] in Hf. rewrite length_app_string in Hf.
  assert (Hend : forall o, Forall (λ s, no_slash s = true) o -> 0 < String.length seg ->
    rfc_remove fuel (match rest with [] => "/" | _ => render_kept rest end) (render_kept (rev o)) =
      render_kept (rev (dot_segments (match rest with [] => EmptyString :: o | _ => o end) rest))).
  { intros o Ho Hl. destruct rest as [|r rest].
    - change "/" with (render_kept [EmptyString]). rewrite IH; [reflexivity| |done|change (1 < fuel); cbn in Hf; lia].
      constructor; [reflexivity|constructor].
    - apply IH; [done|done|lia]. }
  cbn [dot_segments].
  destruct (decide (seg = ".")) as [->|H1].
  { rewrite bool_decide_true by done. rewrite Hend by (done || (cbn; lia)). by destruct rest. }
  rewrite bool_decide_false by done. destruct (decide (seg = "..")) as [->|H2].
  { rewrite bool_decide_true by done. rewrite drop_last_render by done.
    rewrite Hend by (done || (cbn; lia)). by destruct rest. }
  rewrite bool_decide_false, render_snoc by done. apply IH; [done|by constructor|lia].
Qed.

(** ** What is kept *)

Definition dotted (s : string) : bool := bool_decide (s = ".") || bool_decide (s = "..").
Lemma dot_segments_clean out segs :
  Forall (λ s, dotted s = false) out -> Forall (λ s, dotted s = false) (dot_segments out segs).
Proof.
  revert out. induction segs as [|s segs IH]; intros out Hout; [done|]. cbn [dot_segments].
  assert (Hl : forall o, Forall (λ s, dotted s = false) o ->
    Forall (λ s, dotted s = false) (dot_segments (if match segs with [] => true | _ => false end then EmptyString :: o else o) segs)).
  { intros o Ho. apply IH. destruct segs; [by constructor|done]. }
  case_bool_decide as H1; [by apply Hl|]. case_bool_decide as H2; [apply Hl; by inversion Hout|].
  apply IH. constructor; [|done]. unfold dotted. by rewrite !bool_decide_false.
Qed.
Lemma dot_segments_no_slash out segs :
  Forall (λ s, no_slash s = true) out -> Forall (λ s, no_slash s = true) segs ->
  Forall (λ s, no_slash s = true) (dot_segments out segs).
Proof.
  revert out. induction segs as [|s segs IH]; intros out Hout Hsegs; [done|]. cbn [dot_segments].
  inversion Hsegs as [|? ? Hs Hsegs']; subst.
  assert (Hl : forall o, Forall (λ s, no_slash s = true) o ->
    Forall (λ s, no_slash s = true) (dot_segments (if match segs with [] => true | _ => false end then EmptyString :: o else o) segs)).
  { intros o Ho. apply IH; [|done]. destruct segs; [by constructor|done]. }
  case_bool_decide as H1; [by apply Hl|]. case_bool_decide as H2; [apply Hl; by inversion Hout|].
  apply IH; [by constructor|done].
Qed.
Lemma dot_segments_not_nil out segs : segs <> [] \/ out <> [] -> dot_segments out segs <> [].
Proof.
  revert out. induction segs as [|s segs IH]; intros out Hne; cbn [dot_segments]; [by destruct Hne|].
  destruct segs as [|s' segs].
  - cbn. by repeat case_bool_decide.
  - repeat case_bool_decide; apply IH; by left.
Qed.
Lemma split_app s t : no_slash s = true -> split "/" (s +:+ String "/" t) = s :: split "/" t.
Proof.
  induction s as [|c s IH]; [done|]. intros [Hc Hs]%andb_true_iff. apply negb_true_iff in Hc.
  change (split "/" (String c s +:+ String "/" t)) with
    (if char_eq "/" c then EmptyString :: split "/" (s +:+ String "/" t)
     else match split "/" (s +:+ String "/" t) with
          | seg :: segs => String c seg :: segs | [] => [String c EmptyString] end).
  by rewrite Hc, IH.
Qed.
Lemma split_plain s : no_slash s = true -> split "/" s = [s].
Proof.
  induction s as [|c s IH]; [done|]. intros [Hc Hs]%andb_true_iff. apply negb_true_iff in Hc.
  cbn [split]. by rewrite Hc, IH.
Qed.
Lemma split_join segs :
  segs <> [] -> Forall (λ s, no_slash s = true) segs -> split "/" (join "/" segs) = segs.
Proof.
  intros Hne Hs. induction Hs as [|s segs Hs Hsegs IH]; [done|]. destruct segs as [|s' segs].
  - cbn [join]. by apply split_plain.
  - change (join "/" (s :: s' :: segs)) with (s +:+ String "/" (join "/" (s' :: segs))).
    rewrite split_app by done. by rewrite IH.
Qed.

(** An absolute path without dot segments, as the RFC's algorithm leaves it. *)
Lemma remove_absolute body :
  exists segs, remove_dot_segments (String "/" body) = String "/" (join "/" segs) /\ segs <> [] /\
    Forall (λ s, no_slash s = true) segs /\ Forall (λ s, dotted s = false) segs /\
    render_kept segs = rfc_remove_dot_segments (String "/" body).
Proof.
  pose proof (split_no_slash body) as Hs. pose proof (split_not_nil body) as Hne.
  exists (rev (dot_segments [] (split "/" body))). split; [done|].
  split; [|split; [|split]].
  - intros E. apply (f_equal (@rev _)) in E. rewrite rev_involutive in E.
    by apply (dot_segments_not_nil [] (split "/" body)); [left|].
  - apply Forall_rev, dot_segments_no_slash; [constructor|done].
  - apply Forall_rev, dot_segments_clean. constructor.
  - unfold rfc_remove_dot_segments. rewrite <- split_render.
    rewrite (rfc_remove_render _ (split "/" body) []); [done|done|constructor|lia].
Qed.

(** ** Origins *)

Definition stops (p : ascii -> bool) (t : string) : bool :=
  match t with EmptyString => true | String c _ => p c end.
Lemma break_app p s t :
  all_chars (λ c, negb (p c)) s = true -> stops p t = true -> break p (s +:+ t) = (s, t).
Proof.
  intros Hs Ht. induction s as [|c s IH].
  - destruct t as [|c t]; [done|]. change (break p (String c t) = (EmptyString, String c t)).
    cbn [break]. cbn in Ht. by rewrite Ht.
  - apply andb_true_iff in Hs as [Hc Hs]. apply negb_true_iff in Hc.
    change (String c s +:+ t) with (String c (s +:+ t)). cbn [break]. by rewrite Hc, IH.
Qed.
Lemma break_before p s : all_chars (λ c, negb (p c)) (fst (break p s)) = true.
Proof.
  induction s as [|c s IH]; [done|]. cbn. destruct (p c) eqn:E; [done|].
  destruct (break p s) as [a b]. cbn in *. by rewrite E.
Qed.

(** A scheme has no colon, so the separator found is the one after it. *)
Lemma is_scheme_no_colon s : is_scheme s = true -> all_chars (λ c, negb (char_eq ":" c)) s = true.
Proof.
  assert (Hc : forall c, is_ascii_alphanumeric c || char_eq c "+" || char_eq c "-" || char_eq c "." = true ->
    char_eq ":" c = false).
  { intros c Hc. apply char_eq_ne. intros <-. by vm_compute in Hc. }
  destruct s as [|c s]; [done|]. cbn [is_scheme all_chars]. intros [Ha Hs]%andb_true_iff.
  rewrite Hc by (unfold is_ascii_alphanumeric; by rewrite Ha). cbn.
  induction s as [|d s IH]; [done|]. cbn [all_chars] in *. apply andb_true_iff in Hs as [Hd Hs].
  rewrite Hc by done. by apply IH.
Qed.
Lemma split_separator s t :
  all_chars (λ c, negb (char_eq ":" c)) s = true -> split_once_str "://" (s +:+ "://" +:+ t) = Some (s, t).
Proof.
  induction s as [|c s IH]; [done|]. intros [Hc Hs]%andb_true_iff. apply negb_true_iff in Hc.
  change (split_once_str "://" (String c s +:+ "://" +:+ t)) with
    (match (if char_eq ":" c then strip_prefix "//" (s +:+ "://" +:+ t) else None) with
     | Some rest => Some (EmptyString, rest)
     | None => option_map (λ '(a, b), (String c a, b)) (split_once_str "://" (s +:+ "://" +:+ t))
     end).
  by rewrite Hc, IH.
Qed.
Lemma split_separator_inv s a b : split_once_str "://" s = Some (a, b) -> s = a +:+ "://" +:+ b.
Proof.
  revert a b. induction s as [|c s IH]; intros a b; [done|]. cbn [split_once_str].
  destruct (strip_prefix "://" (String c s)) as [rest|] eqn:E.
  - intros [= <- <-]. revert E. cbn. destruct (char_eq ":" c) eqn:E1; [|done].
    apply char_eq_spec in E1 as <-. destruct s as [|d [|e s]]; cbn; [done|by destruct (char_eq "/" d)|].
    destruct (char_eq "/" d) eqn:E2; [|done]. apply char_eq_spec in E2 as <-.
    destruct (char_eq "/" e) eqn:E3; [|done]. apply char_eq_spec in E3 as <-. by intros [= ->].
  - destruct (split_once_str "://" s) as [[a' b']|]; [|done]. cbn. intros [= <- <-].
    by rewrite (IH a' b' eq_refl).
Qed.

(** The parts of a URL put together again. *)
Lemma url_parts scheme authority tail :
  is_scheme scheme = true -> all_chars (λ c, negb (slash_query_fragment c)) authority = true ->
  stops slash_query_fragment tail = true ->
  let url := (scheme +:+ "://" +:+ authority) +:+ tail in
  scheme_of url = Some scheme /\ authority_of url = authority.
Proof.
  intros Hs Ha Ht url.
  assert (E : split_once_str "://" url = Some (scheme, authority +:+ tail)).
  { unfold url. rewrite string_app_assoc, string_app_assoc. apply split_separator.
    by apply is_scheme_no_colon. }
  assert (Esch : scheme_of url = Some scheme) by (unfold scheme_of; rewrite E; cbn; by rewrite Hs).
  split; [done|]. unfold authority_of, after_scheme. rewrite Esch, E, Hs, break_app by done. done.
Qed.
Lemma scheme_of_valid url scheme : scheme_of url = Some scheme -> is_scheme scheme = true.
Proof.
  unfold scheme_of. destruct (split_once_str "://" url) as [[s t]|]; [|done]. cbn.
  destruct (is_scheme s) eqn:E; [|done]. by intros [= <-].
Qed.
Lemma authority_stops url : all_chars (λ c, negb (slash_query_fragment c)) (authority_of url) = true.
Proof. unfold authority_of. destruct (scheme_of url); [apply break_before|done]. Qed.
Lemma origin_of_parts url url' :
  scheme_of url = scheme_of url' -> authority_of url = authority_of url' -> origin_of url = origin_of url'.
Proof. intros Hs Ha. unfold origin_of, host_of, port_of. by rewrite Hs, Ha. Qed.
Lemma origin_prefix_keeps base tail :
  has_scheme base = true -> stops slash_query_fragment tail = true ->
  origin_of (origin_prefix base +:+ tail) = origin_of base.
Proof.
  unfold has_scheme, origin_prefix. intros Hb Ht. destruct (scheme_of base) as [scheme|] eqn:E; [|done].
  destruct (url_parts scheme (authority_of base) tail) as [Es Ea];
    [by eapply scheme_of_valid|apply authority_stops|done|].
  apply origin_of_parts; [by rewrite Es|done].
Qed.

(** ** Relative references *)

Lemma break_break p q s :
  (forall c, q c = true -> p c = true) -> fst (break p (fst (break q s))) = fst (break p s).
Proof.
  intros Hpq. induction s as [|c s IH]; [done|]. cbn. destruct (q c) eqn:Eq.
  - by rewrite Hpq.
  - destruct (break q s) as [a b]. cbn in *. destruct (p c); [done|].
    by destruct (break p a), (break p s); cbn in *; subst.
Qed.
Lemma strip_fragment_break s : strip_fragment s = fst (break (char_eq "#") s).
Proof.
  unfold strip_fragment, split_once. assert (H : forall s, match break (char_eq "#") s with
    | (a, EmptyString) => a = s | _ => True end).
  { clear. induction s as [|c s IH]; [done|]. cbn. destruct (char_eq "#" c) eqn:E; [done|].
    destruct (break (char_eq "#") s) as [a [|]]; [by subst|done]. }
  specialize (H s). by destruct (break (char_eq "#") s) as [a [|]].
Qed.
Lemma all_chars_impl p q s : (forall c, p c = true -> q c = true) -> all_chars p s = true -> all_chars q s = true.
Proof.
  intros Hpq. induction s as [|c s IH]; [done|]. intros [Hc Hs]%andb_true_iff.
  apply andb_true_iff. split; [by apply Hpq|by apply IH].
Qed.
Lemma break_prefix p s t : all_chars (λ c, negb (p c)) s = true -> fst (break p (s +:+ t)) = s +:+ fst (break p t).
Proof.
  induction s as [|c s IH]; [done|]. intros [Hc Hs]%andb_true_iff. apply negb_true_iff in Hc.
  change (String c s +:+ t) with (String c (s +:+ t)). cbn [break]. rewrite Hc.
  specialize (IH Hs). destruct (break p (s +:+ t)) as [a b]. cbn in *. by rewrite IH.
Qed.
Lemma is_scheme_chars s : is_scheme s = true -> all_chars (λ c, negb (char_eq "#" c)) s = true.
Proof.
  assert (Hc : forall c, is_ascii_alphanumeric c || char_eq c "+" || char_eq c "-" || char_eq c "." = true ->
    negb (char_eq "#" c) = true).
  { intros c Hc. apply negb_true_iff, char_eq_ne. intros <-. by vm_compute in Hc. }
  destruct s as [|c s]; [done|]. cbn [is_scheme]. intros [Ha Hs]%andb_true_iff.
  apply andb_true_iff. split; [apply Hc; unfold is_ascii_alphanumeric; by rewrite Ha|].
  exact (all_chars_impl _ _ s Hc Hs).
Qed.
(** Dropping the fragment keeps scheme and authority. *)
Lemma strip_fragment_parts url :
  has_scheme url = true ->
  scheme_of (strip_fragment url) = scheme_of url /\ authority_of (strip_fragment url) = authority_of url.
Proof.
  unfold has_scheme. destruct (scheme_of url) as [scheme|] eqn:E; [|done]. intros _.
  pose proof (scheme_of_valid _ _ E) as Hs. unfold scheme_of in E.
  destruct (split_once_str "://" url) as [[s rest]|] eqn:Eu; [|done]. cbn in E.
  destruct (is_scheme s) eqn:Hs'; [|done]. injection E as ->.
  apply split_separator_inv in Eu as Ei.
  assert (Ef : strip_fragment url = scheme +:+ "://" +:+ fst (break (char_eq "#") rest)).
  { rewrite strip_fragment_break, Ei, break_prefix by (by apply is_scheme_chars). f_equal.
    by rewrite break_prefix. }
  assert (Es : split_once_str "://" (strip_fragment url) = Some (scheme, fst (break (char_eq "#") rest))).
  { rewrite Ef. apply split_separator. by apply is_scheme_no_colon. }
  assert (Esch : scheme_of (strip_fragment url) = Some scheme) by (unfold scheme_of; rewrite Es; cbn; by rewrite Hs).
  assert (Eurl : scheme_of url = Some scheme) by (unfold scheme_of; rewrite Eu; cbn; by rewrite Hs).
  split; [done|]. unfold authority_of, after_scheme. rewrite Esch, Eurl, Es, Eu, Hs.
  apply break_break. intros c Hc. apply char_eq_spec in Hc as <-. done.
Qed.

Definition rooted (path : string) : Prop := exists body, path = String "/" body.
Lemma path_of_rooted url : has_scheme url = true -> rooted (path_of url).
Proof.
  unfold has_scheme, path_of. destruct (scheme_of url); [|done]. intros _.
  destruct (break slash_query_fragment (after_scheme url)) as [a [|c b]] eqn:E; [by eexists|].
  assert (Hr : forall t, rooted t -> rooted (match fst (break query_fragment t) with
    | EmptyString => "/" | path => path end)).
  { intros t [body ->]. cbn. destruct (break query_fragment body) as [x y]. cbn. by eexists. }
  apply Hr. destruct (decide (c = "/"%char)) as [->|Hn]; [by eexists|].
  assert (Hm : forall (A : Type) (x : string -> A) (y : A),
    match c with "/"%char => x b | _ => y end = y).
  { intros A x y. destruct c as [[] [] [] [] [] [] [] []]; done. }
  rewrite (Hm string (λ b, String "/" b) "/"). by eexists.
Qed.
Lemma merge_rooted path reference : rooted path -> rooted (merge_paths path reference).
Proof.
  intros [body ->]. unfold merge_paths. cbn [rsplit_once].
  destruct (rsplit_once "/" body) as [[a b]|]; [by eexists|].
  rewrite char_eq_refl. by eexists.
Qed.
Lemma remove_rooted path : rooted path -> rooted (remove_dot_segments path).
Proof. intros [body ->]. by eexists. Qed.
Lemma rooted_stops path tail : rooted path -> stops slash_query_fragment (path +:+ tail) = true.
Proof. by intros [body ->]. Qed.
Lemma rooted_stops_alone path : rooted path -> stops slash_query_fragment path = true.
Proof. by intros [body ->]. Qed.
Lemma with_query_app prefix path query :
  exists tail, with_query (prefix +:+ path) query = prefix +:+ path +:+ tail.
Proof.
  destruct query as [q|]; cbn [with_query].
  - exists ("?" +:+ q). by rewrite string_app_assoc.
  - exists EmptyString. by rewrite string_app_nil.
Qed.
Lemma resolve_keeps_origin base reference :
  has_scheme base = true -> has_scheme (trim (strip_fragment reference)) = false ->
  strip_prefix "//" (trim (strip_fragment reference)) = None ->
  origin_of (resolve_reference base reference) = origin_of base.
Proof.
  intros Hb Hr Hn. unfold resolve_reference. rewrite Hr, Hn.
  destruct (strip_fragment_parts base Hb) as [Es Ea].
  assert (Hb' : has_scheme (strip_fragment base) = true) by (unfold has_scheme in *; by rewrite Es).
  assert (Ho : origin_of (strip_fragment base) = origin_of base) by (by apply origin_of_parts).
  destruct (trim (strip_fragment reference)) as [|c r]; [done|]. rewrite <- Ho.
  destruct (strip_prefix "?" (String c r)) as [query|].
  - apply origin_prefix_keeps; [done|]. by apply rooted_stops, path_of_rooted.
  - destruct (split_query (String c r)) as [ref_path ref_query].
    set (merged := match ref_path with String "/" _ => ref_path | _ => _ end).
    assert (Hm : rooted merged).
    { unfold merged. destruct ref_path as [|d ref_path]; [by apply merge_rooted, path_of_rooted|].
      destruct (decide (d = "/"%char)) as [->|Hd]; [by eexists|].
      assert (Hc : forall (A : Type) (x y : A), match d with "/"%char => x | _ => y end = y).
      { intros A x y. destruct d as [[] [] [] [] [] [] [] []]; done. }
      rewrite Hc. by apply merge_rooted, path_of_rooted. }
    destruct (with_query_app (origin_prefix (strip_fragment base)) (remove_dot_segments merged) ref_query)
      as [tail ->].
    apply origin_prefix_keeps; [done|]. by apply rooted_stops, remove_rooted.
Qed.
