(* ===== verification/Redirect.v ===== *)
(** Redirect following ([crates/noeta-ext-abi/src/redirect.rs]) over the requests and responses
    of [crates/noeta-ext-abi/src/net.rs].

    One hop of the network is a function of a world: what the hosts do is an argument. *)
From Stdlib Require Import Strings.Ascii Strings.String.
From S2P Require Import Prelude Uri.
From stdpp Require Import options.
Open Scope Z_scope.
Open Scope list_scope.

(** [NetRequest], [NetResponse] and [NetError]. *)
Record NetRequest := mkNetRequest {
  method : string;
  url : string;
  headers : list (string * string);
  body : list Z;
  timeout_ms : option Z;
  redirect_limit : option nat;
}.
Record NetResponse := mkNetResponse {
  status : Z;
  response_headers : list (string * string);
  response_body : list Z;
  response_url : string;
}.
Inductive NetErrorKind :=
  Timeout | Dns | Connect | Tls | Protocol | Status | InvalidUrl | OtherError | Interrupted.
Record NetError := mkNetError { error_kind : NetErrorKind; error_url : string; detail : string }.

(** [NetErrorKind::retryable]. *)
Definition retryable (k : NetErrorKind) : bool :=
  match k with Timeout | Dns | Connect => true | _ => false end.

(** [NetResponse::header_value]. *)
Definition header_value (response : NetResponse) (name : string) : option string :=
  '(_, (_, v)) ← list_find (λ h, eq_ignore_ascii_case h.1 name = true) (response_headers response);
  Some v.

Definition DEFAULT_REDIRECT_LIMIT : nat := 10.
(** [is_redirect]. *)
Definition is_redirect (status : Z) : bool :=
  existsb (Z.eqb status) [301; 302; 303; 307; 308].

Definition BODY_HEADERS : list string :=
  ["content-length"; "content-type"; "content-encoding"; "content-language"; "content-location";
   "transfer-encoding"; "content-digest"; "digest"]%string.
Definition CROSS_ORIGIN_HEADERS : list string :=
  ["authorization"; "cookie"; "signature"; "signature-input"]%string.
(** [header_in]. *)
Definition header_in (name : string) (set : list string) : bool :=
  existsb (λ known, eq_ignore_ascii_case name known) set.

Definition is_empty {A} (l : list A) : bool := match l with [] => true | _ => false end.
Definition limit_of (request : NetRequest) : nat := default DEFAULT_REDIRECT_LIMIT (redirect_limit request).

(** The URL a response came from: its own stamp, or the request's URL without one. *)
Definition base_of (request : NetRequest) (response : NetResponse) : string :=
  match response_url response with EmptyString => url request | stamp => stamp end.
(** [redirect_target]. *)
Definition redirect_target (request : NetRequest) (response : NetResponse) (hops : nat) :
    option NetRequest :=
  if negb (is_redirect (status response)) then None
  else if (limit_of request <=? hops)%nat then None
  else
    location ← header_value response "location";
    match trim location with
    | EmptyString => None
    | location =>
        let base := base_of request response in
        let target := resolve_reference base location in
        let method_is_head := eq_ignore_ascii_case (method request) "HEAD" in
        let '(next_method, next_body) :=
          if (status response =? 303) && negb method_is_head then ("GET"%string, [])
          else if ((status response =? 301) || (status response =? 302))
               && eq_ignore_ascii_case (method request) "POST" then ("GET"%string, [])
          else (method request, body request) in
        let kept :=
          if is_empty next_body && negb (is_empty (body request))
          then List.filter (λ h, negb (header_in h.1 BODY_HEADERS)) (headers request)
          else headers request in
        let kept :=
          if negb (same_origin base target)
          then List.filter (λ h, negb (header_in h.1 CROSS_ORIGIN_HEADERS)) kept
          else kept in
        Some (mkNetRequest next_method target kept next_body (timeout_ms request)
                (redirect_limit request))
    end.

(** [follow_redirects]: the outcome, the world after it and the requests that were sent, oldest
    first.  A chain that outlives the fuel answers [None]. *)
Section Follow.
Context {W : Type} (fetch : NetRequest -> W -> W * (NetError + NetResponse)).
Record Chain := mkChain { world : W; outcome : NetError + NetResponse; sent : list NetRequest }.
Definition after (request : NetRequest) (c : Chain) : Chain :=
  mkChain (world c) (outcome c) (request :: sent c).
Fixpoint follow_from (fuel : nat) (current : NetRequest) (hops : nat) (w : W) : option Chain :=
  match fuel with
  | O => None
  | S fuel =>
      let '(w, result) := fetch current w in
      let done := Some (mkChain w result [current]) in
      if (limit_of current <=? hops)%nat then done
      else
        match result with
        | inl _ => done
        | inr response =>
            match redirect_target current response hops with
            | Some next => after current <$> follow_from fuel next (S hops) w
            | None => done
            end
        end
  end.
Definition follow_redirects (fuel : nat) (request : NetRequest) (w : W) : option Chain :=
  follow_from fuel request 0 w.
End Follow.
Arguments Chain : clear implicits.
