(* ===== verification/RedirectProps.v ===== *)
(** URLs and redirects: the algorithm of RFC 3986, and credentials that stay on their origin. *)
From Stdlib Require Import Strings.Ascii Strings.String.
From S2P Require Import Prelude Uri Redirect.
From stdpp Require Import options.
Open Scope Z_scope.
Open Scope list_scope.

(** ** Paths *)

(** C38. The dot segments of an absolute path are removed as RFC 3986 prescribes, buffer step by
    buffer step (section 5.2.4), and none is left in the result. *)
Theorem dot_segments_follow_the_rfc body :
  remove_dot_segments (String "/" body) = rfc_remove_dot_segments (String "/" body) /\
  Forall (λ s, s <> "."%string /\ s <> ".."%string) (split "/" (remove_dot_segments (String "/" body))).
Proof.
  destruct (remove_absolute body) as (segs & -> & Hne & Hs & Hd & <-).
  split; [by apply render_join|].
  change (split "/" (String "/" (join "/" segs))) with (EmptyString :: split "/" (join "/" segs)).
  rewrite split_join by done. constructor; [done|].
  eapply Forall_impl; [exact Hd|]. intros s. unfold dotted.
  intros [H1 H2]%orb_false_iff. by apply bool_decide_eq_false in H1, H2.
Qed.

(** A reference without a scheme or an authority resolves to a URL on the origin of its
    base. *)
Theorem relative_references_stay_on_the_origin base reference :
  has_scheme base = true -> has_scheme (trim (strip_fragment reference)) = false ->
  strip_prefix "//" (trim (strip_fragment reference)) = None ->
  same_origin (resolve_reference base reference) base = true.
Proof. intros. unfold same_origin. by rewrite resolve_keeps_origin, bool_decide_true. Qed.

(** ** One hop *)

Definition is_credential (h : string * string) : bool := header_in h.1 CROSS_ORIGIN_HEADERS.
Definition drops_body (request next : NetRequest) : bool :=
  is_empty (body next) && negb (is_empty (body request)).
Lemma target_inv request response hops next :
  redirect_target request response hops = Some next ->
  exists location kept,
    url next = resolve_reference (base_of request response) location /\
    (hops < limit_of request)%nat /\ is_redirect (status response) = true /\
    timeout_ms next = timeout_ms request /\ redirect_limit next = redirect_limit request /\
    (body next = body request \/ body next = []) /\
    kept = (if drops_body request next
            then List.filter (λ h, negb (header_in h.1 BODY_HEADERS)) (headers request)
            else headers request) /\
    headers next = (if same_origin (base_of request response) (url next) then kept
                    else List.filter (λ h, negb (is_credential h)) kept).
Proof.
  unfold redirect_target. destruct (is_redirect (status response)) eqn:Er; [|done]. cbn [negb].
  case Nat.leb_spec; [done|]. intros Hl.
  destruct (header_value response "location") as [location|]; [|done]. cbn [mbind option_bind].
  destruct (trim location) as [|c location'] eqn:Et; [done|]. cbv zeta.
  set (m := if (_ && _) then _ else _). destruct m as [next_method next_body] eqn:Em.
  assert (Hb : next_body = body request \/ next_body = []).
  { unfold m in Em. repeat case_match; simplify_eq; auto. }
  intros [= <-]. exists (String c location'). eexists. unfold drops_body. cbn [url body headers timeout_ms redirect_limit].
  do 6 (split; [done|]). split; [done|]. by destruct (same_origin _ _).
Qed.
Lemma kept_headers {A} (drop : bool) (f : A -> bool) l (x : A) :
  x ∈ (if drop then List.filter (λ h, negb (f h)) l else l) <->
  x ∈ l /\ (drop = false \/ f x = false).
Proof.
  destruct drop; [|tauto]. rewrite !list_elem_of_In, filter_In, negb_true_iff. intuition congruence.
Qed.
Lemma target_header request response hops next h :
  redirect_target request response hops = Some next ->
  h ∈ headers next <->
    h ∈ headers request /\
    (drops_body request next = false \/ header_in h.1 BODY_HEADERS = false) /\
    (same_origin (base_of request response) (url next) = true \/ is_credential h = false).
Proof.
  intros E. apply target_inv in E as (location & kept & _ & _ & _ & _ & _ & _ & Hk & Hh).
  assert (Hneg : headers next = if negb (same_origin (base_of request response) (url next))
    then List.filter (λ h, negb (is_credential h)) kept else kept)
    by (rewrite Hh; by destruct (same_origin _ _)).
  rewrite Hneg, kept_headers, Hk, kept_headers, negb_false_iff. tauto.
Qed.

(** The request of a redirect: only a redirecting status within the limit leads to one; its
    URL resolves against where the response came from; deadline and limit ride along; the body
    is kept or dropped; and a header survives exactly if it was there, describes no dropped
    body, and is no credential unless the origin stays. *)
Theorem redirect_rewrites_one_hop request response hops next :
  redirect_target request response hops = Some next ->
  is_redirect (status response) = true /\ (hops < limit_of request)%nat /\
  (exists location, url next = resolve_reference (base_of request response) location) /\
  timeout_ms next = timeout_ms request /\ redirect_limit next = redirect_limit request /\
  (body next = body request \/ body next = []) /\
  forall h, h ∈ headers next <->
    h ∈ headers request /\
    (drops_body request next = false \/ header_in h.1 BODY_HEADERS = false) /\
    (same_origin (base_of request response) (url next) = true \/ is_credential h = false).
Proof.
  intros E. pose proof (λ h, target_header _ _ _ _ h E) as Hh.
  apply target_inv in E as (location & kept & Hu & Hl & Hr & Ht & Hlim & Hb & _).
  do 2 (split; [done|]). split; [by exists location|]. do 3 (split; [done|]). exact Hh.
Qed.

(** ** The chain *)

Section Chains.
Context {W : Type} (fetch : NetRequest -> W -> W * (NetError + NetResponse)).

Lemma follow_returns fuel current hops w :
  (limit_of current - hops < fuel)%nat ->
  exists c, follow_from fetch fuel current hops w = Some c /\
    (length (sent c) <= S (limit_of current - hops))%nat.
Proof using.
  revert current hops w. induction fuel as [|fuel IH]; intros current hops w Hf; [lia|].
  cbn [follow_from]. destruct (fetch current w) as [w' result].
  case Nat.leb_spec; intros Hl; [by eexists; split; [reflexivity|cbn; lia]|].
  destruct result as [e|response]; [by eexists; split; [reflexivity|cbn; lia]|].
  destruct (redirect_target current response hops) as [next|] eqn:E;
    [|by eexists; split; [reflexivity|cbn; lia]].
  assert (Hlim : limit_of next = limit_of current).
  { apply target_inv in E as (? & ? & _ & _ & _ & _ & E & _). unfold limit_of. by rewrite E. }
  destruct (IH next (S hops) w') as (c & -> & Hc); [lia|].
  eexists. split; [reflexivity|]. cbn. lia.
Qed.

Lemma follow_sends fuel current hops w c :
  follow_from fetch fuel current hops w = Some c -> (1 <= length (sent c))%nat.
Proof using.
  destruct fuel as [|fuel]; [done|]. cbn [follow_from]. destruct (fetch current w) as [w' result].
  intros E. repeat case_match; simplify_eq/=; try lia.
  destruct (follow_from _ _ _ _ _); simplify_eq/=. lia.
Qed.

(** A host that stamps a response with a URL of the origin it asked. *)
Definition stamps_origin : Prop :=
  forall request w w' response,
    fetch request w = (w', inr response) ->
    response_url response = EmptyString \/ same_origin (response_url response) (url request) = true.

Lemma follow_confines fuel current hops w c :
  stamps_origin -> follow_from fetch fuel current hops w = Some c ->
  Forall (λ r, forall h, h ∈ headers r ->
    h ∈ headers current /\
    (is_credential h = true -> same_origin (url r) (url current) = true)) (sent c).
Proof using.
  intros Hst. revert current hops w c. induction fuel as [|fuel IH]; intros current hops w c; [done|].
  cbn [follow_from]. destruct (fetch current w) as [w' result] eqn:Ef.
  assert (Hself : forall h, h ∈ headers current -> h ∈ headers current /\
    (is_credential h = true -> same_origin (url current) (url current) = true)).
  { intros h Hh. split; [done|]. intros _. unfold same_origin. by rewrite bool_decide_true. }
  assert (Hdone : forall c', Some (mkChain w' result [current]) = Some c' ->
    Forall (λ r, forall h, h ∈ headers r -> h ∈ headers current /\
      (is_credential h = true -> same_origin (url r) (url current) = true)) (sent c')).
  { intros c' [= <-]. by constructor. }
  destruct (limit_of current <=? hops)%nat; [apply Hdone|].
  destruct result as [e|response]; [apply Hdone|].
  destruct (redirect_target current response hops) as [next|] eqn:E; [|apply Hdone].
  destruct (follow_from fetch fuel next (S hops) w') as [c'|] eqn:Ec; [|done]. intros [= <-].
  constructor; [done|]. eapply Forall_impl; [exact (IH _ _ _ _ Ec)|].
  intros r Hr h Hh. destruct (Hr h Hh) as [Hn Hcred]. apply (target_header _ _ _ _ _ E) in Hn as (Hn & _ & Ho).
  split; [done|]. intros Hc. specialize (Hcred Hc).
  destruct Ho as [Hbase|Ho]; [|congruence].
  unfold same_origin in *. apply bool_decide_eq_true in Hbase, Hcred. apply bool_decide_eq_true.
  rewrite Hcred, <- Hbase. unfold base_of. destruct (Hst _ _ _ _ Ef) as [->|Hs]; [done|].
  unfold same_origin in Hs. apply bool_decide_eq_true in Hs. by destruct (response_url response).
Qed.
End Chains.

(** A chain of redirects ends: after at most one request more than the limit, whatever the
    hosts answer. *)
Theorem follow_redirects_returns {W} (fetch : NetRequest -> W -> W * (NetError + NetResponse))
    fuel request w :
  (limit_of request < fuel)%nat ->
  exists c, follow_redirects fetch fuel request w = Some c /\
    (1 <= length (sent c) <= S (limit_of request))%nat.
Proof.
  intros Hf. destruct (follow_returns fetch fuel request 0 w) as (c & E & Hc); [lia|].
  exists c. split; [exact E|]. split; [by eapply follow_sends|]. by rewrite Nat.sub_0_r in Hc.
Qed.

(** C11. Following redirects discloses no credential: every request of a chain carries headers of
    the first one only, and the credentials among them only to URLs of the first one's origin,
    when hosts stamp a response with a URL of the origin that was asked (or with none). *)
Theorem credentials_stay_on_their_origin {W}
    (fetch : NetRequest -> W -> W * (NetError + NetResponse)) fuel request w c :
  stamps_origin fetch -> follow_redirects fetch fuel request w = Some c ->
  Forall (λ r, forall h, h ∈ headers r ->
    h ∈ headers request /\
    (is_credential h = true -> same_origin (url r) (url request) = true)) (sent c).
Proof. apply follow_confines. Qed.

Module RedirectExample.
(** An API host that moves a request to a second host by a 302, which answers it. *)
Definition login : NetRequest :=
  mkNetRequest "POST" "https://api.test/v1/login"
    [("Authorization", "secret"); ("Content-Type", "text/plain"); ("Accept", "*/*")]%string
    [1; 2] None (Some 3%nat).
Definition moved_to (location : string) (request : NetRequest) : NetResponse :=
  mkNetResponse 302 [("Location", location)]%string [] (url request).
Definition hosts (request : NetRequest) (hits : nat) : nat * (NetError + NetResponse) :=
  (S hits,
   if bool_decide (url request = "https://api.test/v1/login"%string)
   then inr (moved_to "../v2/./home?x=1" request)
   else if bool_decide (url request = "https://api.test/v2/home?x=1"%string)
   then inr (moved_to "//cdn.test/done" request)
   else inr (mkNetResponse 200 [] [7] (url request))).
(** Hosts that send every request on to the same place. *)
Definition looping (request : NetRequest) (hits : nat) : nat * (NetError + NetResponse) :=
  (S hits, inr (moved_to "/again" request)).

Example two_hops :
  exists c, follow_redirects hosts 9 login 0%nat = Some c /\ world c = 3%nat /\
  ((λ r, (method r, url r, headers r, body r)) <$> sent c) =
  [("POST", "https://api.test/v1/login",
     [("Authorization", "secret"); ("Content-Type", "text/plain"); ("Accept", "*/*")], [1; 2]);
   ("GET", "https://api.test/v2/home?x=1", [("Authorization", "secret"); ("Accept", "*/*")], []);
   ("GET", "https://cdn.test/done", [("Accept", "*/*")], [])]%string.
Proof. eexists. split; [vm_compute; reflexivity|]. split; vm_compute; reflexivity. Qed.
Example looping_stops_at_the_limit :
  length ∘ sent <$> follow_redirects looping 9 login 0%nat = Some 4%nat.
Proof. vm_compute. reflexivity. Qed.

Lemma relative_references_stay_on_the_origin_witness :
  same_origin (resolve_reference "https://api.test:8443/v1/login" "../v2/home#top")
    "https://api.test:8443/v1/login" = true.
Proof. apply relative_references_stay_on_the_origin; vm_compute; reflexivity. Defined.
Lemma redirect_rewrites_one_hop_witness :
  exists next, redirect_target login (moved_to "//cdn.test/done" login) 1 = Some next /\
    (body next = body login \/ body next = []).
Proof.
  eexists. split; [vm_compute; reflexivity|].
  eapply (redirect_rewrites_one_hop login (moved_to "//cdn.test/done" login) 1).
  vm_compute. reflexivity.
Defined.
Lemma follow_redirects_returns_witness :
  exists c, follow_redirects looping 4 login 0%nat = Some c /\
    (1 <= length (sent c) <= S (limit_of login))%nat.
Proof. apply (follow_redirects_returns looping 4 login 0%nat). vm_compute. lia. Defined.
Lemma hosts_stamp : stamps_origin hosts.
Proof.
  intros request w w' response E. right. unfold hosts in E.
  assert (response_url response = url request) as -> by (repeat case_match; by simplify_eq/=).
  unfold same_origin. by apply bool_decide_true.
Qed.
Lemma credentials_stay_on_their_origin_witness :
  exists c, follow_redirects hosts 9 login 0%nat = Some c /\
  Forall (λ r, forall h, h ∈ headers r ->
    h ∈ headers login /\
    (is_credential h = true -> same_origin (url r) (url login) = true)) (sent c).
Proof.
  eexists. split; [vm_compute; reflexivity|].
  apply (credentials_stay_on_their_origin hosts 9 login 0%nat); [exact hosts_stamp|].
  vm_compute. reflexivity.
Defined.

(** A host that reads a backslash of an https URL as a slash, as the URL standard has it, finds
    the host [evil.test] here. *)
Example backslash_hides_the_host :
  origin_of "https://evil.test\@api.test/" = "https://api.test"%string.
Proof. vm_compute. reflexivity. Qed.
Example credentials_follow_a_backslash :
  (headers <$> redirect_target login (moved_to "https://evil.test\@api.test/" login) 0) =
  Some [("Authorization", "secret"); ("Accept", "*/*")]%string.
Proof. vm_compute. reflexivity. Qed.
End RedirectExample.
