(* ===== verification/Cookies.v ===== *)
(** Cookies: the value a server builds ([crates/noeta-stdlib/src/cookie.rs]) and the jar of a
    client ([crates/noeta-stdlib/src/cookie_jar.rs]).

    Instants are unix milliseconds, as [Z] in the range of [u64]. *)
From Stdlib Require Import Strings.Ascii Strings.String.
From stdpp Require Import pretty.
From S2P Require Import Prelude Words Orders Uri.
From stdpp Require Import options.
Open Scope Z_scope.
Open Scope list_scope.

(** ** A cookie *)

Inductive SameSite := Strict | Lax | AnySite.
(** [SameSite::label]. *)
Definition label (s : SameSite) : string :=
  match s with Strict => "Strict" | Lax => "Lax" | AnySite => "None" end.
Definition is_none (s : SameSite) : bool := match s with AnySite => true | _ => false end.

Record Cookie := mkCookie {
  name : string;
  value : string;
  path : option string;
  domain : option string;
  max_age : option Z;
  http_only : bool;
  secure : bool;
  same_site : SameSite;
}.

(** What the [ArgType] errors of this module say, by the parts their messages name. *)
Inductive CookieError :=
| EmptyName
| NameByte (byte : ascii) (name : string)
| ValueByte (byte : ascii)
| AttributeByte (what : string) (byte : ascii) (value : string)
| UnknownSameSite (raw : string)
| SecureRequired.
Abbreviation Result A := (sum CookieError A).
Definition and_then {A B} (r : Result A) (f : A -> Result B) : Result B :=
  match r with inl e => inl e | inr a => f a end.

(** [SameSite::parse]. *)
Definition parse_same_site (raw : string) : Result SameSite :=
  let s := to_ascii_lowercase raw in
  if bool_decide (s = "strict"%string) then inr Strict
  else if bool_decide (s = "lax"%string) then inr Lax
  else if bool_decide (s = "none"%string) then inr AnySite
  else inl (UnknownSameSite s).

(** The first byte a loop over [bytes] stops at. *)
Fixpoint first_byte (bad : ascii -> bool) (s : string) : option ascii :=
  match s with
  | EmptyString => None
  | String c s => if bad c then Some c else first_byte bad s
  end.
Definition code (c : ascii) : Z := Z.of_N (N_of_ascii c).
Definition printable (c : ascii) : bool := (0x21 <=? code c) && (code c <=? 0x7e).
Definition double_quote : ascii := ascii_of_N 34.
Definition separator (c : ascii) : bool :=
  existsb (char_eq c)
    (["("; ")"; "<"; ">"; "@"; ","; ";"; ":"; "\"; "/"; "["; "]"; "?"; "="; "{"; "}"; " "]%char
     ++ [double_quote; ascii_of_N 9]).
Definition bad_name_byte (c : ascii) : bool := negb (printable c) || separator c.
Definition bad_value_byte (c : ascii) : bool :=
  negb (printable c) || existsb (char_eq c) [double_quote; ","; ";"; "\"]%char.
Definition bad_attribute_byte (c : ascii) : bool :=
  (code c <? 0x20) || (code c =? 0x7f) || char_eq c ";".

(** [validate_name], [validate_value], [validate_attribute]. *)
Definition validate_name (name : string) : Result () :=
  match name with
  | EmptyString => inl EmptyName
  | _ => match first_byte bad_name_byte name with
         | Some byte => inl (NameByte byte name)
         | None => inr ()
         end
  end.
Definition validate_value (value : string) : Result () :=
  match first_byte bad_value_byte value with Some byte => inl (ValueByte byte) | None => inr () end.
Definition validate_attribute (what value : string) : Result () :=
  match first_byte bad_attribute_byte value with
  | Some byte => inl (AttributeByte what byte value)
  | None => inr ()
  end.

(** [Cookie::new] and the builders. *)
Definition new (name value : string) : Result Cookie :=
  and_then (validate_name name) (λ _, and_then (validate_value value) (λ _,
    inr (mkCookie name value (Some "/"%string) None None true false Lax))).
Definition with_value (c : Cookie) (value : string) : Result Cookie :=
  and_then (validate_value value) (λ _,
    inr (mkCookie (name c) value (path c) (domain c) (max_age c) (http_only c) (secure c)
           (same_site c))).
Definition with_path (c : Cookie) (path : string) : Result Cookie :=
  and_then (validate_attribute "path" path) (λ _,
    inr (mkCookie (name c) (value c) (Some path) (domain c) (max_age c) (http_only c) (secure c)
           (same_site c))).
Definition with_domain (c : Cookie) (domain : string) : Result Cookie :=
  and_then (validate_attribute "domain" domain) (λ _,
    inr (mkCookie (name c) (value c) (path c) (Some domain) (max_age c) (http_only c) (secure c)
           (same_site c))).
Definition with_max_age (c : Cookie) (seconds : Z) : Cookie :=
  mkCookie (name c) (value c) (path c) (domain c) (Some seconds) (http_only c) (secure c)
    (same_site c).
Definition with_same_site (c : Cookie) (s : SameSite) : Cookie :=
  mkCookie (name c) (value c) (path c) (domain c) (max_age c) (http_only c)
    (secure c || is_none s) s.
Definition with_secure (c : Cookie) (secure : bool) : Result Cookie :=
  if negb secure && is_none (same_site c) then inl SecureRequired
  else inr (mkCookie (name c) (value c) (path c) (domain c) (max_age c) (http_only c) secure
              (same_site c)).
(** The language's [with_http_only]. *)
Definition with_http_only (c : Cookie) (http_only : bool) : Cookie :=
  mkCookie (name c) (value c) (path c) (domain c) (max_age c) http_only (secure c) (same_site c).
Definition expired (c : Cookie) : Cookie :=
  mkCookie (name c) EmptyString (path c) (domain c) (Some 0) (http_only c) (secure c) (same_site c).

Definition attribute (key : string) (o : option string) : string :=
  match o with Some v => "; " +:+ key +:+ "=" +:+ v | None => EmptyString end.
Definition flag (key : string) (b : bool) : string := if b then "; " +:+ key else EmptyString.
(** [Cookie::to_header]. *)
Definition to_header (c : Cookie) : string :=
  name c +:+ "=" +:+ value c
  +:+ attribute "Path" (path c)
  +:+ attribute "Domain" (domain c)
  +:+ attribute "Max-Age" (pretty <$> max_age c)
  +:+ "; SameSite=" +:+ label (same_site c)
  +:+ flag "Secure" (secure c)
  +:+ flag "HttpOnly" (http_only c).

(** [header_sets_cookie_named]. *)
Definition header_sets_cookie_named (header_value name : string) : bool :=
  match split_once "=" header_value with
  | Some (candidate, _) => bool_decide (trim candidate = name)
  | None => false
  end.

(** [strip_suffix] of a character. *)
Definition strip_suffix_char (c : ascii) (s : string) : option string :=
  reversed <$> strip_prefix (String c EmptyString) (reversed s).
(** [parse_cookie_header]. *)
Definition unquote (v : string) : string :=
  match strip_prefix (String double_quote EmptyString) v ≫= strip_suffix_char double_quote with
  | Some inner => inner
  | None => v
  end.
Definition parse_pair (pair : string) : option (string * string) :=
  '(name, value) ← split_once "=" pair;
  match trim name with
  | EmptyString => None
  | name => Some (name, unquote (trim value))
  end.
Definition parse_cookie_header (header : string) : list (string * string) :=
  omap parse_pair (split ";" header).

(** ** Dates *)

(** [split] with a predicate, [trim_start_matches] of a character. *)
Fixpoint split_where (p : ascii -> bool) (s : string) : list string :=
  match s with
  | EmptyString => [EmptyString]
  | String d rest =>
      if p d then EmptyString :: split_where p rest
      else match split_where p rest with
           | seg :: segs => String d seg :: segs
           | [] => [String d EmptyString]
           end
  end.
Fixpoint trim_start_matches (c : ascii) (s : string) : string :=
  match s with
  | String d rest => if char_eq c d then trim_start_matches c rest else s
  | EmptyString => s
  end.

Definition I64_MAX : Z := 2 ^ 63 - 1.
Definition U64_MAX : Z := 2 ^ 64 - 1.
Definition saturating_u64 (z : Z) : Z := z `min` U64_MAX.

(** [leading_number]. *)
Definition leading_number (token : string) (limit : nat) : option Z :=
  match fst (break (λ c, negb (is_ascii_digit c)) token) with
  | EmptyString => None
  | digits => if (limit <? String.length digits)%nat then None else Z.of_N <$> digits_value 0 digits
  end.
(** [parse_time]: [splitn(3, ':')]. *)
Definition parse_time (token : string) : option (Z * Z * Z) :=
  '(hour, rest) ← split_once ":" token;
  hour ← leading_number hour 2;
  '(minute, second) ← split_once ":" rest;
  minute ← leading_number minute 2;
  second ← leading_number second 2;
  Some (hour, minute, second).
(** [days_from_civil]. *)
Definition days_from_civil (year month day : Z) : Z :=
  let year := year - (if month <=? 2 then 1 else 0) in
  let era := year / 400 in
  let year_of_era := year mod 400 in
  let day_of_year := (153 * (month + (if 2 <? month then -3 else 9)) + 2) / 5 + day - 1 in
  let day_of_era := year_of_era * 365 + year_of_era / 4 - year_of_era / 100 + day_of_year in
  era * 146097 + day_of_era - 719468.

Definition MONTHS : list string :=
  ["jan"; "feb"; "mar"; "apr"; "may"; "jun"; "jul"; "aug"; "sep"; "oct"; "nov"; "dec"]%string.
Definition month_of (token : string) : option Z :=
  let head := if (String.length token <? 3)%nat then EmptyString
              else to_ascii_lowercase (substring 0 3 token) in
  (λ m, Z.of_nat m.1 + 1) <$> list_find (λ m, m = head) MONTHS.

(** The four fields [parse_cookie_date] fills, and one turn of its loop. *)
Record DateParts := mkDateParts {
  time_part : option (Z * Z * Z);
  day_part : option Z;
  month_part : option Z;
  year_part : option Z;
}.
Definition first_some {A} (o : option A) (f : option A) : option A :=
  match o with Some _ => None | None => f end.
Definition date_token (p : DateParts) (token : string) : DateParts :=
  match token with
  | EmptyString => p
  | _ =>
    match first_some (time_part p) (parse_time token) with
    | Some t => mkDateParts (Some t) (day_part p) (month_part p) (year_part p)
    | None =>
    match first_some (day_part p) (leading_number token 2) with
    | Some d => mkDateParts (time_part p) (Some d) (month_part p) (year_part p)
    | None =>
    match first_some (month_part p) (month_of token) with
    | Some m => mkDateParts (time_part p) (day_part p) (Some m) (year_part p)
    | None =>
    match first_some (year_part p) (leading_number token 4) with
    | Some y => mkDateParts (time_part p) (day_part p) (month_part p) (Some y)
    | None => p
    end end end end
  end.
Definition full_year (y : Z) : Z :=
  if (70 <=? y) && (y <=? 99) then y + 1900 else if (0 <=? y) && (y <=? 69) then y + 2000 else y.
(** [parse_cookie_date]. *)
Definition parse_cookie_date (value : string) : option Z :=
  let tokens := split_where (λ c, negb (is_ascii_alphanumeric c || char_eq c ":")) value in
  let p := foldl date_token (mkDateParts None None None None) tokens in
  '(hour, minute, second) ← time_part p;
  day ← day_part p;
  month ← month_part p;
  year ← full_year <$> year_part p;
  if negb ((1 <=? day) && (day <=? 31)) || (year <? 1601) || (23 <? hour) || (59 <? minute)
     || (59 <? second)
  then None
  else
    let days := days_from_civil year month day in
    product ← (if Z.abs (days * 86400) <=? I64_MAX then Some (days * 86400) else None);
    let seconds := product + (hour * 3600 + minute * 60 + second) in
    Some (saturating_u64 ((seconds `max` 0) * 1000)).

(** ** A received cookie *)

Record SetCookie := mkSetCookie {
  cookie : Cookie;
  set_domain : option string;
  set_path : option string;
  set_max_age : option Z;
  expires_unix_ms : option Z;
}.
(** [SetCookie::expiry_ms]. *)
Definition expiry_ms (s : SetCookie) (now_ms : Z) : option Z :=
  match set_max_age s with
  | Some max_age =>
      Some (if 0 <? max_age then saturating_u64 (now_ms + saturating_u64 (max_age * 1000)) else 0)
  | None => expires_unix_ms s
  end.

(** [str::parse::<i64>]: an optional sign, then digits, in range. *)
Definition parse_i64 (s : string) : option Z :=
  let '(negative, digits) :=
    match s with
    | String "-" rest => (true, rest)
    | String "+" rest => (false, rest)
    | _ => (false, s)
    end in
  match digits with
  | EmptyString => None
  | _ =>
      n ← digits_value 0 digits;
      let z := if negative : bool then - Z.of_N n else Z.of_N n in
      if (- 2 ^ 63 <=? z) && (z <=? I64_MAX) then Some z else None
  end.

Definition set_same_site (c : Cookie) (s : SameSite) : Cookie :=
  mkCookie (name c) (value c) (path c) (domain c) (max_age c) (http_only c) (secure c) s.
Definition set_http_only (c : Cookie) (b : bool) : Cookie :=
  mkCookie (name c) (value c) (path c) (domain c) (max_age c) b (secure c) (same_site c).
Definition set_secure (c : Cookie) (b : bool) : Cookie :=
  mkCookie (name c) (value c) (path c) (domain c) (max_age c) (http_only c) b (same_site c).
Definition update_cookie (f : Cookie -> Cookie) (s : SetCookie) : SetCookie :=
  mkSetCookie (f (cookie s)) (set_domain s) (set_path s) (set_max_age s) (expires_unix_ms s).

(** One attribute of a header. *)
Definition apply_attribute (parsed : SetCookie) (attribute : string) : SetCookie :=
  let '(key, text) := match split_once "=" attribute with
                       | Some (key, value) => (trim key, trim value)
                       | None => (trim attribute, EmptyString)
                       end in
  let key := to_ascii_lowercase key in
  let c := cookie parsed in
  if bool_decide (key = "domain"%string) then
    match to_ascii_lowercase (trim_start_matches "." text) with
    | EmptyString => parsed
    | domain =>
        mkSetCookie (mkCookie (name c) (value c) (path c) (Some domain) (max_age c)
                       (http_only c) (secure c) (same_site c))
          (Some domain) (set_path parsed) (set_max_age parsed) (expires_unix_ms parsed)
    end
  else if bool_decide (key = "path"%string) then
    mkSetCookie (mkCookie (name c) (value c) (Some text) (domain c) (max_age c)
                   (http_only c) (secure c) (same_site c))
      (set_domain parsed) (Some text) (set_max_age parsed) (expires_unix_ms parsed)
  else if bool_decide (key = "max-age"%string) then
    match parse_i64 text with
    | Some seconds =>
        mkSetCookie (with_max_age c seconds) (set_domain parsed) (set_path parsed) (Some seconds)
          (expires_unix_ms parsed)
    | None => parsed
    end
  else if bool_decide (key = "expires"%string) then
    mkSetCookie c (set_domain parsed) (set_path parsed) (set_max_age parsed)
      (parse_cookie_date text)
  else if bool_decide (key = "secure"%string) then update_cookie (λ c, set_secure c true) parsed
  else if bool_decide (key = "httponly"%string) then update_cookie (λ c, set_http_only c true) parsed
  else if bool_decide (key = "samesite"%string) then
    match parse_same_site text with
    | inr s => update_cookie (λ c, set_same_site c s) parsed
    | inl _ => parsed
    end
  else parsed.
(** [parse_set_cookie]. *)
Definition parse_set_cookie (header : string) : option SetCookie :=
  match split ";" header with
  | [] => None
  | first :: parts =>
      '(name, value) ← split_once "=" first;
      match new (trim name) (trim value) with
      | inl _ => None
      | inr c =>
          let c := set_same_site (set_http_only c false) Lax in
          Some (foldl apply_attribute (mkSetCookie c None None None None) parts)
      end
  end.

(** ** The jar *)

Record StoredCookie := mkStored {
  stored : Cookie;
  stored_domain : string;
  host_only : bool;
  stored_path : string;
  expires_ms : option Z;
  created_ms : Z;
  seq : Z;
}.
(** [expired_at]. *)
Definition expired_at (e : StoredCookie) (now_ms : Z) : bool :=
  match expires_ms e with Some at_ => at_ <=? now_ms | None => false end.

Record CookieJar := mkJar { entries : list StoredCookie; next_seq : Z }.
(** [CookieJar::new], [len], [clear]. *)
Definition empty_jar : CookieJar := mkJar [] 0.
Definition len (jar : CookieJar) : nat := length (entries jar).
Definition clear (jar : CookieJar) : CookieJar := mkJar [] (next_seq jar).

(** [default_path]. *)
Definition default_path (request_path : string) : string :=
  match request_path with
  | String "/" _ =>
      match rsplit_once "/" request_path with
      | Some (EmptyString, _) | None => "/"
      | Some (before, _) => before
      end
  | _ => "/"
  end.
Fixpoint ends_with (s suffix : string) : bool :=
  bool_decide (s = suffix) || match s with EmptyString => false | String _ s => ends_with s suffix end.
Definition starts_with (s pre : string) : bool :=
  match strip_prefix pre s with Some _ => true | None => false end.
(** Whether the byte at an index is this one; the callers stay inside the text. *)
Definition byte_at (s : string) (i : nat) (c : ascii) : bool := bool_decide (String.get i s = Some c).
Definition is_ip (host : string) : bool :=
  starts_with host "["
  || negb (bool_decide (host = EmptyString)) && all_chars (λ c, is_ascii_digit c || char_eq c ".") host.
(** [domain_matches], [path_matches]. *)
Definition domain_matches (host domain : string) : bool :=
  bool_decide (host = domain)
  || negb (is_ip host) && ends_with host domain
     && byte_at host (String.length host - String.length domain - 1) ".".
Definition path_matches (request_path cookie_path : string) : bool :=
  bool_decide (request_path = cookie_path)
  || starts_with request_path cookie_path
     && (ends_with cookie_path "/" || byte_at request_path (String.length cookie_path) "/").

(** What makes two cookies of a jar one: the name, the domain, [host_only] and the path. *)
Definition Key : Type := string * string * bool * string.
Definition key_of (e : StoredCookie) : Key :=
  (name (stored e), stored_domain e, host_only e, stored_path e).
(** [store]: the jar and whether the cookie was stored. *)
Definition store (jar : CookieJar) (url set_cookie : string) (now_ms : Z) : CookieJar * bool :=
  match parse_set_cookie set_cookie with
  | None => (jar, false)
  | Some parsed =>
    let request_host := to_ascii_lowercase (host_of url) in
    let scope :=
      match set_domain parsed with
      | Some domain => if domain_matches request_host domain then Some (domain, false) else None
      | None => Some (request_host, true)
      end in
    match scope with
    | None | Some (EmptyString, _) => (jar, false)
    | Some (domain, only) =>
      let path := match set_path parsed with
                  | Some (String "/" rest) => String "/" rest
                  | _ => default_path (path_of url)
                  end in
      let expires := expiry_ms parsed now_ms in
      let key := (name (cookie parsed), domain, only, path) in
      let existing := list_find (λ e, key_of e = key) (entries jar) in
      if match expires with Some at_ => at_ <=? now_ms | None => false end then
        (mkJar (match existing with
                | Some (index, _) => delete index (entries jar)
                | None => entries jar
                end) (next_seq jar), false)
      else
        let '(kept, created, number, next) :=
          match existing with
          | Some (index, previous) =>
              (delete index (entries jar), created_ms previous, seq previous, next_seq jar)
          | None => (entries jar, now_ms, next_seq jar + 1, next_seq jar + 1)
          end in
        (mkJar (kept ++ [mkStored (cookie parsed) domain only path expires created number]) next,
         true)
    end
  end.
(** [store_response], [insert]. *)
Definition store_response (jar : CookieJar) (url : string) (headers : list (string * string))
    (now_ms : Z) : CookieJar :=
  foldl (λ jar h, if eq_ignore_ascii_case h.1 "set-cookie" then fst (store jar url h.2 now_ms) else jar)
    jar headers.
Definition insert_cookie (jar : CookieJar) (url : string) (c : Cookie) (now_ms : Z) : CookieJar :=
  fst (store jar url (to_header c) now_ms).

(** [sort_by], which is stable. *)
Fixpoint insert_in_order {A} (cmp : A -> A -> comparison) (x : A) (l : list A) : list A :=
  match l with
  | [] => [x]
  | y :: l' => match cmp x y with Gt => y :: insert_in_order cmp x l' | _ => x :: l end
  end.
Definition sorted_by {A} (cmp : A -> A -> comparison) (l : list A) : list A :=
  foldr (insert_in_order cmp) [] l.

Definition send_order (a b : StoredCookie) : comparison :=
  then_with (then_with (Nat.compare (String.length (stored_path b)) (String.length (stored_path a)))
               (Z.compare (created_ms a) (created_ms b)))
    (Z.compare (seq a) (seq b)).
Definition wanted (url : string) (now_ms : Z) (e : StoredCookie) : bool :=
  let host := to_ascii_lowercase (host_of url) in
  negb (expired_at e now_ms)
  && (if host_only e then bool_decide (stored_domain e = host) else domain_matches host (stored_domain e))
  && path_matches (path_of url) (stored_path e)
  && (is_secure url || negb (secure (stored e))).
(** [matching], [header_for]. *)
Definition matching (jar : CookieJar) (url : string) (now_ms : Z) : list StoredCookie :=
  sorted_by send_order (List.filter (wanted url now_ms) (entries jar)).
Definition header_for (jar : CookieJar) (url : string) (now_ms : Z) : option string :=
  match matching jar url now_ms with
  | [] => None
  | matched => Some (join "; " ((λ e, name (stored e) +:+ "=" +:+ value (stored e)) <$> matched))
  end.
(** [snapshot], [by_domain]. *)
Definition snapshot_order (a b : StoredCookie) : comparison :=
  then_with (then_with (String.compare (stored_domain a) (stored_domain b))
               (String.compare (stored_path a) (stored_path b)))
    (String.compare (name (stored a)) (name (stored b))).
Definition snapshot (jar : CookieJar) (now_ms : Z) : list StoredCookie :=
  sorted_by snapshot_order (List.filter (λ e, negb (expired_at e now_ms)) (entries jar)).
Definition by_domain (l : list StoredCookie) : gmap string (list StoredCookie) :=
  foldl (λ m e, partial_alter (λ o, Some (default [] o ++ [e])) (stored_domain e) m) ∅ l.

(** The dates and cookies the tests of [cookie_jar.rs] list. *)
Example dates :
  (parse_cookie_date <$> ["Sun, 06 Nov 1994 08:49:37 GMT"; "Sunday, 06-Nov-94 08:49:37 GMT";
     "Sun Nov  6 08:49:37 1994"; "Thu, 01 Jan 1970 00:00:00 GMT"; "Wed, 31 Dec 1969 23:59:59 GMT";
     "never"; "Sun, 06 Nov 1994"; "Sun, 32 Nov 1994 08:49:37 GMT"]%string) =
  [Some 784111777000; Some 784111777000; Some 784111777000; Some 0; Some 0; None; None; None].
Proof. vm_compute. reflexivity. Qed.
Example days : (days_from_civil 1970 1 1, days_from_civil 2000 2 29, days_from_civil 1969 12 31,
                days_from_civil 1601 1 1) = (0, 11016, -1, -134774).
Proof. reflexivity. Qed.
