(* ===== verification/CookieProps.v ===== *)
(** Cookies: a jar is a finite map from keys to cookies, a cookie goes back only to the site that
    set it, and a header carries the cookie that was built. *)
From Stdlib Require Import Strings.Ascii Strings.String.
From stdpp Require Import pretty sorting.
From S2P Require Import Prelude Words Orders Uri Cookies.
From stdpp Require Import options.
Open Scope Z_scope.
Open Scope list_scope.

(** ** Scopes *)

Lemma ends_with_spec s suffix : ends_with s suffix = true <-> exists pre, s = pre +:+ suffix.
Proof.
  induction s as [|c s IH]; cbn [ends_with].
  - rewrite orb_false_r, bool_decide_eq_true. split; [intros ->; by exists EmptyString|].
    by intros [[|] E].
  - rewrite orb_true_iff, bool_decide_eq_true, IH. split.
    + intros [->|[pre ->]]; [by exists EmptyString|by exists (String c pre)].
    + intros [[|d pre] E]; [by left|]. right. exists pre. by injection E.
Qed.
Lemma strip_prefix_spec pre s rest : strip_prefix pre s = Some rest <-> s = pre +:+ rest.
Proof.
  revert s. induction pre as [|c pre IH]; intros s; cbn [strip_prefix].
  - split; [by intros [= ->]|by intros ->].
  - destruct s as [|d s]; [done|]. destruct (char_eq c d) eqn:E.
    + apply char_eq_spec in E as ->. rewrite IH. change (String d pre +:+ rest) with (String d (pre +:+ rest)).
      split; [by intros ->|by intros [= ->]].
    + split; [done|]. intros [= <- _]. by rewrite char_eq_refl in E.
Qed.
Lemma get_app s t i : String.get (String.length s + i) (s +:+ t) = String.get i t.
Proof. induction s as [|c s IH]; [done|]. exact IH. Qed.
Lemma snoc_string s : s <> EmptyString ->
  exists s' c, s = s' +:+ String c EmptyString /\ String.length s = S (String.length s').
Proof.
  induction s as [|c [|d s] IH]; [done|by exists EmptyString, c|]. intros _.
  destruct IH as (s' & e & -> & Hl); [done|]. exists (String c s'), e. split; [done|]. cbn in *. lia.
Qed.

(** RFC 6265, 5.1.3 and 5.1.4: a host is in a domain, a path is under another. *)
Definition in_domain (host domain : string) : Prop :=
  host = domain \/ is_ip host = false /\ exists label, host = label +:+ "." +:+ domain.
Definition under (request_path cookie_path : string) : Prop :=
  exists rest, request_path = cookie_path +:+ rest /\
    (rest = EmptyString \/ (exists dir, cookie_path = dir +:+ "/") \/ exists more, rest = String "/" more).
Lemma domain_matches_spec host domain : domain_matches host domain = true <-> in_domain host domain.
Proof.
  unfold domain_matches, in_domain. rewrite orb_true_iff, bool_decide_eq_true.
  destruct (decide (host = domain)) as [->|Hne]; [intuition|].
  rewrite !andb_true_iff, negb_true_iff, ends_with_spec. unfold byte_at. rewrite bool_decide_eq_true.
  apply or_iff_compat_l. split.
  - intros [[Hip [pre ->]] Hg]. split; [done|]. destruct (snoc_string pre) as (s & c & -> & Hl).
    { by intros ->. }
    rewrite length_app_string, Hl in Hg.
    replace (S (String.length s) + String.length domain - String.length domain - 1)%nat
      with (String.length s + 0)%nat in Hg by lia.
    rewrite string_app_assoc, get_app in Hg. injection Hg as ->. exists s. by rewrite string_app_assoc.
  - intros [Hip [label ->]]. split; [split; [done|]|].
    + exists (label +:+ "."). by rewrite string_app_assoc.
    + rewrite !length_app_string. cbn [String.length].
      replace (_ - _ - 1)%nat with (String.length label + 0)%nat by lia. by rewrite get_app.
Qed.
Lemma path_matches_spec request_path cookie_path :
  path_matches request_path cookie_path = true <-> under request_path cookie_path.
Proof.
  unfold path_matches, under, starts_with, byte_at.
  rewrite orb_true_iff, andb_true_iff, orb_true_iff, !bool_decide_eq_true, ends_with_spec. split.
  - intros [->|[Hs He]]; [exists EmptyString; rewrite string_app_nil; auto|].
    destruct (strip_prefix _ _) as [rest|] eqn:E; [|done]. apply strip_prefix_spec in E as ->.
    exists rest. split; [done|]. destruct He as [Hd|Hg]; [auto|].
    rewrite <- (Nat.add_0_r (String.length cookie_path)), get_app in Hg.
    destruct rest as [|c rest]; [auto|]. injection Hg as ->. eauto.
  - intros (rest & -> & Hr). destruct rest as [|c rest]; [left; apply string_app_nil|]. right.
    rewrite (proj2 (strip_prefix_spec _ _ _) eq_refl). split; [done|].
    destruct Hr as [?|[Hd|[more [= ->]]]]; [done|by left|]. right.
    by rewrite <- (Nat.add_0_r (String.length cookie_path)), get_app.
Qed.

(** ** The jar as a map *)

(** What a header received from a URL says: the key of the cookie, the cookie and its expiry. *)
Definition described (url set_cookie : string) (now_ms : Z) : option (Key * (Cookie * option Z)) :=
  parsed ← parse_set_cookie set_cookie;
  let host := to_ascii_lowercase (host_of url) in
  '(domain, only) ← match set_domain parsed with
                    | Some domain => if domain_matches host domain then Some (domain, false) else None
                    | None => Some (host, true)
                    end;
  match domain with
  | EmptyString => None
  | _ =>
      let path := match set_path parsed with
                  | Some (String "/" rest) => String "/" rest
                  | _ => default_path (path_of url)
                  end in
      Some ((name (cookie parsed), domain, only, path), (cookie parsed, expiry_ms parsed now_ms))
  end.
Definition dead (expires : option Z) (now_ms : Z) : bool :=
  match expires with Some at_ => at_ <=? now_ms | None => false end.
(** A jar as what it answers: a cookie and its expiry under each key. *)
Abbreviation Contents := (gmap Key (Cookie * option Z)).
Definition receive (m : Contents) (url set_cookie : string) (now_ms : Z) : Contents :=
  match described url set_cookie now_ms with
  | None => m
  | Some (k, (c, expires)) => if dead expires now_ms then delete k m else <[k := (c, expires)]> m
  end.
Definition contents_of (l : list StoredCookie) : Contents :=
  list_to_map ((λ e, (key_of e, (stored e, expires_ms e))) <$> l).

Definition other (k : Key) (e : StoredCookie) : bool := negb (bool_decide (key_of e = k)).
Lemma filter_absent k l : k ∉ key_of <$> l -> List.filter (other k) l = l.
Proof.
  induction l as [|e l IH]; [done|]. cbn. intros [Hne Hn]%not_elem_of_cons.
  unfold other at 1. rewrite bool_decide_false by done. cbn [negb]. by rewrite IH.
Qed.
Lemma delete_found k l : NoDup (key_of <$> l) ->
  match list_find (λ e, key_of e = k) l with
  | Some (i, e) => delete i l = List.filter (other k) l /\ key_of e = k /\ e ∈ l
  | None => List.filter (other k) l = l /\ k ∉ key_of <$> l
  end.
Proof.
  induction l as [|e l IH]; [split; [done|apply not_elem_of_nil]|]. cbn [fmap list_fmap].
  intros [Hn Hd]%NoDup_cons. specialize (IH Hd). cbn [list_find List.filter].
  assert (Ho : other k e = negb (bool_decide (key_of e = k))) by done. rewrite Ho. clear Ho.
  destruct (decide (key_of e = k)) as [<-|Hk].
  - rewrite bool_decide_true by done. cbn. split; [|by split; [|left]].
    symmetry. by apply filter_absent.
  - rewrite bool_decide_false by done. cbn [negb].
    destruct (list_find _ l) as [[i e']|] eqn:E; cbn.
    + destruct IH as (IH & ? & ?). split; [by f_equal|]. split; [done|by right].
    + destruct IH as (IH & ?). split; [by f_equal|]. rewrite not_elem_of_cons. by split.
Qed.
Lemma filter_sublist {A} (f : A -> bool) l : sublist (List.filter f l) l.
Proof. induction l as [|x l IH]; [constructor|]. cbn. destruct (f x); by constructor. Qed.
Lemma filter_keys k l : NoDup (key_of <$> l) ->
  NoDup (key_of <$> List.filter (other k) l) /\ k ∉ key_of <$> List.filter (other k) l.
Proof.
  intros Hd. split.
  - eapply sublist_NoDup; [exact Hd|]. apply fmap_sublist, filter_sublist.
  - intros (e & -> & He)%list_elem_of_fmap. rewrite list_elem_of_In, filter_In in He.
    destruct He as [_ He]. unfold other in He. by rewrite bool_decide_true in He.
Qed.
Lemma fmap_inj {A B} (f : A -> B) l x y : NoDup (f <$> l) -> x ∈ l -> y ∈ l -> f x = f y -> x = y.
Proof.
  induction l as [|z l IH]; [by intros _ ?%not_elem_of_nil|]. cbn. intros [Hn Hd]%NoDup_cons.
  intros [->|Hx]%elem_of_cons [->|Hy]%elem_of_cons E; [done| | |by apply IH];
    destruct Hn; [rewrite E|rewrite <- E]; by apply list_elem_of_fmap_2.
Qed.
Lemma contents_filter k l : contents_of (List.filter (other k) l) = delete k (contents_of l).
Proof.
  induction l as [|e l IH]; [symmetry; apply delete_empty|]. cbn [List.filter].
  unfold contents_of in *. cbn [fmap list_fmap list_to_map foldr]. unfold other at 1.
  case_bool_decide as E; cbn [negb].
  - cbn. rewrite IH. cbn in E. subst k. by rewrite delete_insert_eq.
  - cbn. rewrite delete_insert_ne by done. by f_equal.
Qed.
Lemma contents_snoc l e : key_of e ∉ key_of <$> l ->
  contents_of (l ++ [e]) = <[key_of e := (stored e, expires_ms e)]> (contents_of l).
Proof.
  intros Hn. unfold contents_of. rewrite fmap_app. cbn. apply list_to_map_snoc.
  by rewrite <- list_fmap_compose.
Qed.

(** A jar: one cookie per key, each with a number of its own. *)
Record wf (jar : CookieJar) : Prop := {
  wf_keys : NoDup (key_of <$> entries jar);
  wf_seqs : NoDup (seq <$> entries jar);
  wf_next : Forall (λ e, seq e <= next_seq jar) (entries jar);
}.
Lemma store_described jar url set_cookie now_ms :
  store jar url set_cookie now_ms =
  match described url set_cookie now_ms with
  | None => (jar, false)
  | Some (key, (c, expires)) =>
      let existing := list_find (λ e, key_of e = key) (entries jar) in
      if dead expires now_ms then
        (mkJar (match existing with
                | Some (index, _) => delete index (entries jar)
                | None => entries jar
                end) (next_seq jar), false)
      else
        let '(kept, created, number, next) :=
          match existing with
          | Some (index, previous) =>
              (delete index (entries jar), created_ms previous, seq previous, next_seq jar)
          | None => (entries jar, now_ms, next_seq jar + 1, next_seq jar + 1)
          end in
        let '(_, domain, only, path) := key in
        (mkJar (kept ++ [mkStored c domain only path expires created number]) next, true)
  end.
Proof.
  unfold store, described. destruct (parse_set_cookie set_cookie) as [parsed|]; [|done].
  cbn [mbind option_bind]. cbv zeta.
  set (scope := match set_domain parsed with Some _ => _ | None => _ end).
  by destruct scope as [[[|c domain] only]|].
Qed.
Lemma described_name url set_cookie now_ms k c expires :
  described url set_cookie now_ms = Some (k, (c, expires)) ->
  exists domain only path, k = (name c, domain, only, path).
Proof.
  unfold described. destruct (parse_set_cookie set_cookie) as [parsed|]; [|done].
  cbn [mbind option_bind]. cbv zeta.
  set (scope := match set_domain parsed with Some _ => _ | None => _ end).
  destruct scope as [[[|d domain] only]|]; [done| |done]. intros [= <- <- <-]. eauto.
Qed.
Lemma wf_snoc l e next :
  NoDup (key_of <$> l) -> NoDup (seq <$> l) -> Forall (λ e, seq e <= next) l ->
  key_of e ∉ key_of <$> l -> seq e ∉ seq <$> l -> seq e <= next ->
  wf (mkJar (l ++ [e]) next) /\
  contents_of (l ++ [e]) = <[key_of e := (stored e, expires_ms e)]> (contents_of l).
Proof.
  intros Hk Hs Hn Hke Hse Hle. split; [|by apply contents_snoc].
  split; cbn [entries next_seq]; rewrite ?fmap_app.
  - apply NoDup_app. split; [done|]. split; [|apply NoDup_singleton].
    intros x Hx ->%list_elem_of_singleton. done.
  - apply NoDup_app. split; [done|]. split; [|apply NoDup_singleton].
    intros x Hx ->%list_elem_of_singleton. done.
  - apply Forall_app. split; [done|]. by constructor.
Qed.
Lemma store_receives jar url set_cookie now_ms : wf jar ->
  wf (fst (store jar url set_cookie now_ms)) /\
  contents_of (entries (fst (store jar url set_cookie now_ms))) =
    receive (contents_of (entries jar)) url set_cookie now_ms.
Proof.
  intros [Hk Hs Hn]. rewrite store_described. unfold receive.
  destruct (described url set_cookie now_ms) as [[k [c expires]]|] eqn:Ed; [|done].
  apply described_name in Ed as (domain & only & path & ->). cbv zeta.
  set (k := (name c, domain, only, path)).
  pose proof (delete_found k (entries jar) Hk) as Hf.
  pose proof (filter_keys k (entries jar) Hk) as [Hk' Hn'].
  assert (Hsub : sublist (List.filter (other k) (entries jar)) (entries jar)) by apply filter_sublist.
  assert (Hs' : NoDup (seq <$> List.filter (other k) (entries jar)))
    by (eapply sublist_NoDup; [exact Hs|by apply fmap_sublist]).
  assert (Hx : Forall (λ e, seq e <= next_seq jar) (List.filter (other k) (entries jar)))
    by (rewrite Forall_forall in *; intros e He; by eapply Hn, elem_of_sublist).
  assert (Hc : contents_of (List.filter (other k) (entries jar)) = delete k (contents_of (entries jar)))
    by apply contents_filter.
  assert (Hi : forall v, <[k := v]> (contents_of (entries jar)) =
    <[k := v]> (contents_of (List.filter (other k) (entries jar))))
    by (intros v; by rewrite Hc, insert_delete_eq).
  destruct (list_find _ (entries jar)) as [[i e]|].
  - destruct Hf as (-> & He & Hin). destruct (dead expires now_ms); cbn [fst entries next_seq]; [done|].
    rewrite Hi. apply (wf_snoc _ (mkStored c domain only path expires (created_ms e) (seq e))); try done.
    + intros (e' & E & He')%list_elem_of_fmap. rewrite list_elem_of_In, filter_In in He'.
      destruct He' as [He' Ho]. apply list_elem_of_In in He'.
      assert (e' = e) as -> by (by eapply (fmap_inj seq (entries jar))).
      unfold other in Ho. by rewrite bool_decide_true in Ho.
    + rewrite Forall_forall in Hn. exact (Hn e Hin).
  - destruct Hf as [Hf Hnk]. destruct (dead expires now_ms); cbn [fst entries next_seq].
    + split; [by destruct jar|]. rewrite Hf in Hc. exact Hc.
    + apply (wf_snoc _ (mkStored c domain only path expires now_ms (next_seq jar + 1))); try done; cbn.
      * eapply Forall_impl; [exact Hn|]. cbn. lia.
      * intros (e' & E & He')%list_elem_of_fmap. rewrite Forall_forall in Hn.
        specialize (Hn _ He'). lia.
Qed.

(** ** What a jar sends *)

Section SortedBy.
Context {A : Type} (cmp : A -> A -> comparison) `{!TotalCmp cmp}.
Definition le_by (x y : A) : Prop := cmp x y <> Gt.
Lemma le_by_trans x y z : le_by x y -> le_by y z -> le_by x z.
Proof using All.
  unfold le_by. intros Hxy Hyz. destruct (cmp x y) eqn:E; [|clear Hxy|done].
  - by rewrite (cmp_eq_l cmp x y z).
  - destruct (cmp y z) eqn:Ez; [|by rewrite (cmp_trans cmp x y z Lt)|done].
    by rewrite <- (cmp_eq_r cmp y z x), E.
Qed.
Lemma insert_in_order_perm x l : insert_in_order cmp x l ≡ₚ x :: l.
Proof using.
  induction l as [|y l IH]; [done|]. cbn. destruct (cmp x y); try done. rewrite IH. apply perm_swap.
Qed.
Lemma sorted_by_perm l : sorted_by cmp l ≡ₚ l.
Proof using. induction l as [|x l IH]; [done|]. cbn. by rewrite insert_in_order_perm, IH. Qed.
Lemma insert_in_order_sorted x l :
  StronglySorted le_by l -> StronglySorted le_by (insert_in_order cmp x l).
Proof using All.
  assert (Hput : forall y k, cmp x y <> Gt -> StronglySorted le_by k -> Forall (le_by y) k ->
    StronglySorted le_by (x :: y :: k)).
  { intros y k Hxy Hs Hy. constructor; [by constructor|]. constructor; [done|].
    eapply Forall_impl; [exact Hy|]. intros z. by apply le_by_trans. }
  induction 1 as [|y l Hs IH Hy]; cbn; [by repeat constructor|].
  destruct (cmp x y) eqn:E; [apply Hput; congruence || done|apply Hput; congruence || done|].
  constructor; [done|]. rewrite insert_in_order_perm. constructor; [|done].
  unfold le_by. by rewrite (cmp_flip (cmp := cmp)), E.
Qed.
Lemma sorted_by_sorted l : StronglySorted le_by (sorted_by cmp l).
Proof using All. induction l as [|x l IH]; [constructor|]. by apply insert_in_order_sorted. Qed.
End SortedBy.

Lemma total_flip {A} (cmp : A -> A -> comparison) `{!TotalCmp cmp} : TotalCmp (λ x y, cmp y x).
Proof.
  split; [intros; apply cmp_flip|]. intros x y z. split.
  - intros E. symmetry. by apply (cmp_eq_r cmp y x z).
  - intros [E|E]; [by apply (cmp_eq_l cmp z y x)|]. by apply (cmp_trans cmp z y x).
Qed.
#[export] Instance send_order_total : TotalCmp send_order.
Proof.
  apply total_then; [apply total_then|].
  - exact (@total_flip _ _ (total_preimage (λ e, String.length (stored_path e)) Nat.compare)).
  - apply (total_preimage created_ms); apply _.
  - apply (total_preimage seq); apply _.
Qed.

Lemma seqs_apart a b : send_order a b = Eq -> seq a = seq b.
Proof. unfold send_order. rewrite !then_eq. intros [_ E]. by apply Z.compare_eq. Qed.
(** The order of RFC 6265, 5.4: a longer path first, then the earlier creation, then the earlier
    arrival. *)
Definition sent_before (a b : StoredCookie) : Prop :=
  let length e := String.length (stored_path e) in
  (length b < length a)%nat \/
  length a = length b /\ (created_ms a < created_ms b \/ created_ms a = created_ms b /\ seq a < seq b).
Lemma send_order_spec a b : send_order a b = Lt -> sent_before a b.
Proof.
  unfold send_order, sent_before, then_with. cbv zeta.
  destruct (Nat.compare_spec (String.length (stored_path b)) (String.length (stored_path a)));
    [|by left|done].
  destruct (Z.compare_spec (created_ms a) (created_ms b)); [|by right; split; [|left]|done].
  rewrite Z.compare_lt_iff. by right; split; [|right].
Qed.
Lemma sorted_strictly l :
  NoDup (seq <$> l) -> StronglySorted (le_by send_order) l -> StronglySorted sent_before l.
Proof.
  induction l as [|e l IH]; [constructor|]. cbn. intros [Hn Hd]%NoDup_cons Hs.
  apply StronglySorted_inv in Hs as [Hs He]. constructor; [by apply IH|].
  rewrite Forall_forall in *. intros x Hx. specialize (He _ Hx). apply send_order_spec.
  destruct (send_order e x) eqn:E; [|done|done]. apply seqs_apart in E.
  destruct Hn. rewrite E. by apply list_elem_of_fmap_2.
Qed.

(** A URL, a header received from it, and when. *)
Definition Received : Type := string * string * Z.
Definition jar_after (log : list Received) : CookieJar :=
  foldl (λ jar r, fst (store jar r.1.1 r.1.2 r.2)) empty_jar log.
Definition contents_after (log : list Received) : Contents :=
  foldl (λ m r, receive m r.1.1 r.1.2 r.2) ∅ log.
Lemma jar_after_contents log :
  wf (jar_after log) /\ contents_of (entries (jar_after log)) = contents_after log.
Proof.
  induction log as [|r log [IHw IHc]] using rev_ind.
  - split; [split; try constructor|done].
  - unfold jar_after, contents_after. rewrite !foldl_app. cbn [foldl].
    fold (jar_after log) (contents_after log). rewrite <- IHc. by apply store_receives.
Qed.
Lemma contents_elem l k c expires : NoDup (key_of <$> l) ->
  contents_of l !! k = Some (c, expires) <->
  exists e, e ∈ l /\ key_of e = k /\ stored e = c /\ expires_ms e = expires.
Proof.
  intros Hd. unfold contents_of. rewrite <- elem_of_list_to_map
    by (by rewrite <- list_fmap_compose). rewrite list_elem_of_fmap. split.
  - intros (e & [= -> -> ->] & He). by exists e.
  - intros (e & He & <- & <- & <-). by exists e.
Qed.

(** The requests a cookie of a key is for. *)
Definition for_request (k : Key) (url : string) : Prop :=
  let '(_, domain, only, path) := k in
  let host := to_ascii_lowercase (host_of url) in
  (if only : bool then host = domain else in_domain host domain) /\ under (path_of url) path.
Lemma wanted_spec url now_ms e : wanted url now_ms e = true <->
  dead (expires_ms e) now_ms = false /\ for_request (key_of e) url /\
  (secure (stored e) = true -> is_secure url = true).
Proof.
  unfold wanted, for_request, key_of. cbv zeta.
  rewrite !andb_true_iff, negb_true_iff, orb_true_iff, path_matches_spec, negb_true_iff.
  assert (Hh : (if host_only e then bool_decide (stored_domain e = to_ascii_lowercase (host_of url))
                else domain_matches (to_ascii_lowercase (host_of url)) (stored_domain e)) = true <->
    if host_only e then to_ascii_lowercase (host_of url) = stored_domain e
    else in_domain (to_ascii_lowercase (host_of url)) (stored_domain e)).
  { destruct (host_only e); [rewrite bool_decide_eq_true; by split|apply domain_matches_spec]. }
  rewrite Hh. change (expired_at e now_ms) with (dead (expires_ms e) now_ms).
  destruct (secure (stored e)), (is_secure url); intuition congruence.
Qed.

(** C23. A jar answers like a finite map from keys (name, domain, exactness and path) to cookies:
    after any history of received headers a request carries exactly the live cookies of the map
    that are for it, each key once, in the order of RFC 6265 (longer paths first, then older). *)
Theorem jar_answers_like_a_map log url now_ms :
  let sent := matching (jar_after log) url now_ms in
  StronglySorted sent_before sent /\ NoDup (key_of <$> sent) /\
  forall k c, (exists e, e ∈ sent /\ key_of e = k /\ stored e = c) <->
    exists expires, contents_after log !! k = Some (c, expires) /\ dead expires now_ms = false /\
      for_request k url /\ (secure c = true -> is_secure url = true).
Proof.
  destruct (jar_after_contents log) as [[Hk Hs _] <-]. cbv zeta. unfold matching.
  set (l := List.filter _ _).
  assert (Hsub : sublist l (entries (jar_after log))) by apply filter_sublist.
  assert (Hp : sorted_by send_order l ≡ₚ l) by apply sorted_by_perm.
  split; [|split].
  - apply sorted_strictly; [|apply sorted_by_sorted, _]. rewrite Hp.
    eapply sublist_NoDup; [exact Hs|by apply fmap_sublist].
  - rewrite Hp. eapply sublist_NoDup; [exact Hk|by apply fmap_sublist].
  - intros k c. setoid_rewrite Hp. setoid_rewrite (contents_elem _ k c _ Hk).
    assert (Hl : forall e, e ∈ l <-> e ∈ entries (jar_after log) /\ wanted url now_ms e = true)
      by (intros e; unfold l; by rewrite !list_elem_of_In, filter_In).
    setoid_rewrite Hl. setoid_rewrite wanted_spec. split.
    + intros (e & (He & Hdead & Hf & Hsec) & <- & <-). exists (expires_ms e). eauto 10.
    + intros (expires & (e & He & <- & <- & <-) & ? & ? & ?). exists e. auto.
Qed.

(** ** Where a cookie goes *)

Lemma contents_from log k c expires :
  contents_after log !! k = Some (c, expires) ->
  exists r, r ∈ log /\ described r.1.1 r.1.2 r.2 = Some (k, (c, expires)).
Proof.
  induction log as [|r log IH] using rev_ind; [done|].
  unfold contents_after. rewrite foldl_app. cbn [foldl]. fold (contents_after log). unfold receive.
  assert (Hold : contents_after log !! k = Some (c, expires) ->
    exists r', r' ∈ log ++ [r] /\ described r'.1.1 r'.1.2 r'.2 = Some (k, (c, expires))).
  { intros (r' & ? & ?)%IH. exists r'. split; [apply elem_of_app; by left|done]. }
  destruct (described _ _ _) as [[k' [c' e']]|] eqn:E; [|done].
  destruct (dead e' r.2); [by intros [_ H]%lookup_delete_Some; apply Hold|].
  intros [[<- [= <- <-]]|[_ H]]%lookup_insert_Some; [|by apply Hold].
  exists r. split; [|done]. apply elem_of_app. right. by left.
Qed.
Lemma first_byte_all bad s : first_byte bad s = None <-> all_chars (λ c, negb (bad c)) s = true.
Proof.
  induction s as [|c s IH]; [done|]. cbn. destruct (bad c); cbn; [|exact IH]. split; done.
Qed.
Definition token (s : string) : Prop := s <> EmptyString /\ all_chars (λ c, negb (bad_name_byte c)) s = true.
Definition cookie_octets (s : string) : Prop := all_chars (λ c, negb (bad_value_byte c)) s = true.
Lemma new_inv n v c : new n v = inr c <->
  token n /\ cookie_octets v /\ c = mkCookie n v (Some "/"%string) None None true false Lax.
Proof.
  unfold new, validate_name, validate_value, token, cookie_octets. rewrite <- !first_byte_all.
  destruct n as [|x n]; [split; [done|intros [[? ?] ?]; done]|].
  destruct (first_byte bad_name_byte _); [split; [done|intros [[? ?] ?]; done]|].
  cbn [and_then]. destruct (first_byte bad_value_byte v); cbn [and_then];
    [split; [done|intros [? [? ?]]; done]|]. split; [by intros [= <-]|by intros (_ & _ & ->)].
Qed.
Lemma apply_attribute_pair parsed a :
  name (cookie (apply_attribute parsed a)) = name (cookie parsed) /\
  value (cookie (apply_attribute parsed a)) = value (cookie parsed).
Proof.
  unfold apply_attribute. set (kv := match split_once "=" a with Some _ => _ | None => _ end).
  destruct kv as [key text]. cbv zeta. repeat case_match; done.
Qed.
Lemma parse_set_cookie_valid header p : parse_set_cookie header = Some p ->
  token (name (cookie p)) /\ cookie_octets (value (cookie p)).
Proof.
  unfold parse_set_cookie. destruct (split ";" header) as [|first parts]; [done|].
  destruct (split_once "=" first) as [[n v]|]; [|done]. cbn [mbind option_bind].
  destruct (new (trim n) (trim v)) as [|c] eqn:E; [done|]. apply new_inv in E as (Hn & Hv & ->).
  cbv zeta. intros [= <-].
  assert (H : forall s, let s' := foldl apply_attribute s parts in
    name (cookie s') = name (cookie s) /\ value (cookie s') = value (cookie s)).
  { induction parts as [|a parts IH]; intros s; [done|]. cbn. destruct (IH (apply_attribute s a)) as [-> ->].
    apply apply_attribute_pair. }
  by edestruct H as [-> ->].
Qed.

(** C12. A jar sends a cookie only back to the site that set it: a cookie on a request to a URL was
    set by a header that was received, from the very host of the URL or, with a [Domain], from
    a host of that domain, which covers the URL's host too; the request lies under the cookie's
    path; a [Secure] cookie rides TLS only; a dead one rides nowhere; and neither its name nor
    its value can break out of the header. *)
Theorem cookies_go_back_to_their_site log url now_ms e :
  e ∈ matching (jar_after log) url now_ms ->
  exists from header received p,
    (from, header, received) ∈ log /\ parse_set_cookie header = Some p /\ stored e = cookie p /\
    (let host := to_ascii_lowercase (host_of url) in
     let setter := to_ascii_lowercase (host_of from) in
     match set_domain p with
     | Some domain => in_domain setter domain /\ in_domain host domain
     | None => host = setter
     end) /\
    under (path_of url) (stored_path e) /\
    (secure (cookie p) = true -> is_secure url = true) /\
    dead (expiry_ms p received) now_ms = false /\
    token (name (cookie p)) /\ cookie_octets (value (cookie p)).
Proof.
  unfold matching. rewrite sorted_by_perm, list_elem_of_In, filter_In, wanted_spec.
  intros [He (Hdead & Hf & Hsec)]. apply list_elem_of_In in He.
  destruct (jar_after_contents log) as [[Hk _ _] Hc].
  destruct (contents_from log (key_of e) (stored e) (expires_ms e)) as ([[from header] received] & Hr & Hd).
  { rewrite <- Hc. apply contents_elem; [done|]. by exists e. }
  exists from, header, received. cbn in Hd. unfold described in Hd.
  destruct (parse_set_cookie header) as [p|] eqn:Ep; [|done]. exists p. cbn [mbind option_bind] in Hd.
  cbv zeta in *. destruct (parse_set_cookie_valid _ _ Ep) as [Hn Hv].
  assert (H : stored e = cookie p /\ expires_ms e = expiry_ms p received /\
    match set_domain p with
    | Some domain => in_domain (to_ascii_lowercase (host_of from)) domain /\
                     stored_domain e = domain /\ host_only e = false
    | None => stored_domain e = to_ascii_lowercase (host_of from) /\ host_only e = true
    end).
  { destruct (set_domain p) as [domain|].
    - destruct (domain_matches _ _) eqn:Em; [|done]. apply domain_matches_spec in Em.
      cbn [mbind option_bind] in Hd. destruct domain; [done|]. unfold key_of in Hd. by simplify_eq.
    - cbn [mbind option_bind] in Hd. destruct (to_ascii_lowercase (host_of from)); [done|].
      unfold key_of in Hd. by simplify_eq. }
  destruct H as (Hs & He' & Hscope). rewrite <- Hs, <- He'.
  split; [done|]. split; [done|]. split; [done|]. destruct Hf as [Hhost Hpath].
  split; [|rewrite Hs in *; repeat (split; [done|]); done].
  destruct (set_domain p); [destruct Hscope as (? & Hsd & Ho)|destruct Hscope as [Hsd Ho]];
    rewrite Ho, Hsd in Hhost; by try split.
Qed.

(** ** Headers *)

(** A cookie that was built: by [new] and the builders of the language. *)
Inductive built : Cookie -> Prop :=
| built_new n v c : new n v = inr c -> built c
| built_value c v c' : built c -> with_value c v = inr c' -> built c'
| built_path c p c' : built c -> with_path c p = inr c' -> built c'
| built_domain c d c' : built c -> with_domain c d = inr c' -> built c'
| built_max_age c seconds : built c -> - 2 ^ 63 <= seconds <= I64_MAX -> built (with_max_age c seconds)
| built_same_site c s : built c -> built (with_same_site c s)
| built_secure c b c' : built c -> with_secure c b = inr c' -> built c'
| built_http_only c b : built c -> built (with_http_only c b)
| built_expired c : built c -> built (expired c).
Definition attribute_text (s : string) : Prop := all_chars (λ c, negb (bad_attribute_byte c)) s = true.
Record sound (c : Cookie) : Prop := {
  sound_name : token (name c);
  sound_value : cookie_octets (value c);
  sound_path : from_option attribute_text True (path c);
  sound_domain : from_option attribute_text True (domain c);
  sound_max_age : from_option (λ z, - 2 ^ 63 <= z <= I64_MAX) True (max_age c);
  sound_same_site : same_site c = AnySite -> secure c = true;
}.
Lemma validate_attribute_inv what s : validate_attribute what s = inr () -> attribute_text s.
Proof.
  unfold validate_attribute, attribute_text. rewrite <- first_byte_all. by destruct (first_byte _ s).
Qed.
Lemma built_sound c : built c -> sound c.
Proof.
  induction 1 as [n v c E|c v c' _ [] E|c p c' _ [] E|c d c' _ [] E|c z _ [] Hz|c s _ []
    |c b c' _ [] E|c b _ []|c _ []].
  - apply new_inv in E as (? & ? & ->). by split.
  - unfold with_value, validate_value in E. destruct (first_byte bad_value_byte v) eqn:Ev; [done|].
    apply first_byte_all in Ev. injection E as <-. by split.
  - unfold with_path in E. destruct (validate_attribute _ p) as [|[]] eqn:Ev; [done|].
    apply validate_attribute_inv in Ev. injection E as <-. by split.
  - unfold with_domain in E. destruct (validate_attribute _ d) as [|[]] eqn:Ev; [done|].
    apply validate_attribute_inv in Ev. injection E as <-. by split.
  - by split.
  - split; try done. cbn. intros ->. by rewrite orb_true_r.
  - unfold with_secure in E. destruct (negb b && _) eqn:Eb; [done|]. injection E as <-.
    split; try done. cbn. intros Hs. rewrite Hs in Eb. cbn in Eb. by destruct b.
  - by split.
  - by split.
Qed.

(** [split] and [split_once] at a character that a text lacks. *)
Definition lacks (ch : ascii) (s : string) : Prop := all_chars (λ c, negb (char_eq ch c)) s = true.
Lemma split_lacking ch s t : lacks ch s -> split ch (s +:+ String ch t) = s :: split ch t.
Proof.
  unfold lacks. induction s as [|c s IH]; intros Hs.
  - change (EmptyString +:+ String ch t) with (String ch t). cbn [split]. by rewrite char_eq_refl.
  - cbn in Hs. apply andb_true_iff in Hs as [Hc Hs]. apply negb_true_iff in Hc.
    change (String c s +:+ String ch t) with (String c (s +:+ String ch t)). cbn [split].
    by rewrite Hc, IH.
Qed.
Lemma split_alone ch s : lacks ch s -> split ch s = [s].
Proof.
  unfold lacks. induction s as [|c s IH]; [done|]. cbn. intros [Hc Hs]%andb_true_iff.
  apply negb_true_iff in Hc. by rewrite Hc, IH.
Qed.
Lemma break_lacking ch s t : lacks ch s -> break (char_eq ch) (s +:+ String ch t) = (s, String ch t).
Proof.
  unfold lacks. induction s as [|c s IH]; intros Hs.
  - change (EmptyString +:+ String ch t) with (String ch t). cbn [break]. by rewrite char_eq_refl.
  - cbn in Hs. apply andb_true_iff in Hs as [Hc Hs]. apply negb_true_iff in Hc.
    change (String c s +:+ String ch t) with (String c (s +:+ String ch t)). cbn [break].
    by rewrite Hc, IH.
Qed.
Lemma split_once_lacking ch s t : lacks ch s -> split_once ch (s +:+ String ch t) = Some (s, t).
Proof. intros Hs. unfold split_once. by rewrite break_lacking. Qed.
Lemma all_chars_app p s t : all_chars p (s +:+ t) = all_chars p s && all_chars p t.
Proof.
  induction s as [|c s IH]; [done|]. change (String c s +:+ t) with (String c (s +:+ t)). cbn [all_chars].
  by rewrite IH, andb_assoc.
Qed.

(** A text of printable characters is its own trimming. *)
Definition visible (s : string) : Prop := all_chars printable s = true.
Definition starts_printable (s : string) : Prop :=
  match s with String c _ => printable c = true | EmptyString => True end.
Lemma trim_with_printable fuel spaces s :
  Forall (λ w, match w with String c _ => printable c = false | EmptyString => False end) spaces ->
  starts_printable s -> trim_with fuel spaces s = s.
Proof.
  intros Hsp Hs. destruct fuel as [|fuel]; [done|]. cbn [trim_with].
  assert (E : list_find (λ w, is_Some (strip_prefix w s)) spaces = None); [|by rewrite E].
  apply list_find_None. eapply Forall_impl; [exact Hsp|]. intros [|c w] Hw [rest E]; [done|].
  apply strip_prefix_spec in E as ->.
  change (String c w +:+ rest) with (String c (w +:+ rest)) in Hs. cbn in Hs. congruence.
Qed.
Lemma list_ascii_chars p s : all_chars p s = forallb p (list_ascii_of_string s).
Proof. induction s as [|c s IH]; [done|]. cbn. by rewrite IH. Qed.
Lemma reversed_chars p s : all_chars p (reversed s) = all_chars p s.
Proof.
  unfold reversed. rewrite !list_ascii_chars, list_ascii_of_string_of_list_ascii.
  induction (list_ascii_of_string s) as [|c l IH]; [done|].
  rewrite reverse_cons, forallb_app, IH. cbn. by rewrite andb_true_r, andb_comm.
Qed.
Lemma reversed_twice s : reversed (reversed s) = s.
Proof.
  unfold reversed. rewrite list_ascii_of_string_of_list_ascii, reverse_involutive.
  apply string_of_list_ascii_of_string.
Qed.
Lemma trim_printable s : starts_printable s -> starts_printable (reversed s) -> trim s = s.
Proof.
  intros Hs Hr. unfold trim. rewrite (trim_with_printable _ white_space s) by (done || by repeat constructor).
  rewrite trim_with_printable; [apply reversed_twice| |done]. vm_compute. by repeat constructor.
Qed.
Lemma visible_starts s : visible s -> starts_printable s.
Proof. unfold visible. destruct s as [|c s]; [done|]. cbn. by intros [? _]%andb_true_iff. Qed.
Lemma trim_visible s : visible s -> trim s = s.
Proof.
  intros Hs. apply trim_printable; apply visible_starts; [done|].
  unfold visible. by rewrite reversed_chars.
Qed.

(** Decimal numbers: [to_string] and [parse]. *)
Lemma digit_char (n : N) : (n < 10)%N ->
  is_ascii_digit (pretty_N_char n) = true /\ (N_of_ascii (pretty_N_char n) - 48 = n)%N.
Proof.
  intros Hn. destruct (decide (n = 0)%N) as [->|]; [done|].
  assert (Hc : (n = 1 \/ n = 2 \/ n = 3 \/ n = 4 \/ n = 5 \/ n = 6 \/ n = 7 \/ n = 8 \/ n = 9)%N) by lia.
  by repeat destruct Hc as [->|Hc]; try subst n.
Qed.
Lemma pretty_go_value n s :
  exists k : N, forall acc, digits_value acc (pretty_N_go n s) = digits_value (acc * k + n) s.
Proof.
  revert s. induction (N.lt_wf_0 n) as [n _ IH]; intros s. destruct (decide (0 < n)%N) as [Hn|Hn].
  - rewrite pretty_N_go_step by done.
    destruct (digit_char (n `mod` 10)) as [Hd Hv]; [by apply N.mod_lt|].
    destruct (IH (n `div` 10)%N ltac:(by apply N.div_lt) (String (pretty_N_char (n `mod` 10)) s))
      as [k Hk].
    exists (k * 10)%N. intros acc. rewrite Hk. cbn [digits_value]. rewrite Hd, Hv. f_equal.
    rewrite (N.div_mod n 10) at 3 by done. lia.
  - assert (n = 0%N) as -> by lia. exists 1%N. intros acc. rewrite pretty_N_go_0. f_equal. lia.
Qed.
Lemma pretty_go_chars p n s : (forall d, (d < 10)%N -> p (pretty_N_char d) = true) ->
  all_chars p s = true -> all_chars p (pretty_N_go n s) = true.
Proof.
  intros Hp. revert s. induction (N.lt_wf_0 n) as [n _ IH]; intros s Hs.
  destruct (decide (0 < n)%N) as [Hn|Hn].
  - rewrite pretty_N_go_step by done. apply IH; [by apply N.div_lt|]. cbn.
    by rewrite Hp, Hs by (by apply N.mod_lt).
  - assert (n = 0%N) as -> by lia. by rewrite pretty_N_go_0.
Qed.
Lemma pretty_go_not_empty n s : s <> EmptyString -> pretty_N_go n s <> EmptyString.
Proof.
  revert s. induction (N.lt_wf_0 n) as [n _ IH]; intros s Hs.
  destruct (decide (0 < n)%N) as [Hn|Hn].
  - rewrite pretty_N_go_step by done. apply IH; [by apply N.div_lt|done].
  - assert (n = 0%N) as -> by lia. by rewrite pretty_N_go_0.
Qed.
Lemma pretty_pos p : pretty (N.pos p) = pretty_N_go (N.pos p) EmptyString.
Proof. done. Qed.
Lemma digits_of_pos p :
  digits_value 0 (pretty_N_go (N.pos p) EmptyString) = Some (N.pos p) /\
  (exists c s, pretty_N_go (N.pos p) EmptyString = String c s /\ is_ascii_digit c = true).
Proof.
  split.
  - destruct (pretty_go_value (N.pos p) EmptyString) as [k ->]. done.
  - rewrite pretty_N_go_step by done.
    destruct (pretty_N_go _ (String _ EmptyString)) as [|c s] eqn:E.
    + by apply pretty_go_not_empty in E.
    + exists c, s. split; [done|].
      assert (H : all_chars is_ascii_digit (String c s) = true).
      { rewrite <- E. apply pretty_go_chars; [intros d Hd; by apply digit_char|]. cbn.
        rewrite (proj1 (digit_char _ ltac:(by apply N.mod_lt))). done. }
      cbn in H. by apply andb_true_iff in H as [? _].
Qed.
Lemma parse_pretty z : - 2 ^ 63 <= z <= I64_MAX -> parse_i64 (pretty z) = Some z.
Proof.
  intros Hz. assert (Hr : (- 2 ^ 63 <=? z) && (z <=? I64_MAX) = true)
    by (apply andb_true_iff; split; lia).
  destruct z as [|p|p]; [done| |].
  - change (pretty (Z.pos p)) with (pretty_N_go (N.pos p) EmptyString).
    destruct (digits_of_pos p) as [Hv (c & s & Hc & Hd)]. rewrite Hc in *. unfold parse_i64.
    assert (Hsign : c <> "-"%char /\ c <> "+"%char) by (split; intros ->; done).
    destruct (decide (c = "-"%char)) as [->|Hm]; [by destruct Hsign|].
    destruct (decide (c = "+"%char)) as [->|Hp]; [by destruct Hsign|].
    assert (E : match String c s with
                | String "-" rest => (true, rest)
                | String "+" rest => (false, rest)
                | _ => (false, String c s)
                end = (false, String c s)).
    { destruct c as [[] [] [] [] [] [] [] []]; done. }
    rewrite E. cbn [mbind option_bind]. rewrite Hv. cbn [mbind option_bind].
    change (Z.of_N (N.pos p)) with (Z.pos p). by rewrite Hr.
  - change (pretty (Z.neg p)) with (String "-" (pretty_N_go (N.pos p) EmptyString)).
    destruct (digits_of_pos p) as [Hv (c & s & Hc & Hd)]. unfold parse_i64. rewrite Hc in *.
    rewrite Hv. cbn [mbind option_bind]. change (- Z.of_N (N.pos p)) with (Z.neg p). by rewrite Hr.
Qed.
Lemma pretty_chars p (z : Z) : p "-"%char = true -> (forall d, (d < 10)%N -> p (pretty_N_char d) = true) ->
  all_chars p (pretty z) = true.
Proof.
  intros Hm Hd. destruct z as [|q|q].
  - pose proof (Hd 0%N eq_refl) as H0. cbn in *. by rewrite H0.
  - exact (pretty_go_chars p (N.pos q) EmptyString Hd eq_refl).
  - change (pretty (Z.neg q)) with (String "-" (pretty_N_go (N.pos q) EmptyString)). cbn [all_chars].
    rewrite Hm. exact (pretty_go_chars p (N.pos q) EmptyString Hd eq_refl).
Qed.

(** The header of a sound cookie, attribute by attribute. *)
Definition attributes (c : Cookie) : list string :=
  match path c with Some p => [" Path=" +:+ p] | None => [] end
  ++ match domain c with Some d => [" Domain=" +:+ d] | None => [] end
  ++ match max_age c with Some z => [" Max-Age=" +:+ pretty z] | None => [] end
  ++ [" SameSite=" +:+ label (same_site c)]
  ++ (if secure c then [" Secure"%string] else [])
  ++ (if http_only c then [" HttpOnly"%string] else []).
Definition glue (l : list string) : string := foldr (λ a s, String ";" (a +:+ s)) EmptyString l.
Lemma glue_app l k : glue (l ++ k) = glue l +:+ glue k.
Proof.
  induction l as [|a l IH]; [done|].
  change (glue ((a :: l) ++ k)) with (String ";" (a +:+ glue (l ++ k))).
  rewrite IH, <- string_app_assoc. done.
Qed.
Lemma glue_one a : glue [a] = String ";" a.
Proof. unfold glue. cbn [foldr]. by rewrite string_app_nil. Qed.
Lemma to_header_parts c : to_header c = name c +:+ String "=" (value c +:+ glue (attributes c)).
Proof.
  unfold to_header, attributes. rewrite !glue_app, glue_one.
  assert (Ha : forall key (o : option string), attribute key o =
    glue match o with Some v => [" " +:+ key +:+ "=" +:+ v] | None => [] end).
  { intros key [v|]; [by rewrite glue_one|done]. }
  assert (Hf : forall key (b : bool), flag key b = glue (if b then [" " +:+ key] else [])).
  { intros key [|]; [by rewrite glue_one|done]. }
  rewrite !Ha, !Hf. destruct (path c), (domain c), (max_age c); reflexivity.
Qed.

(** What arrives when a cookie is sent: white space around the attributes is trimmed, and a
    domain loses leading dots and capitals. *)
Definition arrived_domain (d : string) : option string :=
  match to_ascii_lowercase (trim_start_matches "." (trim d)) with EmptyString => None | d => Some d end.
Definition arrived (c : Cookie) : SetCookie :=
  let d := domain c ≫= arrived_domain in
  mkSetCookie (mkCookie (name c) (value c) (Some (from_option trim "/"%string (path c))) d (max_age c)
                 (http_only c) (secure c) (same_site c))
    d (trim <$> path c) (max_age c) None.
Lemma attribute_path s p : apply_attribute s (" Path=" +:+ p) =
  mkSetCookie (mkCookie (name (cookie s)) (value (cookie s)) (Some (trim p)) (domain (cookie s))
    (max_age (cookie s)) (http_only (cookie s)) (secure (cookie s)) (same_site (cookie s)))
    (set_domain s) (Some (trim p)) (set_max_age s) (expires_unix_ms s).
Proof.
  unfold apply_attribute. change (" Path=" +:+ p) with (" Path" +:+ String "=" p).
  rewrite split_once_lacking by done. generalize (trim p). intros q. vm_compute. reflexivity.
Qed.
Lemma attribute_domain s d : apply_attribute s (" Domain=" +:+ d) =
  match arrived_domain d with
  | None => s
  | Some d => mkSetCookie (mkCookie (name (cookie s)) (value (cookie s)) (path (cookie s)) (Some d)
    (max_age (cookie s)) (http_only (cookie s)) (secure (cookie s)) (same_site (cookie s)))
    (Some d) (set_path s) (set_max_age s) (expires_unix_ms s)
  end.
Proof.
  unfold apply_attribute, arrived_domain. change (" Domain=" +:+ d) with (" Domain" +:+ String "=" d).
  rewrite split_once_lacking by done.
  change (to_ascii_lowercase (trim " Domain")) with (to_ascii_lowercase "domain").
  replace (trim " Domain") with "Domain"%string by (vm_compute; reflexivity). cbv zeta.
  change (to_ascii_lowercase "Domain") with "domain"%string. rewrite bool_decide_true by done.
  by destruct (to_ascii_lowercase (trim_start_matches "." (trim d))).
Qed.
Lemma attribute_max_age s z : - 2 ^ 63 <= z <= I64_MAX ->
  apply_attribute s (" Max-Age=" +:+ pretty z) =
  mkSetCookie (with_max_age (cookie s) z) (set_domain s) (set_path s) (Some z) (expires_unix_ms s).
Proof.
  intros Hz. unfold apply_attribute.
  change (" Max-Age=" +:+ pretty z) with (" Max-Age" +:+ String "=" (pretty z)).
  rewrite split_once_lacking by done. rewrite (trim_visible (pretty z)).
  - pose proof (parse_pretty z Hz) as Hp. revert Hp. generalize (pretty z). intros t Hp.
    replace (trim " Max-Age") with "Max-Age"%string by (vm_compute; reflexivity). cbv zeta.
    change (to_ascii_lowercase "Max-Age") with "max-age"%string.
    do 2 rewrite bool_decide_false by done. rewrite bool_decide_true by done. by rewrite Hp.
  - apply pretty_chars; [done|]. intros d Hd. destruct (digit_char d Hd) as [H _].
    unfold is_ascii_digit, in_range in H. apply andb_true_iff in H as [H1 H2].
    unfold printable, code. apply N.leb_le in H1, H2. cbn in H1, H2.
    apply andb_true_iff. split; apply Z.leb_le; lia.
Qed.
Lemma attribute_same_site s x : apply_attribute s (" SameSite=" +:+ label x) =
  update_cookie (λ c, set_same_site c x) s.
Proof. destruct x; vm_compute; reflexivity. Qed.
Lemma attribute_secure s : apply_attribute s " Secure" = update_cookie (λ c, set_secure c true) s.
Proof. vm_compute. reflexivity. Qed.
Lemma attribute_http_only s : apply_attribute s " HttpOnly" = update_cookie (λ c, set_http_only c true) s.
Proof. vm_compute. reflexivity. Qed.
Lemma apply_attributes c : sound c ->
  foldl apply_attribute
    (mkSetCookie (mkCookie (name c) (value c) (Some "/"%string) None None false false Lax)
      None None None None)
    (attributes c) = arrived c.
Proof.
  intros [_ _ _ _ Hz _]. destruct c as [n v p d z h sec ss]. unfold attributes, arrived. cbn in Hz.
  cbn [name value path domain max_age http_only secure same_site].
  rewrite !foldl_app. destruct p as [p|]; cbn [foldl]; rewrite ?attribute_path; cbn [cookie];
  destruct d as [d|]; cbn [foldl]; rewrite ?attribute_domain;
  cbn [mbind option_bind fmap option_fmap option_map from_option]; try destruct (arrived_domain d);
  destruct z as [z|]; cbn [foldl]; rewrite ?attribute_max_age by done; rewrite attribute_same_site;
  destruct sec; cbn [foldl]; rewrite ?attribute_secure; destruct h; cbn [foldl];
    rewrite ?attribute_http_only; reflexivity.
Qed.

Lemma glue_split s l : lacks ";" s -> Forall (lacks ";") l -> split ";" (s +:+ glue l) = s :: l.
Proof.
  intros Hs Hl. revert s Hs. induction Hl as [|a l Ha _ IH]; intros s Hs.
  - unfold glue. cbn [foldr]. rewrite string_app_nil. by apply split_alone.
  - change (glue (a :: l)) with (String ";" (a +:+ glue l)). rewrite split_lacking by done.
    by rewrite IH.
Qed.
Lemma octets_visible s : cookie_octets s -> visible s /\ lacks ";" s.
Proof.
  intros H. split; eapply all_chars_impl; try exact H; intros c; cbn beta; unfold bad_value_byte;
    rewrite !negb_true_iff, orb_false_iff, negb_false_iff; intros [H1 H2]; [done|].
  destruct (char_eq ";" c) eqn:Ec; [|done]. by apply char_eq_spec in Ec as <-.
Qed.
Lemma token_visible s : token s -> visible s /\ lacks ";" s /\ lacks "=" s.
Proof.
  intros [_ H]. repeat split; eapply all_chars_impl; try exact H; intros c; cbn beta;
    unfold bad_name_byte; rewrite !negb_true_iff, orb_false_iff, negb_false_iff; intros [H1 H2];
    [done|destruct (char_eq ";" c) eqn:Ec|destruct (char_eq "=" c) eqn:Ec]; try done;
    by apply char_eq_spec in Ec as <-.
Qed.
Lemma text_lacks s : attribute_text s -> lacks ";" s.
Proof.
  intros H. eapply all_chars_impl; [|exact H]. intros c. cbn beta. unfold bad_attribute_byte.
  rewrite !negb_true_iff. intros E. destruct (char_eq ";" c) eqn:Ec; [|done].
  by apply char_eq_spec in Ec as <-.
Qed.
(** No byte of a control character, so no end of the header line. *)
Definition no_control (c : ascii) : bool := (0x20 <=? code c) && negb (code c =? 0x7f).
Definition one_line (s : string) : Prop := all_chars no_control s = true.
Lemma visible_one_line s : visible s -> one_line s.
Proof.
  apply all_chars_impl. intros c. unfold printable, no_control.
  rewrite !andb_true_iff, negb_true_iff, !Z.leb_le, Z.eqb_neq. lia.
Qed.
Lemma text_one_line s : attribute_text s -> one_line s.
Proof.
  apply all_chars_impl. intros c. unfold bad_attribute_byte, no_control.
  rewrite negb_true_iff, !orb_false_iff, andb_true_iff, negb_true_iff, Z.ltb_ge, Z.leb_le. intuition.
Qed.
Lemma attributes_clean c : sound c -> Forall (λ a, lacks ";" a /\ one_line a) (attributes c).
Proof.
  intros [_ _ Hp Hd Hz _]. unfold attributes.
  assert (Hjoin : forall key s, lacks ";" key -> one_line key -> lacks ";" s -> one_line s ->
    lacks ";" (key +:+ s) /\ one_line (key +:+ s)).
  { unfold lacks, one_line. intros key s ????. rewrite !all_chars_app. split; by apply andb_true_iff. }
  repeat apply Forall_app_2.
  - destruct (path c) as [p|]; constructor; [|done]. apply Hjoin; [done|done|by apply text_lacks|by apply text_one_line].
  - destruct (domain c) as [p|]; constructor; [|done]. apply Hjoin; [done|done|by apply text_lacks|by apply text_one_line].
  - destruct (max_age c) as [z|]; constructor; [|done]. apply Hjoin; [done|done| |];
      (apply pretty_chars; [done|]); intros d Hlt; destruct (digit_char d Hlt) as [H _];
      unfold is_ascii_digit, in_range in H; apply andb_true_iff in H as [H1 H2];
      apply N.leb_le in H1, H2; cbn in H1, H2.
    + destruct (char_eq ";" (pretty_N_char d)) eqn:Ec; [|done]. apply char_eq_spec in Ec. rewrite <- Ec in H2.
      by vm_compute in H2.
    + unfold no_control, code. apply andb_true_iff. rewrite negb_true_iff, Z.leb_le, Z.eqb_neq. lia.
  - constructor; [|done]. by destruct (same_site c).
  - destruct (secure c); by repeat constructor.
  - destruct (http_only c); by repeat constructor.
Qed.

(** C37. A cookie that was built survives its header: parsing the [Set-Cookie] value gives the name,
    the value and every attribute back, [HttpOnly] set or not (text trimmed, the domain in lower case without leading
    dots), and the header holds no control character, so it cannot split the response. *)
Theorem built_cookies_round_trip c :
  built c -> parse_set_cookie (to_header c) = Some (arrived c) /\ one_line (to_header c).
Proof.
  intros Hs%built_sound. pose proof (attributes_clean c Hs) as Ha. pose proof (apply_attributes c Hs) as Hf.
  destruct Hs as [Hn Hv _ _ _ _]. destruct (token_visible _ Hn) as (Hnv & Hns & Hne).
  destruct (octets_visible _ Hv) as [Hvv Hvs]. rewrite to_header_parts. split.
  - unfold parse_set_cookie.
    change (name c +:+ String "=" (value c +:+ ?x)) with (name c +:+ (String "=" (value c) +:+ x)).
    assert (Hl : lacks ";" (name c +:+ String "=" (value c))).
    { unfold lacks. rewrite all_chars_app. cbn [all_chars]. unfold lacks in *. by rewrite Hns, Hvs. }
    rewrite <- string_app_assoc, glue_split by (done || by eapply Forall_impl; [exact Ha|]; intros ? []).
    rewrite split_once_lacking by done. cbn [mbind option_bind].
    rewrite (trim_visible _ Hnv), (trim_visible _ Hvv).
    rewrite (proj2 (new_inv _ _ _) (conj Hn (conj Hv eq_refl))). cbv zeta. f_equal. exact Hf.
  - apply visible_one_line in Hnv, Hvv. unfold one_line in *. rewrite all_chars_app. cbn [all_chars].
    assert (Hg : all_chars no_control (glue (attributes c)) = true).
    { clear - Ha. induction Ha as [|a l [_ Ha] _ IH]; [done|].
      change (glue (a :: l)) with (String ";" (a +:+ glue l)). cbn [all_chars].
      rewrite all_chars_app. unfold one_line in Ha. by rewrite Ha, IH. }
    by rewrite all_chars_app, Hnv, Hvv, Hg.
Qed.

(** ** Dates *)

Definition leap (year : Z) : bool :=
  (year mod 4 =? 0) && (negb (year mod 100 =? 0) || (year mod 400 =? 0)).
Definition month_length (year month : Z) : Z :=
  if month =? 2 then if leap year then 29 else 28
  else if existsb (Z.eqb month) [4; 6; 9; 11] then 30 else 31.
Definition next_day (date : Z * Z * Z) : Z * Z * Z :=
  let '(year, month, day) := date in
  if day <? month_length year month then (year, month, day + 1)
  else if month <? 12 then (year, month + 1, 1) else (year + 1, 1, 1).
Definition days (date : Z * Z * Z) : Z := let '(year, month, day) := date in days_from_civil year month day.
Definition days_before (year : Z) : Z :=
  year / 400 * 146097 + (year mod 400 * 365 + year mod 400 / 4 - year mod 400 / 100).
Lemma days_before_step year :
  days_before year = days_before (year - 1) + (if leap year then 366 else 365).
Proof.
  assert (Hs : exists e r, year = 400 * e + r /\ 0 <= r < 400)
    by (exists (year / 400), (year mod 400); Z.to_euclidean_division_equations; lia).
  destruct Hs as (e & r & -> & Hr). unfold days_before, leap.
  assert (H4 : (400 * e + r) mod 4 = r mod 4) by (Z.to_euclidean_division_equations; lia).
  assert (H100 : (400 * e + r) mod 100 = r mod 100) by (Z.to_euclidean_division_equations; lia).
  assert (H400 : (400 * e + r) mod 400 = r /\ (400 * e + r) / 400 = e)
    by (Z.to_euclidean_division_equations; lia).
  destruct H400 as [Hm Hq]. rewrite H4, H100, Hm, Hq. destruct (decide (r = 0)) as [->|Hne].
  - assert (Hp : (400 * e + 0 - 1) mod 400 = 399 /\ (400 * e + 0 - 1) / 400 = e - 1)
      by (Z.to_euclidean_division_equations; lia). destruct Hp as [-> ->]. change (399 `div` 4) with 99.
    change (399 `div` 100) with 3. change (0 `div` 4) with 0. change (0 `div` 100) with 0.
    change (0 `mod` 4) with 0. change (0 `mod` 100) with 0. cbn -[Z.mul Z.add Z.sub]. lia.
  - assert (Hp : (400 * e + r - 1) mod 400 = r - 1 /\ (400 * e + r - 1) / 400 = e)
      by (Z.to_euclidean_division_equations; lia). destruct Hp as [-> ->].
    rewrite (proj2 (Z.eqb_neq r 0)) by done. rewrite orb_false_r.
    clear - Hr Hne. case Z.eqb_spec; intros E4; case Z.eqb_spec; intros E100; cbn [negb andb];
      Z.to_euclidean_division_equations; lia.
Qed.
(** The day count of a date of the proleptic Gregorian calendar: one more a day later, and 0 on
    the first of January 1970. *)
Lemma days_count_the_calendar year month day :
  1 <= month <= 12 -> 1 <= day <= month_length year month ->
  days (next_day (year, month, day)) = days (year, month, day) + 1.
Proof.
  intros Hm Hd.
  assert (Hcivil : forall y m d, days_from_civil y m d =
    days_before (if m <=? 2 then y - 1 else y) +
    ((153 * (m + (if 2 <? m then -3 else 9)) + 2) / 5 + d - 1) - 719468).
  { intros y m d. unfold days_from_civil, days_before.
    destruct (m <=? 2); [|rewrite Z.sub_0_r]; lia. }
  unfold next_day. case Z.ltb_spec; intros Hl; unfold days; [rewrite !Hcivil; lia|].
  assert (day = month_length year month) as -> by lia. clear Hd Hl. unfold month_length.
  pose proof (days_before_step year) as Hy.
  assert (Hc : month = 1 \/ month = 2 \/ month = 3 \/ month = 4 \/ month = 5 \/ month = 6 \/
    month = 7 \/ month = 8 \/ month = 9 \/ month = 10 \/ month = 11 \/ month = 12) by lia.
  repeat destruct Hc as [->|Hc]; try subst month;
    cbn -[Z.add Z.sub days_from_civil leap]; rewrite !Hcivil;
    repeat match goal with |- context [?m + 1 <=? 2] =>
      let v := eval compute in (m + 1) in change (m + 1) with v end;
    cbn -[Z.sub Z.mul Z.div days_before leap]; rewrite ?Z.add_simpl_r;
    try destruct (leap year); Z.to_euclidean_division_equations; lia.
Qed.

Module CookieExample.
Definition now : Z := 1700000000000.
Definition log : list Received :=
  [("https://api.test/v1/login", "sid=abc; HttpOnly", now);
   ("https://shop.test/cart/add", "cart=7; Domain=.Shop.test; Path=/cart; Secure; Max-Age=60", now);
   ("https://evil.test/", "sid=stolen; Domain=api.test", now);
   ("https://api.test/v1/login", "old=1; Expires=Thu, 01 Jan 1970 00:00:00 GMT", now);
   ("https://api.test/v1/users/7", "sid=def; Path=/v1", now + 1)]%string.
Example sent_to :
  (λ u, header_for (jar_after log) u now) <$>
    ["https://api.test/v1/orders"; "https://api.test/v2"; "https://www.shop.test/cart/view";
     "http://www.shop.test/cart/view"; "https://shop.test/cartoons"; "https://other.test/"]%string =
  [Some "sid=def"%string; None; Some "cart=7"%string; None; None; None].
Proof. vm_compute. reflexivity. Qed.
Example expires_at_the_minute :
  (header_for (jar_after log) "https://shop.test/cart" (now + 59999),
   header_for (jar_after log) "https://shop.test/cart" (now + 60000)) = (Some "cart=7"%string, None).
Proof. vm_compute. reflexivity. Qed.

Lemma cookies_go_back_to_their_site_witness :
  exists e from header received p,
    (from, header, received) ∈ log /\ parse_set_cookie header = Some p /\ stored e = cookie p /\
    (let host := to_ascii_lowercase (host_of "https://www.shop.test/cart/view") in
     let setter := to_ascii_lowercase (host_of from) in
     match set_domain p with
     | Some domain => in_domain setter domain /\ in_domain host domain
     | None => host = setter
     end).
Proof.
  eexists. edestruct (cookies_go_back_to_their_site log "https://www.shop.test/cart/view" now)
    as (from & header & received & p & H1 & H2 & H3 & H4 & _).
  - vm_compute. left.
  - exists from, header, received, p. repeat (split; [done|]). exact H4.
Defined.

Definition session : Cookie :=
  mkCookie "sid" "a=b" (Some " /app "%string) (Some ".Example.TEST"%string) (Some 3600) false true AnySite.
Lemma built_cookies_round_trip_witness :
  parse_set_cookie (to_header session) = Some (arrived session) /\ one_line (to_header session).
Proof.
  apply built_cookies_round_trip.
  pose (c0 := mkCookie "sid" "a=b" (Some "/"%string) None None true false Lax).
  assert (B0 : built c0) by (apply (built_new "sid" "a=b"); reflexivity).
  pose proof (built_max_age _ 3600 (built_same_site _ AnySite (built_http_only _ false B0)) ltac:(split; vm_compute; discriminate)) as B1.
  assert (B2 : built (mkCookie "sid" "a=b" (Some " /app "%string) None (Some 3600) false true AnySite))
    by (apply (built_path _ " /app "%string _ B1); reflexivity).
  apply (built_domain _ ".Example.TEST"%string _ B2). reflexivity.
Defined.

(** RFC 6265, 5.1.1, rejects a date that does not exist; here it is a day of March. *)
Example thirty_first_of_february :
  parse_cookie_date "Sun, 31 Feb 2030 00:00:00 GMT" = parse_cookie_date "Sun, 03 Mar 2030 00:00:00 GMT" /\
  parse_cookie_date "Sun, 31 Feb 2030 00:00:00 GMT" = Some 1898726400000.
Proof. split; vm_compute; reflexivity. Qed.
(** A header without a path is stored under the default path, and its cookie says [/]. *)
Example default_path_is_not_told :
  (λ e, (stored_path e, path (stored e))) <$> entries (jar_after (take 1 log)) =
  [("/v1", Some "/")]%string.
Proof. vm_compute. reflexivity. Qed.
End CookieExample.
