(* ===== verification/Signature.v ===== *)
(** HTTP message signatures ([crates/noeta-stdlib/src/signature.rs]): the signature base, signing a
    request, and verifying one.

    HMAC, SHA-256, base64 and Unicode's lower case are a class: they are not code of this
    repository. *)
From Stdlib Require Import Strings.Ascii Strings.String.
From stdpp Require Import pretty.
From S2P Require Import Prelude Words Uri Redirect Cookies CookieProps.
From stdpp Require Import options.
Open Scope Z_scope.
Open Scope list_scope.

Inductive SignatureAlg := HmacSha256 | HmacSha512.
(** [SignatureAlg::label] and [parse]. *)
Definition alg_label (a : SignatureAlg) : string :=
  match a with HmacSha256 => "hmac-sha256" | HmacSha512 => "hmac-sha512" end.
Definition parse_alg (raw : string) : option SignatureAlg :=
  if bool_decide (raw = "hmac-sha256"%string) then Some HmacSha256
  else if bool_decide (raw = "hmac-sha512"%string) then Some HmacSha512
  else None.

Class Crypto := {
  hmac : SignatureAlg -> list Z -> string -> list Z;
  hmac_verify : SignatureAlg -> list Z -> string -> list Z -> bool;
  sha256 : list Z -> list Z;
  base64_encode : list Z -> string;
  base64_decode : string -> option (list Z);
  to_lowercase : string -> string;
}.

Definition DEFAULT_COMPONENTS : list string := ["@method"; "@path"; "@query"; "@authority"]%string.
Definition DEFAULT_LABEL : string := "sig1".
Definition CONTENT_DIGEST : string := "content-digest".

Record SigningKey := mkKey {
  signing_id : string;
  secret : list Z;
  alg : SignatureAlg;
  key_components : list string;
}.
(** [SigningKey::new], [with_components], [with_alg], [covers_content_digest]. *)
Definition new_key (id : string) (secret : list Z) : SigningKey :=
  mkKey id secret HmacSha256 DEFAULT_COMPONENTS.
Definition with_components (k : SigningKey) (components : list string) : SigningKey :=
  mkKey (signing_id k) (secret k) (alg k) components.
Definition with_alg (k : SigningKey) (a : SignatureAlg) : SigningKey :=
  mkKey (signing_id k) (secret k) a (key_components k).
Definition covers_content_digest (k : SigningKey) : bool :=
  existsb (λ c, eq_ignore_ascii_case c CONTENT_DIGEST) (key_components k).

Record SignatureParams := mkParams {
  components : list string;
  created : option Z;
  expires : option Z;
  key_id : option string;
  param_alg : option string;
  nonce : option string;
  param_tag : option string;
}.
Definition quote : string := String double_quote EmptyString.
Definition quoted (s : string) : string := quote +:+ s +:+ quote.
Definition parameter (key : string) (o : option string) : string :=
  match o with Some v => ";" +:+ key +:+ "=" +:+ v | None => EmptyString end.
(** [SignatureParams::to_value]. *)
Definition to_value (p : SignatureParams) : string :=
  "(" +:+ join " " (quoted <$> components p) +:+ ")"
  +:+ parameter "created" (pretty <$> created p)
  +:+ parameter "expires" (pretty <$> expires p)
  +:+ parameter "keyid" (quoted <$> key_id p)
  +:+ parameter "alg" (quoted <$> param_alg p)
  +:+ parameter "nonce" (quoted <$> nonce p)
  +:+ parameter "tag" (quoted <$> param_tag p).

(** ** The signature base *)

(** [query_of], [authority_of]. *)
Definition query_of (url : string) : option string :=
  snd <$> split_once "?" (default url (head (split "#" url))).
Definition request_authority (request : NetRequest) : string :=
  match list_find (λ h, eq_ignore_ascii_case h.1 "host" = true) (headers request) with
  | Some (_, (_, host)) => to_ascii_lowercase (trim host)
  | None =>
      let host := to_ascii_lowercase (host_of (url request)) in
      let scheme := to_ascii_lowercase (default "https"%string (scheme_of (url request))) in
      let default_port :=
        if bool_decide (scheme = "http"%string) || bool_decide (scheme = "ws"%string) then 80%N
        else 443%N in
      match port_of (url request) with
      | Some port => if bool_decide (port = default_port) then host else host +:+ ":" +:+ pretty port
      | None => host
      end
  end.
Definition to_ascii_uppercase (s : string) : string :=
  string_of_list_ascii
    ((λ c, if is_ascii_lowercase c then ascii_of_N (N_of_ascii c - 32) else c) <$> list_ascii_of_string s).
(** [derived_component], [component_value]. *)
Definition derived_component (request : NetRequest) (derived : string) : option string :=
  let u := url request in
  if bool_decide (derived = "method"%string) then Some (to_ascii_uppercase (method request))
  else if bool_decide (derived = "target-uri"%string) then Some u
  else if bool_decide (derived = "authority"%string) then Some (request_authority request)
  else if bool_decide (derived = "scheme"%string) then
    Some (to_ascii_lowercase (default "https"%string (scheme_of u)))
  else if bool_decide (derived = "request-target"%string) then
    Some (with_query (path_of u) (query_of u))
  else if bool_decide (derived = "path"%string) then Some (path_of u)
  else if bool_decide (derived = "query"%string) then Some ("?" +:+ default EmptyString (query_of u))
  else None.
Definition component_value (request : NetRequest) (component : string) : option string :=
  match strip_prefix "@" component with
  | Some derived => derived_component request derived
  | None =>
      match List.filter (λ h, eq_ignore_ascii_case h.1 component) (headers request) with
      | [] => None
      | found => Some (join ", " ((λ h, trim h.2) <$> found))
      end
  end.
Definition newline : string := String (ascii_of_N 10) EmptyString.
Definition line (component v : string) : string := quoted component +:+ ": " +:+ v.
Definition base_lines (request : NetRequest) (p : SignatureParams) : option (list string) :=
  mapM (λ component,
    let component := to_ascii_lowercase component in
    line component <$> component_value request component) (components p).
(** [signature_base]; [None] for the error, which names the first absent component. *)
Definition signature_base (request : NetRequest) (p : SignatureParams) : option string :=
  lines ← base_lines request p;
  Some (join newline (lines ++ [line "@signature-params" (to_value p)])).

(** ** Signing *)

(** [set_header]. *)
Definition set_header (request : NetRequest) (name v : string) : NetRequest :=
  mkNetRequest (method request) (url request)
    (List.filter (λ h, negb (eq_ignore_ascii_case h.1 name)) (headers request) ++ [(name, v)])
    (body request) (timeout_ms request) (redirect_limit request).

Section Signing.
Context `{Crypto}.
(** [content_digest_value], [sign_request]. *)
Definition content_digest_value (body : list Z) : string :=
  "sha-256=:" +:+ base64_encode (sha256 body) +:+ ":".
Definition with_digest (request : NetRequest) (key : SigningKey) : NetRequest :=
  if covers_content_digest key
  then set_header request "content-digest" (content_digest_value (body request))
  else request.
Definition signing_params (key : SigningKey) (created : Z) : SignatureParams :=
  mkParams (to_lowercase <$> key_components key) (Some created) None (Some (signing_id key))
    (Some (alg_label (alg key))) None None.
Definition sign_request (request : NetRequest) (key : SigningKey) (created : Z) : option NetRequest :=
  let request := with_digest request key in
  let params := signing_params key created in
  base ← signature_base request params;
  let tag := hmac (alg key) (secret key) base in
  let request := set_header request "signature-input" (DEFAULT_LABEL +:+ "=" +:+ to_value params) in
  Some (set_header request "signature" (DEFAULT_LABEL +:+ "=:" +:+ base64_encode tag +:+ ":")).
End Signing.

(** ** Verifying *)

Inductive VerifyFailure := Absent | Malformed | UnsupportedAlg | MissingComponent | Stale | Mismatch.

(** [split_dictionary]: the loop's state, and the members it cuts. *)
Fixpoint dictionary_parts (depth : nat) (in_bytes in_quotes : bool) (s : string) : list string :=
  match s with
  | EmptyString => [EmptyString]
  | String c rest =>
      let keep depth in_bytes in_quotes :=
        match dictionary_parts depth in_bytes in_quotes rest with
        | part :: parts => String c part :: parts
        | [] => [String c EmptyString]
        end in
      if char_eq c double_quote then keep depth in_bytes (negb in_quotes)
      else if char_eq c "(" && negb in_quotes then keep (S depth) in_bytes in_quotes
      else if char_eq c ")" && negb in_quotes then keep (pred depth) in_bytes in_quotes
      else if char_eq c ":" && negb in_quotes && (depth =? 0)%nat then keep depth (negb in_bytes) in_quotes
      else if char_eq c "," && negb in_quotes && negb in_bytes && (depth =? 0)%nat
      then EmptyString :: dictionary_parts depth in_bytes in_quotes rest
      else keep depth in_bytes in_quotes
  end.
Definition not_empty (s : string) : bool := match s with EmptyString => false | _ => true end.
Definition split_dictionary (header : string) : list string :=
  List.filter not_empty (trim <$> dictionary_parts 0 false false header).

(** [split_whitespace], [trim_matches] of a character. *)
Fixpoint whitespace_parts (fuel : nat) (s : string) : list string :=
  match fuel, s with
  | O, _ | _, EmptyString => [EmptyString]
  | S fuel, String c rest =>
      match list_find (λ w, is_Some (strip_prefix w s)) white_space with
      | Some (_, w) => EmptyString :: whitespace_parts fuel (default rest (strip_prefix w s))
      | None =>
          match whitespace_parts fuel rest with
          | part :: parts => String c part :: parts
          | [] => [String c EmptyString]
          end
      end
  end.
Definition split_whitespace (s : string) : list string :=
  List.filter not_empty (whitespace_parts (S (String.length s)) s).
Definition trim_matches (c : ascii) (s : string) : string :=
  reversed (trim_start_matches c (reversed (trim_start_matches c s))).

(** [parse_signature_input]: one parameter, one member. *)
Definition read_parameter (p : SignatureParams) (text : string) : SignatureParams :=
  match split_once "=" text with
  | None => p
  | Some (name, raw) =>
      let raw := trim raw in
      let name := trim name in
      let unquoted := trim_matches double_quote raw in
      if bool_decide (name = "created"%string) then
        mkParams (components p) (parse_i64 raw) (expires p) (key_id p) (param_alg p) (nonce p) (param_tag p)
      else if bool_decide (name = "expires"%string) then
        mkParams (components p) (created p) (parse_i64 raw) (key_id p) (param_alg p) (nonce p) (param_tag p)
      else if bool_decide (name = "keyid"%string) then
        mkParams (components p) (created p) (expires p) (Some unquoted) (param_alg p) (nonce p) (param_tag p)
      else if bool_decide (name = "alg"%string) then
        mkParams (components p) (created p) (expires p) (key_id p) (Some unquoted) (nonce p) (param_tag p)
      else if bool_decide (name = "nonce"%string) then
        mkParams (components p) (created p) (expires p) (key_id p) (param_alg p) (Some unquoted) (param_tag p)
      else if bool_decide (name = "tag"%string) then
        mkParams (components p) (created p) (expires p) (key_id p) (param_alg p) (nonce p) (Some unquoted)
      else p
  end.
Definition read_input (member : string) : option (string * SignatureParams) :=
  '(label, v) ← split_once "=" member;
  match break (char_eq ")") (trim v) with
  | (_, EmptyString) => None
  | (before, String _ rest) =>
      inner ← strip_prefix "(" before;
      let names := List.filter not_empty
        ((λ c, to_ascii_lowercase (trim_matches double_quote c)) <$> split_whitespace inner) in
      Some (trim label,
            foldl read_parameter (mkParams names None None None None None None) (split ";" rest))
  end.
Definition parse_signature_input (header : string) : list (string * SignatureParams) :=
  omap read_input (split_dictionary header).
(** [header_value]. *)
Definition request_header (request : NetRequest) (name : string) : option string :=
  '(_, (_, v)) ← list_find (λ h, eq_ignore_ascii_case h.1 name = true) (headers request); Some v.

Section Verifying.
Context `{Crypto}.
(** [parse_signature]. *)
Definition read_tag (member : string) : option (string * list Z) :=
  '(label, v) ← split_once "=" member;
  encoded ← strip_prefix ":" (trim v) ≫= strip_suffix_char ":";
  tag ← base64_decode encoded;
  Some (trim label, tag).
Definition parse_signature (header : string) : list (string * list Z) :=
  omap read_tag (split_dictionary header).

(** [verify_one] and its freshness window, whose difference and absolute value wrap as an [i64] of
    a release build does. *)
Definition freshness (p : SignatureParams) (now : Z) (max_age : option Z) : option VerifyFailure :=
  match max_age with
  | None => None
  | Some window =>
      match created p with
      | None => Some Stale
      | Some created => if window <? as_i64 (Z.abs (as_i64 (now - created))) then Some Stale else None
      end
  end.
Definition verify_one (request : NetRequest) (secret : list Z) (p : SignatureParams) (tag : list Z)
    (now : Z) (max_age : option Z) : option VerifyFailure :=
  match match param_alg p with Some raw => parse_alg raw | None => Some HmacSha256 end with
  | None => Some UnsupportedAlg
  | Some a =>
      if match expires p with Some at_ => at_ <? now | None => false end then Some Stale
      else
        match freshness p now max_age with
        | Some failure => Some failure
        | None =>
            match signature_base request p with
            | None => Some MissingComponent
            | Some base => if hmac_verify a secret base tag then None else Some Mismatch
            end
        end
  end.
(** [verify_request]: the loop over the labelled inputs; [None] is success. *)
Fixpoint verify_loop (request : NetRequest) (secret : list Z) (signatures : list (string * list Z))
    (now : Z) (max_age : option Z) (worst : VerifyFailure) (inputs : list (string * SignatureParams)) :
    option VerifyFailure :=
  match inputs with
  | [] => Some worst
  | (label, p) :: inputs =>
      match list_find (λ s, s.1 = label) signatures with
      | None => verify_loop request secret signatures now max_age worst inputs
      | Some (_, (_, tag)) =>
          match verify_one request secret p tag now max_age with
          | None => None
          | Some failure => verify_loop request secret signatures now max_age failure inputs
          end
      end
  end.
Definition verify_request (request : NetRequest) (secret : list Z) (now : Z) (max_age : option Z) :
    option VerifyFailure :=
  match request_header request "signature-input", request_header request "signature" with
  | Some input, Some signature =>
      let inputs := parse_signature_input input in
      let signatures := parse_signature signature in
      if is_empty inputs || is_empty signatures then Some Malformed
      else verify_loop request secret signatures now max_age Malformed inputs
  | _, _ => Some Absent
  end.
End Verifying.

(** ** What a signature base binds *)

Definition nl : ascii := ascii_of_N 10.
Lemma split_join_lacking ch l : l <> [] -> Forall (lacks ch) l -> split ch (join (String ch EmptyString) l) = l.
Proof.
  intros Hne Hl. induction Hl as [|s l Hs Hl IH]; [done|]. destruct l as [|t l]; [by apply split_alone|].
  change (join (String ch EmptyString) (s :: t :: l)) with
    (s +:+ String ch (join (String ch EmptyString) (t :: l))).
  rewrite split_lacking by done. by rewrite IH.
Qed.
Lemma line_shape c v : line c v = String double_quote (c +:+ String double_quote (": " +:+ v)).
Proof.
  unfold line, quoted. change (quote +:+ c +:+ quote) with (String double_quote (c +:+ quote)).
  change (String double_quote (c +:+ quote) +:+ ": " +:+ v)
    with (String double_quote ((c +:+ quote) +:+ ": " +:+ v)).
  by rewrite string_app_assoc.
Qed.
Lemma base_line_inj c1 v1 c2 v2 : lacks double_quote c1 -> lacks double_quote c2 ->
  line c1 v1 = line c2 v2 -> c1 = c2 /\ v1 = v2.
Proof.
  intros H1 H2 E. rewrite !line_shape in E. injection E as E.
  pose proof (split_once_lacking double_quote c1 (": " +:+ v1) H1) as E1.
  rewrite E, split_once_lacking in E1 by done. injection E1 as -> Ev.
  split; [done|]. symmetry. exact Ev.
Qed.
Lemma lacks_app ch s t : lacks ch s -> lacks ch t -> lacks ch (s +:+ t).
Proof. unfold lacks. intros ??. rewrite all_chars_app. by apply andb_true_iff. Qed.
Lemma lower_lacks ch s : lacks ch s -> is_ascii_lowercase ch = false -> lacks ch (to_ascii_lowercase s).
Proof.
  unfold lacks. intros Hs Hc. induction s as [|c s IH]; [done|]. cbn in *.
  apply andb_true_iff in Hs as [Hn Hs]. apply andb_true_iff. split; [|by apply IH].
  unfold lower_ascii. destruct (is_ascii_uppercase c) eqn:Eu; [|done].
  apply negb_true_iff, char_eq_ne. intros ->.
  revert Hc. unfold is_ascii_lowercase, is_ascii_uppercase, in_range in *.
  apply andb_true_iff in Eu as [E1 E2]. apply N.leb_le in E1, E2. cbn in E1, E2.
  rewrite N_ascii_embedding by lia. cbn. intros Hc. apply andb_false_iff in Hc as [Hc|Hc];
    apply N.leb_gt in Hc; lia.
Qed.

Lemma line_lacks_nl c v : lacks nl c -> lacks nl v -> lacks nl (line c v).
Proof.
  intros Hc Hv. rewrite line_shape. unfold lacks in *. cbn [all_chars]. rewrite all_chars_app, Hc.
  change (": " +:+ v) with (String ":" (String " " v)). cbn [all_chars]. by rewrite Hv.
Qed.

(** Parameters and covered values that stay on their line. *)
Record in_lines (request : NetRequest) (p : SignatureParams) : Prop := {
  names_quoted : Forall (λ c, lacks double_quote c /\ lacks nl c) (components p);
  params_in_line : lacks nl (to_value p);
  values_in_line : forall c v, c ∈ components p ->
    component_value request (to_ascii_lowercase c) = Some v -> lacks nl v;
}.
Lemma base_lines_clean request p lines : in_lines request p -> base_lines request p = Some lines ->
  Forall2 (λ c l, exists v, component_value request (to_ascii_lowercase c) = Some v /\
    l = line (to_ascii_lowercase c) v) (components p) lines /\
  Forall (lacks nl) (lines ++ [line "@signature-params" (to_value p)]).
Proof.
  intros [Hc Hp Hv] E. unfold base_lines in E. apply mapM_Some in E.
  assert (Hl : Forall2 (λ c l, exists v, component_value request (to_ascii_lowercase c) = Some v /\
    l = line (to_ascii_lowercase c) v) (components p) lines).
  { eapply Forall2_impl; [exact E|]. intros c l H. cbv zeta in H.
    cbn beta in H.
    destruct (component_value request (to_ascii_lowercase c)) as [v|]; [|discriminate H].
    injection H as <-. by exists v. }
  split; [exact Hl|]. apply Forall_app. split; [|constructor; [|done]].
  - clear E. induction Hl as [|c l cs ls (v & Ev & ->) Hl IH]; [done|].
    apply Forall_cons in Hc as [[Hq Hn] Hc]. constructor.
    + apply line_lacks_nl; [by apply lower_lacks|]. apply (Hv c); [by left|done].
    + apply IH; [done|]. intros c' v' Hc'. apply Hv. by right.
  - by apply line_lacks_nl.
Qed.

(** C24. A signature base binds what it covers: two requests have one base only if their signature
    parameters read the same and every covered component has the same value in both, as long as
    component names are unquoted text and nothing spans lines. *)
Theorem equal_bases_cover_equal_requests request1 p1 request2 p2 base :
  in_lines request1 p1 -> in_lines request2 p2 ->
  signature_base request1 p1 = Some base -> signature_base request2 p2 = Some base ->
  to_value p1 = to_value p2 /\
  (to_ascii_lowercase <$> components p1) = (to_ascii_lowercase <$> components p2) /\
  Forall (λ c, component_value request1 c = component_value request2 c /\
               is_Some (component_value request1 c)) (to_ascii_lowercase <$> components p1).
Proof.
  intros H1 H2 E1 E2. unfold signature_base in *.
  destruct (base_lines request1 p1) as [l1|] eqn:B1; [|done].
  destruct (base_lines request2 p2) as [l2|] eqn:B2; [|done]. cbn [mbind option_bind] in *.
  destruct (base_lines_clean _ _ _ H1 B1) as [L1 N1]. destruct (base_lines_clean _ _ _ H2 B2) as [L2 N2].
  assert (E : l1 ++ [line "@signature-params" (to_value p1)] =
              l2 ++ [line "@signature-params" (to_value p2)]).
  { rewrite <- (split_join_lacking nl (l1 ++ _)), <- (split_join_lacking nl (l2 ++ _)); try done;
      [|by destruct l2|by destruct l1].
    change (String nl EmptyString) with newline. congruence. }
  apply app_inj_tail in E as [-> E]. apply base_line_inj in E as [_ E]; [|done|done]. split; [done|].
  clear - H1 H2 L1 L2. destruct H1 as [C1 _ _], H2 as [C2 _ _].
  revert C1 C2. generalize dependent (components p2).
  induction L1 as [|c l cs ls (v & Ev & ->) _ IH]; intros cs2 L2.
  - apply Forall2_nil_inv_r in L2 as ->. done.
  - apply Forall2_cons_inv_r in L2 as (c2 & cs2' & (v2 & Ev2 & El) & L2 & ->).
    intros [[Q1 _] C1]%Forall_cons [[Q2 _] C2]%Forall_cons.
    apply base_line_inj in El as [Ec ->]; [|by apply lower_lacks|by apply lower_lacks].
    destruct (IH _ L2 C1 C2) as [Ecs Hall]. cbn. rewrite Ec, Ecs in *. split; [done|].
    constructor; [|done]. rewrite Ev, Ev2. eauto.
Qed.

(** ** A signed request verifies *)

(** How the dictionary loop runs through a text that it does not cut. *)
Definition through (depth : nat) (in_bytes in_quotes : bool) (s : string)
    (depth' : nat) (in_bytes' in_quotes' : bool) : Prop :=
  forall t part parts, dictionary_parts depth' in_bytes' in_quotes' t = part :: parts ->
    dictionary_parts depth in_bytes in_quotes (s +:+ t) = (s +:+ part) :: parts.
Lemma through_nil d b q : through d b q EmptyString d b q.
Proof. intros t part parts E. exact E. Qed.
Lemma through_app d b q s d' b' q' s' d'' b'' q'' :
  through d b q s d' b' q' -> through d' b' q' s' d'' b'' q'' -> through d b q (s +:+ s') d'' b'' q''.
Proof.
  intros H1 H2 t part parts E. rewrite !string_app_assoc. by apply H1, H2.
Qed.
Lemma through_char d b q c d' b' q' s d'' b'' q'' :
  (forall rest, dictionary_parts d b q (String c rest) =
     match dictionary_parts d' b' q' rest with
     | part :: parts => String c part :: parts
     | [] => [String c EmptyString]
     end) ->
  through d' b' q' s d'' b'' q'' -> through d b q (String c s) d'' b'' q''.
Proof.
  intros Hc Hs t part parts E. change (String c s +:+ t) with (String c (s +:+ t)).
  by rewrite Hc, (Hs _ _ _ E).
Qed.
Definition structural (c : ascii) : bool :=
  existsb (char_eq c) [double_quote; "("; ")"; ":"; ","]%char.
Lemma through_plain d b q s : all_chars (λ c, negb (structural c)) s = true -> through d b q s d b q.
Proof.
  induction s as [|c s IH]; [intros _; apply through_nil|]. cbn [all_chars]. intros [Hc Hs]%andb_true_iff.
  apply negb_true_iff in Hc. unfold structural in Hc. cbn [existsb] in Hc.
  rewrite !orb_false_iff in Hc. destruct Hc as (E1 & E2 & E3 & E4 & E5 & _).
  eapply through_char; [|by apply IH]. intros rest. cbn [dictionary_parts]. by rewrite E1, E2, E3, E4, E5.
Qed.
Lemma through_quoted d b s : lacks double_quote s -> through d b true s d b true.
Proof.
  unfold lacks. induction s as [|c s IH]; [intros _; apply through_nil|]. cbn [all_chars].
  intros [Hc Hs]%andb_true_iff. apply negb_true_iff in Hc.
  eapply through_char; [|by apply IH]. intros rest. cbn [dictionary_parts].
  rewrite !andb_false_r. cbn [andb].
  destruct (char_eq c double_quote) eqn:E; [apply char_eq_spec in E as ->; by rewrite char_eq_refl in Hc|].
  done.
Qed.
Lemma through_quotes d b s : lacks double_quote s -> through d b false (quoted s) d b false.
Proof.
  intros Hs. unfold quoted. eapply through_app; [|eapply through_app; [by apply through_quoted|]].
  - eapply through_char; [done|]. apply through_nil.
  - eapply through_char; [done|]. apply through_nil.
Qed.
Lemma through_all s d' b' : through 0 false false s d' b' false -> trim s = s -> s <> EmptyString ->
  split_dictionary s = [s].
Proof.
  intros H Ht Hne. unfold split_dictionary.
  pose proof (H EmptyString EmptyString [] eq_refl) as E. rewrite !string_app_nil in E. rewrite E.
  cbn. rewrite Ht. by destruct s.
Qed.

(** [split_whitespace] of visible words. *)
Lemma visible_no_space c s : printable c = true ->
  list_find (λ w, is_Some (strip_prefix w (String c s))) white_space = None.
Proof.
  intros Hc. apply list_find_None.
  assert (Hw : Forall (λ w, match w with String c _ => printable c = false | EmptyString => False end) white_space)
    by (vm_compute; by repeat constructor).
  eapply Forall_impl; [exact Hw|]. intros [|d w] Hd [rest E]; [done|].
  apply strip_prefix_spec in E. change (String d w +:+ rest) with (String d (w +:+ rest)) in E.
  injection E as -> _. congruence.
Qed.
#[local] Opaque white_space.
Lemma whitespace_parts_cons fuel t : exists part parts, whitespace_parts fuel t = part :: parts.
Proof.
  destruct fuel as [|fuel]; [by exists EmptyString, []|]. destruct t as [|c t]; [by exists EmptyString, []|].
  cbn [whitespace_parts]. destruct (list_find _ white_space) as [[i w]|]; [eauto|].
  destruct (whitespace_parts fuel t); eauto.
Qed.
Lemma words_visible fuel s t : visible s -> (String.length s <= fuel)%nat ->
  whitespace_parts fuel (s +:+ t) =
  match whitespace_parts (fuel - String.length s) t with
  | part :: parts => (s +:+ part) :: parts
  | [] => [s]
  end.
Proof.
  unfold visible. revert fuel. induction s as [|c s IH]; intros fuel Hs Hf.
  - rewrite Nat.sub_0_r. change (EmptyString +:+ t) with t.
    by destruct (whitespace_parts_cons fuel t) as (part & parts & ->).
  - cbn in Hs. apply andb_true_iff in Hs as [Hc Hs]. cbn in Hf. destruct fuel as [|fuel]; [lia|].
    change (String c s +:+ t) with (String c (s +:+ t)). cbn [whitespace_parts].
    rewrite visible_no_space by done. rewrite IH by (done || lia). cbn [String.length Nat.sub].
    by destruct (whitespace_parts _ t).
Qed.
Lemma words_space fuel t : whitespace_parts (S fuel) (String " " t) = EmptyString :: whitespace_parts fuel t.
Proof.
  cbn [whitespace_parts].
  assert (E : list_find (λ w, is_Some (strip_prefix w (String " " t))) white_space = Some (5%nat, " "%string))
    by reflexivity.
  by rewrite E.
Qed.
Lemma split_whitespace_join l : Forall (λ s, visible s /\ s <> EmptyString) l ->
  split_whitespace (join " " l) = l.
Proof.
  intros Hl. unfold split_whitespace.
  assert (H : forall fuel, (String.length (join " " l) < fuel)%nat ->
    List.filter not_empty (whitespace_parts fuel (join " " l)) = l); [|by apply H; lia].
  induction Hl as [|s l [Hs Hne] Hl IH]; intros fuel Hf; [by destruct fuel|].
  destruct l as [|s' l].
  - cbn [join] in *. rewrite <- (string_app_nil s) at 1. rewrite words_visible by (done || lia).
    assert (E : whitespace_parts (fuel - String.length s) EmptyString = [EmptyString])
      by (by destruct (fuel - String.length s)%nat).
    rewrite E, string_app_nil. cbn. by destruct s.
  - change (join " " (s :: s' :: l)) with (s +:+ String " " (join " " (s' :: l))) in *.
    rewrite length_app_string in Hf. cbn [String.length] in Hf.
    rewrite words_visible by (done || lia).
    destruct (fuel - String.length s)%nat as [|fuel'] eqn:Ef; [lia|].
    rewrite words_space, string_app_nil. cbn [List.filter].
    rewrite IH by lia. by destruct s.
Qed.

(** Headers that are set leave the other components alone. *)
Lemma filter_set_header (f : string * string -> bool) request name v :
  f (name, v) = false -> (forall h, eq_ignore_ascii_case h.1 name = true -> f h = false) ->
  List.filter f (headers (set_header request name v)) = List.filter f (headers request).
Proof.
  intros Hn Hf. unfold set_header. cbn [headers]. rewrite List.filter_app. cbn [List.filter].
  rewrite Hn, app_nil_r. induction (headers request) as [|h l IH]; [done|]. cbn [List.filter].
  destruct (eq_ignore_ascii_case h.1 name) eqn:E; cbn [negb List.filter]; [by rewrite (Hf h E)|].
  by rewrite IH.
Qed.
Lemma find_set_header (f : string * string -> bool) request name v :
  f (name, v) = false -> (forall h, eq_ignore_ascii_case h.1 name = true -> f h = false) ->
  snd <$> list_find (λ h, f h = true) (headers (set_header request name v)) =
  snd <$> list_find (λ h, f h = true) (headers request).
Proof.
  intros Hn Hf.
  assert (H : forall l, snd <$> list_find (λ h, f h = true) l = head (List.filter f l)).
  { intros l. induction l as [|h l IH]; [done|]. cbn [list_find List.filter].
    destruct (decide (f h = true)) as [E|E]; [by rewrite E|].
    apply not_true_is_false in E. rewrite E, <- IH. by destruct (list_find _ l) as [[]|]. }
  by rewrite !H, filter_set_header.
Qed.
Lemma eq_ignore_trans a b c : eq_ignore_ascii_case a b = true ->
  to_ascii_lowercase b <> to_ascii_lowercase c -> eq_ignore_ascii_case a c = false.
Proof.
  unfold eq_ignore_ascii_case. intros E%bool_decide_eq_true Hn. apply bool_decide_eq_false. congruence.
Qed.
Lemma component_set_header request name v c :
  to_ascii_lowercase name <> to_ascii_lowercase c -> to_ascii_lowercase name <> "host"%string ->
  component_value (set_header request name v) c = component_value request c.
Proof.
  intros Hc Hh. unfold component_value.
  assert (Ho : forall n, to_ascii_lowercase name <> to_ascii_lowercase n ->
    eq_ignore_ascii_case name n = false /\
    forall h : string * string, eq_ignore_ascii_case h.1 name = true -> eq_ignore_ascii_case h.1 n = false).
  { intros n Hn. split; [by apply bool_decide_eq_false|]. intros h E. by apply (eq_ignore_trans _ name). }
  destruct (strip_prefix "@" c) as [derived|].
  - unfold derived_component. cbn [url method set_header].
    assert (Ha : request_authority (set_header request name v) = request_authority request); [|by rewrite Ha].
    destruct (Ho "host"%string Hh) as [H1 H2]. unfold request_authority.
    pose proof (find_set_header (λ h, eq_ignore_ascii_case h.1 "host") request name v H1 H2) as Hf.
    destruct (list_find _ (headers (set_header _ _ _))) as [[i [n w]]|],
      (list_find _ (headers request)) as [[j [n' w']]|]; cbn in Hf; simplify_eq; done.
  - destruct (Ho c Hc) as [H1 H2].
    by rewrite (filter_set_header (λ h, eq_ignore_ascii_case h.1 c)).
Qed.
Lemma base_set_header request name v p :
  Forall (λ c, to_ascii_lowercase name <> to_ascii_lowercase (to_ascii_lowercase c)) (components p) ->
  to_ascii_lowercase name <> "host"%string ->
  signature_base (set_header request name v) p = signature_base request p.
Proof.
  intros Hc Hh. unfold signature_base, base_lines. f_equal.
  induction Hc as [|c l Hc _ IH]; [done|]. cbn [mapM]. cbv zeta.
  rewrite component_set_header by done. by rewrite IH.
Qed.
Lemma request_header_set request name v :
  request_header (set_header request name v) name = Some v.
Proof.
  unfold request_header, set_header. cbn [headers].
  induction (headers request) as [|h l IH]; cbn [List.filter app].
  - cbn [list_find]. rewrite decide_True by (by apply bool_decide_eq_true). done.
  - destruct (eq_ignore_ascii_case h.1 name) eqn:E; cbn [negb]; [done|]. cbn [app list_find].
    rewrite decide_False by congruence. by destruct (list_find _ _) as [[? []]|].
Qed.
Lemma request_header_other request name v other :
  to_ascii_lowercase name <> to_ascii_lowercase other ->
  request_header (set_header request name v) other = request_header request other.
Proof.
  intros Hn. unfold request_header.
  pose proof (find_set_header (λ h, eq_ignore_ascii_case h.1 other) request name v) as Hf.
  assert (Hg := Hf ltac:(by apply bool_decide_eq_false) (λ h E, eq_ignore_trans _ name _ E Hn)).
  destruct (list_find _ (headers (set_header _ _ _))) as [[i [n w]]|],
    (list_find _ (headers request)) as [[j [n' w']]|]; cbn in Hg; simplify_eq; done.
Qed.

(** The headers of a signature read back. *)
Record plain_component (c : string) : Prop := {
  component_not_empty : c <> EmptyString;
  component_visible : visible c;
  component_unquoted : lacks double_quote c;
  component_no_paren : lacks ")" c;
}.
Definition after_list (at_ : Z) (id label : string) : string :=
  ";created=" +:+ pretty at_ +:+ ";keyid=" +:+ quoted id +:+ ";alg=" +:+ quoted label.
Definition input_value (l : list string) (at_ : Z) (id label : string) : string :=
  String "(" (join " " (quoted <$> l) +:+ String ")" (after_list at_ id label)).
Lemma to_value_input l at_ id label :
  to_value (mkParams l (Some at_) None (Some id) (Some label) None None) = input_value l at_ id label.
Proof.
  unfold to_value, input_value, after_list, parameter.
  cbn [components created expires key_id param_alg nonce param_tag fmap option_fmap option_map].
  rewrite !string_app_nil. reflexivity.
Qed.
Lemma reversed_app s t : reversed (s +:+ t) = reversed t +:+ reversed s.
Proof.
  assert (Hl : forall a b, list_ascii_of_string (a +:+ b) = list_ascii_of_string a ++ list_ascii_of_string b).
  { intros a b. induction a as [|c a IH]; [done|]. change (String c a +:+ b) with (String c (a +:+ b)).
    cbn. by rewrite IH. }
  assert (Hs : forall l k, string_of_list_ascii (l ++ k) = string_of_list_ascii l +:+ string_of_list_ascii k).
  { intros l k. induction l as [|c l IH]; [done|]. cbn [app string_of_list_ascii]. by rewrite IH. }
  unfold reversed. by rewrite Hl, reverse_app, Hs.
Qed.
Lemma trim_ends c s d : printable c = true -> printable d = true ->
  trim (String c (s +:+ String d EmptyString)) = String c (s +:+ String d EmptyString).
Proof.
  intros Hc Hd. apply trim_printable; [done|].
  change (String c (s +:+ String d EmptyString)) with (String c s +:+ String d EmptyString).
  by rewrite reversed_app.
Qed.
Lemma quoted_shape s : quoted s = String double_quote (s +:+ String double_quote EmptyString).
Proof. done. Qed.
Lemma trim_quoted s : trim (quoted s) = quoted s.
Proof. rewrite quoted_shape. by apply trim_ends. Qed.
Lemma trim_start_lacking c s : lacks c s -> trim_start_matches c s = s.
Proof.
  unfold lacks. destruct s as [|d s]; [done|]. cbn. intros [Hd _]%andb_true_iff.
  apply negb_true_iff in Hd. by rewrite Hd.
Qed.
Lemma unquoted s : lacks double_quote s -> trim_matches double_quote (quoted s) = s.
Proof.
  intros Hs. unfold trim_matches. rewrite quoted_shape. cbn [trim_start_matches].
  rewrite char_eq_refl. assert (Hr : lacks double_quote (reversed s)) by (unfold lacks; by rewrite reversed_chars).
  destruct s as [|c s]; [done|].
  change (String c s +:+ String double_quote EmptyString) with
    (String c (s +:+ String double_quote EmptyString)). cbn [trim_start_matches].
  assert (Hc : char_eq double_quote c = false).
  { unfold lacks in Hs. cbn [all_chars] in Hs. apply andb_true_iff in Hs as [Hc _]. by apply negb_true_iff. }
  rewrite Hc. change (String c (s +:+ String double_quote EmptyString)) with
    (String c s +:+ String double_quote EmptyString).
  rewrite reversed_app. change (reversed (String double_quote EmptyString) +:+ reversed (String c s))
    with (String double_quote (reversed (String c s))).
  cbn [trim_start_matches]. rewrite char_eq_refl, trim_start_lacking by done. apply reversed_twice.
Qed.

(** The list of components, and what the dictionary loop and the parser make of it. *)
Section Input.
Context (l : list string) (Hl : Forall plain_component l).
Lemma quoted_lacks_paren : lacks ")" (join " " (quoted <$> l)).
Proof using Hl.
  pose proof Hl as H. clear Hl. induction H as [|c l' [_ _ _ Hc] _ IH]; [done|]. cbn [fmap list_fmap].
  assert (Hq : lacks ")" (quoted c)) by (rewrite quoted_shape; unfold lacks in *; cbn [all_chars];
    rewrite all_chars_app, Hc; done).
  destruct l' as [|c' l']; [done|].
  change (join " " (quoted c :: (quoted <$> (c' :: l')))) with (quoted c +:+ String " " (join " " (quoted <$> (c' :: l')))).
  apply lacks_app; [done|]. unfold lacks in *. cbn [all_chars]. by rewrite IH.
Qed.
Lemma through_list : through 1 false false (join " " (quoted <$> l)) 1 false false.
Proof using Hl.
  pose proof Hl as H. clear Hl. induction H as [|c l' [_ _ Hc _] _ IH]; [apply through_nil|]. cbn [fmap list_fmap].
  destruct l' as [|c' l']; [by apply through_quotes|].
  change (join " " (quoted c :: (quoted <$> (c' :: l')))) with (quoted c +:+ String " " (join " " (quoted <$> (c' :: l')))).
  eapply through_app; [by apply through_quotes|]. eapply through_char; [done|exact IH].
Qed.
Lemma split_quoted : split_whitespace (join " " (quoted <$> l)) = quoted <$> l.
Proof using Hl.
  apply split_whitespace_join. apply Forall_fmap. eapply Forall_impl; [exact Hl|].
  intros c [_ Hv _ _]. cbn. rewrite quoted_shape. split; [|done]. unfold visible in *.
  cbn [all_chars]. rewrite all_chars_app, Hv. done.
Qed.
End Input.
Lemma digits_plain p (z : Z) : p "-"%char = true ->
  (forall c, is_ascii_digit c = true -> p c = true) -> all_chars p (pretty z) = true.
Proof. intros Hm Hd. apply pretty_chars; [done|]. intros d Hlt. by apply Hd, digit_char. Qed.
Lemma digit_not c d : is_ascii_digit c = true -> is_ascii_digit d = false -> char_eq d c = false.
Proof. intros Hc Hd. apply char_eq_ne. congruence. Qed.
Lemma through_after at_ id label : lacks double_quote id -> lacks double_quote label ->
  through 0 false false (after_list at_ id label) 0 false false.
Proof.
  intros Hi Hb. unfold after_list.
  eapply through_app; [by apply through_plain|]. eapply through_app.
  { apply through_plain, digits_plain; [done|]. intros c Hc. unfold structural. cbn [existsb].
    rewrite !(char_eq_ne c) by (intros ->; discriminate Hc). done. }
  eapply through_app; [by apply through_plain|]. eapply through_app; [by apply through_quotes|].
  eapply through_app; [by apply through_plain|]. by apply through_quotes.
Qed.

Lemma read_after p at_ id a :
  lacks double_quote id -> lacks ";" id -> - 2 ^ 63 <= at_ <= I64_MAX ->
  foldl read_parameter p (split ";" (after_list at_ id (alg_label a))) =
  mkParams (components p) (Some at_) (expires p) (Some id) (Some (alg_label a)) (nonce p) (param_tag p).
Proof.
  intros Hq Hs Hat. unfold after_list.
  assert (Hz : lacks ";" ("created=" +:+ pretty at_)).
  { apply lacks_app; [done|]. apply digits_plain; [done|]. intros c Hc. apply negb_true_iff.
    by apply digit_not. }
  assert (Hi : lacks ";" ("keyid=" +:+ quoted id)).
  { apply lacks_app; [done|]. rewrite quoted_shape. unfold lacks in *. cbn [all_chars].
    by rewrite all_chars_app, Hs. }
  assert (E : split ";" (";created=" +:+ pretty at_ +:+ ";keyid=" +:+ quoted id +:+ ";alg=" +:+ quoted (alg_label a))
    = [EmptyString; "created=" +:+ pretty at_; "keyid=" +:+ quoted id; "alg=" +:+ quoted (alg_label a)]).
  { change (";created=" +:+ pretty at_ +:+ ";keyid=" +:+ quoted id +:+ ";alg=" +:+ quoted (alg_label a))
      with (String ";" (("created=" +:+ (pretty at_ +:+ String ";" ("keyid=" +:+ (quoted id +:+ String ";" ("alg=" +:+ quoted (alg_label a)))))))).
    rewrite <- (string_app_assoc "created="), <- (string_app_assoc "keyid=").
    cbn [split]. rewrite split_lacking, split_lacking by done. by destruct a. }
  rewrite E. cbn [foldl].
  assert (E1 : forall p v, read_parameter p ("created=" +:+ v) = mkParams (components p) (parse_i64 (trim v))
    (expires p) (key_id p) (param_alg p) (nonce p) (param_tag p)).
  { intros p' v. unfold read_parameter. change ("created=" +:+ v) with ("created" +:+ String "=" v).
    rewrite split_once_lacking by done. generalize (trim v). intros t. reflexivity. }
  assert (E2 : forall p v, read_parameter p ("keyid=" +:+ v) = mkParams (components p) (created p)
    (expires p) (Some (trim_matches double_quote (trim v))) (param_alg p) (nonce p) (param_tag p)).
  { intros p' v. unfold read_parameter. change ("keyid=" +:+ v) with ("keyid" +:+ String "=" v).
    rewrite split_once_lacking by done. generalize (trim v). intros t. reflexivity. }
  rewrite E1, E2, trim_quoted, unquoted by done.
  rewrite (trim_visible (pretty at_)), parse_pretty; [|done|].
  - destruct a; reflexivity.
  - apply digits_plain; [done|]. intros c Hc. unfold is_ascii_digit, in_range in Hc.
    apply andb_true_iff in Hc as [H1 H2]. apply N.leb_le in H1, H2. cbn in H1, H2.
    unfold printable, code. apply andb_true_iff. rewrite !Z.leb_le. lia.
Qed.
(** The [Signature-Input] header a client writes, read back. *)
Lemma read_back_input l at_ id a :
  Forall plain_component l -> (to_ascii_lowercase <$> l) = l ->
  lacks double_quote id -> lacks ";" id -> - 2 ^ 63 <= at_ <= I64_MAX ->
  parse_signature_input (DEFAULT_LABEL +:+ "=" +:+ input_value l at_ id (alg_label a)) =
  [(DEFAULT_LABEL, mkParams l (Some at_) None (Some id) (Some (alg_label a)) None None)].
Proof.
  intros Hl Hlow Hq Hs Hat. unfold parse_signature_input.
  assert (Hb : lacks double_quote (alg_label a)) by by destruct a.
  assert (Hend : forall s, starts_printable (reversed (s +:+ input_value l at_ id (alg_label a)))).
  { intros s. assert (E : s +:+ input_value l at_ id (alg_label a) =
      (s +:+ "(" +:+ join " " (quoted <$> l) +:+ ")" +:+ ";created=" +:+ pretty at_ +:+ ";keyid=" +:+
       quoted id +:+ ";alg=") +:+ quoted (alg_label a)) by (rewrite !string_app_assoc; reflexivity).
    rewrite E, reversed_app. by destruct a. }
  change (DEFAULT_LABEL +:+ "=" +:+ input_value l at_ id (alg_label a))
    with ("sig1=" +:+ input_value l at_ id (alg_label a)).
  rewrite (through_all _ 0 false); [| |apply trim_printable; [done|apply Hend]|done].
  - cbn [omap list_omap]. unfold read_input.
    change ("sig1=" +:+ input_value l at_ id (alg_label a))
      with ("sig1" +:+ String "=" (input_value l at_ id (alg_label a))).
    rewrite split_once_lacking by done. cbn [mbind option_bind].
    rewrite (trim_printable (input_value _ _ _ _)); [|done|exact (Hend EmptyString)].
    unfold input_value.
    change (String "(" (join " " (quoted <$> l) +:+ String ")" (after_list at_ id (alg_label a))))
      with (String "(" (join " " (quoted <$> l)) +:+ String ")" (after_list at_ id (alg_label a))).
    rewrite break_lacking by (unfold lacks; cbn [all_chars]; exact (quoted_lacks_paren l Hl)).
    change (strip_prefix "(" (String "(" (join " " (quoted <$> l)))) with (Some (join " " (quoted <$> l))).
    cbn [mbind option_bind]. rewrite split_quoted by done.
    assert (Hnames : List.filter not_empty
      ((λ c, to_ascii_lowercase (trim_matches double_quote c)) <$> (quoted <$> l)) = l).
    { rewrite <- Hlow at 2. clear - Hl. induction Hl as [|c l' [Hne _ Hc _] _ IH]; [done|].
      cbn [fmap list_fmap List.filter]. rewrite unquoted by done.
      assert (Hn : not_empty (to_ascii_lowercase c) = true) by by destruct c.
      rewrite Hn. f_equal. exact IH. }
    rewrite Hnames, read_after by done. reflexivity.
  - eapply through_app; [by apply through_plain|]. unfold input_value.
    eapply through_char; [done|]. eapply through_app; [by apply through_list|].
    eapply through_char; [done|]. by apply through_after.
Qed.

(** What the libraries promise: a tag is accepted exactly if it is the HMAC, base64 decodes what
    it encodes and writes its own alphabet, and lower case is ASCII's on ASCII. *)
Definition bytes (l : list Z) : Prop := Forall (λ b, 0 <= b < 256) l.
Definition base64_char (c : ascii) : bool :=
  is_ascii_alphanumeric c || existsb (char_eq c) ["+"; "/"; "="]%char.
Class LawfulCrypto `{Crypto} : Prop := {
  hmac_accepts a k d tag : hmac_verify a k d tag = true <-> tag = hmac a k d;
  hmac_bytes a k d : bytes (hmac a k d);
  base64_decodes b : bytes b -> base64_decode (base64_encode b) = Some b;
  base64_text b : all_chars base64_char (base64_encode b) = true;
  lowercase_ascii s : visible s -> to_lowercase s = to_ascii_lowercase s;
}.

Section RoundTrip.
Context `{LawfulCrypto}.

Lemma base64_plain p s : (forall c, is_ascii_alphanumeric c = true -> p c = true) ->
  p "+"%char = true -> p "/"%char = true -> p "="%char = true ->
  all_chars base64_char s = true -> all_chars p s = true.
Proof using.
  intros Ha H1 H2 H3. apply all_chars_impl. intros c. unfold base64_char. cbn [existsb].
  rewrite !orb_true_iff. intros [?|[E|[E|[E|?]]]]; [by apply Ha|..|done]; by apply char_eq_spec in E as ->.
Qed.
Lemma alphanumeric_code c : is_ascii_alphanumeric c = true ->
  (48 <= N_of_ascii c <= 57 \/ 65 <= N_of_ascii c <= 90 \/ 97 <= N_of_ascii c <= 122)%N.
Proof using.
  unfold is_ascii_alphanumeric, is_ascii_alphabetic, is_ascii_lowercase, is_ascii_uppercase,
    is_ascii_digit, in_range. rewrite !orb_true_iff, !andb_true_iff, !N.leb_le. cbn. lia.
Qed.
Lemma read_back_tag tag : bytes tag ->
  parse_signature (DEFAULT_LABEL +:+ "=:" +:+ base64_encode tag +:+ ":") = [(DEFAULT_LABEL, tag)].
Proof using All.
  intros Hb. pose proof (base64_text tag) as Ht. unfold parse_signature. set (s := base64_encode tag) in *.
  change (DEFAULT_LABEL +:+ "=:" +:+ s +:+ ":") with (String "s" ("ig1=:" +:+ s +:+ ":")).
  assert (Htrim : trim (String "s" ("ig1=:" +:+ s +:+ ":")) = String "s" ("ig1=:" +:+ s +:+ ":")).
  { rewrite <- (string_app_assoc "ig1=:" s ":"). by apply trim_ends. }
  rewrite (through_all _ 0 false); [| |done|done].
  - cbn [omap list_omap]. unfold read_tag.
    change (String "s" ("ig1=:" +:+ s +:+ ":")) with ("sig1" +:+ String "=" (String ":" (s +:+ ":"))).
    rewrite split_once_lacking by done. cbn [mbind option_bind].
    rewrite trim_ends by done. change (strip_prefix ":" (String ":" (s +:+ ":"))) with (Some (s +:+ ":")).
    cbn [mbind option_bind]. unfold strip_suffix_char. rewrite reversed_app.
    change (strip_prefix (String ":" EmptyString) (reversed ":" +:+ reversed s)) with (Some (reversed s)).
    cbn [fmap option_fmap option_map mbind option_bind]. rewrite reversed_twice. unfold s.
    by rewrite base64_decodes.
  - change (String "s" ("ig1=:" +:+ s +:+ ":")) with ("sig1=" +:+ String ":" (s +:+ String ":" EmptyString)).
    eapply through_app; [by apply through_plain|]. eapply through_char; [done|].
    eapply through_app; [apply through_plain|eapply through_char; [done|apply through_nil]].
    apply (base64_plain _ s); try done. intros c Hc%alphanumeric_code.
    unfold structural. cbn [existsb].
    rewrite !(char_eq_ne c) by (intros ->; cbn in Hc; lia). done.
Qed.

(** A key whose headers read back: unquoted component names without a closing parenthesis, an
    identifier without quotes and semicolons, and no component that signing itself writes. *)
Record readable_key (key : SigningKey) : Prop := {
  readable_components : Forall plain_component (key_components key);
  unsigned_headers : Forall (λ c, to_ascii_lowercase c <> "signature"%string /\
    to_ascii_lowercase c <> "signature-input"%string) (key_components key);
  readable_id : lacks double_quote (signing_id key) /\ lacks ";" (signing_id key);
}.
Lemma lower_lower s : to_ascii_lowercase (to_ascii_lowercase s) = to_ascii_lowercase s.
Proof using.
  induction s as [|c s IH]; [done|]. cbn. rewrite IH. f_equal. unfold lower_ascii at 1.
  destruct (is_ascii_uppercase (lower_ascii c)) eqn:E; [|done].
  destruct c as [[] [] [] [] [] [] [] []]; by vm_compute in E.
Qed.
Lemma lower_plain c : plain_component c -> plain_component (to_ascii_lowercase c).
Proof using.
  intros [Hn Hv Hq Hp]. split; [by destruct c| |by apply lower_lacks|by apply lower_lacks].
  unfold visible in *. clear - Hv. induction c as [|x c IH]; [done|]. cbn [all_chars to_ascii_lowercase] in *.
  apply andb_true_iff in Hv as [Hx Hv]. rewrite (IH Hv), andb_true_r.
  unfold lower_ascii. destruct (is_ascii_uppercase x) eqn:E; [|done].
  unfold is_ascii_uppercase, in_range in E. apply andb_true_iff in E as [E1 E2].
  apply N.leb_le in E1, E2. cbn in E1, E2. unfold printable, code. rewrite N_ascii_embedding by lia.
  apply andb_true_iff. rewrite !Z.leb_le. lia.
Qed.

(** C13. A signed request verifies: under the secret it was signed with, for as long as it is fresh,
    whatever components the key covers, once the key is readable; and signing leaves the method,
    the URL and the body as they were. *)
Theorem signed_requests_verify request key at_ now max_age signed :
  readable_key key -> - 2 ^ 63 <= at_ <= I64_MAX ->
  from_option (λ window, Z.abs (now - at_) <= window <= I64_MAX) True max_age ->
  sign_request request key at_ = Some signed ->
  verify_request signed (secret key) now max_age = None /\
  method signed = method request /\ url signed = url request /\ body signed = body request.
Proof using All.
  intros [Hc Hu [Hq Hs]] Hat Hw Hsign. unfold sign_request in Hsign. cbv zeta in Hsign.
  set (r := with_digest request key) in *. set (p := signing_params key at_) in *.
  destruct (signature_base r p) as [base|] eqn:Eb; [|done]. cbn [mbind option_bind] in Hsign.
  set (tag := hmac (alg key) (secret key) base) in *.
  set (r1 := set_header r "signature-input" _) in Hsign. injection Hsign as <-.
  assert (Hparts : method r = method request /\ url r = url request /\ body r = body request)
    by (unfold r, with_digest; by destruct (covers_content_digest key)).
  split; [|exact Hparts].
  set (l := to_ascii_lowercase <$> key_components key).
  assert (Hp : p = mkParams l (Some at_) None (Some (signing_id key)) (Some (alg_label (alg key))) None None).
  { unfold p, signing_params, l. f_equal. apply list_fmap_ext. intros i c Hi.
    apply list_elem_of_lookup_2 in Hi. rewrite Forall_forall in Hc.
    apply lowercase_ascii. by destruct (Hc c Hi). }
  assert (Hl : Forall plain_component l).
  { unfold l. apply Forall_fmap. eapply Forall_impl; [exact Hc|]. apply lower_plain. }
  assert (Hlow : to_ascii_lowercase <$> l = l).
  { unfold l. rewrite <- list_fmap_compose. apply list_fmap_ext. intros. apply lower_lower. }
  assert (Hbase : forall name v, name = "signature"%string \/ name = "signature-input"%string ->
    forall r', signature_base (set_header r' name v) p = signature_base r' p).
  { intros name v Hn r'. apply base_set_header; [|by destruct Hn as [->| ->]].
    rewrite Hp. cbn [components]. unfold l. apply Forall_fmap. eapply Forall_impl; [exact Hu|].
    intros c [H1 H2]. cbn [compose]. rewrite !lower_lower.
    destruct Hn as [->| ->]; intros E; [apply H1|apply H2]; symmetry; exact E. }
  unfold verify_request. rewrite request_header_other by done. unfold r1 at 1.
  rewrite !request_header_set. cbv zeta.
  assert (Hin : parse_signature_input (DEFAULT_LABEL +:+ "=" +:+ to_value p) = [(DEFAULT_LABEL, p)])
    by (rewrite Hp, to_value_input; by apply read_back_input).
  rewrite Hin, read_back_tag by apply hmac_bytes. cbn [is_empty orb verify_loop].
  change (list_find (λ s : string * list Z, s.1 = DEFAULT_LABEL) [(DEFAULT_LABEL, tag)])
    with (Some (0%nat, (DEFAULT_LABEL, tag))). cbv beta iota. unfold verify_one, freshness.
  assert (Ha : parse_alg (alg_label (alg key)) = Some (alg key)) by by destruct (alg key).
  assert (Hf : param_alg p = Some (alg_label (alg key)) /\ expires p = None /\ created p = Some at_)
    by by rewrite Hp.
  destruct Hf as (-> & -> & ->). rewrite Ha, Hbase by auto. unfold r1. rewrite Hbase by auto.
  rewrite Eb.
  assert (Hv : hmac_verify (alg key) (secret key) base tag = true) by by apply hmac_accepts.
  rewrite Hv. destruct max_age as [window|]; [|done]. cbn in Hw.
  assert (Hwrap : forall z, - 2 ^ 63 <= z <= I64_MAX -> as_i64 z = z).
  { intros z Hz. unfold as_i64, I64_MAX in *. rewrite Z.mod_small; lia. }
  unfold I64_MAX in *. rewrite (Hwrap (now - at_)) by lia. rewrite Hwrap by lia.
  case Z.ltb_spec; [lia|done].
Qed.
End RoundTrip.

Module SignatureExample.
(** A stand-in for the libraries: an HMAC that writes its key and its text out, and base64 as two
    letters a byte. *)
Definition letter (n : Z) : ascii := ascii_of_N (65 + Z.to_N n).
Fixpoint encode (b : list Z) : string :=
  match b with
  | [] => EmptyString
  | x :: b => String (letter (x / 16 mod 16)) (String (letter (x mod 16)) (encode b))
  end.
Fixpoint decode (s : string) : option (list Z) :=
  match s with
  | EmptyString => Some []
  | String h (String l s) => cons ((code h - 65) * 16 + (code l - 65)) <$> decode s
  | String _ EmptyString => None
  end.
Definition sum (l : list Z) : list Z := (λ x, x mod 256) <$> l.
#[export] Instance toy : Crypto := {
  hmac a k d := sum (Z.of_nat (String.length (alg_label a)) :: k ++ (code <$> list_ascii_of_string d));
  hmac_verify a k d tag :=
    bool_decide (tag = sum (Z.of_nat (String.length (alg_label a)) :: k ++ (code <$> list_ascii_of_string d)));
  sha256 := sum;
  base64_encode := encode;
  base64_decode := decode;
  to_lowercase := to_ascii_lowercase;
}.
#[export] Instance toy_lawful : LawfulCrypto.
Proof.
  split.
  - intros. apply bool_decide_eq_true.
  - intros. change (bytes (sum (Z.of_nat (String.length (alg_label a)) :: k ++ (code <$> list_ascii_of_string d)))).
    unfold bytes, sum. apply Forall_fmap, Forall_true. intros x. by apply Z.mod_pos_bound.
  - cbn [base64_decode base64_encode toy]. intros b Hb. induction Hb as [|x b Hx _ IH]; [done|].
    cbn [encode decode]. rewrite IH. cbn [fmap option_fmap option_map]. do 2 f_equal.
    unfold letter, code. rewrite !N_ascii_embedding by (Z.to_euclidean_division_equations; lia).
    Z.to_euclidean_division_equations; lia.
  - cbn [base64_encode toy]. intros b. induction b as [|x b IH]; [done|]. cbn [encode all_chars].
    assert (Hl : forall n, 0 <= n < 16 -> base64_char (letter n) = true).
    { intros n Hn. unfold base64_char, is_ascii_alphanumeric, is_ascii_alphabetic, is_ascii_uppercase, in_range, letter.
      rewrite N_ascii_embedding by lia.
      assert (E : ((N_of_ascii "A" <=? 65 + Z.to_N n) && (65 + Z.to_N n <=? N_of_ascii "Z"))%N = true)
        by (apply andb_true_iff; rewrite !N.leb_le; cbn; lia).
      by rewrite E, !orb_true_r. }
    rewrite !Hl, IH by (by apply Z.mod_pos_bound). done.
  - done.
Qed.

Definition request : NetRequest :=
  mkNetRequest "POST" "https://example.com/foo?param=Value&Pet=dog"
    [("Host", "example.com"); ("Date", "Tue, 20 Apr 2021 02:07:55 GMT");
     ("Content-Type", "application/json"); ("Content-Length", "18")]%string
    [123; 125] None None.
(** The signature base of RFC 9421, B.2.5. *)
Example rfc_9421_base :
  signature_base request (mkParams ["date"; "@authority"; "content-type"]%string (Some 1618884473) None
    (Some "test-shared-secret"%string) None None None) =
  Some (join newline
    [quoted "date" +:+ ": Tue, 20 Apr 2021 02:07:55 GMT";
     quoted "@authority" +:+ ": example.com";
     quoted "content-type" +:+ ": application/json";
     quoted "@signature-params" +:+ ": (" +:+ quoted "date" +:+ " " +:+ quoted "@authority" +:+ " " +:+
       quoted "content-type" +:+ ");created=1618884473;keyid=" +:+ quoted "test-shared-secret"]%string).
Proof. vm_compute. reflexivity. Qed.
Definition key : SigningKey :=
  with_components (new_key "svc" [1; 2; 3])
    ["@method"; "@path"; "@query"; "@authority"; "Date"; "Content-Digest"]%string.
Lemma key_readable : readable_key key.
Proof.
  split; [|by repeat constructor|done].
  repeat first [apply Forall_cons; split; [by split|]|apply Forall_nil; exact I].
Qed.
Definition signed : NetRequest := default request (sign_request request key 1700000000).
Lemma signed_requests_verify_witness :
  verify_request signed [1; 2; 3] 1700000030 (Some 60) = None /\
  method signed = method request /\ url signed = url request /\ body signed = body request.
Proof.
  apply (signed_requests_verify request key 1700000000); [exact key_readable|..].
  - split; vm_compute; discriminate.
  - split; vm_compute; discriminate.
  - vm_compute. reflexivity.
Defined.
Example tampering_and_staleness :
  (verify_request (mkNetRequest "DELETE" (url signed) (headers signed) (body signed) None None)
     [1; 2; 3] 1700000030 (Some 60),
   verify_request signed [1; 2] 1700000030 None, verify_request signed [1; 2; 3] 1700000100 (Some 60),
   verify_request request [1; 2; 3] 1700000030 None) =
  (Some Mismatch, Some Mismatch, Some Stale, Some Absent).
Proof. vm_compute. reflexivity. Qed.

Definition params : SignatureParams := signing_params key 1700000000.
Lemma equal_bases_cover_equal_requests_witness :
  Forall (λ c, component_value request c = component_value (with_digest request key) c /\
               is_Some (component_value request c)) ["@method"; "date"]%string.
Proof.
  pose (p := mkParams ["@method"; "Date"]%string (Some 5) None None None None None).
  assert (Hl : forall r, headers r = headers request \/ headers r = headers (with_digest request key) ->
    method r = method request -> in_lines r p).
  { intros r Hh Hm. split; [by repeat constructor|done|]. intros c v Hc E.
    cbn [p components] in Hc. rewrite !elem_of_cons in Hc.
    destruct Hc as [->|[->|Hc]]; [| |by apply not_elem_of_nil in Hc].
    - change (Some (to_ascii_uppercase (method r)) = Some v) in E. rewrite Hm in E.
      injection E as <-. vm_compute. reflexivity.
    - unfold component_value in E. change (to_ascii_lowercase "Date") with "date"%string in E.
      change (strip_prefix "@" "date") with (@None string) in E.
      destruct Hh as [Hh|Hh]; rewrite Hh in E; vm_compute in E; injection E as <-;
        vm_compute; reflexivity. }
  eapply (equal_bases_cover_equal_requests request p (with_digest request key) p).
  - apply Hl; auto.
  - apply Hl; auto.
  - vm_compute. reflexivity.
  - vm_compute. reflexivity.
Defined.

(** A key identifier with a semicolon is cut when its own header is read back. *)
Example semicolon_in_a_key_id :
  let signed := default request (sign_request request (new_key "team;svc" [1; 2; 3]) 1700000000) in
  verify_request signed [1; 2; 3] 1700000000 None = Some Mismatch.
Proof. vm_compute. reflexivity. Qed.
(** The parameters of a foreign signer in another order are put in this module's order, so the
    base that is checked is not the one that was signed. *)
Example parameters_are_reordered :
  snd <$> head (parse_signature_input
    ("sig1=(" +:+ quoted "@method" +:+ ");keyid=" +:+ quoted "k" +:+ ";created=5")) =
    Some (mkParams ["@method"%string] (Some 5) None (Some "k"%string) None None None) /\
  to_value (mkParams ["@method"%string] (Some 5) None (Some "k"%string) None None None) =
    "(" +:+ quoted "@method" +:+ ");created=5;keyid=" +:+ quoted "k".
Proof. split; vm_compute; reflexivity. Qed.
(** A [created] half the range of [i64] away: the difference wraps and passes for fresh. *)
Example hostile_created_is_fresh :
  freshness (mkParams [] (Some (1700000000 - 2 ^ 63)) None None None None None) 1700000000 (Some 60) = None.
Proof. vm_compute. reflexivity. Qed.
End SignatureExample.
