(* ===== verification/HttpClient.v ===== *)
(** The configured HTTP client ([crates/noeta-stdlib/src/http_client.rs]): requests, retries,
    cookies and signatures around the redirect chain.

    A jar is shared by the clients derived from one another, so a client holds the identity of its
    jar and the jars live in the world.  The host (network and clock) and the text of a signing
    error are arguments. *)
From Stdlib Require Import Strings.Ascii Strings.String.
From stdpp Require Import pretty.
From S2P Require Import Prelude Words Uri Redirect Cookies Signature.
From stdpp Require Import options.
Open Scope Z_scope.
Open Scope list_scope.

Record RetryPolicy := mkPolicy {
  max_retries : nat;
  base_ms : Z;
  on_status : list Z;
  non_idempotent : bool;
}.
#[export] Instance retry_policy_eq_dec : EqDecision RetryPolicy.
Proof. solve_decision. Defined.
#[export] Instance signature_alg_eq_dec : EqDecision SignatureAlg.
Proof. solve_decision. Defined.
#[export] Instance signing_key_eq_dec : EqDecision SigningKey.
Proof. solve_decision. Defined.

Definition DEFAULT_RETRY_STATUSES : list Z := [429; 502; 503; 504].
Definition DEFAULT_BACKOFF_MS : Z := 250.
Definition MAX_BACKOFF_MS : Z := 30000.
(** [RetryPolicy::new], [should_retry_method], [backoff_ms]. *)
Definition new_policy (max_retries : nat) : RetryPolicy :=
  mkPolicy max_retries DEFAULT_BACKOFF_MS DEFAULT_RETRY_STATUSES false.
Definition should_retry_method (p : RetryPolicy) (method : string) : bool :=
  non_idempotent p
  || existsb (λ m, bool_decide (to_ascii_uppercase method = m))
       ["GET"; "HEAD"; "PUT"; "DELETE"; "OPTIONS"; "TRACE"; "QUERY"]%string.
Definition backoff_ms (p : RetryPolicy) (retry : nat) : Z :=
  saturating_u64 (base_ms p * 2 ^ Z.of_nat (retry `min` 20)) `min` MAX_BACKOFF_MS.
(** [str::parse::<u64>], [parse_retry_after_seconds], [delay_for]. *)
Definition parse_u64 (s : string) : option Z :=
  let digits := match s with String "+" rest => rest | _ => s end in
  match digits with
  | EmptyString => None
  | _ => n ← digits_value 0 digits; if Z.of_N n <=? U64_MAX then Some (Z.of_N n) else None
  end.
Definition parse_retry_after_seconds (v : string) : option Z := parse_u64 (trim v).
Definition delay_for (p : RetryPolicy) (retry : nat) (response : option NetResponse) : Z :=
  match (r ← response; v ← header_value r "retry-after"; parse_retry_after_seconds v) with
  | Some secs => saturating_u64 (secs * 1000) `min` MAX_BACKOFF_MS
  | None => backoff_ms p retry
  end.

(** ** The client *)

Record HttpClient := mkClient {
  base_url : string;
  client_headers : list (string * string);
  client_timeout_ms : option Z;
  retry : option RetryPolicy;
  client_redirect_limit : option nat;
  jar : option nat;
  signing : option SigningKey;
}.
Abbreviation Jars := (gmap nat CookieJar).
(** The [PartialEq] of clients: jars by identity. *)
Definition client_eqb (a b : HttpClient) : bool :=
  bool_decide (base_url a = base_url b) && bool_decide (client_headers a = client_headers b)
  && bool_decide (client_timeout_ms a = client_timeout_ms b) && bool_decide (retry a = retry b)
  && bool_decide (client_redirect_limit a = client_redirect_limit b)
  && bool_decide (signing a = signing b)
  && match jar a, jar b with
     | None, None => true
     | Some mine, Some theirs => (mine =? theirs)%nat
     | _, _ => false
     end.

Definition trim_end_matches (c : ascii) (s : string) : string :=
  reversed (trim_start_matches c (reversed s)).
(** [HttpClient::new] and the configuration methods. *)
Definition new_client (base : string) : HttpClient :=
  mkClient (trim_end_matches "/" base) [] None None None None None.
Definition put_header (headers : list (string * string)) (name v : string) : list (string * string) :=
  List.filter (λ h, negb (eq_ignore_ascii_case h.1 name)) headers ++ [(name, v)].
Definition with_header (c : HttpClient) (name v : string) : HttpClient :=
  mkClient (base_url c) (put_header (client_headers c) name v) (client_timeout_ms c) (retry c)
    (client_redirect_limit c) (jar c) (signing c).
Definition with_timeout (c : HttpClient) (ms : Z) : HttpClient :=
  mkClient (base_url c) (client_headers c) (Some ms) (retry c) (client_redirect_limit c) (jar c)
    (signing c).
Definition with_cookies (c : HttpClient) (jars : Jars) : Jars * HttpClient :=
  match jar c with
  | Some _ => (jars, c)
  | None =>
      let id := fresh (dom jars) in
      (<[id := empty_jar]> jars,
       mkClient (base_url c) (client_headers c) (client_timeout_ms c) (retry c)
         (client_redirect_limit c) (Some id) (signing c))
  end.
Definition with_signing (c : HttpClient) (key : SigningKey) : HttpClient :=
  mkClient (base_url c) (client_headers c) (client_timeout_ms c) (retry c) (client_redirect_limit c)
    (jar c) (Some key).
Definition with_redirect_limit (c : HttpClient) (limit : nat) : HttpClient :=
  mkClient (base_url c) (client_headers c) (client_timeout_ms c) (retry c) (Some limit) (jar c)
    (signing c).
Definition with_retry (c : HttpClient) (policy : RetryPolicy) : HttpClient :=
  mkClient (base_url c) (client_headers c) (client_timeout_ms c) (Some policy)
    (client_redirect_limit c) (jar c) (signing c).
Definition with_non_idempotent_retry (c : HttpClient) : HttpClient :=
  mkClient (base_url c) (client_headers c) (client_timeout_ms c)
    ((λ p, mkPolicy (max_retries p) (base_ms p) (on_status p) true) <$> retry c)
    (client_redirect_limit c) (jar c) (signing c).

(** [resolve], [build]. *)
Definition resolve (c : HttpClient) (target : string) : string :=
  if has_scheme target || negb (not_empty (base_url c)) then target
  else base_url c +:+ "/" +:+ trim_start_matches "/" target.
Definition build (c : HttpClient) (method target : string) (body : list Z)
    (call_headers : list (string * string)) : NetRequest :=
  mkNetRequest (to_ascii_uppercase method) (resolve c target)
    (foldl (λ hs h, put_header hs h.1 h.2) (client_headers c) call_headers) body
    (client_timeout_ms c) (client_redirect_limit c).

Definition jar_of (jars : Jars) (id : nat) : CookieJar := default empty_jar (jars !! id).
(** [stored_cookies], [store_cookie], [absorb]. *)
Definition stored_cookies (c : HttpClient) (jars : Jars) (now_ms : Z) : list Cookie :=
  match jar c with None => [] | Some id => stored <$> snapshot (jar_of jars id) now_ms end.
Definition store_cookie (c : HttpClient) (jars : Jars) (u : string) (k : Cookie) (now_ms : Z) :
    Jars * bool :=
  match jar c with
  | None => (jars, false)
  | Some id => let '(j, kept) := store (jar_of jars id) u (to_header k) now_ms in (<[id := j]> jars, kept)
  end.
Definition absorb (c : HttpClient) (jars : Jars) (u : string) (headers : list (string * string))
    (now_ms : Z) : Jars :=
  match jar c with
  | None => jars
  | Some id => <[id := store_response (jar_of jars id) u headers now_ms]> jars
  end.

Section Requests.
Context `{Crypto}.
(** [prepare]: the cookies of the jar, then the signature; [None] when it cannot be signed. *)
Definition with_jar (c : HttpClient) (jars : Jars) (request : NetRequest) (now_ms : Z) : NetRequest :=
  match jar c ≫= (λ id, header_for (jar_of jars id) (url request) now_ms) with
  | Some header =>
      if existsb (λ h, eq_ignore_ascii_case h.1 "cookie") (headers request) then request
      else mkNetRequest (method request) (url request)
             (headers request ++ [("cookie"%string, header)]) (body request)
             (timeout_ms request) (redirect_limit request)
  | None => request
  end.
Definition prepare (c : HttpClient) (jars : Jars) (request : NetRequest) (origin : string)
    (now_ms : Z) : option NetRequest :=
  let request := with_jar c jars request now_ms in
  match signing c with
  | Some key =>
      if bool_decide (origin_of (url request) = origin)
      then sign_request request key (as_i64 (now_ms / 1000))
      else Some request
  | None => Some request
  end.

Context {W : Type}.
Context (net_fetch : NetRequest -> W -> W * (NetError + NetResponse)).
Context (clock_unix_ms : W -> W * Z) (clock_delay : Z -> W -> W).
Context (signing_error : NetRequest -> SigningKey -> string).
Record ClientWorld := mkWorld { host : W; jars : Jars }.

(** [hop]. *)
Definition unsignable (c : HttpClient) (request : NetRequest) : NetError :=
  mkNetError OtherError (url request)
    match signing c with Some key => signing_error request key | None => EmptyString end.
Definition hop (c : HttpClient) (origin : string) (request : NetRequest) (w : ClientWorld) :
    ClientWorld * (NetError + NetResponse) :=
  match jar c, signing c with
  | None, None =>
      let '(h, outcome) := net_fetch request (host w) in (mkWorld h (jars w), outcome)
  | _, _ =>
      let '(h, now_ms) := clock_unix_ms (host w) in
      match prepare c (jars w) request origin now_ms with
      | None => (mkWorld h (jars w), inl (unsignable c request))
      | Some prepared =>
          let '(h, outcome) := net_fetch prepared h in
          match outcome with
          | inl error => (mkWorld h (jars w), inl error)
          | inr response =>
              let from := match response_url response with EmptyString => url request | u => u end in
              (mkWorld h (absorb c (jars w) from (response_headers response) now_ms), inr response)
          end
      end
  end.
(** [attempt]: the redirect chain, with fuel for one more hop than its limit. *)
Definition attempt (c : HttpClient) (request : NetRequest) (w : ClientWorld) : option (Chain ClientWorld) :=
  follow_redirects (hop c (origin_of (url request))) (S (limit_of request)) request w.

(** [perform]: the attempts that were made, oldest first, and the delays between them. *)
Record Performed := mkPerformed { attempts : list (Chain ClientWorld); delays : list Z }.
Definition retry_delay (p : RetryPolicy) (n : nat) (outcome : NetError + NetResponse) : option Z :=
  match outcome with
  | inl error => if retryable (error_kind error) then Some (delay_for p n None) else None
  | inr response =>
      if existsb (Z.eqb (status response)) (on_status p) then Some (delay_for p n (Some response)) else None
  end.
Fixpoint perform_loop (c : HttpClient) (p : RetryPolicy) (request : NetRequest) (budget n : nat)
    (w : ClientWorld) : option Performed :=
  chain ← attempt c request w;
  match budget with
  | O => Some (mkPerformed [chain] [])
  | S budget =>
      match retry_delay p n (outcome chain) with
      | None => Some (mkPerformed [chain] [])
      | Some delay =>
          let w := mkWorld (clock_delay (as_i64 delay) (host (world chain))) (jars (world chain)) in
          rest ← perform_loop c p request budget (S n) w;
          Some (mkPerformed (chain :: attempts rest) (delay :: delays rest))
      end
  end.
Definition perform (c : HttpClient) (request : NetRequest) (w : ClientWorld) : option Performed :=
  match retry c with
  | Some p =>
      if (0 <? max_retries p)%nat && should_retry_method p (method request)
      then perform_loop c p request (max_retries p) 0 w
      else chain ← attempt c request w; Some (mkPerformed [chain] [])
  | None => chain ← attempt c request w; Some (mkPerformed [chain] [])
  end.
End Requests.
Arguments ClientWorld : clear implicits.
Arguments Performed : clear implicits.

(** ** Links *)

(** [split_link_elements], [parse_link_header]. *)
Fixpoint link_parts (depth : nat) (s : string) : list string :=
  match s with
  | EmptyString => [EmptyString]
  | String c rest =>
      let keep depth :=
        match link_parts depth rest with
        | part :: parts => String c part :: parts
        | [] => [String c EmptyString]
        end in
      if char_eq c "<" then keep (S depth)
      else if char_eq c ">" then keep (pred depth)
      else if char_eq c "," && (depth =? 0)%nat then EmptyString :: link_parts depth rest
      else keep depth
  end.
Definition split_link_elements (v : string) : list string := link_parts 0 v.
Definition add_relation (target : string) (links : list (string * string)) (rel : string) :
    list (string * string) :=
  if existsb (λ l, bool_decide (l.1 = rel)) links then links else links ++ [(rel, trim target)].
Definition link_param (target : string) (links : list (string * string)) (param : string) :
    list (string * string) :=
  match split_once "=" param with
  | Some (name, raw) =>
      if eq_ignore_ascii_case (trim name) "rel"
      then foldl (add_relation target) links (split_whitespace (trim_matches double_quote (trim raw)))
      else links
  | None => links
  end.
Definition link_element (links : list (string * string)) (element : string) : list (string * string) :=
  match strip_prefix "<" (trim element) ≫= split_once ">" with
  | Some (target, params) => foldl (link_param target) links (split ";" params)
  | None => links
  end.
Definition parse_link_header (v : string) : list (string * string) :=
  foldl link_element [] (split_link_elements v).
(** [basic_auth_value]. *)
Definition basic_auth_value `{Crypto} (user password : string) : string :=
  "Basic " +:+ base64_encode (code <$> list_ascii_of_string (user +:+ ":" +:+ password)).
