(* ===== verification/HttpClientProps.v ===== *)
(** The HTTP client: a request ends within its budget of hops and retries, and what goes on the
    wire with it are the caller's headers, the jar's cookies for that URL, and a signature on the
    caller's own origin. *)
From Stdlib Require Import Strings.Ascii Strings.String.
From S2P Require Import Prelude Words Uri Redirect RedirectProps Cookies CookieProps Signature HttpClient.
From stdpp Require Import options.
Open Scope Z_scope.
Open Scope list_scope.

(** ** Budgets *)

Definition worth_retrying (p : RetryPolicy) (outcome : NetError + NetResponse) : Prop :=
  match outcome with
  | inl error => retryable (error_kind error) = true
  | inr response => status response ∈ on_status p
  end.
Lemma backoff_capped p n : backoff_ms p n <= MAX_BACKOFF_MS.
Proof. unfold backoff_ms. lia. Qed.
Lemma retry_delay_inv p n outcome delay : retry_delay p n outcome = Some delay ->
  worth_retrying p outcome /\ delay <= MAX_BACKOFF_MS.
Proof.
  assert (Hd : forall r, delay_for p n r <= MAX_BACKOFF_MS).
  { intros r. unfold delay_for. destruct (_ ≫= _); [lia|apply backoff_capped]. }
  unfold retry_delay, worth_retrying. destruct outcome as [e|r]; case_match eqn:E; try done; intros [= <-].
  - split; [done|apply Hd].
  - split; [|apply Hd]. apply existsb_exists in E as (x & Hx & Ex%Z.eqb_eq). subst x.
    by apply list_elem_of_In.
Qed.

Section Budget.
Context `{Crypto} {W : Type} (net_fetch : NetRequest -> W -> W * (NetError + NetResponse)).
Context (clock_unix_ms : W -> W * Z) (clock_delay : Z -> W -> W).
Context (signing_error : NetRequest -> SigningKey -> string).
Abbreviation hop := (hop net_fetch clock_unix_ms signing_error).
Abbreviation attempt := (attempt net_fetch clock_unix_ms signing_error).
Abbreviation perform_loop := (perform_loop net_fetch clock_unix_ms clock_delay signing_error).
Abbreviation perform := (perform net_fetch clock_unix_ms clock_delay signing_error).

Lemma attempt_returns c request w :
  exists chain, attempt c request w = Some chain /\ (1 <= length (sent chain) <= S (limit_of request))%nat /\
    head (sent chain) = Some request.
Proof using.
  unfold HttpClient.attempt, follow_redirects.
  destruct (follow_returns (hop c (origin_of (url request))) (S (limit_of request)) request 0 w)
    as (chain & E & Hl); [lia|].
  exists chain. split; [done|]. split; [split; [by eapply follow_sends|]|].
  - by rewrite Nat.sub_0_r in Hl.
  - clear Hl. cbn [follow_from] in E. destruct (hop c _ request w) as [w' outcome].
    repeat case_match; simplify_eq/=; try done.
    destruct (follow_from _ _ _ _ _); simplify_eq/=. done.
Qed.
(** How many requests a client may send again. *)
Definition retries_of (c : HttpClient) (request : NetRequest) : nat :=
  match retry c with
  | Some p => if should_retry_method p (method request) then max_retries p else 0
  | None => 0
  end.
Definition within (retries : nat) (p : RetryPolicy) (request : NetRequest) (r : Performed W) : Prop :=
  (length (attempts r) <= S retries)%nat /\ length (attempts r) = S (length (delays r)) /\
  Forall (λ delay, delay <= MAX_BACKOFF_MS) (delays r) /\
  Forall (λ chain, (1 <= length (sent chain) <= S (limit_of request))%nat /\
                   head (sent chain) = Some request) (attempts r) /\
  Forall (λ chain, worth_retrying p (outcome chain)) (take (length (delays r)) (attempts r)).
Lemma perform_loop_returns c p request budget n w :
  exists r, perform_loop c p request budget n w = Some r /\ within budget p request r.
Proof using.
  revert n w. induction budget as [|budget IH]; intros n w;
    destruct (attempt_returns c request w) as (chain & E & Hs); cbn [HttpClient.perform_loop];
    rewrite E; cbn [mbind option_bind].
  - eexists. split; [reflexivity|]. unfold within. cbn. repeat split; try lia; try done; by constructor.
  - destruct (retry_delay p n (outcome chain)) as [delay|] eqn:Ed.
    + apply retry_delay_inv in Ed as [Hw Hd].
      edestruct (IH (S n)) as (rest & -> & Hl & Hn & Hds & Hch & Ho). eexists. split; [reflexivity|].
      unfold within. cbn. split; [lia|]. split; [lia|]. split; [by constructor|].
      split; by constructor.
    + eexists. split; [reflexivity|]. unfold within. cbn. repeat split; try lia; try done; by constructor.
Qed.

(** C25. A request of a client returns, whatever the hosts answer: after at most as many retries as
    its policy allows its method (none for a POST that is not opted in), each attempt starting
    over from the request itself and taking at most one request more than the redirect limit,
    each wait at most thirty seconds, and only after an outcome that the policy retries. *)
Theorem perform_stays_within_its_budget c request w :
  exists r, perform c request w = Some r /\
    within (retries_of c request) (default (new_policy 0) (retry c)) request r.
Proof using.
  unfold HttpClient.perform, retries_of.
  assert (Hone : forall p n, exists r,
    (chain ← attempt c request w; Some (mkPerformed [chain] [])) = Some r /\ within n p request r).
  { intros p n. destruct (attempt_returns c request w) as (chain & -> & Hs). eexists.
    split; [reflexivity|]. unfold within. cbn. repeat split; try lia; try done; by constructor. }
  destruct (retry c) as [p|]; [|apply Hone]. cbn [default].
  destruct (should_retry_method p (method request)); rewrite ?andb_true_r, ?andb_false_r; [|apply Hone].
  case Nat.ltb_spec; intros Hm; [apply perform_loop_returns|apply Hone].
Qed.
End Budget.

(** ** What goes on the wire *)

(** What a client did: the clock it read and the requests it put on the wire, with what came
    back. *)
Inductive Event :=
  | Tick (now_ms : Z)
  | Sent (request : NetRequest) (outcome : NetError + NetResponse).
(** The cookies a response brings: each [Set-Cookie] header, from the URL that answered. *)
Definition cookies_of (now_ms : Z) (request : NetRequest) (response : NetResponse) : list Received :=
  let from := match response_url response with EmptyString => url request | u => u end in
  (λ h, (from, h.2, now_ms)) <$>
    List.filter (λ h, eq_ignore_ascii_case h.1 "set-cookie") (response_headers response).
(** The headers that were received, oldest first, with the last reading of the clock. *)
Fixpoint received (now_ms : Z) (events : list Event) : list Received :=
  match events with
  | [] => []
  | Tick now_ms :: events => received now_ms events
  | Sent request (inr response) :: events => cookies_of now_ms request response ++ received now_ms events
  | Sent _ (inl _) :: events => received now_ms events
  end.
Definition last_tick (now_ms : Z) (events : list Event) : Z :=
  foldl (λ t e, match e with Tick t => t | Sent _ _ => t end) now_ms events.
Lemma received_app now_ms es fs :
  received now_ms (es ++ fs) = received now_ms es ++ received (last_tick now_ms es) fs.
Proof.
  revert now_ms. induction es as [|[t|r [e|p]] es IH]; intros now_ms; cbn; rewrite ?IH; [done..|].
  by rewrite app_assoc.
Qed.
Lemma last_tick_app now_ms es fs : last_tick now_ms (es ++ fs) = last_tick (last_tick now_ms es) fs.
Proof. apply foldl_app. Qed.
Lemma store_response_after log request response now_ms :
  let from := match response_url response with EmptyString => url request | u => u end in
  store_response (jar_after log) from (response_headers response) now_ms =
  jar_after (log ++ cookies_of now_ms request response).
Proof.
  cbv zeta. unfold cookies_of. cbv zeta. set (from := match response_url response with EmptyString => _ | u => u end).
  revert log. induction (response_headers response) as [|h headers IH]; intros log.
  { cbn. by rewrite app_nil_r. }
  unfold store_response in *. cbn [foldl List.filter].
  destruct (eq_ignore_ascii_case h.1 "set-cookie"); [|apply IH]. cbn [fmap list_fmap].
  rewrite cons_middle, app_assoc, <- IH. f_equal. unfold jar_after. by rewrite foldl_app.
Qed.

Definition of_a_signature (h : string * string) : Prop :=
  h.1 ∈ ["content-digest"; "signature-input"; "signature"]%string.

Section Wire.
Context (c : HttpClient) (log : list Received).
(** A jar as it is after some events: its client's holds what was there and what was received. *)
Definition holds_received (jars0 jars : Jars) (es : list Event) : Prop :=
  (forall id, jar c = Some id -> jar_of jars id = jar_after (log ++ received 0 es)) /\
  (forall id, jar c <> Some id -> jars !! id = jars0 !! id).
(** The cookie header of a request to a URL, sent after the events [es]: what the client's own jar
    has for the URL at the reading of the clock just before. *)
Definition from_the_jar (es : list Event) (u : string) (h : string * string) : Prop :=
  h.1 = "cookie"%string /\ is_Some (jar c) /\ exists past now_ms, es = past ++ [Tick now_ms] /\
    header_for (jar_after (log ++ received 0 past)) u now_ms = Some h.2.
(** A request on the wire that stands for a request of the chain. *)
Definition stands_for (origin : string) (es : list Event) (request wire : NetRequest) : Prop :=
  url wire = url request /\ method wire = method request /\ body wire = body request /\
  forall h, h ∈ headers wire ->
    h ∈ headers request \/ from_the_jar es (url request) h \/
    origin_of (url request) = origin /\ of_a_signature h.
Lemma set_header_in request name v h :
  h ∈ headers (set_header request name v) -> h ∈ headers request \/ h.1 = name.
Proof using.
  cbn [headers set_header]. rewrite elem_of_app, list_elem_of_In, filter_In, list_elem_of_singleton.
  intros [[Hh _]| ->]; [left; by apply list_elem_of_In|by right].
Qed.
Lemma prepare_stands_for `{Crypto} jars0 jars es request origin now_ms wire :
  holds_received jars0 jars es -> prepare c jars request origin now_ms = Some wire ->
  stands_for origin (es ++ [Tick now_ms]) request wire.
Proof using.
  intros [Hj _] E. unfold prepare in E. cbv zeta in E.
  set (r := with_jar c jars request now_ms) in *.
  assert (Hr : url r = url request /\ method r = method request /\ body r = body request /\
    forall h, h ∈ headers r -> h ∈ headers request \/ from_the_jar (es ++ [Tick now_ms]) (url request) h).
  { unfold r, with_jar. destruct (jar c) as [id|] eqn:Ej; cbn [mbind option_bind]; [|by auto].
    destruct (header_for (jar_of jars id) (url request) now_ms) as [header|] eqn:Eh; [|by auto].
    destruct (existsb _ (headers request)); [by auto|]. repeat (split; [done|]). cbn.
    intros h. rewrite elem_of_app, list_elem_of_singleton. intros [?| ->]; [auto|right].
    split; [done|]. split; [by rewrite Ej|]. exists es, now_ms. split; [done|]. by rewrite <- (Hj id). }
  destruct Hr as (Hu & Hm & Hb & Hh).
  assert (Hself : stands_for origin (es ++ [Tick now_ms]) request r).
  { repeat (split; [done|]). intros h ?%Hh. tauto. }
  destruct (signing c) as [key|]; [|by injection E as <-].
  case_bool_decide as Ho; [|by injection E as <-]. rewrite Hu in Ho. unfold sign_request in E. cbv zeta in E.
  destruct (signature_base _ _) as [base|]; [|done]. injection E as <-.
  assert (Hd : url (with_digest r key) = url r /\ method (with_digest r key) = method r /\
    body (with_digest r key) = body r)
    by (unfold with_digest; by destruct (covers_content_digest key)).
  destruct Hd as (Hdu & Hdm & Hdb).
  split; [by rewrite <- Hu, <- Hdu|]. split; [by rewrite <- Hm, <- Hdm|]. split; [by rewrite <- Hb, <- Hdb|].
  assert (Hs : forall h, h ∈ headers (with_digest r key) -> h ∈ headers r \/ of_a_signature h).
  { unfold with_digest. destruct (covers_content_digest key); [|by auto].
    intros h [?|E]%set_header_in; [by left|right]. unfold of_a_signature. rewrite E. by left. }
  intros h [[Hin|E]%set_header_in|E]%set_header_in.
  - destruct (Hs h Hin) as [?%Hh|?]; tauto.
  - right. right. split; [done|]. unfold of_a_signature. rewrite E. right. by left.
  - right. right. split; [done|]. unfold of_a_signature. rewrite E. right. right. by left.
Qed.
(** Each request sent in some events, after [es], satisfies [P] of what came before it. *)
Definition each_sent (P : list Event -> NetRequest -> Prop) (es fs : list Event) : Prop :=
  forall past x o future, fs = past ++ Sent x o :: future -> P (es ++ past) x.
Lemma each_sent_app P es fs gs :
  each_sent P es fs -> each_sent P (es ++ fs) gs -> each_sent P es (fs ++ gs).
Proof using.
  intros Hf Hg past x o future E. apply app_eq_inv in E as [(k & -> & E)|(k & -> & E)].
  - destruct k as [|e k]; cbn in E.
    + subst gs. rewrite app_nil_r in *. rewrite <- (app_nil_r past), app_assoc. by eapply (Hg []).
    + injection E as <- _. by eapply Hf.
  - rewrite app_assoc. by eapply Hg.
Qed.
Lemma each_sent_mono (P Q : list Event -> NetRequest -> Prop) es fs :
  (forall es x, P es x -> Q es x) -> each_sent P es fs -> each_sent Q es fs.
Proof using. intros HPQ Hf past x o future E. by eapply HPQ, Hf. Qed.
End Wire.

(** A host that keeps the events. *)
Section Recorded.
Context `{Crypto} {W : Type} (net_fetch : NetRequest -> W -> W * (NetError + NetResponse)).
Context (clock_unix_ms : W -> W * Z) (clock_delay : Z -> W -> W).
Context (signing_error : NetRequest -> SigningKey -> string).
Abbreviation World := (W * list Event)%type.
Definition recorded_fetch (r : NetRequest) (w : World) : World * (NetError + NetResponse) :=
  let '(h, outcome) := net_fetch r w.1 in ((h, w.2 ++ [Sent r outcome]), outcome).
Definition recorded_clock (w : World) : World * Z :=
  let '(h, now_ms) := clock_unix_ms w.1 in ((h, w.2 ++ [Tick now_ms]), now_ms).
Definition recorded_delay (ms : Z) (w : World) : World := (clock_delay ms w.1, w.2).
Definition events (w : ClientWorld World) : list Event := (host w).2.
Abbreviation hop := (hop recorded_fetch recorded_clock signing_error).

(** From a world with the events [start ++ es], where the jar holds what was received in [es], to
    one with [fs] more. *)
Record went (P : list Event -> NetRequest -> Prop) c log jars0 start es (w' : ClientWorld World) fs : Prop := {
  went_events : events w' = start ++ es ++ fs;
  went_jar : holds_received c log jars0 (jars w') (es ++ fs);
  went_sent : each_sent P es fs;
}.
Lemma hop_cases c origin request w w' outcome :
  hop c origin request w = (w', outcome) ->
  (jar c = None /\ jars w' = jars w /\ events w' = events w ++ [Sent request outcome]) \/
  exists now_ms,
    (jars w' = jars w /\ events w' = events w ++ [Tick now_ms]) \/
    exists x, prepare c (jars w) request origin now_ms = Some x /\
      events w' = events w ++ [Tick now_ms; Sent x outcome] /\
      jars w' = match outcome with
                | inl _ => jars w
                | inr response =>
                    absorb c (jars w)
                      (match response_url response with EmptyString => url request | u => u end)
                      (response_headers response) now_ms
                end.
Proof using.
  unfold HttpClient.hop, recorded_clock, recorded_fetch, events.
  destruct (jar c) as [id|], (signing c) as [key|].
  4:{ destruct (net_fetch request (host w).1) as [h o]. intros [= <- <-]. by left. }
  all: right; destruct (clock_unix_ms (host w).1) as [h now_ms]; exists now_ms;
    destruct (prepare c (jars w) request origin now_ms) as [x|] eqn:Ep; [right|left; by simplify_eq/=];
    cbn [fst snd] in *; destruct (net_fetch x h) as [h' [error|response]] eqn:Ef; simplify_eq/=;
    exists x; by rewrite <- app_assoc.
Qed.
Lemma absorb_received c log jars0 js es request x response now_ms :
  holds_received c log jars0 js es -> url x = url request ->
  holds_received c log jars0
    (absorb c js (match response_url response with EmptyString => url request | u => u end)
       (response_headers response) now_ms) (es ++ [Tick now_ms; Sent x (inr response)]).
Proof using.
  intros [Hj Hf] Hu. unfold absorb, holds_received, jar_of in *. rewrite received_app. cbn [received].
  rewrite app_nil_r, app_assoc. destruct (jar c) as [id|]; [|done].
  split; intros id' Hid.
  - injection Hid as <-. rewrite lookup_insert_eq. cbn [default]. rewrite (Hj id eq_refl), <- Hu.
    apply store_response_after.
  - rewrite lookup_insert_ne by congruence. by apply Hf.
Qed.
Lemma holds_received_more c log jars0 js es fs :
  jar c = None \/ received (last_tick 0 es) fs = [] ->
  holds_received c log jars0 js es -> holds_received c log jars0 js (es ++ fs).
Proof using.
  intros Hor [Hj Hf]. split; [|done]. intros id Hid. destruct Hor as [E|E]; [congruence|].
  by rewrite received_app, E, app_nil_r, (Hj id).
Qed.
Lemma hop_went c log jars0 start es origin request w w' outcome :
  events w = start ++ es -> holds_received c log jars0 (jars w) es ->
  hop c origin request w = (w', outcome) ->
  exists fs, went (λ es x, stands_for c log origin es request x) c log jars0 start es w' fs.
Proof using.
  intros Ew Hj [(Hn & Ej & Ee)|(now_ms & [(Ej & Ee)|(x & Ep & Ee & Ej)])]%hop_cases;
    eexists; (split; [rewrite Ee, Ew, <- app_assoc; reflexivity|rewrite Ej|]).
  - apply holds_received_more; [by left|done].
  - intros [|? [|]] y o future [=]; subst. repeat (split; [done|]). tauto.
  - apply holds_received_more; [by right|done].
  - intros [|? [|]] y o future [=].
  - destruct outcome as [error|response]; [apply holds_received_more; [by right|done]|].
    apply absorb_received; [done|]. by destruct (prepare_stands_for _ _ _ _ _ _ _ _ _ Hj Ep).
  - intros [|? [|? [|]]] y o future [=]; subst. by eapply prepare_stands_for.
Qed.
Lemma went_trans P c log jars0 start es w1 fs w2 gs :
  went P c log jars0 start es w1 fs -> went P c log jars0 start (es ++ fs) w2 gs ->
  went P c log jars0 start es w2 (fs ++ gs).
Proof using.
  intros [E1 _ S1] [E2 J2 S2]. split; [by rewrite E2, <- app_assoc|by rewrite app_assoc|].
  by apply each_sent_app.
Qed.
Lemma went_mono (P Q : list Event -> NetRequest -> Prop) c log jars0 start es w fs :
  (forall es x, P es x -> Q es x) ->
  went P c log jars0 start es w fs -> went Q c log jars0 start es w fs.
Proof using. intros HPQ [E J S']. split; [done|done|]. by eapply each_sent_mono. Qed.
Lemma prepare_url c jars request origin now_ms r :
  prepare c jars request origin now_ms = Some r -> url r = url request.
Proof using.
  unfold prepare. cbv zeta. assert (Hu : url (with_jar c jars request now_ms) = url request).
  { unfold with_jar. destruct (_ ≫= _); [|done]. by destruct (existsb _ _). }
  destruct (signing c) as [key|]; [|by intros [= <-]]. case_bool_decide; [|by intros [= <-]].
  unfold sign_request. cbv zeta. destruct (signature_base _ _); [|done]. intros [= <-].
  cbn [url set_header]. unfold with_digest. by destruct (covers_content_digest key).
Qed.
Lemma hop_stamps c origin : stamps_origin net_fetch -> stamps_origin (hop c origin).
Proof using.
  intros Hst request w w' response. unfold HttpClient.hop, recorded_fetch, recorded_clock.
  destruct (jar c) as [id|], (signing c) as [key|]; intros E; repeat case_match; simplify_eq/=;
    try match goal with Hp : prepare _ _ _ _ _ = Some _ |- _ => apply prepare_url in Hp as <- end;
    by eapply Hst.
Qed.
(** A request on the wire stands for one of the requests of the chain. *)
Definition stands_in (c : HttpClient) log origin (chain : Chain (ClientWorld World)) es x : Prop :=
  exists r, r ∈ sent chain /\ stands_for c log origin es r x.
Lemma follow_went c log jars0 start origin fuel current hops es w chain :
  events w = start ++ es -> holds_received c log jars0 (jars w) es ->
  follow_from (hop c origin) fuel current hops w = Some chain ->
  exists fs, went (stands_in c log origin chain) c log jars0 start es (world chain) fs.
Proof using.
  revert current hops es w chain. induction fuel as [|fuel IH]; intros current hops es w chain Ew Hj; [done|].
  cbn [follow_from]. destruct (hop c origin current w) as [w1 outcome] eqn:Eh.
  destruct (hop_went _ _ _ _ _ _ _ _ _ _ Ew Hj Eh) as [fs Hw].
  assert (Hdone : forall chain', Some (mkChain w1 outcome [current]) = Some chain' ->
    exists fs, went (stands_in c log origin chain') c log jars0 start es (world chain') fs).
  { intros chain' [= <-]. exists fs. eapply went_mono; [|exact Hw]. intros es' x ?.
    exists current. split; [by left|done]. }
  destruct (limit_of current <=? hops)%nat; [apply Hdone|].
  destruct outcome as [error|response]; [apply Hdone|].
  destruct (redirect_target current response hops) as [next|]; [|apply Hdone].
  destruct (follow_from _ fuel next (S hops) w1) as [rest|] eqn:Er; [|done]. intros [= <-].
  destruct (IH next (S hops) (es ++ fs) w1 rest) as [gs Hg]; [apply Hw|apply Hw|done|].
  exists (fs ++ gs). eapply went_trans; (eapply went_mono; [|done]); intros es' x.
  - intros ?. exists current. split; [by left|done].
  - intros (r & ? & ?). exists r. split; [by right|done].
Qed.

(** What a request of a client may put on the wire after some events. *)
Definition confined (c : HttpClient) log (request : NetRequest) es (x : NetRequest) : Prop :=
  forall h, h ∈ headers x ->
    (h ∈ headers request /\ (is_credential h = true -> same_origin (url x) (url request) = true)) \/
    from_the_jar c log es (url x) h \/
    (same_origin (url x) (url request) = true /\ of_a_signature h).
Abbreviation attempt := (attempt recorded_fetch recorded_clock signing_error).
Lemma attempt_went c log jars0 start es request w chain :
  stamps_origin net_fetch -> events w = start ++ es -> holds_received c log jars0 (jars w) es ->
  attempt c request w = Some chain ->
  exists fs, went (confined c log request) c log jars0 start es (world chain) fs.
Proof using.
  intros Hst Ew Hj E. unfold HttpClient.attempt, follow_redirects in E.
  pose proof (follow_confines _ _ _ _ _ _ (hop_stamps c _ Hst) E) as Hc.
  destruct (follow_went _ _ _ _ _ _ _ _ _ _ _ Ew Hj E) as [fs Hw]. exists fs.
  eapply went_mono; [|exact Hw]. intros es' x (r & Hr & Hu & _ & _ & Hh) h Hin.
  rewrite Forall_forall in Hc. specialize (Hc r Hr).
  rewrite Hu. destruct (Hh h Hin) as [Hh'|[Hf|[Ho Hs]]]; [left; by apply Hc|by right; left|].
  right. right. split; [|done]. unfold same_origin. by apply bool_decide_true.
Qed.
Abbreviation perform_loop := (perform_loop recorded_fetch recorded_clock recorded_delay signing_error).
Definition arrived_at P c log jars0 start es (r : Performed World) : Prop :=
  exists final fs, last (attempts r) = Some final /\ went P c log jars0 start es (world final) fs.
Lemma single_attempt_went c log jars0 start es request w r :
  stamps_origin net_fetch -> events w = start ++ es -> holds_received c log jars0 (jars w) es ->
  (chain ← attempt c request w; Some (mkPerformed [chain] [])) = Some r ->
  arrived_at (confined c log request) c log jars0 start es r.
Proof using.
  intros Hst Ew Hj. destruct (attempt c request w) as [chain|] eqn:E; [|done]. intros [= <-].
  destruct (attempt_went _ _ _ _ _ _ _ _ Hst Ew Hj E) as [fs Hw]. by exists chain, fs.
Qed.
Lemma perform_loop_went c log jars0 start p request budget : forall n es w r,
  stamps_origin net_fetch -> events w = start ++ es -> holds_received c log jars0 (jars w) es ->
  perform_loop c p request budget n w = Some r ->
  arrived_at (confined c log request) c log jars0 start es r.
Proof using.
  induction budget as [|budget IH]; intros n es w r Hst Ew Hj; cbn [HttpClient.perform_loop];
    [by apply single_attempt_went|].
  destruct (attempt c request w) as [chain|] eqn:E; [|done]. cbn [mbind option_bind].
  destruct (attempt_went _ _ _ _ _ _ _ _ Hst Ew Hj E) as [fs Hw].
  destruct (retry_delay p n (outcome chain)) as [delay|]; [|intros [= <-]; by exists chain, fs].
  set (w2 := mkWorld _ _). destruct (perform_loop c p request budget (S n) w2) as [rest|] eqn:Er; [|done].
  intros [= <-].
  destruct (IH (S n) (es ++ fs) w2 rest Hst) as (final & gs & Hlast & Hg); [apply Hw|apply Hw|done|].
  exists final, (fs ++ gs). cbn [attempts]. split; [by rewrite last_cons, Hlast|]. by eapply went_trans.
Qed.

(** C10. A client gives its credentials to the origin they are for. Every request it puts on the
    wire, over all hops and retries, carries the caller's own headers, of which credentials go
    to the caller's origin only; besides them, signature headers on the caller's origin only; and
    a cookie header only of the client's own jar, for exactly that URL at the time read just
    before, where the jar holds what it held and the cookies received so far in this very run,
    each filed under the URL of the response that brought it. No other jar is touched. *)
Theorem clients_keep_credentials_home c log request w r :
  stamps_origin net_fetch -> (forall id, jar c = Some id -> jar_of (jars w) id = jar_after log) ->
  perform recorded_fetch recorded_clock recorded_delay signing_error c request w = Some r ->
  exists final es, last (attempts r) = Some final /\ events (world final) = events w ++ es /\
    (forall past x outcome future, es = past ++ Sent x outcome :: future ->
       confined c log request past x) /\
    holds_received c log (jars w) (jars (world final)) es.
Proof using.
  intros Hst Hj E.
  assert (H0 : holds_received c log (jars w) (jars w) []).
  { split; [|done]. intros id Hid. cbn. rewrite app_nil_r. by apply Hj. }
  assert (Ew : events w = events w ++ []) by by rewrite app_nil_r.
  assert (Ha : arrived_at (confined c log request) c log (jars w) (events w) [] r).
  { unfold perform in E. destruct (retry c) as [p|]; [|by eapply single_attempt_went].
    destruct (_ && _); [by eapply perform_loop_went|by eapply single_attempt_went]. }
  destruct Ha as (final & fs & Hl & [Hf Hr Hs]). exists final, fs.
  split; [done|]. split; [done|]. split; [|done]. intros past x o future Ep. by eapply Hs.
Qed.
End Recorded.

(** ** Configuration *)

Definition header_of (headers : list (string * string)) (name : string) : option string :=
  snd <$> head (List.filter (λ h, eq_ignore_ascii_case h.1 name) headers).
Lemma put_header_finds headers name v other :
  header_of (put_header headers name v) other =
  if eq_ignore_ascii_case name other then Some v else header_of headers other.
Proof.
  unfold header_of, put_header. induction headers as [|h l IH]; cbn [List.filter app fst].
  - by destruct (eq_ignore_ascii_case name other).
  - destruct (eq_ignore_ascii_case h.1 name) eqn:E; cbn [negb].
    + rewrite IH. destruct (eq_ignore_ascii_case name other) eqn:Eo; [done|].
      rewrite (eq_ignore_trans h.1 name other); [done|done|].
      by apply bool_decide_eq_false in Eo.
    + cbn [app List.filter]. destruct (eq_ignore_ascii_case h.1 other) eqn:Eo; [|exact IH]. cbn.
      destruct (eq_ignore_ascii_case name other) eqn:En; [|done].
      unfold eq_ignore_ascii_case in *. apply bool_decide_eq_true in Eo, En.
      apply bool_decide_eq_false in E. congruence.
Qed.
(** A built request answers a header from the last call header of the name, else from the client. *)
Lemma built_headers c method target body call name :
  header_of (headers (build c method target body call)) name =
  match header_of (rev call) name with Some v => Some v | None => header_of (client_headers c) name end.
Proof.
  unfold build. cbn [headers]. generalize (client_headers c). induction call as [|h call IH] using rev_ind;
    intros hs; [done|].
  rewrite foldl_app, rev_app_distr. cbn [foldl rev app]. rewrite put_header_finds, IH.
  unfold header_of. cbn [List.filter]. by destruct (eq_ignore_ascii_case h.1 name).
Qed.

Module HttpClientExample.
Import SignatureExample.

(** An API that is busy once, then sets a cookie and moves the caller on, first to itself and then
    to another host. *)
Definition api (request : NetRequest) (hits : nat) : nat * (NetError + NetResponse) :=
  (S hits,
   if bool_decide (url request = "https://api.test/login"%string) then
     if (hits <? 1)%nat
     then inr (mkNetResponse 503 [("Retry-After", "2")]%string [] (url request))
     else inr (mkNetResponse 302 [("Location", "/home"); ("Set-Cookie", "sid=abc; Path=/")]%string []
                 (url request))
   else if bool_decide (url request = "https://api.test/home"%string)
   then inr (mkNetResponse 302 [("Location", "//cdn.test/done")]%string [] (url request))
   else inr (mkNetResponse 200 [] [7] (url request))).
Definition client : HttpClient :=
  mkClient "https://api.test" [("Authorization", "secret"); ("Accept", "*/*")]%string None
    (Some (new_policy 2)) None (Some 0%nat) (Some (new_key "svc" [1; 2; 3])).
Definition call : NetRequest := build client "get" "login" [] [("accept", "text/plain")]%string.
Definition start : ClientWorld (nat * list Event) := mkWorld (0%nat, []) {[0%nat := empty_jar]}.
Definition clock (hits : nat) : nat * Z := (hits, 1700000000000).
Definition run : option (Performed (nat * list Event)) :=
  perform (recorded_fetch api) (recorded_clock clock) (recorded_delay (λ _ h, h)) (λ _ _, EmptyString)
    client call start.
Definition wire (es : list Event) : list NetRequest :=
  omap (λ e, match e with Sent x _ => Some x | Tick _ => None end) es.
Definition history : list Event :=
  from_option (λ r, from_option (λ c, events (world c)) [] (last (attempts r))) [] run.
Example the_wire :
  Some ((λ x, (url x, fst <$> headers x)) <$> wire history) =
  Some [("https://api.test/login", ["Authorization"; "accept"; "signature-input"; "signature"]);
        ("https://api.test/login", ["Authorization"; "accept"; "signature-input"; "signature"]);
        ("https://api.test/home", ["Authorization"; "accept"; "cookie"; "signature-input"; "signature"]);
        ("https://cdn.test/done", ["accept"])]%string /\
  delays <$> run = Some [2000] /\
  received 0 history = [("https://api.test/login", "sid=abc; Path=/", 1700000000000)]%string.
Proof. repeat split; vm_compute; reflexivity. Qed.

Lemma api_stamps : stamps_origin api.
Proof.
  intros request w w' response E. right. unfold api in E.
  assert (response_url response = url request) as -> by (repeat case_match; by simplify_eq/=).
  unfold same_origin. by apply bool_decide_true.
Qed.
Lemma start_empty id : jar client = Some id -> jar_of (jars start) id = jar_after [].
Proof. by intros [= <-]. Qed.
Lemma clients_keep_credentials_home_witness :
  exists r final es, run = Some r /\ last (attempts r) = Some final /\
    events (world final) = events start ++ es /\
    forall past x outcome future, es = past ++ Sent x outcome :: future -> confined client [] call past x.
Proof.
  destruct run as [r|] eqn:E; [|vm_compute in E; discriminate E]. exists r.
  destruct (clients_keep_credentials_home api clock (λ _ h, h) (λ _ _, EmptyString) client [] call start r
    api_stamps start_empty E) as (final & es & Hl & He & Hs & _).
  exists final, es. split; [reflexivity|]. split; [exact Hl|]. split; [exact He|exact Hs].
Defined.
End HttpClientExample.
